(* ===== verification/_CoqProject ===== *)
-Q . S2P
Prelude.v
Bytes.v
Varint.v
Windows.v
Coders.v
CoderTypes.v
CoderGraph.v
Rows.v
CoderProperties.v
Arrow.v
RecordTables.v
Watermark.v
WatermarkRefresh.v
WatermarkBundles.v
WatermarkInvariant.v
Trigger.v
TriggerProperties.v
WindowMerge.v
Gbk.v
GbkSpec.v
GbkInput.v
GbkInputSpec.v
GbkRunSpec.v
GbkProperties.v
Metrics.v
MetricsSpec.v
MetricsProperties.v
Sdf.v
SdfSpec.v
SdfProperties.v
ArrowSpec.v
RecordTableSpec.v
RecordProperties.v
WindowColumns.v
WindowColumnsSpec.v
Kv.v
UserState.v
Multimap.v
Timers.v
StateProperties.v
Scheduler.v
SchedulerSpec.v
SdfBundle.v
Dispatcher.v
DispatcherLedger.v
DispatcherSpec.v
DispatcherSteps.v
DispatcherOutcome.v
DispatcherReturn.v
DispatcherProperties.v
ElementStore.v
ElementStoreSpec.v
ElementProperties.v
WatermarkProperties.v
Pipeline.v
StageFuser.v
StageFuserSpec.v
PipelineFuser.v
PipelineFuserSpec.v
FusionLoopSpec.v
Dedup.v
DedupLoopSpec.v
FusionOutcome.v
FusionProperties.v
Expander.v
ExpanderSpec.v
ExecGraph.v
SplittableRun.v
ExecGraphSpec.v
ExecGraphOutcome.v
Job.v
JobProperties.v
SideInputs.v
SideInputSpec.v
StateService.v
StateServiceSpec.v
HarnessProperties.v
BundleIo.v
BundleIoSpec.v
BundleIoProperties.v
