(* ===== verification/Prelude.v ===== *)
(** * A verification development for FlareDB

    FlareDB (src/flaredb) is a portable Apache Beam runner.  A job is submitted as
    a pipeline proto; the pipeline is fused into stages, the scheduler starts
    bundles of those stages, and an SDK harness runs the user code.  Between the
    bundles the runner keeps event-time progress (watermarks), durable user state
    and durable timers, decides when windows fire (triggers) and moves elements in
    Beam's wire format (coders).  This library models those parts as executable
    definitions and proves what they promise each other.

    ** How the parts interact

    - A job is made of a pipeline ([create_job]): its splittable ParDos are expanded into
      chains of steps ([update_transform]); the components become a graph of primitive
      transforms and PCollections ([queryable_new]); the fuser cuts it into stages for the
      SDKs and transforms for the runner ([fuse_pipeline]); and a walk from the roots
      turns these into the executable graph ([executable_graph_from]).
    - A job's [ExecutableGraph] becomes a [WatermarkManager]
      ([from_executable_graph]); the scheduler polls it with [next_nodes], which
      opens bundles for ready stages, and reports completions with
      [mark_complete_with_min_and_input], which wakes the consumers of the
      bundle's outputs and refreshes the watermarks.
    - Moving watermarks makes event-time timers due: [promote_due_event_time_timers]
      asks the timer service for them and re-arms the stages that own them.
      Processing-time timers are found by the firing loop of the timer service.
    - User state and timers live in a key/value store; state passes through a
      write-back cache first.
    - While a bundle runs, the SDK harness asks the state service for user state and side
      inputs ([drive_state_requests]): the side inputs registered for the graph
      ([side_inputs_from_executable_graph]) are read from materialised PCollections.
    - A group-by-key stage ([execute]) groups the rows appended since its last run by
      key and window, merges sessions itself and custom windows through the merge
      service, holds the elements of each group with its trigger state, and emits
      panes when the trigger or the input watermark says so.
    - A splittable stage polls the progress of its bundle and asks the SDK to split it
      ([monitor_ticks]); what is given up returns to the scheduler as work items whose
      holds keep the watermarks back.
    - The dispatcher's loop ([next_phase]) composes these parts for one job: it sets the
      holds of timers and work items in the manager, promotes due timers, starts the
      bundles that the scheduler hands it, and joins those that end; a bundle of a
      splittable stage takes a work item and hands others back ([execute_bundle]).  The
      bundles run beside the loop and are its environment ([env_step]).
    - What bundles report as metrics is folded into one value per identity ([record]).
    - PCollections are materialised as append-only tables: a row per windowed value, with
      the columns of its record and the reserved columns of its window metadata
      ([build_windowed_batch]).  The writer of a bundle stages its batches and commits them at
      once; every reader of a table keeps a durable cursor in the key/value store and is
      handed what was committed since.
    - A bundle of a stage registers a descriptor ([bundle_descriptor]) and moves elements
      over the data channel: its input is read from the element store, encoded and sent
      ([process_input]), its outputs are routed to their queues ([route_elements]),
      decoded and written ([process_output]); the timers it sets are stored
      ([drain_timer_elements]) and those that fire are sent to it ([send_fired_timers]).
    - Elements, windows, timers and rows cross the data plane in the formats of the
      coders, which are resolved from the pipeline's coder graph.

    ** Files

    Shared vocabulary:
    - [Prelude]: the outcome type of fallible Rust code ([Ok], [Err], [Panic]) with
      its monad, machine-width integers, tactics, hint databases and generic lemmas
      on lists, maps and arithmetic, and reasoning about runs of state-passing code
      ([inv_st], [hoare]).
    - [Bytes]: bytes, big-endian integers, a reader monad for the accessors of the
      [bytes] crate (which panic on a short buffer), UTF-8 strings.

    Coders (coders/primitives.rs, coders/mod.rs, coders/row.rs, coders/schema.rs,
    store/record.rs):
    - [Varint]: LEB128 and length-delimited byte strings.
    - [Windows]: timestamps, windows, panes, the windowed-value header and binary
      window keys ([BeamWindow], [PaneInfo], [WindowCoder]).
    - [Coders]: the standard coders over [Record] values, in nested and outermost
      context ([encode], [decode], [decode_nested], [decode_element]), with the
      chunked form of iterables; windowed values and user timers on the wire.
    - [CoderTypes]: which records a coder reads and writes.
    - [CoderGraph]: resolution of a coder id through the coder map ([from_urn]) and
      the rewrite that wraps pickled leaves in length prefixes.
    - [Rows]: schema resolution and the row coder.
    - [CoderProperties]: the claims about them.

    Fusion (fusion/pipeline.rs, fusion/refs.rs, fusion/fuser.rs, fusion/stage.rs,
    fuse_pipeline of jobservice/job.rs):
    - [Pipeline]: the messages, the graph of a pipeline and its queries.
    - [StageFuser], [StageFuserSpec]: growing a stage from its roots; which transforms
      can run together; dangling inputs; what the graph holds of the components and what
      a stage holds once it has grown.
    - [PipelineFuser], [PipelineFuserSpec]: the consumers below a PCollection, groups of
      siblings, the loop over pending groups.
    - [FusionLoopSpec]: groups of complete sets of consumers do not overlap in part, the
      loop ends and leaves no consumer out.
    - [Dedup], [DedupLoopSpec]: unique ids, the producers of shared PCollections, their
      renaming and the Flattens that merge the parts.
    - [FusionOutcome], [FusionProperties]: the fused pipeline; the claims about fusion.

    The graph of a job (fusion/expander.rs, fusion/pipeline.rs, jobservice/job.rs):
    - [Expander], [ExpanderSpec]: replacing transforms, the steps of a splittable ParDo;
      what one replacement adds and what the loop over all transforms keeps.
    - [ExecGraph]: consumer links, runs of splittable stages, the walk from the roots.
    - [SplittableRun]: which stages a run takes in, what leaves it, its plan.
    - [ExecGraphSpec], [ExecGraphOutcome]: the invariant of the walk, its end; the
      consumer links, the roots, the graph that results.
    - [Job], [JobProperties]: the making of a job, the store of jobs; the claims.

    State service (engine/harness/state.rs, resolve_window_coder of engine/runtime.rs):
    - [SideInputs], [SideInputSpec]: the registry of side inputs, PCollections encoded per
      window, reads; what a read answers.
    - [StateService], [StateServiceSpec]: the dispatch of state requests and the driver;
      the service over a finite map that they refine.
    - [HarnessProperties]: the claims about the state service.

    Progress of a job (engine/watermark.rs, engine/scheduler.rs,
    fusion/pipeline.rs, fusion/stage.rs):
    - [Watermark]: the state of the manager and every operation of it.
    - [WatermarkRefresh]: the propagation loop computes a least fixpoint, and ends.
    - [WatermarkBundles], [WatermarkInvariant]: the invariant of the manager under
      every operation, what completing a bundle does, progress.
    - [Scheduler], [SchedulerSpec]: the executable graph, the scheduler over the
      manager, and what it guarantees.
    - [WatermarkProperties]: the claims about manager and scheduler.

    Triggers (engine/trigger.rs):
    - [Trigger], [TriggerProperties]: the trigger tree and its runner.

    Group-by-key (transforms/gbk.rs, engine/window.rs):
    - [WindowMerge]: canonical window keys, the choice of a window coder, the merge
      service: its cache, the wire format of its questions and answers, their check.
    - [Gbk]: the state of a stage: groups, firing, draining.
    - [GbkSpec]: what applying a group and sweeping the state do; the invariant.
    - [GbkInput]: window columns flattened, sorted rows decoded into key groups,
      session and custom merging, and a whole execution.
    - [GbkInputSpec], [GbkRunSpec]: what the input side yields; one run, many runs.
    - [GbkProperties]: the claims about group-by-key and window merging.

    Metrics (engine/metrics.rs):
    - [Metrics], [MetricsSpec], [MetricsProperties]: the store of metric cells, their
      abstract values, the refinement.

    Splittable DoFns (engine/sdf.rs):
    - [Sdf], [SdfSpec], [SdfProperties]: the split monitor, residuals and
      whole-element items, and one bundle's ticks.

    The dispatcher (engine/dispatcher.rs, engine/sdf.rs):
    - [SdfBundle]: one bundle of a splittable stage: initialization, process stage, outcome.
    - [Dispatcher]: the state of a run and every operation of the loop; the loop as a
      machine with a step per await point ([next_phase]), what bundles may do beside it
      ([env_step]), and the runs that result ([reaches]).
    - [DispatcherLedger]: the counts and holds that the manager keeps per stage, and what
      each of its operations does to them.
    - [DispatcherSpec], [DispatcherSteps], [DispatcherOutcome]: the books of the dispatcher
      agree with these ledgers; every operation and every step keeps them so; what
      promoting and firing timers does to store and stages, what joining a splittable
      bundle queues, what is true when the graph is complete.
    - [DispatcherReturn]: rounds without a bundle use something up; what is left when the
      loop ends.
    - [DispatcherProperties]: the claims about the dispatcher.

    Record tables (store/record.rs):
    - [Arrow]: the storage type of a record, the column of a list of records, the
      decoding of its rows ([nested_value_storage_type],
      [nested_values_to_array], [nested_value_from_array_row]).
    - [RecordTables]: the table schema and the batch of a PCollection's records, the
      rewriting of [Null] columns for a table format that has none, and the types that a
      table gives to Arrow and Beam row schemas.
    - [ArrowSpec], [RecordTableSpec]: an array is the column of its records, and the
      batches of records give them back.
    - [RecordProperties]: the claims about record tables.

    Element store (store/element_store.rs):
    - [WindowColumns], [WindowColumnsSpec]: the reserved columns that keep timestamp,
      windows and pane of a row; windowed values survive them.
    - [ElementStore]: tables of PCollections, minimum event times, cursors, whole,
      incremental and streaming reads, the writer of a bundle.
    - [ElementStoreSpec]: the catalog as a log per table; what a write appends, what a
      reader is handed and where its cursor then stands.
    - [ElementProperties]: the claims, and a catalog in memory that keeps the laws.

    Data plane of a bundle (engine/runtime.rs, engine/harness/data.rs, fusion/stage.rs):
    - [BundleIo]: the queues of the data channel, the descriptor of a bundle, the
      input of a stage sent, its output received, its timers in both directions.
    - [BundleIoSpec]: decoding a growing buffer is decoding the whole stream; what is sent
      for a list of values; the timers that a stream of them leaves; the queue of a key.
    - [BundleIoProperties]: the claims, and a stage that reads, echoes and writes.

    Durable state (engine/kv.rs, engine/state.rs, engine/timer.rs):
    - [Kv]: the interface of the key/value trait as a class with its laws, and the
      SlateDB-backed implementation over the operations of the slatedb crate,
      whose documented behaviour is a class of hypotheses with an instance.
    - [UserState]: composite keys, the write-back cache, bag state.
    - [Multimap]: map state and the dispatch of a state request by its kind.
    - [Timers]: timer identities, the durable timer store and the timer service.
    - [StateProperties]: the claims about durable state.

    ** How Rust is rendered

    A method on [&mut self] takes the state and returns the new state with its
    result.  [Result] and panics are the constructors of [outcome]; [Option] is
    [option].  An [i64] or [u64] is a [Z]; where the code wraps, saturates or would
    overflow, the operation is written out, and the round trips carry the range of
    the type as a hypothesis.  A [HashMap] or [BTreeMap] is a [gmap]; where a
    [BTreeMap]'s order is visible (stage order, deadlines) the model sorts.  A
    method that runs under a lock for its whole body is one step; where the code
    gives the lock up between two steps (taking due timers) the steps are separate
    definitions, and a claim is about their interleaving.

    ** What the theorems show

    - Fusion ([FusionProperties]): the graph answers as the components say; a stage grows
      as far as it can and reads nothing it does not get; cutting a pipeline ends, never
      finds siblings inconsistent and gives every consumer between stages to one stage or
      to the runner; the result has one producer per PCollection, and nothing that was
      produced is lost: every producer of a PCollection that had several writes a partial
      of its own, with all its transforms, and a Flatten merges the partials.
    - Jobs ([JobProperties]): exactly the splittable ParDos are expanded, into chains that
      go from their inputs to their outputs, once; the executable graph of a job has a
      node per root and per stage, runner transform or run that is reached, and an edge
      per consumer of each output, to the node that stands for it; a run is the splittable
      stages that feed each other with what leaves them; and the walk ends.
    - State service ([HarnessProperties]): side-input reads return exactly the elements of
      the window asked for; every request is answered once and in order, as a service
      over a finite map would answer it, errors only where the store failed or the request
      is one the code refuses; and what the requests wrote is in the store at the end.
    - Watermarks and scheduler ([WatermarkProperties]): [refresh] computes the least
      watermarks above the current ones that satisfy the propagation equations, its
      loop ends, no output passes a hold, a live bundle or unconsumed input, watermarks
      never regress over any sequence of operations, the representation invariant is
      preserved, readiness means what the scheduler takes it to mean, the gate on
      upstream stages is exact, and completion is final.  The manager built from a
      graph is that graph, a poll starts every ready stage up to its ceiling, an idle
      job of ordinary stages is complete or starts something at the next poll, and due
      event-time timers reach the stages that own them.
    - Triggers ([TriggerProperties]): no call panics on times in range, finished
      runners stay quiet, repeated counts fire exactly on time, and early firings do
      not use up the on-time firing.
    - Group-by-key ([GbkProperties]): over any sequence of runs exactly the rows that were
      late at the watermark of the run before are dropped, and every element of the others
      leaves in exactly one pane in discarding mode and is held until then; the state keeps its
      invariant in every mode; rows decode into one
      group per key; sessions are the connected components of overlapping intervals;
      the merge service only ever answers with partitions of the windows asked about.
    - Coders ([CoderProperties]): round trips at the front of any
      buffer for every coder, windowed value, timer, window key and row, what is
      decoded is of the coder's type, bounds of the varints, totality of coder
      resolution, safety and idempotence of the pickled-leaf rewrite.
    - Record tables ([RecordProperties]): records stored in a batch read back as they were,
      also after [Null] columns were rewritten; the columns of a table are those of its
      schema; two pairs of which one holds an empty list have no common schema.
    - Element store ([ElementProperties]): over any sequence of writes and reads, failed
      ones included, a reader is handed each committed value at most once and no other, and
      every one unless a store that showed a failed write let its cursor run ahead; a bundle's writer commits all of
      its batches as one or none; windowed values read back with their windows and panes.
    - Data plane ([BundleIoProperties]): the output of a stage is committed whole or not at
      all, however its stream is cut; the input is exactly what was not read before, each
      value encoded once and then one terminator; what a worker hands back unchanged is
      written unchanged; received timers are stored with the last write winning.  Chunks
      are routed in order; two races and an element cut in two are exhibited.
    - Metrics ([MetricsProperties]): recording refines the merge of abstract values.
    - Splittable DoFns ([SdfProperties]): the elements that the SDK's answers give up, at
      the cuts that are taken, are handed back exactly once and their holds cover them;
      polling stays within its bounds and stops asking once the SDK declined.
    - Dispatcher ([DispatcherProperties]): in every state of every run the manager counts
      exactly the work items that wait and the bundles that run, and their holds keep the
      watermarks back; joining a bundle loses no residual; due timers reach their stage
      once; the loop does not go round for ever without a bundle; and it returns only when
      nothing is left to do, by the clock readings of its last step.
    - Durable state ([StateProperties]): storage keys do not collide, the store's
      batches apply in order and not atomically, the write-back cache refines a finite
      map with all-or-nothing calls and durable flushes, bags and map state behave as
      such, due timers are taken exactly once, the firing loop is on time, and the one
      race that loses a timer is exhibited.

    ** Fuel and bounds

    - [refresh_loop k] makes up to [2 ^ k] passes, and [refresh] runs it with [k]
      equal to [57 + log2_up n] for [n] stages: a pass that changes something raises
      one of [2 * n] watermarks within a range of less than [2 ^ 55] milliseconds,
      so a pass without change comes within the bound in every reachable state
      ([refresh_loop_ends]).
    - [from_urn] descends to a given depth; on an acyclic graph with a rank below
      it the result does not depend on the depth ([coder_resolution_total]).
      The code itself does not return on a cyclic graph.
    - [leaves] and [get_descendant_consumers] descend at most as many levels as there are
      transforms and PCollections, which suffices without a cycle of subtransforms or of
      runner transforms; the code does not return on one.
    - [stage_loop] visits each PCollection once, [fuse_loop] consumes a pair of a
      PCollection and a transform per group, and [unique_id] tries one candidate more
      than there are ids taken.
    - The walk of the upstream chain goes no deeper than the number of stages of an
      acyclic pipeline, and gets one unit of fuel more.
    - [decode_elements] and [decode_timers] get a round per byte of the buffer, and every
      element and timer takes at least one; [send_input] gets a round per batch that its
      source still holds.
    - Loops over a buffer ([read_chunks_loop], [split_loop]) get as many rounds as
      it has bytes; a round consumes at least one, or the loop reports an error.
    - The loop that opens bundles for a stage gets the stage's free slots.
    - [drain_ready] gets two rounds more than there are groups: a round but the last
      emits a pane and every group is evaluated once per run.
    - [run_loop] visits each stage once and [expand_loop] expands each node once; of nodes
      there are at most two per stage and per runner transform ([graph_bound]).
    - [generate_unique_id] tries one candidate more than there are ids taken, and
      [remove_subtransforms] descends as [leaves] does.
    - [apply_reports] and [drain_immediate] get the number of messages in their channel; no
      bundle runs, or only the joined one may have sent to it, while they drain it.
    - [run_idle] takes a list of clock readings; three steps for every source report, timer
      and unresolved empty input, and three more, are enough ([idle_rounds_end]).
    - [key_values_loop] and [decode_values] get a round per byte; a coder that reads no
      bytes exhausts them, and the code then never returns
      ([void_values_never_decoded]).
    - [decode_merge_loop], [spans_loop] and [decode_chunks] get a round per byte of
      their buffer (and one more); a round consumes at least a byte or fails.

    ** What is assumed of other crates

    - The arrays and schemas of the arrow crates are data; their checked constructors are
      the class [Arrow], with the arguments they are documented to accept as
      [ArrowLaws].  The types and schemas of the paimon crate are [Paimon] and
      [PaimonLaws].  Offsets of lists and strings are 32-bit and the windows of a row are
      counted in 16 bits, as in the code; longer ones are refused or an error.
    - The Paimon catalog is the class [Warehouse]; by [WarehouseLaws] a table is the log of
      its commits, a table is created once, a commit appends all of its files or fails,
      snapshots are numbered from one, and a plan between two snapshots reads the rows
      committed between them, in any order ([same_rows]).
    - The key/value store is the class [KvStore] with [KvLaws] (and [KvSingleWrite]: a
      batch of one write that fails leaves what is read as it was or with the write), and
      the SlateDB-backed one is shown to keep them over the documented behaviour of that
      crate.
    - Fresh ids are distinct and have no colon and no comma in them ([uuid_text]), as the
      text of a UUID.
    - Every one of these classes has a concrete instance, on which the claims are
      witnessed.

    ** Not modelled

    Under group-by-key, the layers of DataFusion: the sort is a parameter (a permutation,
    sorted by encoded key and window key), the filter of the read applies to each row, and
    the result of committing the output and advancing the cursor is an argument (the element
    store models both in general).  Of the merge service, the
    exchange with the SDK and the proto of the descriptor it registers are parameters.  Of
    splittable DoFns, the environment configuration; what the SDK answers is an argument.
    Of the dispatcher, the opening of its channels and stores; a panic of a task and the
    errors of its stores end a run as in the code.  Of the element store, the opening of
    catalogs and the locks that serialise the writers of a table, which make a commit one
    step; of the record tables, the decoding of wire bytes directly into Arrow builders,
    which only tests use.  Of fusion, the wire coder settings of a stage (always empty); of
    the executable graph, labels and the DOT output; of the making of a job, its debug
    files.  Of the harness, the gRPC plumbing of its streams and the control and logging
    services; of the job service, its gRPC front end and artifact staging.  Of the runtime of bundles, the
    executor's tasks, the control channel and the time limits; the batch sizes that the
    estimator derives from measured times are an argument.  The other
    runner transforms (flatten, impulse, TestStream) are reads and writes of the element store
    around the operations that are modelled.  The debug-only cross-check of
    eligibility and the logging are left out of the scheduler.  Worker management, the
    servers and the opening of databases are I/O.  The protobuf messages are inductive
    types and records: their byte format belongs to prost. *)
From stdpp Require Export base gmap strings list numbers sorting.
From Stdlib Require Export ZArith Lia.
(** * Outcomes of Rust computations

    A fallible Rust call ends in one of three ways: it returns [Ok], it returns
    [Err] with an error value, or it panics (a failed [assert!], an index out of
    bounds, an [unwrap] of nothing, a read past the end of a buffer). *)
Inductive outcome (E A : Type) : Type :=
| Ok (a : A)
| Err (e : E)
| Panic (why : string).
Arguments Ok {E A} a.
Arguments Err {E A} e.
Arguments Panic {E A} why.

#[export] Instance outcome_eq_dec {E A} `{EqDecision E, EqDecision A} : EqDecision (outcome E A).
Proof. solve_decision. Defined.

#[export] Instance outcome_ret E : MRet (outcome E) := @Ok E.
#[export] Instance outcome_bind E : MBind (outcome E) := λ A B f m,
  match m with
  | Ok a => f a
  | Err e => Err e
  | Panic w => Panic w
  end.
#[export] Instance outcome_fmap E : FMap (outcome E) := λ A B f m,
  match m with
  | Ok a => Ok (f a)
  | Err e => Err e
  | Panic w => Panic w
  end.

(** [Result::map_err]. *)
Definition map_err {E F A} (f : E → F) (m : outcome E A) : outcome F A :=
  match m with
  | Ok a => Ok a
  | Err e => Err (f e)
  | Panic w => Panic w
  end.

Definition is_ok {E A} (m : outcome E A) : bool :=
  match m with Ok _ => true | _ => false end.

Definition is_panic {E A} (m : outcome E A) : bool :=
  match m with Panic _ => true | _ => false end.

(** A computation in which every element of a list is processed in turn and the
    first failure stops the rest: Rust's [for x in xs { f(x)?; }] collecting
    results. *)
Definition traverse {E A B} (f : A → outcome E B) : list A → outcome E (list B) :=
  fix go l :=
    match l with
    | [] => Ok []
    | x :: l => y ← f x; ys ← go l; Ok (y :: ys)
    end.

(** The same over two lists in step ([iter().zip(..)]); it stops at the shorter. *)
Definition traverse2 {E A B C} (f : A → B → outcome E C) : list A → list B → outcome E (list C) :=
  fix go l k :=
    match l, k with
    | x :: l, y :: k => z ← f x y; zs ← go l k; Ok (z :: zs)
    | _, _ => Ok []
    end.

(** [Forall2] as a recursive proposition, for use inside nested recursion. *)
Definition all2 {A B} (Q : A → B → Prop) : list A → list B → Prop :=
  fix go l k :=
    match l, k with
    | [], [] => True
    | x :: l, y :: k => Q x y ∧ go l k
    | _, _ => False
    end.

Definition all1 {A} (Q : A → Prop) : list A → Prop :=
  fix go l := match l with [] => True | x :: l => Q x ∧ go l end.

Lemma all2_Forall2 {A B} (Q : A → B → Prop) l k : all2 Q l k ↔ Forall2 Q l k.
Proof.
  revert k. induction l as [|x l IH]; intros [|y k]; simpl; split; intros H;
    try done; try (by inversion H).
  - destruct H. constructor; [done|by apply IH].
  - inversion H; subst. split; [done|by apply IH].
Qed.

Lemma all1_Forall {A} (Q : A → Prop) l : all1 Q l ↔ Forall Q l.
Proof.
  induction l as [|x l IH]; simpl; split; intros H; try done.
  - destruct H. constructor; [done|by apply IH].
  - inversion H; subst. split; [done|by apply IH].
Qed.

(** * State and errors

    An operation on a component takes its state to a new state and a result; the
    new state is there also when the result is an error. *)
Definition st (B A : Type) : Type := B → B * outcome string A.

#[export] Instance st_ret B : MRet (st B) := λ A a b, (b, Ok a).
#[export] Instance st_bind B : MBind (st B) := λ A C f m b,
  match m b with
  | (b', Ok a) => f a b'
  | (b', Err e) => (b', Err e)
  | (b', Panic w) => (b', Panic w)
  end.

Definition st_lift {B A} (m : outcome string A) : st B A := λ b, (b, m).
Definition st_read {B A} (f : B → outcome string A) : st B A := λ b, (b, f b).

(** * Build profile

    Rust integer arithmetic panics on overflow when overflow checks are on (the
    [dev] and [test] profiles) and wraps when they are off (the [release]
    profile and the [dist] profile that inherits from it).  Every definition
    whose behaviour depends on it takes the profile as a class argument, so the
    theorems hold for both builds. *)
Class Profile : Type := overflow_checks : bool.

Definition release_profile : Profile := false.
Definition debug_profile : Profile := true.

(** * Machine integers *)

Definition to_unsigned (w z : Z) : Z := (z mod 2 ^ w)%Z.
Definition to_signed (w z : Z) : Z :=
  (let m := z mod 2 ^ w in if m <? 2 ^ (w - 1) then m else m - 2 ^ w)%Z.

Definition is_u (w z : Z) : Prop := (0 ≤ z < 2 ^ w)%Z.
Definition is_i (w z : Z) : Prop := (- 2 ^ (w - 1) ≤ z < 2 ^ (w - 1))%Z.

Definition in_i (w z : Z) : bool := ((- 2 ^ (w - 1) <=? z) && (z <? 2 ^ (w - 1)))%Z.

(** Result of a signed [w]-bit operation whose mathematical value is [z]. *)
Definition arith_i {P : Profile} {E} (w z : Z) : outcome E Z :=
  if in_i w z then Ok z
  else if overflow_checks then Panic "attempt to compute with overflow"
  else Ok (to_signed w z).

Definition I64_MIN : Z := (- 2 ^ 63)%Z.
Definition I64_MAX : Z := (2 ^ 63 - 1)%Z.

(** [i64::saturating_add] and [i64::saturating_sub]. *)
Definition saturating_i64 (z : Z) : Z := Z.max I64_MIN (Z.min I64_MAX z).

(** * Automation *)

(** Lemmas that simplify casts and encodings of in-range values. *)
Create HintDb flare.
Create Rewrite HintDb flare.

(** Case split on the boolean comparison or [match] in the goal and clean up. *)
Ltac crush :=
  repeat first [case_bool_decide | case_match | case_decide];
  simplify_eq/=; try done; try lia.

(** Split a hypothesis [m ≫= k = Ok r] into its successful steps. *)
Ltac inv_bind H :=
  let a := fresh "a" in let E := fresh "E" in
  lazymatch type of H with
  | (mbind _ ?m) = Ok _ => destruct m as [a| |] eqn:E; cbn [mbind outcome_bind] in H; try discriminate H
  end.

(** * Integer lemmas *)

Lemma to_unsigned_range w z : (0 ≤ w)%Z → is_u w (to_unsigned w z).
Proof. intros. apply Z.mod_pos_bound. lia. Qed.

Lemma to_unsigned_id w z : is_u w z → to_unsigned w z = z.
Proof. apply Z.mod_small. Qed.

Lemma pow2_half w : (0 < w)%Z → (2 ^ w = 2 * 2 ^ (w - 1))%Z.
Proof. intros. rewrite <- Z.pow_succ_r by lia. f_equal; lia. Qed.

Lemma to_signed_range w z : (0 < w)%Z → is_i w (to_signed w z).
Proof.
  intros Hw. unfold is_i, to_signed. pose proof (pow2_half w Hw).
  pose proof (Z.mod_pos_bound z (2 ^ w) ltac:(lia)).
  destruct (Z.ltb_spec (z mod 2 ^ w) (2 ^ (w - 1)))%Z; lia.
Qed.

Lemma to_signed_id w z : (0 < w)%Z → is_i w z → to_signed w z = z.
Proof.
  unfold is_i, to_signed. intros Hw Hz. pose proof (pow2_half w Hw).
  destruct (Z.ltb_spec z 0)%Z.
  - replace z with ((z + 2 ^ w) + (-1) * 2 ^ w)%Z at 1 by lia.
    rewrite Z.mod_add, Z.mod_small by lia.
    destruct (Z.ltb_spec (z + 2 ^ w) (2 ^ (w - 1)))%Z; [lia|].
    replace z with ((z + 2 ^ w) + (-1) * 2 ^ w)%Z at 1 by lia.
    rewrite Z.mod_add, Z.mod_small by lia. lia.
  - rewrite Z.mod_small by lia.
    destruct (Z.ltb_spec z (2 ^ (w - 1)))%Z; lia.
Qed.

Lemma to_signed_mod w z : (0 < w)%Z → to_signed w (z mod 2 ^ w) = to_signed w z.
Proof. intros. unfold to_signed. by rewrite Z.mod_mod by lia. Qed.

(** Casting an [iN] to [uN] and back gives the value again. *)
Lemma signed_unsigned w z :
  (0 < w)%Z → is_i w z → to_signed w (to_unsigned w z) = z.
Proof. intros. unfold to_unsigned. rewrite to_signed_mod by done. by apply to_signed_id. Qed.

(** Casting a [uN] to [iN] and back gives the value again. *)
Lemma unsigned_signed w z :
  (0 < w)%Z → is_u w z → to_unsigned w (to_signed w z) = z.
Proof.
  unfold is_u, to_unsigned, to_signed. intros Hw Hz. rewrite (Z.mod_small z) by lia.
  destruct (Z.ltb_spec z (2 ^ (w - 1)))%Z; [by apply Z.mod_small|].
  replace (z - 2 ^ w)%Z with (z + (-1) * 2 ^ w)%Z by lia.
  rewrite Z.mod_add by lia. by apply Z.mod_small.
Qed.

Lemma to_unsigned_inj w a b :
  (0 < w)%Z → is_i w a → is_i w b → to_unsigned w a = to_unsigned w b → a = b.
Proof.
  intros Hw Ha Hb E. rewrite <- (signed_unsigned w a), <- (signed_unsigned w b) by done.
  by rewrite E.
Qed.

Lemma in_i_spec w z : in_i w z = true ↔ is_i w z.
Proof. unfold in_i, is_i. rewrite andb_true_iff, Z.leb_le, Z.ltb_lt. done. Qed.

Lemma arith_i_ok {P : Profile} {E} w z : is_i w z → arith_i (E:=E) w z = Ok z.
Proof. intros H. unfold arith_i. apply in_i_spec in H. by rewrite H. Qed.

(** Joining a low part and a shifted high part with [|] is addition. *)
Lemma land_disjoint a b n :
  (0 ≤ n)%Z → (0 ≤ a < 2 ^ n)%Z → Z.land a (b * 2 ^ n) = 0%Z.
Proof.
  intros Hn Ha. apply Z.bits_inj_0. intros i. rewrite Z.land_spec.
  destruct (Z.lt_ge_cases i n).
  - rewrite (Z.mul_pow2_bits_low b n) by lia. apply andb_false_r.
  - rewrite <- (Z.mod_small a (2 ^ n)) by lia. rewrite Z.mod_pow2_bits_high by lia. done.
Qed.

Lemma lor_add a b n :
  (0 ≤ n)%Z → (0 ≤ a < 2 ^ n)%Z → Z.lor a (b * 2 ^ n) = (a + b * 2 ^ n)%Z.
Proof.
  intros Hn Ha. pose proof (land_disjoint a b n Hn Ha) as D.
  rewrite Z.add_nocarry_lxor by done. symmetry. by apply Z.lxor_lor.
Qed.

(** Flipping the sign bit adds half the range. *)
Lemma lxor_sign_bit w u :
  (0 < w)%Z → is_u w u →
  Z.lxor u (2 ^ (w - 1)) = ((u + 2 ^ (w - 1)) mod 2 ^ w)%Z.
Proof.
  intros Hw Hu. unfold is_u in Hu. pose proof (pow2_half w Hw) as Hp.
  assert (Hlow : ∀ v, (0 ≤ v < 2 ^ (w - 1))%Z → Z.lxor v (2 ^ (w - 1)) = (v + 2 ^ (w - 1))%Z).
  { intros v Hv. rewrite Z.add_nocarry_lxor; [done|].
    pose proof (land_disjoint v 1 (w - 1) ltac:(lia) Hv) as D. by rewrite Z.mul_1_l in D. }
  destruct (Z.lt_ge_cases u (2 ^ (w - 1))).
  - rewrite Hlow by lia. rewrite Z.mod_small by lia. done.
  - replace u with (Z.lxor (u - 2 ^ (w - 1)) (2 ^ (w - 1))) at 1 by (rewrite Hlow by lia; lia).
    rewrite Z.lxor_assoc, Z.lxor_nilpotent, Z.lxor_0_r.
    replace (u + 2 ^ (w - 1))%Z with ((u - 2 ^ (w - 1)) + 1 * 2 ^ w)%Z by lia.
    rewrite Z.mod_add by lia. rewrite Z.mod_small by lia. done.
Qed.

#[export] Hint Resolve to_unsigned_range to_signed_range : flare.
#[export] Hint Rewrite @signed_unsigned @unsigned_signed @to_signed_id @to_unsigned_id
  using (auto with flare; lia) : flare.

(** * List lemmas *)

Lemma traverse_length {E A B} (f : A → outcome E B) l ys :
  traverse f l = Ok ys → length ys = length l.
Proof.
  revert ys; induction l as [|x l IH]; intros ys H; simpl in H; [by simplify_eq|].
  inv_bind H. inv_bind H. simplify_eq. simpl. by rewrite (IH a0).
Qed.

Lemma take_app_exact {A} (l k : list A) n : n = length l → take n (l ++ k) = l.
Proof. intros ->. apply take_app_length. Qed.

Lemma drop_app_exact {A} (l k : list A) n : n = length l → drop n (l ++ k) = k.
Proof. intros ->. apply drop_app_length. Qed.

Lemma traverse_Forall2 {E A B} (f : A → outcome E B) (R : B → A → Prop) l :
  Forall (λ x, ∃ y, f x = Ok y ∧ R y x) l →
  ∃ ys, traverse f l = Ok ys ∧ Forall2 R ys l.
Proof.
  induction 1 as [|x l (y & Hy & HR) _ (ys & IH & HF)]; simpl.
  - exists []. by split; [|constructor].
  - exists (y :: ys). rewrite Hy. cbn. rewrite IH. by split; [|constructor].
Qed.

Lemma traverse2_Forall3 {E A B C} (f : A → B → outcome E C) (R : A → B → C → Prop) l k :
  Forall2 (λ x y, ∃ z, f x y = Ok z ∧ R x y z) l k →
  ∃ zs, traverse2 f l k = Ok zs ∧ Forall3 R l k zs.
Proof.
  induction 1 as [|x y l k (z & Hz & HR) _ (zs & IH & HF)]; simpl.
  - exists []. by split; [|constructor].
  - exists (z :: zs). rewrite Hz. cbn. rewrite IH. by split; [|constructor].
Qed.

Lemma lookup_map_Some {A B} (f : A → B) l i y :
  map f l !! i = Some y → ∃ x, l !! i = Some x ∧ y = f x.
Proof.
  revert i. induction l as [|x l IH]; intros [|i]; simpl; try done.
  - intros [= <-]. by exists x.
  - apply IH.
Qed.

(** [Iterator::filter] commutes with reordering. *)
#[export] Instance filter_Permutation_Proper {A} (f : A → bool) :
  Proper ((≡ₚ) ==> (≡ₚ)) (List.filter f).
Proof.
  induction 1 as [|x l k _ IH|x y l|l k j _ IH1 _ IH2]; simpl; [done| | |by etrans].
  - by destruct (f x); [f_equiv|].
  - destruct (f x), (f y); try done. apply Permutation_swap.
Qed.

(** * Sorting *)

(** Rust's [sort_by_key], a stable sort: an element goes in front of the first one
    whose key is not smaller, and the elements are inserted from the last to the
    first. *)
Section sort.
Context {A : Type} (key : A → Z).

Fixpoint insert_by_key (x : A) (l : list A) : list A :=
  match l with
  | [] => [x]
  | y :: l' => if (key x <=? key y)%Z then x :: l else y :: insert_by_key x l'
  end.

Definition sort_by_key (l : list A) : list A := foldr insert_by_key [] l.

Lemma insert_by_key_perm x l : insert_by_key x l ≡ₚ x :: l.
Proof.
  induction l as [|y l IH]; simpl; [done|]. destruct (key x <=? key y)%Z; [done|].
  rewrite IH. apply Permutation_swap.
Qed.

Lemma sort_by_key_perm l : sort_by_key l ≡ₚ l.
Proof. induction l as [|x l IH]; simpl; [done|]. rewrite insert_by_key_perm. by f_equiv. Qed.

Lemma insert_by_key_ordered x l :
  StronglySorted (λ a b, key a ≤ key b)%Z l → StronglySorted (λ a b, key a ≤ key b)%Z (insert_by_key x l).
Proof.
  induction 1 as [|y l Hs IH Hy]; simpl; [repeat constructor|].
  destruct (Z.leb_spec (key x) (key y)).
  - constructor; [by constructor|]. constructor; [done|].
    eapply Forall_impl; [exact Hy|]. simpl. lia.
  - constructor; [done|]. rewrite insert_by_key_perm. constructor; [lia|done].
Qed.

Lemma sort_by_key_ordered l : StronglySorted (λ a b, key a ≤ key b)%Z (sort_by_key l).
Proof. induction l as [|x l IH]; simpl; [constructor|]. by apply insert_by_key_ordered. Qed.
End sort.

(** The same for a comparison on whole elements ([sort_by_key] with a key that is not
    a number). *)
Section sort_by.
Context {A : Type} (le : A → A → bool).

Fixpoint insert_by (x : A) (l : list A) : list A :=
  match l with
  | [] => [x]
  | y :: l' => if le x y then x :: l else y :: insert_by x l'
  end.

Definition sort_by (l : list A) : list A := foldr insert_by [] l.

Lemma insert_by_perm x l : insert_by x l ≡ₚ x :: l.
Proof.
  induction l as [|y l IH]; simpl; [done|]. destruct (le x y); [done|].
  rewrite IH. apply Permutation_swap.
Qed.

Lemma sort_by_perm l : sort_by l ≡ₚ l.
Proof. induction l as [|x l IH]; simpl; [done|]. rewrite insert_by_perm. by f_equiv. Qed.

Context (Htotal : ∀ x y, le x y = true ∨ le y x = true)
  (Htrans : ∀ x y z, le x y = true → le y z = true → le x z = true).

Lemma insert_by_ordered x l :
  StronglySorted (λ a b, le a b = true) l → StronglySorted (λ a b, le a b = true) (insert_by x l).
Proof.
  induction 1 as [|y l Hs IH Hy]; simpl; [repeat constructor|]. destruct (le x y) eqn:E.
  - constructor; [by constructor|]. constructor; [done|]. eapply Forall_impl; [exact Hy|]. eauto.
  - constructor; [done|]. rewrite insert_by_perm. constructor; [|done]. destruct (Htotal x y); congruence.
Qed.

Lemma sort_by_ordered l : StronglySorted (λ a b, le a b = true) (sort_by l).
Proof. induction l as [|x l IH]; simpl; [constructor|]. by apply insert_by_ordered. Qed.
End sort_by.

(** The least of a list. *)
Lemma foldl_min_spec (l : list Z) (a : Z) :
  (foldl Z.min a l ∈ a :: l) ∧ ∀ z, z ∈ a :: l → (foldl Z.min a l ≤ z)%Z.
Proof.
  revert a. induction l as [|x l IH]; intros a; simpl.
  - split; [by left|]. intros z Hz. apply list_elem_of_singleton in Hz. lia.
  - destruct (IH (Z.min a x)) as [Hin Hle]. split.
    + apply elem_of_cons in Hin as [Hin|Hin]; [|by do 2 right]. rewrite Hin.
      destruct (Z.min_spec a x) as [[_ ->]|[_ ->]]; [by left|by right; left].
    + pose proof (Hle (Z.min a x) ltac:(by left)).
      intros z [->|[->|Hz]%elem_of_cons]%elem_of_cons; [lia..|]. apply Hle. by right.
Qed.

(** * Folds that can fail *)

(** [for x in xs { b = f(b, x)?; }]. *)
Definition try_fold {E A B} (f : B → A → outcome E B) : B → list A → outcome E B :=
  fix go b l := match l with [] => Ok b | x :: l => b ← f b x; go b l end.

Lemma try_fold_app {E A B} (f : B → A → outcome E B) b l k : try_fold f b (l ++ k) = b ← try_fold f b l; try_fold f b k.
Proof. revert b. induction l as [|x l IH]; intros b; [done|]. cbn [try_fold app]. destruct (f b x); [apply IH|done..]. Qed.

(** An invariant that may speak of what has been folded. *)
Lemma try_fold_inv {E A B} (f : B → A → outcome E B) (I : list A → B → Prop) l b b' :
  (∀ done x b b', x ∈ l → I done b → f b x = Ok b' → I (done ++ [x]) b') →
  I [] b → try_fold f b l = Ok b' → I l b'.
Proof.
  intros Hstep H0. assert (Hgen : ∀ done k b, (∀ x, x ∈ k → x ∈ l) → I done b → try_fold f b k = Ok b' → I (done ++ k) b').
  { clear H0. intros done k. revert done. induction k as [|x k IH]; intros done b0 Hk Hb E1; cbn [try_fold] in E1.
    - injection E1 as <-. by rewrite app_nil_r.
    - inv_bind E1. change (x :: k) with ([x] ++ k). rewrite (assoc_L (++)). eapply IH; [|by eapply Hstep; [apply Hk; left|..]|exact E1].
      intros y Hy. apply Hk. by right. }
  apply (Hgen [] l b); [done|exact H0].
Qed.

Lemma try_fold_panic {E A B} (f : B → A → outcome E B) l b w : try_fold f b l = Panic w → ∃ b x, f b x = Panic w.
Proof.
  revert b. induction l as [|x l IH]; intros b Ep; cbn [try_fold] in Ep; [done|].
  destruct (f b x) as [b1|e|w1] eqn:Ef; cbn [mbind outcome_bind] in Ep; [by eapply IH|done|]. injection Ep as <-. by exists b, x.
Qed.

(** Steps that succeed and keep an invariant: so does the fold. *)
Lemma try_fold_ok {E A B} (f : B → A → outcome E B) (I : list A → B → Prop) l b :
  (∀ done x rest b, l = done ++ x :: rest → I done b → ∃ b', f b x = Ok b' ∧ I (done ++ [x]) b') →
  I [] b → ∃ b', try_fold f b l = Ok b' ∧ I l b'.
Proof.
  intros Hstep H0. induction l as [|x l IH] using rev_ind; [by exists b|].
  destruct IH as (b1 & E1 & H1).
  { intros done y rest b0 ->. apply (Hstep done y (rest ++ [x])). by rewrite <- app_assoc. }
  destruct (Hstep l x [] b1) as (b2 & E2 & H2); [done..|].
  exists b2. split; [|done]. rewrite try_fold_app, E1. cbn [mbind outcome_bind try_fold]. by rewrite E2.
Qed.

(** Distinct candidates that are all in a set: there are no more than its elements. *)
Lemma candidates_bound `{Countable A} (c : nat → A) (X : gset A) n :
  Inj (=) (=) c → (∀ j, j < n → c j ∈ X) → n ≤ size X.
Proof.
  intros Hc Hn. assert (Hsub : list_to_set (c <$> seq 0 n) ⊆ X).
  { intros x. rewrite elem_of_list_to_set, list_elem_of_fmap. intros (j & -> & Hj%elem_of_seq). apply Hn. lia. }
  apply subseteq_size in Hsub. rewrite size_list_to_set, length_fmap, length_seq in Hsub; [done|].
  apply NoDup_fmap_2; [done|apply NoDup_seq].
Qed.

(** How many elements rank below one: the depth of a descent along falling ranks. *)
Section room.
Context `{Countable A} (rank : A → nat) (X : gset A).

Definition room (x : A) : nat := size (filter (λ y, rank y < rank x) X).

Lemma room_lt x y : x ∈ X → rank x < rank y → room x < room y.
Proof.
  intros Hx Hr. unfold room. apply subset_size. split.
  - intros z [Hz HX]%elem_of_filter. apply elem_of_filter. split; [lia|done].
  - intros Hsub. assert (Hin : x ∈ filter (λ z, rank z < rank y) X) by (by apply elem_of_filter).
    apply Hsub, elem_of_filter in Hin as [??]. lia.
Qed.

Lemma room_size x : x ∈ X → room x < size X.
Proof.
  intros Hx. unfold room. apply subset_size. split; [by intros z [_ ?]%elem_of_filter|].
  intros Hsub. apply Hsub, elem_of_filter in Hx as [??]. lia.
Qed.
End room.

(** Membership in a list of fallible results. *)
Lemma traverse_elem {E A B} (f : A → outcome E B) l ys :
  traverse f l = Ok ys → ∀ y, y ∈ ys ↔ ∃ x, x ∈ l ∧ f x = Ok y.
Proof.
  revert ys. induction l as [|x l IH]; intros ys H y; simpl in H.
  { simplify_eq. split; [by intros ?%elem_of_nil|]. intros (? & ?%elem_of_nil & _). done. }
  inv_bind H. inv_bind H. simplify_eq. rewrite elem_of_cons, (IH _ eq_refl). split.
  - intros [->|(z & Hz & E2)]; [by exists x; split; [left|]|]. exists z. split; [by right|done].
  - intros (z & [->|Hz]%elem_of_cons & E2); [left; congruence|right; by exists z].
Qed.

Lemma traverse_total {E A B} (f : A → outcome E B) l :
  Forall (λ x, ∃ y, f x = Ok y) l → ∃ ys, traverse f l = Ok ys.
Proof.
  induction 1 as [|x l (y & Hy) _ (ys & IH)]; simpl; [by exists []|].
  rewrite Hy. cbn. rewrite IH. by eexists.
Qed.

Lemma elem_of_concat {A} (x : A) ls : x ∈ concat ls ↔ ∃ l, l ∈ ls ∧ x ∈ l.
Proof. rewrite list_elem_of_In, in_concat. by setoid_rewrite list_elem_of_In. Qed.

Lemma elem_of_concat_fmap {A B} (f : A → list B) l x : x ∈ concat (f <$> l) ↔ ∃ y, y ∈ l ∧ x ∈ f y.
Proof.
  rewrite elem_of_concat. split.
  - intros (k & (y & -> & Hy)%list_elem_of_fmap & Hx). by exists y.
  - intros (y & Hy & Hx). exists (f y). split; [by apply list_elem_of_fmap_2|done].
Qed.

Lemma st_bind_ok {B A C} (f : st B A) (k : A → st B C) b b' c :
  mbind (M:=st B) k f b = (b', Ok c) → ∃ b1 a, f b = (b1, Ok a) ∧ k a b1 = (b', Ok c).
Proof. unfold mbind, st_bind. destruct (f b) as [b1 [a|e|w]]; [|done..]. eauto. Qed.

(** Two outcomes that fail in the same way. *)
Definition same_failure {E A B} (r : outcome E A) (r' : outcome E B) : Prop :=
  match r, r' with
  | Err e, Err e' => e = e'
  | Panic w, Panic w' => w = w'
  | _, _ => False
  end.

Lemma same_failure_refl {E A} (r : outcome E A) : is_ok r = false → same_failure r r.
Proof. by destruct r. Qed.

Lemma same_failure_trans {E A B C} (r1 : outcome E A) (r2 : outcome E B) (r3 : outcome E C) :
  same_failure r1 r2 → same_failure r2 r3 → same_failure r1 r3.
Proof. destruct r1, r2, r3; cbn; try done; congruence. Qed.

Lemma same_failure_fails {E A B} (r : outcome E A) (r' : outcome E B) : same_failure r r' → is_ok r' = false.
Proof. by destruct r, r'. Qed.

(** Either the first part fails, and with it the whole, or both run. *)
Lemma st_bind_inv {B A C} (f : st B A) (k : A → st B C) b b' r : mbind (M:=st B) k f b = (b', r) →
  (∃ e, f b = (b', e) ∧ is_ok e = false ∧ is_ok r = false) ∨ ∃ b1 a, f b = (b1, Ok a) ∧ k a b1 = (b', r).
Proof. unfold mbind, st_bind. destruct (f b) as [b1 [a|e|w]]; [by eauto|intros [= <- <-]; left; eauto..]. Qed.

(** A part that leaves the state as it is, however it ends. *)
Definition read_only {B A} (f : st B A) : Prop := ∀ b b' r, f b = (b', r) → b' = b.

Lemma read_only_bind {B A C} (f : st B A) (k : A → st B C) : read_only f → (∀ a, read_only (k a)) → read_only (mbind (M:=st B) k f).
Proof.
  intros Hf Hk b b' r H. apply st_bind_inv in H as [(e & H & _)|(b1 & a & H & Hr)]; [by eapply Hf|].
  apply Hf in H as ->. by eapply Hk.
Qed.
Lemma read_only_lift {B A} (m : outcome string A) : read_only (st_lift (B:=B) m).
Proof. by intros b b' r [= <- _]. Qed.
Lemma read_only_read {B A} (f : B → outcome string A) : read_only (st_read f).
Proof. by intros b b' r [= <- _]. Qed.
Lemma read_only_ret {B A} (x : A) : read_only (B:=B) (mret x).
Proof. by intros b b' r [= <- _]. Qed.
#[export] Hint Resolve read_only_bind read_only_lift read_only_read read_only_ret : read_only.

Lemma st_lift_ok {B A} (m : outcome string A) (b b' : B) a : st_lift m b = (b', Ok a) → b' = b ∧ m = Ok a.
Proof. by intros [= <- ->]. Qed.

Lemma st_read_ok {B A} (f : B → outcome string A) b b' a : st_read f b = (b', Ok a) → b' = b ∧ f b = Ok a.
Proof. by intros [= <- ->]. Qed.

Lemma st_ret_ok {B A} (x : A) (b b' : B) a : mret (M:=st B) x b = (b', Ok a) → b' = b ∧ a = x.
Proof. by intros [= <- <-]. Qed.

(** Split a successful run into the runs of its parts, and use the equations of the ones
    that only read, lift or return. *)
Ltac inv_st H :=
  lazymatch type of H with
  | mbind _ _ _ = (_, Ok _) =>
      let b := fresh "d" in let a := fresh "a" in let E := fresh "E" in
      apply st_bind_ok in H as (b & a & E & H)
  | st_lift _ _ = (_, Ok _) => let E := fresh "E" in apply st_lift_ok in H as [-> E]
  | st_read _ _ = (_, Ok _) => let E := fresh "E" in apply st_read_ok in H as [-> E]
  | mret _ _ = (_, Ok _) => apply st_ret_ok in H as [-> ->]
  end.

(** Every successful run of [f] from a state with [P] ends in one with [Q]. *)
Definition hoare {B A} (P : B → Prop) (f : st B A) (Q : A → B → Prop) : Prop :=
  ∀ b, P b → ∀ b' a, f b = (b', Ok a) → Q a b'.

Lemma hoare_bind {B A C} P (f : st B A) Q (k : A → st B C) R :
  hoare P f Q → (∀ a, hoare (Q a) (k a) R) → hoare P (mbind (M:=st B) k f) R.
Proof. intros Hf Hk b Hb b' c H. apply st_bind_ok in H as (b1 & a & E & H). eapply Hk; [|exact H]. by eapply Hf. Qed.

Lemma hoare_weaken {B A} (P P' : B → Prop) (f : st B A) Q Q' :
  hoare P f Q → (∀ b, P' b → P b) → (∀ a b, Q a b → Q' a b) → hoare P' f Q'.
Proof. intros Hf HP HQ b Hb b' a E. eapply HQ, Hf; [by apply HP|exact E]. Qed.

Lemma hoare_ret {B A} (x : A) (Q : A → B → Prop) : hoare (Q x) (mret x) Q.
Proof. intros b Hb b' a [= <- <-]. done. Qed.
