(* ===== verification/Bytes.v ===== *)
(** Bytes, buffers and strings: the part of Rust's standard library and of the
    [bytes] crate's [Buf]/[BufMut] contract the coders are written against. *)
From S2P Require Import Prelude.
From Stdlib Require Import Strings.Byte.

Abbreviation byte := Byte.byte.
Abbreviation bytes := (list byte).

#[export] Instance byte_eq_dec : EqDecision byte := Byte.byte_eq_dec.
#[export] Program Instance byte_countable : Countable byte :=
  inj_countable Byte.to_N Byte.of_N _.
Next Obligation. intros. apply Byte.of_to_N. Qed.

(** * [u8] as an integer *)
Definition u8_to_Z (b : byte) : Z := Z.of_N (Byte.to_N b).
Definition u8 (z : Z) : byte :=
  match Byte.of_N (Z.to_N (z mod 256)%Z) with Some b => b | None => Byte.x00 end.

Lemma u8_to_Z_range b : (0 ≤ u8_to_Z b < 256)%Z.
Proof. unfold u8_to_Z. pose proof (Byte.to_N_bounded b). lia. Qed.

Lemma u8_to_Z_u8 z : u8_to_Z (u8 z) = (z mod 256)%Z.
Proof.
  unfold u8_to_Z, u8. pose proof (Z.mod_pos_bound z 256 ltac:(lia)).
  destruct (Byte.of_N _) as [b|] eqn:E.
  - apply Byte.to_of_N in E. rewrite E. lia.
  - apply Byte.of_N_None_iff in E. lia.
Qed.

Lemma u8_to_Z_inj a b : u8_to_Z a = u8_to_Z b → a = b.
Proof.
  unfold u8_to_Z. intros H. apply N2Z.inj in H.
  pose proof (Byte.of_to_N a) as Ea. pose proof (Byte.of_to_N b) as Eb.
  rewrite H in Ea. congruence.
Qed.

Lemma u8_u8_to_Z b : u8 (u8_to_Z b) = b.
Proof.
  apply u8_to_Z_inj. rewrite u8_to_Z_u8. apply Z.mod_small, u8_to_Z_range.
Qed.
#[export] Hint Rewrite u8_to_Z_u8 u8_u8_to_Z : flare.

(** * Big-endian integers ([to_be_bytes], [from_be_bytes], [put_u64], ...) *)

(** The [n] low-order bytes of [z], most significant first. *)
Fixpoint be_bytes (n : nat) (z : Z) : bytes :=
  match n with
  | O => []
  | S n => u8 (z / 256 ^ Z.of_nat n)%Z :: be_bytes n z
  end.

Definition be_value (bs : bytes) : Z :=
  foldl (λ acc b, acc * 256 + u8_to_Z b)%Z 0%Z bs.

Lemma be_bytes_length n z : length (be_bytes n z) = n.
Proof. induction n; simpl; auto. Qed.

Lemma be_value_foldl bs acc :
  foldl (λ acc b, acc * 256 + u8_to_Z b)%Z acc bs
  = (acc * 256 ^ Z.of_nat (length bs) + be_value bs)%Z.
Proof.
  unfold be_value. revert acc. induction bs as [|b bs IH]; intros acc; simpl length; simpl foldl.
  - simpl. lia.
  - rewrite IH, (IH (0 * 256 + _)%Z).
    rewrite Nat2Z.inj_succ, Z.pow_succ_r by lia. ring.
Qed.

Lemma be_value_cons b bs :
  be_value (b :: bs) = (u8_to_Z b * 256 ^ Z.of_nat (length bs) + be_value bs)%Z.
Proof. unfold be_value at 1. simpl. rewrite be_value_foldl. lia. Qed.

Lemma be_value_be_bytes n z : be_value (be_bytes n z) = (z mod 256 ^ Z.of_nat n)%Z.
Proof.
  induction n as [|n IH].
  - simpl. by rewrite Z.mod_1_r.
  - simpl be_bytes. rewrite be_value_cons, be_bytes_length, IH, u8_to_Z_u8.
    rewrite Nat2Z.inj_succ, Z.pow_succ_r by lia.
    pose proof (Z.pow_pos_nonneg 256 (Z.of_nat n) ltac:(lia) ltac:(lia)).
    rewrite (Z.mul_comm 256), Z.rem_mul_r by lia. lia.
Qed.

Lemma be_value_range bs : (0 ≤ be_value bs < 256 ^ Z.of_nat (length bs))%Z.
Proof.
  induction bs as [|b bs IH]; [done|]. rewrite be_value_cons.
  pose proof (u8_to_Z_range b). simpl length. rewrite Nat2Z.inj_succ, Z.pow_succ_r by lia. nia.
Qed.

Lemma be_bytes_mod n k z :
  (n ≤ k)%nat → be_bytes n (z mod 256 ^ Z.of_nat k)%Z = be_bytes n z.
Proof.
  intros Hk. induction n as [|n IH]; [done|]. simpl. f_equal; [|apply IH; lia].
  apply u8_to_Z_inj. rewrite !u8_to_Z_u8.
  replace (Z.of_nat k) with (Z.of_nat n + Z.of_nat (k - n))%Z by lia.
  rewrite Z.pow_add_r by lia.
  pose proof (Z.pow_pos_nonneg 256 (Z.of_nat n) ltac:(lia) ltac:(lia)).
  pose proof (Z.pow_pos_nonneg 256 (Z.of_nat (k - n)) ltac:(lia) ltac:(lia)).
  rewrite Z.rem_mul_r by lia.
  rewrite Z.add_comm, Z.mul_comm, Z.div_add_l by lia.
  rewrite (Z.div_small (z mod _)) by (apply Z.mod_pos_bound; lia).
  rewrite Z.add_0_r. replace (k - n)%nat with (S (k - n - 1))%nat in * by lia.
  rewrite Nat2Z.inj_succ, Z.pow_succ_r by lia.
  rewrite Z.rem_mul_r by lia.
  rewrite (Z.mul_comm 256 (_ mod _)), Z.mod_add by lia. by rewrite Z.mod_mod by lia.
Qed.

Lemma be_bytes_be_value bs : be_bytes (length bs) (be_value bs) = bs.
Proof.
  induction bs as [|b bs IH]; [done|]. simpl. f_equal.
  - rewrite be_value_cons. pose proof (be_value_range bs).
    rewrite Z.div_add_l by lia. rewrite Z.div_small by lia. rewrite Z.add_0_r. apply u8_u8_to_Z.
  - rewrite <- (be_bytes_mod _ (length bs)) by lia.
    rewrite be_value_cons. rewrite Z.add_comm, Z.mod_add by lia.
    rewrite Z.mod_small by apply be_value_range. exact IH.
Qed.

(** * Lexicographic order ([Ord] on byte slices) *)
Fixpoint bytes_compare (a b : bytes) : comparison :=
  match a, b with
  | [], [] => Eq
  | [], _ :: _ => Lt
  | _ :: _, [] => Gt
  | x :: a, y :: b =>
    match (u8_to_Z x ?= u8_to_Z y)%Z with Eq => bytes_compare a b | c => c end
  end.

Lemma bytes_compare_app a1 a2 b1 b2 :
  length a1 = length b1 →
  bytes_compare (a1 ++ a2) (b1 ++ b2) =
    match bytes_compare a1 b1 with Eq => bytes_compare a2 b2 | c => c end.
Proof.
  revert b1. induction a1 as [|x a1 IH]; intros [|y b1] Hl; simplify_eq/=; [done|].
  rewrite IH by done. by destruct (u8_to_Z x ?= u8_to_Z y)%Z.
Qed.

(** Big-endian encodings of in-range integers sort like the integers. *)
Lemma bytes_compare_be n a b :
  (0 ≤ a < 256 ^ Z.of_nat n)%Z → (0 ≤ b < 256 ^ Z.of_nat n)%Z →
  bytes_compare (be_bytes n a) (be_bytes n b) = (a ?= b)%Z.
Proof.
  revert a b. induction n as [|n IH]; intros a b Ha Hb.
  - simpl in *. symmetry. apply Z.compare_eq_iff. lia.
  - rewrite Nat2Z.inj_succ, Z.pow_succ_r in Ha, Hb by lia.
    set (p := (256 ^ Z.of_nat n)%Z) in *.
    assert (0 < p)%Z by (apply Z.pow_pos_nonneg; lia).
    assert (Hd : ∀ x, (0 ≤ x < 256 * p)%Z → (0 ≤ x / p < 256)%Z).
    { intros x Hx. split; [apply Z.div_pos; lia|]. apply Z.div_lt_upper_bound; lia. }
    cbn [be_bytes bytes_compare]. fold p. rewrite !u8_to_Z_u8.
    rewrite !(Z.mod_small (_ / p)) by auto.
    rewrite <- (be_bytes_mod n n a), <- (be_bytes_mod n n b) by lia. fold p.
    rewrite IH by (apply Z.mod_pos_bound; lia).
    pose proof (Z.div_mod a p ltac:(lia)). pose proof (Z.div_mod b p ltac:(lia)).
    pose proof (Z.mod_pos_bound a p ltac:(lia)). pose proof (Z.mod_pos_bound b p ltac:(lia)).
    destruct (Z.compare_spec (a / p) (b / p)) as [Heq|Hlt|Hlt].
    + destruct (Z.compare_spec (a mod p) (b mod p)); symmetry;
        [apply Z.compare_eq_iff|apply Z.compare_lt_iff|apply Z.compare_gt_iff]; nia.
    + symmetry. apply Z.compare_lt_iff. nia.
    + symmetry. apply Z.compare_gt_iff. nia.
Qed.

(** * Reading: [bytes::Buf] over a contiguous buffer

    A reader consumes a prefix of the remaining bytes.  The crate's [get_*] and
    [copy_to_slice] panic when fewer bytes remain than they need. *)
Definition reader (E A : Type) : Type := bytes → outcome E (A * bytes).

#[export] Instance reader_ret E : MRet (reader E) := λ A a buf, Ok (a, buf).
#[export] Instance reader_bind E : MBind (reader E) := λ A B f m buf,
  match m buf with
  | Ok (a, rest) => f a rest
  | Err e => Err e
  | Panic w => Panic w
  end.

Lemma run_bind {E A B} (m : reader E A) (k : A → reader E B) buf :
  (m ≫= k) buf =
    match m buf with
    | Ok (a, rest) => k a rest
    | Err e => Err e
    | Panic w => Panic w
    end.
Proof. done. Qed.

Definition fail {E A} (e : E) : reader E A := λ _, Err e.
Definition panic {E A} (w : string) : reader E A := λ _, Panic w.
Definition lift {E A} (m : outcome E A) : reader E A := λ buf,
  match m with Ok a => Ok (a, buf) | Err e => Err e | Panic w => Panic w end.

(** [Result::map_err] on the result of a read. *)
Definition read_map_err {E F A} (f : E → F) (m : reader E A) : reader F A :=
  λ buf, map_err f (m buf).

Definition remaining {E} : reader E Z := λ buf, Ok (Z.of_nat (length buf), buf).

Definition get_u8 {E} : reader E byte := λ buf,
  match buf with
  | [] => Panic "advance out of bounds"
  | b :: rest => Ok (b, rest)
  end.

(** [copy_to_slice] into a fresh [vec![0u8; len]].  A [len] above the bytes that
    remain panics, in the allocation or in the copy. *)
Definition copy_to_slice {E} (len : Z) : reader E bytes := λ buf,
  if (len <=? Z.of_nat (length buf))%Z
  then Ok (take (Z.to_nat len) buf, drop (Z.to_nat len) buf)
  else Panic "advance out of bounds".

(** [copy_to_bytes(remaining())]: everything that is left. *)
Definition read_rest {E} : reader E bytes := λ buf, Ok (buf, []).

Definition get_be {E} (n : nat) : reader E Z := λ buf,
  if decide (n ≤ length buf)%nat
  then Ok (be_value (take n buf), drop n buf)
  else Panic "advance out of bounds".

Definition get_u32 {E} : reader E Z := get_be 4.
Definition get_u64 {E} : reader E Z := get_be 8.
Definition get_i8 {E} : reader E Z := v ← get_be 1; mret (to_signed 8 v).
Definition get_i16 {E} : reader E Z := v ← get_be 2; mret (to_signed 16 v).
Definition get_i32 {E} : reader E Z := v ← get_be 4; mret (to_signed 32 v).

(** * Writing: [bytes::BufMut] over a growable buffer; the bytes appended. *)
Definition put_u8 (z : Z) : bytes := [u8 z].
Definition put_i8 (z : Z) : bytes := be_bytes 1 z.
Definition put_i16 (z : Z) : bytes := be_bytes 2 z.
Definition put_i32 (z : Z) : bytes := be_bytes 4 z.
Definition put_u32 (z : Z) : bytes := be_bytes 4 z.
Definition put_u64 (z : Z) : bytes := be_bytes 8 z.

(** * UTF-8: [str::as_bytes], [String::from_utf8] *)

Definition u8_in (lo hi : Z) (b : byte) : bool :=
  ((lo <=? u8_to_Z b) && (u8_to_Z b <=? hi))%Z.
Definition utf8_cont : byte → bool := u8_in 128 191.

(** Well-formed byte sequences of the Unicode standard (Table 3-7), which is what
    [core::str::from_utf8] accepts. *)
Fixpoint utf8_valid (bs : bytes) : bool :=
  match bs with
  | [] => true
  | b0 :: r0 =>
    if u8_in 0 127 b0 then utf8_valid r0 else
    match r0 with
    | [] => false
    | b1 :: r1 =>
      if u8_in 194 223 b0 then utf8_cont b1 && utf8_valid r1 else
      match r1 with
      | [] => false
      | b2 :: r2 =>
        if u8_in 224 239 b0 then
          u8_in (if decide (u8_to_Z b0 = 224)%Z then 160 else 128)
                (if decide (u8_to_Z b0 = 237)%Z then 159 else 191) b1
          && utf8_cont b2 && utf8_valid r2
        else
        match r2 with
        | [] => false
        | b3 :: r3 =>
          u8_in 240 244 b0
          && u8_in (if decide (u8_to_Z b0 = 240)%Z then 144 else 128)
                   (if decide (u8_to_Z b0 = 244)%Z then 143 else 191) b1
          && utf8_cont b2 && utf8_cont b3 && utf8_valid r3
        end
      end
    end
  end.

(** A Rust [String] is a byte string that is well-formed UTF-8. *)
Definition as_bytes (s : string) : bytes := String.list_byte_of_string s.
Definition wf_string (s : string) : Prop := utf8_valid (as_bytes s) = true.
Definition str_len (s : string) : Z := Z.of_nat (length (as_bytes s)).
Definition from_utf8 (bs : bytes) : option string :=
  if utf8_valid bs then Some (String.string_of_list_byte bs) else None.

Lemma from_utf8_as_bytes s : wf_string s → from_utf8 (as_bytes s) = Some s.
Proof.
  unfold wf_string, from_utf8. intros ->. f_equal.
  apply String.string_of_list_byte_of_string.
Qed.

Lemma from_utf8_Some bs s : from_utf8 bs = Some s → as_bytes s = bs ∧ wf_string s.
Proof.
  unfold from_utf8, wf_string, as_bytes. destruct (utf8_valid bs) eqn:E; [|done].
  intros [= <-]. rewrite String.list_byte_of_string_of_list_byte. done.
Qed.

Lemma as_bytes_inj s t : as_bytes s = as_bytes t → s = t.
Proof.
  intros H. rewrite <- (String.string_of_list_byte_of_string s),
    <- (String.string_of_list_byte_of_string t). unfold as_bytes in H. by rewrite H.
Qed.

(** * Sorted strings *)

(** [Ord] on Rust strings: bytewise. *)
Definition string_le (a b : string) : Prop := bytes_compare (as_bytes a) (as_bytes b) ≠ Gt.

#[export] Instance string_le_dec a b : Decision (string_le a b).
Proof. unfold string_le. apply _. Defined.

(** [sort] on a [Vec<String>]. *)
Definition sort_ids (ids : list string) : list string := merge_sort string_le ids.

Lemma elem_of_sort_ids x l : x ∈ sort_ids l ↔ x ∈ l.
Proof. unfold sort_ids. by rewrite merge_sort_Permutation. Qed.

(** The lexicographic order of sequences and pairs. *)
Fixpoint list_compare {A} (cmp : A → A → comparison) (a b : list A) : comparison :=
  match a, b with
  | [], [] => Eq
  | [], _ => Lt
  | _, [] => Gt
  | x :: a, y :: b => match cmp x y with Eq => list_compare cmp a b | c => c end
  end.

Definition string_compare (a b : string) : comparison := bytes_compare (as_bytes a) (as_bytes b).
Definition pair_compare (a b : string * string) : comparison :=
  match string_compare a.1 b.1 with Eq => string_compare a.2 b.2 | c => c end.

(** ** Comparisons that order *)

Class LawfulCompare {A} (cmp : A → A → comparison) : Prop := {
  compare_eq a b : cmp a b = Eq → a = b;
  compare_sym a b : cmp b a = CompOpp (cmp a b);
  compare_trans a b c : cmp a b ≠ Gt → cmp b c ≠ Gt → cmp a c ≠ Gt;
}.

(** [a <= b]. *)
Definition compare_le {A} (cmp : A → A → comparison) (a b : A) : bool :=
  match cmp a b with Gt => false | _ => true end.

Section compare_le.
Context {A} (cmp : A → A → comparison) `{!LawfulCompare cmp}.

Lemma compare_le_total a b : compare_le cmp a b = true ∨ compare_le cmp b a = true.
Proof. unfold compare_le. rewrite (compare_sym a b). destruct (cmp a b); auto. Qed.
Lemma compare_le_trans a b c : compare_le cmp a b = true → compare_le cmp b c = true → compare_le cmp a c = true.
Proof.
  unfold compare_le. intros Hab Hbc. pose proof (compare_trans a b c) as Ht.
  destruct (cmp a b), (cmp b c), (cmp a c); try done; exfalso; by apply Ht.
Qed.
Lemma compare_le_antisymm a b : compare_le cmp a b = true → compare_le cmp b a = true → a = b.
Proof.
  unfold compare_le. intros Hab Hba. apply (compare_eq (cmp:=cmp)). rewrite (compare_sym a b) in Hba. by destruct (cmp a b).
Qed.
End compare_le.

Definition bytes_le (a b : bytes) : Prop := bytes_compare a b ≠ Gt.

Lemma bytes_compare_eq a b : bytes_compare a b = Eq → a = b.
Proof.
  revert b. induction a as [|x a IH]; intros [|y b]; simpl; try done.
  destruct (Z.compare_spec (u8_to_Z x) (u8_to_Z y)) as [E|E|E]; try done.
  intros H. f_equal; [by apply u8_to_Z_inj|by apply IH].
Qed.

Lemma bytes_compare_sym a b : bytes_compare b a = CompOpp (bytes_compare a b).
Proof.
  revert b. induction a as [|x a IH]; intros [|y b]; simpl; try done.
  rewrite (Z.compare_antisym (u8_to_Z x)). destruct (u8_to_Z x ?= u8_to_Z y)%Z; simpl; [apply IH|done..].
Qed.

Lemma bytes_compare_refl a : bytes_compare a a = Eq.
Proof. induction a as [|x a IH]; simpl; [done|]. by rewrite Z.compare_refl. Qed.

#[export] Instance bytes_le_antisymm : AntiSymm (=) bytes_le.
Proof.
  intros a b Hab Hba. apply bytes_compare_eq. unfold bytes_le in *. rewrite bytes_compare_sym in Hba.
  destruct (bytes_compare a b); done.
Qed.

Lemma bytes_le_trans a b c : bytes_le a b → bytes_le b c → bytes_le a c.
Proof.
  unfold bytes_le. revert b c. induction a as [|x a IH]; intros [|y b] [|z c]; simpl; try done.
  destruct (Z.compare_spec (u8_to_Z x) (u8_to_Z y)) as [E1|E1|E1], (Z.compare_spec (u8_to_Z y) (u8_to_Z z)) as [E2|E2|E2],
    (Z.compare_spec (u8_to_Z x) (u8_to_Z z)) as [E3|E3|E3]; try done; try lia. apply IH.
Qed.

#[export] Instance bytes_compare_lawful : LawfulCompare bytes_compare.
Proof. split; [apply bytes_compare_eq|apply bytes_compare_sym|apply bytes_le_trans]. Qed.

#[export] Instance string_compare_lawful : LawfulCompare string_compare.
Proof.
  unfold string_compare. split.
  - intros a b E. by apply as_bytes_inj, bytes_compare_eq.
  - intros a b. apply bytes_compare_sym.
  - intros a b c. apply bytes_le_trans.
Qed.

#[export] Instance pair_compare_lawful : LawfulCompare pair_compare.
Proof.
  unfold pair_compare. split.
  - intros [a1 a2] [b1 b2]. simpl. destruct (string_compare a1 b1) eqn:E; try done.
    intros E2. f_equal; by apply (compare_eq (cmp:=string_compare)).
  - intros [a1 a2] [b1 b2]. simpl. rewrite (compare_sym a1 b1). destruct (string_compare a1 b1); simpl; [apply compare_sym|done..].
  - intros [a1 a2] [b1 b2] [c1 c2]. simpl.
    pose proof (compare_trans (cmp:=string_compare) a1 b1 c1) as Ht. intros Hab Hbc.
    destruct (string_compare a1 b1) eqn:E1; [|destruct (string_compare b1 c1) eqn:E2|done].
    + apply (compare_eq (cmp:=string_compare)) in E1 as ->. destruct (string_compare b1 c1); [|done..].
      by apply (compare_trans a2 b2 c2).
    + apply (compare_eq (cmp:=string_compare)) in E2 as ->. by rewrite E1.
    + destruct (string_compare a1 c1) eqn:E3; [|done|by apply Ht].
      apply (compare_eq (cmp:=string_compare)) in E3 as ->. rewrite (compare_sym b1 c1), E2 in E1. done.
    + done.
Qed.

Lemma list_compare_eq {A} (cmp : A → A → comparison) `{!LawfulCompare cmp} a b : list_compare cmp a b = Eq → a = b.
Proof.
  revert b. induction a as [|x a IH]; intros [|y b]; simpl; try done.
  destruct (cmp x y) eqn:E; [|done..]. intros E2. f_equal; [by apply (compare_eq (cmp:=cmp))|by apply IH].
Qed.

(** * What a reader does on a buffer that starts with a known encoding

    [reads r enc a]: on any buffer that begins with [enc], [r] returns [a] and
    consumes exactly [enc].  This is the contract a component coder owes to the
    composite coders built from it. *)
Definition reads {E A} (r : reader E A) (enc : bytes) (a : A) : Prop :=
  ∀ rest, r (enc ++ rest) = Ok (a, rest).

Section reads.
Context {E : Type}.

Lemma reads_ret {A} (a : A) : reads (E:=E) (mret a) [] a.
Proof. done. Qed.

Lemma reads_bind {A B} (r : reader E A) (k : A → reader E B) e1 e2 a b :
  reads r e1 a → reads (k a) e2 b → reads (r ≫= k) (e1 ++ e2) b.
Proof.
  intros H1 H2 rest. rewrite <- app_assoc. unfold mbind, reader_bind.
  rewrite H1. apply H2.
Qed.

Lemma reads_bind_nil {A B} (r : reader E A) (k : A → reader E B) enc a b :
  reads r enc a → k a = mret b → reads (r ≫= k) enc b.
Proof.
  intros H1 H2 rest. unfold mbind, reader_bind. rewrite H1, H2. done.
Qed.

Lemma reads_lift {A B} (m : outcome E A) (k : A → reader E B) enc a b :
  m = Ok a → reads (k a) enc b → reads (lift m ≫= k) enc b.
Proof. intros -> H. exact H. Qed.

Lemma reads_be n z : reads (E:=E) (get_be n) (be_bytes n z) (z mod 256 ^ Z.of_nat n)%Z.
Proof.
  intros rest. unfold get_be. rewrite decide_True by (rewrite length_app, be_bytes_length; lia).
  rewrite take_app_exact, drop_app_exact by (by rewrite be_bytes_length).
  by rewrite be_value_be_bytes.
Qed.

Lemma reads_u64 z : is_u 64 z → reads (E:=E) get_u64 (put_u64 z) z.
Proof.
  intros H rest. unfold get_u64, put_u64. rewrite reads_be.
  by rewrite Z.mod_small by (unfold is_u in H; lia).
Qed.

Lemma reads_u8 z : reads (E:=E) get_u8 (put_u8 z) (u8 z).
Proof. done. Qed.

Lemma reads_signed n w z (r : reader E Z) :
  r = (v ← get_be n; mret (to_signed w v)) → w = (8 * Z.of_nat n)%Z → (0 < w)%Z →
  is_i w z → reads r (be_bytes n z) z.
Proof.
  intros -> -> Hw Hz. eapply reads_bind_nil; [apply reads_be|].
  replace (256 ^ Z.of_nat n)%Z with (2 ^ (8 * Z.of_nat n))%Z
    by (rewrite Z.pow_mul_r by lia; done).
  rewrite to_signed_mod, to_signed_id by done. done.
Qed.

Lemma put_i32_length z : length (put_i32 z) = 4%nat.
Proof. apply be_bytes_length. Qed.

Lemma reads_i32 z : is_i 32 z → reads (E:=E) get_i32 (put_i32 z) z.
Proof. by apply reads_signed. Qed.
Lemma reads_i16 z : is_i 16 z → reads (E:=E) get_i16 (put_i16 z) z.
Proof. by apply reads_signed. Qed.
Lemma reads_i8 z : is_i 8 z → reads (E:=E) get_i8 (put_i8 z) z.
Proof. by apply reads_signed. Qed.

Lemma reads_slice bs : reads (E:=E) (copy_to_slice (Z.of_nat (length bs))) bs bs.
Proof.
  intros rest. unfold copy_to_slice. rewrite length_app.
  destruct (Z.leb_spec (Z.of_nat (length bs)) (Z.of_nat (length bs + length rest))); [|lia].
  by rewrite Nat2Z.id, take_app_length, drop_app_length.
Qed.

(** A read that looks at what remains first, and succeeds. *)
Lemma reads_remaining {A} (k : Z → reader E A) enc a :
  (∀ n rest, (Z.of_nat (length enc) ≤ n)%Z → k n (enc ++ rest) = Ok (a, rest)) →
  reads (remaining ≫= k) enc a.
Proof.
  intros H rest. unfold mbind, reader_bind, remaining. apply H. rewrite length_app. lia.
Qed.
End reads.

#[export] Hint Resolve reads_ret reads_u64 reads_u8 reads_i32 reads_i16 reads_i8 reads_slice : flare.

#[global] Opaque be_bytes be_value u8 u8_to_Z.
