(* ===== verification/Varint.v ===== *)
(** LEB128 variable-length integers and length-delimited byte strings
    (coders/primitives.rs, the private helpers every coder is built from). *)
From S2P Require Import Prelude Bytes.

(** [utils/errors.rs]: the error of the coder modules.  Messages keep their fixed
    part; the numbers interpolated into them are left out. *)
Inductive CodersError : Type :=
| WhileDecoding (msg : string)
| WhileEncoding (msg : string).

(** A read that can fail with a [CodersError] or panic. *)
Abbreviation dec := (reader CodersError).

Section varint.
Context `{P : Profile}.

(** [u64 << shift].  A shift of 64 or more panics with overflow checks on and
    uses the low six bits of the shift otherwise. *)
Definition shl_u64 {E} (x shift : Z) : outcome E Z :=
  if (shift <? 64)%Z then Ok (to_unsigned 64 (Z.shiftl x shift))
  else if overflow_checks then Panic "attempt to shift left with overflow"
  else Ok (to_unsigned 64 (Z.shiftl x (shift mod 64))).

(** The loop of [encode_varint]: seven bits per round, low group first.  Ten
    rounds are enough for any [u64]. *)
Fixpoint encode_varint_loop (fuel : nat) (value : Z) : bytes :=
  match fuel with
  | O => []
  | S fuel =>
    let byte := Z.land value 127 in
    let value := Z.shiftr value 7 in
    if (value =? 0)%Z then [u8 byte]
    else u8 (Z.lor byte 128) :: encode_varint_loop fuel value
  end.

Definition encode_varint (value : Z) : bytes := encode_varint_loop 10 value.

(** The loop of [decode_varint]; it consumes one byte per round and panics when
    the buffer ends inside a varint. *)
Fixpoint decode_varint_loop {E} (buf : bytes) (result shift : Z) : outcome E (Z * bytes) :=
  match buf with
  | [] => Panic "advance out of bounds"
  | byte :: rest =>
    group ← shl_u64 (Z.land (u8_to_Z byte) 127) shift;
    let result := Z.lor result group in
    if (Z.land (u8_to_Z byte) 128 =? 0)%Z then Ok (result, rest)
    else decode_varint_loop rest result (shift + 7)%Z
  end.

Definition decode_varint {E} : reader E Z := λ buf, decode_varint_loop buf 0 0.

(** The [i64] wrappers: two's complement, no zig-zag. *)
Definition encode_signed_varint (value : Z) : bytes := encode_varint (to_unsigned 64 value).
Definition decode_signed_varint {E} : reader E Z := v ← decode_varint; mret (to_signed 64 v).

(** [decode_length_delimited]: a varint length, then that many bytes.  [usize]
    has 64 bits, so the [usize::try_from] of the source cannot fail. *)
Definition decode_length_delimited (coder_name : string) : dec bytes :=
  len ← decode_varint;
  remaining ← remaining;
  if (remaining <? len)%Z
  then fail (WhileDecoding (coder_name +:+ ": declared length exceeds remaining bytes"))
  else copy_to_slice len.

(** The writer side of a length-delimited byte string. *)
Definition encode_length_delimited (val : bytes) : bytes :=
  encode_varint (Z.of_nat (length val)) ++ val.

(** ** The encoder *)

Lemma land_127 v : Z.land v 127 = (v mod 128)%Z.
Proof. apply (Z.land_ones v 7). lia. Qed.

Lemma shiftr_7 v : Z.shiftr v 7 = (v / 128)%Z.
Proof. apply (Z.shiftr_div_pow2 v 7). lia. Qed.

Lemma land_127_range v : (0 ≤ Z.land v 127 < 128)%Z.
Proof. rewrite land_127. apply Z.mod_pos_bound. lia. Qed.

Lemma encode_varint_loop_eq fuel value :
  (0 ≤ value)%Z →
  encode_varint_loop (S fuel) value =
    if (value <? 128)%Z then [u8 value]
    else u8 (value mod 128 + 128)%Z :: encode_varint_loop fuel (value / 128)%Z.
Proof.
  intros Hv. simpl. rewrite land_127, shiftr_7.
  pose proof (Z.mod_pos_bound value 128 ltac:(lia)).
  destruct (Z.ltb_spec value 128).
  - rewrite Z.div_small, Z.mod_small by lia. done.
  - pose proof (Z.div_str_pos value 128 ltac:(lia)).
    destruct (Z.eqb_spec (value / 128) 0); [lia|].
    do 2 f_equal. by apply (lor_add _ 1 7).
Qed.

(** Ten rounds never run out: the encoder does what the unbounded loop does. *)
Lemma encode_varint_unfold value :
  is_u 64 value →
  encode_varint value =
    if (value <? 128)%Z then [u8 value]
    else u8 (value mod 128 + 128)%Z :: encode_varint (value / 128)%Z.
Proof.
  intros Hv.
  assert (Hmono : ∀ n v, (0 ≤ v < 128 ^ Z.of_nat (S n))%Z →
            encode_varint_loop (S (S n)) v = encode_varint_loop (S n) v).
  { induction n as [|n IH]; intros v Hr.
    - rewrite (encode_varint_loop_eq 1 v), (encode_varint_loop_eq 0 v) by lia.
      change (128 ^ Z.of_nat 1)%Z with 128%Z in Hr.
      destruct (Z.ltb_spec v 128); [reflexivity|lia].
    - rewrite (encode_varint_loop_eq (S (S n)) v), (encode_varint_loop_eq (S n) v) by lia.
      destruct (Z.ltb_spec v 128); [done|]. f_equal. apply IH. split; [apply Z.div_pos; lia|].
      apply Z.div_lt_upper_bound; [lia|]. rewrite Nat2Z.inj_succ, Z.pow_succ_r in Hr by lia. lia. }
  unfold is_u in Hv. unfold encode_varint at 1. rewrite encode_varint_loop_eq by lia.
  destruct (Z.ltb_spec value 128); [done|]. f_equal. unfold encode_varint.
  symmetry. apply Hmono. split; [apply Z.div_pos; lia|].
  apply Z.div_lt_upper_bound; lia.
Qed.

Lemma encode_varint_length value : is_u 64 value → (1 ≤ length (encode_varint value) ≤ 10)%nat.
Proof.
  intros Hv. unfold encode_varint.
  assert (∀ n v, (length (encode_varint_loop n v) ≤ n)%nat) as Hle.
  { induction n as [|n IH]; intros v; simpl; [lia|]. case_match; simpl; [lia|].
    specialize (IH (Z.shiftr v 7)). lia. }
  split; [|apply Hle]. unfold is_u in Hv. rewrite encode_varint_loop_eq by lia.
  destruct (value <? 128)%Z; cbn [length]; lia.
Qed.

(** ** The decoder on the encoder's output *)

Lemma shl_group_small {E} g shift :
  (0 ≤ g)%Z → (0 ≤ shift < 64)%Z → (g * 2 ^ shift < 2 ^ 64)%Z →
  shl_u64 (E:=E) g shift = Ok (g * 2 ^ shift)%Z.
Proof.
  intros Hg Hs Hr. unfold shl_u64. destruct (Z.ltb_spec shift 64); [|lia].
  rewrite Z.shiftl_mul_pow2 by lia. f_equal. apply to_unsigned_id. unfold is_u. nia.
Qed.

Lemma u8_bit7 b : (Z.land (u8_to_Z b) 128 =? 0)%Z = (u8_to_Z b <? 128)%Z.
Proof. destruct b; vm_compute; reflexivity. Qed.

Lemma decode_varint_loop_encode {E} fuel value rest result shift :
  (0 ≤ value < 128 ^ Z.of_nat fuel)%Z → (0 < fuel)%nat →
  (0 ≤ shift < 64)%Z → (value * 2 ^ shift < 2 ^ 64)%Z →
  (0 ≤ result < 2 ^ shift)%Z →
  decode_varint_loop (E:=E) (encode_varint_loop fuel value ++ rest) result shift
  = Ok ((result + value * 2 ^ shift)%Z, rest).
Proof.
  revert value result shift.
  induction fuel as [|fuel IH]; intros value result shift Hv Hf Hs Hr Hres; [lia|].
  rewrite encode_varint_loop_eq by lia.
  rewrite Nat2Z.inj_succ, Z.pow_succ_r in Hv by lia.
  destruct (Z.ltb_spec value 128).
  - simpl. rewrite u8_bit7, u8_to_Z_u8, land_127, !(Z.mod_small value) by lia.
    rewrite shl_group_small by lia. simpl. destruct (Z.ltb_spec value 128); [|lia].
    rewrite lor_add by lia. done.
  - assert (Hq : (0 ≤ value / 128)%Z) by (apply Z.div_pos; lia).
    pose proof (Z.div_mod value 128 ltac:(lia)) as Hdm.
    pose proof (Z.mod_pos_bound value 128 ltac:(lia)) as Hm.
    simpl. rewrite u8_bit7, u8_to_Z_u8, land_127.
    rewrite (Z.mod_small (value mod 128 + 128) 256) by lia.
    replace ((value mod 128 + 128) mod 128)%Z with (value mod 128)%Z
      by (rewrite <- (Z.mul_1_l 128) at 3; rewrite Z.mod_add, Z.mod_mod by lia; done).
    rewrite shl_group_small by nia. simpl.
    destruct (Z.ltb_spec (value mod 128 + 128) 128); [lia|].
    rewrite lor_add by lia.
    assert (Hpow : (2 ^ (shift + 7) = 2 ^ shift * 128)%Z) by (rewrite Z.pow_add_r by lia; done).
    assert (1 ≤ value / 128)%Z by (apply Z.div_le_lower_bound; lia).
    assert (shift + 7 < 64)%Z.
    { apply (Z.pow_lt_mono_r_iff 2); [lia..|]. rewrite Hpow. nia. }
    rewrite IH; [do 2 f_equal; rewrite Hpow; nia| | |lia| |].
    + split; [lia|]. apply Z.div_lt_upper_bound; lia.
    + destruct fuel; [simpl in Hv; lia|lia].
    + rewrite Hpow. nia.
    + rewrite Hpow. nia.
Qed.

Lemma reads_varint {E} value : is_u 64 value → reads (E:=E) decode_varint (encode_varint value) value.
Proof.
  intros Hv rest. unfold decode_varint, encode_varint, is_u in *.
  rewrite decode_varint_loop_encode by lia. do 2 f_equal. lia.
Qed.

Lemma reads_signed_varint {E} value :
  is_i 64 value → reads (E:=E) decode_signed_varint (encode_signed_varint value) value.
Proof.
  intros Hv. unfold encode_signed_varint.
  eapply reads_bind_nil; [apply reads_varint, to_unsigned_range; lia|].
  by rewrite signed_unsigned by done.
Qed.

Lemma reads_length_delimited name val :
  is_u 64 (Z.of_nat (length val)) →
  reads (decode_length_delimited name) (encode_length_delimited val) val.
Proof.
  intros Hl. eapply reads_bind; [by apply reads_varint|].
  apply reads_remaining. intros n rest Hn.
  destruct (Z.ltb_spec n (Z.of_nat (length val))); [lia|]. apply reads_slice.
Qed.

(** Every successful varint read consumes at least one byte. *)
Lemma decode_varint_consumes {E} buf v rest :
  decode_varint (E:=E) buf = Ok (v, rest) → (length rest < length buf)%nat.
Proof.
  unfold decode_varint. generalize 0%Z at 1 as result. generalize 0%Z as shift.
  induction buf as [|b buf IH]; intros shift result H; simpl in H; [done|].
  inv_bind H. case_match; simplify_eq/=; [lia|]. apply IH in H. lia.
Qed.
End varint.

#[export] Hint Resolve reads_varint reads_signed_varint : flare.

(** * Counted and chunked loops over a buffer *)

(** [for _ in 0..n { out.push(r(buf)?); }]. *)
Fixpoint read_n {E A} (n : nat) (r : reader E A) : reader E (list A) :=
  match n with
  | O => mret []
  | S n => x ← r; xs ← read_n n r; mret (x :: xs)
  end.

(** [for c in &cs { out.push(f(c)(buf)?); }]. *)
Definition read_all {E A B} (f : A → reader E B) : list A → reader E (list B) :=
  fix go l :=
    match l with
    | [] => mret []
    | c :: l => x ← f c; xs ← go l; mret (x :: xs)
    end.

Section chunks.
Context `{P : Profile} {E A : Type}.
Implicit Types r : reader E A.

(** The unknown-length form of Beam's iterables: chunks of a varint count and
    that many elements, ended by a zero count.  Every round reads a varint, so
    a round per byte of the buffer and one more is enough ([read_chunks_fuel]). *)
Fixpoint read_chunks_loop (fuel : nat) (r : reader E A) : reader E (list A) :=
  match fuel with
  | O => panic "chunk loop bound"
  | S fuel =>
    chunk_count ← decode_varint;
    if (chunk_count =? 0)%Z then mret []
    else
      xs ← read_n (Z.to_nat chunk_count) r;
      ys ← read_chunks_loop fuel r;
      mret (xs ++ ys)
  end.

Definition read_chunks (r : reader E A) : reader E (list A) :=
  λ buf, read_chunks_loop (S (length buf)) r buf.

(** A reader that never gives bytes back. *)
Definition shrinks {B} (r : reader E B) : Prop :=
  ∀ buf b rest, r buf = Ok (b, rest) → (length rest ≤ length buf)%nat.

Lemma shrinks_ret {B} (b : B) : shrinks (mret b).
Proof. by intros buf ? ? [= -> ->]. Qed.

Lemma shrinks_bind {B C} (r : reader E B) (k : B → reader E C) :
  shrinks r → (∀ b, shrinks (k b)) → shrinks (r ≫= k).
Proof.
  intros Hr Hk buf c rest H. unfold mbind, reader_bind in H.
  destruct (r buf) as [[b rest']| |] eqn:Er; try done.
  apply Hr in Er. apply Hk in H. lia.
Qed.

Lemma shrinks_read_n n r : shrinks r → shrinks (read_n n r).
Proof.
  intros Hr. induction n as [|n IH]; simpl; [apply shrinks_ret|].
  apply shrinks_bind; [done|intros x]. apply shrinks_bind; [done|intros xs]. apply shrinks_ret.
Qed.

Lemma read_chunks_loop_fuel r n m buf :
  shrinks r → (length buf < n)%nat → (length buf < m)%nat →
  read_chunks_loop n r buf = read_chunks_loop m r buf.
Proof.
  intros Hr. revert m buf. induction n as [|n IH]; intros m buf Hn Hm; [lia|].
  destruct m as [|m]; [lia|]. cbn [read_chunks_loop]. rewrite !run_bind.
  destruct (decode_varint buf) as [[c rest]| |] eqn:Ec; try done.
  apply decode_varint_consumes in Ec. destruct (c =? 0)%Z; [done|]. rewrite !run_bind.
  destruct (read_n _ r rest) as [[xs rest']| |] eqn:Ex; try done.
  apply shrinks_read_n in Ex; [|done].
  rewrite !run_bind. by rewrite (IH m rest') by lia.
Qed.

Lemma reads_n r encs xs :
  Forall2 (reads r) encs xs → reads (read_n (length xs) r) (concat encs) xs.
Proof.
  induction 1 as [|enc x encs xs Hx _ IH]; simpl; [apply reads_ret|].
  eapply reads_bind; [done|]. eapply reads_bind_nil; done.
Qed.

(** The wire form of a chunked list: counts and elements of each chunk. *)
Definition encode_chunk (enc : list bytes) : bytes :=
  encode_varint (Z.of_nat (length enc)) ++ concat enc.

Lemma reads_chunks_loop r (chunks : list (list bytes)) xss fuel :
  (length chunks < fuel)%nat →
  Forall2 (Forall2 (reads r)) chunks xss →
  Forall (λ c, (0 < length c)%nat ∧ is_u 64 (Z.of_nat (length c))) chunks →
  reads (read_chunks_loop fuel r) (concat (encode_chunk <$> chunks) ++ encode_varint 0) (concat xss).
Proof.
  revert xss fuel. induction chunks as [|c cs IH]; intros xss fuel Hf H2 Hc.
  - inversion H2; subst. destruct fuel as [|fuel]; [simpl in Hf; lia|]. simpl.
    eapply reads_bind_nil; [apply reads_varint; unfold is_u; lia|done].
  - inversion H2 as [|c' xs cs' xss' Hcx Hrest]; subst. inversion Hc as [|? ? [Hpos Hu] Hc']; subst.
    destruct fuel as [|fuel]; [simpl in Hf; lia|]. cbn [read_chunks_loop fmap list_fmap concat].
    unfold encode_chunk at 1. rewrite <- !app_assoc.
    eapply reads_bind; [by apply reads_varint|]. cbv beta.
    destruct (Z.eqb_spec (Z.of_nat (length c)) 0); [lia|].
    rewrite Nat2Z.id, (Forall2_length _ _ _ Hcx).
    eapply reads_bind; [by apply reads_n|].
    eapply reads_bind_nil; [apply IH; [simpl in Hf; lia|done|done]|done].
Qed.

Lemma encode_chunk_nonempty c : is_u 64 (Z.of_nat (length c)) → (0 < length (encode_chunk c))%nat.
Proof.
  intros H. apply encode_varint_length in H. unfold encode_chunk. rewrite length_app. lia.
Qed.

Lemma reads_chunks r (chunks : list (list bytes)) xss :
  Forall2 (Forall2 (reads r)) chunks xss →
  Forall (λ c, (0 < length c)%nat ∧ is_u 64 (Z.of_nat (length c))) chunks →
  reads (read_chunks r) (concat (encode_chunk <$> chunks) ++ encode_varint 0) (concat xss).
Proof.
  intros H2 Hc rest. unfold read_chunks. apply reads_chunks_loop; [|done..].
  rewrite !length_app.
  assert (length chunks ≤ length (concat (encode_chunk <$> chunks)))%nat; [|lia].
  clear -Hc. induction Hc as [|c cs [_ Hc] _ IH]; cbn [length fmap list_fmap concat]; [lia|]. rewrite length_app.
  apply encode_chunk_nonempty in Hc. lia.
Qed.
End chunks.

#[global] Opaque encode_varint decode_varint.
