(* ===== verification/Windows.v ===== *)
(** Beam windows, panes and the [WindowedValue] header
    (coders/primitives.rs: [BeamWindow], [PaneInfo], [WindowCoder] and the
    timestamp/windows/pane framing). *)
From S2P Require Import Prelude Bytes Varint.

(** * Timestamps *)
Definition BEAM_MIN_TIMESTAMP_MILLIS : Z := (-9223372036854775)%Z.
Definition BEAM_MAX_TIMESTAMP_MILLIS : Z := 9223372036854775%Z.
Definition GLOBAL_WINDOW_MAX_TIMESTAMP_MILLIS : Z := 9223371950454775%Z.

(** * Data *)

(** [BeamWindow]. *)
Inductive BeamWindow : Type :=
| GlobalWindow
| IntervalWindow (start_millis end_millis : Z)
| OpaqueWindow (coder_id : string) (data : bytes).

#[export] Instance BeamWindow_eq_dec : EqDecision BeamWindow.
Proof. solve_decision. Defined.

(** [BeamWindow] is hashed. *)
#[export] Program Instance BeamWindow_countable : Countable BeamWindow :=
  inj_countable'
    (λ w, match w with
          | GlobalWindow => inl (inl ())
          | IntervalWindow s e => inl (inr (s, e))
          | OpaqueWindow id data => inr (id, data)
          end)
    (λ x, match x with
          | inl (inl _) => GlobalWindow
          | inl (inr (s, e)) => IntervalWindow s e
          | inr (id, data) => OpaqueWindow id data
          end) _.
Next Obligation. by intros []. Qed.

(** [PaneTiming], with the discriminants of the source. *)
Inductive PaneTiming : Type := Early | OnTime | Late | Unknown.

#[export] Instance PaneTiming_eq_dec : EqDecision PaneTiming.
Proof. solve_decision. Defined.

Definition PaneTiming_from_bits (bits : Z) : PaneTiming :=
  match bits with 0 => Early | 1 => OnTime | 2 => Late | _ => Unknown end%Z.

Definition PaneTiming_bits (t : PaneTiming) : Z :=
  match t with Early => 0 | OnTime => 1 | Late => 2 | Unknown => 3 end%Z.

Record PaneInfo : Type := mkPane {
  is_first : bool;
  is_last : bool;
  timing : PaneTiming;
  index : Z;
  non_speculative_index : Z;
}.

#[export] Instance PaneInfo_eq_dec : EqDecision PaneInfo.
Proof. solve_decision. Defined.

Definition no_firing : PaneInfo := mkPane true true Unknown 0 0.
Definition on_time_firing : PaneInfo := mkPane true true OnTime 0 0.

(** [WindowCoder]. *)
Inductive WindowCoder : Type :=
| GlobalCoder
| IntervalCoder
| OpaqueLengthPrefixed (inner_coder_id : string).

#[export] Instance WindowCoder_eq_dec : EqDecision WindowCoder.
Proof. solve_decision. Defined.

(** Windows a Rust value of the type can hold. *)
Definition wf_window (w : BeamWindow) : Prop :=
  match w with
  | GlobalWindow => True
  | IntervalWindow s e => is_i 64 s ∧ is_i 64 e
  | OpaqueWindow id data =>
      wf_string id ∧ is_u 32 (str_len id) ∧ is_u 63 (Z.of_nat (length data))
  end.

Definition wf_pane (p : PaneInfo) : Prop :=
  is_i 64 (index p) ∧ is_i 64 (non_speculative_index p).

Section windows.
Context `{P : Profile}.

(** [BeamWindow::max_timestamp_millis]. *)
Definition max_timestamp_millis {E} (w : BeamWindow) : outcome E Z :=
  match w with
  | GlobalWindow => Ok GLOBAL_WINDOW_MAX_TIMESTAMP_MILLIS
  | IntervalWindow _ end_millis => arith_i 64 (end_millis - 1)
  | OpaqueWindow _ _ => Ok BEAM_MAX_TIMESTAMP_MILLIS
  end.

(** * Binary window keys: [to_binary_key], [from_binary_key] *)

Definition ordered_i64_bytes (value : Z) : bytes :=
  be_bytes 8 (Z.lxor (to_unsigned 64 value) (2 ^ 63)).

Definition ordered_i64_from_bytes (bs : bytes) : option Z :=
  if decide (length bs = 8) then Some (to_signed 64 (Z.lxor (be_value bs) (2 ^ 63)))
  else None.

Definition to_binary_key {E} (w : BeamWindow) : outcome E bytes :=
  match w with
  | GlobalWindow => Ok [u8 0]
  | IntervalWindow start_millis end_millis =>
      Ok (u8 1 :: ordered_i64_bytes start_millis ++ ordered_i64_bytes end_millis)
  | OpaqueWindow coder_id data =>
      if (str_len coder_id <? 2 ^ 32)%Z
      then Ok (u8 2 :: be_bytes 4 (str_len coder_id) ++ as_bytes coder_id ++ data)
      else Panic "Beam window coder id exceeds u32 length"
  end.

Definition from_binary_key (key : bytes) : option BeamWindow :=
  match key with
  | [] => None
  | tag :: rest =>
    if decide (u8_to_Z tag = 0%Z ∧ rest = []) then Some GlobalWindow
    else if decide (u8_to_Z tag = 1%Z ∧ length rest = 16) then
      start ← ordered_i64_from_bytes (take 8 rest);
      fin ← ordered_i64_from_bytes (drop 8 rest);
      Some (IntervalWindow start fin)
    else if decide (u8_to_Z tag = 2%Z ∧ 4 ≤ length rest) then
      let coder_end := (4 + Z.to_nat (be_value (take 4 rest)))%nat in
      if decide (length rest < coder_end) then None
      else
        coder_id ← from_utf8 (drop 4 (take coder_end rest));
        Some (OpaqueWindow coder_id (drop coder_end rest))
    else None
  end.

(** * Timestamps on the wire *)

Definition encode_timestamp_millis (timestamp_millis : Z) : bytes :=
  put_u64 (Z.lxor (to_unsigned 64 timestamp_millis) (2 ^ 63)).

Definition decode_timestamp_millis {E} : reader E Z :=
  shifted ← get_u64; mret (to_signed 64 (Z.lxor shifted (2 ^ 63))).

(** * One window: [WindowCoder::encode_window], [decode_one_window] *)

Definition encode_window {E} (c : WindowCoder) (w : BeamWindow) : outcome E bytes :=
  match c, w with
  | GlobalCoder, GlobalWindow => Ok []
  | IntervalCoder, IntervalWindow start_millis end_millis =>
      span ← arith_i 64 (end_millis - start_millis);
      Ok (encode_timestamp_millis end_millis ++ encode_varint (to_unsigned 64 span))
  | OpaqueLengthPrefixed inner_coder_id, OpaqueWindow coder_id data =>
      if decide (coder_id = inner_coder_id) then Ok (encode_length_delimited data)
      else Panic "Window value does not match the configured Beam window coder"
  | _, _ => Panic "Window value does not match the configured Beam window coder"
  end.

Definition decode_one_window {E} (c : WindowCoder) : reader E BeamWindow :=
  match c with
  | GlobalCoder => mret GlobalWindow
  | IntervalCoder =>
      end_millis ← decode_timestamp_millis;
      span ← decode_varint;
      start_millis ← lift (arith_i 64 (end_millis - to_signed 64 span));
      mret (IntervalWindow start_millis end_millis)
  | OpaqueLengthPrefixed inner_coder_id =>
      len ← decode_varint;
      data ← copy_to_slice len;
      mret (OpaqueWindow inner_coder_id data)
  end.

(** [WindowCoder::decode_window]: one window that must fill the whole slice. *)
Definition decode_window (c : WindowCoder) (bs : bytes) : outcome CodersError BeamWindow :=
  let read : dec BeamWindow :=
    match c with
    | OpaqueLengthPrefixed inner_coder_id =>
        len ← decode_varint;
        remaining ← remaining;
        if (remaining <? len)%Z
        then fail (WhileDecoding "opaque window coder: insufficient bytes")
        else data ← copy_to_slice len; mret (OpaqueWindow inner_coder_id data)
    | _ => decode_one_window c
    end in
  '(window, rest) ← read bs;
  match rest with
  | [] => Ok window
  | _ => Err (WhileDecoding "window coder left trailing byte(s)")
  end.

(** * Window lists *)

Definition encode_windows {E} (windows : list BeamWindow) (c : WindowCoder) : outcome E bytes :=
  encs ← traverse (encode_window c) windows;
  Ok (put_i32 (to_signed 32 (Z.of_nat (length windows))) ++ concat encs).

(** Any negative count selects the chunked form. *)
Definition decode_windows {E} (c : WindowCoder) : reader E (list BeamWindow) :=
  count ← get_i32;
  if (0 <=? count)%Z then read_n (Z.to_nat count) (decode_one_window c)
  else read_chunks (decode_one_window c).

(** * Panes *)

Definition encode_pane_info (pane : PaneInfo) : bytes :=
  let first_byte := Z.shiftl (PaneTiming_bits (timing pane)) 2 in
  let first_byte := if is_first pane then Z.lor first_byte 1 else first_byte in
  let first_byte := if is_last pane then Z.lor first_byte 2 else first_byte in
  let has_index := bool_decide (index pane ≠ 0%Z) in
  let derived_non_speculative_index :=
    if decide (timing pane = Early) then (-1)%Z else index pane in
  let has_non_speculative_index :=
    bool_decide (non_speculative_index pane ≠ derived_non_speculative_index) in
  let first_byte :=
    if has_non_speculative_index then Z.lor first_byte 32
    else if has_index then Z.lor first_byte 16 else first_byte in
  put_u8 first_byte ++
  (if has_non_speculative_index then
     encode_signed_varint (index pane) ++ encode_signed_varint (non_speculative_index pane)
   else if has_index then encode_signed_varint (index pane) else []).

Definition decode_pane_info {E} : reader E PaneInfo :=
  first_byte ← get_u8;
  let fb := u8_to_Z first_byte in
  let encoding := Z.shiftr fb 4 in
  let timing := PaneTiming_from_bits (Z.land (Z.shiftr fb 2) 3) in
  let is_first := negb (Z.land fb 1 =? 0)%Z in
  let is_last := negb (Z.land fb 2 =? 0)%Z in
  index ← (if (1 <=? encoding)%Z then decode_signed_varint else mret 0%Z);
  non_speculative_index ←
    (if (2 <=? encoding)%Z then decode_signed_varint
     else mret (if decide (timing = Early) then (-1)%Z else index));
  mret (mkPane is_first is_last timing index non_speculative_index).

(** * The header of a windowed value *)

Definition encode_windowed_value_header {E} (timestamp_millis : Z) (windows : list BeamWindow)
    (c : WindowCoder) (pane : PaneInfo) : outcome E bytes :=
  ws ← encode_windows windows c;
  Ok (encode_timestamp_millis timestamp_millis ++ ws ++ encode_pane_info pane).

Definition decode_windowed_value_header {E} (c : WindowCoder)
    : reader E (Z * list BeamWindow * PaneInfo) :=
  timestamp_millis ← decode_timestamp_millis;
  windows ← decode_windows c;
  pane ← decode_pane_info;
  mret (timestamp_millis, windows, pane).

(** * Timestamps: round trip *)

(** The sign flip maps [i64] onto [u64] in order: the wire value is the offset
    from the smallest timestamp. *)
Lemma sign_flip_value v :
  is_i 64 v → Z.lxor (to_unsigned 64 v) (2 ^ 63) = (v + 2 ^ 63)%Z.
Proof.
  intros Hv. change (2 ^ 63)%Z with (2 ^ (64 - 1))%Z.
  rewrite lxor_sign_bit by (lia || (apply to_unsigned_range; lia)).
  unfold to_unsigned, is_i in *. rewrite Z.add_mod_idemp_l by lia. apply Z.mod_small. lia.
Qed.

Lemma sign_flip_back v : is_i 64 v → to_signed 64 (Z.lxor (v + 2 ^ 63) (2 ^ 63)) = v.
Proof.
  intros Hv. rewrite <- sign_flip_value by done.
  rewrite Z.lxor_assoc, Z.lxor_nilpotent, Z.lxor_0_r. by apply signed_unsigned.
Qed.

Lemma reads_timestamp {E} v :
  is_i 64 v → reads (E:=E) decode_timestamp_millis (encode_timestamp_millis v) v.
Proof.
  intros Hv. unfold encode_timestamp_millis. rewrite sign_flip_value by done.
  eapply reads_bind_nil; [apply reads_u64; unfold is_u, is_i in *; lia|].
  by rewrite sign_flip_back.
Qed.

(** * Windows: round trip *)

Lemma arith_wrap_sub {E} a b d :
  is_i 64 a → is_i 64 b → arith_i (E:=E) 64 (a - b) = Ok d →
  arith_i (E:=E) 64 (a - d) = Ok b ∧ is_i 64 d.
Proof.
  intros Ha Hb. unfold arith_i at 1. destruct (in_i 64 (a - b)) eqn:Hi.
  - intros [= <-]. apply in_i_spec in Hi. split; [|done].
    replace (a - (a - b))%Z with b by lia. by apply arith_i_ok.
  - destruct overflow_checks eqn:Ho; [done|]. intros [= <-].
    split; [|apply to_signed_range; lia].
    assert (Hm : to_signed 64 (a - to_signed 64 (a - b)) = b).
    { rewrite <- (to_signed_id 64 b) at 2 by (done || lia).
      rewrite <- (to_signed_mod 64 (a - _)), <- (to_signed_mod 64 b) by lia. f_equal.
      unfold to_signed. set (m := ((a - b) mod 2 ^ 64)%Z).
      assert (Hmm : ((a - m) mod 2 ^ 64 = b mod 2 ^ 64)%Z).
      { subst m. rewrite Zminus_mod_idemp_r. f_equal. lia. }
      destruct (m <? 2 ^ (64 - 1))%Z; [done|].
      replace (a - (m - 2 ^ 64))%Z with ((a - m) + 1 * 2 ^ 64)%Z by lia.
      by rewrite Z.mod_add by lia. }
    unfold arith_i. destruct (in_i 64 (a - to_signed 64 (a - b))) eqn:Hi2; [|by rewrite Ho, Hm].
    apply in_i_spec in Hi2. rewrite to_signed_id in Hm by (done || lia). by rewrite Hm.
Qed.

(** Whatever the encoder writes for a window, the decoder of the same coder
    reads back as that window, under either overflow profile. *)
Lemma reads_window {E} c w enc :
  wf_window w → encode_window (E:=E) c w = Ok enc → reads (E:=E) (decode_one_window c) enc w.
Proof.
  intros Hw He. destruct c as [| |inner], w as [|s e|id data]; unfold encode_window in He;
    try discriminate He.
  - by simplify_eq.
  - destruct Hw as [Hs Hend]. inv_bind He. simplify_eq.
    destruct (arith_wrap_sub _ _ _ Hend Hs E0) as [Hback Hd].
    eapply reads_bind; [by apply reads_timestamp|].
    rewrite <- (app_nil_r (encode_varint _)).
    eapply reads_bind; [apply reads_varint, to_unsigned_range; lia|].
    rewrite signed_unsigned by (done || lia). rewrite Hback. done.
  - destruct Hw as (_ & _ & Hl). case_decide; simplify_eq.
    eapply reads_bind; [apply reads_varint; unfold is_u in *; lia|].
    eapply reads_bind_nil; [apply reads_slice|done].
Qed.

Lemma reads_window_list {E} c ws encs :
  Forall wf_window ws → traverse (encode_window (E:=E) c) ws = Ok encs →
  Forall2 (reads (E:=E) (decode_one_window c)) encs ws.
Proof.
  intros Hw. revert encs. induction Hw as [|w ws Hw _ IH]; intros encs H; simpl in H.
  - simplify_eq. constructor.
  - inv_bind H. inv_bind H. simplify_eq. constructor; [by apply reads_window|by apply IH].
Qed.

(** The windows a window coder can write: those of its kind, with a span that
    fits an [i64]. *)
Definition window_fits (c : WindowCoder) (w : BeamWindow) : Prop :=
  match c, w with
  | GlobalCoder, GlobalWindow => True
  | IntervalCoder, IntervalWindow start_millis end_millis => is_i 64 (end_millis - start_millis)
  | OpaqueLengthPrefixed inner_coder_id, OpaqueWindow coder_id _ => coder_id = inner_coder_id
  | _, _ => False
  end.

Lemma encode_windows_total {E} c ws :
  Forall (window_fits c) ws → ∃ bs, encode_windows (E:=E) ws c = Ok bs.
Proof.
  intros Hf. assert (Ht : ∃ encs, traverse (encode_window (E:=E) c) ws = Ok encs); [|].
  { induction Hf as [|w ws Hw _ [encs IH]]; [by exists []|].
    assert (∃ b, encode_window (E:=E) c w = Ok b) as [b Hb].
    { destruct c, w; try done; cbn [encode_window window_fits] in *.
      - by eexists.
      - rewrite arith_i_ok by done. by eexists.
      - rewrite decide_True by done. by eexists. }
    simpl. rewrite Hb. cbn. rewrite IH. by eexists. }
  destruct Ht as [encs He]. unfold encode_windows. rewrite He. by eexists.
Qed.

Lemma reads_windows {E} c ws enc :
  Forall wf_window ws → (Z.of_nat (length ws) < 2 ^ 31)%Z →
  encode_windows (E:=E) ws c = Ok enc → reads (E:=E) (decode_windows c) enc ws.
Proof.
  intros Hw Hl He. unfold encode_windows in He. inv_bind He. simplify_eq.
  assert (is_i 32 (Z.of_nat (length ws))) by (unfold is_i; lia).
  rewrite to_signed_id by (done || lia).
  eapply reads_bind; [by apply reads_i32|]. cbv beta.
  destruct (Z.leb_spec 0 (Z.of_nat (length ws))); [|lia].
  rewrite Nat2Z.id. by apply reads_n, reads_window_list.
Qed.

(** * Panes: round trip *)

Lemma pane_first_byte t (f l n i : bool) :
  let fb := Z.shiftl (PaneTiming_bits t) 2 in
  let fb := if f then Z.lor fb 1 else fb in
  let fb := if l then Z.lor fb 2 else fb in
  let fb := if n then Z.lor fb 32 else if i then Z.lor fb 16 else fb in
  let b := u8_to_Z (u8 fb) in
  Z.shiftr b 4 = (if n then 2 else if i then 1 else 0)%Z ∧
  PaneTiming_from_bits (Z.land (Z.shiftr b 2) 3) = t ∧
  negb (Z.land b 1 =? 0)%Z = f ∧ negb (Z.land b 2 =? 0)%Z = l.
Proof. destruct t, f, l, n, i; vm_compute; done. Qed.

Lemma reads_pane {E} p : wf_pane p → reads (E:=E) decode_pane_info (encode_pane_info p) p.
Proof.
  intros [Hi Hn]. destruct p as [f l t ix nsi]. unfold encode_pane_info. simpl in *.
  set (nb := bool_decide (nsi ≠ _)). set (ib := bool_decide (ix ≠ 0%Z)).
  pose proof (pane_first_byte t f l nb ib) as (E1 & E2 & E3 & E4).
  apply (reads_bind _ _ (put_u8 _) _ _ _ (reads_u8 _)). cbv zeta. rewrite E1, E2, E3, E4.
  destruct nb eqn:Hnb; [|destruct ib eqn:Hib]; simpl.
  - eapply reads_bind; [by apply reads_signed_varint|].
    eapply reads_bind_nil; [by apply reads_signed_varint|done].
  - apply bool_decide_eq_false, dec_stable in Hnb. subst nsi.
    rewrite <- (app_nil_r (encode_signed_varint ix)).
    eapply reads_bind; [by apply reads_signed_varint|]. done.
  - apply bool_decide_eq_false, dec_stable in Hnb, Hib. subst nsi ix. done.
Qed.

Lemma reads_header {E} c ts ws pane enc :
  is_i 64 ts → Forall wf_window ws → (Z.of_nat (length ws) < 2 ^ 31)%Z → wf_pane pane →
  encode_windowed_value_header (E:=E) ts ws c pane = Ok enc →
  reads (E:=E) (decode_windowed_value_header c) enc (ts, ws, pane).
Proof.
  intros Hts Hw Hl Hp He. unfold encode_windowed_value_header in He. inv_bind He. simplify_eq.
  eapply reads_bind; [by apply reads_timestamp|].
  eapply reads_bind; [by apply reads_windows|].
  eapply reads_bind_nil; [by apply reads_pane|done].
Qed.

(** * Binary keys *)

Lemma ordered_i64_bytes_eq v : is_i 64 v → ordered_i64_bytes v = be_bytes 8 (v + 2 ^ 63).
Proof. intros. unfold ordered_i64_bytes. by rewrite sign_flip_value. Qed.

Lemma ordered_i64_round_trip v :
  is_i 64 v → ordered_i64_from_bytes (ordered_i64_bytes v) = Some v.
Proof.
  intros Hv. rewrite ordered_i64_bytes_eq by done. unfold ordered_i64_from_bytes.
  rewrite decide_True by apply be_bytes_length. rewrite be_value_be_bytes.
  rewrite Z.mod_small by (unfold is_i in Hv; lia). by rewrite sign_flip_back.
Qed.

Lemma ordered_i64_from_bytes_Some bs v :
  ordered_i64_from_bytes bs = Some v → is_i 64 v ∧ ordered_i64_bytes v = bs.
Proof.
  unfold ordered_i64_from_bytes. case_decide as Hl; [|done]. intros [= <-].
  assert (is_i 64 (to_signed 64 (Z.lxor (be_value bs) (2 ^ 63)))) by (apply to_signed_range; lia).
  split; [done|]. unfold ordered_i64_bytes.
  pose proof (be_value_range bs) as Hr. rewrite Hl in Hr.
  assert (Hu : is_u 64 (be_value bs)) by (unfold is_u; lia).
  rewrite unsigned_signed; [|lia|].
  - rewrite Z.lxor_assoc, Z.lxor_nilpotent, Z.lxor_0_r, <- Hl. apply be_bytes_be_value.
  - change (2 ^ 63)%Z with (2 ^ (64 - 1))%Z. rewrite lxor_sign_bit by (done || lia).
    apply Z.mod_pos_bound. lia.
Qed.

Lemma ordered_i64_length v : length (ordered_i64_bytes v) = 8.
Proof. apply be_bytes_length. Qed.

Lemma u8_small z : (0 ≤ z < 256)%Z → u8_to_Z (u8 z) = z.
Proof. intros. rewrite u8_to_Z_u8. by apply Z.mod_small. Qed.

Lemma from_to_binary_key {E} w key :
  wf_window w → to_binary_key (E:=E) w = Ok key → from_binary_key key = Some w.
Proof.
  intros Hw Hk. destruct w as [|s e|id data]; unfold to_binary_key in Hk.
  - simplify_eq. unfold from_binary_key. by rewrite decide_True by (by rewrite u8_small).
  - destruct Hw as [Hs He]. simplify_eq. unfold from_binary_key.
    rewrite u8_small by lia. rewrite decide_False by (intros [? _]; lia).
    rewrite decide_True by (split; [done|rewrite length_app, !ordered_i64_length; done]).
    rewrite take_app_exact, drop_app_exact by (by rewrite ordered_i64_length).
    rewrite !ordered_i64_round_trip by done. done.
  - destruct Hw as (Hid & Hlen & _). destruct (Z.ltb_spec (str_len id) (2 ^ 32)); simplify_eq.
    unfold from_binary_key. rewrite u8_small by lia.
    rewrite decide_False by (intros [? _]; lia). rewrite decide_False by (intros [? _]; lia).
    rewrite decide_True by (split; [done|rewrite length_app, be_bytes_length; lia]).
    rewrite take_app_exact by (by rewrite be_bytes_length). rewrite be_value_be_bytes.
    rewrite Z.mod_small by (unfold is_u in Hlen; lia). unfold str_len. rewrite Nat2Z.id.
    rewrite decide_False by (rewrite !length_app, be_bytes_length; lia).
    rewrite app_assoc, take_app_exact, drop_app_exact by (rewrite length_app, be_bytes_length; lia).
    rewrite drop_app_exact by (by rewrite be_bytes_length).
    rewrite from_utf8_as_bytes by done. done.
Qed.

Lemma to_from_binary_key {E} key w :
  from_binary_key key = Some w → to_binary_key (E:=E) w = Ok key.
Proof.
  destruct key as [|tag rest]; [done|]. unfold from_binary_key.
  assert (Ht : u8 (u8_to_Z tag) = tag) by apply u8_u8_to_Z.
  case_decide as H0.
  { intros [= <-]. destruct H0 as [H0 ->]. simpl. by rewrite <- Ht, H0. }
  case_decide as H1.
  { destruct H1 as [H1 Hl]. intros Hb.
    destruct (ordered_i64_from_bytes (take 8 rest)) as [s|] eqn:Es; [|done].
    destruct (ordered_i64_from_bytes (drop 8 rest)) as [e|] eqn:Ee; [|done].
    simplify_eq/=. apply ordered_i64_from_bytes_Some in Es as [_ ->].
    apply ordered_i64_from_bytes_Some in Ee as [_ ->]. by rewrite take_drop, <- Ht, H1. }
  case_decide as H2; [|done]. destruct H2 as [H2 Hl]. case_decide as H3; [done|].
  intros Hb. destruct (from_utf8 _) as [id|] eqn:Eu; [|done]. simplify_eq/=.
  apply from_utf8_Some in Eu as [Hid _].
  pose proof (be_value_range (take 4 rest)) as Hr. rewrite length_take, Nat.min_l in Hr by lia.
  set (n := Z.to_nat (be_value (take 4 rest))) in *.
  assert (Hsl : str_len id = be_value (take 4 rest)).
  { unfold str_len. rewrite Hid, length_drop, length_take. lia. }
  rewrite Hsl. destruct (Z.ltb_spec (be_value (take 4 rest)) (2 ^ 32)); [|lia].
  rewrite Hid, <- Ht, H2. do 2 f_equal.
  rewrite <- (take_drop 4 rest) at 4. f_equal.
  - rewrite <- (be_bytes_be_value (take 4 rest)) at 2.
    by rewrite length_take, Nat.min_l by lia.
  - rewrite <- (take_drop (S (S (S (S n)))) rest) at 3. rewrite drop_app_le; [done|].
    rewrite length_take. lia.
Qed.

(** Keys of interval windows compare as (start, end) pairs. *)
Lemma interval_key_compare {E} s1 e1 s2 e2 k1 k2 :
  is_i 64 s1 → is_i 64 e1 → is_i 64 s2 → is_i 64 e2 →
  to_binary_key (E:=E) (IntervalWindow s1 e1) = Ok k1 →
  to_binary_key (E:=E) (IntervalWindow s2 e2) = Ok k2 →
  bytes_compare k1 k2 = match (s1 ?= s2)%Z with Eq => (e1 ?= e2)%Z | c => c end.
Proof.
  intros Hs1 He1 Hs2 He2 [= <-] [= <-]. cbn [bytes_compare]. rewrite Z.compare_refl.
  rewrite bytes_compare_app by (by rewrite !ordered_i64_length).
  rewrite !ordered_i64_bytes_eq by done. unfold is_i in *.
  rewrite !bytes_compare_be by lia.
  assert (Hc : ∀ a b, (a + 2 ^ 63 ?= b + 2 ^ 63)%Z = (a ?= b)%Z).
  { intros a b. rewrite !(Z.add_comm _ (2 ^ 63)). apply Z.add_compare_mono_l. }
  by rewrite !Hc.
Qed.
End windows.
