(* ===== verification/Coders.v ===== *)
(** The standard coders (coders/primitives.rs, coders/mod.rs) over the records of
    store/record.rs, in nested and outermost context, and windowed values and user timers on
    the wire. *)
From S2P Require Import Prelude Bytes Varint Windows.
Set Warnings "-register-all".

(** * Records *)

(** [PrimitiveValue].  A [f64] is its bit pattern: the code only moves the bits
    ([put_f64], [get_f64], [to_bits]). *)
Inductive PrimitiveValue : Type :=
| PString (s : string)
| PBytes (b : bytes)
| PInt64 (z : Z)
| PFloat64 (bits : Z)
| PBool (b : bool)
| PVoid.

#[export] Instance PrimitiveValue_eq_dec : EqDecision PrimitiveValue.
Proof. solve_decision. Defined.

(** [BeamRecord], with the fields of [BeamKV], [BeamGbk], [IterableValue] and
    [TupleValue] inlined. *)
Inductive BeamRecord : Type :=
| PRIMITIVE (v : PrimitiveValue)
| ITERABLE (list : list BeamRecord)
| KV (key : PrimitiveValue) (value : BeamRecord)
| GBK (key : PrimitiveValue) (value : list BeamRecord)
| TUPLE (values : list PrimitiveValue).

(** [BeamRecord::get_primitive]. *)
Definition get_primitive (r : BeamRecord) : outcome string PrimitiveValue :=
  match r with
  | PRIMITIVE value => Ok value
  | _ => Err "excluded other types"
  end.

(** * Coders *)

(** [StandardBeamCoders]. *)
Inductive StandardBeamCoders : Type :=
| StringUtf8Coder
| BytesCoder
| JavaOpaqueCoder
| VarIntCoder
| VarInt32Coder
| BoolCoder
| DoubleCoder
| VoidCoder
| IterableCoder (element_coder : StandardBeamCoders)
| NullableCoder (value_coder : StandardBeamCoders)
| LengthPrefixCoder
| PickleCoder
| TupleCoder (component_coders : list StandardBeamCoders)
| KvCoder (key_coder value_coder : StandardBeamCoders)
| GbkCoder (key_coder element_coder : StandardBeamCoders).

Definition is_leaf (c : StandardBeamCoders) : bool :=
  match c with
  | IterableCoder _ | NullableCoder _ | TupleCoder _ | KvCoder _ _ | GbkCoder _ _ => false
  | _ => true
  end.

(** Induction with a hypothesis for every component of a tuple coder. *)
Section coder_ind.
Variable Q : StandardBeamCoders → Prop.
Hypothesis Hleaf : ∀ c, is_leaf c = true → Q c.
Hypothesis Hiter : ∀ e, Q e → Q (IterableCoder e).
Hypothesis Hnull : ∀ v, Q v → Q (NullableCoder v).
Hypothesis Htuple : ∀ cs, Forall Q cs → Q (TupleCoder cs).
Hypothesis Hkv : ∀ k v, Q k → Q v → Q (KvCoder k v).
Hypothesis Hgbk : ∀ k e, Q k → Q e → Q (GbkCoder k e).

Fixpoint coder_ind (c : StandardBeamCoders) : Q c :=
  match c with
  | IterableCoder e => Hiter e (coder_ind e)
  | NullableCoder v => Hnull v (coder_ind v)
  | TupleCoder cs =>
      Htuple cs
        ((fix go l : Forall Q l :=
            match l with
            | [] => @List.Forall_nil _ Q
            | x :: l => @List.Forall_cons _ Q x l (coder_ind x) (go l)
            end) cs)
  | KvCoder k v => Hkv k v (coder_ind k) (coder_ind v)
  | GbkCoder k e => Hgbk k e (coder_ind k) (coder_ind e)
  | c => Hleaf c eq_refl
  end.
End coder_ind.

Definition is_void (c : StandardBeamCoders) : bool :=
  match c with VoidCoder => true | _ => false end.

Fixpoint is_structured (c : StandardBeamCoders) : bool :=
  match c with
  | NullableCoder v => is_structured v
  | IterableCoder _ | TupleCoder _ | KvCoder _ _ | GbkCoder _ _ => true
  | _ => false
  end.

Fixpoint is_primitive (c : StandardBeamCoders) : bool :=
  match c with
  | NullableCoder v => is_primitive v
  | IterableCoder _ | TupleCoder _ | KvCoder _ _ | GbkCoder _ _ => false
  | _ => true
  end.

Definition key_coder (c : StandardBeamCoders) : StandardBeamCoders :=
  match c with KvCoder k _ | GbkCoder k _ => k | _ => c end.

Section coders.
Context `{P : Profile}.

Abbreviation enc := (outcome CodersError bytes).

(** * Encoding *)

(** [VarInt32Coder::encode]: the [debug_assert!] is compiled into the builds
    that also check overflow. *)
Definition encode_varint32 (val : Z) : enc :=
  if overflow_checks && negb (in_i 32 val)
  then Panic "VarInt32Coder value out of i32 range"
  else Ok (encode_varint (to_unsigned 32 val)).

(** [encode_primitive] on every coder but [NullableCoder]. *)
Definition encode_leaf (c : StandardBeamCoders) (value : PrimitiveValue) : enc :=
  match c, value with
  | StringUtf8Coder, PString s => Ok (encode_length_delimited (as_bytes s))
  | BytesCoder, PBytes b => Ok (encode_length_delimited b)
  | JavaOpaqueCoder, PBytes b => Ok b
  | VarIntCoder, PInt64 z => Ok (encode_signed_varint z)
  | VarInt32Coder, PInt64 z => encode_varint32 z
  | BoolCoder, PBool b => Ok (put_u8 (if b then 1 else 0))
  | DoubleCoder, PFloat64 bits => Ok (put_u64 bits)
  | VoidCoder, PVoid => Ok []
  | PickleCoder, PBytes b => Ok (encode_length_delimited b)
  | LengthPrefixCoder, PBytes b => Ok (encode_length_delimited b)
  | _, _ => Panic "Mismatched coder"
  end.

(** [IterableCoder::encode], given the element encoder. *)
Definition encode_iterable (element : BeamRecord → enc) (values : list BeamRecord) : enc :=
  if (Z.of_nat (length values) <? 2 ^ 31)%Z then
    encs ← traverse element values;
    Ok (put_i32 (Z.of_nat (length values)) ++ concat encs)
  else Panic "IterableCoder length exceeds i32::MAX".

(** [encode_key], given the encoder of the key coder. *)
Definition encode_key_with (k : StandardBeamCoders) (encode_k : BeamRecord → enc)
    (key : PrimitiveValue) : enc :=
  if is_primitive k then encode_k (PRIMITIVE key)
  else match key with
       | PBytes raw => Ok raw
       | _ => Panic "composite key coder requires opaque bytes"
       end.

(** [StandardBeamCoders::encode]: the match arms in the source's order. *)
Fixpoint encode (c : StandardBeamCoders) (record : BeamRecord) : enc :=
  match c, record with
  | IterableCoder e, ITERABLE l => encode_iterable (encode e) l
  | TupleCoder cs, TUPLE vs =>
      if decide (length vs = length cs) then
        encs ← traverse2 (λ c v, encode c (PRIMITIVE v)) cs vs;
        Ok (concat encs)
      else Panic "TupleCoder: component count mismatch"
  | NullableCoder v, PRIMITIVE PVoid => Ok (put_u8 0)
  | NullableCoder v, present => bs ← encode v present; Ok (put_u8 1 ++ bs)
  | KvCoder k v, KV key value =>
      kb ← encode_key_with k (encode k) key;
      vb ← encode v value;
      Ok (kb ++ vb)
  | KvCoder k v, GBK key l =>
      match v with
      | IterableCoder e =>
          kb ← encode_key_with k (encode k) key;
          vb ← encode_iterable (encode e) l;
          Ok (kb ++ vb)
      | _ => Panic "KvCoder with non-iterable value cannot encode a grouped BeamRecord::GBK"
      end
  | GbkCoder k e, GBK key l =>
      kb ← encode_key_with k (encode k) key;
      vb ← encode_iterable (encode e) l;
      Ok (kb ++ vb)
  | c, PRIMITIVE v => encode_leaf c v
  | _, _ => Panic "Mismatched coder"
  end.

(** [encode_primitive] and [encode_key] as the source has them. *)
Definition encode_primitive (c : StandardBeamCoders) (value : PrimitiveValue) : enc :=
  match c with
  | NullableCoder v =>
      match value with
      | PVoid => Ok (put_u8 0)
      | _ => bs ← encode v (PRIMITIVE value); Ok (put_u8 1 ++ bs)
      end
  | _ => encode_leaf c value
  end.

Definition encode_key (c : StandardBeamCoders) (key : PrimitiveValue) : enc :=
  if is_primitive c then encode_primitive c key
  else match key with
       | PBytes raw => Ok raw
       | _ => Panic "composite key coder requires opaque bytes"
       end.

(** * Decoding *)

Definition decode_string : dec string :=
  bs ← decode_length_delimited "StringUtf8Coder";
  match from_utf8 bs with
  | Some s => mret s
  | None => fail (WhileDecoding "StringUtf8Coder: invalid UTF-8")
  end.

Definition decode_varint32 : dec Z :=
  raw ← decode_varint;
  if (2 ^ 32 <=? raw)%Z
  then fail (WhileDecoding "VarInt32Coder: varint value out of 32-bit range")
  else mret (to_signed 32 raw).

Definition decode_double : dec Z :=
  remaining ← remaining;
  if (remaining <? 8)%Z then fail (WhileDecoding "DoubleCoder: insufficient bytes")
  else get_u64.

(** [IterableCoder::decode], given the element decoder. *)
Definition decode_iterable (element : dec BeamRecord) : dec (list BeamRecord) :=
  count ← get_i32;
  if (0 <=? count)%Z then read_n (Z.to_nat count) element
  else if (count =? -1)%Z then read_chunks element
  else panic "IterableCoder length must be non-negative or -1".

(** [decode_primitive], given the record decoder. *)
Definition decode_primitive_with (decode_c : dec BeamRecord) : dec PrimitiveValue :=
  r ← decode_c;
  match r with
  | PRIMITIVE v => mret v
  | _ => fail (WhileDecoding "excluded other types")
  end.

(** [decode_key], given the record decoder of the key coder. *)
Definition decode_key_with (k : StandardBeamCoders) (decode_k : dec BeamRecord)
    : dec PrimitiveValue :=
  if is_primitive k then decode_primitive_with decode_k
  else record ← decode_k; raw ← lift (encode k record); mret (PBytes raw).

Fixpoint decode_nested (c : StandardBeamCoders) : dec BeamRecord :=
  match c with
  | StringUtf8Coder => s ← decode_string; mret (PRIMITIVE (PString s))
  | BytesCoder => b ← decode_length_delimited "BytesCoder"; mret (PRIMITIVE (PBytes b))
  | JavaOpaqueCoder => b ← read_rest; mret (PRIMITIVE (PBytes b))
  | VarIntCoder => z ← decode_signed_varint; mret (PRIMITIVE (PInt64 z))
  | VarInt32Coder => z ← decode_varint32; mret (PRIMITIVE (PInt64 z))
  | BoolCoder => b ← get_u8; mret (PRIMITIVE (PBool (negb (u8_to_Z b =? 0)%Z)))
  | DoubleCoder => d ← decode_double; mret (PRIMITIVE (PFloat64 d))
  | VoidCoder => mret (PRIMITIVE PVoid)
  | IterableCoder e => l ← decode_iterable (decode_nested e); mret (ITERABLE l)
  | PickleCoder => b ← decode_length_delimited "PickleCoder"; mret (PRIMITIVE (PBytes b))
  | LengthPrefixCoder =>
      b ← decode_length_delimited "LengthPrefixCoder"; mret (PRIMITIVE (PBytes b))
  | TupleCoder cs =>
      vs ← read_all (λ c, decode_primitive_with (decode_nested c)) cs; mret (TUPLE vs)
  | NullableCoder v =>
      b ← get_u8;
      if (u8_to_Z b =? 0)%Z then mret (PRIMITIVE PVoid)
      else if (u8_to_Z b =? 1)%Z then decode_nested v
      else fail (WhileDecoding "NullableCoder: unexpected null indicator byte")
  | KvCoder k v =>
      key ← decode_key_with k (decode_nested k);
      value ← decode_nested v;
      mret (KV key value)
  | GbkCoder k e =>
      key ← decode_key_with k (decode_nested k);
      l ← decode_iterable (decode_nested e);
      mret (GBK key l)
  end.

Definition decode : StandardBeamCoders → dec BeamRecord := decode_nested.
Definition decode_primitive (c : StandardBeamCoders) := decode_primitive_with (decode_nested c).
Definition decode_key (c : StandardBeamCoders) := decode_key_with c (decode_nested c).

(** [decode_element]: the outermost, non-nested context. *)
Fixpoint decode_element (c : StandardBeamCoders) : dec BeamRecord :=
  match c with
  | StringUtf8Coder =>
      bs ← read_rest;
      match from_utf8 bs with
      | Some s => mret (PRIMITIVE (PString s))
      | None => fail (WhileDecoding "invalid utf8 element")
      end
  | BytesCoder => bs ← read_rest; mret (PRIMITIVE (PBytes bs))
  | KvCoder k v => key ← decode_key k; value ← decode_element v; mret (KV key value)
  | GbkCoder k e =>
      key ← decode_key k; l ← decode_iterable (decode_nested e); mret (GBK key l)
  | _ => decode_nested c
  end.

(** * Round trips *)

(** The records a coder accepts and gives back unchanged.  [JavaOpaqueCoder]
    is left out: it reads to the end of the buffer, so it has no nested form.
    A composite key is held as the bytes of its own encoding. *)
Definition typed_key (k : StandardBeamCoders) (typed_k : BeamRecord → Prop)
    (key : PrimitiveValue) : Prop :=
  if is_primitive k then typed_k (PRIMITIVE key)
  else ∃ record raw, key = PBytes raw ∧ typed_k record ∧ encode k record = Ok raw.

Fixpoint typed (c : StandardBeamCoders) (r : BeamRecord) : Prop :=
  match c, r with
  | StringUtf8Coder, PRIMITIVE (PString s) => wf_string s ∧ is_u 64 (str_len s)
  | BytesCoder, PRIMITIVE (PBytes b)
  | PickleCoder, PRIMITIVE (PBytes b)
  | LengthPrefixCoder, PRIMITIVE (PBytes b) => is_u 64 (Z.of_nat (length b))
  | VarIntCoder, PRIMITIVE (PInt64 z) => is_i 64 z
  | VarInt32Coder, PRIMITIVE (PInt64 z) => is_i 32 z
  | BoolCoder, PRIMITIVE (PBool _) => True
  | DoubleCoder, PRIMITIVE (PFloat64 bits) => is_u 64 bits
  | VoidCoder, PRIMITIVE PVoid => True
  | NullableCoder _, PRIMITIVE PVoid => True
  | NullableCoder v, _ => typed v r
  | IterableCoder e, ITERABLE l => (Z.of_nat (length l) < 2 ^ 31)%Z ∧ all1 (typed e) l
  | TupleCoder cs, TUPLE vs => all2 (λ c v, typed c (PRIMITIVE v)) cs vs
  | KvCoder k v, KV key value => typed_key k (typed k) key ∧ typed v value
  | GbkCoder k e, GBK key l =>
      typed_key k (typed k) key ∧ (Z.of_nat (length l) < 2 ^ 31)%Z ∧ all1 (typed e) l
  | _, _ => False
  end.

(** [c] carries [r] faithfully: it encodes it, and reading back the encoding
    from the front of any buffer gives [r] and consumes exactly that. *)
Definition carries (c : StandardBeamCoders) (r : BeamRecord) : Prop :=
  ∃ bs, encode c r = Ok bs ∧ reads (decode_nested c) bs r.

Lemma reads_string s :
  wf_string s → is_u 64 (str_len s) →
  reads decode_string (encode_length_delimited (as_bytes s)) s.
Proof.
  intros Hs Hl. eapply reads_bind_nil; [by apply reads_length_delimited|].
  by rewrite from_utf8_as_bytes.
Qed.

Lemma reads_varint32 z : is_i 32 z → reads decode_varint32 (encode_varint (to_unsigned 32 z)) z.
Proof.
  intros Hz. pose proof (to_unsigned_range 32 z ltac:(lia)) as Hr. unfold is_u in Hr.
  eapply reads_bind_nil; [apply reads_varint; unfold is_u; lia|].
  destruct (Z.leb_spec (2 ^ 32) (to_unsigned 32 z)); [lia|].
  by rewrite signed_unsigned.
Qed.

Lemma encode_varint32_ok z : is_i 32 z → encode_varint32 z = Ok (encode_varint (to_unsigned 32 z)).
Proof.
  intros Hz. unfold encode_varint32. apply in_i_spec in Hz. rewrite Hz. by rewrite andb_false_r.
Qed.

Lemma reads_double bits : is_u 64 bits → reads decode_double (put_u64 bits) bits.
Proof.
  intros Hb. apply reads_remaining. intros n rest Hn. unfold put_u64 in *.
  rewrite be_bytes_length in Hn. destruct (Z.ltb_spec n 8); [lia|]. by apply reads_u64.
Qed.

Lemma carries_iterable (element : BeamRecord → enc) (element_dec : dec BeamRecord) l :
  (Z.of_nat (length l) < 2 ^ 31)%Z →
  Forall (λ r, ∃ bs, element r = Ok bs ∧ reads element_dec bs r) l →
  ∃ bs, encode_iterable element l = Ok bs ∧ reads (decode_iterable element_dec) bs l.
Proof.
  intros Hlen HF. apply traverse_Forall2 in HF as (encs & Henc & Hr).
  unfold encode_iterable. destruct (Z.ltb_spec (Z.of_nat (length l)) (2 ^ 31)); [|lia].
  rewrite Henc. eexists. split; [done|].
  eapply reads_bind; [apply reads_i32; unfold is_i; lia|]. cbv beta.
  destruct (Z.leb_spec 0 (Z.of_nat (length l))); [|lia]. rewrite Nat2Z.id. by apply reads_n.
Qed.

Lemma reads_primitive_with (r : dec BeamRecord) bs v :
  reads r bs (PRIMITIVE v) → reads (decode_primitive_with r) bs v.
Proof. intros H. by eapply reads_bind_nil. Qed.

Lemma carries_key k key :
  (∀ r, typed k r → carries k r) → typed_key k (typed k) key →
  ∃ bs, encode_key_with k (encode k) key = Ok bs
        ∧ reads (decode_key_with k (decode_nested k)) bs key.
Proof.
  intros Hk Ht. unfold typed_key, encode_key_with, decode_key_with in *.
  destruct (is_primitive k).
  - destruct (Hk _ Ht) as (bs & He & Hr). exists bs. split; [done|].
    by apply reads_primitive_with.
  - destruct Ht as (record & raw & -> & Ht & He). destruct (Hk _ Ht) as (bs & He' & Hr).
    rewrite He in He'. injection He' as <-. exists raw. split; [done|]. intros rest.
    rewrite run_bind, Hr, run_bind. unfold lift. by rewrite He.
Qed.

Lemma carries_tuple cs vs :
  Forall2 (λ c v, carries c (PRIMITIVE v)) cs vs → carries (TupleCoder cs) (TUPLE vs).
Proof.
  intros HF. pose proof (Forall2_length _ _ _ HF) as Hl.
  apply (traverse2_Forall3 _
    (λ c v bs, reads (decode_nested c) bs (PRIMITIVE v))) in HF as (encs & Henc & H3).
  unfold carries. simpl. rewrite decide_True by done. rewrite Henc. simpl.
  eexists. split; [done|]. eapply reads_bind_nil; [|done]. clear -H3.
  induction H3 as [|c v bs cs vs encs Hr H3 IH]; simpl; [apply reads_ret|].
  eapply reads_bind; [by apply reads_primitive_with|]. by eapply reads_bind_nil.
Qed.

Lemma carries_nullable v r :
  (r ≠ PRIMITIVE PVoid → carries v r) → carries (NullableCoder v) r.
Proof.
  intros H.
  assert (r = PRIMITIVE PVoid ∨ r ≠ PRIMITIVE PVoid) as [->|Hne].
  { destruct r as [[]| | | |]; (by left) || (by right). }
  - eexists. split; [reflexivity|]. eapply reads_bind_nil; [apply reads_u8|].
    by rewrite u8_to_Z_u8.
  - destruct (H Hne) as (bs & He & Hr). exists (put_u8 1 ++ bs). split.
    + destruct r as [[]| | | |]; simpl; try (by rewrite He). done.
    + eapply reads_bind; [apply reads_u8|]. by rewrite u8_to_Z_u8.
Qed.

Lemma carries_leaf c r : is_leaf c = true → typed c r → carries c r.
Proof.
  intros Hc Ht. unfold carries.
  destruct c, r as [[]| | | |]; try done; cbn [encode encode_leaf decode_nested] in *;
    try (rewrite encode_varint32_ok by done);
    (eexists; split; [reflexivity|]); try (by apply reads_ret);
    eapply reads_bind_nil; try reflexivity.
  all: try (by apply reads_length_delimited).
  - destruct Ht. by apply reads_string.
  - by apply reads_signed_varint.
  - by apply reads_varint32.
  - apply reads_u8.
  - rewrite u8_to_Z_u8. by destruct b.
  - by apply reads_double.
Qed.

(** Every coder carries every record of its type. *)
Lemma typed_carries c r : typed c r → carries c r.
Proof.
  revert r. induction c as [c Hleaf|e IH|v IH|cs IH|k v IHk IHv|k e IHk IHe] using coder_ind;
    intros r Ht.
  - by apply carries_leaf.
  - destruct r as [| l | | |]; try done. destruct Ht as [Hl Ht].
    apply all1_Forall in Ht.
    destruct (carries_iterable (encode e) (decode_nested e) l Hl) as (bs & He & Hr).
    { eapply Forall_impl; [done|]. intros r Hr. by apply IH. }
    exists bs. split; [done|]. by eapply reads_bind_nil.
  - apply carries_nullable. intros Hne. apply IH.
    destruct r as [[]| | | |]; try done.
  - destruct r as [| | | |vs]; try done. apply carries_tuple. apply all2_Forall2 in Ht.
    clear -Ht IH. induction Ht as [|c v cs vs Hc _ IHt]; constructor.
    + inversion IH; subst. by auto.
    + apply IHt. by inversion IH.
  - destruct r as [| |key value| |]; try done. destruct Ht as [Hk Hv].
    destruct (carries_key k key IHk Hk) as (kb & Hek & Hrk).
    destruct (IHv _ Hv) as (vb & Hev & Hrv).
    exists (kb ++ vb). split; [simpl; by rewrite Hek; simpl; rewrite Hev|].
    eapply reads_bind; [done|]. by eapply reads_bind_nil.
  - destruct r as [| | |key l|]; try done. destruct Ht as (Hk & Hl & Ht).
    apply all1_Forall in Ht.
    destruct (carries_key k key IHk Hk) as (kb & Hek & Hrk).
    destruct (carries_iterable (encode e) (decode_nested e) l Hl) as (vb & Hev & Hrv).
    { eapply Forall_impl; [done|]. intros r Hr. by apply IHe. }
    exists (kb ++ vb). split; [simpl; by rewrite Hek; simpl; rewrite Hev|].
    eapply reads_bind; [done|]. by eapply reads_bind_nil.
Qed.

(** * One wire form *)

(** [encode_primitive] is [encode] on a primitive record. *)
Lemma encode_primitive_encode c v : encode_primitive c v = encode c (PRIMITIVE v).
Proof. destruct c; try done; by destruct v. Qed.

Lemma encode_key_encode_key_with c key : encode_key c key = encode_key_with c (encode c) key.
Proof. unfold encode_key, encode_key_with. by rewrite encode_primitive_encode. Qed.

(** A grouped record and the pair of its key and its iterable are the same bytes. *)
Lemma encode_gbk_as_kv k e key l :
  encode (KvCoder k (IterableCoder e)) (GBK key l)
    = encode (KvCoder k (IterableCoder e)) (KV key (ITERABLE l))
  ∧ encode (GbkCoder k e) (GBK key l)
    = encode (KvCoder k (IterableCoder e)) (KV key (ITERABLE l)).
Proof. done. Qed.

(** The unknown-length form: an iterable whose producer did not know its length
    decodes to the concatenation of its chunks. *)
Lemma reads_iterable_chunked (element : dec BeamRecord) (chunks : list (list bytes)) xss :
  Forall2 (Forall2 (reads element)) chunks xss →
  Forall (λ c, (0 < length c)%nat ∧ is_u 64 (Z.of_nat (length c))) chunks →
  reads (decode_iterable element)
    (put_i32 (-1) ++ concat (encode_chunk <$> chunks) ++ encode_varint 0) (concat xss).
Proof.
  intros H2 Hc. eapply reads_bind; [apply reads_i32; unfold is_i; lia|]. cbv beta.
  simpl. by apply reads_chunks.
Qed.
End coders.

(** * [WindowedValue] *)
Record WindowedValue : Type := mkWindowedValue {
  wv_value : BeamRecord;
  wv_timestamp_millis : Z;
  wv_windows : list BeamWindow;
  wv_pane : PaneInfo;
}.

(** [WindowedValue::global]. *)
Definition global (value : BeamRecord) : WindowedValue :=
  mkWindowedValue value BEAM_MIN_TIMESTAMP_MILLIS [GlobalWindow] no_firing.

Record WindowedValueCoder : Type := mkWindowedValueCoder {
  wvc_element_coder : StandardBeamCoders;
  wvc_window_coder : WindowCoder;
}.

(** [WindowedValueCoder::new]. *)
Definition new_global_coder (element_coder : StandardBeamCoders) : WindowedValueCoder :=
  mkWindowedValueCoder element_coder GlobalCoder.

(** * [Timer] *)
Record Timer : Type := mkTimer {
  user_key : bytes;
  tag : string;
  timer_windows : list BeamWindow;
  clear : bool;
  fire_timestamp : Z;
  hold_timestamp : Z;
  timer_pane : PaneInfo;
}.

Record TimerCoder : Type := mkTimerCoder {
  tc_key_coder : StandardBeamCoders;
  tc_window_coder : WindowCoder;
}.

Section elements.
Context `{P : Profile}.

Definition encode_windowed_value (c : WindowedValueCoder) (val : WindowedValue)
    : outcome CodersError bytes :=
  header ← encode_windowed_value_header (wv_timestamp_millis val) (wv_windows val)
             (wvc_window_coder c) (wv_pane val);
  value ← encode (wvc_element_coder c) (wv_value val);
  Ok (header ++ value).

Definition decode_windowed_value (c : WindowedValueCoder) : dec WindowedValue :=
  '(timestamp_millis, windows, pane) ← decode_windowed_value_header (wvc_window_coder c);
  value ← decode_nested (wvc_element_coder c);
  mret (mkWindowedValue value timestamp_millis windows pane).

(** [WindowedValueCoder::encode_value]. *)
Definition encode_value (c : WindowedValueCoder) (value : BeamRecord) :=
  encode_windowed_value c (global value).

(** [TimerCoder::decode].  The tag is copied without a bounds check, so a short
    buffer panics there. *)
Definition decode_timer (c : TimerCoder) : dec Timer :=
  key ← read_map_err (λ e, WhileDecoding "timer key") (decode (tc_key_coder c));
  user_key ← lift (encode (tc_key_coder c) key);
  tag_len ← decode_varint;
  tag_bytes ← copy_to_slice tag_len;
  match from_utf8 tag_bytes with
  | None => fail (WhileDecoding "timer tag")
  | Some tag =>
    windows ← decode_windows (tc_window_coder c);
    clear_byte ← get_u8;
    let clear := negb (u8_to_Z clear_byte =? 0)%Z in
    if clear then mret (mkTimer user_key tag windows clear 0 0 no_firing)
    else
      fire_timestamp ← decode_timestamp_millis;
      hold_timestamp ← decode_timestamp_millis;
      pane ← decode_pane_info;
      mret (mkTimer user_key tag windows clear fire_timestamp hold_timestamp pane)
  end.

(** [TimerCoder::encode_into]. *)
Definition encode_timer (c : TimerCoder) (t : Timer) : outcome CodersError bytes :=
  windows ← encode_windows (timer_windows t) (tc_window_coder c);
  Ok (user_key t ++ encode_length_delimited (as_bytes (tag t)) ++ windows
      ++ put_u8 (if clear t then 1 else 0)
      ++ (if clear t then []
          else encode_timestamp_millis (fire_timestamp t)
               ++ encode_timestamp_millis (hold_timestamp t)
               ++ encode_pane_info (timer_pane t))).

(** * Round trips *)

(** Metadata the framing can carry. *)
Definition wf_frame (ts : Z) (ws : list BeamWindow) (pane : PaneInfo) : Prop :=
  is_i 64 ts ∧ Forall wf_window ws ∧ (Z.of_nat (length ws) < 2 ^ 31)%Z ∧ wf_pane pane.

Lemma reads_windowed_value c val bs :
  wf_frame (wv_timestamp_millis val) (wv_windows val) (wv_pane val) →
  typed (wvc_element_coder c) (wv_value val) →
  encode_windowed_value c val = Ok bs → reads (decode_windowed_value c) bs val.
Proof.
  intros (Hts & Hw & Hl & Hp) Ht He. unfold encode_windowed_value in He.
  inv_bind He. inv_bind He. simplify_eq.
  apply typed_carries in Ht as (bs & He' & Hr). assert (a0 = bs) as -> by congruence.
  eapply reads_bind; [by eapply reads_header|]. cbv beta iota.
  eapply reads_bind_nil; [done|]. by destruct val.
Qed.

(** What a timer looks like once it has crossed the wire: a cleared timer does
    not carry its timestamps and pane. *)
Definition normalize_timer (t : Timer) : Timer :=
  if clear t then mkTimer (user_key t) (tag t) (timer_windows t) true 0 0 no_firing else t.

Lemma reads_timer c t key bs :
  typed (tc_key_coder c) key → encode (tc_key_coder c) key = Ok (user_key t) →
  wf_string (tag t) → is_u 64 (str_len (tag t)) →
  wf_frame (fire_timestamp t) (timer_windows t) (timer_pane t) → is_i 64 (hold_timestamp t) →
  encode_timer c t = Ok bs → reads (decode_timer c) bs (normalize_timer t).
Proof.
  intros Hk Hek Htag Hlen (Hf & Hw & Hl & Hp) Hh He. unfold encode_timer in He.
  inv_bind He. injection He as <-. apply typed_carries in Hk as (kb & Hek' & Hrk).
  rewrite Hek in Hek'. injection Hek' as <-.
  eapply reads_bind; [intros rest; unfold read_map_err, decode; by rewrite Hrk|]. cbv beta.
  eapply reads_lift; [done|].
  unfold encode_length_delimited. rewrite <- app_assoc.
  eapply reads_bind; [by apply reads_varint|]. cbv beta.
  eapply reads_bind; [apply reads_slice|]. cbv beta. rewrite from_utf8_as_bytes by done.
  eapply reads_bind; [by eapply reads_windows|]. cbv beta.
  apply (reads_bind _ _ (put_u8 _) _ _ _ (reads_u8 _)). cbv beta zeta. rewrite u8_to_Z_u8.
  destruct t as [uk tg tws cl fire hold pane]; destruct cl; simpl in *; [apply reads_ret|].
  eapply reads_bind; [by apply reads_timestamp|].
  eapply reads_bind; [by apply reads_timestamp|].
  eapply reads_bind_nil; [by apply reads_pane|]. done.
Qed.
End elements.
