(* ===== verification/CoderTypes.v ===== *)
(** Decoding is well typed: what a coder reads from any buffer is a record of the
    coder's type, taken from the front of the buffer, and the coder can encode it again. *)
From S2P Require Import Prelude Bytes Varint Windows Coders.
Set Warnings "-clear-no-such-hyp".

(** * Readers and what they give back *)

(** Whatever the reader returns satisfies [Q], and the rest of the buffer is a suffix. *)
Definition yields {E A} (r : reader E A) (Q : A → Prop) : Prop :=
  ∀ buf a rest, r buf = Ok (a, rest) → Q a ∧ ∃ pre, buf = pre ++ rest.

Section yields.
Context {E : Type}.

Lemma yields_ret {A} (a : A) (Q : A → Prop) : Q a → yields (E:=E) (mret a) Q.
Proof. intros H buf ? ? [= <- <-]. split; [done|by exists []]. Qed.

Lemma yields_bind {A B} (r : reader E A) (k : A → reader E B) Q R :
  yields r Q → (∀ a, Q a → yields (k a) R) → yields (r ≫= k) R.
Proof.
  intros Hr Hk buf b rest H. rewrite run_bind in H. destruct (r buf) as [[a rest1]| |] eqn:Er; [|done..].
  apply Hr in Er as [Ha [p1 ->]]. apply Hk in H as [Hb [p2 ->]]; [|done]. split; [done|].
  exists (p1 ++ p2). by rewrite <- app_assoc.
Qed.

Lemma yields_weaken {A} (r : reader E A) (Q R : A → Prop) : yields r Q → (∀ a, Q a → R a) → yields r R.
Proof. intros H Hi buf a rest Ha. apply H in Ha as [? ?]. auto. Qed.

Lemma yields_fail {A} e (Q : A → Prop) : yields (E:=E) (fail e) Q.
Proof. by intros buf ? ?. Qed.

Lemma yields_panic {A} w (Q : A → Prop) : yields (E:=E) (panic w) Q.
Proof. by intros buf ? ?. Qed.

Lemma yields_if {A} (b : bool) (r1 r2 : reader E A) Q : yields r1 Q → yields r2 Q → yields (if b then r1 else r2) Q.
Proof. by destruct b. Qed.

Lemma yields_lift {A} (m : outcome E A) (Q : A → Prop) : (∀ a, m = Ok a → Q a) → yields (lift m) Q.
Proof.
  intros H buf a rest Ha. unfold lift in Ha. destruct m; [|done..]. injection Ha as -> ->.
  split; [by apply H|by exists []].
Qed.

Lemma yields_remaining : yields (E:=E) remaining (λ _, True).
Proof. intros buf ? ? [= <- <-]. split; [done|by exists []]. Qed.

Lemma yields_u8 : yields (E:=E) get_u8 (λ _, True).
Proof. intros [|b buf] ? ? H; [done|]. injection H as <- <-. split; [done|by exists [b]]. Qed.

Lemma yields_slice len : yields (E:=E) (copy_to_slice len) (λ _, True).
Proof.
  intros buf a rest H. unfold copy_to_slice in H. case_match; [|done]. injection H as <- <-.
  split; [done|]. eexists. symmetry. apply take_drop.
Qed.

Lemma yields_rest : yields (E:=E) read_rest (λ _, True).
Proof. intros buf ? ? [= <- <-]. split; [done|]. exists buf. by rewrite app_nil_r. Qed.

Lemma yields_be n : yields (E:=E) (get_be n) (λ z, 0 ≤ z < 256 ^ Z.of_nat n)%Z.
Proof.
  intros buf a rest H. unfold get_be in H. case_decide as Hn; [|done]. injection H as <- <-. split.
  - pose proof (be_value_range (take n buf)) as Hr. by rewrite length_take_le in Hr.
  - eexists. symmetry. apply take_drop.
Qed.

Lemma yields_read_n {A} n (r : reader E A) Q : yields r Q → yields (read_n n r) (λ l, length l = n ∧ Forall Q l).
Proof.
  intros Hr. induction n as [|n IH]; simpl; [by apply yields_ret|].
  eapply yields_bind; [done|]. intros x Hx. eapply yields_bind; [done|]. intros xs [Hl Hxs]. apply yields_ret.
  split; [by rewrite <- Hl|by constructor].
Qed.

Lemma yields_read_all {A B} (f : A → reader E B) (l : list A) (Q : A → B → Prop) :
  Forall (λ c, yields (f c) (Q c)) l → yields (read_all f l) (Forall2 Q l).
Proof.
  induction 1 as [|c l Hc _ IH]; simpl; [by apply yields_ret|].
  eapply yields_bind; [done|]. intros x Hx. eapply yields_bind; [done|]. intros xs Hxs. apply yields_ret.
  by constructor.
Qed.
End yields.

(** * The types of the coders *)

Section types.
Context `{P : Profile}.

Lemma yields_varint {E} : yields (E:=E) decode_varint (λ _, True).
Proof.
  intros buf a rest. with_strategy transparent [decode_varint] unfold decode_varint. generalize 0%Z at 1 as result. generalize 0%Z as shift.
  induction buf as [|b buf IH]; intros shift result H; cbn [decode_varint_loop] in H; [done|].
  inv_bind H. case_match; simplify_eq; [split; [done|by exists [b]]|].
  apply IH in H as [_ [pre ->]]. split; [done|by exists (b :: pre)].
Qed.

Lemma yields_read_chunks {E A} (r : reader E A) Q : yields r Q → yields (read_chunks r) (Forall Q).
Proof.
  intros Hr. unfold read_chunks. intros buf. generalize (S (length buf)) as fuel. intros fuel. revert buf.
  induction fuel as [|fuel IH]; [done|]. fold (yields (read_chunks_loop fuel r) (Forall Q)) in IH.
  change (yields (read_chunks_loop (S fuel) r) (Forall Q)). cbn [read_chunks_loop].
  eapply yields_bind; [apply yields_varint|]. intros count _. apply yields_if; [by apply yields_ret|].
  eapply yields_bind; [by apply yields_read_n|]. intros xs [_ Hxs].
  eapply yields_bind; [done|]. intros ys Hys. apply yields_ret. by apply Forall_app.
Qed.

Lemma yields_length_delimited name : yields (decode_length_delimited name) (λ _, True).
Proof.
  eapply yields_bind; [apply yields_varint|]. intros len _. eapply yields_bind; [apply yields_remaining|].
  intros n _. apply yields_if; [apply yields_fail|apply yields_slice].
Qed.

(** ** The framing of an element *)

Lemma yields_signed_varint {E} : yields (E:=E) decode_signed_varint (is_i 64).
Proof.
  eapply yields_bind; [apply yields_varint|]. intros v _. apply yields_ret, (to_signed_range 64 v). lia.
Qed.

Lemma yields_timestamp {E} : yields (E:=E) decode_timestamp_millis (is_i 64).
Proof.
  eapply yields_bind; [apply (yields_be 8)|]. intros v _. apply yields_ret, (to_signed_range 64). lia.
Qed.

Lemma yields_window {E} c : yields (E:=E) (decode_one_window c) (λ _, True).
Proof.
  destruct c; cbn [decode_one_window]; [by apply yields_ret|..].
  - eapply yields_bind; [apply yields_timestamp|]. intros e _. eapply yields_bind; [apply yields_varint|]. intros span _.
    eapply yields_bind; [by apply (yields_lift _ (λ _, True))|]. intros. by apply yields_ret.
  - eapply yields_bind; [apply yields_varint|]. intros len _. eapply yields_bind; [apply yields_slice|].
    intros. by apply yields_ret.
Qed.

Lemma yields_windows {E} c : yields (E:=E) (decode_windows c) (λ _, True).
Proof.
  eapply yields_bind; [eapply yields_bind; [apply (yields_be 4)|]; intros v _; by apply (yields_ret _ (λ _, True))|].
  intros count _. apply yields_if.
  - eapply yields_weaken; [apply yields_read_n, yields_window|done].
  - eapply yields_weaken; [apply yields_read_chunks, yields_window|done].
Qed.

Lemma yields_pane {E} : yields (E:=E) decode_pane_info (λ _, True).
Proof.
  eapply yields_bind; [apply yields_u8|]. intros b _. cbv zeta.
  assert (Hv : yields (E:=E) decode_signed_varint (λ _, True)) by (by eapply yields_weaken; [apply yields_signed_varint|]).
  eapply yields_bind; [by apply yields_if; [exact Hv|apply yields_ret]|]. intros index _.
  eapply yields_bind; [by apply yields_if; [exact Hv|apply yields_ret]|]. intros ns _. by apply yields_ret.
Qed.

Lemma yields_header {E} c : yields (E:=E) (decode_windowed_value_header c) (λ h, is_i 64 h.1.1).
Proof.
  eapply yields_bind; [apply yields_timestamp|]. intros ts Hts. eapply yields_bind; [apply yields_windows|]. intros ws _.
  eapply yields_bind; [apply yields_pane|]. intros pane _. by apply yields_ret.
Qed.

(** The records of a coder: the variant each coder reads, with the ranges of the
    integers.  A composite key is held as the bytes of its own encoding. *)
Fixpoint has_type (c : StandardBeamCoders) (r : BeamRecord) : Prop :=
  let key_of k key := if is_primitive k then has_type k (PRIMITIVE key)
                      else ∃ record raw, key = PBytes raw ∧ has_type k record ∧ encode k record = Ok raw in
  match c, r with
  | StringUtf8Coder, PRIMITIVE (PString s) => wf_string s
  | (BytesCoder | JavaOpaqueCoder | PickleCoder | LengthPrefixCoder), PRIMITIVE (PBytes _) => True
  | VarIntCoder, PRIMITIVE (PInt64 z) => is_i 64 z
  | VarInt32Coder, PRIMITIVE (PInt64 z) => is_i 32 z
  | BoolCoder, PRIMITIVE (PBool _) => True
  | DoubleCoder, PRIMITIVE (PFloat64 bits) => is_u 64 bits
  | VoidCoder, PRIMITIVE PVoid => True
  | NullableCoder v, r => r = PRIMITIVE PVoid ∨ has_type v r
  | IterableCoder e, ITERABLE l => all1 (has_type e) l
  | TupleCoder cs, TUPLE vs => all2 (λ c v, has_type c (PRIMITIVE v)) cs vs
  | KvCoder k v, KV key value => key_of k key ∧ has_type v value
  | GbkCoder k e, GBK key l => key_of k key ∧ all1 (has_type e) l
  | _, _ => False
  end.

Definition key_type (k : StandardBeamCoders) (key : PrimitiveValue) : Prop :=
  if is_primitive k then has_type k (PRIMITIVE key)
  else ∃ record raw, key = PBytes raw ∧ has_type k record ∧ encode k record = Ok raw.

(** ** Decoding *)

Lemma yields_string : yields decode_string wf_string.
Proof.
  eapply yields_bind; [apply yields_length_delimited|]. intros bs _.
  destruct (from_utf8 bs) as [s|] eqn:E; [|apply yields_fail]. apply yields_ret. apply (from_utf8_Some bs s E).
Qed.

Lemma yields_double : yields decode_double (is_u 64).
Proof.
  eapply yields_bind; [apply yields_remaining|]. intros n _. apply yields_if; [apply yields_fail|].
  eapply yields_weaken; [apply (yields_be 8)|]. intros z Hz. exact Hz.
Qed.

Lemma yields_iterable (d : dec BeamRecord) Q : yields d Q → yields (decode_iterable d) (all1 Q).
Proof.
  intros Hd. eapply yields_bind; [eapply yields_bind; [apply (yields_be 4)|]; intros v _; by apply (yields_ret _ (λ _, True))|].
  intros count _. apply yields_if; [|apply yields_if; [|apply yields_panic]].
  - eapply yields_weaken; [by apply yields_read_n|]. intros l [_ Hl]. by apply all1_Forall.
  - eapply yields_weaken; [by apply yields_read_chunks|]. intros l Hl. by apply all1_Forall.
Qed.

Lemma yields_primitive (d : dec BeamRecord) Q : yields d Q → yields (decode_primitive_with d) (λ v, Q (PRIMITIVE v)).
Proof.
  intros Hd. eapply yields_bind; [done|]. intros [v| | | |] Hr; try apply yields_fail. by apply yields_ret.
Qed.

Lemma yields_key k : yields (decode_nested k) (has_type k) → yields (decode_key k) (key_type k).
Proof.
  intros Hk. unfold decode_key, decode_key_with, key_type. destruct (is_primitive k); [by apply yields_primitive|].
  eapply yields_bind; [done|]. intros record Hr. eapply yields_bind; [apply (yields_lift _ (λ raw, encode k record = Ok raw)); done|].
  intros raw Hraw. apply yields_ret. eauto.
Qed.

Lemma yields_nested c : yields (decode_nested c) (has_type c).
Proof.
  induction c as [c Hl|e IH|v IH|cs IH|k v IHk IHv|k e IHk IHe] using coder_ind.
  - destruct c; try discriminate Hl; cbn [decode_nested].
    1-3, 9-10: eapply yields_bind; [first [apply yields_string|apply yields_rest|apply yields_length_delimited]|];
      intros; by apply yields_ret.
    + eapply yields_bind; [apply yields_signed_varint|]. intros. by apply yields_ret.
    + eapply yields_bind; [|intros z Hz; apply yields_ret; exact Hz]. eapply yields_bind; [apply yields_varint|].
      intros v _. apply yields_if; [apply yields_fail|]. apply yields_ret, to_signed_range. lia.
    + eapply yields_bind; [apply yields_u8|]. intros. by apply yields_ret.
    + eapply yields_bind; [apply yields_double|]. intros. by apply yields_ret.
    + by apply yields_ret.
  - eapply yields_bind; [by apply yields_iterable|]. intros l Hl. by apply yields_ret.
  - eapply yields_bind; [apply yields_u8|]. intros b _. apply yields_if; [by apply yields_ret; left|].
    apply yields_if; [|apply yields_fail]. eapply yields_weaken; [done|]. intros r Hr. by right.
  - eapply yields_bind; [apply (yields_read_all _ _ (λ c v, has_type c (PRIMITIVE v)));
      eapply Forall_impl; [exact IH|]; intros c Hc; by apply (yields_primitive _ (has_type c))|].
    intros vs Hvs. apply yields_ret. by apply all2_Forall2.
  - eapply yields_bind; [by apply yields_key|]. intros key Hkey. eapply yields_bind; [done|]. intros. by apply yields_ret.
  - eapply yields_bind; [by apply yields_key|]. intros key Hkey. eapply yields_bind; [by apply yields_iterable|].
    intros. by apply yields_ret.
Qed.

Lemma yields_element c : yields (decode_element c) (has_type c).
Proof.
  induction c as [c Hl|e IH|v IH|cs IH|k v IHk IHv|k e IHk IHe] using coder_ind;
    try (by apply yields_nested).
  - destruct c; try discriminate Hl; try (by apply yields_nested); cbn [decode_element].
    + eapply yields_bind; [apply yields_rest|]. intros bs _. destruct (from_utf8 bs) as [s|] eqn:E; [|apply yields_fail].
      apply yields_ret. apply (from_utf8_Some bs s E).
    + eapply yields_bind; [apply yields_rest|]. intros bs _. by apply yields_ret.
  - eapply yields_bind; [apply yields_key, yields_nested|]. intros key Hkey. eapply yields_bind; [done|]. intros.
    by apply yields_ret.
  - eapply yields_bind; [apply yields_key, yields_nested|]. intros key Hkey.
    eapply yields_bind; [apply yields_iterable, yields_nested|]. intros. by apply yields_ret.
Qed.

(** ** Encoding a record of the type *)

(** The encoder returns, or refuses an iterable of 2^31 elements or more. *)
Definition encodes (m : outcome CodersError bytes) : Prop :=
  (∃ bs, m = Ok bs) ∨ m = Panic "IterableCoder length exceeds i32::MAX".

Lemma encodes_bind m k : encodes m → (∀ bs, m = Ok bs → encodes (k bs)) → encodes (m ≫= k).
Proof. intros [[bs ->]| ->] H; [by apply H|by right]. Qed.

Lemma encodes_iterable f l : Forall (λ r, encodes (f r)) l → encodes (encode_iterable f l).
Proof.
  intros H. unfold encode_iterable. case_match; [|by right].
  assert (Ht : (∃ encs, traverse f l = Ok encs) ∨ traverse f l = Panic "IterableCoder length exceeds i32::MAX").
  { clear -H. induction H as [|r l Hr _ IH]; [left; by exists []|]. cbn [traverse].
    destruct Hr as [[bs ->]| ->]; [|by right]. destruct IH as [[encs ->]| ->]; [left; by eexists|by right]. }
  destruct Ht as [[encs ->]| ->]; [left; by eexists|by right].
Qed.

Lemma encodes_key k key :
  (∀ r, has_type k r → encodes (encode k r)) → key_type k key → encodes (encode_key_with k (encode k) key).
Proof.
  intros Hk Ht. unfold key_type, encode_key_with in *. destruct (is_primitive k); [by apply Hk|].
  destruct Ht as (record & raw & -> & _ & _). left. by eexists.
Qed.

Lemma encode_typed c r : has_type c r → encodes (encode c r).
Proof.
  revert r. induction c as [c Hl|e IH|v IH|cs IH|k v IHk IHv|k e IHk IHe] using coder_ind; intros r Ht.
  - destruct c; try discriminate Hl; destruct r as [[]| | | |]; try done; cbn [encode encode_leaf]; try (left; by eexists).
    cbn [has_type] in Ht. left. unfold encode_varint32.
    assert (in_i 32 z = true) as -> by (unfold is_i, in_i in *; rewrite andb_true_iff, Z.leb_le, Z.ltb_lt; lia).
    rewrite andb_false_r. by eexists.
  - destruct r as [| l | | |]; try done. cbn [encode]. apply encodes_iterable. cbn [has_type] in Ht.
    apply all1_Forall in Ht. eapply Forall_impl; [exact Ht|]. apply IH.
  - assert (H : r = PRIMITIVE PVoid ∨ has_type v r) by (by destruct r).
    assert (He : r = PRIMITIVE PVoid ∨ encode (NullableCoder v) r = bs ← encode v r; Ok (put_u8 1 ++ bs))
      by (destruct r as [[]| | | |]; auto).
    destruct He as [->|He]; [left; by eexists|]. destruct H as [->|H]; [left; by eexists|]. rewrite He.
    apply encodes_bind; [by apply IH|]. intros. left. by eexists.
  - destruct r as [| | | |vs]; try done. cbn [has_type] in Ht. apply all2_Forall2 in Ht. cbn [encode].
    rewrite decide_True by (symmetry; by eapply Forall2_length).
    assert (Hall : (∃ encs, traverse2 (λ c v, encode c (PRIMITIVE v)) cs vs = Ok encs)
      ∨ traverse2 (λ c v, encode c (PRIMITIVE v)) cs vs = Panic "IterableCoder length exceeds i32::MAX").
    { induction Ht as [|c v cs vs Hcv _ IHt]; [left; by exists []|]. apply Forall_cons in IH as [Hc Hcs]. cbn [traverse2].
      destruct (Hc _ Hcv) as [[bs ->]| ->]; [|by right]. destruct (IHt Hcs) as [[encs ->]| ->]; [left; by eexists|by right]. }
    destruct Hall as [[encs ->]| ->]; [left; by eexists|by right].
  - destruct r as [| |key value| |]; try done. destruct Ht as [Hkey Hv]. cbn [encode].
    apply encodes_bind; [by apply encodes_key|]. intros kb _. apply encodes_bind; [by apply IHv|]. intros. left. by eexists.
  - destruct r as [| | |key l|]; try done. destruct Ht as [Hkey Hv]. cbn [encode].
    apply encodes_bind; [by apply encodes_key|]. intros kb _.
    apply encodes_bind; [apply encodes_iterable; apply all1_Forall in Hv; eapply Forall_impl; [exact Hv|]; apply IHe|].
    intros. left. by eexists.
Qed.
End types.
