(* ===== verification/CoderGraph.v ===== *)
(** Resolving the coder graph of a pipeline (coders/mod.rs: [from_urn],
    [length_prefix_pickled_leaves], [resolve_length_prefixed_coder_id]). *)
From S2P Require Import Prelude Bytes Varint Windows Coders.
Local Open Scope string_scope.
Set Warnings "-clear-no-such-hyp".

(** * The pipeline's coders *)

(** The proto [Coder]: the URN of its [spec], when it has one, and the ids of its
    components.  The spec's payload is not read here. *)
Record Coder : Type := mkCoder {
  spec_urn : option string;
  component_coder_ids : list string;
}.

#[export] Instance Coder_eq_dec : EqDecision Coder.
Proof. solve_decision. Defined.

Abbreviation coders_map := (gmap string Coder).

(** [beam_urns]. *)
Definition BYTES_CODER := "beam:coder:bytes:v1".
Definition STRING_UTF8_CODER := "beam:coder:string_utf8:v1".
Definition KV_CODER := "beam:coder:kv:v1".
Definition BOOL_CODER := "beam:coder:bool:v1".
Definition VARINT_CODER := "beam:coder:varint:v1".
Definition DOUBLE_CODER := "beam:coder:double:v1".
Definition ITERABLE_CODER := "beam:coder:iterable:v1".
Definition NULLABLE_CODER := "beam:coder:nullable:v1".
Definition LENGTH_PREFIX_CODER := "beam:coder:length_prefix:v1".
Definition JAVA_SDK_CODER := "beam:coders:javasdk:0.1".
Definition PYTHON_PICKLE_CODER := "beam:coder:pickled_python:v1".
Definition TUPLE_CODER := "beam:coder:tuple:v1".

(** * [from_urn] *)

(** The recursion follows component ids through the map, so on a cyclic graph it
    never returns; [fuel] bounds its depth, and the adequacy lemma below shows
    that on an acyclic graph the depth of the graph is enough. *)
Fixpoint from_urn (fuel : nat) (id : string) (component_ids : option (list string))
    (pipeline_coders : option coders_map) : outcome CodersError StandardBeamCoders :=
  match fuel with
  | O => Panic "stack overflow"
  | S fuel =>
    let pipeline_coder := pipeline_coders ≫= (.!! id) in
    let urn := default id (pipeline_coder ≫= spec_urn) in
    let ids :=
      match component_ids with
      | Some ids => Some ids
      | None => component_coder_ids <$> pipeline_coder
      end in
    let resolve c := from_urn fuel c None pipeline_coders in
    if decide (urn = BYTES_CODER) then Ok BytesCoder
    else if decide (urn = STRING_UTF8_CODER) then Ok StringUtf8Coder
    else if decide (urn = VARINT_CODER) then Ok VarIntCoder
    else if decide (urn = BOOL_CODER) then Ok BoolCoder
    else if decide (urn = DOUBLE_CODER) then Ok DoubleCoder
    else if decide (urn = PYTHON_PICKLE_CODER) then Ok PickleCoder
    else if decide (urn = LENGTH_PREFIX_CODER) then Ok LengthPrefixCoder
    else if decide (urn = JAVA_SDK_CODER) then
      if decide (id = "VoidCoder") then Ok VoidCoder
      else if decide (id = "VarIntCoder") then Ok VarInt32Coder
      else Ok JavaOpaqueCoder
    else if decide (urn = ITERABLE_CODER) then
      match ids with
      | None => Panic "IterableCoder requires one component coder id"
      | Some [i] => c ← resolve i; Ok (IterableCoder c)
      | Some _ => Panic "IterableCoder requires exactly one component coder"
      end
    else if decide (urn = TUPLE_CODER) then
      match ids with
      | None => Panic "TupleCoder requires component coder ids"
      | Some [] => Panic "TupleCoder requires at least one component coder"
      | Some ids => cs ← traverse resolve ids; Ok (TupleCoder cs)
      end
    else if decide (urn = NULLABLE_CODER) then
      match ids with
      | None => Panic "NullableCoder requires one component coder id"
      | Some [i] => c ← resolve i; Ok (NullableCoder c)
      | Some _ => Panic "NullableCoder requires exactly one component coder"
      end
    else if decide (urn = KV_CODER) then
      match ids with
      | None => Panic "KvCoder requires component coder ids"
      | Some [k; v] => kc ← resolve k; vc ← resolve v; Ok (KvCoder kc vc)
      | Some _ => Panic "KvCoder requires exactly two component coders"
      end
    else Panic "Unknown URN"
  end.

(** * Length-prefixing the pickled leaves *)

Definition length_prefixed_suffix : string := "_lp".
Definition length_prefixed_coder_id (id : string) : string := id +:+ length_prefixed_suffix.

Definition is_pickled (c : Coder) : bool := bool_decide (spec_urn c = Some PYTHON_PICKLE_CODER).

(** The wrapper inserted for leaf [id]. *)
Definition wrapper (id : string) : Coder := mkCoder (Some LENGTH_PREFIX_CODER) [id].

(** [coders.entry(lp_id).or_insert_with(..)]. *)
Definition insert_wrapper (m : coders_map) (id : string) : coders_map :=
  match m !! length_prefixed_coder_id id with
  | Some _ => m
  | None => <[length_prefixed_coder_id id := wrapper id]> m
  end.

Definition remap_component (remap : gmap string string) (component : string) : string :=
  default component (remap !! component).

(** The order in which the hash map yields the leaves does not matter to the
    result; the model takes them in the order of [elements]. *)
Definition length_prefix_pickled_leaves (coders : coders_map) : coders_map :=
  let leaf_ids := elements (dom (filter (λ '(_, c), is_pickled c = true) coders)) in
  if decide (leaf_ids = []) then coders
  else
    let coders := foldl insert_wrapper coders leaf_ids in
    let remap := list_to_map ((λ id, (id, length_prefixed_coder_id id)) <$> leaf_ids) in
    let wrapper_ids : gset string := list_to_set (length_prefixed_coder_id <$> leaf_ids) in
    map_imap (λ id c,
      Some (if decide (id ∈ wrapper_ids) then c
            else mkCoder (spec_urn c) (remap_component remap <$> component_coder_ids c))) coders.

Definition resolve_length_prefixed_coder_id (id : string) (coders : coders_map) : string :=
  if decide (is_Some (coders !! length_prefixed_coder_id id))
  then length_prefixed_coder_id id else id.

(** * What resolution does *)

(** The URN [from_urn] dispatches on. *)
Definition urn_of (m : coders_map) (id : string) : string := default id ((m !! id) ≫= spec_urn).

(** [from_urn] depends on its component resolutions only. *)
Section resolution.
Context (m : coders_map).

(** The URNs [from_urn] resolves without looking at components. *)
Definition leaf_urns : list string :=
  [BYTES_CODER; STRING_UTF8_CODER; VARINT_CODER; BOOL_CODER; DOUBLE_CODER;
   PYTHON_PICKLE_CODER; LENGTH_PREFIX_CODER; JAVA_SDK_CODER].

(** An acyclic graph: components have a smaller rank than the composite coder
    they belong to. *)
Definition ranked (rank : string → nat) : Prop :=
  ∀ id c, m !! id = Some c → default id (spec_urn c) ∉ leaf_urns →
    Forall (λ i, rank i < rank id)%nat (component_coder_ids c).

Lemma traverse_ext {E A B} (f g : A → outcome E B) l :
  Forall (λ x, f x = g x) l → traverse f l = traverse g l.
Proof. induction 1 as [|x l Hx _ IH]; simpl; [done|]. by rewrite Hx, IH. Qed.

(** Two depths that give the same component coders give the same coder. *)
Lemma from_urn_step n1 n2 id :
  (∀ c, m !! id = Some c → default id (spec_urn c) ∉ leaf_urns →
     Forall (λ i, from_urn n1 i None (Some m) = from_urn n2 i None (Some m))
            (component_coder_ids c)) →
  from_urn (S n1) id None (Some m) = from_urn (S n2) id None (Some m).
Proof.
  intros H. cbn [from_urn mbind option_bind fmap option_fmap option_map].
  destruct (m !! id) as [[urn ids]|] eqn:E; cbn [mbind option_bind fmap option_fmap option_map];
    [|by repeat case_decide].
  simpl in *. do 8 (case_decide; [done|]).
  specialize (H _ eq_refl ltac:(unfold leaf_urns; simpl; set_solver)). simpl in H.
  case_decide.
  { destruct ids as [|i [|]]; [done| |done]. inversion_clear H as [|?? Hi _]. by rewrite Hi. }
  case_decide.
  { destruct ids as [|i ids]; [done|]. by rewrite (traverse_ext _ _ _ H). }
  case_decide.
  { destruct ids as [|i [|]]; [done| |done]. inversion_clear H as [|?? Hi _]. by rewrite Hi. }
  case_decide; [|done].
  destruct ids as [|i [|j [|]]]; [done|done| |done].
  inversion_clear H as [|?? Hi Hj]. inversion_clear Hj as [|?? Hj' _]. by rewrite Hi, Hj'.
Qed.

(** On an acyclic graph every depth above the rank of a coder gives the same
    answer: the fuel is no longer seen. *)
Lemma from_urn_adequate rank id n1 n2 :
  ranked rank → (rank id < n1)%nat → (rank id < n2)%nat →
  from_urn n1 id None (Some m) = from_urn n2 id None (Some m).
Proof.
  intros Hr. revert n2 id. induction n1 as [|n1 IH]; intros [|n2] id H1 H2; try lia.
  apply from_urn_step. intros c Hc Hu. eapply Forall_impl; [by apply (Hr id)|].
  intros i Hi. simpl in Hi. apply IH; lia.
Qed.

(** A coder [from_urn] can resolve: a known URN with the arity it asks for, and
    components that are coders of the pipeline. *)
Definition wf_coder (id : string) (c : Coder) : Prop :=
  let urn := default id (spec_urn c) in
  let n := length (component_coder_ids c) in
  urn ∈ leaf_urns
  ∨ ((urn = ITERABLE_CODER ∨ urn = NULLABLE_CODER) ∧ n = 1
     ∨ urn = TUPLE_CODER ∧ n ≠ 0
     ∨ urn = KV_CODER ∧ n = 2)
    ∧ Forall (λ i, is_Some (m !! i)) (component_coder_ids c).

Lemma from_urn_total rank n id :
  ranked rank → (∀ i c, m !! i = Some c → wf_coder i c) →
  is_Some (m !! id) → (rank id < n)%nat →
  ∃ c, from_urn n id None (Some m) = Ok c.
Proof.
  intros Hr Hwf. revert id. induction n as [|n IH]; intros id [[urn ids] E] Hn; [lia|].
  cbn [from_urn mbind option_bind]. rewrite E. cbn [option_fmap option_map fmap].
  pose proof (Hwf _ _ E) as Hurn. pose proof (Hr _ _ E) as Hlt.
  unfold wf_coder in Hurn. simpl in *.
  set (u := default id urn) in *. unfold leaf_urns in *.
  repeat (case_decide; [try case_decide; try case_decide; by eexists|]).
  destruct Hurn as [Hu|[Hl Hin]]; [set_solver|].
  assert (HF : Forall (λ i, ∃ c, from_urn n i None (Some m) = Ok c) ids).
  { specialize (Hlt ltac:(set_solver)).
    apply Forall_forall. intros i Hi. rewrite Forall_forall in Hin, Hlt.
    specialize (Hlt i Hi). apply IH; [by apply Hin|simpl in *; lia]. }
  clearbody u.
  case_decide as Hi; [|case_decide as Ht; [|case_decide as Hn'; [|case_decide as Hk; [|tauto]]]];
    subst u; destruct Hl as [[[Hu|Hu] Hl]|[[Hu Hl]|[Hu Hl]]]; try discriminate Hu;
    destruct ids as [|i ids]; try done; try (destruct ids as [|j ids]; try done).
  - inversion_clear HF as [|?? (c & Hc) _]. rewrite Hc. by eexists.
  - inversion_clear HF as [|?? (c & Hc) _]. simpl. rewrite Hc. by eexists.
  - destruct (traverse_total _ _ HF) as [ys Hys]. rewrite Hys. by eexists.
  - inversion_clear HF as [|?? (c & Hc) _]. rewrite Hc. by eexists.
  - destruct ids; try done.
    inversion_clear HF as [|?? (c & Hc) HF']. inversion_clear HF' as [|?? (c' & Hc') _].
    rewrite Hc. cbn. rewrite Hc'. by eexists.
Qed.

(** Coders in which no opaque pickled leaf is read without a length prefix. *)
Fixpoint no_pickle (c : StandardBeamCoders) : bool :=
  match c with
  | PickleCoder => false
  | IterableCoder e | NullableCoder e => no_pickle e
  | TupleCoder cs => forallb no_pickle cs
  | KvCoder k v | GbkCoder k v => no_pickle k && no_pickle v
  | _ => true
  end.

(** A set of ids closed under the components of its composite coders, with no
    pickled coder in it. *)
Definition pickle_free (S : string → Prop) : Prop :=
  ∀ id, S id → ∃ c, m !! id = Some c ∧ default id (spec_urn c) ≠ PYTHON_PICKLE_CODER
    ∧ (default id (spec_urn c) ∈ leaf_urns ∨ Forall S (component_coder_ids c)).

Lemma traverse_forallb {E A B} (f : A → outcome E B) (S : A → Prop) (p : B → bool) l ys :
  (∀ x y, S x → f x = Ok y → p y = true) → Forall S l → traverse f l = Ok ys →
  forallb p ys = true.
Proof.
  intros Hf HF. revert ys. induction HF as [|x l Hx _ IH]; intros ys H; simpl in H.
  - by simplify_eq.
  - inv_bind H. inv_bind H. simplify_eq. simpl. rewrite (Hf _ _ Hx E0). by rewrite IH.
Qed.

Lemma pickle_free_no_pickle S n id c :
  pickle_free S → S id → from_urn n id None (Some m) = Ok c → no_pickle c = true.
Proof.
  intros HS. revert id c. induction n as [|n IH]; intros id c Hid H; [done|].
  destruct (HS _ Hid) as ([urn ids] & E & Hne & Hc). revert H.
  cbn [from_urn mbind option_bind]. rewrite E. cbn [option_fmap option_map fmap]. simpl in *.
  do 5 (case_decide; [by intros [= <-]|]). case_decide; [done|].
  case_decide; [by intros [= <-]|].
  case_decide; [repeat case_decide; by intros [= <-]|].
  destruct Hc as [Hc|Hc]; [unfold leaf_urns in Hc; set_solver|].
  case_decide.
  { destruct ids as [|i [|]]; try done. intros Hf. inv_bind Hf. simplify_eq.
    inversion_clear Hc. by eapply (IH i a). }
  case_decide.
  { destruct ids as [|i ids]; try done. intros Hf. inv_bind Hf. injection Hf as <-.
    eapply (traverse_forallb _ S no_pickle); [|exact Hc|exact E0]. intros x y Hx Hy. by eapply IH. }
  case_decide.
  { destruct ids as [|i [|]]; try done. intros Hf. inv_bind Hf. simplify_eq.
    inversion_clear Hc. by eapply (IH i a). }
  case_decide; [|done]. destruct ids as [|i [|j [|]]]; try done. intros Hf.
  inv_bind Hf. inv_bind Hf. simplify_eq. inversion_clear Hc as [|?? Hi Hj].
  inversion_clear Hj as [|?? Hj' _]. apply andb_true_intro.
  split; [by eapply (IH i a)|by eapply (IH j a0)].
Qed.
End resolution.

(** * The rewritten graph *)
Section length_prefix.
Context (m : coders_map).

(** Ids that end in the wrapper suffix are used for length prefixes only. *)
Definition lp_reserved : Prop :=
  ∀ id c, m !! length_prefixed_coder_id id = Some c → spec_urn c = Some LENGTH_PREFIX_CODER.

Definition pickled (id : string) : Prop := ∃ c, m !! id = Some c ∧ is_pickled c = true.

#[global] Instance pickled_dec id : Decision (pickled id).
Proof.
  unfold pickled. destruct (m !! id) as [c|].
  - destruct (is_pickled c) eqn:E; [left; by exists c|right; intros (c' & [= <-] & H); congruence].
  - right. by intros (c & ? & _).
Defined.

Lemma string_length_app a b : String.length (a +:+ b) = (String.length a + String.length b)%nat.
Proof. induction a as [|x a IH]; [done|]. simpl. by rewrite <- IH. Qed.

#[global] Instance lp_inj : Inj (=) (=) length_prefixed_coder_id.
Proof.
  unfold length_prefixed_coder_id. intros a. induction a as [|x a IH]; intros [|y b] H.
  - done.
  - apply (f_equal String.length) in H. rewrite !string_length_app in H. simpl in H. lia.
  - apply (f_equal String.length) in H. rewrite !string_length_app in H. simpl in H. lia.
  - injection H as -> H. f_equal. by apply IH.
Qed.

Definition leaf_ids : list string := elements (dom (filter (λ '(_, c), is_pickled c = true) m)).

Lemma elem_of_leaf_ids id : id ∈ leaf_ids ↔ pickled id.
Proof.
  unfold leaf_ids, pickled. rewrite elem_of_elements, elem_of_dom. unfold is_Some.
  split; intros (c & H); exists c; rewrite map_lookup_filter_Some in *; done.
Qed.

Lemma insert_wrapper_keep (m' : coders_map) i k c :
  m' !! k = Some c → insert_wrapper m' i !! k = Some c.
Proof.
  intros H. unfold insert_wrapper. case_match; [done|]. rewrite lookup_insert_ne; congruence.
Qed.

Lemma insert_wrappers_keep ids (m' : coders_map) k c :
  m' !! k = Some c → foldl insert_wrapper m' ids !! k = Some c.
Proof. revert m'. induction ids; intros m' H; simpl; auto using insert_wrapper_keep. Qed.

Lemma insert_wrappers_other ids (m' : coders_map) k :
  k ∉ length_prefixed_coder_id <$> ids → foldl insert_wrapper m' ids !! k = m' !! k.
Proof.
  revert m'. induction ids as [|i ids IH]; intros m' Hk; [done|].
  rewrite fmap_cons, not_elem_of_cons in Hk. destruct Hk as [Hne Hk]. simpl.
  rewrite IH by done. unfold insert_wrapper. case_match; [done|]. by rewrite lookup_insert_ne.
Qed.

Lemma insert_wrappers_new ids (m' : coders_map) i :
  i ∈ ids → m' !! length_prefixed_coder_id i = None →
  foldl insert_wrapper m' ids !! length_prefixed_coder_id i = Some (wrapper i).
Proof.
  revert m'. induction ids as [|j ids IH]; intros m' Hi Hm; [by apply elem_of_nil in Hi|]. simpl.
  destruct (decide (j = i)) as [->|Hne].
  - apply insert_wrappers_keep. unfold insert_wrapper. rewrite Hm. apply lookup_insert_eq.
  - apply elem_of_cons in Hi as [->|Hi]; [done|]. apply IH; [done|].
    unfold insert_wrapper. case_match; [done|]. rewrite lookup_insert_ne; [done|].
    intros H'. by apply lp_inj in H'.
Qed.

Lemma remap_lookup id :
  (list_to_map ((λ id, (id, length_prefixed_coder_id id)) <$> leaf_ids) : gmap string string) !! id
  = if decide (pickled id) then Some (length_prefixed_coder_id id) else None.
Proof.
  case_decide as H.
  - apply elem_of_list_to_map_1.
    + rewrite <- list_fmap_compose. cbn. rewrite list_fmap_id. apply NoDup_elements.
    + apply list_elem_of_fmap. exists id. by rewrite elem_of_leaf_ids.
  - apply not_elem_of_list_to_map_1. rewrite <- list_fmap_compose. cbn.
    rewrite list_fmap_id. by rewrite elem_of_leaf_ids.
Qed.

Definition rewrite_component (i : string) : string :=
  if decide (pickled i) then length_prefixed_coder_id i else i.

Lemma remap_component_spec i :
  remap_component (list_to_map ((λ id, (id, length_prefixed_coder_id id)) <$> leaf_ids)) i
  = rewrite_component i.
Proof. unfold remap_component, rewrite_component. rewrite remap_lookup. by case_decide. Qed.

(** What the rewritten map holds under an id, by the three cases of the code: a
    wrapper id of some leaf that is new, a wrapper id that was there, another id. *)
Lemma length_prefix_lookup k :
  length_prefix_pickled_leaves m !! k =
    if decide (k ∈ length_prefixed_coder_id <$> leaf_ids)
    then match m !! k with
         | Some c => Some c
         | None => foldl insert_wrapper m leaf_ids !! k
         end
    else (λ c, mkCoder (spec_urn c) (rewrite_component <$> component_coder_ids c)) <$> m !! k.
Proof.
  unfold length_prefix_pickled_leaves. fold leaf_ids. case_decide as Hnil.
  - rewrite decide_False by (rewrite Hnil; apply not_elem_of_nil).
    destruct (m !! k) as [[urn ids]|] eqn:E; [|done]. simpl. do 2 f_equal.
    rewrite <- (list_fmap_id ids) at 1. apply list_fmap_ext. intros _ i _.
    unfold rewrite_component. rewrite decide_False; [done|].
    rewrite <- elem_of_leaf_ids, Hnil. apply not_elem_of_nil.
  - rewrite map_lookup_imap.
    destruct (decide (k ∈ length_prefixed_coder_id <$> leaf_ids)) as [Hk|Hk].
    + destruct (m !! k) as [c|] eqn:E.
      * rewrite (insert_wrappers_keep _ _ _ _ E). cbn [mbind option_bind fmap option_fmap option_map].
        by rewrite decide_True by (by apply elem_of_list_to_set).
      * destruct (foldl _ _ _ !! k) eqn:E'; [|done]. cbn [mbind option_bind fmap option_fmap option_map].
        by rewrite decide_True by (by apply elem_of_list_to_set).
    + rewrite insert_wrappers_other by done. destruct (m !! k) as [c|]; [|done]. cbn [mbind option_bind fmap option_fmap option_map].
      rewrite decide_False by (by rewrite elem_of_list_to_set). do 2 f_equal.
      apply list_fmap_ext. intros _ i _. apply remap_component_spec.
Qed.

Lemma elem_of_wrapper_ids k :
  k ∈ length_prefixed_coder_id <$> leaf_ids ↔ ∃ i, k = length_prefixed_coder_id i ∧ pickled i.
Proof. rewrite list_elem_of_fmap. by setoid_rewrite elem_of_leaf_ids. Qed.

Lemma length_prefix_wrapper i :
  pickled i →
  ∃ c, length_prefix_pickled_leaves m !! length_prefixed_coder_id i = Some c
       ∧ (m !! length_prefixed_coder_id i = Some c
          ∨ m !! length_prefixed_coder_id i = None ∧ c = wrapper i).
Proof.
  intros Hi. rewrite length_prefix_lookup.
  rewrite decide_True by (apply elem_of_wrapper_ids; by exists i).
  destruct (m !! length_prefixed_coder_id i) as [c|] eqn:E; [exists c; auto|].
  exists (wrapper i). split; [|by right]. apply insert_wrappers_new; [|done].
  by apply elem_of_leaf_ids.
Qed.

Lemma length_prefix_other k :
  (¬ ∃ i, k = length_prefixed_coder_id i ∧ pickled i) →
  length_prefix_pickled_leaves m !! k =
    (λ c, mkCoder (spec_urn c) (rewrite_component <$> component_coder_ids c)) <$> m !! k.
Proof. intros H. by rewrite length_prefix_lookup, decide_False by (by rewrite elem_of_wrapper_ids). Qed.
End length_prefix.

Section rewritten.
Context (m : coders_map) (Hlp : lp_reserved m).
Let m' := length_prefix_pickled_leaves m.

Lemma lp_not_pickled i : ¬ pickled m (length_prefixed_coder_id i).
Proof.
  intros (c & Hc & Hp). apply Hlp in Hc. unfold is_pickled in Hp.
  rewrite Hc in Hp. by apply bool_decide_eq_true in Hp.
Qed.

(** The entry of [m'] under [k] when [k] is not one of its wrappers, or is. *)
Lemma rewritten_cases k :
  (∃ i, k = length_prefixed_coder_id i ∧ pickled m i
        ∧ ∃ c, m' !! k = Some c ∧ spec_urn c = Some LENGTH_PREFIX_CODER)
  ∨ (¬ (∃ i, k = length_prefixed_coder_id i ∧ pickled m i))
    ∧ m' !! k = (λ c, mkCoder (spec_urn c) (rewrite_component m <$> component_coder_ids c)) <$> m !! k.
Proof.
  destruct (decide (Exists (λ i, k = length_prefixed_coder_id i) (leaf_ids m))) as [H|H].
  - left. apply Exists_exists in H as (i & Hi & ->). apply elem_of_leaf_ids in Hi.
    exists i. do 2 (split; [done|]). destruct (length_prefix_wrapper m i Hi) as (c & Hc & Hor).
    exists c. split; [done|]. destruct Hor as [Hor|[_ ->]]; [by eapply Hlp|done].
  - right. assert (Hn : ¬ ∃ i, k = length_prefixed_coder_id i ∧ pickled m i).
    { intros (i & -> & Hi). apply H, Exists_exists. exists i.
      by rewrite elem_of_leaf_ids. }
    split; [done|]. by apply length_prefix_other.
Qed.

Lemma rewritten_pickled i : pickled m' i ↔ pickled m i.
Proof.
  unfold pickled. destruct (rewritten_cases i) as [(j & -> & Hj & c & Hc & Hu)|[Hn Heq]].
  - rewrite Hc. split.
    + intros (c' & [= <-] & Hp). unfold is_pickled in Hp. rewrite Hu in Hp.
      by apply bool_decide_eq_true in Hp.
    + intros H. by apply lp_not_pickled in H.
  - rewrite Heq. split.
    + intros (c & Hc & Hp). destruct (m !! i) as [c0|]; [|done]. injection Hc as <-. by exists c0.
    + intros (c & Hc & Hp). rewrite Hc. by eexists.
Qed.

Lemma rewrite_component_idem i : rewrite_component m' (rewrite_component m i) = rewrite_component m i.
Proof.
  unfold rewrite_component at 1. rewrite decide_False; [done|]. rewrite rewritten_pickled.
  unfold rewrite_component. case_decide; [apply lp_not_pickled|done].
Qed.

Lemma length_prefix_idem : length_prefix_pickled_leaves m' = m'.
Proof.
  apply map_eq. intros k.
  destruct (rewritten_cases k) as [(j & -> & Hj & c & Hc & Hu)|[Hn Heq]].
  - apply rewritten_pickled in Hj. rewrite Hc.
    destruct (length_prefix_wrapper m' j Hj) as (c' & -> & [?|[? _]]); congruence.
  - rewrite length_prefix_other by (by setoid_rewrite rewritten_pickled).
    rewrite Heq. destruct (m !! k) as [c|]; [|done]. cbn. do 2 f_equal.
    rewrite <- list_fmap_compose. apply list_fmap_ext. intros _ i _. apply rewrite_component_idem.
Qed.

(** ** Resolution after the rewrite *)
Context (rank : string → nat) (Hrank : ranked m rank)
  (Hwf : ∀ i c, m !! i = Some c → wf_coder m i c)
  (Hspec : ∀ i c, m !! i = Some c → is_Some (spec_urn c)).

Definition rank' (k : string) : nat :=
  if decide (k ∈ length_prefixed_coder_id <$> leaf_ids m) then 0 else S (rank k).

Lemma rewritten_dom i : is_Some (m !! i) → is_Some (m' !! rewrite_component m i).
Proof.
  intros Hi. unfold rewrite_component. case_decide as Hp.
  - destruct (length_prefix_wrapper m i Hp) as (c & Hc & _). by exists c.
  - destruct (rewritten_cases i) as [(j & -> & Hj & c & Hc & _)|[_ Heq]]; [by exists c|].
    rewrite Heq. destruct Hi as [c ->]. by eexists.
Qed.

Lemma rewritten_ranked : ranked m' rank'.
Proof.
  intros k c Hk Hu. destruct (rewritten_cases k) as [(j & -> & Hj & c' & Hc & Hc')|[Hn Heq]].
  - rewrite Hk in Hc. injection Hc as ->. rewrite Hc' in Hu. unfold leaf_urns in Hu.
    simpl in Hu. set_solver.
  - rewrite Heq in Hk. destruct (m !! k) as [c0|] eqn:E; [|done]. injection Hk as <-.
    simpl in *. specialize (Hrank _ _ E Hu). apply Forall_fmap.
    eapply Forall_impl; [done|]. intros i Hi. simpl in *. unfold rank'.
    rewrite (decide_False (P:=k ∈ _)) by (by rewrite elem_of_wrapper_ids).
    case_decide as Hw; [lia|]. revert Hw. unfold rewrite_component. case_decide as Hp; [|lia].
    intros []. apply elem_of_wrapper_ids. by exists i.
Qed.

Lemma rewritten_wf i c : m' !! i = Some c → wf_coder m' i c.
Proof.
  intros Hi. destruct (rewritten_cases i) as [(j & -> & Hj & c' & Hc & Hc')|[Hn Heq]].
  - left. rewrite Hi in Hc. injection Hc as ->. rewrite Hc'. unfold leaf_urns. simpl. set_solver.
  - rewrite Heq in Hi. destruct (m !! i) as [c0|] eqn:E; [|done]. injection Hi as <-.
    destruct (Hwf _ _ E) as [Hl|[Ha Hd]]; [by left|right]. simpl. rewrite length_fmap.
    split; [done|]. apply Forall_fmap. eapply Forall_impl; [done|]. intros x Hx. by apply rewritten_dom.
Qed.

(** The ids whose coders the rewrite keeps away from raw pickles. *)
Definition safe_id (k : string) : Prop := is_Some (m' !! k) ∧ ¬ pickled m k.

Lemma rewritten_pickle_free : pickle_free m' safe_id.
Proof.
  intros k [[c Hc] Hp]. exists c. split; [done|].
  destruct (rewritten_cases k) as [(j & -> & Hj & c' & Hc' & Hu)|[Hn Heq]].
  - rewrite Hc in Hc'. injection Hc' as ->. rewrite Hu. split; [done|left].
    unfold leaf_urns. simpl. set_solver.
  - rewrite Heq in Hc. destruct (m !! k) as [c0|] eqn:E; [|done]. injection Hc as <-. simpl.
    destruct (Hspec _ _ E) as [u Hu]. rewrite Hu. simpl.
    assert (u ≠ PYTHON_PICKLE_CODER).
    { intros ->. apply Hp. exists c0. split; [done|]. by apply bool_decide_eq_true. }
    split; [done|]. destruct (Hwf _ _ E) as [Hl|[_ Hd]].
    + left. by rewrite Hu in Hl.
    + right. apply Forall_fmap. eapply Forall_impl; [done|]. intros i Hi. simpl. split.
      * by apply rewritten_dom.
      * unfold rewrite_component. case_decide; [apply lp_not_pickled|done].
Qed.

(** The id a boundary uses for [id] after the rewrite is a safe one. *)
Lemma resolved_id_safe id :
  is_Some (m !! id) → safe_id (resolve_length_prefixed_coder_id id m').
Proof.
  intros Hid. unfold resolve_length_prefixed_coder_id. case_decide as Hlpd.
  - split; [done|apply lp_not_pickled].
  - assert (Hp : ¬ pickled m id).
    { intros Hp. apply Hlpd. destruct (length_prefix_wrapper m id Hp) as (c & Hc & _). by exists c. }
    split; [|done]. apply rewritten_dom in Hid. unfold rewrite_component in Hid.
    by rewrite decide_False in Hid.
Qed.

Lemma resolve_rewritten id n :
  is_Some (m !! id) → (∀ k, rank k < n)%nat →
  ∃ c, from_urn (S n) (resolve_length_prefixed_coder_id id m') None (Some m') = Ok c
       ∧ no_pickle c = true.
Proof.
  intros Hid Hn. pose proof (resolved_id_safe id Hid) as Hs.
  destruct (from_urn_total m' rank' (S n) (resolve_length_prefixed_coder_id id m'))
    as [c Hc]; [apply rewritten_ranked|apply rewritten_wf|by destruct Hs| |].
  - unfold rank'. case_decide; [lia|]. specialize (Hn (resolve_length_prefixed_coder_id id m')). lia.
  - exists c. split; [done|]. by eapply pickle_free_no_pickle; [apply rewritten_pickle_free|..].
Qed.
End rewritten.
