(* ===== verification/Rows.v ===== *)
(** Schemas and the row coder (coders/schema.rs, coders/row.rs). *)
From S2P Require Import Prelude Bytes Varint.
Set Warnings "-register-all".

(** * Resolved schemas *)

Inductive BeamFieldType : Type :=
| mkFieldType (nullable : bool) (kind : BeamTypeKind)
with BeamTypeKind : Type :=
| KByte | KInt16 | KInt32 | KInt64 | KFloat | KDouble | KString | KBoolean | KBytes
| KArray (elem : BeamFieldType)
| KIterable (elem : BeamFieldType)
| KMap (key value : BeamFieldType)
| KRow (schema : BeamSchema)
| KLogical (urn : string) (repr : BeamFieldType)
with BeamSchema : Type :=
| mkSchema (id : string) (fields : list BeamField) (encode_order : list nat)
with BeamField : Type :=
| mkField (name : string) (field_type : BeamFieldType) (encoding_position : Z).

Definition nullable (ft : BeamFieldType) : bool := let '(mkFieldType n _) := ft in n.
Definition field_type (f : BeamField) : BeamFieldType := let '(mkField _ t _) := f in t.
Definition field_name (f : BeamField) : string := let '(mkField n _ _) := f in n.
Definition encoding_position (f : BeamField) : Z := let '(mkField _ _ p) := f in p.
Definition schema_fields (s : BeamSchema) : list BeamField := let '(mkSchema _ fs _) := s in fs.
Definition encode_order (s : BeamSchema) : list nat := let '(mkSchema _ _ o) := s in o.

(** Mutual induction, with a hypothesis for every field of a nested schema. *)
Section schema_ind.
Variables (Qt : BeamFieldType → Prop) (Qk : BeamTypeKind → Prop) (Qs : BeamSchema → Prop).
Hypothesis Hft : ∀ n k, Qk k → Qt (mkFieldType n k).
Hypothesis Hatom : ∀ k,
  match k with
  | KArray _ | KIterable _ | KMap _ _ | KRow _ | KLogical _ _ => True
  | _ => Qk k
  end.
Hypothesis Harr : ∀ e, Qt e → Qk (KArray e).
Hypothesis Hiter : ∀ e, Qt e → Qk (KIterable e).
Hypothesis Hmap : ∀ k v, Qt k → Qt v → Qk (KMap k v).
Hypothesis Hrow : ∀ s, Qs s → Qk (KRow s).
Hypothesis Hlog : ∀ u r, Qt r → Qk (KLogical u r).
Hypothesis Hschema : ∀ i fs o, Forall (λ f, Qt (field_type f)) fs → Qs (mkSchema i fs o).

Fixpoint field_type_ind (ft : BeamFieldType) : Qt ft :=
  match ft with mkFieldType n k => Hft n k (type_kind_ind k) end
with type_kind_ind (k : BeamTypeKind) : Qk k :=
  match k with
  | KArray e => Harr e (field_type_ind e)
  | KIterable e => Hiter e (field_type_ind e)
  | KMap k v => Hmap k v (field_type_ind k) (field_type_ind v)
  | KRow s => Hrow s (schema_ind s)
  | KLogical u r => Hlog u r (field_type_ind r)
  | k => Hatom k
  end
with schema_ind (s : BeamSchema) : Qs s :=
  match s with
  | mkSchema i fs o =>
      Hschema i fs o
        ((fix go l : Forall (λ f, Qt (field_type f)) l :=
            match l with
            | [] => @List.Forall_nil _ _
            | f :: l =>
                @List.Forall_cons _ (λ f, Qt (field_type f)) f l
                  (match f with mkField n t p => field_type_ind t end) (go l)
            end) fs)
  end.
End schema_ind.

(** * Row values *)

(** [FieldValue]; floats are their bit patterns.  A [BeamRow] is its list of
    optional fields in definition order. *)
Inductive FieldValue : Type :=
| VByte (z : Z) | VInt16 (z : Z) | VInt32 (z : Z) | VInt64 (z : Z)
| VFloat (bits : Z) | VDouble (bits : Z)
| VString (s : string) | VBoolean (b : bool) | VBytes (b : bytes)
| VArray (items : list (option FieldValue))
| VIterable (items : list (option FieldValue))
| VMap (entries : list (option FieldValue * option FieldValue))
| VRow (fields : list (option FieldValue))
| VLogical (inner : FieldValue).

Abbreviation BeamRow := (list (option FieldValue)).

(** [BeamRow::get] and [BeamRow::set]; an index past the end is ignored by [set]. *)
Definition row_get (row : BeamRow) (index : nat) : option (option FieldValue) := row !! index.
Definition row_set (row : BeamRow) (index : nat) (value : option FieldValue) : BeamRow :=
  if decide (index < length row)%nat then <[index := value]> row else row.

Section rows.
Context `{P : Profile}.

Abbreviation enc := (outcome CodersError bytes).

(** * The row header *)

(** [encode_order.iter().any(|&idx| row.fields[idx].is_none())]. *)
Fixpoint any_null (row : BeamRow) (order : list nat) : outcome CodersError bool :=
  match order with
  | [] => Ok false
  | idx :: order =>
    match row !! idx with
    | None => Panic "index out of bounds"
    | Some None => Ok true
    | Some (Some _) => any_null row order
    end
  end.

(** [null_bitmap[pos / 8] |= 1 << (pos % 8)] for the null fields of [order]. *)
Fixpoint fill_bitmap (row : BeamRow) (order : list nat) (pos : nat) (bitmap : list Z)
    : outcome CodersError (list Z) :=
  match order with
  | [] => Ok bitmap
  | idx :: order =>
    match row !! idx with
    | None => Panic "index out of bounds"
    | Some (Some _) => fill_bitmap row order (S pos) bitmap
    | Some None =>
      match bitmap !! (pos / 8)%nat with
      | None => Panic "index out of bounds"
      | Some b =>
        fill_bitmap row order (S pos)
          (<[(pos / 8)%nat := Z.lor b (Z.shiftl 1 (Z.of_nat (pos mod 8)%nat))]> bitmap)
      end
    end
  end.

(** [is_null]: whether [pos] is marked in the wire bitmap. *)
Definition bitmap_marks (bitmap : bytes) (pos : nat) : bool :=
  match bitmap !! (pos / 8)%nat with
  | Some b => negb (Z.land (u8_to_Z b) (Z.shiftl 1 (Z.of_nat (pos mod 8)%nat)) =? 0)%Z
  | None => false
  end.

(** * Encoding *)

(** [encode_element_value], given the encoder of the element type. *)
Definition encode_element_value (elem_nullable : bool) (encode_value : FieldValue → enc)
    (val : option FieldValue) : enc :=
  if elem_nullable then
    match val with
    | Some v => bs ← encode_value v; Ok (put_u8 1 ++ bs)
    | None => Ok (put_u8 0)
    end
  else
    match val with
    | Some v => encode_value v
    | None => Err (WhileEncoding "null element for non-nullable element type")
    end.

(** [RowCoder::encode], given for every field of the schema its name, its
    nullability and the encoder of its type. *)
Definition encode_fields (fields : list (bool * (FieldValue → enc))) (order : list nat)
    (row : BeamRow) : enc :=
  let num_fields := length fields in
  if decide (length row ≠ num_fields) then Err (WhileEncoding "row field count mismatch")
  else
    has_nulls ← any_null row order;
    bitmap ←
      (if has_nulls : bool then
         let null_byte_count := ((num_fields + 7) / 8)%nat in
         null_bitmap ← fill_bitmap row order 0 (replicate null_byte_count 0%Z);
         Ok (encode_varint (Z.of_nat null_byte_count) ++ (u8 <$> null_bitmap))
       else Ok (encode_varint 0));
    values ← traverse (λ field_idx,
      match fields !! field_idx, row !! field_idx with
      | Some (_, encode_value), Some (Some val) => encode_value val
      | Some (field_nullable, _), Some None =>
          if field_nullable : bool then Ok []
          else Err (WhileEncoding "field is not nullable but row value is null")
      | _, _ => Panic "index out of bounds"
      end) order;
    Ok (encode_varint (Z.of_nat num_fields) ++ bitmap ++ concat values).

Fixpoint encode_field_value (ft : BeamFieldType) (val : FieldValue) : enc :=
  match ft with mkFieldType _ kind => encode_kind kind val end
with encode_kind (kind : BeamTypeKind) (val : FieldValue) : enc :=
  match kind, val with
  | KByte, VByte v => Ok (put_i8 v)
  | KInt16, VInt16 v => Ok (put_i16 v)
  | KInt32, VInt32 v => Ok (encode_signed_varint v)
  | KInt64, VInt64 v => Ok (encode_signed_varint v)
  | KFloat, VFloat bits => Ok (put_u32 bits)
  | KDouble, VDouble bits => Ok (put_u64 bits)
  | KString, VString s => Ok (encode_length_delimited (as_bytes s))
  | KBoolean, VBoolean b => Ok (put_u8 (if b then 1 else 0))
  | KBytes, VBytes b => Ok (encode_length_delimited b)
  | KArray elem, VArray items
  | KIterable elem, VIterable items =>
      encs ← traverse (encode_element_value (nullable elem) (encode_field_value elem)) items;
      Ok (put_i32 (to_signed 32 (Z.of_nat (length items))) ++ concat encs)
  | KMap key value, VMap entries =>
      encs ← traverse (λ '(k, v),
        kb ← encode_element_value (nullable key) (encode_field_value key) k;
        vb ← encode_element_value (nullable value) (encode_field_value value) v;
        Ok (kb ++ vb)) entries;
      Ok (put_i32 (to_signed 32 (Z.of_nat (length entries))) ++ concat encs)
  | KRow sub_schema, VRow sub_row => encode_row sub_schema sub_row
  | KLogical _ repr, VLogical inner => encode_field_value repr inner
  | KLogical _ repr, inner_val => encode_field_value repr inner_val
  | _, _ => Err (WhileEncoding "type mismatch")
  end
with encode_row (schema : BeamSchema) (row : BeamRow) : enc :=
  match schema with
  | mkSchema _ fields order =>
      encode_fields
        (map (λ f, match f with mkField _ t _ => (nullable t, encode_field_value t) end) fields)
        order row
  end.

(** * Decoding *)

(** [if buf.remaining() < n { return Err(..) }]. *)
Definition require (n : Z) (msg : string) : dec unit :=
  remaining ← remaining;
  if (remaining <? n)%Z then fail (WhileDecoding msg) else mret ().

(** [decode_element_value], given the decoder of the element type. *)
Definition decode_element_value (elem_nullable : bool) (decode_value : dec FieldValue)
    : dec (option FieldValue) :=
  if elem_nullable then
    _ ← require 1 "insufficient bytes for nullable element flag";
    flag ← get_u8;
    if negb (u8_to_Z flag =? 0)%Z then val ← decode_value; mret (Some val) else mret None
  else val ← decode_value; mret (Some val).

(** A varint length, a check, and that many bytes. *)
Definition decode_counted_bytes (msg : string) : dec bytes :=
  len ← decode_varint;
  _ ← require len msg;
  copy_to_slice len.

(** The loop over [encode_order] of [RowCoder::decode]. *)
Fixpoint decode_field_loop (defs : list (bool * dec FieldValue)) (is_null : list bool)
    (pos : nat) (order : list nat) (fields : BeamRow) : dec BeamRow :=
  match order with
  | [] => mret fields
  | field_idx :: order =>
    match defs !! field_idx, is_null !! pos with
    | Some (field_nullable, decode_value), Some null =>
      if null : bool then
        if negb field_nullable
        then fail (WhileDecoding "field marked null in wire bitmap but schema states non-nullable")
        else decode_field_loop defs is_null (S pos) order (<[field_idx := None]> fields)
      else
        val ← decode_value;
        decode_field_loop defs is_null (S pos) order (<[field_idx := Some val]> fields)
    | _, _ => panic "index out of bounds"
    end
  end.

(** [RowCoder::decode], given the nullability and the decoder of every field. *)
Definition decode_fields (defs : list (bool * dec FieldValue)) (order : list nat) : dec BeamRow :=
  let num_fields := length defs in
  header_field_count ← decode_varint;
  if decide (header_field_count ≠ Z.of_nat num_fields)
  then fail (WhileDecoding "row field count mismatch")
  else
    null_byte_count ← decode_varint;
    bitmap ←
      (if (0 <? null_byte_count)%Z then
         _ ← require null_byte_count "insufficient bytes for null bitmap";
         copy_to_slice null_byte_count
       else mret []);
    decode_field_loop defs (bitmap_marks bitmap <$> seq 0 num_fields) 0 order
      (replicate num_fields None).

Fixpoint decode_field_value (ft : BeamFieldType) : dec FieldValue :=
  match ft with mkFieldType _ kind => decode_kind kind end
with decode_kind (kind : BeamTypeKind) : dec FieldValue :=
  match kind with
  | KByte => _ ← require 1 "insufficient bytes for Byte"; v ← get_i8; mret (VByte v)
  | KInt16 => _ ← require 2 "insufficient bytes for Int16"; v ← get_i16; mret (VInt16 v)
  | KInt32 => v ← decode_signed_varint; mret (VInt32 (to_signed 32 v))
  | KInt64 => v ← decode_signed_varint; mret (VInt64 v)
  | KFloat => _ ← require 4 "insufficient bytes for Float"; v ← get_u32; mret (VFloat v)
  | KDouble => _ ← require 8 "insufficient bytes for Double"; v ← get_u64; mret (VDouble v)
  | KString =>
      bs ← decode_counted_bytes "insufficient bytes for String";
      match from_utf8 bs with
      | Some s => mret (VString s)
      | None => fail (WhileDecoding "invalid UTF-8 string in Row")
      end
  | KBoolean =>
      _ ← require 1 "insufficient bytes for Boolean";
      b ← get_u8; mret (VBoolean (negb (u8_to_Z b =? 0)%Z))
  | KBytes => bs ← decode_counted_bytes "insufficient bytes for Bytes"; mret (VBytes bs)
  | KArray elem =>
      _ ← require 4 "insufficient bytes for Array length";
      count ← get_i32;
      if (count <? 0)%Z then fail (WhileDecoding "negative Array length")
      else
        items ← read_n (Z.to_nat count)
                  (decode_element_value (nullable elem) (decode_field_value elem));
        mret (VArray items)
  | KIterable elem =>
      _ ← require 4 "insufficient bytes for Iterable length";
      count ← get_i32;
      items ←
        (if (0 <=? count)%Z
         then read_n (Z.to_nat count)
                (decode_element_value (nullable elem) (decode_field_value elem))
         else read_chunks (decode_element_value (nullable elem) (decode_field_value elem)));
      mret (VIterable items)
  | KMap key value =>
      _ ← require 4 "insufficient bytes for Map count";
      count ← get_i32;
      if (count <? 0)%Z then fail (WhileDecoding "negative Map size")
      else
        entries ← read_n (Z.to_nat count)
          (k ← decode_element_value (nullable key) (decode_field_value key);
           v ← decode_element_value (nullable value) (decode_field_value value);
           mret (k, v));
        mret (VMap entries)
  | KRow sub_schema => row ← decode_row sub_schema; mret (VRow row)
  | KLogical _ repr => inner ← decode_field_value repr; mret (VLogical inner)
  end
with decode_row (schema : BeamSchema) : dec BeamRow :=
  match schema with
  | mkSchema _ fields order =>
      decode_fields
        (map (λ f, match f with mkField _ t _ => (nullable t, decode_field_value t) end) fields)
        order
  end.

(** * Well-formed schemas and the rows of a schema *)

(** The encoding order lists every field once. *)
Definition wf_order (order : list nat) (num_fields : nat) : Prop := order ≡ₚ seq 0 num_fields.

Fixpoint wf_type (ft : BeamFieldType) : Prop :=
  match ft with mkFieldType _ kind => wf_kind kind end
with wf_kind (kind : BeamTypeKind) : Prop :=
  match kind with
  | KArray e | KIterable e | KLogical _ e => wf_type e
  | KMap k v => wf_type k ∧ wf_type v
  | KRow s => wf_schema s
  | _ => True
  end
with wf_schema (s : BeamSchema) : Prop :=
  match s with
  | mkSchema _ fields order =>
      wf_order order (length fields)
      ∧ all1 (λ f, match f with mkField _ t _ => wf_type t end) fields
  end.

(** A value where a null is allowed only if the type is nullable. *)
Definition typed_option (is_nullable : bool) (typed_value : FieldValue → Prop)
    (val : option FieldValue) : Prop :=
  match val with Some v => typed_value v | None => is_nullable = true end.

Fixpoint typed_value (ft : BeamFieldType) (val : FieldValue) : Prop :=
  match ft with mkFieldType _ kind => typed_kind kind val end
with typed_kind (kind : BeamTypeKind) (val : FieldValue) : Prop :=
  match kind, val with
  | KByte, VByte z => is_i 8 z
  | KInt16, VInt16 z => is_i 16 z
  | KInt32, VInt32 z => is_i 32 z
  | KInt64, VInt64 z => is_i 64 z
  | KFloat, VFloat bits => is_u 32 bits
  | KDouble, VDouble bits => is_u 64 bits
  | KString, VString s => wf_string s ∧ is_u 64 (str_len s)
  | KBoolean, VBoolean _ => True
  | KBytes, VBytes b => is_u 64 (Z.of_nat (length b))
  | KArray e, VArray items
  | KIterable e, VIterable items =>
      (Z.of_nat (length items) < 2 ^ 31)%Z
      ∧ all1 (typed_option (nullable e) (typed_value e)) items
  | KMap k v, VMap entries =>
      (Z.of_nat (length entries) < 2 ^ 31)%Z
      ∧ all1 (λ '(a, b), typed_option (nullable k) (typed_value k) a
                         ∧ typed_option (nullable v) (typed_value v) b) entries
  | KRow s, VRow row => typed_row s row
  | KLogical _ repr, VLogical inner => typed_value repr inner
  | _, _ => False
  end
with typed_row (s : BeamSchema) (row : BeamRow) : Prop :=
  match s with
  | mkSchema _ fields _ =>
      (Z.of_nat (length fields) < 2 ^ 64)%Z
      ∧ all2 (λ f, match f with mkField _ t _ => typed_option (nullable t) (typed_value t) end)
          fields row
  end.

(** * The null bitmap *)

Definition bit_at (bitmap : list Z) (pos : nat) : bool :=
  Z.testbit (nth (pos / 8)%nat bitmap 0%Z) (Z.of_nat (pos mod 8)%nat).

Lemma land_bit z k : (0 ≤ k)%Z → negb (Z.land z (Z.shiftl 1 k) =? 0)%Z = Z.testbit z k.
Proof.
  intros Hk. rewrite Z.shiftl_1_l. destruct (Z.eqb_spec (Z.land z (2 ^ k)) 0) as [H|H]; simpl.
  - apply (f_equal (λ x, Z.testbit x k)) in H. rewrite Z.land_spec, Z.pow2_bits_true in H by done.
    rewrite andb_true_r, Z.bits_0 in H. done.
  - destruct (Z.testbit z k) eqn:Hb; [done|]. destruct H. apply Z.bits_inj_0. intros i.
    rewrite Z.land_spec. destruct (Z.eq_dec i k) as [->|Hne]; [by rewrite Hb|].
    rewrite (Z.pow2_bits_false k i) by done. apply andb_false_r.
Qed.

Lemma bitmap_marks_bit bitmap pos : bitmap_marks (u8 <$> bitmap) pos = bit_at bitmap pos.
Proof.
  unfold bitmap_marks, bit_at. rewrite list_lookup_fmap.
  destruct (bitmap !! (pos / 8)%nat) as [b|] eqn:E; simpl.
  - rewrite (nth_lookup_Some _ _ _ _ E). rewrite land_bit by lia. rewrite u8_to_Z_u8.
    pose proof (Nat.mod_upper_bound pos 8 ltac:(lia)).
    apply (Z.mod_pow2_bits_low b 8). lia.
  - rewrite nth_overflow by (by apply lookup_ge_None). by rewrite Z.bits_0.
Qed.

Lemma bit_at_set bitmap p q b :
  bitmap !! (p / 8)%nat = Some b →
  bit_at (<[(p / 8)%nat := Z.lor b (Z.shiftl 1 (Z.of_nat (p mod 8)%nat))]> bitmap) q
  = bool_decide (p = q) || bit_at bitmap q.
Proof.
  intros Hb. unfold bit_at. rewrite !nth_lookup.
  destruct (decide (p / 8 = q / 8)%nat) as [Hd|Hd].
  - rewrite <- Hd, list_lookup_insert_eq, Hb by (by eapply lookup_lt_Some). cbn [from_option id].
    unfold id.
    rewrite Z.lor_spec, Z.shiftl_1_l, Z.pow2_bits_eqb by lia. rewrite orb_comm. f_equal.
    pose proof (Nat.div_mod_eq p 8). pose proof (Nat.div_mod_eq q 8).
    case_bool_decide as Hpq; [subst; by rewrite Z.eqb_refl|]. apply Z.eqb_neq. intros Heq.
    apply Hpq. apply Nat2Z.inj in Heq. congruence.
  - rewrite list_lookup_insert_ne by done. rewrite bool_decide_false; [done|]. by intros ->.
Qed.

(** Whether the field at [idx] is null. *)
Definition null_at (row : BeamRow) (idx : nat) : bool :=
  match row !! idx with Some None => true | _ => false end.

Lemma fill_bitmap_spec row order pos bitmap :
  Forall (λ idx, idx < length row)%nat order →
  (pos + length order ≤ 8 * length bitmap)%nat →
  ∃ bitmap', fill_bitmap row order pos bitmap = Ok bitmap'
    ∧ length bitmap' = length bitmap
    ∧ ∀ q, bit_at bitmap' q
           = match order !! (q - pos)%nat with
             | Some idx => bool_decide (pos ≤ q)%nat && null_at row idx || bit_at bitmap q
             | None => bit_at bitmap q
             end.
Proof.
  intros HF. revert pos bitmap. induction HF as [|idx order Hidx _ IH]; intros pos bitmap Hl;
    cbn [fill_bitmap length] in *.
  - exists bitmap. do 2 (split; [done|]). intros q. by rewrite lookup_nil.
  - destruct (lookup_lt_is_Some_2 row idx Hidx) as [o Ho].
    assert (Hnull : null_at row idx = bool_decide (o = None)).
    { unfold null_at. rewrite Ho. by destruct o. }
    assert (Hstep : ∀ bm, length bm = length bitmap →
      (∀ q, bit_at bm q = bool_decide (pos = q) && null_at row idx || bit_at bitmap q) →
      ∃ bitmap', fill_bitmap row order (S pos) bm = Ok bitmap' ∧ length bitmap' = length bitmap
        ∧ ∀ q, bit_at bitmap' q
           = match (idx :: order) !! (q - pos)%nat with
             | Some idx => bool_decide (pos ≤ q)%nat && null_at row idx || bit_at bitmap q
             | None => bit_at bitmap q
             end).
    { intros bm Hlen Hbm. destruct (IH (S pos) bm ltac:(lia)) as (bm' & -> & Hl' & Hq).
      exists bm'. do 2 (split; [congruence|]). intros q. rewrite Hq, Hbm. clear Hq Hbm.
      destruct (decide (q < S pos)%nat) as [Hlt|Hge].
      - rewrite (bool_decide_false (S pos ≤ q)%nat) by lia. simpl.
        replace (q - S pos)%nat with 0%nat by lia. replace (q - pos)%nat with 0%nat by lia. simpl.
        rewrite (bool_decide_ext (pos = q) (pos ≤ q)%nat) by lia. by destruct (order !! 0%nat).
      - replace (q - pos)%nat with (S (q - S pos))%nat by lia. simpl.
        rewrite (bool_decide_false (pos = q)) by lia. simpl.
        rewrite (bool_decide_true (S pos ≤ q)%nat), (bool_decide_true (pos ≤ q)%nat) by lia. done. }
    rewrite Ho. destruct o as [v|].
    + apply Hstep; [done|]. intros q. rewrite Hnull. by rewrite andb_false_r.
    + destruct (lookup_lt_is_Some_2 bitmap (pos / 8)%nat) as [b Hb].
      { apply Nat.Div0.div_lt_upper_bound. lia. }
      rewrite Hb. apply Hstep; [apply length_insert|]. intros q. rewrite bit_at_set by done.
      rewrite Hnull. by rewrite andb_true_r.
Qed.

Lemma any_null_spec row order :
  Forall (λ idx, idx < length row)%nat order →
  any_null row order = Ok (existsb (null_at row) order).
Proof.
  induction 1 as [|idx order Hidx _ IH]; simpl; [done|].
  destruct (lookup_lt_is_Some_2 row idx Hidx) as [[v|] Ho]; rewrite Ho.
  - rewrite IH. unfold null_at at 2. by rewrite Ho.
  - unfold null_at. by rewrite Ho.
Qed.

(** * The fields of a row *)

(** Reading a list of fields into their places leaves the row that was written. *)
Lemma foldl_insert_lookup (row : BeamRow) order (acc : BeamRow) idx :
  length acc = length row →
  foldl (λ fs i, match row !! i with Some o => <[i := o]> fs | None => fs end) acc order !! idx
  = if decide (idx ∈ order) then row !! idx else acc !! idx.
Proof.
  revert acc. induction order as [|i order IH]; intros acc Hl; cbn [foldl].
  - rewrite decide_False by apply not_elem_of_nil. done.
  - rewrite IH by (destruct (row !! i); rewrite ?length_insert; done).
    destruct (decide (idx ∈ order)) as [Hin|Hin].
    { rewrite decide_True by (by right). done. }
    destruct (decide (idx = i)) as [->|Hne].
    + rewrite decide_True by left. destruct (row !! i) as [o|] eqn:E.
      * apply list_lookup_insert_eq. rewrite Hl. by eapply lookup_lt_Some.
      * apply lookup_ge_None. rewrite Hl. by apply lookup_ge_None.
    + rewrite (decide_False (P:=idx ∈ i :: order)) by (by rewrite elem_of_cons; intros [|]).
      destruct (row !! i); [by rewrite list_lookup_insert_ne|done].
Qed.

(** One field: what its writer and its reader owe each other. *)
Definition field_ok (writer : bool * (FieldValue → enc)) (def : bool * dec FieldValue)
    (val : option FieldValue) : Prop :=
  fst writer = fst def ∧
  match val with
  | None => fst def = true
  | Some v => ∃ bs, snd writer v = Ok bs ∧ reads (snd def) bs v
  end.

Lemma reads_require {A} n msg (k : dec A) enc a :
  (n ≤ Z.of_nat (length enc))%Z → reads k enc a → reads (_ ← require n msg; k) enc a.
Proof.
  intros Hn Hk rest. rewrite run_bind. unfold require. rewrite run_bind. unfold remaining.
  rewrite length_app. destruct (Z.ltb_spec (Z.of_nat (length enc + length rest)) n); [lia|].
  apply Hk.
Qed.

Section fields.
Context (fields : list (bool * (FieldValue → enc))) (defs : list (bool * dec FieldValue))
  (row : BeamRow).
Hypothesis Hok : Forall3 field_ok fields defs row.

Definition encode_one (field_idx : nat) : enc :=
  match fields !! field_idx, row !! field_idx with
  | Some (_, encode_value), Some (Some val) => encode_value val
  | Some (field_nullable, _), Some None =>
      if field_nullable : bool then Ok []
      else Err (WhileEncoding "field is not nullable but row value is null")
  | _, _ => Panic "index out of bounds"
  end.

Lemma field_loop_round_trip is_null order pos acc :
  (∀ i idx, order !! i = Some idx →
     (idx < length row)%nat ∧ is_null !! (pos + i)%nat = Some (null_at row idx)) →
  ∃ encs, traverse encode_one order = Ok encs
    ∧ reads (decode_field_loop defs is_null pos order acc) (concat encs)
        (foldl (λ fs i, match row !! i with Some o => <[i := o]> fs | None => fs end) acc order).
Proof.
  revert pos acc. induction order as [|idx order IH]; intros pos acc Hn.
  - exists []. split; [done|]. apply reads_ret.
  - destruct (Hn 0%nat idx eq_refl) as [Hlt Hnull]. rewrite Nat.add_0_r in Hnull.
    destruct (lookup_lt_is_Some_2 row idx Hlt) as [o Ho].
    assert (∃ w d, fields !! idx = Some w ∧ defs !! idx = Some d ∧ field_ok w d o)
      as ([wn we] & [dn dd] & Hw & Hd & Hwd & Hv).
    { destruct (Forall3_lookup_r _ _ _ _ _ _ Hok Ho) as (w & d & ? & ? & ?). eauto. }
    simpl in Hwd, Hv. subst wn.
    destruct (IH (S pos) (match row !! idx with Some o => <[idx := o]> acc | None => acc end))
      as (encs & He & Hr).
    { intros i j Hij. destruct (Hn (S i) j Hij) as [? Hj]. split; [done|].
      by rewrite Nat.add_succ_comm. }
    unfold null_at in Hnull. rewrite Ho in Hnull, Hr.
    cbn [foldl decode_field_loop]. rewrite Hd, Hnull, Ho.
    assert (Hone : encode_one idx
                   = match o with Some v => we v | None => if dn then Ok [] else encode_one idx end).
    { unfold encode_one. rewrite Hw, Ho. by destruct o, dn. }
    change (traverse encode_one (idx :: order))
      with (y ← encode_one idx; ys ← traverse encode_one order; Ok (y :: ys)).
    rewrite Hone. destruct o as [v|].
    + destruct Hv as (bs & Hbs & Hrd). rewrite Hbs. cbn [mbind outcome_bind]. rewrite He.
      eexists. split; [done|]. cbn [concat]. by eapply reads_bind.
    + rewrite Hv. cbn [mbind outcome_bind]. rewrite He. eexists. split; [done|]. done.
Qed.

(** A row of matching fields survives the wire. *)
Lemma fields_round_trip order :
  wf_order order (length fields) → (Z.of_nat (length fields) < 2 ^ 64)%Z →
  ∃ bs, encode_fields fields order row = Ok bs ∧ reads (decode_fields defs order) bs row.
Proof.
  intros Ho Hmax. pose proof (Forall3_length_lm _ _ _ _ Hok) as Hlen1.
  pose proof (Forall3_length_lr _ _ _ _ Hok) as Hlen2.
  set (n := length fields) in *.
  assert (Hidx : Forall (λ idx, idx < length row)%nat order).
  { rewrite Ho. apply Forall_forall. intros i Hi. apply elem_of_seq in Hi. lia. }
  assert (Hol : length order = n) by (by rewrite Ho, length_seq).
  unfold encode_fields. fold n. rewrite decide_False by lia.
  rewrite any_null_spec by done. cbn [mbind outcome_bind].
  set (bytes := ((n + 7) / 8)%nat).
  assert (Hbytes : (n ≤ 8 * bytes)%nat ∧ (Z.of_nat bytes < 2 ^ 64)%Z ∧ (0 < n → 0 < bytes)%nat).
  { pose proof (Nat.div_mod_eq (n + 7) 8). pose proof (Nat.mod_upper_bound (n + 7) 8 ltac:(lia)).
    fold bytes in H. lia. }
  destruct (fill_bitmap_spec row order 0 (replicate bytes 0%Z) Hidx) as (bm & Hbm & Hbl & Hbit).
  { rewrite length_replicate. lia. }
  rewrite length_replicate in Hbl.
  (* the flags the decoder computes from what the encoder wrote *)
  set (wire := if existsb (null_at row) order then u8 <$> bm else []).
  assert (Hflag : ∀ i idx, order !! i = Some idx → bitmap_marks wire i = null_at row idx).
  { intros i idx Hi. unfold wire. destruct (existsb (null_at row) order) eqn:Hex.
    - rewrite bitmap_marks_bit, Hbit, Nat.sub_0_r, Hi. rewrite bool_decide_true by lia. simpl.
      unfold bit_at. rewrite nth_lookup. destruct (replicate bytes 0%Z !! _) as [z|] eqn:Hz.
      + apply lookup_replicate in Hz as [-> _]. cbn. by rewrite Z.bits_0, orb_false_r.
      + cbn. by rewrite Z.bits_0, orb_false_r.
    - unfold bitmap_marks. simpl. destruct (null_at row idx) eqn:Hn'; [|done].
      assert (existsb (null_at row) order = true); [|congruence].
      apply existsb_exists. exists idx. split; [|done].
      apply list_elem_of_In. by eapply list_elem_of_lookup_2. }
  destruct (field_loop_round_trip (bitmap_marks wire <$> seq 0 (length defs)) order 0
              (replicate (length defs) None)) as (encs & He & Hr).
  { intros i idx Hi. split; [by eapply (Forall_lookup_1 _ _ _ _ Hidx)|]. simpl.
    rewrite list_lookup_fmap, lookup_seq_lt by (apply lookup_lt_Some in Hi; lia).
    simpl. by rewrite (Hflag i idx). }
  assert (Hfinal : foldl (λ fs i, match row !! i with Some o => <[i := o]> fs | None => fs end)
             (replicate (length defs) None) order = row).
  { apply list_eq. intros i. rewrite foldl_insert_lookup by (rewrite length_replicate; lia).
    case_decide as Hi; [done|]. rewrite Ho, elem_of_seq in Hi.
    rewrite (lookup_ge_None_2 row) by lia. apply lookup_ge_None. rewrite length_replicate. lia. }
  rewrite Hfinal in Hr. unfold encode_one in He.
  exists (encode_varint (Z.of_nat n)
          ++ (if existsb (null_at row) order
              then encode_varint (Z.of_nat bytes) ++ (u8 <$> bm) else encode_varint 0)
          ++ concat encs).
  split.
  { rewrite Hbm. destruct (existsb _ _); cbn [mbind outcome_bind]; by rewrite He. }
  unfold decode_fields. eapply reads_bind; [apply reads_varint; unfold is_u; lia|]. cbv beta.
  rewrite decide_False by lia. unfold wire in *. clear Hflag He Hfinal.
  destruct (existsb (null_at row) order) eqn:Hex.
  - rewrite <- app_assoc. eapply reads_bind; [apply reads_varint; unfold is_u; lia|]. cbv beta.
    assert (0 < bytes)%nat.
    { apply existsb_exists in Hex as (idx & Hin & _). apply list_elem_of_In in Hin.
      rewrite Ho in Hin. apply elem_of_seq in Hin. lia. }
    destruct (Z.ltb_spec 0 (Z.of_nat bytes)); [|lia].
    eapply reads_bind; [|exact Hr]. apply reads_require; [rewrite length_fmap; lia|].
    rewrite <- Hbl. rewrite <- (length_fmap u8). apply reads_slice.
  - eapply reads_bind; [apply reads_varint; unfold is_u; lia|]. cbv beta. simpl.
    by eapply (reads_bind _ _ []); [apply reads_ret|].
Qed.
End fields.

(** * Round trips *)

Definition value_ok (writer : FieldValue → enc) (reader : dec FieldValue) (v : FieldValue) : Prop :=
  ∃ bs, writer v = Ok bs ∧ reads reader bs v.

Lemma element_round_trip is_nullable writer reader typed_v val :
  (∀ v, typed_v v → value_ok writer reader v) →
  typed_option is_nullable typed_v val →
  ∃ bs, encode_element_value is_nullable writer val = Ok bs
        ∧ reads (decode_element_value is_nullable reader) bs val.
Proof.
  intros Hv Ht. unfold encode_element_value, decode_element_value.
  destruct val as [v|]; simpl in Ht.
  - destruct (Hv v Ht) as (bs & He & Hr). rewrite He. destruct is_nullable.
    + exists (put_u8 1 ++ bs). split; [done|]. apply reads_require; [simpl; lia|].
      apply (reads_bind _ _ (put_u8 _) _ _ _ (reads_u8 _)). rewrite u8_to_Z_u8.
      simpl. by eapply reads_bind_nil.
    + exists bs. split; [done|]. by eapply reads_bind_nil.
  - subst. exists (put_u8 0). split; [done|]. apply reads_require; [simpl; lia|].
    eapply reads_bind_nil; [apply reads_u8|]. by rewrite u8_to_Z_u8.
Qed.

(** A counted sequence: its length as an [i32], then its elements. *)
Lemma counted_round_trip {A} (writer : A → enc) (reader : dec A) (l : list A) :
  (Z.of_nat (length l) < 2 ^ 31)%Z →
  Forall (λ x, ∃ bs, writer x = Ok bs ∧ reads reader bs x) l →
  ∃ encs, traverse writer l = Ok encs
    ∧ reads (E:=CodersError) get_i32 (put_i32 (to_signed 32 (Z.of_nat (length l)))) (Z.of_nat (length l))
    ∧ reads (read_n (Z.to_nat (Z.of_nat (length l))) reader) (concat encs) l.
Proof.
  intros Hl HF. apply traverse_Forall2 in HF as (encs & He & Hr).
  exists encs. split; [done|]. assert (is_i 32 (Z.of_nat (length l))) by (unfold is_i; lia).
  rewrite to_signed_id by (done || lia). split; [by apply reads_i32|].
  rewrite Nat2Z.id. by apply reads_n.
Qed.

Lemma reads_counted_bytes msg b :
  is_u 64 (Z.of_nat (length b)) → reads (decode_counted_bytes msg) (encode_length_delimited b) b.
Proof.
  intros Hb. eapply reads_bind; [by apply reads_varint|]. cbv beta.
  apply reads_require; [lia|]. apply reads_slice.
Qed.

Lemma reads_u32 {E} z : is_u 32 z → reads (E:=E) get_u32 (put_u32 z) z.
Proof.
  intros H rest. unfold get_u32, put_u32. rewrite reads_be.
  by rewrite Z.mod_small by (unfold is_u in H; lia).
Qed.

(** Skip the length check in front of a fixed-width read. *)
Lemma reads_fixed {A B} n msg (r : dec A) (f : A → B) enc a :
  (n ≤ Z.of_nat (length enc))%Z → reads r enc a →
  reads (_ ← require n msg; v ← r; mret (f v)) enc (f a).
Proof. intros Hn Hr. apply reads_require; [done|]. by eapply reads_bind_nil. Qed.

Lemma atom_round_trip k :
  match k with
  | KArray _ | KIterable _ | KMap _ _ | KRow _ | KLogical _ _ => True
  | _ => wf_kind k → ∀ v, typed_kind k v → value_ok (encode_kind k) (decode_kind k) v
  end.
Proof.
  unfold value_ok.
  destruct k; try done; intros _ [] Ht; try done; cbn [encode_kind decode_kind typed_kind] in *;
    (eexists; split; [reflexivity|]).
  - apply reads_fixed; [apply Z.eq_le_incl; symmetry; exact (f_equal Z.of_nat (be_bytes_length _ _))|by apply reads_i8].
  - apply reads_fixed; [apply Z.eq_le_incl; symmetry; exact (f_equal Z.of_nat (be_bytes_length _ _))|by apply reads_i16].
  - eapply reads_bind_nil; [apply reads_signed_varint; unfold is_i in *; lia|].
    by rewrite to_signed_id.
  - eapply reads_bind_nil; [by apply reads_signed_varint|done].
  - apply reads_fixed; [apply Z.eq_le_incl; symmetry; exact (f_equal Z.of_nat (be_bytes_length _ _))|by apply reads_u32].
  - apply reads_fixed; [apply Z.eq_le_incl; symmetry; exact (f_equal Z.of_nat (be_bytes_length _ _))|by apply reads_u64].
  - destruct Ht. eapply reads_bind_nil; [by apply reads_counted_bytes|].
    by rewrite from_utf8_as_bytes.
  - apply reads_require; [simpl; lia|]. eapply reads_bind_nil; [apply reads_u8|].
    rewrite u8_to_Z_u8. by destruct b.
  - eapply reads_bind_nil; [by apply reads_counted_bytes|done].
Qed.

Definition type_rt (ft : BeamFieldType) : Prop :=
  wf_type ft → ∀ v, typed_value ft v → value_ok (encode_field_value ft) (decode_field_value ft) v.
Definition kind_rt (k : BeamTypeKind) : Prop :=
  wf_kind k → ∀ v, typed_kind k v → value_ok (encode_kind k) (decode_kind k) v.
Definition schema_rt (s : BeamSchema) : Prop :=
  wf_schema s → ∀ row, typed_row s row →
  ∃ bs, encode_row s row = Ok bs ∧ reads (decode_row s) bs row.

Lemma elements_round_trip e items :
  type_rt e → wf_type e → all1 (typed_option (nullable e) (typed_value e)) items →
  Forall (λ x, ∃ bs, encode_element_value (nullable e) (encode_field_value e) x = Ok bs
     ∧ reads (decode_element_value (nullable e) (decode_field_value e)) bs x) items.
Proof.
  intros He Hw Ht. apply all1_Forall in Ht. eapply Forall_impl; [done|]. intros x Hx.
  eapply element_round_trip; [|done]. by apply He.
Qed.

Lemma entries_round_trip k v entries :
  type_rt k → type_rt v → wf_type k → wf_type v →
  all1 (λ '(a, b), typed_option (nullable k) (typed_value k) a
                   ∧ typed_option (nullable v) (typed_value v) b) entries →
  Forall (λ x, ∃ bs,
    (let '(a, b) := x in
     kb ← encode_element_value (nullable k) (encode_field_value k) a;
     vb ← encode_element_value (nullable v) (encode_field_value v) b;
     Ok (kb ++ vb)) = Ok bs
    ∧ reads (a ← decode_element_value (nullable k) (decode_field_value k);
             b ← decode_element_value (nullable v) (decode_field_value v);
             mret (a, b)) bs x) entries.
Proof.
  intros Hk Hv Hwk Hwv Ht. apply all1_Forall in Ht. eapply Forall_impl; [done|].
  intros [a b] [Ha Hb].
  destruct (element_round_trip (nullable k) (encode_field_value k) (decode_field_value k) _ a
              (Hk Hwk) Ha) as (ea & Hea & Hra).
  destruct (element_round_trip (nullable v) (encode_field_value v) (decode_field_value v) _ b
              (Hv Hwv) Hb) as (eb & Heb & Hrb).
  exists (ea ++ eb). split; [by rewrite Hea; cbn; rewrite Heb|].
  eapply reads_bind; [done|]. by eapply reads_bind_nil.
Qed.

Lemma kind_round_trip_array e : type_rt e → kind_rt (KArray e).
Proof.
  intros He Hw [] Ht; try done. destruct Ht as [Hl Ht].
  destruct (counted_round_trip _ _ _ Hl (elements_round_trip e items He Hw Ht)) as (encs & Hen & Hi & Hr).
  eexists. split; [cbn [encode_kind]; by rewrite Hen|]. cbn [decode_kind].
  apply reads_require; [rewrite length_app, put_i32_length; lia|].
  eapply reads_bind; [done|]. cbv beta.
  destruct (Z.ltb_spec (Z.of_nat (length items)) 0); [lia|]. by eapply reads_bind_nil.
Qed.

Lemma kind_round_trip_iterable e : type_rt e → kind_rt (KIterable e).
Proof.
  intros He Hw [] Ht; try done. destruct Ht as [Hl Ht].
  destruct (counted_round_trip _ _ _ Hl (elements_round_trip e items He Hw Ht)) as (encs & Hen & Hi & Hr).
  eexists. split; [cbn [encode_kind]; by rewrite Hen|]. cbn [decode_kind].
  apply reads_require; [rewrite length_app, put_i32_length; lia|].
  eapply reads_bind; [done|]. cbv beta.
  destruct (Z.leb_spec 0 (Z.of_nat (length items))); [|lia]. by eapply reads_bind_nil.
Qed.

Lemma kind_round_trip_map k v : type_rt k → type_rt v → kind_rt (KMap k v).
Proof.
  intros Hk Hv [Hwk Hwv] [] Ht; try done. destruct Ht as [Hl Ht].
  destruct (counted_round_trip _ _ _ Hl (entries_round_trip k v entries Hk Hv Hwk Hwv Ht))
    as (encs & Hen & Hi & Hr).
  eexists. split; [cbn [encode_kind]; by rewrite Hen|]. cbn [decode_kind].
  apply reads_require; [rewrite length_app, put_i32_length; lia|].
  eapply reads_bind; [done|]. cbv beta.
  destruct (Z.ltb_spec (Z.of_nat (length entries)) 0); [lia|]. by eapply reads_bind_nil.
Qed.

Lemma schema_round_trip_fields i fs o : Forall (λ f, type_rt (field_type f)) fs → schema_rt (mkSchema i fs o).
Proof.
  intros HF (Ho & Hw) row [Hmax Ht]. cbn [encode_row decode_row].
  apply fields_round_trip; [|by rewrite length_map..].
  apply all1_Forall in Hw. apply all2_Forall2 in Ht. clear Ho Hmax.
  induction Ht as [|[n t p] val fs row Hv _ IH]; simpl; [constructor|].
  inversion_clear HF as [|? ? Hf HF']. inversion_clear Hw as [|? ? Hwt Hw'].
  constructor; [|by apply IH]. split; [done|]. simpl.
  destruct val as [v|]; [|done]. by apply Hf.
Qed.

(** Every schema the runner resolves carries every row of it. *)
Lemma row_round_trip s : schema_rt s.
Proof.
  apply (schema_ind type_rt kind_rt schema_rt).
  - intros n k Hk Hw v Ht. by apply Hk.
  - apply atom_round_trip.
  - apply kind_round_trip_array.
  - apply kind_round_trip_iterable.
  - apply kind_round_trip_map.
  - intros s' Hs Hw [] Ht; try done. destruct (Hs Hw _ Ht) as (bs & He & Hr).
    exists bs. split; [done|]. by eapply reads_bind_nil.
  - intros u r Hr Hw [] Ht; try done. destruct (Hr Hw _ Ht) as (bs & He & Hrd).
    exists bs. split; [done|]. by eapply reads_bind_nil.
  - apply schema_round_trip_fields.
Qed.
End rows.

(** * Schemas as the pipeline declares them *)

(** The proto [FieldType], [Schema] and [Field]: every sub-message is optional on
    the wire; an atomic type is its enum number. *)
Inductive ProtoFieldType : Type :=
| mkProtoType (p_nullable : bool) (type_info : option TypeInfo)
with TypeInfo : Type :=
| AtomicType (number : Z)
| ArrayType (element_type : option ProtoFieldType)
| IterableType (element_type : option ProtoFieldType)
| MapType (key_type value_type : option ProtoFieldType)
| RowType (schema : option ProtoSchema)
| LogicalType (urn : string) (representation : option ProtoFieldType)
with ProtoSchema : Type :=
| mkProtoSchema (id : string) (fields : list ProtoField) (encoding_positions_set : bool)
with ProtoField : Type :=
| mkProtoField (name : string) (type : option ProtoFieldType) (encoding_position : Z).

(** [AtomicType::try_from]; [None] stands for [Unspecified] and unknown numbers. *)
Definition resolve_atomic (number : Z) : option BeamTypeKind :=
  match number with
  | 1 => Some KByte | 2 => Some KInt16 | 3 => Some KInt32 | 4 => Some KInt64
  | 5 => Some KFloat | 6 => Some KDouble | 7 => Some KString | 8 => Some KBoolean
  | 9 => Some KBytes | _ => None
  end%Z.

(** The encoding order of a list of fields. *)
Definition resolve_order (positions_set : bool) (fields : list BeamField) : list nat :=
  if positions_set
  then snd <$> sort_by_key fst (imap (λ idx f, (encoding_position f, idx)) fields)
  else seq 0 (length fields).

Definition missing {A} (msg : string) (m : option A) : outcome CodersError A :=
  match m with Some a => Ok a | None => Err (WhileDecoding msg) end.

Fixpoint resolve_field_type (ft : ProtoFieldType) : outcome CodersError BeamFieldType :=
  match ft with
  | mkProtoType n None => Err (WhileDecoding "FieldType is missing type_info oneof")
  | mkProtoType n (Some info) => kind ← resolve_type_info info; Ok (mkFieldType n kind)
  end
with resolve_type_info (info : TypeInfo) : outcome CodersError BeamTypeKind :=
  match info with
  | AtomicType number =>
      match resolve_atomic number with
      | Some k => Ok k
      | None => Err (WhileDecoding "AtomicType is Unspecified")
      end
  | ArrayType None => Err (WhileDecoding "ArrayType is missing element_type")
  | ArrayType (Some e) => t ← resolve_field_type e; Ok (KArray t)
  | IterableType None => Err (WhileDecoding "IterableType is missing element_type")
  | IterableType (Some e) => t ← resolve_field_type e; Ok (KIterable t)
  | MapType None _ => Err (WhileDecoding "MapType is missing key_type")
  | MapType _ None => Err (WhileDecoding "MapType is missing value_type")
  | MapType (Some k) (Some v) =>
      kt ← resolve_field_type k; vt ← resolve_field_type v; Ok (KMap kt vt)
  | RowType None => Err (WhileDecoding "RowType is missing schema")
  | RowType (Some s) => sub ← from_proto s; Ok (KRow sub)
  | LogicalType urn None => Err (WhileDecoding "LogicalType is missing its representation type")
  | LogicalType urn (Some r) => t ← resolve_field_type r; Ok (KLogical urn t)
  end
with from_proto (s : ProtoSchema) : outcome CodersError BeamSchema :=
  match s with
  | mkProtoSchema id fields positions_set =>
      fields ← traverse (λ f,
        match f with
        | mkProtoField _ None _ => Err (WhileDecoding "schema field is missing its type")
        | mkProtoField name (Some t) pos =>
            beam_type ← resolve_field_type t; Ok (mkField name beam_type pos)
        end) fields;
      Ok (mkSchema id fields (resolve_order positions_set fields))
  end.

(** ** The encoding order *)

Lemma resolve_order_wf set fields : wf_order (resolve_order set fields) (length fields).
Proof.
  unfold wf_order, resolve_order. destruct set; [|done].
  rewrite (fmap_Permutation snd _ _ (sort_by_key_perm fst _)).
  enough (snd <$> imap (λ idx f, (encoding_position f, idx)) fields = seq 0 (length fields)) as H
    by (unfold fmap in H |- *; by rewrite H).
  apply list_eq. intros i.
  rewrite list_lookup_fmap, list_lookup_imap.
  destruct (fields !! i) as [f|] eqn:E; simpl.
  - symmetry. apply lookup_seq. split; [done|]. by eapply lookup_lt_Some.
  - symmetry. apply lookup_ge_None. rewrite length_seq. by apply lookup_ge_None.
Qed.

(** Order by key, then by index: what a stable sort by key produces. *)
Definition key_index_lt (a b : Z * nat) : Prop := (a.1 < b.1)%Z ∨ a.1 = b.1 ∧ (a.2 < b.2)%nat.

Lemma insert_by_key_sorted x l :
  StronglySorted key_index_lt l → Forall (λ y, x.2 < y.2)%nat l →
  StronglySorted key_index_lt (insert_by_key fst x l).
Proof.
  unfold key_index_lt. induction 1 as [|y l Hs IH Hy]; intros Hx; simpl; [repeat constructor|].
  inversion_clear Hx as [|? ? Hxy Hx'].
  destruct (Z.leb_spec x.1 y.1).
  - constructor; [by constructor|]. constructor; [lia|].
    rewrite Forall_forall in *. intros z Hz. specialize (Hy z Hz). specialize (Hx' z Hz). simpl in *. lia.
  - constructor; [by apply IH|]. rewrite insert_by_key_perm. constructor; [lia|done].
Qed.

Lemma resolve_order_sorted fields :
  StronglySorted key_index_lt (sort_by_key fst (imap (λ idx f, (encoding_position f, idx)) fields)).
Proof.
  assert (H : ∀ (k : nat), StronglySorted key_index_lt
     (sort_by_key fst (imap (λ idx f, (encoding_position f, (k + idx)%nat)) fields))
     ∧ Forall (λ y, k ≤ y.2)%nat (imap (λ idx f, (encoding_position f, (k + idx)%nat)) fields)).
  { induction fields as [|f fields IH]; intros k; [split; constructor|].
    assert (Heq : imap (λ idx g, (encoding_position g, (k + idx)%nat)) (f :: fields)
       = (encoding_position f, k) :: imap (λ idx g, (encoding_position g, (S k + idx)%nat)) fields).
    { rewrite imap_cons, Nat.add_0_r. f_equal. apply imap_ext. intros i g _. simpl. f_equal; lia. }
    rewrite Heq. destruct (IH (S k)) as [Hs Hf]. split.
    - simpl. apply insert_by_key_sorted; [done|]. rewrite sort_by_key_perm. eapply Forall_impl; [done|].
      intros y Hy. simpl in *. lia.
    - constructor; [simpl; lia|]. eapply Forall_impl; [done|]. intros y Hy. simpl in *. lia. }
  exact (proj1 (H 0%nat)).
Qed.

(** ** Resolution gives well-formed schemas *)

Lemma from_proto_wf : ∀ p s, from_proto p = Ok s → wf_schema s.
Proof.
  fix IHs 1 with
    (IHt (ft : ProtoFieldType) {struct ft} : ∀ t, resolve_field_type ft = Ok t → wf_type t)
    (IHk (info : TypeInfo) {struct info} : ∀ k, resolve_type_info info = Ok k → wf_kind k).
  + intros [id fields set] s H. simpl in H. inv_bind H. injection H as <-.
    split; [apply resolve_order_wf|]. revert a E.
    induction fields as [|[name [t|] pos] fields IHf]; intros a E; simpl in E; [by simplify_eq| |done].
    destruct (resolve_field_type t) as [bt| |] eqn:Et; try done. simpl in E.
    inv_bind E. injection E as <-. split; [by apply (IHt t)|by apply IHf].
  + intros ft t H. destruct ft as [n [info|]]; [|done]. simpl in H. inv_bind H. injection H as <-.
    by apply (IHk info).
  + intros info k H. destruct info as [num|[e|]|[e|]|[kt|] [vt|]|[s|]|urn [r|]]; simpl in H; try done.
    * unfold resolve_atomic in H. by repeat case_match; simplify_eq.
    * inv_bind H. injection H as <-. by apply (IHt e).
    * inv_bind H. injection H as <-. by apply (IHt e).
    * inv_bind H. inv_bind H. injection H as <-. split; [by apply (IHt kt)|by apply (IHt vt)].
    * inv_bind H. injection H as <-. by apply (IHs s).
    * inv_bind H. injection H as <-. by apply (IHt r).
Qed.
