(* ===== verification/CoderProperties.v ===== *)
(** Properties of the coders: round trips of the standard coders, of windowed values, timers
    and rows, the types of what is decoded, the choice of coders from the graph. *)
From S2P Require Import Prelude Bytes Varint Windows Coders CoderTypes CoderGraph Rows.
(** * Elements *)

(** C17: every standard coder round-trips every record of its type, nested to any
    depth: encoding succeeds, and decoding from the front of any buffer that starts
    with the encoding returns the record and consumes exactly the encoding.  This
    holds in both build profiles. *)
Theorem coder_round_trip {P : Profile} c r :
  typed c r → ∃ bs, encode c r = Ok bs ∧ ∀ rest, decode c (bs ++ rest) = Ok (r, rest).
Proof. apply typed_carries. Qed.

Definition demo_coder : StandardBeamCoders :=
  KvCoder StringUtf8Coder (IterableCoder (NullableCoder (TupleCoder [VarIntCoder; BoolCoder]))).
Definition demo_record : BeamRecord :=
  KV (PString "k") (ITERABLE [TUPLE [PInt64 (-3); PBool true]; PRIMITIVE PVoid]).

Lemma coder_round_trip_witness :
  ∃ bs, encode (P:=debug_profile) demo_coder demo_record = Ok bs
    ∧ ∀ rest, decode (P:=debug_profile) demo_coder (bs ++ rest) = Ok (demo_record, rest).
Proof.
  apply (coder_round_trip (P:=debug_profile) demo_coder demo_record).
  split; [split; [reflexivity|vm_compute; split; congruence]|].
  split; [vm_compute; reflexivity|]. split; [split; [vm_compute; split; congruence|split; done]|]. by split.
Defined.

(** C28: decoding is well typed: whatever bytes a coder is given, nested or as a whole
    element, what it reads is a record of the coder's type, taken from the front of the
    buffer; and the same coder can encode the record again, unless it holds an iterable
    too long for a 32-bit count.  So a stage never meets a record of the wrong variant
    on an edge whose coder it knows. *)
Theorem decoded_is_typed {P : Profile} c bs r rest :
  decode_nested c bs = Ok (r, rest) ∨ decode_element c bs = Ok (r, rest) →
  has_type c r ∧ (∃ consumed, bs = consumed ++ rest)
  ∧ ((∃ enc, encode c r = Ok enc) ∨ encode c r = Panic "IterableCoder length exceeds i32::MAX").
Proof.
  intros H. assert (Ht : has_type c r ∧ ∃ consumed, bs = consumed ++ rest)
    by (destruct H as [H|H]; [by apply yields_nested in H|by apply yields_element in H]).
  destruct Ht as [Ht Hp]. split_and!; [done|done|]. by apply encode_typed.
Qed.

Lemma decoded_is_typed_witness :
  has_type (P:=release_profile) (KvCoder BytesCoder VarIntCoder) (KV (PBytes [u8 7]) (PRIMITIVE (PInt64 5)))
  ∧ (∃ consumed, [u8 1; u8 7; u8 5; u8 9] = consumed ++ [u8 9])
  ∧ ((∃ enc, encode (P:=release_profile) (KvCoder BytesCoder VarIntCoder) (KV (PBytes [u8 7]) (PRIMITIVE (PInt64 5))) = Ok enc)
     ∨ encode (P:=release_profile) (KvCoder BytesCoder VarIntCoder) (KV (PBytes [u8 7]) (PRIMITIVE (PInt64 5)))
       = Panic "IterableCoder length exceeds i32::MAX").
Proof. apply (decoded_is_typed (P:=release_profile)). left. by vm_compute. Defined.

(** The unknown-length form of an iterable decodes to the same list as the
    counted form: a [-1] count, chunks of any sizes and a closing zero give the
    concatenation of the chunks, for any element reader that reads its elements. *)
Theorem chunked_iterable_decodes {P : Profile} (element : dec BeamRecord) (chunks : list (list bytes)) xss :
  Forall2 (Forall2 (reads element)) chunks xss →
  Forall (λ c, (0 < length c)%nat ∧ is_u 64 (Z.of_nat (length c))) chunks →
  ∀ rest, decode_iterable element
    (put_i32 (-1) ++ concat (encode_chunk <$> chunks) ++ encode_varint 0 ++ rest) = Ok (concat xss, rest).
Proof.
  intros H1 H2 rest. pose proof (reads_iterable_chunked element chunks xss H1 H2 rest) as H.
  by rewrite <- !app_assoc in H.
Qed.

Lemma chunked_iterable_decodes_witness :
  decode_iterable (P:=release_profile) (decode (P:=release_profile) BoolCoder)
    (put_i32 (-1) ++ concat (encode_chunk <$> [[put_u8 1; put_u8 0]; [put_u8 1]]) ++ encode_varint 0 ++ [])
  = Ok ([PRIMITIVE (PBool true); PRIMITIVE (PBool false); PRIMITIVE (PBool true)], []).
Proof.
  apply (chunked_iterable_decodes (P:=release_profile) (decode (P:=release_profile) BoolCoder)
    [[put_u8 1; put_u8 0]; [put_u8 1]]
    [[PRIMITIVE (PBool true); PRIMITIVE (PBool false)]; [PRIMITIVE (PBool true)]]).
  - repeat constructor; intros rest; vm_compute; reflexivity.
  - repeat constructor; vm_compute; congruence.
Defined.

(** C18: a windowed element survives the data plane: with metadata in range and
    windows of the coder's kind, framing and value are encoded, and decoding
    returns the element with its timestamp, windows and pane and consumes exactly
    the encoding. *)
Theorem windowed_value_round_trip {P : Profile} c v :
  wf_frame (wv_timestamp_millis v) (wv_windows v) (wv_pane v) →
  Forall (window_fits (wvc_window_coder c)) (wv_windows v) →
  typed (wvc_element_coder c) (wv_value v) →
  ∃ bs, encode_windowed_value c v = Ok bs ∧ ∀ rest, decode_windowed_value c (bs ++ rest) = Ok (v, rest).
Proof.
  intros Hf Hw Ht. destruct (encode_windows_total (E:=CodersError) _ _ Hw) as [ws Hws].
  destruct (typed_carries _ _ Ht) as (vb & Hvb & _).
  assert (∃ bs, encode_windowed_value c v = Ok bs) as [bs Hbs].
  { unfold encode_windowed_value, encode_windowed_value_header. rewrite Hws. cbn. rewrite Hvb. by eexists. }
  exists bs. split; [done|]. intros rest. by apply (reads_windowed_value c v bs).
Qed.

Definition demo_element : WindowedValue :=
  mkWindowedValue (PRIMITIVE (PBytes [Byte.x01])) (-5) [IntervalWindow 0 10; IntervalWindow 5 15]
    (mkPane true false OnTime 2 1).
Definition demo_element_coder : WindowedValueCoder := mkWindowedValueCoder BytesCoder IntervalCoder.

Lemma windowed_value_round_trip_witness :
  ∃ bs, encode_windowed_value (P:=debug_profile) demo_element_coder demo_element = Ok bs
    ∧ ∀ rest, decode_windowed_value (P:=debug_profile) demo_element_coder (bs ++ rest) = Ok (demo_element, rest).
Proof.
  apply (windowed_value_round_trip (P:=debug_profile)).
  - split; [vm_compute; split; congruence|]. split; [repeat constructor; vm_compute; congruence|].
    split; [reflexivity|]. split; vm_compute; split; congruence.
  - repeat constructor; vm_compute; congruence.
  - vm_compute. split; congruence.
Defined.

(** A user timer survives the wire: decoding returns the key, tag, windows and
    clear flag, and for a timer that is set also the fire and hold timestamps and
    the pane; a cleared timer carries none of those and reads back with zeros. *)
Theorem timer_round_trip {P : Profile} c t key :
  typed (tc_key_coder c) key → encode (tc_key_coder c) key = Ok (user_key t) →
  wf_string (tag t) → is_u 64 (str_len (tag t)) →
  wf_frame (fire_timestamp t) (timer_windows t) (timer_pane t) → is_i 64 (hold_timestamp t) →
  Forall (window_fits (tc_window_coder c)) (timer_windows t) →
  ∃ bs, encode_timer c t = Ok bs ∧ ∀ rest, decode_timer c (bs ++ rest) = Ok (normalize_timer t, rest).
Proof.
  intros Hk Hek Htag Hlen Hf Hh Hw. destruct (encode_windows_total (E:=CodersError) _ _ Hw) as [ws Hws].
  assert (∃ bs, encode_timer c t = Ok bs) as [bs Hbs] by (unfold encode_timer; rewrite Hws; by eexists).
  exists bs. split; [done|]. intros rest. by apply (reads_timer c t key bs).
Qed.

Definition demo_timer : Timer :=
  mkTimer [Byte.x02] "" [GlobalWindow] false 100 90 no_firing.

Lemma timer_round_trip_witness :
  ∃ bs, encode_timer (P:=release_profile) (mkTimerCoder VarIntCoder GlobalCoder) demo_timer = Ok bs
    ∧ ∀ rest, decode_timer (P:=release_profile) (mkTimerCoder VarIntCoder GlobalCoder) (bs ++ rest)
        = Ok (normalize_timer demo_timer, rest).
Proof.
  apply (timer_round_trip (P:=release_profile) _ _ (PRIMITIVE (PInt64 2))).
  - vm_compute. split; congruence.
  - vm_compute. reflexivity.
  - reflexivity.
  - vm_compute. split; congruence.
  - split; [vm_compute; split; congruence|]. split; [repeat constructor|]. split; [reflexivity|].
    split; vm_compute; split; congruence.
  - vm_compute. split; congruence.
  - repeat constructor.
Defined.

(** Binary window keys are a faithful, ordered index: a window's key decodes to
    the window, a decodable key is the key of what it decodes to, and the keys of
    interval windows sort by start and then end. *)
Theorem window_key_faithful :
  (∀ w key, wf_window w → to_binary_key (E:=string) w = Ok key → from_binary_key key = Some w)
  ∧ (∀ key w, from_binary_key key = Some w → to_binary_key (E:=string) w = Ok key)
  ∧ ∀ s1 e1 s2 e2 k1 k2,
      is_i 64 s1 → is_i 64 e1 → is_i 64 s2 → is_i 64 e2 →
      to_binary_key (E:=string) (IntervalWindow s1 e1) = Ok k1 →
      to_binary_key (E:=string) (IntervalWindow s2 e2) = Ok k2 →
      bytes_compare k1 k2 = match (s1 ?= s2)%Z with Eq => (e1 ?= e2)%Z | c => c end.
Proof.
  split_and!; [apply from_to_binary_key|apply to_from_binary_key|apply interval_key_compare].
Qed.

Lemma window_key_faithful_witness :
  ∃ key, to_binary_key (E:=string) (IntervalWindow (-7) 9) = Ok key
    ∧ from_binary_key key = Some (IntervalWindow (-7) 9).
Proof.
  eexists. split; [reflexivity|].
  apply (proj1 window_key_faithful); [vm_compute; repeat split; congruence|reflexivity].
Defined.

(** Variable-length integers: every [u64] takes one to ten bytes and every
    [i64], negative ones included, reads back as itself from the front of any
    buffer; a successful read always consumes a byte. *)
Theorem varint_round_trip {P : Profile} :
  (∀ v, is_u 64 v → (1 ≤ length (encode_varint v) ≤ 10)%nat
     ∧ ∀ rest, decode_varint (E:=string) (encode_varint v ++ rest) = Ok (v, rest))
  ∧ (∀ v, is_i 64 v → ∀ rest,
       decode_signed_varint (E:=string) (encode_signed_varint v ++ rest) = Ok (v, rest))
  ∧ ∀ buf v rest, decode_varint (E:=string) buf = Ok (v, rest) → (length rest < length buf)%nat.
Proof.
  split_and!.
  - intros v Hv. split; [by apply encode_varint_length|by apply reads_varint].
  - intros v Hv. by apply reads_signed_varint.
  - intros buf v rest. apply decode_varint_consumes.
Qed.

Lemma varint_round_trip_witness :
  decode_signed_varint (P:=debug_profile) (E:=string) (encode_signed_varint (-1) ++ []) = Ok ((-1)%Z, []).
Proof. apply (varint_round_trip (P:=debug_profile)). vm_compute. split; congruence. Defined.

(** * The coder graph *)

(** Resolving a coder id terminates and succeeds on every acyclic graph of
    well-formed coders, and the depth allowed for the recursion does not matter
    once it exceeds the id's rank. *)
Theorem coder_resolution_total m rank id n n' :
  ranked m rank → (∀ i c, m !! i = Some c → wf_coder m i c) → is_Some (m !! id) →
  (rank id < n)%nat → (rank id < n')%nat →
  ∃ c, from_urn n id None (Some m) = Ok c ∧ from_urn n' id None (Some m) = Ok c.
Proof.
  intros Hr Hw Hid Hn Hn'. destruct (from_urn_total m rank n id Hr Hw Hid Hn) as [c Hc].
  exists c. split; [done|]. rewrite <- Hc. by apply (from_urn_adequate m rank).
Qed.

(** A key-value coder of a string and a pickled value. *)
Definition demo_coders : coders_map :=
  {["kv" := mkCoder (Some KV_CODER) ["s"; "p"];
    "s" := mkCoder (Some STRING_UTF8_CODER) [];
    "p" := mkCoder (Some PYTHON_PICKLE_CODER) []]}.

Definition demo_coder_rank (id : string) : nat := if decide (id = "kv") then 1 else 0.

Lemma demo_coders_ranked : ranked demo_coders demo_coder_rank.
Proof.
  apply (bool_decide_eq_true_1 (map_Forall (λ id c, default id (spec_urn c) ∉ leaf_urns →
    Forall (λ i, demo_coder_rank i < demo_coder_rank id)%nat (component_coder_ids c)) demo_coders)).
  vm_compute. reflexivity.
Qed.

Lemma demo_coders_wf : ∀ i c, demo_coders !! i = Some c → wf_coder demo_coders i c.
Proof.
  change (map_Forall (wf_coder demo_coders) demo_coders). unfold wf_coder.
  apply (bool_decide_eq_true_1 _). vm_compute. reflexivity.
Qed.

Lemma coder_resolution_total_witness :
  ∃ c, from_urn 2 "kv" None (Some demo_coders) = Ok c ∧ from_urn 9 "kv" None (Some demo_coders) = Ok c.
Proof.
  apply (coder_resolution_total demo_coders demo_coder_rank "kv" 2 9);
    [apply demo_coders_ranked|apply demo_coders_wf|by eexists|vm_compute; lia|vm_compute; lia].
Defined.

(** After [length_prefix_pickled_leaves] no boundary coder reads an opaque
    pickled leaf without a length prefix: every coder of the graph resolves, at the
    id the boundary uses for it, to a coder with no raw pickle at any depth, and
    rewriting again changes nothing. *)
Theorem pickled_leaves_prefixed m rank id n :
  lp_reserved m → ranked m rank → (∀ i c, m !! i = Some c → wf_coder m i c) →
  (∀ i c, m !! i = Some c → is_Some (spec_urn c)) → (∀ k, rank k < n)%nat → is_Some (m !! id) →
  let m' := length_prefix_pickled_leaves m in
  (∃ c, from_urn (S n) (resolve_length_prefixed_coder_id id m') None (Some m') = Ok c ∧ no_pickle c = true)
  ∧ length_prefix_pickled_leaves m' = m'.
Proof.
  intros Hlp Hr Hw Hs Hn Hid m'. split; [|by apply length_prefix_idem].
  by apply (resolve_rewritten m Hlp rank Hr Hw Hs id n).
Qed.

Lemma pickled_leaves_prefixed_witness :
  let m' := length_prefix_pickled_leaves demo_coders in
  (∃ c, from_urn 3 (resolve_length_prefixed_coder_id "kv" m') None (Some m') = Ok c ∧ no_pickle c = true)
  ∧ length_prefix_pickled_leaves m' = m'.
Proof.
  apply (pickled_leaves_prefixed demo_coders demo_coder_rank "kv" 2).
  - intros id c Hc. exfalso. apply elem_of_dom_2 in Hc.
    assert (Hs : (String.length (length_prefixed_coder_id id) ≤ 2)%nat).
    { revert Hc. generalize (length_prefixed_coder_id id).
      apply (bool_decide_eq_true_1 (set_Forall (λ k, String.length k ≤ 2)%nat (dom demo_coders))).
      vm_compute. reflexivity. }
    unfold length_prefixed_coder_id in Hs. rewrite string_length_app in Hs. simpl in Hs. lia.
  - apply demo_coders_ranked.
  - apply demo_coders_wf.
  - apply (bool_decide_eq_true_1 (map_Forall (λ _ c, is_Some (spec_urn c)) demo_coders)).
    vm_compute. reflexivity.
  - intros k. unfold demo_coder_rank. case_decide; lia.
  - by eexists.
Defined.

(** C19: rows round-trip under every schema a pipeline can declare: when a schema
    proto resolves, every row of it, with nulls in any nullable field, nested rows,
    arrays, maps and logical types, encodes, and decoding from the front of any
    buffer returns it and consumes exactly the encoding, also when the wire order
    of the fields differs from the schema's. *)
Theorem declared_row_round_trip {P : Profile} p s row :
  from_proto p = Ok s → typed_row s row →
  ∃ bs, encode_row s row = Ok bs ∧ ∀ rest, decode_row s (bs ++ rest) = Ok (row, rest).
Proof. intros Hp Ht. apply (row_round_trip s); [by eapply from_proto_wf|done]. Qed.

Definition demo_proto : ProtoSchema :=
  mkProtoSchema "s"
    [mkProtoField "a" (Some (mkProtoType true (Some (AtomicType 7)))) 1;
     mkProtoField "b" (Some (mkProtoType false (Some (ArrayType (Some (mkProtoType true (Some (AtomicType 4)))))))) 0]
    true.

Definition demo_row : BeamRow := [None; Some (VArray [Some (VInt64 (-1)); None])].

Lemma declared_row_round_trip_witness :
  ∃ s bs, from_proto demo_proto = Ok s ∧ encode_row s demo_row = Ok bs
    ∧ decode_row (P:=debug_profile) s (bs ++ []) = Ok (demo_row, []).
Proof.
  destruct (from_proto demo_proto) as [s| |] eqn:E; [|vm_compute in E; discriminate E..].
  destruct (declared_row_round_trip (P:=debug_profile) demo_proto s demo_row E) as (bs & He & Hd).
  - vm_compute in E. injection E as <-. vm_compute. repeat split; congruence.
  - exists s, bs. split; [done|]. split; [exact He|apply Hd].
Defined.

(** The wire order of a resolved schema is a permutation of its fields; with
    encoding positions set it is the stable order by position (ties by field
    index), otherwise the declaration order. *)
Theorem wire_order_is_stable fields :
  (∀ set, resolve_order set fields ≡ₚ seq 0 (length fields))
  ∧ resolve_order false fields = seq 0 (length fields)
  ∧ StronglySorted (λ i j, ∃ f g, fields !! i = Some f ∧ fields !! j = Some g
      ∧ (encoding_position f < encoding_position g ∨ encoding_position f = encoding_position g ∧ Z.of_nat i < Z.of_nat j)%Z)
      (resolve_order true fields).
Proof.
  split_and!; [intros set; apply resolve_order_wf|done|]. unfold resolve_order.
  pose proof (resolve_order_sorted fields) as Hs.
  assert (Hin : Forall (λ p, ∃ f, fields !! p.2 = Some f ∧ p.1 = encoding_position f)
    (sort_by_key fst (imap (λ idx f, (encoding_position f, idx)) fields))).
  { rewrite sort_by_key_perm. apply Forall_forall. intros p Hp. apply elem_of_lookup_imap in Hp as (i & f & -> & Hf).
    by exists f. }
  induction Hs as [|p l Hs IH Hp]; [constructor|]. inversion_clear Hin as [|? ? (f & Hf & Ef) Hin'].
  rewrite fmap_cons. constructor; [by apply IH|]. apply Forall_fmap.
  rewrite Forall_forall in Hp, Hin' |- *. intros q Hq. destruct (Hin' q Hq) as (g & Hg & Eg).
  specialize (Hp q Hq). exists f, g. split; [done|]. split; [done|]. unfold key_index_lt in Hp. rewrite Ef, Eg in Hp.
  destruct Hp as [?|[? ?]]; [by left|right; split; [done|lia]].
Qed.
