(* ===== verification/Arrow.v ===== *)
(** Records as Arrow columns (store/record.rs): the storage type of a record, the column of
    a list of records and the decoding of its rows.  The arrays and schemas of the arrow
    crates are data here; their checked constructors are a class of operations, with the
    arguments they are documented to accept as its laws. *)
From stdpp Require Import pretty.
From S2P Require Import Prelude Bytes Varint Windows Coders.
Local Open Scope string_scope.
Local Open Scope list_scope.

(** * Types, schemas and arrays of the arrow crates *)

(** A field of a schema, a struct or a list, of a type with children of type [T]. *)
Record Field (T : Type) : Type := mkArrowField {
  name_of : string;
  type_of : T;
  is_nullable : bool;
  metadata : gmap string string;
}.
Arguments mkArrowField {T} _ _ _ _.
Arguments name_of {T} _.
Arguments type_of {T} _.
Arguments is_nullable {T} _.
Arguments metadata {T} _.

(** [Field::new]. *)
Definition new_field {T} (name : string) (type : T) (nullable : bool) : Field T := mkArrowField name type nullable ∅.

Inductive TimeUnit : Type := Second | Millisecond | Microsecond | Nanosecond.

#[export] Instance TimeUnit_eq_dec : EqDecision TimeUnit.
Proof. solve_decision. Defined.

(** [ArrowDataType]; types that the code only passes on are [OtherType]. *)
Inductive ArrowDataType : Type :=
| Utf8 | LargeUtf8 | Utf8View
| Binary | LargeBinary | BinaryView
| Int8 | Int16 | Int32 | Int64 | Float32 | Float64 | Boolean | Null | Date32
| Timestamp (unit : TimeUnit) (timezone : option string)
| Time32 (unit : TimeUnit) | Time64 (unit : TimeUnit)
| Decimal128 (precision scale : Z)
| ListType (item : Field ArrowDataType)
| LargeListType (item : Field ArrowDataType)
| FixedSizeListType (item : Field ArrowDataType) (size : Z)
| StructType (fields : list (Field ArrowDataType))
| MapType (entries : Field ArrowDataType) (sorted : bool)
| OtherType (name : string).

Abbreviation ArrowField := (Field ArrowDataType).
Abbreviation Schema := (list ArrowField).

(** An array: the values of its rows, [None] where a row is null.  A nested array has its
    children and, if there is one, the buffer that says which of its rows are valid.  An
    [f64] is its bit pattern.  Integer offsets are 32 bits wide (64 in a large list). *)
Inductive Array : Type :=
| StringArray (data_type : ArrowDataType) (values : list (option string))
| BinaryArray (data_type : ArrowDataType) (values : list (option bytes))
| IntArray (data_type : ArrowDataType) (values : list (option Z))
| Float64Array (values : list (option Z))
| BooleanArray (values : list (option bool))
| NullArray (length : nat)
| ListArray (item : ArrowField) (offsets : list Z) (values : Array) (nulls : option (list bool))
| LargeListArray (item : ArrowField) (offsets : list Z) (values : Array) (nulls : option (list bool))
| FixedSizeListArray (item : ArrowField) (size : Z) (values : Array) (nulls : option (list bool))
| StructArray (fields : list ArrowField) (columns : list Array) (nulls : option (list bool))
| MapArray (entries : ArrowField) (offsets : list Z) (keyed : Array) (nulls : option (list bool)) (sorted : bool)
| OtherArray (name : string) (length : nat).

Definition data_type_of (a : Array) : ArrowDataType :=
  match a with
  | StringArray t _ | BinaryArray t _ | IntArray t _ => t
  | Float64Array _ => Float64
  | BooleanArray _ => Boolean
  | NullArray _ => Null
  | ListArray item _ _ _ => ListType item
  | LargeListArray item _ _ _ => LargeListType item
  | FixedSizeListArray item size _ _ => FixedSizeListType item size
  | StructArray fields _ _ => StructType fields
  | MapArray entries _ _ _ sorted => MapType entries sorted
  | OtherArray name _ => OtherType name
  end.

Fixpoint array_length (a : Array) : nat :=
  match a with
  | StringArray _ l => length l
  | BinaryArray _ l => length l
  | IntArray _ l | Float64Array l => length l
  | BooleanArray l => length l
  | NullArray n => n
  | ListArray _ offsets _ _ | LargeListArray _ offsets _ _ | MapArray _ offsets _ _ _ => length offsets - 1
  | FixedSizeListArray _ size values _ => array_length values / Z.to_nat size
  | StructArray _ columns nulls =>
      match nulls, columns with
      | Some valid, _ => length valid
      | None, column :: _ => array_length column
      | None, [] => 0
      end
  | OtherArray _ n => n
  end.

Definition invalid_at (nulls : option (list bool)) (row : nat) : bool :=
  match nulls with Some valid => match valid !! row with Some b => negb b | None => false end | None => false end.

(** [is_null]: what the validity buffer says; an array of [Null] type has none. *)
Definition is_null (a : Array) (row : nat) : bool :=
  match a with
  | StringArray _ l => match l !! row with Some None => true | _ => false end
  | BinaryArray _ l => match l !! row with Some None => true | _ => false end
  | IntArray _ l | Float64Array l => match l !! row with Some None => true | _ => false end
  | BooleanArray l => match l !! row with Some None => true | _ => false end
  | ListArray _ _ _ nulls | LargeListArray _ _ _ nulls | FixedSizeListArray _ _ _ nulls
  | StructArray _ _ nulls | MapArray _ _ _ nulls _ => invalid_at nulls row
  | NullArray _ | OtherArray _ _ => false
  end.

(** [value(row)] of an array that has no null there; it panics past the end. *)
Definition value_at {A} (l : list (option A)) (row : nat) (unset : A) : outcome string A :=
  match l !! row with
  | Some (Some v) => Ok v
  | Some None => Ok unset
  | None => Panic "index out of bounds"
  end.

(** A batch: its schema, a column per field and the number of rows. *)
Record RecordBatch : Type := mkBatch { rb_schema : Schema; rb_columns : list Array; num_rows : nat }.

Fixpoint position_of (name : string) (schema : Schema) : option nat :=
  match schema with
  | [] => None
  | field :: schema => if decide (name_of field = name) then Some 0 else S <$> position_of name schema
  end.

Definition field_with_name (name : string) (schema : Schema) : option ArrowField :=
  position_of name schema ≫= (λ i, schema !! i).
Definition column_by_name (name : string) (batch : RecordBatch) : option Array :=
  position_of name (rb_schema batch) ≫= (λ i, rb_columns batch !! i).

(** The constructors that check their arguments: of a list array (which panics) and of a
    struct array and a batch (which return an error). *)
Class Arrow : Type := {
  list_array_new : ArrowField → list Z → Array → option (list bool) → outcome string Array;
  large_list_array_new : ArrowField → list Z → Array → option (list bool) → outcome string Array;
  fixed_size_list_array_new : ArrowField → Z → Array → option (list bool) → outcome string Array;
  struct_array_try_new : list ArrowField → list Array → option (list bool) → outcome string Array;
  map_array_new : ArrowField → list Z → Array → option (list bool) → bool → outcome string Array;
  record_batch_try_new : Schema → list Array → outcome string RecordBatch;
}.

Definition has_nulls (a : Array) : bool := existsb (is_null a) (seq 0 (array_length a)).

(** Arrays that can be the columns of the fields: of their types and one length, and
    without nulls where the field is not nullable. *)
Definition columns_fit (n : nat) (fields : list ArrowField) (columns : list Array) : Prop :=
  Forall2 (λ f a, data_type_of a = type_of f ∧ array_length a = n ∧ (is_nullable f = false → has_nulls a = false)) fields columns.

(** Offsets into [n] values. *)
Definition offsets_fit (n : nat) (offsets : list Z) : Prop :=
  offsets ≠ [] ∧ StronglySorted Z.le offsets ∧ Forall (λ o, 0 ≤ o ≤ Z.of_nat n)%Z offsets.

Class ArrowLaws `{Arrow} : Prop := {
  list_array_fits item offsets values :
    data_type_of values = type_of item → type_of item ≠ Null →
    (is_nullable item = false → has_nulls values = false) → offsets_fit (array_length values) offsets →
    list_array_new item offsets values None = Ok (ListArray item offsets values None);
  struct_array_fits n fields columns :
    fields ≠ [] → Forall (λ f, is_nullable f = true) fields → columns_fit n fields columns →
    struct_array_try_new fields columns None = Ok (StructArray fields columns None);
  record_batch_fits n schema columns :
    schema ≠ [] → columns_fit n schema columns → record_batch_try_new schema columns = Ok (mkBatch schema columns n);
}.

(** * Table schemas *)

Definition KEY_COLUMN : string := "key".
Definition VALUE_COLUMN : string := "value".

Inductive TableType : Type := TPrimitive | TIterable | TKv | TGbk | TTuple | TRow.

#[export] Instance TableType_eq_dec : EqDecision TableType.
Proof. solve_decision. Defined.

Definition table_type_as_str (t : TableType) : string :=
  match t with
  | TPrimitive => "primitive" | TIterable => "iterable" | TKv => "kv" | TGbk => "gbk" | TTuple => "tuple" | TRow => "row"
  end.

Definition table_type_from_str (value : string) : outcome string TableType :=
  if decide (value = "primitive") then Ok TPrimitive
  else if decide (value = "iterable") then Ok TIterable
  else if decide (value = "kv") then Ok TKv
  else if decide (value = "gbk") then Ok TGbk
  else if decide (value = "tuple") then Ok TTuple
  else if decide (value = "row") then Ok TRow
  else Err "unknown table type".

Definition table_type_of (record : BeamRecord) : TableType :=
  match record with
  | PRIMITIVE _ => TPrimitive
  | ITERABLE _ => TIterable
  | KV _ _ => TKv
  | GBK _ _ => TGbk
  | TUPLE _ => TTuple
  end.

Record RecordTableSchema : Type := mkTableSchema {
  table_type : TableType;
  arrow_schema : Schema;
  has_windowed_metadata : bool;
}.

(** * The storage type of a value *)

Definition primitive_data_type (value : PrimitiveValue) : ArrowDataType :=
  match value with
  | PString _ => Utf8
  | PBytes _ => Binary
  | PInt64 _ => Int64
  | PFloat64 _ => Float64
  | PBool _ => Boolean
  | PVoid => Null
  end.

Definition null_to_boolean (t : ArrowDataType) : ArrowDataType := match t with Null => Boolean | _ => t end.
Definition item_nullable (t : ArrowDataType) : bool := match t with Null | Boolean => true | _ => false end.
Definition item_field (t : ArrowDataType) : ArrowField := new_field "item" t (item_nullable t).

Definition tuple_component_data_type (value : PrimitiveValue) : ArrowDataType := null_to_boolean (primitive_data_type value).

(** [format!("f{index}")]. *)
Definition component_name (index : nat) : string := "f" +:+ pretty index.

Definition tuple_storage_type (values : list PrimitiveValue) : ArrowDataType :=
  StructType (imap (λ index value, new_field (component_name index) (tuple_component_data_type value) true) values).

(** [nested_value_storage_type] with [iterable_storage_type]. *)
Fixpoint nested_value_storage_type (record : BeamRecord) : outcome string ArrowDataType :=
  match record with
  | PRIMITIVE value => Ok (primitive_data_type value)
  | TUPLE values => Ok (tuple_storage_type values)
  | ITERABLE l =>
      item ← (match l with [] => Ok Binary | first :: _ => t ← nested_value_storage_type first; Ok (null_to_boolean t) end);
      Ok (ListType (item_field item))
  | KV key value =>
      t ← nested_value_storage_type value;
      Ok (StructType [new_field "key" (tuple_component_data_type key) true; new_field "value" (null_to_boolean t) true])
  | GBK _ _ => Err "unsupported nested value record type"
  end.

Definition iterable_element_data_type (record : BeamRecord) : outcome string ArrowDataType :=
  t ← nested_value_storage_type record; Ok (null_to_boolean t).

Fixpoint infer_iterable_item_data_type (iterables : list (list BeamRecord)) : outcome string ArrowDataType :=
  match iterables with
  | [] => Ok Binary
  | [] :: iterables => infer_iterable_item_data_type iterables
  | (first :: _) :: _ => iterable_element_data_type first
  end.

(** Equality of data types, as [==] decides it. *)
Fixpoint same_type (a b : ArrowDataType) : bool :=
  let same_field (f g : ArrowField) :=
    match f, g with
    | mkArrowField n t o m, mkArrowField n' t' o' m' =>
        bool_decide (n = n') && same_type t t' && bool_decide (o = o') && bool_decide (m = m')
    end in
  match a, b with
  | Utf8, Utf8 | LargeUtf8, LargeUtf8 | Utf8View, Utf8View | Binary, Binary | LargeBinary, LargeBinary
  | BinaryView, BinaryView | Int8, Int8 | Int16, Int16 | Int32, Int32 | Int64, Int64 | Float32, Float32
  | Float64, Float64 | Boolean, Boolean | Null, Null | Date32, Date32 => true
  | Timestamp u z, Timestamp u' z' => bool_decide (u = u') && bool_decide (z = z')
  | Time32 u, Time32 u' | Time64 u, Time64 u' => bool_decide (u = u')
  | Decimal128 p s, Decimal128 p' s' => bool_decide (p = p') && bool_decide (s = s')
  | ListType f, ListType g | LargeListType f, LargeListType g => same_field f g
  | FixedSizeListType f n, FixedSizeListType g k => same_field f g && bool_decide (n = k)
  | StructType fs, StructType gs =>
      (fix same_fields (fs gs : list ArrowField) : bool :=
         match fs, gs with
         | [], [] => true
         | f :: fs, g :: gs => same_field f g && same_fields fs gs
         | _, _ => false
         end) fs gs
  | MapType f s, MapType g s' => same_field f g && bool_decide (s = s')
  | OtherType n, OtherType k => bool_decide (n = k)
  | _, _ => false
  end.

(** * Records to arrays *)

Definition I32_MAX : Z := 2 ^ 31 - 1.

Fixpoint offsets_from (running : Z) (lengths : list nat) : outcome string (list Z) :=
  match lengths with
  | [] => Ok []
  | len :: lengths =>
      if (I32_MAX <? Z.of_nat len)%Z then Err "list length exceeds i32::MAX"
      else
        let running := (running + Z.of_nat len)%Z in
        if (I32_MAX <? running)%Z then Err "list offsets exceed i32::MAX"
        else offsets ← offsets_from running lengths; Ok (running :: offsets)
  end.
Definition build_offsets (lengths : list nat) : outcome string (list Z) :=
  offsets ← offsets_from 0 lengths; Ok (0%Z :: offsets).

Definition mixed_values {A} : outcome string A := Err "mixed primitive variants in batch".

Definition primitive_values_to_array (values : list PrimitiveValue) (t : ArrowDataType) : outcome string Array :=
  match t with
  | Utf8 => l ← traverse (λ v, match v with PString s => Ok (Some s) | _ => mixed_values end) values; Ok (StringArray Utf8 l)
  | Binary => l ← traverse (λ v, match v with PBytes b => Ok (Some b) | _ => mixed_values end) values; Ok (BinaryArray Binary l)
  | Int64 => l ← traverse (λ v, match v with PInt64 z => Ok (Some z) | _ => mixed_values end) values; Ok (IntArray Int64 l)
  | Boolean =>
      l ← traverse (λ v, match v with PBool b => Ok (Some b) | PVoid => Ok None | _ => mixed_values end) values;
      Ok (BooleanArray l)
  | Float64 => l ← traverse (λ v, match v with PFloat64 z => Ok (Some z) | _ => mixed_values end) values; Ok (Float64Array l)
  | Null => if forallb (λ v, bool_decide (v = PVoid)) values then Ok (NullArray (length values)) else mixed_values
  | _ => Err "unsupported primitive storage type"
  end.

Definition is_nested_kv_struct (fields : list ArrowField) : bool :=
  match fields with
  | [key; value] => bool_decide (name_of key = "key") && bool_decide (name_of value = "value")
  | _ => false
  end.

Definition primitive_of (record : BeamRecord) : outcome string PrimitiveValue :=
  match record with PRIMITIVE value => Ok value | _ => Err "expected primitive record" end.
Definition iterable_of (record : BeamRecord) : outcome string (list BeamRecord) :=
  match record with ITERABLE l => Ok l | _ => Err "expected iterable record" end.
Definition kv_of (record : BeamRecord) : outcome string (PrimitiveValue * BeamRecord) :=
  match record with KV key value => Ok (key, value) | _ => Err "expected kv record" end.
Definition gbk_of (record : BeamRecord) : outcome string (PrimitiveValue * list BeamRecord) :=
  match record with GBK key value => Ok (key, value) | _ => Err "expected gbk record" end.

(** The component of a tuple that goes to a column of a struct. *)
Definition component_of (index : nat) (record : BeamRecord) : outcome string PrimitiveValue :=
  match record with
  | TUPLE values =>
      match values !! index with Some value => Ok value | None => Err "tuple component count mismatch" end
  | _ => Err "expected tuple record"
  end.

Section arrays.
Context `{Arrow}.

(** [iterable_values_to_array]; [to_array] builds the child. *)
Definition list_column (to_array : list BeamRecord → outcome string Array) (iterables : list (list BeamRecord))
    (item : ArrowDataType) : outcome string Array :=
  offsets ← build_offsets (length <$> iterables);
  child ← to_array (concat iterables);
  list_array_new (item_field item) offsets child None.

Fixpoint nested_values_to_array (records : list BeamRecord) (t : ArrowDataType) {struct t} : outcome string Array :=
  match t with
  | StructType fields =>
      children ←
        (if is_nested_kv_struct fields then
           match fields with
           | [mkArrowField _ kt _ _; mkArrowField _ vt _ _] =>
               pairs ← traverse kv_of records;
               key_column ← primitive_values_to_array pairs.*1 kt;
               value_column ← nested_values_to_array pairs.*2 vt;
               Ok [key_column; value_column]
           | _ => Ok []
           end
         else
           traverse (λ '(index, field),
             values ← traverse (component_of index) records; primitive_values_to_array values (type_of field))
             (imap pair fields));
      struct_array_try_new fields children None
  | ListType (mkArrowField _ item _ _) =>
      iterables ← traverse iterable_of records;
      list_column (λ rs, nested_values_to_array rs item) iterables item
  | _ => values ← traverse primitive_of records; primitive_values_to_array values t
  end.

Definition iterable_values_to_array (iterables : list (list BeamRecord)) (item : ArrowDataType) : outcome string Array :=
  list_column (λ rs, nested_values_to_array rs item) iterables item.

(** * Arrays to records *)

Definition primitive_value_from_array_row (a : Array) (t : ArrowDataType) (row : nat) : outcome string PrimitiveValue :=
  if is_null a row then Ok PVoid
  else
    match t, a with
    | Utf8, StringArray Utf8 l | LargeUtf8, StringArray LargeUtf8 l | Utf8View, StringArray Utf8View l =>
        s ← value_at l row ""; Ok (PString s)
    | Binary, BinaryArray Binary l | LargeBinary, BinaryArray LargeBinary l | BinaryView, BinaryArray BinaryView l =>
        b ← value_at l row []; Ok (PBytes b)
    | Int64, IntArray Int64 l => z ← value_at l row 0%Z; Ok (PInt64 z)
    | Boolean, BooleanArray l => b ← value_at l row false; Ok (PBool b)
    | Float64, Float64Array l => z ← value_at l row 0%Z; Ok (PFloat64 z)
    | Null, _ => Ok PVoid
    | (Utf8 | LargeUtf8 | Utf8View | Binary | LargeBinary | BinaryView | Int64 | Boolean | Float64), _ =>
        Err "unexpected array for primitive column"
    | _, _ => Err "unsupported primitive storage type"
    end.

(** The rows of a list's values that belong to one of its rows. *)
Definition list_rows (offsets : list Z) (row : nat) : outcome string (list nat) :=
  match offsets !! row, offsets !! S row with
  | Some start, Some fin =>
      if (start <? 0)%Z || (fin <? 0)%Z then Err "negative list offset"
      else Ok (seq (Z.to_nat start) (Z.to_nat fin - Z.to_nat start))
  | _, _ => Panic "index out of bounds"
  end.

(** [nested_value_from_array_row] with [iterable_value_from_array_row]. *)
Fixpoint nested_value_from_array_row (a : Array) (t : ArrowDataType) (row : nat) {struct t} : outcome string BeamRecord :=
  match t with
  | StructType fields =>
      match a with
      | StructArray _ columns _ =>
          if is_nested_kv_struct fields then
            match fields, columns with
            | [mkArrowField _ kt _ _; mkArrowField _ vt _ _], key_column :: value_column :: _ =>
                key ← primitive_value_from_array_row key_column kt row;
                value ← nested_value_from_array_row value_column vt row;
                Ok (KV key value)
            | _, _ => Panic "index out of bounds"
            end
          else
            values ← traverse (λ '(index, field),
              match columns !! index with
              | Some column => primitive_value_from_array_row column (type_of field) row
              | None => Panic "index out of bounds"
              end) (imap pair fields);
            Ok (TUPLE values)
      | _ => Err "expected StructArray for tuple column"
      end
  | ListType (mkArrowField _ item _ _) =>
      if is_null a row then Ok (ITERABLE [])
      else
        match a with
        | ListArray _ offsets values _ =>
            rows ← list_rows offsets row;
            l ← traverse (nested_value_from_array_row values item) rows;
            Ok (ITERABLE l)
        | _ => Err "expected ListArray for iterable column"
        end
  | _ => value ← primitive_value_from_array_row a t row; Ok (PRIMITIVE value)
  end.

Definition iterable_value_from_array_row (a : Array) (t : ArrowDataType) (row : nat) : outcome string (list BeamRecord) :=
  match t with
  | ListType _ => record ← nested_value_from_array_row a t row; iterable_of record
  | _ => Err "expected List column for iterable"
  end.
End arrays.
