(* ===== verification/RecordTables.v ===== *)
(** Batches of records (store/record.rs): the table schema of a PCollection, the record batch
    of its records and the records of a batch, the rewriting of [Null] columns for a table
    format that has none, the window metadata of an element, and the Paimon types of Arrow
    and Beam row schemas.  The constructors of the paimon crate are a class of operations. *)
From Stdlib Require Import Ascii String.
From S2P Require Import Prelude Bytes Varint Windows Coders Arrow.
From S2P Require Rows.
Local Open Scope string_scope.
Local Open Scope list_scope.

(** * The schema of a table *)

Definition primitive_type_matches (value : PrimitiveValue) (t : ArrowDataType) : bool :=
  same_type (primitive_data_type value) t.

Definition mixed_variants {A} : outcome string A := Err "mixed BeamRecord variants in pcollection".

Definition validate_iterable_item_types (iterables : list (list BeamRecord)) (item : ArrowDataType) :
    outcome string (list (list ())) :=
  traverse (traverse (λ value,
    actual ← iterable_element_data_type value;
    if same_type actual item then Ok () else Err "mixed iterable item types in pcollection")) iterables.

(** [ArrowDataType::List] of an item field named [item]. *)
Definition list_of (item : ArrowDataType) : ArrowDataType := ListType (item_field item).

Definition is_null_type (t : ArrowDataType) : bool := match t with Null => true | _ => false end.
Definition is_struct_type (t : ArrowDataType) : bool := match t with StructType _ => true | _ => false end.

Definition derive_arrow_schema (first : BeamRecord) (records : list BeamRecord) : outcome string Schema :=
  match first with
  | PRIMITIVE first_value =>
      let t := primitive_data_type first_value in
      _ ← traverse (λ record,
        match record with
        | PRIMITIVE value => if primitive_type_matches value t then Ok () else Err "mixed primitive types in pcollection"
        | _ => mixed_variants
        end) records;
      Ok [new_field VALUE_COLUMN t (is_null_type t)]
  | ITERABLE _ =>
      iterables ← traverse (λ record, match record with ITERABLE l => Ok l | _ => mixed_variants end) records;
      item ← infer_iterable_item_data_type iterables;
      _ ← validate_iterable_item_types iterables item;
      Ok [new_field VALUE_COLUMN (list_of item) true]
  | KV first_key first_value =>
      let kt := primitive_data_type first_key in
      vt ← nested_value_storage_type first_value;
      _ ← traverse (λ record,
        match record with
        | KV key value =>
            if primitive_type_matches key kt then
              actual ← nested_value_storage_type value;
              if same_type actual vt then Ok () else Err "mixed KV value types in pcollection"
            else Err "mixed KV key types in pcollection"
        | _ => mixed_variants
        end) records;
      Ok [new_field KEY_COLUMN kt (is_null_type kt); new_field VALUE_COLUMN vt (is_null_type vt || is_struct_type vt)]
  | GBK first_key _ =>
      let kt := primitive_data_type first_key in
      values ← traverse (λ record,
        match record with
        | GBK key value => if primitive_type_matches key kt then Ok value else Err "mixed GBK key types in pcollection"
        | _ => mixed_variants
        end) records;
      item ← infer_iterable_item_data_type values;
      _ ← validate_iterable_item_types values item;
      Ok [new_field KEY_COLUMN kt false; new_field VALUE_COLUMN (list_of item) true]
  | TUPLE first_values =>
      let t := tuple_storage_type first_values in
      _ ← traverse (λ record,
        match record with
        | TUPLE values =>
            if same_type (tuple_storage_type values) t then Ok () else Err "mixed tuple component types in pcollection"
        | _ => mixed_variants
        end) records;
      Ok [new_field VALUE_COLUMN t true]
  end.

Definition derive_table_schema (records : list BeamRecord) : outcome string RecordTableSchema :=
  match records with
  | [] => Err "cannot derive schema for empty pcollection"
  | first :: _ =>
      arrow_schema ← derive_arrow_schema first records;
      Ok (mkTableSchema (table_type_of first) arrow_schema false)
  end.

(** [RecordTableSchema::row]. *)
Definition row_table_schema (arrow_schema : Schema) : RecordTableSchema := mkTableSchema TRow arrow_schema false.

Definition of_option {A} (o : option A) (e : string) : outcome string A :=
  match o with Some a => Ok a | None => Err e end.

(** The type of a named column of the schema. *)
Definition column_type (name : string) (schema : Schema) : outcome string ArrowDataType :=
  field ← of_option (field_with_name name schema) "missing column"; Ok (type_of field).

Definition no_row_tables {A} : outcome string A :=
  Err "row tables store full Beam row schemas and do not convert to BeamRecord".

Section batches.
Context `{Arrow}.

(** * Records to a batch *)

Definition batch_columns (table_schema : RecordTableSchema) (records : list BeamRecord) : outcome string (list Array) :=
  let schema := arrow_schema table_schema in
  match table_type table_schema with
  | TPrimitive =>
      t ← column_type VALUE_COLUMN schema;
      values ← traverse primitive_of records;
      column ← primitive_values_to_array values t; Ok [column]
  | TIterable =>
      t ← column_type VALUE_COLUMN schema;
      match t with
      | ListType item =>
          iterables ← traverse iterable_of records;
          column ← iterable_values_to_array iterables (type_of item); Ok [column]
      | _ => Err "iterable value field must be a List"
      end
  | TKv =>
      kt ← column_type KEY_COLUMN schema;
      vt ← column_type VALUE_COLUMN schema;
      pairs ← traverse kv_of records;
      key_column ← primitive_values_to_array pairs.*1 kt;
      value_column ← nested_values_to_array pairs.*2 vt; Ok [key_column; value_column]
  | TGbk =>
      kt ← column_type KEY_COLUMN schema;
      vt ← column_type VALUE_COLUMN schema;
      match vt with
      | ListType item =>
          pairs ← traverse gbk_of records;
          key_column ← primitive_values_to_array pairs.*1 kt;
          value_column ← iterable_values_to_array pairs.*2 (type_of item); Ok [key_column; value_column]
      | _ => Err "gbk value field must be a List"
      end
  | TTuple =>
      t ← column_type VALUE_COLUMN schema;
      column ← nested_values_to_array records t; Ok [column]
  | TRow => no_row_tables
  end.

Definition beamrecords_to_record_batch (records : list BeamRecord) (table_schema : RecordTableSchema) :
    outcome string RecordBatch :=
  match records with
  | [] => Err "cannot build record batch from empty records"
  | _ =>
      columns ← batch_columns table_schema records;
      map_err (λ _, "failed to build record batch") (record_batch_try_new (arrow_schema table_schema) columns)
  end.

(** * A batch to records *)

Definition named_column (name : string) (batch : RecordBatch) : outcome string Array :=
  of_option (column_by_name name batch) "missing column".

Definition record_batch_to_beamrecords (batch : RecordBatch) (table_schema : RecordTableSchema) :
    outcome string (list BeamRecord) :=
  let rows := seq 0 (num_rows batch) in
  match table_type table_schema with
  | TPrimitive =>
      column ← named_column VALUE_COLUMN batch;
      traverse (λ row,
        value ← primitive_value_from_array_row column (data_type_of column) row; Ok (PRIMITIVE value)) rows
  | TIterable =>
      column ← named_column VALUE_COLUMN batch;
      traverse (λ row, l ← iterable_value_from_array_row column (data_type_of column) row; Ok (ITERABLE l)) rows
  | TKv =>
      key_column ← named_column KEY_COLUMN batch;
      value_column ← named_column VALUE_COLUMN batch;
      traverse (λ row,
        key ← primitive_value_from_array_row key_column (data_type_of key_column) row;
        value ← nested_value_from_array_row value_column (data_type_of value_column) row; Ok (KV key value)) rows
  | TGbk =>
      key_column ← named_column KEY_COLUMN batch;
      value_column ← named_column VALUE_COLUMN batch;
      traverse (λ row,
        key ← primitive_value_from_array_row key_column (data_type_of key_column) row;
        value ← iterable_value_from_array_row value_column (data_type_of value_column) row; Ok (GBK key value)) rows
  | TTuple =>
      column ← named_column VALUE_COLUMN batch;
      traverse (λ row, nested_value_from_array_row column (data_type_of column) row) rows
  | TRow => no_row_tables
  end.

(** * Void columns *)

(** [materialize_void_field] with the rewritten type of the field. *)
Definition rewrite_field (materialize : ArrowDataType → ArrowDataType) (field : ArrowField) : ArrowField :=
  match field with
  | mkArrowField name t nullable metadata => mkArrowField name (materialize t) (nullable || is_null_type t) metadata
  end.

Fixpoint materialize_void_type (t : ArrowDataType) : ArrowDataType :=
  match t with
  | Null => Boolean
  | ListType field => ListType (rewrite_field materialize_void_type field)
  | LargeListType field => LargeListType (rewrite_field materialize_void_type field)
  | FixedSizeListType field size => FixedSizeListType (rewrite_field materialize_void_type field) size
  | StructType fields => StructType (rewrite_field materialize_void_type <$> fields)
  | MapType entries sorted => MapType (rewrite_field materialize_void_type entries) sorted
  | _ => t
  end.
Definition materialize_void_field : ArrowField → ArrowField := rewrite_field materialize_void_type.
Definition materialize_void_schema (schema : Schema) : Schema := materialize_void_field <$> schema.

(** The columns of a struct, from the [i]-th on, each rewritten for the type of its field. *)
Definition rewrite_children (materialize : Array → ArrowDataType → outcome string Array) (columns : list Array) :
    list ArrowField → nat → outcome string (list Array) :=
  fix go fields i :=
    match fields with
    | [] => Ok []
    | mkArrowField _ t _ _ :: fields =>
        match columns !! i with
        | Some column => child ← materialize column t; children ← go fields (S i); Ok (child :: children)
        | None => Panic "index out of bounds"
        end
    end.

Fixpoint materialize_void_array (a : Array) (t : ArrowDataType) {struct t} : outcome string Array :=
  match t with
  | Null => Ok (BooleanArray (replicate (array_length a) None))
  | ListType (mkArrowField _ item _ _ as field) =>
      match a with
      | ListArray _ offsets values nulls =>
          child ← materialize_void_array values item;
          list_array_new (materialize_void_field field) offsets child nulls
      | _ => Err "expected ListArray while materializing Void columns"
      end
  | LargeListType (mkArrowField _ item _ _ as field) =>
      match a with
      | LargeListArray _ offsets values nulls =>
          child ← materialize_void_array values item;
          large_list_array_new (materialize_void_field field) offsets child nulls
      | _ => Err "expected LargeListArray while materializing Void columns"
      end
  | FixedSizeListType (mkArrowField _ item _ _ as field) size =>
      match a with
      | FixedSizeListArray _ _ values nulls =>
          child ← materialize_void_array values item;
          fixed_size_list_array_new (materialize_void_field field) size child nulls
      | _ => Err "expected FixedSizeListArray while materializing Void columns"
      end
  | StructType fields =>
      match a with
      | StructArray _ columns nulls =>
          children ← rewrite_children materialize_void_array columns fields 0;
          struct_array_try_new (materialize_void_field <$> fields) children nulls
      | _ => Err "expected StructArray while materializing Void columns"
      end
  | MapType (mkArrowField _ entries_type _ _ as entries) sorted =>
      match a with
      | MapArray _ offsets keyed nulls _ =>
          entries_array ← materialize_void_array keyed entries_type;
          match entries_array with
          | StructArray _ _ _ => map_array_new (materialize_void_field entries) offsets entries_array nulls sorted
          | _ => Err "materialized map entries must remain a struct"
          end
      | _ => Err "expected MapArray while materializing Void columns"
      end
  | _ => Ok a
  end.

Definition same_schema (a b : Schema) : bool := same_type (StructType a) (StructType b).

Definition materialize_void_columns (batch : RecordBatch) : outcome string RecordBatch :=
  let schema := rb_schema batch in
  let new_schema := materialize_void_schema schema in
  if same_schema new_schema schema then Ok batch
  else
    columns ← traverse (λ '(i, field),
      match rb_columns batch !! i with
      | Some column => materialize_void_array column (type_of field)
      | None => Panic "index out of bounds"
      end) (imap pair schema);
    map_err (λ _, "failed to materialize Null columns for Paimon storage") (record_batch_try_new new_schema columns).
End batches.

(** * Window metadata *)

Record WindowMetadata : Type := mkMetadata {
  timestamp_millis : Z;
  windows : list BeamWindow;
  pane : PaneInfo;
}.

(** [WindowMetadata::from]. *)
Definition metadata_of (value : WindowedValue) : WindowMetadata :=
  mkMetadata (wv_timestamp_millis value) (wv_windows value) (wv_pane value).

Section metadata.
Context `{P : Profile}.

(** The fold of [max_finite_window_end_millis]: it stops at an opaque window. *)
Fixpoint latest_end {E} (latest : Z) (windows : list BeamWindow) : outcome E (option Z) :=
  match windows with
  | [] => Ok (Some latest)
  | OpaqueWindow _ _ :: _ => Ok None
  | window :: windows => ends ← max_timestamp_millis window; latest_end (Z.max latest ends) windows
  end.

Definition max_finite_window_end_millis {E} (m : WindowMetadata) : outcome E (option Z) :=
  match windows m with [] => Ok None | _ => latest_end (- 2 ^ 63) (windows m) end.
End metadata.

Local Open Scope string_scope.
Local Open Scope list_scope.

(** * Types of the paimon crate *)

Record DataField (T : Type) : Type := mkDataField { data_id : Z; data_name : string; data_type : T }.
Arguments mkDataField {T} _ _ _.
Arguments data_id {T} _.
Arguments data_name {T} _.
Arguments data_type {T} _.

(** Every type says whether its values can be null. *)
Inductive PaimonDataType : Type :=
| PaimonBoolean (nullable : bool)
| PaimonTinyInt (nullable : bool) | PaimonSmallInt (nullable : bool)
| PaimonInt (nullable : bool) | PaimonBigInt (nullable : bool)
| PaimonFloat (nullable : bool) | PaimonDouble (nullable : bool)
| PaimonVarChar (nullable : bool) (length : Z)
| PaimonVarBinary (nullable : bool) (length : Z)
| PaimonDate (nullable : bool)
| PaimonTimestamp (nullable : bool) (precision : Z)
| PaimonLocalZonedTimestamp (nullable : bool) (precision : Z)
| PaimonTime (nullable : bool) (precision : Z)
| PaimonDecimal (nullable : bool) (precision scale : Z)
| PaimonArray (nullable : bool) (element : PaimonDataType)
| PaimonMap (nullable : bool) (key value : PaimonDataType)
| PaimonRow (nullable : bool) (fields : list (DataField PaimonDataType))
| PaimonVariant (nullable : bool)
| PaimonVector (nullable : bool) (length : Z) (element : PaimonDataType).

(** The constructors that can refuse their arguments, the largest lengths, and the schema
    builder over named columns and options. *)
Class Paimon (PaimonSchema : Type) : Type := {
  varchar_max : Z;
  varbinary_max : Z;
  varchar : bool → Z → outcome string PaimonDataType;
  varbinary : bool → Z → outcome string PaimonDataType;
  timestamp : bool → Z → outcome string PaimonDataType;
  local_zoned_timestamp : bool → Z → outcome string PaimonDataType;
  time : bool → Z → outcome string PaimonDataType;
  decimal : bool → Z → Z → outcome string PaimonDataType;
  vector : bool → Z → PaimonDataType → outcome string PaimonDataType;
  build_schema : list (string * PaimonDataType) → list (string * string) → outcome string PaimonSchema;
}.

(** What their documentation accepts: the largest lengths, and precisions up to nine. *)
Class PaimonLaws {PaimonSchema} `{Paimon PaimonSchema} : Prop := {
  varchar_fits n : varchar n varchar_max = Ok (PaimonVarChar n varchar_max);
  varbinary_fits n : varbinary n varbinary_max = Ok (PaimonVarBinary n varbinary_max);
  timestamp_fits n p : (0 ≤ p ≤ 9)%Z → timestamp n p = Ok (PaimonTimestamp n p);
  local_zoned_fits n p : (0 ≤ p ≤ 9)%Z → local_zoned_timestamp n p = Ok (PaimonLocalZonedTimestamp n p);
}.

(** * Arrow types to Paimon types *)

(** [parse] of an [i32]: an optional sign and digits, in range. *)
Definition digit_value (c : ascii) : option Z :=
  let n := Z.of_nat (nat_of_ascii c) in
  if (48 <=? n)%Z && (n <=? 57)%Z then Some (n - 48)%Z else None.
Fixpoint digits_value (acc : Z) (cs : list ascii) : option Z :=
  match cs with
  | [] => Some acc
  | c :: cs => d ← digit_value c; digits_value (10 * acc + d)%Z cs
  end.
Definition parse_i32 (s : string) : option Z :=
  let in_range z := if (- 2 ^ 31 <=? z)%Z && (z <? 2 ^ 31)%Z then Some z else None in
  match list_ascii_of_string s with
  | [] => None
  | c :: cs =>
      if decide (c = "-"%char) then match cs with [] => None | _ => z ← digits_value 0 cs; in_range (- z)%Z end
      else if decide (c = "+"%char) then match cs with [] => None | _ => z ← digits_value 0 cs; in_range z end
      else z ← digits_value 0 (c :: cs); in_range z
  end.

Definition arrow_field_id (field : ArrowField) : option Z := (metadata field !! "PARQUET:field_id") ≫= parse_i32.

Definition is_binary_type (t : ArrowDataType) : bool := match t with Binary => true | _ => false end.

Definition is_variant_arrow_fields (fields : list ArrowField) : bool :=
  match fields with
  | [value; meta] =>
      bool_decide (name_of value = "value") && is_binary_type (type_of value) && negb (is_nullable value) &&
      bool_decide (name_of meta = "metadata") && is_binary_type (type_of meta) && negb (is_nullable meta)
  | _ => false
  end.
Definition has_variant_arrow_field_ids (fields : list ArrowField) : bool :=
  match fields with
  | [value; meta] => bool_decide (arrow_field_id value = Some 0%Z) && bool_decide (arrow_field_id meta = Some 1%Z)
  | _ => false
  end.

Definition precision_of (unit : TimeUnit) : Z :=
  match unit with Second => 0 | Millisecond => 3 | Microsecond => 6 | Nanosecond => 9 end.

Section paimon.
Context {PaimonSchema : Type} `{Paimon PaimonSchema}.

(** The fields of a row, with ids from [i] ([i as i32]). *)
Definition paimon_fields (convert : ArrowDataType → bool → outcome string PaimonDataType) :
    list ArrowField → Z → outcome string (list (DataField PaimonDataType)) :=
  fix go fields i :=
    match fields with
    | [] => Ok []
    | mkArrowField name t nullable _ :: fields =>
        paimon_type ← convert t nullable;
        rest ← go fields (i + 1)%Z;
        Ok (mkDataField (to_signed 32 i) name paimon_type :: rest)
    end.

Fixpoint arrow_to_paimon_type (t : ArrowDataType) (nullable : bool) {struct t} : outcome string PaimonDataType :=
  match t with
  | Boolean => Ok (PaimonBoolean nullable)
  | Int8 => Ok (PaimonTinyInt nullable)
  | Int16 => Ok (PaimonSmallInt nullable)
  | Int32 => Ok (PaimonInt nullable)
  | Int64 => Ok (PaimonBigInt nullable)
  | Float32 => Ok (PaimonFloat nullable)
  | Float64 => Ok (PaimonDouble nullable)
  | Utf8 | LargeUtf8 | Utf8View => varchar nullable varchar_max
  | Binary | LargeBinary | BinaryView => varbinary nullable varbinary_max
  | Date32 => Ok (PaimonDate nullable)
  | Timestamp unit (Some _) => local_zoned_timestamp nullable (precision_of unit)
  | Timestamp unit None => timestamp nullable (precision_of unit)
  | Time32 Second => time nullable 0
  | Time32 Millisecond => time nullable 3
  | Time64 Microsecond => time nullable 6
  | Time64 Nanosecond => time nullable 9
  | Time32 _ | Time64 _ => time nullable 0
  | Decimal128 precision scale => decimal nullable (precision mod 2 ^ 32) (scale mod 2 ^ 32)
  | ListType (mkArrowField _ t o _) | LargeListType (mkArrowField _ t o _) =>
      element ← arrow_to_paimon_type t o; Ok (PaimonArray nullable element)
  | MapType (mkArrowField _ (StructType [mkArrowField _ kt ko _; mkArrowField _ vt vo _]) _ _) _ =>
      key ← arrow_to_paimon_type kt ko;
      value ← arrow_to_paimon_type vt vo;
      Ok (PaimonMap nullable key value)
  | MapType _ _ => Err "Unsupported Map structure"
  | StructType fields =>
      if is_variant_arrow_fields fields && has_variant_arrow_field_ids fields then Ok (PaimonVariant nullable)
      else fields ← paimon_fields arrow_to_paimon_type fields 0; Ok (PaimonRow nullable fields)
  | FixedSizeListType (mkArrowField _ t o _) size =>
      element ← arrow_to_paimon_type t o;
      if (size <? 0)%Z then Err "Invalid vector (FixedSizeList) length" else vector nullable size element
  | Null => Ok (PaimonBoolean true)
  | OtherType _ => Err "Unsupported Arrow type for Paimon conversion"
  end.

Definition arrow_fields_to_paimon (fields : list ArrowField) : outcome string (list (DataField PaimonDataType)) :=
  paimon_fields arrow_to_paimon_type fields 0.
End paimon.

(** * Row schemas *)

Definition LOGICAL_TYPE_MICROS_INSTANT : string := "beam:logical_type:micros_instant:v1".
Definition LOGICAL_TYPE_MILLIS_INSTANT : string := "beam:logical_type:millis_instant:v1".
Definition LOGICAL_TYPE_NANOS_INSTANT : string := "beam:logical_type:nanos_instant:v1".

(** [beam_field_type_to_arrow] with [beam_field_type_to_arrow_field] and
    [beam_field_to_arrow_field]; neither can fail. *)
Fixpoint beam_field_type_to_arrow (ft : Rows.BeamFieldType) : ArrowDataType :=
  match ft with Rows.mkFieldType _ kind => beam_kind_to_arrow kind end
with beam_kind_to_arrow (kind : Rows.BeamTypeKind) : ArrowDataType :=
  match kind with
  | Rows.KByte => Int8
  | Rows.KInt16 => Int16
  | Rows.KInt32 => Int32
  | Rows.KInt64 => Int64
  | Rows.KFloat => Float32
  | Rows.KDouble => Float64
  | Rows.KString => Utf8
  | Rows.KBoolean => Boolean
  | Rows.KBytes => Binary
  | Rows.KArray elem | Rows.KIterable elem =>
      ListType (new_field "item" (beam_field_type_to_arrow elem) (Rows.nullable elem))
  | Rows.KMap key value =>
      MapType (new_field "entries"
        (StructType [new_field "key" (beam_field_type_to_arrow key) (Rows.nullable key);
                     new_field "value" (beam_field_type_to_arrow value) (Rows.nullable value)]) false) false
  | Rows.KRow (Rows.mkSchema _ fields _) =>
      StructType ((fix go fields :=
        match fields with
        | [] => []
        | Rows.mkField name ft _ :: fields => new_field name (beam_field_type_to_arrow ft) (Rows.nullable ft) :: go fields
        end) fields)
  | Rows.KLogical urn repr =>
      if decide (urn = LOGICAL_TYPE_MICROS_INSTANT) then Timestamp Microsecond (Some "UTC")
      else if decide (urn = LOGICAL_TYPE_MILLIS_INSTANT) then Timestamp Millisecond (Some "UTC")
      else if decide (urn = LOGICAL_TYPE_NANOS_INSTANT) then Timestamp Nanosecond (Some "UTC")
      else beam_field_type_to_arrow repr
  end.

Definition beam_field_to_arrow_field (field : Rows.BeamField) : ArrowField :=
  new_field (Rows.field_name field) (beam_field_type_to_arrow (Rows.field_type field)) (Rows.nullable (Rows.field_type field)).
Definition beam_schema_to_arrow (schema : Rows.BeamSchema) : Schema :=
  beam_field_to_arrow_field <$> Rows.schema_fields schema.

(** The columns given to the schema builder. *)
Definition schema_columns (fields : list (DataField PaimonDataType)) : list (string * PaimonDataType) :=
  (λ field, (data_name field, data_type field)) <$> fields.

Definition beam_schema_to_paimon {PaimonSchema} `{Paimon PaimonSchema} (schema : Rows.BeamSchema) :
    outcome string PaimonSchema :=
  fields ← arrow_fields_to_paimon (beam_schema_to_arrow schema);
  build_schema (schema_columns fields) [].
