(* ===== verification/Watermark.v ===== *)
(** Watermark propagation and stage eligibility (engine/watermark.rs). *)
From S2P Require Import Prelude Bytes Varint Windows.
From stdpp Require Import gmultiset.

(** * Lists of ids *)

(** [sort] followed by [dedup]. *)
Fixpoint dedup (l : list string) : list string :=
  match l with
  | [] => []
  | x :: l => match l with
              | y :: _ => if decide (x = y) then dedup l else x :: dedup l
              | [] => [x]
              end
  end.

(** * Data *)

Abbreviation PCollectionId := string.
Abbreviation StageId := string.

Definition MIN_TIMESTAMP : Z := BEAM_MIN_TIMESTAMP_MILLIS.
Definition MAX_TIMESTAMP : Z := BEAM_MAX_TIMESTAMP_MILLIS.
Definition DEFAULT_PARTITION : string := "".

(** [format_timestamp]; [None] stands for the decimal rendering. *)
Definition format_timestamp (timestamp : Z) : option string :=
  if (timestamp <=? MIN_TIMESTAMP)%Z then Some "-inf"
  else if (MAX_TIMESTAMP <=? timestamp)%Z then Some "+inf" else None.

Record PartitionWatermark : Type := mkPartition { p_watermark : Z; p_idle : bool }.

(** The derived [Default] of the source. *)
Definition default_partition_state : PartitionWatermark := mkPartition 0 false.

Record SourceState : Type := mkSource {
  partitions : gmap string PartitionWatermark;
  finished : bool;
  auto_finish : bool;
}.

Definition default_source : SourceState := mkSource ∅ false true.

(** [SourceState::output]. *)
Definition source_output (s : SourceState) : Z :=
  if finished s then MAX_TIMESTAMP
  else if decide (partitions s = ∅) then MIN_TIMESTAMP
  else map_fold (λ _ p watermark, if p_idle p then watermark else Z.min watermark (p_watermark p))
         MAX_TIMESTAMP (partitions s).

Inductive StageKind : Type := Ordinary | WatermarkGated | TimeSortedInputWatermarkGated.

#[export] Instance StageKind_eq_dec : EqDecision StageKind.
Proof. solve_decision. Defined.

(** [StageState].  The counted maps of holds are multisets of timestamps; the
    [usize] counters are naturals. *)
Record StageState : Type := mkStage {
  main_inputs : list PCollectionId;
  side_inputs : list PCollectionId;
  outputs : list PCollectionId;
  source : option SourceState;
  input : Z;
  output : Z;
  watermark_holds : gmultiset Z;
  residual_holds : gmultiset Z;
  unproduced : gset PCollectionId;
  unproduced_side_inputs : gset PCollectionId;
  pending : gset PCollectionId;
  pending_min : Z;
  in_flight : nat;
  queued : nat;
  max_in_flight : nat;
  completed : bool;
  rerun_pending : bool;
  kind : StageKind;
  time_sorted_input_closed : bool;
  required_watermark : Z;
  watermark_at_last_run : Z;
  pending_empty : gset PCollectionId;
}.

(** Field updates. *)
Definition set_source (v : option SourceState) (s : StageState) : StageState :=
  mkStage (s.(main_inputs)) (s.(side_inputs)) (s.(outputs)) v (s.(input)) (s.(output))
    (s.(watermark_holds)) (s.(residual_holds)) (s.(unproduced)) (s.(unproduced_side_inputs))
    (s.(pending)) (s.(pending_min)) (s.(in_flight)) (s.(queued)) (s.(max_in_flight)) (s.(completed))
    (s.(rerun_pending)) (s.(kind)) (s.(time_sorted_input_closed)) (s.(required_watermark))
    (s.(watermark_at_last_run)) (s.(pending_empty)).
Definition set_input (v : Z) (s : StageState) : StageState :=
  mkStage (s.(main_inputs)) (s.(side_inputs)) (s.(outputs)) (s.(source)) v (s.(output))
    (s.(watermark_holds)) (s.(residual_holds)) (s.(unproduced)) (s.(unproduced_side_inputs))
    (s.(pending)) (s.(pending_min)) (s.(in_flight)) (s.(queued)) (s.(max_in_flight)) (s.(completed))
    (s.(rerun_pending)) (s.(kind)) (s.(time_sorted_input_closed)) (s.(required_watermark))
    (s.(watermark_at_last_run)) (s.(pending_empty)).
Definition set_output (v : Z) (s : StageState) : StageState :=
  mkStage (s.(main_inputs)) (s.(side_inputs)) (s.(outputs)) (s.(source)) (s.(input)) v
    (s.(watermark_holds)) (s.(residual_holds)) (s.(unproduced)) (s.(unproduced_side_inputs))
    (s.(pending)) (s.(pending_min)) (s.(in_flight)) (s.(queued)) (s.(max_in_flight)) (s.(completed))
    (s.(rerun_pending)) (s.(kind)) (s.(time_sorted_input_closed)) (s.(required_watermark))
    (s.(watermark_at_last_run)) (s.(pending_empty)).
Definition set_watermark_holds (v : gmultiset Z) (s : StageState) : StageState :=
  mkStage (s.(main_inputs)) (s.(side_inputs)) (s.(outputs)) (s.(source)) (s.(input)) (s.(output)) v
    (s.(residual_holds)) (s.(unproduced)) (s.(unproduced_side_inputs)) (s.(pending))
    (s.(pending_min)) (s.(in_flight)) (s.(queued)) (s.(max_in_flight)) (s.(completed))
    (s.(rerun_pending)) (s.(kind)) (s.(time_sorted_input_closed)) (s.(required_watermark))
    (s.(watermark_at_last_run)) (s.(pending_empty)).
Definition set_residual_holds (v : gmultiset Z) (s : StageState) : StageState :=
  mkStage (s.(main_inputs)) (s.(side_inputs)) (s.(outputs)) (s.(source)) (s.(input)) (s.(output))
    (s.(watermark_holds)) v (s.(unproduced)) (s.(unproduced_side_inputs)) (s.(pending))
    (s.(pending_min)) (s.(in_flight)) (s.(queued)) (s.(max_in_flight)) (s.(completed))
    (s.(rerun_pending)) (s.(kind)) (s.(time_sorted_input_closed)) (s.(required_watermark))
    (s.(watermark_at_last_run)) (s.(pending_empty)).
Definition set_unproduced (v : gset PCollectionId) (s : StageState) : StageState :=
  mkStage (s.(main_inputs)) (s.(side_inputs)) (s.(outputs)) (s.(source)) (s.(input)) (s.(output))
    (s.(watermark_holds)) (s.(residual_holds)) v (s.(unproduced_side_inputs)) (s.(pending))
    (s.(pending_min)) (s.(in_flight)) (s.(queued)) (s.(max_in_flight)) (s.(completed))
    (s.(rerun_pending)) (s.(kind)) (s.(time_sorted_input_closed)) (s.(required_watermark))
    (s.(watermark_at_last_run)) (s.(pending_empty)).
Definition set_unproduced_side_inputs (v : gset PCollectionId) (s : StageState) : StageState :=
  mkStage (s.(main_inputs)) (s.(side_inputs)) (s.(outputs)) (s.(source)) (s.(input)) (s.(output))
    (s.(watermark_holds)) (s.(residual_holds)) (s.(unproduced)) v (s.(pending)) (s.(pending_min))
    (s.(in_flight)) (s.(queued)) (s.(max_in_flight)) (s.(completed)) (s.(rerun_pending)) (s.(kind))
    (s.(time_sorted_input_closed)) (s.(required_watermark)) (s.(watermark_at_last_run))
    (s.(pending_empty)).
Definition set_pending (v : gset PCollectionId) (s : StageState) : StageState :=
  mkStage (s.(main_inputs)) (s.(side_inputs)) (s.(outputs)) (s.(source)) (s.(input)) (s.(output))
    (s.(watermark_holds)) (s.(residual_holds)) (s.(unproduced)) (s.(unproduced_side_inputs)) v
    (s.(pending_min)) (s.(in_flight)) (s.(queued)) (s.(max_in_flight)) (s.(completed))
    (s.(rerun_pending)) (s.(kind)) (s.(time_sorted_input_closed)) (s.(required_watermark))
    (s.(watermark_at_last_run)) (s.(pending_empty)).
Definition set_pending_min (v : Z) (s : StageState) : StageState :=
  mkStage (s.(main_inputs)) (s.(side_inputs)) (s.(outputs)) (s.(source)) (s.(input)) (s.(output))
    (s.(watermark_holds)) (s.(residual_holds)) (s.(unproduced)) (s.(unproduced_side_inputs))
    (s.(pending)) v (s.(in_flight)) (s.(queued)) (s.(max_in_flight)) (s.(completed))
    (s.(rerun_pending)) (s.(kind)) (s.(time_sorted_input_closed)) (s.(required_watermark))
    (s.(watermark_at_last_run)) (s.(pending_empty)).
Definition set_in_flight (v : nat) (s : StageState) : StageState :=
  mkStage (s.(main_inputs)) (s.(side_inputs)) (s.(outputs)) (s.(source)) (s.(input)) (s.(output))
    (s.(watermark_holds)) (s.(residual_holds)) (s.(unproduced)) (s.(unproduced_side_inputs))
    (s.(pending)) (s.(pending_min)) v (s.(queued)) (s.(max_in_flight)) (s.(completed))
    (s.(rerun_pending)) (s.(kind)) (s.(time_sorted_input_closed)) (s.(required_watermark))
    (s.(watermark_at_last_run)) (s.(pending_empty)).
Definition set_queued (v : nat) (s : StageState) : StageState :=
  mkStage (s.(main_inputs)) (s.(side_inputs)) (s.(outputs)) (s.(source)) (s.(input)) (s.(output))
    (s.(watermark_holds)) (s.(residual_holds)) (s.(unproduced)) (s.(unproduced_side_inputs))
    (s.(pending)) (s.(pending_min)) (s.(in_flight)) v (s.(max_in_flight)) (s.(completed))
    (s.(rerun_pending)) (s.(kind)) (s.(time_sorted_input_closed)) (s.(required_watermark))
    (s.(watermark_at_last_run)) (s.(pending_empty)).
Definition set_max_in_flight (v : nat) (s : StageState) : StageState :=
  mkStage (s.(main_inputs)) (s.(side_inputs)) (s.(outputs)) (s.(source)) (s.(input)) (s.(output))
    (s.(watermark_holds)) (s.(residual_holds)) (s.(unproduced)) (s.(unproduced_side_inputs))
    (s.(pending)) (s.(pending_min)) (s.(in_flight)) (s.(queued)) v (s.(completed))
    (s.(rerun_pending)) (s.(kind)) (s.(time_sorted_input_closed)) (s.(required_watermark))
    (s.(watermark_at_last_run)) (s.(pending_empty)).
Definition set_completed (v : bool) (s : StageState) : StageState :=
  mkStage (s.(main_inputs)) (s.(side_inputs)) (s.(outputs)) (s.(source)) (s.(input)) (s.(output))
    (s.(watermark_holds)) (s.(residual_holds)) (s.(unproduced)) (s.(unproduced_side_inputs))
    (s.(pending)) (s.(pending_min)) (s.(in_flight)) (s.(queued)) (s.(max_in_flight)) v
    (s.(rerun_pending)) (s.(kind)) (s.(time_sorted_input_closed)) (s.(required_watermark))
    (s.(watermark_at_last_run)) (s.(pending_empty)).
Definition set_rerun_pending (v : bool) (s : StageState) : StageState :=
  mkStage (s.(main_inputs)) (s.(side_inputs)) (s.(outputs)) (s.(source)) (s.(input)) (s.(output))
    (s.(watermark_holds)) (s.(residual_holds)) (s.(unproduced)) (s.(unproduced_side_inputs))
    (s.(pending)) (s.(pending_min)) (s.(in_flight)) (s.(queued)) (s.(max_in_flight)) (s.(completed))
    v (s.(kind)) (s.(time_sorted_input_closed)) (s.(required_watermark)) (s.(watermark_at_last_run))
    (s.(pending_empty)).
Definition set_kind (v : StageKind) (s : StageState) : StageState :=
  mkStage (s.(main_inputs)) (s.(side_inputs)) (s.(outputs)) (s.(source)) (s.(input)) (s.(output))
    (s.(watermark_holds)) (s.(residual_holds)) (s.(unproduced)) (s.(unproduced_side_inputs))
    (s.(pending)) (s.(pending_min)) (s.(in_flight)) (s.(queued)) (s.(max_in_flight)) (s.(completed))
    (s.(rerun_pending)) v (s.(time_sorted_input_closed)) (s.(required_watermark))
    (s.(watermark_at_last_run)) (s.(pending_empty)).
Definition set_time_sorted_input_closed (v : bool) (s : StageState) : StageState :=
  mkStage (s.(main_inputs)) (s.(side_inputs)) (s.(outputs)) (s.(source)) (s.(input)) (s.(output))
    (s.(watermark_holds)) (s.(residual_holds)) (s.(unproduced)) (s.(unproduced_side_inputs))
    (s.(pending)) (s.(pending_min)) (s.(in_flight)) (s.(queued)) (s.(max_in_flight)) (s.(completed))
    (s.(rerun_pending)) (s.(kind)) v (s.(required_watermark)) (s.(watermark_at_last_run))
    (s.(pending_empty)).
Definition set_required_watermark (v : Z) (s : StageState) : StageState :=
  mkStage (s.(main_inputs)) (s.(side_inputs)) (s.(outputs)) (s.(source)) (s.(input)) (s.(output))
    (s.(watermark_holds)) (s.(residual_holds)) (s.(unproduced)) (s.(unproduced_side_inputs))
    (s.(pending)) (s.(pending_min)) (s.(in_flight)) (s.(queued)) (s.(max_in_flight)) (s.(completed))
    (s.(rerun_pending)) (s.(kind)) (s.(time_sorted_input_closed)) v (s.(watermark_at_last_run))
    (s.(pending_empty)).
Definition set_watermark_at_last_run (v : Z) (s : StageState) : StageState :=
  mkStage (s.(main_inputs)) (s.(side_inputs)) (s.(outputs)) (s.(source)) (s.(input)) (s.(output))
    (s.(watermark_holds)) (s.(residual_holds)) (s.(unproduced)) (s.(unproduced_side_inputs))
    (s.(pending)) (s.(pending_min)) (s.(in_flight)) (s.(queued)) (s.(max_in_flight)) (s.(completed))
    (s.(rerun_pending)) (s.(kind)) (s.(time_sorted_input_closed)) (s.(required_watermark)) v
    (s.(pending_empty)).
Definition set_pending_empty (v : gset PCollectionId) (s : StageState) : StageState :=
  mkStage (s.(main_inputs)) (s.(side_inputs)) (s.(outputs)) (s.(source)) (s.(input)) (s.(output))
    (s.(watermark_holds)) (s.(residual_holds)) (s.(unproduced)) (s.(unproduced_side_inputs))
    (s.(pending)) (s.(pending_min)) (s.(in_flight)) (s.(queued)) (s.(max_in_flight)) (s.(completed))
    (s.(rerun_pending)) (s.(kind)) (s.(time_sorted_input_closed)) (s.(required_watermark))
    (s.(watermark_at_last_run)) v.

Definition is_source (s : StageState) : bool := match source s with Some _ => true | None => false end.

(** The least element of a multiset, [keys().next()] of the ordered map. *)
Definition min_element (X : gmultiset Z) : option Z :=
  match elements (dom X) with
  | [] => None
  | x :: l => Some (foldr Z.min x l)
  end.

(** [StageState::min_hold]. *)
Definition stage_min_hold (s : StageState) : option Z :=
  match min_element (watermark_holds s), min_element (residual_holds s) with
  | Some timer, Some residual => Some (Z.min timer residual)
  | Some timer, None => Some timer
  | None, Some residual => Some residual
  | None, None => None
  end.

(** [is_ready_without_upstream_barrier]. *)
Definition is_ready_without_upstream_barrier (s : StageState) : bool :=
  if (max_in_flight s <=? in_flight s)%nat
     || negb (bool_decide (unproduced s = ∅))
     || negb (bool_decide (unproduced_side_inputs s = ∅))
  then false
  else if negb (completed s) && (0 <? in_flight s)%nat && (queued s =? 0)%nat then false
  else
    let effective_input := Z.min (input s) (pending_min s) in
    let has_work :=
      if completed s then
        rerun_pending s
        || (0 <? queued s)%nat
        || negb (bool_decide (pending s = ∅))
        || (bool_decide (kind s = WatermarkGated) && (watermark_at_last_run s <? effective_input)%Z)
      else true in
    if negb has_work then false
    else match kind s with
         | Ordinary => true
         | WatermarkGated | TimeSortedInputWatermarkGated => (required_watermark s <=? input s)%Z
         end.

Record WatermarkManager : Type := mkManager {
  stages : gmap StageId StageState;
  producers : gmap PCollectionId StageId;
  consumers : gmap PCollectionId (list StageId);
  side_input_consumers : gmap PCollectionId (list StageId);
}.

Definition with_stages (m : WatermarkManager) (f : gmap StageId StageState → gmap StageId StageState)
    : WatermarkManager :=
  mkManager (f (stages m)) (producers m) (consumers m) (side_input_consumers m).

Definition new_manager : WatermarkManager := mkManager ∅ ∅ ∅ ∅.

(** Errors are [anyhow] messages; their fixed part identifies them. *)
Abbreviation result := (outcome string).

(** * Registering stages *)

(** [entry(input).or_default()] and [push] when absent. *)
Definition register_consumer (stage : StageId) (cs : gmap PCollectionId (list StageId))
    (input : PCollectionId) : gmap PCollectionId (list StageId) :=
  let current := default [] (cs !! input) in
  <[input := if decide (stage ∈ current) then current else current ++ [stage]]> cs.

Definition add_stage (m : WatermarkManager) (stage : StageId)
    (main_inputs side_inputs outputs : list PCollectionId) : WatermarkManager :=
  let source := if decide (main_inputs = []) then Some default_source else None in
  let input := match source with Some _ => MAX_TIMESTAMP | None => MIN_TIMESTAMP end in
  mkManager
    (<[stage := mkStage main_inputs side_inputs outputs source input MIN_TIMESTAMP ∅ ∅
                 (list_to_set main_inputs) (list_to_set side_inputs) ∅ MAX_TIMESTAMP
                 0 0 1 false false Ordinary false MIN_TIMESTAMP MIN_TIMESTAMP ∅]> (stages m))
    (foldl (λ ps o, <[o := stage]> ps) (producers m) outputs)
    (foldl (register_consumer stage) (consumers m) main_inputs)
    (foldl (register_consumer stage) (side_input_consumers m) side_inputs).

Definition contains_stage (m : WatermarkManager) (stage : StageId) : bool :=
  bool_decide (is_Some (stages m !! stage)).

(** [stages()]: the registered ids in sorted order. *)
Definition stage_ids (m : WatermarkManager) : list StageId := sort_ids (elements (dom (stages m))).

(** * Updating one stage *)

(** [stage_mut(stage)?] followed by a change of it. *)
Definition update_stage (m : WatermarkManager) (stage : StageId) (f : StageState → StageState)
    : result WatermarkManager :=
  match stages m !! stage with
  | None => Err "unknown stage"
  | Some s => Ok (with_stages m (<[stage := f s]>))
  end.

(** [source_mut(stage)?] followed by a change of it. *)
Definition update_source (m : WatermarkManager) (stage : StageId) (f : SourceState → SourceState)
    : result WatermarkManager :=
  match stages m !! stage with
  | None => Err "unknown stage"
  | Some s =>
    match source s with
    | None => Err "stage is not a source (it has main inputs)"
    | Some src => Ok (with_stages m (<[stage := set_source (Some (f src)) s]>))
    end
  end.

Definition report_source_partition_watermark (m : WatermarkManager) (stage partition : string)
    (timestamp : Z) : result WatermarkManager :=
  update_source m stage (λ src,
    let entry := default default_partition_state (partitions src !! partition) in
    mkSource (<[partition := mkPartition (Z.max (p_watermark entry) timestamp) false]> (partitions src))
      (finished src) (auto_finish src)).

Definition report_source_watermark (m : WatermarkManager) (stage : StageId) (timestamp : Z) :=
  report_source_partition_watermark m stage DEFAULT_PARTITION timestamp.

Definition set_source_partition_idle (m : WatermarkManager) (stage partition : string) (idle : bool)
    : result WatermarkManager :=
  update_source m stage (λ src,
    let entry := default default_partition_state (partitions src !! partition) in
    mkSource (<[partition := mkPartition (p_watermark entry) idle]> (partitions src))
      (finished src) (auto_finish src)).

Definition report_source_finished (m : WatermarkManager) (stage : StageId) :=
  update_source m stage (λ src, mkSource (partitions src) true (auto_finish src)).

Definition set_source_auto_finish (m : WatermarkManager) (stage : StageId) (b : bool) :=
  update_source m stage (λ src, mkSource (partitions src) (finished src) b).

Definition source_auto_finishes (m : WatermarkManager) (stage : StageId) : bool :=
  default true (auto_finish <$> ((stages m !! stage) ≫= source)).

(** * Holds *)

Definition add_hold (m : WatermarkManager) (stage : StageId) (timestamp : Z) :=
  update_stage m stage (λ s, set_watermark_holds (watermark_holds s ⊎ {[+ timestamp +]}) s).

Definition release_hold (m : WatermarkManager) (stage : StageId) (timestamp : Z) :=
  update_stage m stage (λ s, set_watermark_holds (watermark_holds s ∖ {[+ timestamp +]}) s).

Definition set_event_time_holds (m : WatermarkManager) (holds : gmap StageId (list Z))
    : WatermarkManager :=
  with_stages m (map_imap (λ id s,
    Some (set_watermark_holds (list_to_set_disj (default [] (holds !! id))) s))).

Definition set_all_residual_holds (m : WatermarkManager) (holds : gmap StageId (list Z))
    : WatermarkManager :=
  with_stages m (map_imap (λ id s,
    Some (set_residual_holds (list_to_set_disj (default [] (holds !! id))) s))).

Definition min_hold (m : WatermarkManager) (stage : StageId) : option Z :=
  stages m !! stage ≫= stage_min_hold.

(** * Observing *)

Definition input_watermark (m : WatermarkManager) (stage : StageId) : option Z :=
  input <$> stages m !! stage.
Definition output_watermark (m : WatermarkManager) (stage : StageId) : option Z :=
  output <$> stages m !! stage.
Definition bundle_input_watermark (m : WatermarkManager) (stage : StageId) : option Z :=
  watermark_at_last_run <$> stages m !! stage.
Definition effective_input_watermark (m : WatermarkManager) (stage : StageId) : option Z :=
  (λ s, Z.min (input s) (pending_min s)) <$> stages m !! stage.
Definition pcollection_watermark (m : WatermarkManager) (pcollection : PCollectionId) : option Z :=
  producers m !! pcollection ≫= output_watermark m.

(** What still holds back the output of a producer: a bundle that has not
    committed, or an explicit hold. *)
Definition outstanding_hold (producer : StageState) : option Z :=
  let outstanding_bundle :=
    if negb (completed producer) && ((0 <? in_flight producer)%nat || (0 <? queued producer)%nat)
    then Some (watermark_at_last_run producer) else None in
  match outstanding_bundle, stage_min_hold producer with
  | Some bundle, Some explicit => Some (Z.min bundle explicit)
  | Some bundle, None => Some bundle
  | None, Some explicit => Some explicit
  | None, None => None
  end.

(** The producers of a stage's main and side inputs, in the order they are
    listed. *)
Definition upstream_stages (m : WatermarkManager) (s : StageState) : list StageState :=
  omap (λ p, producers m !! p ≫= λ id, stages m !! id) (main_inputs s ++ side_inputs s).

Definition validate_bundle_input_watermark (m : WatermarkManager) (stage : StageId) (watermark : Z)
    : result unit :=
  match stages m !! stage with
  | None => Err "unknown stage"
  | Some s =>
    if forallb (λ producer,
         match outstanding_hold producer with
         | Some hold => negb (hold <? watermark)%Z
         | None => true
         end) (upstream_stages m s)
    then Ok () else Err "watermark invariant violated"
  end.

Definition stage_kind (m : WatermarkManager) (stage : StageId) : option StageKind :=
  kind <$> stages m !! stage.
Definition set_stage_kind (m : WatermarkManager) (stage : StageId) (k : StageKind) :=
  update_stage m stage (set_kind k).
Definition set_stage_required_watermark (m : WatermarkManager) (stage : StageId) (watermark : Z) :=
  update_stage m stage (set_required_watermark watermark).
Definition set_stage_max_in_flight (m : WatermarkManager) (stage : StageId) (n : nat) :=
  update_stage m stage (set_max_in_flight (Nat.max n 1)).
Definition enqueue_bundles (m : WatermarkManager) (stage : StageId) (count : nat) :=
  update_stage m stage (λ s, set_queued (queued s + count) s).
Definition mark_rerun (m : WatermarkManager) (stage : StageId) :=
  update_stage m stage (set_rerun_pending true).

(** * Watermark computation *)

(** [upstream]: the output watermark of the producer; [MIN_TIMESTAMP] when unwired. *)
Definition upstream (m : WatermarkManager) (pcollection : PCollectionId) : Z :=
  default MIN_TIMESTAMP (output <$> (producers m !! pcollection ≫= λ id, stages m !! id)).

Definition min_upstream (m : WatermarkManager) (inputs : list PCollectionId) : Z :=
  foldl (λ watermark p, Z.min watermark (upstream m p)) MAX_TIMESTAMP inputs.

Definition compute_input (m : WatermarkManager) (s : StageState) : Z :=
  if is_source s then MAX_TIMESTAMP else min_upstream m (main_inputs s ++ side_inputs s).

Definition compute_output (m : WatermarkManager) (s : StageState) : Z :=
  let watermark :=
    match source s with
    | Some src => source_output src
    | None => Z.min (min_upstream m (main_inputs s)) (pending_min s)
    end in
  let watermark :=
    if negb (completed s) && ((0 <? in_flight s)%nat || (0 <? queued s)%nat)
    then Z.min watermark (watermark_at_last_run s) else watermark in
  let watermark :=
    if negb (bool_decide (pending_empty s = ∅)) then Z.min watermark MIN_TIMESTAMP else watermark in
  match stage_min_hold s with
  | Some hold => Z.min watermark hold
  | None => watermark
  end.

(** * Refresh *)

(** One stage of one pass: recompute both watermarks from the current state and
    raise them when they grew. *)
Definition refresh_stage (m : WatermarkManager) (id : StageId) : WatermarkManager * bool :=
  match stages m !! id with
  | None => (m, false)
  | Some s =>
    let new_input := compute_input m s in
    let new_output := compute_output m s in
    let s' := set_output (Z.max (output s) new_output) (set_input (Z.max (input s) new_input) s) in
    (with_stages m (<[id := s']>), (input s <? new_input)%Z || (output s <? new_output)%Z)
  end.

(** [advanced] collects the ids that moved. *)
Definition refresh_pass (ids : list StageId) (m : WatermarkManager) (advanced : gset StageId)
    : WatermarkManager * gset StageId * bool :=
  foldl (λ '(m, advanced, changed) id,
    let '(m', moved) := refresh_stage m id in
    (m', if moved : bool then advanced ∪ {[id]} else advanced, changed || moved))
    (m, advanced, false) ids.

(** Up to [2 ^ k] passes, stopping at the first that changes nothing. *)
Fixpoint refresh_loop (k : nat) (ids : list StageId) (m : WatermarkManager) (advanced : gset StageId)
    : WatermarkManager * gset StageId * bool :=
  match k with
  | O => refresh_pass ids m advanced
  | S k =>
    let '(m', advanced', changed) := refresh_loop k ids m advanced in
    if changed : bool then refresh_loop k ids m' advanced' else (m', advanced', false)
  end.

(** A pass that changes something moves a watermark up by at least one millisecond
    of a range of less than [2 ^ 55], and there are two per stage. *)
Definition refresh_bound (m : WatermarkManager) : nat := 57 + Nat.log2_up (size (stages m)).

Definition refresh (m : WatermarkManager) : WatermarkManager * list StageId :=
  let '(m', advanced, _) := refresh_loop (refresh_bound m) (stage_ids m) m ∅ in
  (m', sort_ids (elements advanced)).

(** * Eligibility *)

(** A producer with nothing outstanding. *)
Definition quiescent (producer : StageState) : bool :=
  completed producer
  && (in_flight producer =? 0)%nat
  && (queued producer =? 0)%nat
  && bool_decide (pending producer = ∅)
  && negb (rerun_pending producer)
  && bool_decide (pending_empty producer = ∅)
  && bool_decide (stage_min_hold producer = None).

(** The recursion walks the producer graph; [fuel] bounds its depth.  On an
    acyclic graph the number of stages is enough. *)
Fixpoint chain_is_quiescent (fuel : nat) (m : WatermarkManager) (s : StageState) : bool :=
  match fuel with
  | O => false
  | S fuel => forallb (λ producer, quiescent producer && chain_is_quiescent fuel m producer)
                (upstream_stages m s)
  end.

Definition upstream_chain_is_quiescent (m : WatermarkManager) (s : StageState) : bool :=
  chain_is_quiescent (S (size (stages m))) m s.

Definition stage_is_ready (m : WatermarkManager) (stage : StageId) : bool :=
  match stages m !! stage with
  | None => false
  | Some s =>
    if negb (is_ready_without_upstream_barrier s) then false
    else if decide (kind s = Ordinary) then true
    else upstream_chain_is_quiescent m s
  end.

Definition ready_stages (m : WatermarkManager) : list StageId :=
  sort_ids (filter (λ id, stage_is_ready m id = true) (elements (dom (stages m)))).

Definition is_complete (m : WatermarkManager) : bool :=
  forallb (λ '(_, s),
    completed s
    && bool_decide (unproduced_side_inputs s = ∅)
    && bool_decide (pending s = ∅)
    && negb (rerun_pending s)
    && (queued s =? 0)%nat
    && (in_flight s =? 0)%nat
    && negb (bool_decide (kind s = WatermarkGated) && (watermark_at_last_run s <? input s)%Z))
    (map_to_list (stages m)).

(** * Bundles *)

Definition start_bundle (m : WatermarkManager) (stage : StageId) : result WatermarkManager :=
  match stages m !! stage with
  | None => Err "unknown stage"
  | Some s =>
    if (max_in_flight s <=? in_flight s)%nat
    then Err "stage already has its maximum number of bundles in flight"
    else if negb (completed s) && (0 <? in_flight s)%nat && (queued s =? 0)%nat
    then Err "stage already has its first bundle in flight and no queued work items"
    else
      let watermark_rerun :=
        bool_decide (kind s = WatermarkGated) && (watermark_at_last_run s <? input s)%Z in
      if completed s && negb (rerun_pending s) && (queued s =? 0)%nat && negb watermark_rerun
         && bool_decide (pending s = ∅)
      then Err "stage has already completed and is not re-armed"
      else if negb (bool_decide (unproduced s = ∅))
      then Err "stage still has unproduced main inputs"
      else
        let s := set_in_flight (in_flight s + 1) s in
        let s := set_queued (queued s - 1) s in
        let s := set_rerun_pending false s in
        let s :=
          if bool_decide (kind s = TimeSortedInputWatermarkGated)
             && (required_watermark s <=? input s)%Z
          then set_time_sorted_input_closed true s else s in
        let s :=
          if (in_flight s =? 1)%nat then
            let effective_input := Z.min (input s) (pending_min s) in
            set_watermark_at_last_run effective_input (set_pending_min MAX_TIMESTAMP (set_pending ∅ s))
          else s in
        Ok (with_stages m (<[stage := s]>))
  end.

(** What a completed bundle tells a consumer of [pcollection]. *)
Definition wake_consumer (propagates_empty_input : bool) (propagated_min : option Z)
    (pcollection : PCollectionId) (s : StageState) : StageState :=
  let s := set_unproduced (unproduced s ∖ {[pcollection]}) s in
  if time_sorted_input_closed s then s
  else
    let s := set_pending (pending s ∪ {[pcollection]}) s in
    let s := set_pending_empty
               (if propagates_empty_input then pending_empty s ∪ {[pcollection]}
                else pending_empty s ∖ {[pcollection]}) s in
    match propagated_min with
    | Some output_min_ts => set_pending_min (Z.min (pending_min s) output_min_ts) s
    | None => s
    end.

Definition wake_side_consumer (propagates_empty_input : bool) (pcollection : PCollectionId)
    (s : StageState) : StageState :=
  if propagates_empty_input then set_pending_empty (pending_empty s ∪ {[pcollection]}) s
  else set_unproduced_side_inputs (unproduced_side_inputs s ∖ {[pcollection]})
         (set_pending_empty (pending_empty s ∖ {[pcollection]}) s).

(** The loops over consumers: change the consumer's state if it is registered,
    then note it when it is ready. *)
Definition visit_consumers (f : StageState → StageState) (cs : list StageId)
    (acc : WatermarkManager * list StageId) : WatermarkManager * list StageId :=
  foldl (λ '(m, newly_ready) consumer,
    let m := with_stages m (alter f consumer) in
    (m, if stage_is_ready m consumer then newly_ready ++ [consumer] else newly_ready)) acc cs.

Definition propagate_output (propagates_empty_input : bool) (propagated_min : option Z)
    (acc : WatermarkManager * list StageId) (pcollection : PCollectionId)
    : WatermarkManager * list StageId :=
  let acc := visit_consumers (wake_consumer propagates_empty_input propagated_min pcollection)
               (default [] (consumers (acc.1) !! pcollection)) acc in
  visit_consumers (wake_side_consumer propagates_empty_input pcollection)
    (default [] (side_input_consumers (acc.1) !! pcollection)) acc.

Definition complete_bundle_with_min_and_input (m : WatermarkManager) (stage : StageId)
    (output_min_ts : option Z) (input_count : option nat)
    : result (WatermarkManager * list StageId) :=
  match stages m !! stage with
  | None => Err "unknown stage"
  | Some s =>
    if (in_flight s =? 0)%nat then Err "stage has no bundle in flight"
    else
      let stage_has_empty_inputs := negb (bool_decide (pending_empty s = ∅)) in
      let produced_nothing := bool_decide (output_min_ts = None) && bool_decide (input_count = Some 0%nat) in
      let propagates_empty_input := produced_nothing || stage_has_empty_inputs in
      let propagated_min := if stage_has_empty_inputs then Some MIN_TIMESTAMP else output_min_ts in
      let m := with_stages m (<[stage := set_completed true (set_in_flight (in_flight s - 1) s)]>) in
      let '(m, newly_ready) :=
        foldl (propagate_output propagates_empty_input propagated_min) (m, []) (outputs s) in
      Ok (m, dedup (sort_ids newly_ready))
  end.

Definition complete_bundle_with_min (m : WatermarkManager) (stage : StageId) (output_min_ts : option Z) :=
  complete_bundle_with_min_and_input m stage output_min_ts None.
Definition complete_bundle (m : WatermarkManager) (stage : StageId) :=
  complete_bundle_with_min m stage None.

(** [release_empty_input_holds]: the number of stages released; a refresh follows
    when there was one. *)
Definition release_stage_empty_inputs (s : StageState) : StageState :=
  set_unproduced_side_inputs
    (filter (λ p, ¬ (p ∈ pending_empty s ∧ p ∈ side_inputs s)) (unproduced_side_inputs s))
    (set_pending_empty ∅ s).

Definition clear_empty_inputs (m : WatermarkManager) : WatermarkManager :=
  with_stages m (fmap (λ s,
    if decide (pending_empty s = ∅) then s else release_stage_empty_inputs s)).

Definition release_empty_input_holds (m : WatermarkManager) : WatermarkManager * nat :=
  let released := size (filter (λ '(_, s), pending_empty s ≠ ∅) (stages m)) in
  if (0 <? released)%nat
  then let '(m', _) := refresh (clear_empty_inputs m) in (m', released)
  else (clear_empty_inputs m, released).

(** * The gates *)

(** [global_window_completion_watermark]. *)
Definition global_window_completion_watermark (allowed_lateness : Z) : Z :=
  Z.min (saturating_i64 (GLOBAL_WINDOW_MAX_TIMESTAMP_MILLIS + allowed_lateness)) MAX_TIMESTAMP.

(** The loop over the incoming edges of [aggregation_required_watermark] and
    [time_sorted_input_required_watermark]; an edge is the windowing strategy its
    PCollection resolves to, if it does: the URN of the window fn and the lateness. *)
Definition edges_window (edges : list (option (option string * Z))) : option string * Z :=
  foldl (λ '(urn, lateness) edge,
    match edge with
    | None => (urn, lateness)
    | Some (window_fn, allowed_lateness) =>
        (match window_fn with Some u => Some u | None => urn end, Z.max lateness allowed_lateness)
    end) (None, 0%Z) edges.

Definition GLOBAL_WINDOWS_FN : string := "beam:window_fn:global_windows:v1".

Definition aggregation_required_watermark (is_aggregation : bool)
    (edges : list (option (option string * Z))) : option Z :=
  if negb is_aggregation then None
  else
    let '(urn, allowed_lateness) := edges_window edges in
    let is_global_window := match urn with Some u => bool_decide (u = GLOBAL_WINDOWS_FN) | None => true end in
    if is_global_window then Some (global_window_completion_watermark allowed_lateness)
    else Some MIN_TIMESTAMP.

Definition time_sorted_input_required_watermark (requires_time_sorted_input : bool)
    (edges : list (option (option string * Z))) : option Z :=
  if negb requires_time_sorted_input then None
  else
    let '(urn, allowed_lateness) := edges_window edges in
    let is_global_window := match urn with Some u => bool_decide (u = GLOBAL_WINDOWS_FN) | None => true end in
    if is_global_window then Some (global_window_completion_watermark allowed_lateness) else None.
