(* ===== verification/WatermarkRefresh.v ===== *)
(** [WatermarkManager::refresh] computes the least watermarks, above the current
    ones, that are closed under the propagation equations of the module. *)
From S2P Require Import Prelude Bytes Varint Windows Watermark.
From stdpp Require Import gmultiset.
Set Warnings "-clear-no-such-hyp".
Local Open Scope Z_scope.

(** * The order on states *)

(** Same stage, with watermarks at least as far. *)
Definition same_rest (s s' : StageState) : Prop :=
  set_output 0 (set_input 0 s) = set_output 0 (set_input 0 s').

#[export] Instance stage_le : SqSubsetEq StageState := λ s s',
  same_rest s s' ∧ input s ≤ input s' ∧ output s ≤ output s'.

#[export] Instance manager_le : SqSubsetEq WatermarkManager := λ m m',
  producers m = producers m' ∧ consumers m = consumers m'
  ∧ side_input_consumers m = side_input_consumers m'
  ∧ ∀ id, match stages m !! id, stages m' !! id with
          | Some s, Some s' => s ⊑ s'
          | None, None => True
          | _, _ => False
          end.

#[export] Instance stage_le_preorder : PreOrder (⊑@{StageState}).
Proof.
  split; [intros s; split; [done|lia]|].
  intros s1 s2 s3 (R1 & I1 & O1) (R2 & I2 & O2). split; [by transitivity (set_output 0 (set_input 0 s2))|lia].
Qed.

#[export] Instance manager_le_preorder : PreOrder (⊑@{WatermarkManager}).
Proof.
  split.
  - intros m. do 3 (split; [done|]). intros id. by destruct (stages m !! id).
  - intros m1 m2 m3 (P1 & C1 & S1 & H1) (P2 & C2 & S2 & H2). do 3 (split; [congruence|]).
    intros id. specialize (H1 id). specialize (H2 id).
    destruct (stages m1 !! id), (stages m2 !! id), (stages m3 !! id); try done. by etrans.
Qed.

Lemma manager_le_lookup (m m' : WatermarkManager) id s :
  m ⊑ m' → stages m !! id = Some s → ∃ s', stages m' !! id = Some s' ∧ s ⊑ s'.
Proof.
  intros (_ & _ & _ & H) E. specialize (H id). rewrite E in H.
  destruct (stages m' !! id); [eauto|done].
Qed.

Lemma manager_le_lookup_r (m m' : WatermarkManager) id s' :
  m ⊑ m' → stages m' !! id = Some s' → ∃ s, stages m !! id = Some s ∧ s ⊑ s'.
Proof.
  intros (_ & _ & _ & H) E. specialize (H id). rewrite E in H.
  destruct (stages m !! id); [eauto|done].
Qed.

(** Equal states are those above each other. *)
Lemma manager_le_antisym (m m' : WatermarkManager) : m ⊑ m' → m' ⊑ m → m = m'.
Proof.
  intros (P1 & C1 & S1 & H1) (_ & _ & _ & H2). destruct m as [st p c si], m' as [st' p' c' si'].
  simpl in *. subst. f_equal. apply map_eq. intros id. specialize (H1 id). specialize (H2 id).
  destruct (st !! id) as [s|], (st' !! id) as [s'|]; try done. f_equal.
  destruct H1 as (R & I1 & O1), H2 as (_ & I2 & O2). destruct s, s'; simpl in *.
  unfold same_rest, set_input, set_output in R. simpl in R. injection R as -> -> -> ->. intros.
  subst. f_equal; lia.
Qed.

(** * The equations are monotone *)

Lemma upstream_mono m m' p : m ⊑ m' → upstream m p ≤ upstream m' p.
Proof.
  intros H. pose proof H as (HP & _ & _ & HS). unfold upstream. rewrite HP.
  destruct (producers m' !! p) as [id|]; simpl; [|lia]. specialize (HS id).
  destruct (stages m !! id), (stages m' !! id); try done. apply HS.
Qed.

Lemma foldl_min_mono m m' ps a b :
  m ⊑ m' → a ≤ b →
  foldl (λ w p, Z.min w (upstream m p)) a ps ≤ foldl (λ w p, Z.min w (upstream m' p)) b ps.
Proof.
  intros H. revert a b. induction ps as [|p ps IH]; intros a b Hab; simpl; [done|].
  apply IH. pose proof (upstream_mono m m' p H). lia.
Qed.

Lemma foldl_upstream_le m ps a : foldl (λ w p, Z.min w (upstream m p)) a ps ≤ a.
Proof. revert a. induction ps as [|p ps IH]; intros a; simpl; [lia|]. etrans; [apply IH|]. lia. Qed.

Lemma foldl_upstream_elem m ps a p :
  p ∈ ps → foldl (λ w p, Z.min w (upstream m p)) a ps ≤ upstream m p.
Proof.
  revert a. induction ps as [|q ps IH]; intros a Hp; [by apply elem_of_nil in Hp|]. simpl.
  apply elem_of_cons in Hp as [->|Hp]; [etrans; [apply foldl_upstream_le|]; lia|by apply IH].
Qed.

(** What two stages that differ only in their watermarks share. *)
Lemma same_rest_fields s s' :
  same_rest s s' →
  main_inputs s = main_inputs s' ∧ side_inputs s = side_inputs s' ∧ source s = source s'
  ∧ pending_min s = pending_min s' ∧ completed s = completed s' ∧ in_flight s = in_flight s'
  ∧ queued s = queued s' ∧ watermark_at_last_run s = watermark_at_last_run s'
  ∧ pending_empty s = pending_empty s' ∧ watermark_holds s = watermark_holds s'
  ∧ residual_holds s = residual_holds s'.
Proof.
  intros R. destruct s, s'. unfold same_rest, set_input, set_output in R. simpl in *.
  injection R. intros. subst. by split_and!.
Qed.

Lemma compute_input_mono m m' s s' : m ⊑ m' → s ⊑ s' → compute_input m s ≤ compute_input m' s'.
Proof.
  intros H (R & _). apply same_rest_fields in R as (Hm & Hs & Hsrc & _).
  unfold compute_input, is_source. rewrite Hsrc, Hm, Hs.
  destruct (source s'); [lia|]. by apply foldl_min_mono.
Qed.

Lemma compute_output_mono m m' s s' : m ⊑ m' → s ⊑ s' → compute_output m s ≤ compute_output m' s'.
Proof.
  intros H (R & _).
  apply same_rest_fields in R as (Hm & Hs & Hsrc & Hp & Hc & Hi & Hq & Hl & Hpe & Hw & Hr).
  assert (Hh : stage_min_hold s = stage_min_hold s') by (unfold stage_min_hold; by rewrite Hw, Hr).
  unfold compute_output. rewrite Hsrc, Hm, Hp, Hc, Hi, Hq, Hl, Hpe, Hh.
  pose proof (foldl_min_mono m m' (main_inputs s') _ _ H (Z.le_refl MAX_TIMESTAMP)) as Hmin.
  unfold min_upstream.
  destruct (source s'), (negb (bool_decide (pending_empty s' = ∅))), (stage_min_hold s'),
    (negb (completed s') && ((0 <? in_flight s')%nat || (0 <? queued s')%nat)); lia.
Qed.

(** Nothing is computed above [MAX_TIMESTAMP]. *)
Lemma compute_input_max m s : compute_input m s ≤ MAX_TIMESTAMP.
Proof. unfold compute_input. destruct (is_source s); [lia|]. apply foldl_upstream_le. Qed.

Lemma source_output_max src : source_output src ≤ MAX_TIMESTAMP.
Proof.
  unfold source_output. destruct (finished src); [lia|]. case_decide; [done|].
  apply (map_fold_weak_ind (λ r _, r ≤ MAX_TIMESTAMP)); [lia|].
  intros i p mm r _ Hr. destruct (p_idle p); lia.
Qed.

Lemma compute_output_max m s : compute_output m s ≤ MAX_TIMESTAMP.
Proof.
  unfold compute_output. destruct (source s) as [src|].
  - pose proof (source_output_max src). destruct (negb (completed s) && _), (negb _), (stage_min_hold s); lia.
  - pose proof (foldl_upstream_le m (main_inputs s) MAX_TIMESTAMP). unfold min_upstream.
    destruct (negb (completed s) && _), (negb _), (stage_min_hold s); lia.
Qed.

(** * One stage of one pass *)

(** Both equations of a stage hold as inequalities: nothing is left to raise. *)
Definition closed_at (m : WatermarkManager) (id : StageId) : Prop :=
  ∀ s, stages m !! id = Some s → compute_input m s ≤ input s ∧ compute_output m s ≤ output s.

Definition closed (m : WatermarkManager) : Prop := ∀ id, closed_at m id.

(** A watermark of [id] is further in [m'] than in [m]. *)
Definition grew (m m' : WatermarkManager) (id : StageId) : Prop :=
  ∃ s s', stages m !! id = Some s ∧ stages m' !! id = Some s'
          ∧ (input s < input s' ∨ output s < output s').

Lemma grew_trans (m m1 m2 : WatermarkManager) id :
  m ⊑ m1 → m1 ⊑ m2 → grew m m2 id ↔ grew m m1 id ∨ grew m1 m2 id.
Proof.
  intros H1 H2. unfold grew. split.
  - intros (s & s2 & E & E2 & Hg). destruct (manager_le_lookup _ _ _ _ H1 E) as (s1 & E1 & _ & ? & ?).
    destruct (Z.eq_dec (input s) (input s1)), (Z.eq_dec (output s) (output s1));
      [right; exists s1, s2|left; exists s, s1..]; split_and!; (done || lia).
  - intros [(s & s1 & E & E1 & Hg)|(s1 & s2 & E1 & E2 & Hg)].
    + destruct (manager_le_lookup _ _ _ _ H2 E1) as (s2 & E2 & _ & ? & ?).
      exists s, s2. split_and!; (done || lia).
    + destruct (manager_le_lookup_r _ _ _ _ H1 E1) as (s & E & _ & ? & ?).
      exists s, s2. split_and!; (done || lia).
Qed.

Lemma grew_irrefl m id : ¬ grew m m id.
Proof. intros (s & s' & E & E' & H). rewrite E in E'. injection E' as <-. lia. Qed.

(** The new state of a stage a pass visits. *)
Definition raised (m : WatermarkManager) (s : StageState) : StageState :=
  set_output (Z.max (output s) (compute_output m s)) (set_input (Z.max (input s) (compute_input m s)) s).

Lemma raised_le m s : s ⊑ raised m s.
Proof. split; [by destruct s|]. simpl. lia. Qed.

Lemma insert_le m id s s' :
  stages m !! id = Some s → s ⊑ s' → m ⊑ with_stages m (<[id := s']>).
Proof.
  intros E H. do 3 (split; [done|]). intros i. simpl. destruct (decide (i = id)) as [->|Hne].
  - by rewrite E, lookup_insert_eq.
  - rewrite lookup_insert_ne by done. by destruct (stages m !! i).
Qed.

Lemma refresh_stage_le m id : m ⊑ (refresh_stage m id).1.
Proof.
  unfold refresh_stage. destruct (stages m !! id) as [s|] eqn:E; [|done].
  apply (insert_le m id s (raised m s) E). apply raised_le.
Qed.

Lemma set_self s : set_output (output s) (set_input (input s) s) = s.
Proof. by destruct s. Qed.

Lemma with_stages_self m id s : stages m !! id = Some s → with_stages m (<[id := s]>) = m.
Proof. intros E. destruct m. unfold with_stages. simpl in *. f_equal. by apply insert_id. Qed.

Lemma refresh_stage_moved m id m' moved :
  refresh_stage m id = (m', moved) →
  (moved = true ↔ grew m m' id) ∧ (moved = false → m' = m ∧ closed_at m id)
  ∧ (∀ i, i ≠ id → ¬ grew m m' i).
Proof.
  unfold refresh_stage. destruct (stages m !! id) as [s|] eqn:E.
  - intros [= <- <-]. split_and!.
    + rewrite orb_true_iff, !Z.ltb_lt. split.
      * intros H. eexists s, _. simpl. rewrite lookup_insert_eq. split_and!; [done|done|]. simpl. lia.
      * intros (s1 & s2 & E1 & E2 & H). simpl in E2. rewrite lookup_insert_eq in E2.
        simplify_eq. simpl in H. lia.
    + rewrite orb_false_iff, !Z.ltb_ge. intros [HI HO]. rewrite !Z.max_l by lia.
      rewrite set_self, with_stages_self by done. split; [done|]. intros s' E'. simplify_eq. done.
    + intros i Hne (s1 & s2 & E1 & E2 & H). simpl in E2. rewrite lookup_insert_ne in E2 by done.
      simplify_eq. lia.
  - intros [= <- <-]. split_and!; [|intros _; split; [done|intros ? ?; congruence]|].
    + split; [done|]. intros H. by apply grew_irrefl in H.
    + intros i _ H. by apply grew_irrefl in H.
Qed.

(** A closed state above the current one stays above it. *)
Lemma refresh_stage_least m id (M : WatermarkManager) : m ⊑ M → closed M → (refresh_stage m id).1 ⊑ M.
Proof.
  intros H Hc. unfold refresh_stage. destruct (stages m !! id) as [s|] eqn:E; [|done].
  destruct (manager_le_lookup _ _ _ _ H E) as (S & ES & Hle). destruct (Hc id S ES) as [HI HO].
  pose proof H as (P & C & SI & HS). do 3 (split; [done|]). intros i. simpl.
  destruct (decide (i = id)) as [->|Hne].
  - rewrite lookup_insert_eq, ES. destruct Hle as (R & I & O).
    pose proof (compute_input_mono m M s S H ltac:(done)).
    pose proof (compute_output_mono m M s S H ltac:(done)).
    split; [by destruct s|]. simpl. lia.
  - rewrite lookup_insert_ne by done. apply HS.
Qed.

(** Every watermark is the old one or what the equations give: none is invented. *)
Definition justified (m0 m : WatermarkManager) : Prop :=
  ∀ id s0 s, stages m0 !! id = Some s0 → stages m !! id = Some s →
    input s ≤ Z.max (input s0) (compute_input m s) ∧ output s ≤ Z.max (output s0) (compute_output m s).

Lemma refresh_stage_justified (m0 m : WatermarkManager) id :
  m0 ⊑ m → justified m0 m → justified m0 (refresh_stage m id).1.
Proof.
  intros H0 Hj. pose proof (refresh_stage_le m id) as Hle.
  intros i s0 s' E0 E'.
  destruct (manager_le_lookup_r _ _ _ _ Hle E') as (s & E & Hs).
  destruct (Hj i s0 s E0 E) as [HI HO].
  pose proof (compute_input_mono _ _ _ _ Hle Hs). pose proof (compute_output_mono _ _ _ _ Hle Hs).
  unfold refresh_stage in E'. destruct (stages m !! id) as [t|] eqn:Et.
  - simpl in E'. destruct (decide (i = id)) as [->|Hne].
    + rewrite lookup_insert_eq in E'. rewrite E in Et. injection Et as ->. injection E' as <-.
      simpl in *. lia.
    + rewrite lookup_insert_ne in E' by done. assert (s' = s) as -> by congruence. lia.
  - simpl in E'. assert (s' = s) as -> by congruence. lia.
Qed.

(** * The measure that bounds the passes *)

(** Watermarks stay between the two sentinels. *)
Definition stage_bounded (s : StageState) : Prop :=
  MIN_TIMESTAMP ≤ input s ≤ MAX_TIMESTAMP ∧ MIN_TIMESTAMP ≤ output s ≤ MAX_TIMESTAMP.

Definition bounded (m : WatermarkManager) : Prop := map_Forall (λ _, stage_bounded) (stages m).

(** How far the watermarks of a stage can still move. *)
Definition room (s : StageState) : Z := (MAX_TIMESTAMP - input s) + (MAX_TIMESTAMP - output s).

Definition total_room (m : WatermarkManager) : Z := map_fold (λ _ s acc, room s + acc) 0 (stages m).

Lemma total_room_delete (st : gmap StageId StageState) id s :
  st !! id = Some s →
  map_fold (λ _ s acc, room s + acc) 0 st = room s + map_fold (λ _ s acc, room s + acc) 0 (delete id st).
Proof. intros E. apply (map_fold_delete_L (λ _ s acc, room s + acc) 0 id s); [intros; lia|done]. Qed.

Lemma total_room_insert m id s s' :
  stages m !! id = Some s →
  total_room (with_stages m (<[id := s']>)) = total_room m - room s + room s'.
Proof.
  intros E. unfold total_room. simpl.
  rewrite (total_room_delete (<[id:=s']> (stages m)) id s') by apply lookup_insert_eq.
  rewrite delete_insert_eq. rewrite (total_room_delete (stages m) id s E). lia.
Qed.

Lemma room_bounds s : stage_bounded s → 0 ≤ room s < 2 ^ 56.
Proof. unfold stage_bounded, room, MIN_TIMESTAMP, MAX_TIMESTAMP,
  BEAM_MIN_TIMESTAMP_MILLIS, BEAM_MAX_TIMESTAMP_MILLIS. lia. Qed.

Lemma total_room_bounds m : bounded m → 0 ≤ total_room m ≤ Z.of_nat (size (stages m)) * 2 ^ 56.
Proof.
  unfold bounded, total_room. generalize (stages m). clear m. intros st.
  induction st as [|id s st Hid IH] using map_ind; intros Hb.
  - rewrite map_fold_empty, map_size_empty. lia.
  - rewrite map_Forall_insert in Hb by done. destruct Hb as [Hs Hb]. specialize (IH Hb).
    rewrite map_fold_insert_L by (done || (intros; lia)). rewrite map_size_insert_None by done.
    pose proof (room_bounds s Hs). lia.
Qed.

Lemma refresh_stage_bounded m id : bounded m → bounded (refresh_stage m id).1.
Proof.
  intros Hb. unfold refresh_stage. destruct (stages m !! id) as [s|] eqn:E; [|done].
  unfold bounded. simpl. apply map_Forall_insert_2; [|done]. pose proof (Hb _ _ E) as Hs. simpl in Hs.
  pose proof (compute_input_max m s). pose proof (compute_output_max m s).
  unfold stage_bounded in *. simpl. lia.
Qed.

Lemma refresh_stage_room m id m' moved :
  refresh_stage m id = (m', moved) →
  total_room m' + (if moved then 1 else 0) ≤ total_room m.
Proof.
  unfold refresh_stage. destruct (stages m !! id) as [s|] eqn:E; intros [= <- <-]; [|lia].
  rewrite (total_room_insert m id s) by done. unfold room. simpl.
  destruct (Z.ltb_spec (input s) (compute_input m s)), (Z.ltb_spec (output s) (compute_output m s));
    simpl; lia.
Qed.

(** * Passes *)

(** What any sequence of stage visits guarantees. *)
Record progress (m : WatermarkManager) (adv : gset StageId) (m' : WatermarkManager)
    (adv' : gset StageId) : Prop := {
  prog_le : m ⊑ m';
  prog_bounded : bounded m → bounded m';
  prog_least : ∀ M, m ⊑ M → closed M → m' ⊑ M;
  prog_justified : ∀ m0, m0 ⊑ m → justified m0 m → justified m0 m';
  prog_advanced : ∀ id, id ∈ adv' ↔ id ∈ adv ∨ grew m m' id;
}.

Lemma progress_refl m adv : progress m adv m adv.
Proof.
  split; try done. intros id. split; [by left|]. intros [?|H]; [done|]. by apply grew_irrefl in H.
Qed.

Lemma progress_trans m1 a1 m2 a2 m3 a3 :
  progress m1 a1 m2 a2 → progress m2 a2 m3 a3 → progress m1 a1 m3 a3.
Proof.
  intros [L1 B1 E1 J1 A1] [L2 B2 E2 J2 A2]. split.
  - by etrans.
  - auto.
  - auto.
  - intros m0 H Hj. apply J2; [by etrans|by apply J1].
  - intros id. rewrite A2, A1, (grew_trans m1 m2 m3) by done. tauto.
Qed.

Lemma refresh_stage_progress m adv id m' moved :
  refresh_stage m id = (m', moved) →
  progress m adv m' (if moved then adv ∪ {[id]} else adv).
Proof.
  intros H. pose proof (refresh_stage_moved _ _ _ _ H) as (Hm & Hf & Ho).
  assert (Hm' : (refresh_stage m id).1 = m') by (by rewrite H).
  split.
  - rewrite <- Hm'. apply refresh_stage_le.
  - rewrite <- Hm'. apply refresh_stage_bounded.
  - rewrite <- Hm'. intros M. apply refresh_stage_least.
  - rewrite <- Hm'. intros m0. apply refresh_stage_justified.
  - intros i. destruct (decide (i = id)) as [->|Hne].
    + destruct moved.
      * split; [intros _; right; by apply Hm|set_solver].
      * split; [by left|]. intros [?|Hg]; [done|]. by apply Hm in Hg.
    + specialize (Ho i Hne). destruct moved; set_solver.
Qed.

Lemma refresh_pass_spec ids m adv m' adv' changed :
  refresh_pass ids m adv = (m', adv', changed) →
  progress m adv m' adv'
  ∧ total_room m' + (if changed then 1 else 0) ≤ total_room m
  ∧ (changed = false → m' = m ∧ Forall (closed_at m) ids).
Proof.
  unfold refresh_pass.
  assert (Hgen : ∀ ids m adv c m' adv' c',
    foldl (λ '(m, advanced, changed) id,
      let '(m', moved) := refresh_stage m id in
      (m', if moved : bool then advanced ∪ {[id]} else advanced, changed || moved)) (m, adv, c) ids
    = (m', adv', c') →
    progress m adv m' adv'
    ∧ total_room m' + (if c' then 1 else 0) ≤ total_room m + (if c then 1 else 0)
    ∧ (c' = false → c = false ∧ m' = m ∧ Forall (closed_at m) ids)).
  { clear. induction ids as [|id ids IH]; intros m adv c m' adv' c' H; simpl in H.
    - injection H as <- <- <-. split; [apply progress_refl|]. split; [lia|].
      intros ->. by split_and!; [..|constructor].
    - destruct (refresh_stage m id) as [m1 moved] eqn:E1.
      apply IH in H as (Hp & Hr & Hc).
      pose proof (refresh_stage_progress m adv id m1 moved E1) as Hp1.
      pose proof (refresh_stage_room m id m1 moved E1) as Hr1.
      pose proof (refresh_stage_moved _ _ _ _ E1) as (_ & Hf & _).
      split; [by eapply progress_trans|]. split; [destruct moved, c; simpl in *; lia|].
      intros Hc'. destruct (Hc Hc') as (Hor & -> & HF). apply orb_false_iff in Hor as [-> ->].
      destruct (Hf eq_refl) as [-> Hcl]. by split_and!; [..|constructor]. }
  intros H. apply Hgen in H as (Hp & Hr & Hc). split; [done|]. split; [lia|].
  intros Hf. by apply Hc in Hf as (_ & ? & ?).
Qed.

Lemma refresh_loop_spec k ids m adv m' adv' changed :
  refresh_loop k ids m adv = (m', adv', changed) →
  progress m adv m' adv'
  ∧ total_room m' + (if changed then 2 ^ Z.of_nat k else 0) ≤ total_room m
  ∧ (changed = false → Forall (closed_at m') ids).
Proof.
  revert m adv m' adv' changed. induction k as [|k IH]; intros m adv m' adv' changed H.
  - apply refresh_pass_spec in H as (Hp & Hr & Hc). split; [done|]. split.
    + destruct changed; simpl in *; lia.
    + intros Hf. by destruct (Hc Hf) as [-> HF].
  - cbn [refresh_loop] in H. destruct (refresh_loop k ids m adv) as [[m1 a1] c1] eqn:E1.
    apply IH in E1 as (Hp1 & Hr1 & Hc1). destruct c1.
    + apply IH in H as (Hp & Hr & Hc). split; [by eapply progress_trans|].
      split; [|done]. rewrite Nat2Z.inj_succ, Z.pow_succ_r by lia. destruct changed; lia.
    + injection H as <- <- <-. split; [done|]. split; [lia|done].
Qed.

(** * Refresh *)

Lemma elem_of_stage_ids m id : id ∈ stage_ids m ↔ is_Some (stages m !! id).
Proof.
  unfold stage_ids, sort_ids. rewrite merge_sort_Permutation, elem_of_elements. apply elem_of_dom.
Qed.

Lemma bound_enough m : bounded m → total_room m < 2 ^ Z.of_nat (refresh_bound m).
Proof.
  intros Hb. apply total_room_bounds in Hb. unfold refresh_bound.
  assert (Hs : (size (stages m) ≤ 2 ^ Nat.log2_up (size (stages m)))%nat).
  { destruct (decide (1 < size (stages m))%nat).
    - by apply Nat.log2_up_spec.
    - rewrite Nat.log2_up_eqn0 by lia. simpl. lia. }
  rewrite Nat2Z.inj_add, Z.pow_add_r by lia.
  apply Nat2Z.inj_le in Hs. rewrite Nat2Z.inj_pow in Hs.
  change (Z.of_nat 2) with 2 in Hs. change (2 ^ Z.of_nat 57) with (2 * 2 ^ 56).
  set (p := 2 ^ Z.of_nat (Nat.log2_up (size (stages m)))) in *.
  assert (0 < p) by (apply Z.pow_pos_nonneg; lia). nia.
Qed.

(** The loop ends by itself within the bound, with a pass that changes nothing. *)
Lemma refresh_terminates m :
  bounded m →
  ∃ m' adv, refresh_loop (refresh_bound m) (stage_ids m) m ∅ = (m', adv, false)
            ∧ progress m ∅ m' adv ∧ closed m'.
Proof.
  intros Hb. destruct (refresh_loop _ (stage_ids m) m ∅) as [[m' adv] changed] eqn:E.
  apply refresh_loop_spec in E as (Hp & Hr & Hc).
  assert (changed = false) as ->.
  { destruct changed; [|done]. pose proof (bound_enough m Hb).
    pose proof (total_room_bounds m' (prog_bounded _ _ _ _ Hp Hb)). lia. }
  exists m', adv. split; [done|]. split; [done|]. intros id s Hs.
  specialize (Hc eq_refl). rewrite Forall_forall in Hc. apply (Hc id); [|done].
  apply list_elem_of_In, elem_of_stage_ids. destruct (manager_le_lookup_r _ _ _ _ (prog_le _ _ _ _ Hp) Hs) as (s0 & ? & _).
  by exists s0.
Qed.

Lemma refresh_progress m :
  bounded m →
  ∃ adv, progress m ∅ (refresh m).1 adv ∧ (refresh m).2 = sort_ids (elements adv) ∧ closed (refresh m).1.
Proof.
  intros Hb. destruct (refresh_terminates m Hb) as (m' & adv & E & Hp & Hc).
  unfold refresh. rewrite E. by exists adv.
Qed.

Lemma refresh_closed_id m : bounded m → closed m → refresh m = (m, []).
Proof.
  intros Hb Hc. destruct (refresh_progress m Hb) as (adv & Hp & Ha & _).
  assert (E : (refresh m).1 = m).
  { apply manager_le_antisym; [by eapply prog_least|by eapply prog_le]. }
  rewrite (surjective_pairing (refresh m)), E, Ha. f_equal.
  assert (adv = ∅) as ->.
  { apply set_eq. intros id. rewrite (prog_advanced _ _ _ _ Hp), E. split; [|set_solver].
    intros [?|Hg]; [done|]. by apply grew_irrefl in Hg. }
  by rewrite elements_empty.
Qed.

(** ** What a refresh may not exceed *)

Lemma min_upstream_le m ps p : p ∈ ps → min_upstream m ps ≤ upstream m p.
Proof. apply foldl_upstream_elem. Qed.

(** The computed output of a stage is below everything that holds it back. *)
Lemma compute_output_upper m s :
  (∀ h, stage_min_hold s = Some h → compute_output m s ≤ h)
  ∧ (pending_empty s ≠ ∅ → compute_output m s ≤ MIN_TIMESTAMP)
  ∧ (completed s = false → (0 < in_flight s)%nat ∨ (0 < queued s)%nat →
       compute_output m s ≤ watermark_at_last_run s)
  ∧ (source s = None → compute_output m s ≤ pending_min s
       ∧ ∀ p, p ∈ main_inputs s → compute_output m s ≤ upstream m p).
Proof.
  unfold compute_output. cbv zeta.
  set (w0 := match source s with Some _ => _ | None => _ end).
  assert (H0 : source s = None → w0 ≤ pending_min s ∧ ∀ p, p ∈ main_inputs s → w0 ≤ upstream m p).
  { intros Hs. unfold w0. rewrite Hs. split; [lia|]. intros p Hp. pose proof (min_upstream_le m _ p Hp). lia. }
  clearbody w0. set (w1 := if _ && _ then _ else w0). assert (H1 : w1 ≤ w0) by (unfold w1; case_match; lia).
  assert (H1' : completed s = false → (0 < in_flight s)%nat ∨ (0 < queued s)%nat → w1 ≤ watermark_at_last_run s).
  { intros Hc Hw. unfold w1. rewrite Hc. destruct (Nat.ltb_spec 0 (in_flight s)), (Nat.ltb_spec 0 (queued s));
      simpl; lia. }
  clearbody w1. set (w2 := if negb _ then _ else w1). assert (H2 : w2 ≤ w1) by (unfold w2; case_match; lia).
  assert (H2' : pending_empty s ≠ ∅ → w2 ≤ MIN_TIMESTAMP).
  { intros Hp. unfold w2. rewrite bool_decide_false by done. simpl. lia. }
  clearbody w2. set (w3 := match stage_min_hold s with Some h => _ | None => w2 end).
  assert (H3 : w3 ≤ w2) by (unfold w3; case_match; lia). split_and!.
  - intros h Hh. unfold w3. rewrite Hh. lia.
  - intros Hp. specialize (H2' Hp). lia.
  - intros Hc Hw. specialize (H1' Hc Hw). lia.
  - intros Hs. destruct (H0 Hs) as [Ha Hb]. split; [lia|]. intros p Hp. specialize (Hb p Hp). lia.
Qed.

(** Never unfold the bounded loop to compare two states. *)
#[global] Opaque refresh refresh_loop refresh_bound.
