(* ===== verification/WatermarkBundles.v ===== *)
(** Stage eligibility: the invariant of the manager under every public operation,
    what a completed bundle does to its consumers, and when work remains. *)
From S2P Require Import Prelude Bytes Varint Windows Watermark WatermarkRefresh.
From stdpp Require Import gmultiset.
Set Warnings "-clear-no-such-hyp".

(** * Sorting and removing duplicates *)

Lemma elem_of_dedup x l : x ∈ dedup l ↔ x ∈ l.
Proof.
  induction l as [|y l IH]; [done|]. cbn [dedup]. destruct l as [|z l]; [done|].
  case_decide as H; [subst|]; rewrite ?elem_of_cons in *; rewrite ?elem_of_cons; tauto.
Qed.

Lemma elem_of_ready_stages m id : id ∈ ready_stages m ↔ stage_is_ready m id = true.
Proof.
  unfold ready_stages. rewrite elem_of_sort_ids, list_elem_of_filter, elem_of_elements, elem_of_dom.
  split; [tauto|]. intros H. split; [done|]. unfold stage_is_ready in H.
  destruct (stages m !! id) as [s|]; [by eexists|done].
Qed.

(** * Readiness *)

(** What the readiness of a stage says of its state. *)
Record can_run (s : StageState) : Prop := {
  cr_slot : in_flight s < max_in_flight s;
  cr_main : unproduced s = ∅;
  cr_side : unproduced_side_inputs s = ∅;
  cr_first : completed s = false → 0 < in_flight s → 0 < queued s;
  cr_work : completed s = true →
    rerun_pending s = true ∨ 0 < queued s ∨ pending s ≠ ∅
    ∨ kind s = WatermarkGated ∧ (watermark_at_last_run s < Z.min (input s) (pending_min s))%Z;
  cr_gate : kind s ≠ Ordinary → (required_watermark s ≤ input s)%Z;
}.

Lemma ready_can_run s : is_ready_without_upstream_barrier s = true ↔ can_run s.
Proof.
  unfold is_ready_without_upstream_barrier. split.
  - intros H. destruct (Nat.leb_spec (max_in_flight s) (in_flight s)); [done|].
    case_bool_decide as Hm; [|done]. case_bool_decide as Hs; [|done]. simpl in H.
    destruct (completed s) eqn:Hc; simpl in H.
    + destruct (rerun_pending s || _ || _ || _) eqn:Hw; [|done]. simpl in H.
      split; try done; [congruence| |].
      * intros _. rewrite !orb_true_iff in Hw. destruct Hw as [[[Hw|Hw]|Hw]|Hw]; [by left| | |].
        -- apply Nat.ltb_lt in Hw. right; by left.
        -- right; right; left. by case_bool_decide.
        -- right; right; right. apply andb_true_iff in Hw as [Hk Hl].
           apply bool_decide_eq_true in Hk. apply Z.ltb_lt in Hl. done.
      * intros Hk. destruct (kind s); [done|by apply Z.leb_le..].
    + destruct (Nat.ltb_spec 0 (in_flight s)), (Nat.eqb_spec (queued s) 0); try done;
        (split; try done; [lia|congruence|]); intros Hk; destruct (kind s); try done; by apply Z.leb_le.
  - intros [Hslot Hm Hs Hf Hw Hg].
    destruct (Nat.leb_spec (max_in_flight s) (in_flight s)); [lia|].
    rewrite !bool_decide_true by done. simpl.
    assert (Hgate : match kind s with Ordinary => true | _ => (required_watermark s <=? input s)%Z end = true).
    { destruct (kind s); [done|apply Z.leb_le, Hg; done..]. }
    destruct (completed s) eqn:Hc; simpl.
    + rewrite Hgate. destruct (rerun_pending s || _ || _ || _) eqn:Hor; [done|].
      rewrite !orb_false_iff in Hor. destruct Hor as [[[H1 H2] H3] H4].
      destruct (Hw eq_refl) as [Hr|[Hq|[Hp|[Hk Hl]]]]; [congruence| | |].
      * apply Nat.ltb_ge in H2. lia.
      * by rewrite bool_decide_false in H3.
      * rewrite bool_decide_true in H4 by done. apply Z.ltb_ge in H4. lia.
    + destruct (Nat.ltb_spec 0 (in_flight s)), (Nat.eqb_spec (queued s) 0); try done.
      specialize (Hf eq_refl ltac:(lia)). lia.
Qed.

Lemma stage_is_ready_can_run m id :
  stage_is_ready m id = true ↔
  ∃ s, stages m !! id = Some s ∧ can_run s
       ∧ (kind s ≠ Ordinary → upstream_chain_is_quiescent m s = true).
Proof.
  unfold stage_is_ready. destruct (stages m !! id) as [s|] eqn:E.
  - destruct (is_ready_without_upstream_barrier s) eqn:Hr; simpl.
    + apply ready_can_run in Hr. case_decide as Hk.
      * split; [|done]. intros _. exists s. split_and!; done.
      * split; [intros H; exists s; split_and!; done|]. intros (s' & [= <-] & _ & Hq). by apply Hq.
    + split; [done|]. intros (s' & [= <-] & Hc & _). apply ready_can_run in Hc. congruence.
  - split; [done|]. by intros (s & ? & _).
Qed.

(** A stage reported ready can be started. *)
Definition started (s : StageState) : StageState :=
  let s := set_in_flight (in_flight s + 1) s in
  let s := set_queued (queued s - 1) s in
  let s := set_rerun_pending false s in
  let s :=
    if bool_decide (kind s = TimeSortedInputWatermarkGated) && (required_watermark s <=? input s)%Z
    then set_time_sorted_input_closed true s else s in
  if (in_flight s =? 1)%nat then
    set_watermark_at_last_run (Z.min (input s) (pending_min s))
      (set_pending_min MAX_TIMESTAMP (set_pending ∅ s))
  else s.

(** [start_bundle] by its guards. *)
Lemma start_bundle_spec m id m' :
  start_bundle m id = Ok m' ↔
  ∃ s, stages m !! id = Some s
    ∧ in_flight s < max_in_flight s
    ∧ (completed s = false → 0 < in_flight s → 0 < queued s)
    ∧ (completed s = true → rerun_pending s = true ∨ 0 < queued s ∨ pending s ≠ ∅
         ∨ kind s = WatermarkGated ∧ (watermark_at_last_run s < input s)%Z)
    ∧ unproduced s = ∅
    ∧ m' = with_stages m (<[id := started s]>).
Proof.
  unfold start_bundle. destruct (stages m !! id) as [s|] eqn:E.
  2:{ split; [done|]. by intros (s & ? & _). }
  fold (started s).
  assert (Hex : ∀ Q : StageState → Prop, (∃ s', Some s = Some s' ∧ Q s') ↔ Q s).
  { intros Q. split; [by intros (s' & [= <-] & H)|]. intros H. by exists s. }
  rewrite Hex. clear Hex.
  destruct (Nat.leb_spec (max_in_flight s) (in_flight s)); [split; [done|lia]|].
  destruct (negb (completed s) && (0 <? in_flight s) && (queued s =? 0)) eqn:Hf.
  { split; [done|]. rewrite !andb_true_iff, negb_true_iff, Nat.ltb_lt, Nat.eqb_eq in Hf.
    destruct Hf as [[? ?] ?]. intros (_ & Hf & _). specialize (Hf ltac:(done) ltac:(lia)). lia. }
  assert (Hfirst : completed s = false → 0 < in_flight s → 0 < queued s).
  { intros Hc Hi. rewrite Hc in Hf. apply Nat.ltb_lt in Hi. rewrite Hi in Hf. simpl in Hf.
    apply Nat.eqb_neq in Hf. lia. }
  destruct (completed s && _ && _ && _ && _) eqn:Hw.
  { split; [done|]. rewrite !andb_true_iff, !negb_true_iff, Nat.eqb_eq in Hw.
    destruct Hw as [[[[Hc Hr] Hq] Hg] Hp]. apply bool_decide_eq_true in Hp.
    intros (_ & _ & Hwork & _). destruct (Hwork Hc) as [?|[?|[?|[Hk Hl]]]]; [congruence|lia|done|].
    rewrite bool_decide_true in Hg by done. apply Z.ltb_ge in Hg. lia. }
  assert (Hwork : completed s = true → rerun_pending s = true ∨ 0 < queued s ∨ pending s ≠ ∅
         ∨ kind s = WatermarkGated ∧ (watermark_at_last_run s < input s)%Z).
  { intros Hc. rewrite Hc in Hw. destruct (rerun_pending s); [by left|].
    destruct (Nat.eqb_spec (queued s) 0); [|right; left; lia].
    destruct (decide (pending s = ∅)) as [Hp|Hp]; [|right; right; by left].
    rewrite (bool_decide_true (pending s = ∅)) in Hw by done. simpl in Hw.
    case_bool_decide as Hk; [|done]. destruct (Z.ltb_spec (watermark_at_last_run s) (input s)); [|done].
    right; right; right. done. }
  clear Hw. destruct (decide (unproduced s = ∅)) as [Hu|Hu];
    [rewrite bool_decide_true by done|rewrite bool_decide_false by done]; cbn [negb].
  - split; [intros [= <-]; split_and!; done|]. by intros (_ & _ & _ & _ & ->).
  - split; [done|]. by intros (_ & _ & _ & ? & _).
Qed.

Lemma ready_start m id :
  stage_is_ready m id = true →
  ∃ s, stages m !! id = Some s ∧ start_bundle m id = Ok (with_stages m (<[id := started s]>)).
Proof.
  intros H. apply stage_is_ready_can_run in H as (s & E & [Hslot Hm Hs Hf Hw Hg] & _).
  exists s. split; [done|]. apply start_bundle_spec. exists s. split_and!; try done.
  intros Hc. destruct (Hw Hc) as [?|[?|[?|[? ?]]]]; [tauto..|]. right; right; right. split; [done|lia].
Qed.

Lemma started_in_flight s : in_flight (started s) = in_flight s + 1.
Proof. unfold started. by repeat case_match. Qed.

(** * The upstream barrier *)

(** [ancestor m s a]: stage [a] is reached from [s] by following producers of main
    and side inputs, one step or more. *)
Inductive ancestor (m : WatermarkManager) : StageState → StageState → Prop :=
| ancestor_direct s a : a ∈ upstream_stages m s → ancestor m s a
| ancestor_step s p a : p ∈ upstream_stages m s → ancestor m p a → ancestor m s a.

Lemma elem_of_upstream_stages m s a :
  a ∈ upstream_stages m s ↔
  ∃ p id, p ∈ main_inputs s ++ side_inputs s ∧ producers m !! p = Some id ∧ stages m !! id = Some a.
Proof.
  unfold upstream_stages. rewrite list_elem_of_omap. split.
  - intros (p & Hp & H). destruct (producers m !! p) as [id|] eqn:E; [|done]. exists p, id. done.
  - intros (p & id & Hp & E & H). exists p. split; [done|]. by rewrite E.
Qed.

Lemma chain_quiescent_ancestors fuel m s a :
  chain_is_quiescent fuel m s = true → ancestor m s a → quiescent a = true.
Proof.
  intros Hc Ha. revert fuel Hc. induction Ha as [s a Hin|s p a Hin _ IH]; intros [|fuel] Hc; try done;
    cbn [chain_is_quiescent] in Hc; rewrite forallb_forall in Hc;
    apply list_elem_of_In in Hin; apply Hc in Hin; apply andb_true_iff in Hin as [Hq Hrest].
  - done.
  - by apply (IH fuel).
Qed.

(** On a graph whose producers have smaller ranks, the depth never runs out: the
    answer of the bounded walk is that of the unbounded one. *)
Definition producers_ranked (m : WatermarkManager) (rank : StageId → nat) : Prop :=
  ∀ id s p pid, stages m !! id = Some s → p ∈ main_inputs s ++ side_inputs s →
    producers m !! p = Some pid → rank pid < rank id.

Lemma chain_quiescent_complete m rank fuel id s :
  producers_ranked m rank → stages m !! id = Some s → rank id < fuel →
  (∀ a, ancestor m s a → quiescent a = true) → chain_is_quiescent fuel m s = true.
Proof.
  intros Hr. revert id s. induction fuel as [|fuel IH]; intros id s E Hf Hq; [lia|].
  cbn [chain_is_quiescent]. apply forallb_forall. intros a Ha. apply list_elem_of_In in Ha.
  apply andb_true_iff. split; [apply Hq; by constructor|].
  pose proof Ha as Ha'. apply elem_of_upstream_stages in Ha' as (p & pid & Hp & HP & HS).
  apply (IH pid); [done| |].
  - specialize (Hr id s p pid E Hp HP). lia.
  - intros b Hb. apply Hq. by eapply ancestor_step.
Qed.

(** * Completion *)

Lemma is_complete_spec m :
  is_complete m = true ↔
  ∀ id s, stages m !! id = Some s →
    completed s = true ∧ unproduced_side_inputs s = ∅ ∧ pending s = ∅ ∧ rerun_pending s = false
    ∧ queued s = 0 ∧ in_flight s = 0
    ∧ ¬ (kind s = WatermarkGated ∧ (watermark_at_last_run s < input s)%Z).
Proof.
  unfold is_complete. rewrite forallb_forall.
  assert (Hb : ∀ s, (completed s && bool_decide (unproduced_side_inputs s = ∅)
      && bool_decide (pending s = ∅) && negb (rerun_pending s) && (queued s =? 0) && (in_flight s =? 0)
      && negb (bool_decide (kind s = WatermarkGated) && (watermark_at_last_run s <? input s)%Z)) = true
    ↔ completed s = true ∧ unproduced_side_inputs s = ∅ ∧ pending s = ∅ ∧ rerun_pending s = false
      ∧ queued s = 0 ∧ in_flight s = 0 ∧ ¬ (kind s = WatermarkGated ∧ (watermark_at_last_run s < input s)%Z)).
  { intros s. rewrite !andb_true_iff, !negb_true_iff, !bool_decide_eq_true, !Nat.eqb_eq,
      andb_false_iff, bool_decide_eq_false, Z.ltb_ge.
    split.
    - intros [[[[[[? ?] ?] ?] ?] ?] Hg]. split_and!; try done. intros [? ?].
      destruct Hg as [?|?]; [done|lia].
    - intros (? & ? & ? & ? & ? & ? & Hg). split_and!; try done.
      destruct (decide (kind s = WatermarkGated)); [right|by left].
      apply Z.nlt_ge. intros ?. by apply Hg. }
  split.
  - intros H id s E. apply Hb. apply (H (id, s)). apply list_elem_of_In. by apply elem_of_map_to_list.
  - intros H [id s] Hin. apply list_elem_of_In, elem_of_map_to_list in Hin. apply Hb. by apply (H id).
Qed.

Lemma complete_not_ready m id : is_complete m = true → stage_is_ready m id = false.
Proof.
  intros Hc. destruct (stage_is_ready m id) eqn:Hr; [|done].
  apply stage_is_ready_can_run in Hr as (s & E & Hrun & _).
  rewrite is_complete_spec in Hc. destruct (Hc id s E) as (Hcm & _ & Hp & Hrr & Hq & _ & Hk).
  destruct (cr_work s Hrun Hcm) as [?|[?|[?|[? ?]]]]; [congruence|lia|done|].
  destruct Hk. split; [done|lia].
Qed.

(** * What a completed bundle does to its consumers *)

(** The part of a stage no producer touches. *)
Definition wake_frame (s : StageState) : StageState :=
  set_unproduced ∅ (set_unproduced_side_inputs ∅ (set_pending ∅ (set_pending_min 0 (set_pending_empty ∅ s)))).

Lemma wake_frame_fields s s' :
  wake_frame s = wake_frame s' →
  (main_inputs s = main_inputs s' ∧ side_inputs s = side_inputs s' ∧ outputs s = outputs s'
   ∧ source s = source s' ∧ input s = input s' ∧ output s = output s')
  ∧ (in_flight s = in_flight s' ∧ queued s = queued s' ∧ max_in_flight s = max_in_flight s'
     ∧ completed s = completed s' ∧ rerun_pending s = rerun_pending s' ∧ kind s = kind s'
     ∧ time_sorted_input_closed s = time_sorted_input_closed s'
     ∧ required_watermark s = required_watermark s'
     ∧ watermark_at_last_run s = watermark_at_last_run s').
Proof.
  destruct s, s'. unfold wake_frame. intros H. injection H. intros. subst. by split_and!.
Qed.

Section wake.
(** Whether the producer propagates an empty input, and the PCollections it
    completes. *)
Context (E : bool) (O : gset PCollectionId).

Record woken (s s' : StageState) : Prop := {
  wk_frame : wake_frame s = wake_frame s';
  wk_unproduced : unproduced s' ⊆ unproduced s;
  wk_side : unproduced_side_inputs s' ⊆ unproduced_side_inputs s;
  wk_pending : pending s ⊆ pending s';
  wk_min : (pending_min s' ≤ pending_min s)%Z;
  wk_min_eq : pending s' = ∅ → pending_min s' = pending_min s;
  wk_empty : pending_empty s ∖ (if E then ∅ else O) ⊆ pending_empty s';
}.

#[export] Instance woken_preorder : PreOrder woken.
Proof.
  split.
  - intros s. split; try done. set_solver.
  - intros s1 s2 s3 [F1 U1 S1 P1 M1 Q1 E1] [F2 U2 S2 P2 M2 Q2 E2]. split.
    + congruence.
    + set_solver.
    + set_solver.
    + set_solver.
    + lia.
    + intros H. rewrite Q2 by done. apply Q1. apply set_eq. intros x. set_solver.
    + set_solver.
Qed.

Lemma wake_consumer_woken min_ts p s : p ∈ O → woken s (wake_consumer E min_ts p s).
Proof.
  intros Hp. unfold wake_consumer. cbv zeta.
  change (time_sorted_input_closed (set_unproduced _ s)) with (time_sorted_input_closed s).
  destruct (time_sorted_input_closed s).
  { split; try done; simpl; set_solver. }
  assert (Hne : ∀ X : gset PCollectionId, X ∪ {[p]} ≠ ∅) by set_solver.
  destruct min_ts as [ts|]; (split; simpl; [done|set_solver..|lia| |]);
    try (intros H; by apply Hne in H); destruct E; set_solver.
Qed.

Lemma wake_side_consumer_woken p s : p ∈ O → woken s (wake_side_consumer E p s).
Proof.
  intros Hp. unfold wake_side_consumer. destruct E eqn:HE; split; simpl; try done; try lia; set_solver.
Qed.

Lemma woken_can_run s s' : woken s s' → kind s = Ordinary → can_run s → can_run s'.
Proof.
  intros [F U S P M Q _] Hk [Hslot Hm Hs Hf Hw Hg].
  apply wake_frame_fields in F as [_ (Fi & Fq & Fm & Fc & Fr & Fk & _)].
  split.
  - congruence.
  - set_solver.
  - set_solver.
  - rewrite <- Fc, <- Fi, <- Fq. done.
  - rewrite <- Fc, <- Fr, <- Fq. intros Hc. destruct (Hw Hc) as [?|[?|[?|[? _]]]]; [tauto|tauto| |congruence].
    right; right; left. set_solver.
  - congruence.
Qed.

Definition ordinary (m : WatermarkManager) (c : StageId) : Prop :=
  ∀ s, stages m !! c = Some s → kind s = Ordinary.

(** The effect of visiting the consumers [cs]: only their states change, by
    wakes, and the ordinary ones among them are listed exactly when ready. *)
Record visited (m : WatermarkManager) (nr : list StageId) (cs : list StageId)
    (m' : WatermarkManager) (nr' : list StageId) : Prop := {
  vs_producers : producers m' = producers m;
  vs_consumers : consumers m' = consumers m;
  vs_side_consumers : side_input_consumers m' = side_input_consumers m;
  vs_stages : ∀ id, match stages m !! id, stages m' !! id with
                    | Some s, Some s' => woken s s' ∧ (id ∉ cs → s' = s)
                    | None, None => True
                    | _, _ => False
                    end;
  vs_keep : ∀ c, c ∈ nr → c ∈ nr';
  vs_sound : ∀ c, c ∈ nr' → c ∈ nr ∨ c ∈ cs ∧ (ordinary m c → stage_is_ready m' c = true);
  vs_complete : ∀ c, c ∈ cs → ordinary m c → stage_is_ready m' c = true → c ∈ nr';
}.

Lemma ordinary_ready m c s :
  stages m !! c = Some s → kind s = Ordinary → stage_is_ready m c = true ↔ can_run s.
Proof.
  intros Hs Hk. rewrite stage_is_ready_can_run. split.
  - intros (s' & Hs' & H & _). congruence.
  - intros H. exists s. by split_and!.
Qed.

Lemma visited_nil m nr : visited m nr [] m nr.
Proof.
  split; try done.
  - intros id. destruct (stages m !! id); [|done]. split; [reflexivity|done].
  - intros c Hc. by left.
  - intros c Hc. by apply elem_of_nil in Hc.
Qed.

Lemma visited_lookup m nr cs m' nr' id s :
  visited m nr cs m' nr' → stages m !! id = Some s →
  ∃ s', stages m' !! id = Some s' ∧ woken s s' ∧ (id ∉ cs → s' = s).
Proof.
  intros V Hs. pose proof (vs_stages _ _ _ _ _ V id) as H. rewrite Hs in H.
  destruct (stages m' !! id) as [s'|]; [|done]. by exists s'.
Qed.

Lemma visited_ordinary m nr cs m' nr' c : visited m nr cs m' nr' → ordinary m c → ordinary m' c.
Proof.
  intros V Ho s' Hs'. pose proof (vs_stages _ _ _ _ _ V c) as H. rewrite Hs' in H.
  destruct (stages m !! c) as [s|] eqn:Hs; [|done]. destruct H as [W _].
  specialize (Ho s Hs). pose proof (wake_frame_fields _ _ (wk_frame _ _ W)) as [_ (_ & _ & _ & _ & _ & Fk & _)].
  congruence.
Qed.

Lemma visited_ready m nr cs m' nr' c :
  visited m nr cs m' nr' → ordinary m c → stage_is_ready m c = true → stage_is_ready m' c = true.
Proof.
  intros V Ho Hr. pose proof Hr as (s & Hs & Hc & _)%stage_is_ready_can_run.
  destruct (visited_lookup _ _ _ _ _ _ _ V Hs) as (s' & Hs' & W & _).
  apply (ordinary_ready m' c s' Hs'); [by apply (visited_ordinary _ _ _ _ _ c V)|].
  by apply (woken_can_run s s'); [|apply Ho|].
Qed.

Lemma visited_app m nr cs1 m1 nr1 cs2 m2 nr2 :
  visited m nr cs1 m1 nr1 → visited m1 nr1 cs2 m2 nr2 → visited m nr (cs1 ++ cs2) m2 nr2.
Proof.
  intros V1 V2. split.
  - rewrite (vs_producers _ _ _ _ _ V2). apply V1.
  - rewrite (vs_consumers _ _ _ _ _ V2). apply V1.
  - rewrite (vs_side_consumers _ _ _ _ _ V2). apply V1.
  - intros id. pose proof (vs_stages _ _ _ _ _ V1 id) as H1. pose proof (vs_stages _ _ _ _ _ V2 id) as H2.
    destruct (stages m !! id) as [s|], (stages m1 !! id) as [s1|], (stages m2 !! id) as [s2|]; try done.
    destruct H1 as [W1 E1], H2 as [W2 E2]. split; [by transitivity s1|]. rewrite elem_of_app.
    intros Hn. rewrite E2, E1 by tauto. done.
  - intros c Hc. by apply (vs_keep _ _ _ _ _ V2), (vs_keep _ _ _ _ _ V1).
  - intros c Hc. rewrite elem_of_app. apply (vs_sound _ _ _ _ _ V2) in Hc as [Hc|[Hc Hr]].
    + apply (vs_sound _ _ _ _ _ V1) in Hc as [Hc|[Hc Hr]]; [by left|]. right. split; [by left|].
      intros Ho. apply (visited_ready _ _ _ _ _ c V2); [by apply (visited_ordinary _ _ _ _ _ c V1)|auto].
    + right. split; [by right|]. intros Ho. apply Hr. by apply (visited_ordinary _ _ _ _ _ c V1).
  - intros c Hc Ho Hr. rewrite elem_of_app in Hc. pose proof (visited_ordinary _ _ _ _ _ c V1 Ho) as Ho1.
    destruct (decide (c ∈ cs2)) as [Hc2|Hc2]; [by apply (vs_complete _ _ _ _ _ V2)|].
    destruct Hc as [Hc|?]; [|done]. apply (vs_keep _ _ _ _ _ V2), (vs_complete _ _ _ _ _ V1); try done.
    pose proof Hr as (s2 & Hs2 & Hrun & _)%stage_is_ready_can_run.
    pose proof (vs_stages _ _ _ _ _ V2 c) as H. rewrite Hs2 in H.
    destruct (stages m1 !! c) as [s1|] eqn:Hs1; [|done]. destruct H as [_ Heq].
    rewrite (Heq Hc2) in *. apply (ordinary_ready m1 c s1 Hs1); [by apply Ho1|done].
Qed.

Lemma visit_one f c m nr :
  (∀ s, woken s (f s)) →
  visited m nr [c] (with_stages m (alter f c))
    (if stage_is_ready (with_stages m (alter f c)) c then nr ++ [c] else nr).
Proof.
  intros Hf. split; try done.
  - intros id. simpl. destruct (decide (id = c)) as [->|Hne].
    + rewrite lookup_alter_eq. destruct (stages m !! c) as [s|]; [|done]. simpl. split; [done|set_solver].
    + rewrite lookup_alter_ne by done. destruct (stages m !! id); [|done]. split; [reflexivity|done].
  - intros x Hx. destruct (stage_is_ready _ _); set_solver.
  - intros x Hx. destruct (stage_is_ready _ c) eqn:Hr; [|by left].
    rewrite elem_of_app, list_elem_of_singleton in Hx. destruct Hx as [? | ->]; [by left|]. right.
    split; [by apply list_elem_of_singleton|done].
  - intros x Hx _ Hr. apply list_elem_of_singleton in Hx as ->. rewrite Hr. set_solver.
Qed.

Lemma visit_consumers_visited f cs m nr :
  (∀ s, woken s (f s)) →
  visited m nr cs (visit_consumers f cs (m, nr)).1 (visit_consumers f cs (m, nr)).2.
Proof.
  intros Hf. unfold visit_consumers. revert m nr. induction cs as [|c cs IH]; intros m nr.
  - apply visited_nil.
  - cbn [foldl]. apply (visited_app m nr [c] _ _ cs _ _ (visit_one f c m nr Hf) (IH _ _)).
Qed.

(** A visited consumer carries the mark of its visit, if wakes keep the mark. *)
Lemma visit_consumers_mark (Q : StageState → Prop) f cs m nr c s' :
  (∀ s, woken s (f s)) → (∀ s, Q (f s)) → c ∈ cs →
  stages (visit_consumers f cs (m, nr)).1 !! c = Some s' → Q s'.
Proof.
  intros Hf HQ Hc. unfold visit_consumers. revert m nr.
  assert (Hgen : ∀ cs m nr, (c ∈ cs ∨ ∀ s, stages m !! c = Some s → Q s) →
    stages (foldl (λ '(m, newly_ready) consumer,
      let m := with_stages m (alter f consumer) in
      (m, if stage_is_ready m consumer then newly_ready ++ [consumer] else newly_ready)) (m, nr) cs).1
      !! c = Some s' → Q s'); [|intros m nr; apply Hgen; by left].
  clear cs Hc. induction cs as [|d cs IH]; intros m nr Hor; cbn [foldl].
  - destruct Hor as [Hc|Hm]; [by apply elem_of_nil in Hc|apply Hm].
  - apply IH. rewrite elem_of_cons in Hor. destruct (decide (c = d)) as [->|Hne].
    + right. intros s. simpl. rewrite lookup_alter_eq. destruct (stages m !! d); [|done].
      intros [= <-]. apply HQ.
    + destruct Hor as [[?|?]|Hm]; [done|by left|]. right. intros s. simpl.
      rewrite lookup_alter_ne by done. apply Hm.
Qed.
End wake.

(** The consumers of a PCollection, main then side. *)
Definition all_consumers (m : WatermarkManager) (p : PCollectionId) : list StageId :=
  default [] (consumers m !! p) ++ default [] (side_input_consumers m !! p).

(** What the completion of [p] leaves in the state of a consumer. *)
Definition main_mark (p : PCollectionId) (s : StageState) : Prop :=
  (p ∉ unproduced s) ∧ (time_sorted_input_closed s = false → p ∈ pending s).
Definition side_mark (E : bool) (p : PCollectionId) (s : StageState) : Prop :=
  if E then p ∈ pending_empty s else p ∉ unproduced_side_inputs s.

Lemma main_mark_woken E O p s s' : woken E O s s' → main_mark p s → main_mark p s'.
Proof.
  intros W [H1 H2]. pose proof (wake_frame_fields _ _ (wk_frame _ _ _ _ W)) as [_ (_ & _ & _ & _ & _ & _ & Ft & _)].
  destruct W as [_ U _ P _ _ _]. split; [set_solver|]. rewrite <- Ft. intros Hc. set_solver.
Qed.

Lemma side_mark_woken E O p s s' : woken E O s s' → side_mark E p s → side_mark E p s'.
Proof. intros [_ _ S _ _ _ Em]. unfold side_mark. destruct E; set_solver. Qed.

Lemma wake_consumer_mark E min_ts p s : main_mark p (wake_consumer E min_ts p s).
Proof.
  unfold wake_consumer. cbv zeta.
  change (time_sorted_input_closed (set_unproduced _ s)) with (time_sorted_input_closed s).
  destruct (time_sorted_input_closed s) eqn:Hc.
  - split; simpl; [set_solver|]. by rewrite Hc.
  - destruct min_ts; split; simpl; set_solver.
Qed.

Lemma wake_side_consumer_mark E p s : side_mark E p (wake_side_consumer E p s).
Proof. unfold side_mark, wake_side_consumer. destruct E; simpl; set_solver. Qed.

(** The marks of a completed PCollection on every consumer wired to it. *)
Definition marked (E : bool) (m m' : WatermarkManager) (p : PCollectionId) : Prop :=
  ∀ c s', stages m' !! c = Some s' →
    (c ∈ default [] (consumers m !! p) → main_mark p s')
    ∧ (c ∈ default [] (side_input_consumers m !! p) → side_mark E p s').

Section propagate.
Context (E : bool) (O : gset PCollectionId) (min_ts : option Z).

Lemma propagate_output_visited m nr p :
  p ∈ O →
  let r := propagate_output E min_ts (m, nr) p in
  visited E O m nr (all_consumers m p) r.1 r.2 ∧ marked E m r.1 p.
Proof.
  intros Hp r. unfold r, propagate_output. simpl.
  destruct (visit_consumers _ _ (m, nr)) as [m1 nr1] eqn:E1.
  pose proof (visit_consumers_visited E O (wake_consumer E min_ts p)
    (default [] (consumers m !! p)) m nr (λ s, wake_consumer_woken E O min_ts p s Hp)) as V1.
  rewrite E1 in V1. simpl in V1.
  pose proof (visit_consumers_visited E O (wake_side_consumer E p)
    (default [] (side_input_consumers m1 !! p)) m1 nr1 (λ s, wake_side_consumer_woken E O p s Hp)) as V2.
  simpl. rewrite (vs_side_consumers _ _ _ _ _ _ _ V1) in V2 |- *.
  split; [by eapply visited_app|]. intros c s' Hs'. split; intros Hc.
  - pose proof (vs_stages _ _ _ _ _ _ _ V2 c) as H. rewrite Hs' in H.
    destruct (stages m1 !! c) as [s1|] eqn:Hs1; [|done]. destruct H as [W _].
    apply (main_mark_woken E O p s1 s' W).
    apply (visit_consumers_mark E O (main_mark p) (wake_consumer E min_ts p)
             (default [] (consumers m !! p)) m nr c s1); [|apply wake_consumer_mark|done|].
    + intros s. by apply wake_consumer_woken.
    + by rewrite E1.
  - apply (visit_consumers_mark E O (side_mark E p) (wake_side_consumer E p)
             (default [] (side_input_consumers m !! p)) m1 nr1 c s'); [|apply wake_side_consumer_mark|done|done].
    intros s. by apply wake_side_consumer_woken.
Qed.

Lemma propagate_all_visited os m nr :
  Forall (λ p, p ∈ O) os →
  let r := foldl (propagate_output E min_ts) (m, nr) os in
  visited E O m nr (concat (all_consumers m <$> os)) r.1 r.2 ∧ Forall (marked E m r.1) os.
Proof.
  intros HF. revert m nr. induction HF as [|p os Hp HF IH]; intros m nr.
  - split; [apply visited_nil|constructor].
  - cbn [foldl]. destruct (propagate_output_visited m nr p Hp) as [V1 M1].
    destruct (propagate_output E min_ts (m, nr) p) as [m1 nr1]. cbn [fst snd] in *.
    destruct (IH m1 nr1) as [V2 M2]. cbv zeta in *.
    assert (Hall : all_consumers m1 = all_consumers m).
    { unfold all_consumers. by rewrite (vs_consumers _ _ _ _ _ _ _ V1), (vs_side_consumers _ _ _ _ _ _ _ V1). }
    rewrite Hall in V2. split; [by eapply visited_app|]. constructor.
    + intros c s' Hs'. pose proof (vs_stages _ _ _ _ _ _ _ V2 c) as H. rewrite Hs' in H.
      destruct (stages m1 !! c) as [s1|] eqn:Hs1; [|done]. destruct H as [W _].
      destruct (M1 c s1 Hs1) as [Mm Ms]. split; intros Hc.
      * by eapply main_mark_woken; [|apply Mm].
      * by eapply side_mark_woken; [|apply Ms].
    + eapply Forall_impl; [|exact M2]. intros q Hq c s' Hs'. specialize (Hq c s' Hs').
      by rewrite (vs_consumers _ _ _ _ _ _ _ V1), (vs_side_consumers _ _ _ _ _ _ _ V1) in Hq.
Qed.
End propagate.

(** The state of a stage when one of its bundles is done. *)
Definition bundle_done (s : StageState) : StageState :=
  set_completed true (set_in_flight (in_flight s - 1) s).

(** Whether the completion propagates an empty input. *)
Definition propagates_empty (s : StageState) (output_min_ts : option Z) (input_count : option nat) : bool :=
  bool_decide (output_min_ts = None) && bool_decide (input_count = Some 0)
  || negb (bool_decide (pending_empty s = ∅)).

(** [complete_bundle] in one statement: the error cases, the new state of the
    stage, the marks on its consumers and the list of consumers it returns. *)
Lemma complete_bundle_spec m id min_ts cnt m' nr :
  complete_bundle_with_min_and_input m id min_ts cnt = Ok (m', nr) →
  ∃ s nr0, stages m !! id = Some s ∧ 0 < in_flight s
    ∧ visited (propagates_empty s min_ts cnt) (list_to_set (outputs s))
        (with_stages m (<[id := bundle_done s]>)) []
        (concat (all_consumers m <$> outputs s)) m' nr0
    ∧ Forall (marked (propagates_empty s min_ts cnt) m m') (outputs s)
    ∧ (∀ c, c ∈ nr ↔ c ∈ nr0).
Proof.
  unfold complete_bundle_with_min_and_input. destruct (stages m !! id) as [s|] eqn:Es; [|done].
  destruct (Nat.eqb_spec (in_flight s) 0); [done|]. cbv zeta.
  fold (propagates_empty s min_ts cnt). fold (bundle_done s).
  set (m1 := with_stages m (<[id := bundle_done s]>)).
  set (pm := if negb (bool_decide (pending_empty s = ∅)) then Some MIN_TIMESTAMP else min_ts).
  pose proof (propagate_all_visited (propagates_empty s min_ts cnt) (list_to_set (outputs s)) pm
    (outputs s) m1 []) as H.
  destruct (foldl _ (m1, []) (outputs s)) as [m2 nr2]. intros [= <- <-].
  destruct H as [V M].
  { apply Forall_forall. intros p Hp. apply elem_of_list_to_set. by apply list_elem_of_In. }
  exists s, nr2. do 2 (split; [done || lia|]). split; [exact V|]. split; [exact M|].
  intros c. rewrite elem_of_dedup. apply elem_of_sort_ids.
Qed.
