(* ===== verification/WatermarkInvariant.v ===== *)
(** The invariant of the watermark manager over any sequence of its operations,
    and the progress it gives: an idle pipeline of ordinary stages is done or has
    a stage that can run. *)
From S2P Require Import Prelude Bytes Varint Windows Watermark WatermarkRefresh WatermarkBundles.
From stdpp Require Import gmultiset.
Set Warnings "-clear-no-such-hyp".

(** * Operations *)

Inductive op : Type :=
| AddStage (stage : StageId) (main_inputs side_inputs outputs : list PCollectionId)
| ReportPartitionWatermark (stage partition : string) (timestamp : Z)
| SetPartitionIdle (stage partition : string) (idle : bool)
| SourceFinished (stage : StageId)
| SetAutoFinish (stage : StageId) (b : bool)
| AddHold (stage : StageId) (timestamp : Z)
| ReleaseHold (stage : StageId) (timestamp : Z)
| SetEventTimeHolds (holds : gmap StageId (list Z))
| SetResidualHolds (holds : gmap StageId (list Z))
| SetKind (stage : StageId) (k : StageKind)
| SetRequired (stage : StageId) (watermark : Z)
| SetMaxInFlight (stage : StageId) (n : nat)
| Enqueue (stage : StageId) (count : nat)
| MarkRerun (stage : StageId)
| StartBundle (stage : StageId)
| CompleteBundle (stage : StageId) (output_min_ts : option Z) (input_count : option nat)
| ReleaseEmptyInputs
| Refresh.

Definition apply_op (m : WatermarkManager) (o : op) : result WatermarkManager :=
  match o with
  | AddStage st mi si os => Ok (add_stage m st mi si os)
  | ReportPartitionWatermark st p ts => report_source_partition_watermark m st p ts
  | SetPartitionIdle st p b => set_source_partition_idle m st p b
  | SourceFinished st => report_source_finished m st
  | SetAutoFinish st b => set_source_auto_finish m st b
  | AddHold st ts => add_hold m st ts
  | ReleaseHold st ts => release_hold m st ts
  | SetEventTimeHolds h => Ok (set_event_time_holds m h)
  | SetResidualHolds h => Ok (set_all_residual_holds m h)
  | SetKind st k => set_stage_kind m st k
  | SetRequired st w => set_stage_required_watermark m st w
  | SetMaxInFlight st n => set_stage_max_in_flight m st n
  | Enqueue st n => enqueue_bundles m st n
  | MarkRerun st => mark_rerun m st
  | StartBundle st => start_bundle m st
  | CompleteBundle st min_ts cnt =>
      '(m', _) ← complete_bundle_with_min_and_input m st min_ts cnt; Ok m'
  | ReleaseEmptyInputs => Ok (release_empty_input_holds m).1
  | Refresh => Ok (refresh m).1
  end.

(** The states a caller can bring a new manager to; an operation that returns an
    error changes nothing. *)
Inductive reachable : WatermarkManager → Prop :=
| reachable_new : reachable new_manager
| reachable_op m o m' : reachable m → apply_op m o = Ok m' → reachable m'.

(** * The invariant *)

Record stage_ok (s : StageState) : Prop := {
  so_bounded : stage_bounded s;
  so_source : is_Some (source s) ↔ main_inputs s = [];
  so_source_input : is_Some (source s) → input s = MAX_TIMESTAMP;
  so_unproduced : unproduced s ⊆ list_to_set (main_inputs s);
  so_side : unproduced_side_inputs s ⊆ list_to_set (side_inputs s);
  so_started : 0 < in_flight s ∨ completed s = true → unproduced s = ∅;
  so_min : (pending_min s ≤ MAX_TIMESTAMP)%Z;
  so_no_pending : pending s = ∅ → pending_min s = MAX_TIMESTAMP;
  so_last_run : (watermark_at_last_run s ≤ input s)%Z;
  so_max : 1 ≤ max_in_flight s;
}.

(** Every stage is listed under each of its inputs. *)
Definition wired (m : WatermarkManager) : Prop :=
  ∀ id s, stages m !! id = Some s →
    (∀ p, p ∈ main_inputs s → id ∈ default [] (consumers m !! p))
    ∧ (∀ p, p ∈ side_inputs s → id ∈ default [] (side_input_consumers m !! p)).

Definition manager_ok (m : WatermarkManager) : Prop :=
  map_Forall (λ _, stage_ok) (stages m) ∧ wired m.

(** The identity of a stage: what no operation but its registration changes. *)
Definition same_identity (s s' : StageState) : Prop :=
  main_inputs s = main_inputs s' ∧ side_inputs s = side_inputs s' ∧ outputs s = outputs s'.

(** The wiring survives any change of stages that keeps their identities. *)
Definition same_stages (m m' : WatermarkManager) : Prop :=
  consumers m' = consumers m ∧ side_input_consumers m' = side_input_consumers m
  ∧ producers m' = producers m
  ∧ ∀ id, match stages m !! id, stages m' !! id with
          | Some s, Some s' => same_identity s s'
          | None, None => True
          | _, _ => False
          end.

Lemma wired_same m m' : same_stages m m' → wired m → wired m'.
Proof.
  intros (Hc & Hs & _ & H) Hw id s' E. specialize (H id). rewrite E in H.
  destruct (stages m !! id) as [s|] eqn:E0; [|done]. destruct H as (H1 & H2 & _).
  destruct (Hw id s E0). rewrite Hc, Hs, <- H1, <- H2. done.
Qed.

Lemma same_stages_refl m : same_stages m m.
Proof. do 3 (split; [done|]). intros id. by destruct (stages m !! id). Qed.

Lemma same_stages_insert m id s s' :
  stages m !! id = Some s → same_identity s s' → same_stages m (with_stages m (<[id := s']>)).
Proof.
  intros E H. do 3 (split; [done|]). intros i. simpl. destruct (decide (i = id)) as [->|Hne].
  - by rewrite E, lookup_insert_eq.
  - rewrite lookup_insert_ne by done. by destruct (stages m !! i).
Qed.

Lemma manager_ok_insert m id s s' :
  manager_ok m → stages m !! id = Some s → same_identity s s' → (stage_ok s → stage_ok s') →
  manager_ok (with_stages m (<[id := s']>)).
Proof.
  intros [Hok Hw] E Hi Hs. split.
  - simpl. apply map_Forall_insert_2; [|done]. apply Hs. by apply (Hok id).
  - eapply wired_same; [by eapply same_stages_insert|done].
Qed.

Lemma update_stage_ok m id f m' :
  manager_ok m → (∀ s, same_identity s (f s)) → (∀ s, stage_ok s → stage_ok (f s)) →
  update_stage m id f = Ok m' → manager_ok m'.
Proof.
  unfold update_stage. intros Hm Hi Hs H. destruct (stages m !! id) as [s|] eqn:E; [|done].
  injection H as <-. apply (manager_ok_insert m id s (f s)); auto.
Qed.

Lemma update_source_ok m id f m' : manager_ok m → update_source m id f = Ok m' → manager_ok m'.
Proof.
  unfold update_source. intros Hm H. destruct (stages m !! id) as [s|] eqn:E; [|done].
  destruct (source s) as [src|] eqn:Es; [|done]. injection H as <-.
  eapply manager_ok_insert; [done..|]. intros [Hb Hso Hsi Hu Hsd Hst Hmin Hnp Hl Hmax].
  split; simpl; try done.
  - rewrite <- Hso, Es. split; by eexists.
  - intros _. apply Hsi. by rewrite Es.
Qed.

(** ** Registration *)

Lemma register_consumers_other stage cs ins p :
  p ∉ ins → foldl (register_consumer stage) cs ins !! p = cs !! p.
Proof.
  revert cs. induction ins as [|i ins IH]; intros cs Hp; [done|]. rewrite not_elem_of_cons in Hp.
  destruct Hp as [Hne Hp]. simpl. rewrite IH by done. unfold register_consumer.
  by rewrite lookup_insert_ne.
Qed.

Lemma register_consumers_keep stage cs ins p c :
  c ∈ default [] (cs !! p) → c ∈ default [] (foldl (register_consumer stage) cs ins !! p).
Proof.
  revert cs. induction ins as [|i ins IH]; intros cs Hc; [done|]. simpl. apply IH.
  unfold register_consumer. destruct (decide (i = p)) as [->|Hne].
  - rewrite lookup_insert_eq. simpl. case_decide; set_solver.
  - by rewrite lookup_insert_ne.
Qed.

Lemma register_consumers_in stage cs ins p :
  p ∈ ins → stage ∈ default [] (foldl (register_consumer stage) cs ins !! p).
Proof.
  revert cs. induction ins as [|i ins IH]; intros cs Hp; [by apply elem_of_nil in Hp|]. simpl.
  apply elem_of_cons in Hp as [->|Hp]; [|by apply IH]. apply register_consumers_keep.
  unfold register_consumer. rewrite lookup_insert_eq. simpl. case_decide; set_solver.
Qed.

Lemma add_stage_ok m st mi si os : manager_ok m → manager_ok (add_stage m st mi si os).
Proof.
  intros [Hok Hw]. split.
  - unfold add_stage. simpl. apply map_Forall_insert_2; [|done].
    destruct (decide (mi = [])) as [->|Hne];
      split; simpl; try done; try (by intros [?|?]; [lia|]); (by split) || (by intros []) || idtac.
  - intros id s E. unfold add_stage in E. simpl in *.
    destruct (decide (id = st)) as [->|Hne].
    + rewrite lookup_insert_eq in E. injection E as <-. simpl.
      split; intros p Hp; by apply register_consumers_in.
    + rewrite lookup_insert_ne in E by done. destruct (Hw id s E) as [H1 H2].
      split; intros p Hp; apply register_consumers_keep; auto.
Qed.

(** ** Bundles *)

Lemma started_identity s : same_identity s (started s).
Proof. unfold started. by repeat case_match. Qed.

Lemma started_ok s :
  unproduced s = ∅ → stage_ok s → stage_ok (started s).
Proof.
  intros Hu [Hb Hso Hsi Hun Hsd Hst Hmin Hnp Hl Hmax].
  unfold started. cbv zeta.
  destruct (bool_decide _ && _); simpl; destruct (_ =? 1)%nat; split; simpl; try done; lia.
Qed.

Lemma woken_ok E O s s' : woken E O s s' → stage_ok s → stage_ok s'.
Proof.
  intros [F U S P M Q _] [Hb Hso Hsi Hun Hsd Hst Hmin Hnp Hl Hmax].
  pose proof (wake_frame_fields _ _ F) as [(F1 & F2 & F3 & F4 & F5 & F6) (G1 & G2 & G3 & G4 & G5 & G6 & G7 & G8 & G9)].
  split.
  - unfold stage_bounded in *. by rewrite <- F5, <- F6.
  - by rewrite <- F4, <- F1.
  - by rewrite <- F4, <- F5.
  - rewrite <- F1. set_solver.
  - rewrite <- F2. set_solver.
  - rewrite <- G1, <- G4. intros H. specialize (Hst H). set_solver.
  - lia.
  - intros H. rewrite Q by done. apply Hnp. set_solver.
  - by rewrite <- G9, <- F5.
  - by rewrite <- G3.
Qed.

Lemma visited_same E O m nr cs m' nr' : visited E O m nr cs m' nr' → same_stages m m'.
Proof.
  intros V. split_and!; [apply V..|]. intros id. pose proof (vs_stages _ _ _ _ _ _ _ V id) as H.
  destruct (stages m !! id), (stages m' !! id); try done. destruct H as [W _].
  pose proof (wake_frame_fields _ _ (wk_frame _ _ _ _ W)) as [(F1 & F2 & F3 & _) _]. by split_and!.
Qed.

Lemma visited_ok E O m nr cs m' nr' : visited E O m nr cs m' nr' → manager_ok m → manager_ok m'.
Proof.
  intros V [Hok Hw]. split; [|by eapply wired_same; [eapply visited_same|]].
  intros id s' E'. pose proof (vs_stages _ _ _ _ _ _ _ V id) as H. rewrite E' in H.
  destruct (stages m !! id) as [s|] eqn:E0; [|done]. destruct H as [W _].
  eapply woken_ok; [done|]. by apply (Hok id).
Qed.

Lemma bundle_done_ok s : 0 < in_flight s → stage_ok s → stage_ok (bundle_done s).
Proof.
  intros Hi [Hb Hso Hsi Hun Hsd Hst Hmin Hnp Hl Hmax]. split; simpl; try done.
  intros _. apply Hst. by left.
Qed.

(** ** Refresh *)

Lemma manager_le_same (m m' : WatermarkManager) : m ⊑ m' → same_stages m m'.
Proof.
  intros (P & C & S & H). do 3 (split; [done|]). intros id. specialize (H id).
  destruct (stages m !! id) as [s|], (stages m' !! id) as [s'|]; try done.
  destruct H as (R & _). destruct s, s'. unfold same_rest, set_input, set_output in R. simpl in R.
  injection R. intros. subst. by split_and!.
Qed.

Lemma manager_ok_bounded m : manager_ok m → bounded m.
Proof. intros [Hok _] id s E. by apply (so_bounded s), (Hok id). Qed.

(** A refresh raises an output no further than the equations allow. *)
Lemma refresh_justified m id s s' :
  manager_ok m → stages m !! id = Some s → stages (refresh m).1 !! id = Some s' →
  same_rest s s' ∧ (output s' ≤ Z.max (output s) (compute_output (refresh m).1 s'))%Z.
Proof.
  intros Hm E E'. destruct (refresh_progress m (manager_ok_bounded m Hm)) as (adv & Hp & _ & _). split.
  - destruct (manager_le_lookup _ _ _ _ (prog_le _ _ _ _ Hp) E) as (s1 & E1 & R & _ & _).
    by assert (s1 = s') as <- by congruence.
  - apply (prog_justified _ _ _ _ Hp m) with id; [reflexivity| |done..].
    intros i a b Ea Eb. assert (b = a) as -> by congruence. lia.
Qed.

Lemma refresh_ok m : manager_ok m → manager_ok (refresh m).1.
Proof.
  intros Hm. pose proof (manager_ok_bounded m Hm) as Hb.
  destruct (refresh_progress m Hb) as (adv & Hp & _ & _). destruct Hm as [Hok Hw].
  pose proof (prog_le _ _ _ _ Hp) as Hle. split; [|eapply wired_same; [by apply manager_le_same|done]].
  intros id s' E'. destruct (manager_le_lookup_r _ _ _ _ Hle E') as (s & E & R & HI & HO).
  pose proof (prog_bounded _ _ _ _ Hp Hb id s' E') as Hb'. destruct (Hok id s E).
  destruct s, s'. unfold same_rest, set_input, set_output in R. simpl in *. injection R. intros. subst.
  split; simpl in *; try done; [|lia].
  intros Hsrc. specialize (so_source_input0 Hsrc). unfold stage_bounded in Hb'. simpl in Hb'. lia.
Qed.

Lemma map_imap_ok m (f : StageId → StageState → StageState) :
  manager_ok m → (∀ i s, same_identity s (f i s)) → (∀ i s, stage_ok s → stage_ok (f i s)) →
  manager_ok (with_stages m (map_imap (λ i s, Some (f i s)))).
Proof.
  intros [Hok Hw] Hi Hs. split.
  - intros id s' E. simpl in E. rewrite map_lookup_imap in E.
    destruct (stages m !! id) as [s|] eqn:E0; [|done]. injection E as <-. apply Hs, (Hok id), E0.
  - eapply wired_same; [|done]. do 3 (split; [done|]). intros id. simpl. rewrite map_lookup_imap.
    destruct (stages m !! id); [apply Hi|done].
Qed.

Lemma release_stage_ok s : stage_ok s → stage_ok (release_stage_empty_inputs s).
Proof.
  intros [Hb Hso Hsi Hun Hsd Hst Hmin Hnp Hl Hmax]. split; simpl; try done. set_solver.
Qed.

Lemma clear_empty_inputs_ok m : manager_ok m → manager_ok (clear_empty_inputs m).
Proof.
  intros [Hok Hw]. split.
  - intros id s' E. simpl in E. rewrite lookup_fmap in E.
    destruct (stages m !! id) as [s|] eqn:E0; [|done]. injection E as <-.
    case_decide; [by apply (Hok id)|]. by apply release_stage_ok, (Hok id).
  - eapply wired_same; [|done]. do 3 (split; [done|]). intros id. simpl. rewrite lookup_fmap.
    destruct (stages m !! id); [|done]. simpl. by case_decide.
Qed.

Lemma release_empty_cases m :
  (release_empty_input_holds m).1 = (refresh (clear_empty_inputs m)).1
  ∨ (release_empty_input_holds m).1 = clear_empty_inputs m.
Proof.
  unfold release_empty_input_holds. cbv zeta.
  generalize (size (filter (λ '(_, s), pending_empty s ≠ ∅) (stages m))) as released. intros released.
  destruct (refresh (clear_empty_inputs m)) as [m' adv]. destruct (0 <? released); [by left|by right].
Qed.

Lemma release_ok m : manager_ok m → manager_ok (release_empty_input_holds m).1.
Proof.
  intros Hm. apply clear_empty_inputs_ok in Hm.
  destruct (release_empty_cases m) as [-> | ->]; [by apply refresh_ok|done].
Qed.

(** A change of one stage that only touches fields the invariant does not relate. *)
Ltac stage_update H :=
  eapply update_stage_ok; [eassumption| | |exact H]; intros s; [done|];
  intros [Hb Hso Hsi Hun Hsd Hst Hmin Hnp Hl Hmax]; split; simpl; (done || lia).

Lemma apply_op_ok m o m' : manager_ok m → apply_op m o = Ok m' → manager_ok m'.
Proof.
  intros Hm H. destruct o; cbn [apply_op] in H.
  - injection H as <-. by apply add_stage_ok.
  - by apply (update_source_ok _ _ _ _ Hm H).
  - by apply (update_source_ok _ _ _ _ Hm H).
  - by apply (update_source_ok _ _ _ _ Hm H).
  - by apply (update_source_ok _ _ _ _ Hm H).
  - stage_update H.
  - stage_update H.
  - injection H as <-. apply map_imap_ok; [done..|]. intros i s []. by split.
  - injection H as <-. apply map_imap_ok; [done..|]. intros i s []. by split.
  - stage_update H.
  - stage_update H.
  - stage_update H.
  - stage_update H.
  - stage_update H.
  - apply start_bundle_spec in H as (s & E & _ & _ & _ & Hu & ->).
    eapply manager_ok_insert; [done..|apply started_identity|]. by apply started_ok.
  - inv_bind H. destruct a as [m1 nr]. injection H as <-.
    apply complete_bundle_spec in E as (s & nr0 & Es & Hi & V & _). eapply visited_ok; [done|].
    eapply manager_ok_insert; [done..|]. by apply bundle_done_ok.
  - injection H as <-. by apply release_ok.
  - injection H as <-. by apply refresh_ok.
Qed.

Lemma reachable_ok m : reachable m → manager_ok m.
Proof.
  induction 1 as [|m o m' _ IH H]; [|by eapply apply_op_ok].
  split; [apply map_Forall_empty|]. intros id s E. cbn [new_manager stages] in E. by rewrite lookup_empty in E.
Qed.

(** * Nothing is awaited in vain *)

(** A PCollection a stage still waits for has a producer that has not completed a
    bundle, or was completed empty and is held until the pipeline is quiescent. *)
Definition awaited (m : WatermarkManager) (p : PCollectionId) : Prop :=
  ∃ pid ps, stages m !! pid = Some ps ∧ p ∈ outputs ps ∧ completed ps = false.

Definition awaits (m : WatermarkManager) : Prop :=
  ∀ id s p, stages m !! id = Some s →
    (p ∈ unproduced s → awaited m p)
    ∧ (p ∈ unproduced_side_inputs s → awaited m p ∨ p ∈ pending_empty s).

(** Changes that cannot lose a producer or invent a wait. *)
Record keeps (s s' : StageState) : Prop := {
  kp_outputs : outputs s' = outputs s;
  kp_completed : completed s' = completed s;
  kp_main : unproduced s' ⊆ unproduced s;
  kp_side : ∀ p, p ∈ unproduced_side_inputs s' →
    p ∈ unproduced_side_inputs s ∧ (p ∈ pending_empty s → p ∈ pending_empty s');
}.

Lemma keeps_refl s : keeps s s.
Proof. split; try done. Qed.

Lemma awaits_keeps m m' :
  (∀ id, match stages m !! id, stages m' !! id with
         | Some s, Some s' => keeps s s'
         | None, None => True
         | _, _ => False
         end) → awaits m → awaits m'.
Proof.
  intros Hk Ha.
  assert (Hp : ∀ p, awaited m p → awaited m' p).
  { intros p (pid & ps & E & Ho & Hc). specialize (Hk pid). rewrite E in Hk.
    destruct (stages m' !! pid) as [ps'|] eqn:E'; [|done]. destruct Hk as [Ko Kc _ _].
    exists pid, ps'. rewrite Ko, Kc. done. }
  intros id s' p E'. specialize (Hk id). rewrite E' in Hk.
  destruct (stages m !! id) as [s|] eqn:E; [|done]. destruct Hk as [_ _ Km Ks].
  destruct (Ha id s p E) as [H1 H2]. split.
  - intros H. apply Hp, H1. by apply Km.
  - intros H. destruct (Ks p H) as [H' He]. destruct (H2 H') as [?|?]; [left; auto|right; auto].
Qed.

Lemma insert_keeps m id s s' :
  stages m !! id = Some s → keeps s s' →
  ∀ i, match stages m !! i, stages (with_stages m (<[id := s']>)) !! i with
       | Some s, Some s' => keeps s s'
       | None, None => True
       | _, _ => False
       end.
Proof.
  intros E H i. simpl. destruct (decide (i = id)) as [->|Hne].
  - by rewrite E, lookup_insert_eq.
  - rewrite lookup_insert_ne by done. destruct (stages m !! i); [apply keeps_refl|done].
Qed.

Lemma update_stage_awaits m id f m' :
  awaits m → (∀ s, keeps s (f s)) → update_stage m id f = Ok m' → awaits m'.
Proof.
  unfold update_stage. intros Ha Hf H. destruct (stages m !! id) as [s|] eqn:E; [|done].
  injection H as <-. eapply awaits_keeps; [by apply (insert_keeps m id s)|done].
Qed.

Lemma update_source_awaits m id f m' : awaits m → update_source m id f = Ok m' → awaits m'.
Proof.
  unfold update_source. intros Ha H. destruct (stages m !! id) as [s|] eqn:E; [|done].
  destruct (source s); [|done]. injection H as <-.
  eapply awaits_keeps; [apply (insert_keeps m id s); [done|by split]|done].
Qed.

Lemma refresh_awaits m : manager_ok m → awaits m → awaits (refresh m).1.
Proof.
  intros Hm. pose proof (manager_ok_bounded m Hm) as Hb.
  destruct (refresh_progress m Hb) as (adv & Hp & _ & _). apply awaits_keeps. intros id.
  destruct (prog_le _ _ _ _ Hp) as (_ & _ & _ & H). specialize (H id).
  destruct (stages m !! id) as [s|], (stages (refresh m).1 !! id) as [s'|]; try done.
  destruct H as (R & _). destruct s, s'. unfold same_rest, set_input, set_output in R. simpl in R.
  injection R. intros. subst. by split.
Qed.

Lemma clear_awaits m : manager_ok m → awaits m → awaits (clear_empty_inputs m).
Proof.
  intros [Hok _]. apply awaits_keeps. intros id. simpl. rewrite lookup_fmap.
  destruct (stages m !! id) as [s|] eqn:E; [|done]. simpl. case_decide; [apply keeps_refl|].
  destruct (Hok id s E) as [_ _ _ _ Hsd _ _ _ _ _]. split; simpl; try done.
  intros p Hp. apply elem_of_filter in Hp as [Hn Hp]. split; [done|]. intros He. destruct Hn.
  split; [done|]. apply Hsd in Hp. by apply elem_of_list_to_set in Hp.
Qed.

Lemma release_awaits m : manager_ok m → awaits m → awaits (release_empty_input_holds m).1.
Proof.
  intros Hm Ha. destruct (release_empty_cases m) as [-> | ->];
    [apply refresh_awaits; [by apply clear_empty_inputs_ok|]|]; by apply clear_awaits.
Qed.

(** A completed bundle ends the wait of every consumer of its outputs. *)
Lemma complete_awaits m id min_ts cnt m' nr :
  manager_ok m → awaits m →
  complete_bundle_with_min_and_input m id min_ts cnt = Ok (m', nr) → awaits m'.
Proof.
  intros [Hok Hw] Ha H. apply complete_bundle_spec in H as (s & nr0 & Es & Hi & V & HM & _).
  set (E := propagates_empty s min_ts cnt) in *. set (m1 := with_stages m _) in *.
  assert (Hm1 : ∀ i, stages m1 !! i = if decide (i = id) then Some (bundle_done s) else stages m !! i).
  { intros i. unfold m1. simpl. case_decide; [subst; apply lookup_insert_eq|by apply lookup_insert_ne]. }
  (* a producer other than [id] is still there, as incomplete as before *)
  assert (Hother : ∀ p, awaited m p → p ∈ outputs s ∨ awaited m' p).
  { intros p (pid & ps & Ep & Ho & Hc). destruct (decide (pid = id)) as [->|Hne].
    - left. congruence.
    - right. destruct (visited_lookup _ _ _ _ _ _ _ pid ps V) as (ps' & Ep' & W & _).
      { rewrite Hm1. by rewrite decide_False. }
      exists pid, ps'. pose proof (wake_frame_fields _ _ (wk_frame _ _ _ _ W)) as [(_ & _ & Fo & _) (_ & _ & _ & Fc & _)].
      by rewrite <- Fo, <- Fc. }
  intros c s' p Ec.
  pose proof (vs_stages _ _ _ _ _ _ _ V c) as Hst. rewrite Ec in Hst.
  destruct (stages m1 !! c) as [s1|] eqn:E1; [|done]. destruct Hst as [W _].
  assert (∃ s0, stages m !! c = Some s0 ∧ unproduced s1 = unproduced s0
    ∧ unproduced_side_inputs s1 = unproduced_side_inputs s0 ∧ pending_empty s1 = pending_empty s0)
    as (s0 & E0 & U0 & S0 & P0).
  { rewrite Hm1 in E1. case_decide; [|by exists s1]. subst. exists s. by simplify_eq. }
  destruct (Ha c s0 p E0) as [Hmain Hside]. destruct (Hw c s0 E0) as [Wm Ws].
  pose proof (Hok c s0 E0) as [_ _ _ Hun Hsd _ _ _ _ _].
  assert (Hmark : p ∈ outputs s → marked E m m' p).
  { intros Hp. rewrite Forall_forall in HM. apply HM. by apply list_elem_of_In. }
  split; intros Hp.
  - assert (Hp0 : p ∈ unproduced s0) by (rewrite <- U0; by apply (wk_unproduced _ _ _ _ W)).
    destruct (Hother p (Hmain Hp0)) as [Ho|?]; [|done]. exfalso.
    destruct (Hmark Ho c s' Ec) as [[Hn _] _]; [|done].
    apply Wm. apply Hun in Hp0. by apply elem_of_list_to_set in Hp0.
  - assert (Hp0 : p ∈ unproduced_side_inputs s0) by (rewrite <- S0; by apply (wk_side _ _ _ _ W)).
    assert (Hsin : p ∈ side_inputs s0) by (apply Hsd in Hp0; by apply elem_of_list_to_set in Hp0).
    assert (Hcase : p ∈ outputs s → p ∈ pending_empty s').
    { intros Ho. destruct (Hmark Ho c s' Ec) as [_ Hs]. specialize (Hs (Ws p Hsin)).
      unfold side_mark in Hs. by destruct E. }
    destruct (Hside Hp0) as [Haw|Hpe].
    + destruct (Hother p Haw) as [Ho|?]; [right; auto|by left].
    + right. destruct (decide (p ∈ outputs s)) as [Ho|Ho]; [auto|].
      apply (wk_empty _ _ _ _ W). rewrite P0. destruct E; [set_solver|].
      apply elem_of_difference. split; [done|]. by rewrite elem_of_list_to_set.
Qed.

(** * Runs of a built pipeline *)

Definition is_add (o : op) : bool := match o with AddStage _ _ _ _ => true | _ => false end.

(** A pipeline as it is handed to the dispatcher: nothing has run, and every input
    of a stage is an output of a stage. *)
Record built (m : WatermarkManager) : Prop := {
  bt_ok : manager_ok m;
  bt_fresh : ∀ id s, stages m !! id = Some s → completed s = false;
  bt_closed : ∀ id s p, stages m !! id = Some s → p ∈ main_inputs s ++ side_inputs s →
    ∃ pid ps, stages m !! pid = Some ps ∧ p ∈ outputs ps;
}.

Inductive runs (m0 : WatermarkManager) : WatermarkManager → Prop :=
| runs_start : runs m0 m0
| runs_op m o m' : runs m0 m → is_add o = false → apply_op m o = Ok m' → runs m0 m'.

Ltac stage_keeps H := eapply update_stage_awaits; [eassumption| |exact H]; intros s; by split.

Lemma started_keeps s : keeps s (started s).
Proof. unfold started. repeat case_match; by split. Qed.

Lemma map_imap_awaits m (f : StageId → StageState → StageState) :
  awaits m → (∀ i s, keeps s (f i s)) → awaits (with_stages m (map_imap (λ i s, Some (f i s)))).
Proof.
  intros Ha Hf. eapply awaits_keeps; [|done]. intros id. simpl. rewrite map_lookup_imap.
  destruct (stages m !! id); [apply Hf|done].
Qed.

Lemma apply_op_awaits m o m' :
  manager_ok m → awaits m → is_add o = false → apply_op m o = Ok m' → awaits m'.
Proof.
  intros Hm Ha Hadd H. destruct o; cbn [apply_op] in H.
  - done.
  - by apply (update_source_awaits _ _ _ _ Ha H).
  - by apply (update_source_awaits _ _ _ _ Ha H).
  - by apply (update_source_awaits _ _ _ _ Ha H).
  - by apply (update_source_awaits _ _ _ _ Ha H).
  - stage_keeps H.
  - stage_keeps H.
  - injection H as <-. apply map_imap_awaits; [done|]. intros i s. by split.
  - injection H as <-. apply map_imap_awaits; [done|]. intros i s. by split.
  - stage_keeps H.
  - stage_keeps H.
  - stage_keeps H.
  - stage_keeps H.
  - stage_keeps H.
  - apply start_bundle_spec in H as (s & E & _ & _ & _ & Hu & ->).
    eapply awaits_keeps; [apply (insert_keeps m stage s); [done|apply started_keeps]|done].
  - inv_bind H. destruct a as [m1 nr]. injection H as <-. by eapply complete_awaits.
  - injection H as <-. by apply release_awaits.
  - injection H as <-. by apply refresh_awaits.
Qed.

Lemma built_awaits m : built m → awaits m.
Proof.
  intros [[Hok Hw] Hf Hc] id s p E. destruct (Hok id s E) as [_ _ _ Hun Hsd _ _ _ _ _].
  assert (Haw : p ∈ main_inputs s ++ side_inputs s → awaited m p).
  { intros Hp. destruct (Hc id s p E Hp) as (pid & ps & Ep & Ho). exists pid, ps.
    split_and!; [done..|]. by apply (Hf pid). }
  split; intros Hp; [|left]; apply Haw, elem_of_app.
  - left. apply Hun in Hp. by apply elem_of_list_to_set in Hp.
  - right. apply Hsd in Hp. by apply elem_of_list_to_set in Hp.
Qed.

Lemma runs_inv m0 m : built m0 → runs m0 m → manager_ok m ∧ awaits m.
Proof.
  intros Hb. induction 1 as [|m o m' _ [Hm Ha] Hadd H]; [split; [apply Hb|by apply built_awaits]|].
  split; [by eapply apply_op_ok|by eapply apply_op_awaits].
Qed.

(** * Progress *)

(** Producers come before the stages that read their outputs. *)
Definition outputs_ranked (m : WatermarkManager) (rank : StageId → nat) : Prop :=
  ∀ id s p pid ps, stages m !! id = Some s → p ∈ main_inputs s ++ side_inputs s →
    stages m !! pid = Some ps → p ∈ outputs ps → rank pid < rank id.

(** Nothing executes, no stage is gated on time and no empty branch is held. *)
Definition idle (m : WatermarkManager) : Prop :=
  ∀ id s, stages m !! id = Some s → in_flight s = 0 ∧ kind s = Ordinary ∧ pending_empty s = ∅.

Definition unfinished (s : StageState) : Prop :=
  completed s = false ∨ unproduced_side_inputs s ≠ ∅ ∨ pending s ≠ ∅ ∨ rerun_pending s = true
  ∨ 0 < queued s.

Lemma idle_progress m rank :
  manager_ok m → awaits m → outputs_ranked m rank → idle m →
  ∀ id s, stages m !! id = Some s → unfinished s → ∃ r, stage_is_ready m r = true.
Proof.
  intros [Hok Hw] Ha Hr Hidle.
  assert (H : ∀ n id s, rank id < n → stages m !! id = Some s → unfinished s →
    ∃ r, stage_is_ready m r = true); [|intros id s; by apply (H (S (rank id))); lia].
  induction n as [|n IH]; intros id s Hn E Hu; [lia|].
  destruct (Hidle id s E) as (Hi & Hk & Hpe).
  destruct (Hok id s E) as [_ _ _ Hun Hsd Hst _ _ _ Hmax].
  assert (Hup : ∀ p, p ∈ main_inputs s ++ side_inputs s → awaited m p → ∃ r, stage_is_ready m r = true).
  { intros p Hp (pid & ps & Ep & Ho & Hc). apply (IH pid ps); [|done|by left].
    specialize (Hr id s p pid ps E Hp Ep Ho). lia. }
  destruct (set_choose_or_empty (unproduced s)) as [[p Hp]|Hum].
  { apply (Hup p); [|by apply (Ha id s p E)]. apply elem_of_app. left.
    apply Hun in Hp. by apply elem_of_list_to_set in Hp. }
  destruct (set_choose_or_empty (unproduced_side_inputs s)) as [[p Hp]|Hus].
  { apply (Hup p).
    - apply elem_of_app. right. apply Hsd in Hp. by apply elem_of_list_to_set in Hp.
    - destruct (Ha id s p E) as [_ [?|Hin]]; [done|done|]. rewrite Hpe in Hin. set_solver. }
  apply leibniz_equiv in Hum. apply leibniz_equiv in Hus. exists id. apply (ordinary_ready m id s E Hk). split.
  - lia.
  - done.
  - done.
  - lia.
  - intros Hc. destruct Hu as [?|[?|[?|[?|?]]]]; [congruence|done|tauto..].
  - congruence.
Qed.

Lemma forallb_false {A} (f : A → bool) l : forallb f l = false → ∃ x, x ∈ l ∧ f x = false.
Proof.
  induction l as [|x l IH]; simpl; [done|]. destruct (f x) eqn:E; simpl.
  - intros H. destruct (IH H) as (y & Hy & Hf). exists y. split; [by right|done].
  - intros _. exists x. split; [left|done].
Qed.

Lemma incomplete_unfinished m :
  idle m → is_complete m = false → ∃ id s, stages m !! id = Some s ∧ unfinished s.
Proof.
  intros Hidle H. apply forallb_false in H as ([id s] & Hin & Hf).
  apply elem_of_map_to_list in Hin. exists id, s. split; [done|].
  destruct (Hidle id s Hin) as (Hi & Hk & _). unfold unfinished.
  destruct (completed s); [|by left]. rewrite Hi, Hk in Hf. simpl in Hf.
  destruct (decide (unproduced_side_inputs s = ∅)) as [H1|]; [|tauto].
  destruct (decide (pending s = ∅)) as [H2|]; [|tauto].
  rewrite (bool_decide_true _ H1), (bool_decide_true _ H2) in Hf. simpl in Hf.
  destruct (rerun_pending s); [tauto|]. destruct (Nat.eqb_spec (queued s) 0); [done|].
  right; right; right; right. lia.
Qed.

Lemma runs_no_deadlock m0 m rank :
  built m0 → runs m0 m → outputs_ranked m rank → idle m →
  is_complete m = true ∨ ∃ r, stage_is_ready m r = true.
Proof.
  intros Hb Hruns Hr Hi. destruct (runs_inv m0 m Hb Hruns) as [Hm Ha].
  destruct (is_complete m) eqn:Hc; [by left|right].
  destruct (incomplete_unfinished m Hi Hc) as (id & s & E & Hu). by eapply idle_progress.
Qed.

(** * Watermarks never go back *)

Definition no_regress (s s' : StageState) : Prop := (input s ≤ input s')%Z ∧ (output s ≤ output s')%Z.

Lemma apply_op_monotone m o m' id s :
  manager_ok m → is_add o = false → apply_op m o = Ok m' → stages m !! id = Some s →
  ∃ s', stages m' !! id = Some s' ∧ no_regress s s'.
Proof.
  intros Hm Hadd H Es. unfold no_regress.
  assert (Hins : ∀ st t t', stages m !! st = Some t → input t = input t' → output t = output t' →
    ∃ s', stages (with_stages m (<[st := t']>)) !! id = Some s' ∧ (input s ≤ input s')%Z ∧ (output s ≤ output s')%Z).
  { intros st t t' Et HI HO. simpl. destruct (decide (id = st)) as [->|Hne].
    - rewrite lookup_insert_eq. exists t'. assert (s = t) as -> by congruence. split; [done|lia].
    - rewrite lookup_insert_ne by done. exists s. split; [done|lia]. }
  assert (Hupd : ∀ st f, (∀ t, input (f t) = input t ∧ output (f t) = output t) → update_stage m st f = Ok m' →
    ∃ s', stages m' !! id = Some s' ∧ (input s ≤ input s')%Z ∧ (output s ≤ output s')%Z).
  { intros st f Hf Hu. unfold update_stage in Hu. destruct (stages m !! st) as [t|] eqn:Et; [|done].
    injection Hu as <-. destruct (Hf t). by apply (Hins st t). }
  assert (Hsrc : ∀ st f, update_source m st f = Ok m' →
    ∃ s', stages m' !! id = Some s' ∧ (input s ≤ input s')%Z ∧ (output s ≤ output s')%Z).
  { intros st f Hu. unfold update_source in Hu. destruct (stages m !! st) as [t|] eqn:Et; [|done].
    destruct (source t); [|done]. injection Hu as <-. by apply (Hins st t). }
  assert (Href : ∀ m1, manager_ok m1 → ∀ s1, stages m1 !! id = Some s1 →
    ∃ s', stages (refresh m1).1 !! id = Some s' ∧ (input s1 ≤ input s')%Z ∧ (output s1 ≤ output s')%Z).
  { intros m1 Hm1 s1 E1. destruct (refresh_progress m1 (manager_ok_bounded m1 Hm1)) as (adv & Hp & _ & _).
    destruct (manager_le_lookup _ _ _ _ (prog_le _ _ _ _ Hp) E1) as (s' & E' & _ & ? & ?). by exists s'. }
  assert (Himap : ∀ f : StageId → StageState → StageState,
    (∀ i t, input (f i t) = input t ∧ output (f i t) = output t) →
    ∃ s', stages (with_stages m (map_imap (λ i t, Some (f i t)))) !! id = Some s'
          ∧ (input s ≤ input s')%Z ∧ (output s ≤ output s')%Z).
  { intros f Hf. simpl. rewrite map_lookup_imap, Es. eexists. split; [done|]. destruct (Hf id s). simpl. lia. }
  destruct o; cbn [apply_op] in H; try done; try (by eapply Hsrc); try (by eapply Hupd; [|exact H]);
    try (injection H as <-; by apply Himap).
  - apply start_bundle_spec in H as (t & Et & _ & _ & _ & _ & ->). apply (Hins stage t); [done|..];
      unfold started; by repeat case_match.
  - inv_bind H. destruct a as [m1 nr]. injection H as <-.
    apply complete_bundle_spec in E as (t & nr0 & Et & Hi & V & _).
    destruct (Hins stage t (bundle_done t) Et eq_refl eq_refl) as (s1 & E1 & HI & HO).
    destruct (visited_lookup _ _ _ _ _ _ _ id s1 V E1) as (s' & E' & W & _).
    pose proof (wake_frame_fields _ _ (wk_frame _ _ _ _ W)) as [(_ & _ & _ & _ & FI & FO) _].
    exists s'. split; [done|lia].
  - injection H as <-. pose proof (clear_empty_inputs_ok m Hm) as Hc.
    assert (E1 : ∃ s1, stages (clear_empty_inputs m) !! id = Some s1 ∧ input s1 = input s ∧ output s1 = output s).
    { simpl. rewrite lookup_fmap, Es. simpl. case_decide; by eexists. }
    destruct E1 as (s1 & E1 & HI & HO).
    destruct (release_empty_cases m) as [-> | ->]; [|exists s1; split; [done|lia]].
    destruct (Href _ Hc s1 E1) as (s' & E' & ? & ?). exists s'. split; [done|lia].
  - injection H as <-. by apply Href.
Qed.
