(* ===== verification/Trigger.v ===== *)
(** Triggers: when a window fires and how the firing is described
    (engine/trigger.rs). *)
From S2P Require Import Prelude Bytes Varint Windows.
Set Warnings "-register-all".

(** * Parsed triggers *)

Inductive Trigger : Type :=
| TDefault
| TNever
| TAlways
| ElementCount (count : Z)
| AfterProcessingTime (delay_millis : Z)
| AfterSynchronizedProcessingTime
| AfterWatermark (early late : option Trigger)
| AfterAll (subs : list Trigger)
| AfterAny (subs : list Trigger)
| AfterEach (subs : list Trigger)
| Repeat (sub : Trigger)
| OrFinally (main finally : Trigger).

(** Induction with a hypothesis for every subtrigger. *)
Section trigger_ind.
Variable Q : Trigger → Prop.
Definition is_leaf_trigger (t : Trigger) : bool :=
  match t with
  | AfterWatermark _ _ | AfterAll _ | AfterAny _ | AfterEach _ | Repeat _ | OrFinally _ _ => false
  | _ => true
  end.
Definition on_option (o : option Trigger) : Prop := match o with Some t => Q t | None => True end.
Hypothesis Hleaf : ∀ t, is_leaf_trigger t = true → Q t.
Hypothesis Hwm : ∀ e l, on_option e → on_option l → Q (AfterWatermark e l).
Hypothesis Hall : ∀ l, Forall Q l → Q (AfterAll l).
Hypothesis Hany : ∀ l, Forall Q l → Q (AfterAny l).
Hypothesis Heach : ∀ l, Forall Q l → Q (AfterEach l).
Hypothesis Hrep : ∀ t, Q t → Q (Repeat t).
Hypothesis Hor : ∀ a b, Q a → Q b → Q (OrFinally a b).

Fixpoint trigger_ind (t : Trigger) : Q t :=
  let go := fix go l : Forall Q l :=
    match l with
    | [] => @List.Forall_nil _ Q
    | x :: l => @List.Forall_cons _ Q x l (trigger_ind x) (go l)
    end in
  match t with
  | AfterWatermark e l =>
      Hwm e l
        (match e return on_option e with Some t => trigger_ind t | None => I end)
        (match l return on_option l with Some t => trigger_ind t | None => I end)
  | AfterAll l => Hall l (go l)
  | AfterAny l => Hany l (go l)
  | AfterEach l => Heach l (go l)
  | Repeat t => Hrep t (trigger_ind t)
  | OrFinally a b => Hor a b (trigger_ind a) (trigger_ind b)
  | t => Hleaf t eq_refl
  end.
End trigger_ind.

(** * Triggers as the pipeline declares them *)

(** The proto message and its [oneof].  A timestamp transform is a delay or
    something the parser ignores. *)
Inductive TriggerProto : Type :=
| mkTriggerProto (trigger : option TriggerOneof)
with TriggerOneof : Type :=
| PDefault | PNever | PAlways
| PElementCount (element_count : Z)
| PAfterProcessingTime (timestamp_transforms : list (option Z))
| PAfterSynchronizedProcessingTime
| PAfterEndOfWindow (early_firings late_firings : option TriggerProto)
| PAfterAll (subtriggers : list TriggerProto)
| PAfterAny (subtriggers : list TriggerProto)
| PAfterEach (subtriggers : list TriggerProto)
| PRepeat (subtrigger : option TriggerProto)
| POrFinally (main finally : option TriggerProto).

Section parse.
Context `{P : Profile} {E : Type}.

(** [total_delay_millis]. *)
Fixpoint total_delay_from (total : Z) (transforms : list (option Z)) : outcome E Z :=
  match transforms with
  | [] => Ok total
  | Some delay :: ts => total ← arith_i 64 (total + Z.max delay 0); total_delay_from total ts
  | None :: ts => total_delay_from total ts
  end.
Definition total_delay_millis (transforms : list (option Z)) : outcome E Z :=
  total_delay_from 0 transforms.

(** [Trigger::from_proto] on a present message. *)
Fixpoint parse_trigger (p : TriggerProto) : outcome E Trigger :=
  match p with
  | mkTriggerProto None => Ok TDefault
  | mkTriggerProto (Some inner) => parse_oneof inner
  end
with parse_oneof (inner : TriggerOneof) : outcome E Trigger :=
  match inner with
  | PDefault => Ok TDefault
  | PNever => Ok TNever
  | PAlways => Ok TAlways
  | PElementCount n => Ok (ElementCount (Z.max n 1))
  | PAfterProcessingTime ts => d ← total_delay_millis ts; Ok (AfterProcessingTime d)
  | PAfterSynchronizedProcessingTime => Ok AfterSynchronizedProcessingTime
  | PAfterEndOfWindow early late =>
      e ← match early with Some t => Some <$> parse_trigger t | None => Ok None end;
      l ← match late with Some t => Some <$> parse_trigger t | None => Ok None end;
      Ok (AfterWatermark e l)
  | PAfterAll subs => ts ← traverse parse_trigger subs; Ok (AfterAll ts)
  | PAfterAny subs => ts ← traverse parse_trigger subs; Ok (AfterAny ts)
  | PAfterEach subs => ts ← traverse parse_trigger subs; Ok (AfterEach ts)
  | PRepeat sub =>
      t ← match sub with Some t => parse_trigger t | None => Ok TDefault end; Ok (Repeat t)
  | POrFinally main finally =>
      m ← match main with Some t => parse_trigger t | None => Ok TDefault end;
      f ← match finally with Some t => parse_trigger t | None => Ok TDefault end;
      Ok (OrFinally m f)
  end.

Definition trigger_from_proto (proto : option TriggerProto) : outcome E Trigger :=
  match proto with Some p => parse_trigger p | None => Ok TDefault end.
End parse.

(** * Strategies *)

Inductive AccumulationMode : Type := Discarding | Accumulating | Retracting.

(** [AccumulationMode::from_proto] on the enum number. *)
Definition accumulation_from_proto (value : Z) : AccumulationMode :=
  match value with 2 | 3 => Accumulating | _ => Discarding end%Z.

Inductive OutputTime : Type := EndOfWindow | LatestInPane | EarliestInPane.

Definition output_time_from_proto (value : Z) : OutputTime :=
  match value with 2 => LatestInPane | 3 => EarliestInPane | _ => EndOfWindow end%Z.

Record TriggerSpec : Type := mkTriggerSpec {
  spec_trigger : Trigger;
  accumulation : AccumulationMode;
  output_time : OutputTime;
  allowed_lateness : Z;
}.

(** The fields of a [WindowingStrategy] a trigger depends on. *)
Record WindowingStrategy : Type := mkStrategy {
  ws_trigger : option TriggerProto;
  ws_accumulation_mode : Z;
  ws_output_time : Z;
  ws_allowed_lateness : Z;
}.

(** [TriggerSpec::from_windowing_strategy]. *)
Definition from_windowing_strategy `{P : Profile} {E} (strategy : option WindowingStrategy)
    : outcome E TriggerSpec :=
  match strategy with
  | None => Ok (mkTriggerSpec TDefault Discarding EndOfWindow 0)
  | Some ws =>
      t ← trigger_from_proto (ws_trigger ws);
      Ok (mkTriggerSpec t (accumulation_from_proto (ws_accumulation_mode ws))
            (output_time_from_proto (ws_output_time ws)) (ws_allowed_lateness ws))
  end.

(** [TriggerSpec::earliest_completion]. *)
Definition earliest_completion (spec : TriggerSpec) (window_end_millis : Z) : Z :=
  saturating_i64 (window_end_millis + allowed_lateness spec).

(** * Runner state *)

Record TriggerContext : Type := mkContext {
  end_of_window : bool;
  expired : bool;
  processing_time : Z;
}.

(** [NodeState], mirroring the trigger tree. *)
Inductive NodeState : Type :=
| mkNode (fired_once : bool) (count : Z) (first_arrival : option Z) (index : nat)
    (finished : bool) (children : list NodeState).

Definition fired_once (s : NodeState) : bool := let '(mkNode f _ _ _ _ _) := s in f.
Definition node_count (s : NodeState) : Z := let '(mkNode _ c _ _ _ _) := s in c.
Definition first_arrival (s : NodeState) : option Z := let '(mkNode _ _ a _ _ _) := s in a.
Definition node_index (s : NodeState) : nat := let '(mkNode _ _ _ i _ _) := s in i.
Definition node_finished (s : NodeState) : bool := let '(mkNode _ _ _ _ f _) := s in f.
Definition children (s : NodeState) : list NodeState := let '(mkNode _ _ _ _ _ c) := s in c.

Definition default_node : NodeState := mkNode false 0 None 0 false [].

Definition with_children (s : NodeState) (cs : list NodeState) : NodeState :=
  mkNode (fired_once s) (node_count s) (first_arrival s) (node_index s) (node_finished s) cs.
Definition latch (s : NodeState) : NodeState :=
  mkNode true (node_count s) (first_arrival s) (node_index s) (node_finished s) (children s).

Fixpoint fresh (t : Trigger) : NodeState :=
  match t with
  | AfterWatermark early late =>
      with_children default_node
        [match early with Some t => fresh t | None => default_node end;
         match late with Some t => fresh t | None => default_node end]
  | AfterAll subs | AfterAny subs | AfterEach subs => with_children default_node (map fresh subs)
  | Repeat sub => with_children default_node [fresh sub]
  | OrFinally main finally => with_children default_node [fresh main; fresh finally]
  | _ => default_node
  end.

(** [&state.children[i]]: an index past the end panics. *)
Definition child {E} (s : NodeState) (i : nat) : outcome E NodeState :=
  match children s !! i with Some c => Ok c | None => Panic "index out of bounds" end.

(** [state.children[i] = f(state.children[i])]. *)
Definition update_child {E} (s : NodeState) (i : nat) (f : NodeState → outcome E NodeState)
    : outcome E NodeState :=
  c ← child s i; c' ← f c; Ok (with_children s (<[i := c']> (children s))).

(** [for (sub, child) in subs.iter().zip(children.iter_mut())]. *)
Definition zip_update {E A B} (f : A → B → outcome E B) : list A → list B → outcome E (list B) :=
  fix go l k :=
    match l, k with
    | x :: l, y :: k => y' ← f x y; k' ← go l k; Ok (y' :: k')
    | _, k => Ok k
    end.

(** [.zip(..).all(..)] and [.zip(..).any(..)], stopping at the first answer. *)
Definition zip_all {E A B} (f : A → B → outcome E bool) : list A → list B → outcome E bool :=
  fix go l k :=
    match l, k with
    | x :: l, y :: k => b ← f x y; if b : bool then go l k else Ok false
    | _, _ => Ok true
    end.
Definition zip_any {E A B} (f : A → B → outcome E bool) : list A → list B → outcome E bool :=
  fix go l k :=
    match l, k with
    | x :: l, y :: k => b ← f x y; if b : bool then Ok true else go l k
    | _, _ => Ok false
    end.

Section runner.
Context `{P : Profile} {E : Type}.
Abbreviation res := (outcome E).

(** [element].  The count is that of the elements of one pane since it last fired, a [u64]
    in the code; it is unbounded here, as no pane gets [2 ^ 64] elements. *)
Fixpoint element (t : Trigger) (s : NodeState) (now : Z) : res NodeState :=
  match t with
  | ElementCount _ =>
      Ok (mkNode (fired_once s) (node_count s + 1) (first_arrival s) (node_index s)
            (node_finished s) (children s))
  | AfterProcessingTime _ =>
      Ok (mkNode (fired_once s) (node_count s)
            (match first_arrival s with None => Some now | a => a end)
            (node_index s) (node_finished s) (children s))
  | AfterWatermark early late =>
      if negb (fired_once s) then
        match early with
        | Some early => update_child s 0 (λ c, element early c now)
        | None => Ok s
        end
      else
        match late with
        | Some late => update_child s 1 (λ c, element late c now)
        | None => Ok s
        end
  | AfterAll subs | AfterAny subs | AfterEach subs =>
      cs ← zip_update (λ sub c, element sub c now) subs (children s);
      Ok (with_children s cs)
  | Repeat sub =>
      match children s with
      | [] => Ok s
      | _ :: _ => update_child s 0 (λ c, element sub c now)
      end
  | OrFinally main finally =>
      s ← update_child s 0 (λ c, element main c now);
      update_child s 1 (λ c, element finally c now)
  | _ => Ok s
  end.

(** [should_fire]. *)
Fixpoint should_fire (t : Trigger) (s : NodeState) (ctx : TriggerContext) : res bool :=
  match t with
  | TDefault => Ok (end_of_window ctx && negb (fired_once s))
  | TNever => Ok (expired ctx && negb (fired_once s))
  | TAlways | AfterSynchronizedProcessingTime => Ok true
  | ElementCount count => Ok ((count <=? node_count s)%Z && negb (fired_once s))
  | AfterProcessingTime delay_millis =>
      elapsed ←
        match first_arrival s with
        | Some first => due ← arith_i 64 (first + delay_millis); Ok (due <=? processing_time ctx)%Z
        | None => Ok false
        end;
      Ok (elapsed && negb (fired_once s))
  | AfterWatermark early late =>
      if negb (end_of_window ctx) then
        match early with
        | Some early => c ← child s 0; should_fire early c ctx
        | None => Ok false
        end
      else if negb (fired_once s) then Ok true
      else
        match late with
        | Some late => c ← child s 1; should_fire late c ctx
        | None => Ok true
        end
  | AfterAll subs => zip_all (λ sub c, should_fire sub c ctx) subs (children s)
  | AfterAny subs => zip_any (λ sub c, should_fire sub c ctx) subs (children s)
  | AfterEach subs =>
      match map (λ sub c, should_fire sub c ctx) subs !! node_index s with
      | Some f => c ← child s (node_index s); f c
      | None => Ok false
      end
  | Repeat sub =>
      match children s with
      | [] => Ok false
      | c :: _ => should_fire sub c ctx
      end
  | OrFinally main finally =>
      if node_finished s then Ok false
      else
        c0 ← child s 0;
        m ← should_fire main c0 ctx;
        if m : bool then Ok true else c1 ← child s 1; should_fire finally c1 ctx
  end.

(** [fire]. *)
Fixpoint fire (t : Trigger) (s : NodeState) (ctx : TriggerContext) : res NodeState :=
  match t with
  | TDefault | TNever | ElementCount _ | AfterProcessingTime _ => Ok (latch s)
  | AfterWatermark early late =>
      if negb (end_of_window ctx) then
        match early with
        | Some early => update_child s 0 (λ c, fire early c ctx)
        | None => Ok s
        end
      else if negb (fired_once s) then
        match early with
        | Some early => update_child (latch s) 0 (λ _, Ok (fresh early))
        | None => Ok (latch s)
        end
      else
        match late with
        | Some late => update_child s 1 (λ c, fire late c ctx)
        | None => Ok s
        end
  | TAlways | AfterSynchronizedProcessingTime => Ok s
  | AfterAll subs | AfterAny subs =>
      cs ← zip_update (λ sub c, fire sub c ctx) subs (children s);
      Ok (with_children s cs)
  | AfterEach subs =>
      s ←
        match map (λ sub c, fire sub c ctx) subs !! node_index s with
        | Some f => update_child s (node_index s) f
        | None => Ok s
        end;
      let index := S (node_index s) in
      Ok (mkNode (fired_once s) (node_count s) (first_arrival s) index
            (if decide (length subs ≤ index)%nat then true else node_finished s) (children s))
  | Repeat sub =>
      match children s with
      | [] => Ok s
      | _ :: _ => update_child s 0 (λ c, _ ← fire sub c ctx; Ok (fresh sub))
      end
  | OrFinally main finally =>
      c1 ← child s 1;
      f ← should_fire finally c1 ctx;
      if f : bool then
        Ok (mkNode (fired_once s) (node_count s) (first_arrival s) (node_index s) true (children s))
      else update_child s 0 (λ c, fire main c ctx)
  end.
End runner.

(** * [TriggerRunner] *)
Record TriggerRunner : Type := mkRunner { runner_trigger : Trigger; runner_state : NodeState }.

Definition new_runner (t : Trigger) : TriggerRunner := mkRunner t (fresh t).
Definition is_finished (r : TriggerRunner) : bool := node_finished (runner_state r).

(** What is done to a runner: elements arrive, firings are recorded. *)
Inductive runner_event : Type :=
| OnElement (now : Z)
| OnFire (ctx : TriggerContext).

Definition runner_step `{P : Profile} {E} (r : TriggerRunner) (e : runner_event)
    : outcome E TriggerRunner :=
  let t := runner_trigger r in
  s ← match e with
      | OnElement now => element t (runner_state r) now
      | OnFire ctx => fire t (runner_state r) ctx
      end;
  Ok (mkRunner t s).

Fixpoint run_events `{P : Profile} {E} (r : TriggerRunner) (es : list runner_event)
    : outcome E TriggerRunner :=
  match es with
  | [] => Ok r
  | e :: es => r ← runner_step r e; run_events r es
  end.

(** * Panes *)

Definition pane_info (timing : PaneTiming) (index : Z) (is_first is_last : bool) : PaneInfo :=
  mkPane is_first is_last timing index (if decide (timing = Early) then (-1)%Z else index).

Definition pane_timing (end_of_window is_first_firing : bool) : PaneTiming :=
  if negb end_of_window then Early else if is_first_firing then OnTime else Late.

(** * A runner never panics *)

(** Clock readings and delays of less than [2 ^ 62] milliseconds. *)
Definition clock_ok (now : Z) : Prop := (0 ≤ now < 2 ^ 62)%Z.

Fixpoint delays_ok (t : Trigger) : Prop :=
  match t with
  | AfterProcessingTime d => clock_ok d
  | AfterWatermark e l =>
      match e with Some t => delays_ok t | None => True end
      ∧ match l with Some t => delays_ok t | None => True end
  | AfterAll subs | AfterAny subs | AfterEach subs => all1 delays_ok subs
  | Repeat sub => delays_ok sub
  | OrFinally a b => delays_ok a ∧ delays_ok b
  | _ => True
  end.

(** The state mirrors the trigger: every node has the children its trigger
    indexes, and recorded arrivals are clock readings. *)
Fixpoint shaped (t : Trigger) (s : NodeState) : Prop :=
  match t with
  | AfterProcessingTime _ => match first_arrival s with Some a => clock_ok a | None => True end
  | AfterWatermark e l =>
      ∃ c0 c1, children s = [c0; c1]
        ∧ match e with Some t => shaped t c0 | None => True end
        ∧ match l with Some t => shaped t c1 | None => True end
  | AfterAll subs | AfterAny subs | AfterEach subs => all2 shaped subs (children s)
  | Repeat sub => ∃ c, children s = [c] ∧ shaped sub c
  | OrFinally a b => ∃ c0 c1, children s = [c0; c1] ∧ shaped a c0 ∧ shaped b c1
  | _ => True
  end.

Lemma all2_fresh subs : Forall (λ t, shaped t (fresh t)) subs → all2 shaped subs (map fresh subs).
Proof. induction 1; simpl; [done|by split]. Qed.

Lemma fresh_shaped t : shaped t (fresh t).
Proof.
  induction t as [t Ht|e l He Hl|l Hl|l Hl|l Hl|t Ht|a b Ha Hb] using trigger_ind.
  - by destruct t.
  - simpl. do 2 eexists. split; [done|]. by destruct e, l.
  - by apply all2_fresh.
  - by apply all2_fresh.
  - by apply all2_fresh.
  - simpl. eexists. by split.
  - simpl. do 2 eexists. by split_and!.
Qed.

Section safe.
Context `{P : Profile} {E : Type}.
Abbreviation res := (outcome E).

(** A step over a shaped child gives a shaped child. *)
Definition steps (t : Trigger) (f : NodeState → res NodeState) : Prop :=
  ∀ c, shaped t c → ∃ c', f c = Ok c' ∧ shaped t c'.

Lemma zip_update_shaped (f : Trigger → NodeState → res NodeState) subs cs :
  Forall (λ t, steps t (f t)) subs → all2 shaped subs cs →
  ∃ cs', zip_update f subs cs = Ok cs' ∧ all2 shaped subs cs'.
Proof.
  intros HF. revert cs. induction HF as [|t subs Ht _ IH]; intros [|c cs] Hs; try done.
  - by exists [].
  - destruct Hs as [Hc Hs]. destruct (Ht c Hc) as (c' & Hf & Hc'). destruct (IH cs Hs) as (cs' & Hz & Hs').
    exists (c' :: cs'). split; [|done].
    change (zip_update f (t :: subs) (c :: cs))
      with (y' ← f t c; k' ← zip_update f subs cs; Ok (y' :: k')).
    rewrite Hf. cbn [mbind outcome_bind]. by rewrite Hz.
Qed.

Lemma update_child_lookup (s : NodeState) i c (f : NodeState → res NodeState) c' :
  children s !! i = Some c → f c = Ok c' →
  update_child s i f = Ok (with_children s (<[i := c']> (children s))).
Proof. intros Hc Hf. unfold update_child, child. rewrite Hc. cbn. by rewrite Hf. Qed.

Lemma element_shaped t now : clock_ok now → steps t (λ s, element (E:=E) t s now).
Proof.
  intros Hnow.
  induction t as [t Ht|e l He Hl|l Hl|l Hl|l Hl|t Ht|a b Ha Hb] using trigger_ind; intros s Hs.
  - destruct t; try done; (eexists; split; [reflexivity|]); try done.
    simpl in *. by destruct (first_arrival s).
  - destruct Hs as (c0 & c1 & Hc & H0 & H1). cbn [element]. destruct (fired_once s) eqn:Hf; cbn [negb].
    + destruct l as [l|]; [|exists s; split; [done|]; by exists c0, c1].
      destruct (Hl c1 H1) as (c1' & Hf1 & H1').
      rewrite (update_child_lookup s 1 c1 _ c1') by (by rewrite ?Hc). eexists. split; [done|].
      exists c0, c1'. simpl. rewrite Hc. by split_and!.
    + destruct e as [e|]; [|exists s; split; [done|]; by exists c0, c1].
      destruct (He c0 H0) as (c0' & Hf0 & H0').
      rewrite (update_child_lookup s 0 c0 _ c0') by (by rewrite ?Hc). eexists. split; [done|].
      exists c0', c1. simpl. rewrite Hc. by split_and!.
  - destruct (zip_update_shaped (λ sub c, element sub c now) l (children s) Hl Hs) as (cs & Hz & Hc).
    cbn [element]. rewrite Hz. eexists. by split.
  - destruct (zip_update_shaped (λ sub c, element sub c now) l (children s) Hl Hs) as (cs & Hz & Hc).
    cbn [element]. rewrite Hz. eexists. by split.
  - destruct (zip_update_shaped (λ sub c, element sub c now) l (children s) Hl Hs) as (cs & Hz & Hc).
    cbn [element]. rewrite Hz. eexists. by split.
  - destruct Hs as (c & Hc & H0). cbn [element]. destruct (Ht c H0) as (c' & Hf & H0').
    rewrite (update_child_lookup s 0 c _ c') by (by rewrite ?Hc). rewrite Hc.
    eexists. split; [done|]. exists c'. by split.
  - destruct Hs as (c0 & c1 & Hc & H0 & H1). cbn [element].
    destruct (Ha c0 H0) as (c0' & Hf0 & H0'). destruct (Hb c1 H1) as (c1' & Hf1 & H1').
    rewrite (update_child_lookup s 0 c0 _ c0') by (by rewrite ?Hc). cbn [mbind outcome_bind].
    rewrite (update_child_lookup _ 1 c1 _ c1') by (simpl; by rewrite ?Hc).
    eexists. split; [done|]. exists c0', c1'. simpl. rewrite Hc. by split_and!.
Qed.

Lemma zip_decides (f : Trigger → NodeState → res bool) subs cs :
  Forall (λ t, ∀ c, shaped t c → ∃ b, f t c = Ok b) subs → all2 shaped subs cs →
  (∃ b, zip_all f subs cs = Ok b) ∧ (∃ b, zip_any f subs cs = Ok b).
Proof.
  intros HF. revert cs. induction HF as [|t subs Ht _ IH]; intros [|c cs] Hs; try done.
  - split; by eexists.
  - destruct Hs as [Hc Hs]. destruct (Ht c Hc) as (b & Hf).
    destruct (IH cs Hs) as ((ba & Ha) & (bn & Hn)).
    change (zip_all f (t :: subs) (c :: cs))
      with (b ← f t c; if b : bool then zip_all f subs cs else Ok false).
    change (zip_any f (t :: subs) (c :: cs))
      with (b ← f t c; if b : bool then Ok true else zip_any f subs cs).
    rewrite Hf. cbn [mbind outcome_bind]. destruct b; split; by eexists.
Qed.

Lemma should_fire_ok t ctx :
  delays_ok t → ∀ s, shaped t s → ∃ b, should_fire (E:=E) t s ctx = Ok b.
Proof.
  induction t as [t Ht|e l He Hl|l Hl|l Hl|l Hl|t Ht|a b Ha Hb] using trigger_ind; intros Hd s Hs.
  - destruct t; try done; try (by eexists). cbn [should_fire].
    simpl in Hd, Hs. destruct (first_arrival s) as [a|]; [|by eexists].
    unfold clock_ok in *. rewrite arith_i_ok by (unfold is_i; lia). by eexists.
  - destruct Hs as (c0 & c1 & Hc & H0 & H1), Hd as [Hd0 Hd1]. cbn [should_fire].
    unfold child. rewrite Hc. destruct (end_of_window ctx); cbn [negb].
    + destruct (fired_once s); [|by eexists]. destruct l as [l|]; [|by eexists]. simpl. by apply Hl.
    + destruct e as [e|]; [|by eexists]. simpl. by apply He.
  - simpl in Hd. apply all1_Forall in Hd.
    apply (zip_decides (λ sub c, should_fire sub c ctx)); [|done].
    rewrite Forall_forall in *. intros t Hin c Hc. by apply Hl; [|apply Hd|].
  - simpl in Hd. apply all1_Forall in Hd.
    apply (zip_decides (λ sub c, should_fire sub c ctx)); [|done].
    rewrite Forall_forall in *. intros t Hin c Hc. by apply Hl; [|apply Hd|].
  - simpl in Hd. apply all1_Forall in Hd. simpl in Hs. apply all2_Forall2 in Hs. cbn [should_fire].
    destruct (map _ l !! node_index s) as [f|] eqn:Hf; [|by eexists].
    apply lookup_map_Some in Hf as (t & Ht & ->).
    destruct (Forall2_lookup_l _ _ _ _ _ Hs Ht) as (c & Hc & Hsh). unfold child. rewrite Hc. simpl.
    rewrite Forall_forall in *. apply list_elem_of_lookup_2 in Ht. by apply Hl; [|apply Hd|].
  - destruct Hs as (c & Hc & H0). cbn [should_fire]. rewrite Hc. by apply Ht.
  - destruct Hs as (c0 & c1 & Hc & H0 & H1), Hd as [Hd0 Hd1]. cbn [should_fire].
    destruct (node_finished s); [by eexists|]. unfold child. rewrite Hc. simpl.
    destruct (Ha Hd0 c0 H0) as [b0 ->]. simpl. destruct b0; [by eexists|]. by apply Hb.
Qed.

Lemma fire_shaped t ctx : delays_ok t → steps t (λ s, fire (E:=E) t s ctx).
Proof.
  induction t as [t Ht|e l He Hl|l Hl|l Hl|l Hl|t Ht|a b Ha Hb] using trigger_ind; intros Hd s Hs.
  - destruct t; try done; (eexists; split; [reflexivity|]); done.
  - destruct Hs as (c0 & c1 & Hc & H0 & H1), Hd as [Hd0 Hd1]. cbn [fire].
    destruct (end_of_window ctx); cbn [negb]; [destruct (fired_once s) eqn:Hf; cbn [negb]|].
    + destruct l as [l|]; [|exists s; split; [done|]; by exists c0, c1].
      destruct (Hl Hd1 c1 H1) as (c1' & Hf1 & H1').
      rewrite (update_child_lookup s 1 c1 _ c1') by (by rewrite ?Hc). eexists. split; [done|].
      exists c0, c1'. simpl. rewrite Hc. by split_and!.
    + destruct e as [e|]; [|exists (latch s); split; [done|]; by exists c0, c1].
      rewrite (update_child_lookup (latch s) 0 c0 _ (fresh e)) by (simpl; by rewrite ?Hc).
      eexists. split; [done|]. exists (fresh e), c1. simpl. rewrite Hc.
      split_and!; [done|apply fresh_shaped|done].
    + destruct e as [e|]; [|exists s; split; [done|]; by exists c0, c1].
      destruct (He Hd0 c0 H0) as (c0' & Hf0 & H0').
      rewrite (update_child_lookup s 0 c0 _ c0') by (by rewrite ?Hc). eexists. split; [done|].
      exists c0', c1. simpl. rewrite Hc. by split_and!.
  - simpl in Hd. apply all1_Forall in Hd.
    destruct (zip_update_shaped (λ sub c, fire sub c ctx) l (children s)) as (cs & Hz & Hc);
      [|done|cbn [fire]; rewrite Hz; eexists; by split].
    rewrite Forall_forall in *. intros t Hin. by apply Hl; [|apply Hd].
  - simpl in Hd. apply all1_Forall in Hd.
    destruct (zip_update_shaped (λ sub c, fire sub c ctx) l (children s)) as (cs & Hz & Hc);
      [|done|cbn [fire]; rewrite Hz; eexists; by split].
    rewrite Forall_forall in *. intros t Hin. by apply Hl; [|apply Hd].
  - simpl in Hd. apply all1_Forall in Hd. simpl in Hs. cbn [fire].
    destruct (map _ l !! node_index s) as [f|] eqn:Hf.
    + apply lookup_map_Some in Hf as (t & Ht & ->). pose proof Hs as Hs2. apply all2_Forall2 in Hs2.
      destruct (Forall2_lookup_l _ _ _ _ _ Hs2 Ht) as (c & Hc & Hsh).
      assert (Hst : steps t (λ c, fire t c ctx)).
      { rewrite Forall_forall in *. apply list_elem_of_lookup_2 in Ht. by apply Hl; [|apply Hd]. }
      destruct (Hst c Hsh) as (c' & Hf & Hc').
      rewrite (update_child_lookup s _ c _ c') by done. cbn [mbind outcome_bind].
      eexists. split; [done|]. simpl. apply all2_Forall2.
      rewrite <- (list_insert_id l (node_index s) t Ht). by apply Forall2_insert.
    + cbn [mbind outcome_bind]. eexists. split; [done|]. done.
  - destruct Hs as (c & Hc & H0). cbn [fire]. destruct (Ht Hd c H0) as (c' & Hf & H0').
    rewrite (update_child_lookup s 0 c _ (fresh t)); [|by rewrite Hc|by rewrite Hf].
    rewrite Hc. eexists. split; [done|]. exists (fresh t). split; [done|apply fresh_shaped].
  - destruct Hs as (c0 & c1 & Hc & H0 & H1), Hd as [Hd0 Hd1]. cbn [fire]. unfold child at 1.
    rewrite Hc. simpl. destruct (should_fire_ok b ctx Hd1 c1 H1) as [bf ->]. simpl. destruct bf.
    + eexists. split; [done|]. exists c0, c1. by split_and!.
    + destruct (Ha Hd0 c0 H0) as (c0' & Hf0 & H0').
      rewrite (update_child_lookup s 0 c0 _ c0') by (by rewrite ?Hc). eexists. split; [done|].
      exists c0', c1. simpl. rewrite Hc. by split_and!.
Qed.
End safe.

(** * Behaviour *)

Definition event_ok (e : runner_event) : Prop :=
  match e with OnElement now => clock_ok now | OnFire _ => True end.

Section behaviour.
Context `{P : Profile} {E : Type}.

(** A runner that has only seen events in range is shaped, and every further
    call on it returns. *)
Lemma run_events_shaped t es s :
  delays_ok t → shaped t s → Forall event_ok es →
  ∃ s', run_events (E:=E) (mkRunner t s) es = Ok (mkRunner t s') ∧ shaped t s'.
Proof.
  intros Hd Hs HF. revert s Hs. induction HF as [|e es He _ IH]; intros s Hs; [by exists s|].
  cbn [run_events]. unfold runner_step. simpl.
  assert (∃ s1, match e with OnElement now => element (E:=E) t s now | OnFire ctx => fire t s ctx end
                = Ok s1 ∧ shaped t s1) as (s1 & -> & Hs1).
  { destruct e; [by apply element_shaped|by apply fire_shaped]. }
  simpl. by apply IH.
Qed.

(** ** Finished triggers *)

(** Only sequences and [OrFinally] ever finish; a finished sequence has used up
    its subtriggers. *)
Definition finish_inv (t : Trigger) (s : NodeState) : Prop :=
  match t with
  | AfterEach subs => node_finished s = true → length subs ≤ node_index s
  | OrFinally _ _ => True
  | _ => node_finished s = false
  end.

Lemma update_child_same (s s' : NodeState) i (f : NodeState → outcome E NodeState) :
  update_child s i f = Ok s' →
  node_finished s' = node_finished s ∧ node_index s' = node_index s ∧ fired_once s' = fired_once s.
Proof.
  unfold update_child. intros H. inv_bind H. inv_bind H. injection H as <-. done.
Qed.

Lemma update_child_finish t (s s' : NodeState) i (f : NodeState → outcome E NodeState) :
  finish_inv t s → update_child s i f = Ok s' → finish_inv t s'.
Proof.
  intros Hi H. apply update_child_same in H as (Hf & Hx & _).
  unfold finish_inv in *. rewrite Hf, Hx. done.
Qed.

Lemma step_finish_inv t (r : TriggerRunner) e r' :
  runner_trigger r = t → finish_inv t (runner_state r) → runner_step (E:=E) r e = Ok r' →
  runner_trigger r' = t ∧ finish_inv t (runner_state r').
Proof.
  intros Ht Hi H. unfold runner_step in H. rewrite Ht in H. inv_bind H. injection H as <-.
  split; [done|]. simpl. destruct r as [t' s]. simpl in *. subst t'.
  destruct e as [now|ctx]; destruct t; cbn [element fire] in E0;
    try (by injection E0 as <-);
    try (inv_bind E0; injection E0 as <-; exact Hi);
    try (repeat case_match; solve [by injection E0 as <-|by eapply update_child_finish]);
    try (inv_bind E0; repeat case_match; try (by injection E0 as <-);
         eapply update_child_finish; [|exact E0]; by eapply update_child_finish).
  - destruct (end_of_window ctx), (fired_once s), early, late; cbn [negb] in E0;
      (by injection E0 as <-) || (by eapply update_child_finish; [|exact E0]).
  - destruct (map _ subs !! node_index s) as [f|]; cbn [mbind outcome_bind] in E0.
    + destruct (update_child s (node_index s) f) as [s1| |] eqn:Hu; try done.
      cbn [mbind outcome_bind] in E0. injection E0 as <-. simpl.
      apply update_child_same in Hu as (Hf & Hx & _). intros Hfin. case_decide; [done|].
      rewrite Hf in Hfin. rewrite Hx. specialize (Hi Hfin). lia.
    + injection E0 as <-. simpl. intros Hfin. case_decide; [done|]. specialize (Hi Hfin). lia.
  - done.
Qed.

Lemma finished_stays_quiet t (s : NodeState) ctx :
  finish_inv t s → node_finished s = true → should_fire (E:=E) t s ctx = Ok false.
Proof.
  intros Hi Hf. destruct t; simpl in Hi; try congruence; cbn [should_fire].
  - specialize (Hi Hf). destruct (map _ subs !! node_index s) eqn:Hm; [|done].
    apply lookup_map_Some in Hm as (t & Ht & _). apply lookup_lt_Some in Ht. lia.
  - by rewrite Hf.
Qed.

Lemma fresh_finish_inv t : finish_inv t (fresh t).
Proof. by destruct t. Qed.

Lemma run_events_finish_inv t es r r' :
  runner_trigger r = t → finish_inv t (runner_state r) → run_events (E:=E) r es = Ok r' →
  runner_trigger r' = t ∧ finish_inv t (runner_state r').
Proof.
  revert r. induction es as [|e es IH]; intros r Ht Hi H; cbn [run_events] in H; [by injection H as <-|].
  inv_bind H. destruct (step_finish_inv t r e a Ht Hi E0) as [Ht' Hi']. by apply (IH a).
Qed.

(** ** Counting *)

(** The elements among a list of events, since the last firing. *)
Fixpoint since_fire (n : Z) (es : list runner_event) : Z :=
  match es with
  | [] => n
  | OnElement _ :: es => since_fire (n + 1) es
  | OnFire _ :: es => since_fire 0 es
  end.

Lemma repeat_count_state c es n s :
  children s = [mkNode false n None 0 false []] →
  ∃ s', run_events (E:=E) (mkRunner (Repeat (ElementCount c)) s) es
        = Ok (mkRunner (Repeat (ElementCount c)) s')
        ∧ children s' = [mkNode false (since_fire n es) None 0 false []].
Proof.
  revert n s. induction es as [|e es IH]; intros n s Hc; [by exists s|].
  destruct s as [f k a i fin cs]. simpl in Hc. subst cs.
  destruct e as [now|ctx]; cbn [run_events]; unfold runner_step; simpl; by apply IH.
Qed.

(** ** The on-time firing *)

(** Early firings of [AfterWatermark] leave the on-time firing to come. *)
Lemma early_keeps_on_time e l es s :
  fired_once s = false →
  Forall (λ ev, match ev with OnFire ctx => end_of_window ctx = false | _ => True end) es →
  ∀ r', run_events (E:=E) (mkRunner (AfterWatermark e l) s) es = Ok r' →
  ∃ s', r' = mkRunner (AfterWatermark e l) s' ∧ fired_once s' = false.
Proof.
  intros Hf HF. revert s Hf. induction HF as [|ev es Hev _ IH]; intros s Hf r' H; cbn [run_events] in H.
  - injection H as <-. by exists s.
  - inv_bind H. unfold runner_step in E0. inv_bind E0. injection E0 as <-. apply (IH a0); [|done].
    destruct ev as [now|ctx]; cbn [runner_trigger runner_state element fire] in E1.
    + rewrite Hf in E1. cbn [negb] in E1. destruct e; [|by injection E1 as <-].
      apply update_child_same in E1 as (_ & _ & E1). congruence.
    + rewrite Hev in E1. cbn [negb] in E1. destruct e; [|by injection E1 as <-].
      apply update_child_same in E1 as (_ & _ & E1). congruence.
Qed.
End behaviour.
