(* ===== verification/TriggerProperties.v ===== *)
(** The properties of triggers. *)
From S2P Require Import Prelude Bytes Varint Windows Trigger.

(** Clears the evaluation context of the examples: the end of the window. *)
Definition at_end : TriggerContext := mkContext true false 0.
Definition before_end : TriggerContext := mkContext false false 0.

(** C16: no trigger panics: for every trigger with delays below [2 ^ 62] ms and any
    sequence of elements and firings at such clock readings, every call returns,
    in both build profiles, although the tree of states is indexed without checks. *)
Theorem trigger_never_panics {P : Profile} t es ctx :
  delays_ok t → Forall event_ok es →
  ∃ r b, run_events (E:=string) (new_runner t) es = Ok r
    ∧ should_fire (E:=string) t (runner_state r) ctx = Ok b.
Proof.
  intros Hd He. destruct (run_events_shaped (E:=string) t es (fresh t) Hd (fresh_shaped t) He) as (s & Hr & Hs).
  destruct (should_fire_ok (E:=string) t ctx Hd s Hs) as (b & Hb).
  exists (mkRunner t s), b. by split.
Qed.

Lemma trigger_never_panics_witness :
  ∃ r b, run_events (P:=debug_profile) (E:=string)
      (new_runner (AfterEach [ElementCount 2; AfterProcessingTime 10])) [OnElement 1; OnElement 2; OnFire before_end; OnFire before_end]
      = Ok r
    ∧ should_fire (P:=debug_profile) (E:=string) (AfterEach [ElementCount 2; AfterProcessingTime 10]) (runner_state r) at_end = Ok b.
Proof.
  apply (trigger_never_panics (P:=debug_profile) (AfterEach [ElementCount 2; AfterProcessingTime 10])).
  - simpl. unfold clock_ok. lia.
  - repeat constructor; simpl; unfold clock_ok; lia.
Defined.

(** A runner that reports itself finished never asks to fire again, for any
    trigger and any history. *)
Theorem finished_trigger_is_quiet {P : Profile} t es r ctx :
  run_events (E:=string) (new_runner t) es = Ok r → is_finished r = true →
  should_fire (E:=string) t (runner_state r) ctx = Ok false.
Proof.
  intros Hr Hf. destruct (run_events_finish_inv (E:=string) t es (new_runner t) r) as [_ Hi];
    [done|apply fresh_finish_inv|done|]. by apply finished_stays_quiet.
Qed.

Lemma finished_trigger_is_quiet_witness :
  ∃ r, run_events (P:=release_profile) (E:=string) (new_runner (AfterEach [TAlways])) [OnFire at_end] = Ok r
    ∧ should_fire (P:=release_profile) (E:=string) (AfterEach [TAlways]) (runner_state r) at_end = Ok false.
Proof.
  eexists. split; [reflexivity|].
  apply (finished_trigger_is_quiet (P:=release_profile) (AfterEach [TAlways]) [OnFire at_end]); reflexivity.
Defined.

(** [Repeat(ElementCount n)] fires exactly when at least [n] elements arrived
    since its last firing, whatever the history of elements and firings. *)
Theorem repeated_count_fires {P : Profile} n es ctx :
  ∃ r, run_events (E:=string) (new_runner (Repeat (ElementCount n))) es = Ok r
    ∧ should_fire (E:=string) (Repeat (ElementCount n)) (runner_state r) ctx = Ok (n <=? since_fire 0 es)%Z.
Proof.
  destruct (repeat_count_state (E:=string) n es 0 (fresh (Repeat (ElementCount n))) eq_refl) as (s & Hr & Hc).
  exists (mkRunner (Repeat (ElementCount n)) s). split; [done|]. cbn [should_fire runner_state]. rewrite Hc.
  cbn. by rewrite andb_true_r.
Qed.

(** Early firings never use up the on-time firing: after any elements and any
    firings before the end of the window, [AfterWatermark] fires once the watermark
    passes the end of the window. *)
Theorem on_time_after_early {P : Profile} early late es r ctx :
  Forall (λ ev, match ev with OnFire c => end_of_window c = false | OnElement _ => True end) es →
  run_events (E:=string) (new_runner (AfterWatermark early late)) es = Ok r →
  end_of_window ctx = true →
  should_fire (E:=string) (AfterWatermark early late) (runner_state r) ctx = Ok true.
Proof.
  intros He Hr Hc.
  destruct (early_keeps_on_time (E:=string) early late es (fresh (AfterWatermark early late)) eq_refl He r Hr)
    as (s & -> & Hf).
  cbn [should_fire runner_state]. by rewrite Hc, Hf.
Qed.

Lemma on_time_after_early_witness :
  ∃ r, run_events (P:=debug_profile) (E:=string) (new_runner (AfterWatermark (Some (Repeat (ElementCount 1))) None))
         [OnElement 1; OnFire before_end; OnElement 2; OnFire before_end] = Ok r
    ∧ should_fire (P:=debug_profile) (E:=string) (AfterWatermark (Some (Repeat (ElementCount 1))) None)
        (runner_state r) at_end = Ok true.
Proof.
  eexists. split; [reflexivity|].
  apply (on_time_after_early (P:=debug_profile) (Some (Repeat (ElementCount 1))) None
    [OnElement 1; OnFire before_end; OnElement 2; OnFire before_end]); [|reflexivity|reflexivity].
  repeat constructor.
Defined.
