(* ===== verification/WindowMerge.v ===== *)
(** Merging windows with the SDK (engine/window.rs) and the textual window keys it
    is built on (coders/primitives.rs, [BeamWindow::canonical_key]). *)
From S2P Require Import Prelude Bytes Varint Windows CoderGraph.
From Stdlib Require Import Strings.Ascii Strings.Byte DecimalString DecimalZ.
Local Open Scope string_scope.
Local Open Scope list_scope.
Set Warnings "-clear-no-such-hyp".

(** * Text *)

(** [i64]'s [Display] and [FromStr]. *)
Definition i64_to_string (z : Z) : string := NilZero.string_of_int (Z.to_int z).
Definition i64_from_str (s : string) : option Z :=
  z ← match s with
      | String "+"%char rest => (λ u, Z.of_int (Decimal.Pos u)) <$> NilZero.uint_of_string rest
      | _ => Z.of_int <$> NilZero.int_of_string s
      end;
  if in_i 64 z then Some z else None.

(** [str::strip_prefix], [split_once] and [rsplit_once] on a character. *)
Fixpoint strip_prefix (p s : string) : option string :=
  match p, s with
  | "", _ => Some s
  | String a p, String b s => if decide (a = b) then strip_prefix p s else None
  | String _ _, "" => None
  end.

Fixpoint split_once (c : Ascii.ascii) (s : string) : option (string * string) :=
  match s with
  | "" => None
  | String a s =>
      if decide (a = c) then Some ("", s)
      else '(l, r) ← split_once c s; Some (String a l, r)
  end.

Fixpoint rsplit_once (c : Ascii.ascii) (s : string) : option (string * string) :=
  match s with
  | "" => None
  | String a s =>
      match rsplit_once c s with
      | Some (l, r) => Some (String a l, r)
      | None => if decide (a = c) then Some ("", s) else None
      end
  end.

(** [hex_encode]. *)
Definition hex_digit (n : Z) : Ascii.ascii :=
  default "0"%char (String.list_ascii_of_string "0123456789abcdef" !! Z.to_nat n).

Fixpoint hex_encode (bs : bytes) : string :=
  match bs with
  | [] => ""
  | b :: bs =>
      String (hex_digit (Z.shiftr (u8_to_Z b) 4)) (String (hex_digit (Z.land (u8_to_Z b) 15)) (hex_encode bs))
  end.

(** [char::to_digit(16)]. *)
Definition to_digit16 (c : Ascii.ascii) : option Z :=
  let n := Z.of_N (Ascii.N_of_ascii c) in
  if (48 <=? n)%Z && (n <=? 57)%Z then Some (n - 48)%Z
  else if (97 <=? n)%Z && (n <=? 102)%Z then Some (n - 87)%Z
  else if (65 <=? n)%Z && (n <=? 70)%Z then Some (n - 55)%Z
  else None.

(** [hex_decode]: the length is even, and the pairs are read one by one. *)
Fixpoint hex_decode (encoded : string) : option bytes :=
  match encoded with
  | "" => Some []
  | String a (String b rest) =>
      high ← to_digit16 a;
      low ← to_digit16 b;
      bs ← hex_decode rest;
      Some (u8 (Z.lor (Z.shiftl high 4) low) :: bs)
  | String _ "" => None
  end.

(** * Textual keys *)

Definition canonical_key (w : BeamWindow) : string :=
  match w with
  | GlobalWindow => "global"
  | IntervalWindow start_millis end_millis =>
      "interval:" +:+ i64_to_string start_millis +:+ ":" +:+ i64_to_string end_millis
  | OpaqueWindow coder_id data => "opaque:" +:+ coder_id +:+ ":" +:+ hex_encode data
  end.

Definition from_canonical_key (key : string) : option BeamWindow :=
  if decide (key = "global") then Some GlobalWindow
  else match strip_prefix "opaque:" key with
  | Some rest =>
      '(coder_id, encoded) ← rsplit_once ":"%char rest;
      data ← hex_decode encoded;
      Some (OpaqueWindow coder_id data)
  | None =>
      bounds ← strip_prefix "interval:" key;
      '(start, fin) ← split_once ":"%char bounds;
      start_millis ← i64_from_str start;
      end_millis ← i64_from_str fin;
      Some (IntervalWindow start_millis end_millis)
  end.

(** * Round trip *)

Lemma strip_prefix_app p s : strip_prefix p (p +:+ s) = Some s.
Proof. induction p as [|a p IH]; [by destruct s|]. simpl. by rewrite decide_True. Qed.

(** The characters of a string. *)
Definition chars : string → list Ascii.ascii := String.list_ascii_of_string.

Lemma split_once_app c l r : c ∉ chars l → split_once c (l +:+ String c r) = Some (l, r).
Proof.
  induction l as [|a l IH]; simpl; intros Hc; [by rewrite decide_True|].
  rewrite not_elem_of_cons in Hc. destruct Hc as [Hne Hc].
  rewrite decide_False by done. change (String.append l ?x) with (l +:+ x). by rewrite IH.
Qed.

Lemma rsplit_once_None c s : c ∉ chars s → rsplit_once c s = None.
Proof.
  induction s as [|a s IH]; simpl; intros Hc; [done|]. rewrite not_elem_of_cons in Hc.
  destruct Hc as [Hne Hc]. by rewrite IH, decide_False.
Qed.

Lemma rsplit_once_app c l r : c ∉ chars r → rsplit_once c (l +:+ String c r) = Some (l, r).
Proof.
  intros Hc. induction l as [|a l IH]; simpl.
  - by rewrite rsplit_once_None, decide_True by done.
  - change (String.append l ?x) with (l +:+ x). by rewrite IH.
Qed.

Lemma to_digit16_hex n : (0 ≤ n < 16)%Z → to_digit16 (hex_digit n) = Some n.
Proof.
  intros Hn. assert (Hin : n ∈ seqZ 0 16) by (apply elem_of_seqZ; lia).
  revert Hin. cbv [seqZ seq fmap list_fmap Z.to_nat]. vm_compute (Pos.to_nat 16).
  rewrite !elem_of_cons, elem_of_nil.
  intros H. repeat destruct H as [->|H]; done.
Qed.

Lemma hex_pair b :
  (high ← to_digit16 (hex_digit (Z.shiftr (u8_to_Z b) 4));
   low ← to_digit16 (hex_digit (Z.land (u8_to_Z b) 15));
   Some (u8 (Z.lor (Z.shiftl high 4) low))) = Some b.
Proof. destruct b; vm_compute; reflexivity. Qed.

Lemma hex_decode_encode bs : hex_decode (hex_encode bs) = Some bs.
Proof.
  induction bs as [|b bs IH]; [done|]. cbn [hex_encode hex_decode]. pose proof (hex_pair b) as Hb.
  destruct (to_digit16 (hex_digit (Z.shiftr _ 4))) as [hi|]; [|discriminate Hb].
  destruct (to_digit16 _) as [lo|]; [|discriminate Hb].
  cbn [mbind option_bind] in *. rewrite IH. cbn [mbind option_bind]. by injection Hb as ->.
Qed.

Lemma hex_encode_no_colon bs : ":"%char ∉ chars (hex_encode bs).
Proof.
  induction bs as [|b bs IH]; [by intros H%elem_of_nil|].
  cbn [hex_encode chars String.list_ascii_of_string]. rewrite !not_elem_of_cons.
  split_and!; [destruct b; vm_compute; discriminate..|done].
Qed.

Lemma decimal_no_colon z : ":"%char ∉ chars (i64_to_string z).
Proof.
  assert (Hu : ∀ u, ":"%char ∉ chars (NilEmpty.string_of_uint u)).
  { induction u; cbn [NilEmpty.string_of_uint chars String.list_ascii_of_string];
      [by intros H%elem_of_nil|rewrite not_elem_of_cons; by split..]. }
  assert (Hz : ∀ u, ":"%char ∉ chars (NilZero.string_of_uint u)).
  { intros u. destruct u; try apply (Hu (_ _)). cbn. by rewrite elem_of_cons, elem_of_nil; intros [?|?]. }
  unfold i64_to_string. destruct (Z.to_int z) as [u|u]; [apply Hz|].
  cbn [NilZero.string_of_int chars String.list_ascii_of_string]. rewrite not_elem_of_cons. by split.
Qed.

Lemma decimal_parse z : NilZero.int_of_string (i64_to_string z) = Some (Z.to_int z).
Proof.
  apply NilZero.isi; intros H; pose proof (of_to z) as Hz; rewrite H in Hz; cbn in Hz; by subst z.
Qed.

Lemma i64_round_trip z : is_i 64 z → i64_from_str (i64_to_string z) = Some z.
Proof.
  intros Hz. unfold i64_from_str. apply in_i_spec in Hz.
  assert (Hp : (z' ← Z.of_int <$> NilZero.int_of_string (i64_to_string z); if in_i 64 z' then Some z' else None) = Some z).
  { rewrite decimal_parse. cbn [fmap option_fmap option_map mbind option_bind]. by rewrite of_to, Hz. }
  destruct (i64_to_string z) as [|a s] eqn:E; [done|].
  destruct (decide (a = "+"%char)) as [->|Ha].
  - pose proof (decimal_parse z) as Hd. rewrite E in Hd. cbn in Hd. by destruct (NilEmpty.uint_of_string s).
  - destruct a as [[|] [|] [|] [|] [|] [|] [|] [|]]; done.
Qed.

Lemma from_canonical_key_round_trip w :
  match w with IntervalWindow s e => is_i 64 s ∧ is_i 64 e | _ => True end →
  from_canonical_key (canonical_key w) = Some w.
Proof.
  intros Hw. destruct w as [|s e|id data]; [done| |]; unfold from_canonical_key, canonical_key.
  - rewrite decide_False by done. change (strip_prefix "opaque:" ("interval:" +:+ _)) with (@None string).
    rewrite strip_prefix_app. cbn [mbind option_bind].
    change (":" +:+ i64_to_string e) with (String ":"%char (i64_to_string e)).
    rewrite split_once_app by apply decimal_no_colon. cbn [mbind option_bind].
    destruct Hw. by rewrite !i64_round_trip by done.
  - rewrite decide_False by done. rewrite strip_prefix_app.
    change (":" +:+ hex_encode data) with (String ":"%char (hex_encode data)).
    rewrite rsplit_once_app by apply hex_encode_no_colon. cbn [mbind option_bind].
    by rewrite hex_decode_encode.
Qed.

(** Distinct windows have distinct keys, whatever their bounds. *)
#[export] Instance canonical_key_inj : Inj (=) (=) canonical_key.
Proof.
  assert (Hdec : ∀ a b, i64_to_string a = i64_to_string b → a = b).
  { intros a b H. apply (f_equal NilZero.int_of_string) in H. rewrite !decimal_parse in H.
    injection H as H. by apply to_int_inj. }
  intros w w' H. destruct w as [|s e|id data], w' as [|s' e'|id' data']; try done.
  - unfold canonical_key in H. apply (f_equal (strip_prefix "interval:")) in H.
    rewrite !strip_prefix_app in H. injection H as H.
    apply (f_equal (split_once ":"%char)) in H.
    change (":" +:+ i64_to_string e) with (String ":"%char (i64_to_string e)) in H.
    change (":" +:+ i64_to_string e') with (String ":"%char (i64_to_string e')) in H.
    rewrite !split_once_app in H by apply decimal_no_colon. injection H as Hs He.
    by rewrite (Hdec _ _ Hs), (Hdec _ _ He).
  - pose proof (from_canonical_key_round_trip (OpaqueWindow id data) I) as H1.
    rewrite H, (from_canonical_key_round_trip (OpaqueWindow id' data') I) in H1. by injection H1 as -> ->.
Qed.

(** * The window coder of a strategy *)

Definition GLOBAL_WINDOW_CODER := "beam:coder:global_window:v1".
Definition INTERVAL_WINDOW_CODER := "beam:coder:interval_window:v1".

(** [WindowCoder::from_urn_known] and [try_from_coder]. *)
Definition from_urn_known (urn : string) : option WindowCoder :=
  if decide (urn = GLOBAL_WINDOW_CODER) then Some GlobalCoder
  else if decide (urn = INTERVAL_WINDOW_CODER) then Some IntervalCoder
  else None.

Definition try_from_coder (coder_id : string) (coders : coders_map) : outcome string WindowCoder :=
  match coders !! coder_id with
  | None =>
      match from_urn_known coder_id with
      | Some c => Ok c
      | None => Err ("unsupported Beam window coder id/URN: " +:+ coder_id)
      end
  | Some coder =>
      let urn := default coder_id (spec_urn coder) in
      match decide (urn = LENGTH_PREFIX_CODER), component_coder_ids coder with
      | left _, [inner] => Ok (OpaqueLengthPrefixed inner)
      | _, _ =>
          match from_urn_known urn with
          | Some c => Ok c
          | None => Err ("unsupported Beam window coder URN: " +:+ urn)
          end
      end
  end.

(** * Merge requests and results *)

Record MergedWindows : Type := mkMerged {
  merged : BeamWindow;
  originals : list BeamWindow;
}.

#[export] Instance MergedWindows_eq_dec : EqDecision MergedWindows.
Proof. solve_decision. Defined.

(** [distinct_windows]: a filter over the keys seen so far. *)
Definition distinct_windows (windows : list BeamWindow) : list BeamWindow :=
  (foldl (λ '(seen, kept) w,
    if decide (canonical_key w ∈ (seen : gset string)) then (seen, kept)
    else ({[canonical_key w]} ∪ seen, kept ++ [w])) (∅, []) windows).2.

Section wire.
Context `{P : Profile}.

(** [encode_merge_input]: one element of the request. *)
Definition encode_merge_input (nonce : bytes) (windows : list BeamWindow) (c : WindowCoder)
    : outcome string bytes :=
  header ← encode_windowed_value_header BEAM_MIN_TIMESTAMP_MILLIS [GlobalWindow] GlobalCoder no_firing;
  ws ← traverse (encode_window c) windows;
  if (2 ^ 31 <=? Z.of_nat (length windows))%Z
  then Panic "MergeWindows input window count exceeds i32::MAX"
  else Ok (header ++ encode_varint (Z.of_nat (length nonce)) ++ nonce
           ++ put_i32 (Z.of_nat (length windows)) ++ concat ws).

Definition decode_count : reader string nat :=
  available ← remaining;
  if (available <? 4)%Z then fail "MergeWindows output ended before an iterable length"
  else
    count ← get_i32;
    if (count <? 0)%Z then fail "MergeWindows output used an unsupported chunked iterable"
    else mret (Z.to_nat count).

Definition decode_nested_bytes : reader string bytes :=
  len ← decode_varint;
  available ← remaining;
  if (available <? len)%Z then fail "MergeWindows output ended before its nonce"
  else copy_to_slice len.

Definition decode_window_iterable (c : WindowCoder) : reader string (list BeamWindow) :=
  count ← decode_count; read_n count (decode_one_window c).

(** One merge of the answer: the merged window and the originals it consumes. *)
Definition decode_pair (c : WindowCoder) : reader string MergedWindows :=
  result ← decode_one_window c;
  origs ← decode_window_iterable c;
  mret (mkMerged result origs).

Definition decode_merge_output_element (c : WindowCoder) : reader string (bytes * list MergedWindows) :=
  '(_, outer_windows, _) ← decode_windowed_value_header GlobalCoder;
  if decide (outer_windows = [GlobalWindow]) then
    nonce ← decode_nested_bytes;
    unmerged ← decode_window_iterable c;
    pair_count ← decode_count;
    pairs ← read_n pair_count (decode_pair c);
    mret (nonce, ((λ w, mkMerged w [w]) <$> unmerged) ++ pairs)
  else fail "MergeWindows output must be in the global window".

(** The [while buf.has_remaining()] loop: every element has a timestamp of eight
    bytes, so a round per byte of the buffer is enough. *)
Fixpoint decode_merge_loop (fuel : nat) (c : WindowCoder) (buf : bytes)
    : outcome string (list (bytes * list MergedWindows)) :=
  match buf, fuel with
  | [], _ => Ok []
  | _ :: _, O => Panic "merge output loop bound"
  | _ :: _, S fuel =>
      '(result, rest) ← decode_merge_output_element c buf;
      results ← decode_merge_loop fuel c rest;
      Ok (result :: results)
  end.

Definition decode_merge_output_batch (buf : bytes) (c : WindowCoder)
    : outcome string (list (bytes * list MergedWindows)) :=
  decode_merge_loop (length buf) c buf.
End wire.

(** [validate_merge_result]. *)
Fixpoint consume_originals (requested : gset string) (ws : list BeamWindow) (consumed : gset string)
    : outcome string (gset string) :=
  match ws with
  | [] => Ok consumed
  | w :: ws =>
      let key := canonical_key w in
      if decide (key ∉ requested)
      then Err ("MergeWindows consumed a window that was not requested: " +:+ key)
      else if decide (key ∈ consumed)
      then Err ("MergeWindows consumed the same original window more than once: " +:+ key)
      else consume_originals requested ws ({[key]} ∪ consumed)
  end.

Fixpoint consume_merges (requested : gset string) (ms : list MergedWindows) (consumed : gset string)
    : outcome string (gset string) :=
  match ms with
  | [] => Ok consumed
  | m :: ms =>
      match originals m with
      | [] => Err "MergeWindows returned a merge without original windows"
      | _ :: _ =>
          consumed ← consume_originals requested (originals m) consumed;
          consume_merges requested ms consumed
      end
  end.

Definition validate_merge_result (requested : list BeamWindow) (ms : list MergedWindows)
    : outcome string unit :=
  let requested : gset string := list_to_set (canonical_key <$> requested) in
  consumed ← consume_merges requested ms ∅;
  if decide (requested ∖ consumed = ∅) then Ok ()
  else Err "MergeWindows output omitted original window(s)".

(** * The service *)

Record MergeCacheKey : Type := mkCacheKey { ck_strategy_id : string; ck_windows : list string }.

#[export] Instance MergeCacheKey_eq_dec : EqDecision MergeCacheKey.
Proof. solve_decision. Defined.
#[export] Program Instance MergeCacheKey_countable : Countable MergeCacheKey :=
  inj_countable' (λ k, (ck_strategy_id k, ck_windows k)) (λ p, mkCacheKey p.1 p.2) _.
Next Obligation. by intros []. Qed.

Definition MERGE_CACHE_MAX_ENTRIES : nat := 1024.

(** What a windowing strategy says about merging. *)
Record MergeStrategy : Type := mkMergeStrategy {
  needs_merge : bool;
  has_window_fn : bool;
  window_coder_id : string;
}.

(** The proto components the service reads: the strategy id of a PCollection, the
    strategies and the coders. *)
Record MergeComponents : Type := mkMergeComponents {
  mc_pcollections : gmap string string;
  mc_strategies : gmap string MergeStrategy;
  mc_coders : coders_map;
}.

(** The state behind the two locks: the window coder of each registered bundle and
    the cached results. *)
Record MergeService : Type := mkMergeService {
  bundles : gmap string WindowCoder;
  merge_cache : gmap MergeCacheKey (list MergedWindows);
}.

Section service.
Context `{P : Profile}.
(** The [HashMap]'s first key, the ids the SDK is asked under ([Uuid::new_v4]), the
    registration of a bundle and the exchange with the SDK. *)
Context (first_key : gmap MergeCacheKey (list MergedWindows) → option MergeCacheKey)
  (new_v4 : nat → bytes) (register : string → outcome string unit)
  (exchange : string → bytes → outcome string bytes) (comps : MergeComponents).

Definition insert_merge_cache (key : MergeCacheKey) (value : list MergedWindows)
    (cache : gmap MergeCacheKey (list MergedWindows)) : gmap MergeCacheKey (list MergedWindows) :=
  let cache :=
    if decide ((MERGE_CACHE_MAX_ENTRIES ≤ size cache)%nat ∧ cache !! key = None)
    then match first_key cache with Some oldest => delete oldest cache | None => cache end
    else cache in
  <[key := value]> cache.

(** The checks of [build_merge_descriptor] and the window coder it resolves. *)
Definition merge_window_coder (strategy_id : string) (strategy : MergeStrategy) : outcome string WindowCoder :=
  if negb (has_window_fn strategy)
  then Err ("windowing strategy " +:+ strategy_id +:+ " has no window function")
  else match mc_coders comps !! window_coder_id strategy with
  | None => Err ("windowing strategy " +:+ strategy_id +:+ " references missing window coder "
                 +:+ window_coder_id strategy)
  | Some _ => try_from_coder (window_coder_id strategy) (mc_coders comps)
  end.

Definition prepare_bundle (strategy_id : string) (s : MergeService) : MergeService * outcome string WindowCoder :=
  match bundles s !! strategy_id with
  | Some coder => (s, Ok coder)
  | None =>
    match mc_strategies comps !! strategy_id with
    | None => (s, Err ("windowing strategy not found: " +:+ strategy_id))
    | Some strategy =>
      match (coder ← merge_window_coder strategy_id strategy; _ ← register strategy_id; Ok coder) with
      | Ok coder => (mkMergeService (<[strategy_id := coder]> (bundles s)) (merge_cache s), Ok coder)
      | Err e => (s, Err e)
      | Panic w => (s, Panic w)
      end
    end
  end.

(** The answers by nonce; a nonce twice is an error. *)
Fixpoint collect_answers (answers : list (bytes * list MergedWindows)) (by_nonce : gmap bytes (list MergedWindows))
    : outcome string (gmap bytes (list MergedWindows)) :=
  match answers with
  | [] => Ok by_nonce
  | (nonce, ms) :: answers =>
      match by_nonce !! nonce with
      | Some _ => Err "SDK MergeWindows returned a duplicate nonce"
      | None => collect_answers answers (<[nonce := ms]> by_nonce)
      end
  end.

(** The answer of each request, taken out of the map and validated. *)
Fixpoint take_answers (requests : list (bytes * list BeamWindow)) (by_nonce : gmap bytes (list MergedWindows))
    : outcome string (list (list MergedWindows) * gmap bytes (list MergedWindows)) :=
  match requests with
  | [] => Ok ([], by_nonce)
  | (nonce, windows) :: requests =>
      match by_nonce !! nonce with
      | None => Err "SDK MergeWindows returned no result for a batch element"
      | Some ms =>
          _ ← validate_merge_result windows ms;
          '(results, rest) ← take_answers requests (delete nonce by_nonce);
          Ok (ms :: results, rest)
      end
  end.

(** [catch_unwind] around the decoding. *)
Definition catch_panic {A} (m : outcome string A) : outcome string A :=
  match m with
  | Panic _ => Err "malformed SDK MergeWindows output: window decoding panicked"
  | m => map_err (λ e, "decoding SDK MergeWindows output: " +:+ e) m
  end.

Definition invoke_batch (strategy_id : string) (c : WindowCoder) (requests : list (list BeamWindow))
    : outcome string (list (list MergedWindows)) :=
  let requests := imap (λ i windows, (new_v4 i, windows)) requests in
  encoded ← traverse (λ '(nonce, windows), encode_merge_input nonce windows c) requests;
  output ← exchange strategy_id (concat encoded);
  answers ← catch_panic (decode_merge_output_batch output c);
  by_nonce ← collect_answers answers ∅;
  '(results, rest) ← take_answers requests by_nonce;
  if decide (rest = ∅) then Ok results
  else Err "SDK MergeWindows returned results for unknown nonce(s)".

(** The cached results, the misses with their positions, and what the answers do to
    the cache and the results. *)
Definition cache_key (strategy_id : string) (windows : list BeamWindow) : MergeCacheKey :=
  mkCacheKey strategy_id (sort_ids (canonical_key <$> windows)).

Definition misses_of (results : list (option (list MergedWindows))) (distinct : list (list BeamWindow))
    : list (nat * list BeamWindow) :=
  filter (λ m, results !! m.1 = Some None) (imap (λ i windows, (i, windows)) distinct).

Definition store_answer (strategy_id : string)
    (acc : gmap MergeCacheKey (list MergedWindows) * list (option (list MergedWindows)))
    (miss : (nat * list BeamWindow) * list MergedWindows)
    : gmap MergeCacheKey (list MergedWindows) * list (option (list MergedWindows)) :=
  let '(cache, results) := acc in
  let '((index, windows), ms) := miss in
  (insert_merge_cache (cache_key strategy_id windows) ms cache, <[index := Some ms]> results).

Definition merge_windows_batch_for_pcollection (pcollection_id : string) (requests : list (list BeamWindow))
    (s : MergeService) : MergeService * outcome string (list (list MergedWindows)) :=
  match requests with
  | [] => (s, Ok [])
  | _ :: _ =>
    match mc_pcollections comps !! pcollection_id with
    | None => (s, Err ("PCollection not found: " +:+ pcollection_id))
    | Some strategy_id =>
      match mc_strategies comps !! strategy_id with
      | None => (s, Err ("windowing strategy not found for PCollection " +:+ pcollection_id))
      | Some strategy =>
        if negb (needs_merge strategy)
        then (s, Err ("GroupByKey requested merging for PCollection " +:+ pcollection_id))
        else
          let distinct := distinct_windows <$> requests in
          let results := (λ windows, merge_cache s !! cache_key strategy_id windows) <$> distinct in
          let misses := misses_of results distinct in
          match prepare_bundle strategy_id s with
          | (s, Err e) => (s, Err e)
          | (s, Panic w) => (s, Panic w)
          | (s, Ok coder) =>
            match (match misses with [] => Ok [] | _ => invoke_batch strategy_id coder (misses.*2) end) with
            | Err e => (s, Err e)
            | Panic w => (s, Panic w)
            | Ok answers =>
                let '(cache, results) :=
                  foldl (store_answer strategy_id) (merge_cache s, results) (zip misses answers) in
                (mkMergeService (bundles s) cache,
                 traverse (λ r, match r with Some ms => Ok ms | None => Err "missing MergeWindows batch result" end)
                   results)
            end
          end
      end
    end
  end.
End service.

(** * The answer of an SDK

    What a harness writes for one request: the windows it left alone and the merges,
    as [KV<nonce, KV<Iterable<W>, Iterable<KV<W, Iterable<W>>>>>] in the global
    window. *)
Record Answer : Type := mkAnswer {
  ans_nonce : bytes;
  ans_unmerged : list BeamWindow;
  ans_pairs : list MergedWindows;
}.

Definition answer_merges (a : Answer) : list MergedWindows :=
  ((λ w, mkMerged w [w]) <$> ans_unmerged a) ++ ans_pairs a.

Section answers.
Context `{P : Profile}.

Definition encode_counted (c : WindowCoder) (ws : list BeamWindow) : outcome string bytes :=
  encs ← traverse (encode_window c) ws; Ok (put_i32 (Z.of_nat (length ws)) ++ concat encs).

Definition encode_pair (c : WindowCoder) (m : MergedWindows) : outcome string bytes :=
  w ← encode_window c (merged m); ws ← encode_counted c (originals m); Ok (w ++ ws).

Definition encode_answer (c : WindowCoder) (a : Answer) : outcome string bytes :=
  header ← encode_windowed_value_header BEAM_MIN_TIMESTAMP_MILLIS [GlobalWindow] GlobalCoder no_firing;
  unmerged ← encode_counted c (ans_unmerged a);
  pairs ← traverse (encode_pair c) (ans_pairs a);
  Ok (header ++ (encode_varint (Z.of_nat (length (ans_nonce a))) ++ ans_nonce a) ++ unmerged
      ++ put_i32 (Z.of_nat (length (ans_pairs a))) ++ concat pairs).

Definition wf_windows (ws : list BeamWindow) : Prop :=
  Forall wf_window ws ∧ (Z.of_nat (length ws) < 2 ^ 31)%Z.

Definition wf_answer (a : Answer) : Prop :=
  is_u 63 (Z.of_nat (length (ans_nonce a))) ∧ wf_windows (ans_unmerged a)
  ∧ Forall (λ m, wf_window (merged m) ∧ wf_windows (originals m)) (ans_pairs a)
  ∧ (Z.of_nat (length (ans_pairs a)) < 2 ^ 31)%Z.

Lemma reads_window_count n : (Z.of_nat n < 2 ^ 31)%Z → reads decode_count (put_i32 (Z.of_nat n)) n.
Proof.
  intros Hn. apply reads_remaining. intros k rest Hk. rewrite put_i32_length in Hk.
  destruct (Z.ltb_spec k 4); [lia|]. rewrite run_bind, (reads_i32 (Z.of_nat n)) by (unfold is_i; lia).
  destruct (Z.ltb_spec (Z.of_nat n) 0); [lia|]. by rewrite Nat2Z.id.
Qed.

Lemma reads_counted c ws enc :
  wf_windows ws → encode_counted c ws = Ok enc → reads (decode_window_iterable c) enc ws.
Proof.
  intros [Hw Hl] H. unfold encode_counted in H. inv_bind H. injection H as <-.
  eapply reads_bind; [by apply reads_window_count|]. by apply reads_n, reads_window_list.
Qed.

Lemma reads_pair c m enc :
  wf_window (merged m) → wf_windows (originals m) → encode_pair c m = Ok enc → reads (decode_pair c) enc m.
Proof.
  intros Hm Hw H. unfold encode_pair in H. inv_bind H. inv_bind H. injection H as <-.
  eapply reads_bind; [by apply reads_window|]. eapply reads_bind_nil; [by apply reads_counted|]. by destruct m.
Qed.

Lemma reads_nonce nonce :
  is_u 63 (Z.of_nat (length nonce)) →
  reads decode_nested_bytes (encode_varint (Z.of_nat (length nonce)) ++ nonce) nonce.
Proof.
  intros Hn. eapply reads_bind; [apply reads_varint; unfold is_u in *; lia|].
  apply reads_remaining. intros k rest Hk. destruct (Z.ltb_spec k (Z.of_nat (length nonce))); [lia|].
  apply reads_slice.
Qed.

Lemma reads_answer c a enc :
  wf_answer a → encode_answer c a = Ok enc →
  reads (decode_merge_output_element c) enc (ans_nonce a, answer_merges a).
Proof.
  intros (Hn & Hu & Hp & Hl) H. unfold encode_answer in H. inv_bind H. inv_bind H. inv_bind H. injection H as <-.
  eapply reads_bind.
  { eapply reads_header; [..|exact E]; [done|repeat constructor|simpl; lia|done]. }
  cbv beta iota. rewrite decide_True by done.
  eapply reads_bind; [by apply reads_nonce|]. eapply reads_bind; [by apply reads_counted|].
  eapply reads_bind; [by apply reads_window_count|]. eapply reads_bind_nil; [apply reads_n|done].
  clear E E0 Hu Hl. revert a2 E1. induction Hp as [|m ms [Hm Hw] _ IH]; intros encs E1; simpl in E1.
  { injection E1 as <-. constructor. }
  inv_bind E1. inv_bind E1. injection E1 as <-. constructor; [by apply reads_pair|by apply IH].
Qed.

Lemma decode_merge_loop_reads c fuel encs answers :
  (length (concat encs) ≤ fuel)%nat → Forall (λ e, e ≠ []) encs →
  Forall2 (reads (decode_merge_output_element c)) encs answers →
  decode_merge_loop fuel c (concat encs) = Ok answers.
Proof.
  intros Hf Hne H2. revert fuel Hf. induction H2 as [|enc ans encs answers Hr H2 IH]; intros fuel Hf.
  { by destruct fuel. }
  inversion Hne as [|? ? He Hne']; subst. cbn [concat] in *. rewrite length_app in Hf.
  destruct enc as [|b enc]; [done|]. destruct fuel as [|fuel]; [simpl in Hf; lia|].
  cbn [decode_merge_loop app]. change (b :: enc ++ concat encs) with ((b :: enc) ++ concat encs).
  rewrite Hr. cbn [mbind outcome_bind]. rewrite IH; [done..|simpl in Hf; lia].
Qed.

(** The decoder reads back what an SDK wrote. *)
Lemma decode_answers c answers encs :
  Forall wf_answer answers → traverse (encode_answer c) answers = Ok encs →
  decode_merge_output_batch (concat encs) c = Ok ((λ a, (ans_nonce a, answer_merges a)) <$> answers).
Proof.
  intros Hw H. unfold decode_merge_output_batch. apply decode_merge_loop_reads; [done| |].
  - clear Hw. revert encs H. induction answers as [|a answers IH]; intros encs H; simpl in H.
    { injection H as <-. constructor. }
    inv_bind H. inv_bind H. injection H as <-. constructor; [|by apply IH]. clear IH E0.
    unfold encode_answer in E. inv_bind E. inv_bind E. inv_bind E. injection E as <-.
    unfold encode_windowed_value_header in E0. inv_bind E0. injection E0 as <-.
    unfold encode_timestamp_millis, put_u64. by destruct (be_bytes 8 _) eqn:Eb; [apply (f_equal length) in Eb; rewrite be_bytes_length in Eb|].
  - revert encs H. induction Hw as [|a answers Ha _ IH]; intros encs H; simpl in H.
    { injection H as <-. constructor. }
    inv_bind H. inv_bind H. injection H as <-. constructor; [by apply reads_answer|by apply IH].
Qed.
End answers.

(** * A merge is a partition of the requested windows *)

(** Every requested window is an original of exactly one merge, nothing else is, and
    no merge is empty. *)
Record partitions (requested : list BeamWindow) (ms : list MergedWindows) : Prop := {
  pt_nonempty : Forall (λ m, originals m ≠ []) ms;
  pt_once : NoDup (concat (originals <$> ms));
  pt_same : ∀ w, w ∈ concat (originals <$> ms) ↔ w ∈ requested;
}.

Lemma partitions_ext r r' ms : (∀ w, w ∈ r ↔ w ∈ r') → partitions r ms → partitions r' ms.
Proof. intros H []. constructor; try done. intros w. by rewrite <- H. Qed.

Lemma distinct_fold ws seen kept :
  (∀ w, canonical_key w ∈ seen ↔ w ∈ kept) → NoDup kept →
  let r := foldl (λ '(seen, kept) w,
    if decide (canonical_key w ∈ (seen : gset string)) then (seen, kept)
    else ({[canonical_key w]} ∪ seen, kept ++ [w])) (seen, kept) ws in
  NoDup r.2 ∧ ∀ w, w ∈ r.2 ↔ w ∈ kept ++ ws.
Proof.
  revert seen kept. induction ws as [|w ws IH]; intros seen kept Hs Hn; cbn [foldl].
  { split; [done|]. intros w. by rewrite app_nil_r. }
  case_decide as Hd.
  - destruct (IH seen kept Hs Hn) as [IH1 IH2]. split; [done|]. intros u. rewrite IH2, !elem_of_app, elem_of_cons.
    apply Hs in Hd. split; [tauto|]. intros [?|[->|?]]; tauto.
  - destruct (IH ({[canonical_key w]} ∪ seen) (kept ++ [w])) as [IH1 IH2].
    + intros u. rewrite elem_of_union, elem_of_singleton, elem_of_app, list_elem_of_singleton, Hs.
      split; [intros [E|?]; [apply (inj canonical_key) in E|]; tauto|intros [?| ->]; tauto].
    + apply NoDup_app. split_and!; [done| |apply NoDup_singleton].
      intros u Hu ->%list_elem_of_singleton. apply Hd. by apply Hs.
    + split; [done|]. intros u. rewrite IH2. by rewrite <- app_assoc.
Qed.

Lemma distinct_windows_spec ws :
  NoDup (distinct_windows ws) ∧ ∀ w, w ∈ distinct_windows ws ↔ w ∈ ws.
Proof.
  apply (distinct_fold ws ∅ []); [|constructor]. intros w. by rewrite elem_of_empty, elem_of_nil.
Qed.

(** [consume_originals] and [consume_merges] succeed exactly on fresh requested
    windows, and add their keys. *)
Lemma consume_originals_spec R ws C C' :
  consume_originals R ws C = Ok C' ↔
    NoDup ws ∧ (∀ w, w ∈ ws → canonical_key w ∈ R ∧ canonical_key w ∉ C)
    ∧ C' = list_to_set (canonical_key <$> ws) ∪ C.
Proof.
  revert C. induction ws as [|w ws IH]; intros C; cbn [consume_originals].
  - split.
    + intros [= <-]. split_and!; [constructor|by intros w ?%elem_of_nil|]. set_solver.
    + intros (_ & _ & ->). f_equal. set_solver.
  - case_decide as Hr; [|case_decide as Hc].
    + split; [done|]. intros (_ & H & _). destruct (H w) as [? _]; [by left|done].
    + split; [done|]. intros (_ & H & _). destruct (H w) as [_ ?]; [by left|done].
    + rewrite IH. rewrite NoDup_cons, fmap_cons. split.
      * intros (Hn & H & ->). split_and!; [|done| |set_solver].
        { intros Hw. destruct (H w Hw). set_solver. }
        intros u Hu'. apply elem_of_cons in Hu' as [->|Hu]; [split; [by destruct (decide (canonical_key w ∈ R))|done]|].
        destruct (H u Hu). set_solver.
      * intros ([Hw Hn] & H & ->). split_and!; [done| |set_solver].
        intros u Hu. destruct (H u) as [H1 H2]; [by right|]. split; [done|].
        rewrite elem_of_union, elem_of_singleton. intros [E|?]; [apply (inj canonical_key) in E; by subst|done].
Qed.

Lemma consume_merges_spec R ms C C' :
  consume_merges R ms C = Ok C' ↔
    Forall (λ m, originals m ≠ []) ms ∧ NoDup (concat (originals <$> ms))
    ∧ (∀ w, w ∈ concat (originals <$> ms) → canonical_key w ∈ R ∧ canonical_key w ∉ C)
    ∧ C' = list_to_set (canonical_key <$> concat (originals <$> ms)) ∪ C.
Proof.
  revert C. induction ms as [|m ms IH]; intros C; cbn [consume_merges fmap list_fmap concat].
  - split.
    + intros [= <-]. split_and!; [constructor..|by intros w ?%elem_of_nil|]. set_solver.
    + intros (_ & _ & _ & ->). f_equal. set_solver.
  - destruct (originals m) as [|w0 ws0] eqn:E.
    { split; [done|]. intros (H & _). by inversion H. }
    rewrite <- E. rewrite Forall_cons, NoDup_app.
    assert (Hm : originals m ≠ []) by (by rewrite E). clear E w0 ws0. split.
    + intros H. inv_bind H. apply consume_originals_spec in E as (Hn & Ho & ->).
      apply IH in H as (Hf & Hn' & Ho' & ->). split_and!; try done.
      * intros u Hu Hu'. destruct (Ho' u Hu') as [_ Hx]. apply Hx. apply elem_of_union_l, elem_of_list_to_set.
        by apply list_elem_of_fmap_2.
      * intros u [Hu|Hu]%elem_of_app; [by apply Ho|]. destruct (Ho' u Hu). set_solver.
      * rewrite fmap_app, list_to_set_app_L. set_solver.
    + intros ([_ Hf] & (Hn & Hd & Hn') & Ho & ->).
      assert (E1 : consume_originals R (originals m) C = Ok (list_to_set (canonical_key <$> originals m) ∪ C)).
      { apply consume_originals_spec. split_and!; [done| |done]. intros u Hu. apply Ho, elem_of_app. by left. }
      rewrite E1. cbn [mbind outcome_bind]. apply IH. split_and!; try done.
      * intros u Hu. destruct (Ho u) as [H1 H2]; [apply elem_of_app; by right|]. split; [done|].
        rewrite elem_of_union, elem_of_list_to_set, list_elem_of_fmap. intros [(v & Ev & Hv)|?]; [|done].
        apply (inj canonical_key) in Ev. subst v. by apply (Hd u).
      * rewrite fmap_app, list_to_set_app_L. set_solver.
Qed.

(** The check accepts exactly the partitions. *)
Lemma validate_partitions requested ms :
  validate_merge_result requested ms = Ok () ↔ partitions requested ms.
Proof.
  assert (Hmem : ∀ w l, canonical_key w ∈ (list_to_set (canonical_key <$> l) : gset string) ↔ w ∈ l).
  { intros w l. rewrite elem_of_list_to_set, list_elem_of_fmap. split; [intros (v & E & ?); apply (inj canonical_key) in E; by subst|eauto]. }
  unfold validate_merge_result. split.
  - intros H. inv_bind H. case_decide as Hd; [|done]. apply consume_merges_spec in E as (Hf & Hn & Ho & ->).
    constructor; try done. intros w. split; [intros Hw; by apply Hmem, Ho|]. intros Hw%Hmem. apply Hmem.
    revert Hd Hw. generalize (canonical_key w). generalize (list_to_set (C:=gset string) (canonical_key <$> requested)).
    generalize (list_to_set (C:=gset string) (canonical_key <$> concat (originals <$> ms))). clear. set_solver.
  - intros [Hf Hn Hs].
    assert (E : consume_merges (list_to_set (canonical_key <$> requested)) ms ∅
                = Ok (list_to_set (canonical_key <$> concat (originals <$> ms)) ∪ ∅)).
    { apply consume_merges_spec. split_and!; try done. intros w Hw. split; [by apply Hmem, Hs|set_solver]. }
    rewrite E. cbn [mbind outcome_bind]. rewrite decide_True; [done|]. apply set_eq. intros k.
    rewrite elem_of_difference, elem_of_union, !elem_of_list_to_set, !list_elem_of_fmap, elem_of_empty.
    split; [|done]. intros [(w & -> & Hw) Hn']. apply Hn'. left. exists w. split; [done|]. by apply Hs.
Qed.

Section service_spec.
Context `{P : Profile} (first_key : gmap MergeCacheKey (list MergedWindows) → option MergeCacheKey)
  (new_v4 : nat → bytes) (register : string → outcome string unit)
  (exchange : string → bytes → outcome string bytes) (comps : MergeComponents).
Hypothesis Hfirst : ∀ m, m ≠ ∅ → ∃ k, first_key m = Some k ∧ is_Some (m !! k).

(** What the cache holds is the partition of the windows of its key, and it holds at
    most [MERGE_CACHE_MAX_ENTRIES]. *)
Definition cache_ok (cache : gmap MergeCacheKey (list MergedWindows)) : Prop :=
  (size cache ≤ MERGE_CACHE_MAX_ENTRIES)%nat
  ∧ ∀ k ms, cache !! k = Some ms →
      ∃ ws, ck_windows k = sort_ids (canonical_key <$> ws) ∧ partitions ws ms.

Lemma sort_keys_same ws ws' :
  sort_ids (canonical_key <$> ws) = sort_ids (canonical_key <$> ws') → ∀ w, w ∈ ws ↔ w ∈ ws'.
Proof.
  intros H w. assert (Hk : ∀ l, canonical_key w ∈ sort_ids (canonical_key <$> l) ↔ w ∈ l).
  { intros l. rewrite elem_of_sort_ids, list_elem_of_fmap. split; [intros (v & E & ?)|eauto].
    apply (inj canonical_key) in E. by subst. }
  by rewrite <- Hk, H, Hk.
Qed.

Lemma cache_hit cache strategy_id ws ms :
  cache_ok cache → cache !! cache_key strategy_id ws = Some ms → partitions ws ms.
Proof.
  intros [_ H] E. destruct (H _ _ E) as (ws' & Hk & Hp). cbn in Hk.
  apply (partitions_ext ws'); [|done]. intros w. symmetry. by apply sort_keys_same.
Qed.

Lemma insert_merge_cache_ok strategy_id ws ms cache :
  cache_ok cache → partitions ws ms →
  cache_ok (insert_merge_cache first_key (cache_key strategy_id ws) ms cache).
Proof.
  intros [Hs Hc] Hp. unfold insert_merge_cache. split.
  - case_decide as Hd.
    + destruct Hd as [Hd Hn]. destruct (Hfirst cache) as (k & Hk & Hin).
      { intros ->. rewrite map_size_empty in Hd. unfold MERGE_CACHE_MAX_ENTRIES in Hd. lia. }
      rewrite Hk, map_size_insert_None by (apply lookup_delete_None; by right).
      rewrite map_size_delete_Some by done. unfold MERGE_CACHE_MAX_ENTRIES in *. lia.
    + destruct (cache !! cache_key strategy_id ws) eqn:E.
      * by rewrite map_size_insert_Some by eauto.
      * rewrite map_size_insert_None by done. apply Nat.le_succ_l, Nat.nle_gt. tauto.
  - set (cache' := if decide _ then _ else _).
    assert (Hsub : ∀ k' ms', cache' !! k' = Some ms' → cache !! k' = Some ms').
    { unfold cache'. intros k' ms'. case_decide; [|done]. destruct (first_key cache); [|done].
      by intros [_ ?]%lookup_delete_Some. }
    intros k' ms' [[<- <-]|[_ E]]%lookup_insert_Some; [by exists ws|]. by apply Hc, Hsub.
Qed.

Lemma take_answers_partitions requests by_nonce results rest :
  take_answers requests by_nonce = Ok (results, rest) → Forall2 (λ r ms, partitions r.2 ms) requests results.
Proof.
  revert by_nonce results. induction requests as [|[nonce ws] requests IH]; intros by_nonce results H; cbn [take_answers] in H.
  { by injection H as <- <-. }
  destruct (by_nonce !! nonce) as [ms|]; [|done]. inv_bind H. destruct a. apply validate_partitions in E.
  inv_bind H. destruct a as [rs rest']. injection H as <- <-. constructor; [done|]. by eapply IH.
Qed.

Lemma invoke_batch_partitions strategy_id c requests results :
  invoke_batch new_v4 exchange strategy_id c requests = Ok results → Forall2 partitions requests results.
Proof.
  unfold invoke_batch. intros H. inv_bind H. inv_bind H. inv_bind H. inv_bind H. inv_bind H.
  destruct a3 as [rs rest]. case_decide; [|done]. injection H as <-.
  apply take_answers_partitions in E3. apply Forall2_lookup. rewrite Forall2_lookup in E3. intros i.
  specialize (E3 i). rewrite list_lookup_imap in E3. destruct (requests !! i); inversion E3; subst; by constructor.
Qed.

(** The results so far, against the requests. *)
Definition results_ok (distinct : list (list BeamWindow)) (results : list (option (list MergedWindows))) : Prop :=
  length results = length distinct
  ∧ ∀ i ws ms, distinct !! i = Some ws → results !! i = Some (Some ms) → partitions ws ms.

Lemma store_answers_ok strategy_id distinct misses answers cache results cache' results' :
  Forall (λ m : nat * list BeamWindow, distinct !! m.1 = Some m.2) misses →
  Forall2 partitions (misses.*2) answers → cache_ok cache → results_ok distinct results →
  foldl (store_answer first_key strategy_id) (cache, results) (zip misses answers) = (cache', results') →
  cache_ok cache' ∧ results_ok distinct results'.
Proof.
  intros Hm. revert answers cache results. induction Hm as [|[i ws] misses Hi _ IH]; intros answers cache results Ha Hc Hr H.
  { by injection H as <- <-. }
  inversion Ha as [|? ms ? answers' Hp Ha']; subst. cbn in Hi, Hp, H.
  apply (IH _ _ _ Ha') in H; [done|by apply insert_merge_cache_ok|].
  destruct Hr as [Hl Hr]. split; [by rewrite length_insert|]. intros j ws' ms' Hj [(-> & E & _)|[_ E]]%list_lookup_insert_Some.
  - injection E as <-. congruence.
  - by eapply Hr.
Qed.

Lemma traverse_results distinct (results : list (option (list MergedWindows))) out :
  results_ok distinct results →
  traverse (λ r, match r with Some ms => Ok ms | None => Err "missing MergeWindows batch result" end) results = Ok out →
  Forall2 partitions distinct out.
Proof.
  intros [Hl Hr] H. apply Forall2_same_length_lookup_2.
  { apply traverse_length in H. congruence. }
  intros i ws ms Hi Ho. apply (Hr i ws ms Hi). clear Hr Hl Hi. revert i out H Ho.
  induction results as [|r results IH]; intros i out H Ho; simpl in H; [injection H as <-; done|].
  inv_bind H. inv_bind H. injection H as <-. destruct r as [ms'|]; [|done]. injection E as <-.
  destruct i as [|i]; [by injection Ho as ->|]. by eapply IH.
Qed.

(** An SDK that answers every request once with a partition of its windows, in any
    order, is understood. *)
Lemma collect_answers_map answers by_nonce :
  NoDup (answers.*1) → (∀ n, n ∈ answers.*1 → by_nonce !! n = None) →
  collect_answers answers by_nonce = Ok (list_to_map answers ∪ by_nonce).
Proof.
  revert by_nonce. induction answers as [|[n ms] answers IH]; intros by_nonce Hn Hf; cbn [collect_answers].
  { cbn. by rewrite (left_id_L ∅ (∪)). }
  rewrite Hf by (by left). rewrite fmap_cons, NoDup_cons in Hn. destruct Hn as [Hn Hd]. simpl in Hn.
  rewrite IH; [|done|].
  - f_equal. cbn [list_to_map foldr uncurry]. rewrite <- insert_union_l.
    rewrite insert_union_r by (by apply not_elem_of_list_to_map_1). done.
  - intros n' Hn'. rewrite lookup_insert_ne by (by intros ->). apply Hf. by right.
Qed.

Lemma take_answers_map (requests : list (bytes * list BeamWindow)) results :
  NoDup (requests.*1) → Forall2 (λ r ms, partitions r.2 ms) requests results →
  take_answers requests (list_to_map (zip (requests.*1) results)) = Ok (results, ∅).
Proof.
  intros Hn H2. induction H2 as [|[n ws] ms requests results Hp _ IH]; [done|].
  rewrite fmap_cons, NoDup_cons in Hn. destruct Hn as [Hn Hd]. cbn [take_answers fmap list_fmap zip_with list_to_map foldr uncurry fst snd].
  rewrite lookup_insert_eq. cbn [snd]. apply validate_partitions in Hp. cbn [snd] in Hp. rewrite Hp. cbn [mbind outcome_bind].
  rewrite delete_insert_id; [by rewrite IH|]. apply not_elem_of_list_to_map_1. intros Hin. apply Hn.
  apply list_elem_of_fmap in Hin as ([n' ms'] & -> & Hin). by apply elem_of_zip_l in Hin.
Qed.

Lemma invoke_batch_answered strategy_id c requests encoded answers encs :
  traverse (λ '(nonce, ws), encode_merge_input nonce ws c) (imap (λ i ws, (new_v4 i, ws)) requests) = Ok encoded →
  exchange strategy_id (concat encoded) = Ok (concat encs) →
  Forall wf_answer answers → traverse (encode_answer c) answers = Ok encs →
  NoDup (new_v4 <$> seq 0 (length requests)) →
  ∀ results, Forall2 partitions requests results →
  ((λ a, (ans_nonce a, answer_merges a)) <$> answers) ≡ₚ zip (new_v4 <$> seq 0 (length requests)) results →
  invoke_batch new_v4 exchange strategy_id c requests = Ok results.
Proof.
  intros He Hx Hw Henc Hn results Hp Hperm. unfold invoke_batch.
  rewrite He. cbn [mbind outcome_bind]. rewrite Hx. cbn [mbind outcome_bind].
  rewrite (decode_answers c answers encs) by done. cbn [mbind outcome_bind catch_panic map_err].
  assert (Hids : (imap (λ i ws, (new_v4 i, ws)) requests).*1 = new_v4 <$> seq 0 (length requests)).
  { apply list_eq. intros i. rewrite list_lookup_fmap, list_lookup_imap, list_lookup_fmap.
    destruct (requests !! i) as [ws|] eqn:E.
    - rewrite lookup_seq_lt by (by eapply lookup_lt_Some). done.
    - rewrite lookup_seq_ge by (by apply lookup_ge_None). done. }
  assert (Hl : length results = length requests) by (symmetry; by eapply Forall2_length).
  assert (Hfst : (zip (new_v4 <$> seq 0 (length requests)) results).*1 = new_v4 <$> seq 0 (length requests))
    by (apply fst_zip; rewrite length_fmap, length_seq; lia).
  rewrite collect_answers_map.
  - cbn [mbind outcome_bind]. rewrite (right_id_L ∅ (∪)).
    rewrite (list_to_map_proper _ (zip (new_v4 <$> seq 0 (length requests)) results)); [|by rewrite Hperm, Hfst|done].
    rewrite <- Hids, take_answers_map; [done|by rewrite Hids|].
    apply Forall2_lookup. rewrite Forall2_lookup in Hp. intros i. specialize (Hp i). rewrite list_lookup_imap.
    destruct (requests !! i); inversion Hp; subst; by constructor.
  - by rewrite Hperm, Hfst.
  - intros n _. apply lookup_empty.
Qed.

(** Whatever the SDK answers, a result the service returns partitions the windows of
    its request, from the cache or not. *)
Lemma merge_batch_partitions pcollection_id requests s s' r :
  cache_ok (merge_cache s) →
  merge_windows_batch_for_pcollection first_key new_v4 register exchange comps pcollection_id requests s = (s', r) →
  cache_ok (merge_cache s') ∧ ∀ results, r = Ok results → Forall2 partitions requests results.
Proof.
  intros Hc. unfold merge_windows_batch_for_pcollection. destruct requests as [|r0 rs].
  { intros [= <- <-]. split; [done|]. intros ? [= <-]. constructor. }
  set (requests := r0 :: rs) in *. clearbody requests.
  destruct (mc_pcollections comps !! _) as [sid|]; [|by intros [= <- <-]].
  destruct (mc_strategies comps !! _) as [strategy|]; [|by intros [= <- <-]].
  destruct (negb _); [by intros [= <- <-]|].
  set (distinct := distinct_windows <$> requests).
  set (results := (λ ws, merge_cache s !! cache_key sid ws) <$> distinct).
  destruct (prepare_bundle register comps sid s) as [s1 p] eqn:Ep.
  assert (Hs1 : merge_cache s1 = merge_cache s).
  { unfold prepare_bundle in Ep. destruct (bundles s !! sid); [by injection Ep as <- _|].
    destruct (mc_strategies comps !! sid); [|by injection Ep as <- _].
    destruct (coder ← _; _); by injection Ep as <- _. }
  rewrite <- Hs1 in Hc.
  destruct p as [coder| |]; [|by intros [= <- <-]..].
  destruct (match misses_of results distinct with [] => Ok [] | _ => _ end) as [answers| |] eqn:Ea; [|by intros [= <- <-]..].
  destruct (foldl _ _ _) as [cache' results'] eqn:Ef. intros [= <- <-].
  assert (Hres : results_ok distinct results).
  { split; [by unfold results; rewrite length_fmap|]. intros i ws ms Hi Hr. unfold results in Hr.
    rewrite list_lookup_fmap, Hi in Hr. injection Hr as Hr. rewrite <- Hs1 in Hr. by eapply cache_hit. }
  assert (Hmiss : Forall (λ m : nat * list BeamWindow, distinct !! m.1 = Some m.2) (misses_of results distinct)).
  { apply Forall_forall. intros [i ws] Hin. apply list_elem_of_filter in Hin as [_ Hin].
    apply elem_of_lookup_imap in Hin as (j & ws' & E & Hj). by injection E as -> ->. }
  assert (Hans : Forall2 partitions ((misses_of results distinct).*2) answers).
  { destruct (misses_of results distinct) as [|m ms] eqn:Em; [injection Ea as <-; constructor|].
    by eapply invoke_batch_partitions. }
  destruct (store_answers_ok _ _ _ _ _ _ _ _ Hmiss Hans Hc Hres Ef) as [Hc' Hr']. split; [done|].
  intros out Ho. apply (traverse_results _ _ _ Hr') in Ho. unfold distinct in Ho. rewrite Forall2_fmap_l in Ho.
  eapply Forall2_impl; [exact Ho|]. intros ws ms Hp. eapply partitions_ext; [|exact Hp]. cbv beta. apply distinct_windows_spec.
Qed.
End service_spec.
