(* ===== verification/Gbk.v ===== *)
(** Group-by-key state (transforms/gbk.rs): the state of one [(key, window)] group,
    when and what it fires, and the in-memory backend that keeps the groups of a
    stage across runs. *)
From S2P Require Import Prelude Bytes Varint Windows Coders Trigger.

(** * Data *)

Record PaneElement : Type := mkPaneElement {
  pe_value : BeamRecord;
  pe_timestamp_millis : Z;
}.

(** [WindowState]. *)
Record WindowState : Type := mkWindowState {
  gs_key : PrimitiveValue;
  gs_window : BeamWindow;
  gs_elements : list PaneElement;
  gs_pane_timestamps : list Z;
  gs_trigger : TriggerRunner;
  gs_pane_index : Z;
  gs_fired : bool;
  gs_closed : bool;
  gs_evaluated_this_run : bool;
}.

(** [WindowState::new]. *)
Definition new_window_state (key : PrimitiveValue) (window : BeamWindow) (trigger : TriggerRunner)
    : WindowState :=
  mkWindowState key window [] [] trigger 0 false false false.

Record GroupIdentity : Type := mkIdentity { gi_key : bytes; gi_window : bytes }.

#[export] Instance GroupIdentity_eq_dec : EqDecision GroupIdentity.
Proof. solve_decision. Defined.
#[export] Program Instance GroupIdentity_countable : Countable GroupIdentity :=
  inj_countable' (λ i, (gi_key i, gi_window i)) (λ p, mkIdentity p.1 p.2) _.
Next Obligation. by intros []. Qed.

(** [InMemoryGbkStateInner]. *)
Record GbkState : Type := mkGbkState {
  states : gmap GroupIdentity WindowState;
  ready_scan : option (list GroupIdentity);
  last_evaluated_watermark : option Z;
}.

Definition empty_gbk_state : GbkState := mkGbkState ∅ None None.

Definition with_states (st : GbkState) (f : gmap GroupIdentity WindowState → gmap GroupIdentity WindowState)
    : GbkState :=
  mkGbkState (f (states st)) (ready_scan st) (last_evaluated_watermark st).

(** * Identities *)

(** [encoded_primitive_sort_key]. *)
Definition encoded_primitive_sort_key (value : PrimitiveValue) : bytes :=
  match value with
  | PString s => u8 0 :: as_bytes s
  | PBytes b => u8 1 :: b
  | PInt64 z => u8 2 :: be_bytes 8 z
  | PFloat64 bits => u8 3 :: be_bytes 8 bits
  | PBool b => [u8 4; u8 (if b then 1 else 0)]
  | PVoid => [u8 5]
  end.

(** [group_identity]. *)
Definition group_identity {E} (key : PrimitiveValue) (window : BeamWindow) : outcome E GroupIdentity :=
  w ← to_binary_key window; Ok (mkIdentity (encoded_primitive_sort_key key) w).
Arguments group_identity : simpl never.

(** * Firing *)

(** [Iterator::max] and [Iterator::min] over the timestamps of a pane. *)
Definition max_timestamp (l : list Z) : option Z :=
  match l with [] => None | t :: l => Some (foldl Z.max t l) end.
Definition least_timestamp (l : list Z) : option Z :=
  match l with [] => None | t :: l => Some (foldl Z.min t l) end.

Section firing.
Context `{P : Profile} {E : Type}.
Abbreviation res := (outcome E).

Definition output_timestamp (output_time : OutputTime) (window : BeamWindow) (pane_timestamps : list Z)
    : res Z :=
  match output_time with
  | LatestInPane =>
      match max_timestamp pane_timestamps with Some t => Ok t | None => max_timestamp_millis window end
  | EarliestInPane =>
      match least_timestamp pane_timestamps with Some t => Ok t | None => max_timestamp_millis window end
  | EndOfWindow => max_timestamp_millis window
  end.

(** The value of a pane: the key with the values of its elements. *)
Definition pane_value (key : PrimitiveValue) (elements : list PaneElement) : BeamRecord :=
  KV key (ITERABLE (pe_value <$> elements)).

(** The context a group is evaluated in at a watermark and a clock reading. *)
Definition trigger_context (spec : TriggerSpec) (window_end input_watermark processing_time : Z)
    : TriggerContext :=
  mkContext (window_end <? input_watermark)%Z
    (earliest_completion spec window_end <? input_watermark)%Z processing_time.

Definition fire_state (spec : TriggerSpec) (input_watermark processing_time : Z) (state : WindowState)
    : res (WindowState * option WindowedValue) :=
  window_end ← max_timestamp_millis (gs_window state);
  let ctx := trigger_context spec window_end input_watermark processing_time in
  let closing := expired ctx && negb (gs_closed state) in
  should ← should_fire (runner_trigger (gs_trigger state)) (runner_state (gs_trigger state)) ctx;
  if negb (should || closing) then
    Ok (mkWindowState (gs_key state) (gs_window state) (gs_elements state) (gs_pane_timestamps state)
          (gs_trigger state) (gs_pane_index state) (gs_fired state) (gs_closed state) true, None)
  else
    let is_first := negb (gs_fired state) in
    let timing := pane_timing (end_of_window ctx) is_first in
    let pane := pane_info timing (gs_pane_index state) is_first (expired ctx) in
    let kept := match accumulation spec with
                | Discarding => []
                | Accumulating | Retracting => gs_elements state
                end in
    timestamp_millis ← output_timestamp (output_time spec) (gs_window state) (gs_pane_timestamps state);
    trigger ← runner_step (gs_trigger state) (OnFire ctx);
    pane_index ← arith_i 64 (gs_pane_index state + 1);
    let state' := mkWindowState (gs_key state) (gs_window state) kept [] trigger pane_index true
                    (gs_closed state || expired ctx) true in
    Ok (state',
        if decide (gs_elements state = []) then None
        else Some (mkWindowedValue (pane_value (gs_key state) (gs_elements state)) timestamp_millis
                     [gs_window state] pane)).

(** * The in-memory backend *)

Definition begin_run (st : GbkState) : GbkState :=
  mkGbkState
    ((λ s, mkWindowState (gs_key s) (gs_window s) (gs_elements s) (gs_pane_timestamps s) (gs_trigger s)
             (gs_pane_index s) (gs_fired s) (gs_closed s) false) <$> states st)
    None (last_evaluated_watermark st).

Definition mark_watermark_evaluated (watermark : Z) (st : GbkState) : GbkState :=
  mkGbkState (states st) (ready_scan st) (Some watermark).

(** [for _ in 0..elements.len() { state.trigger.on_element(processing_time); }]. *)
Fixpoint on_elements (n : nat) (processing_time : Z) (r : TriggerRunner) : res TriggerRunner :=
  match n with
  | O => Ok r
  | S n => r ← runner_step r (OnElement processing_time); on_elements n processing_time r
  end.

(** New elements join the state of their group. *)
Definition accept_elements (elements : list PaneElement) (processing_time : Z) (s : WindowState)
    : res WindowState :=
  trigger ← on_elements (length elements) processing_time (gs_trigger s);
  Ok (mkWindowState (gs_key s) (gs_window s) (gs_elements s ++ elements)
        (gs_pane_timestamps s ++ (pe_timestamp_millis <$> elements)) trigger (gs_pane_index s)
        (gs_fired s) (gs_closed s) (gs_evaluated_this_run s)).

(** The stored form of a state after it was evaluated: a closed one is removed. *)
Definition store_state (identity : GroupIdentity) (s : WindowState) (st : GbkState) : GbkState :=
  with_states st (if gs_closed s then delete identity else <[identity := s]>).

(** The condition of the path that bypasses the state map. *)
Definition direct_emit (spec : TriggerSpec) (is_expired : bool) (st : GbkState) : bool :=
  bool_decide (states st = ∅) && is_expired
  && match spec_trigger spec with TDefault => true | _ => false end
  && match accumulation spec with Discarding => true | _ => false end.

Definition apply_group (key : PrimitiveValue) (window : BeamWindow) (elements : list PaneElement)
    (spec : TriggerSpec) (input_watermark processing_time : Z) (st : GbkState)
    : res (GbkState * option WindowedValue) :=
  window_end ← max_timestamp_millis window;
  let is_expired := (earliest_completion spec window_end <? input_watermark)%Z in
  if direct_emit spec is_expired st then
    timestamp_millis ← output_timestamp (output_time spec) window (pe_timestamp_millis <$> elements);
    Ok (st, Some (mkWindowedValue (pane_value key elements) timestamp_millis [window]
                    (pane_info OnTime 0 true true)))
  else
    identity ← group_identity key window;
    let state := default (new_window_state key window (new_runner (spec_trigger spec)))
                   (states st !! identity) in
    state ← accept_elements elements processing_time state;
    '(state, output) ← fire_state spec input_watermark processing_time state;
    Ok (store_state identity state st, output).

(** The [while output.len() < limit] loop of [take_ready]: what is left of the scan,
    the states and the output. *)
Fixpoint take_loop (spec : TriggerSpec) (input_watermark processing_time : Z) (limit : nat)
    (scan : list GroupIdentity) (st : GbkState) (output : list WindowedValue)
    : res (list GroupIdentity * GbkState * list WindowedValue) :=
  match scan with
  | [] => Ok ([], st, output)
  | identity :: scan' =>
    if decide (limit ≤ length output) then Ok (scan, st, output)
    else
      match states st !! identity with
      | None => take_loop spec input_watermark processing_time limit scan' st output
      | Some state =>
        if gs_evaluated_this_run state
        then take_loop spec input_watermark processing_time limit scan' st output
        else
          '(state, value) ← fire_state spec input_watermark processing_time state;
          take_loop spec input_watermark processing_time limit scan' (store_state identity state st)
            (output ++ match value with Some v => [v] | None => [] end)
      end
  end.

(** [scan_order]: the order in which a [HashMap] iterates over its keys. *)
Context (scan_order : gset GroupIdentity → list GroupIdentity).

Definition take_ready (spec : TriggerSpec) (input_watermark processing_time : Z) (limit : nat) (st : GbkState)
    : res (GbkState * list WindowedValue) :=
  if decide (limit = 0) then Ok (st, [])
  else
    let scan := match ready_scan st with Some scan => scan | None => scan_order (dom (states st)) end in
    '(rest, st, output) ← take_loop spec input_watermark processing_time limit scan st [];
    Ok (mkGbkState (states st) (match rest with [] => None | _ :: _ => Some rest end)
          (last_evaluated_watermark st), output).

(** The [loop] of [execute] that drains the ready groups: it stops at the first
    empty chunk.  [fuel] bounds the number of chunks. *)
Fixpoint drain_loop (fuel : nat) (spec : TriggerSpec) (input_watermark processing_time : Z) (limit : nat)
    (st : GbkState) (written : list WindowedValue) : res (GbkState * list WindowedValue * bool) :=
  match fuel with
  | O => Ok (st, written, false)
  | S fuel =>
    '(st, ready) ← take_ready spec input_watermark processing_time limit st;
    match ready with
    | [] => Ok (st, written, true)
    | _ :: _ => drain_loop fuel spec input_watermark processing_time limit st (written ++ ready)
    end
  end.

(** A chunk that is not empty evaluates a group for the first time in the run, so a
    chunk per group and two more are enough. *)
Definition drain_ready (spec : TriggerSpec) (input_watermark processing_time : Z) (limit : nat) (st : GbkState)
    : res (GbkState * list WindowedValue) :=
  '(st', written, _) ← drain_loop (2 + size (states st)) spec input_watermark processing_time limit st [];
  Ok (st', written).
End firing.

(** [window_prune_cutoff]. *)
Definition window_prune_cutoff (previous_watermark : option Z) (allowed_lateness : Z)
    (needs_merge is_global_window input_is_bounded : bool) : option Z :=
  if needs_merge || is_global_window || input_is_bounded then None
  else (λ watermark, saturating_i64 (watermark - allowed_lateness)) <$> previous_watermark.
