(* ===== verification/GbkSpec.v ===== *)
(** What the group-by-key state guarantees: the invariant of the groups, that no
    element is lost or emitted twice, and that draining in chunks is one sweep over
    the groups. *)
From S2P Require Import Prelude Bytes Varint Windows Coders Trigger Gbk.

(** * Identities are faithful *)

(** Keys a Rust value of the type can hold. *)
Definition wf_key (k : PrimitiveValue) : Prop :=
  match k with
  | PInt64 z => is_i 64 z
  | PFloat64 bits => is_u 64 bits
  | _ => True
  end.

Lemma be_bytes_i64_inj a b : is_i 64 a → is_i 64 b → be_bytes 8 a = be_bytes 8 b → a = b.
Proof.
  intros Ha Hb H. apply (f_equal be_value) in H. rewrite !be_value_be_bytes in H.
  apply (to_unsigned_inj 64); [lia|done..].
Qed.

Lemma be_bytes_u64_inj a b : is_u 64 a → is_u 64 b → be_bytes 8 a = be_bytes 8 b → a = b.
Proof.
  intros Ha Hb H. apply (f_equal be_value) in H. rewrite !be_value_be_bytes in H.
  by rewrite !(Z.mod_small _ (2 ^ (8 * Z.of_nat 8))) in H by done.
Qed.

Lemma sort_key_inj a b :
  wf_key a → wf_key b → encoded_primitive_sort_key a = encoded_primitive_sort_key b → a = b.
Proof.
  intros Ha Hb H.
  destruct a as [s|x|z|z|x|], b as [s'|y|z'|z'|y|]; unfold encoded_primitive_sort_key in H;
    try discriminate H; try done; apply (f_equal List.tl) in H; cbn [List.tl] in H.
  - f_equal. by apply as_bytes_inj.
  - by subst.
  - f_equal. by apply be_bytes_i64_inj.
  - f_equal. by apply be_bytes_u64_inj.
  - by destruct x, y.
Qed.

Lemma group_identity_inj {E} k1 w1 k2 w2 i :
  wf_key k1 → wf_key k2 → wf_window w1 → wf_window w2 →
  group_identity (E:=E) k1 w1 = Ok i → group_identity (E:=E) k2 w2 = Ok i → k1 = k2 ∧ w1 = w2.
Proof.
  intros Hk1 Hk2 Hw1 Hw2 H1 H2. unfold group_identity in *.
  inv_bind H1. inv_bind H2. injection H1 as <-. injection H2 as Hk Hw. subst a0. split.
  - symmetry. by apply sort_key_inj.
  - apply (from_to_binary_key w1) in E0; [|done]. apply (from_to_binary_key w2) in E1; [|done]. congruence.
Qed.

(** The outcome of a call that cannot return an error does not depend on the error
    type. *)
Lemma group_identity_cast {E F} k w i :
  group_identity (E:=E) k w = Ok i → group_identity (E:=F) k w = Ok i.
Proof.
  unfold group_identity, to_binary_key. destruct w as [|s e|id data];
    [intros [= <-]; done..|]. destruct (str_len id <? 2 ^ 32)%Z; cbn; intros H; by inversion H.
Qed.

(** * The invariant *)

(** A window whose last timestamp is a 64-bit number. *)
Definition timely (w : BeamWindow) : Prop :=
  wf_window w ∧ match w with IntervalWindow _ e => is_i 64 (e - 1) | _ => True end.

Lemma timely_end {P : Profile} {E} w : timely w → ∃ e, max_timestamp_millis (E:=E) w = Ok e.
Proof. intros [_ H]. destruct w as [|s e|id data]; simpl; eauto. rewrite arith_i_ok by done. eauto. Qed.

Lemma timely_identity {E} k w : timely w → ∃ i, group_identity (E:=E) k w = Ok i.
Proof.
  intros [H _]. unfold group_identity, to_binary_key. destruct w as [|s e|id data]; simpl; eauto.
  destruct H as (_ & [_ Hl] & _). apply Z.ltb_lt in Hl. rewrite Hl. simpl. eauto.
Qed.

(** A stored group sits under its own identity, is open, runs the trigger of the
    strategy, and counts its firings. *)
Record group_ok (t : Trigger) (i : GroupIdentity) (s : WindowState) : Prop := {
  go_identity : group_identity (E:=string) (gs_key s) (gs_window s) = Ok i;
  go_open : gs_closed s = false;
  go_trigger : runner_trigger (gs_trigger s) = t;
  go_shaped : shaped t (runner_state (gs_trigger s));
  go_index : (0 ≤ gs_pane_index s)%Z;
  go_fired : gs_fired s = negb (gs_pane_index s =? 0)%Z;
  go_window : timely (gs_window s);
}.

(** No group of the state has fired more than [n] times. *)
Definition gbk_ok (t : Trigger) (n : Z) (st : GbkState) : Prop :=
  ∀ i s, states st !! i = Some s → group_ok t i s ∧ (gs_pane_index s ≤ n)%Z.

(** What a group holds, and what a pane carries for a group. *)
Definition held (i : GroupIdentity) (st : GbkState) : list BeamRecord :=
  match states st !! i with Some s => pe_value <$> gs_elements s | None => [] end.

Definition is_pane_of (i : GroupIdentity) (v : WindowedValue) : bool :=
  match wv_value v, wv_windows v with
  | KV key (ITERABLE _), [w] => bool_decide (group_identity (E:=string) key w = Ok i)
  | _, _ => false
  end.

Definition pane_values (v : WindowedValue) : list BeamRecord :=
  match wv_value v with KV _ (ITERABLE vs) => vs | _ => [] end.

Definition panes_of (i : GroupIdentity) (out : list WindowedValue) : list WindowedValue :=
  List.filter (is_pane_of i) out.

Definition emitted (i : GroupIdentity) (out : list WindowedValue) : list BeamRecord :=
  concat (pane_values <$> panes_of i out).

Definition opt_list {A} (o : option A) : list A := match o with Some x => [x] | None => [] end.

Lemma emitted_app i a b : emitted i (a ++ b) = emitted i a ++ emitted i b.
Proof. unfold emitted, panes_of. by rewrite List.filter_app, fmap_app, concat_app. Qed.

Lemma held_insert i j s st :
  held i (with_states st (<[j := s]>)) = if decide (i = j) then pe_value <$> gs_elements s else held i st.
Proof.
  unfold held, with_states. simpl. case_decide as H; subst; [by rewrite lookup_insert_eq|by rewrite lookup_insert_ne].
Qed.

Lemma held_delete i j st :
  held i (with_states st (delete j)) = if decide (i = j) then [] else held i st.
Proof.
  unfold held, with_states. simpl. case_decide as H; subst; [by rewrite lookup_delete_eq|by rewrite lookup_delete_ne].
Qed.

Section spec.
Context `{P : Profile}.
Abbreviation fire_state := (fire_state (E:=string)).
Abbreviation apply_group := (apply_group (E:=string)).

(** What is kept after a firing. *)
Definition kept (spec : TriggerSpec) (l : list PaneElement) : list PaneElement :=
  match accumulation spec with Discarding => [] | _ => l end.

(** The two ends of an evaluation: the group stays as it was, or it fires. *)
Inductive fires (spec : TriggerSpec) (wm : Z) (s s' : WindowState) : option WindowedValue → Prop :=
| fires_not :
    s' = mkWindowState (gs_key s) (gs_window s) (gs_elements s) (gs_pane_timestamps s) (gs_trigger s)
           (gs_pane_index s) (gs_fired s) (gs_closed s) true →
    (∀ e, max_timestamp_millis (E:=string) (gs_window s) = Ok e → gs_closed s = false →
       (wm ≤ earliest_completion spec e)%Z) →
    fires spec wm s s' None
| fires_pane o e ctx :
    max_timestamp_millis (E:=string) (gs_window s) = Ok e →
    ctx = mkContext (e <? wm)%Z (earliest_completion spec e <? wm)%Z (processing_time ctx) →
    runner_step (E:=string) (gs_trigger s) (OnFire ctx) = Ok (gs_trigger s') →
    arith_i (E:=string) 64 (gs_pane_index s + 1) = Ok (gs_pane_index s') →
    gs_key s' = gs_key s → gs_window s' = gs_window s → gs_elements s' = kept spec (gs_elements s) →
    gs_pane_timestamps s' = [] → gs_fired s' = true → gs_closed s' = gs_closed s || expired ctx →
    gs_evaluated_this_run s' = true →
    (o = None ∧ gs_elements s = [] ∨
     ∃ ts, gs_elements s ≠ [] ∧ output_timestamp (E:=string) (output_time spec) (gs_window s) (gs_pane_timestamps s) = Ok ts
       ∧ o = Some (mkWindowedValue (pane_value (gs_key s) (gs_elements s)) ts [gs_window s]
                     (pane_info (pane_timing (end_of_window ctx) (negb (gs_fired s))) (gs_pane_index s)
                        (negb (gs_fired s)) (expired ctx)))) →
    fires spec wm s s' o.

Lemma fire_state_fires spec wm pt s s' o : fire_state spec wm pt s = Ok (s', o) → fires spec wm s s' o.
Proof.
  unfold Gbk.fire_state. intros H. inv_bind H. inv_bind H.
  destruct (negb (a0 || _)) eqn:Ef.
  - injection H as <- <-. apply fires_not; [done|]. intros e He Hc. rewrite E in He. injection He as <-.
    apply negb_true_iff, orb_false_iff in Ef as [_ Ef]. rewrite Hc in Ef. cbn in Ef.
    rewrite andb_true_r in Ef. by apply Z.ltb_ge in Ef.
  - inv_bind H. inv_bind H. inv_bind H. injection H as <- <-.
    eapply (fires_pane _ _ _ _ _ _ (trigger_context spec a wm pt)); try done.
    case_decide as Hd; [by left|]. right. by exists a1.
Qed.

Lemma fire_closed spec wm s s' o e :
  fires spec wm s s' o → gs_closed s = false → max_timestamp_millis (E:=string) (gs_window s) = Ok e →
  gs_closed s' = (earliest_completion spec e <? wm)%Z.
Proof.
  intros [-> Hn|o' e' ctx He Hctx _ _ _ _ _ _ _ Hc _ _] Hs Hm.
  - simpl. rewrite Hs. symmetry. apply Z.ltb_ge. by apply Hn.
  - rewrite Hm in He. injection He as <-. rewrite Hc, Hs, Hctx. done.
Qed.

(** ** Evaluation keeps the invariant *)

Lemma fires_ok spec wm t i s s' o :
  delays_ok t → group_ok t i s → is_i 64 (gs_pane_index s + 1) → fires spec wm s s' o →
  gs_closed s' = false → group_ok t i s' ∧ (gs_pane_index s' ≤ gs_pane_index s + 1)%Z.
Proof.
  intros Hd [Hi Ho Ht Hs Hx Hf Hw] Hb [-> _|o' e ctx _ _ Hr Ha Hk Hwin _ _ Hfd _ _ _] Hc.
  - split; [|simpl; lia]. by constructor.
  - rewrite arith_i_ok in Ha by done. injection Ha as Ha.
    unfold runner_step in Hr. rewrite Ht in Hr.
    destruct (fire_shaped (E:=string) t ctx Hd _ Hs) as (c & Hfire & Hshape). rewrite Hfire in Hr.
    injection Hr as Hr. split; [|lia]. constructor; rewrite <- ?Hr, <- ?Ha, ?Hk, ?Hwin, ?Hfd; try done; lia.
Qed.

Lemma fire_state_total spec wm pt t i s :
  delays_ok t → group_ok t i s → is_i 64 (gs_pane_index s + 1) →
  ∃ s' o, fire_state spec wm pt s = Ok (s', o).
Proof.
  intros Hd [Hi Ho Ht Hs Hx Hf Hw] Hb. unfold Gbk.fire_state.
  destruct (timely_end (E:=string) _ Hw) as [e He]. rewrite He. cbn [mbind outcome_bind]. rewrite Ht.
  destruct (should_fire_ok (E:=string) t (trigger_context spec e wm pt) Hd _ Hs) as [b ->].
  cbn [mbind outcome_bind]. destruct (negb (b || _)); [eauto|].
  assert (∃ ts, output_timestamp (E:=string) (output_time spec) (gs_window s) (gs_pane_timestamps s) = Ok ts) as [ts ->].
  { unfold output_timestamp. destruct (output_time spec), (gs_pane_timestamps s); cbn [max_timestamp least_timestamp];
      first [by exists e|by eexists]. }
  cbn [mbind outcome_bind]. unfold runner_step. rewrite Ht.
  destruct (fire_shaped (E:=string) t (trigger_context spec e wm pt) Hd _ Hs) as (c & Hfire & _).
  rewrite Hfire. cbn [mbind outcome_bind]. rewrite arith_i_ok by done. cbn [mbind outcome_bind]. eauto.
Qed.

Lemma on_elements_shaped t n pt r :
  clock_ok pt → runner_trigger r = t → shaped t (runner_state r) →
  ∃ r', on_elements (E:=string) n pt r = Ok r' ∧ runner_trigger r' = t ∧ shaped t (runner_state r').
Proof.
  intros Hp. revert r. induction n as [|n IH]; intros r Ht Hs; simpl; [by exists r|].
  unfold runner_step. rewrite Ht. destruct (element_shaped (E:=string) t pt Hp _ Hs) as (c & -> & Hc).
  cbn [mbind outcome_bind]. by apply (IH (mkRunner t c)).
Qed.

Lemma accept_elements_ok t i els pt s :
  clock_ok pt → group_ok t i s →
  ∃ s', accept_elements (E:=string) els pt s = Ok s' ∧ group_ok t i s'
    ∧ gs_elements s' = gs_elements s ++ els ∧ gs_pane_index s' = gs_pane_index s
    ∧ gs_pane_timestamps s' = gs_pane_timestamps s ++ (pe_timestamp_millis <$> els)
    ∧ gs_key s' = gs_key s ∧ gs_window s' = gs_window s ∧ gs_fired s' = gs_fired s.
Proof.
  intros Hp [Hi Ho Ht Hs Hx Hf Hw]. unfold accept_elements.
  destruct (on_elements_shaped t (length els) pt _ Hp Ht Hs) as (r & -> & Hr & Hsh).
  cbn [mbind outcome_bind]. eexists. split; [done|]. by split_and!; try constructor.
Qed.

Lemma new_window_state_ok spec i key w :
  timely w → group_identity (E:=string) key w = Ok i →
  group_ok (spec_trigger spec) i (new_window_state key w (new_runner (spec_trigger spec))).
Proof. intros Hw Hi. constructor; simpl; try done. apply fresh_shaped. Qed.

(** ** Nothing is lost *)

Lemma is_pane_of_pane i j key els ts w pane :
  group_identity (E:=string) key w = Ok i →
  is_pane_of j (mkWindowedValue (pane_value key els) ts [w] pane) = bool_decide (j = i).
Proof.
  intros Hi. unfold is_pane_of, pane_value. cbn [wv_value wv_windows]. rewrite Hi.
  apply bool_decide_ext. split; [by intros [= ->]|by intros ->].
Qed.

Lemma pane_of_emitted i j key els ts w pane :
  group_identity (E:=string) key w = Ok i →
  emitted j [mkWindowedValue (pane_value key els) ts [w] pane]
  = if decide (j = i) then pe_value <$> els else [].
Proof.
  intros Hi. unfold emitted, panes_of. cbn [List.filter]. rewrite (is_pane_of_pane i) by done.
  case_decide as H; [rewrite bool_decide_true by done|rewrite bool_decide_false by done]; cbn;
    by rewrite ?app_nil_r.
Qed.

Lemma fires_emitted spec wm t i j s s' o :
  group_ok t i s → fires spec wm s s' o →
  emitted j (opt_list o)
  = if decide (j = i ∧ is_Some o) then pe_value <$> gs_elements s else [].
Proof.
  intros [Hi _ _ _ _ _ _] [-> _|o' e ctx _ _ _ _ _ _ _ Hpt Hfd _ _ Ho].
  - simpl. unfold emitted. simpl. case_decide as H; [|done]. by destruct H as [_ [? ?]].
  - destruct Ho as [[-> _]|(ts & _ & _ & ->)]; simpl.
    + case_decide as H; [|done]. by destruct H as [_ [? ?]].
    + rewrite (pane_of_emitted i) by done. case_decide as H; case_decide as H'; try done; naive_solver.
Qed.

(** In the discarding mode an evaluation hands the elements of the group to its
    pane or keeps them, never both. *)
Lemma fires_conserve spec wm t i s s' o j :
  accumulation spec = Discarding → group_ok t i s → fires spec wm s s' o →
  emitted j (opt_list o) ++ (if decide (j = i) then if gs_closed s' then [] else pe_value <$> gs_elements s' else [])
  = if decide (j = i) then pe_value <$> gs_elements s else [].
Proof.
  intros Hacc Hg Hf. rewrite (fires_emitted _ _ _ _ _ _ _ _ Hg Hf).
  destruct (decide (j = i)) as [->|Hne]; [|rewrite decide_False by naive_solver; done].
  destruct Hf as [-> _|o' e ctx _ _ _ _ _ _ Hel _ _ Hc _ Ho]; simpl.
  - rewrite decide_False by (intros [_ [? ?]]; done). by rewrite (go_open _ _ _ Hg).
  - rewrite Hel. unfold kept. rewrite Hacc. simpl.
    replace (if gs_closed s' then [] else []) with (@nil BeamRecord) by (by destruct (gs_closed s')).
    rewrite app_nil_r. destruct Ho as [[-> Hn]|(ts & _ & _ & ->)].
    + rewrite Hn. by case_decide.
    + rewrite decide_True by (split; [done|by eexists]). done.
Qed.

(** ** Operations *)

Lemma held_store i j s st :
  held j (store_state i s st)
  = if decide (j = i) then if gs_closed s then [] else pe_value <$> gs_elements s else held j st.
Proof. unfold store_state. destruct (gs_closed s); [rewrite held_delete|rewrite held_insert]; done. Qed.

Lemma lookup_store i j s st :
  states (store_state i s st) !! j
  = if decide (j = i) then if gs_closed s then None else Some s else states st !! j.
Proof.
  unfold store_state, with_states. simpl. destruct (gs_closed s); case_decide as H; subst;
    by rewrite ?lookup_delete_eq, ?lookup_insert_eq, ?lookup_delete_ne, ?lookup_insert_ne by congruence.
Qed.

Lemma store_fires spec wm t n i s s' o st :
  delays_ok t → group_ok t i s → (gs_pane_index s ≤ n)%Z → is_i 64 (n + 1) → gbk_ok t (n + 1) st →
  fires spec wm s s' o → gbk_ok t (n + 1) (store_state i s' st).
Proof.
  intros Hd Hg Hn Hb Hst Hf j u. rewrite lookup_store. case_decide as H; [subst|by apply Hst].
  destruct (gs_closed s') eqn:Hc; [done|]. intros [= <-].
  destruct (fires_ok _ _ _ _ _ _ _ Hd Hg ltac:(unfold is_i in *; pose proof (go_index _ _ _ Hg); lia) Hf Hc).
  split; [done|lia].
Qed.

Lemma store_conserve spec wm t i s s' o st j :
  accumulation spec = Discarding → group_ok t i s → fires spec wm s s' o →
  emitted j (opt_list o) ++ held j (store_state i s' st)
  = if decide (j = i) then pe_value <$> gs_elements s else held j st.
Proof.
  intros Hacc Hg Hf. rewrite held_store. pose proof (fires_conserve _ _ _ _ _ _ _ j Hacc Hg Hf) as H.
  destruct (decide (j = i)) as [->|Hne]; [done|]. by rewrite app_nil_r in H; rewrite H.
Qed.

Lemma gbk_ok_weaken t n n' st : (n ≤ n')%Z → gbk_ok t n st → gbk_ok t n' st.
Proof. intros Hn H i s Hi. destruct (H i s Hi). split; [done|lia]. Qed.

(** The window of a group is not over at the watermark. *)
Definition settled (spec : TriggerSpec) (wm : Z) (s : WindowState) : Prop :=
  ∀ e, max_timestamp_millis (E:=string) (gs_window s) = Ok e → (wm ≤ earliest_completion spec e)%Z.

Lemma fires_settled spec wm s s' o :
  fires spec wm s s' o → gs_closed s = false → gs_closed s' = false →
  gs_evaluated_this_run s' = true ∧ settled spec wm s'.
Proof.
  intros Hf Hs Hs'. assert (Hw : gs_window s' = gs_window s) by (by destruct Hf as [-> _|]).
  split; [by destruct Hf as [-> _|]|]. intros e He. rewrite Hw in He.
  rewrite (fire_closed _ _ _ _ _ _ Hf Hs He) in Hs'. by apply Z.ltb_ge in Hs'.
Qed.

(** What [apply_group] does: it always succeeds, keeps the invariant, and the
    elements of the group are in its pane or in its state. *)
Lemma apply_group_spec spec key w els wm pt n st i :
  delays_ok (spec_trigger spec) → clock_ok pt → timely w → (0 ≤ n)%Z → is_i 64 (n + 1) →
  group_identity (E:=string) key w = Ok i → gbk_ok (spec_trigger spec) n st →
  ∃ st' o, apply_group key w els spec wm pt st = Ok (st', o) ∧ gbk_ok (spec_trigger spec) (n + 1) st'
    ∧ ready_scan st' = ready_scan st ∧ last_evaluated_watermark st' = last_evaluated_watermark st
    ∧ (∀ j, j ≠ i → states st' !! j = states st !! j)
    ∧ (∀ s, states st' !! i = Some s → gs_evaluated_this_run s = true ∧ settled spec wm s)
    ∧ (∀ v, o = Some v → is_pane_of i v = true ∧ pane_values v = held i st ++ (pe_value <$> els))
    ∧ (accumulation spec = Discarding → ∀ j,
         emitted j (opt_list o) ++ held j st' = held j st ++ if decide (j = i) then pe_value <$> els else []).
Proof.
  intros Hd Hp Hw Hn Hb Hi Hst. unfold Gbk.apply_group.
  destruct (timely_end (E:=string) w Hw) as [e He]. rewrite He. cbn [mbind outcome_bind].
  destruct (direct_emit _ _ _) eqn:Ed.
  - assert (∃ ts, output_timestamp (E:=string) (output_time spec) w (pe_timestamp_millis <$> els) = Ok ts) as [ts ->].
    { unfold output_timestamp. destruct (output_time spec), els; cbn; first [by exists e|by eexists]. }
    cbn [mbind outcome_bind]. do 2 eexists. split; [done|].
    unfold direct_emit in Ed. rewrite !andb_true_iff, bool_decide_eq_true in Ed. destruct Ed as [[[Es _] _] _].
    assert (Hh : ∀ j, held j st = []) by (intros j; unfold held; rewrite Es, lookup_empty; done).
    split_and!; [by eapply gbk_ok_weaken; [|done]; lia|done|done|done| | |].
    + intros s. by rewrite Es, lookup_empty.
    + intros v [= <-]. rewrite (is_pane_of_pane i) by done. rewrite bool_decide_true by done. by rewrite Hh.
    + intros _ j. cbn [opt_list]. rewrite (pane_of_emitted i) by done. by rewrite Hh, app_nil_r.
  - rewrite Hi. cbn [mbind outcome_bind].
    set (s0 := default _ _).
    assert (H0 : group_ok (spec_trigger spec) i s0 ∧ (gs_pane_index s0 ≤ n)%Z ∧ pe_value <$> gs_elements s0 = held i st).
    { unfold s0, held. destruct (states st !! i) as [s|] eqn:Es; simpl.
      - destruct (Hst i s Es). by split_and!.
      - split_and!; [by apply new_window_state_ok|simpl; lia|done]. }
    destruct H0 as (Hg & Hx & Hh).
    destruct (accept_elements_ok _ i els pt s0 Hp Hg) as (s1 & -> & Hg1 & Hel & Hx1 & _).
    cbn [mbind outcome_bind].
    destruct (fire_state_total spec wm pt _ i s1 Hd Hg1) as (s2 & o & Hf).
    { unfold is_i in *. pose proof (go_index _ _ _ Hg). lia. }
    rewrite Hf. cbn [mbind outcome_bind]. apply fire_state_fires in Hf.
    exists (store_state i s2 st), o. split_and!; try done.
    + eapply store_fires; try done; [lia|]. eapply gbk_ok_weaken; [|done]. lia.
    + intros j Hne. rewrite lookup_store, decide_False; done.
    + intros s. rewrite lookup_store, decide_True by done. destruct (gs_closed s2) eqn:Hc; [done|].
      intros [= <-]. eapply fires_settled; [done|apply Hg1|done].
    + intros v ->. pose proof (fires_emitted _ _ _ i i _ _ _ Hg1 Hf) as Hem.
      inversion Hf as [|o' e' ctx _ _ _ _ _ _ _ _ _ _ _ Ho]; subst.
      destruct Ho as [[? _]|(ts & _ & _ & [= ->])]; [done|].
      rewrite (is_pane_of_pane i) by apply Hg1. rewrite bool_decide_true by done. split; [done|].
      unfold pane_values. cbn [wv_value pane_value]. by rewrite Hel, fmap_app, Hh.
    + intros Hacc j. rewrite (store_conserve _ _ _ _ _ _ _ _ _ Hacc Hg1 Hf).
      case_decide as H; [subst|by rewrite app_nil_r]. by rewrite Hel, fmap_app, Hh.
Qed.

(** What the group holds afterwards, while it stays open. *)
Lemma apply_group_kept spec key w els wm pt st st' o i s :
  group_identity (E:=string) key w = Ok i →
  apply_group key w els spec wm pt st = Ok (st', o) → states st' !! i = Some s →
  pe_value <$> gs_elements s
  = match o, accumulation spec with
    | Some _, Discarding => []
    | _, _ => held i st ++ (pe_value <$> els)
    end.
Proof.
  intros Hi H Hs. unfold Gbk.apply_group in H. inv_bind H.
  destruct (direct_emit _ _ _) eqn:Ed.
  { inv_bind H. injection H as <- <-. unfold direct_emit in Ed. rewrite !andb_true_iff, bool_decide_eq_true in Ed.
    destruct Ed as [[[Es _] _] _]. by rewrite Es, lookup_empty in Hs. }
  rewrite Hi in H. inv_bind H. injection E0 as <-. inv_bind H. inv_bind H. destruct a1 as [s1 o1]. injection H as <- <-.
  rewrite lookup_store, decide_True in Hs by done. destruct (gs_closed s1); [done|]. injection Hs as ->.
  unfold accept_elements in E0. inv_bind E0. injection E0 as <-. apply fire_state_fires in E1.
  assert (Hh : pe_value <$> gs_elements (default (new_window_state key w (new_runner (spec_trigger spec))) (states st !! i))
    = held i st) by (unfold held; by destruct (states st !! i)).
  destruct E1 as [-> _|o' e ctx _ _ _ _ _ _ Hel _ _ _ _ Ho]; cbn [gs_elements] in *; [by rewrite fmap_app, Hh|].
  rewrite Hel. unfold kept. destruct Ho as [[-> He]|(ts & _ & _ & ->)].
  - rewrite <- Hh, <- fmap_app, He. by destruct (accumulation spec).
  - destruct (accumulation spec); by rewrite ?fmap_app, ?Hh.
Qed.

(** ** Draining is one sweep *)

Abbreviation take_loop := (take_loop (E:=string)).

(** Each group of the list is evaluated once, in order. *)
Fixpoint sweep (spec : TriggerSpec) (wm pt : Z) (scan : list GroupIdentity) (st : GbkState)
    : outcome string (GbkState * list WindowedValue) :=
  match scan with
  | [] => Ok (st, [])
  | i :: scan =>
    match states st !! i with
    | None => sweep spec wm pt scan st
    | Some s =>
      if gs_evaluated_this_run s then sweep spec wm pt scan st
      else
        '(s, o) ← fire_state spec wm pt s;
        '(st, out) ← sweep spec wm pt scan (store_state i s st);
        Ok (st, opt_list o ++ out)
    end
  end.

Lemma sweep_app spec wm pt a b st :
  sweep spec wm pt (a ++ b) st =
    '(st, out) ← sweep spec wm pt a st;
    '(st, out') ← sweep spec wm pt b st;
    Ok (st, out ++ out').
Proof.
  revert st. induction a as [|i a IH]; intros st; cbn [app sweep].
  - cbn. by destruct (sweep spec wm pt b st) as [[? ?]| |].
  - destruct (states st !! i) as [s|]; [|apply IH]. destruct (gs_evaluated_this_run s); [apply IH|].
    destruct (fire_state spec wm pt s) as [[s' o]| |]; [|done..]. cbn [mbind outcome_bind]. rewrite IH.
    destruct (sweep spec wm pt a _) as [[st1 o1]| |]; [|done..]. cbn [mbind outcome_bind].
    destruct (sweep spec wm pt b st1) as [[st2 o2]| |]; [|done..]. cbn. by rewrite app_assoc.
Qed.

(** The unevaluated groups. *)
Definition unevaluated (st : GbkState) : gmap GroupIdentity WindowState :=
  filter (λ p, gs_evaluated_this_run p.2 = false) (states st).

Lemma unevaluated_store i s s' st :
  states st !! i = Some s → gs_evaluated_this_run s = false → gs_evaluated_this_run s' = true →
  S (size (unevaluated (store_state i s' st))) = size (unevaluated st).
Proof.
  intros Hi Hs Hs'. unfold unevaluated, store_state, with_states. cbn [states].
  assert (Hu : filter (λ p : GroupIdentity * WindowState, gs_evaluated_this_run p.2 = false) (states st) !! i = Some s)
    by (by apply map_lookup_filter_Some).
  replace (filter _ (_ (states st))) with (delete i (filter (λ p : GroupIdentity * WindowState, gs_evaluated_this_run p.2 = false) (states st))).
  - rewrite map_size_delete_Some by eauto.
    destruct (size _) eqn:E0; [|lia]. apply map_size_empty_inv in E0. by rewrite E0 in Hu.
  - destruct (gs_closed s').
    + by rewrite map_filter_delete.
    + rewrite map_filter_insert_False by (simpl; congruence). by rewrite map_filter_delete.
Qed.

Lemma fires_evaluated spec wm s s' o : fires spec wm s s' o → gs_evaluated_this_run s' = true.
Proof. by intros [-> _|]. Qed.

(** What a sweep visits and leaves alone. *)
Lemma sweep_frame spec wm pt scan st st' out :
  sweep spec wm pt scan st = Ok (st', out) →
  (∀ j, j ∉ scan → states st' !! j = states st !! j)
  ∧ (∀ j s, j ∈ scan → states st' !! j = Some s → gs_evaluated_this_run s = true)
  ∧ ready_scan st' = ready_scan st ∧ last_evaluated_watermark st' = last_evaluated_watermark st
  ∧ dom (states st') ⊆ dom (states st)
  ∧ length out + size (unevaluated st') ≤ size (unevaluated st)
  ∧ (∀ j s, states st !! j = Some s → gs_evaluated_this_run s = true → states st' !! j = Some s).
Proof.
  revert st out. induction scan as [|i scan IH]; intros st out H; cbn [sweep] in H.
  { injection H as <- <-. split_and!; try done. intros j s Hj. by apply elem_of_nil in Hj. }
  destruct (states st !! i) as [s|] eqn:Es.
  - destruct (gs_evaluated_this_run s) eqn:Ev.
    + destruct (IH _ _ H) as (F1 & F2 & F3 & F4 & F5 & F6 & F7). split_and!; try done.
      * intros j Hj. apply F1. intros Hn. apply Hj. by right.
      * intros j u Hj Hu. destruct (decide (j ∈ scan)); [by eapply F2|].
        apply elem_of_cons in Hj as [->|Hj]; [|done]. rewrite (F7 _ _ Es Ev) in Hu. by injection Hu as <-.
    + destruct (fire_state spec wm pt s) as [[s' o]| |] eqn:Ef; [|done..]. cbn [mbind outcome_bind] in H.
      destruct (sweep spec wm pt scan _) as [[st1 o1]| |] eqn:Esw; [|done..]. injection H as <- <-.
      apply fire_state_fires, fires_evaluated in Ef as Hev.
      destruct (IH _ _ Esw) as (F1 & F2 & F3 & F4 & F5 & F6 & F7). split_and!.
      * intros j Hj. rewrite F1 by (intros Hn; apply Hj; by right). rewrite lookup_store, decide_False; [done|].
        intros ->. apply Hj. by left.
      * intros j u Hj Hu. destruct (decide (j ∈ scan)); [by eapply F2|].
        apply elem_of_cons in Hj as [->|Hj]; [|done]. rewrite F1, lookup_store, decide_True in Hu by done.
        destruct (gs_closed s'); [done|]. by injection Hu as <-.
      * by rewrite F3.
      * by rewrite F4.
      * etrans; [exact F5|]. intros j Hj. apply elem_of_dom in Hj as [u Hu]. rewrite lookup_store in Hu.
        apply elem_of_dom. case_decide; subst; eauto.
      * pose proof (unevaluated_store _ _ _ _ Es Ev Hev). rewrite length_app.
        assert (length (opt_list o) ≤ 1) by (destruct o; simpl; lia). lia.
      * intros j u Hu Hevu. apply F7; [|done]. rewrite lookup_store, decide_False; [done|]. intros ->. congruence.
  - destruct (IH _ _ H) as (F1 & F2 & F3 & F4 & F5 & F6 & F7). split_and!; try done.
    + intros j Hj. apply F1. intros Hn. apply Hj. by right.
    + intros j u Hj Hu. destruct (decide (j ∈ scan)); [by eapply F2|].
      apply elem_of_cons in Hj as [->|Hj]; [|done]. rewrite F1 in Hu by done. congruence.
Qed.

Lemma sweep_evaluated spec wm pt scan st :
  (∀ j s, states st !! j = Some s → gs_evaluated_this_run s = true) → sweep spec wm pt scan st = Ok (st, []).
Proof.
  intros H. induction scan as [|i scan IH]; [done|]. cbn [sweep]. destruct (states st !! i) as [s|] eqn:E; [|done].
  by rewrite (H i s E).
Qed.

(** A chunk is a sweep over a prefix of the scan. *)
Lemma take_loop_sweep spec wm pt limit scan st out st2 out2 :
  sweep spec wm pt scan st = Ok (st2, out2) →
  ∃ pre rest st1 out1, scan = pre ++ rest ∧ sweep spec wm pt pre st = Ok (st1, out1)
    ∧ take_loop spec wm pt limit scan st out = Ok (rest, st1, out ++ out1)
    ∧ (rest = [] ∨ limit ≤ length (out ++ out1)).
Proof.
  revert st out out2. induction scan as [|i scan IH]; intros st out out2 H; cbn [sweep Gbk.take_loop] in *.
  { exists [], [], st, []. rewrite (app_nil_r out). split_and!; try done. by left. }
  case_decide as Hl.
  { exists [], (i :: scan), st, []. rewrite (app_nil_r out). split_and!; try done. by right. }
  destruct (states st !! i) as [s|] eqn:Es; [destruct (gs_evaluated_this_run s) eqn:Ev|].
  - destruct (IH _ out _ H) as (pre & rest & st1 & out1 & -> & Hs & Ht & Hr).
    exists (i :: pre), rest, st1, out1. cbn [sweep app]. rewrite Es, Ev. by split_and!.
  - destruct (fire_state spec wm pt s) as [[s' o]| |] eqn:Ef; [|done..]. cbn [mbind outcome_bind] in *.
    destruct (sweep spec wm pt scan _) as [[sta oa]| |] eqn:Esw; [|done..]. injection H as <- <-.
    destruct (IH _ (out ++ opt_list o) _ Esw) as (pre & rest & st1 & out1 & -> & Hs & Ht & Hr).
    exists (i :: pre), rest, st1, (opt_list o ++ out1). cbn [sweep app]. rewrite Es, Ev, Ef. cbn [mbind outcome_bind].
    rewrite Hs. cbn [mbind outcome_bind]. rewrite !app_assoc. split_and!; try done.
  - destruct (IH _ out _ H) as (pre & rest & st1 & out1 & -> & Hs & Ht & Hr).
    exists (i :: pre), rest, st1, out1. cbn [sweep app]. rewrite Es. by split_and!.
Qed.

(** During a run the groups evaluated in it have fired once more than before. *)
Definition gbk_mid (t : Trigger) (n : Z) (st : GbkState) : Prop :=
  ∀ i s, states st !! i = Some s →
    group_ok t i s ∧ (gs_pane_index s ≤ n + 1)%Z ∧ (gs_evaluated_this_run s = false → (gs_pane_index s ≤ n)%Z).

(** Every evaluated group is settled. *)
Definition evaluated_settled (spec : TriggerSpec) (wm : Z) (st : GbkState) : Prop :=
  ∀ i s, states st !! i = Some s → gs_evaluated_this_run s = true → settled spec wm s.

Lemma emitted_panes i out : emitted i out = concat (pane_values <$> panes_of i out).
Proof. done. Qed.

Lemma panes_of_app i a b : panes_of i (a ++ b) = panes_of i a ++ panes_of i b.
Proof. apply List.filter_app. Qed.

Lemma fires_pane_of spec wm t i j s s' o :
  group_ok t i s → fires spec wm s s' o → length (panes_of j (opt_list o)) ≤ if decide (j = i) then 1 else 0.
Proof.
  intros Hg [-> _|o' e ctx _ _ _ _ _ _ _ _ _ _ _ Ho]; [simpl; lia|].
  destruct Ho as [[-> _]|(ts & _ & _ & ->)]; [simpl; lia|].
  unfold panes_of. cbn [opt_list List.filter]. rewrite (is_pane_of_pane i) by apply Hg.
  case_decide; [|rewrite bool_decide_false by done; simpl; lia]. case_match; simpl; lia.
Qed.

Lemma sweep_spec spec wm pt n scan st :
  delays_ok (spec_trigger spec) → is_i 64 (n + 1) → gbk_mid (spec_trigger spec) n st →
  ∃ st' out, sweep spec wm pt scan st = Ok (st', out) ∧ gbk_mid (spec_trigger spec) n st'
    ∧ (accumulation spec = Discarding → ∀ j, emitted j out ++ held j st' = held j st)
    ∧ (evaluated_settled spec wm st → evaluated_settled spec wm st')
    ∧ (∀ j, length (panes_of j out)
            ≤ match states st !! j with Some s => if gs_evaluated_this_run s then 0 else 1 | None => 0 end).
Proof.
  intros Hd Hn. revert st. induction scan as [|i scan IH]; intros st Hm; cbn [sweep].
  { exists st, []. split_and!; try done. intros j. simpl. lia. }
  destruct (states st !! i) as [s|] eqn:Es; [destruct (gs_evaluated_this_run s) eqn:Ev|]; [by apply IH| |by apply IH].
  destruct (Hm i s Es) as (Hg & _ & Hx). specialize (Hx Ev).
  assert (Hb : is_i 64 (gs_pane_index s + 1)) by (unfold is_i in *; pose proof (go_index _ _ _ Hg); lia).
  destruct (fire_state_total spec wm pt _ i s Hd Hg Hb) as (s' & o & Hf). rewrite Hf. cbn [mbind outcome_bind].
  apply fire_state_fires in Hf.
  assert (Hm' : gbk_mid (spec_trigger spec) n (store_state i s' st)).
  { intros j u. rewrite lookup_store. case_decide as H; [subst|by apply Hm].
    destruct (gs_closed s') eqn:Hc; [done|]. intros [= <-].
    destruct (fires_ok _ _ _ _ _ _ _ Hd Hg Hb Hf Hc). split_and!; [done|lia|].
    rewrite (fires_evaluated _ _ _ _ _ Hf). done. }
  destruct (IH _ Hm') as (st' & out & Hsw & Hmid & Hcons & Hset & Hpan). rewrite Hsw. cbn [mbind outcome_bind].
  exists st', (opt_list o ++ out). split_and!; try done.
  - intros Hacc j. rewrite emitted_app, <- app_assoc, Hcons by done.
    rewrite (store_conserve _ _ _ _ _ _ _ _ _ Hacc Hg Hf). case_decide as H; [subst|done]. unfold held. by rewrite Es.
  - intros He. apply Hset. intros j u. rewrite lookup_store. case_decide as H; [subst|by apply He].
    destruct (gs_closed s') eqn:Hc; [done|]. intros [= <-] _.
    by eapply fires_settled; [done|apply Hg|].
  - intros j. rewrite panes_of_app, length_app. specialize (Hpan j). rewrite lookup_store in Hpan.
    pose proof (fires_pane_of _ _ _ _ j _ _ _ Hg Hf) as Hp. case_decide as H; [subst|lia].
    rewrite Es, Ev. destruct (gs_closed s'); [lia|]. rewrite (fires_evaluated _ _ _ _ _ Hf) in Hpan. lia.
Qed.

Section drain.
Context (scan_order : gset GroupIdentity → list GroupIdentity)
  (Horder : ∀ X, scan_order X ≡ₚ elements X).
Abbreviation take_ready := (take_ready (E:=string) scan_order).
Abbreviation drain_loop := (drain_loop (E:=string) scan_order).
Abbreviation drain_ready := (drain_ready (E:=string) scan_order).

(** The groups the next chunk goes over. *)
Definition to_scan (st : GbkState) : list GroupIdentity :=
  match ready_scan st with Some scan => scan | None => scan_order (dom (states st)) end.

Definition with_scan (scan : option (list GroupIdentity)) (st : GbkState) : GbkState :=
  mkGbkState (states st) scan (last_evaluated_watermark st).

(** The scan field plays no role in a sweep. *)
Lemma sweep_with_scan spec wm pt l o st :
  sweep spec wm pt l (with_scan o st) = '(st', out) ← sweep spec wm pt l st; Ok (with_scan o st', out).
Proof.
  revert st. induction l as [|i l IH]; intros st; cbn [sweep]; [done|]. cbn [states with_scan].
  destruct (states st !! i) as [s|]; [|apply IH]. destruct (gs_evaluated_this_run s); [apply IH|].
  destruct (fire_state spec wm pt s) as [[s' v]| |]; [|done..]. cbn [mbind outcome_bind].
  change (store_state i s' (with_scan o st)) with (with_scan o (store_state i s' st)). rewrite IH.
  by destruct (sweep spec wm pt l _) as [[? ?]| |].
Qed.

Lemma take_ready_sweep spec wm pt limit st st2 out2 :
  limit ≠ 0 → sweep spec wm pt (to_scan st) st = Ok (st2, out2) →
  ∃ pre rest st1 out1, to_scan st = pre ++ rest ∧ sweep spec wm pt pre st = Ok (st1, out1)
    ∧ take_ready spec wm pt limit st
      = Ok (with_scan (match rest with [] => None | _ => Some rest end) st1, out1)
    ∧ (rest = [] ∨ limit ≤ length out1).
Proof.
  intros Hl H. destruct (take_loop_sweep _ _ _ limit _ _ [] _ _ H) as (pre & rest & st1 & out1 & Hp & Hs & Ht & Hr).
  exists pre, rest, st1, out1. split_and!; try done. unfold Gbk.take_ready. rewrite decide_False by done.
  change (match ready_scan st with Some scan => scan | None => scan_order (dom (states st)) end) with (to_scan st).
  by rewrite Ht.
Qed.

(** Draining in chunks of any size is one sweep over the pending groups. *)
Lemma drain_loop_sweep spec wm pt limit fuel st st2 out2 written :
  limit ≠ 0 → size (unevaluated st) < fuel →
  (∀ j s, j ∉ to_scan st → states st !! j = Some s → gs_evaluated_this_run s = true) →
  sweep spec wm pt (to_scan st) st = Ok (st2, out2) →
  drain_loop fuel spec wm pt limit st written = Ok (with_scan None st2, written ++ out2, true).
Proof.
  intros Hl. revert st st2 out2 written. induction fuel as [|fuel IH]; intros st st2 out2 written Hf Hrest H; [lia|].
  cbn [Gbk.drain_loop].
  destruct (take_ready_sweep _ _ _ limit _ _ _ Hl H) as (pre & rest & st1 & out1 & Hp & Hs & -> & Hr).
  cbn [mbind outcome_bind]. rewrite Hp, sweep_app, Hs in H. cbn [mbind outcome_bind] in H.
  destruct (sweep spec wm pt rest st1) as [[st3 out3]| |] eqn:Hs3; [|done..]. injection H as <- <-.
  destruct (sweep_frame _ _ _ _ _ _ _ Hs) as (F1 & F2 & F3 & F4 & F5 & F6 & F7).
  destruct out1 as [|v out1].
  - destruct Hr as [->|Hr]; [|simpl in Hr; lia]. cbn in Hs3. injection Hs3 as <- <-. by rewrite app_nil_r.
  - assert (Hrest1 : ∀ j s, j ∉ rest → states st1 !! j = Some s → gs_evaluated_this_run s = true).
    { intros j s Hj Hs1. destruct (decide (j ∈ pre)) as [Hpre|Hpre]; [by eapply F2|].
      rewrite F1 in Hs1 by done. eapply Hrest; [|done]. rewrite Hp, elem_of_app. tauto. }
    destruct rest as [|i rest].
    + cbn in Hs3. injection Hs3 as <- <-. rewrite app_nil_r.
      erewrite (IH (with_scan None st1) (with_scan None st1) []); [by rewrite app_nil_r| | |].
      * simpl in F6. unfold unevaluated in *. cbn. lia.
      * intros j s _. apply Hrest1. apply not_elem_of_nil.
      * apply sweep_evaluated. intros j s. apply Hrest1. apply not_elem_of_nil.
    + erewrite (IH (with_scan (Some (i :: rest)) st1) (with_scan (Some (i :: rest)) st3) out3).
      * by rewrite <- app_assoc.
      * simpl in F6. unfold unevaluated in *. cbn. lia.
      * exact Hrest1.
      * cbn [to_scan ready_scan with_scan]. by rewrite sweep_with_scan, Hs3.
Qed.

Lemma drain_ready_sweep spec wm pt limit st st2 out2 :
  limit ≠ 0 → ready_scan st = None →
  sweep spec wm pt (scan_order (dom (states st))) st = Ok (st2, out2) →
  drain_ready spec wm pt limit st = Ok (with_scan None st2, out2).
Proof.
  intros Hl Hs H. unfold Gbk.drain_ready.
  assert (Hscan : to_scan st = scan_order (dom (states st))) by (unfold to_scan; by rewrite Hs).
  erewrite drain_loop_sweep; [done|done| | |by rewrite Hscan].
  - assert (size (unevaluated st) ≤ size (states st)) by (apply map_subseteq_size, map_filter_subseteq). lia.
  - intros j s Hj Hsj. destruct Hj. rewrite Hscan, Horder. apply elem_of_elements. by apply elem_of_dom_2 in Hsj.
Qed.
End drain.
End spec.
