(* ===== verification/GbkInput.v ===== *)
(** One run of group-by-key (transforms/gbk.rs): the rows that are late are filtered out,
    the others of a bucket are flattened to one per window, sorted, decoded into key groups, merged where the windows merge,
    applied to the group state, and the ready groups are drained.  Reading the rows
    from the store and committing the output are the element store's. *)
From S2P Require Import Prelude Bytes Varint Windows Coders Trigger WindowMerge Gbk.
Local Open Scope string_scope.
Local Open Scope list_scope.

(** * Rows *)

(** A row of the table of the input: the record, its key column, its timestamp, the first
    window, the further windows, the declared number of windows and the latest end of
    its windows, which only the filter of the read looks at. *)
Record InputRow : Type := mkInputRow {
  ir_record : BeamRecord;
  ir_key : PrimitiveValue;
  ir_timestamp : Z;
  ir_window_key : option bytes;
  ir_extra_window_keys : list (option bytes);
  ir_window_count : Z;
  ir_window_max_end : option Z;
}.

(** A flattened row: one element in one window, with its encoded key. *)
Record FlatRow : Type := mkFlatRow {
  fr_record : BeamRecord;
  fr_timestamp : Z;
  fr_window_key : bytes;
  fr_group_key : bytes;
}.

(** [add_encoded_key_column] and the columns [take_flattened_window_batch] keeps. *)
Definition flat_row (row : InputRow) (window_key : bytes) : FlatRow :=
  mkFlatRow (ir_record row) (ir_timestamp row) window_key (encoded_primitive_sort_key (ir_key row)).

(** The loop of [flatten_window_batch]: the rows of the first windows and those of the
    further windows. *)
Fixpoint flatten_rows (rows : list InputRow) : outcome string (list FlatRow * list FlatRow) :=
  match rows with
  | [] => Ok ([], [])
  | row :: rows =>
      if (ir_window_count row <? 0)%Z then Err "negative window count"
      else if decide (Z.to_nat (ir_window_count row) ≠
                      (length (ir_extra_window_keys row) + match ir_window_key row with Some _ => 1 | None => 0 end)%nat)
      then Err "window count does not match scalar and extra keys"
      else
        extra ← traverse (λ k, match k with
                               | Some k => Ok (flat_row row k)
                               | None => Err "null extra window key"
                               end) (ir_extra_window_keys row);
        '(scalars, extras) ← flatten_rows rows;
        Ok (match ir_window_key row with Some k => [flat_row row k] | None => [] end ++ scalars, extra ++ extras)
  end.

Definition flatten_window_batch (rows : list InputRow) : outcome string (list (list FlatRow)) :=
  '(scalars, extras) ← flatten_rows rows;
  Ok (match scalars with [] => [] | _ => [scalars] end ++ match extras with [] => [] | _ => [extras] end).

(** The filter of [open_incremental_arrow_by_bucket]: the latest end of the windows is past
    the cutoff, or it is not known. *)
Definition survives (window_prune_before : option Z) (row : InputRow) : bool :=
  match window_prune_before, ir_window_max_end row with
  | Some cutoff, Some max_end => (cutoff <? max_end)%Z
  | _, _ => true
  end.

Definition prune_rows (window_prune_before : option Z) (rows : list InputRow) : list InputRow :=
  filter (survives window_prune_before) rows.

(** The rows of the buckets that the filter leaves. *)
Definition open_pruned (window_prune_before : option Z) (buckets : list (list (list InputRow))) : list (list (list InputRow)) :=
  (λ batches : list (list InputRow), prune_rows window_prune_before <$> batches) <$> buckets.

(** * Key groups *)

Abbreviation WindowValues := (list (BeamWindow * list PaneElement)).

Record KeyGroup : Type := mkKeyGroup {
  kg_encoded_key : bytes;
  kg_key : PrimitiveValue;
  kg_windows : WindowValues;
}.

(** An element joins the last window of the group when it has the same key. *)
Definition push_element (window : BeamWindow) (element : PaneElement) (windows : WindowValues)
    : outcome string WindowValues :=
  match last windows with
  | Some (current_window, values) =>
      current ← to_binary_key current_window;
      key ← to_binary_key window;
      if decide (current = key)
      then Ok (removelast windows ++ [(current_window, values ++ [element])])
      else Ok (windows ++ [(window, [element])])
  | None => Ok [(window, [element])]
  end.

(** One row of [SortedGroupDecoder::push_batch]: the group it completes, if any, and
    the group in progress. *)
Definition push_row (current : option KeyGroup) (row : FlatRow)
    : outcome string (option KeyGroup * KeyGroup) :=
  match fr_record row with
  | KV key value =>
      match from_binary_key (fr_window_key row) with
      | None => Err "GroupByKey encountered a malformed binary window key"
      | Some window =>
          let element := mkPaneElement value (fr_timestamp row) in
          let '(completed, group) :=
            match current with
            | Some g => if decide (kg_encoded_key g ≠ fr_group_key row)
                        then (Some g, mkKeyGroup (fr_group_key row) key []) else (None, g)
            | None => (None, mkKeyGroup (fr_group_key row) key [])
            end in
          windows ← push_element window element (kg_windows group);
          Ok (completed, mkKeyGroup (kg_encoded_key group) (kg_key group) windows)
      end
  | _ => Err "GroupByKey expected KV input"
  end.

Fixpoint push_batch (current : option KeyGroup) (rows : list FlatRow)
    : outcome string (list KeyGroup * option KeyGroup) :=
  match rows with
  | [] => Ok ([], current)
  | row :: rows =>
      '(done, group) ← push_row current row;
      '(completed, current) ← push_batch (Some group) rows;
      Ok (match done with Some g => [g] | None => [] end ++ completed, current)
  end.

(** * Merging windows *)

(** A group to apply: the key, a window and its elements. *)
Abbreviation group := (PrimitiveValue * BeamWindow * list PaneElement)%type.
Abbreviation interval := (Z * Z * list PaneElement)%type.

Definition interval_le (a b : interval) : bool :=
  let '((s, e), _) := a in let '((s', e'), _) := b in
  ((s <? s') || ((s =? s') && (e <=? e')))%Z.

(** The sweep over the sorted intervals of a key. *)
Fixpoint merge_sorted (key : PrimitiveValue) (start fin : Z) (values : list PaneElement) (rest : list interval)
    : list group :=
  match rest with
  | [] => [(key, IntervalWindow start fin, values)]
  | ((next_start, next_end), next_values) :: rest =>
      if (next_start <? fin)%Z
      then merge_sorted key start (Z.max fin next_end) (values ++ next_values) rest
      else (key, IntervalWindow start fin, values) :: merge_sorted key next_start next_end next_values rest
  end.

Section merging.
(** [key_debug]: the text of a key ([format!("{key:?}")]); the orders in which hash maps
    iterate. *)
Context (key_debug : PrimitiveValue → string) (string_order : gset string → list string)
  (bytes_order : gset bytes → list bytes).

(** The groups by key; a window that is not an interval is an error. *)
Fixpoint intervals_by_key (groups : list group) (by_key : gmap string (PrimitiveValue * list interval))
    : outcome string (gmap string (PrimitiveValue * list interval)) :=
  match groups with
  | [] => Ok by_key
  | (key, IntervalWindow s e, values) :: groups =>
      let entry := default (key, []) (by_key !! key_debug key) in
      intervals_by_key groups (<[key_debug key := (entry.1, entry.2 ++ [(s, e, values)])]> by_key)
  | _ :: _ => Err "native interval merge received a non-interval window"
  end.

Definition merge_interval_groups (groups : list group) : outcome string (list group) :=
  by_key ← intervals_by_key groups ∅;
  Ok (concat ((λ k,
    match by_key !! k with
    | Some (key, windows) =>
        match sort_by interval_le windows with
        | [] => []
        | ((s, e), values) :: rest => merge_sorted key s e values rest
        end
    | None => []
    end) <$> string_order (dom by_key))).

(** [apply_merge_results]. *)
Definition originals_to_merged (results : list MergedWindows) : outcome string (gmap bytes BeamWindow) :=
  pairs ← traverse (λ p : BeamWindow * BeamWindow, k ← to_binary_key p.1; Ok (k, p.2))
            (concat ((λ r, (λ original, (original, merged r)) <$> originals r) <$> results));
  Ok (foldl (λ m p, <[p.1 := p.2]> m) ∅ pairs).

Fixpoint regroup (original_to_merged : gmap bytes BeamWindow) (windows : WindowValues)
    (merged_groups : gmap bytes (BeamWindow * list PaneElement))
    : outcome string (gmap bytes (BeamWindow * list PaneElement)) :=
  match windows with
  | [] => Ok merged_groups
  | (original, values) :: windows =>
      original_key ← to_binary_key original;
      match original_to_merged !! original_key with
      | None => Err "MergeWindows did not map an original window"
      | Some merged_window =>
          merged_key ← to_binary_key merged_window;
          let entry := default (merged_window, []) (merged_groups !! merged_key) in
          regroup original_to_merged windows (<[merged_key := (entry.1, entry.2 ++ values)]> merged_groups)
      end
  end.

Definition apply_merge_results (key : PrimitiveValue) (original_groups : WindowValues)
    (results : list MergedWindows) : outcome string (list group) :=
  original_to_merged ← originals_to_merged results;
  merged_groups ← regroup original_to_merged original_groups ∅;
  Ok (omap (λ k, (λ e : BeamWindow * list PaneElement, (key, e.1, e.2)) <$> merged_groups !! k)
        (bytes_order (dom merged_groups))).
End merging.

(** * Processing key groups *)

(** What a run changes: the group state, the merge service, the rows buffered and the
    rows handed to the writer. *)
Record GbkRun : Type := mkGbkRun {
  run_state : GbkState;
  run_merger : option MergeService;
  run_output : list WindowedValue;
  run_written : list WindowedValue;
}.

Definition OUTPUT_BATCH_SIZE : nat := 8 * 1024.

Definition is_interval (w : BeamWindow) : bool := match w with IntervalWindow _ _ => true | _ => false end.

Definition groups_of (g : KeyGroup) : list group :=
  (λ w : BeamWindow * list PaneElement, (kg_key g, w.1, w.2)) <$> kg_windows g.

Section run.
Context `{P : Profile} (key_debug : PrimitiveValue → string) (string_order : gset string → list string)
  (bytes_order : gset bytes → list bytes) (scan_order : gset GroupIdentity → list GroupIdentity)
  (merge_windows : list (list BeamWindow) → MergeService → MergeService * outcome string (list (list MergedWindows)))
  (external_sort : list FlatRow → list (list FlatRow)).
Context (spec : TriggerSpec) (needs_merge : bool) (input_watermark processing_time : Z).

(** The groups that need no SDK: as they are, or with their intervals merged. *)
Fixpoint native_groups (key_groups : list KeyGroup) : outcome string (list group * list KeyGroup) :=
  match key_groups with
  | [] => Ok ([], [])
  | g :: key_groups =>
      let is_interval := forallb (λ w, is_interval w.1) (kg_windows g) in
      if needs_merge && negb is_interval then
        '(groups, custom) ← native_groups key_groups; Ok (groups, g :: custom)
      else
        groups ← (if needs_merge then merge_interval_groups key_debug string_order (groups_of g)
                  else Ok (groups_of g));
        '(rest, custom) ← native_groups key_groups;
        Ok (groups ++ rest, custom)
  end.

(** The groups whose windows the SDK merges. *)
Definition custom_groups (custom : list KeyGroup) : st GbkRun (list group) := λ r,
  match custom with
  | [] => (r, Ok [])
  | _ :: _ =>
    match run_merger r with
    | None => (r, Err "GroupByKey uses a merging window function, but the SDK window merger is unavailable")
    | Some merger =>
      let '(merger, result) := merge_windows ((λ g, (kg_windows g).*1) <$> custom) merger in
      (mkGbkRun (run_state r) (Some merger) (run_output r) (run_written r),
       merged ← result;
       gss ← traverse2 (λ g results, apply_merge_results bytes_order (kg_key g) (kg_windows g) results) custom merged;
       Ok (concat gss))
    end
  end.

Fixpoint apply_groups (groups : list group) : st GbkRun unit := λ r,
  match groups with
  | [] => (r, Ok ())
  | (key, window, values) :: groups =>
    match apply_group key window values spec input_watermark processing_time (run_state r) with
    | Ok (state, o) =>
        apply_groups groups
          (mkGbkRun state (run_merger r)
             (run_output r ++ match o with Some v => [v] | None => [] end) (run_written r))
    | Err e => (r, Err e)
    | Panic w => (r, Panic w)
    end
  end.

Definition process_key_groups_batch (key_groups : list KeyGroup) : st GbkRun unit :=
  match key_groups with
  | [] => mret ()
  | _ :: _ =>
      '(groups, custom) ← st_lift (native_groups key_groups);
      merged ← custom_groups custom;
      apply_groups (groups ++ merged)
  end.

(** [writer.write]. *)
Definition write_rows (rows : list WindowedValue) : st GbkRun unit := λ r,
  (mkGbkRun (run_state r) (run_merger r) (run_output r) (run_written r ++ rows), Ok ()).

Definition take_output : st GbkRun (list WindowedValue) := λ r,
  (mkGbkRun (run_state r) (run_merger r) [] (run_written r), Ok (run_output r)).

Definition flush_output_if_full : st GbkRun unit := λ r,
  if decide (OUTPUT_BATCH_SIZE ≤ length (run_output r))%nat
  then (rows ← take_output; write_rows rows) r
  else (r, Ok ()).

(** The batches of one sorted bucket, then the last group of the decoder. *)
Fixpoint process_batches (current : option KeyGroup) (batches : list (list FlatRow)) : st GbkRun unit :=
  match batches with
  | [] =>
      match current with
      | Some g => process_key_groups_batch [g]
      | None => mret ()
      end
  | batch :: batches =>
      '(groups, current) ← st_lift (push_batch current batch);
      _ ← process_key_groups_batch groups;
      _ ← flush_output_if_full;
      process_batches current batches
  end.

(** The sorted stream of a bucket: every batch is flattened and goes into the sort. *)
Definition sorted_bucket (batches : list (list InputRow)) : outcome string (list (list FlatRow)) :=
  flat ← traverse flatten_window_batch batches; Ok (external_sort (concat (concat flat))).

Fixpoint process_buckets (buckets : list (list (list InputRow))) : st GbkRun nat :=
  match buckets with
  | [] => mret 0%nat
  | bucket :: buckets =>
      batches ← st_lift (sorted_bucket bucket);
      _ ← process_batches None batches;
      decoded ← process_buckets buckets;
      mret (sum_list_with length batches + decoded)%nat
  end.

Definition update_state (f : GbkState → GbkState) : st GbkRun unit := λ r,
  (mkGbkRun (f (run_state r)) (run_merger r) (run_output r) (run_written r), Ok ()).

(** The drain loop of [execute]: what it takes it writes. *)
Definition drain_and_write : st GbkRun unit := λ r,
  match drain_ready scan_order spec input_watermark processing_time OUTPUT_BATCH_SIZE (run_state r) with
  | Ok (state, rows) => (mkGbkRun state (run_merger r) (run_output r) (run_written r ++ rows), Ok ())
  | Err e => (r, Err e)
  | Panic w => (r, Panic w)
  end.

(** [execute] on the rows that were appended since the last run, [buckets].  The result of
    committing the output and advancing the cursor is [committed]. *)
Definition execute (is_global_window input_is_bounded : bool) (committed : outcome string unit)
    (buckets : list (list (list InputRow))) : st GbkRun unit :=
  previous_watermark ← st_read (λ r, Ok (last_evaluated_watermark (run_state r)));
  let window_prune_before :=
    window_prune_cutoff previous_watermark (allowed_lateness spec) needs_merge is_global_window input_is_bounded in
  _ ← update_state begin_run;
  decoded_rows ← process_buckets (open_pruned window_prune_before buckets);
  _ ← drain_and_write;
  _ ← flush_output_if_full;
  rows ← take_output;
  _ ← write_rows rows;
  _ ← st_lift committed;
  if decide (0 < decoded_rows ∨ is_Some previous_watermark)%nat
  then update_state (mark_watermark_evaluated input_watermark)
  else mret ().
End run.
