(* ===== verification/GbkInputSpec.v ===== *)
(** What one run of group-by-key guarantees: rows are grouped by key and window,
    interval windows merge into sessions, and every element ends up in one pane or in
    the state of its group. *)
From S2P Require Import Prelude Bytes Varint Windows Coders Trigger WindowMerge Gbk GbkSpec GbkInput.
Set Warnings "-clear-no-such-hyp".

(** * Grouping sorted rows *)

(** Blocks of equal keys in a sorted list: when neighbours differ, no key repeats. *)
Section blocks.
Context {A : Type} (R : relation A) `{!AntiSymm (=) R}.

Fixpoint neighbours_differ (l : list A) : Prop :=
  match l with
  | x :: (y :: _) as l' => x ≠ y ∧ neighbours_differ l'
  | _ => True
  end.

Lemma sorted_differ_NoDup l : StronglySorted R l → neighbours_differ l → NoDup l.
Proof.
  induction 1 as [|x l Hs IH Hx]; intros Hd; [constructor|]. destruct l as [|y l]; [apply NoDup_singleton|].
  destruct Hd as [Hne Hd]. constructor; [|by apply IH]. intros [->|Hin]%elem_of_cons; [done|].
  apply Hne, (anti_symm R).
  - rewrite Forall_forall in Hx. apply Hx. by left.
  - inversion Hs as [|? ? _ Hy]; subst. rewrite Forall_forall in Hy. by apply Hy.
Qed.

Lemma neighbours_differ_snoc l x y :
  neighbours_differ (l ++ [x]) → x ≠ y → neighbours_differ (l ++ [x; y]).
Proof.
  induction l as [|z l IH]; simpl; [done|]. destruct l as [|z' l]; simpl in *; tauto.
Qed.
End blocks.

(** The order of the external sort: by encoded key, then by window key. *)
Definition row_id (row : FlatRow) : bytes * bytes := (fr_group_key row, fr_window_key row).

Definition id_le (a b : bytes * bytes) : Prop :=
  bytes_compare a.1 b.1 = Lt ∨ a.1 = b.1 ∧ bytes_le a.2 b.2.

#[export] Instance id_le_antisymm : AntiSymm (=) id_le.
Proof.
  intros [a1 a2] [b1 b2] [H|[E H]] [H'|[E' H']]; simpl in *; subst.
  - rewrite bytes_compare_sym, H in H'. discriminate H'.
  - by rewrite bytes_compare_refl in H.
  - by rewrite bytes_compare_refl in H'.
  - f_equal. by apply (anti_symm bytes_le).
Qed.

Lemma id_le_key a b : id_le a b → bytes_le a.1 b.1.
Proof.
  unfold bytes_le. intros [->|[-> _]]; [done|].
  by rewrite bytes_compare_refl.
Qed.

(** A row the store hands out for a table of key/value pairs: its window key is the
    key of a window, its encoded key that of its record. *)
Record row_ok (row : FlatRow) (key : PrimitiveValue) (value : BeamRecord) (w : BeamWindow) : Prop := {
  ro_record : fr_record row = KV key value;
  ro_window : from_binary_key (fr_window_key row) = Some w;
  ro_key : fr_group_key row = encoded_primitive_sort_key key;
  ro_wf : wf_key key;
  ro_timely : timely w;
}.

Definition good_row (row : FlatRow) : Prop := ∃ key value w, row_ok row key value w.

Definition row_value (row : FlatRow) : BeamRecord :=
  match fr_record row with KV _ v => v | r => r end.

(** What a row and a group contribute: elements under an encoded key and a window
    key. *)
Abbreviation entry := (bytes * bytes * PaneElement)%type.

Definition row_entry (row : FlatRow) : entry :=
  (fr_group_key row, fr_window_key row, mkPaneElement (row_value row) (fr_timestamp row)).

Definition window_key (w : BeamWindow) : bytes :=
  match to_binary_key (E:=string) w with Ok k => k | _ => [] end.

Definition window_entries (gk : bytes) (w : BeamWindow * list PaneElement) : list entry :=
  (λ el, (gk, window_key w.1, el)) <$> w.2.

Definition group_entries (g : KeyGroup) : list entry :=
  concat (window_entries (kg_encoded_key g) <$> kg_windows g).

(** The blocks of a group: its key with each of its windows. *)
Definition group_ids (g : KeyGroup) : list (bytes * bytes) :=
  (λ w, (kg_encoded_key g, window_key w.1)) <$> kg_windows g.

Record good_group (g : KeyGroup) : Prop := {
  gg_key : kg_encoded_key g = encoded_primitive_sort_key (kg_key g);
  gg_wf : wf_key (kg_key g);
  gg_windows : kg_windows g ≠ [];
  gg_timely : Forall (λ w, timely w.1 ∧ w.2 ≠ []) (kg_windows g);
  gg_blocks : neighbours_differ (group_ids g);
}.

Lemma timely_window_key w : timely w → to_binary_key (E:=string) w = Ok (window_key w).
Proof.
  intros Hw. destruct (timely_identity (E:=string) PVoid w Hw) as [i Hi].
  unfold group_identity, window_key in *. by destruct (to_binary_key w).
Qed.

Lemma row_window_key row key value w : row_ok row key value w → window_key w = fr_window_key row.
Proof. intros []. unfold window_key. by rewrite (to_from_binary_key (E:=string) _ _ ro_window0). Qed.

(** ** One row *)

Lemma push_element_spec gk w el ws :
  timely w → Forall (λ w : BeamWindow * list PaneElement, timely w.1 ∧ w.2 ≠ []) ws →
  neighbours_differ ((λ w : BeamWindow * list PaneElement, (gk, window_key w.1)) <$> ws) →
  ∃ ws', push_element w el ws = Ok ws' ∧ ws' ≠ []
    ∧ Forall (λ w : BeamWindow * list PaneElement, timely w.1 ∧ w.2 ≠ []) ws'
    ∧ neighbours_differ ((λ w : BeamWindow * list PaneElement, (gk, window_key w.1)) <$> ws')
    ∧ concat (window_entries gk <$> ws') = concat (window_entries gk <$> ws) ++ [(gk, window_key w, el)].
Proof.
  intros Hw Hws Hn. unfold push_element. destruct ws as [|[w0 els0] ws _] using rev_ind.
  { exists [(w, [el])]. split_and!; [done|done| |done|done]. by apply Forall_singleton. }
  rewrite last_snoc. apply Forall_app in Hws as [Hws Hl]. apply Forall_singleton in Hl as [Hw0 Hel].
  simpl in Hw0, Hel. rewrite (timely_window_key w0), (timely_window_key w) by done. cbn [mbind outcome_bind].
  case_decide as E.
  - rewrite List.removelast_last. eexists. split_and!; [done|by destruct ws| | |].
    + apply Forall_app. split; [done|]. apply Forall_singleton. simpl. split; [done|by destruct els0].
    + by rewrite fmap_app in *.
    + rewrite !fmap_app, !concat_app. simpl. rewrite !app_nil_r, <- app_assoc. f_equal.
      unfold window_entries. cbn [fst snd]. by rewrite fmap_app, E.
  - eexists. split_and!; [done|by destruct ws| | |].
    + rewrite !Forall_app, !Forall_singleton. by split_and!.
    + rewrite !fmap_app in *. simpl in *. rewrite <- app_assoc. simpl. apply neighbours_differ_snoc; [done|congruence].
    + rewrite !fmap_app, !concat_app. simpl. by rewrite !app_nil_r.
Qed.

Definition opt_entries (g : option KeyGroup) : list entry :=
  match g with Some g => group_entries g | None => [] end.

Lemma push_row_spec current row :
  good_row row → (∀ g, current = Some g → good_group g) →
  ∃ done g, push_row current row = Ok (done, g) ∧ good_group g ∧ kg_encoded_key g = fr_group_key row
    ∧ opt_entries done ++ group_entries g = opt_entries current ++ [row_entry row]
    ∧ match done with
      | Some d => current = Some d ∧ kg_encoded_key d ≠ kg_encoded_key g
      | None => ∀ c, current = Some c → kg_encoded_key c = kg_encoded_key g
      end.
Proof.
  intros (key & value & w & Hr) Hc. pose proof (row_window_key _ _ _ _ Hr) as Hwk. destruct Hr as [Hrec Hwin Hk Hwf Ht].
  assert (Hentry : row_entry row = (fr_group_key row, window_key w, mkPaneElement value (fr_timestamp row)))
    by (unfold row_entry, row_value; by rewrite Hrec, Hwk).
  unfold push_row. rewrite Hrec, Hwin.
  set (start := mkKeyGroup (fr_group_key row) key []).
  destruct (match current with Some g => _ | None => _ end) as [done g] eqn:Eg.
  assert (Hg : kg_encoded_key g = fr_group_key row ∧ kg_encoded_key g = encoded_primitive_sort_key (kg_key g)
    ∧ wf_key (kg_key g) ∧ Forall (λ w : BeamWindow * list PaneElement, timely w.1 ∧ w.2 ≠ []) (kg_windows g)
    ∧ neighbours_differ (group_ids g)
    ∧ opt_entries done ++ group_entries g = opt_entries current
    ∧ match done with
      | Some d => current = Some d ∧ kg_encoded_key d ≠ kg_encoded_key g
      | None => ∀ c, current = Some c → kg_encoded_key c = kg_encoded_key g
      end).
  { destruct current as [c|]; [case_decide as Hd|]; injection Eg as <- <-; simpl.
    - split_and!; try done; by rewrite ?app_nil_r.
    - destruct (Hc c eq_refl). split_and!; try done. by intros ? [= ->].
    - by split_and!. }
  destruct Hg as (Hgk & Hek & Hwfk & Hws & Hb & Hent & Hdone).
  destruct (push_element_spec (kg_encoded_key g) w (mkPaneElement value (fr_timestamp row)) (kg_windows g) Ht Hws Hb)
    as (ws' & -> & Hne & Hws' & Hb' & Hcat).
  cbn [mbind outcome_bind]. do 2 eexists. split; [done|]. split_and!; try done.
  rewrite Hentry, <- Hent, <- app_assoc. f_equal. unfold group_entries. simpl. by rewrite Hcat, Hgk.
Qed.

(** ** A batch, and all the batches of a bucket *)

Lemma push_batch_spec rows current :
  Forall good_row rows → (∀ g, current = Some g → good_group g) →
  ∃ done current', push_batch current rows = Ok (done, current')
    ∧ Forall good_group done ∧ (∀ g, current' = Some g → good_group g)
    ∧ concat (group_entries <$> done) ++ opt_entries current' = opt_entries current ++ (row_entry <$> rows)
    ∧ neighbours_differ (kg_encoded_key <$> done ++ opt_list current')
    ∧ (∀ g, current = Some g → ∃ g' gs, done ++ opt_list current' = g' :: gs ∧ kg_encoded_key g' = kg_encoded_key g).
Proof.
  intros Hr. revert current. induction Hr as [|row rows Hrow _ IH]; intros current Hc; cbn [push_batch].
  { exists [], current. split_and!; [done|constructor|done|by rewrite app_nil_r|by destruct current|].
    intros g ->. simpl. eauto. }
  destruct (push_row_spec current row Hrow Hc) as (d & g & -> & Hg & Hgk & Hent & Hd). cbn [mbind outcome_bind].
  destruct (IH (Some g)) as (done & cur & -> & Hdone & Hcur & Hcat & Hn & Hfirst); [by intros ? [= <-]|].
  cbn [mbind outcome_bind]. destruct (Hfirst g eq_refl) as (g' & gs & Eg' & Hg').
  exists (opt_list d ++ done), cur. split_and!; [by destruct d| |done| | |].
  - apply Forall_app. split; [|done]. destruct d as [d|]; [|constructor]. destruct Hd as [Hd _].
    apply Forall_singleton. by apply Hc.
  - rewrite fmap_app, concat_app, <- app_assoc, Hcat. cbn [opt_entries fmap list_fmap].
    rewrite (app_assoc _ (group_entries g)).
    replace (concat (group_entries <$> opt_list d)) with (opt_entries d) by (destruct d; simpl; by rewrite ?app_nil_r).
    by rewrite Hent, <- app_assoc.
  - rewrite <- app_assoc. destruct d as [d|]; [|done]. destruct Hd as [_ Hd]. cbn [opt_list app].
    rewrite Eg' in *. cbn [fmap list_fmap neighbours_differ] in *. split; [|done]. by rewrite Hg'.
  - intros c ->. rewrite <- app_assoc. destruct d as [d|].
    + destruct Hd as [[= ->] _]. simpl. eauto.
    + simpl. rewrite Eg'. exists g', gs. split; [done|]. rewrite Hg'. symmetry. by apply Hd.
Qed.

Lemma push_batch_app a b current :
  push_batch current (a ++ b) =
    '(d, c) ← push_batch current a; '(d', c') ← push_batch c b; Ok (d ++ d', c').
Proof.
  revert current. induction a as [|row a IH]; intros current; cbn [app push_batch].
  - cbn. by destruct (push_batch current b) as [[? ?]| |].
  - destruct (push_row current row) as [[d g]| |]; [|done..]. cbn [mbind outcome_bind]. rewrite IH.
    destruct (push_batch (Some g) a) as [[d1 c1]| |]; [|done..]. cbn [mbind outcome_bind].
    destruct (push_batch c1 b) as [[d2 c2]| |]; [|done..]. cbn. by rewrite app_assoc.
Qed.

(** All the groups the decoder yields for a bucket. *)
Fixpoint decode_all (current : option KeyGroup) (batches : list (list FlatRow)) : outcome string (list KeyGroup) :=
  match batches with
  | [] => Ok (opt_list current)
  | batch :: batches =>
      '(groups, current) ← push_batch current batch;
      rest ← decode_all current batches;
      Ok (groups ++ rest)
  end.

(** The batches play no role: decoding is decoding of the stream. *)
Lemma decode_all_concat batches current :
  decode_all current batches = '(d, c) ← push_batch current (concat batches); Ok (d ++ opt_list c).
Proof.
  revert current. induction batches as [|b batches IH]; intros current; cbn [decode_all concat]; [done|].
  rewrite push_batch_app. destruct (push_batch current b) as [[d c]| |]; [|done..]. cbn [mbind outcome_bind].
  rewrite IH. destruct (push_batch c (concat batches)) as [[d' c']| |]; [|done..]. cbn. by rewrite app_assoc.
Qed.

Lemma decode_all_spec batches :
  Forall good_row (concat batches) →
  ∃ gs, decode_all None batches = Ok gs ∧ Forall good_group gs
    ∧ concat (group_entries <$> gs) = row_entry <$> concat batches
    ∧ neighbours_differ (kg_encoded_key <$> gs).
Proof.
  intros Hr. destruct (push_batch_spec _ None Hr ltac:(done)) as (done & c & E & Hd & Hc & Hcat & Hn & _).
  exists (done ++ opt_list c). rewrite decode_all_concat, E. split_and!; [done| | |done].
  - apply Forall_app. split; [done|]. destruct c as [c|]; [|constructor]. apply Forall_singleton. by apply Hc.
  - rewrite fmap_app, concat_app. simpl in Hcat. rewrite <- Hcat. f_equal. destruct c; simpl; by rewrite ?app_nil_r.
Qed.

(** ** Sorted rows are grouped by key and window *)

Lemma StronglySorted_sub {A} (R : relation A) l k : sublist l k → StronglySorted R k → StronglySorted R l.
Proof.
  induction 1 as [|x l k Hs IH|x l k Hs IH]; intros H; [constructor| |]; inversion H as [|? ? Hk Hx]; subst.
  - constructor; [by apply IH|]. rewrite Forall_forall in *. intros y Hy. apply Hx. by eapply elem_of_sublist.
  - by apply IH.
Qed.

Lemma sublist_concat {A} (ls ks : list (list A)) : Forall2 sublist ls ks → sublist (concat ls) (concat ks).
Proof. induction 1; simpl; [done|]. by apply sublist_app. Qed.

(** A block stands for at least one entry. *)
Lemma group_ids_entries g : good_group g → sublist (group_ids g) (fst <$> group_entries g).
Proof.
  intros [_ _ _ Ht _]. unfold group_ids, group_entries. induction Ht as [|[w els] ws [_ Hel] _ IH]; [done|].
  cbn [fmap list_fmap concat] in *. rewrite fmap_app. simpl in Hel. destruct els as [|el els]; [done|].
  unfold window_entries at 1. cbn [fst snd fmap list_fmap app]. apply sublist_skip.
  by apply sublist_inserts_l.
Qed.

Lemma groups_sorted gs :
  Forall good_group gs → StronglySorted id_le (fst <$> concat (group_entries <$> gs)) →
  neighbours_differ (kg_encoded_key <$> gs) →
  NoDup (kg_encoded_key <$> gs) ∧ NoDup (concat (group_ids <$> gs)).
Proof.
  intros Hg Hs Hn.
  assert (Hsub : sublist (concat (group_ids <$> gs)) (fst <$> concat (group_entries <$> gs))).
  { clear -Hg. induction Hg as [|g gs Hg _ IH]; [done|]. cbn [fmap list_fmap concat]. rewrite fmap_app.
    apply sublist_app; [by apply group_ids_entries|done]. }
  apply (StronglySorted_sub _ _ _ Hsub) in Hs. clear Hsub.
  assert (Hkeys : NoDup (kg_encoded_key <$> gs)).
  { apply (sorted_differ_NoDup bytes_le); [|done]. apply (StronglySorted_fmap fst _ bytes_le) in Hs; [|apply id_le_key].
    eapply StronglySorted_sub; [|exact Hs]. clear -Hg. induction Hg as [|g gs Hg _ IH]; [done|].
    cbn [fmap list_fmap concat]. rewrite fmap_app. unfold group_ids.
    destruct (kg_windows g) as [|w ws] eqn:E; [by destruct (gg_windows g Hg)|]. cbn [fmap list_fmap app fst].
    apply sublist_skip. by apply sublist_inserts_l. }
  split; [done|]. clear Hn. revert Hs Hkeys. induction Hg as [|g gs Hg Hgs IH]; intros Hs Hkeys; [constructor|].
  cbn [fmap list_fmap concat] in *. apply NoDup_cons in Hkeys as [Hk Hkeys]. apply NoDup_app. split_and!.
  - apply (sorted_differ_NoDup id_le); [|apply Hg]. eapply StronglySorted_sub; [|exact Hs]. by apply sublist_inserts_r.
  - intros [gk wk] Hin Hin'. apply Hk.
    apply list_elem_of_fmap in Hin as (w & [= -> _] & _). apply list_elem_of_In, in_concat in Hin' as (l & Hl & Hin').
    apply list_elem_of_In, list_elem_of_fmap in Hl as (g' & -> & Hg').
    apply list_elem_of_In, list_elem_of_fmap in Hin' as (w' & [= E _] & _).
    apply list_elem_of_fmap. by exists g'.
  - apply IH; [|done]. eapply StronglySorted_sub; [|exact Hs]. by apply sublist_inserts_l.
Qed.

(** Decoding a sorted stream, in whatever batches, yields every key once and every
    window of a key once, with the rows of that key and window in order. *)
Lemma decode_sorted batches :
  Forall good_row (concat batches) → StronglySorted id_le (row_id <$> concat batches) →
  ∃ gs, decode_all None batches = Ok gs ∧ Forall good_group gs
    ∧ NoDup (kg_encoded_key <$> gs) ∧ NoDup (concat (group_ids <$> gs))
    ∧ concat (group_entries <$> gs) = row_entry <$> concat batches.
Proof.
  intros Hr Hs. destruct (decode_all_spec batches Hr) as (gs & E & Hg & Hcat & Hn).
  destruct (groups_sorted gs Hg) as [H1 H2]; [|done|by exists gs; split_and!].
  rewrite Hcat, <- list_fmap_compose. exact Hs.
Qed.

(** * Sessions: merging interval windows

    Two intervals overlap when they share an instant; two groups belong to one session
    when a chain of overlapping intervals links them. *)
Definition overlaps (a b : interval) : Prop :=
  let '((s, e), _) := a in let '((s', e'), _) := b in (s < e' ∧ s' < e)%Z.

(** The session of a list of intervals: from the first start to the last end, with
    the elements of all. *)
Definition session (key : PrimitiveValue) (run : list interval) (g : group) : Prop :=
  ∃ s e, g = (key, IntervalWindow s e, concat (run.*2))
    ∧ Forall (λ i, s ≤ i.1.1 ∧ i.1.2 ≤ e)%Z run
    ∧ (∃ i, i ∈ run ∧ i.1.1 = s) ∧ (∃ i, i ∈ run ∧ i.1.2 = e).

(** Every interval after the first overlaps an earlier one. *)
Inductive linked : list interval → Prop :=
| linked_one i : linked [i]
| linked_snoc run i : linked run → (∃ j, j ∈ run ∧ overlaps j i) → linked (run ++ [i]).

Definition proper (i : interval) : Prop := (i.1.1 < i.1.2)%Z.

Lemma interval_le_total a b : interval_le a b = true ∨ interval_le b a = true.
Proof.
  destruct a as [[s e] v], b as [[s' e'] v']. unfold interval_le. destruct (Z.lt_total s s') as [H|[->|H]].
  - left. by rewrite (proj2 (Z.ltb_lt _ _) H).
  - rewrite Z.ltb_irrefl, Z.eqb_refl. simpl. rewrite !Z.leb_le. lia.
  - right. by rewrite (proj2 (Z.ltb_lt _ _) H).
Qed.

Lemma interval_le_start a b : interval_le a b = true → (a.1.1 ≤ b.1.1)%Z.
Proof.
  destruct a as [[s e] v], b as [[s' e'] v']. unfold interval_le. simpl.
  rewrite orb_true_iff, andb_true_iff, Z.ltb_lt, Z.eqb_eq. lia.
Qed.

Lemma interval_le_trans a b c : interval_le a b = true → interval_le b c = true → interval_le a c = true.
Proof.
  destruct a as [[s e] v], b as [[s' e'] v'], c as [[s2 e2] v2]. unfold interval_le.
  rewrite !orb_true_iff, !andb_true_iff, !Z.ltb_lt, !Z.eqb_eq, !Z.leb_le. lia.
Qed.

(** The sweep cuts the sorted list into linked runs that do not touch each other's
    instants. *)
(** Every interval of the first run ends before those of the second start. *)
Definition apart (a b : list interval) : Prop := ∀ i j, i ∈ a → j ∈ b → (i.1.2 ≤ j.1.1)%Z.

(** The sweep cuts the sorted list into linked runs that lie apart. *)
Lemma merge_sorted_spec key start fin values rest run :
  linked run → session key run (key, IntervalWindow start fin, values) →
  Forall proper rest → StronglySorted (λ a b, (a.1.1 ≤ b.1.1)%Z) (run ++ rest) →
  ∃ runs, Forall2 (session key) runs (merge_sorted key start fin values rest)
    ∧ concat runs = run ++ rest ∧ Forall linked runs ∧ StronglySorted apart runs.
Proof.
  revert start fin values run. induction rest as [|[[ns ne] nv] rest IH]; intros start fin values run Hl Hs Hp Hsort;
    cbn [merge_sorted].
  { exists [run]. split_and!; [by repeat constructor|done|by repeat constructor|repeat constructor]. }
  destruct Hs as (s & e & [= <- <- ->] & Hb & Hfirst & Hlast).
  apply Forall_cons in Hp as [Hpn Hp]. unfold proper in Hpn. simpl in Hpn.
  apply StronglySorted_app in Hsort as (Hcross & Hrun & Hrest).
  assert (Hle : ∀ i, i ∈ run → (i.1.1 ≤ ns)%Z).
  { intros i Hi. apply (Hcross i (ns, ne, nv)); [done|by left]. }
  destruct (Z.ltb_spec ns fin) as [Hlt|Hge].
  - destruct (IH start (Z.max fin ne) (concat (run.*2) ++ nv) (run ++ [(ns, ne, nv)])) as (runs & H1 & H2 & H3 & H4).
    + constructor; [done|]. destruct Hlast as (j & Hj & Hje). exists j. split; [done|].
      specialize (Hle j Hj). destruct j as [[js je] jv]. simpl in *. lia.
    + exists start, (Z.max fin ne). split_and!.
      * by rewrite fmap_app, concat_app; simpl; rewrite app_nil_r.
      * apply Forall_app. split.
        -- eapply Forall_impl; [exact Hb|]. simpl. intros i Hi. lia.
        -- apply Forall_singleton. simpl. destruct Hfirst as (i & Hi & Hi'). specialize (Hle i Hi). lia.
      * destruct Hfirst as (i & Hi & Hi'). exists i. split; [apply elem_of_app; by left|done].
      * destruct (Z.max_spec fin ne) as [[_ ->]|[_ ->]].
        -- exists (ns, ne, nv). split; [apply elem_of_app; right; by left|done].
        -- destruct Hlast as (j & Hj & Hje). exists j. split; [apply elem_of_app; by left|done].
    + done.
    + rewrite <- app_assoc. simpl. apply StronglySorted_app. by split_and!.
    + exists runs. rewrite <- app_assoc in H2. by split_and!.
  - destruct (IH ns ne nv [(ns, ne, nv)]) as (runs & H1 & H2 & H3 & H4); [constructor| |done|done|].
    { exists ns, ne. simpl. rewrite app_nil_r. split_and!; [done|by apply Forall_singleton|..];
        exists (ns, ne, nv); by split; [left|]. }
    exists (run :: runs). split_and!.
    + constructor; [|done]. exists start, fin. by split_and!.
    + simpl. by rewrite H2.
    + by constructor.
    + constructor; [done|]. apply Forall_forall. intros r Hr i j Hi Hj.
      assert (Hin : j ∈ concat runs) by (rewrite list_elem_of_In, in_concat; exists r; by rewrite <- !list_elem_of_In).
      rewrite H2 in Hin. rewrite Forall_forall in Hb. destruct (Hb i Hi) as [_ Hie].
      apply elem_of_cons in Hin as [->|Hin]; [simpl; lia|].
      inversion Hrest as [|? ? _ Hall]; subst. rewrite Forall_forall in Hall. specialize (Hall j Hin). simpl in Hall. lia.
Qed.

(** What a partition of the intervals of a key into sessions is. *)
Record sessions (key : PrimitiveValue) (ws : list interval) (runs : list (list interval)) (out : list group) : Prop := {
  ss_sessions : Forall2 (session key) runs out;
  ss_all : concat runs ≡ₚ ws;
  ss_linked : Forall linked runs;
  ss_apart : StronglySorted apart runs;
}.

(** The intervals of a key group, when all its windows are intervals. *)
Definition intervals_of (g : KeyGroup) : list interval :=
  omap (λ w : BeamWindow * list PaneElement,
    match w.1 with IntervalWindow s e => Some (s, e, w.2) | _ => None end) (kg_windows g).

Lemma merge_interval_groups_spec key_debug string_order g :
  (∀ X, string_order X ≡ₚ elements X) → Forall (λ w : BeamWindow * list PaneElement, is_interval w.1 = true) (kg_windows g) →
  Forall proper (intervals_of g) →
  ∃ runs out, merge_interval_groups key_debug string_order (groups_of g) = Ok out
    ∧ sessions (kg_key g) (intervals_of g) runs out.
Proof.
  intros Ho Hi Hp. unfold merge_interval_groups.
  assert (Hby : ∀ ws key l m, Forall (λ w : BeamWindow * list PaneElement, is_interval w.1 = true) ws →
    m = <[key_debug key := (key, l)]> (∅ : gmap string (PrimitiveValue * list interval)) →
    intervals_by_key key_debug ((λ w : BeamWindow * list PaneElement, (key, w.1, w.2)) <$> ws) m
    = Ok (<[key_debug key := (key, l ++ omap (λ w : BeamWindow * list PaneElement,
        match w.1 with IntervalWindow s e => Some (s, e, w.2) | _ => None end) ws)]> ∅)).
  { intros ws key. induction ws as [|[w els] ws IH]; intros l m Hw ->; simpl; [by rewrite app_nil_r|].
    apply Forall_cons in Hw as [Hw Hws]. simpl in Hw. destruct w as [|s e|]; try done.
    rewrite lookup_insert_eq. simpl. rewrite (IH (l ++ [(s, e, els)])); [by rewrite <- app_assoc|done|].
    by rewrite insert_insert_eq. }
  unfold groups_of, intervals_of in *. destruct (kg_windows g) as [|[w els] ws] eqn:Ews.
  { exists [], []. simpl. cbn [intervals_by_key mbind outcome_bind]. rewrite dom_empty_L.
    assert (string_order ∅ = []) as -> by (apply Permutation_nil_r; by rewrite Ho, elements_empty).
    split; [done|]. constructor; constructor. }
  apply Forall_cons in Hi as [Hw Hi]. simpl in Hw. destruct w as [|s e|]; try done.
  cbn [fmap list_fmap fst snd intervals_by_key]. rewrite lookup_empty. cbn [default from_option fst snd app].
  rewrite (Hby ws (kg_key g) [(s, e, els)]) by done. cbn [mbind outcome_bind].
  rewrite dom_insert_L, dom_empty_L, union_empty_r_L.
  assert (string_order {[key_debug (kg_key g)]} = [key_debug (kg_key g)]) as ->
    by (apply Permutation_singleton_r; by rewrite Ho, elements_singleton).
  cbn [fmap list_fmap concat]. rewrite lookup_insert_eq, app_nil_r. cbn [app].
  change (omap _ ((IntervalWindow s e, els) :: ws)) with ([(s, e, els)] ++ omap (λ w : BeamWindow * list PaneElement,
        match w.1 with IntervalWindow s e => Some (s, e, w.2) | _ => None end) ws) in *.
  cbn [app] in *. set (all := (s, e, els) :: _) in *. clearbody all.
  pose proof (sort_by_perm interval_le all) as Hperm.
  pose proof (sort_by_ordered interval_le interval_le_total interval_le_trans all) as Hsort.
  destruct (sort_by interval_le all) as [|[[s0 e0] v0] rest].
  { exists [], []. split; [done|]. constructor; [constructor|done|constructor..]. }
  destruct (merge_sorted_spec (kg_key g) s0 e0 v0 rest [(s0, e0, v0)]) as (runs & H1 & H2 & H3 & H4).
  - constructor.
  - exists s0, e0. simpl. rewrite app_nil_r. split_and!; [done|by apply Forall_singleton|..];
      exists (s0, e0, v0); by split; [left|].
  - rewrite <- Hperm in Hp. by inversion Hp.
  - simpl. eapply (StronglySorted_fmap (λ x, x)) in Hsort; [rewrite list_fmap_id in Hsort; exact Hsort|apply interval_le_start].
  - exists runs, (merge_sorted (kg_key g) s0 e0 v0 rest). split; [done|]. constructor; try done. by rewrite H2.
Qed.

(** The sessions are the classes of intervals linked by overlaps. *)
Definition overlap_in (ws : list interval) (i j : interval) : Prop := i ∈ ws ∧ j ∈ ws ∧ overlaps i j.

Lemma overlaps_sym i j : overlaps i j → overlaps j i.
Proof. destruct i as [[? ?] ?], j as [[? ?] ?]. simpl. tauto. Qed.

Lemma linked_rtc ws run i j :
  linked run → (∀ k, k ∈ run → k ∈ ws) → i ∈ run → j ∈ run → rtc (overlap_in ws) i j.
Proof.
  intros Hl. revert i j. induction Hl as [k|run k Hl IH (m & Hm & Hmk)]; intros i j Hw Hi Hj.
  - apply list_elem_of_singleton in Hi, Hj. by subst.
  - assert (Hw' : ∀ k, k ∈ run → k ∈ ws) by (intros; apply Hw, elem_of_app; by left).
    assert (Hk : k ∈ ws) by (apply Hw, elem_of_app; right; by left).
    assert (Hto : rtc (overlap_in ws) m k) by (apply rtc_once; split_and!; auto).
    assert (Hfrom : rtc (overlap_in ws) k m) by (apply rtc_once; split_and!; auto using overlaps_sym).
    apply elem_of_app in Hi as [Hi|Hi%list_elem_of_singleton], Hj as [Hj|Hj%list_elem_of_singleton]; subst; eauto using rtc_trans.
Qed.

Lemma sessions_same_run key ws runs out i j :
  sessions key ws runs out → overlaps i j →
  ∀ a b, a ∈ runs → b ∈ runs → i ∈ a → j ∈ b → a = b.
Proof.
  intros [_ _ _ Hap] Ho. induction Hap as [|r runs Hs IH Hr]; intros a b Ha Hb Hi Hj; [by apply elem_of_nil in Ha|].
  rewrite Forall_forall in Hr. apply elem_of_cons in Ha as [->|Ha], Hb as [->|Hb]; auto.
  - specialize (Hr b Hb i j Hi Hj). destruct i as [[? ?] ?], j as [[? ?] ?]. simpl in *. lia.
  - specialize (Hr a Ha j i Hj Hi). destruct i as [[? ?] ?], j as [[? ?] ?]. simpl in *. lia.
Qed.

Lemma sessions_classes key ws runs out i j :
  sessions key ws runs out → i ∈ ws →
  (rtc (overlap_in ws) i j ↔ ∃ run, run ∈ runs ∧ i ∈ run ∧ j ∈ run).
Proof.
  intros Hs Hi.
  assert (Hin : ∀ k, k ∈ ws ↔ ∃ run, run ∈ runs ∧ k ∈ run).
  { intros k. rewrite <- (ss_all _ _ _ _ Hs), list_elem_of_In, in_concat. setoid_rewrite <- list_elem_of_In. done. }
  split.
  - intros H. induction H as [i|i k j (_ & Hk & Ho) _ IH].
    + apply Hin in Hi as (run & ? & ?). eauto.
    + destruct (IH Hk) as (run & Hr & Hkr & Hjr). apply Hin in Hi as (run' & Hr' & Hir').
      destruct (sessions_same_run _ _ _ _ _ _ Hs Ho run' run Hr' Hr Hir' Hkr) as []. eauto.
  - intros (run & Hr & Hir & Hjr). apply (linked_rtc ws run); try done.
    + pose proof (ss_linked _ _ _ _ Hs) as Hl. rewrite Forall_forall in Hl. by apply Hl.
    + intros k Hk. apply Hin. eauto.
Qed.

(** * Windows merged by the SDK *)

Lemma wf_window_key w : wf_window w → to_binary_key (E:=string) w = Ok (window_key w).
Proof.
  intros Hw. unfold window_key, to_binary_key. destruct w as [|s e|id data]; [done..|].
  destruct Hw as (_ & [_ Hl] & _). apply Z.ltb_lt in Hl. by rewrite Hl.
Qed.

Lemma window_key_inj a b : wf_window a → wf_window b → window_key a = window_key b → a = b.
Proof.
  intros Ha Hb H. pose proof (wf_window_key a Ha) as Ka. pose proof (wf_window_key b Hb) as Kb.
  apply (from_to_binary_key a) in Ka; [|done]. apply (from_to_binary_key b) in Kb; [|done]. congruence.
Qed.

(** The window an answer merges a window into. *)
Definition merged_into (ms : list MergedWindows) (w w' : BeamWindow) : Prop :=
  ∃ m, m ∈ ms ∧ w ∈ originals m ∧ merged m = w'.

Lemma foldl_insert_map {A} (l : list (bytes * A)) (m : gmap bytes A) :
  NoDup (l.*1) → foldl (λ m p, <[p.1 := p.2]> m) m l = list_to_map l ∪ m.
Proof.
  revert m. induction l as [|[k a] l IH]; intros m H; [cbn; by rewrite (left_id_L ∅ (∪))|cbn [foldl]].
  rewrite fmap_cons, NoDup_cons in H. destruct H as [Hk H]. rewrite IH by done. cbn [list_to_map foldr uncurry fst snd].
  rewrite <- insert_union_l. rewrite insert_union_r by (by apply not_elem_of_list_to_map_1). done.
Qed.

Lemma originals_to_merged_spec ms :
  NoDup (concat (originals <$> ms)) → Forall wf_window (concat (originals <$> ms)) →
  ∃ m, originals_to_merged ms = Ok m
    ∧ ∀ w w', wf_window w → (m !! window_key w = Some w' ↔ merged_into ms w w').
Proof.
  intros Hn Hw. unfold originals_to_merged.
  set (pairs := concat ((λ r, (λ original, (original, merged r)) <$> originals r) <$> ms)).
  assert (Hfst : pairs.*1 = concat (originals <$> ms)).
  { unfold pairs. clear. induction ms as [|r ms IH]; [done|]. cbn [fmap list_fmap concat]. rewrite fmap_app, IH. f_equal.
    rewrite <- list_fmap_compose. apply list_fmap_id. }
  assert (Hin : ∀ w w', (w, w') ∈ pairs ↔ merged_into ms w w').
  { intros w w'. unfold pairs, merged_into. rewrite list_elem_of_In, in_concat. setoid_rewrite <- list_elem_of_In.
    setoid_rewrite list_elem_of_fmap. split.
    - intros (l & (r & -> & Hr) & Hl). apply list_elem_of_fmap in Hl as (o & [= -> ->] & Ho). eauto.
    - intros (r & Hr & Ho & <-). eexists. split; [by exists r|]. apply list_elem_of_fmap. eauto. }
  rewrite <- Hfst in Hn, Hw. rewrite Forall_fmap in Hw.
  assert (E : traverse (E:=string) (λ p : BeamWindow * BeamWindow, k ← to_binary_key p.1; Ok (k, p.2)) pairs
    = Ok ((λ p : BeamWindow * BeamWindow, (window_key p.1, p.2)) <$> pairs)).
  { clear -Hw. induction Hw as [|[w w'] pairs Hp _ IH]; [done|]. cbn [traverse fst snd]. cbn [fst] in Hp.
    rewrite (wf_window_key w Hp). cbn [mbind outcome_bind]. by rewrite IH. }
  rewrite E. cbn [mbind outcome_bind]. eexists. split; [done|]. intros w w' Hww.
  assert (Hnd : NoDup (((λ p : BeamWindow * BeamWindow, (window_key p.1, p.2)) <$> pairs).*1)).
  { rewrite <- list_fmap_compose. clear -Hn Hw. induction pairs as [|[a b] pairs IH]; [constructor|].
    rewrite fmap_cons in Hn. apply NoDup_cons in Hn as [Hx Hn]. rewrite fmap_cons, NoDup_cons. apply Forall_cons in Hw as [Ha Hw].
    split; [|by apply IH]. intros Hin. apply Hx. apply list_elem_of_fmap in Hin as ([c d] & Ec & Hin). simpl in Ec.
    rewrite Forall_forall in Hw. apply (window_key_inj a c Ha (Hw _ Hin)) in Ec as ->.
    apply list_elem_of_fmap. by exists (c, d). }
  rewrite foldl_insert_map by done. rewrite (right_id_L ∅ (∪)), <- Hin. rewrite Forall_forall in Hw. split.
  - intros H. apply elem_of_list_to_map_2, list_elem_of_fmap in H as ([a b] & [= Ek ->] & Hab).
    apply (window_key_inj w a Hww (Hw _ Hab)) in Ek as ->. done.
  - intros H. apply elem_of_list_to_map_1; [done|]. apply list_elem_of_fmap. by exists (w, w').
Qed.

(** The elements the windows of [ws] bring to [w] when [target] says where they go. *)
Definition brought (target : BeamWindow → BeamWindow) (w : BeamWindow) (ws : WindowValues) : list PaneElement :=
  concat ((λ x : BeamWindow * list PaneElement, if decide (target x.1 = w) then x.2 else []) <$> ws).

Lemma regroup_spec otm target ws done groups :
  Forall (λ w, wf_window w ∧ wf_window (target w) ∧ otm !! window_key w = Some (target w)) (ws.*1) →
  Forall (λ w, wf_window (target w)) (done.*1) →
  (∀ k w vs, groups !! k = Some (w, vs) ↔ k = window_key w ∧ w ∈ target <$> done.*1 ∧ vs = brought target w done) →
  ∃ groups', regroup otm ws groups = Ok groups'
    ∧ ∀ k w vs, groups' !! k = Some (w, vs)
        ↔ k = window_key w ∧ w ∈ target <$> (done ++ ws).*1 ∧ vs = brought target w (done ++ ws).
Proof.
  revert done groups. induction ws as [|[o v] ws IH]; intros dn groups Hws Hd Hg; cbn [regroup].
  { exists groups. by rewrite app_nil_r. }
  apply Forall_cons in Hws as [(Ho & Ht & Hl) Hws]. cbn [fst] in Ho, Ht, Hl. rewrite (wf_window_key o Ho).
  cbn [mbind outcome_bind]. rewrite Hl, (wf_window_key _ Ht). cbn [mbind outcome_bind].
  destruct (IH (dn ++ [(o, v)]) (<[window_key (target o) := (target o, brought target (target o) dn ++ v)]> groups)) as (g' & E & Hg').
  - done.
  - rewrite fmap_app. apply Forall_app. split; [done|]. by apply Forall_singleton.
  - assert (Hb : ∀ w, brought target w (dn ++ [(o, v)]) = brought target w dn ++ if decide (target o = w) then v else []).
    { intros w. unfold brought. rewrite fmap_app, concat_app. simpl. by rewrite app_nil_r. }
    intros k w vs. rewrite Hb, fmap_app, fmap_app, elem_of_app.
    destruct (decide (k = window_key (target o))) as [->|Hk].
    + rewrite lookup_insert_eq. split.
      * intros [= <- <-]. rewrite decide_True by done. split_and!; [done|right; by left|done].
      * intros (Hk & Hin & ->).
        assert (wf_window w) as Hww.
        { destruct Hin as [Hin|Hin]; [|by apply list_elem_of_singleton in Hin as ->].
          apply list_elem_of_fmap in Hin as (u & -> & Hu). rewrite Forall_forall in Hd. by apply Hd. }
        apply (window_key_inj _ _ Ht Hww) in Hk as <-. by rewrite decide_True.
    + rewrite lookup_insert_ne by done. rewrite Hg. split.
      * intros (-> & Hin & ->). rewrite decide_False by congruence. rewrite app_nil_r. auto.
      * intros (-> & Hin & ->). rewrite decide_False by congruence. rewrite app_nil_r. split_and!; [done| |done].
        destruct Hin as [Hin|Hin]; [done|]. by apply list_elem_of_singleton in Hin as ->.
  - rewrite <- app_assoc in Hg'. exists g'. split; [|exact Hg']. rewrite <- E. f_equal. f_equal.
    destruct (groups !! window_key (target o)) as [[w vs]|] eqn:Eg; cbn [default from_option fst snd].
    + pose proof (proj1 (Hg _ _ _) Eg) as (Hk & Hin & ->).
      assert (wf_window w) as Hww by (apply list_elem_of_fmap in Hin as (u & -> & Hu); rewrite Forall_forall in Hd; by apply Hd).
      by apply (window_key_inj _ _ Ht Hww) in Hk as <-.
    + assert (Hnone : brought target (target o) dn = []); [|by rewrite Hnone].
      unfold brought. clear -Eg Hg. assert (Hn : target o ∉ target <$> dn.*1).
      { intros Hin. assert (Hs : groups !! window_key (target o) = Some (target o, brought target (target o) dn)) by (by apply Hg).
        by rewrite Eg in Hs. }
      clear -Hn. induction dn as [|[u vs] dn IH]; [done|]. cbn [fmap list_fmap concat fst] in *.
      apply not_elem_of_cons in Hn as [Hu Hn]. rewrite decide_False by done. by apply IH.
Qed.

(** The groups of a key after the SDK merged its windows: one per merged window, each
    with the elements of the windows merged into it, in their order. *)
Lemma apply_merge_results_spec bytes_order key ws ms target :
  (∀ X, bytes_order X ≡ₚ elements X) → partitions (ws.*1) ms →
  Forall wf_window (ws.*1) → Forall (λ m, wf_window (merged m)) ms →
  (∀ w, w ∈ ws.*1 → merged_into ms w (target w)) →
  ∃ out, apply_merge_results bytes_order key ws ms = Ok out ∧ NoDup (out.*1.*2)
    ∧ (∀ w, w ∈ out.*1.*2 ↔ w ∈ target <$> ws.*1)
    ∧ Forall (λ g : group, g.1.1 = key ∧ g.2 = brought target g.1.2 ws) out.
Proof.
  intros Ho [_ Hnd Hsame] Hw Hm Ht. unfold apply_merge_results.
  destruct (originals_to_merged_spec ms Hnd) as (otm & -> & Hotm).
  { apply Forall_forall. intros w Hin. rewrite Forall_forall in Hw. apply Hw. by apply Hsame. }
  cbn [mbind outcome_bind].
  destruct (regroup_spec otm target ws [] ∅) as (groups & -> & Hg).
  - rewrite Forall_forall in *. intros w Hin. split_and!; [by apply Hw| |apply Hotm; [by apply Hw|by apply Ht]].
    destruct (Ht w Hin) as (m & Hmin & _ & <-). rewrite Forall_forall in Hm. by apply Hm.
  - constructor.
  - intros k w vs. rewrite lookup_empty. split; [done|]. intros (_ & Hin & _). by apply elem_of_nil in Hin.
  - cbn [mbind outcome_bind app] in *. eexists. split; [done|].
    assert (Hdom : ∀ k, k ∈ bytes_order (dom groups) ↔ is_Some (groups !! k))
      by (intros k; by rewrite Ho, elem_of_elements, elem_of_dom).
    assert (Hndk : NoDup (bytes_order (dom groups))) by (rewrite Ho; apply NoDup_elements).
    revert Hdom Hndk. generalize (bytes_order (dom groups)) as ks. intros ks Hdom Hndk.
    set (out := omap _ ks).
    assert (Hin : ∀ g, g ∈ out ↔ ∃ w vs, g = (key, w, vs) ∧ groups !! window_key w = Some (w, vs)).
    { intros g. unfold out. rewrite list_elem_of_omap. split.
      - intros (k & _ & E). destruct (groups !! k) as [[w vs]|] eqn:Eg; [|done]. injection E as <-.
        pose proof (proj1 (Hg _ _ _) Eg) as (-> & _). eauto.
      - intros (w & vs & -> & E). exists (window_key w). split; [by apply Hdom|]. by rewrite E. }
    split_and!.
    + assert (Hsub : sublist (window_key <$> out.*1.*2) ks).
      { unfold out. clear -Hg. induction ks as [|k ks IH]; [done|]. cbn [omap list_omap].
        destruct (groups !! k) as [[w vs]|] eqn:Eg; cbn [fmap option_fmap option_map]; [|by apply sublist_cons].
        pose proof (proj1 (Hg _ _ _) Eg) as (-> & _). cbn [fmap list_fmap fst snd]. by apply sublist_skip. }
      apply (sublist_NoDup _ _ Hndk) in Hsub. by apply NoDup_fmap_1 in Hsub.
    + intros w. rewrite list_elem_of_fmap. split.
      * intros ([k' w'] & -> & Hg'). apply list_elem_of_fmap in Hg' as ([[k2 w2] vs] & [= -> ->] & Hg').
        apply Hin in Hg' as (w3 & vs3 & [= -> -> ->] & E). by apply Hg in E as (_ & ? & _).
      * intros Hww. assert (E : groups !! window_key w = Some (w, brought target w ws)) by (by apply Hg).
        exists (key, w). split; [done|]. apply list_elem_of_fmap. exists (key, w, brought target w ws).
        split; [done|]. apply Hin. eauto.
    + apply Forall_forall. intros g Hg'. apply Hin in Hg' as (w & vs & -> & E). split; [done|].
      by apply Hg in E as (_ & _ & ->).
Qed.
