(* ===== verification/GbkRunSpec.v ===== *)
(** A whole run of group-by-key: it drops the rows that are late and takes in the others,
    it succeeds, every element of every row taken in ends up in exactly one pane or in the
    state of its group, and no group whose window is over is left in the state. *)
From S2P Require Import Prelude Bytes Varint Windows Coders Trigger WindowMerge Gbk GbkSpec.
From S2P Require Import GbkInput GbkInputSpec.
From S2P Require RecordTables.
Set Warnings "-clear-no-such-hyp".

(** * What rows and groups contribute *)

Definition entry_values (i : GroupIdentity) (es : list entry) : list BeamRecord :=
  omap (λ e : entry, if decide (e.1 = (gi_key i, gi_window i)) then Some (pe_value e.2) else None) es.

Definition group_values (i : GroupIdentity) (g : group) : list BeamRecord :=
  if decide (group_identity (E:=string) g.1.1 g.1.2 = Ok i) then pe_value <$> g.2 else [].

Definition groups_values (i : GroupIdentity) (gs : list group) : list BeamRecord := concat (group_values i <$> gs).

Lemma entry_values_app i a b : entry_values i (a ++ b) = entry_values i a ++ entry_values i b.
Proof. apply omap_app. Qed.

Lemma groups_values_app i a b : groups_values i (a ++ b) = groups_values i a ++ groups_values i b.
Proof. unfold groups_values. by rewrite fmap_app, concat_app. Qed.

#[export] Instance entry_values_perm i : Proper ((≡ₚ) ==> (≡ₚ)) (entry_values i).
Proof. intros a b H. unfold entry_values. by rewrite H. Qed.

Lemma window_entries_values i g w :
  kg_encoded_key g = encoded_primitive_sort_key (kg_key g) → timely w.1 →
  entry_values i (window_entries (kg_encoded_key g) w) = group_values i (kg_key g, w.1, w.2).
Proof.
  intros Hk Hw. unfold group_values, window_entries. cbn [fst snd].
  assert (Hi : group_identity (E:=string) (kg_key g) w.1 = Ok (mkIdentity (kg_encoded_key g) (window_key w.1)))
    by (unfold group_identity; by rewrite (timely_window_key _ Hw), Hk).
  rewrite Hi. induction w.2 as [|el els IH]; [by case_decide|].
  change (entry_values i (?f <$> el :: els)) with
    (match (if decide ((kg_encoded_key g, window_key w.1) = (gi_key i, gi_window i)) then Some (pe_value el) else None)
     with Some v => v :: entry_values i (f <$> els) | None => entry_values i (f <$> els) end).
  rewrite IH. destruct i as [gk wk]. cbn [gi_key gi_window].
  case_decide as H; case_decide as H'; try done.
  - destruct H'. congruence.
  - destruct H. congruence.
Qed.

Lemma group_entries_values i g :
  good_group g → entry_values i (group_entries g) = groups_values i (groups_of g).
Proof.
  intros [Hk _ _ Ht _]. unfold group_entries, groups_values, groups_of. induction Ht as [|w ws [Hw _] _ IH]; [done|].
  cbn [fmap list_fmap concat]. rewrite entry_values_app, IH. f_equal. by apply window_entries_values.
Qed.

Lemma good_groups_timely gs : Forall good_group gs → Forall (λ g : group, timely g.1.2) (concat (groups_of <$> gs)).
Proof.
  induction 1 as [|g gs Hg _ IH]; [constructor|]. cbn [fmap list_fmap concat]. apply Forall_app. split; [|done].
  unfold groups_of. apply Forall_fmap. eapply Forall_impl; [apply Hg|]. by intros w [Hw _].
Qed.

Lemma groups_count gs :
  Forall good_group gs → length (concat (groups_of <$> gs)) ≤ length (concat (group_entries <$> gs)).
Proof.
  induction 1 as [|g gs Hg _ IH]; [done|]. cbn [fmap list_fmap concat]. rewrite !length_app.
  apply group_ids_entries, sublist_length in Hg. unfold group_ids in Hg. rewrite !length_fmap in Hg.
  unfold groups_of at 1. rewrite length_fmap. lia.
Qed.

(** ** Input rows *)

(** The windows of a row of the store. *)
Definition input_windows (row : InputRow) : list bytes :=
  opt_list (ir_window_key row) ++ omap id (ir_extra_window_keys row).

Definition input_rows (row : InputRow) : list FlatRow := flat_row row <$> input_windows row.

(** A window that ends after the least 64-bit number. *)
Definition dated (w : BeamWindow) : Prop := timely w ∧ match w with IntervalWindow _ e => (- 2 ^ 63 < e - 1)%Z | _ => True end.

(** A well-formed row: a key/value record stored under its key, with as many windows as
    it declares, and with the latest end that is stored with them. *)
Record good_input {P : Profile} (row : InputRow) : Prop := {
  gr_record : ∃ value, ir_record row = KV (ir_key row) value;
  gr_key : wf_key (ir_key row);
  gr_count : ir_window_count row = Z.of_nat (length (input_windows row));
  gr_extra : Forall is_Some (ir_extra_window_keys row);
  gr_windows : ∃ ws pane, Forall2 (λ k w, from_binary_key k = Some w ∧ dated w) (input_windows row) ws
    ∧ RecordTables.max_finite_window_end_millis (E:=string) (RecordTables.mkMetadata (ir_timestamp row) ws pane)
      = Ok (ir_window_max_end row);
}.

(** The elements a row brings to a group: its value, once per window. *)
Definition input_values (i : GroupIdentity) (row : InputRow) : list BeamRecord :=
  if decide (encoded_primitive_sort_key (ir_key row) = gi_key i)
  then (λ _, match ir_record row with KV _ v => v | r => r end) <$> filter (λ k, k = gi_window i) (input_windows row)
  else [].

Lemma input_rows_values i row : entry_values i (row_entry <$> input_rows row) = input_values i row.
Proof.
  unfold input_rows, input_values. induction (input_windows row) as [|k ks IH]; [by case_decide|].
  change (entry_values i (row_entry <$> (flat_row row <$> k :: ks))) with
    (match (if decide ((encoded_primitive_sort_key (ir_key row), k) = (gi_key i, gi_window i))
            then Some (row_value (flat_row row k)) else None)
     with Some v => v :: entry_values i (row_entry <$> (flat_row row <$> ks))
     | None => entry_values i (row_entry <$> (flat_row row <$> ks)) end).
  rewrite IH, filter_cons. repeat case_decide; simplify_eq; try done.
  exfalso. destruct i. simpl in *. congruence.
Qed.

Section rows.
Context `{P : Profile}.

Lemma good_input_rows row : good_input row → Forall good_row (input_rows row).
Proof.
  intros [[v Hr] Hk _ _ (ws & pane & Hw & _)]. unfold input_rows. apply Forall_fmap, Forall_forall. intros k Hin.
  apply list_elem_of_lookup in Hin as [i Hi]. destruct (Forall2_lookup_l _ _ _ _ _ Hw Hi) as (w & _ & Hw' & Ht & _).
  exists (ir_key row), v, w. by constructor.
Qed.

(** ** Late rows *)

(** All windows of a row end, the lateness included, at or before a watermark; an opaque
    window does not end. *)
Definition late (spec : TriggerSpec) (watermark : Z) (row : InputRow) : Prop :=
  input_windows row ≠ [] ∧ Forall (λ k, ∃ w e, from_binary_key k = Some w ∧ (∀ id data, w ≠ OpaqueWindow id data)
    ∧ max_timestamp_millis (E:=string) w = Ok e ∧ (e + allowed_lateness spec ≤ watermark)%Z) (input_windows row).

Lemma latest_end_at_most ks ws latest m c :
  Forall2 (λ k w, from_binary_key k = Some w ∧ dated w) ks ws → RecordTables.latest_end (E:=string) latest ws = Ok (Some m) →
  (m ≤ c)%Z ↔ (latest ≤ c)%Z ∧ Forall (λ k, ∃ w e, from_binary_key k = Some w ∧ (∀ id data, w ≠ OpaqueWindow id data)
    ∧ max_timestamp_millis (E:=string) w = Ok e ∧ (e ≤ c)%Z) ks.
Proof.
  intros Hf. revert latest. induction Hf as [|k w ks ws [Hk [Ht _]] _ IH]; intros latest E; cbn [RecordTables.latest_end] in E.
  { injection E as ->. rewrite Forall_nil. tauto. }
  destruct (timely_end (E:=string) w Ht) as [e He].
  assert (Hno : (∀ id data, w ≠ OpaqueWindow id data) ∧ RecordTables.latest_end (E:=string) (Z.max latest e) ws = Ok (Some m)).
  { destruct w; [|..|done]; (split; [done|]); rewrite He in E; exact E. }
  destruct Hno as [Hno E']. rewrite (IH _ E'), Forall_cons. split.
  - intros [Hm Hall]. split_and!; [lia| |done]. exists w, e. split_and!; [done..|lia].
  - intros (Hl & (w' & e' & Hk' & _ & He' & Hle) & Hall). assert (w' = w) as -> by congruence.
    assert (e' = e) as -> by congruence. split; [lia|done].
Qed.

(** An opaque window has no known end. *)
Lemma latest_end_unknown ks ws latest :
  Forall2 (λ k w, from_binary_key k = Some w ∧ dated w) ks ws → RecordTables.latest_end (E:=string) latest ws = Ok None →
  ∃ k id data, k ∈ ks ∧ from_binary_key k = Some (OpaqueWindow id data).
Proof.
  intros Hf. revert latest. induction Hf as [|k w ks ws [Hk [Ht _]] _ IH]; intros latest E; cbn [RecordTables.latest_end] in E; [done|].
  destruct (timely_end (E:=string) w Ht) as [e He]. destruct w as [|a b|id data].
  3: { exists k, id, data. split; [by left|done]. }
  all: rewrite He in E; destruct (IH _ E) as (k' & id & data & Hk' & ?); exists k', id, data; (split; [by right|done]).
Qed.

(** What the filter drops is what is late for the watermark of the run before. *)
Lemma survives_late spec previous row :
  good_input row →
  survives (Some (saturating_i64 (previous - allowed_lateness spec))) row = false ↔ late spec previous row.
Proof.
  intros [_ _ _ _ (ws & pane & Hf & E)]. unfold survives, late.
  unfold RecordTables.max_finite_window_end_millis in E. cbn [RecordTables.windows] in E.
  assert (Hle : ∀ k w e, k ∈ input_windows row → from_binary_key k = Some w → (∀ id data, w ≠ OpaqueWindow id data) →
    max_timestamp_millis (E:=string) w = Ok e →
    (e ≤ saturating_i64 (previous - allowed_lateness spec))%Z ↔ (e + allowed_lateness spec ≤ previous)%Z).
  { intros k w e Hin Hk Hno He. apply list_elem_of_lookup in Hin as [i Hi].
    destruct (Forall2_lookup_l _ _ _ _ _ Hf Hi) as (w' & _ & Hk' & [_ Ht] & Hd). assert (w' = w) as -> by congruence.
    unfold saturating_i64, I64_MIN, I64_MAX. destruct w as [|a b|id data]; [| |by destruct (Hno id data)].
    - injection He as <-. unfold GLOBAL_WINDOW_MAX_TIMESTAMP_MILLIS in *. lia.
    - cbn in He. rewrite arith_i_ok in He by done. injection He as <-. unfold is_i in Ht. lia. }
  pose proof Hf as Hall2. destruct Hf as [|k w ks ws Hkw Hf].
  { injection E as <-. split; [done|]. by intros [? _]. }
  destruct (ir_window_max_end row) as [m|].
  - rewrite Z.ltb_ge, (latest_end_at_most _ _ _ _ _ Hall2 E).
    assert (Hmin : (- 2 ^ 63 ≤ saturating_i64 (previous - allowed_lateness spec))%Z) by (unfold saturating_i64, I64_MIN; lia).
    split; [intros [_ Hall]; split; [done|]|intros [_ Hall]; split; [done|]]; rewrite Forall_forall in *; intros x Hx;
      destruct (Hall x Hx) as (w' & e & Hw' & Hno & He & Hm); exists w', e; (split_and!; [done..|]); by eapply Hle.
  - split; [done|]. intros [_ Hall]. destruct (latest_end_unknown _ _ _ Hall2 E) as (x & id & data & Hx & Ex).
    rewrite Forall_forall in Hall. destruct (Hall x Hx) as (w' & e & Ew & Hno & _). destruct (Hno id data). congruence.
Qed.

Lemma flatten_rows_spec rows :
  Forall good_input rows →
  ∃ scalars extras, flatten_rows rows = Ok (scalars, extras)
    ∧ scalars ++ extras ≡ₚ concat (input_rows <$> rows).
Proof.
  induction 1 as [|row rows [_ _ Hc He _] _ (scalars & extras & E & Hp)]; [by exists [], []|].
  assert (Hlen : length (omap id (ir_extra_window_keys row)) = length (ir_extra_window_keys row)).
  { clear -He. induction He as [|o l [x ->] _ IH]; [done|]. simpl. f_equal. exact IH. }
  assert (Htr : traverse (E:=string) (λ k, match k with Some k => Ok (flat_row row k) | None => Err "null extra window key" end)
      (ir_extra_window_keys row) = Ok (flat_row row <$> omap id (ir_extra_window_keys row))).
  { clear -He. induction He as [|o l [x ->] _ IH]; [done|]. cbn [traverse mbind outcome_bind]. rewrite IH. done. }
  cbn [flatten_rows]. unfold input_windows in Hc. rewrite length_app, Hlen in Hc.
  rewrite (proj2 (Z.ltb_ge _ _)) by lia. rewrite decide_False by (destruct (ir_window_key row); simpl in *; lia).
  rewrite Htr. cbn [mbind outcome_bind]. rewrite E. cbn [mbind outcome_bind]. do 2 eexists. split; [done|].
  cbn [fmap list_fmap concat]. rewrite <- Hp. unfold input_rows, input_windows. rewrite fmap_app.
  replace (match ir_window_key row with Some k => [flat_row row k] | None => [] end)
    with (flat_row row <$> opt_list (ir_window_key row)) by (by destruct (ir_window_key row)).
  solve_Permutation.
Qed.

Lemma flatten_window_batch_spec rows :
  Forall good_input rows →
  ∃ batches, flatten_window_batch rows = Ok batches ∧ concat batches ≡ₚ concat (input_rows <$> rows).
Proof.
  intros H. destruct (flatten_rows_spec rows H) as (s & e & E & Hp). unfold flatten_window_batch. rewrite E.
  eexists. split; [done|]. rewrite <- Hp. destruct s, e; simpl; by rewrite ?app_nil_r.
Qed.

End rows.

Lemma sum_length_concat {A} (ls : list (list A)) : sum_list_with length ls = length (concat ls).
Proof. induction ls as [|l ls IH]; [done|]. simpl. by rewrite length_app, IH. Qed.

(** * One run *)

Abbreviation zlength l := (Z.of_nat (length l)).


(** The rows handed to the writer and those still buffered. *)
Definition stream (r : GbkRun) : list WindowedValue := run_written r ++ run_output r.

Section run.
Context `{P : Profile} (key_debug : PrimitiveValue → string) (string_order : gset string → list string)
  (bytes_order : gset bytes → list bytes) (scan_order : gset GroupIdentity → list GroupIdentity)
  (merge_windows : list (list BeamWindow) → MergeService → MergeService * outcome string (list (list MergedWindows)))
  (external_sort : list FlatRow → list (list FlatRow)).
Context (spec : TriggerSpec) (wm pt : Z) (is_global_window input_is_bounded : bool).
Context (Hdelays : delays_ok (spec_trigger spec)) (Hclock : clock_ok pt).
Abbreviation native_groups := (native_groups key_debug string_order).
Abbreviation process_key_groups_batch :=
  (process_key_groups_batch key_debug string_order bytes_order merge_windows spec false wm pt).
Abbreviation process_batches := (process_batches key_debug string_order bytes_order merge_windows spec false wm pt).
Abbreviation process_buckets :=
  (process_buckets key_debug string_order bytes_order merge_windows external_sort spec false wm pt).
Abbreviation apply_groups := (apply_groups spec wm pt).
Abbreviation execute :=
  (execute key_debug string_order bytes_order scan_order merge_windows external_sort spec false wm pt
     is_global_window input_is_bounded).

(** What part of a run did: [vals] are the elements it took in. *)
Record ran (vals : GroupIdentity → list BeamRecord) (r r' : GbkRun) : Prop := {
  ran_scan : ready_scan (run_state r') = ready_scan (run_state r);
  ran_mark : last_evaluated_watermark (run_state r') = last_evaluated_watermark (run_state r);
  ran_settled : evaluated_settled spec wm (run_state r) → evaluated_settled spec wm (run_state r');
  ran_values : accumulation spec = Discarding → ∀ j,
    emitted j (stream r') ++ held j (run_state r') = emitted j (stream r) ++ held j (run_state r) ++ vals j;
}.

Lemma ran_refl r : ran (λ _, []) r r.
Proof. split; try done. intros _ j. by rewrite app_nil_r. Qed.

Lemma ran_trans v1 v2 r1 r2 r3 : ran v1 r1 r2 → ran v2 r2 r3 → ran (λ j, v1 j ++ v2 j) r1 r3.
Proof.
  intros [a1 b1 c1 d1] [a2 b2 c2 d2]. split; [congruence|congruence|auto|].
  intros Hacc j. rewrite d2 by done. by rewrite (app_assoc (emitted j _)), d1, <- !app_assoc by done.
Qed.

Lemma ran_ext v1 v2 r r' : (∀ j, v1 j = v2 j) → ran v1 r r' → ran v2 r r'.
Proof. intros He [a b c d]. split; [done..|]. intros Hacc j. by rewrite d, He by done. Qed.

Lemma apply_groups_spec groups n r :
  Forall (λ g : group, timely g.1.2) groups → (0 ≤ n)%Z → is_i 64 (n + zlength groups) →
  gbk_ok (spec_trigger spec) n (run_state r) →
  ∃ r', apply_groups groups r = (r', Ok ()) ∧ gbk_ok (spec_trigger spec) (n + zlength groups) (run_state r')
    ∧ ran (λ j, groups_values j groups) r r'.
Proof.
  intros Ht Hn. revert n r Hn. induction Ht as [|[[key w] els] groups Hw _ IH]; intros n r Hn Hb Hok.
  { exists r. split; [done|]. split; [eapply gbk_ok_weaken; [|exact Hok]; simpl; lia|apply ran_refl]. }
  cbn [fst snd length] in *. rewrite Nat2Z.inj_succ in *. destruct (timely_identity (E:=string) key w Hw) as [i Hi].
  destruct (apply_group_spec spec key w els wm pt n (run_state r) i) as (st' & o & Ha & Hok' & Hs & Hm & Hf & He & _ & Hc);
    try done; [unfold is_i in *; lia|].
  cbn [GbkInput.apply_groups]. rewrite Ha.
  set (r1 := mkGbkRun _ _ _ _).
  destruct (IH (n + 1)%Z r1) as (r' & Hr & Hok2 & Hran); [lia|by replace (n + 1 + zlength groups)%Z with (n + Z.succ (zlength groups))%Z by lia|done|].
  exists r'. split; [exact Hr|]. split; [by replace (n + Z.succ (zlength groups))%Z with (n + 1 + zlength groups)%Z by lia|].
  eapply ran_trans in Hran; [|shelve]. eapply ran_ext; [|exact Hran]. Unshelve.
  2: { intros j. exact (if decide (j = i) then pe_value <$> els else []). }
  - intros j. cbn [fst snd]. unfold groups_values. cbn [fmap list_fmap concat]. f_equal. unfold group_values. cbn [fst snd].
    rewrite Hi. case_decide as E; [subst; by rewrite decide_True|]. rewrite decide_False by congruence. done.
  - split; [done|done| |].
    + intros Hset j s. cbn [run_state r1]. destruct (decide (j = i)) as [->|Hne]; [by intros Hj _; apply He|].
      rewrite Hf by done. apply Hset.
    + intros Hacc j. unfold stream. cbn [run_written run_output run_state r1].
      rewrite app_assoc, emitted_app, <- app_assoc.
      change (match o with Some v => [v] | None => [] end) with (opt_list o). by rewrite Hc.
Qed.

(** Without merging every group is applied as it is. *)
Lemma native_groups_plain gs : native_groups false gs = Ok (concat (groups_of <$> gs), []).
Proof. induction gs as [|g gs IH]; [done|]. cbn [GbkInput.native_groups andb]. cbn [mbind outcome_bind]. by rewrite IH. Qed.

Lemma process_groups_spec gs n r :
  Forall good_group gs → (0 ≤ n)%Z → is_i 64 (n + zlength (concat (group_entries <$> gs))) →
  gbk_ok (spec_trigger spec) n (run_state r) →
  ∃ r', process_key_groups_batch gs r = (r', Ok ())
    ∧ gbk_ok (spec_trigger spec) (n + zlength (concat (group_entries <$> gs))) (run_state r')
    ∧ ran (λ j, entry_values j (concat (group_entries <$> gs))) r r'.
Proof.
  intros Hg Hn Hb Hok. pose proof (groups_count gs Hg) as Hlen.
  assert (Hrun : process_key_groups_batch gs r = apply_groups (concat (groups_of <$> gs)) r).
  { destruct gs as [|g gs]; [done|]. unfold GbkInput.process_key_groups_batch. rewrite native_groups_plain.
    unfold mbind, st_bind, st_lift. cbn [custom_groups]. unfold custom_groups. by rewrite app_nil_r. }
  rewrite Hrun.
  destruct (apply_groups_spec (concat (groups_of <$> gs)) n r) as (r' & Hr & Hok' & Hran);
    [by apply good_groups_timely|done|unfold is_i in *; lia|done|].
  exists r'. split; [done|]. split; [eapply gbk_ok_weaken; [|exact Hok']; lia|].
  eapply ran_ext; [|exact Hran]. intros j. cbn beta. clear -Hg.
  induction Hg as [|g gs Hg _ IH]; [done|]. cbn [fmap list_fmap concat].
  by rewrite groups_values_app, entry_values_app, IH, group_entries_values.
Qed.

Lemma flush_ran r : ∃ r', flush_output_if_full r = (r', Ok ()) ∧ run_state r' = run_state r ∧ ran (λ _, []) r r'.
Proof.
  unfold flush_output_if_full. case_decide.
  - eexists. split; [reflexivity|]. split; [done|]. split; [done..|]. intros _ j. unfold stream. simpl.
    by rewrite !app_nil_r.
  - exists r. by split_and!; [| |apply ran_refl].
Qed.

Lemma process_batches_spec batches current n r :
  Forall good_row (concat batches) → (∀ g, current = Some g → good_group g) → (0 ≤ n)%Z →
  is_i 64 (n + zlength (opt_entries current ++ (row_entry <$> concat batches))) →
  gbk_ok (spec_trigger spec) n (run_state r) →
  ∃ r', process_batches current batches r = (r', Ok ())
    ∧ gbk_ok (spec_trigger spec) (n + zlength (opt_entries current ++ (row_entry <$> concat batches))) (run_state r')
    ∧ ran (λ j, entry_values j (opt_entries current ++ (row_entry <$> concat batches))) r r'.
Proof.
  revert current n r. induction batches as [|b batches IH]; intros current n r Hr Hc Hn Hb Hok; cbn [concat GbkInput.process_batches] in *.
  - destruct current as [g|].
    + cbn [fmap list_fmap opt_entries] in *. rewrite app_nil_r in *.
      destruct (process_groups_spec [g] n r) as (r' & Hp & Hok' & Hran); cbn [fmap list_fmap concat] in *;
        rewrite ?app_nil_r in *; try done; [|by exists r'].
      apply Forall_singleton. by apply Hc.
    + exists r. cbn in *. split; [done|]. split; [eapply gbk_ok_weaken; [|done]; lia|apply ran_refl].
  - apply Forall_app in Hr as [Hrb Hr].
    destruct (push_batch_spec b current Hrb Hc) as (done & cur & E & Hd & Hcur & Hcat & _).
    unfold mbind, st_bind, st_lift. rewrite E.
    rewrite fmap_app, app_assoc, <- Hcat, <- app_assoc in *. rewrite length_app in *.
    destruct (process_groups_spec done n r Hd Hn) as (r1 & -> & Hok1 & Hran1); [unfold is_i in *; lia|done|].
    destruct (flush_ran r1) as (r2 & -> & Es & Hran2).
    destruct (IH cur (n + zlength (concat (group_entries <$> done)))%Z r2 Hr Hcur) as (r' & -> & Hok' & Hran');
      [lia|unfold is_i in *; lia|by rewrite Es|].
    exists r'. split; [done|]. split; [eapply gbk_ok_weaken; [|exact Hok']; lia|].
    pose proof (ran_trans _ _ _ _ _ (ran_trans _ _ _ _ _ Hran1 Hran2) Hran') as Hran.
    eapply ran_ext; [|exact Hran]. intros j. cbn beta. by rewrite app_nil_r, !entry_values_app, <- ?app_assoc.
Qed.

Context (Hsort : ∀ rows, concat (external_sort rows) ≡ₚ rows).

Lemma sorted_bucket_spec bucket :
  Forall good_input (concat bucket) →
  ∃ batches, sorted_bucket external_sort bucket = Ok batches
    ∧ concat batches ≡ₚ concat (input_rows <$> concat bucket).
Proof.
  intros H. unfold sorted_bucket.
  assert (∃ flat, traverse flatten_window_batch bucket = Ok flat
    ∧ concat (concat flat) ≡ₚ concat (input_rows <$> concat bucket)) as (flat & -> & Hp).
  { induction bucket as [|rows bucket IH]; [by exists []|]. cbn [concat] in H. apply Forall_app in H as [H1 H2].
    destruct (IH H2) as (flat & E & Hp). destruct (flatten_window_batch_spec rows H1) as (b & E1 & Hp1).
    exists (b :: flat). cbn [traverse]. rewrite E1, E. split; [done|]. cbn [concat].
    by rewrite concat_app, fmap_app, concat_app, Hp1, Hp. }
  cbn. eexists. split; [done|]. by rewrite Hsort.
Qed.

Definition flat_input (buckets : list (list (list InputRow))) : list FlatRow :=
  concat (input_rows <$> concat (concat buckets)).

Lemma process_buckets_spec buckets n r :
  Forall good_input (concat (concat buckets)) → (0 ≤ n)%Z → is_i 64 (n + zlength (flat_input buckets)) →
  gbk_ok (spec_trigger spec) n (run_state r) →
  ∃ r' es, process_buckets buckets r = (r', Ok (length (flat_input buckets)))
    ∧ gbk_ok (spec_trigger spec) (n + zlength (flat_input buckets)) (run_state r')
    ∧ es ≡ₚ row_entry <$> flat_input buckets ∧ ran (λ j, entry_values j es) r r'.
Proof.
  revert n r. induction buckets as [|bucket buckets IH]; intros n r Hg Hn Hb Hok; unfold flat_input in *;
    cbn [concat GbkInput.process_buckets] in *.
  { exists r, []. split; [done|]. split; [eapply gbk_ok_weaken; [|done]; simpl; lia|].
    split; [done|]. eapply ran_ext; [|apply ran_refl]. done. }
  rewrite concat_app, fmap_app, concat_app, length_app, Nat2Z.inj_add in *. apply Forall_app in Hg as [Hg1 Hg2].
  destruct (sorted_bucket_spec bucket Hg1) as (batches & E & Hp).
  unfold mbind, st_bind, st_lift. rewrite E.
  pose proof (Permutation_length Hp) as Hlen.
  destruct (process_batches_spec batches None n r) as (r1 & -> & Hok1 & Hran1); try done.
  { rewrite Hp, Forall_concat, Forall_fmap. eapply Forall_impl; [exact Hg1|]. apply good_input_rows. }
  { cbn [opt_entries app]. rewrite length_fmap, Hlen. unfold is_i in *. lia. }
  cbn [opt_entries app] in *. rewrite length_fmap, Hlen in Hok1.
  destruct (IH (n + zlength (concat (input_rows <$> concat bucket)))%Z r1 Hg2 ltac:(lia) ltac:(by rewrite <- Z.add_assoc) Hok1) as (r' & es & -> & Hok' & Hes & Hran').
  exists r', ((row_entry <$> concat batches) ++ es). split_and!.
  - unfold mret, st_ret. do 2 f_equal. by rewrite <- Hlen, sum_length_concat.
  - by rewrite Z.add_assoc.
  - by rewrite Hes, Hp, <- fmap_app.
  - eapply ran_ext; [|exact (ran_trans _ _ _ _ _ Hran1 Hran')]. intros j. cbn beta. by rewrite entry_values_app.
Qed.

(** ** The drain and the whole run *)

Lemma begin_run_held i s : held i (begin_run s) = held i s.
Proof. unfold held, begin_run. cbn [states]. rewrite lookup_fmap. by destruct (states s !! i). Qed.

Lemma begin_run_ok t n s : gbk_ok t n s → gbk_ok t n (begin_run s).
Proof.
  intros H i w. unfold begin_run. cbn [states]. rewrite lookup_fmap. destruct (states s !! i) as [u|] eqn:E; [|done].
  intros [= <-]. destruct (H i u E) as [[] Hx]. by split; [constructor|].
Qed.

Lemma begin_run_settled s : evaluated_settled spec wm (begin_run s).
Proof.
  intros i w. unfold begin_run. cbn [states]. rewrite lookup_fmap. destruct (states s !! i); [|done].
  by intros [= <-].
Qed.

Lemma ok_mid t n s : gbk_ok t n s → gbk_mid t n s.
Proof. intros H i w Hw. destruct (H i w Hw). split_and!; [done|lia|done]. Qed.

Context (Horder : ∀ X, scan_order X ≡ₚ elements X).

(** The drain hands every group that this run did not evaluate to the writer once. *)
Lemma drain_spec n r :
  ready_scan (run_state r) = None → is_i 64 (n + 1) → gbk_ok (spec_trigger spec) n (run_state r) →
  evaluated_settled spec wm (run_state r) →
  ∃ r' ready, drain_and_write scan_order spec wm pt r = (r', Ok ())
    ∧ run_written r' = run_written r ++ ready ∧ run_output r' = run_output r ∧ run_merger r' = run_merger r
    ∧ last_evaluated_watermark (run_state r') = last_evaluated_watermark (run_state r)
    ∧ ready_scan (run_state r') = None ∧ gbk_ok (spec_trigger spec) (n + 1) (run_state r')
    ∧ (accumulation spec = Discarding → ∀ j, emitted j ready ++ held j (run_state r') = held j (run_state r))
    ∧ (∀ i s, states (run_state r') !! i = Some s → gs_evaluated_this_run s = true ∧ settled spec wm s)
    ∧ ∀ j, length (panes_of j ready) ≤ 1.
Proof.
  intros Hscan Hb Hok Hset.
  destruct (sweep_spec spec wm pt n (scan_order (dom (states (run_state r)))) (run_state r) Hdelays Hb (ok_mid _ _ _ Hok))
    as (st' & ready & Hsw & Hmid & Hcons & Hset' & Hpan).
  unfold drain_and_write.
  rewrite (drain_ready_sweep scan_order Horder spec wm pt OUTPUT_BATCH_SIZE (run_state r) st' ready) by done.
  do 2 eexists. split; [done|]. cbn [run_written run_output run_merger run_state].
  destruct (sweep_frame _ _ _ _ _ _ _ Hsw) as (_ & Hev & _ & Hmark & Hdom & _).
  assert (Hall : ∀ i s, states st' !! i = Some s → gs_evaluated_this_run s = true).
  { intros i s Hi. apply (Hev i s); [|done]. rewrite Horder. apply elem_of_elements, Hdom, elem_of_dom. by exists s. }
  split_and!; try done.
  - intros i s Hi. destruct (Hmid i s Hi) as (? & ? & _). by split.
  - intros i s Hi. split; [by apply (Hall i)|]. by apply (Hset' Hset i); [|apply (Hall i)].
  - intros j. specialize (Hpan j). destruct (states (run_state r) !! j) as [s|]; [destruct (gs_evaluated_this_run s)|]; lia.
Qed.

(** What is left after a run. *)
Record run_done (n : Z) (buckets : list (list (list InputRow))) (r r' : GbkRun) : Prop := {
  rd_ok : gbk_ok (spec_trigger spec) (n + zlength (flat_input buckets) + 1) (run_state r');
  rd_output : run_output r' = [];
  rd_scan : ready_scan (run_state r') = None;
  rd_settled : ∀ i s, states (run_state r') !! i = Some s → settled spec wm s;
  rd_mark : last_evaluated_watermark (run_state r')
    = if decide (flat_input buckets ≠ [] ∨ is_Some (last_evaluated_watermark (run_state r))) then Some wm else None;
  rd_values : accumulation spec = Discarding → ∀ i,
    emitted i (run_written r') ++ held i (run_state r')
    ≡ₚ emitted i (stream r) ++ held i (run_state r) ++ concat (input_values i <$> concat (concat buckets));
}.

Lemma flat_input_values i buckets :
  entry_values i (row_entry <$> flat_input buckets) = concat (input_values i <$> concat (concat buckets)).
Proof.
  unfold flat_input. induction (concat (concat buckets)) as [|row rows IH]; [done|]. cbn [fmap list_fmap concat].
  by rewrite fmap_app, entry_values_app, IH, input_rows_values.
Qed.

Lemma execute_spec input buckets n r :
  buckets = open_pruned (window_prune_cutoff (last_evaluated_watermark (run_state r)) (allowed_lateness spec) false
                           is_global_window input_is_bounded) input →
  Forall good_input (concat (concat buckets)) → (0 ≤ n)%Z → is_i 64 (n + zlength (flat_input buckets) + 1) →
  gbk_ok (spec_trigger spec) n (run_state r) →
  ∃ r', execute (Ok ()) input r = (r', Ok ()) ∧ run_done n buckets r r'.
Proof.
  intros Hkept Hg Hn Hb Hok. unfold GbkInput.execute, mbind, st_bind, st_read, update_state, st_lift. rewrite <- Hkept.
  set (r0 := mkGbkRun (begin_run (run_state r)) _ _ _).
  destruct (process_buckets_spec buckets n r0) as (r1 & es & -> & Hok1 & Hes & [Hscan Hmark Hset Hval]);
    [done|done|unfold is_i in *; lia|by apply begin_run_ok|].
  destruct (drain_spec (n + zlength (flat_input buckets)) r1) as
    (r2 & ready & -> & Hw & Ho & Hm & Hmark2 & Hscan2 & Hok2 & Hcons & Hsettled & _);
    [by rewrite Hscan|done|done|apply Hset, begin_run_settled|].
  assert (∃ r3, (flush_output_if_full r2 = (r3, Ok ()) ∧ run_state r3 = run_state r2 ∧ stream r3 = stream r2))
    as (r3 & -> & Es3 & Estr).
  { unfold flush_output_if_full. case_decide; eexists; (split; [reflexivity|]); split; try done.
    unfold stream. simpl. by rewrite app_nil_r. }
  unfold take_output, write_rows. cbn [run_state run_merger run_output run_written].
  set (r4 := mkGbkRun (run_state r3) _ [] (run_written r3 ++ run_output r3)).
  assert (Hvalues : accumulation spec = Discarding → ∀ i,
    emitted i (run_written r4) ++ held i (run_state r4)
    ≡ₚ emitted i (stream r) ++ held i (run_state r) ++ concat (input_values i <$> concat (concat buckets))).
  { intros Hacc i. cbn [run_written run_state r4]. change (run_written r3 ++ run_output r3) with (stream r3).
    rewrite Es3, Estr. unfold stream at 1. rewrite Hw, Ho, !emitted_app, <- flat_input_values, <- Hes.
    specialize (Hval Hacc i). specialize (Hcons Hacc i). cbn [run_state r0] in Hval. rewrite begin_run_held in Hval.
    change (stream r0) with (stream r) in Hval. rewrite <- Hval. unfold stream at 1. rewrite emitted_app, <- Hcons.
    solve_Permutation. }
  assert (Hempty : (0 < length (flat_input buckets) ↔ flat_input buckets ≠ [])).
  { destruct (flat_input buckets); simpl; [split; [lia|done]|split; [done|lia]]. }
  assert (Hprev : last_evaluated_watermark (run_state r4) = last_evaluated_watermark (run_state r))
    by (cbn [run_state r4]; by rewrite Es3, Hmark2, Hmark).
  case_decide as Hd; (eexists; split; [reflexivity|]); split;
    cbn [run_state run_output run_written mark_watermark_evaluated states ready_scan last_evaluated_watermark];
    rewrite ?Es3; try done.
  - cbn [states mark_watermark_evaluated run_state r4]. by rewrite Es3.
  - cbn [ready_scan mark_watermark_evaluated run_state r4]. by rewrite Es3.
  - cbn [states mark_watermark_evaluated run_state r4]. rewrite Es3. intros i s Hi. by apply (Hsettled i).
  - rewrite decide_True; [done|]. destruct Hd; [left; by apply Hempty|by right].
  - cbn [run_state r4]. by rewrite Es3.
  - cbn [run_state r4]. by rewrite Es3.
  - cbn [run_state r4]. rewrite Es3. intros i s Hi. by apply (Hsettled i).
  - rewrite decide_False by (intros [?|?]; apply Hd; [left; by apply Hempty|by right]).
    rewrite Hprev. destruct (last_evaluated_watermark (run_state r)); [|done]. destruct Hd. by right.
Qed.
End run.

(** * Runs one after the other

    A stage is run again and again, with the rows that arrived and the watermark of
    its input at the time; the state of the groups is what one run leaves to the
    next. *)
Record RunInput : Type := mkRunInput {
  ri_watermark : Z;
  ri_clock : Z;
  ri_buckets : list (list (list InputRow));
}.

Definition run_rows (x : RunInput) : list InputRow := concat (concat (ri_buckets x)).

Definition good_run {P : Profile} (x : RunInput) : Prop := clock_ok (ri_clock x) ∧ Forall good_input (run_rows x).

(** How far the pane indices can get: one pane per flattened row and one per drain. *)
Definition runs_panes (runs : list RunInput) : Z :=
  Z.of_nat (sum_list_with (λ x, S (length (flat_input (ri_buckets x)))) runs).

(** Which rows the runs take in and which they drop.  [previous] is the watermark of the run
    before, once a run has taken a row in.  When rows can be late, a run drops the rows
    that were late for it already then, and no others. *)
Inductive takes {P : Profile} (spec : TriggerSpec) (prunes : bool) :
    option Z → list RunInput → list (list InputRow) → list (list InputRow) → Prop :=
| takes_none previous : takes spec prunes previous [] [] []
| takes_run previous x runs kept dropped kepts droppeds :
    run_rows x ≡ₚ kept ++ dropped →
    (∀ row, row ∈ dropped → prunes = true ∧ ∃ watermark, previous = Some watermark ∧ late spec watermark row) →
    (∀ row watermark, row ∈ kept → prunes = true → previous = Some watermark → ¬ late spec watermark row) →
    takes spec prunes (if decide (is_Some previous ∨ Exists (λ row, input_windows row ≠ []) kept) then Some (ri_watermark x) else None)
      runs kepts droppeds →
    takes spec prunes previous (x :: runs) (kept :: kepts) (dropped :: droppeds).

Section runs.
Context `{P : Profile} (key_debug : PrimitiveValue → string) (string_order : gset string → list string)
  (bytes_order : gset bytes → list bytes) (scan_order : gset GroupIdentity → list GroupIdentity)
  (merge_windows : list (list BeamWindow) → MergeService → MergeService * outcome string (list (list MergedWindows)))
  (external_sort : list FlatRow → list (list FlatRow)) (spec : TriggerSpec) (is_global_window input_is_bounded : bool).
Context (Hdelays : delays_ok (spec_trigger spec)) (Hsort : ∀ rows, concat (external_sort rows) ≡ₚ rows)
  (Horder : ∀ X, scan_order X ≡ₚ elements X).

Fixpoint run_all (runs : list RunInput) : st GbkRun unit :=
  match runs with
  | [] => mret ()
  | x :: runs =>
      _ ← execute key_debug string_order bytes_order scan_order merge_windows external_sort spec false
            (ri_watermark x) (ri_clock x) is_global_window input_is_bounded (Ok ()) (ri_buckets x);
      run_all runs
  end.

Abbreviation prunes := (negb (is_global_window || input_is_bounded)).
Abbreviation cutoff previous := (window_prune_cutoff previous (allowed_lateness spec) false is_global_window input_is_bounded).

Lemma open_pruned_rows c buckets : concat (concat (open_pruned c buckets)) = prune_rows c (concat (concat buckets)).
Proof.
  unfold open_pruned. assert (Hc : ∀ batches : list (list InputRow), concat (prune_rows c <$> batches) = prune_rows c (concat batches)).
  { induction batches as [|rows batches IH]; [done|]. cbn. rewrite IH. unfold prune_rows. by rewrite filter_app. }
  induction buckets as [|b bs IH]; [done|]. cbn. rewrite !concat_app, IH, Hc. unfold prune_rows. by rewrite filter_app.
Qed.

Lemma pruned_panes c buckets : (length (flat_input (open_pruned c buckets)) ≤ length (flat_input buckets))%nat.
Proof.
  unfold flat_input. rewrite open_pruned_rows. unfold prune_rows. induction (concat (concat buckets)) as [|row rows IH]; [done|].
  rewrite filter_cons. case_decide; cbn [fmap list_fmap concat]; rewrite !length_app; lia.
Qed.

Lemma cutoff_late previous row :
  good_input row → survives (cutoff previous) row = false ↔ prunes = true ∧ ∃ watermark, previous = Some watermark ∧ late spec watermark row.
Proof.
  intros Hg. unfold window_prune_cutoff. cbn [orb]. destruct (is_global_window || input_is_bounded); cbn [negb].
  { split; [done|by intros [? _]]. }
  destruct previous as [watermark|]; cbn [fmap option_fmap option_map]; [|split; [done|by intros (_ & ? & ? & _)]].
  rewrite survives_late by done. split; [intros Hl; split; [done|by exists watermark]|by intros (_ & w & [= <-] & Hl)].
Qed.

(** A run takes in what the filter leaves, and drops the rest. *)
Lemma takes_pruned previous x runs kepts droppeds :
  Forall good_input (run_rows x) →
  takes spec prunes (if decide (flat_input (open_pruned (cutoff previous) (ri_buckets x)) ≠ [] ∨ is_Some previous)
                     then Some (ri_watermark x) else None) runs kepts droppeds →
  takes spec prunes previous (x :: runs) (prune_rows (cutoff previous) (run_rows x) :: kepts)
    (filter (λ row, ¬ survives (cutoff previous) row) (run_rows x) :: droppeds).
Proof.
  intros Hg Ht. rewrite Forall_forall in Hg. constructor.
  - symmetry. apply filter_app_complement.
  - intros row [Hs Hin]%list_elem_of_filter. apply cutoff_late; [by apply Hg|]. destruct (survives _ row); [by destruct Hs|done].
  - intros row watermark [Hs Hin]%list_elem_of_filter Hp Ep Hl. assert (Hf : survives (cutoff previous) row = false).
    { apply cutoff_late; [by apply Hg|]. split; [done|by exists watermark]. }
    by rewrite Hf in Hs.
  - unfold flat_input in Ht. rewrite open_pruned_rows in Ht. fold (run_rows x) in Ht.
    erewrite decide_ext; [exact Ht|]. rewrite (or_comm (is_Some _)), Exists_exists. f_equiv. split.
    + intros (row & Hin & Hw) E. apply Hw. destruct (input_windows row) as [|k ks] eqn:Ek; [done|]. exfalso.
      assert (Hk : flat_row row k ∈ concat (input_rows <$> prune_rows (cutoff previous) (run_rows x))).
      { apply list_elem_of_In, in_concat. exists (input_rows row). rewrite <- !list_elem_of_In.
        split; [by apply list_elem_of_fmap_2|unfold input_rows; rewrite Ek; by left]. }
      rewrite E in Hk. by apply elem_of_nil in Hk.
    + intros E. destruct (concat _) as [|fr frs] eqn:Ec; [done|]. assert (Hfr : fr ∈ fr :: frs) by by left.
      rewrite <- Ec in Hfr. apply list_elem_of_In, in_concat in Hfr as (l & Hl & Hfr).
      apply list_elem_of_In in Hl, Hfr. apply list_elem_of_fmap in Hl as (row & -> & Hrow).
      exists row. split; [done|]. intros En. unfold input_rows in Hfr. rewrite En in Hfr. by apply elem_of_nil in Hfr.
Qed.

(** Nothing is dropped where rows cannot be late. *)
Lemma takes_all previous runs kepts droppeds : takes spec false previous runs kepts droppeds → concat kepts ≡ₚ concat (run_rows <$> runs).
Proof.
  induction 1 as [|previous x runs kept dropped kepts droppeds Hp Hd _ _ IH]; [done|]. cbn [fmap list_fmap concat]. rewrite IH, Hp.
  destruct dropped as [|row rows]; [by rewrite app_nil_r|]. destruct (Hd row) as [? _]; [by left|done].
Qed.

Lemma run_all_spec runs n r :
  Forall good_run runs → (0 ≤ n)%Z → is_i 64 (n + runs_panes runs) →
  gbk_ok (spec_trigger spec) n (run_state r) → run_output r = [] →
  ∃ r' kepts droppeds, run_all runs r = (r', Ok ()) ∧ run_output r' = []
    ∧ takes spec prunes (last_evaluated_watermark (run_state r)) runs kepts droppeds
    ∧ gbk_ok (spec_trigger spec) (n + runs_panes runs) (run_state r')
    ∧ (∀ x, last runs = Some x → ∀ i s, states (run_state r') !! i = Some s → settled spec (ri_watermark x) s)
    ∧ (accumulation spec = Discarding → ∀ i,
         emitted i (run_written r') ++ held i (run_state r')
         ≡ₚ emitted i (run_written r) ++ held i (run_state r) ++ concat (input_values i <$> concat kepts)).
Proof.
  intros Hg. revert n r. induction Hg as [|x runs [Hclock Hrows] _ IH]; intros n r Hn Hb Hok Ho.
  { exists r, [], []. split_and!; [done|done|constructor|eapply gbk_ok_weaken; [|done]; unfold runs_panes; simpl; lia|done|].
    intros _ i. by rewrite app_nil_r. }
  unfold runs_panes in *. cbn [sum_list_with run_all] in *. rewrite Nat2Z.inj_add, Nat2Z.inj_succ in *.
  set (previous := last_evaluated_watermark (run_state r)).
  pose proof (pruned_panes (cutoff previous) (ri_buckets x)) as Hlen.
  destruct (execute_spec key_debug string_order bytes_order scan_order merge_windows external_sort spec
    (ri_watermark x) (ri_clock x) is_global_window input_is_bounded Hdelays Hclock Hsort Horder (ri_buckets x)
    (open_pruned (cutoff previous) (ri_buckets x)) n r) as (r1 & E & [Hok1 Ho1 _ Hs1 Hm1 Hv1]);
    [done| |done|unfold is_i in *; lia|done|].
  { rewrite open_pruned_rows, Forall_forall. intros row [_ Hin]%list_elem_of_filter. unfold run_rows in Hrows.
    rewrite Forall_forall in Hrows. by apply Hrows. }
  destruct (IH (n + zlength (flat_input (open_pruned (cutoff previous) (ri_buckets x))) + 1)%Z r1)
    as (r' & kepts & droppeds & E' & Ho' & Ht' & Hok' & Hs' & Hv'); [lia|unfold is_i in *; lia|done|done|].
  rewrite Hm1 in Ht'. do 3 eexists. unfold mbind, st_bind. rewrite E.
  split_and!; [done|done|by apply takes_pruned|eapply gbk_ok_weaken; [|exact Hok']; lia| |].
  - intros y Hy. destruct runs as [|z runs]; [|by apply Hs'].
    injection Hy as <-. injection E' as <-. exact Hs1.
  - intros Hacc i. rewrite (Hv' Hacc), (app_assoc (emitted i _)), (Hv1 Hacc). unfold stream. rewrite Ho, app_nil_r, open_pruned_rows.
    cbn [concat]. rewrite fmap_app, concat_app. by rewrite <- !app_assoc.
Qed.

(** Once the watermark is past the end of a window and the allowed lateness, nothing
    of the window is left in the state. *)
Lemma settled_held t n st wm i key w e :
  gbk_ok t n st → (∀ i s, states st !! i = Some s → settled spec wm s) → timely w →
  group_identity (E:=string) key w = Ok i → max_timestamp_millis (E:=string) w = Ok e →
  (earliest_completion spec e < wm)%Z → held i st = [].
Proof.
  intros Hok Hs Hw Hi He Hlt. unfold held. destruct (states st !! i) as [s|] eqn:E; [|done].
  destruct (Hok i s E) as [[Hid _ _ _ _ _ Hwin] _]. exfalso.
  assert (Hws : gs_window s = w).
  { unfold group_identity in Hi, Hid. inv_bind Hi. inv_bind Hid. injection Hi as <-. injection Hid as _ ->.
    apply (from_to_binary_key w) in E0; [|apply Hw]. apply (from_to_binary_key (gs_window s)) in E1; [|apply Hwin].
    congruence. }
  specialize (Hs i s E e). rewrite Hws in Hs. specialize (Hs He). lia.
Qed.
End runs.
