(* ===== verification/GbkProperties.v ===== *)
(** The properties of group-by-key and of window merging. *)
From S2P Require Import Prelude Bytes Varint Windows Coders Trigger WindowMerge Gbk GbkSpec.
From S2P Require Import GbkInput GbkInputSpec GbkRunSpec.
From S2P Require RecordTables.
Local Open Scope string_scope.
Local Open Scope list_scope.

(** * Runs *)

Section runs.
Context `{P : Profile} (key_debug : PrimitiveValue → string) (string_order : gset string → list string)
  (bytes_order : gset bytes → list bytes) (scan_order : gset GroupIdentity → list GroupIdentity)
  (merge_windows : list (list BeamWindow) → MergeService → MergeService * outcome string (list (list MergedWindows)))
  (external_sort : list FlatRow → list (list FlatRow)) (spec : TriggerSpec) (is_global_window input_is_bounded : bool).

Definition start_run : GbkRun := mkGbkRun empty_gbk_state None [] [].
Abbreviation run_all :=
  (run_all key_debug string_order bytes_order scan_order merge_windows external_sort spec is_global_window input_is_bounded).

(** C23: over any sequence of runs of a stage that does not merge windows and discards
    fired panes, each of which commits its output, every run takes its rows in, but for
    those that were late already at the watermark of the run before, when rows can be late:
    all windows of such a row ended, the allowed lateness included, by then; it drops
    exactly these, and none before a row was taken in.  Every element of every row taken
    in is in exactly one pane of its key and window or still in the state of that group,
    once per window of the row; when the last watermark is past the end of a window and
    the allowed lateness, all its elements have been emitted; and over the global window
    or a bounded input no row is dropped.  The rows may come in any batches and buckets,
    the sort may deliver them in any order, and so may the scan of the state; the runs
    always succeed. *)
Theorem gbk_exactly_once runs :
  delays_ok (spec_trigger spec) → accumulation spec = Discarding →
  (∀ rows, concat (external_sort rows) ≡ₚ rows) → (∀ X, scan_order X ≡ₚ elements X) →
  Forall good_run runs → (runs_panes runs < 2 ^ 63)%Z →
  ∃ r kepts droppeds, run_all runs start_run = (r, Ok ())
    ∧ takes spec (negb (is_global_window || input_is_bounded)) None runs kepts droppeds
    ∧ (∀ i, emitted i (run_written r) ++ held i (run_state r) ≡ₚ concat (input_values i <$> concat kepts))
    ∧ (∀ x key w i e, last runs = Some x → timely w → group_identity (E:=string) key w = Ok i →
        max_timestamp_millis (E:=string) w = Ok e → (earliest_completion spec e < ri_watermark x)%Z →
        emitted i (run_written r) ≡ₚ concat (input_values i <$> concat kepts))
    ∧ (is_global_window || input_is_bounded = true → concat kepts ≡ₚ concat (run_rows <$> runs)).
Proof.
  intros Hd Hacc Hs Ho Hg Hb.
  destruct (run_all_spec key_debug string_order bytes_order scan_order merge_windows external_sort spec is_global_window input_is_bounded
    Hd Hs Ho runs 0 start_run) as (r & kepts & droppeds & E & _ & Ht & Hok & Hset & Hv); try done; [unfold is_i, runs_panes in *; lia|].
  exists r, kepts, droppeds. split_and!; [done|done|by apply Hv| |].
  - intros x key w i e Hx Hw Hi He Hlt. rewrite <- (Hv Hacc i).
    by rewrite (settled_held spec _ _ _ _ i key w e Hok (Hset x Hx)), app_nil_r.
  - intros Hb'. rewrite Hb' in Ht. by eapply takes_all.
Qed.

(** Over any sequence of runs, in every accumulation mode, the state of a stage
    keeps its invariant: every group sits under the identity of its key and window, is
    open, holds a trigger state of the shape of the strategy's trigger, and counts its
    panes; no group is left whose window is over at the watermark of the last run. *)
Theorem gbk_state_invariant runs :
  delays_ok (spec_trigger spec) → (∀ rows, concat (external_sort rows) ≡ₚ rows) →
  (∀ X, scan_order X ≡ₚ elements X) → Forall good_run runs → (runs_panes runs < 2 ^ 63)%Z →
  ∃ r, run_all runs start_run = (r, Ok ()) ∧ run_output r = []
    ∧ (∀ i s, states (run_state r) !! i = Some s →
         group_ok (spec_trigger spec) i s ∧ (gs_pane_index s ≤ runs_panes runs)%Z)
    ∧ ∀ x i s, last runs = Some x → states (run_state r) !! i = Some s → settled spec (ri_watermark x) s.
Proof.
  intros Hd Hs Ho Hg Hb.
  destruct (run_all_spec key_debug string_order bytes_order scan_order merge_windows external_sort spec is_global_window input_is_bounded
    Hd Hs Ho runs 0 start_run) as (r & kepts & droppeds & E & Hout & _ & Hok & Hset & _); try done; [unfold is_i, runs_panes in *; lia|].
  exists r. split_and!; [done|done|exact Hok|]. intros x i s Hx. by apply Hset.
Qed.
End runs.

(** The strategy and the rows of the examples: a value ["a"] in two windows, a value
    ["b"] in the later one, a run that ends the windows, and a value ["c"] that comes too
    late for the first of them. *)
Definition demo_spec : TriggerSpec := mkTriggerSpec TDefault Discarding EndOfWindow 0.
Definition demo_end (w : BeamWindow) : Z := match w with IntervalWindow _ e => (e - 1)%Z | _ => 0%Z end.
Definition demo_row (v : string) (ws : list BeamWindow) : InputRow :=
  mkInputRow (KV (PString "k") (PRIMITIVE (PString v))) (PString "k") 5 None
    ((λ w, Some (window_key w)) <$> ws) (Z.of_nat (length ws))
    (match ws with [] => None | _ => Some (foldl Z.max (- 2 ^ 63)%Z (demo_end <$> ws)) end).
Definition demo_runs : list RunInput :=
  [mkRunInput 0 1 [[[demo_row "a" [IntervalWindow 0 10; IntervalWindow 5 15]]]; [[demo_row "b" [IntervalWindow 5 15]]]];
   mkRunInput 100 2 [];
   mkRunInput 100 3 [[[demo_row "c" [IntervalWindow 0 10]; demo_row "d" [IntervalWindow 100 200]]]]].

Lemma demo_window s e : timely (IntervalWindow s e) → from_binary_key (window_key (IntervalWindow s e)) = Some (IntervalWindow s e).
Proof. intros Hw. apply (from_to_binary_key (E:=string)); [apply Hw|]. by apply timely_window_key. Qed.

Lemma demo_latest_end {P : Profile} latest ws :
  Forall (λ w, ∃ s e, w = IntervalWindow s e ∧ dated w) ws →
  RecordTables.latest_end (E:=string) latest ws = Ok (Some (foldl Z.max latest (demo_end <$> ws))).
Proof.
  intros Hw. revert latest. induction Hw as [|w ws (s & e & -> & [_ Ht] & _) _ IH]; intros latest; [done|].
  cbn [RecordTables.latest_end max_timestamp_millis fmap list_fmap foldl demo_end]. rewrite arith_i_ok by done. apply IH.
Qed.

Lemma demo_row_good {P : Profile} v ws : Forall (λ w, ∃ s e, w = IntervalWindow s e ∧ dated w) ws → good_input (demo_row v ws).
Proof.
  intros Hw.
  assert (E : omap id ((λ w, Some (window_key w)) <$> ws) = window_key <$> ws).
  { clear. induction ws as [|w ws IH]; [done|]. cbn [fmap list_fmap omap list_omap id]. f_equal. exact IH. }
  constructor; [by eexists|done| | |]; unfold input_windows; cbn [demo_row ir_window_key ir_window_count ir_extra_window_keys opt_list app].
  - by rewrite E, length_fmap.
  - apply Forall_fmap, Forall_forall. by intros w _; eexists.
  - exists ws, no_firing. split.
    + rewrite E. clear E. induction Hw as [|w ws (s & e & -> & Ht) _ IH]; constructor; [|done]. split; [|done]. apply demo_window, Ht.
    + unfold RecordTables.max_finite_window_end_millis. cbn [RecordTables.windows demo_row ir_window_max_end].
      destruct ws as [|w ws']; [done|]. by apply demo_latest_end.
Qed.

Lemma demo_runs_good {P : Profile} : Forall good_run demo_runs.
Proof.
  unfold demo_runs, good_run, run_rows. rewrite !Forall_cons, Forall_nil. cbn [ri_clock ri_buckets concat app].
  rewrite !Forall_cons, !Forall_nil. split_and!; try done; try (unfold clock_ok; lia); apply demo_row_good;
    rewrite !Forall_cons, Forall_nil; split_and!; try done; eexists _, _; (split; [done|by split_and!]).
Qed.

Lemma gbk_exactly_once_witness :
  ∃ r kepts droppeds,
    run_all (P:=release_profile) (λ _, "") elements elements elements (λ _ m, (m, Ok [])) (λ rows, [rows]) demo_spec false false
      demo_runs start_run = (r, Ok ())
    ∧ takes (P:=release_profile) demo_spec true None demo_runs kepts droppeds
    ∧ (∀ i, emitted i (run_written r) ++ held i (run_state r) ≡ₚ concat (input_values i <$> concat kepts))
    ∧ (∀ x key w i e, last demo_runs = Some x → timely w → group_identity (E:=string) key w = Ok i →
        max_timestamp_millis (P:=release_profile) (E:=string) w = Ok e →
        (earliest_completion demo_spec e < ri_watermark x)%Z →
        emitted i (run_written r) ≡ₚ concat (input_values i <$> concat kepts))
    ∧ (false = true → concat kepts ≡ₚ concat (run_rows <$> demo_runs)).
Proof.
  apply (gbk_exactly_once (P:=release_profile) _ _ _ _ _ _ _ false false); [done|done| |done|exact demo_runs_good|by vm_compute].
  intros rows. cbn. by rewrite app_nil_r.
Defined.

(** The late row is not in the output, nor in the state; the row after it is held. *)
Lemma late_row_dropped :
  let r := (run_all (P:=release_profile) (λ _, "") elements elements elements (λ _ m, (m, Ok [])) (λ rows, [rows]) demo_spec false false
              demo_runs start_run).1 in
  concat (pane_values <$> run_written r) = PRIMITIVE ∘ PString <$> ["a"; "a"; "b"]
  ∧ concat ((λ s, pe_value <$> gs_elements s.2) <$> map_to_list (states (run_state r))) = [PRIMITIVE (PString "d")].
Proof. vm_compute. by split. Qed.

(** When the watermark of the run before is the last timestamp of a window, a row of the
    window is dropped although the window is still open and is not over yet. *)
Lemma row_of_open_window_dropped :
  let runs := [mkRunInput 9 1 [[[demo_row "a" [IntervalWindow 0 10]]]]; mkRunInput 9 2 [[[demo_row "b" [IntervalWindow 0 10]]]]] in
  let r := (run_all (P:=release_profile) (λ _, "") elements elements elements (λ _ m, (m, Ok [])) (λ rows, [rows]) demo_spec false false
              runs start_run).1 in
  run_written r = []
  ∧ ((λ s, (gs_window s.2, gs_closed s.2, pe_value <$> gs_elements s.2)) <$> map_to_list (states (run_state r)))
    = [(IntervalWindow 0 10, false, [PRIMITIVE (PString "a")])]
  ∧ (earliest_completion demo_spec 9 <? 9)%Z = false.
Proof. vm_compute. by split. Qed.

Lemma gbk_state_invariant_witness :
  ∃ r, run_all (P:=debug_profile) (λ _, "") elements elements elements (λ _ m, (m, Ok [])) (λ rows, [rows]) demo_spec
      false true demo_runs start_run = (r, Ok ())
    ∧ run_output r = []
    ∧ (∀ i s, states (run_state r) !! i = Some s → group_ok TDefault i s ∧ (gs_pane_index s ≤ runs_panes demo_runs)%Z)
    ∧ ∀ x i s, last demo_runs = Some x → states (run_state r) !! i = Some s →
        settled (P:=debug_profile) demo_spec (ri_watermark x) s.
Proof.
  apply (gbk_state_invariant (P:=debug_profile)); [done| |done|exact demo_runs_good|by vm_compute].
  intros rows. cbn. by rewrite app_nil_r.
Defined.

(** * One group *)

(** Adding elements to a group always succeeds and leaves every other group alone;
    the pane it fires, if any, carries what the group held followed by the new
    elements; and while the group stays open it goes on holding all of them, unless a
    pane was fired in discarding mode.  So a pane in accumulating mode repeats every
    element since the group was opened. *)
Theorem gbk_pane_contents {P : Profile} spec key w els wm pt n st i :
  delays_ok (spec_trigger spec) → clock_ok pt → timely w → (0 ≤ n)%Z → is_i 64 (n + 1) →
  group_identity (E:=string) key w = Ok i → gbk_ok (spec_trigger spec) n st →
  ∃ st' o, apply_group (E:=string) key w els spec wm pt st = Ok (st', o)
    ∧ gbk_ok (spec_trigger spec) (n + 1) st'
    ∧ (∀ j, j ≠ i → states st' !! j = states st !! j)
    ∧ (∀ v, o = Some v → is_pane_of i v = true ∧ pane_values v = held i st ++ (pe_value <$> els))
    ∧ ∀ s, states st' !! i = Some s →
        pe_value <$> gs_elements s
        = match o, accumulation spec with
          | Some _, Discarding => []
          | _, _ => held i st ++ (pe_value <$> els)
          end.
Proof.
  intros Hd Hp Hw Hn Hb Hi Hok.
  destruct (apply_group_spec spec key w els wm pt n st i Hd Hp Hw Hn Hb Hi Hok) as (st' & o & E & Hok' & _ & _ & Hf & _ & Hv & _).
  exists st', o. split_and!; try done. intros s Hs. by apply (apply_group_kept spec key w els wm pt st st' o i s).
Qed.

Definition accumulating_spec : TriggerSpec := mkTriggerSpec (Repeat (ElementCount 1)) Accumulating EndOfWindow 0.

Lemma gbk_pane_contents_witness :
  ∃ st' o, apply_group (P:=release_profile) (E:=string) (PString "k") GlobalWindow [mkPaneElement (PRIMITIVE (PInt64 1)) 5]
      accumulating_spec 0 1 empty_gbk_state = Ok (st', o)
    ∧ gbk_ok (Repeat (ElementCount 1)) (0 + 1) st'
    ∧ (∀ j, j ≠ mkIdentity (encoded_primitive_sort_key (PString "k")) (window_key GlobalWindow) →
         states st' !! j = states empty_gbk_state !! j)
    ∧ (∀ v, o = Some v →
         is_pane_of (mkIdentity (encoded_primitive_sort_key (PString "k")) (window_key GlobalWindow)) v = true
         ∧ pane_values v = held (mkIdentity (encoded_primitive_sort_key (PString "k")) (window_key GlobalWindow)) empty_gbk_state
                           ++ [PRIMITIVE (PInt64 1)])
    ∧ ∀ s, states st' !! mkIdentity (encoded_primitive_sort_key (PString "k")) (window_key GlobalWindow) = Some s →
        pe_value <$> gs_elements s
        = match o, accumulation accumulating_spec with
          | Some _, Discarding => []
          | _, _ => held (mkIdentity (encoded_primitive_sort_key (PString "k")) (window_key GlobalWindow)) empty_gbk_state
                    ++ [PRIMITIVE (PInt64 1)]
          end.
Proof.
  apply (gbk_pane_contents (P:=release_profile) accumulating_spec (PString "k") GlobalWindow
    [mkPaneElement (PRIMITIVE (PInt64 1)) 5] 0 1 0 empty_gbk_state); try done.
Defined.

(** Draining the ready groups in chunks of any size ends and is one sweep over the
    groups: each group the run has not evaluated is evaluated exactly once, in the
    order of the scan, whatever the chunks; no group is left unevaluated, and the panes
    are those of the sweep, at most one per group. *)
Theorem gbk_drain_is_one_sweep {P : Profile} (scan_order : gset GroupIdentity → list GroupIdentity) spec wm pt limit n st :
  (∀ X, scan_order X ≡ₚ elements X) → limit ≠ 0%nat → ready_scan st = None →
  delays_ok (spec_trigger spec) → is_i 64 (n + 1) → gbk_ok (spec_trigger spec) n st →
  ∃ st' out, drain_ready (E:=string) scan_order spec wm pt limit st = Ok (st', out)
    ∧ sweep spec wm pt (scan_order (dom (states st))) st = Ok (st', out)
    ∧ (∀ i s, states st' !! i = Some s → gs_evaluated_this_run s = true)
    ∧ (∀ i s, states st !! i = Some s → gs_evaluated_this_run s = true → states st' !! i = Some s)
    ∧ ∀ i, (length (panes_of i out) ≤ 1)%nat.
Proof.
  intros Ho Hl Hs Hd Hb Hok.
  destruct (sweep_spec spec wm pt n (scan_order (dom (states st))) st Hd Hb (ok_mid _ _ _ Hok))
    as (st' & out & Hsw & _ & _ & _ & Hpan).
  destruct (sweep_frame _ _ _ _ _ _ _ Hsw) as (_ & Hev & Hscan & _ & Hdom & _ & Hkeep).
  pose proof (drain_ready_sweep scan_order Ho spec wm pt limit st st' out Hl Hs Hsw) as Hdrain.
  exists st', out. split_and!; try done.
  - rewrite Hdrain. destruct st'. simpl in Hscan. rewrite Hs in Hscan. by subst.
  - intros i s Hi. apply (Hev i s); [|done]. rewrite Ho. apply elem_of_elements, Hdom, elem_of_dom. by exists s.
  - intros i. specialize (Hpan i). destruct (states st !! i) as [s|]; [destruct (gs_evaluated_this_run s)|]; lia.
Qed.

Definition demo_group : WindowState :=
  mkWindowState (PString "k") (IntervalWindow 0 10) [mkPaneElement (PRIMITIVE (PInt64 1)) 5] [5%Z] (new_runner TDefault) 0 false false false.
Definition demo_state : GbkState :=
  mkGbkState {[ mkIdentity (encoded_primitive_sort_key (PString "k")) (window_key (IntervalWindow 0 10)) := demo_group ]} None None.

Lemma demo_state_ok : gbk_ok TDefault 0 demo_state.
Proof.
  intros i s. unfold demo_state. cbn [states]. intros [<- <-]%lookup_singleton_Some. split; [|done].
  constructor; try done.
Qed.

Lemma gbk_drain_is_one_sweep_witness :
  ∃ st' out, drain_ready (P:=release_profile) (E:=string) elements demo_spec 100 1 1 demo_state = Ok (st', out)
    ∧ sweep (P:=release_profile) demo_spec 100 1 (elements (dom (states demo_state))) demo_state = Ok (st', out)
    ∧ (∀ i s, states st' !! i = Some s → gs_evaluated_this_run s = true)
    ∧ (∀ i s, states demo_state !! i = Some s → gs_evaluated_this_run s = true → states st' !! i = Some s)
    ∧ ∀ i, (length (panes_of i out) ≤ 1)%nat.
Proof.
  apply (gbk_drain_is_one_sweep (P:=release_profile) elements demo_spec 100 1 1 0 demo_state); try done.
  apply demo_state_ok.
Defined.

(** * Rows and windows *)

(** Decoding a sorted stream of well-formed rows, cut into batches in any way, gives
    every key in one group and every window of a key once in it, and the groups hold
    exactly the rows' elements, in the rows' order. *)
Theorem gbk_rows_grouped batches :
  Forall good_row (concat batches) → StronglySorted id_le (row_id <$> concat batches) →
  ∃ gs, decode_all None batches = Ok gs
    ∧ NoDup (kg_encoded_key <$> gs) ∧ NoDup (concat (group_ids <$> gs))
    ∧ Forall (λ g, kg_encoded_key g = encoded_primitive_sort_key (kg_key g)) gs
    ∧ concat (group_entries <$> gs) = row_entry <$> concat batches.
Proof.
  intros Hr Hs. destruct (decode_sorted batches Hr Hs) as (gs & E & Hg & H1 & H2 & H3).
  exists gs. split_and!; try done. eapply Forall_impl; [exact Hg|]. by intros g [].
Qed.

Definition demo_flat (v : string) (s e : Z) : FlatRow :=
  mkFlatRow (KV (PString "k") (PRIMITIVE (PString v))) 5 (window_key (IntervalWindow s e)) (encoded_primitive_sort_key (PString "k")).

Lemma gbk_rows_grouped_witness :
  ∃ gs, decode_all None [[demo_flat "a" 0 10]; []; [demo_flat "b" 0 10; demo_flat "a" 5 15]] = Ok gs
    ∧ NoDup (kg_encoded_key <$> gs) ∧ NoDup (concat (group_ids <$> gs))
    ∧ Forall (λ g, kg_encoded_key g = encoded_primitive_sort_key (kg_key g)) gs
    ∧ concat (group_entries <$> gs) = row_entry <$> concat [[demo_flat "a" 0 10]; []; [demo_flat "b" 0 10; demo_flat "a" 5 15]].
Proof.
  assert (Hg : ∀ v s e, timely (IntervalWindow s e) → good_row (demo_flat v s e)).
  { intros v s e Hw. exists (PString "k"), (PRIMITIVE (PString v)), (IntervalWindow s e). constructor; try done.
    exact (from_to_binary_key (E:=string) _ _ (proj1 Hw) (timely_window_key _ Hw)). }
  apply gbk_rows_grouped.
  - cbn [concat app]. rewrite !Forall_cons, Forall_nil. split_and!; try done; apply Hg; by split_and!.
  - cbn [concat app fmap list_fmap].
    repeat first [apply SSorted_cons|apply SSorted_nil|apply List.Forall_cons|apply List.Forall_nil];
      right; (split; [done|]); unfold bytes_le; vm_compute; discriminate.
Defined.

(** C24: merging the interval windows of a key cuts them into sessions: every session
    starts with the first and ends with the last of its intervals and holds the elements
    of all of them, every interval is in exactly one session, and two intervals share a
    session exactly when a chain of overlapping intervals links them. *)
Theorem gbk_sessions key_debug string_order g :
  (∀ X, string_order X ≡ₚ elements X) →
  Forall (λ w : BeamWindow * list PaneElement, is_interval w.1 = true) (kg_windows g) →
  Forall proper (intervals_of g) →
  ∃ runs out, merge_interval_groups key_debug string_order (groups_of g) = Ok out
    ∧ Forall2 (session (kg_key g)) runs out
    ∧ concat runs ≡ₚ intervals_of g
    ∧ ∀ i j, i ∈ intervals_of g →
        (rtc (overlap_in (intervals_of g)) i j ↔ ∃ run, run ∈ runs ∧ i ∈ run ∧ j ∈ run).
Proof.
  intros Ho Hi Hp. destruct (merge_interval_groups_spec key_debug string_order g Ho Hi Hp) as (runs & out & E & Hs).
  exists runs, out. split_and!; [done|by destruct Hs..|]. intros i j Hin. by apply (sessions_classes _ _ _ _ _ _ Hs).
Qed.

Definition demo_key_group : KeyGroup :=
  mkKeyGroup (encoded_primitive_sort_key (PString "k")) (PString "k")
    [(IntervalWindow 20 30, []); (IntervalWindow 0 10, []); (IntervalWindow 5 15, []); (IntervalWindow 15 20, [])].

Lemma gbk_sessions_witness :
  ∃ runs out, merge_interval_groups (λ _, "k") elements (groups_of demo_key_group) = Ok out
    ∧ Forall2 (session (kg_key demo_key_group)) runs out
    ∧ concat runs ≡ₚ intervals_of demo_key_group
    ∧ ∀ i j, i ∈ intervals_of demo_key_group →
        (rtc (overlap_in (intervals_of demo_key_group)) i j ↔ ∃ run, run ∈ runs ∧ i ∈ run ∧ j ∈ run).
Proof.
  apply (gbk_sessions (λ _, "k") elements demo_key_group); [done|by repeat constructor|].
  repeat (apply Forall_cons; split; [by vm_compute|]). by apply Forall_nil.
Defined.

(** When the SDK's answer partitions the windows of a key, the groups applied are one
    per merged window, each holding the elements of exactly the windows merged into it,
    in their order. *)
Theorem gbk_custom_merge bytes_order key ws ms target :
  (∀ X, bytes_order X ≡ₚ elements X) → validate_merge_result (ws.*1) ms = Ok () →
  Forall wf_window (ws.*1) → Forall (λ m, wf_window (merged m)) ms →
  (∀ w, w ∈ ws.*1 → merged_into ms w (target w)) →
  ∃ out, apply_merge_results bytes_order key ws ms = Ok out ∧ NoDup (out.*1.*2)
    ∧ (∀ w, w ∈ out.*1.*2 ↔ w ∈ target <$> ws.*1)
    ∧ Forall (λ g : group, g.1.1 = key ∧ g.2 = brought target g.1.2 ws) out.
Proof. intros Ho Hv. apply validate_partitions in Hv. by apply apply_merge_results_spec. Qed.

Definition demo_windows : WindowValues :=
  [(IntervalWindow 0 10, [mkPaneElement (PRIMITIVE (PInt64 1)) 0]); (GlobalWindow, []);
   (IntervalWindow 5 15, [mkPaneElement (PRIMITIVE (PInt64 2)) 5])].
Definition demo_merges : list MergedWindows :=
  [mkMerged (IntervalWindow 0 15) [IntervalWindow 5 15; IntervalWindow 0 10]; mkMerged GlobalWindow [GlobalWindow]].
Definition demo_target (w : BeamWindow) : BeamWindow :=
  match w with IntervalWindow _ _ => IntervalWindow 0 15 | w => w end.

Lemma gbk_custom_merge_witness :
  ∃ out, apply_merge_results elements (PString "k") demo_windows demo_merges = Ok out ∧ NoDup (out.*1.*2)
    ∧ (∀ w, w ∈ out.*1.*2 ↔ w ∈ demo_target <$> demo_windows.*1)
    ∧ Forall (λ g : group, g.1.1 = PString "k" ∧ g.2 = brought demo_target g.1.2 demo_windows) out.
Proof.
  apply (gbk_custom_merge elements (PString "k") demo_windows demo_merges demo_target); try done.
  - cbn [demo_windows fmap list_fmap fst]. rewrite !Forall_cons, Forall_nil. by split_and!.
  - unfold demo_merges. rewrite !Forall_cons, Forall_nil. by split_and!.
  - intros w Hw. repeat (apply elem_of_cons in Hw as [->|Hw]); [..|by apply elem_of_nil in Hw].
    + exists (mkMerged (IntervalWindow 0 15) [IntervalWindow 5 15; IntervalWindow 0 10]).
      split_and!; [unfold demo_merges; set_solver|cbn [originals]; set_solver|done].
    + exists (mkMerged GlobalWindow [GlobalWindow]). split_and!; [unfold demo_merges; set_solver|cbn [originals]; set_solver|done].
    + exists (mkMerged (IntervalWindow 0 15) [IntervalWindow 5 15; IntervalWindow 0 10]).
      split_and!; [unfold demo_merges; set_solver|cbn [originals]; set_solver|done].
Defined.

(** * Window merging *)

(** The canonical text of a window reads back as the window, and different windows
    have different texts. *)
Theorem canonical_window_key_faithful w :
  match w with IntervalWindow s e => is_i 64 s ∧ is_i 64 e | _ => True end →
  from_canonical_key (canonical_key w) = Some w ∧ ∀ w', canonical_key w = canonical_key w' → w = w'.
Proof. intros Hw. split; [by apply from_canonical_key_round_trip|]. intros w'. apply (inj canonical_key). Qed.

Lemma canonical_window_key_faithful_witness :
  from_canonical_key (canonical_key (IntervalWindow (-5) 10)) = Some (IntervalWindow (-5) 10)
  ∧ ∀ w', canonical_key (IntervalWindow (-5) 10) = canonical_key w' → IntervalWindow (-5) 10 = w'.
Proof. apply (canonical_window_key_faithful (IntervalWindow (-5) 10)). by split. Defined.

Section service.
Context `{P : Profile} (first_key : gmap MergeCacheKey (list MergedWindows) → option MergeCacheKey)
  (new_v4 : nat → bytes) (register : string → outcome string unit)
  (exchange : string → bytes → outcome string bytes) (comps : MergeComponents).

(** Whatever the SDK answers, the result of a merge request either is an error or
    partitions the requested windows: every requested window is in exactly one merge,
    and nothing else is.  The cache only ever holds such partitions, at most
    [MERGE_CACHE_MAX_ENTRIES] of them, so a hit is as good as an answer. *)
Theorem merge_service_partitions pcollection_id requests s s' r :
  (∀ m, m ≠ ∅ → ∃ k, first_key m = Some k ∧ is_Some (m !! k)) → cache_ok (merge_cache s) →
  merge_windows_batch_for_pcollection first_key new_v4 register exchange comps pcollection_id requests s = (s', r) →
  cache_ok (merge_cache s') ∧ ∀ results, r = Ok results → Forall2 partitions requests results.
Proof. intros Hf Hc. by apply (merge_batch_partitions first_key new_v4 register exchange comps Hf). Qed.

(** An SDK that answers every request of a batch once, in any order, with a partition
    of its windows, is understood: the call returns the partitions in the order of the
    requests. *)
Theorem merge_answers_understood strategy_id c requests encoded answers encs results :
  traverse (λ '(nonce, ws), encode_merge_input nonce ws c) (imap (λ i ws, (new_v4 i, ws)) requests) = Ok encoded →
  exchange strategy_id (concat encoded) = Ok (concat encs) →
  Forall wf_answer answers → traverse (encode_answer c) answers = Ok encs →
  NoDup (new_v4 <$> seq 0 (length requests)) → Forall2 partitions requests results →
  ((λ a, (ans_nonce a, answer_merges a)) <$> answers) ≡ₚ zip (new_v4 <$> seq 0 (length requests)) results →
  invoke_batch new_v4 exchange strategy_id c requests = Ok results.
Proof. intros. by eapply invoke_batch_answered. Qed.
End service.

(** The first key of a map, as a concrete choice. *)
Definition some_key (m : gmap MergeCacheKey (list MergedWindows)) : option MergeCacheKey := head (map_to_list m).*1.

Lemma some_key_in m : m ≠ ∅ → ∃ k, some_key m = Some k ∧ is_Some (m !! k).
Proof.
  intros Hm. unfold some_key. destruct (map_to_list m) as [|[k v] l] eqn:E; [by apply map_to_list_empty_iff in E|].
  exists k. split; [done|]. exists v. apply elem_of_map_to_list. rewrite E. by left.
Qed.

Definition demo_comps : MergeComponents :=
  mkMergeComponents {[ "pc" := "ws" ]} {[ "ws" := mkMergeStrategy true true "wc" ]} ∅.
Definition demo_service : MergeService := mkMergeService {[ "ws" := IntervalCoder ]} ∅.

(** Sixteen bytes that name a request. *)
Definition demo_nonce (i : nat) : bytes := replicate 15 (u8 0) ++ [u8 (Z.of_nat i)].

(** The answers for the requests of the example. *)
Definition demo_answers : list Answer :=
  [mkAnswer (demo_nonce 1) [IntervalWindow 50 60] [];
   mkAnswer (demo_nonce 0) [] [mkMerged (IntervalWindow 0 15) [IntervalWindow 0 10; IntervalWindow 5 15]]].
Definition demo_output : bytes :=
  match traverse (encode_answer (P:=release_profile) IntervalCoder) demo_answers with Ok encs => concat encs | _ => [] end.
Definition demo_requests : list (list BeamWindow) :=
  [[IntervalWindow 5 15; IntervalWindow 0 10]; [IntervalWindow 50 60]].
Definition demo_results : list (list MergedWindows) :=
  [[mkMerged (IntervalWindow 0 15) [IntervalWindow 0 10; IntervalWindow 5 15]];
   [mkMerged (IntervalWindow 50 60) [IntervalWindow 50 60]]].

Lemma merge_service_partitions_witness :
  let '(s', r) := merge_windows_batch_for_pcollection (P:=release_profile) some_key demo_nonce (λ _, Ok ())
                    (λ _ _, Ok demo_output) demo_comps "pc" demo_requests demo_service in
  cache_ok (merge_cache s') ∧ (∀ results, r = Ok results → Forall2 partitions demo_requests results).
Proof.
  destruct (merge_windows_batch_for_pcollection _ _ _ _ _ _ _ _) as [s' r] eqn:E.
  apply (merge_service_partitions (P:=release_profile) some_key demo_nonce (λ _, Ok ()) (λ _ _, Ok demo_output) demo_comps
    "pc" demo_requests demo_service s' r); [exact some_key_in| |exact E].
  split; [by vm_compute; lia|]. by intros k ms H.
Defined.

Definition demo_encoded : list bytes :=
  match traverse (λ '(nonce, ws), encode_merge_input (P:=release_profile) nonce ws IntervalCoder)
          (imap (λ i ws, (demo_nonce i, ws)) demo_requests) with
  | Ok encs => encs
  | _ => []
  end.
Definition demo_encs : list bytes :=
  match traverse (encode_answer (P:=release_profile) IntervalCoder) demo_answers with Ok encs => encs | _ => [] end.

Lemma merge_answers_understood_witness :
  invoke_batch (P:=release_profile) demo_nonce (λ _ _, Ok demo_output) "ws" IntervalCoder demo_requests = Ok demo_results.
Proof.
  apply (merge_answers_understood (P:=release_profile) demo_nonce (λ _ _, Ok demo_output) "ws" IntervalCoder demo_requests
    demo_encoded demo_answers demo_encs).
  - by vm_compute.
  - by vm_compute.
  - unfold demo_answers. rewrite !Forall_cons, Forall_nil. unfold wf_answer, wf_windows, demo_nonce. simpl.
    split_and!; try done; repeat constructor; done.
  - by vm_compute.
  - cbn. rewrite !NoDup_cons. split_and!; [|by intros H; apply elem_of_nil in H|by apply NoDup_nil_2].
    intros H. apply elem_of_cons in H as [H|H]; [by vm_compute in H|by apply elem_of_nil in H].
  - repeat apply List.Forall2_cons; try apply List.Forall2_nil; apply validate_partitions; by vm_compute.
  - apply Permutation_swap.
Defined.

(** * Merging does not reach across runs

    The windows that are merged are those of the rows of one run: a session of an
    earlier run is not extended by overlapping rows of a later one.  Two rows whose
    intervals overlap make one group when they arrive together and two groups when
    they arrive in different runs. *)
Definition demo_merging_runs (buckets1 buckets2 : list (list (list InputRow))) : GbkRun :=
  let run b := execute (P:=release_profile) (λ _, "k") elements elements elements (λ _ m, (m, Ok [])) (λ rows, [rows])
                 demo_spec true 0 1 false false (Ok ()) b in
  (run buckets2 (run buckets1 start_run).1).1.

Lemma sessions_of_different_runs_stay_apart :
  let a := demo_row "a" [IntervalWindow 0 10] in
  let b := demo_row "b" [IntervalWindow 5 15] in
  size (states (run_state (demo_merging_runs [[[a; b]]] []))) = 1%nat
  ∧ size (states (run_state (demo_merging_runs [[[a]]] [[[b]]]))) = 2%nat.
Proof. vm_compute. by split. Qed.
