(* ===== verification/Metrics.v ===== *)
(** Job metrics (engine/metrics.rs): the values SDK bundles report, decoded, merged and
    kept per metric.  Logging of what is skipped is left out. *)
From S2P Require Import Prelude Bytes Varint.
Local Open Scope string_scope.
Local Open Scope list_scope.
Set Warnings "-clear-no-such-hyp".

(** * Data *)

Definition SUM_INT64_TYPE : string := "beam:metrics:sum_int64:v1".
Definition DISTRIBUTION_INT64_TYPE : string := "beam:metrics:distribution_int64:v1".
Definition LATEST_INT64_TYPE : string := "beam:metrics:latest_int64:v1".
Definition SET_STRING_TYPE : string := "beam:metrics:set_string:v1".
Definition BOUNDED_TRIE_TYPE : string := "beam:metrics:bounded_trie:v1".

(** [prost_types::Timestamp] and [MonitoringInfo]. *)
Record Timestamp : Type := mkTimestamp { seconds : Z; nanos : Z }.

Record MonitoringInfo : Type := mkMonitoringInfo {
  mi_urn : string;
  mi_type : string;
  mi_payload : bytes;
  mi_labels : gmap string string;
  mi_start_time : option Timestamp;
}.

Record MetricKey : Type := mkMetricKey {
  mk_urn : string;
  mk_type : string;
  mk_labels : gmap string string;
}.

#[export] Instance MetricKey_eq_dec : EqDecision MetricKey.
Proof. solve_decision. Defined.
#[export] Program Instance MetricKey_countable : Countable MetricKey :=
  inj_countable' (λ k, (mk_urn k, mk_type k, mk_labels k)) (λ p, mkMetricKey p.1.1 p.1.2 p.2) _.
Next Obligation. by intros []. Qed.

(** [From<&MonitoringInfo>]. *)
Definition key_of (info : MonitoringInfo) : MetricKey := mkMetricKey (mi_urn info) (mi_type info) (mi_labels info).

Abbreviation JobMetrics := (gmap MetricKey MonitoringInfo).

(** * Payloads *)

Abbreviation reading := (reader string).

(** [decode_varint_checked]. *)
Fixpoint decode_varint_checked_loop (buf : bytes) (result shift : Z) : outcome string (Z * bytes) :=
  match buf with
  | [] => Err "metric payload ended inside a varint"
  | byte :: rest =>
      if (64 <=? shift)%Z then Err "metric varint exceeds 64 bits"
      else
        let result := Z.lor result (to_unsigned 64 (Z.shiftl (Z.land (u8_to_Z byte) 127) shift)) in
        if (Z.land (u8_to_Z byte) 128 =? 0)%Z then Ok (result, rest)
        else decode_varint_checked_loop rest result (shift + 7)
  end.

Definition decode_varint_checked : reading Z := λ buf, decode_varint_checked_loop buf 0 0.

(** [decode_signed_varint] of the module. *)
Definition decode_signed_checked : reading Z := v ← decode_varint_checked; mret (to_signed 64 v).

(** [ensure!(!buf.has_remaining(), ..)]. *)
Definition exhausted {A} (what : string) (m : reading A) (payload : bytes) : outcome string A :=
  '(a, rest) ← m payload;
  match rest with [] => Ok a | _ => Err (what +:+ " payload has trailing bytes") end.

Definition decode_single_i64 : bytes → outcome string Z := exhausted "counter" decode_signed_checked.

Definition decode_distribution : bytes → outcome string (Z * Z * Z * Z) :=
  exhausted "distribution"
    (a ← decode_signed_checked; b ← decode_signed_checked; c ← decode_signed_checked; d ← decode_signed_checked;
     mret (a, b, c, d)).

Definition decode_gauge : bytes → outcome string (Z * Z) :=
  exhausted "gauge" (a ← decode_signed_checked; b ← decode_signed_checked; mret (a, b)).

(** [decode_string] of the module: an entry of a string set. *)
Definition decode_string_entry : reading string :=
  len ← decode_varint_checked;
  remaining ← remaining;
  if (remaining <? len)%Z then fail "string-set payload ended before an entry"
  else
    bytes ← copy_to_slice len;
    match from_utf8 bytes with Some s => mret s | None => fail "string-set entry is not UTF-8" end.

(** The chunks of a set of unknown size; every round reads a varint, so a round per
    byte is enough. *)
Fixpoint decode_chunks (fuel : nat) : reading (list string) :=
  match fuel with
  | O => panic "chunk loop bound"
  | S fuel =>
      chunk_count ← decode_varint_checked;
      if (chunk_count =? 0)%Z then mret []
      else
        xs ← read_n (Z.to_nat chunk_count) decode_string_entry;
        ys ← decode_chunks fuel;
        mret (xs ++ ys)
  end.

Definition decode_string_entries : reading (list string) :=
  remaining ← remaining;
  if (remaining <? 4)%Z then fail "string-set payload has no count"
  else
    count ← get_i32;
    if (0 <=? count)%Z then read_n (Z.to_nat count) decode_string_entry
    else if (count =? -1)%Z then λ buf, decode_chunks (S (length buf)) buf
    else fail "string-set payload has invalid count".

Definition decode_string_set (payload : bytes) : outcome string (gset string) :=
  l ← exhausted "string-set" decode_string_entries payload; Ok (list_to_set l).

(** ** Merging *)

(** [checked_add] on [i64]. *)
Definition checked_add (what : string) (a b : Z) : outcome string Z :=
  if in_i 64 (a + b) then Ok (a + b)%Z else Err (what +:+ " overflow").

Definition put_i64s (l : list Z) : bytes := concat ((λ z, encode_varint (to_unsigned 64 z)) <$> l).

Definition merge_sum (left right : bytes) : outcome string bytes :=
  left ← decode_single_i64 left;
  right ← decode_single_i64 right;
  sum ← checked_add "counter" left right;
  Ok (put_i64s [sum]).

Definition merge_distribution (left right : bytes) : outcome string bytes :=
  '(left_count, left_sum, left_min, left_max) ← decode_distribution left;
  '(right_count, right_sum, right_min, right_max) ← decode_distribution right;
  count ← checked_add "distribution count" left_count right_count;
  sum ← checked_add "distribution sum" left_sum right_sum;
  Ok (put_i64s [count; sum; Z.min left_min right_min; Z.max left_max right_max]).

Definition merge_gauge (left right : bytes) : outcome string bytes :=
  left ← decode_gauge left;
  right ← decode_gauge right;
  let '(timestamp, value) := if (left.1 <=? right.1)%Z then right else left in
  Ok (put_i64s [timestamp; value]).

Definition put_string (s : string) : bytes := encode_varint (str_len s) ++ as_bytes s.

(** A [BTreeSet] iterates in order. *)
Definition merge_string_set (left right : bytes) : outcome string bytes :=
  left ← decode_string_set left;
  right ← decode_string_set right;
  let values := left ∪ right in
  if (Z.of_nat (size values) <? 2 ^ 31)%Z
  then Ok (put_i32 (Z.of_nat (size values)) ++ concat (put_string <$> sort_ids (elements values)))
  else Panic "string-set metric length exceeds i32::MAX".

(** [merge_start_time]. *)
Definition timestamp_lt (a b : Timestamp) : bool :=
  ((seconds a <? seconds b) || ((seconds a =? seconds b) && (nanos a <? nanos b)))%Z.

Definition merge_start_time (current incoming : option Timestamp) : option Timestamp :=
  match incoming with
  | None => current
  | Some incoming =>
      match current with
      | Some current => if timestamp_lt incoming current then Some incoming else Some current
      | None => Some incoming
      end
  end.

Definition is_supported_type (type_urn : string) : bool :=
  bool_decide (type_urn = SUM_INT64_TYPE) || bool_decide (type_urn = DISTRIBUTION_INT64_TYPE)
  || bool_decide (type_urn = LATEST_INT64_TYPE) || bool_decide (type_urn = SET_STRING_TYPE).

Definition validate_payload (type_urn : string) (payload : bytes) : outcome string unit :=
  if decide (type_urn = SUM_INT64_TYPE) then _ ← decode_single_i64 payload; Ok ()
  else if decide (type_urn = DISTRIBUTION_INT64_TYPE) then _ ← decode_distribution payload; Ok ()
  else if decide (type_urn = LATEST_INT64_TYPE) then _ ← decode_gauge payload; Ok ()
  else if decide (type_urn = SET_STRING_TYPE) then _ ← decode_string_set payload; Ok ()
  else Err ("unsupported metric type: " +:+ type_urn).

Definition merge_metric (current incoming : MonitoringInfo) : outcome string MonitoringInfo :=
  payload ← (if decide (mi_type current = SUM_INT64_TYPE) then merge_sum (mi_payload current) (mi_payload incoming)
    else if decide (mi_type current = DISTRIBUTION_INT64_TYPE) then merge_distribution (mi_payload current) (mi_payload incoming)
    else if decide (mi_type current = LATEST_INT64_TYPE) then merge_gauge (mi_payload current) (mi_payload incoming)
    else if decide (mi_type current = SET_STRING_TYPE) then merge_string_set (mi_payload current) (mi_payload incoming)
    else Err ("unsupported metric type: " +:+ mi_type current));
  Ok (mkMonitoringInfo (mi_urn current) (mi_type current) payload (mi_labels current)
        (merge_start_time (mi_start_time current) (mi_start_time incoming))).

(** * Recording *)

(** One round of the loop of [record]: what cannot be used is skipped. *)
Definition record_one (metrics : JobMetrics) (info : MonitoringInfo) : outcome string JobMetrics :=
  if decide (mi_type info = BOUNDED_TRIE_TYPE) then Ok metrics
  else if decide (mi_payload info = []) then Ok metrics
  else if negb (is_supported_type (mi_type info)) then Ok metrics
  else
    match metrics !! key_of info with
    | Some current =>
        match merge_metric current info with
        | Ok merged => Ok (<[key_of info := merged]> metrics)
        | Err _ => Ok metrics
        | Panic w => Panic w
        end
    | None =>
        match validate_payload (mi_type info) (mi_payload info) with
        | Ok _ => Ok (<[key_of info := info]> metrics)
        | Err _ => Ok metrics
        | Panic w => Panic w
        end
    end.

Fixpoint record (metrics : JobMetrics) (infos : list MonitoringInfo) : outcome string JobMetrics :=
  match infos with
  | [] => Ok metrics
  | info :: infos => metrics ← record_one metrics info; record metrics infos
  end.

Definition clear_metrics : JobMetrics := ∅.

(** [Ord] on a metric key: its URN, its type, then its labels in order. *)
Definition sorted_labels (m : gmap string string) : list (string * string) :=
  omap (λ k, (λ v, (k, v)) <$> m !! k) (sort_ids (elements (dom m))).
Definition metric_key_compare (a b : MetricKey) : comparison :=
  match string_compare (mk_urn a) (mk_urn b) with
  | Eq => match string_compare (mk_type a) (mk_type b) with
          | Eq => list_compare pair_compare (sorted_labels (mk_labels a)) (sorted_labels (mk_labels b))
          | c => c
          end
  | c => c
  end.

(** [snapshot]: the values in the order of their keys. *)
Definition snapshot (metrics : JobMetrics) : list MonitoringInfo :=
  (sort_by (λ a b : MetricKey * MonitoringInfo, match metric_key_compare a.1 b.1 with Gt => false | _ => true end)
     (map_to_list metrics)).*2.
