(* ===== verification/MetricsSpec.v ===== *)
(** What the job metrics hold: the merge of the values that bundles reported, per
    metric. *)
From S2P Require Import Prelude Bytes Varint Metrics.
Local Open Scope string_scope.
Local Open Scope list_scope.
Set Warnings "-clear-no-such-hyp".

(** * Reading back what was written *)

Lemma checked_loop_ok buf result shift x :
  decode_varint_loop (P:=debug_profile) (E:=string) buf result shift = Ok x →
  decode_varint_checked_loop buf result shift = Ok x.
Proof.
  revert result shift. induction buf as [|b buf IH]; intros result shift H; [done|].
  cbn [decode_varint_loop decode_varint_checked_loop] in *. unfold shl_u64 in H.
  destruct (Z.ltb_spec shift 64) as [Hs|Hs]; [|done]. cbn [mbind outcome_bind] in H.
  destruct (Z.leb_spec 64 shift); [lia|]. case_match; [done|]. by apply IH.
Qed.

Lemma reads_checked v : is_u 64 v → reads decode_varint_checked (encode_varint v) v.
Proof.
  intros Hv rest. apply checked_loop_ok. pose proof (reads_varint (P:=debug_profile) (E:=string) v Hv rest) as H.
  with_strategy transparent [decode_varint] unfold decode_varint in H. exact H.
Qed.

Lemma reads_signed_checked z : is_i 64 z → reads decode_signed_checked (encode_varint (to_unsigned 64 z)) z.
Proof.
  intros Hz. eapply reads_bind_nil; [apply reads_checked, to_unsigned_range; lia|]. by rewrite signed_unsigned.
Qed.

Lemma exhausted_reads {A} what (m : reading A) enc a : reads m enc a → exhausted what m enc = Ok a.
Proof. intros H. unfold exhausted. specialize (H []). rewrite app_nil_r in H. by rewrite H. Qed.

Lemma decode_i64s_put {A} what (m : reading A) zs a : reads m (put_i64s zs) a → exhausted what m (put_i64s zs) = Ok a.
Proof. apply exhausted_reads. Qed.

Lemma single_put z : is_i 64 z → decode_single_i64 (put_i64s [z]) = Ok z.
Proof. intros Hz. apply exhausted_reads. unfold put_i64s. simpl. rewrite app_nil_r. by apply reads_signed_checked. Qed.

Lemma gauge_put a b : is_i 64 a → is_i 64 b → decode_gauge (put_i64s [a; b]) = Ok (a, b).
Proof.
  intros Ha Hb. apply exhausted_reads. unfold put_i64s. simpl. rewrite app_nil_r.
  eapply reads_bind; [by apply reads_signed_checked|]. by eapply reads_bind_nil; [apply reads_signed_checked|].
Qed.

Lemma distribution_put a b c d :
  is_i 64 a → is_i 64 b → is_i 64 c → is_i 64 d → decode_distribution (put_i64s [a; b; c; d]) = Ok (a, b, c, d).
Proof.
  intros Ha Hb Hc Hd. apply exhausted_reads. unfold put_i64s. simpl. rewrite app_nil_r.
  do 3 (eapply reads_bind; [by apply reads_signed_checked|]).
  by eapply reads_bind_nil; [apply reads_signed_checked|].
Qed.

Lemma size_union_le (X Y : gset string) : (size (X ∪ Y) ≤ size X + size Y)%nat.
Proof. rewrite size_union_alt. pose proof (subseteq_size (Y ∖ X) Y). assert (Y ∖ X ⊆ Y) by set_solver. specialize (H H0). lia. Qed.

(** * What a read returns *)

(** A read in range that never panics and takes from the front of the buffer: [n] bytes
    at least. *)
Definition sound {A} (n : nat) (m : reading A) (Q : A → Prop) : Prop :=
  ∀ buf, (∃ e, m buf = Err e) ∨ ∃ a rest, m buf = Ok (a, rest) ∧ Q a ∧ (length rest + n ≤ length buf)%nat.

Lemma sound_ret {A} (a : A) (Q : A → Prop) : Q a → sound 0 (mret a) Q.
Proof. intros H buf. right. exists a, buf. split_and!; [done|done|lia]. Qed.

Lemma sound_fail {A} n e (Q : A → Prop) : sound n (fail e) Q.
Proof. intros buf. left. by exists e. Qed.

Lemma sound_bind {A B} n k (m : reading A) (f : A → reading B) Q R :
  sound n m Q → (∀ a, Q a → sound k (f a) R) → sound (n + k) (m ≫= f) R.
Proof.
  intros Hm Hf buf. rewrite run_bind. destruct (Hm buf) as [[e ->]|(a & rest & -> & Ha & Hl)]; [left; by exists e|].
  destruct (Hf a Ha rest) as [[e ->]|(b & rest' & -> & Hb & Hl')]; [left; by exists e|].
  right. exists b, rest'. split_and!; [done|done|lia].
Qed.

Lemma sound_weaken {A} n k (m : reading A) (Q R : A → Prop) :
  (k ≤ n)%nat → (∀ a, Q a → R a) → sound n m Q → sound k m R.
Proof. intros Hk Hi Hm buf. destruct (Hm buf) as [H|(a & rest & ? & ? & ?)]; [by left|right]. exists a, rest. split_and!; [done|auto|lia]. Qed.

Lemma lor_u64 a b : is_u 64 a → is_u 64 b → is_u 64 (Z.lor a b).
Proof.
  unfold is_u. intros [Ha Ha'] [Hb Hb']. split; [by apply Z.lor_nonneg|].
  destruct (decide (Z.lor a b = 0%Z)) as [->|Hne]; [done|].
  assert (0 < Z.lor a b)%Z by (pose proof (proj2 (Z.lor_nonneg a b) (conj Ha Hb)); lia).
  apply Z.log2_lt_pow2; [done|]. rewrite Z.log2_lor by done.
  destruct (decide (a = 0%Z)) as [->|Hna]; destruct (decide (b = 0%Z)) as [->|Hnb]; [done|..];
    apply Z.max_lub_lt; try (by apply Z.log2_lt_pow2; lia); done.
Qed.

Lemma checked_loop_total buf result shift :
  is_u 64 result →
  (∃ e, decode_varint_checked_loop buf result shift = Err e)
  ∨ ∃ v rest, decode_varint_checked_loop buf result shift = Ok (v, rest) ∧ is_u 64 v ∧ (length rest + 1 ≤ length buf)%nat.
Proof.
  revert result shift. induction buf as [|b buf IH]; intros result shift Hr; cbn [decode_varint_checked_loop]; [left; by eexists|].
  case_match; [left; by eexists|].
  assert (Hl : is_u 64 (Z.lor result (to_unsigned 64 (Z.shiftl (Z.land (u8_to_Z b) 127) shift))))
    by (apply lor_u64; [done|apply to_unsigned_range; lia]).
  case_match.
  - right. do 2 eexists. split_and!; [done|done|simpl; lia].
  - destruct (IH _ (shift + 7)%Z Hl) as [He|(a & rest & E & Ha & Hlen)]; [by left|].
    right. exists a, rest. split_and!; [done|done|simpl; lia].
Qed.

Lemma sound_checked : sound 1 decode_varint_checked (is_u 64).
Proof. intros buf. by apply checked_loop_total. Qed.

Lemma sound_signed : sound 1 decode_signed_checked (is_i 64).
Proof.
  eapply (sound_bind 1 0); [apply sound_checked|]. intros v _. apply sound_ret, to_signed_range. lia.
Qed.

Lemma sound_read_n {A} n k (m : reading A) (Q : A → Prop) :
  sound k m Q → sound (n * k) (read_n n m) (λ l, length l = n ∧ Forall Q l).
Proof.
  intros Hm. induction n as [|n IH]; simpl; [by apply sound_ret|].
  eapply sound_bind; [done|]. intros x Hx. rewrite <- (Nat.add_0_r (n * k)). eapply sound_bind; [done|].
  intros xs [Hl Hxs]. apply sound_ret. split; [by rewrite <- Hl|by constructor].
Qed.

(** The strings a set can hold: valid, with a length that fits a [u64]. *)
Definition good_string (s : string) : Prop := wf_string s ∧ is_u 64 (str_len s).

Lemma sound_entry : sound 1 decode_string_entry good_string.
Proof.
  eapply (sound_bind 1 0); [apply sound_checked|]. intros len Hlen buf. unfold remaining.
  rewrite run_bind. case_match eqn:Hr; [left; by eexists|]. apply Z.ltb_ge in Hr. rewrite run_bind. unfold copy_to_slice.
  rewrite (proj2 (Z.leb_le _ _)) by done.
  destruct (from_utf8 _) as [s|] eqn:Es; [|left; by eexists]. right. do 2 eexists. split_and!; [done| |rewrite length_drop; lia].
  apply from_utf8_Some in Es as [Eb Hw]. split; [done|]. unfold str_len. rewrite Eb, length_take. unfold is_u in *. lia.
Qed.

Lemma sound_chunks fuel buf :
  (length buf < fuel)%nat →
  (∃ e, decode_chunks fuel buf = Err e)
  ∨ ∃ l rest, decode_chunks fuel buf = Ok (l, rest) ∧ Forall good_string l ∧ (length rest + length l ≤ length buf)%nat.
Proof.
  revert buf. induction fuel as [|fuel IH]; intros buf Hf; [lia|]. cbn [decode_chunks]. rewrite run_bind.
  destruct (sound_checked buf) as [[e ->]|(c & rest & -> & _ & Hl)]; [left; by eexists|].
  case_match; [right; exists [], rest; split_and!; [done|constructor|simpl; lia]|]. rewrite run_bind.
  destruct (sound_read_n (Z.to_nat c) 1 _ _ sound_entry rest) as [[e ->]|(xs & rest' & -> & [Hn Hxs] & Hl')]; [left; by eexists|].
  rewrite run_bind. destruct (IH rest') as [[e ->]|(ys & rest2 & -> & Hys & Hl2)]; [lia|left; by eexists|].
  right. exists (xs ++ ys), rest2. split_and!; [done|by apply Forall_app|]. rewrite length_app. lia.
Qed.

Lemma decode_string_set_total payload :
  (∃ e, decode_string_set payload = Err e)
  ∨ ∃ X, decode_string_set payload = Ok X ∧ set_Forall good_string X ∧ (size X ≤ length payload)%nat.
Proof.
  assert (H : (∃ e, decode_string_entries payload = Err e)
    ∨ ∃ l rest, decode_string_entries payload = Ok (l, rest) ∧ Forall good_string l ∧ (length rest + length l ≤ length payload)%nat).
  { unfold decode_string_entries. rewrite run_bind. cbn [remaining]. case_match eqn:Hr; [left; by eexists|].
    apply Z.ltb_ge in Hr. rewrite run_bind. unfold get_i32. rewrite run_bind. unfold get_be.
    rewrite decide_True by lia. cbn [mret reader_ret].
    assert (Hd : (length (drop 4 payload) ≤ length payload)%nat) by (rewrite length_drop; lia).
    case_match; [|case_match; [|left; by eexists]].
    - destruct (sound_read_n (Z.to_nat (to_signed 32 (be_value (take 4 payload)))) 1 _ _ sound_entry (drop 4 payload)) as [[e ->]|(l & rest & -> & [Hn Hl] & Hlen)]; [left; by eexists|].
      right. exists l, rest. split_and!; [done|done|lia].
    - destruct (sound_chunks (S (length (drop 4 payload))) (drop 4 payload)) as [[e ->]|(l & rest & -> & Hl & Hlen)];
        [lia|left; by eexists|]. right. exists l, rest. split_and!; [done|done|lia]. }
  unfold decode_string_set, exhausted. destruct H as [[e ->]|(l & rest & -> & Hl & Hlen)]; [left; by eexists|].
  cbn [mbind outcome_bind]. destruct rest; [|left; by eexists]. right. eexists. split; [done|]. split.
  - intros s Hs. apply elem_of_list_to_set in Hs. rewrite Forall_forall in Hl. by apply Hl.
  - clear -Hlen. simpl in Hlen. etrans; [|exact Hlen]. clear. induction l as [|s l IH]; [done|].
    cbn [list_to_set foldr length]. etrans; [apply size_union_le|]. by rewrite size_singleton; apply le_n_S.
Qed.

Lemma reads_string_entry s : good_string s → reads decode_string_entry (put_string s) s.
Proof.
  intros [Hw Hl]. eapply reads_bind; [by apply reads_checked|]. apply reads_remaining. intros n rest Hn.
  unfold str_len in *. destruct (Z.ltb_spec n (Z.of_nat (length (as_bytes s)))); [lia|].
  rewrite run_bind, reads_slice. by rewrite from_utf8_as_bytes.
Qed.

Lemma string_set_put X :
  set_Forall good_string X → (Z.of_nat (size X) < 2 ^ 31)%Z →
  decode_string_set (put_i32 (Z.of_nat (size X)) ++ concat (put_string <$> sort_ids (elements X))) = Ok X.
Proof.
  intros Hg Hs. unfold decode_string_set.
  assert (Hperm : sort_ids (elements X) ≡ₚ elements X) by (unfold sort_ids; apply merge_sort_Permutation).
  assert (Hr : reads decode_string_entries (put_i32 (Z.of_nat (size X)) ++ concat (put_string <$> sort_ids (elements X)))
    (sort_ids (elements X))).
  { apply reads_remaining. intros n rest Hn. rewrite length_app in Hn.
    assert (length (put_i32 (Z.of_nat (size X))) = 4%nat) by apply be_bytes_length.
    destruct (Z.ltb_spec n 4); [lia|]. rewrite run_bind, <- app_assoc, reads_i32 by (unfold is_i; lia).
    rewrite (proj2 (Z.leb_le _ _)) by lia. rewrite Nat2Z.id.
    assert (Hlen : size X = length (sort_ids (elements X))) by (by rewrite Hperm). rewrite Hlen.
    apply reads_n, Forall2_fmap_l, Forall_Forall2_diag, Forall_forall. intros s Hin.
    apply elem_of_sort_ids, elem_of_elements in Hin. by apply reads_string_entry, Hg. }
  rewrite (exhausted_reads _ _ _ _ Hr). cbn [mbind outcome_bind]. f_equal. apply set_eq. intros s.
  by rewrite elem_of_list_to_set, Hperm, elem_of_elements.
Qed.

(** * The values of metrics *)

Inductive MetricValue : Type :=
| Sum (z : Z)
| Distribution (count sum least greatest : Z)
| Gauge (timestamp value : Z)
| StringSet (X : gset string).

Definition to_option {A} (m : outcome string A) : option A := match m with Ok a => Some a | _ => None end.

(** The value of a payload of a metric type. *)
Definition metric_value (ty : string) (payload : bytes) : option MetricValue :=
  if decide (ty = SUM_INT64_TYPE) then Sum <$> to_option (decode_single_i64 payload)
  else if decide (ty = DISTRIBUTION_INT64_TYPE)
  then (λ '(a, b, c, d), Distribution a b c d) <$> to_option (decode_distribution payload)
  else if decide (ty = LATEST_INT64_TYPE) then (λ '(t, v), Gauge t v) <$> to_option (decode_gauge payload)
  else if decide (ty = SET_STRING_TYPE) then StringSet <$> to_option (decode_string_set payload)
  else None.

Definition checked (z : Z) : option Z := if in_i 64 z then Some z else None.

(** Merging two values of a metric; sums that overflow do not merge. *)
Definition combine (a b : MetricValue) : option MetricValue :=
  match a, b with
  | Sum x, Sum y => Sum <$> checked (x + y)
  | Distribution n s l g, Distribution n' s' l' g' =>
      n ← checked (n + n'); s ← checked (s + s'); Some (Distribution n s (Z.min l l') (Z.max g g'))
  | Gauge t v, Gauge t' v' => Some (if (t <=? t')%Z then Gauge t' v' else Gauge t v)
  | StringSet X, StringSet Y => Some (StringSet (X ∪ Y))
  | _, _ => None
  end.

Definition value_of (info : MonitoringInfo) : option MetricValue := metric_value (mi_type info) (mi_payload info).

Definition values (metrics : JobMetrics) : gmap MetricKey MetricValue := omap value_of metrics.

(** What reporting a value means. *)
Definition observe (vs : gmap MetricKey MetricValue) (info : MonitoringInfo) : gmap MetricKey MetricValue :=
  match value_of info with
  | None => vs
  | Some v =>
      match vs !! key_of info with
      | None => <[key_of info := v]> vs
      | Some current =>
          match combine current v with Some c => <[key_of info := c]> vs | None => vs end
      end
  end.

(** The sets of a value have at most [n] strings. *)
Definition set_bound (n : nat) (v : MetricValue) : Prop :=
  match v with StringSet X => set_Forall good_string X ∧ (size X ≤ n)%nat | _ => True end.

Record metrics_ok (n : nat) (metrics : JobMetrics) : Prop := {
  mo_key : ∀ k info, metrics !! k = Some info → key_of info = k;
  mo_value : ∀ k info, metrics !! k = Some info → ∃ v, value_of info = Some v ∧ set_bound n v;
}.

(** ** The decoders, by type *)

Definition ranged (v : MetricValue) : Prop :=
  match v with
  | Sum z => is_i 64 z
  | Distribution a b c d => is_i 64 a ∧ is_i 64 b ∧ is_i 64 c ∧ is_i 64 d
  | Gauge t v => is_i 64 t ∧ is_i 64 v
  | StringSet X => set_Forall good_string X
  end.

Lemma exhausted_total {A} n what (m : reading A) Q payload :
  sound n m Q → (∃ e, exhausted what m payload = Err e) ∨ ∃ a, exhausted what m payload = Ok a ∧ Q a ∧ (n ≤ length payload)%nat.
Proof.
  intros H. unfold exhausted. destruct (H payload) as [[e ->]|(a & rest & -> & Ha & Hl)]; [left; by eexists|].
  cbn [mbind outcome_bind]. destruct rest; [|left; by eexists]. right. exists a. split_and!; [done|done|simpl in Hl; lia].
Qed.

Lemma single_total p : (∃ e, decode_single_i64 p = Err e) ∨ ∃ z, decode_single_i64 p = Ok z ∧ is_i 64 z ∧ (1 ≤ length p)%nat.
Proof. by apply exhausted_total, sound_signed. Qed.

Lemma gauge_total p :
  (∃ e, decode_gauge p = Err e) ∨ ∃ g, decode_gauge p = Ok g ∧ (is_i 64 g.1 ∧ is_i 64 g.2) ∧ (1 ≤ length p)%nat.
Proof.
  apply (exhausted_total 1 _ _ (λ g, is_i 64 g.1 ∧ is_i 64 g.2)).
  apply (sound_bind 1 0 _ _ (is_i 64)); [apply sound_signed|]. intros a Ha.
  eapply sound_weaken; [apply le_0_n|intros x Hx; exact Hx|]. apply (sound_bind 1 0 _ _ (is_i 64)); [apply sound_signed|].
  intros b Hb. by apply sound_ret.
Qed.

Lemma distribution_total p :
  (∃ e, decode_distribution p = Err e)
  ∨ ∃ d, decode_distribution p = Ok d ∧ (is_i 64 d.1.1.1 ∧ is_i 64 d.1.1.2 ∧ is_i 64 d.1.2 ∧ is_i 64 d.2) ∧ (1 ≤ length p)%nat.
Proof.
  apply (exhausted_total 1 _ _ (λ d : Z * Z * Z * Z, is_i 64 d.1.1.1 ∧ is_i 64 d.1.1.2 ∧ is_i 64 d.1.2 ∧ is_i 64 d.2)).
  do 4 (eapply sound_weaken; [|intros ? Hq; exact Hq|eapply (sound_bind 1 0); [apply sound_signed|intros ? ?]]; [lia|]).
  by apply sound_ret.
Qed.

Lemma value_of_spec info :
  match value_of info with
  | Some v => is_supported_type (mi_type info) = true ∧ mi_type info ≠ BOUNDED_TRIE_TYPE ∧ mi_payload info ≠ []
      ∧ validate_payload (mi_type info) (mi_payload info) = Ok () ∧ ranged v ∧ set_bound (length (mi_payload info)) v
  | None => is_supported_type (mi_type info) = false ∨ ∃ e, validate_payload (mi_type info) (mi_payload info) = Err e
  end.
Proof.
  assert (Hne : ∀ p : bytes, (1 ≤ length p)%nat → p ≠ []) by (intros [|??]; simpl; [lia|done]).
  unfold value_of, metric_value, validate_payload, is_supported_type.
  destruct (decide (mi_type info = SUM_INT64_TYPE)) as [->|H1].
  { destruct (single_total (mi_payload info)) as [[e ->]|(z & -> & Hz & Hl)]; simpl; [right; by eexists|].
    split; [done|]. split; [done|]. split; [by apply Hne|]. split; [done|]. by split; [exact Hz|]. }
  destruct (decide (mi_type info = DISTRIBUTION_INT64_TYPE)) as [->|H2].
  { destruct (distribution_total (mi_payload info)) as [[e ->]|([[[a b] c] d] & -> & Hz & Hl)]; simpl; [right; by eexists|].
    split; [done|]. split; [done|]. split; [by apply Hne|]. split; [done|]. by split; [exact Hz|]. }
  destruct (decide (mi_type info = LATEST_INT64_TYPE)) as [->|H3].
  { destruct (gauge_total (mi_payload info)) as [[e ->]|([t v] & -> & Hz & Hl)]; simpl; [right; by eexists|].
    split; [done|]. split; [done|]. split; [by apply Hne|]. split; [done|]. by split; [exact Hz|]. }
  destruct (decide (mi_type info = SET_STRING_TYPE)) as [->|H4].
  { destruct (decode_string_set_total (mi_payload info)) as [[e He]|(X & HX & Hg & Hs)].
    - rewrite He. right. by eexists.
    - rewrite HX. simpl. split; [done|]. split; [done|]. split; [intros Hn; rewrite Hn in HX; by vm_compute in HX|]. by split_and!. }
  left. by rewrite !bool_decide_false.
Qed.

(** ** One merge *)

Lemma merge_metric_spec n m current info a :
  key_of info = key_of current → value_of current = Some a → set_bound n a → (Z.of_nat (n + m) < 2 ^ 31)%Z →
  match value_of info with
  | Some b => set_bound m b →
      match combine a b with
      | Some c => ∃ merged, merge_metric current info = Ok merged ∧ key_of merged = key_of current
          ∧ value_of merged = Some c ∧ set_bound (n + m) c
      | None => ∃ e, merge_metric current info = Err e
      end
  | None => ∃ e, merge_metric current info = Err e
  end.
Proof.
  intros Hk Ha Hn Hb. assert (Ht : mi_type info = mi_type current) by (by injection Hk).
  unfold value_of, metric_value, merge_metric in *. rewrite Ht in *.
  destruct (decide (mi_type current = SUM_INT64_TYPE)) as [E|_].
  { unfold merge_sum.
    destruct (single_total (mi_payload current)) as [[e Ea]|(z & Ea & Hz & _)]; rewrite Ea in *; [done|]. injection Ha as <-.
    cbn [mbind outcome_bind].
    destruct (single_total (mi_payload info)) as [[e ->]|(z' & -> & Hz' & _)]; simpl; [by eexists|]. intros _.
    unfold checked, checked_add. destruct (in_i 64 (z + z')) eqn:Hi; simpl; [|by eexists].
    eexists. split_and!; [done|done| |done]. cbn [mi_type mi_payload]. rewrite decide_True by done.
    rewrite single_put; [done|]. unfold is_i, in_i in *. rewrite andb_true_iff, Z.leb_le, Z.ltb_lt in Hi. lia. }
  destruct (decide (mi_type current = DISTRIBUTION_INT64_TYPE)) as [E|_].
  { unfold merge_distribution.
    destruct (distribution_total (mi_payload current)) as [[e Ea]|([[[a1 a2] a3] a4] & Ea & Hz & _)]; rewrite Ea in *; [done|].
    injection Ha as <-. cbn [mbind outcome_bind].
    destruct (distribution_total (mi_payload info)) as [[e ->]|([[[b1 b2] b3] b4] & -> & Hz' & _)]; simpl; [by eexists|]. intros _.
    unfold checked, checked_add. destruct (in_i 64 (a1 + b1)) eqn:Hi; simpl; [|by eexists].
    destruct (in_i 64 (a2 + b2)) eqn:Hi2; simpl; [|by eexists].
    eexists. split_and!; [done|done| |done]. cbn [mi_type mi_payload].
    rewrite E, decide_False, decide_True by done.
    rewrite distribution_put; [done|..]; unfold is_i, in_i in *; simpl in *;
      rewrite ?andb_true_iff, ?Z.leb_le, ?Z.ltb_lt in *; lia. }
  destruct (decide (mi_type current = LATEST_INT64_TYPE)) as [E|_].
  { unfold merge_gauge.
    destruct (gauge_total (mi_payload current)) as [[e Ea]|([t v] & Ea & Hz & _)]; rewrite Ea in *; [done|]. injection Ha as <-.
    cbn [mbind outcome_bind].
    destruct (gauge_total (mi_payload info)) as [[e ->]|([t' v'] & -> & Hz' & _)]; simpl; [by eexists|]. intros _.
    simpl in Hz, Hz'. destruct Hz as [Ht1 Hv1], Hz' as [Ht2 Hv2].
    destruct (t <=? t')%Z; eexists; (split_and!; [done|done| |done]); cbn [mi_type mi_payload];
      rewrite E, decide_False, decide_False, decide_True by done; by rewrite gauge_put. }
  destruct (decide (mi_type current = SET_STRING_TYPE)) as [E|_]; [|done].
  unfold merge_string_set.
  destruct (decode_string_set (mi_payload current)) as [X| |] eqn:EX; try done. injection Ha as <-. cbn [mbind outcome_bind].
  destruct (decode_string_set_total (mi_payload info)) as [[e ->]|(Y & -> & _ & _)]; simpl; [by eexists|]. intros [HgY HsY].
  destruct Hn as [HgX HsX]. pose proof (size_union_le X Y) as Hle. rewrite (proj2 (Z.ltb_lt _ _)) by lia. simpl.
  assert (Hg : set_Forall good_string (X ∪ Y)) by (by apply set_Forall_union).
  eexists. split_and!; [done|done| |done|lia]. cbn [mi_type mi_payload].
  rewrite E, decide_False, decide_False, decide_False, decide_True by done.
  rewrite string_set_put by (done || lia). done.
Qed.

Lemma set_bound_weaken n m v : (n ≤ m)%nat → set_bound n v → set_bound m v.
Proof. intros H. destruct v; try done. intros []. split; [done|lia]. Qed.

Lemma values_lookup metrics k : values metrics !! k = metrics !! k ≫= value_of.
Proof. apply lookup_omap. Qed.

Lemma values_insert metrics k info v :
  value_of info = Some v → values (<[k := info]> metrics) = <[k := v]> (values metrics).
Proof. intros H. by apply omap_insert_Some. Qed.

(** ** Recording *)

Lemma record_one_spec n metrics info :
  metrics_ok n metrics → (Z.of_nat (n + length (mi_payload info)) < 2 ^ 31)%Z →
  ∃ metrics', record_one metrics info = Ok metrics' ∧ metrics_ok (n + length (mi_payload info)) metrics'
    ∧ values metrics' = observe (values metrics) info.
Proof.
  intros Hok Hb. pose proof (value_of_spec info) as Hv. unfold observe, record_one.
  assert (Hsame : metrics_ok (n + length (mi_payload info)) metrics).
  { destruct Hok as [H1 H2]. split; [done|]. intros k i Hi. destruct (H2 k i Hi) as (v & ? & ?). exists v.
    split; [done|]. eapply set_bound_weaken; [|done]. lia. }
  destruct (value_of info) as [b|] eqn:Eb.
  - destruct Hv as (Hsup & Hty & Hne & Hval & _ & Hbound). rewrite decide_False, decide_False, Hsup by done. cbn [negb].
    rewrite values_lookup. destruct (metrics !! key_of info) as [current|] eqn:Ec.
    + destruct Hok as [Hkey Hvals]. destruct (Hvals _ _ Ec) as (a & Ea & Ha). pose proof (Hkey _ _ Ec) as Hk.
      cbn [mbind option_bind]. rewrite Ea.
      pose proof (merge_metric_spec n (length (mi_payload info)) current info a (eq_sym Hk) Ea Ha Hb) as Hm.
      rewrite Eb in Hm. specialize (Hm Hbound). destruct (combine a b) as [c|].
      * destruct Hm as (merged & -> & Hkm & Hvm & Hbm). eexists. split; [done|]. split; [|by apply values_insert].
        destruct Hsame as [S1 S2]. split; intros k i [[<- <-]|[_ Hi]]%lookup_insert_Some; [congruence|by apply S1|eauto|by apply (S2 k)].
      * destruct Hm as [e ->]. eauto.
    + rewrite Hval. eexists. split; [done|]. split; [|by apply values_insert].
      destruct Hsame as [S1 S2]. split; intros k i [[<- <-]|[_ Hi]]%lookup_insert_Some; [done|by apply S1| |by apply (S2 k)].
      exists b. split; [done|]. eapply set_bound_weaken; [|done]. lia.
  - exists metrics. split; [|done]. case_decide; [done|]. case_decide; [done|].
    destruct (is_supported_type (mi_type info)) eqn:Es; [|done]. cbn [negb]. destruct Hv as [?|[e Hv]]; [done|].
    destruct (metrics !! key_of info) as [current|] eqn:Ec; [|by rewrite Hv].
    destruct Hok as [Hkey Hvals]. destruct (Hvals _ _ Ec) as (a & Ea & Ha). pose proof (Hkey _ _ Ec) as Hk.
    pose proof (merge_metric_spec n 0 current info a (eq_sym Hk) Ea Ha ltac:(lia)) as Hm. rewrite Eb in Hm.
    by destruct Hm as [e' ->].
Qed.

Definition total_payload (infos : list MonitoringInfo) : nat := sum_list_with (λ i, length (mi_payload i)) infos.

Lemma record_spec infos n metrics :
  metrics_ok n metrics → (Z.of_nat (n + total_payload infos) < 2 ^ 31)%Z →
  ∃ metrics', record metrics infos = Ok metrics' ∧ metrics_ok (n + total_payload infos) metrics'
    ∧ values metrics' = foldl observe (values metrics) infos.
Proof.
  revert n metrics. induction infos as [|info infos IH]; intros n metrics Hok Hb; unfold total_payload in *;
    cbn [record sum_list_with foldl] in *.
  { exists metrics. by rewrite Nat.add_0_r. }
  destruct (record_one_spec n metrics info Hok) as (m1 & -> & Hok1 & Hv1); [lia|]. cbn [mbind outcome_bind].
  destruct (IH (n + length (mi_payload info))%nat m1 Hok1) as (m2 & E & Hok2 & Hv2); [lia|].
  exists m2. rewrite Nat.add_assoc. split_and!; [done|done|]. by rewrite Hv2, Hv1.
Qed.

Lemma empty_ok : metrics_ok 0 ∅.
Proof. split; intros k i; by rewrite lookup_empty. Qed.

(** ** The value of one metric *)

(** The values reported for a metric. *)
Definition reported (k : MetricKey) (infos : list MonitoringInfo) : list MetricValue :=
  omap (λ info, if decide (key_of info = k) then value_of info else None) infos.

Definition observe_value (acc : option MetricValue) (v : MetricValue) : option MetricValue :=
  match acc with
  | None => Some v
  | Some current => match combine current v with Some c => Some c | None => Some current end
  end.

Lemma observe_lookup infos vs k :
  foldl observe vs infos !! k = foldl observe_value (vs !! k) (reported k infos).
Proof.
  revert vs. induction infos as [|info infos IH]; intros vs; [done|]. cbn [foldl]. rewrite IH.
  unfold reported at 2. cbn [omap list_omap]. fold (reported k infos). unfold observe.
  destruct (decide (key_of info = k)) as [<-|Hne].
  - destruct (value_of info) as [v|]; [|done]. cbn [foldl]. f_equal.
    destruct (vs !! key_of info) as [c|] eqn:Ec; cbn [observe_value]; [|by rewrite lookup_insert_eq].
    destruct (combine c v); [by rewrite lookup_insert_eq|done].
  - f_equal. destruct (value_of info) as [v|]; [|done].
    destruct (vs !! key_of info) as [c|]; [destruct (combine c v)|]; by rewrite ?lookup_insert_ne.
Qed.

(** Counters. *)
Lemma observe_sums zs z :
  (∀ n, in_i 64 (z + foldr Z.add 0 (take n zs))%Z = true) →
  foldl observe_value (Some (Sum z)) (Sum <$> zs) = Some (Sum (z + foldr Z.add 0 zs)%Z).
Proof.
  revert z. induction zs as [|x zs IH]; intros z Hz; cbn [fmap list_fmap foldl foldr observe_value combine].
  { by rewrite Z.add_0_r. }
  pose proof (Hz 1%nat) as H1. simpl in H1. rewrite Z.add_0_r in H1. unfold checked. rewrite H1. cbn [fmap option_fmap option_map].
  rewrite IH; [f_equal; f_equal; lia|]. intros n. specialize (Hz (S n)). simpl in Hz. by rewrite Z.add_assoc in Hz.
Qed.

(** Gauges. *)
Lemma observe_gauges gs g :
  foldl observe_value (Some (Gauge g.1 g.2)) ((λ g, Gauge g.1 g.2) <$> gs)
  = (λ g, Gauge g.1 g.2) <$> Some (foldl (λ a b : Z * Z, if (a.1 <=? b.1)%Z then b else a) g gs).
Proof.
  revert g. induction gs as [|x gs IH]; intros g; [done|]. cbn [fmap list_fmap foldl observe_value combine option_fmap option_map] in *.
  rewrite <- IH. by destruct (g.1 <=? x.1)%Z.
Qed.

(** String sets. *)
Lemma observe_sets Xs X :
  foldl observe_value (Some (StringSet X)) (StringSet <$> Xs) = Some (StringSet (X ∪ ⋃ Xs)).
Proof.
  revert X. induction Xs as [|Y Xs IH]; intros X; cbn [fmap list_fmap foldl observe_value combine].
  { cbn. by rewrite (right_id_L ∅ (∪)). }
  rewrite IH. cbn. by rewrite (assoc_L (∪)).
Qed.

(** The newest of the gauges, the later one on a tie. *)
Lemma newest_gauge gs g :
  let newest := foldl (λ a b : Z * Z, if (a.1 <=? b.1)%Z then b else a) g gs in
  ∃ before after, g :: gs = before ++ newest :: after
    ∧ Forall (λ h, h.1 ≤ newest.1)%Z before ∧ Forall (λ h, h.1 < newest.1)%Z after.
Proof.
  induction gs as [|x gs IH] using rev_ind; intros newest; [by exists [], []|]. cbv zeta in IH.
  unfold newest. rewrite foldl_snoc. set (n := foldl _ g gs) in *. clearbody n. clear newest.
  destruct IH as (before & after & E & Hb & Ha). change (g :: gs ++ [x]) with ((g :: gs) ++ [x]). rewrite E.
  destruct (Z.leb_spec n.1 x.1) as [Hle|Hgt].
  - exists (before ++ n :: after), []. split_and!; [done| |constructor]. apply Forall_app. split; [|constructor; [done|]];
      (eapply Forall_impl; [eassumption|]); simpl; lia.
  - exists before, (after ++ [x]). split_and!; [by rewrite <- app_assoc|done|]. apply Forall_app. split; [done|].
    by apply Forall_singleton.
Qed.
