(* ===== verification/MetricsProperties.v ===== *)
(** The properties of job metrics. *)
From S2P Require Import Prelude Bytes Varint Metrics MetricsSpec.
Local Open Scope string_scope.
Local Open Scope list_scope.

(** C25: whatever bundles report, below 2 GiB of payloads in all, recording succeeds; the
    value of a metric is the merge, in order, of the values reported for it, a report
    that is malformed, unsupported or would overflow changing nothing; metrics do not
    influence each other; and a snapshot lists every metric once, with a payload that
    decodes to its value. *)
Theorem metrics_refine_values infos :
  (Z.of_nat (total_payload infos) < 2 ^ 31)%Z →
  ∃ metrics, record clear_metrics infos = Ok metrics
    ∧ (∀ k, values metrics !! k = foldl observe_value None (reported k infos))
    ∧ NoDup (key_of <$> snapshot metrics)
    ∧ ∀ info, info ∈ snapshot metrics → ∃ v, value_of info = Some v ∧ values metrics !! key_of info = Some v.
Proof.
  intros Hb. destruct (record_spec infos 0 ∅ empty_ok Hb) as (metrics & E & [Hkey Hval] & Hv).
  exists metrics. split_and!; [done| | |].
  - intros k. rewrite Hv, observe_lookup. unfold values. by rewrite omap_empty, lookup_empty.
  - assert (Hp : key_of <$> snapshot metrics ≡ₚ (map_to_list metrics).*1).
    { unfold snapshot. rewrite (sort_by_perm _ (map_to_list metrics)).
      rewrite <- list_fmap_compose. apply eq_subrelation; [apply _|]. apply list_fmap_ext. intros i [k info] Ei.
      apply Hkey, elem_of_map_to_list. by eapply list_elem_of_lookup_2. }
    rewrite Hp. apply NoDup_fst_map_to_list.
  - intros info Hin. unfold snapshot in Hin. apply list_elem_of_fmap in Hin as ([k i] & -> & Hin).
    rewrite (sort_by_perm _ (map_to_list metrics)) in Hin. apply elem_of_map_to_list in Hin. cbn [snd].
    destruct (Hval k i Hin) as (v & Hvi & _). exists v. split; [done|]. rewrite (Hkey k i Hin), values_lookup, Hin. done.
Qed.

(** The reports of the examples. *)
Definition demo_report (name ty : string) (payload : bytes) : MonitoringInfo :=
  mkMonitoringInfo "beam:metric:user:v1" ty payload {[ "NAME" := name ]} None.
Definition demo_reports : list MonitoringInfo :=
  [demo_report "count" SUM_INT64_TYPE (put_i64s [2%Z]); demo_report "count" SUM_INT64_TYPE [u8 128];
   demo_report "last" LATEST_INT64_TYPE (put_i64s [100%Z; 7%Z]); demo_report "count" SUM_INT64_TYPE (put_i64s [3%Z])].

Lemma metrics_refine_values_witness :
  ∃ metrics, record clear_metrics demo_reports = Ok metrics
    ∧ (∀ k, values metrics !! k = foldl observe_value None (reported k demo_reports))
    ∧ NoDup (key_of <$> snapshot metrics)
    ∧ ∀ info, info ∈ snapshot metrics → ∃ v, value_of info = Some v ∧ values metrics !! key_of info = Some v.
Proof. apply metrics_refine_values. by vm_compute. Defined.

(** What a metric adds up to: a counter whose partial sums stay in range is the sum
    of the increments; a gauge is its newest value, the later report winning a tie; a
    string set is the union of the sets reported. *)
Theorem metric_totals infos metrics k :
  (Z.of_nat (total_payload infos) < 2 ^ 31)%Z → record clear_metrics infos = Ok metrics →
  (∀ z zs, reported k infos = Sum <$> z :: zs →
     (∀ n, is_i 64 (z + foldr Z.add 0 (take n zs))) → values metrics !! k = Some (Sum (z + foldr Z.add 0 zs)))%Z
  ∧ (∀ g gs, reported k infos = (λ g, Gauge g.1 g.2) <$> g :: gs →
       ∃ newest, values metrics !! k = Some (Gauge newest.1 newest.2)
         ∧ ∃ before after, g :: gs = before ++ newest :: after
             ∧ Forall (λ h, h.1 ≤ newest.1)%Z before ∧ Forall (λ h, h.1 < newest.1)%Z after)
  ∧ (∀ X Xs, reported k infos = StringSet <$> X :: Xs → values metrics !! k = Some (StringSet (⋃ (X :: Xs)))).
Proof.
  intros Hb E. destruct (record_spec infos 0 ∅ empty_ok Hb) as (metrics' & E' & _ & Hv).
  unfold clear_metrics in E. rewrite E in E'. injection E' as <-.
  assert (Hk : values metrics !! k = foldl observe_value None (reported k infos))
    by (rewrite Hv, observe_lookup; unfold values; by rewrite omap_empty, lookup_empty).
  rewrite Hk. split_and!.
  - intros z zs -> Hz. cbn [fmap list_fmap foldl observe_value]. apply observe_sums. intros n. specialize (Hz n).
    unfold is_i, in_i in *. rewrite andb_true_iff, Z.leb_le, Z.ltb_lt. lia.
  - intros g gs ->. cbn [fmap list_fmap foldl observe_value]. rewrite observe_gauges. eexists. split; [done|].
    apply newest_gauge.
  - intros X Xs ->. cbn [fmap list_fmap foldl observe_value]. by rewrite observe_sets.
Qed.

Lemma metric_totals_witness :
  ∃ metrics, record clear_metrics demo_reports = Ok metrics
    ∧ values metrics !! key_of (demo_report "count" SUM_INT64_TYPE []) = Some (Sum 5).
Proof.
  destruct (record_spec demo_reports 0 ∅ empty_ok ltac:(by vm_compute)) as (metrics & E & _).
  exists metrics. split; [exact E|].
  destruct (metric_totals demo_reports metrics (key_of (demo_report "count" SUM_INT64_TYPE [])) ltac:(by vm_compute) E) as [H _].
  apply (H 2%Z [3%Z]); [by vm_compute|]. intros [|[|n]]; simpl; unfold is_i; rewrite ?take_nil; simpl; lia.
Defined.
