(* ===== verification/Sdf.v ===== *)
(** Splittable DoFns (engine/sdf.rs): how a running bundle of a splittable stage is
    monitored and split, and the work items that its residuals become.  Sending the
    input, the exchange with the SDK harness and the collection of the output are
    asynchronous I/O; what the harness answers is an argument of the definitions.
    Durations and instants are nanoseconds, a [f32] is its bit pattern. *)
From Stdlib Require Import SpecFloat.
From S2P Require Import Prelude Bytes Varint Windows Coders Watermark Metrics.
Local Open Scope string_scope.
Local Open Scope list_scope.
Set Warnings "-clear-no-such-hyp".

(** * Configuration and data *)

Definition MILLI : Z := 1000000.
Definition MIN_PROGRESS_TICK : Z := 100 * MILLI.
Definition MAX_PROGRESS_TICK : Z := 30000 * MILLI.

(** [SdfSplitConfig]; [fraction_of_remainder] is only handed to the SDK. *)
Record SdfSplitConfig : Type := mkSplitConfig {
  split_after : Z;
  stall_after : Z;
  fraction_of_remainder : Z;
}.

Record SdfWorkItem : Type := mkWorkItem { seed : bytes; holds : list Z }.

Record SdfInputSpan : Type := mkSpan { span_start : nat; span_end : nat; span_timestamp_millis : Z }.

Record SplitMonitor : Type := mkMonitor {
  prev_index : Z;
  prev_output_element_count_sum : Z;
  prev_work_completed : option Z;
  prev_work_remaining : option Z;
  can_split : bool;
  estimated_input_elements : Z;
  tick : Z;
  handed_back_from : option Z;
  ticked : bool;
  polls : Z;
  split_requests : Z;
  splits : Z;
  started : Z;
  last_split : option Z;
  config : SdfSplitConfig;
}.

Definition clamp_progress_tick (t : Z) : Z := Z.min (Z.max t MIN_PROGRESS_TICK) MAX_PROGRESS_TICK.

(** [SplitMonitor::with_config] at the instant [now]. *)
Definition with_config (estimated : Z) (progress_tick : option Z) (c : SdfSplitConfig) (now : Z) : SplitMonitor :=
  mkMonitor (-2) (-2) None None true estimated
    (clamp_progress_tick (default MIN_PROGRESS_TICK progress_tick)) None false 0 0 0 now None c.

(** [next_shared_tick]; a [Duration] saturates at zero. *)
Definition next_shared_tick (ticked : bool) (tick : Z) : Z :=
  if ticked then tick else clamp_progress_tick (Z.max 0 (tick - MIN_PROGRESS_TICK)).

(** * Progress *)

Record ProgressMetrics : Type := mkProgress {
  read_index : Z;
  output_element_count_sum : Z;
  work_completed : option Z;
  work_remaining : option Z;
}.

(** The number a [f32] pattern stands for, and the operations on it. *)
Definition f32_value (bits : Z) : spec_float :=
  let s := Z.testbit bits 31 in
  let e := Z.land (Z.shiftr bits 23) 255 in
  let m := Z.land bits (2 ^ 23 - 1) in
  (if e =? 255 then (if m =? 0 then S754_infinity s else S754_nan)
   else if e =? 0 then match m with Zpos p => S754_finite s p (-149) | _ => S754_zero s end
   else match m + 2 ^ 23 with Zpos p => S754_finite s p (e - 150) | _ => S754_nan end)%Z.

Definition f32_is_nan (a : Z) : bool := match f32_value a with S754_nan => true | _ => false end.
Definition f32_lt (a b : Z) : bool := match SFcompare (f32_value a) (f32_value b) with Some Lt => true | _ => false end.
Definition f32_le (a b : Z) : bool :=
  match SFcompare (f32_value a) (f32_value b) with Some (Lt | Eq) => true | _ => false end.
(** [f32::max] and [f32::min] prefer a number to a NaN. *)
Definition f32_max (a b : Z) : Z := if f32_is_nan a then b else if f32_lt a b then b else a.
Definition f32_min (a b : Z) : Z := if f32_is_nan a then b else if f32_lt b a then b else a.

(** [decode_varint_payload]: [VarIntCoder] under [catch_unwind]. *)
Definition decode_varint_payload `{P : Profile} (payload : bytes) : option Z :=
  match decode_signed_varint (E:=CodersError) payload with Ok (z, _) => Some z | _ => None end.

(** [decode_progress_payload]. *)
Definition decode_progress_payload (payload : bytes) : option Z :=
  if decide (length payload < 8)%nat then None
  else if (to_signed 32 (be_value (take 4 payload)) <? 1)%Z then None
  else Some (be_value (take 4 (drop 4 payload))).

Definition DATA_CHANNEL_READ_INDEX_METRIC : string := "beam:metric:data_channel:read_index:v1".
Definition ELEMENT_COUNT_METRIC : string := "beam:metric:element_count:v1".
Definition WORK_COMPLETED_METRIC : string := "beam:metric:ptransform_progress:completed:v1".
Definition WORK_REMAINING_METRIC : string := "beam:metric:ptransform_progress:remaining:v1".

Section progress.
Context `{P : Profile}.

(** One [MonitoringInfo] of a progress response. *)
Definition extract_one (m : ProgressMetrics) (info : MonitoringInfo) : outcome string ProgressMetrics :=
  if decide (mi_urn info = DATA_CHANNEL_READ_INDEX_METRIC) then
    Ok match decode_varint_payload (mi_payload info) with
       | Some v => mkProgress (Z.max (read_index m) v) (output_element_count_sum m) (work_completed m) (work_remaining m)
       | None => m
       end
  else if decide (mi_urn info = ELEMENT_COUNT_METRIC) then
    match decode_varint_payload (mi_payload info) with
    | Some v =>
        sum ← arith_i 64 (output_element_count_sum m + v);
        Ok (mkProgress (read_index m) sum (work_completed m) (work_remaining m))
    | None => Ok m
    end
  else if decide (mi_urn info = WORK_COMPLETED_METRIC) then
    Ok match decode_progress_payload (mi_payload info) with
       | Some v => mkProgress (read_index m) (output_element_count_sum m)
                     (Some match work_completed m with Some c => f32_max c v | None => v end) (work_remaining m)
       | None => m
       end
  else if decide (mi_urn info = WORK_REMAINING_METRIC) then
    Ok match decode_progress_payload (mi_payload info) with
       | Some v => mkProgress (read_index m) (output_element_count_sum m) (work_completed m)
                     (Some match work_remaining m with Some c => f32_min c v | None => v end)
       | None => m
       end
  else Ok m.

Fixpoint extract_loop (m : ProgressMetrics) (infos : list MonitoringInfo) : outcome string ProgressMetrics :=
  match infos with
  | [] => Ok m
  | info :: infos => m ← extract_one m info; extract_loop m infos
  end.

Definition extract_progress_metrics (infos : list MonitoringInfo) : outcome string ProgressMetrics :=
  extract_loop (mkProgress 0 0 None None) infos.
End progress.

(** * The split policy *)

Inductive SplitDecision : Type :=
| Poll | SkipDisabled | SkipNoInput | SkipNoRemainingWork | WaitForProgress | RequestTime | RequestStall.

Definition requests_split (d : SplitDecision) : bool :=
  match d with RequestTime | RequestStall => true | _ => false end.

(** [same_float] compares bits. *)
Definition same_float (left right : option Z) : bool :=
  match left, right with
  | Some l, Some r => (l =? r)%Z
  | None, None => true
  | _, _ => false
  end.

(** [Instant::duration_since] saturates at zero. *)
Definition duration_since (now earlier : Z) : Z := Z.max 0 (now - earlier).

Definition decision (s : SplitMonitor) (m : ProgressMetrics) (now : Z) : SplitDecision :=
  if negb (can_split s) then SkipDisabled
  else if (estimated_input_elements s <=? 0)%Z then SkipNoInput
  else if match work_remaining m with Some r => f32_le r 0 | None => false end then SkipNoRemainingWork
  else if (prev_index s =? -2)%Z then Poll
  else
    let counters_changed :=
      negb (read_index m =? prev_index s)%Z
      || negb (output_element_count_sum m =? prev_output_element_count_sum s)%Z in
    let work_changed :=
      negb (same_float (prev_work_completed s) (work_completed m))
      || negb (same_float (prev_work_remaining s) (work_remaining m)) in
    let elapsed := duration_since now (started s) in
    if counters_changed || work_changed then
      let time_split_due :=
        match last_split s with
        | Some l => (split_after (config s) <=? duration_since now l)%Z
        | None => (split_after (config s) <=? elapsed)%Z
        end in
      if time_split_due then RequestTime else Poll
    else if (stall_after (config s) <=? elapsed)%Z then RequestStall
    else WaitForProgress.

Definition record_poll (m : ProgressMetrics) (s : SplitMonitor) : SplitMonitor :=
  mkMonitor (read_index m) (output_element_count_sum m) (work_completed m) (work_remaining m) (can_split s)
    (estimated_input_elements s) (tick s) (handed_back_from s) (ticked s) (polls s) (split_requests s) (splits s)
    (started s) (last_split s) (config s).

(** * Work items *)

(** What the definitions use of a [SplittableStage]: its id, the PCollections that
    leave it and the outputs of the transforms of its process stage. *)
Record SplittableStage : Type := mkSplittable {
  splittable_id : string;
  output_pcols : gset string;
  process_transforms : list (string * gmap string string);
}.

Record BundleApplication : Type := mkApplication {
  transform_id : string;
  app_element : bytes;
  output_watermarks : gmap string Timestamp;
}.
Record DelayedBundleApplication : Type := mkDelayed { application : option BundleApplication }.

(** A proto timestamp in milliseconds, saturating. *)
Definition watermark_millis (t : Timestamp) : Z :=
  saturating_i64 (saturating_i64 (seconds t * 1000) + Z.quot (nanos t) 1000000).

(** The holds a residual reports, per PCollection that leaves the stage. *)
Definition report_one (boundary : gset string) (outputs : gmap string string) (reported : gmap string Z)
    (entry : string * Timestamp) : gmap string Z :=
  match outputs !! entry.1 with
  | None => reported
  | Some pcollection =>
      if decide (pcollection ∈ boundary) then
        let hold := watermark_millis entry.2 in
        <[pcollection := match reported !! pcollection with Some current => Z.min current hold | None => hold end]> reported
      else reported
  end.

Section items.
(** [set_order]: the order in which a [HashSet] iterates. *)
Context (set_order : gset string → list string).

Definition residual_item_holds (app : BundleApplication) (outputs_by_transform : gmap string (gmap string string))
    (boundary : gset string) : list Z :=
  match outputs_by_transform !! transform_id app with
  | None => []
  | Some outputs =>
      let reported := foldl (report_one boundary outputs) ∅ (map_to_list (output_watermarks app)) in
      (λ pcollection, default MIN_TIMESTAMP (reported !! pcollection)) <$> set_order boundary
  end.

Definition residual_items (stage : SplittableStage) (residuals : list DelayedBundleApplication) : list SdfWorkItem :=
  let outputs_by_transform := foldl (λ m t, <[t.1 := t.2]> m) ∅ (process_transforms stage) in
  let applications := filter (λ app, app_element app ≠ []) (omap application residuals) in
  (λ app, mkWorkItem (app_element app) (residual_item_holds app outputs_by_transform (output_pcols stage)))
    <$> applications.

Definition channel_item_holds (stage : SplittableStage) (timestamps : list Z) : list Z :=
  if decide (output_pcols stage = ∅) then []
  else
    match timestamps with
    | [] => []
    | t :: ts =>
        let min_timestamp := foldl Z.min t ts in
        if (min_timestamp <=? MIN_TIMESTAMP)%Z then []
        else (λ _, min_timestamp) <$> set_order (output_pcols stage)
    end.
End items.

(** ** The spans of the input *)

Section spans.
Context `{P : Profile}.

(** The loop of [decode_windowed_value_spans] at offset [start] of the input: a panic
    of the coder is caught.  An element has at least the eight bytes of its timestamp,
    so a round per byte is enough. *)
Fixpoint spans_loop (fuel : nat) (coder : WindowedValueCoder) (start : nat) (rest : bytes)
    : outcome string (list SdfInputSpan) :=
  match rest, fuel with
  | [], _ => Ok []
  | _ :: _, O => Panic "span loop bound"
  | _ :: _, S fuel =>
      match decode_windowed_value coder rest with
      | Ok (value, rest') =>
          let stop := (start + (length rest - length rest'))%nat in
          spans ← spans_loop fuel coder stop rest';
          Ok (mkSpan start stop (wv_timestamp_millis value) :: spans)
      | Err _ => Err "failed to decode SDF input element"
      | Panic _ => Err "panic while decoding SDF input element"
      end
  end.

Definition decode_windowed_value_spans (coder : WindowedValueCoder) (input : bytes)
    : outcome string (list SdfInputSpan) :=
  spans_loop (length input) coder 0 input.
End spans.

(** ** Whole elements handed back *)

(** The bound of what was already handed back. *)
Definition upper_bound (handed_back : option Z) (spans : list SdfInputSpan) : nat :=
  match handed_back with Some v => Z.to_nat v | None => length spans end.

Definition channel_split_range (first : Z) (handed_back : option Z) (spans : list SdfInputSpan)
    : outcome string (option (nat * nat * Z)) :=
  let first := Z.to_nat first in
  let upper := upper_bound handed_back spans in
  if decide (first < upper)%nat then
    match spans !! first, spans !! (upper - 1)%nat with
    | Some a, Some b => Ok (Some (span_start a, span_end b, Z.of_nat (upper - first)))
    | _, _ => Panic "index out of bounds"
    end
  else Ok None.

Definition channel_item_timestamps (spans : list SdfInputSpan) (handed_back : option Z) (first : Z)
    : outcome string (list Z) :=
  let first := Z.to_nat first in
  let upper := upper_bound handed_back spans in
  if decide (upper ≤ first)%nat then Ok []
  else if decide (upper ≤ length spans)%nat
  then Ok (span_timestamp_millis <$> take (upper - first) (drop first spans))
  else Panic "range end out of bounds".

(** [bytes[start..stop]]. *)
Definition slice (input : bytes) (start stop : nat) : outcome string bytes :=
  if decide (start ≤ stop ∧ stop ≤ length input)%nat then Ok (take (stop - start) (drop start input))
  else Panic "slice index out of range".

(** * One tick of the monitor *)

Record ChannelSplit : Type := mkChannelSplit { first_residual_element : Z }.
Record SplitResponse : Type := mkSplitResponse {
  residual_roots : list DelayedBundleApplication;
  channel_splits : list ChannelSplit;
}.

(** What a bundle's monitoring changes: the monitor, the spans once decoded, the
    residual roots and whole-element items so far, and the items sent to the
    dispatcher. *)
Record SplitState : Type := mkSplitState {
  ss_monitor : SplitMonitor;
  ss_spans : option (list SdfInputSpan);
  ss_roots : list DelayedBundleApplication;
  ss_items : list SdfWorkItem;
  ss_sent : list SdfWorkItem;
}.

Definition on_monitor (f : SplitMonitor → SplitMonitor) : st SplitState unit := λ s,
  (mkSplitState (f (ss_monitor s)) (ss_spans s) (ss_roots s) (ss_items s) (ss_sent s), Ok ()).

Definition set_can_split (b : bool) (s : SplitMonitor) : SplitMonitor :=
  mkMonitor (prev_index s) (prev_output_element_count_sum s) (prev_work_completed s) (prev_work_remaining s) b
    (estimated_input_elements s) (tick s) (handed_back_from s) (ticked s) (polls s) (split_requests s) (splits s)
    (started s) (last_split s) (config s).
Definition set_estimated (n : Z) (s : SplitMonitor) : SplitMonitor :=
  mkMonitor (prev_index s) (prev_output_element_count_sum s) (prev_work_completed s) (prev_work_remaining s) (can_split s)
    n (tick s) (handed_back_from s) (ticked s) (polls s) (split_requests s) (splits s) (started s) (last_split s) (config s).
Definition set_tick (t : Z) (s : SplitMonitor) : SplitMonitor :=
  mkMonitor (prev_index s) (prev_output_element_count_sum s) (prev_work_completed s) (prev_work_remaining s) (can_split s)
    (estimated_input_elements s) t (handed_back_from s) (ticked s) (polls s) (split_requests s) (splits s) (started s)
    (last_split s) (config s).
Definition set_handed_back (h : option Z) (s : SplitMonitor) : SplitMonitor :=
  mkMonitor (prev_index s) (prev_output_element_count_sum s) (prev_work_completed s) (prev_work_remaining s) (can_split s)
    (estimated_input_elements s) (tick s) h (ticked s) (polls s) (split_requests s) (splits s) (started s) (last_split s)
    (config s).
(** [ticked = true; polls += 1]. *)
Definition count_poll (s : SplitMonitor) : SplitMonitor :=
  mkMonitor (prev_index s) (prev_output_element_count_sum s) (prev_work_completed s) (prev_work_remaining s) (can_split s)
    (estimated_input_elements s) (tick s) (handed_back_from s) true (polls s + 1) (split_requests s) (splits s) (started s)
    (last_split s) (config s).
Definition count_request (s : SplitMonitor) : SplitMonitor :=
  mkMonitor (prev_index s) (prev_output_element_count_sum s) (prev_work_completed s) (prev_work_remaining s) (can_split s)
    (estimated_input_elements s) (tick s) (handed_back_from s) (ticked s) (polls s) (split_requests s + 1) (splits s)
    (started s) (last_split s) (config s).
(** [splits += 1; record_split(now)]. *)
Definition record_split (now : Z) (s : SplitMonitor) : SplitMonitor :=
  mkMonitor (prev_index s) (prev_output_element_count_sum s) (prev_work_completed s) (prev_work_remaining s) (can_split s)
    (estimated_input_elements s) (tick s) (handed_back_from s) (ticked s) (polls s) (split_requests s) (splits s + 1)
    (started s) (Some now) (config s).

Section poll.
Context `{P : Profile} (set_order : gset string → list string).
(** The coder of the input, the input, the stage, and whether the dispatcher still
    receives. *)
Context (coder : WindowedValueCoder) (input : bytes) (stage : SplittableStage) (dispatcher_open : bool).

(** [immediate_items.send]. *)
Definition send_item (item : SdfWorkItem) : st SplitState unit := λ s,
  if dispatcher_open
  then (mkSplitState (ss_monitor s) (ss_spans s) (ss_roots s) (ss_items s) (ss_sent s ++ [item]), Ok ())
  else (s, Err "SDF residual dispatcher closed").

Fixpoint send_items (items : list SdfWorkItem) : st SplitState unit :=
  match items with
  | [] => mret ()
  | item :: items => _ ← send_item item; send_items items
  end.

Definition push_item (item : SdfWorkItem) : st SplitState unit := λ s,
  (mkSplitState (ss_monitor s) (ss_spans s) (ss_roots s) (ss_items s ++ [item]) (ss_sent s), Ok ()).
Definition extend_roots (roots : list DelayedBundleApplication) : st SplitState unit := λ s,
  (mkSplitState (ss_monitor s) (ss_spans s) (ss_roots s ++ roots) (ss_items s) (ss_sent s), Ok ()).

(** Decoding the spans when they could not be decoded before the bundle started. *)
Definition ensure_spans : st SplitState (list SdfInputSpan) := λ s,
  match ss_spans s with
  | Some spans => (s, Ok spans)
  | None =>
      let spans := match decode_windowed_value_spans coder input with Ok spans => spans | _ => [] end in
      (mkSplitState
         (match spans with
          | [] => ss_monitor s
          | _ => set_estimated (Z.of_nat (length spans)) (ss_monitor s)
          end)
         (Some spans) (ss_roots s) (ss_items s) (ss_sent s), Ok spans)
  end.

(** One channel split of a response. *)
Definition channel_split (spans : list SdfInputSpan) (c : ChannelSplit) : st SplitState unit :=
  monitor ← st_read (λ s, Ok (ss_monitor s));
  let first := first_residual_element c in
  if ((first <? 0) || (Z.of_nat (length spans) <? first))%Z then mret ()
  else if match handed_back_from monitor with Some previous => (previous <? first)%Z | None => false end then mret ()
  else
    range ← st_lift (channel_split_range first (handed_back_from monitor) spans);
    match range with
    | None => mret ()
    | Some (start, stop, count) =>
        timestamps ← st_lift (channel_item_timestamps spans (handed_back_from monitor) first);
        bytes ← st_lift (slice input start stop);
        let item := mkWorkItem bytes (channel_item_holds set_order stage timestamps) in
        _ ← send_item item;
        _ ← push_item item;
        on_monitor (set_handed_back (Some first))
    end.

Fixpoint channel_splits_loop (spans : list SdfInputSpan) (cs : list ChannelSplit) : st SplitState unit :=
  match cs with
  | [] => mret ()
  | c :: cs => _ ← channel_split spans c; channel_splits_loop spans cs
  end.

(** The response to a split request. *)
Definition apply_split (now : Z) (spans : list SdfInputSpan) (response : SplitResponse) : st SplitState unit :=
  match channel_splits response with
  | [] => on_monitor (set_can_split false)
  | c :: _ =>
      before ← st_read (λ s, Ok (length (ss_roots s) + length (ss_items s))%nat);
      _ ← send_items (residual_items set_order stage (residual_roots response));
      _ ← extend_roots (residual_roots response);
      _ ← channel_splits_loop spans (channel_splits response);
      _ ← on_monitor (λ m, if (first_residual_element c <=? estimated_input_elements m)%Z
                           then set_estimated (first_residual_element c) m else m);
      _ ← on_monitor (λ m, set_tick (clamp_progress_tick (tick m * 4)) m);
      after ← st_read (λ s, Ok (length (ss_roots s) + length (ss_items s))%nat);
      if decide (before < after)%nat then on_monitor (record_split now) else mret ()
  end.

(** [poll_progress_and_maybe_split]: [progress] and [split] are what the SDK answers to
    the two requests, the second given the estimate it is sent. *)
Definition poll_progress_and_maybe_split (now : Z) (progress : outcome string (list MonitoringInfo))
    (split : Z → outcome string SplitResponse) : st SplitState unit :=
  _ ← on_monitor count_poll;
  infos ← st_lift progress;
  metrics ← st_lift (extract_progress_metrics infos);
  d ← st_read (λ s, Ok (decision (ss_monitor s) metrics now));
  _ ← on_monitor (record_poll metrics);
  if negb (requests_split d) then mret ()
  else
    spans ← ensure_spans;
    _ ← on_monitor count_request;
    response ← (λ s, (s, split (estimated_input_elements (ss_monitor s))));
    apply_split now spans response.

(** One round of the loop of [run_process_stage] in which the ticker fires: an error
    stops further splitting. *)
Record TickEvent : Type := mkTick {
  ev_now : Z;
  ev_progress : outcome string (list MonitoringInfo);
  ev_split : Z → outcome string SplitResponse;
}.

Definition monitor_tick (e : TickEvent) : st SplitState unit := λ s,
  match poll_progress_and_maybe_split (ev_now e) (ev_progress e) (ev_split e) s with
  | (s, Err _) => on_monitor (set_can_split false) s
  | r => r
  end.

Fixpoint monitor_ticks (events : list TickEvent) : st SplitState unit :=
  match events with
  | [] => mret ()
  | e :: events => _ ← monitor_tick e; monitor_ticks events
  end.

(** The monitoring state at the start of a bundle. *)
Definition start_monitoring (progress_tick : option Z) (c : SdfSplitConfig) (now : Z) : SplitState :=
  let spans :=
    match input with
    | [] => Some []
    | _ => match decode_windowed_value_spans coder input with Ok spans => Some spans | _ => None end
    end in
  let estimated :=
    match spans with
    | Some ((_ :: _) as l) => Z.of_nat (length l)
    | _ => match input with [] => 0%Z | _ => 1%Z end
    end in
  mkSplitState (with_config estimated progress_tick c now) spans [] [] [].
End poll.
