(* ===== verification/SdfSpec.v ===== *)
(** What splitting a bundle of a splittable stage guarantees: the spans cut the input
    into its elements, whole elements that the SDK gives up are handed back exactly
    once, and the holds of a work item cover everything it can still produce. *)
From S2P Require Import Prelude Bytes Varint Windows Coders CoderTypes Watermark Metrics Sdf.
Local Open Scope string_scope.
Local Open Scope list_scope.
Set Warnings "-clear-no-such-hyp".

(** * The spans *)

(** Consecutive non-empty spans from one offset to another. *)
Fixpoint contiguous (start : nat) (spans : list SdfInputSpan) (stop : nat) : Prop :=
  match spans with
  | [] => start = stop
  | s :: spans => span_start s = start ∧ (start < span_end s)%nat ∧ contiguous (span_end s) spans stop
  end.

Section spans.
Context `{P : Profile}.

Lemma element_consumes coder bs v rest :
  decode_windowed_value coder bs = Ok (v, rest) → is_i 64 (wv_timestamp_millis v) ∧ (length rest < length bs)%nat.
Proof.
  unfold decode_windowed_value, decode_windowed_value_header, decode_timestamp_millis, get_u64. intros H.
  rewrite !run_bind in H. unfold get_be in H at 1. case_decide as Hl; [|done]. cbn [mret reader_ret] in H.
  assert (Hy : yields (E:=CodersError) (a ← decode_windows (wvc_window_coder coder); b ← decode_pane_info;
      mret (to_signed 64 (Z.lxor (be_value (take 8 bs)) (2 ^ 63)), a, b)) (λ h, is_i 64 h.1.1)).
  { eapply yields_bind; [apply yields_windows|]. intros ws _. eapply yields_bind; [apply yields_pane|]. intros p _.
    apply yields_ret, (to_signed_range 64). lia. }
  match type of H with context [match ?m (drop 8 bs) with _ => _ end] => destruct (m (drop 8 bs)) as [[[[ts ws] pane] rest1]| |] eqn:E end; [|done..].
  apply Hy in E as [Hts [pre Hpre]]. rewrite run_bind in H.
  destruct (decode_nested (wvc_element_coder coder) rest1) as [[r rest2]| |] eqn:Er; [|done..].
  apply yields_nested in Er as [_ [pre2 ->]]. injection H as <- <-. split; [done|].
  apply (f_equal length) in Hpre. rewrite length_drop, !length_app in Hpre. lia.
Qed.

Lemma spans_loop_spec fuel coder start rest :
  (length rest ≤ fuel)%nat →
  (∃ e, spans_loop fuel coder start rest = Err e)
  ∨ ∃ spans, spans_loop fuel coder start rest = Ok spans ∧ contiguous start spans (start + length rest).
Proof.
  revert start rest. induction fuel as [|fuel IH]; intros start rest Hf; (destruct rest as [|b rest];
    [right; exists []; split; [done|simpl; lia]|]); [simpl in Hf; lia|].
  cbn [spans_loop]. destruct (decode_windowed_value coder (b :: rest)) as [[v rest']| |] eqn:E; [|left; by eexists..].
  apply element_consumes in E as [_ Hl].
  destruct (IH (start + (length (b :: rest) - length rest'))%nat rest') as [[e ->]|(spans & -> & Hc)]; [simpl in *; lia|left; by eexists|].
  right. eexists. split; [done|]. cbn [contiguous span_start span_end]. split_and!; [done|lia|].
  replace (start + length (b :: rest))%nat with (start + (length (b :: rest) - length rest') + length rest')%nat by lia. done.
Qed.

Lemma decode_spans_spec coder input :
  (∃ e, decode_windowed_value_spans coder input = Err e)
  ∨ ∃ spans, decode_windowed_value_spans coder input = Ok spans ∧ contiguous 0 spans (length input).
Proof. unfold decode_windowed_value_spans. by apply (spans_loop_spec _ coder 0). Qed.

(** An input made of encoded elements is cut at the element boundaries. *)
Lemma spans_loop_reads fuel coder start encs vals :
  (length (concat encs) ≤ fuel)%nat → Forall2 (reads (decode_windowed_value coder)) encs vals →
  ∃ spans, spans_loop fuel coder start (concat encs) = Ok spans
    ∧ Forall2 (λ s v, span_timestamp_millis s = wv_timestamp_millis v) spans vals
    ∧ Forall2 (λ s enc, (start ≤ span_start s)%nat ∧ (span_end s = span_start s + length enc)%nat
        ∧ take (length enc) (drop (span_start s - start) (concat encs)) = enc) spans encs.
Proof.
  intros Hf H2. revert fuel start Hf. induction H2 as [|enc v encs vals Hr H2 IH]; intros fuel start Hf.
  { exists []. destruct fuel; split_and!; constructor. }
  cbn [concat] in *. rewrite length_app in Hf.
  assert (Hne : (0 < length enc)%nat).
  { specialize (Hr []). rewrite app_nil_r in Hr. apply element_consumes in Hr as [_ Hl]. simpl in Hl. lia. }
  destruct enc as [|b enc]; [simpl in Hne; lia|]. destruct fuel as [|fuel]; [simpl in Hf; lia|].
  cbn [spans_loop app]. change (b :: enc ++ concat encs) with ((b :: enc) ++ concat encs). rewrite Hr.
  set (stop := (start + (length ((b :: enc) ++ concat encs) - length (concat encs)))%nat).
  assert (Hstop : stop = (start + length (b :: enc))%nat) by (unfold stop; rewrite length_app; lia).
  destruct (IH fuel stop) as (spans & -> & Ht & Hs); [simpl in Hf; lia|].
  eexists. split; [done|]. split; [by constructor|]. constructor.
  - cbn [span_start span_end]. rewrite Nat.sub_diag, drop_0, take_app_length. split_and!; [lia|lia|done].
  - eapply Forall2_impl; [exact Hs|]. cbn beta. intros s e (H1 & Hend & Htk). split_and!; [lia|done|].
    rewrite drop_app_ge by lia. rewrite <- Htk at 2. f_equal. f_equal. lia.
Qed.
End spans.

Lemma contiguous_app a s1 s2 c : contiguous a (s1 ++ s2) c → ∃ b, contiguous a s1 b ∧ contiguous b s2 c.
Proof.
  revert a. induction s1 as [|s s1 IH]; intros a H; [by exists a|]. destruct H as (H1 & H2 & H3).
  destruct (IH _ H3) as (b & Hb & Hc). by exists b.
Qed.

Lemma contiguous_le a s b : contiguous a s b → (a ≤ b)%nat.
Proof.
  revert a. induction s as [|x s IH]; intros a H; [by rewrite H|]. destruct H as (_ & H2 & H3). apply IH in H3. lia.
Qed.

(** * Whole elements handed back *)

(** The offset of an element, or of the end of the input. *)
Definition offset (spans : list SdfInputSpan) (input : bytes) (i : nat) : nat :=
  match spans !! i with Some s => span_start s | None => length input end.

Lemma offset_end spans input i s :
  contiguous 0 spans (length input) → spans !! i = Some s → span_end s = offset spans input (S i).
Proof.
  intros Hc Hi. rewrite <- (take_drop (S i) spans) in Hc. apply contiguous_app in Hc as (b & H1 & H2).
  assert (Hend : b = span_end s).
  { rewrite (take_S_r _ _ _ Hi) in H1. apply contiguous_app in H1 as (b' & _ & H1). by destruct H1 as (_ & _ & ->). }
  unfold offset. destruct (spans !! S i) as [s'|] eqn:E.
  - rewrite (drop_S _ _ _ E) in H2. destruct H2 as (-> & _). by rewrite Hend.
  - rewrite drop_ge in H2 by (by apply lookup_ge_None). simpl in H2. congruence.
Qed.

Lemma offset_mono spans input i j :
  contiguous 0 spans (length input) → (i ≤ j)%nat → (offset spans input i ≤ offset spans input j)%nat.
Proof.
  intros Hc Hij. induction Hij as [|j Hij IH]; [done|]. etrans; [exact IH|].
  destruct (spans !! j) as [s|] eqn:E.
  - rewrite <- (offset_end _ _ _ _ Hc E). unfold offset. rewrite E.
    rewrite <- (take_drop j spans), (drop_S _ _ _ E) in Hc. apply contiguous_app in Hc as (b & _ & (H1 & H2 & _)). lia.
  - unfold offset. rewrite E. rewrite (proj2 (lookup_ge_None spans (S j))); [done|]. apply lookup_ge_None in E. lia.
Qed.

Lemma offset_le spans input i : contiguous 0 spans (length input) → (offset spans input i ≤ length input)%nat.
Proof.
  intros Hc. pose proof (offset_mono spans input i (i + length spans) Hc ltac:(lia)) as H.
  unfold offset at 2 in H. by rewrite (proj2 (lookup_ge_None spans _)) in H by lia.
Qed.

Section items.
Context `{P : Profile} (set_order : gset string → list string) (coder : WindowedValueCoder) (input : bytes)
  (stage : SplittableStage).

(** The item of the elements from [a] up to [b]. *)
Definition item_for (spans : list SdfInputSpan) (a b : nat) : SdfWorkItem :=
  mkWorkItem (take (offset spans input b - offset spans input a) (drop (offset spans input a) input))
    (channel_item_holds set_order stage (span_timestamp_millis <$> take (b - a) (drop a spans))).

(** The items of successive cuts: each takes the elements from its cut to the one
    before. *)
Fixpoint items_of (spans : list SdfInputSpan) (upper : nat) (cuts : list nat) : list SdfWorkItem :=
  match cuts with
  | [] => []
  | cut :: cuts => item_for spans cut upper :: items_of spans cut cuts
  end.

Fixpoint descending (upper : nat) (cuts : list nat) : Prop :=
  match cuts with
  | [] => True
  | cut :: cuts => (cut < upper)%nat ∧ descending cut cuts
  end.

Lemma last_cons (c : nat) cuts upper : List.last (c :: cuts) upper = List.last cuts c.
Proof. destruct cuts as [|x cuts]; [done|]. revert x. induction cuts as [|y cuts IH]; intros x; [done|]. apply (IH y). Qed.

Lemma items_of_snoc spans upper cuts c :
  items_of spans upper (cuts ++ [c]) = items_of spans upper cuts ++ [item_for spans c (List.last cuts upper)].
Proof.
  revert upper. induction cuts as [|d cuts IH]; intros upper; [done|]. cbn [app items_of]. rewrite IH.
  by rewrite last_cons.
Qed.

Lemma descending_snoc upper cuts c :
  descending upper cuts → (c < List.last cuts upper)%nat → descending upper (cuts ++ [c]).
Proof.
  revert upper. induction cuts as [|d cuts IH]; intros upper Hd Hc; [by split|]. destruct Hd as [H1 Hd]. split; [done|].
  apply IH; [done|]. by rewrite last_cons in Hc.
Qed.

Lemma descending_last upper cuts : descending upper cuts → (List.last cuts upper ≤ upper)%nat.
Proof.
  revert upper. induction cuts as [|d cuts IH]; intros upper Hd; [done|]. destruct Hd as [H1 Hd].
  specialize (IH d Hd). rewrite last_cons. lia.
Qed.

(** The cuts among channel splits: each gives up the elements from its first residual one to
    the cut before it, if there are any. *)
Fixpoint accepted (upper : nat) (cs : list ChannelSplit) : list nat :=
  match cs with
  | [] => []
  | c :: cs =>
      let first := first_residual_element c in
      if decide (0 ≤ first < Z.of_nat upper)%Z then Z.to_nat first :: accepted (Z.to_nat first) cs else accepted upper cs
  end.

Lemma accepted_app upper a b : accepted upper (a ++ b) = accepted upper a ++ accepted (List.last (accepted upper a) upper) b.
Proof.
  revert upper. induction a as [|c a IH]; intros upper; [done|]. cbn [app accepted]. case_decide; [|apply IH].
  by rewrite IH, last_cons.
Qed.

Lemma accepted_cons upper c cs : accepted upper (c :: cs) = accepted upper [c] ++ accepted (List.last (accepted upper [c]) upper) cs.
Proof. apply (accepted_app upper [c]). Qed.

(** Put together, the items are the end of the input from the last cut on. *)
Lemma items_of_seeds spans upper cuts :
  contiguous 0 spans (length input) → descending upper cuts →
  concat (rev (seed <$> items_of spans upper cuts))
  = take (offset spans input upper - offset spans input (List.last cuts upper))
      (drop (offset spans input (List.last cuts upper)) input).
Proof.
  intros Hc. revert upper. induction cuts as [|c cuts IH]; intros upper Hd.
  { cbn. by rewrite Nat.sub_diag. }
  destruct Hd as [Hlt Hd]. cbn [items_of fmap list_fmap rev]. rewrite concat_app, (IH c Hd). cbn [concat]. rewrite app_nil_r.
  rewrite last_cons.
  cbn [seed item_for]. set (l := List.last cuts c).
  assert (Hl : (l ≤ c)%nat) by (by apply descending_last).
  pose proof (offset_mono spans input _ _ Hc Hl). pose proof (offset_mono spans input c upper Hc ltac:(lia)).
  set (ol := offset spans input l) in *. set (oc := offset spans input c) in *. set (ou := offset spans input upper) in *.
  replace (ou - ol)%nat with ((oc - ol) + (ou - oc))%nat by lia.
  rewrite <- take_take_drop, drop_drop. by replace (ol + (oc - ol))%nat with oc by lia.
Qed.

(** ** The monitor *)

Abbreviation residual_items := (residual_items set_order stage).
Context (dispatcher_open : bool).
Abbreviation channel_split := (channel_split set_order input stage dispatcher_open).
Abbreviation channel_splits_loop := (channel_splits_loop set_order input stage dispatcher_open).
Abbreviation apply_split := (apply_split set_order input stage dispatcher_open).
Abbreviation poll := (poll_progress_and_maybe_split set_order coder input stage dispatcher_open).
Abbreviation monitor_tick := (monitor_tick set_order coder input stage dispatcher_open).
Abbreviation monitor_ticks := (monitor_ticks set_order coder input stage dispatcher_open).

Lemma residual_items_app a b : residual_items (a ++ b) = residual_items a ++ residual_items b.
Proof. unfold Sdf.residual_items. by rewrite omap_app, filter_app, fmap_app. Qed.

(** The whole elements handed back so far are those from the last cut on, each in one
    item, and the dispatcher was sent every item of every residual. *)
Record split_ok (spans : list SdfInputSpan) (cuts : list nat) (s : SplitState) : Prop := {
  so_spans : spans = [] ∨ contiguous 0 spans (length input);
  so_items : ss_items s = items_of spans (length spans) cuts;
  so_cuts : descending (length spans) cuts;
  so_handed : handed_back_from (ss_monitor s)
    = match cuts with [] => None | _ => Some (Z.of_nat (List.last cuts (length spans))) end;
  so_tick : (MIN_PROGRESS_TICK ≤ tick (ss_monitor s) ≤ MAX_PROGRESS_TICK)%Z;
  so_sent : dispatcher_open = true → ss_sent s ≡ₚ residual_items (ss_roots s) ++ ss_items s;
}.

(** What the monitor does not change outside of the splits keeps the invariant. *)
Lemma split_ok_monitor spans cuts s s' :
  split_ok spans cuts s → ss_items s' = ss_items s → ss_roots s' = ss_roots s → ss_sent s' = ss_sent s →
  handed_back_from (ss_monitor s') = handed_back_from (ss_monitor s) → tick (ss_monitor s') = tick (ss_monitor s) →
  split_ok spans cuts s'.
Proof. intros [] Hi Hr Hse Hh Ht. constructor; rewrite ?Hi, ?Hh, ?Ht, ?Hr, ?Hse; done. Qed.

Lemma upper_bound_cuts spans cuts s : split_ok spans cuts s → upper_bound (handed_back_from (ss_monitor s)) spans = List.last cuts (length spans).
Proof. intros [_ _ _ -> _ _]. destruct cuts as [|c cuts]; [done|]. cbn [upper_bound]. by rewrite Nat2Z.id. Qed.

Lemma channel_range spans cuts s first :
  split_ok spans cuts s → (Z.to_nat first < List.last cuts (length spans))%nat →
  let upper := List.last cuts (length spans) in
  channel_split_range first (handed_back_from (ss_monitor s)) spans
    = Ok (Some (offset spans input (Z.to_nat first), offset spans input upper, Z.of_nat (upper - Z.to_nat first)))
  ∧ channel_item_timestamps spans (handed_back_from (ss_monitor s)) first
    = Ok (span_timestamp_millis <$> take (upper - Z.to_nat first) (drop (Z.to_nat first) spans))
  ∧ slice input (offset spans input (Z.to_nat first)) (offset spans input upper)
    = Ok (seed (item_for spans (Z.to_nat first) upper)).
Proof.
  intros Hok Hlt upper. pose proof (upper_bound_cuts _ _ _ Hok) as Hu. destruct Hok as [Hsp _ Hd _ _ _].
  pose proof (descending_last _ _ Hd) as Hle. fold upper in Hu, Hlt, Hle.
  destruct Hsp as [->|Hc]; [simpl in Hle; lia|].
  unfold channel_split_range, channel_item_timestamps, slice. rewrite Hu, decide_True, decide_False, decide_True by lia.
  destruct (lookup_lt_is_Some_2 spans (Z.to_nat first)) as [a Ha]; [lia|].
  destruct (lookup_lt_is_Some_2 spans (upper - 1)) as [b Hb]; [lia|]. rewrite Ha, Hb.
  split_and!; [|done|].
  - pose proof (offset_end _ _ _ _ Hc Hb) as He. replace (S (upper - 1)) with upper in He by lia. assert (Hs : offset spans input (Z.to_nat first) = span_start a) by (unfold offset; by rewrite Ha). by rewrite Hs, <- He.
  - rewrite decide_True; [done|]. split; [apply offset_mono; [done|lia]|by apply offset_le].
Qed.

(** The cuts once the splits [cs] are applied; a dispatcher that is gone takes no item. *)
Definition cuts_after (spans : list SdfInputSpan) (cuts : list nat) (cs : list ChannelSplit) : list nat :=
  if dispatcher_open then cuts ++ accepted (List.last cuts (length spans)) cs else cuts.

Lemma last_app_default (a b : list nat) d : List.last (a ++ b) d = List.last b (List.last a d).
Proof. revert d. induction a as [|x a IH]; intros d; [done|]. cbn [app]. by rewrite !last_cons, IH. Qed.

Lemma cuts_after_cons spans cuts c cs : cuts_after spans (cuts_after spans cuts [c]) cs = cuts_after spans cuts (c :: cs).
Proof.
  unfold cuts_after. destruct dispatcher_open; [|done]. by rewrite (accepted_cons _ c cs), <-app_assoc, last_app_default.
Qed.

Lemma cuts_after_nil spans cuts : cuts_after spans cuts [] = cuts.
Proof. unfold cuts_after. destruct dispatcher_open; [by rewrite app_nil_r|done]. Qed.

(** Done, or stopped because the dispatcher is gone. *)
Definition done_or_closed (r : outcome string ()) : Prop := r = Ok () ∨ dispatcher_open = false ∧ ∃ e, r = Err e.

Lemma channel_split_ok spans cuts s c :
  split_ok spans cuts s →
  ∃ s' r, channel_split spans c s = (s', r) ∧ split_ok spans (cuts_after spans cuts [c]) s' ∧ ss_spans s' = ss_spans s
    ∧ ss_roots s' = ss_roots s ∧ can_split (ss_monitor s') = can_split (ss_monitor s) ∧ done_or_closed r.
Proof.
  intros Hok. unfold Sdf.channel_split, mbind, st_bind, st_read, st_lift, done_or_closed, cuts_after. cbn [mret st_ret accepted].
  set (first := first_residual_element c) in *. set (upper := List.last cuts (length spans)).
  assert (Hskip : ¬ (0 ≤ first < Z.of_nat upper)%Z →
    split_ok spans (if dispatcher_open then cuts ++ (if decide (0 ≤ first < Z.of_nat upper)%Z then [Z.to_nat first] else []) else cuts) s).
  { intros Hno. rewrite decide_False, app_nil_r by done. by destruct dispatcher_open. }
  pose proof (descending_last _ _ (so_cuts _ _ _ Hok)) as Hle. fold upper in Hle.
  destruct (_ || _) eqn:Hrange.
  { exists s, (Ok ()). split_and!; auto. apply Hskip. apply orb_true_iff in Hrange as [H%Z.ltb_lt|H%Z.ltb_lt]; lia. }
  destruct (match handed_back_from (ss_monitor s) with Some _ => _ | None => _ end) eqn:Hreg.
  { exists s, (Ok ()). split_and!; auto. apply Hskip. rewrite (so_handed _ _ _ Hok) in Hreg. destruct cuts; [done|].
    apply Z.ltb_lt in Hreg. subst upper. lia. }
  apply orb_false_iff in Hrange as [H0%Z.ltb_ge H1%Z.ltb_ge].
  destruct (decide (Z.to_nat first < upper)%nat) as [Hlt|Hge].
  - destruct (channel_range spans cuts s first Hok Hlt) as (-> & -> & ->). fold upper.
    rewrite decide_True by lia. unfold send_item. destruct dispatcher_open eqn:Ho; [|exists s; eexists; split_and!; eauto].
    cbn [push_item on_monitor ss_monitor ss_spans ss_roots ss_items ss_sent].
    eexists. exists (Ok ()). split; [reflexivity|]. split_and!; try done; [|by left].
    change (mkWorkItem _ _) with (item_for spans (Z.to_nat first) upper).
    destruct Hok as [Hsp Hi Hd Hh Ht Hs]. constructor; cbn [ss_monitor ss_items ss_roots ss_sent set_handed_back handed_back_from tick].
    + done.
    + by rewrite items_of_snoc, Hi.
    + by apply descending_snoc.
    + rewrite List.last_last, Z2Nat.id by done. by destruct cuts.
    + done.
    + intros _. rewrite Hs by done. by rewrite <- app_assoc.
  - exists s, (Ok ()). split; [|split_and!; auto; apply Hskip; lia]. unfold channel_split_range.
    rewrite (upper_bound_cuts _ _ _ Hok). fold upper. by rewrite decide_False.
Qed.

Lemma channel_splits_ok spans cuts s cs :
  split_ok spans cuts s →
  ∃ s' r, channel_splits_loop spans cs s = (s', r) ∧ split_ok spans (cuts_after spans cuts cs) s' ∧ ss_spans s' = ss_spans s
    ∧ ss_roots s' = ss_roots s ∧ can_split (ss_monitor s') = can_split (ss_monitor s) ∧ done_or_closed r.
Proof.
  revert s cuts. induction cs as [|c cs IH]; intros s cuts Hok; cbn [Sdf.channel_splits_loop].
  { exists s, (Ok ()). rewrite cuts_after_nil. split_and!; auto. by left. }
  destruct (channel_split_ok spans cuts s c Hok) as (s1 & r1 & E & Hok1 & Hs1 & Hr1 & Hc1 & [->|(Ho & e & ->)]);
    unfold mbind, st_bind; rewrite E.
  - destruct (IH s1 _ Hok1) as (s2 & r2 & E2 & Hok2 & Hs2 & Hr2 & Hc2 & Hres). rewrite cuts_after_cons in Hok2.
    exists s2, r2. split_and!; [done|done|congruence..|done].
  - exists s1, (Err e). unfold cuts_after in *. rewrite Ho in *. split_and!; try done. right. eauto.
Qed.

Lemma send_items_run items s :
  send_items dispatcher_open items s
  = if dispatcher_open
    then (mkSplitState (ss_monitor s) (ss_spans s) (ss_roots s) (ss_items s) (ss_sent s ++ items), Ok ())
    else (s, match items with [] => Ok () | _ => Err "SDF residual dispatcher closed" end).
Proof.
  revert s. induction items as [|item items IH]; intros s; cbn [send_items].
  { destruct dispatcher_open; [|done]. unfold mret, st_ret. f_equal. destruct s. cbn. by rewrite app_nil_r. }
  unfold mbind, st_bind, send_item. destruct dispatcher_open; [|done]. rewrite IH. cbn [ss_monitor ss_spans ss_roots ss_items ss_sent].
  by rewrite <- app_assoc.
Qed.

Lemma clamp_range t : (MIN_PROGRESS_TICK ≤ clamp_progress_tick t ≤ MAX_PROGRESS_TICK)%Z.
Proof. unfold clamp_progress_tick, MIN_PROGRESS_TICK, MAX_PROGRESS_TICK, MILLI. lia. Qed.

(** The spans a bundle works with, decoded already or not. *)
Definition spans_of (s : SplitState) : list SdfInputSpan :=
  match ss_spans s with
  | Some spans => spans
  | None => match decode_windowed_value_spans coder input with Ok spans => spans | _ => [] end
  end.

(** After the residual roots: the channel splits, the new estimate and the new tick. *)
Lemma finish_split_ok now spans cuts cs c before s :
  split_ok spans cuts s →
  ∃ s' r, (_ ← channel_splits_loop spans cs;
           _ ← on_monitor (λ m, if (first_residual_element c <=? estimated_input_elements m)%Z
                                then set_estimated (first_residual_element c) m else m);
           _ ← on_monitor (λ m, set_tick (clamp_progress_tick (tick m * 4)) m);
           after ← st_read (λ s, Ok (length (ss_roots s) + length (ss_items s))%nat);
           if decide (before < after)%nat then on_monitor (record_split now) else mret ()) s = (s', r)
    ∧ split_ok spans (cuts_after spans cuts cs) s' ∧ ss_spans s' = ss_spans s
    ∧ ss_roots s' = ss_roots s ∧ can_split (ss_monitor s') = can_split (ss_monitor s) ∧ done_or_closed r.
Proof.
  intros Hok. destruct (channel_splits_ok spans cuts s cs Hok) as (s2 & r2 & Eloop & Hok2 & Hs2 & Hro2 & Hc2 & Hr2).
  unfold mbind, st_bind, on_monitor, st_read. rewrite Eloop.
  destruct Hr2 as [->|(Ho & e & ->)]; [|do 2 eexists; split; [reflexivity|]; split_and!; try done; right; eauto].
  cbn [ss_monitor ss_spans ss_roots ss_items ss_sent].
  set (m3 := if (first_residual_element c <=? _)%Z then _ else _).
  assert (Hm3 : handed_back_from m3 = handed_back_from (ss_monitor s2) ∧ can_split m3 = can_split (ss_monitor s2))
    by (unfold m3; by destruct (_ <=? _)%Z).
  destruct Hm3 as [Hm3 Hc3].
  assert (Hok4 : ∀ m, handed_back_from m = handed_back_from m3 → (MIN_PROGRESS_TICK ≤ tick m ≤ MAX_PROGRESS_TICK)%Z →
    split_ok spans (cuts_after spans cuts cs) (mkSplitState m (ss_spans s2) (ss_roots s2) (ss_items s2) (ss_sent s2))).
  { intros m Hm Ht. destruct Hok2 as [? ? ? ? ? ?]. constructor; cbn [ss_monitor ss_roots ss_items ss_sent]; try done. by rewrite Hm, Hm3. }
  case_decide; (do 2 eexists; split; [reflexivity|]; split_and!; [|done|done| |by left]).
  all: first [apply Hok4; [done|apply clamp_range]|cbn; congruence].
Qed.

(** The residual roots of a response that splits. *)
Definition roots_of (response : SplitResponse) : list DelayedBundleApplication :=
  match channel_splits response with [] => [] | _ => residual_roots response end.

Definition declined (response : SplitResponse) : bool := match channel_splits response with [] => true | _ => false end.

Lemma apply_split_ok now spans cuts response s :
  split_ok spans cuts s →
  ∃ s' r, apply_split now spans response s = (s', r) ∧ split_ok spans (cuts_after spans cuts (channel_splits response)) s'
    ∧ ss_spans s' = ss_spans s ∧ (dispatcher_open = true → ss_roots s' = ss_roots s ++ roots_of response)
    ∧ can_split (ss_monitor s') = can_split (ss_monitor s) && negb (declined response) ∧ done_or_closed r.
Proof.
  intros Hok. unfold Sdf.apply_split, roots_of, declined. destruct (channel_splits response) as [|c cs] eqn:Ecs.
  { eexists _, _. split; [reflexivity|]. rewrite cuts_after_nil. split_and!; [by eapply split_ok_monitor|done| |by rewrite andb_false_r|by left].
    intros _. by rewrite app_nil_r. }
  unfold mbind at 1, st_bind at 1, st_read at 1. unfold mbind at 1, st_bind at 1. rewrite andb_true_r.
  set (residual := residual_items (residual_roots response)). rewrite send_items_run.
  destruct (if dispatcher_open then _ else _) as [s0 r0] eqn:E0.
  assert (Hcase : dispatcher_open = false ∧ s0 = s ∧ (∃ e, r0 = Err e)
    ∨ ∃ sent, s0 = mkSplitState (ss_monitor s) (ss_spans s) (ss_roots s) (ss_items s) sent ∧ r0 = Ok ()
        ∧ (dispatcher_open = true → sent = ss_sent s ++ residual)).
  { destruct dispatcher_open; injection E0 as <- <-; [right; eauto|]. destruct residual; [|left; eauto].
    right. exists (ss_sent s). split; [by destruct s|done]. }
  destruct Hcase as [(Ho & -> & e & ->)|(sent & -> & -> & Hsent)].
  { do 2 eexists. split; [reflexivity|]. unfold done_or_closed, cuts_after. rewrite Ho. split_and!; try done. right. eauto. }
  unfold mbind at 1, st_bind at 1, extend_roots at 1. cbn [ss_monitor ss_spans ss_roots ss_items ss_sent].
  match goal with |- ∃ s' r, _ ?x = _ ∧ _ => set (s1 := x) end.
  assert (Hok1 : split_ok spans cuts s1).
  { destruct Hok as [Hsp Hi Hd Hh Ht Hs]. constructor; try done. intros Ho. cbn [s1 ss_sent ss_roots ss_items].
    rewrite Hsent, Hs, residual_items_app by done. fold residual. solve_Permutation. }
  destruct (finish_split_ok now spans cuts (c :: cs) c (length (ss_roots s) + length (ss_items s)) s1 Hok1)
    as (s2 & r & -> & Hok2 & Hs2 & Hr2 & Hc2 & Hres).
  exists s2, r. split_and!; [done|done|done|by rewrite Hr2|by rewrite Hc2|done].
Qed.

Lemma ensure_spans_ok cuts s :
  split_ok (spans_of s) cuts s → ∃ s', ensure_spans coder input s = (s', Ok (spans_of s)) ∧ split_ok (spans_of s) cuts s' ∧ ss_spans s' = Some (spans_of s)
    ∧ can_split (ss_monitor s') = can_split (ss_monitor s) ∧ ss_roots s' = ss_roots s.
Proof.
  intros Hok. unfold ensure_spans, spans_of in *. destruct (ss_spans s) as [l|] eqn:E; [by exists s|].
  eexists. split; [reflexivity|]. set (l := match decode_windowed_value_spans coder input with Ok _ => _ | _ => _ end) in *. clearbody l.
  split_and!; [|done|by destruct l|done]. eapply split_ok_monitor; [exact Hok|..]; by destruct l.
Qed.

(** ** One tick *)

(** What passes between the monitor and the SDK in a tick: whether a split is asked for, given
    the progress that is reported, and the answer to the estimate that is sent. *)
Definition exchange (e : TickEvent) (s : SplitState) : outcome string (option SplitResponse) :=
  infos ← ev_progress e;
  metrics ← extract_progress_metrics infos;
  if requests_split (decision (ss_monitor s) metrics (ev_now e)) then
    response ← ev_split e (estimated_input_elements (ss_monitor (ensure_spans coder input s).1));
    Ok (Some response)
  else Ok None.

(** The SDK fails, or declines to split. *)
Definition gives_up (x : outcome string (option SplitResponse)) : bool :=
  match x with
  | Err _ => true
  | Ok (Some response) => declined response
  | _ => false
  end.

(** The splits and the residual roots of an exchange. *)
Definition splits_in (x : outcome string (option SplitResponse)) : list ChannelSplit :=
  match x with Ok (Some response) => channel_splits response | _ => [] end.
Definition roots_in (x : outcome string (option SplitResponse)) : list DelayedBundleApplication :=
  match x with Ok (Some response) => roots_of response | _ => [] end.

Lemma estimate_same s m : estimated_input_elements m = estimated_input_elements (ss_monitor s) →
  estimated_input_elements (ss_monitor (ensure_spans coder input (mkSplitState m (ss_spans s) (ss_roots s) (ss_items s) (ss_sent s))).1)
  = estimated_input_elements (ss_monitor (ensure_spans coder input s).1).
Proof. intros Hm. unfold ensure_spans. cbn. destruct (ss_spans s); [done|]. by destruct (decode_windowed_value_spans _ _) as [[|? ?]| |]. Qed.

Lemma poll_ok e cuts s :
  split_ok (spans_of s) cuts s →
  ∃ s' r, poll (ev_now e) (ev_progress e) (ev_split e) s = (s', r)
    ∧ split_ok (spans_of s) (cuts_after (spans_of s) cuts (splits_in (exchange e s))) s' ∧ spans_of s' = spans_of s
    ∧ (dispatcher_open = true → ss_roots s' = ss_roots s ++ roots_in (exchange e s))
    ∧ match exchange e s with
      | Err _ => (∃ w, r = Err w) ∧ can_split (ss_monitor s') = can_split (ss_monitor s)
      | Panic w => r = Panic w ∧ can_split (ss_monitor s') = can_split (ss_monitor s)
      | Ok o => done_or_closed r ∧ can_split (ss_monitor s') = can_split (ss_monitor s) && negb (gives_up (Ok o))
      end.
Proof.
  intros Hok. unfold poll_progress_and_maybe_split, exchange. unfold mbind at 1, st_bind at 1, on_monitor at 1.
  set (s1 := mkSplitState (count_poll _) _ _ _ _). assert (Hok1 : split_ok (spans_of s) cuts s1) by (by eapply split_ok_monitor).
  assert (Hquiet : ∀ x, split_ok (spans_of s) cuts x → split_ok (spans_of s) (cuts_after (spans_of s) cuts []) x)
    by (intros x; by rewrite cuts_after_nil).
  unfold mbind at 1, st_bind at 1, st_lift at 1.
  destruct (ev_progress e) as [infos|er|w]; cbn [mbind outcome_bind splits_in roots_in];
    [|do 2 eexists; split; [reflexivity|]; split_and!; rewrite ?app_nil_r; eauto..].
  unfold mbind at 1, st_bind at 1, st_lift at 1.
  destruct (extract_progress_metrics infos) as [m|er|w]; cbn [mbind outcome_bind splits_in roots_in];
    [|do 2 eexists; split; [reflexivity|]; split_and!; rewrite ?app_nil_r; eauto..].
  unfold mbind at 1, st_bind at 1, st_read at 1. unfold mbind at 1, st_bind at 1, on_monitor at 1.
  assert (Hd : decision (ss_monitor s1) m (ev_now e) = decision (ss_monitor s) m (ev_now e)) by done. rewrite Hd.
  set (s2 := mkSplitState (record_poll m _) _ _ _ _). assert (Hok2 : split_ok (spans_of s) cuts s2) by (by eapply split_ok_monitor).
  destruct (requests_split _); cbn [negb].
  2:{ cbn [splits_in roots_in gives_up negb]. do 2 eexists. split; [reflexivity|]. rewrite andb_true_r. split_and!; rewrite ?app_nil_r; eauto. by left. }
  destruct (ensure_spans_ok cuts s2 Hok2) as (s3 & E3 & Hok3 & Hsp3 & Hc3 & Hr3).
  pose proof (estimate_same s (ss_monitor s2) eq_refl) as Hest.
  change (mkSplitState (ss_monitor s2) _ _ _ _) with s2 in Hest. rewrite E3 in Hest. cbn [fst] in Hest. rewrite <-Hest.
  change (spans_of s2) with (spans_of s) in *.
  unfold mbind at 1, st_bind at 1. rewrite E3. unfold mbind at 1, st_bind at 1, on_monitor at 1.
  set (s4 := mkSplitState (count_request _) _ _ _ _). assert (Hok4 : split_ok (spans_of s) cuts s4) by (by eapply split_ok_monitor).
  assert (Hs4 : ∀ x, ss_spans x = ss_spans s4 → spans_of x = spans_of s) by (intros x Hx; unfold spans_of at 1; by rewrite Hx; cbn; rewrite Hsp3).
  unfold mbind at 1, st_bind at 1. change (estimated_input_elements (ss_monitor s4)) with (estimated_input_elements (ss_monitor s3)).
  destruct (ev_split e _) as [response|er|w]; cbn [mbind outcome_bind splits_in roots_in gives_up].
  2,3: exists s4; eexists; split; [reflexivity|]; split_and!; rewrite ?app_nil_r; eauto.
  destruct (apply_split_ok (ev_now e) (spans_of s) cuts response s4 Hok4) as (s5 & r & -> & Hok5 & Hsp5 & Hr5 & Hc5 & Hres).
  exists s5, r. split_and!; [done|done|by apply Hs4| |done|].
  - intros Ho. rewrite Hr5 by done. f_equal. exact Hr3.
  - rewrite Hc5. f_equal. exact Hc3.
Qed.

(** One tick keeps the invariant, whatever the SDK answers. *)
Lemma monitor_tick_ok e cuts s :
  split_ok (spans_of s) cuts s →
  ∃ s' r, monitor_tick e s = (s', r)
    ∧ split_ok (spans_of s) (cuts_after (spans_of s) cuts (splits_in (exchange e s))) s' ∧ spans_of s' = spans_of s
    ∧ (dispatcher_open = true → ss_roots s' = ss_roots s ++ roots_in (exchange e s))
    ∧ (r = Ok () ∨ (∃ w, r = Panic w) ∧ ∃ w, exchange e s = Panic w)
    ∧ (gives_up (exchange e s) = true → can_split (ss_monitor s') = false)
    ∧ (dispatcher_open = true → can_split (ss_monitor s') = can_split (ss_monitor s) && negb (gives_up (exchange e s))).
Proof.
  intros Hok. unfold Sdf.monitor_tick. destruct (poll_ok e cuts s Hok) as (s' & r & -> & Hok' & Hsp & Hro & Hres).
  destruct (exchange e s) as [o|er|w]; cbn [gives_up].
  - destruct Hres as [[->|(Ho & w & ->)] Hc].
    + do 2 eexists. split; [reflexivity|]. split_and!; [done..|by left| |done]. intros Hg. rewrite Hc. destruct o; [cbn [gives_up]; by rewrite Hg, andb_false_r|done].
    + do 2 eexists. split; [reflexivity|]. split_and!; [by eapply split_ok_monitor|done|done|by left|done|by rewrite Ho].
  - destruct Hres as [[w ->] Hc]. do 2 eexists. split; [reflexivity|]. cbn [negb]. rewrite andb_false_r.
    split_and!; [by eapply split_ok_monitor|done|done|by left|done|done].
  - destruct Hres as [-> Hc]. do 2 eexists. split; [reflexivity|]. cbn [negb]. rewrite andb_true_r. split_and!; [done..|by eauto|done|done].
Qed.

(** The exchanges of the ticks of a bundle; a panic ends it. *)
Fixpoint exchanges (events : list TickEvent) (s : SplitState) : list (outcome string (option SplitResponse)) :=
  match events with
  | [] => []
  | e :: events =>
      exchange e s :: match monitor_tick e s with (s', Ok _) => exchanges events s' | _ => [] end
  end.

Lemma cuts_after_app spans cuts a b : cuts_after spans (cuts_after spans cuts a) b = cuts_after spans cuts (a ++ b).
Proof.
  unfold cuts_after. destruct dispatcher_open; [|done]. by rewrite accepted_app, <-app_assoc, last_app_default.
Qed.

Lemma monitor_ticks_ok events cuts s :
  split_ok (spans_of s) cuts s →
  ∃ s' r, monitor_ticks events s = (s', r)
    ∧ split_ok (spans_of s) (cuts_after (spans_of s) cuts (concat (splits_in <$> exchanges events s))) s'
    ∧ (dispatcher_open = true → ss_roots s' = ss_roots s ++ concat (roots_in <$> exchanges events s)).
Proof.
  revert cuts s. induction events as [|e events IH]; intros cuts s Hok; cbn [Sdf.monitor_ticks exchanges fmap list_fmap concat].
  { do 2 eexists. split; [reflexivity|]. rewrite cuts_after_nil, app_nil_r. done. }
  destruct (monitor_tick_ok e cuts s Hok) as (s1 & r & E & Hok1 & Hsp & Hro & Hr & _). unfold mbind, st_bind. rewrite E.
  destruct Hr as [->|[[w ->] _]].
  - rewrite <-Hsp in Hok1. destruct (IH _ s1 Hok1) as (s2 & r2 & E2 & Hok2 & Hro2). rewrite Hsp, cuts_after_app in Hok2.
    do 2 eexists. split; [exact E2|]. split; [done|]. intros Ho. rewrite Hro2, Hro by done. by rewrite app_assoc.
  - do 2 eexists. split; [reflexivity|]. cbn. by rewrite !app_nil_r.
Qed.

Lemma spans_of_start progress_tick c now : spans_of (start_monitoring coder input progress_tick c now)
  = match decode_windowed_value_spans coder input with Ok spans => spans | _ => [] end.
Proof. unfold spans_of, start_monitoring. cbn. destruct input; [done|]. by destruct (decode_windowed_value_spans _ _). Qed.

Lemma start_monitoring_ok progress_tick c now :
  let s := start_monitoring coder input progress_tick c now in split_ok (spans_of s) [] s.
Proof.
  intros s. unfold s at 1. rewrite spans_of_start. constructor; cbn [s start_monitoring ss_monitor ss_items ss_roots ss_sent with_config handed_back_from tick]; try done.
  - destruct (decode_spans_spec coder input) as [[e ->]|(spans & -> & Hc)]; [by left|by right].
  - apply clamp_range.
Qed.

(** ** A declined split is final *)

Lemma declined_tick e s :
  can_split (ss_monitor s) = false →
  ∃ s' r, monitor_tick e s = (s', r) ∧ can_split (ss_monitor s') = false
    ∧ ss_items s' = ss_items s ∧ ss_roots s' = ss_roots s ∧ ss_sent s' = ss_sent s
    ∧ split_requests (ss_monitor s') = split_requests (ss_monitor s).
Proof.
  intros Hc. unfold Sdf.monitor_tick, poll_progress_and_maybe_split. unfold mbind at 1, st_bind at 1, on_monitor at 1.
  unfold mbind at 1, st_bind at 1, st_lift at 1.
  destruct (ev_progress e) as [infos| |]; [|do 2 eexists; (split; [reflexivity|]); by split_and!..].
  unfold mbind at 1, st_bind at 1, st_lift at 1.
  destruct (extract_progress_metrics infos) as [m| |]; [|do 2 eexists; (split; [reflexivity|]); by split_and!..].
  unfold mbind at 1, st_bind at 1, st_read at 1. unfold mbind at 1, st_bind at 1, on_monitor at 1.
  assert (Hd : decision (count_poll (ss_monitor s)) m (ev_now e) = SkipDisabled) by (unfold decision; cbn; by rewrite Hc).
  cbn [ss_monitor]. rewrite Hd. do 2 eexists. split; [reflexivity|]. by split_and!.
Qed.

Lemma declined_ticks events s :
  can_split (ss_monitor s) = false →
  ∃ s' r, monitor_ticks events s = (s', r) ∧ can_split (ss_monitor s') = false
    ∧ ss_items s' = ss_items s ∧ ss_roots s' = ss_roots s ∧ ss_sent s' = ss_sent s
    ∧ split_requests (ss_monitor s') = split_requests (ss_monitor s).
Proof.
  revert s. induction events as [|e events IH]; intros s Hc; cbn [Sdf.monitor_ticks]; [by do 2 eexists; split_and!|].
  destruct (declined_tick e s Hc) as (s1 & r & E & H1 & H2 & H3 & H4 & H5). unfold mbind, st_bind. rewrite E.
  destruct r; [|by do 2 eexists; split_and!..].
  destruct (IH s1 H1) as (s2 & r2 & E2 & G1 & G2 & G3 & G4 & G5). do 2 eexists. split; [exact E2|]. split_and!; congruence.
Qed.

(** Splitting goes on until the SDK gives up, and no longer. *)
Lemma ticks_give_up events cuts s : split_ok (spans_of s) cuts s →
  ∃ s' r, monitor_ticks events s = (s', r)
    ∧ (existsb gives_up (exchanges events s) = true → can_split (ss_monitor s') = false)
    ∧ (dispatcher_open = true → can_split (ss_monitor s') = can_split (ss_monitor s) && negb (existsb gives_up (exchanges events s))).
Proof.
  revert cuts s. induction events as [|e events IH]; intros cuts s Hok; cbn [Sdf.monitor_ticks exchanges existsb].
  { do 2 eexists. split; [reflexivity|]. by rewrite andb_true_r. }
  destruct (monitor_tick_ok e cuts s Hok) as (s1 & r & E & Hok1 & Hsp & _ & Hr & Hg & Hc). unfold mbind, st_bind. rewrite E.
  destruct Hr as [->|[[w ->] [w' Hx]]].
  - rewrite <-Hsp in Hok1. destruct (IH _ s1 Hok1) as (s2 & r2 & E2 & Hg2 & Hc2). do 2 eexists. split; [exact E2|]. split.
    + intros [Hge|Hge]%orb_true_iff; [|by apply Hg2].
      destruct (declined_ticks events s1 (Hg Hge)) as (s3 & r3 & E3 & Hf & _). rewrite E2 in E3. by injection E3 as <- <-.
    + intros Ho. by rewrite Hc2, Hc, negb_orb, andb_assoc by done.
  - rewrite Hx in *. cbn [gives_up orb existsb]. do 2 eexists. split; [reflexivity|]. by split.
Qed.
End items.

(** * Holds *)

(** The hold of a whole-element item is the earliest timestamp of its elements, once
    per output; below the least timestamp there is none. *)
Lemma channel_item_holds_spec set_order stage ts :
  (∀ X, set_order X ≡ₚ elements X) →
  (∀ h t, h ∈ channel_item_holds set_order stage ts → t ∈ ts → (h ≤ t)%Z)
  ∧ ((∀ t, t ∈ ts → (MIN_TIMESTAMP < t)%Z) → ts ≠ [] →
     length (channel_item_holds set_order stage ts) = size (output_pcols stage)).
Proof.
  intros Ho. unfold channel_item_holds. case_decide as Hb.
  { split; [by intros h t Hh%elem_of_nil|]. intros _ _. rewrite Hb. by rewrite size_empty. }
  destruct ts as [|t ts]; [split; [by intros h t Hh%elem_of_nil|done]|].
  destruct (foldl_min_spec ts t) as [Hin Hle]. destruct (Z.leb_spec (foldl Z.min t ts) MIN_TIMESTAMP) as [Hm|Hm].
  - split; [by intros h x Hh%elem_of_nil|]. intros Hall _. specialize (Hall _ Hin). lia.
  - split.
    + intros h x Hh Hx. apply list_elem_of_fmap in Hh as (p & -> & _). by apply Hle.
    + intros _ _. by rewrite length_fmap, Ho.
Qed.

(** What a residual reports for an output of its stage. *)
Definition reports (outputs : gmap string string) (app : BundleApplication) (p : string) (w : Z) : Prop :=
  ∃ name t, output_watermarks app !! name = Some t ∧ outputs !! name = Some p ∧ watermark_millis t = w.

Lemma report_fold_spec boundary outputs l p :
  p ∈ boundary →
  match foldl (report_one boundary outputs) ∅ l !! p with
  | None => ∀ e, e ∈ l → outputs !! e.1 ≠ Some p
  | Some h => (∃ e, e ∈ l ∧ outputs !! e.1 = Some p ∧ watermark_millis e.2 = h)
      ∧ ∀ e, e ∈ l → outputs !! e.1 = Some p → (h ≤ watermark_millis e.2)%Z
  end.
Proof.
  intros Hp. induction l as [|e l IH] using rev_ind; [cbn [foldl]; rewrite lookup_empty; by intros e He%elem_of_nil|].
  rewrite foldl_snoc. set (m := foldl _ ∅ l) in *. clearbody m. unfold report_one.
  assert (Hsame : outputs !! e.1 ≠ Some p → ∀ m' : gmap string Z, m' !! p = m !! p →
    match m' !! p with
    | None => ∀ x, x ∈ l ++ [e] → outputs !! x.1 ≠ Some p
    | Some h => (∃ x, x ∈ l ++ [e] ∧ outputs !! x.1 = Some p ∧ watermark_millis x.2 = h)
        ∧ ∀ x, x ∈ l ++ [e] → outputs !! x.1 = Some p → (h ≤ watermark_millis x.2)%Z
    end).
  { intros Hne m' ->. destruct (m !! p) as [h|].
    - destruct IH as ((x & Hx & Hpx & Hw) & Hle). split; [exists x; split_and!; [apply elem_of_app; by left|done|done]|].
      intros y Hy Hpy. apply elem_of_app in Hy as [Hy|Hy]; [by apply Hle|]. by apply list_elem_of_singleton in Hy as ->.
    - intros y Hy. apply elem_of_app in Hy as [Hy|Hy]; [by apply IH|]. by apply list_elem_of_singleton in Hy as ->. }
  destruct (outputs !! e.1) as [q|] eqn:Eq; [|by apply Hsame]. case_decide as Hq.
  - destruct (decide (q = p)) as [->|Hne]; [|apply Hsame; [congruence|by rewrite lookup_insert_ne]].
    rewrite lookup_insert_eq. destruct (m !! p) as [h|].
    + destruct IH as ((x & Hx & Hpx & Hw) & Hle). split.
      * destruct (Z.min_spec h (watermark_millis e.2)) as [[_ ->]|[_ ->]];
          [exists x; split_and!; [apply elem_of_app; by left|done|done]|exists e; split_and!; [apply elem_of_app; right; by left|done|done]].
      * intros y Hy Hpy. apply elem_of_app in Hy as [Hy|Hy]; [specialize (Hle y Hy Hpy); lia|].
        apply list_elem_of_singleton in Hy as ->. lia.
    + split; [exists e; split_and!; [apply elem_of_app; right; by left|done|done]|].
      intros y Hy Hpy. apply elem_of_app in Hy as [Hy|Hy]; [by destruct (IH y Hy)|]. by apply list_elem_of_singleton in Hy as ->.
  - apply Hsame; [congruence|done].
Qed.

(** A residual of a known transform holds every output of the stage: at the earliest
    watermark it reports for it, or at the least timestamp. *)
Lemma residual_item_holds_spec set_order app by_transform boundary outputs :
  (∀ X, set_order X ≡ₚ elements X) → by_transform !! transform_id app = Some outputs →
  ∃ hold : string → Z,
    residual_item_holds set_order app by_transform boundary ≡ₚ hold <$> elements boundary
    ∧ ∀ p, p ∈ boundary →
        (∀ w, reports outputs app p w → (hold p ≤ w)%Z)
        ∧ (reports outputs app p (hold p) ∨ hold p = MIN_TIMESTAMP ∧ ∀ w, ¬ reports outputs app p w).
Proof.
  intros Ho Ht. unfold residual_item_holds. rewrite Ht.
  set (reported := foldl _ ∅ _). exists (λ p, default MIN_TIMESTAMP (reported !! p)). split; [by rewrite Ho|].
  intros p Hp. pose proof (report_fold_spec boundary outputs (map_to_list (output_watermarks app)) p Hp) as H.
  fold reported in H. destruct (reported !! p) as [h|]; cbn [default from_option].
  - destruct H as (([name t] & He & Hpe & Hw) & Hle). apply elem_of_map_to_list in He. split; [|left; by exists name, t].
    intros w (n & u & Hn & Hpn & <-). apply (Hle (n, u)); [by apply elem_of_map_to_list|done].
  - assert (Hno : ∀ w, ¬ reports outputs app p w).
    { intros w (n & u & Hn & Hpn & _). apply (H (n, u)); [by apply elem_of_map_to_list|done]. }
    split; [intros w Hw; by destruct (Hno w)|by right].
Qed.
