(* ===== verification/SdfProperties.v ===== *)
(** The properties of the monitoring and splitting of splittable bundles. *)
From S2P Require Import Prelude Bytes Varint Windows Coders Watermark Metrics Sdf SdfSpec.
Local Open Scope string_scope.
Local Open Scope list_scope.

(** C26: whatever the SDK answers over the ticks of a bundle, and in both build profiles,
    the whole elements it gives up are handed back exactly once.  While the dispatcher
    listens, each channel split of its answers that names a first residual element before the
    last cut is a cut, the least of them last; what stays with the bundle, the elements before
    it, followed by the work items, newest first, is the input, and every item is the run of
    whole elements from its cut to the one before; the residual roots are those of the
    answers that split, and the dispatcher is sent every whole-element item and every residual
    that has something left.  When the dispatcher is gone everything stays with the bundle. *)
Theorem sdf_elements_handed_back_once `{P : Profile} set_order coder input stage dispatcher_open progress_tick c now spans events :
  decode_windowed_value_spans coder input = Ok spans →
  let start := start_monitoring coder input progress_tick c now in
  let answers := exchanges set_order coder input stage dispatcher_open events start in
  let cuts := if dispatcher_open then accepted (length spans) (concat (splits_in <$> answers)) else [] in
  let kept := List.last cuts (length spans) in
  ∃ s r, monitor_ticks set_order coder input stage dispatcher_open events start = (s, r)
    ∧ (kept ≤ length spans)%nat ∧ descending (length spans) cuts
    ∧ ss_items s = items_of set_order input stage spans (length spans) cuts
    ∧ take (offset spans input kept) input ++ concat (rev (seed <$> ss_items s)) = input
    ∧ (dispatcher_open = true → ss_roots s = concat (roots_in <$> answers)
         ∧ ss_sent s ≡ₚ residual_items set_order stage (ss_roots s) ++ ss_items s).
Proof.
  intros Hd start answers cuts kept.
  destruct (monitor_ticks_ok set_order coder input stage dispatcher_open events [] start
    (start_monitoring_ok set_order coder input stage dispatcher_open progress_tick c now)) as (s & r & E & Hok & Hro).
  assert (Hsp : spans_of coder input start = spans) by (unfold start; by rewrite spans_of_start, Hd). rewrite Hsp in Hok.
  assert (Hcuts : cuts_after dispatcher_open spans [] (concat (splits_in <$> answers)) = cuts) by done.
  unfold answers in Hcuts. rewrite Hcuts in Hok. destruct Hok as [_ Hi Hc _ _ Hs]. exists s, r.
  pose proof (descending_last _ _ Hc) as Hl. split_and!; [done..| |intros Ho; split; [by apply Hro|by apply Hs]].
  assert (Hcont : contiguous 0 spans (length input)).
  { destruct (decode_spans_spec coder input) as [[e He]|(sp & He & H)]; rewrite Hd in He; [done|]. by injection He as ->. }
  rewrite Hi, items_of_seeds by done. fold kept.
  assert (Hend : offset spans input (length spans) = length input)
    by (unfold offset; by rewrite (proj2 (lookup_ge_None spans _)) by lia).
  rewrite Hend. rewrite (take_ge (drop _ _)) by (rewrite length_drop; lia). apply take_drop.
Qed.

(** A stage with one output, an input of three elements and an SDK that gives up the
    last, then the last two. *)
Definition demo_stage : SplittableStage := mkSplittable "sdf" {[ "out" ]} [("t", {[ "o" := "out" ]})].
Definition demo_element_coder : WindowedValueCoder := mkWindowedValueCoder VarIntCoder GlobalCoder.
Definition demo_sdf_element (z ts : Z) : bytes :=
  match encode_windowed_value (P:=release_profile) demo_element_coder
          (mkWindowedValue (PRIMITIVE (PInt64 z)) ts [GlobalWindow] no_firing) with
  | Ok bs => bs
  | _ => []
  end.
Definition demo_sdf_input : bytes := demo_sdf_element 7 1000 ++ demo_sdf_element 8 3000 ++ demo_sdf_element 9 2000.
Definition demo_spans : list SdfInputSpan :=
  match decode_windowed_value_spans (P:=release_profile) demo_element_coder demo_sdf_input with Ok l => l | _ => [] end.
Definition demo_tick (now first : Z) : TickEvent :=
  mkTick now (Ok []) (λ _, Ok (mkSplitResponse [mkDelayed (Some (mkApplication "t" [u8 1] ∅))] [mkChannelSplit first])).
Definition demo_ticks : list TickEvent := [demo_tick 0 0; demo_tick 6000000000 2; demo_tick 12000000000 1].
Definition demo_config : SdfSplitConfig := mkSplitConfig 2000000000 5000000000 0.

(** The two items of the example. *)
Example demo_items :
  ss_items (monitor_ticks (P:=release_profile) elements demo_element_coder demo_sdf_input demo_stage true demo_ticks
    (start_monitoring (P:=release_profile) demo_element_coder demo_sdf_input None demo_config 0)).1
  = [mkWorkItem (demo_sdf_element 9 2000) [2000%Z]; mkWorkItem (demo_sdf_element 8 3000) [3000%Z]].
Proof. vm_compute. reflexivity. Qed.

Lemma sdf_elements_handed_back_once_witness :
  let start := start_monitoring (P:=release_profile) demo_element_coder demo_sdf_input None demo_config 0 in
  let answers := exchanges (P:=release_profile) elements demo_element_coder demo_sdf_input demo_stage true demo_ticks start in
  accepted 3 (concat (splits_in <$> answers)) = [2; 1]
  ∧ ∃ s r, monitor_ticks (P:=release_profile) elements demo_element_coder demo_sdf_input demo_stage true demo_ticks start = (s, r)
    ∧ ss_items s = items_of elements demo_sdf_input demo_stage demo_spans 3 [2; 1]
    ∧ take (offset demo_spans demo_sdf_input 1) demo_sdf_input ++ concat (rev (seed <$> ss_items s)) = demo_sdf_input
    ∧ length (ss_roots s) = 2 ∧ ss_sent s ≡ₚ residual_items elements demo_stage (ss_roots s) ++ ss_items s.
Proof.
  intros start answers. assert (accepted 3 (concat (splits_in <$> answers)) = [2; 1]) as Hcuts by (vm_compute; reflexivity).
  assert (length (concat (roots_in <$> answers)) = 2) as Hroots by (vm_compute; reflexivity).
  assert (length demo_spans = 3) as Hlen by (vm_compute; reflexivity).
  assert (decode_windowed_value_spans (P:=release_profile) demo_element_coder demo_sdf_input = Ok demo_spans) as Hd by (vm_compute; reflexivity).
  split; [done|]. destruct (sdf_elements_handed_back_once (P:=release_profile) elements demo_element_coder demo_sdf_input demo_stage true
    None demo_config 0 demo_spans demo_ticks Hd) as (s & r & E & _ & _ & Hi & Hin & Hrest).
  fold start answers in E, Hi, Hin, Hrest. destruct (Hrest eq_refl) as [Hr Hs]. rewrite Hlen, Hcuts in Hi, Hin.
  exists s, r. split_and!; [done|done|done|by rewrite Hr|done].
Defined.

(** The holds of a work item cover what it can still produce: a whole-element item
    never holds later than the timestamp of any of its elements, and holds every output
    of the stage when they all lie after the least timestamp; a residual of a transform
    of the stage holds every output, at the earliest watermark the SDK reports for it,
    or at the least timestamp when it reports none. *)
Theorem sdf_holds_cover set_order stage spans input a b app outputs by_transform :
  (∀ X, set_order X ≡ₚ elements X) → (a < b ≤ length spans)%nat → by_transform !! transform_id app = Some outputs →
  let item := item_for set_order input stage spans a b in
  let timestamps := span_timestamp_millis <$> take (b - a) (drop a spans) in
  (∀ h t, h ∈ holds item → t ∈ timestamps → (h ≤ t)%Z)
  ∧ ((∀ t, t ∈ timestamps → (MIN_TIMESTAMP < t)%Z) → length (holds item) = size (output_pcols stage))
  ∧ ∃ hold : string → Z,
      residual_item_holds set_order app by_transform (output_pcols stage) ≡ₚ hold <$> elements (output_pcols stage)
      ∧ ∀ p, p ∈ output_pcols stage →
          (∀ w, reports outputs app p w → (hold p ≤ w)%Z)
          ∧ (reports outputs app p (hold p) ∨ hold p = MIN_TIMESTAMP ∧ ∀ w, ¬ reports outputs app p w).
Proof.
  intros Ho [Hab Hb] Ht item timestamps.
  destruct (channel_item_holds_spec set_order stage timestamps Ho) as [H1 H2]. split_and!.
  - exact H1.
  - intros Hall. apply H2; [done|]. unfold timestamps. intros Hn. apply (f_equal length) in Hn.
    rewrite length_fmap, length_take, length_drop in Hn. simpl in Hn. lia.
  - by apply residual_item_holds_spec.
Qed.

Lemma sdf_holds_cover_witness :
  let app := mkApplication "t" [u8 1] {[ "o" := mkTimestamp 5 0 ]} in
  let item := item_for elements demo_sdf_input demo_stage demo_spans 1 3 in
  let timestamps := span_timestamp_millis <$> take (3 - 1) (drop 1 demo_spans) in
  (∀ h t, h ∈ holds item → t ∈ timestamps → (h ≤ t)%Z)
  ∧ ((∀ t, t ∈ timestamps → (MIN_TIMESTAMP < t)%Z) → length (holds item) = size (output_pcols demo_stage))
  ∧ ∃ hold : string → Z,
      residual_item_holds elements app {[ "t" := {[ "o" := "out" ]} ]} (output_pcols demo_stage)
        ≡ₚ hold <$> elements (output_pcols demo_stage)
      ∧ ∀ p, p ∈ output_pcols demo_stage →
          (∀ w, reports {[ "o" := "out" ]} app p w → (hold p ≤ w)%Z)
          ∧ (reports {[ "o" := "out" ]} app p (hold p) ∨ hold p = MIN_TIMESTAMP ∧ ∀ w, ¬ reports {[ "o" := "out" ]} app p w).
Proof.
  intros app. apply (sdf_holds_cover elements demo_stage demo_spans demo_sdf_input 1 3 app {[ "o" := "out" ]}
    {[ "t" := {[ "o" := "out" ]} ]}); [done| |by vm_compute].
  split; [lia|]. vm_compute. lia.
Defined.

(** C27: the polling of a bundle is bounded: through all its ticks the interval between
    two polls stays between 100 ms and 30 s, as does the one handed to the next bundle.
    Splits are asked for until the SDK declines one or a request to it fails, and, while the
    dispatcher listens, no less: from then on no tick asks again or produces an item. *)
Theorem sdf_polling_bounded `{P : Profile} set_order coder input stage dispatcher_open progress_tick c now before after :
  let start := start_monitoring coder input progress_tick c now in
  let gave_up := existsb gives_up (exchanges set_order coder input stage dispatcher_open before start) in
  ∃ s r, monitor_ticks set_order coder input stage dispatcher_open before start = (s, r)
    ∧ (MIN_PROGRESS_TICK ≤ tick (ss_monitor s) ≤ MAX_PROGRESS_TICK)%Z
    ∧ (∀ b, MIN_PROGRESS_TICK ≤ next_shared_tick b (tick (ss_monitor s)) ≤ MAX_PROGRESS_TICK)%Z
    ∧ (gave_up = true → can_split (ss_monitor s) = false)
    ∧ (dispatcher_open = true → can_split (ss_monitor s) = negb gave_up)
    ∧ (can_split (ss_monitor s) = false →
       ∃ s' r', monitor_ticks set_order coder input stage dispatcher_open after s = (s', r')
         ∧ split_requests (ss_monitor s') = split_requests (ss_monitor s)
         ∧ ss_items s' = ss_items s ∧ ss_roots s' = ss_roots s ∧ ss_sent s' = ss_sent s).
Proof.
  intros start gave_up. pose proof (start_monitoring_ok set_order coder input stage dispatcher_open progress_tick c now) as Hstart.
  destruct (monitor_ticks_ok set_order coder input stage dispatcher_open before [] start Hstart) as (s & r & E & Hok & _).
  destruct (ticks_give_up set_order coder input stage dispatcher_open before [] start Hstart) as (s0 & r0 & E0 & Hg & Hc).
  rewrite E in E0. injection E0 as <- <-.
  exists s, r. pose proof (so_tick _ _ _ _ _ _ _ Hok) as Ht. split_and!; [done|lia|lia| |done|done|].
  - intros [|]; cbn [next_shared_tick]; [done|]. apply clamp_range.
  - intros Hn. destruct (declined_ticks set_order coder input stage dispatcher_open after s Hn) as (s' & r' & E' & _ & H1 & H2 & H3 & H4).
    exists s', r'. by split_and!.
Qed.
