(* ===== verification/ArrowSpec.v ===== *)
(** Columns hold their records (store/record.rs): what it is for an array to be the column of
    a list of records, that one is built for records that fit their storage type, that its
    rows read back as the records, and that the rewriting of [Null] keeps them. *)
From S2P Require Import Prelude Bytes Varint Windows Coders Arrow RecordTables.
Local Open Scope string_scope.
Local Open Scope list_scope.

(** * Equality of types *)

Lemma same_type_eq a b : same_type a b = true ↔ a = b.
Proof.
  split; [|intros <-].
  - revert a b. fix IH 1. intros a b.
    assert (∀ n t o m g, match (mkArrowField n t o m), g with
      mkArrowField n t o m, mkArrowField n' t' o' m' =>
        bool_decide (n = n') && same_type t t' && bool_decide (o = o') && bool_decide (m = m') end = true →
      (∀ t', same_type t t' = true → t = t') → mkArrowField n t o m = g) as Hf.
    { intros n t o m [n' t' o' m'] H Ht. repeat rewrite andb_true_iff in H.
      destruct H as (((Hn & H) & Ho) & Hm). apply bool_decide_eq_true in Hn, Ho, Hm. by rewrite (Ht _ H), Hn, Ho, Hm. }
    destruct a as [| | | | | | | | | | | | | | |u z|u|u|p s|[n t o m]|[n t o m]|[n t o m] k|fs|[n t o m] k|k], b;
      cbn [same_type]; intros H; try discriminate H; try reflexivity;
      repeat rewrite andb_true_iff in H; rewrite ?bool_decide_eq_true in H; try (destruct_and? H; by subst);
      try (f_equal; (by apply (Hf n t o m); [|apply IH]));
      try (destruct_and? H; f_equal; [by apply (Hf n t o m); [|apply IH]|done]).
    f_equal. revert fields H. induction fs as [|[n t o m] fs IHfs]; intros [|g gs] H; try done.
    apply andb_true_iff in H as [H1 H2]. f_equal; [by apply (Hf n t o m); [|apply IH]|by apply IHfs].
  - revert a. fix IH 1. intros a.
    destruct a as [| | | | | | | | | | | | | | |u z|u|u|p s|[n t o m]|[n t o m]|[n t o m] k|fs|[n t o m] k|k]; cbn [same_type];
      try reflexivity; rewrite ?bool_decide_true by done; rewrite ?IH; try reflexivity.
    induction fs as [|[n t o m] fs IHfs]; [done|]. rewrite !bool_decide_true by done. by rewrite IH, IHfs.
Qed.

#[export] Instance ArrowDataType_eq_dec : EqDecision ArrowDataType.
Proof. intros a b. destruct (same_type a b) eqn:E; [left; by apply same_type_eq|right; intros H%same_type_eq; congruence]. Defined.

(** * Columns of primitives *)

(** The storage types of primitives. *)
Definition is_storage (t : ArrowDataType) : bool :=
  match t with Utf8 | Binary | Int64 | Float64 | Boolean | Null => true | _ => false end.

Definition fits_primitive (t : ArrowDataType) (v : PrimitiveValue) : Prop :=
  match t, v with
  | Utf8, PString _ | Binary, PBytes _ | Int64, PInt64 _ | Float64, PFloat64 _ | Boolean, (PBool _ | PVoid) | Null, PVoid => True
  | _, _ => False
  end.

Definition primitive_column (t : ArrowDataType) (vs : list PrimitiveValue) : Array :=
  match t with
  | Utf8 => StringArray Utf8 ((λ v, match v with PString s => Some s | _ => None end) <$> vs)
  | Binary => BinaryArray Binary ((λ v, match v with PBytes b => Some b | _ => None end) <$> vs)
  | Int64 => IntArray Int64 ((λ v, match v with PInt64 z => Some z | _ => None end) <$> vs)
  | Float64 => Float64Array ((λ v, match v with PFloat64 z => Some z | _ => None end) <$> vs)
  | Boolean => BooleanArray ((λ v, match v with PBool b => Some b | _ => None end) <$> vs)
  | _ => NullArray (length vs)
  end.

Lemma fits_own_type v : fits_primitive (primitive_data_type v) v ∧ is_storage (primitive_data_type v) = true.
Proof. by destruct v. Qed.

Lemma traverse_map {E A B} (f : A → outcome E B) (g : A → B) l :
  Forall (λ x, f x = Ok (g x)) l → traverse f l = Ok (g <$> l).
Proof. induction 1 as [|x l Hx _ IH]; [done|]. cbn [traverse]. by rewrite Hx; cbn; rewrite IH. Qed.

Lemma primitive_column_built t vs : is_storage t = true → Forall (fits_primitive t) vs →
  primitive_values_to_array vs t = Ok (primitive_column t vs).
Proof.
  intros Ht Hf. destruct t; try done; cbn [primitive_values_to_array primitive_column];
    try (match goal with |- context [?g <$> vs] => rewrite (traverse_map _ g); [done|] end;
         eapply Forall_impl; [exact Hf|]; by intros []).
  replace (forallb _ vs) with true; [done|]. symmetry. apply List.forallb_forall. intros v Hv%list_elem_of_In.
  pose proof (proj1 (Forall_forall _ _) Hf v Hv) as H. by destruct v.
Qed.

Lemma primitive_column_type t vs : is_storage t = true → data_type_of (primitive_column t vs) = t.
Proof. by destruct t. Qed.

Lemma primitive_column_length t vs : array_length (primitive_column t vs) = length vs.
Proof. destruct t; cbn; by rewrite ?length_fmap. Qed.

Lemma primitive_column_read t vs i v : is_storage t = true → Forall (fits_primitive t) vs → vs !! i = Some v →
  primitive_value_from_array_row (primitive_column t vs) t i = Ok v.
Proof.
  intros Ht Hf Hi. pose proof (Forall_lookup_1 _ _ _ _ Hf Hi) as Hv.
  destruct t; try done; unfold primitive_value_from_array_row; cbn [primitive_column is_null value_at];
    unfold value_at; rewrite ?list_lookup_fmap, ?Hi; cbn; by destruct v.
Qed.

(** A column of values of its very type has no nulls. *)
Lemma exact_column_full t vs : Forall (λ v, primitive_data_type v = t) vs → has_nulls (primitive_column t vs) = false.
Proof.
  intros Hf. unfold has_nulls. destruct (existsb _ _) eqn:E; [|done]. exfalso.
  apply List.existsb_exists in E as (i & _ & Hi). destruct t; try done; cbn in Hi; rewrite list_lookup_fmap in Hi;
    destruct (vs !! i) as [v|] eqn:Ei; try done; pose proof (Forall_lookup_1 _ _ _ _ Hf Ei) as Hv; by destruct v.
Qed.

(** * Offsets *)

Lemma offsets_spec lens : ∀ r os, offsets_from r lens = Ok os → (0 ≤ r)%Z →
  StronglySorted Z.le (r :: os) ∧ Forall (λ o, r ≤ o ≤ r + Z.of_nat (sum_list lens))%Z (r :: os) ∧
  length os = length lens ∧
  ∀ i len, lens !! i = Some len →
    (r :: os) !! i = Some (r + Z.of_nat (sum_list (take i lens)))%Z ∧
    os !! i = Some (r + Z.of_nat (sum_list (take i lens)) + Z.of_nat len)%Z.
Proof.
  induction lens as [|len lens IH]; intros r os H Hr; cbn [offsets_from] in H.
  { simplify_eq. split_and!; [by repeat constructor|by repeat constructor; cbn; lia|done|intros ? ? Hi; by rewrite lookup_nil in Hi]. }
  destruct (_ <? _)%Z; [done|]. destruct (_ <? _)%Z; [done|]. inv_bind H. simplify_eq.
  destruct (IH _ _ E ltac:(lia)) as (Hs & Hb & Hl & Hi). split_and!.
  - constructor; [done|]. eapply Forall_impl; [exact Hb|]. cbn. lia.
  - constructor; [cbn; lia|]. eapply Forall_impl; [exact Hb|]. cbn. lia.
  - cbn. by rewrite Hl.
  - intros [|i] l Hlook; cbn in Hlook; [simplify_eq; split; cbn; f_equal; lia|].
    destruct (Hi _ _ Hlook) as (H1 & H2).
    split; (etransitivity; [exact H1 || exact H2|]); cbn [take]; unfold sum_list; cbn; fold (sum_list (take i lens)); f_equal; lia.
Qed.

Lemma offsets_built lens : ∀ r, (0 ≤ r)%Z → (r + Z.of_nat (sum_list lens) ≤ I32_MAX)%Z → ∃ os, offsets_from r lens = Ok os.
Proof.
  induction lens as [|len lens IH]; intros r Hr Hf; [by exists []|]. cbn [offsets_from]. cbn in Hf.
  rewrite (proj2 (Z.ltb_ge _ _)) by lia. rewrite (proj2 (Z.ltb_ge _ _)) by lia.
  destruct (IH (r + Z.of_nat len)%Z) as (os & ->); [lia|lia|]. by eexists.
Qed.

Lemma sum_lengths {A} (ls : list (list A)) : sum_list (length <$> ls) = length (concat ls).
Proof. induction ls as [|l ls IH]; [done|]. cbn. rewrite length_app. by rewrite <-IH. Qed.

Lemma concat_lookup {A} (ls : list (list A)) i l j : ls !! i = Some l → j < length l →
  concat ls !! (sum_list (take i (length <$> ls)) + j) = l !! j.
Proof.
  revert i. induction ls as [|k ls IH]; intros [|i] Hi Hj; cbn in Hi |- *; simplify_eq.
  - by rewrite lookup_app_l.
  - rewrite <-Nat.add_assoc, lookup_app_r by lia. rewrite <-(IH i) by done. f_equal. lia.
Qed.

(** * The column of a list of records *)

Definition kv_type (kt vt : ArrowDataType) : ArrowDataType := StructType [new_field "key" kt true; new_field "value" vt true].
Definition tuple_fields (ts : list ArrowDataType) : list ArrowField := imap (λ i t, new_field (component_name i) t true) ts.
Definition no_void (t : ArrowDataType) : Prop := is_storage t = true ∧ t ≠ Null.

(** The types that records are stored in. *)
Inductive storable : ArrowDataType → Prop :=
| storable_primitive t : is_storage t = true → storable t
| storable_list item : storable item → item ≠ Null → storable (list_of item)
| storable_kv kt vt : no_void kt → storable vt → vt ≠ Null → storable (kv_type kt vt)
| storable_tuple ts : ts ≠ [] → Forall no_void ts → storable (StructType (tuple_fields ts)).

(** What is stored in a type. *)
Fixpoint stored (t : ArrowDataType) (r : BeamRecord) : Prop :=
  match r with
  | PRIMITIVE v => fits_primitive t v
  | TUPLE vs => ∃ ts, t = StructType (tuple_fields ts) ∧ Forall2 fits_primitive ts vs
  | KV k v => ∃ kt vt, t = kv_type kt vt ∧ fits_primitive kt k ∧ stored vt v
  | ITERABLE l => ∃ item, t = list_of item ∧ all1 (stored item) l
  | GBK _ _ => False
  end.

Definition component (i : nat) (vs : list PrimitiveValue) : PrimitiveValue := default PVoid (vs !! i).

Inductive column_of : ArrowDataType → list BeamRecord → Array → Prop :=
| primitives t vs : is_storage t = true → Forall (fits_primitive t) vs → column_of t (PRIMITIVE <$> vs) (primitive_column t vs)
| lists item ls offsets child :
    item ≠ Null → build_offsets (length <$> ls) = Ok offsets → column_of item (concat ls) child →
    column_of (list_of item) (ITERABLE <$> ls) (ListArray (item_field item) offsets child None)
| pairs kt vt kvs values :
    no_void kt → vt ≠ Null → Forall (fits_primitive kt) kvs.*1 → column_of vt kvs.*2 values →
    column_of (kv_type kt vt) ((λ kv, KV kv.1 kv.2) <$> kvs)
      (StructArray [new_field "key" kt true; new_field "value" vt true] [primitive_column kt kvs.*1; values] None)
| tuples ts rows : ts ≠ [] → Forall no_void ts → Forall (Forall2 fits_primitive ts) rows →
    column_of (StructType (tuple_fields ts)) (TUPLE <$> rows)
      (StructArray (tuple_fields ts) (imap (λ i t, primitive_column t (component i <$> rows)) ts) None).

(** The items of the lists among the records, the values of the pairs. *)
Definition items_of (rs : list BeamRecord) : list BeamRecord := concat ((λ r, match r with ITERABLE l => l | _ => [] end) <$> rs).
Definition values_of (rs : list BeamRecord) : list BeamRecord := concat ((λ r, match r with KV _ v => [v] | _ => [] end) <$> rs).

(** A column of lists has 32-bit offsets: at every depth there are at most [i32::MAX] items. *)
Fixpoint sizes_fit (t : ArrowDataType) (rs : list BeamRecord) : Prop :=
  match t with
  | ListType (mkArrowField _ item _ _) => (Z.of_nat (length (items_of rs)) ≤ I32_MAX)%Z ∧ sizes_fit item (items_of rs)
  | StructType [_; mkArrowField _ vt _ _] => sizes_fit vt (values_of rs)
  | _ => True
  end.

Lemma tuple_field_lookup ts i : tuple_fields ts !! i = (λ t, new_field (component_name i) t true) <$> ts !! i.
Proof. unfold tuple_fields. by rewrite list_lookup_imap. Qed.

Lemma tuple_not_kv ts : is_nested_kv_struct (tuple_fields ts) = false.
Proof. destruct ts as [|a [|b [|c ts]]]; by vm_compute. Qed.

Lemma column_length t rs a : column_of t rs a → array_length a = length rs.
Proof.
  intros [t' vs _ _|item ls offsets child _ Ho _|kt vt kvs values _ _ _ _|ts rows Ht _ _].
  - by rewrite primitive_column_length, length_fmap.
  - unfold build_offsets in Ho. inv_bind Ho. simplify_eq. cbn [array_length length].
    destruct (offsets_spec _ _ _ E ltac:(lia)) as (_ & _ & Hl & _). rewrite Nat.sub_succ, Nat.sub_0_r, Hl, !length_fmap. done.
  - cbn [array_length]. by rewrite primitive_column_length, !length_fmap.
  - destruct ts as [|t' ts]; [done|]. cbn [array_length imap]. by rewrite primitive_column_length, !length_fmap.
Qed.

Lemma column_type_of t rs a : column_of t rs a → data_type_of a = t.
Proof. intros []; [by apply primitive_column_type|done..]. Qed.

Lemma column_storable t rs a : column_of t rs a → storable t.
Proof. induction 1; by constructor. Qed.

(** * Reading *)

Lemma traverse_rows {A} (f : nat → outcome string A) (l : list A) (s : nat) :
  (∀ i x, l !! i = Some x → f (s + i) = Ok x) → traverse f (seq s (length l)) = Ok l.
Proof.
  revert s. induction l as [|x l IH]; intros s H; [done|]. cbn [length seq traverse].
  specialize (H 0 x eq_refl) as H0. rewrite Nat.add_0_r in H0. rewrite H0. cbn.
  rewrite IH; [done|]. intros i y Hy. rewrite Nat.add_succ_comm. by apply H.
Qed.

Lemma list_rows_spec {A} (ls : list (list A)) offsets i l : build_offsets (length <$> ls) = Ok offsets → ls !! i = Some l →
  list_rows offsets i = Ok (seq (sum_list (take i (length <$> ls))) (length l)).
Proof.
  intros Ho Hi. unfold build_offsets in Ho. inv_bind Ho. simplify_eq.
  destruct (offsets_spec _ _ _ E ltac:(lia)) as (_ & _ & _ & Hl).
  destruct (Hl i (length l)) as (H1 & H2); [by rewrite list_lookup_fmap, Hi|].
  unfold list_rows. rewrite H1. change ((0%Z :: a) !! S i) with (a !! i). rewrite H2.
  rewrite !(proj2 (Z.ltb_ge _ _)) by lia. cbn. f_equal. f_equal; lia.
Qed.

Lemma imap_pair_seq {A} (l : list A) : imap pair l = zip (seq 0 (length l)) l.
Proof.
  apply list_eq. intros i. rewrite list_lookup_imap, lookup_zip_with. destruct (l !! i) as [x|] eqn:E.
  - rewrite lookup_seq_lt by (by apply lookup_lt_Some in E). done.
  - by destruct (seq _ _ !! i).
Qed.

Lemma traverse_imap {A B} (f : nat * A → outcome string B) (l : list A) (ys : list B) :
  length ys = length l → (∀ i x y, l !! i = Some x → ys !! i = Some y → f (i, x) = Ok y) → traverse f (imap pair l) = Ok ys.
Proof.
  intros Hl H. rewrite imap_pair_seq. assert (∀ s, (∀ i x y, l !! i = Some x → ys !! i = Some y → f (s + i, x) = Ok y) →
    traverse f (zip (seq s (length l)) l) = Ok ys) as Hs; [|by apply Hs]. clear H.
  revert ys Hl. induction l as [|x l IH]; intros [|y ys] Hl s H; try done. cbn [length seq zip zip_with traverse].
  pose proof (H 0 x y eq_refl eq_refl) as H0. rewrite Nat.add_0_r in H0. rewrite H0. cbn.
  rewrite (IH ys); [done|by injection Hl|]. intros i x' y' Hx Hy. rewrite Nat.add_succ_comm. by apply H.
Qed.

Lemma components_fit ts rows i t : Forall (Forall2 fits_primitive ts) rows → ts !! i = Some t →
  Forall (fits_primitive t) (component i <$> rows).
Proof.
  intros Hf Ht. apply Forall_fmap. eapply Forall_impl; [exact Hf|]. intros vs H. cbn.
  destruct (Forall2_lookup_l _ _ _ _ _ H Ht) as (v & Hv & Hfit). unfold component. by rewrite Hv.
Qed.

Lemma read_primitive t i a : is_storage t = true →
  nested_value_from_array_row a t i = (value ← primitive_value_from_array_row a t i; Ok (PRIMITIVE value)).
Proof. by destruct t. Qed.

(** Every row of a column reads back as its record. *)
Lemma column_read t rs a : column_of t rs a → ∀ i r, rs !! i = Some r → nested_value_from_array_row a t i = Ok r.
Proof.
  induction 1 as [t vs Ht Hf|item ls offsets child _ Ho Hc IH|kt vt kvs values [Hk _] _ Hf Hc IH|ts rows _ Hn Hf];
    intros i r Hi; rewrite list_lookup_fmap in Hi.
  - destruct (vs !! i) as [v|] eqn:Ev; [|done]. injection Hi as <-. rewrite read_primitive by done.
    by rewrite (primitive_column_read t vs i v).
  - destruct (ls !! i) as [l|] eqn:El; [|done]. injection Hi as <-. cbn [nested_value_from_array_row list_of item_field new_field].
    cbn [is_null invalid_at]. rewrite (list_rows_spec ls offsets i l) by done. cbn [mbind outcome_bind].
    rewrite (traverse_rows _ l); [done|]. intros j x Hj. apply IH.
    rewrite (concat_lookup ls i l) by (try done; by apply lookup_lt_Some in Hj). done.
  - destruct (kvs !! i) as [[k v]|] eqn:Ev; [|done]. injection Hi as <-. cbn. unfold new_field; cbn.
    rewrite (primitive_column_read kt _ i k) by (try done; by rewrite list_lookup_fmap, Ev). cbn.
    rewrite (IH i v); [done|]. by rewrite list_lookup_fmap, Ev.
  - destruct (rows !! i) as [vs|] eqn:Ev; [|done]. injection Hi as <-. cbn [nested_value_from_array_row].
    rewrite tuple_not_kv. pose proof (Forall_lookup_1 _ _ _ _ Hf Ev) as Hv.
    rewrite (traverse_imap _ _ vs); [done| |].
    { unfold tuple_fields. rewrite length_imap. symmetry. by eapply Forall2_length. }
    intros j field v Hj Hvj. rewrite tuple_field_lookup in Hj. destruct (ts !! j) as [t|] eqn:Et; [|done].
    injection Hj as <-. rewrite list_lookup_imap, Et. cbn [fmap option_fmap option_map type_of new_field].
    apply primitive_column_read; [by eapply (Forall_lookup_1 _ _ _ _ Hn Et)|by eapply components_fit|].
    rewrite list_lookup_fmap, Ev. unfold component. cbn. by rewrite Hvj.
Qed.

Lemma column_read_primitive t vs a i v : is_storage t = true → column_of t (PRIMITIVE <$> vs) a → vs !! i = Some v →
  primitive_value_from_array_row a t i = Ok v.
Proof.
  intros Ht Hc Hi. pose proof (column_read _ _ _ Hc i (PRIMITIVE v)) as H. rewrite read_primitive in H by done.
  destruct (primitive_value_from_array_row a t i); [|exfalso..]; (by rewrite list_lookup_fmap, Hi in H; specialize (H eq_refl); cbn in H; simplify_eq).
Qed.

(** * Nulls *)

Lemma nested_column_full t rs a : column_of t rs a → is_storage t = false → has_nulls a = false.
Proof.
  intros Hc Ht. unfold has_nulls. destruct (existsb _ _) eqn:E; [|done]. exfalso. apply List.existsb_exists in E as (i & _ & Hi).
  destruct Hc; try congruence; by cbn in Hi.
Qed.

(** * Building *)

Section building.
Context `{ArrowLaws}.

Lemma stored_primitives t rs : is_storage t = true → Forall (stored t) rs →
  ∃ vs, rs = PRIMITIVE <$> vs ∧ Forall (fits_primitive t) vs.
Proof.
  intros Ht. induction 1 as [|r rs Hr _ (vs & -> & Hf)]; [by exists []|].
  destruct r as [v|l|k v|k l|vs']; try (by destruct Hr as (? & ? & ?)); try done.
  - by exists (v :: vs); split; [|constructor].
  - destruct Hr as (? & -> & _). done.
  - destruct Hr as (? & ? & -> & _). done.
  - destruct Hr as (? & -> & _). done.
Qed.

Lemma stored_lists item rs : Forall (stored (list_of item)) rs →
  ∃ ls, rs = ITERABLE <$> ls ∧ Forall (stored item) (concat ls).
Proof.
  induction 1 as [|r rs Hr _ (ls & -> & Hf)]; [by exists []|].
  destruct r as [v|l|k v|k l|vs']; [by destruct Hr| |by destruct Hr as (? & ? & ? & _)|by destruct Hr|by destruct Hr as (? & ? & _)].
  destruct Hr as (item' & Heq & Hl). injection Heq as <- _. exists (l :: ls). split; [done|]. cbn.
  apply Forall_app. split; [by apply all1_Forall|done].
Qed.

Lemma stored_pairs kt vt rs : Forall (stored (kv_type kt vt)) rs →
  ∃ kvs, rs = (λ kv, KV kv.1 kv.2) <$> kvs ∧ Forall (fits_primitive kt) kvs.*1 ∧ Forall (stored vt) kvs.*2.
Proof.
  induction 1 as [|r rs Hr _ (kvs & -> & Hk & Hv)]; [by exists []|].
  destruct r as [v|l|k v|k l|vs']; [by destruct Hr|by destruct Hr as (? & ? & _)| |by destruct Hr|].
  - destruct Hr as (kt' & vt' & Heq & Hf & Hs). injection Heq as <- <-. exists ((k, v) :: kvs). by repeat constructor.
  - destruct Hr as (ts & Heq & _). injection Heq as Heq. by destruct ts as [|a [|b [|c ts]]].
Qed.

Lemma tuple_fields_inj ts ts' : tuple_fields ts = tuple_fields ts' → ts = ts'.
Proof.
  intros Heq. apply list_eq. intros i. apply (f_equal (λ l, l !! i)) in Heq. rewrite !tuple_field_lookup in Heq.
  destruct (ts !! i), (ts' !! i); try done. cbn in Heq. by injection Heq as ->.
Qed.

Lemma stored_tuples ts rs : Forall (stored (StructType (tuple_fields ts))) rs →
  ∃ rows, rs = TUPLE <$> rows ∧ Forall (Forall2 fits_primitive ts) rows.
Proof.
  induction 1 as [|r rs Hr _ (rows & -> & Hf)]; [by exists []|].
  destruct r as [v|l|k v|k l|vs]; [by destruct Hr|by destruct Hr as (? & ? & _)| |by destruct Hr|].
  - destruct Hr as (kt & vt & Heq & _). injection Heq as Heq. by destruct ts as [|a [|b [|c ts]]].
  - destruct Hr as (ts' & Heq & Hv). injection Heq as <-%tuple_fields_inj. exists (vs :: rows). by repeat constructor.
Qed.

Lemma items_of_lists ls : items_of (ITERABLE <$> ls) = concat ls.
Proof. unfold items_of. rewrite <-list_fmap_compose. f_equal. induction ls as [|l ls IH]; [done|]. cbn. by f_equal. Qed.

Lemma values_of_pairs (kvs : list (PrimitiveValue * BeamRecord)) : values_of ((λ kv, KV kv.1 kv.2) <$> kvs) = kvs.*2.
Proof. unfold values_of. induction kvs as [|[k v] kvs IH]; [done|]. cbn in *. by f_equal. Qed.

Lemma traverse_fmap {A B C} (f : B → outcome string C) (g : A → B) (l : list A) : traverse f (g <$> l) = traverse (λ x, f (g x)) l.
Proof. induction l as [|x l IH]; [done|]. cbn. by rewrite <-IH. Qed.

Lemma traverse_ok {A B} (f : A → outcome string B) (g : A → B) l : (∀ x, f x = Ok (g x)) → traverse f l = Ok (g <$> l).
Proof. intros Hf. apply traverse_map. by apply Forall_true. Qed.

Lemma list_built to_array ls item child : item ≠ Null → data_type_of child = item → array_length child = length (concat ls) →
  (is_nullable (item_field item) = false → has_nulls child = false) → to_array (concat ls) = Ok child →
  (Z.of_nat (length (concat ls)) ≤ I32_MAX)%Z →
  ∃ offsets, build_offsets (length <$> ls) = Ok offsets ∧
    list_column to_array ls item = Ok (ListArray (item_field item) offsets child None).
Proof.
  intros Hn Ht Hl Hnull Ha Hsize. unfold list_column, build_offsets.
  destruct (offsets_built (length <$> ls) 0) as (os & Hos); [done|by rewrite sum_lengths|].
  destruct (offsets_spec _ _ _ Hos ltac:(lia)) as (Hs & Hb & _ & _). rewrite Hos. cbn. rewrite Ha. cbn.
  eexists. split; [done|]. apply list_array_fits; [done|done|done|]. split_and!; [done|done|].
  rewrite Hl, <-sum_lengths. eapply Forall_impl; [exact Hb|]. cbn. lia.
Qed.

(** Fields that may be null take any columns of their types and one length. *)
Lemma nullable_struct n fields columns : fields ≠ [] → Forall (λ f, is_nullable f = true) fields →
  Forall2 (λ f a, data_type_of a = type_of f ∧ array_length a = n) fields columns →
  struct_array_try_new fields columns None = Ok (StructArray fields columns None).
Proof.
  intros Hne Hn Hc. apply (struct_array_fits n); [done|done|]. unfold columns_fit. clear Hne.
  induction Hc as [|f a fields columns [Ht Hl] _ IH]; [constructor|]. apply Forall_cons in Hn as [Hf Hn].
  constructor; [by rewrite Hf|by apply IH].
Qed.

Lemma column_full t rs a : column_of t rs a → t ≠ Boolean → has_nulls a = false.
Proof.
  intros Hc Hb. destruct (is_storage t) eqn:Ht; [|by eapply nested_column_full].
  destruct Hc as [t vs _ Hf| | |]; [|done..]. apply exact_column_full. eapply Forall_impl; [exact Hf|].
  intros v Hv. by destruct t, v.
Qed.

Lemma tuple_columns_built ts rows : Forall no_void ts → Forall (Forall2 fits_primitive ts) rows →
  traverse (λ '(index, field),
      values ← traverse (component_of index) (TUPLE <$> rows); primitive_values_to_array values (type_of field))
    (imap pair (tuple_fields ts)) = Ok (imap (λ i t, primitive_column t (component i <$> rows)) ts).
Proof.
  intros Hn Hf. apply traverse_imap; [by unfold tuple_fields; rewrite !length_imap|].
  intros i field column Hi Hc. rewrite tuple_field_lookup in Hi. rewrite list_lookup_imap in Hc.
  destruct (ts !! i) as [t|] eqn:Et; [|done]. injection Hi as <-. injection Hc as <-.
  rewrite traverse_fmap, (traverse_map _ (component i)).
  - cbn. apply primitive_column_built; [by eapply (Forall_lookup_1 _ _ _ _ Hn Et)|by eapply components_fit].
  - eapply Forall_impl; [exact Hf|]. intros vs Hv. cbn. unfold component.
    destruct (Forall2_lookup_l _ _ _ _ _ Hv Et) as (v & -> & _). done.
Qed.

Lemma tuple_struct_accepted ts (rows : list (list PrimitiveValue)) : ts ≠ [] → Forall no_void ts →
  struct_array_try_new (tuple_fields ts) (imap (λ i t, primitive_column t (component i <$> rows)) ts) None
  = Ok (StructArray (tuple_fields ts) (imap (λ i t, primitive_column t (component i <$> rows)) ts) None).
Proof.
  intros Hne Hn. apply (nullable_struct (length rows)); [by destruct ts| |].
  - apply Forall_lookup. intros i f Hf. rewrite tuple_field_lookup in Hf. by destruct (ts !! i); simplify_eq/=.
  - apply Forall2_same_length_lookup. split; [by unfold tuple_fields; rewrite !length_imap|].
    intros i f a Hf Ha. rewrite tuple_field_lookup in Hf. rewrite list_lookup_imap in Ha.
    destruct (ts !! i) as [t|] eqn:Et; [|done]. injection Hf as <-. injection Ha as <-.
    rewrite primitive_column_length, length_fmap. split; [|done].
    apply primitive_column_type. by eapply (Forall_lookup_1 _ _ _ _ Hn Et).
Qed.

Lemma kv_struct_accepted kt vt (kvs : list (PrimitiveValue * BeamRecord)) values :
  no_void kt → column_of vt kvs.*2 values →
  struct_array_try_new [new_field "key" kt true; new_field "value" vt true] [primitive_column kt kvs.*1; values] None
  = Ok (StructArray [new_field "key" kt true; new_field "value" vt true] [primitive_column kt kvs.*1; values] None).
Proof.
  intros [Hk _] Hc. apply (nullable_struct (length kvs)); [done|by repeat constructor|].
  pose proof (column_length _ _ _ Hc) as Hl. rewrite length_fmap in Hl.
  repeat constructor; cbn [type_of new_field]; [by apply primitive_column_type| |by eapply column_type_of|done].
  by rewrite primitive_column_length, length_fmap.
Qed.

(** A column is built for records that are stored in a storable type. *)
Lemma column_built t : storable t → ∀ rs, Forall (stored t) rs → sizes_fit t rs →
  ∃ a, nested_values_to_array rs t = Ok a ∧ column_of t rs a.
Proof.
  induction 1 as [t Ht|item Hs IH Hn|kt vt Hk Hs IH Hn|ts Hne Hn]; intros rs Hrs Hsize.
  - destruct (stored_primitives t rs Ht Hrs) as (vs & -> & Hf). exists (primitive_column t vs).
    split; [|by constructor]. replace (nested_values_to_array _ t) with
      (values ← traverse primitive_of (PRIMITIVE <$> vs); primitive_values_to_array values t) by (by destruct t).
    rewrite traverse_fmap, (traverse_ok _ id) by done. rewrite list_fmap_id. cbn. by apply primitive_column_built.
  - destruct (stored_lists item rs Hrs) as (ls & -> & Hf). cbn in Hsize. rewrite items_of_lists in Hsize.
    destruct Hsize as [Hsize Hsub]. destruct (IH (concat ls) Hf Hsub) as (child & Hb & Hc).
    destruct (list_built (λ rs, nested_values_to_array rs item) ls item child) as (offsets & Ho & Hl); try done.
    { by eapply column_type_of. }
    { by eapply column_length. }
    { intros Hb'. eapply column_full; [done|]. by intros ->. }
    exists (ListArray (item_field item) offsets child None). split; [|by constructor].
    cbn [nested_values_to_array list_of item_field new_field]. rewrite traverse_fmap, (traverse_ok _ id) by done.
    rewrite list_fmap_id. exact Hl.
  - destruct (stored_pairs kt vt rs Hrs) as (kvs & -> & Hf & Hv). cbn in Hsize. rewrite values_of_pairs in Hsize.
    destruct (IH _ Hv Hsize) as (values & Hb & Hc). eexists. split; [|by eapply (pairs kt vt kvs values)].
    cbn [nested_values_to_array kv_type new_field]. cbn -[struct_array_try_new traverse].
    rewrite traverse_fmap, (traverse_ok _ id) by (by intros []). rewrite list_fmap_id. cbn -[struct_array_try_new].
    rewrite primitive_column_built by (by destruct Hk). cbn -[struct_array_try_new]. rewrite Hb.
    cbn -[struct_array_try_new]. by apply kv_struct_accepted.
  - destruct (stored_tuples ts rs Hrs) as (rows & -> & Hf). eexists. split; [|by eapply (tuples ts rows)].
    cbn [nested_values_to_array]. rewrite tuple_not_kv, tuple_columns_built by done. cbn [mbind outcome_bind].
    by apply tuple_struct_accepted.
Qed.

(** * Void columns *)

Lemma materialize_storable t : storable t → materialize_void_type t = null_to_boolean t.
Proof.
  induction 1 as [t Ht|item _ IH Hn|kt vt [Hk Hkn] _ IH Hn|ts _ Hn]; [by destruct t| | |].
  - cbn. f_equal. unfold item_field, new_field. rewrite IH. destruct item; try done; by destruct (item_nullable _).
  - cbn. unfold new_field. rewrite IH. destruct kt; try done; by destruct vt.
  - cbn. f_equal. apply list_eq. intros i. rewrite list_lookup_fmap, tuple_field_lookup.
    destruct (ts !! i) as [t|] eqn:Et; [|done]. destruct (Forall_lookup_1 _ _ _ _ Hn Et) as [Ht Hnn]. cbn.
    unfold new_field. by destruct t.
Qed.

Lemma null_to_boolean_id t : t ≠ Null → null_to_boolean t = t.
Proof. by destruct t. Qed.

Lemma storable_field_kept name t nullable : storable t → t ≠ Null →
  materialize_void_field (new_field name t nullable) = new_field name t nullable.
Proof.
  intros Hs Hn. unfold materialize_void_field, rewrite_field, new_field.
  rewrite materialize_storable, null_to_boolean_id by done. f_equal. by destruct t, nullable.
Qed.

Lemma primitive_column_kept t vs : is_storage t = true → t ≠ Null →
  materialize_void_array (primitive_column t vs) t = Ok (primitive_column t vs).
Proof. by destruct t. Qed.

Lemma children_kept materialize columns fields : ∀ i,
  (∀ j field, fields !! j = Some field → ∃ column, columns !! (i + j) = Some column ∧ materialize column (type_of field) = Ok column) →
  length columns = i + length fields → rewrite_children materialize columns fields i = Ok (drop i columns).
Proof.
  induction fields as [|[name t o m] fields IH]; intros i Hf Hl; cbn [rewrite_children].
  { rewrite drop_ge; [done|]. cbn in Hl. lia. }
  destruct (Hf 0 _ eq_refl) as (column & Hc & Hm). rewrite Nat.add_0_r in Hc. rewrite Hc. cbn in Hm. rewrite Hm. cbn.
  rewrite (IH (S i)); [cbn [mbind outcome_bind]; f_equal; symmetry; by apply drop_S| |cbn in Hl; lia].
  intros j field Hj. rewrite Nat.add_succ_comm. by apply Hf.
Qed.

(** Rewriting the [Null] arrays of a column gives the column of the rewritten type. *)
Lemma column_materialized t rs a : column_of t rs a →
  ∃ a', materialize_void_array a t = Ok a' ∧ column_of (null_to_boolean t) rs a' ∧ (t ≠ Null → a' = a).
Proof.
  intros Hcol. destruct (decide (t = Null)) as [->|Hnull].
  { inversion Hcol as [t vs Ht Hf| | |]; subst. exists (primitive_column Boolean vs). split_and!; [| |done].
    - cbn. f_equal. f_equal. clear Hcol. induction Hf as [|v vs Hv _ IH]; [done|]. cbn. rewrite IH. by destruct v.
    - apply primitives; [done|]. eapply Forall_impl; [exact Hf|]. by intros []. }
  rewrite null_to_boolean_id by done. exists a. split_and!; [|done|done]. revert Hnull.
  induction Hcol as [t vs Ht Hf|item ls offsets child Hn Ho Hc IH|kt vt kvs values [Hk Hkn] Hn Hf Hc IH|ts rows Hne Hn Hf]; intros Hnull.
  - by apply primitive_column_kept.
  - cbn [materialize_void_array list_of item_field new_field]. rewrite IH by done. cbn [mbind outcome_bind].
    pose proof (storable_field_kept "item" item (item_nullable item) (column_storable _ _ _ Hc) Hn) as Hkeep.
    change (new_field _ _ _) with (item_field item) in Hkeep. rewrite Hkeep. unfold build_offsets in Ho. inv_bind Ho. simplify_eq.
    destruct (offsets_spec _ _ _ E ltac:(lia)) as (Hs & Hb & _ & _).
    apply list_array_fits; [by eapply column_type_of|done| |split_and!; [done|done|]].
    { intros Hb'. eapply column_full; [done|]. by intros ->. }
    rewrite (column_length _ _ _ Hc), <-sum_lengths. eapply Forall_impl; [exact Hb|]. cbn. lia.
  - cbn [materialize_void_array kv_type]. rewrite (children_kept _ _ _ 0); [|
      intros [|[|j]] field Hj; [injection Hj as <-..|done]|done].
    + cbn [mbind outcome_bind drop fmap list_fmap].
      rewrite !storable_field_kept; [by apply kv_struct_accepted|by eapply column_storable|done|by constructor|done].
    + eexists. split; [done|]. by apply primitive_column_kept.
    + eexists. split; [done|]. by apply IH.
  - cbn [materialize_void_array]. rewrite (children_kept _ _ _ 0); [|
      intros j field Hj; rewrite tuple_field_lookup in Hj; destruct (ts !! j) as [t|] eqn:Et; [|done]; injection Hj as <-
      |by unfold tuple_fields; rewrite !length_imap].
    + cbn [mbind outcome_bind drop]. replace (materialize_void_field <$> tuple_fields ts) with (tuple_fields ts);
        [by apply tuple_struct_accepted|].
      apply list_eq. intros i. rewrite list_lookup_fmap, tuple_field_lookup. destruct (ts !! i) as [t|] eqn:Et; [|done].
      destruct (Forall_lookup_1 _ _ _ _ Hn Et) as [Ht Hnn]. cbn [fmap option_fmap option_map]. by rewrite storable_field_kept; [|constructor|].
    + destruct (Forall_lookup_1 _ _ _ _ Hn Et) as [Ht Hnn]. eexists. split; [by rewrite list_lookup_imap; cbn; rewrite Et|].
      by apply primitive_column_kept.
Qed.
End building.
