(* ===== verification/RecordTableSpec.v ===== *)
(** Batches of records hold and give back the records: the columns of a list of records,
    the table schemas that records derive, batches after their [Null] columns were
    rewritten; and the conversion of Arrow and Beam row schemas to the types of a table. *)
From S2P Require Import Prelude Bytes Varint Windows Coders Arrow RecordTables ArrowSpec.
From S2P Require Rows.
Local Open Scope string_scope.
Local Open Scope list_scope.

(** * Records with one storage type *)

(** The items of every list have the storage type of its first; no tuple is empty. *)
Fixpoint uniform (r : BeamRecord) : Prop :=
  match r with
  | PRIMITIVE _ => True
  | TUPLE vs => vs ≠ []
  | KV _ v => uniform v
  | ITERABLE l | GBK _ l =>
      all1 uniform l ∧
      match l with
      | [] => True
      | first :: l => all1 (λ r, iterable_element_data_type r = iterable_element_data_type first) l
      end
  end.

Lemma null_to_boolean_not_null t : null_to_boolean t ≠ Null.
Proof. by destruct t. Qed.

Lemma storable_boolean t : storable t → storable (null_to_boolean t).
Proof. destruct (decide (t = Null)) as [->|Hn]; [by constructor|by rewrite null_to_boolean_id]. Qed.

Lemma stored_boolean t r : stored t r → stored (null_to_boolean t) r.
Proof.
  destruct (decide (t = Null)) as [->|Hn]; [|by rewrite null_to_boolean_id]. destruct r as [[]| | | |]; try done; cbn.
  - by intros (? & ? & _).
  - by intros (? & ? & ? & _).
  - by intros (? & ? & _).
Qed.

Lemma component_type_fits v : no_void (tuple_component_data_type v) ∧ fits_primitive (tuple_component_data_type v) v.
Proof. by destruct v. Qed.

Lemma tuple_type_fields vs : tuple_storage_type vs = StructType (tuple_fields (tuple_component_data_type <$> vs)).
Proof. unfold tuple_storage_type, tuple_fields. by rewrite imap_fmap. Qed.

Lemma tuple_stored vs : vs ≠ [] → storable (tuple_storage_type vs) ∧ stored (tuple_storage_type vs) (TUPLE vs).
Proof.
  intros Hne. rewrite tuple_type_fields. split.
  - constructor; [by destruct vs|]. apply Forall_fmap, Forall_true. intros v. apply component_type_fits.
  - eexists. split; [done|]. apply Forall2_fmap_l, Forall_Forall2_diag, Forall_true. intros v. apply component_type_fits.
Qed.

Lemma element_type_stored r item : (∀ t, nested_value_storage_type r = Ok t → storable t ∧ stored t r) →
  iterable_element_data_type r = Ok item → storable item ∧ item ≠ Null ∧ stored item r.
Proof.
  intros H Hi. unfold iterable_element_data_type in Hi. inv_bind Hi. simplify_eq. destruct (H _ eq_refl) as [Hs Hr].
  split_and!; [by apply storable_boolean|apply null_to_boolean_not_null|by apply stored_boolean].
Qed.

(** A record of one storage type is stored in it. *)
Lemma uniform_stored : ∀ r t, uniform r → nested_value_storage_type r = Ok t → storable t ∧ stored t r.
Proof.
  fix IH 1. intros [v|l|k v|k l|vs] t Hu Ht; cbn in Hu, Ht.
  - simplify_eq. destruct (fits_own_type v). by split; [constructor|].
  - destruct Hu as [Hl Hsame]. destruct l as [|first l].
    { cbn in Ht. simplify_eq. split; [apply (storable_list Binary); [by constructor|done]|by exists Binary]. }
    assert (Forall (λ r, ∀ item, iterable_element_data_type r = Ok item → storable item ∧ item ≠ Null ∧ stored item r) (first :: l)) as Hall.
    { clear Ht Hsame. revert Hl. generalize (first :: l). clear first l. fix IHl 1. intros [|r l] Hl; [constructor|].
      destruct Hl as [Hr Hl]. constructor; [|by apply IHl]. intros item. apply element_type_stored. intros t'. by apply IH. }
    inv_bind Ht. inv_bind E. simplify_eq. set (item := null_to_boolean a0) in *.
    assert (iterable_element_data_type first = Ok item) as Hf by (unfold iterable_element_data_type; by rewrite E0).
    apply Forall_cons in Hall as [Hfirst Hall]. destruct (Hfirst _ Hf) as (Hst & Hn & Hsf).
    split; [by constructor|]. exists item. split; [done|]. split; [done|]. apply all1_Forall.
    apply all1_Forall in Hsame. rewrite Forall_forall in Hall, Hsame |- *. intros r Hr.
    apply (Hall r Hr item). by rewrite (Hsame r Hr).
  - inv_bind Ht. simplify_eq. destruct (IH v _ Hu E) as [Hs Hv]. split.
    + apply (storable_kv _ (null_to_boolean a)); [apply component_type_fits|by apply storable_boolean|apply null_to_boolean_not_null].
    + eexists _, _. split; [done|]. split; [apply component_type_fits|by apply stored_boolean].
  - done.
  - simplify_eq. by apply tuple_stored.
Qed.

(** * The derived schema *)

Lemma traverse_all {A B} (f : A → outcome string B) (Q : A → Prop) l ys :
  (∀ x y, f x = Ok y → Q x) → traverse f l = Ok ys → Forall Q l.
Proof.
  intros Hf. revert ys. induction l as [|x l IH]; intros ys H; [constructor|]. cbn in H. inv_bind H. inv_bind H.
  constructor; [by eapply Hf|by eapply IH].
Qed.

Lemma validated ls item u : validate_iterable_item_types ls item = Ok u →
  Forall (Forall (λ r, iterable_element_data_type r = Ok item)) ls.
Proof.
  apply traverse_all. intros l y. apply traverse_all. intros r z H. inv_bind H.
  destruct (same_type a item) eqn:Hs; [|done]. apply same_type_eq in Hs. by subst.
Qed.

(** The inferred type of the items of some lists stores them, if they all have it. *)
Lemma inferred_stored ls item : Forall (all1 uniform) ls → infer_iterable_item_data_type ls = Ok item →
  Forall (Forall (λ r, iterable_element_data_type r = Ok item)) ls →
  storable item ∧ item ≠ Null ∧ Forall (stored (list_of item)) (ITERABLE <$> ls).
Proof.
  intros Hu Hi Hv.
  assert (Forall (Forall (λ r, storable item ∧ item ≠ Null ∧ stored item r)) ls) as Hall.
  { rewrite !Forall_forall in Hu, Hv |- *. intros l Hl. specialize (Hu l Hl). specialize (Hv l Hl). apply all1_Forall in Hu.
    rewrite Forall_forall in Hu, Hv |- *. intros r Hr. apply (element_type_stored r); [|by apply Hv].
    intros t. apply uniform_stored. by apply Hu. }
  assert (storable item ∧ item ≠ Null) as [Hs Hn].
  { clear Hu Hv. induction Hall as [|[|r l] ls Hl _ IH]; cbn in Hi; [by simplify_eq; split; [constructor|]|by apply IH|].
    apply Forall_cons in Hl as [(? & ? & _) _]. done. }
  split_and!; [done|done|]. apply Forall_fmap. eapply Forall_impl; [exact Hall|]. intros l Hl. cbn.
  exists item. split; [done|]. apply all1_Forall. eapply Forall_impl; [exact Hl|]. by intros r (_ & _ & ?).
Qed.

(** The columns of a table, each the records of one of its cells. *)
Definition key_cell (r : BeamRecord) : BeamRecord := match r with KV k _ | GBK k _ => PRIMITIVE k | _ => r end.
Definition value_cell (r : BeamRecord) : BeamRecord := match r with KV _ v => v | GBK _ l => ITERABLE l | _ => r end.
Definition cells (t : TableType) (records : list BeamRecord) : list (list BeamRecord) :=
  match t with TKv | TGbk => [key_cell <$> records; value_cell <$> records] | _ => [records] end.
Definition column_names (t : TableType) : list string :=
  match t with TKv | TGbk => [KEY_COLUMN; VALUE_COLUMN] | _ => [VALUE_COLUMN] end.

(** A field stores the records of its column; if it cannot be null, neither can they. *)
Definition exact (t : ArrowDataType) (rs : list BeamRecord) : Prop :=
  is_storage t = true ∧ Forall (λ r, ∃ v, r = PRIMITIVE v ∧ primitive_data_type v = t) rs.
Definition stores (f : ArrowField) (rs : list BeamRecord) : Prop :=
  storable (type_of f) ∧ Forall (stored (type_of f)) rs ∧
  (is_nullable f = false → exact (type_of f) rs ∨ is_storage (type_of f) = false).

Lemma exact_stores name v nullable rs :
  Forall (λ r, ∃ v', r = PRIMITIVE v' ∧ primitive_data_type v' = primitive_data_type v) rs →
  stores (new_field name (primitive_data_type v) nullable) rs.
Proof.
  intros Hf. destruct (fits_own_type v) as [_ Hs]. split_and!; [by constructor| |by left].
  eapply Forall_impl; [exact Hf|]. intros r (v' & -> & <-). apply fits_own_type.
Qed.

Lemma type_matches v t : primitive_type_matches v t = true → primitive_data_type v = t.
Proof. apply same_type_eq. Qed.

Lemma derived_primitive first records schema : derive_arrow_schema (PRIMITIVE first) records = Ok schema →
  name_of <$> schema = column_names TPrimitive ∧ Forall (λ r, table_type_of r = TPrimitive) records ∧
  Forall2 stores schema (cells TPrimitive records).
Proof.
  intros H. cbn [derive_arrow_schema] in H. inv_bind H. simplify_eq. split; [done|].
  apply (traverse_all _ (λ r, ∃ v, r = PRIMITIVE v ∧ primitive_data_type v = primitive_data_type first)) in E.
  - split; [eapply Forall_impl; [exact E|]; by intros r (v & -> & _)|]. constructor; [by apply exact_stores|constructor].
  - intros [v| | | |] y Hy; try done. exists v. split; [done|]. destruct (primitive_type_matches _ _) eqn:Hm; [|done].
    by apply type_matches.
Qed.

Lemma derived_iterable first records schema : Forall uniform records → derive_arrow_schema (ITERABLE first) records = Ok schema →
  name_of <$> schema = column_names TIterable ∧ Forall (λ r, table_type_of r = TIterable) records ∧
  Forall2 stores schema (cells TIterable records).
Proof.
  intros Hu H. cbn [derive_arrow_schema] in H. inv_bind H. inv_bind H. inv_bind H. simplify_eq. split; [done|].
  assert (records = ITERABLE <$> a) as ->.
  { clear -E. revert a E. induction records as [|r records IH]; intros a E; cbn in E; [by simplify_eq|].
    inv_bind E. inv_bind E. simplify_eq. destruct r; simplify_eq. cbn. f_equal. by apply IH. }
  split; [by apply Forall_fmap, Forall_true|].
  destruct (inferred_stored a a0) as (Hs & Hn & Hst); [|done|by eapply validated|].
  { apply (Forall_fmap ITERABLE) in Hu. eapply Forall_impl; [exact Hu|]. by intros l [? _]. }
  constructor; [|constructor]. split_and!; [by constructor|done|done].
Qed.

Lemma derived_tuple first records schema : Forall uniform records → derive_arrow_schema (TUPLE first) records = Ok schema →
  first ≠ [] → name_of <$> schema = column_names TTuple ∧ Forall (λ r, table_type_of r = TTuple) records ∧
  Forall2 stores schema (cells TTuple records).
Proof.
  intros Hu H Hne. cbn [derive_arrow_schema] in H. inv_bind H. simplify_eq. split; [done|].
  apply (traverse_all _ (λ r, ∃ vs, r = TUPLE vs ∧ tuple_storage_type vs = tuple_storage_type first)) in E.
  - split; [eapply Forall_impl; [exact E|]; by intros r (v & -> & _)|].
    constructor; [|constructor]. split_and!; [by apply tuple_stored| |done]. cbn [type_of new_field].
    rewrite Forall_forall in Hu, E |- *. intros r Hr. destruct (E r Hr) as (vs & -> & <-).
    apply tuple_stored. by apply (Hu (TUPLE vs)).
  - intros [| | | |vs] y Hy; try done. exists vs. split; [done|]. destruct (same_type _ _) eqn:Hm; [|done].
    by apply same_type_eq.
Qed.

Lemma derived_kv key value records schema : Forall uniform records → uniform value →
  derive_arrow_schema (KV key value) records = Ok schema →
  name_of <$> schema = column_names TKv ∧ Forall (λ r, table_type_of r = TKv) records ∧ Forall2 stores schema (cells TKv records).
Proof.
  intros Hu Hv H. cbn [derive_arrow_schema] in H. inv_bind H. inv_bind H. simplify_eq. split; [done|]. rename a into vt.
  destruct (uniform_stored _ _ Hv E) as [Hs _].
  apply (traverse_all _ (λ r, ∃ k v, r = KV k v ∧ primitive_data_type k = primitive_data_type key ∧
    nested_value_storage_type v = Ok vt)) in E0.
  2:{ intros [| |k v| |] y Hy; try done. exists k, v. split; [done|].
      destruct (primitive_type_matches _ _) eqn:Hm; [|done]. inv_bind Hy. destruct (same_type _ _) eqn:Hm'; [|done].
      apply same_type_eq in Hm'. subst. split; [by apply type_matches|done]. }
  rewrite Forall_forall in Hu, E0. split; [apply Forall_forall; intros r Hr; by destruct (E0 r Hr) as (k & v & -> & _)|].
  constructor; [|constructor; [|constructor]].
  - apply exact_stores, Forall_fmap, Forall_forall. intros r Hr. destruct (E0 r Hr) as (k & v & -> & Hk & _). by exists k.
  - split_and!; cbn [type_of new_field is_nullable].
    + done.
    + apply Forall_fmap, Forall_forall. intros r Hr. destruct (E0 r Hr) as (k & v & -> & _ & Ht).
      apply (uniform_stored v vt); [by apply (Hu (KV k v))|done].
    + intros Hnull. destruct (is_storage vt) eqn:Hst; [left|by right]. split; [done|].
      apply Forall_fmap, Forall_forall. intros r Hr. destruct (E0 r Hr) as (k & v & -> & _ & Ht). cbn.
      destruct v as [v|l|k' v'|k' l|vs]; cbn in Ht; try done; [by simplify_eq; exists v|..].
      * inv_bind Ht. by simplify_eq.
      * inv_bind Ht. by simplify_eq.
      * by simplify_eq.
Qed.

Lemma derived_gbk key value records schema : Forall uniform records → derive_arrow_schema (GBK key value) records = Ok schema →
  name_of <$> schema = column_names TGbk ∧ Forall (λ r, table_type_of r = TGbk) records ∧ Forall2 stores schema (cells TGbk records).
Proof.
  intros Hu H. cbn [derive_arrow_schema] in H. inv_bind H. inv_bind H. inv_bind H. simplify_eq. split; [done|]. rename a into ls, a0 into item.
  assert (Forall2 (λ r l, ∃ k, r = GBK k l ∧ primitive_data_type k = primitive_data_type key) records ls) as Hrs.
  { clear -E. revert ls E. induction records as [|r records IH]; intros ls E; cbn in E; [simplify_eq; constructor|].
    inv_bind E. inv_bind E. simplify_eq. constructor; [|by apply IH]. destruct r as [| | |k l|]; simplify_eq.
    destruct (primitive_type_matches _ _) eqn:Hm; simplify_eq. exists k. split; [done|]. by apply type_matches. }
  assert (value_cell <$> records = ITERABLE <$> ls) as Hvc.
  { clear -Hrs. induction Hrs as [|r l records ls (k & -> & _) _ IH]; [done|]. cbn. by f_equal. }
  split; [eapply Forall2_Forall_l; [exact Hrs|]; apply Forall_true; by intros ? ? (? & -> & _)|].
  constructor; [|constructor; [|constructor]].
  - apply exact_stores, Forall_fmap. eapply Forall2_Forall_l; [exact Hrs|]. apply Forall_true.
    intros l r (k & -> & Hk). by exists k.
  - rewrite Hvc. destruct (inferred_stored ls item) as (Hs & Hn & Hst); [|done|by eapply validated|].
    { clear -Hrs Hu. induction Hrs as [|r l records ls (k & -> & _) _ IH]; [constructor|].
      apply Forall_cons in Hu as [[Hu _] Hus]. constructor; [done|by apply IH]. }
    split_and!; [by constructor|done|done].
Qed.

Theorem derived_schema_stores records table_schema : Forall uniform records → derive_table_schema records = Ok table_schema →
  let t := table_type table_schema in
  records ≠ [] ∧ t ≠ TRow ∧ name_of <$> arrow_schema table_schema = column_names t ∧
  Forall (λ r, table_type_of r = t) records ∧ Forall2 stores (arrow_schema table_schema) (cells t records).
Proof.
  intros Hu H. unfold derive_table_schema in H. destruct records as [|first records]; [done|].
  inv_bind H. simplify_eq. cbn [table_type arrow_schema]. split; [done|]. split; [by destruct first|].
  pose proof (proj1 (Forall_cons _ _ _) Hu) as [Hf _]. destruct first.
  - by eapply derived_primitive.
  - by eapply derived_iterable.
  - eapply derived_kv; [exact Hu| |exact E]. exact Hf.
  - by eapply derived_gbk.
  - eapply derived_tuple; [exact Hu|exact E|exact Hf].
Qed.

(** * Reading a batch *)

Lemma column_of_primitive t rs a i v : column_of t rs a → rs !! i = Some (PRIMITIVE v) → is_storage t = true.
Proof. intros Hc Hi. destruct Hc; [done|..]; rewrite list_lookup_fmap in Hi; by destruct (_ !! i). Qed.

Lemma column_of_list t rs a i l : column_of t rs a → rs !! i = Some (ITERABLE l) → ∃ item, t = list_of item.
Proof. intros Hc Hi. destruct Hc; [|by eexists|..]; rewrite list_lookup_fmap in Hi; by destruct (_ !! i). Qed.

Lemma cell_read t rs a i r : column_of t rs a → rs !! i = Some r → nested_value_from_array_row a (data_type_of a) i = Ok r.
Proof. intros Hc Hi. rewrite (column_type_of _ _ _ Hc). by eapply column_read. Qed.

Lemma cell_primitive t rs a i v : column_of t rs a → rs !! i = Some (PRIMITIVE v) →
  primitive_value_from_array_row a (data_type_of a) i = Ok v.
Proof.
  intros Hc Hi. pose proof (cell_read _ _ _ _ _ Hc Hi) as H. rewrite (column_type_of _ _ _ Hc) in *.
  rewrite read_primitive in H by (by eapply column_of_primitive). inv_bind H. by simplify_eq.
Qed.

Lemma cell_list t rs a i l : column_of t rs a → rs !! i = Some (ITERABLE l) →
  iterable_value_from_array_row a (data_type_of a) i = Ok l.
Proof.
  intros Hc Hi. pose proof (cell_read _ _ _ _ _ Hc Hi) as H. rewrite (column_type_of _ _ _ Hc) in *.
  destruct (column_of_list _ _ _ _ _ Hc Hi) as (item & ->). unfold iterable_value_from_array_row. cbn [list_of].
  change (ListType (item_field item)) with (list_of item). by rewrite H.
Qed.

(** Every column of a batch holds the records of its cells. *)
Definition holds (fields : list ArrowField) (rss : list (list BeamRecord)) (columns : list Array) : Prop :=
  Forall3 (λ f rs a, column_of (type_of f) rs a) fields rss columns.

Lemma Forall3_single {A B C} (Q : A → B → C → Prop) l y m : Forall3 Q l [y] m → ∃ x z, l = [x] ∧ m = [z] ∧ Q x y z.
Proof. intros H. inversion H as [|x ? z ? ? ? H1 H2]; subst. inversion H2; subst. by eexists _, _. Qed.

Lemma Forall3_double {A B C} (Q : A → B → C → Prop) l y y' m : Forall3 Q l [y; y'] m →
  ∃ x x' z z', l = [x; x'] ∧ m = [z; z'] ∧ Q x y z ∧ Q x' y' z'.
Proof. intros H. inversion H as [|x ? z ? ? ? H1 H2]; subst. apply Forall3_single in H2 as (x' & z' & -> & -> & H2). by eexists _, _, _, _. Qed.

Lemma traverse_all_rows {A} (f : nat → outcome string A) l : (∀ i x, l !! i = Some x → f i = Ok x) → traverse f (seq 0 (length l)) = Ok l.
Proof. apply (traverse_rows f l 0). Qed.

Lemma single_column f a fs cs n : name_of f = VALUE_COLUMN → named_column VALUE_COLUMN (mkBatch (f :: fs) (a :: cs) n) = Ok a.
Proof. destruct f. by intros [= ->]. Qed.

Lemma double_column f g a b fs cs n : name_of f = KEY_COLUMN → name_of g = VALUE_COLUMN →
  named_column KEY_COLUMN (mkBatch (f :: g :: fs) (a :: b :: cs) n) = Ok a ∧
  named_column VALUE_COLUMN (mkBatch (f :: g :: fs) (a :: b :: cs) n) = Ok b.
Proof. destruct f, g. by intros [= ->] [= ->]. Qed.

(** The records of a batch, whatever columns follow theirs. *)
Lemma batch_read table_schema fields columns fs cs records : table_type table_schema ≠ TRow →
  name_of <$> fields = column_names (table_type table_schema) →
  Forall (λ r, table_type_of r = table_type table_schema) records →
  holds fields (cells (table_type table_schema) records) columns →
  record_batch_to_beamrecords (mkBatch (fields ++ fs) (columns ++ cs) (length records)) table_schema = Ok records.
Proof.
  unfold holds, record_batch_to_beamrecords. intros Hrow Hn Ht Hc. rewrite Forall_lookup in Ht.
  destruct (table_type table_schema); cbn [cells column_names num_rows] in *; [..|done].
  1,2,5: apply Forall3_single in Hc as (f & a & -> & -> & Hc); injection Hn as Hn; cbn [app];
    rewrite (single_column f a fs cs) by done; cbn [mbind outcome_bind];
    apply (traverse_all_rows _ records); intros i r Hi; pose proof (Ht i r Hi) as Htr.
  - destruct r; try done. by rewrite (cell_primitive _ _ _ i v Hc).
  - destruct r; try done. by rewrite (cell_list _ _ _ i list Hc).
  - by apply (cell_read _ _ _ i r Hc).
  - apply Forall3_double in Hc as (f & g & a & b & -> & -> & Hk & Hv). injection Hn as Hf Hg.
    destruct (double_column f g a b fs cs (length records) Hf Hg) as [E1 E2]; cbn [app]; rewrite E1, E2. cbn [mbind outcome_bind].
    apply (traverse_all_rows _ records). intros i r Hi. pose proof (Ht i r Hi) as Htr. destruct r as [| |k v| |]; try done.
    rewrite (cell_primitive _ _ _ i k Hk) by (by rewrite list_lookup_fmap, Hi). cbn [mbind outcome_bind].
    by rewrite (cell_read _ _ _ i v Hv) by (by rewrite list_lookup_fmap, Hi).
  - apply Forall3_double in Hc as (f & g & a & b & -> & -> & Hk & Hv). injection Hn as Hf Hg.
    destruct (double_column f g a b fs cs (length records) Hf Hg) as [E1 E2]; cbn [app]; rewrite E1, E2. cbn [mbind outcome_bind].
    apply (traverse_all_rows _ records). intros i r Hi. pose proof (Ht i r Hi) as Htr. destruct r as [| | |k l|]; try done.
    rewrite (cell_primitive _ _ _ i k Hk) by (by rewrite list_lookup_fmap, Hi). cbn [mbind outcome_bind].
    by rewrite (cell_list _ _ _ i l Hv) by (by rewrite list_lookup_fmap, Hi).
Qed.

(** * Building a batch *)

Section building.
Context `{ArrowLaws}.

Lemma nested_primitives t vs : is_storage t = true → nested_values_to_array (PRIMITIVE <$> vs) t = primitive_values_to_array vs t.
Proof.
  intros Ht. replace (nested_values_to_array _ t) with
    (values ← traverse primitive_of (PRIMITIVE <$> vs); primitive_values_to_array values t) by (by destruct t).
  by rewrite traverse_fmap, (traverse_ok _ id), list_fmap_id.
Qed.

Lemma nested_lists item ls : nested_values_to_array (ITERABLE <$> ls) (list_of item) = iterable_values_to_array ls item.
Proof. cbn [nested_values_to_array list_of item_field new_field]. by rewrite traverse_fmap, (traverse_ok _ id), list_fmap_id. Qed.

Lemma all_primitives records : Forall (λ r, table_type_of r = TPrimitive) records → ∃ vs, records = PRIMITIVE <$> vs.
Proof. induction 1 as [|[] records Hr _ (vs & ->)]; [by exists []|..]; try done. by exists (v :: vs). Qed.
Lemma all_iterables records : Forall (λ r, table_type_of r = TIterable) records → ∃ ls, records = ITERABLE <$> ls.
Proof. induction 1 as [|[] records Hr _ (ls & ->)]; [by exists []|..]; try done. by exists (list :: ls). Qed.
Lemma all_kvs records : Forall (λ r, table_type_of r = TKv) records → ∃ kvs, records = (λ kv, KV kv.1 kv.2) <$> kvs.
Proof. induction 1 as [|[] records Hr _ (kvs & ->)]; [by exists []|..]; try done. by exists ((key, value) :: kvs). Qed.
Lemma all_gbks records : Forall (λ r, table_type_of r = TGbk) records → ∃ kvs, records = (λ kv, GBK kv.1 kv.2) <$> kvs.
Proof. induction 1 as [|[] records Hr _ (kvs & ->)]; [by exists []|..]; try done. by exists ((key, value) :: kvs). Qed.

Lemma stores_primitives f vs : vs ≠ [] → Forall (stored (type_of f)) (PRIMITIVE <$> vs) → storable (type_of f) → is_storage (type_of f) = true.
Proof.
  intros Hne Hs Hst. destruct vs as [|v vs]; [done|]. apply Forall_cons in Hs as [Hv _]. destruct Hst; try done; by destruct v.
Qed.

Lemma stores_lists f ls : ls ≠ [] → Forall (stored (type_of f)) (ITERABLE <$> ls) → ∃ item, type_of f = list_of item.
Proof. intros Hne Hs. destruct ls as [|l ls]; [done|]. apply Forall_cons in Hs as [(item & -> & _) _]. by exists item. Qed.

Lemma stores_full f rs a : stores f rs → column_of (type_of f) rs a → is_nullable f = false → has_nulls a = false.
Proof.
  intros (_ & _ & Hnull) Hc Hf. destruct (Hnull Hf) as [[Hs He]|Hs]; [|by eapply nested_column_full].
  destruct Hc as [t vs _ _| | |]; [|done..]. apply exact_column_full. apply (Forall_fmap PRIMITIVE) in He.
  eapply Forall_impl; [exact He|]. intros v (v' & Hv & <-). cbn in Hv. by injection Hv as ->.
Qed.

(** A field, the records of its column, and the column. *)
Definition built (f : ArrowField) (rs : list BeamRecord) (a : Array) : Prop :=
  column_of (type_of f) rs a ∧ (is_nullable f = false → has_nulls a = false).

Lemma cell_built f rs : stores f rs → sizes_fit (type_of f) rs →
  ∃ a, nested_values_to_array rs (type_of f) = Ok a ∧ built f rs a.
Proof.
  intros Hs Hsize. destruct Hs as (Hst & Hrs & Hn) eqn:E. destruct (column_built _ Hst _ Hrs Hsize) as (a & Ha & Hc).
  exists a. split; [done|]. split; [done|]. by eapply stores_full.
Qed.

Definition sizes (fields : Schema) (rss : list (list BeamRecord)) : Prop := Forall2 (λ f rs, sizes_fit (type_of f) rs) fields rss.

Lemma kv_keys (kvs : list (PrimitiveValue * BeamRecord)) : key_cell <$> ((λ kv, KV kv.1 kv.2) <$> kvs) = PRIMITIVE <$> kvs.*1.
Proof. by rewrite <-!list_fmap_compose. Qed.
Lemma kv_values (kvs : list (PrimitiveValue * BeamRecord)) : value_cell <$> ((λ kv, KV kv.1 kv.2) <$> kvs) = kvs.*2.
Proof. by rewrite <-!list_fmap_compose. Qed.
Lemma gbk_keys (kvs : list (PrimitiveValue * list BeamRecord)) : key_cell <$> ((λ kv, GBK kv.1 kv.2) <$> kvs) = PRIMITIVE <$> kvs.*1.
Proof. by rewrite <-!list_fmap_compose. Qed.
Lemma gbk_values (kvs : list (PrimitiveValue * list BeamRecord)) :
  value_cell <$> ((λ kv, GBK kv.1 kv.2) <$> kvs) = ITERABLE <$> kvs.*2.
Proof. by rewrite <-!list_fmap_compose. Qed.

Lemma value_type f : name_of f = VALUE_COLUMN → column_type VALUE_COLUMN [f] = Ok (type_of f).
Proof. destruct f. by intros [= ->]. Qed.
Lemma key_value_types f g : name_of f = KEY_COLUMN → name_of g = VALUE_COLUMN →
  column_type KEY_COLUMN [f; g] = Ok (type_of f) ∧ column_type VALUE_COLUMN [f; g] = Ok (type_of g).
Proof. destruct f, g. by intros [= ->] [= ->]. Qed.

Lemma Forall2_single {A B} (Q : A → B → Prop) l y : Forall2 Q l [y] → ∃ x, l = [x] ∧ Q x y.
Proof. intros (x & l' & Hx & ->%Forall2_nil_inv_r & ->)%Forall2_cons_inv_r. by exists x. Qed.
Lemma Forall2_double {A B} (Q : A → B → Prop) l y z : Forall2 Q l [y; z] → ∃ x x', l = [x; x'] ∧ Q x y ∧ Q x' z.
Proof. intros (x & l' & Hx & (x' & -> & Hx')%Forall2_single & ->)%Forall2_cons_inv_r. by exists x, x'. Qed.

(** The columns of a batch are built from its cells. *)
Lemma batch_columns_built table_schema records : let t := table_type table_schema in
  records ≠ [] → t ≠ TRow → name_of <$> arrow_schema table_schema = column_names t →
  Forall (λ r, table_type_of r = t) records → Forall2 stores (arrow_schema table_schema) (cells t records) →
  sizes (arrow_schema table_schema) (cells t records) →
  ∃ columns, batch_columns table_schema records = Ok columns ∧
    Forall3 built (arrow_schema table_schema) (cells t records) columns.
Proof.
  destruct table_schema as [tt fields meta]. unfold batch_columns, sizes. cbn [table_type arrow_schema].
  intros Hne Hrow Hn Ht Hs Hz. destruct tt; cbn [cells column_names] in *; [..|done].
  1,2,5: destruct (Forall2_single _ _ _ Hs) as (f & -> & Hf); destruct (Forall2_single _ _ _ Hz) as (? & [= <-] & Hzf);
    injection Hn as Hn; rewrite (value_type f) by done; destruct (cell_built f records Hf Hzf) as (a & Ha & Hb);
    exists [a]; (split; [|constructor; [exact Hb|constructor]]); cbn [mbind outcome_bind].
  - destruct (all_primitives records Ht) as (vs & ->). rewrite traverse_fmap, (traverse_ok _ id), list_fmap_id by done.
    cbn [mbind outcome_bind]. rewrite <-nested_primitives, Ha; [done|]. destruct Hf as (? & ? & _).
    apply (stores_primitives f vs); [by intros ->|done|done].
  - destruct (all_iterables records Ht) as (ls & ->). destruct Hf as (_ & Hst & _).
    destruct (stores_lists f ls) as (item & Hi); [by intros ->|done|]. rewrite Hi in *. cbn [list_of].
    rewrite traverse_fmap, (traverse_ok _ id), list_fmap_id by done. cbn [mbind outcome_bind item_field type_of new_field].
    by rewrite <-nested_lists, Ha.
  - by rewrite Ha.
  - destruct (Forall2_double _ _ _ _ Hs) as (f & g & -> & Hf & Hg). destruct (Forall2_double _ _ _ _ Hz) as (? & ? & [= <- <-] & Hzf & Hzg).
    injection Hn as Hnf Hng. destruct (key_value_types f g Hnf Hng) as [-> ->]. cbn [mbind outcome_bind].
    destruct (cell_built f _ Hf Hzf) as (a & Ha & Hb). destruct (cell_built g _ Hg Hzg) as (b & Ha' & Hb').
    exists [a; b]. split; [|constructor; [exact Hb|constructor; [exact Hb'|constructor]]]. destruct (all_kvs records Ht) as (kvs & ->).
    rewrite kv_keys in *. rewrite kv_values in *. rewrite traverse_fmap, (traverse_ok _ id), list_fmap_id by (by intros []).
    cbn [mbind outcome_bind]. rewrite <-nested_primitives, Ha, Ha'; [done|]. destruct Hf as (? & ? & _).
    apply (stores_primitives f kvs.*1); [by destruct kvs|done|done].
  - destruct (Forall2_double _ _ _ _ Hs) as (f & g & -> & Hf & Hg). destruct (Forall2_double _ _ _ _ Hz) as (? & ? & [= <- <-] & Hzf & Hzg).
    injection Hn as Hnf Hng. destruct (key_value_types f g Hnf Hng) as [-> ->]. cbn [mbind outcome_bind].
    destruct (cell_built f _ Hf Hzf) as (a & Ha & Hb). destruct (cell_built g _ Hg Hzg) as (b & Ha' & Hb').
    exists [a; b]. split; [|constructor; [exact Hb|constructor; [exact Hb'|constructor]]]. destruct (all_gbks records Ht) as (kvs & ->).
    rewrite gbk_keys in *. rewrite gbk_values in *. destruct Hg as (_ & Hst & _).
    destruct (stores_lists g kvs.*2) as (item & Hi); [by destruct kvs|done|]. rewrite Hi in *. cbn [list_of].
    rewrite traverse_fmap, (traverse_ok _ id), list_fmap_id by (by intros []).
    cbn [mbind outcome_bind item_field type_of new_field]. rewrite <-nested_primitives, Ha, <-nested_lists, Ha'; [done|].
    destruct Hf as (? & ? & _). apply (stores_primitives f kvs.*1); [by destruct kvs|done|done].
Qed.

Lemma cells_length t records : Forall (λ rs, length rs = length records) (cells t records).
Proof. destruct t; repeat constructor; by rewrite length_fmap. Qed.

Lemma built_fits fields rss columns n : Forall3 built fields rss columns → Forall (λ rs, length rs = n) rss →
  columns_fit n fields columns.
Proof.
  induction 1 as [|f rs a fields rss columns [Hc Hnull] _ IH]; intros Hl; [constructor|].
  apply Forall_cons in Hl as [Hl Hls]. constructor; [|by apply IH].
  rewrite (column_length _ _ _ Hc), (column_type_of _ _ _ Hc). done.
Qed.

(** A batch is built for the records of a table that stores them. *)
Lemma batch_built table_schema records : let t := table_type table_schema in
  records ≠ [] → t ≠ TRow → name_of <$> arrow_schema table_schema = column_names t →
  Forall (λ r, table_type_of r = t) records → Forall2 stores (arrow_schema table_schema) (cells t records) →
  sizes (arrow_schema table_schema) (cells t records) →
  ∃ columns, beamrecords_to_record_batch records table_schema
    = Ok (mkBatch (arrow_schema table_schema) columns (length records)) ∧
    Forall3 built (arrow_schema table_schema) (cells t records) columns.
Proof.
  cbn. intros Hne Hrow Hn Ht Hs Hz. destruct (batch_columns_built table_schema records) as (columns & Hc & Hb); [done..|].
  exists columns. split; [|done]. destruct records as [|r records]; [done|]. cbn [beamrecords_to_record_batch].
  rewrite Hc. cbn [mbind outcome_bind]. rewrite (record_batch_fits (length (r :: records))); [done| |].
  - destruct (arrow_schema table_schema); [|done]. by destruct (table_type table_schema).
  - eapply built_fits; [exact Hb|]. apply cells_length.
Qed.

(** An array and what it is rewritten to for its field, in a batch of [n] rows. *)
Definition rewritten (n : nat) (f : ArrowField) (a a' : Array) : Prop :=
  materialize_void_array a (type_of f) = Ok a' ∧
  data_type_of a' = type_of (materialize_void_field f) ∧ array_length a' = n ∧
  (is_nullable (materialize_void_field f) = false → has_nulls a' = false).

(** A batch of such arrays is rewritten, unless its schema is left as it is. *)
Lemma batch_rewritten n fields columns columns' : fields ≠ [] → Forall3 (rewritten n) fields columns columns' →
  ∃ final, materialize_void_columns (mkBatch fields columns n) = Ok (mkBatch (materialize_void_schema fields) final n) ∧
    (final = columns' ∨ final = columns ∧ materialize_void_schema fields = fields).
Proof.
  intros Hne Hr. unfold materialize_void_columns. cbn [rb_schema rb_columns].
  destruct (same_schema _ _) eqn:Hs.
  { apply same_type_eq in Hs. injection Hs as Hs. exists columns. rewrite Hs. split; [done|by right]. }
  exists columns'. split; [|by left]. rewrite (traverse_imap _ _ columns').
  - cbn [mbind outcome_bind]. rewrite (record_batch_fits n); [done|by destruct fields|]. clear -Hr.
    induction Hr as [|f a a' fields columns columns' (_ & Ht & Hl & Hn) _ IH]; constructor; done.
  - clear -Hr. induction Hr; [done|]. cbn. by f_equal.
  - clear -Hr. induction Hr as [|f a a' fields columns columns' (Hm & _) _ IH]; intros [|i] g b Hg Hb; try done.
    + by injection Hg as <-; injection Hb as <-.
    + by apply (IH i).
Qed.

Lemma columns_materialized n fields rss columns : Forall3 built fields rss columns → Forall (λ rs, length rs = n) rss →
  ∃ columns', Forall3 (rewritten n) fields columns columns' ∧ holds (materialize_void_schema fields) rss columns'.
Proof.
  induction 1 as [|[name t o m] rs a fields rss columns [Hc Hnull] _ IH]; intros Hl.
  { exists []. split; constructor. }
  apply Forall_cons in Hl as [Hl Hls]. destruct (IH Hls) as (columns' & Hr & Hh). cbn in Hc, Hnull.
  destruct (column_materialized _ _ _ Hc) as (a' & Ha & Hc' & Hsame). exists (a' :: columns').
  pose proof (materialize_storable t (column_storable _ _ _ Hc)) as Ht. split.
  - constructor; [|done]. split; [done|]. cbn. rewrite (column_length _ _ _ Hc'), (column_type_of _ _ _ Hc').
    split_and!; [done|done|]. intros [Ho Hn]%orb_false_iff. rewrite Hsame; [by apply Hnull|by intros ->].
  - constructor; [|done]. cbn. by rewrite Ht.
Qed.

Lemma built_holds fields rss columns : Forall3 built fields rss columns → holds fields rss columns.
Proof. induction 1 as [|f rs a fields rss columns [Hc _] _ IH]; by constructor. Qed.

(** Rewriting the [Null] columns of a batch gives a batch of the same records. *)
Lemma batch_materialized fields rss columns n : fields ≠ [] → Forall3 built fields rss columns →
  Forall (λ rs, length rs = n) rss →
  ∃ columns', materialize_void_columns (mkBatch fields columns n) = Ok (mkBatch (materialize_void_schema fields) columns' n) ∧
    holds (materialize_void_schema fields) rss columns'.
Proof.
  intros Hne Hb Hl. destruct (columns_materialized n fields rss columns Hb Hl) as (columns' & Hr & Hh).
  destruct (batch_rewritten n fields columns columns' Hne Hr) as (final & Hm & Hf). exists final. split; [done|].
  destruct Hf as [->|[-> ->]]; [done|by apply built_holds].
Qed.

Lemma materialized_names fields : name_of <$> materialize_void_schema fields = name_of <$> fields.
Proof. unfold materialize_void_schema. rewrite <-list_fmap_compose. apply list_fmap_ext. by intros i []. Qed.
End building.

Local Open Scope string_scope.
Local Open Scope list_scope.

(** * Rewriting [Null] before the conversion *)

Lemma rewrite_name f : name_of (materialize_void_field f) = name_of f.
Proof. by destruct f. Qed.
Lemma rewrite_id f : arrow_field_id (materialize_void_field f) = arrow_field_id f.
Proof. by destruct f. Qed.
Lemma rewrite_binary f : is_binary_type (type_of (materialize_void_field f)) && negb (is_nullable (materialize_void_field f))
  = is_binary_type (type_of f) && negb (is_nullable f).
Proof. destruct f as [n [] [] m]; done. Qed.

Lemma variant_rewritten fields : is_variant_arrow_fields (materialize_void_field <$> fields) && has_variant_arrow_field_ids (materialize_void_field <$> fields)
  = is_variant_arrow_fields fields && has_variant_arrow_field_ids fields.
Proof.
  destruct fields as [|f [|g [|h fields]]]; try done. cbn [fmap list_fmap is_variant_arrow_fields has_variant_arrow_field_ids].
  rewrite !rewrite_name, !rewrite_id. destruct f as [n [] [] m], g as [n' [] [] m']; cbn; by rewrite ?andb_false_r.
Qed.

Section rewriting.
Context {PaimonSchema : Type} `{Paimon PaimonSchema}.

Lemma paimon_fields_cons convert field fields i : paimon_fields convert (field :: fields) i =
  (paimon_type ← convert (type_of field) (is_nullable field);
   rest ← paimon_fields convert fields (i + 1)%Z;
   Ok (mkDataField (to_signed 32 i) (name_of field) paimon_type :: rest)).
Proof. by destruct field. Qed.

(** A type converts to the same column type once its [Null]s are rewritten. *)
Definition kept (t : ArrowDataType) : Prop :=
  ∀ n, arrow_to_paimon_type (materialize_void_type t) (n || is_null_type t) = arrow_to_paimon_type t n.

Lemma fields_kept fields : Forall (λ f, kept (type_of f)) fields → ∀ i,
  paimon_fields arrow_to_paimon_type (materialize_void_field <$> fields) i = paimon_fields arrow_to_paimon_type fields i.
Proof.
  induction 1 as [|[name t o m] fields Hf _ IH]; intros i; [done|]. cbn in Hf. rewrite fmap_cons, !paimon_fields_cons.
  cbn [materialize_void_field rewrite_field type_of is_nullable name_of]. rewrite Hf. destruct (arrow_to_paimon_type t o); [|done..].
  cbn [mbind outcome_bind]. by rewrite IH.
Qed.

Lemma map_kept entries sorted : kept (type_of entries) →
  match type_of entries with StructType fields => Forall (λ f, kept (type_of f)) fields | _ => True end → kept (MapType entries sorted).
Proof.
  destruct entries as [name t o m]. cbn. intros Ht Hf n. rewrite orb_false_r. cbn [materialize_void_type rewrite_field arrow_to_paimon_type].
  destruct t as [| | | | | | | | | | | | | | |u z|u|u|p s|f|f|f k|fs|f k|k]; try done.
  destruct fs as [|[kn kt ko km] [|[vn vt vo vm] [|h fs]]]; try done.
  apply Forall_cons in Hf as [Hk Hf]. apply Forall_cons in Hf as [Hv _]. cbn in Hk, Hv |- *.
  rewrite Hk. destruct (arrow_to_paimon_type kt ko); [|done..]. cbn. by rewrite Hv.
Qed.

Lemma type_kept : ∀ t, kept t.
Proof.
  fix IH 1. intros t. destruct t as [| | | | | | | | | | | | | | |u z|u|u|p s|[fn ft fo fm]|[fn ft fo fm]|[fn ft fo fm] k|fs|f k|k];
    try (intros n; cbn; by rewrite ?orb_false_r).
  { by intros []. }
  1,2,3: intros n; pose proof (IH ft fo) as Hf; cbn [materialize_void_type rewrite_field is_null_type arrow_to_paimon_type];
    rewrite orb_false_r, Hf; done.
  - assert (Forall (λ f, kept (type_of f)) fs) as Hf.
    { induction fs as [|[fn ft fo fm] fs IHfs]; constructor; [apply IH|done]. }
    intros n. cbn [materialize_void_type is_null_type arrow_to_paimon_type]. rewrite orb_false_r.
    change (rewrite_field materialize_void_type <$> fs) with (materialize_void_field <$> fs).
    rewrite (variant_rewritten fs). by rewrite fields_kept.
  - apply map_kept; destruct f as [fn ft fo fm]; [apply IH|]. cbn. destruct ft; try done.
    induction fields as [|[n t o m] fields IHf]; constructor; [apply IH|done].
Qed.

Lemma schema_kept schema : arrow_fields_to_paimon (materialize_void_schema schema) = arrow_fields_to_paimon schema.
Proof. apply fields_kept, Forall_true. intros f. apply type_kept. Qed.
End rewriting.

(** * Row schemas *)

Section conversion.
Context {PaimonSchema : Type} `{PaimonLaws PaimonSchema}.

(** The column type of a row field, by its kind. *)
Fixpoint table_column_type (ft : Rows.BeamFieldType) : PaimonDataType :=
  match ft with Rows.mkFieldType nullable kind => table_kind_type kind nullable end
with table_kind_type (kind : Rows.BeamTypeKind) (nullable : bool) : PaimonDataType :=
  match kind with
  | Rows.KByte => PaimonTinyInt nullable
  | Rows.KInt16 => PaimonSmallInt nullable
  | Rows.KInt32 => PaimonInt nullable
  | Rows.KInt64 => PaimonBigInt nullable
  | Rows.KFloat => PaimonFloat nullable
  | Rows.KDouble => PaimonDouble nullable
  | Rows.KString => PaimonVarChar nullable varchar_max
  | Rows.KBoolean => PaimonBoolean nullable
  | Rows.KBytes => PaimonVarBinary nullable varbinary_max
  | Rows.KArray elem | Rows.KIterable elem => PaimonArray nullable (table_column_type elem)
  | Rows.KMap key value => PaimonMap nullable (table_column_type key) (table_column_type value)
  | Rows.KRow (Rows.mkSchema _ fields _) =>
      PaimonRow nullable (imap (λ i '(name, t), mkDataField (to_signed 32 (Z.of_nat i)) name t)
        ((fix go fields :=
          match fields with
          | [] => []
          | Rows.mkField name ft _ :: fields => (name, table_column_type ft) :: go fields
          end) fields))
  | Rows.KLogical urn repr =>
      if decide (urn = LOGICAL_TYPE_MICROS_INSTANT) then PaimonLocalZonedTimestamp nullable 6
      else if decide (urn = LOGICAL_TYPE_MILLIS_INSTANT) then PaimonLocalZonedTimestamp nullable 3
      else if decide (urn = LOGICAL_TYPE_NANOS_INSTANT) then PaimonLocalZonedTimestamp nullable 9
      else match repr with Rows.mkFieldType _ kind => table_kind_type kind nullable end
  end.

Lemma new_fields_not_variant fields : Forall (λ f, metadata f = ∅) fields → has_variant_arrow_field_ids fields = false.
Proof.
  intros Hf. destruct fields as [|f [|g [|h fields]]]; try done. apply Forall_cons in Hf as [Hf _].
  cbn. unfold arrow_field_id. rewrite Hf. done.
Qed.

Lemma row_fields_convert (fields : list Rows.BeamField) : ∀ i,
  Forall (λ f, arrow_to_paimon_type (beam_field_type_to_arrow (Rows.field_type f)) (Rows.nullable (Rows.field_type f))
    = Ok (table_column_type (Rows.field_type f))) fields →
  paimon_fields arrow_to_paimon_type (beam_field_to_arrow_field <$> fields) i
  = Ok (imap (λ j f, mkDataField (to_signed 32 (i + Z.of_nat j)) (Rows.field_name f) (table_column_type (Rows.field_type f))) fields).
Proof.
  induction fields as [|f fields IH]; intros i Hf; [done|]. apply Forall_cons in Hf as [Hf Hfs].
  rewrite fmap_cons, paimon_fields_cons. cbn [beam_field_to_arrow_field new_field type_of is_nullable name_of].
  rewrite Hf. cbn [mbind outcome_bind]. rewrite (IH (i + 1)%Z Hfs). cbn [mbind outcome_bind imap].
  f_equal. f_equal; [by rewrite Z.add_0_r|].
  apply imap_ext. intros j g _. cbn. do 2 f_equal. lia.
Qed.

Lemma arrow_row_type s : beam_kind_to_arrow (Rows.KRow s) = StructType (beam_schema_to_arrow s).
Proof. destruct s as [id fields order]. cbn. f_equal. induction fields as [|[n t p] fields IH]; [done|]. cbn. by f_equal. Qed.

Lemma table_row_type s n : table_kind_type (Rows.KRow s) n =
  PaimonRow n (imap (λ i f, mkDataField (to_signed 32 (Z.of_nat i)) (Rows.field_name f) (table_column_type (Rows.field_type f))) (Rows.schema_fields s)).
Proof.
  destruct s as [id fields order]. cbn. f_equal.
  match goal with |- imap _ ?l = _ =>
    replace l with ((λ f, (Rows.field_name f, table_column_type (Rows.field_type f))) <$> fields) end.
  - by rewrite imap_fmap.
  - induction fields as [|[m t p] fields IH]; [done|]. cbn. by f_equal.
Qed.

(** A field converts to the column type of its kind, of any nullability. *)
Lemma field_type_converts ft n :
  arrow_to_paimon_type (beam_field_type_to_arrow ft) n = Ok (let '(Rows.mkFieldType _ kind) := ft in table_kind_type kind n).
Proof.
  revert n. apply (Rows.field_type_ind
    (λ ft, ∀ n, arrow_to_paimon_type (beam_field_type_to_arrow ft) n = Ok (let '(Rows.mkFieldType _ kind) := ft in table_kind_type kind n))
    (λ k, ∀ n, arrow_to_paimon_type (beam_kind_to_arrow k) n = Ok (table_kind_type k n))
    (λ s, ∀ i, paimon_fields arrow_to_paimon_type (beam_schema_to_arrow s) i
      = Ok (imap (λ j f, mkDataField (to_signed 32 (i + Z.of_nat j)) (Rows.field_name f) (table_column_type (Rows.field_type f)))
          (Rows.schema_fields s)))).
  - intros n k Hk. apply Hk.
  - intros []; try done; intros n; cbn; [apply varchar_fits|apply varbinary_fits].
  - intros [m k] He n. cbn in He |- *. by rewrite He.
  - intros [m k] He n. cbn in He |- *. by rewrite He.
  - intros [m k] [m' k'] Hk Hv n. cbn in Hk, Hv |- *. rewrite Hk. cbn. by rewrite Hv.
  - intros s Hs n. rewrite arrow_row_type, table_row_type. cbn [arrow_to_paimon_type].
    rewrite new_fields_not_variant, andb_false_r by (apply Forall_fmap, Forall_true; done).
    rewrite Hs. done.
  - intros urn [m kind] Hr n. cbn [beam_kind_to_arrow table_kind_type].
    repeat case_decide; try (by cbn; rewrite local_zoned_fits by (cbn; lia)). apply Hr.
  - intros id fields order Hf i. cbn [beam_schema_to_arrow Rows.schema_fields]. apply row_fields_convert.
    eapply Forall_impl; [exact Hf|]. intros [name [m k] pos] Hft. apply Hft.
Qed.

Lemma row_schema_converts schema : arrow_fields_to_paimon (beam_schema_to_arrow schema)
  = Ok (imap (λ i f, mkDataField (to_signed 32 (Z.of_nat i)) (Rows.field_name f) (table_column_type (Rows.field_type f)))
      (Rows.schema_fields schema)).
Proof.
  unfold arrow_fields_to_paimon, beam_schema_to_arrow. rewrite row_fields_convert; [done|].
  apply Forall_true. intros [name [m k] pos]. apply (field_type_converts (Rows.mkFieldType m k)).
Qed.
End conversion.
