(* ===== verification/RecordProperties.v ===== *)
(** Properties of the record tables (store/record.rs), for the constructors of the arrow and
    paimon crates as they are documented. *)
From S2P Require Import Prelude Bytes Varint Windows Coders Arrow RecordTables ArrowSpec RecordTableSpec.
From S2P Require Rows.
Local Open Scope string_scope.
Local Open Scope list_scope.

(** * Constructors that accept what is documented *)

Definition accept_arrow : Arrow := {|
  list_array_new item offsets values nulls := Ok (ListArray item offsets values nulls);
  large_list_array_new item offsets values nulls := Ok (LargeListArray item offsets values nulls);
  fixed_size_list_array_new item size values nulls := Ok (FixedSizeListArray item size values nulls);
  struct_array_try_new fields columns nulls :=
    match fields with [] => Err "use StructArray::new_empty_fields" | _ => Ok (StructArray fields columns nulls) end;
  map_array_new entries offsets keyed nulls sorted := Ok (MapArray entries offsets keyed nulls sorted);
  record_batch_try_new schema columns :=
    match columns with [] => Err "must either specify a row count or at least one column"
    | column :: _ => Ok (mkBatch schema columns (array_length column)) end;
|}.

Lemma accept_arrow_laws : @ArrowLaws accept_arrow.
Proof.
  split; [done| |].
  - intros n [|f fields] columns; done.
  - intros n [|f schema] columns Hne Hf; [done|]. inversion Hf as [|? a ? ? (_ & Hl & _)]; subst. done.
Qed.

Definition accept_paimon : Paimon (list (string * PaimonDataType) * list (string * string)) := {|
  varchar_max := 2147483647;
  varbinary_max := 2147483647;
  varchar n l := Ok (PaimonVarChar n l);
  varbinary n l := Ok (PaimonVarBinary n l);
  timestamp n p := if (0 <=? p)%Z && (p <=? 9)%Z then Ok (PaimonTimestamp n p) else Err "precision";
  local_zoned_timestamp n p := if (0 <=? p)%Z && (p <=? 9)%Z then Ok (PaimonLocalZonedTimestamp n p) else Err "precision";
  time n p := Ok (PaimonTime n p);
  decimal n p s := Ok (PaimonDecimal n p s);
  vector n l t := if (l =? 0)%Z then Err "length" else Ok (PaimonVector n l t);
  build_schema columns options := Ok (columns, options);
|}.

Lemma accept_paimon_laws : @PaimonLaws _ accept_paimon.
Proof.
  split; [done..| |]; intros n p [H1 H2]; cbn; rewrite (proj2 (Z.leb_le _ _) H1), (proj2 (Z.leb_le _ _) H2); done.
Qed.

(** * Records *)

(** C11: what is written to the table of a PCollection is read back.  When the storage types
    of the records agree (the schema is derived), the items of every list have one type, no
    tuple is empty and the offsets fit in 32 bits, a batch is built, its [Null] columns can be
    rewritten for the table format, and the records read back from it, before and after the
    rewriting, are the records written. *)
Theorem stored_records_read_back `{ArrowLaws} records table_schema :
  derive_table_schema records = Ok table_schema → Forall uniform records →
  sizes (arrow_schema table_schema) (cells (table_type table_schema) records) →
  ∃ batch stored_batch,
    beamrecords_to_record_batch records table_schema = Ok batch ∧
    materialize_void_columns batch = Ok stored_batch ∧
    rb_schema stored_batch = materialize_void_schema (arrow_schema table_schema) ∧
    record_batch_to_beamrecords batch table_schema = Ok records ∧
    record_batch_to_beamrecords stored_batch table_schema = Ok records.
Proof.
  intros Hd Hu Hz. destruct (derived_schema_stores _ _ Hu Hd) as (Hne & Hrow & Hn & Ht & Hs).
  destruct (batch_built table_schema records) as (columns & Hb & Hc); [done..|].
  assert (arrow_schema table_schema ≠ []) as Hfields by (intros E; rewrite E in Hn; by destruct (table_type table_schema)).
  destruct (batch_materialized _ _ _ (length records) Hfields Hc) as (columns' & Hm & Hh); [apply cells_length|].
  eexists _, _. split_and!; [exact Hb|exact Hm|done| |].
  - rewrite <-(app_nil_r (arrow_schema _)), <-(app_nil_r columns). apply batch_read; [done..|]. by apply built_holds.
  - rewrite <-(app_nil_r (materialize_void_schema _)), <-(app_nil_r columns').
    apply batch_read; [done|by rewrite materialized_names|done|done].
Qed.

Definition sample_records : list BeamRecord :=
  [KV PVoid (ITERABLE [TUPLE [PInt64 1; PVoid]; TUPLE [PInt64 2; PBool true]]); KV PVoid (ITERABLE [TUPLE [PInt64 3; PBool false]])].
Definition sample_schema : RecordTableSchema :=
  mkTableSchema TKv [new_field KEY_COLUMN Null true;
    new_field VALUE_COLUMN (ListType (new_field "item" (StructType
      [new_field "f0" Int64 true; new_field "f1" Boolean true]) false)) false] false.

Lemma stored_records_read_back_witness :
  ∃ batch stored_batch,
    @beamrecords_to_record_batch accept_arrow sample_records sample_schema = Ok batch ∧
    @materialize_void_columns accept_arrow batch = Ok stored_batch ∧
    rb_schema stored_batch = materialize_void_schema (arrow_schema sample_schema) ∧
    record_batch_to_beamrecords batch sample_schema = Ok sample_records ∧
    record_batch_to_beamrecords stored_batch sample_schema = Ok sample_records.
Proof.
  apply (@stored_records_read_back accept_arrow accept_arrow_laws).
  - reflexivity.
  - repeat constructor; by vm_compute.
  - repeat constructor; by vm_compute.
Defined.

Lemma same_type_refl t : same_type t t = true.
Proof. by apply same_type_eq. Qed.

Lemma element_type_in_list x xs t : iterable_element_data_type x = Ok t → nested_value_storage_type (ITERABLE (x :: xs)) = Ok (list_of t).
Proof.
  unfold iterable_element_data_type. intros H. inv_bind H. simplify_eq. cbn. by rewrite E.
Qed.

(** C40: the type of a nested list is that of its first item, and of bytes if it has none.
    So a pair whose list is empty and a pair whose list is not one of bytes never share a
    table, in whatever order they come; the same lists as the values of grouped pairs do. *)
Theorem empty_list_first_refused key x xs t : iterable_element_data_type x = Ok t → t ≠ Binary →
  all1 (λ r, iterable_element_data_type r = Ok t) xs →
  derive_table_schema [KV key (ITERABLE []); KV key (ITERABLE (x :: xs))] = Err "mixed KV value types in pcollection" ∧
  derive_table_schema [KV key (ITERABLE (x :: xs)); KV key (ITERABLE [])] = Err "mixed KV value types in pcollection" ∧
  derive_table_schema [GBK key []; GBK key (x :: xs)]
    = Ok (mkTableSchema TGbk [new_field KEY_COLUMN (primitive_data_type key) false; new_field VALUE_COLUMN (list_of t) true] false).
Proof.
  intros Hx Hb Hxs. pose proof (element_type_in_list x xs t Hx) as Hl.
  assert (same_type (list_of t) (list_of Binary) = false ∧ same_type (list_of Binary) (list_of t) = false) as [Hne Hne'].
  { split; apply not_true_iff_false; intros [= E]%same_type_eq; by subst. }
  unfold derive_table_schema, derive_arrow_schema. change (nested_value_storage_type (ITERABLE [])) with (@Ok string _ (list_of Binary)).
  rewrite Hl. cbn [mbind outcome_bind traverse]. unfold primitive_type_matches. rewrite same_type_refl.
  change (nested_value_storage_type (ITERABLE [])) with (@Ok string _ (list_of Binary)). rewrite Hl.
  cbn [mbind outcome_bind]. rewrite !same_type_refl, Hne, Hne'. cbn [mbind outcome_bind infer_iterable_item_data_type].
  split_and!; [done|done|]. rewrite Hx. cbn [mbind outcome_bind]. unfold validate_iterable_item_types. cbn [traverse].
  cbn [mbind outcome_bind]. rewrite Hx. cbn [mbind outcome_bind]. rewrite same_type_refl. cbn [mbind outcome_bind].
  rewrite (traverse_map _ (λ _, ())); [done|]. apply all1_Forall in Hxs. eapply Forall_impl; [exact Hxs|].
  intros r Hr. cbn. rewrite Hr. cbn. by rewrite same_type_refl.
Qed.

Lemma empty_list_first_refused_witness :
  derive_table_schema [KV (PInt64 1) (ITERABLE []); KV (PInt64 1) (ITERABLE [PRIMITIVE (PString "a")])] = Err "mixed KV value types in pcollection" ∧
  derive_table_schema [KV (PInt64 1) (ITERABLE [PRIMITIVE (PString "a")]); KV (PInt64 1) (ITERABLE [])] = Err "mixed KV value types in pcollection" ∧
  derive_table_schema [GBK (PInt64 1) []; GBK (PInt64 1) [PRIMITIVE (PString "a")]]
    = Ok (mkTableSchema TGbk [new_field KEY_COLUMN Int64 false; new_field VALUE_COLUMN (list_of Utf8) true] false).
Proof. apply (empty_list_first_refused (PInt64 1) (PRIMITIVE (PString "a")) [] Utf8); [reflexivity|discriminate|exact I]. Defined.

(** The columns of a table do not depend on when its [Null] columns are rewritten, and
    every row schema of Beam has a table: its fields convert, in order and with their names,
    to the column types of their kinds, nullable where the field is. *)
Theorem table_columns_of_schemas {PaimonSchema} `{PaimonLaws PaimonSchema} schema row_schema :
  arrow_fields_to_paimon (materialize_void_schema schema) = arrow_fields_to_paimon schema ∧
  arrow_fields_to_paimon (materialize_void_schema (beam_schema_to_arrow row_schema))
  = Ok (imap (λ i f, mkDataField (to_signed 32 (Z.of_nat i)) (Rows.field_name f) (table_column_type (Rows.field_type f)))
      (Rows.schema_fields row_schema)).
Proof. split; [apply schema_kept|]. rewrite schema_kept. apply row_schema_converts. Qed.

Lemma table_columns_of_schemas_witness :
  @arrow_fields_to_paimon _ accept_paimon (materialize_void_schema (arrow_schema sample_schema))
    = @arrow_fields_to_paimon _ accept_paimon (arrow_schema sample_schema) ∧
  @arrow_fields_to_paimon _ accept_paimon (materialize_void_schema (beam_schema_to_arrow
    (Rows.mkSchema "s" [Rows.mkField "at" (Rows.mkFieldType true (Rows.KLogical LOGICAL_TYPE_MILLIS_INSTANT (Rows.mkFieldType false Rows.KInt64))) 0] [])))
    = Ok [mkDataField 0 "at" (PaimonLocalZonedTimestamp true 3)].
Proof. apply (@table_columns_of_schemas _ accept_paimon accept_paimon_laws). Defined.
