(* ===== verification/WindowColumns.v ===== *)
(** Window metadata as columns (store/element_store.rs): the reserved columns that keep the
    timestamp, the windows and the pane of every row of a batch, and the windowed values
    read back from them. *)
From S2P Require Import Prelude Bytes Varint Windows Coders Arrow RecordTables.
Local Open Scope string_scope.
Local Open Scope list_scope.

Definition WINDOW_TIMESTAMP_COLUMN : string := "flare_timestamp_millis".
Definition WINDOW_MAX_END_COLUMN : string := "flare_max_window_end_millis".
Definition WINDOW_PANE_TIMING_COLUMN : string := "flare_pane_timing".
Definition WINDOW_PANE_INDEX_COLUMN : string := "flare_pane_index".
Definition WINDOW_PANE_NON_SPECULATIVE_INDEX_COLUMN : string := "flare_pane_non_speculative_index".
Definition WINDOW_PANE_IS_FIRST_COLUMN : string := "flare_pane_is_first".
Definition WINDOW_PANE_IS_LAST_COLUMN : string := "flare_pane_is_last".
Definition WINDOW_KEY_COLUMN : string := "flare_window_key".
Definition WINDOW_EXTRA_KEYS_COLUMN : string := "flare_extra_window_keys".
Definition WINDOW_COUNT_COLUMN : string := "flare_window_count".

(** The item field that a list builder gives its lists of keys. *)
Definition key_item_field : ArrowField := new_field "item" Binary true.

Definition metadata_fields : list ArrowField :=
  [new_field WINDOW_TIMESTAMP_COLUMN Int64 false;
   new_field WINDOW_MAX_END_COLUMN Int64 true;
   new_field WINDOW_PANE_TIMING_COLUMN Int8 false;
   new_field WINDOW_PANE_INDEX_COLUMN Int64 false;
   new_field WINDOW_PANE_NON_SPECULATIVE_INDEX_COLUMN Int64 false;
   new_field WINDOW_PANE_IS_FIRST_COLUMN Boolean false;
   new_field WINDOW_PANE_IS_LAST_COLUMN Boolean false;
   new_field WINDOW_KEY_COLUMN Binary true;
   new_field WINDOW_EXTRA_KEYS_COLUMN (ListType key_item_field) false;
   new_field WINDOW_COUNT_COLUMN Int16 false].

Definition has_typed_window_metadata (schema : Schema) : bool :=
  forallb (λ field, bool_decide (is_Some (field_with_name (name_of field) schema))) metadata_fields.

Definition I16_MAX : Z := 2 ^ 15 - 1.

Section columns.
Context `{Arrow} `{P : Profile}.

(** * Appending *)

(** The count, the first key and the other keys of the windows of a row. *)
Definition window_keys (m : WindowMetadata) : outcome string (Z * option bytes * list bytes) :=
  if (I16_MAX <? Z.of_nat (length (windows m)))%Z then Err "element window count exceeds i16"
  else
    keys ← traverse to_binary_key (windows m);
    Ok (Z.of_nat (length (windows m)), head keys, tail keys).

(** A list builder panics when an offset leaves its 32 bits. *)
Definition build_key_lists (lists : list (list bytes)) : outcome string Array :=
  match build_offsets (length <$> lists) with
  | Ok offsets => Ok (ListArray key_item_field offsets (BinaryArray Binary (Some <$> concat lists)) None)
  | _ => Panic "list offset overflow"
  end.

Definition append_window_metadata (batch : RecordBatch) (metadata : list WindowMetadata) : outcome string RecordBatch :=
  if negb (bool_decide (num_rows batch = length metadata)) then
    Err "WindowedValue metadata count does not match batch row count"
  else
    keys ← traverse window_keys metadata;
    extra_keys ← build_key_lists (snd <$> keys);
    max_ends ← traverse max_finite_window_end_millis metadata;
    record_batch_try_new (rb_schema batch ++ metadata_fields)
      (rb_columns batch ++
       [IntArray Int64 (Some ∘ timestamp_millis <$> metadata);
        IntArray Int64 max_ends;
        IntArray Int8 ((λ m, Some (to_signed 8 (PaneTiming_bits (timing (pane m))))) <$> metadata);
        IntArray Int64 ((λ m, Some (index (pane m))) <$> metadata);
        IntArray Int64 ((λ m, Some (non_speculative_index (pane m))) <$> metadata);
        BooleanArray ((λ m, Some (is_first (pane m))) <$> metadata);
        BooleanArray ((λ m, Some (is_last (pane m))) <$> metadata);
        BinaryArray Binary ((snd ∘ fst) <$> keys);
        extra_keys;
        IntArray Int16 ((Some ∘ fst ∘ fst) <$> keys)]).

(** * Reading *)

Definition int_column (name : string) (t : ArrowDataType) (batch : RecordBatch) : outcome string (list (option Z)) :=
  column ← named_column name batch;
  match column with
  | IntArray t' l => if same_type t t' then Ok l else Err "unexpected column type"
  | _ => Err "unexpected column type"
  end.
Definition boolean_column (name : string) (batch : RecordBatch) : outcome string (list (option bool)) :=
  column ← named_column name batch;
  match column with BooleanArray l => Ok l | _ => Err "must be a Boolean column" end.
Definition binary_array (a : Array) : outcome string (list (option bytes)) :=
  match a with BinaryArray Binary l => Ok l | _ => Err "must be a Binary column" end.

(** The metadata columns of a batch. *)
Record MetadataColumns : Type := mkMetadataColumns {
  timestamps : list (option Z);
  pane_timings : list (option Z);
  pane_indices : list (option Z);
  pane_non_speculative_indices : list (option Z);
  pane_is_first : list (option bool);
  pane_is_last : list (option bool);
  first_window_keys : list (option bytes);
  key_offsets : list Z;
  extra_window_keys : list (option bytes);
  window_counts : list (option Z);
}.

Definition metadata_columns (batch : RecordBatch) : outcome string MetadataColumns :=
  timestamps ← int_column WINDOW_TIMESTAMP_COLUMN Int64 batch;
  timings ← int_column WINDOW_PANE_TIMING_COLUMN Int8 batch;
  indices ← int_column WINDOW_PANE_INDEX_COLUMN Int64 batch;
  non_speculative ← int_column WINDOW_PANE_NON_SPECULATIVE_INDEX_COLUMN Int64 batch;
  firsts ← boolean_column WINDOW_PANE_IS_FIRST_COLUMN batch;
  lasts ← boolean_column WINDOW_PANE_IS_LAST_COLUMN batch;
  first_keys ← named_column WINDOW_KEY_COLUMN batch ≫= binary_array;
  extra ← named_column WINDOW_EXTRA_KEYS_COLUMN batch;
  match extra with
  | ListArray _ offsets values _ =>
      extra_keys ← binary_array values;
      counts ← int_column WINDOW_COUNT_COLUMN Int16 batch;
      Ok (mkMetadataColumns timestamps timings indices non_speculative firsts lasts first_keys offsets extra_keys counts)
  | _ => Err "must be a List column"
  end.

Definition decode_window_key (key : bytes) : outcome string BeamWindow :=
  of_option (from_binary_key key) "malformed binary window key".

Definition is_null_at {A} (l : list (option A)) (row : nat) : bool :=
  match l !! row with Some None => true | _ => false end.

(** The windows of a row, checked against its count. *)
Definition windows_of_row (c : MetadataColumns) (row : nat) : outcome string (list BeamWindow) :=
  match key_offsets c !! row, key_offsets c !! S row with
  | Some start, Some fin =>
      if (start <? 0)%Z || (fin <? 0)%Z then Err "negative offset"
      else
        let rows := seq (Z.to_nat start) (Z.to_nat fin - Z.to_nat start) in
        declared ← value_at (window_counts c) row 0%Z;
        if (declared <? 0)%Z then Err "window count is negative"
        else
          let has_first := negb (is_null_at (first_window_keys c) row) in
          if negb (bool_decide (Z.to_nat declared = length rows + (if has_first then 1 else 0))) then
            Err "window count does not match stored window keys"
          else
            first ← (if (0 <? declared)%Z then
                       if has_first then key ← value_at (first_window_keys c) row []; window ← decode_window_key key; Ok [window]
                       else Err "window key is null for non-empty window set"
                     else Ok []);
            rest ← traverse (λ index,
              if is_null_at (extra_window_keys c) index then Err "null window"
              else key ← value_at (extra_window_keys c) index []; decode_window_key key) rows;
            Ok (first ++ rest)
  | _, _ => Panic "index out of bounds"
  end.

Definition windowed_row (c : MetadataColumns) (row : nat) (value : BeamRecord) : outcome string WindowedValue :=
  windows ← windows_of_row c row;
  timestamp ← value_at (timestamps c) row 0%Z;
  first ← value_at (pane_is_first c) row false;
  last ← value_at (pane_is_last c) row false;
  timing ← value_at (pane_timings c) row 0%Z;
  index ← value_at (pane_indices c) row 0%Z;
  non_speculative ← value_at (pane_non_speculative_indices c) row 0%Z;
  Ok (mkWindowedValue value timestamp windows
    (mkPane first last (PaneTiming_from_bits (to_unsigned 8 timing)) index non_speculative)).

Definition windowed_values_from_batch (batch : RecordBatch) (table_schema : RecordTableSchema) : outcome string (list WindowedValue) :=
  records ← record_batch_to_beamrecords batch table_schema;
  if negb (has_windowed_metadata table_schema) then Ok (global <$> records)
  else
    columns ← metadata_columns batch;
    traverse (λ '(row, value), windowed_row columns row value) (imap pair records).
End columns.
