(* ===== verification/WindowColumnsSpec.v ===== *)
(** Windowed values survive their table (store/element_store.rs): the batch built for them
    is accepted, and it reads back, rewritten or not, as the values. *)
From S2P Require Import Prelude Bytes Varint Windows Coders Arrow RecordTables ArrowSpec RecordTableSpec WindowColumns.
Local Open Scope string_scope.
Local Open Scope list_scope.

(** * Columns after the columns of the records *)

Lemma position_after name fs gs : name ∉ name_of <$> fs →
  position_of name (fs ++ gs) = (λ i, length fs + i) <$> position_of name gs.
Proof.
  induction fs as [|f fs IH]; intros Hn; [by cbn [app]; destruct (position_of name gs)|].
  rewrite fmap_cons, not_elem_of_cons in Hn. destruct Hn as [Hne Hn]. cbn [app position_of].
  rewrite decide_False by done. rewrite IH by done. by destruct (position_of name gs).
Qed.

Lemma named_after name fs gs cs ds n : name ∉ name_of <$> fs → length fs = length cs →
  named_column name (mkBatch (fs ++ gs) (cs ++ ds) n) = of_option (position_of name gs ≫= (λ i, ds !! i)) "missing column".
Proof.
  intros Hn Hl. unfold named_column, column_by_name. cbn [rb_schema rb_columns]. rewrite position_after by done.
  destruct (position_of name gs) as [i|]; [|done]. cbn. rewrite Hl, lookup_app_r by lia. do 2 f_equal. lia.
Qed.

(** The names of the record columns are not reserved. *)
Lemma not_reserved (fs : list ArrowField) t name : name_of <$> fs = column_names t → name ∈ name_of <$> metadata_fields → name ∉ name_of <$> fs.
Proof.
  intros -> Hm Hn.
  assert (name = KEY_COLUMN ∨ name = VALUE_COLUMN) as Hv by (destruct t; cbn in Hn; rewrite !elem_of_cons, elem_of_nil in Hn; tauto).
  apply (bool_decide_eq_true_2 _) in Hm. by destruct Hv as [->| ->]; vm_compute in Hm.
Qed.

(** * Windows and their keys *)

Definition window_key_of (w : BeamWindow) : bytes := match to_binary_key (E:=string) w with Ok key => key | _ => [] end.

Lemma key_of_window w : wf_window w → to_binary_key (E:=string) w = Ok (window_key_of w) ∧ from_binary_key (window_key_of w) = Some w.
Proof.
  intros Hw. assert (∃ key, to_binary_key (E:=string) w = Ok key) as [key Hk].
  { destruct w as [|s e|id data]; [by eexists..|]. destruct Hw as (_ & [_ Hl] & _). unfold to_binary_key.
    apply Z.ltb_lt in Hl. rewrite Hl. by eexists. }
  unfold window_key_of. rewrite Hk. split; [done|]. by eapply from_to_binary_key.
Qed.

Section round_trip.
Context `{ArrowLaws} `{P : Profile}.

(** Metadata that the columns can hold. *)
Definition writable (m : WindowMetadata) : Prop :=
  (Z.of_nat (length (windows m)) ≤ I16_MAX)%Z ∧ Forall wf_window (windows m) ∧
  is_ok (max_finite_window_end_millis (E:=string) m) = true.

Lemma window_keys_written m : writable m →
  window_keys m = Ok (Z.of_nat (length (windows m)), window_key_of <$> head (windows m), window_key_of <$> tail (windows m)).
Proof.
  intros (Hc & Hw & _). unfold window_keys. rewrite (proj2 (Z.ltb_ge _ _)) by lia.
  rewrite (traverse_map _ window_key_of) by (eapply Forall_impl; [exact Hw|]; intros w; by apply key_of_window).
  cbn. by destruct (windows m).
Qed.

Definition max_end (m : WindowMetadata) : option Z :=
  match max_finite_window_end_millis (E:=string) m with Ok o => o | _ => None end.

(** The metadata columns of some rows. *)
Definition columns_of_metadata (ms : list WindowMetadata) (offsets : list Z) : list Array :=
  [IntArray Int64 (Some ∘ timestamp_millis <$> ms);
   IntArray Int64 (max_end <$> ms);
   IntArray Int8 ((λ m, Some (to_signed 8 (PaneTiming_bits (timing (pane m))))) <$> ms);
   IntArray Int64 ((λ m, Some (index (pane m))) <$> ms);
   IntArray Int64 ((λ m, Some (non_speculative_index (pane m))) <$> ms);
   BooleanArray ((λ m, Some (is_first (pane m))) <$> ms);
   BooleanArray ((λ m, Some (is_last (pane m))) <$> ms);
   BinaryArray Binary ((λ m, window_key_of <$> head (windows m)) <$> ms);
   ListArray key_item_field offsets (BinaryArray Binary (Some <$> concat ((λ m, window_key_of <$> tail (windows m)) <$> ms))) None;
   IntArray Int16 ((λ m, Some (Z.of_nat (length (windows m)))) <$> ms)].

Definition extra_keys (ms : list WindowMetadata) : list (list bytes) := (λ m, window_key_of <$> tail (windows m)) <$> ms.

Lemma full_column {A} (f : WindowMetadata → A) (ms : list WindowMetadata) (a : Array) :
  (∀ i, is_null a i = match ((λ m, Some (f m)) <$> ms) !! i with Some None => true | _ => false end) → has_nulls a = false.
Proof.
  intros Ha. unfold has_nulls. destruct (existsb _ _) eqn:E; [|done]. apply List.existsb_exists in E as (i & _ & Hi).
  rewrite Ha, list_lookup_fmap in Hi. by destruct (ms !! i).
Qed.

Lemma left_as_is n f a : materialize_void_array a (type_of f) = Ok a → materialize_void_field f = f →
  data_type_of a = type_of f → array_length a = n → (is_nullable f = false → has_nulls a = false) → rewritten n f a a.
Proof. unfold rewritten. by intros ? -> ? ?. Qed.

(** None of the columns has anything to rewrite. *)
Lemma metadata_columns_kept ms offsets : build_offsets (length <$> extra_keys ms) = Ok offsets →
  Forall3 (rewritten (length ms)) metadata_fields (columns_of_metadata ms offsets) (columns_of_metadata ms offsets).
Proof.
  intros Ho. unfold metadata_fields, columns_of_metadata.
  assert (length offsets = S (length ms) ∧ offsets_fit (length (concat (extra_keys ms))) offsets) as [Hl Hfit].
  { unfold build_offsets in Ho. inv_bind Ho. simplify_eq. destruct (offsets_spec _ _ _ E ltac:(lia)) as (Hs & Hb & Hl & _).
    split; [cbn; f_equal; unfold extra_keys in Hl; by rewrite Hl, !length_fmap|]. split_and!; [done|done|].
    rewrite <-sum_lengths. eapply Forall_impl; [exact Hb|]. cbn. lia. }
  do 8 (constructor; [apply left_as_is; [done|done|done|by cbn; rewrite ?length_fmap|first [done|intros _; by eapply full_column]]|]).
  constructor; [|constructor; [apply left_as_is; [done|done|done|by cbn; rewrite ?length_fmap|intros _; by eapply full_column]|constructor]].
  apply left_as_is; [|done|done|cbn [array_length]; lia|].
  - cbn [materialize_void_array type_of new_field key_item_field mbind outcome_bind].
    apply list_array_fits; [done|done|done|]. cbn [array_length]. rewrite length_fmap. apply Hfit.
  - intros _. unfold has_nulls. destruct (existsb _ _) eqn:E; [|done]. by apply List.existsb_exists in E as (i & _ & Hi).
Qed.

Lemma rewritten_fits n fs cs cs' : Forall3 (rewritten n) fs cs cs' → columns_fit n (materialize_void_schema fs) cs'.
Proof. induction 1 as [|f a a' fs cs cs' (_ & Ht & Hl & Hn) _ IH]; constructor; done. Qed.

Lemma max_ends_written ms : Forall writable ms → traverse (max_finite_window_end_millis (E:=string)) ms = Ok (max_end <$> ms).
Proof.
  intros Hw. apply traverse_map. eapply Forall_impl; [exact Hw|]. intros m (_ & _ & Hm). unfold max_end.
  by destruct (max_finite_window_end_millis m).
Qed.

(** Metadata is appended to a batch of as many rows. *)
Lemma metadata_appended fields columns ms offsets : Forall writable ms → columns_fit (length ms) fields columns →
  build_offsets (length <$> extra_keys ms) = Ok offsets →
  append_window_metadata (mkBatch fields columns (length ms)) ms
  = Ok (mkBatch (fields ++ metadata_fields) (columns ++ columns_of_metadata ms offsets) (length ms)).
Proof.
  intros Hw Hfit Ho. unfold append_window_metadata. cbn [num_rows rb_schema rb_columns]. rewrite bool_decide_true by done.
  cbn [negb]. rewrite (traverse_map _ (λ m, (Z.of_nat (length (windows m)), window_key_of <$> head (windows m), window_key_of <$> tail (windows m))))
    by (eapply Forall_impl; [exact Hw|]; intros m; apply window_keys_written).
  cbn [mbind outcome_bind]. unfold build_key_lists. rewrite <-!list_fmap_compose.
  match goal with |- context [build_offsets (?f <$> ms)] =>
    replace (f <$> ms) with (length <$> extra_keys ms) by (unfold extra_keys; by rewrite <-list_fmap_compose) end.
  rewrite Ho. cbn [mbind outcome_bind]. rewrite max_ends_written by done. cbn [mbind outcome_bind].
  rewrite (record_batch_fits (length ms)); [done|by destruct fields|]. apply Forall2_app; [done|].
  apply (rewritten_fits _ metadata_fields (columns_of_metadata ms offsets)). by apply metadata_columns_kept.
Qed.

(** * Reading the metadata *)

Definition read_columns (ms : list WindowMetadata) (offsets : list Z) : MetadataColumns :=
  mkMetadataColumns (Some ∘ timestamp_millis <$> ms)
    ((λ m, Some (to_signed 8 (PaneTiming_bits (timing (pane m))))) <$> ms)
    ((λ m, Some (index (pane m))) <$> ms) ((λ m, Some (non_speculative_index (pane m))) <$> ms)
    ((λ m, Some (is_first (pane m))) <$> ms) ((λ m, Some (is_last (pane m))) <$> ms)
    ((λ m, window_key_of <$> head (windows m)) <$> ms) offsets (Some <$> concat (extra_keys ms))
    ((λ m, Some (Z.of_nat (length (windows m)))) <$> ms).

Lemma metadata_columns_read fields columns n ms offsets t : name_of <$> fields = column_names t → length fields = length columns →
  metadata_columns (mkBatch (fields ++ metadata_fields) (columns ++ columns_of_metadata ms offsets) n) = Ok (read_columns ms offsets).
Proof.
  intros Hn Hl. unfold metadata_columns, int_column, boolean_column.
  rewrite !(named_after _ fields metadata_fields columns) by
    (done || (apply (not_reserved fields t); [done|]; apply (bool_decide_eq_true_1 _); by vm_compute)).
  reflexivity.
Qed.

Lemma value_at_full {A B} (f : A → B) (l : list A) i x u : l !! i = Some x → value_at ((λ y, Some (f y)) <$> l) i u = Ok (f x).
Proof. intros Hi. unfold value_at. by rewrite list_lookup_fmap, Hi. Qed.

Lemma pane_timing_kept t : PaneTiming_from_bits (to_unsigned 8 (to_signed 8 (PaneTiming_bits t))) = t.
Proof. by destruct t. Qed.

Lemma is_null_at_eq {A} (l : list (option A)) i o : l !! i = Some o → is_null_at l i = match o with None => true | _ => false end.
Proof. unfold is_null_at. by intros ->. Qed.

Lemma value_at_eq {A} (l : list (option A)) i x u : l !! i = Some (Some x) → value_at l i u = Ok x.
Proof. unfold value_at. by intros ->. Qed.

Lemma decode_key_of w : wf_window w → decode_window_key (window_key_of w) = Ok w.
Proof. intros Hw. unfold decode_window_key. by rewrite (proj2 (key_of_window w Hw)). Qed.

(** The keys of a row give its windows back. *)
Lemma row_windows_read ms offsets i m : build_offsets (length <$> extra_keys ms) = Ok offsets → ms !! i = Some m →
  Forall wf_window (windows m) → windows_of_row (read_columns ms offsets) i = Ok (windows m).
Proof.
  intros Ho Hi Hw. unfold windows_of_row. cbn [read_columns key_offsets window_counts first_window_keys extra_window_keys].
  set (keys := window_key_of <$> tail (windows m)). assert (extra_keys ms !! i = Some keys) as Hkeys by (unfold extra_keys; by rewrite list_lookup_fmap, Hi).
  pose proof (list_rows_spec _ _ _ _ Ho Hkeys) as Hrows. unfold list_rows in Hrows.
  destruct (offsets !! i) as [start|]; [|done]. destruct (offsets !! S i) as [fin|]; [|done].
  destruct ((start <? 0)%Z || (fin <? 0)%Z); [done|]. injection Hrows as Hrows. rewrite Hrows, length_seq.
  rewrite (value_at_full (λ m, Z.of_nat (length (windows m))) ms i m) by done. cbn [mbind outcome_bind].
  rewrite (proj2 (Z.ltb_ge _ _)) by lia. rewrite Nat2Z.id.
  assert (((λ m, window_key_of <$> head (windows m)) <$> ms) !! i = Some (window_key_of <$> head (windows m))) as Hfirst by (by rewrite list_lookup_fmap, Hi).
  rewrite (is_null_at_eq _ _ _ Hfirst).
  assert (traverse (λ index, if is_null_at (Some <$> concat (extra_keys ms)) index then Err "null window"
      else key ← value_at (Some <$> concat (extra_keys ms)) index []; decode_window_key key)
      (seq (sum_list (take i (length <$> extra_keys ms))) (length keys)) = Ok (tail (windows m))) as Hrest.
  { unfold keys at 1. rewrite length_fmap. apply traverse_rows. intros j w Hj.
    assert (concat (extra_keys ms) !! (sum_list (take i (length <$> extra_keys ms)) + j) = Some (window_key_of w)) as Hkey.
    { rewrite (concat_lookup _ i keys) by (try done; unfold keys; rewrite length_fmap; by eapply lookup_lt_Some).
      unfold keys. by rewrite list_lookup_fmap, Hj. }
    assert ((Some <$> concat (extra_keys ms)) !! (sum_list (take i (length <$> extra_keys ms)) + j) = Some (Some (window_key_of w))) as Hsome
      by (by rewrite list_lookup_fmap, Hkey).
    rewrite (is_null_at_eq _ _ _ Hsome), (value_at_eq _ _ _ _ Hsome). cbn [mbind outcome_bind].
    apply decode_key_of, (Forall_lookup_1 _ (windows m) (S j)); [done|]. by destruct (windows m). }
  destruct (windows m) as [|w ws] eqn:Ew.
  - reflexivity.
  - apply Forall_cons in Hw as [Hw _]. cbn [head fmap option_fmap option_map negb length].
    rewrite bool_decide_true by (unfold keys; rewrite length_fmap; cbn; lia). cbn [negb].
    rewrite (proj2 (Z.ltb_lt _ _)) by lia. cbn [head fmap option_fmap option_map] in Hfirst.
    rewrite (value_at_eq _ _ _ _ Hfirst). cbn [mbind outcome_bind].
    rewrite decode_key_of by done. cbn [mbind outcome_bind]. by rewrite Hrest.
Qed.

Lemma row_read ms offsets i (v : WindowedValue) : build_offsets (length <$> extra_keys ms) = Ok offsets →
  ms !! i = Some (metadata_of v) → Forall wf_window (wv_windows v) →
  windowed_row (read_columns ms offsets) i (wv_value v) = Ok v.
Proof.
  intros Ho Hi Hw. unfold windowed_row. rewrite (row_windows_read ms offsets i (metadata_of v)) by done.
  cbn [read_columns timestamps pane_is_first pane_is_last pane_timings pane_indices pane_non_speculative_indices mbind outcome_bind].
  change (Some ∘ timestamp_millis) with (λ m, Some (timestamp_millis m)).
  rewrite !(value_at_full _ ms i (metadata_of v)) by done. cbn [mbind outcome_bind]. rewrite pane_timing_kept.
  destruct v as [value t ws []]. done.
Qed.
End round_trip.
