(* ===== verification/Kv.v ===== *)
(** The key/value store behind user state and timers (engine/kv.rs): what the
    trait promises, and that the SlateDB-backed store keeps it. *)
From S2P Require Import Prelude Bytes.

(** One entry of a batch: an upsert ([Some]) or a delete ([None]). *)
Abbreviation write := (bytes * option bytes)%type.

Definition apply_write (m : gmap bytes bytes) (w : write) : gmap bytes bytes :=
  match w.2 with Some v => <[w.1 := v]> m | None => delete w.1 m end.

Definition apply_writes (m : gmap bytes bytes) (ws : list write) : gmap bytes bytes :=
  foldl apply_write m ws.

Lemma apply_writes_other m ws k : k ∉ ws.*1 → apply_writes m ws !! k = m !! k.
Proof.
  revert m. induction ws as [|[k' v] ws IH]; intros m Hk; [done|].
  rewrite fmap_cons, not_elem_of_cons in Hk. destruct Hk as [Hne Hk]. simpl.
  unfold apply_writes in *. simpl. rewrite IH by done. unfold apply_write. simpl in *.
  destruct v; [by rewrite lookup_insert_ne|by rewrite lookup_delete_ne].
Qed.

(** A batch over distinct or repeated keys whose value depends on the key only. *)
Lemma apply_writes_keys (f : bytes → option bytes) (l : list bytes) (m : gmap bytes bytes) (k : bytes) :
  apply_writes m ((λ key, (key, f key)) <$> l) !! k = if decide (k ∈ l) then f k else m !! k.
Proof.
  unfold apply_writes. revert m. induction l as [|x l IH]; intros m; [done|].
  rewrite fmap_cons. cbn [foldl]. rewrite IH. unfold apply_write. simpl.
  destruct (decide (k ∈ l)) as [Hk|Hk].
  - by rewrite decide_True by (by right).
  - destruct (decide (k = x)) as [->|Hne].
    + rewrite decide_True by left. destruct (f x); [apply lookup_insert_eq|apply lookup_delete_eq].
    + rewrite (decide_False (P:=k ∈ x :: l)) by (rewrite elem_of_cons; tauto).
      destruct (f x); [by rewrite lookup_insert_ne|by rewrite lookup_delete_ne].
Qed.

(** * The trait *)

(** [KvStore].  Every operation can fail; a failed [apply] may leave the store
    changed, so it returns the new state beside the result. *)
Class KvStore (S : Type) : Type := {
  kv_get : S → bytes → outcome string (option bytes);
  kv_apply : S → list write → S * outcome string unit;
  kv_scan : S → outcome string (list (bytes * bytes));
}.

(** What the clients of the trait rely on, against a view of the store as a
    finite map.  A batch that succeeds is applied in order; one that fails touches
    no key outside the batch. *)
Class KvLaws (S : Type) `{KvStore S} : Type := {
  kv_view : S → gmap bytes bytes;
  kv_get_view s k v : kv_get s k = Ok v → v = kv_view s !! k;
  kv_apply_ok s ws s' : kv_apply s ws = (s', Ok ()) → kv_view s' = apply_writes (kv_view s) ws;
  kv_apply_frame s ws s' r k :
    kv_apply s ws = (s', r) → k ∉ ws.*1 → kv_view s' !! k = kv_view s !! k;
  kv_scan_view s l : kv_scan s = Ok l → l ≡ₚ map_to_list (kv_view s);
}.

(** What a client that writes one key at a time relies on in addition: a failed batch of
    one entry was applied, or it was not. *)
Class KvSingleWrite (S : Type) `{KvLaws S} : Prop :=
  kv_apply_one s w s' r : kv_apply s [w] = (s', r) → kv_view s' = apply_write (kv_view s) w ∨ r ≠ Ok () ∧ kv_view s' = kv_view s.

(** * SlateDB *)

(** The database handle: the operations of the [slatedb] crate the store calls. *)
Class SlateDb (D : Type) : Type := {
  db_get : D → bytes → outcome string (option bytes);
  db_put : D → bytes → bytes → D * outcome string unit;
  db_delete : D → bytes → D * outcome string unit;
  db_flush : D → D * outcome string unit;
  db_scan : D → outcome string (list (bytes * bytes));
}.

(** The documented behaviour of an ordered key/value database: a write that
    returns is visible, one that fails is not, reads return what is visible. *)
Class SlateLaws (D : Type) `{SlateDb D} : Type := {
  db_view : D → gmap bytes bytes;
  db_get_view d k v : db_get d k = Ok v → v = db_view d !! k;
  db_put_view d k v d' r :
    db_put d k v = (d', r) → db_view d' = if is_ok r then <[k := v]> (db_view d) else db_view d;
  db_delete_view d k d' r :
    db_delete d k = (d', r) → db_view d' = if is_ok r then delete k (db_view d) else db_view d;
  db_flush_view d d' r : db_flush d = (d', r) → db_view d' = db_view d;
  db_scan_view d l : db_scan d = Ok l → l ≡ₚ map_to_list (db_view d);
}.

Section slate.
Context {D : Type} `{SlateDb D}.

Definition slate_write (d : D) (w : write) : D * outcome string unit :=
  match w.2 with Some v => db_put d w.1 v | None => db_delete d w.1 end.

(** [SlateKvStore::apply]: one write at a time, then a flush; the first error
    returns. *)
Fixpoint slate_apply (d : D) (ws : list write) : D * outcome string unit :=
  match ws with
  | [] => db_flush d
  | w :: ws =>
    match slate_write d w with
    | (d, Ok _) => slate_apply d ws
    | (d, r) => (d, r)
    end
  end.

#[export] Instance slate_kv : KvStore D := {
  kv_get := db_get;
  kv_apply := slate_apply;
  kv_scan := db_scan;
}.
End slate.

(** ** The SlateDB store keeps the contract *)
Section slate_laws.
Context {D : Type} `{SlateLaws D}.

Lemma slate_write_view d w d' r :
  slate_write d w = (d', r) →
  db_view d' = if is_ok r then apply_write (db_view d) w else db_view d.
Proof.
  unfold slate_write, apply_write. destruct w as [k [v|]]; simpl;
    [apply db_put_view|apply db_delete_view].
Qed.

Lemma slate_apply_prefix d ws d' r :
  slate_apply d ws = (d', r) →
  ∃ n, n ≤ length ws ∧ db_view d' = apply_writes (db_view d) (take n ws)
       ∧ (r = Ok () → n = length ws).
Proof.
  revert d. induction ws as [|w ws IH]; intros d E; simpl in E.
  - apply db_flush_view in E. by exists 0.
  - destruct (slate_write d w) as [d1 [[]|e|p]] eqn:E1; pose proof (slate_write_view _ _ _ _ E1) as V.
    + destruct (IH d1 E) as (n & Hn & Hv & Hr). exists (S n). simpl. split; [lia|]. split.
      * rewrite Hv, V. done.
      * intros Hok. by rewrite Hr.
    + injection E as <- <-. exists 0. split; [lia|]. by split.
    + injection E as <- <-. exists 0. split; [lia|]. by split.
Qed.

#[export] Program Instance slate_kv_laws : KvLaws D := {
  kv_view := db_view;
}.
Next Obligation. intros d k v. apply db_get_view. Qed.
Next Obligation.
  intros d ws d' E. destruct (slate_apply_prefix d ws d' (Ok ()) E) as (n & _ & -> & Hn).
  rewrite Hn by done. by rewrite firstn_all.
Qed.
Next Obligation.
  intros d ws d' r k E Hk. destruct (slate_apply_prefix d ws d' r E) as (n & _ & -> & _).
  apply apply_writes_other. intros Hin. apply Hk. rewrite fmap_take in Hin.
  by eapply elem_of_take in Hin as (? & ? & _); apply list_elem_of_lookup_2 in H1.
Qed.
Next Obligation. intros d l. apply db_scan_view. Qed.

#[export] Instance slate_single_write : KvSingleWrite D.
Proof.
  intros d w d' r E. destruct (slate_apply_prefix d [w] d' r E) as ([|[|n]] & Hn & Hv & Hr); cbn in Hn, Hv, Hr; [right|by left|lia].
  split; [|done]. intros ->. by discriminate Hr.
Qed.
End slate_laws.

(** * Three databases for witnesses *)

(** An in-memory map that never fails. *)
#[export] Instance mem_db : SlateDb (gmap bytes bytes) := {
  db_get m k := Ok (m !! k);
  db_put m k v := (<[k := v]> m, Ok ());
  db_delete m k := (delete k m, Ok ());
  db_flush m := (m, Ok ());
  db_scan m := Ok (map_to_list m);
}.

#[export] Program Instance mem_db_laws : SlateLaws (gmap bytes bytes) := {
  db_view m := m;
}.
Next Obligation. intros m k v [= <-]. done. Qed.
Next Obligation. intros m k v d' r [= <- <-]. done. Qed.
Next Obligation. intros m k d' r [= <- <-]. done. Qed.
Next Obligation. intros m d' r [= <- <-]. done. Qed.
Next Obligation. intros m l [= <-]. done. Qed.

(** The same map with a number of writes left before the device fails. *)
Record faulty_db : Type := mkFaulty { budget : nat; contents : gmap bytes bytes }.

#[export] Instance faulty_slate : SlateDb faulty_db := {
  db_get d k := Ok (contents d !! k);
  db_put d k v :=
    match budget d with
    | O => (d, Err "object store unavailable")
    | S n => (mkFaulty n (<[k := v]> (contents d)), Ok ())
    end;
  db_delete d k :=
    match budget d with
    | O => (d, Err "object store unavailable")
    | S n => (mkFaulty n (delete k (contents d)), Ok ())
    end;
  db_flush d := (d, Ok ());
  db_scan d := Ok (map_to_list (contents d));
}.

#[export] Program Instance faulty_laws : SlateLaws faulty_db := {
  db_view := contents;
}.
Next Obligation. intros d k v [= <-]. done. Qed.
Next Obligation. intros d k v d' r. simpl. destruct (budget d); by intros [= <- <-]. Qed.
Next Obligation. intros d k d' r. simpl. destruct (budget d); by intros [= <- <-]. Qed.
Next Obligation. intros d d' r [= <- <-]. done. Qed.
Next Obligation. intros d l [= <-]. done. Qed.

(** The same map with the results of the flushes to come, which are beyond the database:
    a put stays visible when the flush behind it fails. *)
Record flaky_db : Type := mkFlaky { flushes : list bool; shown : gmap bytes bytes }.

#[export] Instance flaky_slate : SlateDb flaky_db := {
  db_get d k := Ok (shown d !! k);
  db_put d k v := (mkFlaky (flushes d) (<[k := v]> (shown d)), Ok ());
  db_delete d k := (mkFlaky (flushes d) (delete k (shown d)), Ok ());
  db_flush d := (mkFlaky (tail (flushes d)) (shown d), if default true (head (flushes d)) then Ok () else Err "object store unavailable");
  db_scan d := Ok (map_to_list (shown d));
}.

#[export] Program Instance flaky_laws : SlateLaws flaky_db := {
  db_view := shown;
}.
Next Obligation. intros d k v [= <-]. done. Qed.
Next Obligation. intros d k v d' r [= <- <-]. done. Qed.
Next Obligation. intros d k d' r [= <- <-]. done. Qed.
Next Obligation. intros d d' r [= <- <-]. done. Qed.
Next Obligation. intros d l [= <-]. done. Qed.

(** * Composite keys

    The loop of [build_state_key] and of [TimerKey::storage_key]: every component
    behind its length as a big-endian [u32]. *)
Definition composite_key (parts : list bytes) : bytes :=
  concat (map (λ part, put_u32 (to_unsigned 32 (Z.of_nat (length part))) ++ part) parts).

Definition short (part : bytes) : Prop := is_u 32 (Z.of_nat (length part)).

Lemma length_prefix_inj p q r s :
  short p → short q →
  (put_u32 (to_unsigned 32 (Z.of_nat (length p))) ++ p) ++ r
    = (put_u32 (to_unsigned 32 (Z.of_nat (length q))) ++ q) ++ s →
  p = q ∧ r = s.
Proof.
  unfold short. intros Hp Hq E. rewrite !to_unsigned_id in E by done. rewrite <- !app_assoc in E.
  apply app_inj_1 in E as [E1 E2]; [|by unfold put_u32; rewrite !be_bytes_length].
  assert (El : length p = length q).
  { unfold put_u32 in E1. apply (f_equal be_value) in E1. rewrite !be_value_be_bytes in E1.
    unfold is_u in *. rewrite !Z.mod_small in E1 by (simpl; lia). lia. }
  by apply app_inj_1 in E2.
Qed.

(** Distinct component lists give distinct keys. *)
Lemma composite_key_inj ps qs :
  length ps = length qs → Forall short ps → Forall short qs →
  composite_key ps = composite_key qs → ps = qs.
Proof.
  revert qs. induction ps as [|p ps IH]; intros [|q qs] Hl Hp Hq E; try done.
  inversion_clear Hp as [|? ? Hp1 Hp2]. inversion_clear Hq as [|? ? Hq1 Hq2].
  unfold composite_key in E. cbn [map concat] in E.
  apply length_prefix_inj in E as [-> E]; [|done..]. f_equal.
  apply IH; [|done..|done]. simpl in Hl. lia.
Qed.
