(* ===== verification/UserState.v ===== *)
(** Durable user state (engine/state.rs): the write-back cache over the key/value
    store, bag state and multimap state. *)
From S2P Require Import Prelude Bytes Varint Windows Coders Kv.

(** * Addresses *)

(** [build_state_key]. *)
Definition build_state_key (transform_id user_state_id : string) (window key : bytes) : bytes :=
  composite_key [as_bytes transform_id; as_bytes user_state_id; window; key].

Inductive UserStateKind : Type := Bag | MultimapKeys | MultimapEntries | MultimapValues.

Record UserStateAddress : Type := mkAddress {
  addr_kind : UserStateKind;
  addr_transform_id : string;
  addr_user_state_id : string;
  addr_window : bytes;
  addr_key : bytes;
  addr_map_key : bytes;
}.

Definition address_key (a : UserStateAddress) : bytes :=
  build_state_key (addr_transform_id a) (addr_user_state_id a) (addr_window a) (addr_key a).

(** * The backend *)

Definition STATE_FLUSH_THRESHOLD : Z := 512.
Definition STATE_CACHE_MAX_ENTRIES : Z := 100000.
Definition STATE_CACHE_EVICT_TARGET : Z := STATE_CACHE_MAX_ENTRIES / 4 * 3.

Record StateCache : Type := mkCache {
  values : gmap bytes (option bytes);
  dirty : gset bytes;
}.

Record StateBackend (S : Type) : Type := mkBackend {
  store : S;
  cache : StateCache;
}.
Arguments mkBackend {S} _ _.
Arguments store {S} _.
Arguments cache {S} _.

Section backend.
Context {S : Type} `{KvStore S}.

(** The order in which a hash map yields the keys it holds is not specified. *)
Context (iteration_order : gset bytes → list bytes).

(** [evict_clean_to_fit]: [retain] walks the cells in iteration order and drops
    clean ones while there is an excess. *)
Definition evict_clean_to_fit (target : Z) (c : StateCache) : StateCache :=
  if (Z.of_nat (size (values c)) <=? target)%Z then c
  else
    let '(kept, _) :=
      foldl (λ '(vs, excess) key,
        if (0 <? excess)%Z && bool_decide (key ∉ dirty c)
        then (delete key vs, excess - 1)%Z else (vs, excess))
        (values c, Z.of_nat (size (values c)) - target)%Z (iteration_order (dom (values c))) in
    mkCache kept (dirty c).

Definition evict_if_needed (c : StateCache) : StateCache :=
  if (STATE_CACHE_MAX_ENTRIES <? Z.of_nat (size (values c)))%Z
  then evict_clean_to_fit STATE_CACHE_EVICT_TARGET c else c.

Definition with_store (s : S) : StateBackend S := mkBackend s (mkCache ∅ ∅).

(** [get] and [get_locked]: from the cache when the cell is there, otherwise from
    the store, caching what was read. *)
Definition backend_get (state_key : bytes) : st (StateBackend S) (option bytes) := λ b,
  match values (cache b) !! state_key with
  | Some value => (b, Ok value)
  | None =>
    match kv_get (store b) state_key with
    | Ok value =>
        (mkBackend (store b)
           (evict_if_needed (mkCache (<[state_key := value]> (values (cache b))) (dirty (cache b)))),
         Ok value)
    | Err e => (b, Err e)
    | Panic w => (b, Panic w)
    end
  end.

(** [flush_locked]: every dirty cell in one batch; the dirty set is emptied only
    when the batch was committed. *)
Definition flush : st (StateBackend S) unit := λ b,
  let c := cache b in
  if decide (dirty c = ∅) then (b, Ok ())
  else
    let writes := (λ key, (key, default None (values c !! key))) <$> iteration_order (dirty c) in
    match kv_apply (store b) writes with
    | (s', Ok _) => (mkBackend s' (mkCache (values c) ∅), Ok ())
    | (s', r) => (mkBackend s' c, r)
    end.

Definition maybe_flush : st (StateBackend S) unit := λ b,
  if (STATE_FLUSH_THRESHOLD <=? Z.of_nat (size (dirty (cache b))))%Z then flush b else (b, Ok ()).

(** The common tail of [put], [delete] and [read_modify_write]. *)
Definition store_cell (state_key : bytes) (value : option bytes) : st (StateBackend S) unit := λ b,
  let c := mkCache (<[state_key := value]> (values (cache b))) (dirty (cache b) ∪ {[state_key]}) in
  maybe_flush (mkBackend (store b) (evict_if_needed c)).

Definition put (state_key value : bytes) : st (StateBackend S) unit := store_cell state_key (Some value).
Definition delete_cell (state_key : bytes) : st (StateBackend S) unit := store_cell state_key None.

Definition read_modify_write (state_key : bytes) (update : bytes → bytes) : st (StateBackend S) unit :=
  current ← backend_get state_key;
  store_cell state_key (Some (update (default [] current))).

(** * Bag state *)

Definition bag_get (state_key : bytes) : st (StateBackend S) bytes :=
  v ← backend_get state_key; mret (default [] v).
Definition bag_append (state_key value : bytes) : st (StateBackend S) unit :=
  read_modify_write state_key (λ current, current ++ value).
Definition bag_clear (state_key : bytes) : st (StateBackend S) unit := delete_cell state_key.
End backend.

(** * Histories of the backend *)

Inductive state_op : Type :=
| OpGet (key : bytes)
| OpPut (key value : bytes)
| OpDelete (key : bytes)
| OpModify (key : bytes) (update : bytes → bytes)
| OpFlush.

Section histories.
Context {S : Type} `{KvStore S} (iteration_order : gset bytes → list bytes).

(** One call; the value it returns, if it is a read. *)
Definition backend_step (o : state_op) : st (StateBackend S) (option bytes) :=
  match o with
  | OpGet key => backend_get iteration_order key
  | OpPut key value => _ ← put iteration_order key value; mret None
  | OpDelete key => _ ← delete_cell iteration_order key; mret None
  | OpModify key update => _ ← read_modify_write iteration_order key update; mret None
  | OpFlush => _ ← flush iteration_order; mret None
  end.

Fixpoint backend_run (os : list state_op) : st (StateBackend S) (list (option bytes)) :=
  match os with
  | [] => mret []
  | o :: os => r ← backend_step o; rs ← backend_run os; mret (r :: rs)
  end.
End histories.

(** The same calls on a finite map. *)
Definition map_step (m : gmap bytes bytes) (o : state_op) : gmap bytes bytes :=
  match o with
  | OpGet _ | OpFlush => m
  | OpPut key value => <[key := value]> m
  | OpDelete key => delete key m
  | OpModify key update => <[key := update (default [] (m !! key))]> m
  end.

Definition map_result (m : gmap bytes bytes) (o : state_op) : option bytes :=
  match o with OpGet key => m !! key | _ => None end.

Fixpoint map_run (m : gmap bytes bytes) (os : list state_op) : list (option bytes) :=
  match os with [] => [] | o :: os => map_result m o :: map_run (map_step m o) os end.

(** * The backend refines a finite map *)
Section refinement.
Context {S : Type} `{KvLaws S}.
Context (iteration_order : gset bytes → list bytes)
  (Horder : ∀ X, iteration_order X ≡ₚ elements X).

(** What a client of the backend sees: the cached value, or the store's. *)
Definition visible (b : StateBackend S) (k : bytes) : option bytes :=
  match values (cache b) !! k with Some v => v | None => kv_view (store b) !! k end.

(** Clean cells agree with the store and dirty cells are cached. *)
Definition coherent (b : StateBackend S) : Prop :=
  dirty (cache b) ⊆ dom (values (cache b))
  ∧ ∀ k v, values (cache b) !! k = Some v → k ∉ dirty (cache b) → v = kv_view (store b) !! k.

Definition represents (b : StateBackend S) (m : gmap bytes bytes) : Prop :=
  coherent b ∧ ∀ k, visible b k = m !! k.

Lemma with_store_represents s : represents (with_store s) (kv_view s).
Proof.
  split; [split; simpl|]; [set_solver|intros k v E; by rewrite lookup_empty in E|].
  intros k. unfold visible. simpl. by rewrite lookup_empty.
Qed.

(** ** Eviction *)

Lemma evict_fold_spec (d : gset bytes) (l : list bytes) (vs : gmap bytes (option bytes)) (n : Z) (k : bytes) :
  let vs' := (foldl (λ '(vs, excess) key,
    if (0 <? excess)%Z && bool_decide (key ∉ d)
    then (delete key vs, excess - 1)%Z else (vs, excess)) (vs, n) l).1 in
  vs' !! k = vs !! k ∨ vs' !! k = None ∧ k ∉ d.
Proof.
  revert vs n. induction l as [|x l IH]; intros vs n; simpl; [by left|].
  destruct ((0 <? n)%Z && bool_decide (x ∉ d)) eqn:E; [|apply IH].
  apply andb_true_iff in E as [_ Hx]. apply bool_decide_eq_true in Hx.
  destruct (IH (delete x vs) (n - 1)%Z) as [E|E]; [|by right]. rewrite E.
  destruct (decide (k = x)) as [->|Hne]; [right|left].
  - by rewrite lookup_delete_eq.
  - by rewrite lookup_delete_ne.
Qed.

Lemma evict_spec c k :
  dirty (evict_if_needed iteration_order c) = dirty c
  ∧ (values (evict_if_needed iteration_order c) !! k = values c !! k
     ∨ values (evict_if_needed iteration_order c) !! k = None ∧ k ∉ dirty c).
Proof.
  unfold evict_if_needed, evict_clean_to_fit.
  destruct (_ <? _)%Z; [|by split; [|left]]. destruct (_ <=? _)%Z; [by split; [|left]|].
  pose proof (evict_fold_spec (dirty c) (iteration_order (dom (values c))) (values c)
    (Z.of_nat (size (values c)) - STATE_CACHE_EVICT_TARGET) k) as Hf.
  destruct (foldl _ _ _) as [kept n]. by split.
Qed.

Lemma evict_represents s c m :
  represents (mkBackend s c) m → represents (mkBackend s (evict_if_needed iteration_order c)) m.
Proof.
  intros [[Hd Hc] Hv]. split; [split|]; simpl in *.
  - rewrite (proj1 (evict_spec c [])). intros k Hk. apply elem_of_dom.
    destruct (evict_spec c k) as [_ [->|[_ Hn]]]; [|done]. apply elem_of_dom. by apply Hd.
  - rewrite (proj1 (evict_spec c [])). intros k v E Hk.
    destruct (evict_spec c k) as [_ [E'|[E' _]]]; [|congruence]. apply Hc; [congruence|done].
  - intros k. rewrite <- Hv. unfold visible. simpl.
    destruct (evict_spec c k) as [_ [->|[-> Hn]]]; [done|].
    destruct (values c !! k) as [v|] eqn:E; [|done]. symmetry. by apply Hc.
Qed.

(** ** Operations *)

Lemma backend_get_refines b m k b' r :
  represents b m → backend_get iteration_order k b = (b', r) →
  represents b' m ∧ ∀ v, r = Ok v → v = m !! k.
Proof.
  intros Hr E. pose proof Hr as [[Hd Hc] Hv]. unfold backend_get in E.
  destruct (values (cache b) !! k) as [v|] eqn:Ek.
  { injection E as <- <-. split; [done|]. intros v' [= ->]. rewrite <- Hv. unfold visible. by rewrite Ek. }
  destruct (kv_get (store b) k) as [v|e|w] eqn:Eg; injection E as <- <-; [|done..].
  apply kv_get_view in Eg. split.
  - apply evict_represents. split; [split|]; simpl.
    + rewrite dom_insert. set_solver.
    + intros k' v' E Hk'. destruct (decide (k' = k)) as [->|Hne].
      * rewrite lookup_insert_eq in E. congruence.
      * rewrite lookup_insert_ne in E by done. by apply Hc.
    + intros k'. rewrite <- Hv. unfold visible. simpl. destruct (decide (k' = k)) as [->|Hne].
      * by rewrite lookup_insert_eq, Ek.
      * by rewrite lookup_insert_ne.
  - intros v' [= <-]. rewrite <- Hv. unfold visible. by rewrite Ek.
Qed.

Lemma elem_of_order X k : k ∈ iteration_order X ↔ k ∈ X.
Proof. rewrite Horder. apply elem_of_elements. Qed.

(** A flush changes nothing a client sees, whether the batch is committed or
    fails half-way; when it succeeds the store holds everything. *)
Lemma flush_refines b m b' r :
  represents b m → flush iteration_order b = (b', r) →
  represents b' m ∧ (r = Ok () → kv_view (store b') = m ∧ dirty (cache b') = ∅).
Proof.
  intros Hr E. pose proof Hr as [[Hd Hc] Hv]. unfold flush in E. case_decide as Hdirty.
  { injection E as <- <-. split; [done|]. intros _. split; [|done]. apply map_eq. intros k.
    rewrite <- Hv. unfold visible. destruct (values (cache b) !! k) as [v|] eqn:Ek; [|done].
    symmetry. apply Hc; [done|]. rewrite Hdirty. set_solver. }
  set (ws := (λ key, (key, default None (values (cache b) !! key))) <$> iteration_order (dirty (cache b))) in *.
  assert (Hkeys : ∀ k, k ∉ dirty (cache b) → k ∉ ws.*1).
  { intros k Hk. unfold ws. rewrite <- list_fmap_compose. unfold compose. simpl.
    rewrite list_fmap_id, elem_of_order. done. }
  destruct (kv_apply (store b) ws) as [s' r'] eqn:Ea.
  assert (Hframe : ∀ k, k ∉ dirty (cache b) → kv_view s' !! k = kv_view (store b) !! k).
  { intros k Hk. by apply (kv_apply_frame _ _ _ _ _ Ea), Hkeys. }
  assert (Hrep : represents (mkBackend s' (cache b)) m).
  { split; [split; [done|]|]; simpl.
    - intros k v Ek Hk. rewrite Hframe by done. by apply Hc.
    - intros k. rewrite <- Hv. unfold visible. simpl.
      destruct (values (cache b) !! k) as [v|] eqn:Ek; [done|]. apply Hframe.
      intros Hk. apply Hd, elem_of_dom in Hk as [v Hk]. congruence. }
  destruct r' as [[]|e|w]; injection E as <- <-; [|done..].
  assert (Hview : kv_view s' = m).
  { apply map_eq. intros k. rewrite (kv_apply_ok _ _ _ Ea). unfold ws. rewrite apply_writes_keys.
    rewrite <- Hv. unfold visible. case_decide as Hk; rewrite elem_of_order in Hk.
    - apply Hd, elem_of_dom in Hk as [v ->]. done.
    - destruct (values (cache b) !! k) as [v|] eqn:Ek; [|done]. symmetry. by apply Hc. }
  split; [|done]. destruct Hrep as [[_ Hc'] Hv']. split; [split; [set_solver|]|].
  - simpl. intros k v Ek _. rewrite Hview, <- Hv'. unfold visible. simpl. by rewrite Ek.
  - intros k. rewrite <- Hv'. done.
Qed.

Definition set_cell (m : gmap bytes bytes) (k : bytes) (v : option bytes) : gmap bytes bytes :=
  match v with Some x => <[k := x]> m | None => delete k m end.

Lemma store_cell_refines b m k v b' r :
  represents b m → store_cell iteration_order k v b = (b', r) → represents b' (set_cell m k v).
Proof.
  intros [[Hd Hc] Hv] E. unfold store_cell in E.
  set (c := mkCache (<[k := v]> (values (cache b))) (dirty (cache b) ∪ {[k]})) in *.
  assert (Hrep : represents (mkBackend (store b) (evict_if_needed iteration_order c)) (set_cell m k v)).
  { apply evict_represents. split; [split|]; simpl.
    - rewrite dom_insert. set_solver.
    - intros k' v' E' Hk'. rewrite lookup_insert_ne in E' by set_solver. apply Hc; [done|set_solver].
    - intros k'. unfold visible, set_cell. simpl. destruct (decide (k' = k)) as [->|Hne].
      + rewrite lookup_insert_eq. destruct v; [by rewrite lookup_insert_eq|by rewrite lookup_delete_eq].
      + rewrite lookup_insert_ne by done. pose proof (Hv k') as Hk. unfold visible in Hk. rewrite Hk.
        destruct v; [by rewrite lookup_insert_ne|by rewrite lookup_delete_ne]. }
  unfold maybe_flush in E. destruct (_ <=? _)%Z.
  - by apply (flush_refines _ _ _ _ Hrep E).
  - by injection E as <- <-.
Qed.

(** The update of a read-modify-write happens exactly when its read succeeds. *)
Lemma read_modify_write_refines b m k f b' r :
  represents b m → read_modify_write iteration_order k f b = (b', r) →
  represents b' (<[k := f (default [] (m !! k))]> m) ∨ is_ok r = false ∧ represents b' m.
Proof.
  intros Hr E. unfold read_modify_write, mbind, st_bind in E.
  destruct (backend_get iteration_order k b) as [b1 r1] eqn:Eg.
  destruct (backend_get_refines _ _ _ _ _ Hr Eg) as [Hr1 Hcur].
  destruct r1 as [cur|e|w]; [|injection E as <- <-; by right..]. left.
  rewrite (Hcur cur eq_refl) in E. by apply (store_cell_refines _ _ _ _ _ _ Hr1 E).
Qed.

(** Whatever a call returns, it has had its effect or none. *)
Lemma backend_step_refines o b m b' r :
  represents b m → backend_step iteration_order o b = (b', r) →
  (represents b' (map_step m o) ∧ ∀ v, r = Ok v → v = map_result m o)
  ∨ is_ok r = false ∧ represents b' m.
Proof.
  intros Hr E. destruct o as [k|k v|k|k f|]; cbn [backend_step map_step map_result] in *.
  { left. by apply (backend_get_refines _ _ _ _ _ Hr E). }
  all: unfold mbind, st_bind, put, delete_cell in E.
  - destruct (store_cell iteration_order k (Some v) b) as [b1 r1] eqn:E1.
    apply (store_cell_refines _ _ _ _ _ _ Hr) in E1. left.
    destruct r1; injection E as <- <-; (split; [done|by intros ? [= <-] || done]).
  - destruct (store_cell iteration_order k None b) as [b1 r1] eqn:E1.
    apply (store_cell_refines _ _ _ _ _ _ Hr) in E1. left.
    destruct r1; injection E as <- <-; (split; [done|by intros ? [= <-] || done]).
  - destruct (read_modify_write iteration_order k f b) as [b1 r1] eqn:E1.
    apply (read_modify_write_refines _ _ _ _ _ _ Hr) in E1.
    destruct r1, E1 as [Hrep|[Hf Hrep]]; injection E as <- <-; try done;
      try (right; by split); left; (split; [done|by intros ? [= <-] || done]).
  - destruct (flush iteration_order b) as [b1 r1] eqn:E1.
    apply (flush_refines _ _ _ _ Hr) in E1 as [Hrep _]. left.
    destruct r1; injection E as <- <-; (split; [done|by intros ? [= <-] || done]).
Qed.

Lemma backend_run_refines os b m b' rs :
  represents b m → backend_run iteration_order os b = (b', Ok rs) →
  represents b' (foldl map_step m os) ∧ rs = map_run m os.
Proof.
  revert b m rs. induction os as [|o os IH]; intros b m rs Hr E.
  { by injection E as <- <-. }
  cbn [backend_run] in E. unfold mbind, st_bind in E.
  destruct (backend_step iteration_order o b) as [b1 [v|e|w]] eqn:E1; try done.
  destruct (backend_run iteration_order os b1) as [b2 [vs|e|w]] eqn:E2; try done.
  injection E as <- <-.
  destruct (backend_step_refines _ _ _ _ _ Hr E1) as [[Hr1 Hv]|[Hf _]]; [|done].
  destruct (IH _ _ _ Hr1 E2) as [Hr2 ->]. split; [done|]. cbn [map_run]. by rewrite (Hv v eq_refl).
Qed.

(** A backend restarted on a store sees the store. *)
Lemma flush_restart b m b' :
  represents b m → flush iteration_order b = (b', Ok ()) → represents (with_store (store b')) m.
Proof.
  intros Hr E. apply (flush_refines _ _ _ _ Hr) in E as [_ Hok]. destruct (Hok eq_refl) as [<- _].
  apply with_store_represents.
Qed.
End refinement.
