(* ===== verification/Multimap.v ===== *)
(** Beam map state (the [multimap] module of engine/state.rs): the entries of one
    durable cell, their encoding, the three wire views over it and the dispatch
    of a user-state request to its kind. *)
From S2P Require Import Prelude Bytes Varint Windows Coders Kv UserState.

(** * The cell *)

Record Entry : Type := mkEntry {
  entry_key : bytes;
  entry_values : list bytes;
}.

#[export] Instance Entry_eq_dec : EqDecision Entry.
Proof. solve_decision. Defined.

(** [multimap::put_u32] ([value as u32]) and [put_bytes]. *)
Definition put_count (n : nat) : bytes := put_u32 (to_unsigned 32 (Z.of_nat n)).
Definition put_bytes (value : bytes) : bytes := put_count (length value) ++ value.

Definition encode_entry (entry : Entry) : bytes :=
  put_bytes (entry_key entry) ++ put_count (length (entry_values entry))
    ++ concat (put_bytes <$> entry_values entry).

Definition encode_entries (entries : list Entry) : bytes :=
  put_count (length entries) ++ concat (encode_entry <$> entries).

Definition read_u32 : reader string nat :=
  n ← remaining;
  if (n <? 4)%Z then fail "multimap state cell has a truncated length"
  else v ← get_u32; mret (Z.to_nat v).

Definition read_bytes : reader string bytes :=
  len ← read_u32;
  n ← remaining;
  if (n <? Z.of_nat len)%Z then fail "multimap state cell has a truncated value"
  else copy_to_slice (Z.of_nat len).

Definition decode_entry : reader string Entry :=
  key ← read_bytes;
  value_count ← read_u32;
  values ← read_n value_count read_bytes;
  mret (mkEntry key values).

Definition decode_entries (data : bytes) : outcome string (list Entry) :=
  match (count ← read_u32; read_n count decode_entry) data with
  | Ok (entries, []) => Ok entries
  | Ok (_, _ :: _) => Err "multimap state cell has trailing bytes"
  | Err e => Err e
  | Panic w => Panic w
  end.

(** * Operations on the entries *)

(** [append_keys]: the loop over the new keys. *)
Definition add_key (entries : list Entry) (key : bytes) : list Entry :=
  if existsb (λ entry, bool_decide (entry_key entry = key)) entries then entries
  else entries ++ [mkEntry key []].
Definition add_keys (entries : list Entry) (keys : list bytes) : list Entry :=
  foldl add_key entries keys.

(** [append_values]: extend the first entry of the key, or push a new one. *)
Fixpoint add_values (entries : list Entry) (map_key : bytes) (vs : list bytes) : list Entry :=
  match entries with
  | [] => [mkEntry map_key vs]
  | entry :: entries =>
      if decide (entry_key entry = map_key)
      then mkEntry (entry_key entry) (entry_values entry ++ vs) :: entries
      else entry :: add_values entries map_key vs
  end.

(** [clear_values]: [retain]. *)
Definition remove_key (entries : list Entry) (map_key : bytes) : list Entry :=
  filter (λ entry, entry_key entry ≠ map_key) entries.

(** The [find] of [values]. *)
Fixpoint find_entry (entries : list Entry) (map_key : bytes) : option Entry :=
  match entries with
  | [] => None
  | entry :: entries =>
      if decide (entry_key entry = map_key) then Some entry else find_entry entries map_key
  end.

(** The body of the loop of [entries]: [i32::try_from] of the count. *)
Definition entry_view (entry : Entry) : outcome string bytes :=
  if (Z.of_nat (length (entry_values entry)) <? 2 ^ 31)%Z then
    Ok (entry_key entry ++ put_i32 (Z.of_nat (length (entry_values entry)))
        ++ concat (entry_values entry))
  else Err "multimap state contains too many values for one map key".

(** * Operations on the store *)
Section operations.
Context {S : Type} `{KvStore S} (iteration_order : gset bytes → list bytes).

Definition read (state_key : bytes) : st (StateBackend S) (list Entry) :=
  cell ← backend_get iteration_order state_key;
  match cell with
  | Some data => st_lift (decode_entries data)
  | None => mret []
  end.

Definition write (state_key : bytes) (entries : list Entry) : st (StateBackend S) unit :=
  put iteration_order state_key (encode_entries entries).

Definition multimap_keys (state_key : bytes) : st (StateBackend S) bytes :=
  entries ← read state_key; mret (concat (entry_key <$> entries)).

Definition multimap_values (state_key map_key : bytes) : st (StateBackend S) bytes :=
  entries ← read state_key;
  mret (match find_entry entries map_key with
        | Some entry => concat (entry_values entry)
        | None => []
        end).

Definition multimap_entries (state_key : bytes) : st (StateBackend S) bytes :=
  entries ← read state_key;
  views ← st_lift (traverse entry_view entries);
  mret (concat views).

Definition append_keys (state_key : bytes) (keys : list bytes) : st (StateBackend S) unit :=
  entries ← read state_key; write state_key (add_keys entries keys).

Definition append_values (state_key map_key : bytes) (vs : list bytes) : st (StateBackend S) unit :=
  entries ← read state_key; write state_key (add_values entries map_key vs).

Definition clear_values (state_key map_key : bytes) : st (StateBackend S) unit :=
  entries ← read state_key; write state_key (remove_key entries map_key).

Definition multimap_clear (state_key : bytes) : st (StateBackend S) unit :=
  delete_cell iteration_order state_key.

(** [UserStateStore]: dispatch on the kind of the address. *)
Definition user_state_get (a : UserStateAddress) : st (StateBackend S) bytes :=
  match addr_kind a with
  | Bag => bag_get iteration_order (address_key a)
  | MultimapKeys => multimap_keys (address_key a)
  | MultimapEntries => multimap_entries (address_key a)
  | MultimapValues => multimap_values (address_key a) (addr_map_key a)
  end.

Definition user_state_append (a : UserStateAddress) (data : bytes) : st (StateBackend S) unit :=
  match addr_kind a with
  | Bag => bag_append iteration_order (address_key a) data
  | MultimapKeys => st_lift (Err "multimap keys append requires parsed map keys")
  | MultimapEntries => st_lift (Err "append is not supported for multimap entries state")
  | MultimapValues => st_lift (Err "multimap value append requires parsed map values")
  end.

Definition user_state_clear (a : UserStateAddress) : st (StateBackend S) unit :=
  match addr_kind a with
  | Bag => bag_clear iteration_order (address_key a)
  | MultimapKeys | MultimapEntries => multimap_clear (address_key a)
  | MultimapValues => clear_values (address_key a) (addr_map_key a)
  end.

Definition append_multimap_keys (a : UserStateAddress) (keys : list bytes)
    : st (StateBackend S) unit := append_keys (address_key a) keys.
Definition append_multimap_values (a : UserStateAddress) (vs : list bytes)
    : st (StateBackend S) unit := append_values (address_key a) (addr_map_key a) vs.
End operations.

(** * Splitting a stream of encoded values *)
Section split.
Context `{P : Profile} (display : CodersError → string).

(** Every round consumes a byte or fails, so a round per byte is enough. *)
Fixpoint split_loop (coder : StandardBeamCoders) (fuel : nat) (data : bytes)
    : outcome string (list bytes) :=
  match data, fuel with
  | [], _ => Ok []
  | _ :: _, O => Panic "split loop bound"
  | _ :: _, Datatypes.S fuel =>
    match decode coder data with
    | Ok (_, rest) =>
        if (length data <=? length rest)%nat
        then Err "multimap state coder consumed no bytes"
        else vs ← split_loop coder fuel rest;
             Ok (take (length data - length rest) data :: vs)
    | Err e => Err ("failed to decode multimap state value: " +:+ display e)
    | Panic w => Panic w
    end
  end.

Definition split_encoded_values (coder : StandardBeamCoders) (data : bytes)
    : outcome string (list bytes) := split_loop coder (length data) data.

Lemma split_loop_fuel coder n m data :
  (length data ≤ n)%nat → (length data ≤ m)%nat → split_loop coder n data = split_loop coder m data.
Proof.
  revert m data. induction n as [|n IH]; intros [|m] [|b data] Hn Hm; simpl in Hn, Hm; try lia; try done.
  cbn [split_loop]. destruct (decode coder (b :: data)) as [[r rest]| |]; try done.
  destruct (Nat.leb_spec (length (b :: data)) (length rest)) as [Hl|Hl]; [done|].
  simpl in Hl. by rewrite (IH m rest) by lia.
Qed.

(** What was split concatenates back to the stream when the coder consumes a
    prefix of its input. *)
Lemma split_values_typed coder rs encs :
  Forall (typed coder) rs → Forall2 (λ r bs, encode coder r = Ok bs ∧ bs ≠ []) rs encs →
  split_encoded_values coder (concat encs) = Ok encs.
Proof.
  unfold split_encoded_values. intros Ht He. induction He as [|r bs rs encs [Hb Hne] He IH]; [done|].
  inversion_clear Ht as [|? ? Hr Hrs]. specialize (IH Hrs).
  destruct (typed_carries coder r Hr) as (bs' & E & Hread). rewrite Hb in E. injection E as <-.
  destruct bs as [|b bs]; [done|]. cbn [concat app length split_loop].
  pose proof (Hread (concat encs)) as Hdec. unfold decode. cbn [app] in Hdec. rewrite Hdec.
  destruct (Nat.leb_spec (Datatypes.S (length (bs ++ concat encs))) (length (concat encs))) as [Hl|Hl].
  { rewrite length_app in Hl. lia. }
  rewrite (split_loop_fuel _ _ (length (concat encs))) by (rewrite ?length_app; lia).
  rewrite IH. cbn [mbind outcome_bind]. do 2 f_equal. rewrite length_app.
  replace (Datatypes.S (length bs + length (concat encs)) - length (concat encs))%nat
    with (length (b :: bs)) by (simpl; lia).
  apply (take_app_length (b :: bs) (concat encs)).
Qed.
End split.

(** * The encoding of a cell round-trips *)

Definition wf_entry (entry : Entry) : Prop :=
  short (entry_key entry) ∧ is_u 32 (Z.of_nat (length (entry_values entry)))
  ∧ Forall short (entry_values entry).

(** Every length fits the [u32] that is written for it. *)
Definition wf_entries (entries : list Entry) : Prop :=
  is_u 32 (Z.of_nat (length entries)) ∧ Forall wf_entry entries.

Lemma reads_count n : is_u 32 (Z.of_nat n) → reads read_u32 (put_count n) n.
Proof.
  intros Hn. apply reads_remaining. intros k rest Hk. unfold put_count, put_u32 in *.
  rewrite be_bytes_length in Hk. destruct (Z.ltb_spec k 4); [simpl in Hk; lia|].
  unfold mbind, reader_bind, get_u32. rewrite reads_be, to_unsigned_id by done.
  rewrite Z.mod_small by (unfold is_u in Hn; simpl; lia). cbn. by rewrite Nat2Z.id.
Qed.

Lemma reads_put_bytes bs : short bs → reads read_bytes (put_bytes bs) bs.
Proof.
  intros Hs. eapply reads_bind; [by apply reads_count|].
  apply reads_remaining. intros k rest Hk.
  destruct (Z.ltb_spec k (Z.of_nat (length bs))); [lia|]. apply reads_slice.
Qed.

Lemma reads_each {A} (r : reader string A) (enc : A → bytes) xs :
  Forall (λ x, reads r (enc x) x) xs → reads (read_n (length xs) r) (concat (enc <$> xs)) xs.
Proof.
  intros Hxs. apply reads_n. induction Hxs; constructor; done.
Qed.

Lemma reads_entry entry : wf_entry entry → reads decode_entry (encode_entry entry) entry.
Proof.
  destruct entry as [key vs]. intros (Hk & Hc & Hv). simpl in *.
  eapply reads_bind; [by apply reads_put_bytes|].
  eapply reads_bind; [by apply reads_count|]. eapply reads_bind_nil; [|done].
  apply reads_each. eapply Forall_impl; [done|]. apply reads_put_bytes.
Qed.

Lemma decode_encode_entries entries :
  wf_entries entries → decode_entries (encode_entries entries) = Ok entries.
Proof.
  intros [Hl He]. unfold decode_entries.
  assert (Hr : reads (count ← read_u32; read_n count decode_entry) (encode_entries entries) entries).
  { eapply reads_bind; [by apply reads_count|]. apply reads_each.
    eapply Forall_impl; [done|]. apply reads_entry. }
  specialize (Hr []). rewrite app_nil_r in Hr. by rewrite Hr.
Qed.

(** * The entries as a map from keys to values *)

Definition values_of (entries : list Entry) (map_key : bytes) : list bytes :=
  match find_entry entries map_key with Some entry => entry_values entry | None => [] end.

Lemma find_entry_key entries k entry : find_entry entries k = Some entry → entry_key entry = k.
Proof. induction entries as [|e es IH]; simpl; [done|]. case_decide; [by intros [= <-]|done]. Qed.

Lemma find_entry_None entries k : find_entry entries k = None ↔ k ∉ entry_key <$> entries.
Proof.
  induction entries as [|e es IH]; [split; [intros _; apply not_elem_of_nil|done]|].
  rewrite fmap_cons, not_elem_of_cons. cbn [find_entry].
  case_decide; [split; [done|intros [? _]; congruence]|].
  rewrite IH. split; [intros ?; split; [congruence|done]|by intros [_ ?]].
Qed.

Lemma values_of_add entries k vs k' :
  values_of (add_values entries k vs) k' =
    if decide (k' = k) then values_of entries k ++ vs else values_of entries k'.
Proof.
  unfold values_of. induction entries as [|e es IH]; simpl.
  - destruct (decide (k = k')) as [->|Hne]; [by rewrite decide_True|by rewrite decide_False].
  - destruct (decide (entry_key e = k)) as [->|Hne]; simpl.
    + destruct (decide (k = k')) as [->|]; [by rewrite decide_True|by rewrite decide_False].
    + destruct (decide (entry_key e = k')) as [<-|Hne']; [by rewrite decide_False|]. apply IH.
Qed.

Lemma values_of_remove entries k k' :
  values_of (remove_key entries k) k' = if decide (k' = k) then [] else values_of entries k'.
Proof.
  unfold values_of, remove_key. induction entries as [|e es IH]; [by destruct (decide _)|].
  destruct (decide (entry_key e = k)) as [He|He].
  - rewrite filter_cons_False by tauto. rewrite IH. destruct (decide (k' = k)) as [->|Hk]; [done|].
    cbn [find_entry]. by rewrite (decide_False (P := entry_key e = k')) by congruence.
  - rewrite filter_cons_True by done. cbn [find_entry].
    destruct (decide (entry_key e = k')) as [<-|]; [by rewrite decide_False|]. apply IH.
Qed.

Lemma add_key_spec entries key :
  add_key entries key =
    match find_entry entries key with Some _ => entries | None => entries ++ [mkEntry key []] end.
Proof.
  unfold add_key. replace (existsb _ entries) with
    (match find_entry entries key with Some _ => true | None => false end); [by destruct (find_entry _ _)|].
  induction entries as [|e es IH]; [done|]. cbn [find_entry existsb].
  destruct (decide (entry_key e = key)) as [->|]; [by rewrite bool_decide_true|].
  rewrite bool_decide_false by done. apply IH.
Qed.

Lemma find_entry_app es fs k :
  find_entry (es ++ fs) k = match find_entry es k with Some e => Some e | None => find_entry fs k end.
Proof. induction es as [|e es IH]; simpl; [done|]. by case_decide. Qed.

Lemma values_of_add_keys entries keys k : values_of (add_keys entries keys) k = values_of entries k.
Proof.
  unfold add_keys. revert entries. induction keys as [|x keys IH]; intros entries; [done|].
  cbn [foldl]. rewrite IH, add_key_spec. destruct (find_entry entries x) as [e|] eqn:E; [done|].
  unfold values_of. rewrite find_entry_app. destruct (find_entry entries k); [done|]. simpl. by case_decide.
Qed.

(** Keys stay distinct, in the order of their first appearance. *)
Lemma keys_add_values entries k vs :
  entry_key <$> add_values entries k vs =
    (entry_key <$> entries) ++ (if decide (k ∈ entry_key <$> entries) then [] else [k]).
Proof.
  induction entries as [|e es IH]; [done|]. cbn [add_values].
  destruct (decide (entry_key e = k)) as [<-|Hne].
  - rewrite decide_True by (by left). by rewrite app_nil_r.
  - rewrite !fmap_cons, IH. cbn [app]. f_equal. destruct (decide (k ∈ entry_key <$> es)) as [Hk|Hk].
    + by rewrite decide_True by (by right).
    + rewrite decide_False; [done|]. rewrite elem_of_cons. intros [?|?]; congruence.
Qed.

Lemma NoDup_add_values entries k vs :
  NoDup (entry_key <$> entries) → NoDup (entry_key <$> add_values entries k vs).
Proof.
  rewrite keys_add_values. case_decide as Hk; [by rewrite app_nil_r|]. intros Hn. apply NoDup_app.
  split; [done|]. split; [|apply NoDup_singleton]. intros x Hx Hx1. apply list_elem_of_singleton in Hx1. by subst.
Qed.

Lemma NoDup_add_keys entries keys :
  NoDup (entry_key <$> entries) → NoDup (entry_key <$> add_keys entries keys).
Proof.
  unfold add_keys. revert entries. induction keys as [|x keys IH]; intros entries Hn; [done|].
  cbn [foldl]. apply IH. rewrite add_key_spec. destruct (find_entry entries x) eqn:E; [done|].
  apply find_entry_None in E. rewrite fmap_app. apply NoDup_app.
  split; [done|]. split; [set_solver|apply NoDup_singleton].
Qed.

Lemma NoDup_remove_key entries k :
  NoDup (entry_key <$> entries) → NoDup (entry_key <$> remove_key entries k).
Proof.
  unfold remove_key. induction entries as [|e es IH]; [done|]. rewrite fmap_cons, NoDup_cons. intros [He Hn].
  rewrite filter_cons. case_decide; [|by apply IH]. rewrite fmap_cons, NoDup_cons. split; [|by apply IH].
  rewrite list_elem_of_fmap in *. intros (f & Ef & Hf). apply He. exists f. split; [done|].
  by apply list_elem_of_filter in Hf as [_ ?].
Qed.

(** * The store holds a map from map keys to values per cell *)
Section refinement.
Context {S : Type} `{KvLaws S} (iteration_order : gset bytes → list bytes)
  (Horder : ∀ X, iteration_order X ≡ₚ elements X).

(** The cell of [state_key] holds [entries], with distinct keys. *)
Definition cell_holds (m : gmap bytes bytes) (state_key : bytes) (entries : list Entry) : Prop :=
  NoDup (entry_key <$> entries)
  ∧ (m !! state_key = None ∧ entries = []
     ∨ m !! state_key = Some (encode_entries entries) ∧ wf_entries entries).

(** [b] is the store [m] in which cell [k] holds [es]. *)
Definition multimap_state (b : StateBackend S) (m : gmap bytes bytes) (k : bytes) (es : list Entry) :=
  represents b m ∧ cell_holds m k es.

(** [b'] holds [es'] in cell [k] and is otherwise the store [m]. *)
Definition multimap_post (b' : StateBackend S) (m : gmap bytes bytes) (k : bytes) (es' : list Entry) :=
  ∃ m', multimap_state b' m' k es' ∧ ∀ k', k' ≠ k → m' !! k' = m !! k'.

Lemma read_refines b m k es b' r :
  multimap_state b m k es → read iteration_order k b = (b', r) →
  multimap_state b' m k es ∧ ∀ es', r = Ok es' → es' = es.
Proof.
  intros [Hr [Hn Hc]] E. unfold read, mbind, st_bind in E.
  destruct (backend_get iteration_order k b) as [b1 r1] eqn:Eg.
  destruct (backend_get_refines iteration_order Horder _ _ _ _ _ Hr Eg) as [Hr1 Hv].
  destruct r1 as [cell|e|w]; [|by injection E as <- <-..]. rewrite (Hv cell eq_refl) in E.
  destruct Hc as [[Hm ->]|[Hm Hw]]; rewrite Hm in E; injection E as <- <-.
  - split; [split; [done|]; split; [done|by left]|by intros ? [= <-]].
  - rewrite decode_encode_entries by done.
    split; [split; [done|]; split; [done|by right]|by intros ? [= <-]].
Qed.

Lemma write_refines b m k es es' b' r :
  multimap_state b m k es → NoDup (entry_key <$> es') → wf_entries es' →
  write iteration_order k es' b = (b', r) → multimap_post b' m k es'.
Proof.
  intros [Hr _] Hn Hw E. apply (store_cell_refines iteration_order Horder _ _ _ _ _ _ Hr) in E.
  exists (set_cell m k (Some (encode_entries es'))). split; [split; [done|]|].
  - split; [done|]. right. split; [apply lookup_insert_eq|done].
  - intros k' Hk. unfold set_cell. by rewrite lookup_insert_ne.
Qed.

(** A read of the cell followed by a write of [f] of what was read. *)
Lemma update_refines (f : list Entry → list Entry) b m k es b' :
  multimap_state b m k es → NoDup (entry_key <$> f es) → wf_entries (f es) →
  (read iteration_order k ≫= λ es, write iteration_order k (f es)) b = (b', Ok ()) →
  multimap_post b' m k (f es).
Proof.
  intros Hs Hn Hw E. unfold mbind, st_bind in E.
  destruct (read iteration_order k b) as [b1 [es1|e|w]] eqn:Er; try done.
  destruct (read_refines _ _ _ _ _ _ Hs Er) as [Hs1 Hes]. rewrite (Hes es1 eq_refl) in E.
  by eapply write_refines.
Qed.

Lemma append_values_refines b m k es map_key vs b' :
  multimap_state b m k es → wf_entries (add_values es map_key vs) →
  append_values iteration_order k map_key vs b = (b', Ok ()) →
  multimap_post b' m k (add_values es map_key vs).
Proof.
  intros Hs Hw E. apply (update_refines (λ es, add_values es map_key vs) _ _ _ _ _ Hs); [|done..].
  apply NoDup_add_values, Hs.
Qed.

Lemma append_keys_refines b m k es keys b' :
  multimap_state b m k es → wf_entries (add_keys es keys) →
  append_keys iteration_order k keys b = (b', Ok ()) →
  multimap_post b' m k (add_keys es keys).
Proof.
  intros Hs Hw E. apply (update_refines (λ es, add_keys es keys) _ _ _ _ _ Hs); [|done..].
  apply NoDup_add_keys, Hs.
Qed.

Lemma wf_remove_key es k : wf_entries es → wf_entries (remove_key es k).
Proof.
  unfold wf_entries, remove_key, is_u. intros [Hl Hf]. split.
  2: { apply Forall_forall. intros e He. apply list_elem_of_filter in He as [_ He].
       by apply (proj1 (Forall_forall _ _) Hf). }
  pose proof (length_filter (λ entry, entry_key entry ≠ k) es). lia.
Qed.

Lemma clear_values_refines b m k es map_key b' :
  multimap_state b m k es → clear_values iteration_order k map_key b = (b', Ok ()) →
  multimap_post b' m k (remove_key es map_key).
Proof.
  intros Hs E. apply (update_refines (λ es, remove_key es map_key) _ _ _ _ _ Hs); [| |done].
  - apply NoDup_remove_key, Hs.
  - destruct Hs as [_ [_ [[_ ->]|[_ Hw]]]]; [|by apply wf_remove_key].
    split; [done|constructor].
Qed.

Lemma values_refines b m k es map_key b' bs :
  multimap_state b m k es → multimap_values iteration_order k map_key b = (b', Ok bs) →
  multimap_state b' m k es ∧ bs = concat (values_of es map_key).
Proof.
  intros Hs E. unfold multimap_values, mbind, st_bind in E.
  destruct (read iteration_order k b) as [b1 [es1|e|w]] eqn:Er; try done.
  destruct (read_refines _ _ _ _ _ _ Hs Er) as [Hs1 Hes]. rewrite (Hes es1 eq_refl) in E.
  injection E as <- <-. split; [done|]. unfold values_of. by destruct (find_entry es map_key).
Qed.
End refinement.
