(* ===== verification/Timers.v ===== *)
(** Durable timers (engine/timer.rs): identities, the store over the key/value
    trait, and the service that finds, takes and delivers due timers. *)
From S2P Require Import Prelude Bytes Windows Kv UserState.

(** * Data *)

Inductive TimeDomain : Type := EventTime | ProcessingTime.

#[export] Instance TimeDomain_eq_dec : EqDecision TimeDomain.
Proof. solve_decision. Defined.

Record TimerKey : Type := mkTimerKey {
  tk_transform_id : string;
  tk_timer_family_id : string;
  tk_tag : string;
  tk_window : string;
  tk_user_key : bytes;
}.

Record TimerEntry : Type := mkTimerEntry {
  te_key : TimerKey;
  te_domain : TimeDomain;
  fire_timestamp : Z;
  hold_timestamp : Z;
}.

#[export] Instance TimerKey_eq_dec : EqDecision TimerKey.
Proof. solve_decision. Defined.
#[export] Instance TimerEntry_eq_dec : EqDecision TimerEntry.
Proof. solve_decision. Defined.

(** [TimerKey::storage_key]. *)
Definition storage_key (k : TimerKey) : bytes :=
  composite_key [as_bytes (tk_transform_id k); as_bytes (tk_timer_family_id k);
                 as_bytes (tk_tag k); as_bytes (tk_window k); tk_user_key k].

Definition is_due_at_watermark (entry : TimerEntry) (watermark : Z) : bool :=
  bool_decide (te_domain entry = EventTime) && (fire_timestamp entry <=? watermark)%Z.

(** The filter of [due_processing_time]. *)
Definition is_due_at_clock (now : Z) (entry : TimerEntry) : bool :=
  bool_decide (te_domain entry = ProcessingTime) && (fire_timestamp entry <=? now)%Z.

(** [Iterator::min] over timestamps. *)
Definition min_timestamp (l : list Z) : option Z :=
  foldl (λ acc z, Some (match acc with Some a => Z.min a z | None => z end)) None l.

(** The sending half of the channel of fired timers: what was sent and whether
    the receiver is gone, in which case [send] fails and sends nothing. *)
Record Sender : Type := mkSender { sent : list (list TimerEntry); is_closed : bool }.

Definition send (batch : list TimerEntry) (tx : Sender) : Sender :=
  if is_closed tx then tx else mkSender (sent tx ++ [batch]) false.

Section timers.
Context {S : Type} `{KvStore S} (iteration_order : gset bytes → list bytes).
(** [serde_json::to_vec] and [from_slice] at the derived implementations of
    [TimerEntry]. *)
Context (to_vec : TimerEntry → outcome string bytes)
  (from_slice : bytes → outcome string TimerEntry).

(** * The store *)

Definition commit (writes : list write) : st S unit := λ s, kv_apply s writes.

Definition upsert (entry : TimerEntry) : st S unit :=
  value ← st_lift (to_vec entry);
  commit [(storage_key (te_key entry), Some value)].

Definition timer_delete (key : bytes) : st S unit := commit [(key, None)].

Definition timer_apply (pending : gmap bytes (option TimerEntry)) : st S unit :=
  if decide (pending = ∅) then mret ()
  else
    writes ← st_lift (traverse (λ key,
      match pending !! key with
      | Some (Some entry) => value ← to_vec entry; Ok (key, Some value)
      | _ => Ok (key, None)
      end) (iteration_order (dom pending)));
    commit writes.

Definition timer_get (key : bytes) (s : S) : outcome string (option TimerEntry) :=
  value ← kv_get s key;
  match value with
  | Some value => entry ← from_slice value; Ok (Some entry)
  | None => Ok None
  end.

Definition entries (s : S) : outcome string (list TimerEntry) :=
  cells ← kv_scan s; traverse (λ cell, from_slice cell.2) cells.

(** * The service *)

Definition due_processing_time (now : Z) (s : S) : outcome string (list TimerEntry) :=
  es ← entries s; Ok (sort_by_key fire_timestamp (List.filter (is_due_at_clock now) es)).

Definition next_processing_deadline (s : S) : outcome string (option Z) :=
  es ← entries s;
  Ok (min_timestamp (fire_timestamp <$>
    List.filter (λ e, bool_decide (te_domain e = ProcessingTime)) es)).

(** The batch of deletes of [take_due_processing_time] and [delete_all]. *)
Definition deletions (es : list TimerEntry) : gmap bytes (option TimerEntry) :=
  list_to_map ((λ e, (storage_key (te_key e), None)) <$> es).

Definition delete_all (es : list TimerEntry) : st S unit :=
  match es with [] => mret () | _ :: _ => timer_apply (deletions es) end.

Definition take_due_processing_time (now : Z) : st S (list TimerEntry) :=
  due ← st_read (due_processing_time now);
  _ ← delete_all due;
  mret due.

Definition all_event_time_timers (s : S) : outcome string (list TimerEntry) :=
  es ← entries s; Ok (List.filter (λ e, bool_decide (te_domain e = EventTime)) es).

Definition deliver_due_processing_time (now : Z) (tx : Sender) : st S (Z * Sender) :=
  due ← take_due_processing_time now;
  match due with
  | [] => mret (0%Z, tx)
  | _ :: _ => mret (Z.of_nat (length due), send due tx)
  end.

(** One round of [run_processing_time]: what the loop does next. *)
Inductive Firing : Type := RetryLater | AwaitChange | SleepFor (millis : Z) | Deliver.

Definition firing {P : Profile} (now : Z) (s : S) : outcome string Firing :=
  match next_processing_deadline s with
  | Err _ => Ok RetryLater
  | Panic w => Panic w
  | Ok None => Ok AwaitChange
  | Ok (Some deadline) =>
      if (now <? deadline)%Z then d ← arith_i 64 (deadline - now)%Z; Ok (SleepFor (to_unsigned 64 d))
      else Ok Deliver
  end.
End timers.

(** * The processing-time clock *)
Record Clock : Type := mkClock { origin_epoch_millis : Z; manual_now : Z }.

Definition is_manual (c : Clock) : bool := negb (manual_now c =? I64_MIN)%Z.

Definition set_processing_time (timestamp : Z) (c : Clock) : Clock :=
  mkClock (origin_epoch_millis c) timestamp.

(** [now], with [elapsed_millis] what [origin.elapsed().as_millis()] returns. *)
Definition now {P : Profile} (elapsed_millis : Z) (c : Clock) : outcome string Z :=
  if is_manual c then Ok (manual_now c)
  else arith_i 64 (origin_epoch_millis c + to_signed 64 elapsed_millis)%Z.

(** * The store holds a finite set of timers, one per identity *)
Section refinement.
Context {S : Type} `{KvLaws S} (iteration_order : gset bytes → list bytes)
  (Horder : ∀ X, iteration_order X ≡ₚ elements X).
Context (to_vec : TimerEntry → outcome string bytes)
  (from_slice : bytes → outcome string TimerEntry)
  (Hserde : ∀ e bs, to_vec e = Ok bs → from_slice bs = Ok e).

(** [s] stores exactly the timers of [T], each under its own key. *)
Definition stores (s : S) (T : gmap bytes TimerEntry) : Prop :=
  ∀ k, match T !! k with
       | Some e => storage_key (te_key e) = k ∧ ∃ bs, to_vec e = Ok bs ∧ kv_view s !! k = Some bs
       | None => kv_view s !! k = None
       end.

(** A batch of sets and clears laid over the timers of [T]. *)
Definition overlay (pending : gmap bytes (option TimerEntry)) (T : gmap bytes TimerEntry)
    : gmap bytes TimerEntry :=
  merge (λ p t, match p with Some o => o | None => t end) pending T.

Lemma lookup_overlay pending T k :
  overlay pending T !! k = match pending !! k with Some o => o | None => T !! k end.
Proof. unfold overlay. rewrite lookup_merge. by destruct (pending !! k), (T !! k). Qed.

Lemma upsert_refines e s T s' :
  stores s T → upsert to_vec e s = (s', Ok ()) → stores s' (<[storage_key (te_key e) := e]> T).
Proof.
  intros Hs E k. unfold upsert, mbind, st_bind, st_lift in E.
  destruct (to_vec e) as [bs| |] eqn:Ev; try done. apply kv_apply_ok in E. rewrite E.
  unfold apply_writes, apply_write. simpl. destruct (decide (k = storage_key (te_key e))) as [->|Hne].
  - rewrite !lookup_insert_eq. eauto.
  - rewrite !lookup_insert_ne by done. apply Hs.
Qed.

Lemma timer_delete_refines k s T s' :
  stores s T → timer_delete k s = (s', Ok ()) → stores s' (delete k T).
Proof.
  intros Hs E k'. apply kv_apply_ok in E. rewrite E. unfold apply_writes, apply_write. simpl.
  destruct (decide (k' = k)) as [->|Hne]; [by rewrite !lookup_delete_eq|].
  rewrite !lookup_delete_ne by done. apply Hs.
Qed.

Definition pending_value (pending : gmap bytes (option TimerEntry)) (k : bytes) : option bytes :=
  match pending !! k with
  | Some (Some e) => match to_vec e with Ok bs => Some bs | _ => None end
  | _ => None
  end.

Lemma pending_writes pending keys writes :
  traverse (λ key,
      match pending !! key with
      | Some (Some entry) => value ← to_vec entry; Ok (key, Some value)
      | _ => Ok (key, None)
      end) keys = Ok writes →
  writes = (λ key, (key, pending_value pending key)) <$> keys
  ∧ ∀ k e, k ∈ keys → pending !! k = Some (Some e) → is_ok (to_vec e).
Proof.
  unfold pending_value. revert writes. induction keys as [|k keys IH]; intros writes E; simpl in E.
  { injection E as <-. split; [done|]. intros k e Hk. by apply elem_of_nil in Hk. }
  inv_bind E. inv_bind E. injection E as <-. destruct (IH _ eq_refl) as [-> Hok]. split.
  - rewrite fmap_cons. f_equal. destruct (pending !! k) as [[e|]|]; [|congruence..].
    destruct (to_vec e); cbn in E0; congruence.
  - intros k' e Hk Hp. apply elem_of_cons in Hk as [->|Hk]; [|by eapply Hok].
    rewrite Hp in E0. by destruct (to_vec e).
Qed.

Lemma timer_apply_refines pending s T s' :
  stores s T → (∀ k e, pending !! k = Some (Some e) → storage_key (te_key e) = k) →
  timer_apply iteration_order to_vec pending s = (s', Ok ()) → stores s' (overlay pending T).
Proof.
  intros Hs Hkeys E k. rewrite lookup_overlay. unfold timer_apply in E. case_decide as Hp.
  { injection E as <-. subst. rewrite lookup_empty. apply Hs. }
  unfold mbind, st_bind, st_lift in E. destruct (traverse _ _) as [writes| |] eqn:Ew; try done.
  apply pending_writes in Ew as [-> Hok]. apply kv_apply_ok in E. rewrite E, apply_writes_keys.
  assert (Hdom : k ∈ iteration_order (dom pending) ↔ k ∈ dom pending)
    by (rewrite Horder; apply elem_of_elements).
  unfold pending_value. destruct (pending !! k) as [o|] eqn:Ek.
  - assert (Hk : k ∈ iteration_order (dom pending)) by (apply Hdom, elem_of_dom; by eexists).
    rewrite decide_True by done. destruct o as [e|]; [|done]. split; [by apply Hkeys|].
    specialize (Hok k e Hk Ek). destruct (to_vec e) as [bs| |] eqn:Ev; try done. eauto.
  - rewrite decide_False by (rewrite Hdom; by apply not_elem_of_dom). apply Hs.
Qed.

Lemma timer_get_refines k s T r :
  stores s T → timer_get from_slice k s = Ok r → r = T !! k.
Proof.
  intros Hs E. specialize (Hs k). unfold timer_get in E. inv_bind E. apply kv_get_view in E0 as ->.
  destruct (T !! k) as [e|].
  - destruct Hs as (_ & bs & Hv & Hk). rewrite Hk in E. rewrite (Hserde _ _ Hv) in E.
    by injection E as <-.
  - rewrite Hs in E. by injection E as <-.
Qed.

Lemma traverse_stored s T cells es :
  stores s T → (∀ c, c ∈ cells → kv_view s !! c.1 = Some c.2) →
  traverse (λ cell, from_slice cell.2) cells = Ok es →
  ∃ pairs, pairs.*1 = cells.*1 ∧ pairs.*2 = es ∧ ∀ p, p ∈ pairs → T !! p.1 = Some p.2.
Proof.
  intros Hs. revert es. induction cells as [|c cells IH]; intros es Hc E; simpl in E.
  { injection E as <-. exists []. repeat split. intros p Hp. by apply elem_of_nil in Hp. }
  inv_bind E. inv_bind E. injection E as <-.
  destruct (IH a0) as (ps & H1 & H2 & Hp); [intros c' Hc'; apply Hc; by right|done|].
  exists ((c.1, a) :: ps). rewrite !fmap_cons, H1, H2. repeat split.
  intros p [->|Hin]%elem_of_cons; [|by apply Hp]. simpl.
  specialize (Hs c.1). pose proof (Hc c ltac:(by left)) as Hv.
  destruct (T !! c.1) as [e|]; [|congruence].
  destruct Hs as (_ & bs & Eb & Hv'). assert (bs = c.2) as -> by congruence.
  rewrite (Hserde _ _ Eb) in E0. congruence.
Qed.

(** The timers of a store, in no particular order. *)
Definition timers_of (T : gmap bytes TimerEntry) : list TimerEntry := (map_to_list T).*2.

Lemma entries_refines s T es :
  stores s T → entries from_slice s = Ok es → es ≡ₚ timers_of T.
Proof.
  intros Hs E. unfold entries in E. inv_bind E. apply kv_scan_view in E0 as Hscan.
  destruct (traverse_stored s T a es Hs) as (ps & H1 & <- & Hp).
  { intros [k v] Hc. rewrite Hscan in Hc. by apply elem_of_map_to_list in Hc. }
  { done. }
  unfold timers_of. apply fmap_Permutation, NoDup_Permutation.
  - apply (NoDup_fmap_1 fst). rewrite H1. rewrite Hscan. apply NoDup_fst_map_to_list.
  - apply NoDup_map_to_list.
  - intros [k e]. rewrite elem_of_map_to_list. split; [by intros Hin%Hp|]. intros Hk.
    pose proof (Hs k) as Hst. rewrite Hk in Hst. destruct Hst as (_ & bs & _ & Hv).
    assert (Hin : k ∈ ps.*1).
    { rewrite H1, Hscan. apply list_elem_of_fmap. exists (k, bs). split; [done|].
      by apply elem_of_map_to_list. }
    apply list_elem_of_fmap in Hin as ([k' e'] & Ek & Hin). simpl in Ek. subst k'.
    pose proof (Hp _ Hin) as He. simpl in He. by simplify_eq.
Qed.

Lemma elem_of_timers_of T e : e ∈ timers_of T ↔ ∃ k, T !! k = Some e.
Proof.
  unfold timers_of. rewrite list_elem_of_fmap. split.
  - intros ([k e'] & -> & Hin). exists k. by apply elem_of_map_to_list.
  - intros [k Hk]. exists (k, e). split; [done|]. by apply elem_of_map_to_list.
Qed.

Lemma all_event_time_timers_refines s T es :
  stores s T → all_event_time_timers from_slice s = Ok es →
  es ≡ₚ List.filter (λ e, bool_decide (te_domain e = EventTime)) (timers_of T).
Proof.
  intros Hs E. unfold all_event_time_timers in E. inv_bind E. injection E as <-.
  by rewrite (entries_refines _ _ _ Hs E0).
Qed.

Lemma lookup_deletions es k o :
  deletions es !! k = Some o ↔ o = None ∧ ∃ e, e ∈ es ∧ storage_key (te_key e) = k.
Proof.
  unfold deletions. induction es as [|e es IH]; simpl.
  - rewrite lookup_empty. split; [done|]. intros (_ & e & He & _). by apply elem_of_nil in He.
  - destruct (decide (k = storage_key (te_key e))) as [->|Hne].
    + rewrite lookup_insert_eq. split; [|by intros [-> _]]. intros [= <-]. split; [done|].
      exists e. split; [by left|done].
    + rewrite lookup_insert_ne by done. rewrite IH. setoid_rewrite elem_of_cons. naive_solver.
Qed.

(** The timers of [T] that are not processing-time timers due at [now]. *)
Definition not_due (now : Z) (T : gmap bytes TimerEntry) : gmap bytes TimerEntry :=
  filter (λ p, is_due_at_clock now p.2 = false) T.

(** Deleting timers takes their keys out of the store. *)
Lemma delete_all_overlay es s T s' :
  stores s T → delete_all iteration_order to_vec es s = (s', Ok ()) → stores s' (overlay (deletions es) T).
Proof.
  intros Hs E. destruct es as [|e es].
  - injection E as <-. intros k. rewrite lookup_overlay. apply Hs.
  - apply (timer_apply_refines _ _ _ _ Hs) in E; [done|].
    intros k x Hk. by apply lookup_deletions in Hk as [? _].
Qed.

(** Deleting some timers of [T] leaves those whose entry is not among them. *)
Lemma delete_all_refines es s T s' :
  stores s T → (∀ e, e ∈ es → ∃ k, T !! k = Some e) →
  delete_all iteration_order to_vec es s = (s', Ok ()) →
  stores s' (filter (λ p, p.2 ∉ es) T).
Proof.
  intros Hs Hin E. pose proof (delete_all_overlay es s T s' Hs E) as Hdel.
  enough (filter (λ p, p.2 ∉ es) T = overlay (deletions es) T) as -> by done.
  apply map_eq. intros k. rewrite lookup_overlay. apply option_eq. intros e.
  rewrite map_lookup_filter_Some. simpl.
  destruct (deletions es !! k) as [o|] eqn:Ed.
  - apply lookup_deletions in Ed as (-> & e' & He' & Hk). split; [|done]. intros [HT He].
    destruct (Hin e' He') as [k' HT']. pose proof (Hs k') as Hs'. rewrite HT' in Hs'.
    destruct Hs' as [Hk' _]. assert (k' = k) as -> by congruence. by simplify_eq.
  - split; [by intros [? _]|]. intros HT. split; [done|]. intros He.
    pose proof (Hs k) as Hk. rewrite HT in Hk. destruct Hk as [Hk _].
    assert (Hsome : deletions es !! k = Some None) by (apply lookup_deletions; eauto). congruence.
Qed.

Lemma due_refines now s T due :
  stores s T → due_processing_time from_slice now s = Ok due →
  due ≡ₚ List.filter (is_due_at_clock now) (timers_of T)
  ∧ StronglySorted (λ a b, fire_timestamp a ≤ fire_timestamp b)%Z due.
Proof.
  intros Hs E. unfold due_processing_time in E. inv_bind E. injection E as <-.
  apply (entries_refines _ _ _ Hs) in E0. split; [|apply sort_by_key_ordered].
  rewrite sort_by_key_perm. by rewrite E0.
Qed.

(** Taking the due timers returns each of them once, earliest first, and leaves
    exactly the others in the store. *)
Lemma take_due_refines now s T s' due :
  stores s T → take_due_processing_time iteration_order to_vec from_slice now s = (s', Ok due) →
  due ≡ₚ List.filter (is_due_at_clock now) (timers_of T)
  ∧ StronglySorted (λ a b, fire_timestamp a ≤ fire_timestamp b)%Z due
  ∧ stores s' (not_due now T).
Proof.
  intros Hs E. unfold take_due_processing_time, mbind, st_bind, st_read in E.
  destruct (due_processing_time from_slice now s) as [due'| |] eqn:Ed; try done.
  destruct (delete_all iteration_order to_vec due' s) as [s1 [[]| |]] eqn:Edel; try done.
  injection E as <- <-. destruct (due_refines _ _ _ _ Hs Ed) as [Hp Hsort].
  split; [done|]. split; [done|].
  assert (Hmem : ∀ e, e ∈ due' ↔ is_due_at_clock now e = true ∧ ∃ k, T !! k = Some e).
  { intros e. rewrite Hp, list_elem_of_In, filter_In, <- list_elem_of_In, elem_of_timers_of. tauto. }
  apply (delete_all_refines _ _ _ _ Hs) in Edel; [|intros e He; by apply Hmem].
  enough (not_due now T = filter (λ p, p.2 ∉ due') T) as -> by done.
  apply map_filter_ext. intros k e Hk. simpl. rewrite Hmem.
  destruct (is_due_at_clock now e); [|naive_solver]. split; [done|]. intros Hn. exfalso. eauto.
Qed.

Lemma no_due_left now T : List.filter (is_due_at_clock now) (timers_of (not_due now T)) = [].
Proof.
  enough (∀ e, e ∉ List.filter (is_due_at_clock now) (timers_of (not_due now T))) as Hn
    by (destruct (List.filter _ _) as [|e l]; [done|]; destruct (Hn e); by left).
  intros e. rewrite list_elem_of_In, filter_In, <- list_elem_of_In, elem_of_timers_of.
  intros [[k Hk] Hd]. apply map_lookup_filter_Some in Hk as [_ Hk]. simpl in Hk. congruence.
Qed.

(** ** Deadlines *)

Lemma min_timestamp_acc l a :
  foldl (λ acc z, Some (match acc with Some a => Z.min a z | None => z end)) (Some a) l
  = Some (foldl Z.min a l).
Proof. revert a. induction l as [|z l IH]; intros a; [done|]. apply IH. Qed.

Lemma min_timestamp_spec l d :
  min_timestamp l = Some d ↔ d ∈ l ∧ ∀ z, z ∈ l → (d ≤ z)%Z.
Proof.
  unfold min_timestamp. destruct l as [|x l]; cbn [foldl].
  { split; [done|]. intros [Hd _]. by apply elem_of_nil in Hd. }
  rewrite min_timestamp_acc. destruct (foldl_min_spec l x) as [Hin Hle]. split.
  - by intros [= <-].
  - intros [Hd Hmin]. f_equal. pose proof (Hle d Hd). pose proof (Hmin _ Hin). lia.
Qed.

Lemma min_timestamp_None l : min_timestamp l = None ↔ l = [].
Proof. destruct l as [|x l]; [done|]. unfold min_timestamp. cbn [foldl]. by rewrite min_timestamp_acc. Qed.

(** The loop delivers exactly when a timer is due, sleeps no longer than until the
    earliest deadline, and waits for a change when no timer is set. *)
Lemma firing_spec {P : Profile} now s T f :
  is_i 64 now → (∀ k e, T !! k = Some e → is_i 64 (fire_timestamp e) ∧ (fire_timestamp e - now < 2 ^ 63)%Z) →
  stores s T → firing from_slice now s = Ok f →
  match f with
  | RetryLater => ∃ e, next_processing_deadline from_slice s = Err e
  | AwaitChange => ∀ e, e ∈ timers_of T → te_domain e = EventTime
  | SleepFor d => (0 < d)%Z ∧ ∃ e, e ∈ timers_of T ∧ te_domain e = ProcessingTime
      ∧ fire_timestamp e = (now + d)%Z
      ∧ ∀ e', e' ∈ timers_of T → te_domain e' = ProcessingTime → (now + d ≤ fire_timestamp e')%Z
  | Deliver => ∃ e, e ∈ timers_of T ∧ is_due_at_clock now e = true
  end.
Proof.
  intros Hnow HT Hs E. unfold firing in E.
  destruct (next_processing_deadline from_slice s) as [dl|er|w] eqn:Ed; [| |done].
  2: { injection E as <-. eauto. }
  unfold next_processing_deadline in Ed. inv_bind Ed. injection Ed as Ed.
  apply (entries_refines _ _ _ Hs) in E0.
  assert (Hmem : ∀ z, z ∈ fire_timestamp <$> List.filter (λ e, bool_decide (te_domain e = ProcessingTime)) a
     ↔ ∃ e, e ∈ timers_of T ∧ te_domain e = ProcessingTime ∧ fire_timestamp e = z).
  { intros z. rewrite list_elem_of_fmap. setoid_rewrite list_elem_of_In. setoid_rewrite filter_In.
    setoid_rewrite <- list_elem_of_In. setoid_rewrite E0. setoid_rewrite bool_decide_eq_true. naive_solver. }
  destruct dl as [d|].
  - apply min_timestamp_spec in Ed as [Hd Hmin]. apply Hmem in Hd as (e & He & Hdom & <-).
    assert (Hle : ∀ e', e' ∈ timers_of T → te_domain e' = ProcessingTime →
       (fire_timestamp e ≤ fire_timestamp e')%Z) by (intros e' ? ?; apply Hmin, Hmem; eauto).
    destruct (Z.ltb_spec now (fire_timestamp e)).
    + apply elem_of_timers_of in He as He'. destruct He' as [k Hk]. destruct (HT k e Hk) as [Hi Hdiff].
      rewrite arith_i_ok in E by (unfold is_i in *; simpl in *; lia). injection E as <-.
      unfold to_unsigned. rewrite Z.mod_small by (unfold is_i in *; simpl in *; lia).
      split; [lia|]. exists e. repeat split; [done..|lia|]. intros e' H1' H2'. specialize (Hle e' H1' H2'). lia.
    + injection E as <-. exists e. split; [done|]. unfold is_due_at_clock.
      rewrite bool_decide_true by done. by apply Z.leb_le.
  - injection E as <-. apply min_timestamp_None in Ed. intros e He.
    destruct (te_domain e) eqn:Hdom; [done|]. exfalso.
    assert (Hin : fire_timestamp e ∈ fire_timestamp <$>
      List.filter (λ e, bool_decide (te_domain e = ProcessingTime)) a) by (apply Hmem; eauto).
    rewrite Ed in Hin. by apply elem_of_nil in Hin.
Qed.
End refinement.
