(* ===== verification/StateProperties.v ===== *)
(** The properties of durable state: keys, the key/value store, the write-back
    cache, bag and map state, and timers. *)
From S2P Require Import Prelude Bytes Varint Windows Coders Kv UserState Multimap Timers.
Set Warnings "-clear-no-such-hyp".

(** The order used by the witnesses for hash-map iteration. *)
Definition by_elements (X : gset bytes) : list bytes := elements X.

Lemma by_elements_perm X : by_elements X ≡ₚ elements X.
Proof. done. Qed.

(** In a witness: name the result of a call and compute its second component. *)
Ltac run_call c r' b E :=
  destruct c as [b r] eqn:E;
  assert (r = r') as -> by (change (snd (b, r) = r'); rewrite <- E; vm_compute; reflexivity).

(** * Keys *)

(** C20: composite keys are collision-free: two state cells with different
    (transform, state, window, key), and two timers with different identities,
    have different storage keys, for components shorter than [2 ^ 32] bytes. *)
Theorem storage_keys_distinct :
  (∀ t s w k t' s' w' k',
     Forall short [as_bytes t; as_bytes s; w; k] → Forall short [as_bytes t'; as_bytes s'; w'; k'] →
     build_state_key t s w k = build_state_key t' s' w' k' → t = t' ∧ s = s' ∧ w = w' ∧ k = k')
  ∧ ∀ a b,
     let parts key := [as_bytes (tk_transform_id key); as_bytes (tk_timer_family_id key);
                       as_bytes (tk_tag key); as_bytes (tk_window key); tk_user_key key] in
     Forall short (parts a) → Forall short (parts b) → storage_key a = storage_key b → a = b.
Proof.
  split.
  - intros t s w k t' s' w' k' H1 H2 E. apply composite_key_inj in E; [|done..].
    injection E as Et Es -> ->. by apply as_bytes_inj in Et, Es.
  - intros [t f g w k] [t' f' g' w' k'] parts H1 H2 E. apply composite_key_inj in E; [|done..].
    simpl in E. injection E as Et Ef Eg Ew ->. by apply as_bytes_inj in Et, Ef, Eg, Ew; subst.
Qed.

Lemma storage_keys_distinct_witness : build_state_key "ab" "c" [] [] ≠ build_state_key "a" "bc" [] [].
Proof.
  intros E. apply (proj1 storage_keys_distinct) in E as [E _]; [discriminate E| |];
    repeat constructor; vm_compute; congruence.
Defined.

(** * The store *)

(** The SlateDB-backed store keeps the contract its clients rely on: whatever
    [apply] returns, exactly a prefix of the batch has taken effect, in order, the
    whole batch when it returns success, and no key outside the batch changed. *)
Theorem slate_apply_prefix_only {D} `{SlateLaws D} (d : D) ws d' r :
  slate_apply d ws = (d', r) →
  ∃ n, n ≤ length ws ∧ db_view d' = apply_writes (db_view d) (take n ws)
    ∧ (r = Ok () → n = length ws) ∧ ∀ k, k ∉ ws.*1 → db_view d' !! k = db_view d !! k.
Proof.
  intros E. destruct (slate_apply_prefix d ws d' r E) as (n & Hn & Hv & Hr).
  exists n. split_and!; [done..|]. intros k Hk. by apply (@kv_apply_frame D slate_kv slate_kv_laws d ws d' r k E).
Qed.

Definition key_a : bytes := [Byte.x61].
Definition key_b : bytes := [Byte.x62].

Lemma slate_apply_prefix_only_witness :
  ∃ d' n, slate_apply (∅ : gmap bytes bytes) [(key_a, Some key_b)] = (d', Ok ())
    ∧ db_view d' = apply_writes ∅ (take n [(key_a, Some key_b)]) ∧ n = 1.
Proof.
  run_call (slate_apply (∅ : gmap bytes bytes) [(key_a, Some key_b)]) (@Ok string unit ()) d' E.
  destruct (slate_apply_prefix_only (∅ : gmap bytes bytes) [(key_a, Some key_b)] d' (Ok ()) E)
    as (n & _ & Hv & Hn & _).
  exists d', n. split; [reflexivity|]. split; [exact Hv|exact (Hn eq_refl)].
Defined.

(** A batch is not atomic: there are databases that keep every documented
    promise about single writes on which a failed [apply] of two upserts leaves the
    first one in the store and not the second. *)
Theorem slate_apply_not_atomic :
  ∃ (d d' : faulty_db) ws e, slate_apply d ws = (d', Err e)
    ∧ db_view d' ≠ db_view d ∧ db_view d' ≠ apply_writes (db_view d) ws.
Proof.
  exists (mkFaulty 1 ∅), (mkFaulty 0 {[key_a := key_a]}), [(key_a, Some key_a); (key_b, Some key_b)],
    "object store unavailable".
  split_and!; [reflexivity| |]; intros E.
  - apply (f_equal (.!! key_a)) in E. vm_compute in E. discriminate E.
  - apply (f_equal (.!! key_b)) in E. vm_compute in E. discriminate E.
Qed.

(** * User state *)

(** C21: the write-back cache is invisible: for any history of reads, writes,
    clears, read-modify-writes and flushes that returns, over any store that keeps
    the contract, with evictions and automatic flushes happening wherever they do
    and hash maps iterating in any order, every read returns what the same history
    returns on a finite map, and the final state stands for that map. *)
Theorem backend_refines_map {S} `{KvLaws S} iteration_order (s : S) os b' rs :
  (∀ X, iteration_order X ≡ₚ elements X) →
  backend_run iteration_order os (with_store s) = (b', Ok rs) →
  rs = map_run (kv_view s) os ∧ represents b' (foldl map_step (kv_view s) os).
Proof.
  intros Ho E.
  destruct (backend_run_refines iteration_order Ho os _ _ _ _ (with_store_represents s) E) as [Hr Hs].
  by split.
Qed.

Definition demo_history : list state_op :=
  [OpPut key_a key_b; OpModify key_a (λ v, v ++ v); OpGet key_a; OpFlush; OpDelete key_a; OpGet key_a].

Lemma backend_refines_map_witness :
  ∃ b', backend_run by_elements demo_history (with_store (∅ : gmap bytes bytes))
    = (b', Ok [None; None; Some (key_b ++ key_b); None; None; None])
    ∧ represents b' (foldl map_step ∅ demo_history).
Proof.
  run_call (backend_run by_elements demo_history (with_store (∅ : gmap bytes bytes)))
    (@Ok string _ [None; None; Some (key_b ++ key_b); None; None; None]) b' E.
  exists b'. split; [reflexivity|].
  exact (proj2 (backend_refines_map by_elements (∅ : gmap bytes bytes) demo_history b' _ by_elements_perm E)).
Defined.

(** C22: no state operation is half done: whatever a call returns, errors included,
    the backend stands for the map before the call or after it, so a failed flush
    or read loses no update. *)
Theorem backend_call_all_or_nothing {S} `{KvLaws S} iteration_order o b m (b' : StateBackend S) r :
  (∀ X, iteration_order X ≡ₚ elements X) → represents b m →
  backend_step iteration_order o b = (b', r) →
  represents b' (map_step m o) ∨ is_ok r = false ∧ represents b' m.
Proof.
  intros Ho Hr E. destruct (backend_step_refines iteration_order Ho o b m b' r Hr E) as [[? _]|?];
    [by left|by right].
Qed.

(** A flush whose second write fails. *)
Definition failing_backend : StateBackend faulty_db :=
  mkBackend (mkFaulty 1 ∅)
    (mkCache {[key_a := Some key_a; key_b := Some key_b]} {[key_a; key_b]}).

Lemma failing_represents : represents failing_backend {[key_a := key_a; key_b := key_b]}.
Proof.
  split; [split|].
  - apply (bool_decide_eq_true_1 _). vm_compute. reflexivity.
  - intros k v E Hk. exfalso. apply Hk. simpl in *.
    apply elem_of_dom_2 in E. set_solver.
  - intros k. unfold visible. simpl. destruct (decide (k = key_a)) as [->|Ha]; [reflexivity|].
    destruct (decide (k = key_b)) as [->|Hb]; [reflexivity|].
    by simplify_map_eq.
Qed.

Lemma backend_call_all_or_nothing_witness :
  ∃ b' e, backend_step by_elements OpFlush failing_backend = (b', Err e)
    ∧ represents b' {[key_a := key_a; key_b := key_b]}.
Proof.
  run_call (backend_step by_elements OpFlush failing_backend)
    (@Err string (option bytes) "object store unavailable") b' E.
  exists b', "object store unavailable". split; [reflexivity|].
  destruct (backend_call_all_or_nothing by_elements OpFlush failing_backend _ b' _ by_elements_perm
    failing_represents E) as [H|[_ H]]; exact H.
Defined.

(** State survives a restart: after a successful flush the store holds exactly
    the visible map, no cell is dirty, and a new backend on that store stands for
    the same map. *)
Theorem flushed_state_survives {S} `{KvLaws S} iteration_order (b : StateBackend S) m b' :
  (∀ X, iteration_order X ≡ₚ elements X) → represents b m →
  flush iteration_order b = (b', Ok ()) →
  kv_view (store b') = m ∧ dirty (cache b') = ∅ ∧ represents (with_store (store b')) m.
Proof.
  intros Ho Hr E. destruct (flush_refines iteration_order Ho b m b' (Ok ()) Hr E) as [_ Hok].
  destruct (Hok eq_refl). split_and!; [done..|]. by apply (flush_restart iteration_order Ho b m b').
Qed.

Lemma flushed_state_survives_witness :
  ∃ b', flush by_elements (mkBackend (∅ : gmap bytes bytes) (mkCache {[key_a := Some key_b]} {[key_a]}))
    = (b', Ok ()) ∧ kv_view (store b') = {[key_a := key_b]}.
Proof.
  run_call (flush by_elements (mkBackend (∅ : gmap bytes bytes) (mkCache {[key_a := Some key_b]} {[key_a]})))
    (@Ok string unit ()) b' E.
  exists b'. split; [reflexivity|].
  eapply (flushed_state_survives by_elements _ {[key_a := key_b]} b' by_elements_perm); [|exact E].
  split; [split|].
  - apply (bool_decide_eq_true_1 _). vm_compute. reflexivity.
  - intros k v Ek Hk. exfalso. apply Hk. simpl in *. apply elem_of_dom_2 in Ek. set_solver.
  - intros k. unfold visible. simpl. destruct (decide (k = key_a)) as [->|Ha]; [reflexivity|].
    by simplify_map_eq.
Defined.

(** ** Bags *)

Section bags.
Context {S : Type} `{KvStore S} (iteration_order : gset bytes → list bytes).

(** Appends to bags, one after the other. *)
Fixpoint bag_appends (kvs : list (bytes * bytes)) : st (StateBackend S) unit :=
  match kvs with
  | [] => mret ()
  | (k, v) :: kvs => _ ← bag_append iteration_order k v; bag_appends kvs
  end.
End bags.

Lemma bag_appends_refines {S} `{KvLaws S} iteration_order (b : StateBackend S) m kvs b' :
  (∀ X, iteration_order X ≡ₚ elements X) → represents b m →
  bag_appends iteration_order kvs b = (b', Ok ()) →
  ∃ m', represents b' m' ∧ ∀ k, default [] (m' !! k) =
    default [] (m !! k) ++ concat (snd <$> filter (λ kv, kv.1 = k) kvs).
Proof.
  intros Ho. revert b m. induction kvs as [|[k v] kvs IH]; intros b m Hr E; cbn [bag_appends] in E.
  { injection E as <-. exists m. split; [done|]. intros k. by rewrite app_nil_r. }
  unfold mbind, st_bind in E. destruct (bag_append iteration_order k v b) as [b1 [[]|e|w]] eqn:E1; try done.
  destruct (read_modify_write_refines iteration_order Ho _ _ _ _ _ _ Hr E1) as [Hr1|[? _]]; [|done].
  destruct (IH _ _ Hr1 E) as (m' & Hr' & Hm). exists m'. split; [done|]. intros k'. rewrite Hm.
  destruct (decide (k' = k)) as [->|Hne].
  - rewrite lookup_insert_eq, filter_cons_True by done. simpl. by rewrite <- app_assoc.
  - by rewrite lookup_insert_ne, filter_cons_False by done.
Qed.

(** A bag holds what was appended to it: after any interleaving of appends to
    any bags, reading a bag returns its old contents followed by the values
    appended to it, in order, and nothing of the other bags. *)
Theorem bag_holds_appends {S} `{KvLaws S} iteration_order (b : StateBackend S) m kvs b' k b'' bs :
  (∀ X, iteration_order X ≡ₚ elements X) → represents b m →
  bag_appends iteration_order kvs b = (b', Ok ()) →
  bag_get iteration_order k b' = (b'', Ok bs) →
  bs = default [] (m !! k) ++ concat (snd <$> filter (λ kv, kv.1 = k) kvs).
Proof.
  intros Ho Hr E Eg. destruct (bag_appends_refines iteration_order b m kvs b' Ho Hr E) as (m' & Hr' & Hm).
  rewrite <- Hm. unfold bag_get, mbind, st_bind in Eg.
  destruct (backend_get iteration_order k b') as [b1 [v|e|w]] eqn:E1; try done. injection Eg as <- <-.
  destruct (backend_get_refines iteration_order Ho _ _ _ _ _ Hr' E1) as [_ Hv]. by rewrite (Hv v eq_refl).
Qed.

Lemma bag_holds_appends_witness :
  ∃ b' b'', bag_appends by_elements [(key_a, key_a); (key_b, key_b); (key_a, key_b)]
      (with_store (∅ : gmap bytes bytes)) = (b', Ok ())
    ∧ bag_get by_elements key_a b' = (b'', Ok (key_a ++ key_b)).
Proof.
  run_call (bag_appends by_elements [(key_a, key_a); (key_b, key_b); (key_a, key_b)]
    (with_store (∅ : gmap bytes bytes))) (@Ok string unit ()) b' E.
  exists b'. destruct (bag_get by_elements key_a b') as [b'' r] eqn:Eg.
  exists b''. split; [reflexivity|]. f_equal.
  assert (Hr : ∃ bs, r = Ok bs).
  { change r with (snd (b'', r)). rewrite <- Eg. change b' with (fst (b', @Ok string unit ())). rewrite <- E.
    vm_compute. by eexists. }
  destruct Hr as [bs ->]. f_equal.
  exact (bag_holds_appends by_elements _ _ _ b' key_a b'' bs by_elements_perm
    (with_store_represents (∅ : gmap bytes bytes)) E Eg).
Defined.

(** ** Map state *)

(** Map state keeps values per map key: on a cell that holds entries with
    distinct keys, a successful append of values adds them behind the values of
    that key and changes no other key and no other cell, a clear empties exactly
    that key, appending keys changes no values, and a read of a key returns the
    concatenation of its values. *)
Theorem multimap_behaves {S} `{KvLaws S} iteration_order (b : StateBackend S) m k es mk :
  (∀ X, iteration_order X ≡ₚ elements X) → multimap_state b m k es →
  (∀ vs b', append_values iteration_order k mk vs b = (b', Ok ()) → wf_entries (add_values es mk vs) →
     ∃ es', multimap_post b' m k es' ∧ ∀ mk', values_of es' mk' =
       if decide (mk' = mk) then values_of es mk ++ vs else values_of es mk')
  ∧ (∀ b', clear_values iteration_order k mk b = (b', Ok ()) →
     ∃ es', multimap_post b' m k es' ∧ ∀ mk', values_of es' mk' =
       if decide (mk' = mk) then [] else values_of es mk')
  ∧ (∀ ks b', append_keys iteration_order k ks b = (b', Ok ()) → wf_entries (add_keys es ks) →
     ∃ es', multimap_post b' m k es' ∧ ∀ mk', values_of es' mk' = values_of es mk')
  ∧ (∀ b' bs, multimap_values iteration_order k mk b = (b', Ok bs) → bs = concat (values_of es mk)).
Proof.
  intros Ho Hs. split_and!.
  - intros vs b' E Hw. eexists. split; [by eapply append_values_refines|]. apply values_of_add.
  - intros b' E. eexists. split; [by eapply clear_values_refines|]. apply values_of_remove.
  - intros ks b' E Hw. eexists. split; [by eapply append_keys_refines|]. intros mk'. apply values_of_add_keys.
  - intros b' bs E. by eapply (values_refines iteration_order Ho) in E as [_ ?].
Qed.

Lemma multimap_behaves_witness :
  ∃ b' es', append_values by_elements key_a key_b [key_a; key_b] (with_store (∅ : gmap bytes bytes)) = (b', Ok ())
    ∧ multimap_post b' ∅ key_a es' ∧ values_of es' key_b = [key_a; key_b].
Proof.
  run_call (append_values by_elements key_a key_b [key_a; key_b] (with_store (∅ : gmap bytes bytes)))
    (@Ok string unit ()) b' E.
  exists b'.
  destruct (multimap_behaves by_elements (with_store (∅ : gmap bytes bytes)) ∅ key_a [] key_b by_elements_perm)
    as [H _].
  - split; [exact (with_store_represents (∅ : gmap bytes bytes))|]. split; [constructor|]. by left.
  - destruct (H [key_a; key_b] b' E) as (es' & Hp & Hv).
    + split; [vm_compute; split; congruence|]. repeat constructor; vm_compute; congruence.
    + exists es'. split; [reflexivity|]. split; [exact Hp|]. rewrite Hv. by rewrite decide_True.
Defined.

(** The durable form of map state reads back: entries whose lengths fit the
    [u32] written for them decode from their encoding, key order and value order
    included. *)
Theorem multimap_cell_round_trip entries :
  wf_entries entries → decode_entries (encode_entries entries) = Ok entries.
Proof. apply decode_encode_entries. Qed.

Lemma multimap_cell_round_trip_witness :
  decode_entries (encode_entries [mkEntry key_b [key_a; []]; mkEntry [] []])
  = Ok [mkEntry key_b [key_a; []]; mkEntry [] []].
Proof.
  apply multimap_cell_round_trip. split; [vm_compute; split; congruence|].
  repeat constructor; vm_compute; congruence.
Defined.

(** A stream of encoded map keys or values is split at the right places: the
    concatenation of the encodings of records of the coder's type, each at least a
    byte long, splits into exactly those encodings; and the loop needs no more
    rounds than the stream has bytes. *)
Theorem encoded_values_split {P : Profile} display coder rs encs :
  Forall (typed coder) rs → Forall2 (λ r bs, encode coder r = Ok bs ∧ bs ≠ []) rs encs →
  split_encoded_values display coder (concat encs) = Ok encs
  ∧ ∀ n data, (length data ≤ n)%nat →
      split_loop display coder n data = split_encoded_values display coder data.
Proof.
  intros Ht He. split; [by eapply split_values_typed|].
  intros n data Hn. by apply split_loop_fuel.
Qed.

Lemma encoded_values_split_witness :
  split_encoded_values (P:=debug_profile) (λ _, "error") VarIntCoder (encode_varint 300 ++ encode_varint 2)
  = Ok [encode_varint 300; encode_varint 2].
Proof.
  replace (encode_varint 300 ++ encode_varint 2) with (concat [encode_varint 300; encode_varint 2])
    by (cbn [concat]; by rewrite app_nil_r).
  refine (proj1 (encoded_values_split (P:=debug_profile) (λ _, "error") VarIntCoder
    [PRIMITIVE (PInt64 300); PRIMITIVE (PInt64 2)] [encode_varint 300; encode_varint 2] _ _)).
  - repeat constructor; vm_compute; congruence.
  - repeat constructor; try (vm_compute; reflexivity); vm_compute; discriminate.
Defined.

(** * Timers *)

(** Due processing-time timers are delivered once and in order: taking the due
    timers returns exactly the stored processing-time timers whose time has come,
    earliest first, and leaves exactly the other timers in the store, so taking
    again at the same time returns none. *)
Theorem due_timers_taken_once {S} `{KvLaws S} iteration_order to_vec from_slice now (s : S) T s' due :
  (∀ X, iteration_order X ≡ₚ elements X) → (∀ e bs, to_vec e = Ok bs → from_slice bs = Ok e) →
  stores to_vec s T → take_due_processing_time iteration_order to_vec from_slice now s = (s', Ok due) →
  (∀ e, e ∈ due ↔ (∃ k, T !! k = Some e) ∧ te_domain e = ProcessingTime ∧ (fire_timestamp e ≤ now)%Z)
  ∧ StronglySorted (λ a b, fire_timestamp a ≤ fire_timestamp b)%Z due
  ∧ stores to_vec s' (not_due now T)
  ∧ ∀ s'' again, take_due_processing_time iteration_order to_vec from_slice now s' = (s'', Ok again) → again = [].
Proof.
  intros Ho Hserde Hs E.
  destruct (take_due_refines iteration_order Ho to_vec from_slice Hserde now s T s' due Hs E) as (Hp & Hsort & Hs').
  split_and!; [|done..|].
  - intros e. rewrite Hp, list_elem_of_In, filter_In, <- list_elem_of_In, elem_of_timers_of.
    unfold is_due_at_clock. rewrite andb_true_iff, bool_decide_eq_true, Z.leb_le. tauto.
  - intros s'' again E'.
    destruct (take_due_refines iteration_order Ho to_vec from_slice Hserde now s' _ s'' again Hs' E') as (Hp' & _).
    rewrite no_due_left in Hp'. by apply Permutation_nil_r in Hp'.
Qed.

(** Three timers of one transform and a serialization of them, for the witnesses:
    the same identity set for 5 and again for 9, and an event-time timer. *)
Definition demo_timer_key : TimerKey := mkTimerKey "t" "f" "" "w" key_a.
Definition timer_at_5 : TimerEntry := mkTimerEntry demo_timer_key ProcessingTime 5 5.
Definition timer_at_9 : TimerEntry := mkTimerEntry demo_timer_key ProcessingTime 9 9.
Definition event_timer : TimerEntry := mkTimerEntry (mkTimerKey "t" "g" "" "w" key_a) EventTime 5 5.

Definition demo_to_vec (e : TimerEntry) : outcome string bytes :=
  if decide (e = timer_at_5) then Ok [Byte.x05]
  else if decide (e = timer_at_9) then Ok [Byte.x09]
  else if decide (e = event_timer) then Ok [Byte.x00]
  else Err "not in the table".

Definition demo_from_slice (bs : bytes) : outcome string TimerEntry :=
  if decide (bs = [Byte.x05]) then Ok timer_at_5
  else if decide (bs = [Byte.x09]) then Ok timer_at_9
  else if decide (bs = [Byte.x00]) then Ok event_timer
  else Err "not in the table".

Lemma demo_serde e bs : demo_to_vec e = Ok bs → demo_from_slice bs = Ok e.
Proof.
  unfold demo_to_vec. repeat case_decide; subst; try done; intros [= <-]; reflexivity.
Qed.

Definition demo_timers : gmap bytes bytes :=
  {[storage_key demo_timer_key := [Byte.x05]; storage_key (te_key event_timer) := [Byte.x00]]}.
Definition demo_timer_map : gmap bytes TimerEntry :=
  {[storage_key demo_timer_key := timer_at_5; storage_key (te_key event_timer) := event_timer]}.

Lemma demo_stores : stores demo_to_vec demo_timers demo_timer_map.
Proof.
  intros k. unfold demo_timer_map. change (kv_view demo_timers) with demo_timers. unfold demo_timers.
  destruct (decide (k = storage_key demo_timer_key)) as [->|H1].
  { rewrite !lookup_insert_eq. split; [done|]. by exists [Byte.x05]. }
  destruct (decide (k = storage_key (te_key event_timer))) as [->|H2].
  - rewrite !lookup_insert_ne by done. rewrite !lookup_singleton_eq. split; [done|]. by exists [Byte.x00].
  - rewrite !lookup_insert_ne, !lookup_singleton_ne by done. done.
Qed.

Lemma due_timers_taken_once_witness :
  ∃ s', take_due_processing_time by_elements demo_to_vec demo_from_slice 7 demo_timers = (s', Ok [timer_at_5])
    ∧ stores demo_to_vec s' (not_due 7 demo_timer_map).
Proof.
  run_call (take_due_processing_time by_elements demo_to_vec demo_from_slice 7 demo_timers)
    (@Ok string _ [timer_at_5]) s' E.
  exists s'. split; [reflexivity|].
  exact (proj1 (proj2 (proj2 (due_timers_taken_once by_elements demo_to_vec demo_from_slice 7 demo_timers
    demo_timer_map s' [timer_at_5] by_elements_perm demo_serde demo_stores E)))).
Defined.

(** The firing loop neither misses nor busy-waits: it delivers exactly when a
    stored processing-time timer is due, otherwise sleeps until the earliest
    deadline and no longer, and waits for a change when no such timer is set. *)
Theorem firing_loop_on_time {P : Profile} {S} `{KvLaws S} to_vec from_slice now (s : S) T f :
  (∀ e bs, to_vec e = Ok bs → from_slice bs = Ok e) → is_i 64 now →
  (∀ k e, T !! k = Some e → is_i 64 (fire_timestamp e) ∧ (fire_timestamp e - now < 2 ^ 63)%Z) →
  stores to_vec s T → firing from_slice now s = Ok f →
  match f with
  | RetryLater => ∃ e, next_processing_deadline from_slice s = Err e
  | AwaitChange => ∀ e, e ∈ timers_of T → te_domain e = EventTime
  | SleepFor d => (0 < d)%Z ∧ ∃ e, e ∈ timers_of T ∧ te_domain e = ProcessingTime
      ∧ fire_timestamp e = (now + d)%Z
      ∧ ∀ e', e' ∈ timers_of T → te_domain e' = ProcessingTime → (now + d ≤ fire_timestamp e')%Z
  | Deliver => ∃ e, e ∈ timers_of T ∧ is_due_at_clock now e = true
  end.
Proof. intros Hserde. by apply firing_spec. Qed.

Lemma firing_loop_on_time_witness :
  firing (P:=debug_profile) demo_from_slice 2 demo_timers = Ok (SleepFor 3)
  ∧ ∃ e, e ∈ timers_of demo_timer_map ∧ te_domain e = ProcessingTime ∧ fire_timestamp e = (2 + 3)%Z.
Proof.
  assert (E : firing (P:=debug_profile) demo_from_slice 2 demo_timers = Ok (SleepFor 3)) by (vm_compute; reflexivity).
  split; [exact E|].
  destruct (firing_loop_on_time (P:=debug_profile) demo_to_vec demo_from_slice 2 demo_timers demo_timer_map
    (SleepFor 3) demo_serde) as (_ & e & H1 & H2 & H3 & _).
  - vm_compute. split; congruence.
  - apply (bool_decide_eq_true_1 (map_Forall (λ _ e,
      (- 2 ^ 63 ≤ fire_timestamp e < 2 ^ 63)%Z ∧ (fire_timestamp e - 2 < 2 ^ 63)%Z) demo_timer_map)).
    vm_compute. reflexivity.
  - exact demo_stores.
  - exact E.
  - exists e. split; [exact H1|]. split; [exact H2|exact H3].
Defined.

(** Taking due timers reads and deletes in two steps, and a timer set between
    them can be lost: there is an interleaving in which a timer is set again for a
    later time, the call returns success, and the timer is then neither in the
    store nor among the timers taken. *)
Theorem concurrent_set_can_be_lost :
  ∃ (s s1 s2 : gmap bytes bytes) due e,
    due_processing_time demo_from_slice 7 s = Ok due
    ∧ upsert demo_to_vec e s = (s1, Ok ())
    ∧ delete_all by_elements demo_to_vec due s1 = (s2, Ok ())
    ∧ (7 < fire_timestamp e)%Z ∧ (e ∉ due)
    ∧ timer_get demo_from_slice (storage_key (te_key e)) s2 = Ok None.
Proof.
  exists demo_timers.
  run_call (upsert demo_to_vec timer_at_9 demo_timers) (@Ok string unit ()) s1 E1. exists s1.
  run_call (delete_all by_elements demo_to_vec [timer_at_5] s1) (@Ok string unit ()) s2 E2.
  exists s2, [timer_at_5], timer_at_9. split_and!; [vm_compute; reflexivity|done|done|vm_compute; reflexivity| |].
  - apply (bool_decide_eq_true_1 _). vm_compute. reflexivity.
  - change s2 with (fst (s2, @Ok string unit ())). rewrite <- E2.
    change s1 with (fst (s1, @Ok string unit ())). rewrite <- E1. vm_compute. reflexivity.
Qed.
