(* ===== verification/Scheduler.v ===== *)
(** The scheduler (engine/scheduler.rs) over the executable graph
    (fusion/pipeline.rs, fusion/stage.rs): how a job's graph becomes the state of
    the watermark manager, which bundles start next, what a completed bundle and a
    due timer do. *)
From S2P Require Import Prelude Bytes Varint Windows Kv UserState Timers.
From S2P Require Import Watermark WatermarkRefresh WatermarkBundles WatermarkInvariant.

(** * The executable graph *)

(** What the scheduler reads of an [ExecutableStage]: its id, the ids of its
    transforms, its side inputs and outputs, and [requires_time_sorted_input]. *)
Record ExecutableStage : Type := mkWorker {
  es_id : StageId;
  es_transforms : list string;
  es_side_inputs : list PCollectionId;
  es_output_pcols : list PCollectionId;
  requires_time_sorted_input : bool;
}.

(** A runner transform: its id, the URNs of the specs it carries, its outputs and
    [source_auto_finishes]. *)
Record RunnerTransform : Type := mkRunner {
  rt_id : StageId;
  rt_spec_urns : list string;
  rt_output_pcols : list PCollectionId;
  rt_source_auto_finishes : bool;
}.

Inductive SplittableProcessKind : Type :=
| ProcessElements | ProcessKeyedElements | ProcessSizedElementsAndRestrictions.

#[export] Instance SplittableProcessKind_eq_dec : EqDecision SplittableProcessKind.
Proof. solve_decision. Defined.

Inductive ExecutableNode : Type :=
| Worker (stage : ExecutableStage)
| Runner (transform : RunnerTransform)
| Splittable (id : StageId) (process_kind : SplittableProcessKind)
    (output_pcols : list PCollectionId) (graph : list ExecutableNode).

Definition node_id (node : ExecutableNode) : StageId :=
  match node with
  | Worker s => es_id s
  | Runner r => rt_id r
  | Splittable id _ _ _ => id
  end.

Definition node_output_pcols (node : ExecutableNode) : list PCollectionId :=
  match node with
  | Worker s => es_output_pcols s
  | Runner r => rt_output_pcols r
  | Splittable _ _ outs _ => outs
  end.

(** The worker stages of a node, those folded into a splittable run included. *)
Fixpoint worker_stages (node : ExecutableNode) : list ExecutableStage :=
  match node with
  | Worker s => [s]
  | Splittable _ _ _ nested => concat (map worker_stages nested)
  | Runner _ => []
  end.

(** An edge; [produced_pcol_id] is the part of [ConsumerMetaData] read here. *)
Record GraphEdge : Type := mkEdge {
  e_source : nat;
  e_target : nat;
  produced_pcol_id : PCollectionId;
}.

(** The components the gates read: the windowing strategy of each PCollection, and
    the URN of the window fn and the allowed lateness of each strategy. *)
Record Components : Type := mkComponents {
  pcollections : gmap PCollectionId string;
  windowing_strategies : gmap string (option string * Z);
}.

(** Edges are listed in the order in which [edges_directed] yields them. *)
Record ExecutableGraph : Type := mkGraph {
  g_nodes : list ExecutableNode;
  g_edges : list GraphEdge;
  g_components : Components;
}.

Definition incoming (g : ExecutableGraph) (index : nat) : list GraphEdge :=
  List.filter (λ e, (e_target e =? index)%nat) (g_edges g).
Definition outgoing (g : ExecutableGraph) (index : nat) : list GraphEdge :=
  List.filter (λ e, (e_source e =? index)%nat) (g_edges g).

(** * [WatermarkManager::from_executable_graph] *)

Definition edge_strategy (g : ExecutableGraph) (e : GraphEdge) : option (option string * Z) :=
  strategy_id ← pcollections (g_components g) !! produced_pcol_id e;
  windowing_strategies (g_components g) !! strategy_id.

Definition GROUP_BY_KEY_TRANSFORM : string := "beam:transform:group_by_key:v1".

Definition is_aggregation (node : ExecutableNode) : bool :=
  match node with
  | Runner r => existsb (λ urn, bool_decide (urn = GROUP_BY_KEY_TRANSFORM)) (rt_spec_urns r)
  | _ => false
  end.

Definition wants_time_sorted_input (node : ExecutableNode) : bool :=
  match node with Worker s => requires_time_sorted_input s | _ => false end.

(** [result.ok()] on an operation that returns the changed manager: an error leaves
    the manager as it was. *)
Definition or_unchanged (m : WatermarkManager) (r : result WatermarkManager) : WatermarkManager :=
  match r with Ok m' => m' | _ => m end.

Definition main_inputs_of (g : ExecutableGraph) (index : nat) : list PCollectionId :=
  dedup (sort_ids (produced_pcol_id <$> incoming g index)).
Definition side_inputs_of (node : ExecutableNode) : list PCollectionId :=
  dedup (sort_ids (concat (es_side_inputs <$> worker_stages node))).
Definition outputs_of (g : ExecutableGraph) (index : nat) (node : ExecutableNode) : list PCollectionId :=
  dedup (sort_ids (node_output_pcols node ++ (produced_pcol_id <$> outgoing g index))).

(** The body of the loop over the nodes: register, then the settings of the stage. *)
Definition register_node (g : ExecutableGraph) (m : WatermarkManager) (index : nat)
    (node : ExecutableNode) : WatermarkManager :=
  let id := node_id node in
  let m := add_stage m id (main_inputs_of g index) (side_inputs_of node) (outputs_of g index node) in
  let m :=
    match node with
    | Runner r =>
        if negb (rt_source_auto_finishes r)
        then or_unchanged m (set_source_auto_finish m id false) else m
    | _ => m
    end in
  let edges := edge_strategy g <$> incoming g index in
  match aggregation_required_watermark (is_aggregation node) edges with
  | Some required =>
      let m := or_unchanged m (set_stage_kind m id WatermarkGated) in
      or_unchanged m (set_stage_required_watermark m id required)
  | None =>
    match time_sorted_input_required_watermark (wants_time_sorted_input node) edges with
    | Some required =>
        let m := or_unchanged m (set_stage_kind m id TimeSortedInputWatermarkGated) in
        or_unchanged m (set_stage_required_watermark m id required)
    | None => m
    end
  end.

Definition indexed {A} (l : list A) : list (nat * A) := imap pair l.

Definition from_executable_graph (g : ExecutableGraph) : WatermarkManager :=
  foldl (λ m '(index, node), register_node g m index node) new_manager (indexed (g_nodes g)).

(** * The scheduler *)

Record NodeScheduler : Type := mkScheduler {
  sched_graph : ExecutableGraph;
  watermarks : WatermarkManager;
  index_of : gmap StageId nat;
  transform_to_stage : gmap string StageId;
}.

Definition with_watermarks (s : NodeScheduler) (m : WatermarkManager) : NodeScheduler :=
  mkScheduler (sched_graph s) m (index_of s) (transform_to_stage s).

(** [splittable_max_in_flight_from]: [configured] is the environment variable when
    it is set, as [trim().parse::<usize>()] reads it; [parallelism] what
    [available_parallelism] returns. *)
Definition splittable_max_in_flight_from (configured : option (option nat)) (parallelism : option nat)
    : nat :=
  match configured with
  | Some (Some parsed) => Nat.max parsed 1
  | _ => Nat.max 1 (Nat.min (default 1%nat parallelism) 4)
  end.

Definition build_index (g : ExecutableGraph) : gmap StageId nat :=
  foldl (λ idx '(index, node), <[node_id node := index]> idx) ∅ (indexed (g_nodes g)).

Definition build_transforms (g : ExecutableGraph) : gmap string StageId :=
  foldl (λ t node,
    match node with
    | Worker s => foldl (λ t tr, <[tr := es_id s]> t) t (es_transforms s)
    | _ => t
    end) ∅ (g_nodes g).

Definition allow_residuals (concurrency : nat) (m : WatermarkManager) (node : ExecutableNode)
    : WatermarkManager :=
  match node with
  | Splittable id ProcessSizedElementsAndRestrictions _ _ =>
      or_unchanged m (set_stage_max_in_flight m id concurrency)
  | _ => m
  end.

Definition scheduler_new (concurrency : nat) (g : ExecutableGraph) : NodeScheduler :=
  mkScheduler g
    (foldl (allow_residuals concurrency) (from_executable_graph g) (g_nodes g))
    (build_index g) (build_transforms g).

Definition queued_bundles (m : WatermarkManager) (stage : StageId) : nat :=
  match stages m !! stage with Some s => queued s | None => 0%nat end.

(** The [while] loop of [next_nodes] for one stage: the manager and the number of
    bundles started.  Every round takes one of the stage's [max_in_flight] slots. *)
Fixpoint start_loop (fuel : nat) (m : WatermarkManager) (stage : StageId) : WatermarkManager * nat :=
  match fuel with
  | O => (m, 0%nat)
  | S fuel =>
    match start_bundle m stage with
    | Ok m =>
        if (queued_bundles m stage =? 0)%nat then (m, 1%nat)
        else let '(m, n) := start_loop fuel m stage in (m, S n)
    | _ => (m, 0%nat)
    end
  end.

Definition slots (m : WatermarkManager) (stage : StageId) : nat :=
  match stages m !! stage with Some s => (max_in_flight s - in_flight s)%nat | None => 0%nat end.

Definition start_stage (s : NodeScheduler) (acc : WatermarkManager * list (nat * StageId))
    (stage : StageId) : WatermarkManager * list (nat * StageId) :=
  let '(m, next) := acc in
  match index_of s !! stage with
  | None => (m, next)
  | Some index =>
      let '(m', n) := start_loop (slots m stage) m stage in
      (m', next ++ replicate n (index, stage))
  end.

(** [next_nodes]; a started bundle is the node's index and id. *)
Definition next_nodes (s : NodeScheduler) : NodeScheduler * list (nat * StageId) :=
  let m := (refresh (watermarks s)).1 in
  let '(m', next) := foldl (start_stage s) (m, []) (ready_stages m) in
  (with_watermarks s m', next).

(** [mark_complete_with_min_and_input]; [graph[idx]] panics out of range. *)
Definition mark_complete_with_min_and_input (s : NodeScheduler) (idx : nat)
    (output_min_ts : option Z) (input_count : option nat) : result NodeScheduler :=
  match g_nodes (sched_graph s) !! idx with
  | None => Panic "node index out of bounds"
  | Some node =>
    let stage := node_id node in
    let m := watermarks s in
    let source := match stages m !! stage with Some st => is_source st | None => false end in
    let m :=
      if source && source_auto_finishes m stage
      then or_unchanged m (report_source_finished m stage) else m in
    let m :=
      match complete_bundle_with_min_and_input m stage output_min_ts input_count with
      | Ok (m', _) => m'
      | _ => m
      end in
    Ok (with_watermarks s (refresh m).1)
  end.

Definition mark_complete_with_min (s : NodeScheduler) (idx : nat) (output_min_ts : option Z) :=
  mark_complete_with_min_and_input s idx output_min_ts None.
Definition mark_complete (s : NodeScheduler) (idx : nat) := mark_complete_with_min s idx None.

(** ** Timers *)

(** [by_stage.entry(stage).or_default().push(entry)] and the re-arm. *)
Definition promote (acc : WatermarkManager * gmap StageId (list TimerEntry)) (stage : StageId)
    (entry : TimerEntry) : WatermarkManager * gmap StageId (list TimerEntry) :=
  let '(m, by_stage) := acc in
  (or_unchanged m (mark_rerun m stage),
   <[stage := default [] (by_stage !! stage) ++ [entry]]> by_stage).

(** A [BTreeMap] iterates in the order of its keys. *)
Definition groups (by_stage : gmap StageId (list TimerEntry)) : list (StageId * list TimerEntry) :=
  (λ stage, (stage, default [] (by_stage !! stage))) <$> sort_ids (elements (dom by_stage)).

Definition promote_due_timers (s : NodeScheduler) (due : list TimerEntry)
    : NodeScheduler * list (StageId * list TimerEntry) :=
  let '(m, by_stage) := foldl (λ acc entry,
    match transform_to_stage s !! tk_transform_id (te_key entry) with
    | Some stage => promote acc stage entry
    | None => acc
    end) (watermarks s, ∅) due in
  (with_watermarks s m, groups by_stage).

Definition promote_event_time (s : NodeScheduler)
    (acc : WatermarkManager * gmap StageId (list TimerEntry)) (entry : TimerEntry)
    : WatermarkManager * gmap StageId (list TimerEntry) :=
  if decide (te_domain entry = EventTime) then
    match transform_to_stage s !! tk_transform_id (te_key entry) with
    | None => acc
    | Some stage =>
        let watermark := default MIN_TIMESTAMP (effective_input_watermark acc.1 stage) in
        if is_due_at_watermark entry watermark then promote acc stage entry else acc
    end
  else acc.

Definition promote_due_event_time_timers (s : NodeScheduler) (timers : list TimerEntry)
    : NodeScheduler * list (StageId * list TimerEntry) :=
  let '(m, by_stage) := foldl (promote_event_time s) (watermarks s, ∅) timers in
  (with_watermarks s m, groups by_stage).

Definition stage_for_transform (s : NodeScheduler) (transform_id : string) : option StageId :=
  transform_to_stage s !! transform_id.

Definition scheduler_is_complete (s : NodeScheduler) : bool := is_complete (watermarks s).
