(* ===== verification/SchedulerSpec.v ===== *)
(** What the scheduler guarantees: it builds a well-formed manager, never exceeds a
    stage's concurrency, starts every stage that is ready, routes each due timer to
    its stage, and does not stall a job that has work left. *)
From S2P Require Import Prelude Bytes Varint Windows Kv UserState Timers.
From S2P Require Import Watermark WatermarkRefresh WatermarkBundles WatermarkInvariant Scheduler.
Set Warnings "-clear-no-such-hyp".

(** * Building the manager *)

Lemma or_unchanged_reachable m o : reachable m → reachable (or_unchanged m (apply_op m o)).
Proof.
  intros Hm. unfold or_unchanged. destruct (apply_op m o) as [m'| |] eqn:E; [|done..].
  by eapply reachable_op.
Qed.

Lemma or_unchanged_runs m0 m o :
  is_add o = false → runs m0 m → runs m0 (or_unchanged m (apply_op m o)).
Proof.
  intros Ho Hm. unfold or_unchanged. destruct (apply_op m o) as [m'| |] eqn:E; [|done..].
  by eapply runs_op.
Qed.

Lemma register_node_reachable g m i node : reachable m → reachable (register_node g m i node).
Proof.
  intros Hm. unfold register_node. set (m1 := add_stage m _ _ _ _).
  assert (H1 : reachable m1) by (by apply (reachable_op m (AddStage (node_id node) (main_inputs_of g i)
    (side_inputs_of node) (outputs_of g i node)))).
  cbv zeta. set (m2 := match node with Worker _ => _ | _ => _ end).
  assert (H2 : reachable m2).
  { unfold m2. destruct node as [|r|]; [done| |done]. destruct (negb _); [|done].
    by apply (or_unchanged_reachable m1 (SetAutoFinish _ false)). }
  assert (Hset : ∀ k w, reachable (or_unchanged (or_unchanged m2 (set_stage_kind m2 (node_id node) k))
      (set_stage_required_watermark (or_unchanged m2 (set_stage_kind m2 (node_id node) k)) (node_id node) w))).
  { intros k w. apply (or_unchanged_reachable _ (SetRequired (node_id node) w)).
    by apply (or_unchanged_reachable m2 (SetKind (node_id node) k)). }
  destruct (aggregation_required_watermark _ _); [apply Hset|].
  destruct (time_sorted_input_required_watermark _ _); [apply Hset|done].
Qed.

Lemma register_all_reachable g l m :
  reachable m → reachable (foldl (λ m '(index, node), register_node g m index node) m l).
Proof.
  revert m. induction l as [|[i node] l IH]; intros m Hm; [done|]. by apply IH, register_node_reachable.
Qed.

Lemma from_graph_reachable g : reachable (from_executable_graph g).
Proof. apply register_all_reachable. constructor. Qed.

(** ** Every stage is a node of the graph *)

(** [s] is the initial state of the stage of node [i]. *)
Definition stage_of (g : ExecutableGraph) (i : nat) (node : ExecutableNode) (s : StageState) : Prop :=
  main_inputs s = main_inputs_of g i ∧ side_inputs s = side_inputs_of node
  ∧ outputs s = outputs_of g i node ∧ completed s = false.

Lemma or_update_stages m id s M f :
  stages m = <[id := s]> M → stages (or_unchanged m (update_stage m id f)) = <[id := f s]> M.
Proof.
  intros E. unfold update_stage. rewrite E, lookup_insert_eq. simpl. by rewrite E, insert_insert_eq.
Qed.

Lemma or_update_source_stages m id s M f :
  stages m = <[id := s]> M →
  ∃ src, stages (or_unchanged m (update_source m id f)) = <[id := set_source src s]> M.
Proof.
  intros E. unfold update_source. rewrite E, lookup_insert_eq. destruct (source s) as [src|] eqn:Es; simpl.
  - exists (Some (f src)). by rewrite E, insert_insert_eq.
  - exists None. rewrite E. f_equal. destruct s. simpl in Es. by subst.
Qed.

Lemma register_node_stages g m i node :
  ∃ s, stages (register_node g m i node) = <[node_id node := s]> (stages m) ∧ stage_of g i node s.
Proof.
  unfold register_node. set (m1 := add_stage m _ _ _ _). cbv zeta.
  set (m2 := match node with Worker _ => _ | _ => _ end).
  assert (H1 : ∃ s, stages m1 = <[node_id node := s]> (stages m) ∧ stage_of g i node s) by (by eexists).
  assert (H2 : ∃ s, stages m2 = <[node_id node := s]> (stages m) ∧ stage_of g i node s).
  { unfold m2. destruct node as [|r|]; [done| |done]. destruct (negb _); [|done].
    destruct H1 as (s & E & Hs). destruct (or_update_source_stages _ _ _ _
      (λ s, mkSource (partitions s) (finished s) false) E) as (src & E'). by exists (set_source src s). }
  assert (Hset : ∀ k w, ∃ s, stages (or_unchanged (or_unchanged m2 (set_stage_kind m2 (node_id node) k))
      (set_stage_required_watermark (or_unchanged m2 (set_stage_kind m2 (node_id node) k)) (node_id node) w))
      = <[node_id node := s]> (stages m) ∧ stage_of g i node s).
  { intros k w. destruct H2 as (s & E & Hs). exists (set_required_watermark w (set_kind k s)). split; [|done].
    apply or_update_stages, or_update_stages. done. }
  destruct (aggregation_required_watermark _ _); [apply Hset|].
  destruct (time_sorted_input_required_watermark _ _); [apply Hset|done].
Qed.

Lemma register_all_stages g l m id s :
  stages (foldl (λ m '(index, node), register_node g m index node) m l) !! id = Some s →
  (∃ i node, (i, node) ∈ l ∧ node_id node = id ∧ stage_of g i node s) ∨ stages m !! id = Some s.
Proof.
  revert m. induction l as [|[i node] l IH]; intros m H; [by right|]. cbn [foldl] in H.
  destruct (IH _ H) as [(j & nd & Hin & Hid & Hst)|H'].
  - left. exists j, nd. split; [by right|done].
  - destruct (register_node_stages g m i node) as (s0 & E0 & Hs0). rewrite E0 in H'.
    destruct (decide (id = node_id node)) as [->|Hne].
    + rewrite lookup_insert_eq in H'. injection H' as <-. left. exists i, node. split; [by left|done].
    + rewrite lookup_insert_ne in H' by done. by right.
Qed.

Lemma indexed_snd {A} (l : list A) : (indexed l).*2 = l.
Proof.
  unfold indexed. apply list_eq. intros i. rewrite list_lookup_fmap, list_lookup_imap.
  by destruct (l !! i).
Qed.

Lemma elem_of_indexed {A} (l : list A) i x : (i, x) ∈ indexed l ↔ l !! i = Some x.
Proof.
  unfold indexed. rewrite elem_of_lookup_imap. split.
  - intros (j & y & E & Hy). by injection E as -> ->.
  - intros H. eauto.
Qed.

Lemma from_graph_lookup g id s :
  stages (from_executable_graph g) !! id = Some s →
  ∃ i node, g_nodes g !! i = Some node ∧ node_id node = id ∧ stage_of g i node s.
Proof.
  intros H. unfold from_executable_graph in H. apply register_all_stages in H.
  destruct H as [(i & node & Hin & Hid & Hs)|H]; [|by cbn [new_manager stages] in H; rewrite lookup_empty in H].
  exists i, node. by rewrite <- elem_of_indexed.
Qed.

Lemma register_all_dom g l m id :
  is_Some (stages (foldl (λ m '(index, node), register_node g m index node) m l) !! id) ↔
  id ∈ node_id <$> l.*2 ∨ is_Some (stages m !! id).
Proof.
  revert m. induction l as [|[i node] l IH]; intros m; cbn [foldl].
  { split; [by right|]. intros [H|H]; [by apply elem_of_nil in H|done]. }
  rewrite IH. destruct (register_node_stages g m i node) as (s & -> & _).
  rewrite !fmap_cons, elem_of_cons. cbn [snd]. destruct (decide (id = node_id node)) as [->|Hne].
  - rewrite lookup_insert_eq. naive_solver.
  - rewrite lookup_insert_ne by done. naive_solver.
Qed.

Lemma from_graph_node g i node :
  NoDup (node_id <$> g_nodes g) → g_nodes g !! i = Some node →
  ∃ s, stages (from_executable_graph g) !! node_id node = Some s ∧ stage_of g i node s.
Proof.
  intros Hn E. assert (Hd : is_Some (stages (from_executable_graph g) !! node_id node)).
  { unfold from_executable_graph. apply register_all_dom. left. rewrite indexed_snd.
    apply list_elem_of_fmap. exists node. split; [done|]. by eapply list_elem_of_lookup_2. }
  destruct Hd as [s Hs]. exists s. split; [done|].
  destruct (from_graph_lookup g _ s Hs) as (j & nd & Ej & Hid & Hst).
  assert (j = i) as ->.
  { apply (NoDup_lookup (node_id <$> g_nodes g) j i (node_id node) Hn);
      rewrite list_lookup_fmap, ?Ej, ?E; simpl; by rewrite ?Hid. }
  by simplify_eq.
Qed.

(** ** The pipeline as it is handed to the dispatcher *)

(** Distinct ids, edges between nodes, every side input produced by a node. *)
Record wf_graph (g : ExecutableGraph) : Prop := {
  wg_ids : NoDup (node_id <$> g_nodes g);
  wg_edges : ∀ e, e ∈ g_edges g → e_source e < length (g_nodes g);
  wg_side : ∀ node p, node ∈ g_nodes g → p ∈ side_inputs_of node →
    ∃ j nj, g_nodes g !! j = Some nj ∧ p ∈ outputs_of g j nj;
}.

(** A node comes after the nodes whose outputs it reads. *)
Definition acyclic (g : ExecutableGraph) (rank : StageId → nat) : Prop :=
  ∀ i j ni nj p, g_nodes g !! i = Some ni → g_nodes g !! j = Some nj →
    p ∈ main_inputs_of g i ++ side_inputs_of ni → p ∈ outputs_of g j nj →
    rank (node_id nj) < rank (node_id ni).

Lemma main_input_produced g i p :
  wf_graph g → p ∈ main_inputs_of g i → ∃ j nj, g_nodes g !! j = Some nj ∧ p ∈ outputs_of g j nj.
Proof.
  intros Hg Hp. unfold main_inputs_of in Hp. rewrite elem_of_dedup, elem_of_sort_ids in Hp.
  apply list_elem_of_fmap in Hp as (e & -> & He). unfold incoming in He.
  rewrite list_elem_of_In, filter_In, <- list_elem_of_In in He. destruct He as [He _].
  destruct (lookup_lt_is_Some_2 _ _ (wg_edges g Hg e He)) as [nj Ej]. exists (e_source e), nj. split; [done|].
  unfold outputs_of. rewrite elem_of_dedup, elem_of_sort_ids, elem_of_app. right.
  apply list_elem_of_fmap. exists e. split; [done|]. unfold outgoing.
  rewrite list_elem_of_In, filter_In, <- list_elem_of_In. split; [done|]. apply Nat.eqb_refl.
Qed.

Lemma from_graph_built g : wf_graph g → built (from_executable_graph g).
Proof.
  intros Hg. pose proof (wg_ids g Hg) as Hn. split.
  - apply reachable_ok, from_graph_reachable.
  - intros id s E. by destruct (from_graph_lookup g id s E) as (i & node & _ & _ & _ & _ & _ & ?).
  - intros id s p E Hp.
    destruct (from_graph_lookup g id s E) as (i & node & Ei & _ & Hmi & Hsi & _ & _).
    assert (∃ j nj, g_nodes g !! j = Some nj ∧ p ∈ outputs_of g j nj) as (j & nj & Ej & Hj).
    { rewrite Hmi, Hsi, elem_of_app in Hp. destruct Hp as [Hp|Hp]; [by eapply main_input_produced|].
      apply (wg_side g Hg node); [|done]. by eapply list_elem_of_lookup_2. }
    destruct (from_graph_node g j nj Hn Ej) as (ps & Eps & _ & _ & Ho & _).
    exists (node_id nj), ps. by rewrite Ho.
Qed.

Lemma from_graph_ranked g rank :
  acyclic g rank → outputs_ranked (from_executable_graph g) rank.
Proof.
  intros Ha id s p pid ps E Hp Eps Ho.
  destruct (from_graph_lookup g id s E) as (i & ni & Ei & <- & Hmi & Hsi & _).
  destruct (from_graph_lookup g pid ps Eps) as (j & nj & Ej & <- & _ & _ & Ho' & _).
  rewrite Hmi, Hsi in Hp. rewrite Ho' in Ho. by apply (Ha i j ni nj p).
Qed.

(** * Stage identities never change *)

Lemma same_stages_trans m1 m2 m3 : same_stages m1 m2 → same_stages m2 m3 → same_stages m1 m3.
Proof.
  intros (A1 & A2 & A3 & A4) (B1 & B2 & B3 & B4). split_and!; [congruence..|]. intros id.
  specialize (A4 id). specialize (B4 id). unfold same_identity in *.
  destruct (stages m1 !! id), (stages m2 !! id), (stages m3 !! id); try done. naive_solver congruence.
Qed.

Lemma update_stage_same m id f m' :
  (∀ s, same_identity s (f s)) → update_stage m id f = Ok m' → same_stages m m'.
Proof.
  unfold update_stage. intros Hf H. destruct (stages m !! id) as [s|] eqn:E; [|done].
  injection H as <-. by apply (same_stages_insert m id s).
Qed.

Lemma update_source_same m id f m' : update_source m id f = Ok m' → same_stages m m'.
Proof.
  unfold update_source. intros H. destruct (stages m !! id) as [s|] eqn:E; [|done].
  destruct (source s); [|done]. injection H as <-. by apply (same_stages_insert m id s).
Qed.

Lemma map_imap_same m (f : StageId → StageState → StageState) :
  (∀ i s, same_identity s (f i s)) → same_stages m (with_stages m (map_imap (λ i s, Some (f i s)))).
Proof.
  intros Hf. do 3 (split; [done|]). intros id. simpl. rewrite map_lookup_imap.
  destruct (stages m !! id); [apply Hf|done].
Qed.

Lemma refresh_same m : manager_ok m → same_stages m (refresh m).1.
Proof.
  intros Hm. destruct (refresh_progress m (manager_ok_bounded m Hm)) as (adv & Hp & _ & _).
  apply manager_le_same, (prog_le _ _ _ _ Hp).
Qed.

Lemma clear_same m : same_stages m (clear_empty_inputs m).
Proof.
  do 3 (split; [done|]). intros id. simpl. rewrite lookup_fmap.
  destruct (stages m !! id); [|done]. simpl. by case_decide.
Qed.

Lemma apply_op_same m o m' :
  manager_ok m → is_add o = false → apply_op m o = Ok m' → same_stages m m'.
Proof.
  intros Hm Ho H. destruct o; cbn [apply_op] in H; try done;
    try (by eapply update_source_same); try (by eapply update_stage_same; [|exact H]);
    try (injection H as <-; by apply map_imap_same).
  - apply start_bundle_spec in H as (s & E & _ & _ & _ & _ & ->).
    apply (same_stages_insert m stage s); [done|apply started_identity].
  - inv_bind H. destruct a as [m1 nr]. injection H as <-.
    apply complete_bundle_spec in E as (s & nr0 & Es & _ & V & _).
    eapply same_stages_trans; [|by eapply visited_same]. by apply (same_stages_insert m stage s).
  - injection H as <-. destruct (release_empty_cases m) as [-> | ->]; [|apply clear_same].
    eapply same_stages_trans; [apply clear_same|]. by apply refresh_same, clear_empty_inputs_ok.
  - injection H as <-. by apply refresh_same.
Qed.

Lemma runs_ok m0 m : manager_ok m0 → runs m0 m → manager_ok m ∧ same_stages m0 m.
Proof.
  intros H0. induction 1 as [|m o m' _ [Hm Hs] Ho H]; [split; [done|apply same_stages_refl]|].
  split; [by eapply apply_op_ok|]. eapply same_stages_trans; [done|]. by eapply apply_op_same.
Qed.

Lemma runs_trans m0 m1 m2 : runs m0 m1 → runs m1 m2 → runs m0 m2.
Proof. intros H. induction 1; [done|]. by eapply runs_op. Qed.

Lemma outputs_ranked_same m m' rank : same_stages m m' → outputs_ranked m rank → outputs_ranked m' rank.
Proof.
  intros (_ & _ & _ & Hs) Hr id s' p pid ps' E Hp Ep Ho.
  pose proof (Hs id) as H1. pose proof (Hs pid) as H2. rewrite E in H1. rewrite Ep in H2.
  destruct (stages m !! id) as [s|] eqn:E1; [|done]. destruct (stages m !! pid) as [ps|] eqn:E2; [|done].
  destruct H1 as (A & B & _), H2 as (_ & _ & C). apply (Hr id s p pid ps); congruence.
Qed.

(** * Starting bundles *)

(** The bundles of stage [id] among the started ones. *)
Definition bundles_of (id : StageId) (next : list (nat * StageId)) : nat :=
  length (filter (λ p, p.2 = id) next).

Lemma bundles_of_app id l k : bundles_of id (l ++ k) = bundles_of id l + bundles_of id k.
Proof. unfold bundles_of. by rewrite filter_app, length_app. Qed.

Lemma bundles_of_replicate id n i st :
  bundles_of id (replicate n (i, st)) = if decide (st = id) then n else 0.
Proof.
  unfold bundles_of. induction n as [|n IH]; [by destruct (decide _)|].
  cbn [replicate]. rewrite filter_cons. cbn [snd]. destruct (decide (st = id)); simpl; [by rewrite IH|done].
Qed.

(** What [k] started bundles do to their stage. *)
Record took (s s' : StageState) (k : nat) : Prop := {
  tk_in_flight : in_flight s' = in_flight s + k;
  tk_max : max_in_flight s' = max_in_flight s;
  tk_bound : k = 0 ∨ in_flight s' ≤ max_in_flight s';
  tk_work : k ≤ Nat.max 1 (queued s);
}.

Lemma took_zero s : took s s 0.
Proof. split; [lia|done|by left|lia]. Qed.

Lemma started_fields s :
  in_flight (started s) = in_flight s + 1 ∧ max_in_flight (started s) = max_in_flight s
  ∧ queued (started s) = queued s - 1.
Proof. unfold started. by repeat case_match. Qed.

Lemma with_stages_twice m id a b :
  with_stages (with_stages m (<[id := a]>)) (<[id := b]>) = with_stages m (<[id := b]>).
Proof. unfold with_stages. simpl. by rewrite insert_insert_eq. Qed.

Lemma start_loop_spec n m id s :
  stages m !! id = Some s →
  ∃ k s', start_loop n m id = (with_stages m (<[id := s']>), k) ∧ took s s' k
    ∧ runs m (with_stages m (<[id := s']>))
    ∧ (0 < n → is_ok (start_bundle m id) = true → 0 < k).
Proof.
  revert m s. induction n as [|n IH]; intros m s E.
  all: assert (Hid : with_stages m (<[id := s]>) = m) by (unfold with_stages; rewrite insert_id by done; by destruct m).
  { exists 0, s. rewrite Hid. split_and!; [done|apply took_zero|constructor|lia]. }
  cbn [start_loop]. destruct (start_bundle m id) as [m1| |] eqn:Es.
  2,3: exists 0, s; rewrite Hid; split_and!; [done|apply took_zero|constructor|done].
  assert (R1 : runs m m1) by (by eapply (runs_op m m (StartBundle id)); [constructor| |]).
  apply start_bundle_spec in Es as (s0 & E0 & Hslot & _ & _ & _ & ->). assert (s0 = s) as -> by congruence.
  destruct (started_fields s) as (Fi & Fm & Fq).
  unfold queued_bundles. cbn [with_stages stages]. rewrite lookup_insert_eq, Fq.
  destruct (Nat.eqb_spec (queued s - 1) 0) as [Hq|Hq].
  { exists 1, (started s). split_and!; [done| |done|lia]. split; [done|done|right; lia|lia]. }
  destruct (IH (with_stages m (<[id := started s]>)) (started s)) as (k & s' & -> & [Ti Tm Tb Tw] & R & _).
  { simpl. apply lookup_insert_eq. }
  rewrite with_stages_twice in *. exists (S k), s'. split_and!; [done| | |lia].
  - split; [lia|congruence|right; lia|lia].
  - by eapply runs_trans.
Qed.

(** Enough rounds: a bound above the free slots changes nothing. *)
Lemma start_loop_fuel n k m id :
  slots m id ≤ n → slots m id ≤ k → start_loop n m id = start_loop k m id.
Proof.
  assert (H : ∀ n m, slots m id ≤ n → start_loop n m id = start_loop (slots m id) m id);
    [|intros Hn Hk; by rewrite (H n m Hn), (H k m Hk)].
  clear n k m. induction n as [|n IH]; intros m Hn.
  { by replace (slots m id) with 0 by lia. }
  destruct (start_bundle m id) as [m1| |] eqn:Es.
  2,3: cbn [start_loop]; rewrite Es; destruct (slots m id); [done|]; cbn [start_loop]; by rewrite Es.
  assert (Hs1 : slots m id = S (slots m1 id)).
  { apply start_bundle_spec in Es as (s & E & Hslot & _ & _ & _ & ->). unfold slots. simpl.
    rewrite E, lookup_insert_eq. destruct (started_fields s) as (-> & -> & _). lia. }
  rewrite Hs1. cbn [start_loop]. rewrite Es. destruct (_ =? 0)%nat; [done|]. by rewrite (IH m1) by lia.
Qed.

(** ** One pass over the ready stages *)

(** The outcome of starting the stages of [l] from [m]. *)
Record pass (sc : NodeScheduler) (l : list StageId) (m m' : WatermarkManager)
    (next : list (nat * StageId)) : Prop := {
  ps_runs : runs m m';
  ps_index : ∀ p, p ∈ next → p.2 ∈ l ∧ index_of sc !! p.2 = Some p.1;
  ps_stage : ∀ id s, stages m !! id = Some s →
    ∃ s', stages m' !! id = Some s' ∧ took s s' (bundles_of id next) ∧ (id ∉ l → s' = s);
  ps_progress : ∀ id i, id ∈ l → index_of sc !! id = Some i → is_ok (start_bundle m id) = true →
    0 < bundles_of id next;
}.

Lemma start_bundle_local m m' id :
  stages m !! id = stages m' !! id → is_ok (start_bundle m id) = is_ok (start_bundle m' id).
Proof. unfold start_bundle. intros ->. destruct (stages m' !! id); [|done]. by repeat case_match. Qed.

Lemma start_bundle_slot m id : is_ok (start_bundle m id) = true → 0 < slots m id.
Proof.
  destruct (start_bundle m id) as [m1| |] eqn:E; try done. intros _.
  apply start_bundle_spec in E as (s & E & Hslot & _). unfold slots. rewrite E. lia.
Qed.

Lemma bundles_of_absent id next : (∀ p, p ∈ next → p.2 ≠ id) → bundles_of id next = 0.
Proof.
  intros H. unfold bundles_of. destruct (filter _ next) as [|p l] eqn:E; [done|].
  assert (Hp : p ∈ filter (λ p, p.2 = id) next) by (rewrite E; by left).
  apply list_elem_of_filter in Hp as [Hp Hin]. by destruct (H p Hin).
Qed.

(** One stage, then the rest: the passes add up because a stage occurs once. *)
Lemma pass_cons sc st l m m1 m2 n1 n2 :
  st ∉ l → pass sc [st] m m1 n1 → pass sc l m1 m2 n2 → pass sc (st :: l) m m2 (n1 ++ n2).
Proof.
  intros Hst [R1 X1 S1 P1] [R2 X2 S2 P2].
  assert (Ho : ∀ id, id ≠ st → bundles_of id n1 = 0).
  { intros id Hne. apply bundles_of_absent. intros p Hp He. destruct (X1 p Hp) as [Hin _].
    apply list_elem_of_singleton in Hin. congruence. }
  assert (Hl : ∀ id, id ∉ l → bundles_of id n2 = 0).
  { intros id Hid. apply bundles_of_absent. intros p Hp <-. by destruct (X2 p Hp). }
  split.
  - by eapply runs_trans.
  - intros p [Hp|Hp]%elem_of_app; [destruct (X1 p Hp) as [Hin ?]|destruct (X2 p Hp)]; (split; [|done]).
    + apply list_elem_of_singleton in Hin as ->. by left.
    + by right.
  - intros id s E. destruct (S1 id s E) as (s1 & E1 & T1 & F1).
    destruct (S2 id s1 E1) as (s2 & E2 & T2 & F2). exists s2. split; [done|]. rewrite bundles_of_app.
    destruct (decide (id = st)) as [->|Hne].
    + rewrite (Hl st Hst), Nat.add_0_r. rewrite (F2 Hst). split; [done|].
      intros Hn. destruct Hn. by left.
    + rewrite (Ho id Hne), Nat.add_0_l.
      assert (s1 = s) as -> by (apply F1; rewrite list_elem_of_singleton; done). split; [done|].
      intros Hn. apply F2. intros Hin. apply Hn. by right.
  - intros id i Hin Hi Hok. rewrite bundles_of_app. destruct (decide (id = st)) as [->|Hne].
    + pose proof (P1 st i ltac:(by left) Hi Hok). lia.
    + apply elem_of_cons in Hin as [?|Hin]; [done|].
      enough (0 < bundles_of id n2) by lia. apply (P2 id i Hin Hi). rewrite <- Hok.
      apply start_bundle_local. destruct (stages m !! id) as [s|] eqn:E.
      * destruct (S1 id s E) as (s1 & E1 & _ & F1). rewrite E1. f_equal. apply F1.
        by rewrite list_elem_of_singleton.
      * exfalso. unfold start_bundle in Hok. by rewrite E in Hok.
Qed.

Lemma start_stage_pass sc m next st :
  is_Some (stages m !! st) →
  ∃ m' n, start_stage sc (m, next) st = (m', next ++ n) ∧ pass sc [st] m m' n.
Proof.
  intros [s E]. unfold start_stage.
  destruct (index_of sc !! st) as [i|] eqn:Hi.
  - destruct (start_loop_spec (slots m st) m st s E) as (k & s' & -> & T & R & P).
    exists (with_stages m (<[st := s']>)), (replicate k (i, st)). split; [done|]. split.
    + done.
    + intros p Hp. apply elem_of_replicate in Hp as [-> _]. split; [by left|done].
    + intros id s0 E0. rewrite bundles_of_replicate. simpl. destruct (decide (st = id)) as [<-|Hne].
      * rewrite lookup_insert_eq. exists s'. split; [done|]. assert (s0 = s) as -> by congruence.
        split; [done|]. intros Hn. destruct Hn. by left.
      * rewrite lookup_insert_ne by done. exists s0. split; [done|]. split; [apply took_zero|done].
    + intros id j Hin _ Hok. apply list_elem_of_singleton in Hin as ->.
      rewrite bundles_of_replicate, decide_True by done. apply P; [|done]. by apply start_bundle_slot.
  - exists m, []. rewrite app_nil_r. split; [done|]. split.
    + constructor.
    + intros p Hp. by apply elem_of_nil in Hp.
    + intros id s0 E0. exists s0. split; [done|]. split; [apply took_zero|done].
    + intros id j Hin Hj. apply list_elem_of_singleton in Hin as ->. congruence.
Qed.

Lemma start_all_pass sc l m next :
  NoDup l → (∀ st, st ∈ l → is_Some (stages m !! st)) →
  ∃ m' n, foldl (start_stage sc) (m, next) l = (m', next ++ n) ∧ pass sc l m m' n.
Proof.
  revert m next. induction l as [|st l IH]; intros m next Hn Hs.
  { exists m, []. rewrite app_nil_r. split; [done|]. split.
    - constructor.
    - intros p Hp. by apply elem_of_nil in Hp.
    - intros id s E. exists s. split; [done|]. split; [apply took_zero|done].
    - intros id i Hin. by apply elem_of_nil in Hin. }
  apply NoDup_cons in Hn as [Hst Hn]. cbn [foldl].
  destruct (start_stage_pass sc m next st) as (m1 & n1 & -> & P1); [apply Hs; by left|].
  destruct (IH m1 (next ++ n1) Hn) as (m2 & n2 & -> & P2).
  { intros st' Hin. destruct (Hs st') as [s E]; [by right|].
    destruct (ps_stage _ _ _ _ _ P1 st' s E) as (s' & E' & _). by eexists. }
  exists m2, (n1 ++ n2). rewrite app_assoc. split; [done|]. by eapply pass_cons.
Qed.

Lemma NoDup_ready_stages m : NoDup (ready_stages m).
Proof.
  unfold ready_stages, sort_ids. rewrite merge_sort_Permutation. apply NoDup_filter, NoDup_elements.
Qed.

(** [next_nodes] is one pass over the stages that are ready once the watermarks are
    propagated. *)
Lemma next_nodes_pass sc :
  let m := (refresh (watermarks sc)).1 in
  pass sc (ready_stages m) m (watermarks (next_nodes sc).1) (next_nodes sc).2.
Proof.
  intros m. unfold next_nodes. fold m.
  destruct (start_all_pass sc (ready_stages m) m []) as (m' & n & -> & P).
  - apply NoDup_ready_stages.
  - intros st Hst. apply elem_of_ready_stages, ready_start in Hst as (s & E & _). by eexists.
  - done.
Qed.

(** * Schedules *)

(** What the dispatcher does with a scheduler: poll it, report completions, promote
    timers, and change the manager through [watermarks_mut]. *)
Inductive schedule (s0 : NodeScheduler) : NodeScheduler → Prop :=
| schedule_start : schedule s0 s0
| schedule_next s : schedule s0 s → schedule s0 (next_nodes s).1
| schedule_complete s idx min_ts count s' :
    schedule s0 s → mark_complete_with_min_and_input s idx min_ts count = Ok s' → schedule s0 s'
| schedule_timers s due : schedule s0 s → schedule s0 (promote_due_timers s due).1
| schedule_event_timers s timers : schedule s0 s → schedule s0 (promote_due_event_time_timers s timers).1
| schedule_op s o m : schedule s0 s → is_add o = false → apply_op (watermarks s) o = Ok m →
    schedule s0 (with_watermarks s m).

(** [s'] is [s] with a manager that operations of [s]'s manager lead to. *)
Definition continues (s s' : NodeScheduler) : Prop :=
  s' = with_watermarks s (watermarks s') ∧ runs (watermarks s) (watermarks s').

Lemma continues_refl s : continues s s.
Proof. split; [by destruct s|constructor]. Qed.

Lemma continues_trans s1 s2 s3 : continues s1 s2 → continues s2 s3 → continues s1 s3.
Proof.
  intros [E1 R1] [E2 R2]. split; [|by eapply runs_trans]. rewrite E2, E1. done.
Qed.

Lemma runs_one m o : is_add o = false → runs m (or_unchanged m (apply_op m o)).
Proof. intros Ho. apply or_unchanged_runs; [done|constructor]. Qed.

Lemma next_nodes_continues s : continues s (next_nodes s).1.
Proof.
  split.
  - unfold next_nodes. by destruct (foldl _ _ _).
  - eapply runs_trans; [|apply (ps_runs _ _ _ _ _ (next_nodes_pass s))].
    apply (runs_op _ (watermarks s) Refresh); [constructor|done..].
Qed.

Lemma mark_complete_continues s idx min_ts count s' :
  mark_complete_with_min_and_input s idx min_ts count = Ok s' → continues s s'.
Proof.
  unfold mark_complete_with_min_and_input. destruct (g_nodes (sched_graph s) !! idx) as [node|]; [|done].
  set (src := match stages (watermarks s) !! node_id node with Some st => _ | None => _ end).
  cbv zeta. set (m1 := if src && _ then _ else _). intros [= <-]. split; [done|]. simpl.
  assert (R1 : runs (watermarks s) m1).
  { unfold m1. destruct (_ && _); [by apply (runs_one _ (SourceFinished (node_id node)))|constructor]. }
  eapply runs_trans; [exact R1|].
  destruct (complete_bundle_with_min_and_input m1 (node_id node) min_ts count) as [[m2 nr]| |] eqn:E;
    try (apply (runs_op _ m1 Refresh); [constructor|done..]).
  apply (runs_op _ m2 Refresh); [|done..].
  apply (runs_op _ m1 (CompleteBundle (node_id node) min_ts count)); [constructor|done|]. simpl. by rewrite E.
Qed.

Lemma promote_runs acc st e : runs acc.1 (promote acc st e).1.
Proof. destruct acc as [m b]. by apply (runs_one m (MarkRerun st)). Qed.

Lemma promote_timers_runs s due acc :
  runs acc.1 (foldl (λ acc entry,
    match transform_to_stage s !! tk_transform_id (te_key entry) with
    | Some stage => promote acc stage entry
    | None => acc
    end) acc due).1.
Proof.
  revert acc. induction due as [|e due IH]; intros acc; [constructor|]. cbn [foldl].
  eapply runs_trans; [|apply IH]. destruct (transform_to_stage s !! _); [apply promote_runs|constructor].
Qed.

Lemma promote_event_runs s timers acc : runs acc.1 (foldl (promote_event_time s) acc timers).1.
Proof.
  revert acc. induction timers as [|e timers IH]; intros acc; [constructor|]. cbn [foldl].
  eapply runs_trans; [|apply IH]. unfold promote_event_time. case_decide; [|constructor].
  destruct (transform_to_stage s !! _); [|constructor].
  destruct (is_due_at_watermark _ _); [apply promote_runs|constructor].
Qed.

Lemma schedule_continues s0 s : schedule s0 s → continues s0 s.
Proof.
  induction 1 as [|s _ IH|s idx min_ts count s' _ IH E|s due _ IH|s timers _ IH|s o m _ IH Ho E];
    [apply continues_refl|eapply continues_trans; [exact IH|]..].
  - apply next_nodes_continues.
  - by eapply mark_complete_continues.
  - unfold promote_due_timers.
    pose proof (promote_timers_runs s due (watermarks s, ∅)) as R. by destruct (foldl _ _ _).
  - unfold promote_due_event_time_timers.
    pose proof (promote_event_runs s timers (watermarks s, ∅)) as R. by destruct (foldl _ _ _).
  - split; [done|]. by apply (runs_op _ (watermarks s) o); [constructor|..].
Qed.

(** ** The scheduler of a graph *)

Lemma allow_residuals_runs n m nodes : runs m (foldl (allow_residuals n) m nodes).
Proof.
  revert m. induction nodes as [|node nodes IH]; intros m; [constructor|]. cbn [foldl].
  eapply runs_trans; [|apply IH]. destruct node as [| |id [] outs nested]; try constructor.
  by apply (runs_one m (SetMaxInFlight id n)).
Qed.

Lemma schedule_runs n g s :
  schedule (scheduler_new n g) s → runs (from_executable_graph g) (watermarks s).
Proof.
  intros H. apply schedule_continues in H as [_ R].
  eapply runs_trans; [apply allow_residuals_runs|exact R].
Qed.

Lemma schedule_index n g s : schedule (scheduler_new n g) s → index_of s = build_index g.
Proof. intros H. apply schedule_continues in H as [-> _]. done. Qed.

Lemma build_index_dom (l : list (nat * ExecutableNode)) (idx : gmap StageId nat) id :
  is_Some (foldl (λ idx '(index, node), <[node_id node := index]> idx) idx l !! id) ↔
  id ∈ node_id <$> l.*2 ∨ is_Some (idx !! id).
Proof.
  revert idx. induction l as [|[i node] l IH]; intros idx; cbn [foldl].
  { split; [by right|]. intros [H|H]; [by apply elem_of_nil in H|done]. }
  rewrite IH, !fmap_cons, elem_of_cons. cbn [snd]. destruct (decide (id = node_id node)) as [->|Hne].
  - rewrite lookup_insert_eq. naive_solver.
  - rewrite lookup_insert_ne by done. naive_solver.
Qed.

(** Every registered stage has a node index, so none is skipped by [next_nodes]. *)
Lemma schedule_indexed n g s id :
  schedule (scheduler_new n g) s → is_Some (stages (watermarks s) !! id) → is_Some (index_of s !! id).
Proof.
  intros H [st E]. rewrite (schedule_index n g s H). apply build_index_dom. left. rewrite indexed_snd.
  destruct (runs_ok _ _ (reachable_ok _ (from_graph_reachable g)) (schedule_runs n g s H)) as [_ (_ & _ & _ & Hs)].
  specialize (Hs id). rewrite E in Hs.
  destruct (stages (from_executable_graph g) !! id) as [s0|] eqn:E0; [|done].
  destruct (from_graph_lookup g id s0 E0) as (i & node & Ei & <- & _).
  apply list_elem_of_fmap. exists node. split; [done|]. by eapply list_elem_of_lookup_2.
Qed.

(** ** Progress *)

Lemma refresh_idle m : manager_ok m → idle m → idle (refresh m).1.
Proof.
  intros Hm Hi id s' E'. destruct (refresh_progress m (manager_ok_bounded m Hm)) as (adv & Hp & _ & _).
  destruct (prog_le _ _ _ _ Hp) as (_ & _ & _ & H). specialize (H id). rewrite E' in H.
  destruct (stages m !! id) as [s|] eqn:E; [|done]. destruct H as (R & _). specialize (Hi id s E).
  destruct s, s'. unfold same_rest, set_input, set_output in R. simpl in R. injection R. intros. subst. done.
Qed.

(** Polling an idle scheduler whose job is not complete starts a bundle. *)
Lemma schedule_progress n g rank s :
  wf_graph g → acyclic g rank → schedule (scheduler_new n g) s → idle (watermarks s) →
  is_complete (refresh (watermarks s)).1 = true ∨ (next_nodes s).2 ≠ [].
Proof.
  intros Hg Ha Hs Hi. pose proof (schedule_runs n g s Hs) as R.
  pose proof (from_graph_built g Hg) as Hb.
  destruct (runs_ok _ _ (bt_ok _ Hb) R) as [Hok Hsame].
  set (m := (refresh (watermarks s)).1).
  assert (R' : runs (from_executable_graph g) m) by (by apply (runs_op _ _ Refresh _ R)).
  assert (Hrank : outputs_ranked m rank).
  { eapply outputs_ranked_same; [by apply refresh_same|]. eapply outputs_ranked_same; [done|].
    by apply from_graph_ranked. }
  destruct (runs_no_deadlock _ m rank Hb R' Hrank (refresh_idle _ Hok Hi)) as [Hc|[r Hr]]; [by left|right].
  pose proof (next_nodes_pass s) as P. fold m in P. destruct (ready_start m r Hr) as (st & E & Hst).
  destruct (schedule_indexed n g s r Hs) as [i Hidx].
  { destruct (refresh_same _ Hok) as (_ & _ & _ & Hsr). specialize (Hsr r). fold m in Hsr. rewrite E in Hsr.
    by destruct (stages (watermarks s) !! r). }
  pose proof (ps_progress _ _ _ _ _ P r i) as Hpos. rewrite Hst in Hpos.
  intros Hnil. rewrite Hnil in Hpos. assert (0 < bundles_of r []) as H0; [|by unfold bundles_of in H0; simpl in H0; lia].
  apply Hpos; [by apply elem_of_ready_stages|done|done].
Qed.

(** * Timers reach the stage that owns them *)

(** The stage a processing-time timer goes to. *)
Definition route_timer (s : NodeScheduler) (e : TimerEntry) : option StageId :=
  transform_to_stage s !! tk_transform_id (te_key e).

(** The stage an event-time timer goes to: its owner, once the owner's input
    watermark, held back by unconsumed input, has reached the timer. *)
Definition route_event_timer (s : NodeScheduler) (m : WatermarkManager) (e : TimerEntry) : option StageId :=
  stage ← transform_to_stage s !! tk_transform_id (te_key e);
  if is_due_at_watermark e (default MIN_TIMESTAMP (effective_input_watermark m stage))
  then Some stage else None.

Definition route_all (route : TimerEntry → option StageId)
    (acc : WatermarkManager * gmap StageId (list TimerEntry)) (es : list TimerEntry)
    : WatermarkManager * gmap StageId (list TimerEntry) :=
  foldl (λ acc e, match route e with Some stage => promote acc stage e | None => acc end) acc es.

Lemma promote_effective acc st e id :
  effective_input_watermark (promote acc st e).1 id = effective_input_watermark acc.1 id.
Proof.
  destruct acc as [m b]. unfold promote, or_unchanged, mark_rerun, update_stage, effective_input_watermark. simpl.
  destruct (stages m !! st) as [s|] eqn:E; [|done]. simpl. destruct (decide (id = st)) as [->|Hne].
  - by rewrite lookup_insert_eq, E.
  - by rewrite lookup_insert_ne.
Qed.

Lemma promote_event_route s m acc es :
  (∀ id, effective_input_watermark acc.1 id = effective_input_watermark m id) →
  foldl (promote_event_time s) acc es = route_all (route_event_timer s m) acc es.
Proof.
  unfold route_all. revert acc. induction es as [|e es IH]; intros acc Hacc; [done|]. cbn [foldl].
  assert (Hstep : promote_event_time s acc e =
    match route_event_timer s m e with Some stage => promote acc stage e | None => acc end).
  { unfold promote_event_time, route_event_timer. destruct (transform_to_stage s !! _) as [st|]; simpl.
    - rewrite Hacc. unfold is_due_at_watermark. case_decide as Hd; [by destruct (_ && _)|].
      by rewrite bool_decide_false.
    - by case_decide. }
  rewrite Hstep. apply IH. intros id. destruct (route_event_timer s m e); [|done].
  by rewrite promote_effective.
Qed.

Definition routed (route : TimerEntry → option StageId) (stage : StageId) (es : list TimerEntry) :=
  filter (λ e, route e = Some stage) es.

(** Each stage gets its timers in order, and exactly the stages that get one are
    re-armed. *)
Lemma route_all_spec route m b es :
  let '(m', b') := route_all route (m, b) es in
  (∀ st, b' !! st = if decide (routed route st es = []) then b !! st
                    else Some (default [] (b !! st) ++ routed route st es))
  ∧ ∀ id, stages m' !! id = (λ s, if decide (routed route id es = []) then s
                                  else set_rerun_pending true s) <$> stages m !! id.
Proof.
  unfold route_all, routed. revert m b. induction es as [|e es IH]; intros m b.
  { simpl. split; [done|]. intros id. by destruct (stages m !! id). }
  cbn [foldl]. destruct (route e) as [st|] eqn:Er.
  2: { specialize (IH m b). destruct (foldl _ (m, b) es) as [m' b'].
       destruct IH as [Hb Hm]. split; intros st; rewrite filter_cons_False by congruence; auto. }
  cbn [promote]. set (m1 := or_unchanged m (mark_rerun m st)). set (b1 := <[st := _]> b).
  specialize (IH m1 b1). destruct (foldl _ (m1, b1) es) as [m' b']. destruct IH as [Hb Hm]. split.
  - intros st'. rewrite Hb. unfold b1. destruct (decide (st' = st)) as [->|Hne].
    + rewrite lookup_insert_eq, filter_cons_True by done. rewrite (decide_False (P := _ :: _ = [])) by done.
      case_decide as Hn; simpl; [by rewrite Hn|]. by rewrite <- app_assoc.
    + rewrite lookup_insert_ne by done. by rewrite filter_cons_False by congruence.
  - intros id. rewrite Hm. unfold m1, or_unchanged, mark_rerun, update_stage.
    destruct (decide (id = st)) as [->|Hne].
    + rewrite filter_cons_True by done.
      destruct (stages m !! st) as [s|] eqn:E; cbn [fmap option_fmap option_map]; [|by rewrite E].
      cbn [with_stages stages]. rewrite lookup_insert_eq. cbn [fmap option_fmap option_map].
      rewrite (decide_False (P := e :: _ = [])) by done. by case_decide.
    + rewrite filter_cons_False by congruence.
      destruct (stages m !! st) as [s|] eqn:E; [|done]. simpl. by rewrite lookup_insert_ne.
Qed.

Lemma elem_of_groups b st es : (st, es) ∈ groups b ↔ b !! st = Some es.
Proof.
  unfold groups. rewrite list_elem_of_fmap. setoid_rewrite elem_of_sort_ids.
  setoid_rewrite elem_of_elements. split.
  - intros (x & [= -> ->] & Hx). apply elem_of_dom in Hx as [v ->]. done.
  - intros E. exists st. rewrite E. split; [done|]. apply elem_of_dom. by eexists.
Qed.

(** What a promotion returns and does to the manager, for the routing it uses. *)
Definition promoted (route : TimerEntry → option StageId) (es : list TimerEntry)
    (s s' : NodeScheduler) (out : list (StageId * list TimerEntry)) : Prop :=
  (∀ st l, (st, l) ∈ out ↔ l ≠ [] ∧ l = routed route st es)
  ∧ ∀ id, stages (watermarks s') !! id =
      (λ t, if decide (routed route id es = []) then t else set_rerun_pending true t)
        <$> stages (watermarks s) !! id.

Lemma route_all_promoted route s es m' b' :
  route_all route (watermarks s, ∅) es = (m', b') → promoted route es s (with_watermarks s m') (groups b').
Proof.
  intros E. pose proof (route_all_spec route (watermarks s) ∅ es) as H. rewrite E in H.
  destruct H as [Hb Hm]. split; [|done]. intros st l. rewrite elem_of_groups, Hb, lookup_empty.
  case_decide as Hn; [|naive_solver]. rewrite Hn. naive_solver.
Qed.

Lemma promote_due_timers_spec s due :
  promoted (route_timer s) due s (promote_due_timers s due).1 (promote_due_timers s due).2.
Proof.
  unfold promote_due_timers. pose proof (route_all_promoted (route_timer s) s due) as H.
  unfold route_all, route_timer in H. destruct (foldl _ _ due) as [m' b'] eqn:E. by apply H.
Qed.

Lemma promote_due_event_time_timers_spec s timers :
  promoted (route_event_timer s (watermarks s)) timers s
    (promote_due_event_time_timers s timers).1 (promote_due_event_time_timers s timers).2.
Proof.
  unfold promote_due_event_time_timers. rewrite (promote_event_route s (watermarks s)) by done.
  destruct (route_all _ _ timers) as [m' b'] eqn:E. by apply route_all_promoted.
Qed.
