(* ===== verification/SdfBundle.v ===== *)
(** One bundle of a splittable stage (engine/sdf.rs, [SplittableStageExecutor]): the
    chain of initialization stages that makes the first seed, the process stage with its
    monitor, and what the bundle reports to the dispatcher.  The exchange with the SDK
    harness is I/O: what the harness answers at each point is an argument. *)
From S2P Require Import Prelude Bytes Varint Windows Coders Watermark Scheduler Metrics Sdf.
Local Open Scope string_scope.
Local Open Scope list_scope.

(** [ControlResponse] (engine/harness/control.rs); of a successful bundle only the
    residual roots are read. *)
Inductive ControlResponse : Type :=
| BundleRegistered
| ProcessBundleSuccess (roots : list DelayedBundleApplication)
| ProcessBundleError (error : string)
| BundleDone.

(** An initialization stage: its id, the transform that reads its input, its outputs and
    its inbound timer endpoints. *)
Record InitializationStage : Type := mkInitStage {
  is_id : string;
  is_source_transform_id : string;
  is_output_pcols : list string;
  is_timer_endpoints : list (string * string);
}.

(** [SdfBundleOutcome]. *)
Record SdfBundleOutcome : Type := mkOutcome {
  initialized : bool;
  registered : bool;
  consumed_holds : list Z;
  items : list SdfWorkItem;
  progress_tick : Z;
}.

(** * Messages to the SDK *)

Record DataMessage : Type := mkData {
  dm_instruction_id : string;
  dm_transform_id : string;
  dm_data : bytes;
  dm_is_last : bool;
}.
Record TimersMessage : Type := mkTimers {
  tm_instruction_id : string;
  tm_transform_id : string;
  tm_timer_family_id : string;
  tm_is_last : bool;
}.

(** What [send_raw_elements] sends: the data, if there is any, the end of the data, and the
    end of every inbound timer endpoint. *)
Definition send_raw_elements (instruction_id source_transform_id : string) (data : bytes)
    (timer_endpoints : list (string * string)) : list DataMessage * list TimersMessage :=
  ((match data with [] => [] | _ => [mkData instruction_id source_transform_id data false] end)
     ++ [mkData instruction_id source_transform_id [] true],
   (λ '(transform_id, timer_family_id), mkTimers instruction_id transform_id timer_family_id true)
     <$> timer_endpoints).

(** The collecting task: the chunks until the last one, or until the channel closes;
    [None] is a payload of timers. *)
Fixpoint collect_data (payloads : list (option (bytes * bool))) : bytes :=
  match payloads with
  | [] => []
  | None :: payloads => collect_data payloads
  | Some (data, is_last) :: payloads => data ++ if is_last then [] else collect_data payloads
  end.

(** * Initialization *)

(** What the SDK answers to an initialization stage: to the registration, to the request
    of a bundle (its instruction id), the payloads it sends back and its final response;
    an error also stands for the idle timeout. *)
Record InitAnswers : Type := mkInitAnswers {
  ia_register : outcome string ControlResponse;
  ia_request : outcome string string;
  ia_payloads : list (option (bytes * bool));
  ia_response : outcome string ControlResponse;
}.

Definition run_initialization_stage (stage : InitializationStage) (answers : InitAnswers) : outcome string bytes :=
  status ← ia_register answers;
  match status with
  | BundleRegistered =>
      _ ← ia_request answers;
      if decide (length (is_output_pcols stage) = 1%nat) then
        response ← ia_response answers;
        match response with
        | ProcessBundleSuccess _ => Ok (collect_data (ia_payloads answers))
        | ProcessBundleError _ => Err "SDF initialization stage failed"
        | _ => Err "unexpected control response for SDF initialization stage"
        end
      else Err "SDF initialization stage has not exactly one output PCollection"
  | _ => Err "failed to register SDF initialization bundle"
  end.

(** The loop over the initialization stages.  [answers] is the SDK: its answers to a stage
    given the bytes the stage is sent, the output of the stage before it. *)
Fixpoint run_initialization (answers : InitializationStage → option bytes → InitAnswers)
    (stages : list InitializationStage) (initialization_bytes : option bytes) : outcome string (option bytes) :=
  match stages with
  | [] => Ok initialization_bytes
  | stage :: stages =>
      out ← run_initialization_stage stage (answers stage initialization_bytes);
      run_initialization answers stages (Some out)
  end.

(** * The process stage *)

(** What the SDK answers to a process bundle: the ticks at which the monitor runs while
    the bundle does, its final response and the collection of its outputs. *)
Record ProcessAnswers : Type := mkProcessAnswers {
  pa_register : outcome string ControlResponse;
  pa_request : outcome string string;
  pa_ticks : list TickEvent;
  pa_response : outcome string ControlResponse;
  pa_outputs : outcome string ();
}.

Section bundle.
Context `{P : Profile} (set_order : gset string → list string).
(** The coder of the input of the process stage, the split policy, the instant at which
    the bundle starts, and whether the dispatcher still receives. *)
Context (coder : WindowedValueCoder) (split_config : SdfSplitConfig) (now : Z) (dispatcher_open : bool).

(** [monitor_enabled]. *)
Definition monitor_enabled (allow_split : bool) (s : SplitState) : bool :=
  allow_split && (0 <? estimated_input_elements (ss_monitor s))%Z.

(** The loop that waits for the response while the ticker fires. *)
Definition monitored (stage : SplittableStage) (input : bytes) (allow_split : bool) (ticks : list TickEvent)
    : st SplitState () := λ s,
  if monitor_enabled allow_split s
  then monitor_ticks set_order coder input stage dispatcher_open ticks s
  else (s, Ok ()).

(** The state of the monitor when the bundle ends, and its result. *)
Definition run_process_stage (stage : SplittableStage) (has_outputs : bool) (input : bytes) (register allow_split : bool)
    (tick : option Z) (answers : ProcessAnswers) : SplitState * outcome string (list DelayedBundleApplication * Z) :=
  let s := start_monitoring coder input tick split_config now in
  match (if register
         then status ← pa_register answers;
              match status with BundleRegistered => Ok () | _ => Err "failed to register SDF process bundle" end
         else Ok ()), pa_request answers with
  | Ok _, Ok _ =>
      match monitored stage input allow_split (pa_ticks answers) s with
      | (s, Ok _) =>
          (s, response ← pa_response answers;
              _ ← (if has_outputs then pa_outputs answers else Ok ());
              match response with
              | ProcessBundleSuccess roots =>
                  Ok (roots, next_shared_tick (ticked (ss_monitor s)) (Sdf.tick (ss_monitor s)))
              | ProcessBundleError _ => Err "SDF process bundle failed"
              | _ => Err "unexpected control response for SDF process bundle"
              end)
      | (s, Err e) => (s, Err e)
      | (s, Panic w) => (s, Panic w)
      end
  | Err e, _ => (s, Err e)
  | Panic w, _ => (s, Panic w)
  | Ok _, Err e => (s, Err e)
  | Ok _, Panic w => (s, Panic w)
  end.

(** [execute_bundle]: the items sent to the dispatcher while the bundle ran, and its
    result. *)
Definition execute_bundle (stage : SplittableStage) (initialization_stages : list InitializationStage)
    (process_kind : SplittableProcessKind) (has_outputs : bool) (work : option SdfWorkItem) (was_initialized was_registered : bool)
    (tick : option Z) (init : InitializationStage → option bytes → InitAnswers) (process : bytes → ProcessAnswers)
    : list SdfWorkItem * outcome string (list DelayedBundleApplication * SdfBundleOutcome) :=
  let seed_bytes := seed <$> work in
  let consumed := match work with Some item => holds item | None => [] end in
  match (if was_initialized then Ok (default [] seed_bytes)
         else initialization_bytes ← run_initialization init initialization_stages None;
              Ok (default [] initialization_bytes)) with
  | Ok input =>
      let allow_split := bool_decide (process_kind = ProcessSizedElementsAndRestrictions) in
      match run_process_stage stage has_outputs input (negb was_registered) allow_split tick (process input) with
      | (s, Ok (roots, next_tick)) =>
          (ss_sent s, Ok (roots, mkOutcome true true consumed (residual_items set_order stage roots) next_tick))
      | (s, Err e) => (ss_sent s, Err e)
      | (s, Panic w) => (ss_sent s, Panic w)
      end
  | Err e => ([], Err e)
  | Panic w => ([], Panic w)
  end.
End bundle.
