(* ===== verification/Dispatcher.v ===== *)
(** The dispatcher (engine/dispatcher.rs): the state of a run, every operation of the loop of
    [run_pipeline], the loop as a machine with a step per await point, what the bundles may
    do beside it, and the runs that result. *)
From S2P Require Import Prelude Bytes Varint Windows Watermark Sdf Kv UserState Timers Scheduler SdfBundle.
Local Open Scope string_scope.
Local Open Scope list_scope.

(** * Data *)

(** [SdfQueue]: pending bundle work of one splittable stage. *)
Record SdfQueue : Type := mkQueue {
  q_initialized : bool;
  q_registered : bool;
  q_items : list SdfWorkItem;
  q_progress_tick : option Z;
}.
Definition default_queue : SdfQueue := mkQueue false false [] None.

(** [SourceProgress] (transforms/mod.rs). *)
Record SourceProgress : Type := mkProgressReport {
  sp_stage_id : StageId;
  sp_watermark : option Z;
  sp_processing_time : option Z;
  sp_done : bool;
}.

(** How a dispatched bundle ends: a plain one with its result and the count of its input,
    a splittable one with its outcome, or a panic of the task. *)
Inductive TaskEnd : Type :=
| PlainEnd (result : outcome string ()) (input_count : nat)
| SdfEnd (result : outcome string SdfBundleOutcome)
| TaskPanicked.

(** A spawned task: the node and what it was started with; [t_end] once it is finished and
    waits to be joined. *)
Record Task : Type := mkTask {
  t_index : nat;
  t_stage : StageId;
  t_splittable : bool;
  t_timers : list TimerEntry;
  t_input_watermark : Z;
  t_seed : option SdfWorkItem;
  t_initialized : bool;
  t_registered : bool;
  t_progress_tick : option Z;
  t_end : option TaskEnd;
}.

(** * Holds *)

(** Remove the first occurrence, if there is one. *)
Fixpoint remove_first (hold : Z) (l : list Z) : list Z :=
  match l with
  | [] => []
  | candidate :: l => if (candidate =? hold)%Z then l else candidate :: remove_first hold l
  end.

Definition add_holds (map : gmap StageId (list Z)) (stage : StageId) (hs : list Z) : gmap StageId (list Z) :=
  match hs with [] => map | _ => <[stage := default [] (map !! stage) ++ hs]> map end.

Definition remove_holds (map : gmap StageId (list Z)) (stage : StageId) (hs : list Z) : gmap StageId (list Z) :=
  match map !! stage with
  | None => map
  | Some l =>
      let l := foldl (λ l hold, remove_first hold l) l hs in
      match l with [] => delete stage map | _ => <[stage := l]> map end
  end.

(** [record_commit_min_ts] and [take_commit_min_timestamp] of the element store
    (store/element_store.rs). *)
Definition record_commit_min_ts (mins : gmap PCollectionId Z) (pcollection : PCollectionId) (timestamp : Z)
    : gmap PCollectionId Z :=
  <[pcollection := match mins !! pcollection with Some current => Z.min current timestamp | None => timestamp end]> mins.
Definition take_commit_min_timestamp (mins : gmap PCollectionId Z) (pcollection : PCollectionId)
    : gmap PCollectionId Z * option Z := (delete pcollection mins, mins !! pcollection).

(** The PCollections of [output_edge_metadata_all] (engine/scheduler.rs): those of the
    outgoing edges, and other outputs that a stage reads as a side input. *)
Definition read_as_side_input (g : ExecutableGraph) (pcollection : PCollectionId) : bool :=
  existsb (λ node, existsb (λ s, bool_decide (pcollection ∈ es_side_inputs s)) (worker_stages node)) (g_nodes g)
  && bool_decide (is_Some (pcollections (g_components g) !! pcollection)).
Definition output_edge_pcols (g : ExecutableGraph) (index : nat) : list PCollectionId :=
  let edges := dedup (produced_pcol_id <$> outgoing g index) in
  let others := match g_nodes g !! index with Some node => dedup (node_output_pcols node) | None => [] end in
  edges ++ filter (λ p, p ∉ edges ∧ read_as_side_input g p = true) others.

(** * The state of a run *)

Section dispatcher.
Context {Store : Type} `{KvStore Store} `{P : Profile} (iteration_order : gset bytes → list bytes).
Context (to_vec : TimerEntry → outcome string bytes) (from_slice : bytes → outcome string TimerEntry).

(** The scheduler, the timer service (its store and its clock), the state of one call of
    [run_pipeline], the two channels, the running minima of the element store and the
    tasks of the [JoinSet]. *)
Record Dispatcher : Type := mkDispatcher {
  d_scheduler : NodeScheduler;
  d_timers : Store;
  d_clock : Clock;
  d_pending_timers : gmap StageId (list TimerEntry);
  d_sdf_queues : gmap StageId SdfQueue;
  d_residual_holds : gmap StageId (list Z);
  d_immediate_sdf : list (StageId * SdfWorkItem);
  d_source_reports : list SourceProgress;
  d_commit_min_ts : gmap PCollectionId Z;
  d_in_flight : list Task;
}.

Definition with_scheduler (s : NodeScheduler) (d : Dispatcher) : Dispatcher :=
  mkDispatcher s (d_timers d) (d_clock d) (d_pending_timers d) (d_sdf_queues d) (d_residual_holds d) (d_immediate_sdf d)
    (d_source_reports d) (d_commit_min_ts d) (d_in_flight d).
Definition with_timers (s : Store) (d : Dispatcher) : Dispatcher :=
  mkDispatcher (d_scheduler d) s (d_clock d) (d_pending_timers d) (d_sdf_queues d) (d_residual_holds d) (d_immediate_sdf d)
    (d_source_reports d) (d_commit_min_ts d) (d_in_flight d).
Definition with_clock (c : Clock) (d : Dispatcher) : Dispatcher :=
  mkDispatcher (d_scheduler d) (d_timers d) c (d_pending_timers d) (d_sdf_queues d) (d_residual_holds d) (d_immediate_sdf d)
    (d_source_reports d) (d_commit_min_ts d) (d_in_flight d).
Definition with_pending (p : gmap StageId (list TimerEntry)) (d : Dispatcher) : Dispatcher :=
  mkDispatcher (d_scheduler d) (d_timers d) (d_clock d) p (d_sdf_queues d) (d_residual_holds d) (d_immediate_sdf d)
    (d_source_reports d) (d_commit_min_ts d) (d_in_flight d).
Definition with_queues (q : gmap StageId SdfQueue) (d : Dispatcher) : Dispatcher :=
  mkDispatcher (d_scheduler d) (d_timers d) (d_clock d) (d_pending_timers d) q (d_residual_holds d) (d_immediate_sdf d)
    (d_source_reports d) (d_commit_min_ts d) (d_in_flight d).
Definition with_residual_holds (h : gmap StageId (list Z)) (d : Dispatcher) : Dispatcher :=
  mkDispatcher (d_scheduler d) (d_timers d) (d_clock d) (d_pending_timers d) (d_sdf_queues d) h (d_immediate_sdf d)
    (d_source_reports d) (d_commit_min_ts d) (d_in_flight d).
Definition with_immediate (l : list (StageId * SdfWorkItem)) (d : Dispatcher) : Dispatcher :=
  mkDispatcher (d_scheduler d) (d_timers d) (d_clock d) (d_pending_timers d) (d_sdf_queues d) (d_residual_holds d) l
    (d_source_reports d) (d_commit_min_ts d) (d_in_flight d).
Definition with_reports (l : list SourceProgress) (d : Dispatcher) : Dispatcher :=
  mkDispatcher (d_scheduler d) (d_timers d) (d_clock d) (d_pending_timers d) (d_sdf_queues d) (d_residual_holds d)
    (d_immediate_sdf d) l (d_commit_min_ts d) (d_in_flight d).
Definition with_commit_min (m : gmap PCollectionId Z) (d : Dispatcher) : Dispatcher :=
  mkDispatcher (d_scheduler d) (d_timers d) (d_clock d) (d_pending_timers d) (d_sdf_queues d) (d_residual_holds d)
    (d_immediate_sdf d) (d_source_reports d) m (d_in_flight d).
Definition with_tasks (l : list Task) (d : Dispatcher) : Dispatcher :=
  mkDispatcher (d_scheduler d) (d_timers d) (d_clock d) (d_pending_timers d) (d_sdf_queues d) (d_residual_holds d)
    (d_immediate_sdf d) (d_source_reports d) (d_commit_min_ts d) l.

Definition modify (f : Dispatcher → Dispatcher) : st Dispatcher () := λ d, (f d, Ok ()).

(** A step that reads the state first. *)
Definition with_state {A} (f : Dispatcher → st Dispatcher A) : st Dispatcher A := λ d, f d d.

(** [scheduler.watermarks_mut()] followed by an operation that may fail. *)
Definition on_watermarks (f : WatermarkManager → WatermarkManager) : st Dispatcher () :=
  modify (λ d, with_scheduler (with_watermarks (d_scheduler d) (f (watermarks (d_scheduler d)))) d).
Definition try_watermarks (f : WatermarkManager → result WatermarkManager) : st Dispatcher () := λ d,
  match f (watermarks (d_scheduler d)) with
  | Ok m => on_watermarks (λ _, m) d
  | Err e => (d, Err e)
  | Panic w => (d, Panic w)
  end.

(** An operation of the timer store. *)
Definition on_timers {A} (f : st Store A) : st Dispatcher A := λ d,
  let '(s, r) := f (d_timers d) in (with_timers s d, r).

Definition queue_of (d : Dispatcher) (stage : StageId) : SdfQueue := default default_queue (d_sdf_queues d !! stage).

(** * Work items *)

Definition push_work_item (stage : StageId) (item : SdfWorkItem) (d : Dispatcher) : Dispatcher :=
  let queue := queue_of d stage in
  with_queues (<[stage := mkQueue (q_initialized queue) (q_registered queue) (q_items queue ++ [item])
                            (q_progress_tick queue)]> (d_sdf_queues d))
    (with_residual_holds (add_holds (d_residual_holds d) stage (holds item)) d).

Definition mark_queue (stage : StageId) (d : Dispatcher) : Dispatcher :=
  let queue := queue_of d stage in
  with_queues (<[stage := mkQueue true true (q_items queue) (q_progress_tick queue)]> (d_sdf_queues d)) d.

Definition enqueue_sdf_items (stage : StageId) (new : list SdfWorkItem) : st Dispatcher nat :=
  _ ← modify (λ d, with_queues (<[stage := queue_of d stage]> (d_sdf_queues d)) d);
  _ ← modify (λ d, foldl (λ d item, push_work_item stage item d) d new);
  match new with
  | [] => mret 0%nat
  | _ =>
      _ ← modify (mark_queue stage);
      _ ← with_state (λ d, on_watermarks (λ m, set_all_residual_holds m (d_residual_holds d)));
      _ ← try_watermarks (λ m, enqueue_bundles m stage (length new));
      mret (length new)
  end.

(** * Timers *)

(** The holds of [sync_event_time_holds], by stage. *)
Definition timer_holds (s : NodeScheduler) (timers : list TimerEntry) : gmap StageId (list Z) :=
  foldl (λ map timer,
    match stage_for_transform s (tk_transform_id (te_key timer)) with
    | Some stage => <[stage := default [] (map !! stage) ++ [hold_timestamp timer]]> map
    | None => map
    end) ∅ timers.

Definition sync_event_time_holds : st Dispatcher () :=
  timers ← st_read (λ d, all_event_time_timers from_slice (d_timers d));
  with_state (λ d, on_watermarks (λ m, set_event_time_holds m (timer_holds (d_scheduler d) timers))).

(** [d_pending_timers.entry(stage).or_default().extend(timers)]. *)
Definition deliver (group : StageId * list TimerEntry) (d : Dispatcher) : Dispatcher :=
  with_pending (<[group.1 := default [] (d_pending_timers d !! group.1) ++ group.2]> (d_pending_timers d)) d.

(** [promote_due_event_time_timers]: the timers are read and the due ones grouped by
    stage; each group is then deleted from the store and delivered. *)
Definition promote_read : st Dispatcher (list (StageId * list TimerEntry)) :=
  timers ← st_read (λ d, all_event_time_timers from_slice (d_timers d));
  match timers with
  | [] => mret []
  | _ => with_state (λ d,
      let '(s, groups) := Scheduler.promote_due_event_time_timers (d_scheduler d) timers in
      _ ← modify (with_scheduler s); mret groups)
  end.
Definition promote_group (group : StageId * list TimerEntry) : st Dispatcher nat :=
  _ ← on_timers (delete_all iteration_order to_vec group.2);
  _ ← modify (deliver group);
  mret (length group.2).
Fixpoint promote_groups (groups : list (StageId * list TimerEntry)) : st Dispatcher nat :=
  match groups with
  | [] => mret 0%nat
  | group :: groups => n ← promote_group group; m ← promote_groups groups; mret (n + m)%nat
  end.
Definition promote_due_event_time_timers : st Dispatcher nat :=
  groups ← promote_read; promote_groups groups.

(** [fire_due_processing_time]; [elapsed] is what the clock reads. *)
Definition fire_due_processing_time (elapsed : Z) : st Dispatcher nat :=
  time ← st_read (λ d, now elapsed (d_clock d));
  due ← on_timers (take_due_processing_time iteration_order to_vec from_slice time);
  match due with
  | [] => mret 0%nat
  | _ =>
      _ ← modify (λ d, let '(s, groups) := promote_due_timers (d_scheduler d) due in
                       foldl (λ d group, deliver group d) (with_scheduler s d) groups);
      mret (length due)
  end.

(** * Sources *)

(** One report of the loop of [apply_source_progress]. *)
Definition apply_report (progress : SourceProgress) : st Dispatcher () :=
  _ ← (match sp_watermark progress with
       | Some watermark => try_watermarks (λ m, report_source_watermark m (sp_stage_id progress) watermark)
       | None => mret ()
       end);
  _ ← (match sp_processing_time progress with
       | Some time => modify (λ d, with_clock (set_processing_time time (d_clock d)) d)
       | None => mret ()
       end);
  if sp_done progress
  then try_watermarks (λ m, report_source_finished m (sp_stage_id progress))
  else try_watermarks (λ m, mark_rerun m (sp_stage_id progress)).

Fixpoint apply_reports (n : nat) : st Dispatcher nat :=
  match n with
  | O => mret 0%nat
  | S n => λ d,
      match d_source_reports d with
      | [] => (d, Ok 0%nat)
      | progress :: rest =>
          (_ ← apply_report progress; applied ← apply_reports n; mret (S applied)) (with_reports rest d)
      end
  end.

Definition apply_source_progress : st Dispatcher nat := with_state (λ d,
  applied ← apply_reports (length (d_source_reports d));
  if (0 <? applied)%nat then _ ← on_watermarks (λ m, (refresh m).1); mret applied else mret applied).

(** * Starting bundles *)

(** The work item a splittable stage starts with. *)
Definition take_seed (stage : StageId) (d : Dispatcher) : Dispatcher * option SdfWorkItem :=
  let queue := queue_of d stage in
  let '(seed, rest) :=
    if q_initialized queue
    then match q_items queue with [] => (None, []) | item :: rest => (Some item, rest) end
    else (None, q_items queue) in
  (with_queues (<[stage := mkQueue (q_initialized queue) (q_registered queue) rest (q_progress_tick queue)]>
     (d_sdf_queues d)) d, seed).

Definition is_splittable_node (node : ExecutableNode) : bool :=
  match node with Splittable _ _ _ _ => true | _ => false end.

(** The body of the loop over [next_nodes]. *)
Definition start_node (idx : nat) : st Dispatcher () := λ d,
  match g_nodes (sched_graph (d_scheduler d)) !! idx with
  | None => (d, Panic "node index out of bounds")
  | Some node =>
      let stage := node_id node in
      let timers := default [] (d_pending_timers d !! stage) in
      let d := with_pending (delete stage (d_pending_timers d)) d in
      let m := watermarks (d_scheduler d) in
      let input_watermark := default MIN_TIMESTAMP (bundle_input_watermark m stage) in
      match validate_bundle_input_watermark m stage input_watermark with
      | Ok _ =>
          if is_splittable_node node then
            let '(d', seed) := take_seed stage d in
            let queue := queue_of d' stage in
            (with_tasks (d_in_flight d' ++
               [mkTask idx stage true timers input_watermark seed (q_initialized queue) (q_registered queue)
                  (q_progress_tick queue) None]) d', Ok ())
          else
            (with_tasks (d_in_flight d ++
               [mkTask idx stage false timers input_watermark None false false None None]) d, Ok ())
      | Err e => (d, Err e)
      | Panic w => (d, Panic w)
      end
  end.

Fixpoint start_nodes (nodes : list (nat * StageId)) : st Dispatcher () :=
  match nodes with
  | [] => mret ()
  | (idx, _) :: nodes => _ ← start_node idx; start_nodes nodes
  end.

Definition schedule_nodes : st Dispatcher () := λ d,
  let '(s, nodes) := next_nodes (d_scheduler d) in start_nodes nodes (with_scheduler s d).

(** * No bundle is running *)

(** What the loop does after a round without a running bundle: go round again, or break
    out and return. *)
Inductive Next : Type := Again | Finished.

(** What the clock reads in such a round: when timers are fired, when the deadline is
    compared with it, and after the sleep. *)
Record Readings : Type := mkReadings { at_fire : Z; at_deadline : Z; after_sleep : Z }.

Definition release_empty : st Dispatcher nat := λ d,
  let '(m, released) := release_empty_input_holds (watermarks (d_scheduler d)) in
  (with_scheduler (with_watermarks (d_scheduler d) m) d, Ok released).

(** The graph is complete, or a hold of an empty input can be released, or it is stuck. *)
Definition complete_or_release (deadlock : string) : st Dispatcher Next :=
  with_state (λ d,
    if scheduler_is_complete (d_scheduler d) then mret Finished
    else
      released ← release_empty;
      if (0 <? released)%nat then mret Again else st_lift (Err deadlock)).

Definition idle_round (r : Readings) : st Dispatcher Next :=
  source_progress ← apply_source_progress;
  promoted_et ← promote_due_event_time_timers;
  fired_pt ← fire_due_processing_time (at_fire r);
  if (0 <? source_progress)%nat || (0 <? promoted_et)%nat || (0 <? fired_pt)%nat then mret Again
  else
    manual ← st_read (λ d, Ok (is_manual (d_clock d)));
    if manual : bool then complete_or_release "executable graph deadlocked: processing time is paused with no due timers"
    else
      deadline ← st_read (λ d, next_processing_deadline from_slice (d_timers d));
      match deadline with
      | Some deadline =>
          time ← st_read (λ d, now (at_deadline r) (d_clock d));
          _ ← (if (time <? deadline)%Z then st_lift (arith_i 64 (deadline - time)) else mret 0%Z);
          fired ← fire_due_processing_time (after_sleep r);
          if (fired =? 0)%nat then
            with_state (λ d,
              if scheduler_is_complete (d_scheduler d) then mret Finished
              else st_lift (Err "executable graph deadlocked: timer deadline passed but nothing was due"))
          else mret Again
      | None => complete_or_release "executable graph deadlocked: no ready nodes and no in-flight work"
      end.

(** * A bundle ended *)

(** The first branch of the [select!]: a split residual that a running bundle sent. *)
Definition receive_item (stage : StageId) (item : SdfWorkItem) : st Dispatcher () :=
  _ ← enqueue_sdf_items stage [item]; mret ().

(** The drain of the channel before a splittable bundle is marked complete. *)
Fixpoint drain_immediate (n : nat) : st Dispatcher () :=
  match n with
  | O => mret ()
  | S n => λ d,
      match d_immediate_sdf d with
      | [] => (d, Ok ())
      | (stage, item) :: rest =>
          (_ ← receive_item stage item; drain_immediate n) (with_immediate rest d)
      end
  end.

Definition finish_sdf (stage : StageId) (outcome : SdfBundleOutcome) : st Dispatcher () :=
  _ ← modify (λ d, with_residual_holds (remove_holds (d_residual_holds d) stage (consumed_holds outcome)) d);
  _ ← modify (λ d, with_queues (<[stage := mkQueue (initialized outcome) (registered outcome)
                                             (q_items (queue_of d stage)) (Some (progress_tick outcome))]>
                                  (d_sdf_queues d)) d);
  _ ← enqueue_sdf_items stage (items outcome);
  with_state (λ d, drain_immediate (length (d_immediate_sdf d))).

Fixpoint take_minima (pcollections : list PCollectionId) (mins : gmap PCollectionId Z)
    : gmap PCollectionId Z * list Z :=
  match pcollections with
  | [] => (mins, [])
  | p :: pcollections =>
      let '(mins, taken) := take_commit_min_timestamp mins p in
      let '(mins, rest) := take_minima pcollections mins in
      (mins, match taken with Some t => t :: rest | None => rest end)
  end.

(** The committed minimum, taken on the last bundle of a wave. *)
Definition take_output_min (idx : nat) (stage : StageId) : st Dispatcher (option Z) := λ d,
  let running := match stages (watermarks (d_scheduler d)) !! stage with Some s => Watermark.in_flight s | None => 0%nat end in
  if (running <=? 1)%nat then
    let '(mins, taken) := take_minima (output_edge_pcols (sched_graph (d_scheduler d)) idx) (d_commit_min_ts d) in
    (with_commit_min mins d, Ok (min_timestamp taken))
  else (d, Ok None).

(** The second branch of the [select!] up to the await of [sync_event_time_holds]: the
    task is joined; its node, the committed minimum and the count of its input. *)
Definition join_task (t : Task) : st Dispatcher (nat * option Z * option nat) :=
  match t_end t with
  | Some TaskPanicked => st_lift (Err "join error")
  | Some (PlainEnd result input_count) =>
      _ ← st_lift result;
      output_min_ts ← take_output_min (t_index t) (t_stage t);
      mret (t_index t, output_min_ts, Some input_count)
  | Some (SdfEnd result) =>
      outcome ← st_lift result;
      _ ← finish_sdf (t_stage t) outcome;
      output_min_ts ← take_output_min (t_index t) (t_stage t);
      mret (t_index t, output_min_ts, None)
  | None => st_lift (Err "the task has not ended")
  end.

(** The rest of the branch. *)
Definition complete_task (idx : nat) (output_min_ts : option Z) (input_count : option nat) : st Dispatcher () :=
  _ ← sync_event_time_holds;
  with_state (λ d,
    s ← st_lift (mark_complete_with_min_and_input (d_scheduler d) idx output_min_ts input_count);
    modify (with_scheduler s)).
End dispatcher.

Local Open Scope string_scope.
Local Open Scope list_scope.

(** Where the loop is: at its top, before due timers are read, with groups of them left to
    delete and deliver, at the [select!], with a joined bundle left to mark complete, or
    past the loop. *)
Inductive Phase : Type :=
| AtTop
| AtPromote
| Promoting (groups : list (StageId * list TimerEntry))
| AtSelect
| Completing (idx : nat) (output_min_ts : option Z) (input_count : option nat)
| Returned.

(** What decides a step: what the clock reads, or which branch of the [select!] is taken. *)
Inductive Choice : Type :=
| Tick (r : Readings)
| Receive
| Join (k : nat).

Definition readings (c : Choice) : Readings := match c with Tick r => r | _ => mkReadings 0 0 0 end.

Section run.
Context {Store : Type} `{KvStore Store} `{P : Profile} (iteration_order : gset bytes → list bytes).
Context (to_vec : TimerEntry → outcome string bytes) (from_slice : bytes → outcome string TimerEntry).

(** One step of the loop.  A branch of the [select!] that is not ready leaves it waiting. *)
Definition next_phase (c : Choice) (phase : Phase) : st (Dispatcher (Store:=Store)) Phase :=
  match phase with
  | AtTop =>
      _ ← sync_event_time_holds from_slice;
      _ ← with_state (λ d, on_watermarks (λ m, set_all_residual_holds m (d_residual_holds d)));
      mret AtPromote
  | AtPromote => groups ← promote_read from_slice; mret (Promoting groups)
  | Promoting (group :: groups) => _ ← promote_group iteration_order to_vec group; mret (Promoting groups)
  | Promoting [] =>
      _ ← schedule_nodes;
      with_state (λ d,
        match d_in_flight d with
        | [] =>
            next ← idle_round iteration_order to_vec from_slice (readings c);
            match next with Again => mret AtTop | Finished => mret Returned end
        | _ => mret AtSelect
        end)
  | AtSelect =>
      match c with
      | Receive => with_state (λ d,
          match d_immediate_sdf d with
          | [] => mret AtSelect
          | (stage, item) :: rest => _ ← modify (with_immediate rest); _ ← receive_item stage item; mret AtTop
          end)
      | Join k => with_state (λ d,
          match d_in_flight d !! k with
          | Some t =>
              match t_end t with
              | Some _ =>
                _ ← modify (with_tasks (delete k (d_in_flight d)));
                '(idx, output_min_ts, input_count) ← join_task t;
                mret (Completing idx output_min_ts input_count)
              | None => mret AtSelect
              end
          | None => mret AtSelect
          end)
      | Tick _ => mret AtSelect
      end
  | Completing idx output_min_ts input_count =>
      _ ← complete_task from_slice idx output_min_ts input_count; mret AtTop
  | Returned => mret Returned
  end.

(** * The bundles *)

Definition running (d : Dispatcher (Store:=Store)) (t : Task) : Prop := t ∈ d_in_flight d ∧ t_end t = None.

Definition ended (t : Task) (e : TaskEnd) : Task :=
  mkTask (t_index t) (t_stage t) (t_splittable t) (t_timers t) (t_input_watermark t) (t_seed t) (t_initialized t)
    (t_registered t) (t_progress_tick t) (Some e).

(** How a task can end: a splittable one as [execute_bundle] does with the work item and
    the flags it was started with. *)
Inductive ends_with (t : Task) : TaskEnd → Prop :=
| ends_plain result input_count : t_splittable t = false → ends_with t (PlainEnd result input_count)
| ends_sdf set_order coder config start stage inits kind has_outputs init process :
    t_splittable t = true →
    ends_with t (SdfEnd (r ← (execute_bundle set_order coder config start true stage inits kind has_outputs (t_seed t)
                                (t_initialized t) (t_registered t) (t_progress_tick t) init process).2; Ok r.2))
| ends_panicked : ends_with t TaskPanicked.

(** What a running bundle writes to the timer store; a batch holds each timer under its key. *)
Inductive timer_write : Store → Store → Prop :=
| write_upsert entry s s' : upsert to_vec entry s = (s', Ok ()) → timer_write s s'
| write_delete key s s' : timer_delete key s = (s', Ok ()) → timer_write s s'
| write_apply pending s s' :
    (∀ k e, pending !! k = Some (Some e) → storage_key (te_key e) = k) →
    timer_apply iteration_order to_vec pending s = (s', Ok ()) → timer_write s s'.

Inductive env_step : Dispatcher (Store:=Store) → Dispatcher → Prop :=
| env_timers d t s' : running d t → timer_write (d_timers d) s' → env_step d (with_timers s' d)
| env_commit d t pcollection timestamp :
    running d t → env_step d (with_commit_min (record_commit_min_ts (d_commit_min_ts d) pcollection timestamp) d)
| env_report d t progress : running d t → env_step d (with_reports (d_source_reports d ++ [progress]) d)
| env_item d t item :
    running d t → t_splittable t = true →
    env_step d (with_immediate (d_immediate_sdf d ++ [(t_stage t, item)]) d)
| env_end d k t e :
    d_in_flight d !! k = Some t → t_end t = None → ends_with t e →
    env_step d (with_tasks (<[k := ended t e]> (d_in_flight d)) d).

(** * Runs *)

(** The loop is at a phase, or it returned the error. *)
Inductive Config : Type :=
| Running (phase : Phase) (d : Dispatcher (Store:=Store))
| Failed (r : outcome string ()) (d : Dispatcher (Store:=Store)).

Inductive step : Config → Config → Prop :=
| step_loop c phase d phase' d' :
    next_phase c phase d = (d', Ok phase') → step (Running phase d) (Running phase' d')
| step_error c phase d d' e : next_phase c phase d = (d', Err e) → step (Running phase d) (Failed (Err e) d')
| step_panic c phase d d' w : next_phase c phase d = (d', Panic w) → step (Running phase d) (Failed (Panic w) d')
| step_env phase d d' : env_step d d' → step (Running phase d) (Running phase d').

(** The state in which [run_pipeline] enters its loop: stale reports are dropped. *)
Definition initial_state (concurrency : nat) (g : ExecutableGraph) (timers : Store) (clock : Clock)
    (mins : gmap PCollectionId Z) : Dispatcher :=
  mkDispatcher (scheduler_new concurrency g) timers clock ∅ ∅ ∅ [] [] mins [].

Inductive reaches (c : Config) : Config → Prop :=
| reaches_start : reaches c c
| reaches_step c1 c2 : reaches c c1 → step c1 c2 → reaches c c2.
End run.
