(* ===== verification/DispatcherLedger.v ===== *)
(** The part of the watermark manager that the dispatcher keeps its own books about: per
    stage the queued and running bundles, whether it is re-armed, and the holds of deferred
    work.  What every operation of the manager and of the scheduler does to it. *)
From stdpp Require Import gmultiset.
From S2P Require Import Prelude Bytes Varint Windows Kv UserState Timers.
From S2P Require Import Watermark WatermarkRefresh WatermarkBundles WatermarkInvariant Scheduler SchedulerSpec.
Set Warnings "-clear-no-such-hyp".
Local Open Scope list_scope.

Record Ledger : Type := mkLedger {
  l_queued : nat;
  l_in_flight : nat;
  l_rerun : bool;
  l_residual : gmultiset Z;
}.

Definition ledger (s : StageState) : Ledger :=
  mkLedger (queued s) (in_flight s) (rerun_pending s) (Watermark.residual_holds s).
Definition ledgers (m : WatermarkManager) : gmap StageId Ledger := ledger <$> stages m.

(** A bundle of the stage starts, or ends. *)
Definition l_start (l : Ledger) : Ledger := mkLedger (l_queued l - 1) (l_in_flight l + 1) false (l_residual l).
Definition l_finish (l : Ledger) : Ledger := mkLedger (l_queued l) (l_in_flight l - 1) (l_rerun l) (l_residual l).
Definition l_rearm (l : Ledger) : Ledger := mkLedger (l_queued l) (l_in_flight l) true (l_residual l).
Definition l_enqueue (n : nat) (l : Ledger) : Ledger :=
  mkLedger (l_queued l + n) (l_in_flight l) (l_rerun l) (l_residual l).
Definition l_hold (h : gmultiset Z) (l : Ledger) : Ledger := mkLedger (l_queued l) (l_in_flight l) (l_rerun l) h.

Lemma ledgers_lookup m id s : stages m !! id = Some s → ledgers m !! id = Some (ledger s).
Proof. intros E. unfold ledgers. by rewrite lookup_fmap, E. Qed.

Lemma ledgers_insert m id s s' f :
  stages m !! id = Some s → ledger s' = f (ledger s) →
  ledgers (with_stages m (<[id := s']>)) = alter f id (ledgers m).
Proof.
  intros E Hs. unfold ledgers. simpl. rewrite fmap_insert, Hs. apply map_eq. intros i.
  destruct (decide (i = id)) as [->|Hne].
  - rewrite lookup_insert_eq, lookup_alter_eq, lookup_fmap, E. done.
  - by rewrite lookup_insert_ne, lookup_alter_ne.
Qed.

(** An operation on one stage that changes nothing the ledger shows. *)
Lemma ledgers_same m id s s' :
  stages m !! id = Some s → ledger s' = ledger s → ledgers (with_stages m (<[id := s']>)) = ledgers m.
Proof.
  intros E Hs. rewrite (ledgers_insert m id s s' (λ l, l)) by done. apply map_eq. intros i.
  destruct (decide (i = id)) as [->|Hne]; [|by rewrite lookup_alter_ne].
  rewrite lookup_alter_eq. by destruct (ledgers m !! id).
Qed.

Lemma ledgers_update m id f g m' :
  (∀ s, ledger (f s) = g (ledger s)) → update_stage m id f = Ok m' → ledgers m' = alter g id (ledgers m).
Proof.
  unfold update_stage. intros Hf H. destruct (stages m !! id) as [s|] eqn:E; [|done].
  injection H as <-. by apply (ledgers_insert m id s).
Qed.

Lemma ledgers_update_source m id f m' : update_source m id f = Ok m' → ledgers m' = ledgers m.
Proof.
  unfold update_source. intros H. destruct (stages m !! id) as [s|] eqn:E; [|done].
  destruct (source s); [|done]. injection H as <-. by apply (ledgers_same m id s).
Qed.

(** ** Operations of the manager *)

Lemma same_rest_ledger s s' : same_rest s s' → ledger s = ledger s'.
Proof. intros R. by apply (f_equal ledger) in R. Qed.

Lemma ledgers_le m m' : m ⊑ m' → ledgers m' = ledgers m.
Proof.
  intros (_ & _ & _ & H). apply map_eq. intros id. unfold ledgers. rewrite !lookup_fmap. specialize (H id).
  destruct (stages m !! id) as [s|], (stages m' !! id) as [s'|]; try done.
  destruct H as (R & _). simpl. f_equal. symmetry. by apply same_rest_ledger.
Qed.

Lemma ledgers_refresh m : manager_ok m → ledgers (refresh m).1 = ledgers m.
Proof.
  intros Hm. destruct (refresh_progress m (manager_ok_bounded m Hm)) as (adv & Hp & _ & _).
  apply ledgers_le, (prog_le _ _ _ _ Hp).
Qed.

Lemma ledgers_start m id m' : start_bundle m id = Ok m' → ledgers m' = alter l_start id (ledgers m).
Proof.
  intros H. apply start_bundle_spec in H as (s & E & _ & _ & _ & _ & ->).
  apply (ledgers_insert m id s); [done|]. unfold started. by repeat case_match.
Qed.

Lemma ledgers_enqueue m id n m' : enqueue_bundles m id n = Ok m' → ledgers m' = alter (l_enqueue n) id (ledgers m).
Proof. by apply ledgers_update. Qed.

Lemma ledgers_event_holds m holds : ledgers (set_event_time_holds m holds) = ledgers m.
Proof.
  apply map_eq. intros id. unfold ledgers. simpl. rewrite !lookup_fmap, map_lookup_imap.
  by destruct (stages m !! id).
Qed.

Lemma ledgers_residual_holds m holds :
  ledgers (set_all_residual_holds m holds)
  = map_imap (λ id l, Some (l_hold (list_to_set_disj (default [] (holds !! id))) l)) (ledgers m).
Proof.
  apply map_eq. intros id. unfold ledgers. simpl. rewrite map_lookup_imap, !lookup_fmap, map_lookup_imap.
  by destruct (stages m !! id).
Qed.

Lemma ledgers_mark_rerun m id : ledgers (or_unchanged m (mark_rerun m id)) = alter l_rearm id (ledgers m).
Proof.
  unfold or_unchanged. destruct (mark_rerun m id) as [m'|e|w] eqn:E.
  - by apply (ledgers_update m id (set_rerun_pending true)).
  - unfold mark_rerun, update_stage in E. destruct (stages m !! id) eqn:Es; [done|].
    apply map_eq. intros i. destruct (decide (i = id)) as [->|Hne]; [|by rewrite lookup_alter_ne].
    rewrite lookup_alter_eq. unfold ledgers. by rewrite lookup_fmap, Es.
  - unfold mark_rerun, update_stage in E. by destruct (stages m !! id).
Qed.

Lemma woken_ledger E O s s' : woken E O s s' → ledger s' = ledger s.
Proof.
  intros W. pose proof (wk_frame _ _ _ _ W) as R. by apply (f_equal ledger) in R.
Qed.

Lemma ledgers_complete m id min_ts cnt m' nr :
  complete_bundle_with_min_and_input m id min_ts cnt = Ok (m', nr) → ledgers m' = alter l_finish id (ledgers m).
Proof.
  intros H. apply complete_bundle_spec in H as (s & nr0 & E & _ & V & _).
  rewrite <- (ledgers_insert m id s (bundle_done s) l_finish) by done.
  apply map_eq. intros i. unfold ledgers. rewrite !lookup_fmap.
  pose proof (vs_stages _ _ _ _ _ _ _ V i) as Hs. destruct (stages (with_stages m _) !! i) as [a|], (stages m' !! i) as [b|]; try done.
  destruct Hs as [W _]. simpl. f_equal. by eapply woken_ledger.
Qed.

Lemma ledgers_clear_empty m : ledgers (clear_empty_inputs m) = ledgers m.
Proof.
  apply map_eq. intros id. unfold ledgers. simpl. rewrite !lookup_fmap.
  destruct (stages m !! id) as [s|]; [|done]. simpl. by case_decide.
Qed.

Lemma ledgers_release_empty m : manager_ok m → ledgers (release_empty_input_holds m).1 = ledgers m.
Proof.
  intros Hm. unfold release_empty_input_holds. destruct (0 <? _)%nat; [|apply ledgers_clear_empty].
  pose proof (ledgers_refresh _ (clear_empty_inputs_ok m Hm)) as H. destruct (refresh (clear_empty_inputs m)) as [m' adv]. simpl in *.
  rewrite H. apply ledgers_clear_empty.
Qed.

(** ** Operations of the scheduler *)

(** The bundles of [next] start, one after the other. *)
Definition l_starts (L : gmap StageId Ledger) (next : list (nat * StageId)) : gmap StageId Ledger :=
  foldl (λ L p, alter l_start p.2 L) L next.

Lemma l_starts_app L next1 next2 : l_starts L (next1 ++ next2) = l_starts (l_starts L next1) next2.
Proof. apply foldl_app. Qed.

Lemma ledgers_start_loop n m id i :
  let '(m', k) := start_loop n m id in ledgers m' = l_starts (ledgers m) (replicate k (i, id)).
Proof.
  revert m. induction n as [|n IH]; intros m; [done|]. cbn [start_loop].
  destruct (start_bundle m id) as [m1| |] eqn:E; [|done..]. apply ledgers_start in E.
  destruct (queued_bundles m1 id =? 0)%nat; [done|]. specialize (IH m1).
  destruct (start_loop n m1 id) as [m2 k]. cbn [replicate l_starts foldl]. unfold l_starts in IH. by rewrite IH, E.
Qed.

Lemma ledgers_start_stage sc m next st :
  let '(m', next') := start_stage sc (m, next) st in
  ∃ new, next' = next ++ new ∧ ledgers m' = l_starts (ledgers m) new.
Proof.
  unfold start_stage. destruct (index_of sc !! st) as [i|].
  - pose proof (ledgers_start_loop (slots m st) m st i) as H. destruct (start_loop _ m st) as [m' k]. eauto.
  - exists []. by rewrite app_nil_r.
Qed.

Lemma ledgers_start_all sc l m next :
  let '(m', next') := foldl (start_stage sc) (m, next) l in
  ∃ new, next' = next ++ new ∧ ledgers m' = l_starts (ledgers m) new.
Proof.
  revert m next. induction l as [|st l IH]; intros m next; cbn [foldl]; [exists []; by rewrite app_nil_r|].
  pose proof (ledgers_start_stage sc m next st) as H. destruct (start_stage sc (m, next) st) as [m1 next1].
  destruct H as (new1 & -> & E1). specialize (IH m1 (next ++ new1)).
  destruct (foldl _ (m1, next ++ new1) l) as [m2 next2]. destruct IH as (new2 & -> & E2).
  exists (new1 ++ new2). rewrite app_assoc, l_starts_app, E2, E1. done.
Qed.

Lemma ledgers_next_nodes s :
  manager_ok (watermarks s) →
  ledgers (watermarks (next_nodes s).1) = l_starts (ledgers (watermarks s)) (next_nodes s).2.
Proof.
  intros Hm. unfold next_nodes. pose proof (ledgers_start_all s (ready_stages (refresh (watermarks s)).1) (refresh (watermarks s)).1 []) as H.
  destruct (foldl _ _ _) as [m' next]. destruct H as (new & -> & E). simpl. by rewrite E, ledgers_refresh.
Qed.

Lemma build_index_node (l : list (nat * ExecutableNode)) (idx : gmap StageId nat) id i :
  foldl (λ idx '(index, node), <[node_id node := index]> idx) idx l !! id = Some i →
  (∃ node, (i, node) ∈ l ∧ node_id node = id) ∨ idx !! id = Some i.
Proof.
  revert idx. induction l as [|[j node] l IH]; intros idx H; [by right|]. cbn [foldl] in H.
  destruct (IH _ H) as [(node' & Hin & E)|E]; [left; exists node'; split; [by right|done]|].
  destruct (decide (node_id node = id)) as [<-|Hne].
  - rewrite lookup_insert_eq in E. injection E as ->. left. exists node. split; [by left|done].
  - rewrite lookup_insert_ne in E by done. by right.
Qed.

(** A bundle that [next_nodes] starts belongs to the node at its index. *)
Lemma next_nodes_node n g s p :
  schedule (scheduler_new n g) s → p ∈ (next_nodes s).2 →
  ∃ node, g_nodes g !! p.1 = Some node ∧ node_id node = p.2.
Proof.
  intros Hs Hp. apply (ps_index _ _ _ _ _ (next_nodes_pass s)) in Hp as [_ Hi].
  rewrite (schedule_index n g s Hs) in Hi. apply build_index_node in Hi as [(node & Hin & E)|Hi].
  - exists node. by apply elem_of_indexed in Hin.
  - by rewrite lookup_empty in Hi.
Qed.

Lemma ledgers_promoted route es s s' out :
  promoted route es s s' out →
  ledgers (watermarks s') = map_imap (λ id l, Some (if decide (routed route id es = []) then l else l_rearm l))
                              (ledgers (watermarks s)).
Proof.
  intros [_ H]. apply map_eq. intros id. unfold ledgers. rewrite map_lookup_imap, !lookup_fmap, H.
  destruct (stages (watermarks s) !! id) as [t|]; [|done]. simpl. by case_decide.
Qed.

Lemma complete_bundle_succeeds m id s min_ts cnt :
  stages m !! id = Some s → 0 < in_flight s →
  ∃ m' nr, complete_bundle_with_min_and_input m id min_ts cnt = Ok (m', nr).
Proof.
  intros E Hf. unfold complete_bundle_with_min_and_input. rewrite E. destruct (Nat.eqb_spec (in_flight s) 0); [lia|].
  cbv zeta. destruct (foldl _ _ _) as [m' nr]. eauto.
Qed.

Lemma ledgers_mark_complete s idx node min_ts cnt s' l :
  manager_ok (watermarks s) → g_nodes (sched_graph s) !! idx = Some node →
  ledgers (watermarks s) !! node_id node = Some l → 0 < l_in_flight l →
  mark_complete_with_min_and_input s idx min_ts cnt = Ok s' →
  ledgers (watermarks s') = alter l_finish (node_id node) (ledgers (watermarks s)).
Proof.
  intros Hm En El Hf H. unfold mark_complete_with_min_and_input in H. rewrite En in H.
  set (src := match stages (watermarks s) !! node_id node with Some st => _ | None => _ end) in H.
  cbv zeta in H. set (m1 := if src && _ then _ else _) in H. injection H as <-. simpl.
  assert (H1 : manager_ok m1 ∧ ledgers m1 = ledgers (watermarks s)).
  { unfold m1. destruct (_ && _); [|done]. unfold or_unchanged.
    destruct (report_source_finished _ _) as [m'| |] eqn:E; [|done..]. split.
    - by apply (apply_op_ok (watermarks s) (SourceFinished (node_id node)) m').
    - by eapply ledgers_update_source. }
  destruct H1 as [Hm1 El1]. assert (Hs1 : ∃ st, stages m1 !! node_id node = Some st ∧ ledger st = l).
  { rewrite <- El1 in El. unfold ledgers in El. rewrite lookup_fmap in El.
    destruct (stages m1 !! node_id node) as [st|]; [|done]. injection El as <-. eauto. }
  destruct Hs1 as (st & Est & <-). destruct (complete_bundle_succeeds m1 _ st min_ts cnt Est Hf) as (m2 & nr & E).
  rewrite E, ledgers_refresh; [by rewrite (ledgers_complete _ _ _ _ _ _ E), El1|].
  apply (apply_op_ok m1 (CompleteBundle (node_id node) min_ts cnt)); [done|]. simpl. by rewrite E.
Qed.

(** Every stage with a ledger is a node of the graph, and the other way round. *)
Lemma ledgers_dom n g s id :
  schedule (scheduler_new n g) s → is_Some (ledgers (watermarks s) !! id) ↔ id ∈ node_id <$> g_nodes g.
Proof.
  intros Hs. unfold ledgers. rewrite lookup_fmap, fmap_is_Some.
  destruct (runs_ok _ _ (reachable_ok _ (from_graph_reachable g)) (schedule_runs n g s Hs)) as [_ (_ & _ & _ & H)].
  specialize (H id). pose proof (register_all_dom g (indexed (g_nodes g)) new_manager id) as Hd.
  rewrite indexed_snd in Hd. fold (from_executable_graph g) in Hd.
  assert (Hn : ¬ is_Some (stages new_manager !! id)) by (simpl; rewrite lookup_empty; by intros [? ?]).
  destruct (stages (from_executable_graph g) !! id), (stages (watermarks s) !! id); try done; naive_solver.
Qed.

Lemma schedule_manager_ok n g s : schedule (scheduler_new n g) s → manager_ok (watermarks s).
Proof.
  intros Hs. by apply (runs_ok _ _ (reachable_ok _ (from_graph_reachable g)) (schedule_runs n g s Hs)).
Qed.

(** A timer goes to a stage of the graph. *)
Lemma build_transforms_node (l : list ExecutableNode) (t : gmap string StageId) tr stage :
  foldl (λ t node,
    match node with
    | Worker s => foldl (λ t tr, <[tr := es_id s]> t) t (es_transforms s)
    | _ => t
    end) t l !! tr = Some stage →
  (∃ node, node ∈ l ∧ node_id node = stage ∧ ∃ s, node = Worker s) ∨ t !! tr = Some stage.
Proof.
  revert t. induction l as [|node l IH]; intros t H; [by right|]. cbn [foldl] in H.
  destruct (IH _ H) as [(node' & Hin & E)|E]; [left; exists node'; split; [by right|done]|].
  destruct node as [s| |]; [|by right..].
  enough (∀ trs (t : gmap string StageId), foldl (λ t tr, <[tr := es_id s]> t) t trs !! tr = Some stage →
    es_id s = stage ∨ t !! tr = Some stage) as Hs.
  { apply Hs in E as [E|E]; [left; exists (Worker s); split; [by left|eauto]|by right]. }
  clear. induction trs as [|x trs IH]; intros t H; [by right|]. cbn [foldl] in H.
  destruct (IH _ H) as [|E]; [by left|]. destruct (decide (x = tr)) as [->|Hne].
  - rewrite lookup_insert_eq in E. left. congruence.
  - rewrite lookup_insert_ne in E by done. by right.
Qed.

Lemma schedule_transforms n g s : schedule (scheduler_new n g) s → transform_to_stage s = build_transforms g.
Proof. intros H. apply schedule_continues in H as [-> _]. done. Qed.

Lemma schedule_graph n g s : schedule (scheduler_new n g) s → sched_graph s = g.
Proof. intros H. apply schedule_continues in H as [-> _]. done. Qed.

(** Only worker stages own timers. *)
Lemma owner_is_worker n g s tr stage :
  schedule (scheduler_new n g) s → transform_to_stage s !! tr = Some stage →
  ∃ st, Worker st ∈ g_nodes g ∧ es_id st = stage.
Proof.
  intros Hs H. rewrite (schedule_transforms n g s Hs) in H.
  apply build_transforms_node in H as [(node & Hin & E & st & ->)|H]; [by exists st|by rewrite lookup_empty in H].
Qed.

(** ** A new scheduler *)

Definition fresh_ledger : Ledger := mkLedger 0 0 false ∅.
Definition fresh_books (m : WatermarkManager) : Prop := map_Forall (λ _ l, l = fresh_ledger) (ledgers m).

Lemma fresh_update m id f :
  (∀ s, ledger (f s) = ledger s) → fresh_books m → fresh_books (or_unchanged m (update_stage m id f)).
Proof.
  intros Hf Hm. unfold or_unchanged, update_stage. destruct (stages m !! id) as [s|] eqn:E; [|done].
  unfold fresh_books. by rewrite (ledgers_same m id s).
Qed.

Lemma fresh_update_source m id f : fresh_books m → fresh_books (or_unchanged m (update_source m id f)).
Proof.
  intros Hm. unfold or_unchanged. destruct (update_source m id f) as [m'| |] eqn:E; [|done..].
  unfold fresh_books. by rewrite (ledgers_update_source m id f m').
Qed.

Lemma fresh_register_node g m i node : fresh_books m → fresh_books (register_node g m i node).
Proof.
  intros Hm. unfold register_node. cbv zeta. set (m1 := add_stage m _ _ _ _).
  assert (H1 : fresh_books m1).
  { unfold fresh_books, ledgers, m1. simpl. rewrite fmap_insert. by apply map_Forall_insert_2. }
  set (m2 := match node with Worker _ => _ | _ => _ end).
  assert (H2 : fresh_books m2).
  { unfold m2. destruct node; [done| |done]. destruct (negb _); [by apply fresh_update_source|done]. }
  destruct (aggregation_required_watermark _ _); [by apply fresh_update, fresh_update|].
  destruct (time_sorted_input_required_watermark _ _); [by apply fresh_update, fresh_update|done].
Qed.

Lemma fresh_scheduler n g : fresh_books (watermarks (scheduler_new n g)).
Proof.
  unfold scheduler_new, from_executable_graph. simpl.
  assert (H : ∀ l m, fresh_books m → fresh_books (foldl (λ m '(index, node), register_node g m index node) m l)).
  { induction l as [|[i node] l IH]; intros m Hm; [done|]. by apply IH, fresh_register_node. }
  assert (Ha : ∀ l m, fresh_books m → fresh_books (foldl (allow_residuals n) m l)).
  { induction l as [|node l IH]; intros m Hm; [done|]. apply IH.
    destruct node as [| |id [] outs nested]; try done. by apply fresh_update. }
  apply Ha, H. unfold fresh_books, ledgers. simpl. rewrite fmap_empty. apply map_Forall_empty.
Qed.

(** ** Holds keep outputs back *)

Lemma min_element_le (X : gmultiset Z) h : h ∈ X → ∃ m, min_element X = Some m ∧ (m ≤ h)%Z.
Proof.
  intros Hin. unfold min_element. assert (Hd : h ∈ elements (dom X)) by (by apply elem_of_elements, gmultiset_elem_of_dom).
  destruct (elements (dom X)) as [|x l]; [by apply elem_of_nil in Hd|]. exists (foldr Z.min x l). split; [done|].
  apply elem_of_cons in Hd as [->|Hd].
  - clear. induction l as [|y l IH]; simpl; lia.
  - induction l as [|y l IH]; [by apply elem_of_nil in Hd|]. simpl. apply elem_of_cons in Hd as [->|Hd]; [lia|].
    specialize (IH Hd). lia.
Qed.

Lemma stage_min_hold_le s h :
  h ∈ Watermark.watermark_holds s ∨ h ∈ Watermark.residual_holds s → ∃ m, stage_min_hold s = Some m ∧ (m ≤ h)%Z.
Proof.
  unfold stage_min_hold. intros [Hin|Hin]; apply min_element_le in Hin as (m & -> & Hm).
  - destruct (min_element _) as [r|]; [exists (Z.min m r)|exists m]; split; [done|lia|done|lia].
  - destruct (min_element (watermark_holds s)) as [r|]; [exists (Z.min r m)|exists m]; split; [done|lia|done|lia].
Qed.

(** A refresh does not carry the output of a stage past one of its holds. *)
Lemma refresh_below_hold m id s s' h :
  manager_ok m → stages m !! id = Some s → stages (refresh m).1 !! id = Some s' →
  h ∈ Watermark.watermark_holds s ∨ h ∈ Watermark.residual_holds s → (output s' ≤ Z.max (output s) h)%Z.
Proof.
  intros Hm E E' Hh. destruct (refresh_justified m id s s' Hm E E') as [R Hj].
  apply stage_min_hold_le in Hh as (k & Hk & Hle).
  apply same_rest_fields in R as (_ & _ & _ & _ & _ & _ & _ & _ & _ & Rh & Rr).
  assert (Hs : stage_min_hold s' = Some k) by (unfold stage_min_hold in *; by rewrite <- Rh, <- Rr).
  destruct (compute_output_upper (refresh m).1 s') as (U & _). specialize (U k Hs). lia.
Qed.
