(* ===== verification/DispatcherSpec.v ===== *)
(** The books of the dispatcher: its queues, tasks, holds and pending timers agree with the
    watermark manager's count of bundles, whatever the loop and the bundles do. *)
From stdpp Require Import gmultiset.
From S2P Require Import Prelude Bytes Varint Windows Kv UserState Timers.
From S2P Require Import Watermark WatermarkRefresh WatermarkBundles WatermarkInvariant Scheduler SchedulerSpec.
From S2P Require Import Sdf SdfBundle Dispatcher DispatcherLedger.
Set Warnings "-clear-no-such-hyp".
Local Open Scope string_scope.
Local Open Scope list_scope.

(** * Holds as multisets *)

Definition holds_at (map : gmap StageId (list Z)) (id : StageId) : gmultiset Z :=
  list_to_set_disj (default [] (map !! id)).

(** No stage is mapped to an empty list. *)
Definition no_empty (map : gmap StageId (list Z)) : Prop := ∀ id, map !! id ≠ Some [].

Lemma holds_at_add map st hs id :
  holds_at (add_holds map st hs) id = if decide (id = st) then holds_at map id ⊎ list_to_set_disj hs else holds_at map id.
Proof.
  unfold holds_at, add_holds. destruct hs as [|h hs].
  - case_decide; [|done]. simpl. multiset_solver.
  - case_decide as Hd; [subst; rewrite lookup_insert_eq; simpl|by rewrite lookup_insert_ne].
    by rewrite list_to_set_disj_app.
Qed.

Lemma no_empty_add map st hs : no_empty map → no_empty (add_holds map st hs).
Proof.
  intros Hm id. unfold add_holds. destruct hs as [|h hs]; [apply Hm|].
  destruct (decide (id = st)) as [->|Hne]; [rewrite lookup_insert_eq|rewrite lookup_insert_ne by done; apply Hm].
  intros [= E]. apply app_eq_nil in E as [_ ?]. done.
Qed.

Lemma remove_first_set hold l : list_to_set_disj (remove_first hold l) = list_to_set_disj l ∖ {[+ hold +]} :> gmultiset Z.
Proof.
  induction l as [|c l IH]; simpl; [multiset_solver|].
  destruct (Z.eqb_spec c hold) as [->|Hne]; [multiset_solver|]. simpl. rewrite IH. multiset_solver.
Qed.

Lemma remove_all_set hs l :
  list_to_set_disj (foldl (λ l hold, remove_first hold l) l hs) = list_to_set_disj l ∖ list_to_set_disj hs :> gmultiset Z.
Proof.
  revert l. induction hs as [|h hs IH]; intros l; simpl; [multiset_solver|].
  rewrite IH, remove_first_set. multiset_solver.
Qed.

Lemma holds_at_remove map st hs id :
  holds_at (remove_holds map st hs) id = if decide (id = st) then holds_at map id ∖ list_to_set_disj hs else holds_at map id.
Proof.
  unfold holds_at, remove_holds. destruct (map !! st) as [l|] eqn:E.
  2: { case_decide; [|done]. subst. rewrite E. simpl. multiset_solver. }
  pose proof (remove_all_set hs l) as Hs. destruct (foldl _ l hs) as [|x l'] eqn:El.
  - case_decide as Hd; [subst; rewrite lookup_delete_eq, E; simpl; done|by rewrite lookup_delete_ne].
  - case_decide as Hd; [subst; rewrite lookup_insert_eq, E; simpl; done|by rewrite lookup_insert_ne].
Qed.

Lemma no_empty_remove map st hs : no_empty map → no_empty (remove_holds map st hs).
Proof.
  intros Hm id. unfold remove_holds. destruct (map !! st) as [l|] eqn:E; [|apply Hm].
  destruct (foldl _ l hs) as [|x l'].
  - destruct (decide (id = st)) as [->|Hne]; [by rewrite lookup_delete_eq|rewrite lookup_delete_ne by done; apply Hm].
  - destruct (decide (id = st)) as [->|Hne]; [by rewrite lookup_insert_eq|rewrite lookup_insert_ne by done; apply Hm].
Qed.

Lemma no_empty_all map : no_empty map → (∀ id, holds_at map id = ∅) → map = ∅.
Proof.
  intros Hm He. apply map_eq. intros id. rewrite lookup_empty. specialize (He id). specialize (Hm id).
  unfold holds_at in He. destruct (map !! id) as [[|h l]|]; [done| |done].
  simpl in He. exfalso. multiset_solver.
Qed.

(** The multiset of the holds of some work items. *)
Definition hold_set (items : list SdfWorkItem) : gmultiset Z := list_to_set_disj (concat (holds <$> items)).

Lemma hold_set_app l k : hold_set (l ++ k) = hold_set l ⊎ hold_set k.
Proof. unfold hold_set. by rewrite fmap_app, concat_app, list_to_set_disj_app. Qed.

Lemma hold_set_cons item l : hold_set (item :: l) = list_to_set_disj (holds item) ⊎ hold_set l.
Proof. unfold hold_set. simpl. by rewrite list_to_set_disj_app. Qed.

Lemma elem_of_hold_set item h l : item ∈ l → h ∈ holds item → h ∈ hold_set l.
Proof.
  intros Hi Hh. induction l as [|item' l IH]; [by apply elem_of_nil in Hi|]. rewrite hold_set_cons, gmultiset_elem_of_disj_union.
  apply elem_of_cons in Hi as [->|Hi]; [left; by apply elem_of_list_to_set_disj|by right; apply IH].
Qed.

(** The holds of several items added one item after the other. *)
Definition add_items (map : gmap StageId (list Z)) (st : StageId) (new : list SdfWorkItem) : gmap StageId (list Z) :=
  foldl (λ map item, add_holds map st (holds item)) map new.

Lemma holds_at_add_items map st new id :
  holds_at (add_items map st new) id = if decide (id = st) then holds_at map id ⊎ hold_set new else holds_at map id.
Proof.
  unfold add_items. revert map. induction new as [|item new IH]; intros map; cbn [foldl].
  - case_decide; [|done]. unfold hold_set. simpl. multiset_solver.
  - rewrite IH, holds_at_add. case_decide; [|done]. rewrite hold_set_cons. multiset_solver.
Qed.

Lemma no_empty_add_items map st new : no_empty map → no_empty (add_items map st new).
Proof.
  unfold add_items. revert map. induction new as [|item new IH]; intros map Hm; [done|]. by apply IH, no_empty_add.
Qed.

(** * The books *)

(** Ledgers that differ in re-armed stages only. *)
Definition rearmed (L L' : gmap StageId Ledger) : Prop :=
  ∀ id, match L !! id, L' !! id with
        | Some l, Some l' => l' = l ∨ l' = l_rearm l
        | None, None => True
        | _, _ => False
        end.

Lemma rearmed_refl L : rearmed L L.
Proof. intros id. destruct (L !! id); auto. Qed.

Lemma rearmed_alter L id : rearmed L (alter l_rearm id L).
Proof.
  intros i. destruct (decide (i = id)) as [->|Hne]; [rewrite lookup_alter_eq|rewrite lookup_alter_ne by done];
    destruct (L !! _); simpl; auto.
Qed.

Lemma rearmed_imap L (P : StageId → Prop) `{!∀ id, Decision (P id)} :
  rearmed L (map_imap (λ id l, Some (if decide (P id) then l else l_rearm l)) L).
Proof. intros id. rewrite map_lookup_imap. destruct (L !! id); simpl; [|done]. case_decide; auto. Qed.

Section books.
Context {Store : Type} `{KvStore Store} `{Pr : Profile} (iteration_order : gset bytes → list bytes).
Context (to_vec : TimerEntry → outcome string bytes) (from_slice : bytes → outcome string TimerEntry).
(** The graph of the job. *)
Context (concurrency : nat) (g : ExecutableGraph) (Hids : NoDup (node_id <$> g_nodes g)).
Local Abbreviation D := (Dispatcher (Store:=Store)).

Definition tasks_of (id : StageId) (d : D) : list Task := filter (λ t, t_stage t = id) (d_in_flight d).
(** The work items of a stage that wait or run. *)
Definition outstanding (d : D) (id : StageId) : list SdfWorkItem :=
  q_items (queue_of d id) ++ omap t_seed (tasks_of id d).
Definition splittable_stage (id : StageId) : Prop :=
  ∃ node, node ∈ g_nodes g ∧ node_id node = id ∧ is_splittable_node node = true.

(** A task is what was started for its node, and ends as such a task can. *)
Record task_ok (t : Task) : Prop := {
  tk_node : ∃ node, g_nodes g !! t_index t = Some node ∧ node_id node = t_stage t ∧ is_splittable_node node = t_splittable t;
  tk_plain : t_splittable t = false → t_seed t = None;
  tk_end : ∀ e, t_end t = Some e → ends_with t e;
}.

(** The books agree with the ledgers [L]; [extra] is a stage with a bundle that was joined
    but not marked complete. *)
Record books (d : D) (L : gmap StageId Ledger) (extra : option StageId) : Prop := {
  bk_queue : ∀ id l, L !! id = Some l → length (q_items (queue_of d id)) = l_queued l;
  bk_tasks : ∀ id l, L !! id = Some l →
    length (tasks_of id d) + (if decide (extra = Some id) then 1 else 0) = l_in_flight l;
  bk_pending : ∀ id es, d_pending_timers d !! id = Some es → ∃ l, L !! id = Some l ∧ l_rerun l = true;
  bk_holds : ∀ id, holds_at (d_residual_holds d) id = hold_set (outstanding d id);
  bk_some : no_empty (d_residual_holds d);
  bk_covered : ∀ id l, L !! id = Some l → holds_at (d_residual_holds d) id ⊆ l_residual l;
  bk_splittable : ∀ id, is_Some (d_sdf_queues d !! id) → splittable_stage id;
  bk_uninit : ∀ id, q_initialized (queue_of d id) = false → q_items (queue_of d id) = [];
  bk_task : Forall task_ok (d_in_flight d);
  bk_sent : ∀ p, p ∈ d_immediate_sdf d → splittable_stage p.1;
}.

Lemma books_rearmed d L L' extra : books d L extra → rearmed L L' → books d L' extra.
Proof.
  intros [Bq Bt Bp Bh Bn Bc Bs Bu Bk Bi] HR.
  assert (Hback : ∀ id l', L' !! id = Some l' → ∃ l, L !! id = Some l ∧ l_queued l' = l_queued l
            ∧ l_in_flight l' = l_in_flight l ∧ l_residual l' = l_residual l).
  { intros id l' E. specialize (HR id). rewrite E in HR. destruct (L !! id) as [l|]; [|done].
    exists l. by destruct HR as [->| ->]. }
  split; try done.
  - intros id l' E. destruct (Hback id l' E) as (l & El & -> & _). by apply Bq.
  - intros id l' E. destruct (Hback id l' E) as (l & El & _ & -> & _). by apply Bt.
  - intros id es E. destruct (Bp id es E) as (l & El & Hr). specialize (HR id). rewrite El in HR.
    destruct (L' !! id) as [l'|]; [|done]. exists l'. split; [done|]. by destruct HR as [->| ->].
  - intros id l' E. destruct (Hback id l' E) as (l & El & _ & _ & ->). by apply Bc.
Qed.

Lemma splittable_unique id node :
  splittable_stage id → node ∈ g_nodes g → node_id node = id → is_splittable_node node = true.
Proof.
  intros (n & Hn & En & Hs) Hin E. apply list_elem_of_lookup in Hn as [i Hi]. apply list_elem_of_lookup in Hin as [j Hj].
  enough (i = j) as <- by congruence.
  apply (NoDup_lookup (node_id <$> g_nodes g) i j id); [exact Hids| |]; rewrite list_lookup_fmap.
  - rewrite Hi. simpl. by rewrite En.
  - rewrite Hj. simpl. by rewrite E.
Qed.

(** What an operation of the loop leaves alone. *)
Definition same_queue_view (d d' : D) : Prop :=
  d_sdf_queues d' = d_sdf_queues d ∧ d_residual_holds d' = d_residual_holds d
  ∧ d_immediate_sdf d' = d_immediate_sdf d ∧ d_in_flight d' = d_in_flight d.

(** The pending timers may grow for stages that are re-armed. *)
Lemma books_frame d d' L extra :
  books d L extra → same_queue_view d d' →
  (∀ id es, d_pending_timers d' !! id = Some es → ∃ l, L !! id = Some l ∧ l_rerun l = true) →
  books d' L extra.
Proof.
  intros [Bq Bt Bp Bh Bn Bc Bs Bu Bk Bi] (E1 & E2 & E3 & E4) Hp.
  split; unfold outstanding, tasks_of, queue_of; rewrite ?E1, ?E2, ?E3, ?E4; done.
Qed.

(** * Enqueueing work items *)

Lemma queue_of_insert (d : D) st q id :
  queue_of (with_queues (<[st := q]> (d_sdf_queues d)) d) id = if decide (id = st) then q else queue_of d id.
Proof.
  unfold queue_of. simpl. case_decide as Hd; [subst; by rewrite lookup_insert_eq|by rewrite lookup_insert_ne].
Qed.

(** The state with [new] appended to the queue of a stage and the queue's flags set. *)
Definition with_items (st : StageId) (new : list SdfWorkItem) (init reg : bool) (d : D) : D :=
  with_queues (<[st := mkQueue init reg (q_items (queue_of d st) ++ new) (q_progress_tick (queue_of d st))]> (d_sdf_queues d))
    (with_residual_holds (add_items (d_residual_holds d) st new) d).

Lemma books_with_items d L extra st new init reg s' L' :
  books d L extra → splittable_stage st →
  (init = false → new = [] ∧ q_initialized (queue_of d st) = false) →
  (∀ id, is_Some (L !! id) → is_Some (L' !! id)) →
  (∀ id l', L' !! id = Some l' → ∃ l, L !! id = Some l ∧ l_in_flight l' = l_in_flight l ∧ l_rerun l' = l_rerun l
     ∧ l_queued l' = l_queued l + (if decide (id = st) then length new else 0)
     ∧ holds_at (add_items (d_residual_holds d) st new) id ⊆ l_residual l') →
  books (with_scheduler s' (with_items st new init reg d)) L' extra.
Proof.
  intros [Bq Bt Bp Bh Bn Bc Bs Bu Bk Bi] Hst Hinit Hdom HL.
  assert (Hq : ∀ id, queue_of (with_scheduler s' (with_items st new init reg d)) id
            = if decide (id = st) then mkQueue init reg (q_items (queue_of d st) ++ new) (q_progress_tick (queue_of d st))
              else queue_of d id) by (intros id; apply (queue_of_insert d st)).
  split; try done.
  - intros id l' E. destruct (HL id l' E) as (l & El & _ & _ & -> & _). rewrite Hq.
    case_decide as Hd; [subst; simpl; rewrite length_app, (Bq st l El); lia|]. rewrite (Bq id l El). lia.
  - intros id l' E. destruct (HL id l' E) as (l & El & -> & _). by apply Bt.
  - intros id es E. destruct (Bp id es E) as (l & El & Hr). destruct (Hdom id) as [l' El']; [by exists l|].
    exists l'. split; [done|]. destruct (HL id l' El') as (l0 & E0 & _ & -> & _). congruence.
  - intros id. simpl. rewrite holds_at_add_items, Bh. unfold outstanding. rewrite Hq.
    case_decide as Hd; [subst; simpl|done]. rewrite !hold_set_app. unfold tasks_of. simpl. multiset_solver.
  - simpl. by apply no_empty_add_items.
  - intros id l' E. by destruct (HL id l' E) as (l & El & _ & _ & _ & ?).
  - intros id. simpl. destruct (decide (id = st)) as [->|Hne]; [done|rewrite lookup_insert_ne by done; apply Bs].
  - intros id. rewrite Hq. case_decide as Hd; [subst; simpl|apply Bu]. intros Hi. apply Hinit in Hi as [-> Hi].
    by rewrite Bu, app_nil_r.
Qed.

Lemma push_items_spec d st new :
  is_Some (d_sdf_queues d !! st) →
  foldl (λ d item, push_work_item st item d) d new
  = with_items st new (q_initialized (queue_of d st)) (q_registered (queue_of d st)) d.
Proof.
  revert d. induction new as [|item new IH]; intros d [q Eq]; cbn [foldl].
  - unfold with_items, with_queues, queue_of, add_items. rewrite Eq, app_nil_r. simpl. destruct d, q. simpl in *. by rewrite insert_id.
  - rewrite IH; [|unfold push_work_item; simpl; rewrite lookup_insert_eq; eauto].
    unfold with_items, push_work_item, with_queues, with_residual_holds, queue_of, add_items. simpl.
    rewrite !lookup_insert_eq, insert_insert_eq. simpl. by rewrite <- app_assoc.
Qed.

Definition wm (d : D) : WatermarkManager := watermarks (d_scheduler d).
Definition L_of (d : D) : gmap StageId Ledger := ledgers (wm d).

(** The scheduler is one that the loop's calls lead to, and the books agree with it. *)
Record agrees (d : D) (extra : option StageId) : Prop := {
  ag_schedule : schedule (scheduler_new concurrency g) (d_scheduler d);
  ag_books : books d (L_of d) extra;
}.

Lemma schedule_with_op s o m :
  schedule (scheduler_new concurrency g) s → is_add o = false → apply_op (watermarks s) o = Ok m →
  schedule (scheduler_new concurrency g) (with_watermarks s m).
Proof. apply schedule_op. Qed.

Lemma lookup_residual_all m hs id l' :
  ledgers (set_all_residual_holds m hs) !! id = Some l' →
  ∃ l, ledgers m !! id = Some l ∧ l' = l_hold (holds_at hs id) l.
Proof.
  rewrite ledgers_residual_holds, map_lookup_imap. destruct (ledgers m !! id) as [l|]; simpl; [|done].
  intros [= <-]. eauto.
Qed.

(** What enqueueing touches: the queue and the holds of the stage, and the manager. *)
Definition same_tasks (d d' : D) : Prop :=
  d_in_flight d' = d_in_flight d ∧ d_immediate_sdf d' = d_immediate_sdf d ∧ d_pending_timers d' = d_pending_timers d
  ∧ d_timers d' = d_timers d ∧ d_source_reports d' = d_source_reports d ∧ d_commit_min_ts d' = d_commit_min_ts d.

Lemma enqueue_agrees d extra st new d' n :
  agrees d extra → splittable_stage st → enqueue_sdf_items st new d = (d', Ok n) →
  agrees d' extra ∧ same_tasks d d'.
Proof.
  intros [HS HB] Hst E. unfold enqueue_sdf_items in E. inv_st E. injection E0 as <- <-. inv_st E. injection E0 as <- <-.
  set (d1 := with_queues _ d) in E.
  assert (E1 : foldl (λ d item, push_work_item st item d) d1 new = with_items st new (q_initialized (queue_of d st)) (q_registered (queue_of d st)) d).
  { rewrite push_items_spec; [|unfold d1; simpl; rewrite lookup_insert_eq; eauto].
    unfold with_items, d1, with_queues, queue_of. simpl. by rewrite !lookup_insert_eq, insert_insert_eq. }
  rewrite E1 in E. destruct new as [|item new].
  - injection E as <- _. split; [|done]. split; [done|].
    apply (books_with_items d (L_of d) extra st [] _ _ (d_scheduler d) (L_of d)); [done|done|done|done|].
    intros id l El. exists l. split_and!; [done..|case_decide; simpl; lia|]. by apply (bk_covered _ _ _ HB).
  - set (new' := item :: new) in *. cbv beta in E. inv_st E. injection E0 as <- <-. inv_st E. injection E0 as <- <-.
    set (d2 := mark_queue st _) in E.
    assert (E2 : d2 = with_items st new' true true d).
    { unfold d2, mark_queue, with_items, with_queues, queue_of. simpl. by rewrite lookup_insert_eq, insert_insert_eq. }
    rewrite E2 in E. clear d1 E1 d2 E2. inv_st E. unfold try_watermarks in E0. simpl in E0.
    set (m1 := set_all_residual_holds (watermarks (d_scheduler d)) _) in E0.
    destruct (enqueue_bundles m1 st _) as [m2| |] eqn:Em; [|done..]. injection E0 as <- <-. injection E as <- _.
    assert (HS1 : schedule (scheduler_new concurrency g) (with_watermarks (d_scheduler d) m1)).
    { by apply (schedule_with_op _ (SetResidualHolds (add_items (d_residual_holds d) st new'))). }
    split; [|done]. split; [simpl; by apply (schedule_with_op (with_watermarks (d_scheduler d) m1) (Enqueue st (length new')))|].
    apply ledgers_enqueue in Em.
    apply (books_with_items d (L_of d) extra st new' true true (with_watermarks (d_scheduler d) m2) (ledgers m2));
      [done|done|done| |].
    + intros id [l El]. rewrite Em. destruct (decide (id = st)) as [->|Hne];
        [rewrite lookup_alter_eq|rewrite lookup_alter_ne by done]; unfold m1; rewrite ledgers_residual_holds, map_lookup_imap;
        fold (wm d) (L_of d); rewrite El; eauto.
    + intros id l' El'. rewrite Em in El'. destruct (decide (id = st)) as [->|Hne].
      * rewrite lookup_alter_eq in El'. destruct (ledgers m1 !! st) as [l1|] eqn:E1; [|done]. injection El' as <-.
        apply lookup_residual_all in E1 as (l & El & ->). exists l. split_and!; try done.
      * rewrite lookup_alter_ne in El' by done. apply lookup_residual_all in El' as (l & El & ->).
        exists l. split_and!; [done..|simpl; lia|done].
Qed.

(** * Timers and sources *)

Lemma rearmed_rerun L L' id l : rearmed L L' → L !! id = Some l → l_rerun l = true → ∃ l', L' !! id = Some l' ∧ l_rerun l' = true.
Proof.
  intros HR E Hr. specialize (HR id). rewrite E in HR. destruct (L' !! id) as [l'|]; [|done].
  exists l'. split; [done|]. by destruct HR as [->| ->].
Qed.

(** A step that changes only the manager, and of the ledgers only whether stages are
    re-armed. *)
Lemma agrees_scheduler d extra s' :
  agrees d extra → schedule (scheduler_new concurrency g) s' → rearmed (L_of d) (ledgers (watermarks s')) →
  agrees (with_scheduler s' d) extra.
Proof.
  intros [HS HB] HS' HR. split; [done|]. apply (books_frame d); [by eapply books_rearmed|done|].
  intros id es E. simpl in E. destruct (bk_pending _ _ _ HB id es E) as (l & El & Hr). by eapply rearmed_rerun.
Qed.

Lemma agrees_op d extra o m :
  agrees d extra → is_add o = false → apply_op (wm d) o = Ok m → rearmed (L_of d) (ledgers m) →
  agrees (with_scheduler (with_watermarks (d_scheduler d) m) d) extra.
Proof. intros Ha Ho E HR. apply agrees_scheduler; [done| |done]. apply (schedule_with_op _ o); [apply Ha|done|done]. Qed.

Lemma rearmed_eq L L' : L' = L → rearmed L L'.
Proof. intros ->. apply rearmed_refl. Qed.

(** What no step outside the bookkeeping of work items touches. *)
Lemma agrees_frame d d' extra :
  agrees d extra → same_queue_view d d' → d_scheduler d' = d_scheduler d → d_pending_timers d' = d_pending_timers d →
  agrees d' extra.
Proof.
  intros [HS HB] Hv Es Ep. split; [by rewrite Es|]. unfold L_of, wm. rewrite Es. apply (books_frame d); [done|done|].
  rewrite Ep. apply (bk_pending _ _ _ HB).
Qed.

Lemma sync_agrees d extra d' :
  agrees d extra → sync_event_time_holds from_slice d = (d', Ok ()) →
  agrees d' extra ∧ same_tasks d d' ∧ d_sdf_queues d' = d_sdf_queues d ∧ L_of d' = L_of d.
Proof.
  intros Ha E. unfold sync_event_time_holds in E. inv_st E. inv_st E0. injection E as <-.
  split; [|split_and!; try done; apply ledgers_event_holds].
  apply (agrees_op d extra (SetEventTimeHolds (timer_holds (d_scheduler d) a))); [done|done|done|]. apply rearmed_eq, ledgers_event_holds.
Qed.

Lemma set_residual_agrees d extra :
  agrees d extra →
  agrees (with_scheduler (with_watermarks (d_scheduler d) (set_all_residual_holds (wm d) (d_residual_holds d))) d) extra.
Proof.
  intros [HS HB]. split; [by apply (schedule_with_op _ (SetResidualHolds (d_residual_holds d)))|].
  pose proof HB as [Bq Bt Bp Bh Bn Bc Bs Bu Bk Bi]. unfold L_of. simpl. split; try done.
  - intros id l' E. apply lookup_residual_all in E as (l & El & ->). by apply (Bq id l).
  - intros id l' E. apply lookup_residual_all in E as (l & El & ->). by apply (Bt id l).
  - intros id es E. destruct (Bp id es E) as (l & El & Hr). unfold wm. simpl. rewrite ledgers_residual_holds. exists (l_hold (holds_at (d_residual_holds d) id) l).
    rewrite map_lookup_imap. unfold L_of, wm in El. by rewrite El.
  - intros id l' E. apply lookup_residual_all in E as (l & El & ->). done.
Qed.

Definition groups_ok (L : gmap StageId Ledger) (groups : list (StageId * list TimerEntry)) : Prop :=
  Forall (λ p, ∃ l, L !! p.1 = Some l ∧ l_rerun l = true) groups.

Lemma promoted_groups_ok route es s s' out :
  (∀ e st, route e = Some st → is_Some (ledgers (watermarks s) !! st)) →
  promoted route es s s' out → groups_ok (ledgers (watermarks s')) out.
Proof.
  intros Hr Hp. apply Forall_lookup. intros i [st l] Hin%list_elem_of_lookup_2. pose proof Hp as [Ho _]. apply Ho in Hin as [Hne ->].
  simpl. rewrite (ledgers_promoted _ _ _ _ _ Hp), map_lookup_imap.
  destruct (routed route st es) as [|e rest] eqn:E; [done|].
  assert (He : e ∈ routed route st es) by (rewrite E; by left). apply list_elem_of_filter in He as [He _].
  destruct (Hr e st He) as [l' ->]. simpl. eauto.
Qed.

Lemma owner_ledger s tr st :
  schedule (scheduler_new concurrency g) s → transform_to_stage s !! tr = Some st → is_Some (ledgers (watermarks s) !! st).
Proof.
  intros Hs E. apply (ledgers_dom concurrency g s st Hs). destruct (owner_is_worker _ _ _ _ _ Hs E) as (w & Hin & <-).
  apply list_elem_of_fmap. by exists (Worker w).
Qed.

Lemma promote_read_agrees d extra d' groups :
  agrees d extra → promote_read from_slice d = (d', Ok groups) → agrees d' extra ∧ groups_ok (L_of d') groups ∧ same_tasks d d'.
Proof.
  intros Ha E. unfold promote_read in E. inv_st E. inv_st E0. destruct a as [|e es].
  { injection E as <- <-. split_and!; try done. constructor. }
  unfold with_state in E. pose proof (promote_due_event_time_timers_spec (d_scheduler d) (e :: es)) as Hp.
  destruct (Scheduler.promote_due_event_time_timers (d_scheduler d) (e :: es)) as [s' out] eqn:Ep. injection E as <- <-. simpl in Hp.
  assert (HS' : schedule (scheduler_new concurrency g) s').
  { replace s' with (Scheduler.promote_due_event_time_timers (d_scheduler d) (e :: es)).1 by (by rewrite Ep). constructor. apply Ha. }
  split_and!; try done.
  - apply agrees_scheduler; [done|done|]. unfold L_of, wm. rewrite (ledgers_promoted _ _ _ _ _ Hp).
    apply (rearmed_imap _ (λ id, routed _ id (e :: es) = [])).
  - eapply promoted_groups_ok; [|exact Hp]. intros t st Ht. unfold route_event_timer in Ht.
    destruct (transform_to_stage (d_scheduler d) !! _) as [st'|] eqn:Eo; [|done]. simpl in Ht.
    destruct (is_due_at_watermark _ _); [|done]. injection Ht as <-. apply (owner_ledger _ _ _ (ag_schedule _ _ Ha) Eo).
Qed.

Lemma deliver_agrees d extra group :
  agrees d extra → (∃ l, L_of d !! group.1 = Some l ∧ l_rerun l = true) → agrees (deliver group d) extra.
Proof.
  intros [HS HB] Hg. split; [done|]. apply (books_frame d); [done|done|].
  intros id es E. simpl in E. destruct (decide (id = group.1)) as [->|Hne]; [done|].
  rewrite lookup_insert_ne in E by done. by apply (bk_pending _ _ _ HB id es).
Qed.

Lemma on_timers_agrees {A} (f : st Store A) d extra d' a :
  agrees d extra → on_timers f d = (d', Ok a) → agrees d' extra ∧ d' = with_timers (f (d_timers d)).1 d ∧ (f (d_timers d)).2 = Ok a.
Proof.
  unfold on_timers. intros Ha E. destruct (f (d_timers d)) as [s r]. injection E as <- ->. split; [|done].
  by apply (agrees_frame d).
Qed.

Lemma promote_group_agrees d extra group d' n :
  agrees d extra → (∃ l, L_of d !! group.1 = Some l ∧ l_rerun l = true) →
  promote_group iteration_order to_vec group d = (d', Ok n) →
  agrees d' extra ∧ L_of d' = L_of d ∧ d_in_flight d' = d_in_flight d ∧ d_immediate_sdf d' = d_immediate_sdf d.
Proof.
  intros Ha Hg E. unfold promote_group in E. inv_st E. apply (on_timers_agrees _ _ extra) in E0 as (Ha1 & -> & _); [|done].
  inv_st E. injection E0 as <- <-. injection E as <- _. split; [|done]. by apply deliver_agrees.
Qed.

(** ** Rounds without a running bundle *)

(** The books agree, and tasks and split residuals are those of [d0]. *)
Definition kept (d0 : D) (extra : option StageId) (d : D) : Prop :=
  agrees d extra ∧ d_in_flight d = d_in_flight d0 ∧ d_immediate_sdf d = d_immediate_sdf d0.
Definition keeps (extra : option StageId) {A} (f : st D A) : Prop :=
  ∀ d0, hoare (kept d0 extra) f (λ _, kept d0 extra).

Lemma keeps_bind extra {A B} (f : st D A) (k : A → st D B) :
  keeps extra f → (∀ a, keeps extra (k a)) → keeps extra (mbind (M:=st D) k f).
Proof. intros Hf Hk d0. eapply hoare_bind; [apply Hf|]. intros a. apply Hk. Qed.

Lemma keeps_ret extra {A} (a : A) : keeps extra (mret (M:=st D) a).
Proof. intros d0. exact (hoare_ret a (λ _, kept d0 extra)). Qed.

Lemma keeps_read extra {A} (f : D → outcome string A) : keeps extra (st_read f).
Proof. intros d0 d Hd d' a E. apply st_read_ok in E as [-> _]. done. Qed.

Lemma keeps_lift extra {A} (r : outcome string A) : keeps extra (st_lift (B:=D) r).
Proof. intros d0 d Hd d' a E. apply st_lift_ok in E as [-> _]. done. Qed.

Lemma keeps_state extra {A} (f : D → st D A) : (∀ d, keeps extra (f d)) → keeps extra (with_state f).
Proof. intros Hf d0 d Hd d' a E. by eapply Hf. Qed.

Lemma keeps_op extra o :
  is_add o = false → (∀ m m', manager_ok m → apply_op m o = Ok m' → rearmed (ledgers m) (ledgers m')) →
  keeps extra (try_watermarks (λ m, apply_op m o)).
Proof.
  intros Ho HR d0 d (Ha & Ht & Hi) d' [] E. unfold try_watermarks in E.
  destruct (apply_op (watermarks (d_scheduler d)) o) as [m| |] eqn:Em; [|done..]. injection E as <-.
  split; [|done]. apply (agrees_op d extra o m); [done..|]. apply (HR _ _ (schedule_manager_ok _ _ _ (ag_schedule _ _ Ha)) Em).
Qed.

Lemma keeps_source extra o f st :
  is_add o = false → (∀ m, apply_op m o = update_source m st f) → keeps extra (try_watermarks (λ m, apply_op m o)).
Proof.
  intros Ho Hf. apply keeps_op; [done|]. intros m m' _ E. rewrite Hf in E. apply rearmed_eq. by eapply ledgers_update_source.
Qed.

Lemma rearmed_mark_rerun m st m' : mark_rerun m st = Ok m' → rearmed (ledgers m) (ledgers m').
Proof.
  intros E. rewrite (ledgers_update m st (set_rerun_pending true) l_rearm m'); [apply rearmed_alter|done|exact E].
Qed.

Lemma keeps_refresh extra : keeps extra (on_watermarks (λ m, (refresh m).1)).
Proof.
  intros d0 d (Ha & Ht & Hi) d' [] E. injection E as <-. split; [|done].
  apply (agrees_op d extra Refresh); [done..|]. apply rearmed_eq, ledgers_refresh, (schedule_manager_ok _ _ _ (ag_schedule _ _ Ha)).
Qed.

Lemma keeps_frame extra f :
  (∀ d, same_queue_view d (f d) ∧ d_scheduler (f d) = d_scheduler d ∧ d_pending_timers (f d) = d_pending_timers d) →
  keeps extra (modify f).
Proof.
  intros Hf d0 d (Ha & Ht & Hi) d' [] E. injection E as <-. destruct (Hf d) as (Hv & Hs & Hp).
  pose proof Hv as (_ & _ & E3 & E4). split; [by eapply agrees_frame|]. rewrite E3, E4. done.
Qed.

Lemma keeps_apply_report extra progress : keeps extra (apply_report progress).
Proof.
  unfold apply_report. apply keeps_bind; [|intros _; apply keeps_bind; [|intros _]].
  - destruct (sp_watermark progress) as [w|]; [|apply keeps_ret].
    eapply (keeps_source extra (ReportPartitionWatermark (sp_stage_id progress) DEFAULT_PARTITION w)); [done|]. done.
  - destruct (sp_processing_time progress); [|apply keeps_ret]. by apply keeps_frame.
  - destruct (sp_done progress).
    + eapply (keeps_source extra (SourceFinished (sp_stage_id progress))); [done|]. done.
    + apply (keeps_op extra (MarkRerun (sp_stage_id progress))); [done|]. intros m m' _. apply rearmed_mark_rerun.
Qed.

Lemma keeps_apply_reports extra n : keeps extra (apply_reports n).
Proof.
  induction n as [|n IH]; [apply keeps_ret|]. intros d0 d Hd d' k E. simpl in E.
  destruct (d_source_reports d) as [|progress rest]; [injection E as <- <-; done|].
  assert (Hb : keeps extra (_ ← apply_report progress; applied ← apply_reports n; mret (S applied))).
  { apply keeps_bind; [apply keeps_apply_report|intros _]. apply keeps_bind; [exact IH|intros a; apply keeps_ret]. }
  eapply (Hb d0); [|exact E]. destruct Hd as (Ha & ? & ?). split; [|done]. by apply (agrees_frame d).
Qed.

Lemma keeps_source_progress extra : keeps extra apply_source_progress.
Proof.
  apply keeps_state.
  intros d. apply keeps_bind; [apply keeps_apply_reports|]. intros a. destruct (0 <? a)%nat; [|apply keeps_ret].
  apply keeps_bind; [apply keeps_refresh|]. intros _. apply keeps_ret.
Qed.

Lemma promote_groups_kept d0 extra groups d d' n :
  kept d0 extra d → groups_ok (L_of d) groups → promote_groups iteration_order to_vec groups d = (d', Ok n) → kept d0 extra d'.
Proof.
  revert d n. induction groups as [|group groups IH]; intros d n (Ha & Ht & Hi) Hg E; cbn [promote_groups] in E.
  { by injection E as <- _. }
  inversion Hg as [|? ? Hg1 Hg2]; subst. inv_st E. destruct (promote_group_agrees d extra group d1 a Ha Hg1 E0) as (Ha1 & EL & Ef & Ei).
  inv_st E. injection E as <- _. apply (IH d1 a0); [|by rewrite EL|done]. split; [done|]. by rewrite Ef, Ei.
Qed.

Lemma keeps_promote extra : keeps extra (promote_due_event_time_timers iteration_order to_vec from_slice).
Proof.
  intros d0 d (Ha & Ht & Hi) d' n E. unfold promote_due_event_time_timers in E. inv_st E.
  destruct (promote_read_agrees d extra d1 a Ha E0) as (Ha1 & Hg & Hsame). destruct Hsame as (Et & Ei & _).
  eapply promote_groups_kept; [|exact Hg|exact E]. split; [done|]. by rewrite Et, Ei.
Qed.

Lemma deliver_all_kept d0 extra groups d :
  kept d0 extra d → groups_ok (L_of d) groups → kept d0 extra (foldl (λ d group, deliver group d) d groups).
Proof.
  revert d. induction groups as [|group groups IH]; intros d Hd Hg; [done|]. inversion Hg as [|? ? Hg1 Hg2]; subst.
  cbn [foldl]. apply IH; [|done]. destruct Hd as (Ha & ? & ?). split; [by apply deliver_agrees|done].
Qed.

Lemma keeps_fire extra elapsed : keeps extra (fire_due_processing_time iteration_order to_vec from_slice elapsed).
Proof.
  intros d0 d Hd d' n E. unfold fire_due_processing_time in E. inv_st E. inv_st E0. inv_st E.
  destruct Hd as (Ha & Ht & Hi). apply (on_timers_agrees _ _ extra) in E0 as (Ha1 & -> & _); [|done].
  destruct a0 as [|e es]; [injection E as <- _; done|].
  inv_st E. injection E0 as <- <-. injection E as <- _.
  set (dt := with_timers (take_due_processing_time iteration_order to_vec from_slice a (d_timers d)).1 d) in *.
  set (s := d_scheduler dt) in *. pose proof (promote_due_timers_spec s (e :: es)) as Hp.
  destruct (promote_due_timers s (e :: es)) as [s' groups] eqn:Ep. simpl in Hp.
  assert (HS' : schedule (scheduler_new concurrency g) s').
  { replace s' with (promote_due_timers s (e :: es)).1 by (by rewrite Ep). constructor. apply Ha. }
  change (kept d0 extra (let '(s0, gr) := promote_due_timers s (e :: es) in
    foldl (λ d group, deliver group d) (with_scheduler s0 dt) gr)). rewrite Ep.
  apply deliver_all_kept.
  - split; [|done]. apply agrees_scheduler; [done|done|]. unfold L_of, wm. simpl.
    rewrite (ledgers_promoted _ _ _ _ _ Hp). apply (rearmed_imap _ (λ id, routed _ id (e :: es) = [])).
  - unfold L_of, wm. simpl. eapply promoted_groups_ok; [|exact Hp]. intros t st Ht'. by eapply owner_ledger; [apply Ha|].
Qed.

Lemma keeps_release extra : keeps extra release_empty.
Proof.
  intros d0 d (Ha & Ht & Hi) d' n E. unfold release_empty in E.
  pose proof (ledgers_release_empty _ (schedule_manager_ok _ _ _ (ag_schedule _ _ Ha))) as HL.
  destruct (release_empty_input_holds (watermarks (d_scheduler d))) as [m k] eqn:Em. injection E as <- _. split; [|done].
  apply (agrees_op d extra ReleaseEmptyInputs); [done|done| |by apply rearmed_eq]. simpl. unfold wm. by rewrite Em.
Qed.
End books.
