(* ===== verification/DispatcherSteps.v ===== *)
(** The books of the dispatcher hold at every step: rounds without a running bundle,
    bundles that start, split residuals, bundles that end, and the bundles themselves. *)
From stdpp Require Import gmultiset.
From S2P Require Import Prelude Bytes Varint Windows Kv UserState Timers.
From S2P Require Import Watermark WatermarkRefresh WatermarkBundles WatermarkInvariant Scheduler SchedulerSpec.
From S2P Require Import Sdf SdfBundle Dispatcher DispatcherLedger DispatcherSpec.
Set Warnings "-clear-no-such-hyp".
Local Open Scope string_scope.
Local Open Scope list_scope.

Section steps.
Context {Store : Type} `{KvStore Store} `{Pr : Profile} (iteration_order : gset bytes → list bytes).
Context (to_vec : TimerEntry → outcome string bytes) (from_slice : bytes → outcome string TimerEntry).
Context (concurrency : nat) (g : ExecutableGraph) (Hids : NoDup (node_id <$> g_nodes g)).
Local Abbreviation D := (Dispatcher (Store:=Store)).
Local Abbreviation agrees := (agrees concurrency g).
Local Abbreviation books := (books g).
Local Abbreviation kept := (kept concurrency g).
Local Abbreviation keeps := (keeps concurrency g).

(** * A round without a running bundle *)

(** A round ends the run only when the graph is complete. *)
Definition next_ok (d0 : D) (next : Next) (d : D) : Prop :=
  kept d0 None d ∧ (next = Finished → scheduler_is_complete (d_scheduler d) = true).

Lemma complete_or_release_ok d0 msg : hoare (kept d0 None) (complete_or_release msg) (next_ok d0).
Proof.
  intros d Hd d' next E. unfold complete_or_release, with_state in E.
  destruct (scheduler_is_complete (d_scheduler d)) eqn:Ec.
  - injection E as <- <-. done.
  - inv_st E. assert (Hk := keeps_release concurrency g None d0 d Hd d1 a E0).
    destruct (0 <? a)%nat; [|done]. injection E as <- <-. done.
Qed.

Lemma again_ok d0 : hoare (kept d0 None) (mret Again) (next_ok d0).
Proof. intros d Hd d' next E. by injection E as <- <-. Qed.

Lemma idle_round_ok d0 r :
  hoare (kept d0 None) (idle_round iteration_order to_vec from_slice r) (next_ok d0).
Proof.
  unfold idle_round.
  eapply hoare_bind; [apply keeps_source_progress|]. intros n1. cbv beta.
  eapply hoare_bind; [apply keeps_promote|]. intros n2. cbv beta.
  eapply hoare_bind; [apply keeps_fire|]. intros n3. cbv beta.
  destruct (_ || _ || _); [apply again_ok|].
  eapply hoare_bind; [apply keeps_read|]. intros manual. cbv beta.
  destruct (manual : bool); [apply complete_or_release_ok|].
  eapply hoare_bind; [apply keeps_read|]. intros [deadline|]; cbv beta; [|apply complete_or_release_ok].
  eapply hoare_bind; [apply keeps_read|]. intros time. cbv beta.
  eapply hoare_bind; [destruct (_ <? _)%Z; [apply keeps_lift|apply keeps_ret]|]. intros u. cbv beta.
  eapply hoare_bind; [apply keeps_fire|]. intros n4. cbv beta.
  destruct (n4 =? 0)%nat.
  - intros d Hd d' next E. unfold with_state in E.
    destruct (scheduler_is_complete (d_scheduler d)) eqn:Ec; [|done]. injection E as <- <-. done.
  - apply again_ok.
Qed.

(** * Bundles start *)

Lemma alter_dom_some (L : gmap StageId Ledger) f st id : is_Some (alter f st L !! id) ↔ is_Some (L !! id).
Proof.
  destruct (decide (id = st)) as [->|Hne]; [rewrite lookup_alter_eq, fmap_is_Some|rewrite lookup_alter_ne by done]; done.
Qed.

Lemma lookup_alter_inv (L : gmap StageId Ledger) f st id l' :
  alter f st L !! id = Some l' → ∃ l, L !! id = Some l ∧ l' = if decide (id = st) then f l else l.
Proof.
  destruct (decide (id = st)) as [->|Hne]; [rewrite lookup_alter_eq|rewrite lookup_alter_ne by done; eauto].
  destruct (L !! st) as [l|]; [|done]. intros [= <-]. eauto.
Qed.

(** The item a bundle starts with is the head of the queue of its stage. *)
Lemma take_seed_spec (d : D) st :
  (q_initialized (queue_of d st) = false → q_items (queue_of d st) = []) →
  let '(d', seed) := take_seed st d in
  d' = with_queues (<[st := mkQueue (q_initialized (queue_of d st)) (q_registered (queue_of d st))
                              (tail (q_items (queue_of d st))) (q_progress_tick (queue_of d st))]> (d_sdf_queues d)) d
  ∧ seed = head (q_items (queue_of d st)).
Proof.
  intros Hu. unfold take_seed. destruct (queue_of d st) as [[] reg [|item rest] tick]; simpl in *; try done.
  by specialize (Hu eq_refl).
Qed.

(** The state after a bundle of [st] was started with [seed] from a queue left as [q]. *)
Lemma books_started (d : D) L extra st q t L' qs :
  books d L extra → t_stage t = st → task_ok g t → is_Some (L !! st) → L' = alter l_start st L →
  (∀ id, default default_queue (qs !! id) = if decide (id = st) then q else queue_of d id) →
  (∀ id, is_Some (qs !! id) → splittable_stage g id) →
  length (q_items q) = length (q_items (queue_of d st)) - 1 →
  (q_initialized q = false → q_items q = []) →
  hold_set (q_items q) ⊎ hold_set (option_list (t_seed t)) = hold_set (q_items (queue_of d st)) →
  books (with_tasks (d_in_flight d ++ [t]) (with_queues qs (with_pending (delete st (d_pending_timers d)) d))) L' extra.
Proof.
  intros [Bq Bt Bp Bh Bn Bc Bs Bu Bk Bi] Et Ht Hin -> Hq Hqs Hlen Hu Hh.
  assert (Htasks : ∀ id, tasks_of id (with_tasks (d_in_flight d ++ [t])
            (with_queues qs (with_pending (delete st (d_pending_timers d)) d)))
          = tasks_of id d ++ if decide (id = st) then [t] else []).
  { intros id. unfold tasks_of. simpl. rewrite filter_app. f_equal. rewrite filter_cons, filter_nil.
    destruct (decide (id = st)) as [->|Hne]; [by rewrite decide_True|by rewrite decide_False by congruence]. }
  split; try done.
  - intros id l' E. apply lookup_alter_inv in E as (l & El & ->). unfold queue_of. simpl. rewrite Hq.
    destruct (decide (id = st)) as [->|Hne]; [simpl; rewrite Hlen, (Bq st l El); done|by apply Bq].
  - intros id l' E. apply lookup_alter_inv in E as (l & El & ->). rewrite Htasks, length_app. pose proof (Bt id l El).
    destruct (decide (id = st)) as [->|Hne]; simpl; lia.
  - intros id es E. simpl in E. apply lookup_delete_Some in E as [Hne E]. destruct (Bp id es E) as (l & El & Hr).
    exists l. by rewrite lookup_alter_ne.
  - intros id. simpl. rewrite Bh. unfold outstanding. rewrite Htasks. unfold queue_of at 2. simpl. rewrite Hq, omap_app, !hold_set_app.
    destruct (decide (id = st)) as [->|Hne]; [rewrite <- Hh; simpl; destruct (t_seed t); simpl|]; multiset_solver.
  - intros id l' E. apply lookup_alter_inv in E as (l & El & ->). specialize (Bc id l El). by case_decide.
  - intros id. unfold queue_of. simpl. rewrite Hq. case_decide as Hd; [done|apply Bu].
  - simpl. apply Forall_app. split; [done|]. by constructor.
Qed.

Lemma start_node_books (d : D) L extra idx d' node :
  books d L extra → sched_graph (d_scheduler d) = g → g_nodes g !! idx = Some node → is_Some (L !! node_id node) →
  start_node idx d = (d', Ok ()) →
  books d' (alter l_start (node_id node) L) extra ∧ d_scheduler d' = d_scheduler d ∧ d_immediate_sdf d' = d_immediate_sdf d
  ∧ ∃ t, d_in_flight d' = d_in_flight d ++ [t].
Proof.
  intros HB Hg En HL E. unfold start_node in E. rewrite Hg, En in E. cbv zeta in E.
  destruct (validate_bundle_input_watermark _ _ _); [|done..].
  set (st := node_id node) in *. set (d0 := with_pending _ d) in E.
  assert (Hin : node ∈ g_nodes g) by (by eapply list_elem_of_lookup_2).
  destruct (is_splittable_node node) eqn:Hs.
  - assert (Hq0 : queue_of d0 st = queue_of d st) by done.
    pose proof (take_seed_spec d0 st) as Hseed. rewrite Hq0 in Hseed. specialize (Hseed (bk_uninit _ _ _ _ HB st)).
    destruct (take_seed st d0) as [d1 seed]. destruct Hseed as [-> ->]. injection E as <-. split; [|split_and!; [done..|by eexists]].
    apply (books_started d L extra st (mkQueue (q_initialized (queue_of d st)) (q_registered (queue_of d st))
             (tail (q_items (queue_of d st))) (q_progress_tick (queue_of d st)))); try done.
    + split; [by exists node|done|done].
    + intros id. case_decide as Hd; [subst id; by rewrite lookup_insert_eq|by rewrite lookup_insert_ne].
    + intros id. destruct (decide (id = st)) as [->|Hne]; [intros _; by exists node|].
      rewrite lookup_insert_ne by done. apply (bk_splittable _ _ _ _ HB).
    + simpl. destruct (q_items _); simpl; lia.
    + simpl. intros Hi. by rewrite (bk_uninit _ _ _ _ HB st Hi).
    + simpl. destruct (q_items (queue_of d st)) as [|item rest]; simpl; [done|].
      rewrite (hold_set_cons item rest). unfold hold_set. simpl. rewrite app_nil_r. multiset_solver.
  - injection E as <-. split; [|split_and!; [done..|by eexists]].
    assert (Hnone : d_sdf_queues d !! st = None).
    { destruct (d_sdf_queues d !! st) eqn:Eq; [|done]. exfalso.
      assert (Hsp : splittable_stage g st) by (apply (bk_splittable _ _ _ _ HB); eauto).
      pose proof (splittable_unique g Hids st node Hsp Hin eq_refl). congruence. }
    assert (Hq0 : queue_of d st = default_queue) by (unfold queue_of; by rewrite Hnone).
    apply (books_started d L extra st (queue_of d st) _ _ (d_sdf_queues d)); try done.
    + split; [by exists node|done|done].
    + intros id. case_decide as Hd; [by subst|done].
    + apply (bk_splittable _ _ _ _ HB).
    + by rewrite Hq0.
    + apply (bk_uninit _ _ _ _ HB).
    + rewrite Hq0. simpl. unfold hold_set. simpl. multiset_solver.
Qed.

Lemma start_nodes_books next (d : D) L extra d' :
  books d L extra → sched_graph (d_scheduler d) = g →
  (∀ p, p ∈ next → ∃ node, g_nodes g !! p.1 = Some node ∧ node_id node = p.2) →
  (∀ id, id ∈ node_id <$> g_nodes g → is_Some (L !! id)) →
  start_nodes next d = (d', Ok ()) →
  books d' (l_starts L next) extra ∧ d_scheduler d' = d_scheduler d ∧ d_immediate_sdf d' = d_immediate_sdf d
  ∧ ∃ new, d_in_flight d' = d_in_flight d ++ new ∧ length new = length next.
Proof.
  revert d L. induction next as [|[idx st] next IH]; intros d L HB Hg Hn HL E; cbn [start_nodes] in E.
  { injection E as <-. split_and!; try done. exists []. by rewrite app_nil_r. }
  inv_st E. destruct a. destruct (Hn (idx, st)) as (node & En & Est); [by left|]. simpl in En, Est. subst st.
  assert (Hid : is_Some (L !! node_id node)).
  { apply HL, list_elem_of_fmap. exists node. split; [done|]. by eapply list_elem_of_lookup_2. }
  destruct (start_node_books d L extra idx d0 node HB Hg En Hid E0) as (HB1 & Es1 & Ei1 & t & Et).
  destruct (IH d0 (alter l_start (node_id node) L) HB1) as (HB2 & Es2 & Ei2 & new & En2 & Hlen); [by rewrite Es1| | |done|].
  - intros p Hp. apply Hn. by right.
  - intros id Hid'. apply alter_dom_some. by apply HL.
  - split_and!; [done|by rewrite Es2|by rewrite Ei2|]. exists (t :: new). rewrite En2, Et, <- app_assoc. simpl. by rewrite Hlen.
Qed.

Lemma schedule_nodes_agrees (d : D) extra d' :
  agrees d extra → schedule_nodes d = (d', Ok ()) →
  agrees d' extra ∧ d_immediate_sdf d' = d_immediate_sdf d
  ∧ ∃ new, d_in_flight d' = d_in_flight d ++ new ∧ length new = length (next_nodes (d_scheduler d)).2.
Proof.
  intros [HS HB] E. unfold schedule_nodes in E. destruct (next_nodes (d_scheduler d)) as [s next] eqn:En.
  assert (Es : s = (next_nodes (d_scheduler d)).1) by (by rewrite En).
  assert (Ex : next = (next_nodes (d_scheduler d)).2) by (by rewrite En).
  assert (HS' : schedule (scheduler_new concurrency g) s) by (subst s; by apply schedule_next).
  destruct (start_nodes_books next (with_scheduler s d) (L_of d) extra d') as (HB' & Es' & Ei' & Hnew).
  - apply (books_frame g d); [done|done|]. apply (bk_pending _ _ _ _ HB).
  - simpl. by eapply schedule_graph.
  - intros p Hp. subst next. apply (next_nodes_node concurrency g (d_scheduler d)); [exact HS|done].
  - intros id Hid. by apply (ledgers_dom concurrency g (d_scheduler d) id HS).
  - done.
  - split; [|split; [done|exact Hnew]]. split; [by rewrite Es'|]. unfold L_of, wm. rewrite Es'. simpl. rewrite Es, ledgers_next_nodes by (by eapply schedule_manager_ok).
    by rewrite <- Ex.
Qed.

(** * Split residuals *)

Lemma receive_agrees (d : D) extra st item d' :
  agrees d extra → splittable_stage g st → receive_item st item d = (d', Ok ()) → agrees d' extra ∧ same_tasks d d'.
Proof.
  intros Ha Hst E. unfold receive_item in E. inv_st E. injection E as <-. by eapply enqueue_agrees.
Qed.

Lemma drain_agrees n (d : D) extra d' :
  agrees d extra → length (d_immediate_sdf d) = n → drain_immediate n d = (d', Ok ()) →
  agrees d' extra ∧ d_in_flight d' = d_in_flight d ∧ d_immediate_sdf d' = [].
Proof.
  revert d. induction n as [|n IH]; intros d Ha Hn E; cbn [drain_immediate] in E.
  { injection E as <-. by apply nil_length_inv in Hn. }
  destruct (d_immediate_sdf d) as [|[st item] rest] eqn:Ei; [done|]. inv_st E. destruct a.
  assert (Hst : splittable_stage g st).
  { apply (bk_sent _ _ _ _ (ag_books _ _ _ _ Ha) (st, item)). rewrite Ei. by left. }
  assert (Ha0 : agrees (with_immediate rest d) extra).
  { destruct Ha as [HS HB]. split; [done|]. destruct HB as [Bq Bt Bp Bh Bn Bc Bs Bu Bk Bi]. split; try done.
    intros p Hp. apply Bi. rewrite Ei. by right. }
  destruct (receive_agrees _ extra st item d0 Ha0 Hst E0) as (Ha1 & Et & Eim & _).
  destruct (IH d0 Ha1) as (Ha2 & Et2 & Ei2); [by rewrite Eim; injection Hn|done|].
  split; [done|]. by rewrite Et2, Et.
Qed.

(** * Bundles end *)

Lemma hold_set_perm l k : l ≡ₚ k → hold_set l = hold_set k.
Proof.
  induction 1 as [|x l k _ IH|x y l|l k r _ IH1 _ IH2]; [done|by rewrite !hold_set_cons, IH| |by rewrite IH1].
  rewrite !hold_set_cons. multiset_solver.
Qed.

(** The books once a task is out of the set: its bundle is the extra one, and the holds of
    its work item are released. *)
Lemma books_joined (d : D) L k t qs hs :
  books d L None → d_in_flight d !! k = Some t →
  (∀ id, holds_at hs id = if decide (id = t_stage t) then holds_at (d_residual_holds d) id ∖ hold_set (option_list (t_seed t))
                          else holds_at (d_residual_holds d) id) →
  no_empty hs →
  (∀ id, q_items (default default_queue (qs !! id)) = q_items (queue_of d id)) →
  (∀ id, q_initialized (default default_queue (qs !! id)) = false → q_initialized (queue_of d id) = false) →
  (∀ id, is_Some (qs !! id) → splittable_stage g id) →
  books (with_queues qs (with_residual_holds hs (with_tasks (delete k (d_in_flight d)) d))) L (Some (t_stage t)).
Proof.
  intros [Bq Bt Bp Bh Bn Bc Bs Bu Bk Bi] Ek Hhs Hno Hit Hin Hqs.
  assert (Hperm : d_in_flight d ≡ₚ t :: delete k (d_in_flight d)) by (by apply delete_Permutation).
  assert (Htasks : ∀ id, tasks_of id d ≡ₚ (if decide (id = t_stage t) then [t] else [])
            ++ tasks_of id (with_queues qs (with_residual_holds hs (with_tasks (delete k (d_in_flight d)) d)))).
  { intros id. unfold tasks_of. rewrite Hperm at 1. simpl. rewrite filter_cons.
    destruct (decide (id = t_stage t)) as [->|Hne]; [by rewrite decide_True|by rewrite decide_False by congruence]. }
  set (d' := with_queues _ _) in *.
  assert (Hout : ∀ id, hold_set (outstanding d id)
            = hold_set (if decide (id = t_stage t) then option_list (t_seed t) else []) ⊎ hold_set (outstanding d' id)).
  { intros id. unfold outstanding. rewrite (hold_set_perm _ _ (Permutation_app_head _ (omap_Permutation _ _ _ (Htasks id)))).
    rewrite omap_app, !hold_set_app. unfold d', queue_of at 2. simpl. rewrite Hit.
    case_decide; simpl; [destruct (t_seed t); simpl|]; multiset_solver. }
  split; try done.
  - intros id l E. unfold d', queue_of. simpl. rewrite Hit. by apply Bq.
  - intros id l E. pose proof (Bt id l E) as Hb. rewrite (Htasks id), length_app in Hb.
    destruct (decide (id = t_stage t)) as [->|Hne]; [rewrite decide_True by done|rewrite decide_False by congruence]; simpl in Hb; lia.
  - intros id. simpl. rewrite Hhs, Bh, Hout. case_decide; [multiset_solver|]. unfold hold_set at 1. simpl. multiset_solver.
  - intros id l E. simpl. rewrite Hhs. specialize (Bc id l E). case_decide; [|done]. multiset_solver.
  - intros id. unfold d', queue_of. simpl. rewrite Hit. intros Hf. by apply Bu, Hin.
  - simpl. by apply Forall_delete.
Qed.

(** A bundle reports the holds of the work item it was seeded with, and that its stage is
    initialized. *)
Lemma execute_bundle_outcome set_order coder config start dopen stage inits kind has_outputs work was_init was_reg tick init process roots o :
  (execute_bundle set_order coder config start dopen stage inits kind has_outputs work was_init was_reg tick init process).2 = Ok (roots, o) →
  initialized o = true ∧ registered o = true
  ∧ consumed_holds o = match work with Some item => holds item | None => [] end
  ∧ items o = residual_items set_order stage roots.
Proof.
  unfold execute_bundle. cbv zeta. destruct (if was_init then _ else _) as [input| |]; [|done..].
  destruct (run_process_stage _ _ _ _ _ _ _ _ _ _ _ _) as [s [[rs next]| |]]; simpl; [|done..].
  by intros [= <- <-].
Qed.

Lemma ends_sdf_outcome t o :
  ends_with t (SdfEnd (Ok o)) →
  t_splittable t = true ∧ initialized o = true
  ∧ consumed_holds o = match t_seed t with Some item => holds item | None => [] end.
Proof.
  intros He. inversion He as [|set_order coder config start stage inits kind has_outputs init process Hs E|]; subst.
  destruct (execute_bundle _ _ _ _ _ _ _ _ _ _ _ _ _ _ _).2 as [[roots o']| |] eqn:Eb; simpl in E; [|done..].
  injection E as <-. apply execute_bundle_outcome in Eb as (Hi & _ & Hc & _). done.
Qed.

Lemma take_output_min_frame idx st (d d' : D) m :
  take_output_min idx st d = (d', Ok m) →
  same_queue_view d d' ∧ d_scheduler d' = d_scheduler d ∧ d_pending_timers d' = d_pending_timers d.
Proof.
  unfold take_output_min. cbv zeta. destruct (_ <=? 1)%nat; [|by intros [= <- _]].
  destruct (take_minima _ _) as [mins taken]. by intros [= <- _].
Qed.

(** What joining an ended task does: its holds are released, its residuals are queued, and
    no split residual is left behind when it was splittable. *)
Lemma join_agrees (d : D) k t e d' idx m cnt :
  agrees d None → d_in_flight d !! k = Some t → t_end t = Some e →
  join_task t (with_tasks (delete k (d_in_flight d)) d) = (d', Ok (idx, m, cnt)) →
  agrees d' (Some (t_stage t)) ∧ idx = t_index t ∧ d_in_flight d' = delete k (d_in_flight d)
  ∧ d_immediate_sdf d' = (if t_splittable t then [] else d_immediate_sdf d).
Proof.
  intros Ha Ek Ee E. pose proof Ha as [HS HB].
  assert (Hok : task_ok g t) by (eapply Forall_lookup_1; [apply (bk_task _ _ _ _ HB)|done]).
  pose proof (tk_end _ _ Hok e Ee) as He. unfold join_task in E. rewrite Ee in E.
  destruct e as [result input_count|result|]; [| |done].
  - assert (Hs : t_splittable t = false) by (by inversion He). rewrite Hs.
    inv_st E. apply st_lift_ok in E0 as [-> _]. inv_st E. injection E as <- -> _ _.
    apply take_output_min_frame in E0 as (Hv & Es & Ep). pose proof Hv as (_ & _ & Ei & Ef).
    split; [|by rewrite Ei, Ef].
    eapply agrees_frame; [|exact Hv|exact Es|exact Ep].
    split; [done|]. pose proof (books_joined d (L_of d) k t (d_sdf_queues d) (d_residual_holds d) HB Ek) as HJ. apply HJ.
    + intros id. rewrite (tk_plain _ _ Hok Hs). case_decide; [|done]. unfold hold_set. simpl. multiset_solver.
    + apply (bk_some _ _ _ _ HB).
    + done.
    + done.
    + apply (bk_splittable _ _ _ _ HB).
  - inv_st E. apply st_lift_ok in E0 as [-> ->]. inv_st E. destruct a0. inv_st E. injection E as <- -> _ _.
    destruct (ends_sdf_outcome t a He) as (Hs & Hi & Hc). rewrite Hs.
    apply take_output_min_frame in E1 as (Hv & Es & Ep). pose proof Hv as (_ & _ & Ei & Ef).
    unfold finish_sdf in E0. inv_st E0. injection E as <- <-. inv_st E0. injection E as <- <-. inv_st E0.
    assert (Hst : splittable_stage g (t_stage t)).
    { destruct (tk_node _ _ Hok) as (node & En & Eid & Esp). exists node. split_and!; [by eapply list_elem_of_lookup_2|done|congruence]. }
    match type of E with enqueue_sdf_items _ _ ?dj = _ => set (dj' := dj) in * end.
    assert (Haj : agrees dj' (Some (t_stage t))).
    { split; [done|].
      apply (books_joined d (L_of d) k t (<[t_stage t := mkQueue (initialized a) (registered a) (q_items (queue_of d (t_stage t)))
               (Some (progress_tick a))]> (d_sdf_queues d)) (remove_holds (d_residual_holds d) (t_stage t) (consumed_holds a)) HB Ek).
      - intros id. rewrite holds_at_remove, Hc. case_decide; [|done]. f_equal. unfold hold_set.
        destruct (t_seed t); simpl; [by rewrite app_nil_r|done].
      - by apply no_empty_remove, (bk_some _ _ _ _ HB).
      - intros id. destruct (decide (id = t_stage t)) as [->|Hne]; [by rewrite lookup_insert_eq|by rewrite lookup_insert_ne].
      - intros id. destruct (decide (id = t_stage t)) as [->|Hne]; [rewrite lookup_insert_eq; simpl; congruence|by rewrite lookup_insert_ne].
      - intros id. destruct (decide (id = t_stage t)) as [->|Hne]; [done|]. rewrite lookup_insert_ne by done.
        apply (bk_splittable _ _ _ _ HB). }
    destruct (enqueue_agrees concurrency g Hids dj' _ _ _ _ _ Haj Hst E) as (Ha2 & Et2 & _).
    unfold with_state in E0. destruct (drain_agrees _ _ _ _ Ha2 eq_refl E0) as (Ha3 & Et3 & Ei3).
    split_and!; [by eapply agrees_frame|done|by rewrite Ef, Et3, Et2|by rewrite Ei].
Qed.

Lemma complete_agrees (d : D) idx node m cnt d' :
  agrees d (Some (node_id node)) → g_nodes g !! idx = Some node → complete_task from_slice idx m cnt d = (d', Ok ()) →
  agrees d' None ∧ d_in_flight d' = d_in_flight d ∧ d_immediate_sdf d' = d_immediate_sdf d.
Proof.
  intros Ha En E. unfold complete_task in E. inv_st E. destruct a.
  destruct (sync_agrees from_slice concurrency g _ _ _ Ha E0) as ([HS HB] & (Et & Ei & _) & Eq & _).
  unfold with_state in E. inv_st E. apply st_lift_ok in E1 as [-> Em]. injection E as <-. split; [|done].
  assert (Hg : sched_graph (d_scheduler d0) = g) by (by eapply schedule_graph).
  assert (Hl : ∃ l, L_of d0 !! node_id node = Some l).
  { apply (ledgers_dom concurrency g (d_scheduler d0) (node_id node) HS). apply list_elem_of_fmap. exists node.
    split; [done|]. by eapply list_elem_of_lookup_2. }
  destruct Hl as [l El]. pose proof (bk_tasks _ _ _ _ HB _ _ El) as Hb. rewrite decide_True in Hb by done.
  pose proof (ledgers_mark_complete (d_scheduler d0) idx node m cnt a l (schedule_manager_ok _ _ _ HS)) as HL.
  rewrite Hg in HL. specialize (HL En El ltac:(lia) Em).
  split; [by eapply schedule_complete|]. unfold L_of, wm. simpl. rewrite HL.
  destruct HB as [Bq Bt Bp Bh Bn Bc Bs Bu Bk Bi]. split; try done.
  - intros id l' E. apply lookup_alter_inv in E as (l1 & El1 & ->). case_decide; by apply (Bq id l1).
  - intros id l' E. apply lookup_alter_inv in E as (l1 & El1 & ->). pose proof (Bt id l1 El1) as Hb1.
    change (tasks_of id (with_scheduler a d0)) with (tasks_of id d0).
    destruct (decide (id = node_id node)) as [->|Hne];
      [rewrite decide_True in Hb1 by done|rewrite decide_False in Hb1 by congruence]; simpl; lia.
  - intros id es E. destruct (Bp id es E) as (l1 & El1 & Hr). destruct (decide (id = node_id node)) as [->|Hne].
    + exists (l_finish l1). rewrite lookup_alter_eq. unfold L_of, wm in El1. by rewrite El1.
    + exists l1. by rewrite lookup_alter_ne.
  - intros id l' E. apply lookup_alter_inv in E as (l1 & El1 & ->). specialize (Bc id l1 El1). by case_decide.
Qed.
End steps.
