(* ===== verification/DispatcherOutcome.v ===== *)
(** What the operations of the dispatcher leave behind: what is true of the manager when the
    graph is complete, what joining a splittable bundle queues, and what promoting and
    firing timers does to the store and to the stages. *)
From stdpp Require Import gmultiset.
From S2P Require Import Prelude Bytes Varint Windows Watermark WatermarkRefresh WatermarkBundles WatermarkInvariant Sdf Kv.
From S2P Require Import UserState Timers Scheduler SchedulerSpec SdfBundle Dispatcher DispatcherLedger DispatcherSpec.
From S2P Require Import DispatcherSteps.
Set Warnings "-clear-no-such-hyp".
Local Open Scope string_scope.
Local Open Scope list_scope.

Section outcome.
Context {Store : Type} `{KvStore Store} `{Pr : Profile} (iteration_order : gset bytes → list bytes).
Context (to_vec : TimerEntry → outcome string bytes) (from_slice : bytes → outcome string TimerEntry).
Context (concurrency : nat) (g : ExecutableGraph) (Hids : NoDup (node_id <$> g_nodes g)).
Local Abbreviation D := (Dispatcher (Store:=Store)).

(** The stage of the bundle that is joined but not marked complete. *)
Definition joined_stage (phase : Phase) : option StageId :=
  match phase with Completing idx _ _ => node_id <$> g_nodes g !! idx | _ => None end.

Definition phase_ok (phase : Phase) (d : D) : Prop :=
  match phase with
  | Promoting groups => groups_ok (L_of d) groups
  | Completing idx _ _ => is_Some (g_nodes g !! idx)
  | Returned => scheduler_is_complete (d_scheduler d) = true ∧ d_in_flight d = []
  | _ => True
  end.

(** A split residual in the channel was sent by a splittable task that was not joined. *)
Definition sent_by_task (d : D) : Prop :=
  ∀ p, p ∈ d_immediate_sdf d → ∃ t, t ∈ d_in_flight d ∧ t_splittable t = true ∧ t_stage t = p.1.

Record invariant (phase : Phase) (d : D) : Prop := {
  inv_agrees : agrees concurrency g d (joined_stage phase);
  inv_phase : phase_ok phase d;
  inv_sent : sent_by_task d;
}.

Lemma sent_kept (d d' : D) :
  sent_by_task d → d_immediate_sdf d' = d_immediate_sdf d → (∀ t, t ∈ d_in_flight d → t ∈ d_in_flight d') → sent_by_task d'.
Proof. intros Hs Ei Ht p Hp. rewrite Ei in Hp. destruct (Hs p Hp) as (t & Hin & ?). exists t. split; [by apply Ht|done]. Qed.

Lemma join_sent (d d' : D) k t :
  sent_by_task d → d_in_flight d !! k = Some t → d_in_flight d' = delete k (d_in_flight d) →
  d_immediate_sdf d' = (if t_splittable t then [] else d_immediate_sdf d) → sent_by_task d'.
Proof.
  intros Hs Ek Et Ei p Hp. rewrite Ei in Hp. destruct (t_splittable t) eqn:Es; [by apply elem_of_nil in Hp|].
  destruct (Hs p Hp) as (t' & Hin & Hs' & ?). exists t'. split; [|done]. rewrite Et.
  rewrite (delete_Permutation _ _ _ Ek) in Hin. apply elem_of_cons in Hin as [->|?]; [congruence|done].
Qed.

(** The step in which the loop waits on nothing but itself. *)
Lemma poll_invariant c (d : D) d' phase' :
  invariant (Promoting []) d → next_phase iteration_order to_vec from_slice c (Promoting []) d = (d', Ok phase') →
  invariant phase' d'.
Proof.
  intros [Ha _ Hs] E. cbn [next_phase] in E. inv_st E. destruct a.
  destruct (schedule_nodes_agrees concurrency g Hids _ _ _ Ha E0) as (Ha1 & Ei & new & En & _).
  assert (Hs1 : sent_by_task d0) by (apply (sent_kept d); [done|done|]; intros t Ht; rewrite En; apply elem_of_app; by left).
  unfold with_state in E. destruct (d_in_flight d0) as [|t ts] eqn:Ef; [|injection E as <- <-; by split].
  inv_st E. destruct (idle_round_ok iteration_order to_vec from_slice concurrency g d0 (readings c) d0 ltac:(by split) _ _ E1)
    as ((Ha2 & Ef2 & Ei2) & Hfin).
  assert (Hs2 : sent_by_task d1) by (apply (sent_kept d0); [done|done|by rewrite Ef2]).
  destruct a; injection E as <- <-; split; try done. split; [by apply Hfin|by rewrite Ef2].
Qed.

Lemma select_invariant c (d : D) d' phase' :
  invariant AtSelect d → next_phase iteration_order to_vec from_slice c AtSelect d = (d', Ok phase') → invariant phase' d'.
Proof.
  intros HI E. pose proof HI as [Ha _ Hs]. cbn [next_phase] in E. destruct c as [r| |k].
  - injection E as <- <-. done.
  - unfold with_state in E. destruct (d_immediate_sdf d) as [|[st item] rest] eqn:Ei; [by injection E as <- <-|].
    inv_st E. injection E0 as <- <-. inv_st E. destruct a. injection E as <- <-.
    assert (Hst : splittable_stage g st).
    { apply (bk_sent _ _ _ _ (ag_books _ _ _ _ Ha) (st, item)). rewrite Ei. by left. }
    assert (Ha0 : agrees concurrency g (with_immediate rest d) None).
    { destruct Ha as [HS HB]. split; [done|]. destruct HB as [Bq Bt Bp Bh Bn Bc Bs Bu Bk Bi]. split; try done.
      intros p Hp. apply Bi. rewrite Ei. by right. }
    destruct (receive_agrees concurrency g Hids _ None st item _ Ha0 Hst E0) as (Ha1 & Et & Eim & _).
    split; [done|done|]. intros p Hp. rewrite Eim in Hp. destruct (Hs p) as (t & Hin & ?); [rewrite Ei; by right|].
    exists t. by rewrite Et.
  - unfold with_state in E. destruct (d_in_flight d !! k) as [t|] eqn:Ek; [|by injection E as <- <-].
    destruct (t_end t) as [e|] eqn:Ee; [|by injection E as <- <-].
    inv_st E. injection E0 as <- <-. inv_st E. destruct a as [[idx m] cnt]. injection E as <- <-.
    destruct (join_agrees concurrency g Hids d k t e _ _ _ _ Ha Ek Ee E0) as (Ha1 & -> & Et & Ei).
    assert (Hok : task_ok g t) by (eapply Forall_lookup_1; [apply (bk_task _ _ _ _ (ag_books _ _ _ _ Ha))|done]).
    destruct (tk_node _ _ Hok) as (node & En & Eid & _).
    split; [|by exists node|by eapply join_sent]. simpl. rewrite En. simpl. by rewrite Eid.
Qed.

Lemma next_phase_invariant c phase (d : D) d' phase' :
  invariant phase d → next_phase iteration_order to_vec from_slice c phase d = (d', Ok phase') → invariant phase' d'.
Proof.
  intros HI E. destruct phase as [| |[|group groups]| |idx m cnt|].
  - destruct HI as [Ha _ Hs]. cbn [next_phase] in E. inv_st E. destruct a.
    destruct (sync_agrees from_slice concurrency g _ _ _ Ha E0) as (Ha1 & (Et & Ei & _) & _).
    inv_st E. injection E1 as <- <-. injection E as <- <-. split; [by apply set_residual_agrees|done|].
    apply (sent_kept d); [done|done|]. intros t. by rewrite <- Et.
  - destruct HI as [Ha _ Hs]. cbn [next_phase] in E. inv_st E. injection E as <- <-.
    destruct (promote_read_agrees from_slice concurrency g _ _ _ _ Ha E0) as (Ha1 & Hg & Et & Ei & _).
    split; [done|done|]. apply (sent_kept d); [done|done|by rewrite Et].
  - by eapply poll_invariant.
  - destruct HI as [Ha Hg Hs]. cbn [next_phase] in E. inv_st E. injection E as <- <-. simpl in Hg.
    inversion Hg as [|? ? Hg1 Hg2]; subst.
    destruct (promote_group_agrees iteration_order to_vec concurrency g _ _ _ _ _ Ha Hg1 E0) as (Ha1 & EL & Et & Ei).
    split; [done|simpl; by rewrite EL|]. apply (sent_kept d); [done|done|by rewrite Et].
  - by eapply select_invariant.
  - destruct HI as [Ha [node En] Hs]. cbn [next_phase joined_stage] in E, Ha. rewrite En in Ha. inv_st E. destruct a. injection E as <- <-.
    destruct (complete_agrees from_slice concurrency g d idx node m cnt _ Ha En E0) as (Ha1 & Et & Ei).
    split; [done|done|]. apply (sent_kept d); [done|done|by rewrite Et].
  - by injection E as <- <-.
Qed.

(** ** The bundles *)

Lemma tasks_of_ended (d : D) k t e id :
  d_in_flight d !! k = Some t →
  omap t_seed (tasks_of id (with_tasks (<[k := ended t e]> (d_in_flight d)) d)) = omap t_seed (tasks_of id d)
  ∧ length (tasks_of id (with_tasks (<[k := ended t e]> (d_in_flight d)) d)) = length (tasks_of id d).
Proof.
  intros Ek. unfold tasks_of. simpl. pose proof (lookup_lt_Some _ _ _ Ek) as Hk.
  rewrite insert_take_drop by done. rewrite <- (take_drop_middle _ _ _ Ek) at 3 6.
  rewrite !filter_app, !filter_cons. simpl. destruct (decide (t_stage t = id)).
  - rewrite !omap_app, !length_app. simpl. done.
  - done.
Qed.

Lemma ends_with_ended t e : ends_with t e → ends_with (ended t e) e.
Proof.
  intros He. inversion He; subst; [by apply ends_plain|by eapply (ends_sdf (ended t _))|apply ends_panicked].
Qed.

Lemma env_step_invariant phase (d d' : D) :
  invariant phase d → env_step iteration_order to_vec d d' → phase ≠ Returned → invariant phase d'.
Proof.
  intros [Ha Hp Hs] E Hne. destruct E as [d t s' Ht Hw|d t p ts Ht|d t progress Ht|d t item [Hin He] Hsp|d k t e Ek Ee He].
  - split; [by apply (agrees_frame concurrency g d)|by destruct phase|done].
  - split; [by apply (agrees_frame concurrency g d)|by destruct phase|done].
  - split; [by apply (agrees_frame concurrency g d)|by destruct phase|done].
  - destruct Ha as [HS HB]. pose proof HB as [Bq Bt Bp Bh Bn Bc Bs Bu Bk Bi].
    split; [|by destruct phase|].
    + split; [done|]. split; try done. intros p Hin'. simpl in Hin'. apply elem_of_app in Hin' as [?|Hin']; [by apply Bi|].
      apply list_elem_of_singleton in Hin' as ->. rewrite Forall_forall in Bk. destruct (tk_node _ _ (Bk t Hin)) as (node & En & Eid & Es).
      exists node. split_and!; [by eapply list_elem_of_lookup_2|done|congruence].
    + intros p Hin'. simpl in Hin'. apply elem_of_app in Hin' as [?|Hin']; [by apply Hs|].
      apply list_elem_of_singleton in Hin' as ->. by exists t.
  - destruct Ha as [HS HB]. pose proof HB as [Bq Bt Bp Bh Bn Bc Bs Bu Bk Bi].
    assert (Hok : task_ok g t) by (by eapply Forall_lookup_1).
    split; [|by destruct phase|].
    + split; [done|]. split; try done.
      * intros id l El. destruct (tasks_of_ended d k t e id Ek) as [_ ->]. by apply Bt.
      * intros id. unfold outstanding. destruct (tasks_of_ended d k t e id Ek) as [-> _]. apply Bh.
      * simpl. apply Forall_insert; [done|]. destruct Hok as [Hn Hpl _]. split; [done|done|]. intros e' [= <-]. by apply ends_with_ended.
    + intros p Hin'. destruct (Hs p Hin') as (t' & Ht' & Hsp & Est). apply list_elem_of_lookup in Ht' as [j Ej].
      destruct (decide (j = k)) as [->|Hjk].
      * assert (t' = t) as -> by congruence. exists (ended t e). split; [|done]. apply list_elem_of_lookup. exists k.
        simpl. apply list_lookup_insert_eq. by eapply lookup_lt_Some.
      * exists t'. split; [|done]. apply list_elem_of_lookup. exists j. simpl. by rewrite list_lookup_insert_ne.
Qed.

Lemma initial_invariant timers clock mins : invariant AtTop (initial_state concurrency g timers clock mins).
Proof.
  assert (HS : schedule (scheduler_new concurrency g) (scheduler_new concurrency g)) by constructor.
  split; [|done|intros p Hp; by apply elem_of_nil in Hp]. split; [done|].
  assert (HL : ∀ id l, L_of (initial_state concurrency g timers clock mins) !! id = Some l → l = fresh_ledger).
  { intros id l El. by apply (fresh_scheduler concurrency g id). }
  split.
  - intros id l El. by rewrite (HL id l El).
  - intros id l El. by rewrite (HL id l El).
  - intros id es E. simpl in E. by rewrite lookup_empty in E.
  - intros id. unfold holds_at, outstanding, hold_set. simpl. by rewrite lookup_empty.
  - intros id. simpl. by rewrite lookup_empty.
  - intros id l El. unfold holds_at. simpl. rewrite lookup_empty. simpl. multiset_solver.
  - intros id [q E]. simpl in E. by rewrite lookup_empty in E.
  - done.
  - constructor.
  - intros p Hp. by apply elem_of_nil in Hp.
Qed.

(** A step beside the loop is one of a task. *)
Lemma env_step_running (d d' : D) : env_step iteration_order to_vec d d' → d_in_flight d ≠ [].
Proof.
  intros E Hf. destruct E as [? ? ? [Hin _]|? ? ? ? [Hin _]|? ? ? [Hin _]|? ? ? [Hin _]|? ? ? ? Ek].
  1-4: rewrite Hf in Hin; by apply elem_of_nil in Hin.
  by rewrite Hf in Ek.
Qed.

Theorem reaches_invariant timers clock mins phase (d : D) :
  reaches iteration_order to_vec from_slice (Running AtTop (initial_state concurrency g timers clock mins)) (Running phase d) →
  invariant phase d.
Proof.
  intros R. remember (Running AtTop _) as c0 eqn:E0. remember (Running phase d) as c eqn:Ec. revert phase d Ec.
  induction R as [|c1 c2 R IH Hstep]; intros phase d Ec; subst.
  - simplify_eq. apply initial_invariant.
  - inversion Hstep as [c ph d1 ph' d' E| | |ph d1 d' E]; subst.
    + eapply next_phase_invariant; [by apply IH|exact E].
    + specialize (IH _ _ eq_refl). eapply env_step_invariant; [done|done|].
      intros ->. destruct (inv_phase _ _ IH) as [_ Hf]. by apply env_step_running in E.
Qed.

(** ** A complete graph *)

(** When the graph is complete and no task is left, nothing waits, no hold is left and no
    timer is pending. *)
Lemma complete_books (d : D) :
  agrees concurrency g d None → scheduler_is_complete (d_scheduler d) = true → d_in_flight d = [] →
  (∀ id, outstanding d id = []) ∧ d_residual_holds d = ∅ ∧ d_pending_timers d = ∅.
Proof.
  intros [HS HB] Hc Hf. unfold scheduler_is_complete in Hc. rewrite is_complete_spec in Hc.
  assert (Hl : ∀ id l, L_of d !! id = Some l → l_queued l = 0 ∧ l_rerun l = false).
  { intros id l El. unfold L_of, ledgers in El. rewrite lookup_fmap in El.
    destruct (stages (wm d) !! id) as [s|] eqn:Es; [|done]. injection El as <-. by destruct (Hc id s Es) as (_ & _ & _ & ? & ? & _). }
  assert (Ho : ∀ id, outstanding d id = []).
  { intros id. unfold outstanding, tasks_of. rewrite Hf. simpl. rewrite app_nil_r.
    destruct (d_sdf_queues d !! id) as [q|] eqn:Eq; [|unfold queue_of; by rewrite Eq].
    destruct (bk_splittable _ _ _ _ HB id ltac:(by exists q)) as (node & Hin & Hid & _).
    assert (Hk : is_Some (L_of d !! id)).
    { apply (ledgers_dom concurrency g (d_scheduler d) id HS). apply list_elem_of_fmap. by exists node. }
    destruct Hk as [l El]. apply nil_length_inv. rewrite (bk_queue _ _ _ _ HB id l El). by apply Hl in El as [? _]. }
  split; [done|]. split.
  - apply no_empty_all; [apply (bk_some _ _ _ _ HB)|]. intros id. by rewrite (bk_holds _ _ _ _ HB), Ho.
  - apply map_empty. intros id. apply eq_None_not_Some. intros [es Ees].
    destruct (bk_pending _ _ _ _ HB id es Ees) as (l & El & Hr). apply Hl in El as [_ ?]. congruence.
Qed.
End outcome.

Local Open Scope string_scope.
Local Open Scope list_scope.

Section residuals.
Context {Store : Type} `{KvStore Store} `{Pr : Profile} (iteration_order : gset bytes → list bytes).
Context (to_vec : TimerEntry → outcome string bytes) (from_slice : bytes → outcome string TimerEntry).
Context (concurrency : nat) (g : ExecutableGraph) (Hids : NoDup (node_id <$> g_nodes g)).
Local Abbreviation D := (Dispatcher (Store:=Store)).

(** The work items a stage has waiting, and those in the channel for it. *)
Definition waiting (d : D) (id : StageId) : list SdfWorkItem := q_items (queue_of d id).
Definition sent_for (id : StageId) (l : list (StageId * SdfWorkItem)) : list SdfWorkItem :=
  (filter (λ p, p.1 = id) l).*2.

Definition known (d : D) (id : StageId) : Prop := is_Some (L_of d !! id).

Lemma sent_for_cons id st item l : sent_for id ((st, item) :: l) = (if decide (st = id) then [item] else []) ++ sent_for id l.
Proof. unfold sent_for. rewrite filter_cons. simpl. by destruct (decide (st = id)). Qed.

(** Enqueueing for a stage of the graph succeeds and appends. *)
Lemma enqueue_ok st new (d : D) :
  known d st → ∃ d', enqueue_sdf_items st new d = (d', Ok (length new))
  ∧ (∀ id, waiting d' id = waiting d id ++ (if decide (id = st) then new else []))
  ∧ same_tasks d d' ∧ (∀ id, known d' id ↔ known d id).
Proof.
  intros Hst. unfold enqueue_sdf_items, mbind, st_bind, modify. simpl.
  set (d1 := with_queues (<[st := queue_of d st]> (d_sdf_queues d)) d).
  assert (E1 : foldl (λ d item, push_work_item st item d) d1 new = with_items st new (q_initialized (queue_of d st)) (q_registered (queue_of d st)) d).
  { rewrite push_items_spec; [|unfold d1; simpl; rewrite lookup_insert_eq; eauto].
    unfold with_items, d1, with_queues, queue_of. simpl. by rewrite !lookup_insert_eq, insert_insert_eq. }
  rewrite E1.
  assert (Hw : ∀ i r id s, waiting (with_scheduler s (with_items st new i r d)) id = waiting d id ++ (if decide (id = st) then new else [])).
  { intros i r id s. unfold waiting, queue_of, with_items. simpl.
    case_decide as Hd; [subst; by rewrite lookup_insert_eq|by rewrite lookup_insert_ne, app_nil_r]. }
  destruct new as [|item new].
  - eexists. split; [done|]. split; [intros id; by apply (Hw _ _ id (d_scheduler d))|]. done.
  - set (new' := item :: new) in *. set (d2 := mark_queue st _).
    assert (E2 : d2 = with_items st new' true true d).
    { unfold d2, mark_queue, with_items, with_queues, queue_of. simpl. by rewrite lookup_insert_eq, insert_insert_eq. }
    rewrite E2. clear d1 E1 d2 E2. unfold with_state, on_watermarks, modify, try_watermarks. simpl.
    set (m1 := set_all_residual_holds _ _).
    assert (Hk1 : ∀ id, is_Some (ledgers m1 !! id) ↔ known d id).
    { intros id. unfold m1, known, L_of, wm. rewrite ledgers_residual_holds, map_lookup_imap.
      destruct (ledgers (watermarks (d_scheduler d)) !! id); simpl; [|done]. by split; eauto. }
    destruct (enqueue_bundles m1 st (S (length new))) as [m2| |] eqn:Em.
    + exists (with_scheduler (with_watermarks (d_scheduler d) m2) (with_items st new' true true d)).
      split; [done|]. split; [intros id; apply Hw|]. split; [done|]. intros id.
      change (is_Some (ledgers m2 !! id) ↔ known d id). rewrite (ledgers_enqueue _ _ _ _ Em), <- Hk1. apply alter_dom_some.
    + exfalso. apply Hk1 in Hst as [l El]. unfold ledgers in El. rewrite lookup_fmap in El.
      unfold enqueue_bundles, update_stage in Em. by destruct (stages m1 !! st).
    + exfalso. unfold enqueue_bundles, update_stage in Em. by destruct (stages m1 !! st).
Qed.

Lemma drain_ok n (d : D) :
  length (d_immediate_sdf d) = n → (∀ p, p ∈ d_immediate_sdf d → known d p.1) →
  ∃ d', drain_immediate n d = (d', Ok ())
  ∧ (∀ id, waiting d' id = waiting d id ++ sent_for id (d_immediate_sdf d))
  ∧ d_immediate_sdf d' = [] ∧ d_in_flight d' = d_in_flight d.
Proof.
  revert d. induction n as [|n IH]; intros d Hn Hk; cbn [drain_immediate].
  { apply nil_length_inv in Hn. exists d. split_and!; try done. intros id. by rewrite Hn, app_nil_r. }
  destruct (d_immediate_sdf d) as [|[st item] rest] eqn:Ei; [done|]. injection Hn as Hn.
  destruct (enqueue_ok st [item] (with_immediate rest d)) as (d1 & E1 & Hw1 & (Et1 & Ei1 & _) & Hk1).
  { apply (Hk (st, item)). by left. }
  simpl in Ei1. destruct (IH d1) as (d2 & E2 & Hw2 & Ei2 & Et2).
  - by rewrite Ei1.
  - rewrite Ei1. intros p Hp. apply Hk1, (Hk p). by right.
  - exists d2. split; [|split; [|split; [done|by rewrite Et2, Et1]]].
    + unfold receive_item, mbind, st_bind. rewrite E1. exact E2.
    + intros id. rewrite Hw2, Hw1, Ei1, sent_for_cons, <- app_assoc. f_equal. f_equal.
      destruct (decide (id = st)), (decide (st = id)); congruence.
Qed.

(** A splittable bundle that ended with an outcome is joined: its residuals, then those
    that were sent while it ran, are queued behind what its stage had waiting. *)
Lemma join_sdf (d : D) k t o :
  invariant concurrency g AtSelect d → d_in_flight d !! k = Some t → t_end t = Some (SdfEnd (Ok o)) →
  ∃ d' m, next_phase iteration_order to_vec from_slice (Join k) AtSelect d = (d', Ok (Completing (t_index t) m None))
  ∧ (∀ id, waiting d' id = waiting d id ++ (if decide (id = t_stage t) then items o else []) ++ sent_for id (d_immediate_sdf d))
  ∧ d_immediate_sdf d' = [] ∧ d_in_flight d' = delete k (d_in_flight d).
Proof.
  intros [[HS HB] _ _] Ek Ee. simpl in HB.
  assert (Hkn : ∀ id, splittable_stage g id → known d id).
  { intros id (node & Hin & Hid & _). apply (ledgers_dom concurrency g (d_scheduler d) id HS). apply list_elem_of_fmap. by exists node. }
  assert (Hok : task_ok g t) by (eapply Forall_lookup_1; [apply (bk_task _ _ _ _ HB)|done]).
  destruct (tk_node _ _ Hok) as (node & En & Eid & _).
  cbn [next_phase]. unfold with_state. rewrite Ek, Ee. unfold mbind, st_bind, modify, join_task. rewrite Ee. simpl.
  unfold finish_sdf, mbind, st_bind, modify. simpl.
  set (dj := with_queues _ (with_residual_holds _ (with_tasks _ d))).
  assert (Hwj : ∀ id, waiting dj id = waiting d id).
  { intros id. unfold waiting, queue_of, dj. simpl.
    destruct (decide (id = t_stage t)) as [->|Hne]; [by rewrite lookup_insert_eq|by rewrite lookup_insert_ne]. }
  destruct (enqueue_ok (t_stage t) (items o) dj) as (d1 & E1 & Hw1 & (Et1 & Ei1 & _) & Hk1).
  { change (known d (t_stage t)). apply (ledgers_dom concurrency g (d_scheduler d) _ HS). apply list_elem_of_fmap. exists node.
    split; [done|]. by eapply list_elem_of_lookup_2. }
  unfold mbind, st_bind in E1. rewrite E1. clear E1. unfold with_state.
  destruct (drain_ok _ d1 eq_refl) as (d2 & E2 & Hw2 & Ei2 & Et2).
  { rewrite Ei1. intros p Hp. apply Hk1. change (known d p.1). by apply Hkn, (bk_sent _ _ _ _ HB). }
  rewrite E2. destruct (take_output_min (t_index t) (t_stage t) d2) as [d3 r] eqn:E3.
  assert (∃ m, r = Ok m) as [m ->].
  { unfold take_output_min in E3. destruct (_ <=? 1)%nat; [destruct (take_minima _ _)|]; injection E3 as <- <-; eauto. }
  destruct (take_output_min_frame _ _ _ _ _ E3) as ((Eq & _ & Ei3 & Et3) & _).
  exists d3, m. split; [done|]. split; [|by rewrite Ei3, Et3, Et2, Et1].
  intros id. assert (Hw3 : waiting d3 id = waiting d2 id) by (unfold waiting, queue_of; by rewrite Eq).
  rewrite Hw3, Hw2, Hw1, Hwj, Ei1, <- app_assoc. done.
Qed.
End residuals.

Local Open Scope string_scope.
Local Open Scope list_scope.

(** * Groups of timers *)

Definition group_for (st : StageId) (groups : list (StageId * list TimerEntry)) : list TimerEntry :=
  concat ((filter (λ p, p.1 = st) groups).*2).

Lemma NoDup_groups b : NoDup (groups b).*1.
Proof.
  unfold groups. rewrite <- list_fmap_compose. simpl. rewrite list_fmap_id. unfold sort_ids.
  rewrite merge_sort_Permutation. apply NoDup_elements.
Qed.

Lemma group_for_unique st l gs : NoDup gs.*1 → (st, l) ∈ gs → group_for st gs = l.
Proof.
  unfold group_for. induction gs as [|[st' l'] gs IH]; intros Hn Hin; [by apply elem_of_nil in Hin|].
  cbn [fmap list_fmap fst] in Hn. apply NoDup_cons in Hn as [Hst Hn]. rewrite filter_cons. simpl.
  apply elem_of_cons in Hin as [[= -> ->]|Hin].
  - rewrite decide_True by done. simpl. destruct (filter (λ p, p.1 = st') gs) as [|p r] eqn:Ef; [simpl; by rewrite app_nil_r|].
    assert (Hp : p ∈ filter (λ p, p.1 = st') gs) by (rewrite Ef; by left).
    apply list_elem_of_filter in Hp as [E Hp]. destruct Hst. rewrite <- E. by apply (list_elem_of_fmap_2 fst).
  - rewrite decide_False; [by apply IH|]. intros ->. apply Hst. by apply (list_elem_of_fmap_2 fst _ (st, l)).
Qed.

Lemma group_for_none st gs : (∀ l, (st, l) ∉ gs) → group_for st gs = [].
Proof.
  unfold group_for. intros H. induction gs as [|[st' l'] gs IH]; [done|]. rewrite filter_cons. simpl.
  rewrite decide_False; [|intros ->; apply (H l'); by left]. apply IH. intros l Hl. apply (H l). by right.
Qed.

(** What a promotion hands to a stage. *)
Lemma promoted_group_for route es s s' out st :
  promoted route es s s' out → NoDup out.*1 → group_for st out = routed route st es.
Proof.
  intros [Ho _] Hn. destruct (routed route st es) as [|e l] eqn:E.
  - apply group_for_none. intros l Hl. apply Ho in Hl as [? ->]. done.
  - apply group_for_unique; [done|]. apply Ho. by rewrite E.
Qed.

(** * The number of timers, reports and unresolved empty inputs *)

Definition empties (m : WatermarkManager) : gmap StageId (gset PCollectionId) := pending_empty <$> stages m.
Definition unresolved (m : WatermarkManager) : nat := size (filter (λ p, p.2 ≠ ∅) (empties m)).

Lemma empties_insert m id s s' :
  stages m !! id = Some s → pending_empty s' = pending_empty s → empties (with_stages m (<[id := s']>)) = empties m.
Proof.
  intros E Hs. unfold empties. simpl. rewrite fmap_insert, Hs. apply insert_id. by rewrite lookup_fmap, E.
Qed.

Lemma empties_update m id f m' :
  (∀ s, pending_empty (f s) = pending_empty s) → update_stage m id f = Ok m' → empties m' = empties m.
Proof.
  unfold update_stage. intros Hf H. destruct (stages m !! id) as [s|] eqn:E; [|done].
  injection H as <-. by apply (empties_insert m id s).
Qed.

Lemma empties_update_source m id f m' : update_source m id f = Ok m' → empties m' = empties m.
Proof.
  unfold update_source. intros H. destruct (stages m !! id) as [s|] eqn:E; [|done].
  destruct (source s); [|done]. injection H as <-. by apply (empties_insert m id s).
Qed.

Lemma empties_refresh m : manager_ok m → empties (refresh m).1 = empties m.
Proof.
  intros Hm. destruct (refresh_progress m (manager_ok_bounded m Hm)) as (adv & Hp & _ & _).
  pose proof (prog_le _ _ _ _ Hp) as (_ & _ & _ & H). apply map_eq. intros id. unfold empties. rewrite !lookup_fmap.
  specialize (H id). destruct (stages m !! id) as [s|], (stages (refresh m).1 !! id) as [s'|]; try done.
  destruct H as (R & _). simpl. f_equal. by apply (f_equal pending_empty) in R.
Qed.

Lemma empties_imap m f :
  (∀ i s, pending_empty (f i s) = pending_empty s) → empties (with_stages m (map_imap (λ i s, Some (f i s)))) = empties m.
Proof.
  intros Hf. apply map_eq. intros id. unfold empties. simpl. rewrite !lookup_fmap, map_lookup_imap.
  destruct (stages m !! id); [|done]. simpl. by rewrite Hf.
Qed.

Lemma empties_promoted route es s s' out :
  promoted route es s s' out → empties (watermarks s') = empties (watermarks s).
Proof.
  intros [_ H]. apply map_eq. intros id. unfold empties. rewrite !lookup_fmap, H.
  destruct (stages (watermarks s) !! id); [|done]. simpl. by case_decide.
Qed.

(** Releasing counts the stages with an unresolved empty input and leaves none. *)
Lemma release_unresolved m : manager_ok m →
  (release_empty_input_holds m).2 = unresolved m ∧ unresolved (release_empty_input_holds m).1 = 0.
Proof.
  intros Hm. unfold release_empty_input_holds.
  assert (Hc : unresolved (clear_empty_inputs m) = 0).
  { unfold unresolved. apply map_size_empty_iff, map_empty. intros id. apply eq_None_not_Some. intros [x Hx].
    apply map_lookup_filter_Some in Hx as [Hx Hne]. apply Hne. unfold empties in Hx. simpl in *. rewrite !lookup_fmap in Hx.
    destruct (stages m !! id) as [s|]; [|done]. simpl in Hx. injection Hx as <-. by case_decide. }
  assert (Hn : size (filter (λ '(_, s), pending_empty s ≠ ∅) (stages m)) = unresolved m).
  { unfold unresolved, empties. rewrite map_filter_fmap, map_size_fmap. done. }
  rewrite Hn. destruct (0 <? unresolved m)%nat; [|done].
  pose proof (empties_refresh _ (clear_empty_inputs_ok m Hm)) as He. destruct (refresh (clear_empty_inputs m)) as [m' adv].
  simpl in *. split; [done|]. unfold unresolved in *. by rewrite He.
Qed.

(** * Due timers leave the store once *)

Section timers.
Context {Store : Type} `{KvLaws Store} `{Pr : Profile} (iteration_order : gset bytes → list bytes)
  (Horder : ∀ X, iteration_order X ≡ₚ elements X).
Context (to_vec : TimerEntry → outcome string bytes) (from_slice : bytes → outcome string TimerEntry)
  (Hserde : ∀ e bs, to_vec e = Ok bs → from_slice bs = Ok e).
Local Abbreviation D := (Dispatcher (Store:=Store)).
Local Abbreviation stores := (stores to_vec).

Lemma on_timers_ok {A} (f : st Store A) (d d' : D) a :
  on_timers f d = (d', Ok a) → ∃ s', f (d_timers d) = (s', Ok a) ∧ d' = with_timers s' d.
Proof. unfold on_timers. destruct (f (d_timers d)) as [s r]. intros [= <- ->]. eauto. Qed.

(** What no operation on timers touches. *)
Definition timers_only (d d' : D) : Prop :=
  d_scheduler d' = d_scheduler d ∧ d_clock d' = d_clock d ∧ d_source_reports d' = d_source_reports d
  ∧ d_in_flight d' = d_in_flight d ∧ d_sdf_queues d' = d_sdf_queues d ∧ d_residual_holds d' = d_residual_holds d
  ∧ d_immediate_sdf d' = d_immediate_sdf d ∧ d_commit_min_ts d' = d_commit_min_ts d.

Lemma pending_deliver group (d : D) st :
  default [] (d_pending_timers (deliver group d) !! st)
  = default [] (d_pending_timers d !! st) ++ (if decide (group.1 = st) then group.2 else []).
Proof.
  simpl. destruct (decide (group.1 = st)) as [<-|Hne]; [by rewrite lookup_insert_eq|].
  by rewrite lookup_insert_ne, app_nil_r.
Qed.

Lemma group_for_cons st group gs :
  group_for st (group :: gs) = (if decide (group.1 = st) then group.2 else []) ++ group_for st gs.
Proof. unfold group_for. rewrite filter_cons. by destruct (decide (group.1 = st)). Qed.

Lemma deliver_all gs (d : D) :
  let d' := foldl (λ d group, deliver group d) d gs in
  (∀ st, default [] (d_pending_timers d' !! st) = default [] (d_pending_timers d !! st) ++ group_for st gs)
  ∧ d_timers d' = d_timers d ∧ timers_only d d'.
Proof.
  revert d. induction gs as [|group gs IH]; intros d; cbn [foldl].
  { split_and!; try done. intros st. by rewrite app_nil_r. }
  destruct (IH (deliver group d)) as (Hp & Ht & Hf). split_and!; [|by rewrite Ht|unfold timers_only in *; naive_solver].
  intros st. rewrite Hp, pending_deliver, group_for_cons, app_assoc. done.
Qed.

(** The event-time timers of [T], in no particular order. *)
Definition event_timers (T : gmap bytes TimerEntry) : list TimerEntry :=
  List.filter (λ e, bool_decide (te_domain e = EventTime)) (timers_of T).

Lemma elem_of_event_timers T e : e ∈ event_timers T ↔ te_domain e = EventTime ∧ ∃ k, T !! k = Some e.
Proof.
  unfold event_timers. rewrite list_elem_of_In, filter_In, <- list_elem_of_In, elem_of_timers_of, bool_decide_eq_true. tauto.
Qed.

Lemma promote_groups_effect route gs (d d' : D) n T :
  stores (d_timers d) T → NoDup gs.*1 →
  (∀ p e, p ∈ gs → e ∈ p.2 → route e = Some p.1 ∧ ∃ k, T !! k = Some e) →
  promote_groups iteration_order to_vec gs d = (d', Ok n) →
  stores (d_timers d') (filter (λ p, p.2 ∉ concat gs.*2) T) ∧ n = length (concat gs.*2)
  ∧ (∀ st, default [] (d_pending_timers d' !! st) = default [] (d_pending_timers d !! st) ++ group_for st gs)
  ∧ timers_only d d'.
Proof.
  revert d n T. induction gs as [|group gs IH]; intros d n T Hs Hn Hg E; cbn [promote_groups] in E.
  { injection E as <- <-. split_and!; try done; [|intros st; by rewrite app_nil_r].
    rewrite map_filter_id; [done|]. intros k e _ Hin. by apply elem_of_nil in Hin. }
  cbn [fmap list_fmap fst] in Hn. apply NoDup_cons in Hn as [Hst Hn].
  inv_st E. unfold promote_group in E0. inv_st E0. apply on_timers_ok in E1 as (s' & E1 & ->).
  destruct a0. inv_st E0. injection E2 as <- <-. injection E0 as <- <-. inv_st E. injection E as <- <-.
  set (dm := deliver group (with_timers s' d)) in *.
  assert (Hgr : ∀ e, e ∈ group.2 → route e = Some group.1 ∧ ∃ k, T !! k = Some e) by (intros e He; apply Hg; [by left|done]).
  apply (delete_all_refines iteration_order Horder to_vec group.2 (d_timers d) T s' Hs) in E1; [|intros e He; by apply Hgr].
  match type of E0 with _ = (_, Ok ?n) => destruct (IH dm n (filter (λ p, p.2 ∉ group.2) T)) as (Hs' & -> & Hp & Hf) end;
    [exact E1|done| |exact E0|].
  { intros p e Hp He. destruct (Hg p e) as [Hr [k Hk]]; [by right|done|]. split; [done|]. exists k.
    apply map_lookup_filter_Some. split; [done|]. simpl. intros Hin. destruct (Hgr e Hin) as [Hr' _].
    apply Hst. assert (group.1 = p.1) as -> by congruence. by apply (list_elem_of_fmap_2 fst). }
  split_and!.
  - assert (Eq : filter (λ p, p.2 ∉ concat (group :: gs).*2) T = filter (λ p, p.2 ∉ concat gs.*2) (filter (λ p, p.2 ∉ group.2) T)).
    { rewrite map_filter_filter. apply map_filter_ext. intros k e _. simpl. rewrite elem_of_app. tauto. }
    rewrite Eq. exact Hs'.
  - simpl. by rewrite length_app.
  - intros st. rewrite Hp. unfold dm. rewrite pending_deliver, group_for_cons, app_assoc. done.
  - unfold timers_only in *. naive_solver.
Qed.

Lemma timers_only_refl (d : D) : timers_only d d.
Proof. done. Qed.

Definition event_route (d : D) : TimerEntry → option StageId :=
  route_event_timer (d_scheduler d) (watermarks (d_scheduler d)).

(** Reading the due event-time timers groups them by their stage and re-arms it. *)
Lemma promote_read_effect (d d' : D) groups T :
  stores (d_timers d) T → promote_read from_slice d = (d', Ok groups) →
  ∃ es, es ≡ₚ event_timers T ∧ promoted (event_route d) es (d_scheduler d) (d_scheduler d') groups
    ∧ NoDup groups.*1 ∧ d' = with_scheduler (d_scheduler d') d.
Proof.
  intros Hs E. unfold promote_read in E. inv_st E. inv_st E0. exists a.
  split; [by apply (all_event_time_timers_refines to_vec from_slice Hserde _ _ _ Hs)|]. destruct a as [|e es].
  { injection E as <- <-. split_and!; [|constructor|by destruct d]. split.
    - intros st l. unfold routed. rewrite filter_nil. split; [intros Hin; by apply elem_of_nil in Hin|naive_solver].
    - intros id. unfold routed. rewrite filter_nil. by destruct (stages _ !! id). }
  unfold with_state in E. pose proof (promote_due_event_time_timers_spec (d_scheduler d) (e :: es)) as Hp.
  assert (Hn : NoDup (Scheduler.promote_due_event_time_timers (d_scheduler d) (e :: es)).2.*1).
  { unfold Scheduler.promote_due_event_time_timers. destruct (foldl _ _ _) as [m b]. apply NoDup_groups. }
  destruct (Scheduler.promote_due_event_time_timers (d_scheduler d) (e :: es)) as [s' out]. injection E as <- <-. done.
Qed.

Lemma promoted_entry route es s s' out p e :
  promoted route es s s' out → p ∈ out → e ∈ p.2 → route e = Some p.1 ∧ e ∈ es.
Proof.
  intros [Ho _] Hp He. destruct p as [st l]. apply Ho in Hp as [_ ->]. by apply list_elem_of_filter in He.
Qed.

Lemma promoted_entries route es s s' out e :
  promoted route es s s' out → e ∈ concat out.*2 ↔ e ∈ es ∧ is_Some (route e).
Proof.
  intros Hp. rewrite list_elem_of_In, in_concat. setoid_rewrite <- list_elem_of_In. setoid_rewrite list_elem_of_fmap. split.
  - intros (l & ([st l'] & -> & Hin) & He). destruct (promoted_entry _ _ _ _ _ _ _ Hp Hin He) as [-> ?]. by split.
  - intros [He [st Hr]]. exists (routed route st es). assert (He' : e ∈ routed route st es) by (by apply list_elem_of_filter).
    split; [|done]. exists (st, routed route st es). split; [done|]. apply Hp. split; [|done].
    intros Hn. rewrite Hn in He'. by apply elem_of_nil in He'.
Qed.

(** Promotion takes exactly the due event-time timers out of the store and hands each to
    the stage that owns it. *)
Lemma promote_effect (d d' : D) n T :
  stores (d_timers d) T → promote_due_event_time_timers iteration_order to_vec from_slice d = (d', Ok n) →
  ∃ es, es ≡ₚ event_timers T
  ∧ stores (d_timers d') (filter (λ p, ¬ (te_domain p.2 = EventTime ∧ is_Some (event_route d p.2))) T)
  ∧ (∀ st, default [] (d_pending_timers d' !! st) = default [] (d_pending_timers d !! st) ++ routed (event_route d) st es)
  ∧ (n = 0 ↔ ∀ e, e ∈ event_timers T → event_route d e = None)
  ∧ ∃ s groups, promoted (event_route d) es (d_scheduler d) s groups ∧ timers_only (with_scheduler s d) d'.
Proof.
  intros Hs E. unfold promote_due_event_time_timers in E. inv_st E.
  destruct (promote_read_effect d d0 a T Hs E0) as (es & Hes & Hp & Hn & Hd0).
  rewrite Hd0 in E. set (dm := with_scheduler (d_scheduler d0) d) in *.
  assert (Hin : ∀ e, e ∈ es ↔ te_domain e = EventTime ∧ ∃ k, T !! k = Some e).
  { intros e. rewrite Hes. apply elem_of_event_timers. }
  destruct (promote_groups_effect (event_route d) a dm d' n T) as (Hs' & -> & Hpend & Hf); [done|done| |done|].
  { intros p e Hp1 He. destruct (promoted_entry _ _ _ _ _ _ _ Hp Hp1 He) as [? ?%Hin]. naive_solver. }
  exists es. split_and!; [done| | | |by exists (d_scheduler d0), a].
  - assert (Eq : filter (λ p, ¬ (te_domain p.2 = EventTime ∧ is_Some (event_route d p.2))) T = filter (λ p, p.2 ∉ concat a.*2) T).
    { apply map_filter_ext. intros k e Hk. simpl. rewrite (promoted_entries _ _ _ _ _ e Hp), Hin. naive_solver. }
    rewrite Eq. exact Hs'.
  - intros st. rewrite Hpend. f_equal. by apply (promoted_group_for _ _ _ _ _ _ Hp).
  - rewrite length_zero_iff_nil. split.
    + intros Hc e He. destruct (event_route d e) as [st|] eqn:Er; [|done]. exfalso. rewrite <- Hes in He.
      assert (Hcc : e ∈ concat a.*2) by (apply (promoted_entries _ _ _ _ _ e Hp); by rewrite Er). rewrite Hc in Hcc. by apply elem_of_nil in Hcc.
    + intros Hnone. destruct (concat a.*2) as [|e l] eqn:Ec; [done|].
      assert (Hcc : e ∈ concat a.*2) by (rewrite Ec; by left). apply (promoted_entries _ _ _ _ _ e Hp) in Hcc as [He [st Hr]].
      rewrite Hnone in Hr; [done|]. by rewrite <- Hes.
Qed.

(** The processing-time timers that are due leave the store; those with an owner reach
    it, in the order of their times. *)
Lemma fire_effect elapsed (d d' : D) n T :
  stores (d_timers d) T → fire_due_processing_time iteration_order to_vec from_slice elapsed d = (d', Ok n) →
  ∃ time due s groups, now elapsed (d_clock d) = Ok time
  ∧ due ≡ₚ List.filter (is_due_at_clock time) (timers_of T)
  ∧ StronglySorted (λ a b, fire_timestamp a ≤ fire_timestamp b)%Z due ∧ n = length due
  ∧ stores (d_timers d') (not_due time T)
  ∧ (∀ st, default [] (d_pending_timers d' !! st)
       = default [] (d_pending_timers d !! st) ++ routed (route_timer (d_scheduler d)) st due)
  ∧ promoted (route_timer (d_scheduler d)) due (d_scheduler d) s groups ∧ timers_only (with_scheduler s d) d'.
Proof.
  intros Hs E. unfold fire_due_processing_time in E. inv_st E. inv_st E0. inv_st E.
  apply on_timers_ok in E0 as (s1 & E0 & ->).
  destruct (take_due_refines iteration_order Horder to_vec from_slice Hserde _ _ _ _ _ Hs E0) as (Hdue & Hsort & Hs1).
  exists a, a0. destruct a0 as [|e es].
  { injection E as <- <-. exists (d_scheduler d), []. split_and!; try done.
    - intros st. unfold routed. by rewrite filter_nil, app_nil_r.
    - split.
      + intros st l. unfold routed. rewrite filter_nil. split; [intros Hin; by apply elem_of_nil in Hin|naive_solver].
      + intros id. unfold routed. rewrite filter_nil. by destruct (stages _ !! id). }
  inv_st E. unfold modify in E2. cbn [d_scheduler with_timers] in E2. pose proof (promote_due_timers_spec (d_scheduler d) (e :: es)) as Hp.
  assert (Hn : NoDup (promote_due_timers (d_scheduler d) (e :: es)).2.*1).
  { unfold promote_due_timers. destruct (foldl _ _ _) as [m b]. apply NoDup_groups. }
  destruct (promote_due_timers (d_scheduler d) (e :: es)) as [s out]. injection E2 as <- <-. injection E as <- <-. simpl in Hp, Hn.
  exists s, out. destruct (deliver_all out (with_scheduler s (with_timers s1 d))) as (Hpend & Ht & Hf).
  split_and!; try done.
  - rewrite Ht. exact Hs1.
  - intros st. rewrite Hpend. f_equal. by apply (promoted_group_for _ _ _ _ _ _ Hp).
Qed.
End timers.
