(* ===== verification/DispatcherReturn.v ===== *)
(** The end of the loop: rounds without a running bundle use up reports, timers or
    unresolved inputs, and when the loop returns nothing is left. *)
From S2P Require Import Prelude Bytes Varint Windows Watermark WatermarkRefresh WatermarkBundles WatermarkInvariant Sdf Kv.
From S2P Require Import UserState Timers Scheduler SchedulerSpec SdfBundle Dispatcher DispatcherLedger DispatcherSpec.
From S2P Require Import DispatcherSteps DispatcherOutcome.
Set Warnings "-clear-no-such-hyp".
Local Open Scope string_scope.
Local Open Scope list_scope.

(** * The manager *)

Lemma empties_start m id m' : start_bundle m id = Ok m' → empties m' = empties m.
Proof.
  intros H. apply start_bundle_spec in H as (s & E & _ & _ & _ & _ & ->).
  apply (empties_insert m id s); [done|]. unfold WatermarkBundles.started. by repeat case_match.
Qed.

Lemma empties_start_loop n m id : empties (start_loop n m id).1 = empties m.
Proof.
  revert m. induction n as [|n IH]; intros m; [done|]. cbn [start_loop].
  destruct (start_bundle m id) as [m1| |] eqn:E; [|done..]. apply empties_start in E.
  destruct (queued_bundles m1 id =? 0)%nat; [done|]. specialize (IH m1). destruct (start_loop n m1 id) as [m2 k].
  simpl in *. by rewrite IH.
Qed.

Lemma empties_start_all sc l m next :
  let '(m', _) := foldl (start_stage sc) (m, next) l in empties m' = empties m.
Proof.
  revert m next. induction l as [|st l IH]; intros m next; [done|]. cbn [foldl].
  assert (H : let '(m', _) := start_stage sc (m, next) st in empties m' = empties m).
  { unfold start_stage. destruct (index_of sc !! st) as [i|]; [|done].
    pose proof (empties_start_loop (slots m st) m st) as H. destruct (start_loop _ m st) as [m' k]. exact H. }
  destruct (start_stage sc (m, next) st) as [m1 next1]. specialize (IH m1 next1).
  destruct (foldl _ (m1, next1) l) as [m2 next2]. by rewrite IH.
Qed.

Lemma empties_next_nodes s :
  manager_ok (watermarks s) → empties (watermarks (next_nodes s).1) = empties (watermarks s).
Proof.
  intros Hm. unfold next_nodes.
  pose proof (empties_start_all s (ready_stages (refresh (watermarks s)).1) (refresh (watermarks s)).1 []) as H.
  destruct (foldl _ _ _) as [m' next]. simpl. by rewrite H, empties_refresh.
Qed.

Lemma empties_mark_rerun m id m' : mark_rerun m id = Ok m' → empties m' = empties m.
Proof. by apply (empties_update m id (set_rerun_pending true)). Qed.

Lemma unresolved_eq m m' : empties m' = empties m → unresolved m' = unresolved m.
Proof. unfold unresolved. by intros ->. Qed.

(** Taking some entry out of a map makes it smaller. *)
Lemma filter_spends (P : bytes * TimerEntry → Prop) `{!∀ p, Decision (P p)} (T : gmap bytes TimerEntry) n :
  (n ≠ 0 → ∃ k e, T !! k = Some e ∧ ¬ P (k, e)) → (size (filter P T) + Nat.min 1 n ≤ size T)%nat.
Proof.
  intros Hn. destruct n as [|n].
  - pose proof (map_subseteq_size _ _ (map_filter_subseteq P T)). lia.
  - destruct Hn as (k & e & Hk & HP); [done|].
    assert (filter P T ⊂ T) as Hlt%map_subset_size; [|lia].
    split; [apply map_filter_subseteq|]. intros Hsub. pose proof (lookup_weaken _ _ _ _ Hk Hsub) as Hf.
    by apply map_lookup_filter_Some in Hf as [_ ?].
Qed.

(** * One round *)

Section idle.
Context {Store : Type} `{KvLaws Store} `{Pr : Profile} (iteration_order : gset bytes → list bytes)
  (Horder : ∀ X, iteration_order X ≡ₚ elements X).
Context (to_vec : TimerEntry → outcome string bytes) (from_slice : bytes → outcome string TimerEntry)
  (Hserde : ∀ e bs, to_vec e = Ok bs → from_slice bs = Ok e).
Context (concurrency : nat) (g : ExecutableGraph) (Hids : NoDup (node_id <$> g_nodes g)).
Local Abbreviation D := (Dispatcher (Store:=Store)).
Local Abbreviation stores := (stores to_vec).
Local Abbreviation agrees := (agrees concurrency g).

(** What rounds without a running bundle use up: reports of sources, timers, stages with
    an unresolved empty input. *)
Definition cost (d : D) (T : gmap bytes TimerEntry) : nat :=
  (length (d_source_reports d) + size T + unresolved (wm d))%nat.

Definition budget (N k : nat) (d : D) : Prop := agrees d None ∧ ∃ T, stores (d_timers d) T ∧ (cost d T + k ≤ N)%nat.

Definition spends (f : st D nat) : Prop := ∀ N k, hoare (budget N k) f (λ n, budget N (Nat.min 1 n + k)).

Lemma spends_intro f :
  keeps concurrency g None f →
  (∀ d d' n T, agrees d None → stores (d_timers d) T → f d = (d', Ok n) →
     ∃ T', stores (d_timers d') T' ∧ (cost d' T' + Nat.min 1 n ≤ cost d T)%nat) → spends f.
Proof.
  intros Hk Hf N k d (Ha & T & Hs & Hc) d' n E. destruct (Hf d d' n T Ha Hs E) as (T' & Hs' & Hc').
  destruct (Hk d d ltac:(by split) d' n E) as [Ha' _]. split; [done|]. exists T'. split; [done|]. lia.
Qed.

Lemma cost_manager (d : D) m T : empties m = empties (wm d) →
  cost (with_scheduler (with_watermarks (d_scheduler d) m) d) T = cost d T.
Proof. intros E. unfold cost, wm. simpl. by rewrite (unresolved_eq _ _ E). Qed.

Lemma try_watermarks_ok (f : WatermarkManager → result WatermarkManager) (d d' : D) u :
  try_watermarks f d = (d', Ok u) →
  ∃ m, f (wm d) = Ok m ∧ d' = with_scheduler (with_watermarks (d_scheduler d) m) d.
Proof.
  unfold try_watermarks, wm. destruct (f _) as [m| |]; [|done..]. intros [= <- <-]. eauto.
Qed.

Lemma apply_report_cost progress (d d' : D) u :
  apply_report progress d = (d', Ok u) → d_timers d' = d_timers d ∧ d_source_reports d' = d_source_reports d
    ∧ empties (wm d') = empties (wm d).
Proof.
  unfold apply_report. intros E. inv_st E. inv_st E.
  assert (H1 : d_timers d0 = d_timers d ∧ d_source_reports d0 = d_source_reports d ∧ empties (wm d0) = empties (wm d)).
  { destruct (sp_watermark progress) as [w|]; [|by injection E0 as <- _].
    apply try_watermarks_ok in E0 as (m & Em & ->). split_and!; [done..|]. by eapply empties_update_source. }
  assert (H2 : d_timers d1 = d_timers d0 ∧ d_source_reports d1 = d_source_reports d0 ∧ empties (wm d1) = empties (wm d0)).
  { destruct (sp_processing_time progress); by injection E1 as <- _. }
  destruct (sp_done progress); apply try_watermarks_ok in E as (m & Em & ->); simpl.
  - apply empties_update_source in Em. unfold wm in *. simpl. naive_solver congruence.
  - apply empties_mark_rerun in Em. unfold wm in *. simpl. naive_solver congruence.
Qed.

Lemma apply_reports_cost n (d d' : D) k :
  apply_reports n d = (d', Ok k) → d_timers d' = d_timers d
    ∧ (length (d_source_reports d') + k)%nat = length (d_source_reports d) ∧ empties (wm d') = empties (wm d).
Proof.
  revert d k. induction n as [|n IH]; intros d k E; [injection E as <- <-; split_and!; [done|lia|done]|].
  simpl in E. destruct (d_source_reports d) as [|progress rest] eqn:Er; [injection E as <- <-; by rewrite Er|].
  inv_st E. apply apply_report_cost in E0 as (Ht & Hr & He). inv_st E. injection E as <- <-.
  apply IH in E0 as (Ht' & Hr' & He'). simpl in *. rewrite Hr in Hr'. split_and!; [congruence|lia|]. by rewrite He', He.
Qed.

Lemma spends_source_progress : spends apply_source_progress.
Proof.
  apply spends_intro; [apply keeps_source_progress|]. intros d d' n T Ha Hs E. exists T.
  assert (Hm : manager_ok (wm d)) by (apply (schedule_manager_ok concurrency g), Ha).
  unfold apply_source_progress, with_state in E. inv_st E.
  assert (Ha0 : agrees d0 None) by (by apply (keeps_apply_reports concurrency g None _ d d ltac:(by split) d0 a E0)).
  apply apply_reports_cost in E0 as (Ht & Hr & He). destruct (0 <? a)%nat eqn:En.
  - inv_st E. injection E0 as <- _. injection E as <- <-. simpl. split; [by rewrite Ht|]. rewrite cost_manager.
    + unfold cost. rewrite (unresolved_eq _ _ He). destruct a; lia.
    + apply empties_refresh, (schedule_manager_ok concurrency g), Ha0.
  - injection E as <- <-. split; [by rewrite Ht|]. unfold cost. rewrite (unresolved_eq _ _ He). lia.
Qed.

Lemma cost_after (d d' : D) s T :
  timers_only (with_scheduler s d) d' → empties (watermarks s) = empties (wm d) → ∀ T' n, (size T' + n ≤ size T)%nat →
  (cost d' T' + n ≤ cost d T)%nat.
Proof.
  intros (Es & _ & Er & _) He T' n HT. unfold cost, wm in *. rewrite Es, Er. simpl. rewrite (unresolved_eq _ _ He). lia.
Qed.

Lemma spends_promote : spends (promote_due_event_time_timers iteration_order to_vec from_slice).
Proof.
  apply spends_intro; [apply keeps_promote|]. intros d d' n T Ha Hs E.
  destruct (promote_effect iteration_order Horder to_vec from_slice Hserde d d' n T Hs E) as (es & Hes & Hs' & _ & Hn & s & gs & Hp & Hf).
  eexists. split; [exact Hs'|]. eapply cost_after; [exact Hf|by eapply empties_promoted|]. apply filter_spends. intros Hn0.
  destruct (decide (Forall (λ e, event_route d e = None) (event_timers T))) as [HF|HF].
  { destruct Hn0. apply Hn. by apply Forall_forall. }
  apply not_Forall_Exists, Exists_exists in HF as (e & He & Hr); [|apply _].
  apply elem_of_event_timers in He as [Hd [k Hk]]. exists k, e. split; [done|]. simpl. intros Hc. apply Hc. split; [done|].
  destruct (event_route d e) eqn:Er; [by eexists|by destruct Hr].
Qed.

Lemma spends_fire elapsed : spends (fire_due_processing_time iteration_order to_vec from_slice elapsed).
Proof.
  apply spends_intro; [apply keeps_fire|]. intros d d' n T Ha Hs E.
  destruct (fire_effect iteration_order Horder to_vec from_slice Hserde elapsed d d' n T Hs E)
    as (time & due & s & gs & _ & Hdue & _ & -> & Hs' & _ & Hp & Hf).
  eexists. split; [exact Hs'|]. eapply cost_after; [exact Hf|by eapply empties_promoted|]. apply filter_spends. intros Hn0.
  destruct due as [|e due]; [done|]. assert (He : e ∈ e :: due) by (by left). rewrite Hdue in He.
  rewrite list_elem_of_In, filter_In, <- list_elem_of_In, elem_of_timers_of in He. destruct He as [[k Hk] Hd].
  exists k, e. split; [done|]. simpl. by rewrite Hd.
Qed.

Lemma spends_release : spends release_empty.
Proof.
  apply spends_intro; [apply keeps_release|]. intros d d' n T Ha Hs E. exists T. unfold release_empty in E.
  assert (Hm : manager_ok (wm d)) by (apply (schedule_manager_ok concurrency g), Ha).
  destruct (release_unresolved (wm d) Hm) as [H1 H2]. unfold wm in *.
  destruct (release_empty_input_holds _) as [m k]. injection E as <- <-. simpl in H1, H2. split; [done|].
  unfold cost, wm. simpl. destruct k; lia.
Qed.

Definition next_cost (next : Next) : nat := match next with Again => 1 | Finished => 0 end.

Lemma budget_weaken N k k' (d : D) : budget N k d → (k' ≤ k)%nat → budget N k' d.
Proof. intros (Ha & T & Hs & Hc) Hk. split; [done|]. exists T. split; [done|]. lia. Qed.

Lemma budget_read {A} N k (f : D → outcome string A) : hoare (budget N k) (st_read f) (λ _, budget N k).
Proof. intros d Hd d' a E. by apply st_read_ok in E as [-> _]. Qed.

Lemma budget_lift {A} N k (r : outcome string A) : hoare (budget N k) (st_lift r) (λ _, budget N k).
Proof. intros d Hd d' a E. by apply st_lift_ok in E as [-> _]. Qed.

Lemma complete_or_release_spends N k msg :
  hoare (budget N k) (complete_or_release msg) (λ next, budget N (next_cost next)).
Proof.
  intros d Hd d' next E. unfold complete_or_release, with_state in E. destruct (scheduler_is_complete _).
  - injection E as <- <-. eapply budget_weaken; [exact Hd|simpl; lia].
  - inv_st E. apply (spends_release N k d Hd) in E0. destruct (0 <? a)%nat eqn:Ea; [|done]. injection E as <- <-.
    eapply budget_weaken; [exact E0|]. apply Nat.ltb_lt in Ea. unfold next_cost. lia.
Qed.

(** A round that makes the loop go round again has used something up. *)
Lemma idle_round_spends N r :
  hoare (budget N 0) (idle_round iteration_order to_vec from_slice r) (λ next, budget N (next_cost next)).
Proof.
  unfold idle_round.
  eapply hoare_bind; [apply spends_source_progress|]. intros n1. cbv beta.
  eapply hoare_bind; [apply spends_promote|]. intros n2. cbv beta.
  eapply hoare_bind; [apply spends_fire|]. intros n3. cbv beta.
  destruct (_ || _ || _) eqn:Eo.
  { intros d Hd d' next E. injection E as <- <-. eapply budget_weaken; [exact Hd|]. unfold next_cost.
    rewrite !orb_true_iff, !Nat.ltb_lt in Eo. lia. }
  eapply hoare_bind; [apply budget_read|]. intros manual. cbv beta.
  destruct (manual : bool); [apply complete_or_release_spends|].
  eapply hoare_bind; [apply budget_read|]. intros [deadline|]; cbv beta; [|apply complete_or_release_spends].
  eapply hoare_bind; [apply budget_read|]. intros time. cbv beta.
  eapply hoare_bind; [destruct (_ <? _)%Z; [apply budget_lift|intros d Hd d' u E; injection E as <- _; exact Hd]|]. intros u. cbv beta.
  eapply hoare_bind; [apply spends_fire|]. intros n4. cbv beta.
  intros d Hd d' next E. destruct (n4 =? 0)%nat eqn:En.
  - unfold with_state in E. destruct (scheduler_is_complete _); [|done]. injection E as <- <-.
    eapply budget_weaken; [exact Hd|simpl; lia].
  - injection E as <- <-. eapply budget_weaken; [exact Hd|]. apply Nat.eqb_neq in En. unfold next_cost. lia.
Qed.

(** * Rounds in a row *)

(** The loop is between two waits. *)
Definition between (phase : Phase) : bool :=
  match phase with AtTop | AtPromote | Promoting _ => true | _ => false end.

(** The steps of the loop until it waits for a bundle, returns, or [cs] are used up. *)
Fixpoint run_idle (cs : list Choice) (phase : Phase) : st D Phase :=
  match cs with
  | [] => mret phase
  | c :: cs =>
      if between phase then phase' ← next_phase iteration_order to_vec from_slice c phase; run_idle cs phase'
      else mret phase
  end.

Definition rank (phase : Phase) : nat := match phase with AtTop => 2 | AtPromote => 1 | _ => 0 end.

(** The groups left to deliver are timers of the store, each in one group. *)
Definition deliverable (T : gmap bytes TimerEntry) (phase : Phase) : Prop :=
  match phase with
  | Promoting groups => NoDup groups.*1 ∧ (∀ p, p ∈ groups → p.2 ≠ []) ∧
      ∃ route, ∀ p (e : TimerEntry), p ∈ groups → e ∈ p.2 → route e = Some p.1 ∧ ∃ k, T !! k = Some e
  | _ => True
  end.

Definition idle (N : nat) (phase : Phase) (d : D) : Prop :=
  invariant concurrency g phase d ∧ (d_in_flight d = [] ∧ between phase = true) ∧
  ∃ T, stores (d_timers d) T ∧ deliverable T phase ∧ (3 * cost d T + rank phase < N)%nat.

Lemma start_node_tasks idx (d d' : D) u :
  start_node idx d = (d', Ok u) → length (d_in_flight d') = S (length (d_in_flight d)).
Proof.
  unfold start_node. destruct (g_nodes _ !! idx) as [node|]; [|done].
  destruct (validate_bundle_input_watermark _ _ _); [|done..].
  destruct (is_splittable_node node).
  - destruct (take_seed _ _) as [d1 seed] eqn:Es. unfold take_seed in Es.
    destruct (if q_initialized _ then _ else _). injection Es as <- _. intros [= <- _]. simpl. rewrite length_app. simpl. lia.
  - intros [= <- _]. simpl. rewrite length_app. simpl. lia.
Qed.

Lemma start_nodes_tasks next (d d' : D) u :
  start_nodes next d = (d', Ok u) → length (d_in_flight d') = (length next + length (d_in_flight d))%nat.
Proof.
  revert d. induction next as [|[idx id] next IH]; intros d E; [by injection E as <- _|].
  cbn [start_nodes] in E. inv_st E. apply start_node_tasks in E0. apply IH in E. simpl. lia.
Qed.

(** A poll that starts nothing leaves the rest of the state alone. *)
Lemma schedule_nothing (d d' : D) u T :
  manager_ok (wm d) → schedule_nodes d = (d', Ok u) → d_in_flight d' = [] →
  d_timers d' = d_timers d ∧ cost d' T = cost d T.
Proof.
  intros Hm E Hn. unfold schedule_nodes in E. pose proof (empties_next_nodes (d_scheduler d) Hm) as He.
  destruct (next_nodes (d_scheduler d)) as [s next]. pose proof (start_nodes_tasks _ _ _ _ E) as Hl. rewrite Hn in Hl.
  destruct next; [|done]. injection E as <- _. split; [done|]. unfold cost, wm in *. simpl in *. by rewrite (unresolved_eq _ _ He).
Qed.

Lemma top_idle N c (d d' : D) phase' :
  idle (S N) AtTop d → next_phase iteration_order to_vec from_slice c AtTop d = (d', Ok phase') → idle N phase' d'.
Proof.
  intros (HI & [Hn _] & T & Hs & _ & Hc) E.
  pose proof (next_phase_invariant iteration_order to_vec from_slice concurrency g Hids _ _ _ _ _ HI E) as HI'.
  cbn [next_phase] in E. inv_st E. unfold sync_event_time_holds in E0. inv_st E0. inv_st E1.
  unfold with_state, on_watermarks, modify in E0. injection E0 as <-. inv_st E.
  unfold with_state, on_watermarks, modify in E0. injection E0 as <- <-. injection E as <- <-.
  split; [exact HI'|]. split; [done|]. exists T. split; [done|]. split; [done|].
  assert (He : empties (set_all_residual_holds (set_event_time_holds (wm d) (timer_holds (d_scheduler d) a0)) (d_residual_holds d))
               = empties (wm d)).
  { unfold set_all_residual_holds, set_event_time_holds. rewrite !empties_imap; done. }
  unfold cost, wm in *. simpl in *. rewrite (unresolved_eq _ _ He). lia.
Qed.

Lemma promote_idle N c (d d' : D) phase' :
  idle (S N) AtPromote d → next_phase iteration_order to_vec from_slice c AtPromote d = (d', Ok phase') → idle N phase' d'.
Proof.
  intros (HI & [Hn _] & T & Hs & _ & Hc) E.
  pose proof (next_phase_invariant iteration_order to_vec from_slice concurrency g Hids _ _ _ _ _ HI E) as HI'.
  cbn [next_phase] in E. inv_st E. injection E as <- <-.
  destruct (promote_read_effect to_vec from_slice Hserde d d0 a T Hs E0) as (es & Hes & Hp & Hnd & Hd).
  split; [exact HI'|]. rewrite Hd. split; [done|]. exists T. split; [done|]. split.
  - split; [done|]. split.
    + intros [st l] Hin. by apply Hp in Hin as [? _].
    + exists (event_route d). intros p e Hin He. destruct (promoted_entry _ _ _ _ _ _ _ Hp Hin He) as [? He'].
      split; [done|]. rewrite Hes in He'. by apply elem_of_event_timers in He' as [_ ?].
  - pose proof (empties_promoted _ _ _ _ _ Hp) as He. unfold cost, wm in *. simpl in *. rewrite (unresolved_eq _ _ He). lia.
Qed.

Lemma group_idle N c group groups (d d' : D) phase' :
  idle (S N) (Promoting (group :: groups)) d →
  next_phase iteration_order to_vec from_slice c (Promoting (group :: groups)) d = (d', Ok phase') → idle N phase' d'.
Proof.
  intros (HI & [Hn _] & T & Hs & (Hnd & Hne & route & Hr) & Hc) E.
  pose proof (next_phase_invariant iteration_order to_vec from_slice concurrency g Hids _ _ _ _ _ HI E) as HI'.
  cbn [next_phase] in E. inv_st E. injection E as <- <-.
  cbn [fmap list_fmap fst] in Hnd. apply NoDup_cons in Hnd as [Hst Hnd].
  assert (Hg : ∀ e, e ∈ group.2 → route e = Some group.1 ∧ ∃ k, T !! k = Some e) by (intros e; apply Hr; by left).
  unfold promote_group in E0. inv_st E0. apply on_timers_ok in E as (s' & E & ->). destruct a0. inv_st E0.
  injection E1 as <- <-. injection E0 as <- _.
  apply (delete_all_refines iteration_order Horder to_vec group.2 (d_timers d) T s' Hs) in E; [|intros e He; by apply Hg].
  split; [exact HI'|]. split; [done|]. exists (filter (λ p, p.2 ∉ group.2) T). split; [exact E|]. split.
  - split; [done|]. split; [intros p Hp; apply Hne; by right|]. exists route. intros p e Hp He.
    destruct (Hr p e) as [Hpe [k Hk]]; [by right|done|]. split; [done|]. exists k. apply map_lookup_filter_Some.
    split; [done|]. simpl. intros Hin. destruct (Hg e Hin) as [Hge _]. apply Hst.
    assert (group.1 = p.1) as -> by congruence. by apply (list_elem_of_fmap_2 fst).
  - assert (Hsz : (size (filter (λ p : bytes * TimerEntry, p.2 ∉ group.2) T) + 1 ≤ size T)%nat).
    { apply (filter_spends _ T 1). intros _. destruct group.2 as [|e l] eqn:Eg; [by destruct (Hne group); [left|]|].
      destruct (Hg e) as [_ [k Hk]]; [by left|]. exists k, e. split; [done|]. simpl. intros Hnin. apply Hnin. by left. }
    unfold cost, wm in *. simpl in *. lia.
Qed.

Lemma poll_idle N c (d d' : D) phase' :
  idle (S N) (Promoting []) d → next_phase iteration_order to_vec from_slice c (Promoting []) d = (d', Ok phase') →
  phase' = AtSelect ∧ d_in_flight d' ≠ [] ∨ phase' = Returned ∨ idle N phase' d'.
Proof.
  intros (HI & [Hn _] & T & Hs & _ & Hc) E.
  pose proof (next_phase_invariant iteration_order to_vec from_slice concurrency g Hids _ _ _ _ _ HI E) as HI'.
  destruct HI as [Ha _ _]. simpl in Ha. cbn [next_phase] in E. inv_st E. unfold with_state in E.
  destruct (d_in_flight d0) as [|t ts] eqn:Ef; [|injection E as <- <-; left; by rewrite Ef].
  destruct a. destruct (schedule_nodes_agrees concurrency g Hids _ _ _ Ha E0) as (Ha1 & _ & _).
  destruct (schedule_nothing d d0 tt T) as [Ht Hcost]; [apply (schedule_manager_ok concurrency g), Ha|done|done|].
  inv_st E.
  assert (Hb : budget (cost d T) 0 d0) by (split; [done|]; exists T; rewrite Ht, Hcost; split; [done|lia]).
  apply (idle_round_spends (cost d T) (readings c) d0 Hb) in E1 as Hb'.
  destruct (idle_round_ok iteration_order to_vec from_slice concurrency g d0 (readings c) d0 ltac:(by split) _ _ E1)
    as ((_ & Ef2 & _) & _).
  destruct a; injection E as <- <-; [|by right; left]. right. right. destruct Hb' as (_ & T' & Hs' & Hc').
  split; [exact HI'|]. split; [by rewrite Ef2|]. exists T'. split; [done|]. split; [done|]. simpl in *. lia.
Qed.

(** Whatever the clock reads, the loop waits for a bundle, returns or fails within three
    steps for each thing that rounds can use up. *)
Definition waits (phase : Phase) (d : D) : Prop := phase = AtSelect ∧ d_in_flight d ≠ [] ∨ phase = Returned.

Lemma run_idle_ends cs phase (d d' : D) phase' :
  idle (length cs) phase d ∨ waits phase d →
  run_idle cs phase d = (d', Ok phase') → waits phase' d'.
Proof.
  revert phase d. induction cs as [|c cs IH]; intros phase d HI E; cbn [run_idle] in E.
  { injection E as <- <-. destruct HI as [(_ & _ & T & _ & _ & Hc)|]; [simpl in Hc; lia|done]. }
  destruct HI as [HI|Hw]; [|destruct Hw as [[-> ?]| ->]; injection E as <- <-; [by left; split|by right]].
  destruct (between phase) eqn:Eb; [inv_st E; apply (IH a d0); [|done]|injection E as <- <-].
  - destruct phase as [| |[|group groups]| | |]; try done.
    + left. by eapply top_idle.
    + left. by eapply promote_idle.
    + destruct (poll_idle _ _ _ _ _ HI E0) as [?|[->|?]]; [by right; left|by right; right|by left].
    + left. by eapply group_idle.
  - by destruct HI as (_ & [_ Hb] & _); congruence.
Qed.

Lemma run_idle_reaches cs phase (d : D) c0 :
  reaches iteration_order to_vec from_slice c0 (Running phase d) →
  match run_idle cs phase d with
  | (d', Ok phase') => reaches iteration_order to_vec from_slice c0 (Running phase' d')
  | (d', Err e) => reaches iteration_order to_vec from_slice c0 (Failed (Err e) d')
  | (d', Panic w) => reaches iteration_order to_vec from_slice c0 (Failed (Panic w) d')
  end.
Proof.
  revert phase d. induction cs as [|c cs IH]; intros phase d R; cbn [run_idle]; [exact R|].
  destruct (between phase); [|exact R]. unfold mbind, st_bind.
  destruct (next_phase _ _ _ c phase d) as [d1 [phase1|e|w]] eqn:E.
  - apply IH. eapply reaches_step; [exact R|]. by eapply step_loop.
  - eapply reaches_step; [exact R|]. by eapply step_error.
  - eapply reaches_step; [exact R|]. by eapply step_panic.
Qed.
End idle.

Local Open Scope string_scope.
Local Open Scope list_scope.

Section return_.
Context {Store : Type} `{KvLaws Store} `{Pr : Profile} (iteration_order : gset bytes → list bytes)
  (Horder : ∀ X, iteration_order X ≡ₚ elements X).
Context (to_vec : TimerEntry → outcome string bytes) (from_slice : bytes → outcome string TimerEntry)
  (Hserde : ∀ e bs, to_vec e = Ok bs → from_slice bs = Ok e).
Context (concurrency : nat) (g : ExecutableGraph) (Hids : NoDup (node_id <$> g_nodes g)).
Local Abbreviation D := (Dispatcher (Store:=Store)).
Local Abbreviation stores := (stores to_vec).

(** * A round that does nothing *)

Lemma apply_source_progress_zero (d d' : D) :
  apply_source_progress d = (d', Ok 0) → d' = d ∧ d_source_reports d = [].
Proof.
  intros E. unfold apply_source_progress, with_state in E. inv_st E.
  assert (Ha : a = 0) by (destruct (0 <? a)%nat; [inv_st E|]; by injection E as _ <-). subst a.
  injection E as <-. destruct (d_source_reports d) as [|p rest] eqn:Er; [by injection E0 as <-|].
  cbn [length apply_reports] in E0. rewrite Er in E0. inv_st E0. inv_st E0. by injection E0 as _.
Qed.

Lemma promote_none s es :
  (∀ e, e ∈ es → route_event_timer s (watermarks s) e = None) →
  Scheduler.promote_due_event_time_timers s es = (with_watermarks s (watermarks s), []).
Proof.
  intros Hn. unfold Scheduler.promote_due_event_time_timers. rewrite (promote_event_route s (watermarks s)) by done.
  assert (E : ∀ acc, route_all (route_event_timer s (watermarks s)) acc es = acc).
  { induction es as [|e es IH]; intros acc; [done|]. unfold route_all in *. cbn [foldl].
    rewrite (Hn e) by (by left). apply IH. intros e' He'. apply Hn. by right. }
  rewrite E. unfold groups. by rewrite dom_empty_L, elements_empty.
Qed.

Lemma promote_zero (d d' : D) T :
  stores (d_timers d) T → promote_due_event_time_timers iteration_order to_vec from_slice d = (d', Ok 0) →
  d' = d ∧ ∀ e, e ∈ event_timers T → event_route d e = None.
Proof.
  intros Hs E.
  destruct (promote_effect iteration_order Horder to_vec from_slice Hserde d d' 0 T Hs E) as (_ & _ & _ & _ & [Hn _] & _).
  specialize (Hn eq_refl). split; [|done]. unfold promote_due_event_time_timers, promote_read in E. inv_st E. inv_st E0. inv_st E1.
  apply (all_event_time_timers_refines to_vec from_slice Hserde _ _ _ Hs) in E2.
  destruct a0 as [|e es]; [injection E0 as <- <-; by injection E as <-|].
  unfold with_state in E0. rewrite promote_none in E0.
  - injection E0 as <- <-. injection E as <-. by destruct d as [[] ? ? ? ? ? ? ? ? ?].
  - intros e' He'. apply Hn. by rewrite <- E2.
Qed.

Lemma fire_zero elapsed (d d' : D) T :
  stores (d_timers d) T → fire_due_processing_time iteration_order to_vec from_slice elapsed d = (d', Ok 0) →
  d' = d ∧ ∃ time, now elapsed (d_clock d) = Ok time ∧
    ∀ e, e ∈ timers_of T → te_domain e = ProcessingTime → (time < fire_timestamp e)%Z.
Proof.
  intros Hs E.
  destruct (fire_effect iteration_order Horder to_vec from_slice Hserde elapsed d d' 0 T Hs E)
    as (time & due & _ & _ & Ht & Hdue & _ & Hl & _). symmetry in Hl. apply length_zero_iff_nil in Hl as ->. split.
  - unfold fire_due_processing_time in E. inv_st E. inv_st E0. inv_st E. destruct a0 as [|e es].
    + injection E as <-. apply on_timers_ok in E0 as (s' & E0 & ->). unfold take_due_processing_time in E0.
      inv_st E0. inv_st E. inv_st E0. injection E0 as <- ->. injection E as <-. by destruct d.
    + inv_st E. by injection E as _.
  - exists time. split; [done|]. intros e He Hd. apply Z.nle_gt. intros Hle.
    assert (He' : e ∈ List.filter (is_due_at_clock time) (timers_of T)).
    { rewrite list_elem_of_In, filter_In, <- list_elem_of_In. split; [done|]. unfold is_due_at_clock.
      rewrite bool_decide_true by done. by apply Z.leb_le. }
    rewrite <- Hdue in He'. by apply elem_of_nil in He'.
Qed.

Lemma deadline_none (d : D) T :
  stores (d_timers d) T → next_processing_deadline from_slice (d_timers d) = Ok None →
  ∀ e, e ∈ timers_of T → te_domain e = EventTime.
Proof.
  intros Hs E e He. unfold next_processing_deadline in E. destruct (entries from_slice (d_timers d)) as [es| |] eqn:Ee; [|done..].
  apply (entries_refines to_vec from_slice Hserde _ _ _ Hs) in Ee. injection E as E. apply min_timestamp_None in E.
  destruct (te_domain e) eqn:Hd; [done|]. exfalso. rewrite <- Ee in He.
  assert (Hin : e ∈ List.filter (λ e, bool_decide (te_domain e = ProcessingTime)) es).
  { rewrite list_elem_of_In, filter_In, <- list_elem_of_In, bool_decide_eq_true. by split. }
  apply (list_elem_of_fmap_2 fire_timestamp) in Hin. rewrite E in Hin. by apply elem_of_nil in Hin.
Qed.

(** With a deadline there is a processing-time timer, which none is before. *)
Lemma deadline_some (d : D) T deadline :
  stores (d_timers d) T → next_processing_deadline from_slice (d_timers d) = Ok (Some deadline) →
  ∃ e, e ∈ timers_of T ∧ te_domain e = ProcessingTime ∧ fire_timestamp e = deadline
    ∧ ∀ e', e' ∈ timers_of T → te_domain e' = ProcessingTime → (deadline ≤ fire_timestamp e')%Z.
Proof.
  intros Hs E. unfold next_processing_deadline in E. destruct (entries from_slice (d_timers d)) as [es| |] eqn:Ee; [|done..].
  apply (entries_refines to_vec from_slice Hserde _ _ _ Hs) in Ee. injection E as [Hin Hle]%min_timestamp_spec.
  assert (Hf : ∀ e, e ∈ List.filter (λ e, bool_decide (te_domain e = ProcessingTime)) es
    ↔ e ∈ timers_of T ∧ te_domain e = ProcessingTime)
    by (intros e; by rewrite list_elem_of_In, filter_In, <- list_elem_of_In, bool_decide_eq_true, Ee).
  apply list_elem_of_fmap in Hin as (e & -> & [He Hd]%Hf). exists e. split_and!; [done..|]. intros e' He' Hd'.
  by apply Hle, list_elem_of_fmap_2, Hf.
Qed.

(** The sleep of a round lasts until the first processing-time timer is due. *)
Definition slept (r : Readings) (d : D) (T : gmap bytes TimerEntry) : Prop :=
  ∀ e, e ∈ timers_of T → te_domain e = ProcessingTime →
    (∀ e', e' ∈ timers_of T → te_domain e' = ProcessingTime → (fire_timestamp e ≤ fire_timestamp e')%Z) →
    ∃ time, now (after_sleep r) (d_clock d) = Ok time ∧ (fire_timestamp e ≤ time)%Z.

(** What is left in the timer store when the loop ends with the readings [r]: no event-time
    timer is due at the input watermark of its stage and no processing-time timer at the time
    that was read; under the wall clock there is no processing-time timer at all, when the sleep
    lasts as long as it should. *)
Definition nothing_due (r : Readings) (d : D) (T : gmap bytes TimerEntry) : Prop :=
  d_source_reports d = []
  ∧ (∀ e, e ∈ event_timers T → event_route d e = None)
  ∧ (∃ time, now (at_fire r) (d_clock d) = Ok time
      ∧ ∀ e, e ∈ timers_of T → te_domain e = ProcessingTime → (time < fire_timestamp e)%Z)
  ∧ (is_manual (d_clock d) = false → slept r d T → ∀ e, e ∈ timers_of T → te_domain e = EventTime).

Lemma finished_nothing_due r (d d' : D) T :
  stores (d_timers d) T → idle_round iteration_order to_vec from_slice r d = (d', Ok Finished) →
  d' = d ∧ nothing_due r d T.
Proof.
  intros Hs E. unfold idle_round in E. inv_st E. inv_st E. inv_st E.
  destruct (_ || _ || _) eqn:Eo; [done|]. rewrite !orb_false_iff, !Nat.ltb_ge in Eo. destruct Eo as [[Hz1 Hz2] Hz3].
  assert (a = 0) as -> by lia. assert (a0 = 0) as -> by lia. assert (a1 = 0) as -> by lia. clear Hz1 Hz2 Hz3.
  apply apply_source_progress_zero in E0 as [-> Hr]. apply (promote_zero _ _ T Hs) in E1 as [-> He].
  apply (fire_zero _ _ _ T Hs) in E2 as (-> & Hfired). unfold nothing_due.
  inv_st E. inv_st E0. injection E1 as <-.
  assert (Hcr : ∀ msg, complete_or_release msg d = (d', Ok Finished) → d' = d).
  { intros msg Em. unfold complete_or_release, with_state in Em. destruct (scheduler_is_complete _); [by injection Em|].
    inv_st Em. by destruct (0 <? a)%nat. }
  destruct (is_manual (d_clock d)) eqn:Em.
  { apply Hcr in E as ->. by split_and!. }
  inv_st E. inv_st E0. destruct a as [deadline|].
  - inv_st E. inv_st E0. inv_st E. inv_st E.
    assert (d0 = d) as ->.
    { destruct (a <? deadline)%Z; [by apply st_lift_ok in E0 as [-> _]|by injection E0 as <- _]. }
    destruct (a1 =? 0)%nat eqn:Ea; [|done]. apply Nat.eqb_eq in Ea as ->.
    apply (fire_zero _ _ _ T Hs) in E3 as (-> & t2 & Ht2 & Hp2). unfold with_state in E.
    destruct (scheduler_is_complete _); [|done]. injection E as <-. split; [done|]. split_and!; [done..|].
    intros _ Hslept. destruct (deadline_some d T deadline Hs E1) as (e & Hin & Hd & <- & Hmin).
    destruct (Hslept e Hin Hd Hmin) as (t & Ht & Hle). rewrite Ht2 in Ht. injection Ht as <-. specialize (Hp2 e Hin Hd). lia.
  - apply Hcr in E as ->. split; [done|]. split_and!; [done..|]. intros _ _. exact (deadline_none d T Hs E1).
Qed.

(** * The timer store along a run *)

(** An operation that leaves the timer store alone. *)
Definition same_timers {A} (f : st D A) : Prop := ∀ s, hoare (λ d, d_timers d = s) f (λ _ d, d_timers d = s).

Lemma same_timers_bind {A B} (f : st D A) (k : A → st D B) :
  same_timers f → (∀ a, same_timers (k a)) → same_timers (mbind (M:=st D) k f).
Proof. intros Hf Hk s. eapply hoare_bind; [apply Hf|]. intros a. apply Hk. Qed.

Lemma same_timers_ret {A} (a : A) : same_timers (mret (M:=st D) a).
Proof. intros s d Hd d' x E. by injection E as <- _. Qed.

Lemma same_timers_lift {A} (r : outcome string A) : same_timers (st_lift (B:=D) r).
Proof. intros s d Hd d' x E. by apply st_lift_ok in E as [-> _]. Qed.

Lemma same_timers_modify f : (∀ d, d_timers (f d) = d_timers d) → same_timers (modify f).
Proof. intros Hf s d Hd d' x E. injection E as <- _. by rewrite Hf. Qed.

Lemma same_timers_state {A} (f : D → st D A) : (∀ d, same_timers (f d)) → same_timers (with_state f).
Proof. intros Hf s d Hd d' x E. by eapply Hf. Qed.

Lemma same_timers_try f : same_timers (try_watermarks f).
Proof. intros s d Hd d' [] E. by apply try_watermarks_ok in E as (m & _ & ->). Qed.

Lemma same_timers_enqueue st new : same_timers (enqueue_sdf_items st new).
Proof.
  unfold enqueue_sdf_items.
  apply same_timers_bind; [by apply same_timers_modify|]. intros _. apply same_timers_bind.
  { apply same_timers_modify. intros d. revert d. induction new as [|item new IH]; intros d; [done|]. cbn [foldl]. by rewrite IH. }
  intros _. destruct new; [apply same_timers_ret|].
  apply same_timers_bind; [by apply same_timers_modify|]. intros _.
  apply same_timers_bind; [apply same_timers_state; intros d; by apply same_timers_modify|]. intros _.
  apply same_timers_bind; [apply same_timers_try|]. intros _. apply same_timers_ret.
Qed.

Lemma same_timers_receive st item : same_timers (receive_item st item).
Proof. apply same_timers_bind; [apply same_timers_enqueue|]. intros _. apply same_timers_ret. Qed.

Lemma same_timers_drain n : same_timers (drain_immediate n).
Proof.
  induction n as [|n IH]; [apply same_timers_ret|]. intros s d Hd d' x E. cbn [drain_immediate] in E.
  destruct (d_immediate_sdf d) as [|[st item] rest]; [by injection E as <- _|].
  assert (Hb : same_timers (_ ← receive_item st item; drain_immediate n)) by (apply same_timers_bind; [apply same_timers_receive|done]).
  by apply (Hb s (with_immediate rest d) Hd d' x).
Qed.

Lemma same_timers_join t : same_timers (join_task t).
Proof.
  assert (Ho : ∀ idx st, same_timers (take_output_min idx st)).
  { intros idx st s d <- d' x E. unfold take_output_min in E. destruct (_ <=? 1)%nat; [|by injection E as <- _].
    destruct (take_minima _ _). by injection E as <- _. }
  unfold join_task. destruct (t_end t) as [[result cnt|result|]|]; try apply same_timers_lift.
  - apply same_timers_bind; [apply same_timers_lift|]. intros _. apply same_timers_bind; [apply Ho|]. intros m. apply same_timers_ret.
  - apply same_timers_bind; [apply same_timers_lift|]. intros o. apply same_timers_bind.
    + unfold finish_sdf. apply same_timers_bind; [by apply same_timers_modify|]. intros _.
      apply same_timers_bind; [by apply same_timers_modify|]. intros _.
      apply same_timers_bind; [apply same_timers_enqueue|]. intros _. apply same_timers_state. intros d. apply same_timers_drain.
    + intros _. apply same_timers_bind; [apply Ho|]. intros m. apply same_timers_ret.
Qed.

Lemma sync_timers (d d' : D) u : sync_event_time_holds from_slice d = (d', Ok u) → d_timers d' = d_timers d.
Proof. unfold sync_event_time_holds. intros E. inv_st E. inv_st E0. by injection E as <- _. Qed.

Lemma start_nodes_timers next (d d' : D) u : start_nodes next d = (d', Ok u) → d_timers d' = d_timers d.
Proof.
  revert d. induction next as [|[idx id] next IH]; intros d E; [by injection E as <- _|]. cbn [start_nodes] in E. inv_st E.
  rewrite (IH _ E). unfold start_node in E0. destruct (g_nodes _ !! idx) as [node|]; [|done].
  destruct (validate_bundle_input_watermark _ _ _); [|done..]. destruct (is_splittable_node node); [|by injection E0 as <- _].
  destruct (take_seed _ _) as [d1 seed] eqn:Es. unfold take_seed in Es.
  destruct (if q_initialized _ then _ else _). injection Es as <- _. by injection E0 as <- _.
Qed.

(** The timer store stands for some timers; once the loop returns nothing of them is due, by
    what was read in the last step. *)
Definition left_over (c : Choice) (phase phase' : Phase) (d : D) : Prop :=
  ∃ T, stores (d_timers d) T ∧ (phase ≠ Returned → phase' = Returned → nothing_due (readings c) d T).

Lemma next_phase_left_over c phase (d d' : D) phase' :
  invariant concurrency g phase d → (∃ T, stores (d_timers d) T) →
  next_phase iteration_order to_vec from_slice c phase d = (d', Ok phase') → left_over c phase phase' d'.
Proof.
  intros HI [T Hs] E.
  assert (Hsame : d_timers d' = d_timers d → phase' ≠ Returned → left_over c phase phase' d') by (intros Et ?; exists T; rewrite Et; by split).
  destruct phase as [| |[|group groups]| |idx m cnt|]; cbn [next_phase] in E.
  - inv_st E. inv_st E. injection E1 as <- _. injection E as <- <-. apply Hsame; [|done]. simpl. by eapply sync_timers.
  - inv_st E. injection E as <- <-. destruct (promote_read_effect to_vec from_slice Hserde d d0 a T Hs E0) as (_ & _ & _ & _ & Hd).
    apply Hsame; [|done]. by rewrite Hd.
  - inv_st E. assert (Et : d_timers d0 = d_timers d).
    { unfold schedule_nodes in E0. destruct (next_nodes _) as [s next]. by rewrite (start_nodes_timers _ _ _ _ E0). }
    destruct HI as [Ha _ _]. destruct a. destruct (schedule_nodes_agrees concurrency g Hids _ _ _ Ha E0) as (Ha1 & _ & _).
    unfold with_state in E. destruct (d_in_flight d0) as [|t ts]; [|by injection E as <- <-; apply Hsame].
    inv_st E. assert (Hs0 : stores (d_timers d0) T) by (by rewrite Et). destruct a; injection E as <- <-.
    + destruct (idle_round_spends iteration_order Horder to_vec from_slice Hserde concurrency g (cost d0 T) (readings c) d0) with (a := Again) (b' := d1)
        as (_ & T' & Hs' & _); [split; [done|]; exists T; split; [done|lia]|done|]. by exists T'.
    + apply (finished_nothing_due _ _ _ T Hs0) in E1 as [-> Hnd]. by exists T.
  - inv_st E. injection E as <- <-. unfold promote_group in E0. inv_st E0. apply on_timers_ok in E as (s' & E & ->). destruct a0.
    inv_st E0. injection E1 as <- _. injection E0 as <- _. eexists. split; [|done]. apply (delete_all_overlay iteration_order Horder to_vec _ _ _ _ Hs) in E. exact E.
  - destruct c as [r| |k].
    + injection E as <- <-. by apply Hsame.
    + unfold with_state in E. destruct (d_immediate_sdf d) as [|[st item] rest]; [injection E as <- <-; by apply Hsame|].
      inv_st E. injection E0 as <- _. inv_st E. injection E as <- <-. apply Hsame; [|done].
      exact (same_timers_receive st item (d_timers d) (with_immediate rest d) eq_refl _ _ E0).
    + unfold with_state in E. destruct (d_in_flight d !! k) as [t|]; [|injection E as <- <-; by apply Hsame].
      destruct (t_end t) as [e|]; [|injection E as <- <-; by apply Hsame].
      inv_st E. injection E0 as <- _. inv_st E. destruct a0 as [[i o] n]. injection E as <- <-. apply Hsame; [|done].
      by apply (same_timers_join t (d_timers d) (with_tasks (delete k (d_in_flight d)) d) eq_refl _ _ E0).
  - inv_st E. injection E as <- <-. apply Hsame; [|done]. unfold complete_task in E0. inv_st E0.
    unfold with_state in E0. inv_st E0. inv_st E1. injection E0 as <- _. exact (sync_timers _ _ _ E).
  - injection E as <- <-. by exists T.
Qed.

Lemma env_step_stores (d d' : D) :
  (∃ T, stores (d_timers d) T) → env_step iteration_order to_vec d d' → ∃ T, stores (d_timers d') T.
Proof.
  intros [T Hs] E. destruct E as [d t s' Ht Hw| | | |]; simpl; try by exists T.
  destruct Hw as [entry s s' E|key s s' E|pending s s' Hk E].
  - eexists. by apply (upsert_refines to_vec _ _ _ _ Hs) in E.
  - eexists. by apply (timer_delete_refines to_vec _ _ _ _ Hs) in E.
  - eexists. by apply (timer_apply_refines iteration_order Horder to_vec _ _ _ _ Hs Hk) in E.
Qed.

(** The step of the loop with which a run returns. *)
Definition last_step (c0 : Config) (c : Choice) (phase : Phase) (d0 d : D) : Prop :=
  phase ≠ Returned ∧ reaches iteration_order to_vec from_slice c0 (Running phase d0)
  ∧ next_phase iteration_order to_vec from_slice c phase d0 = (d, Ok Returned).

Lemma reaches_stores timers T0 clock mins phase (d : D) :
  stores timers T0 →
  let c0 := Running AtTop (initial_state concurrency g timers clock mins) in
  reaches iteration_order to_vec from_slice c0 (Running phase d) →
  (∃ T, stores (d_timers d) T) ∧ (phase = Returned → ∃ c phase0 d0, last_step c0 c phase0 d0 d).
Proof.
  intros Hs0 c0 R. remember (Running phase d) as c eqn:Ec. revert phase d Ec.
  induction R as [|c1 c2 R IH Hstep]; intros phase d Ec; subst.
  - injection Ec as <- <-. split; [by exists T0|done].
  - inversion Hstep as [c ph d1 ph' d' E| | |ph d1 d' E]; subst; destruct (IH _ _ eq_refl) as [Hs Hret].
    + assert (HI : invariant concurrency g ph d1) by (by eapply (reaches_invariant iteration_order to_vec from_slice)). split.
      * destruct (next_phase_left_over c ph d1 d phase HI Hs E) as (T & HT & _). by exists T.
      * intros ->. destruct ph as [| |groups| |idx m cnt|]; [exists c; do 2 eexists; split_and!; [|exact R|exact E]; discriminate..|].
        cbn [next_phase] in E. injection E as <-. by apply Hret.
    + assert (HI : invariant concurrency g phase d1) by (by eapply (reaches_invariant iteration_order to_vec from_slice)).
      split; [by eapply env_step_stores|]. intros ->. destruct (inv_phase _ _ _ _ HI) as [_ Hf].
      by apply (env_step_running iteration_order to_vec) in E.
Qed.

Lemma last_step_nothing_due timers T0 clock mins c phase (d0 d : D) :
  stores timers T0 → last_step (Running AtTop (initial_state concurrency g timers clock mins)) c phase d0 d →
  ∃ T, stores (d_timers d) T ∧ nothing_due (readings c) d T.
Proof.
  intros Hs0 (Hne & R & E). destruct (reaches_stores timers T0 clock mins phase d0 Hs0 R) as [Hs _].
  destruct (next_phase_left_over c phase d0 d Returned) as (T & HT & Hnd); [by eapply (reaches_invariant iteration_order to_vec from_slice)|done..|].
  exists T. split; [done|]. by apply Hnd.
Qed.
End return_.
