(* ===== verification/DispatcherProperties.v ===== *)
(** The properties of the dispatcher's loop, each with a witness on runs of a small job:
    an impulse feeding a splittable stage. *)
From stdpp Require Import gmultiset.
From S2P Require Import Prelude Bytes Varint Windows Coders Kv UserState Timers StateProperties.
From S2P Require Import Watermark WatermarkRefresh WatermarkBundles WatermarkInvariant Scheduler SchedulerSpec.
From S2P Require Import Metrics Sdf SdfBundle Dispatcher DispatcherLedger DispatcherSpec DispatcherSteps DispatcherOutcome.
From S2P Require Import DispatcherReturn.
Set Warnings "-clear-no-such-hyp".
Local Open Scope string_scope.
Local Open Scope list_scope.

(** * A job for the witnesses *)

Definition job_graph : ExecutableGraph :=
  mkGraph
    [Runner (mkRunner "src" ["beam:transform:impulse:v1"] ["p"] true);
     Splittable "sdf" ProcessSizedElementsAndRestrictions ["q"] [Worker (mkWorker "process" ["t"] [] ["q"] false)]]
    [mkEdge 0 1 "p"]
    (mkComponents ∅ ∅).

Lemma job_ids : NoDup (node_id <$> g_nodes job_graph).
Proof. apply NoDup_ListNoDup. repeat constructor; simpl; intuition discriminate. Qed.

Abbreviation JobState := (Dispatcher (Store:=gmap bytes bytes)).

(** The state in which the job's run enters the loop. *)
Definition job_start (timers : gmap bytes bytes) : JobState := initial_state 2 job_graph timers (mkClock 0 I64_MIN) ∅.

Definition job_step := next_phase (Store:=gmap bytes bytes) (P:=debug_profile) by_elements demo_to_vec demo_from_slice.
Definition job_reaches := reaches (Store:=gmap bytes bytes) (P:=debug_profile) by_elements demo_to_vec demo_from_slice.

(** A splittable bundle of the job that hands back one residual, for the part of its input
    that was not processed. *)
Definition job_residual : SdfWorkItem := mkWorkItem [Byte.x07] [].
Definition job_bundle_end (t : Task) (residuals : bool) : TaskEnd :=
  SdfEnd (r ← (execute_bundle (P:=debug_profile) elements (mkWindowedValueCoder VarIntCoder GlobalCoder) (mkSplitConfig 0 0 0) 0 true
                 (mkSplittable "sdf" {[ "q" ]} []) [] ProcessSizedElementsAndRestrictions true (t_seed t)
                 (t_initialized t) (t_registered t) (t_progress_tick t) (λ _ _, mkInitAnswers (Err "") (Err "") [] (Err ""))
                 (λ _, mkProcessAnswers (Ok BundleRegistered) (Ok "i") []
                    (Ok (ProcessBundleSuccess (if residuals then [mkDelayed (Some (mkApplication "t" [Byte.x07] ∅))] else []))) (Ok ()))).2;
          Ok r.2).

(** What happens next in a run: the loop takes a step, a bundle ends, or a running bundle
    sends a split residual. *)
Inductive Event : Type :=
| Loop (c : Choice)
| EndPlain (k : nat)
| EndSdf (k : nat) (residuals : bool)
| SendItem (k : nat) (item : SdfWorkItem).

Definition happens (config : Phase * JobState) (event : Event) : option (Phase * JobState) :=
  let '(phase, d) := config in
  let running_task k := match d_in_flight d !! k with Some t => match t_end t with None => Some t | _ => None end | None => None end in
  match event with
  | Loop c => match job_step c phase d with (d', Ok phase') => Some (phase', d') | _ => None end
  | EndPlain k =>
      t ← running_task k;
      if t_splittable t then None else Some (phase, with_tasks (<[k := ended t (PlainEnd (Ok ()) 1)]> (d_in_flight d)) d)
  | EndSdf k residuals =>
      t ← running_task k;
      if t_splittable t then Some (phase, with_tasks (<[k := ended t (job_bundle_end t residuals)]> (d_in_flight d)) d) else None
  | SendItem k item =>
      t ← running_task k;
      if t_splittable t then Some (phase, with_immediate (d_immediate_sdf d ++ [(t_stage t, item)]) d) else None
  end.

Fixpoint happen (events : list Event) (config : Phase * JobState) : option (Phase * JobState) :=
  match events with
  | [] => Some config
  | event :: events => config' ← happens config event; happen events config'
  end.

Lemma happens_reaches c0 event phase d phase' d' :
  job_reaches c0 (Running phase d) → happens (phase, d) event = Some (phase', d') → job_reaches c0 (Running phase' d').
Proof.
  intros R E. assert (Hrun : ∀ k t,
    match d_in_flight d !! k with Some t => match t_end t with None => Some t | _ => None end | None => None end = Some t →
    d_in_flight d !! k = Some t ∧ t_end t = None).
  { intros k t Hk. destruct (d_in_flight d !! k) as [t'|] eqn:Ek; [|done]. destruct (t_end t') eqn:Ee; [done|]. injection Hk as ->. done. }
  destruct event as [c|k|k residuals|k item]; cbn [happens] in E.
  - destruct (job_step c phase d) as [d1 [p1| |]] eqn:Es; [|done..]. injection E as -> ->.
    eapply reaches_step; [exact R|]. by eapply step_loop.
  - apply bind_Some in E as (t & Ht & E). apply Hrun in Ht as [Hk He]. destruct (t_splittable t) eqn:Es; [done|].
    injection E as <- <-. eapply reaches_step; [exact R|]. apply step_env. eapply env_end; [done|done|]. by apply ends_plain.
  - apply bind_Some in E as (t & Ht & E). apply Hrun in Ht as [Hk He]. destruct (t_splittable t) eqn:Es; [|done].
    injection E as <- <-. eapply reaches_step; [exact R|]. apply step_env. eapply env_end; [done|done|]. by apply ends_sdf.
  - apply bind_Some in E as (t & Ht & E). apply Hrun in Ht as [Hk He]. destruct (t_splittable t) eqn:Es; [|done].
    injection E as <- <-. eapply reaches_step; [exact R|]. apply step_env. eapply env_item; [|done].
    split; [by eapply list_elem_of_lookup_2|done].
Qed.

Lemma happen_reaches c0 events phase d phase' d' :
  job_reaches c0 (Running phase d) → happen events (phase, d) = Some (phase', d') → job_reaches c0 (Running phase' d').
Proof.
  revert phase d. induction events as [|event events IH]; intros phase d R E; cbn [happen] in E.
  - by injection E as -> ->.
  - apply bind_Some in E as ([p1 d1] & E1 & E). eapply IH; [|exact E]. by eapply happens_reaches.
Qed.

(** A round of the loop from its top to the wait for a bundle, and the join of a bundle up
    to the next top. *)
Definition tick : Event := Loop (Tick (mkReadings 0 0 0)).
Definition to_select : list Event := [tick; tick; tick].
Definition joined_back (k : nat) : list Event := [Loop (Join k); tick].

(** The impulse has run; the splittable stage runs its first bundle, which has sent a
    residual held at 5; the residual was received. *)
Definition to_received : list Event :=
  to_select ++ [EndPlain 0] ++ joined_back 0 ++ to_select ++ [SendItem 0 (mkWorkItem [Byte.x01] [5%Z]); Loop Receive].
Definition job_config (events : list Event) : Phase * JobState := default (AtTop, job_start ∅) (happen events (AtTop, job_start ∅)).

Lemma job_config_reaches events :
  bool_decide (is_Some (happen events (AtTop, job_start ∅))) = true →
  job_reaches (Running AtTop (job_start ∅)) (Running (job_config events).1 (job_config events).2).
Proof.
  intros [[p d] E]%bool_decide_eq_true. unfold job_config. rewrite E. eapply happen_reaches; [constructor|exact E].
Qed.

(** The residual is run by a second bundle, and both bundles end. *)
Definition to_returned : list Event :=
  to_received ++ to_select ++ [EndSdf 0 false; EndSdf 1 false] ++ joined_back 0 ++ to_select ++ joined_back 0 ++ to_select.

(** * Work items *)

(** C31: the books of a run agree: whatever the loop and the bundles do, and in whatever
    order, the manager counts for every stage exactly the work items that wait and the
    bundles that run (one that was joined included until it is marked complete); the
    residual holds are exactly those of the items that wait or run; and no refresh carries
    the output watermark of a stage past a hold of one of its items. *)
Theorem work_items_accounted {Store : Type} `{KvStore Store} `{Profile} iteration_order to_vec from_slice
    concurrency g timers clock mins phase (d : Dispatcher (Store:=Store)) id s :
  NoDup (node_id <$> g_nodes g) →
  reaches iteration_order to_vec from_slice (Running AtTop (initial_state concurrency g timers clock mins)) (Running phase d) →
  stages (wm d) !! id = Some s →
  length (waiting d id) = queued s
  ∧ (length (tasks_of id d) + (if decide (joined_stage g phase = Some id) then 1 else 0))%nat = Watermark.in_flight s
  ∧ holds_at (d_residual_holds d) id = hold_set (outstanding d id)
  ∧ ∀ item h s', item ∈ outstanding d id → h ∈ holds item → stages (refresh (wm d)).1 !! id = Some s' →
      (output s' ≤ Z.max (output s) h)%Z.
Proof.
  intros Hids R E. destruct (reaches_invariant iteration_order to_vec from_slice concurrency g Hids _ _ _ _ _ R) as [[HS HB] _ _].
  pose proof (ledgers_lookup _ _ _ E) as EL. split_and!.
  - apply (bk_queue _ _ _ _ HB id _ EL).
  - apply (bk_tasks _ _ _ _ HB id _ EL).
  - apply (bk_holds _ _ _ _ HB).
  - intros item h s' Hi Hh E'. apply (refresh_below_hold (wm d) id s s' h); [by apply (schedule_manager_ok concurrency g)|done|done|].
    right. pose proof (bk_covered _ _ _ _ HB id _ EL) as Hc. rewrite (bk_holds _ _ _ _ HB) in Hc.
    apply (gmultiset_elem_of_subseteq _ _ _ (elem_of_hold_set _ _ _ Hi Hh) Hc).
Qed.

Lemma work_items_accounted_witness :
  ∃ s, stages (wm (job_config to_received).2) !! "sdf" = Some s
    ∧ waiting (job_config to_received).2 "sdf" = [mkWorkItem [Byte.x01] [5%Z]]
    ∧ length (waiting (job_config to_received).2 "sdf") = queued s
    ∧ ∀ s', stages (refresh (wm (job_config to_received).2)).1 !! "sdf" = Some s' → (output s' ≤ Z.max (output s) 5)%Z.
Proof.
  destruct (stages (wm (job_config to_received).2) !! "sdf") as [s|] eqn:E.
  2: { exfalso. assert (Hs : bool_decide (is_Some (stages (wm (job_config to_received).2) !! "sdf")) = true) by (vm_compute; reflexivity).
       apply bool_decide_eq_true in Hs. rewrite E in Hs. by destruct Hs. }
  assert (Hw : waiting (job_config to_received).2 "sdf" = [mkWorkItem [Byte.x01] [5%Z]]) by (vm_compute; reflexivity).
  destruct (work_items_accounted (H0:=debug_profile) by_elements demo_to_vec demo_from_slice 2 job_graph ∅ (mkClock 0 I64_MIN) ∅
    (job_config to_received).1 (job_config to_received).2 "sdf" s job_ids) as (Hq & _ & _ & Hh).
  - apply job_config_reaches. vm_compute. reflexivity.
  - exact E.
  - exists s. split; [reflexivity|]. split; [exact Hw|]. split; [exact Hq|]. intros s' E'.
    apply (Hh (mkWorkItem [Byte.x01] [5%Z]) 5%Z s'); [|simpl; by left|exact E'].
    unfold outstanding. apply elem_of_app. left. change (q_items (queue_of ?d ?i)) with (waiting d i). rewrite Hw. by left.
Defined.

(** C32: a run that returns has nothing left to do: the graph is complete, no bundle runs,
    no work item waits or is in the channel, no hold is left and no timer is due that a bundle
    did not get.  It returned with a step of the loop, and whatever the clock read in that step
    no timer of the store is due by it: no event-time timer has been reached by the input
    watermark of its stage, no processing-time timer by the time that was read; and under the
    wall clock no processing-time timer is left, provided that the sleep lasted until the first
    one was due. *)
Theorem dispatcher_returns_complete {Store : Type} `{KvLaws Store} `{Profile} iteration_order to_vec from_slice
    concurrency g timers T0 clock mins (d : Dispatcher (Store:=Store)) :
  (∀ X, iteration_order X ≡ₚ elements X) → (∀ e bs, to_vec e = Ok bs → from_slice bs = Ok e) →
  NoDup (node_id <$> g_nodes g) → stores to_vec timers T0 →
  let c0 := Running AtTop (initial_state concurrency g timers clock mins) in
  reaches iteration_order to_vec from_slice c0 (Running Returned d) →
  scheduler_is_complete (d_scheduler d) = true ∧ d_in_flight d = [] ∧ d_immediate_sdf d = []
  ∧ (∀ id, outstanding d id = []) ∧ d_residual_holds d = ∅ ∧ d_pending_timers d = ∅
  ∧ (∃ c phase d0, last_step iteration_order to_vec from_slice c0 c phase d0 d)
  ∧ ∀ c phase d0, last_step iteration_order to_vec from_slice c0 c phase d0 d →
      ∃ T, stores to_vec (d_timers d) T ∧ nothing_due (readings c) d T.
Proof.
  intros Ho Hserde Hids Hs c0 R. destruct (reaches_invariant iteration_order to_vec from_slice concurrency g Hids _ _ _ _ _ R)
    as [Ha [Hc Hf] Hsent].
  destruct (reaches_stores iteration_order Ho to_vec from_slice Hserde concurrency g Hids timers T0 clock mins Returned d Hs R) as [_ Hlast].
  destruct (complete_books concurrency g d Ha Hc Hf) as (Hw & Hh & Hp).
  split_and!; [done..| |exact Hw|exact Hh|exact Hp|by apply Hlast|].
  - destruct (d_immediate_sdf d) as [|p l] eqn:Ei; [done|]. destruct (Hsent p) as (t & Ht & _); [rewrite Ei; by left|].
    rewrite Hf in Ht. by apply elem_of_nil in Ht.
  - intros c phase d0. by apply (last_step_nothing_due iteration_order Ho to_vec from_slice Hserde concurrency g Hids timers T0 clock mins).
Qed.

(** The run that returns, up to its last step. *)
Definition before_returning : list Event := take (length to_returned - 1) to_returned.

Lemma dispatcher_returns_complete_witness :
  (job_config to_returned).1 = Returned ∧ d_pending_timers (job_config to_returned).2 = ∅
  ∧ outstanding (job_config to_returned).2 "sdf" = []
  ∧ ∃ T, stores demo_to_vec (d_timers (job_config to_returned).2) T ∧ nothing_due (Pr:=debug_profile) (mkReadings 0 0 0) (job_config to_returned).2 T.
Proof.
  assert (E : (job_config to_returned).1 = Returned) by (vm_compute; reflexivity). split; [exact E|].
  destruct (dispatcher_returns_complete (H1:=debug_profile) by_elements demo_to_vec demo_from_slice 2 job_graph ∅ ∅ (mkClock 0 I64_MIN) ∅
    (job_config to_returned).2 by_elements_perm demo_serde job_ids) as (_ & _ & _ & Ho & _ & Hp & _ & Hlast).
  - intros k. rewrite lookup_empty. reflexivity.
  - rewrite <- E. apply job_config_reaches. vm_compute. reflexivity.
  - split; [exact Hp|]. split; [apply Ho|].
    apply (Hlast (Tick (mkReadings 0 0 0)) (job_config before_returning).1 (job_config before_returning).2). split; [|split].
    + vm_compute. discriminate.
    + apply job_config_reaches. vm_compute. reflexivity.
    + vm_compute. reflexivity.
Defined.

(** C33: the loop does not go round for ever without a bundle: from its top, whatever the
    clock reads in each round, within three steps for every source report, timer and
    unresolved empty input (and three more) it waits for a bundle it started, returns, or
    fails. *)
Theorem idle_rounds_end {Store : Type} `{KvLaws Store} `{Profile} iteration_order to_vec from_slice
    concurrency g timers clock mins (d : Dispatcher (Store:=Store)) T cs :
  (∀ X, iteration_order X ≡ₚ elements X) → (∀ e bs, to_vec e = Ok bs → from_slice bs = Ok e) →
  NoDup (node_id <$> g_nodes g) →
  let c0 := Running AtTop (initial_state concurrency g timers clock mins) in
  reaches iteration_order to_vec from_slice c0 (Running AtTop d) → d_in_flight d = [] →
  stores to_vec (d_timers d) T → (3 * cost d T + 2 < length cs)%nat →
  match run_idle iteration_order to_vec from_slice cs AtTop d with
  | (d', Ok phase') => waits phase' d' ∧ reaches iteration_order to_vec from_slice c0 (Running phase' d')
  | (d', Err e) => reaches iteration_order to_vec from_slice c0 (Failed (Err e) d')
  | (d', Panic w) => reaches iteration_order to_vec from_slice c0 (Failed (Panic w) d')
  end.
Proof.
  intros Ho Hserde Hids c0 R Hf Hs Hl.
  pose proof (run_idle_reaches iteration_order to_vec from_slice cs AtTop d c0 R) as Hr.
  destruct (run_idle _ _ _ cs AtTop d) as [d' [phase'| |]] eqn:E; [|exact Hr..]. split; [|exact Hr].
  eapply (run_idle_ends iteration_order Ho to_vec from_slice Hserde concurrency g Hids); [|exact E]. left.
  split; [by eapply reaches_invariant|]. split; [done|]. exists T. split; [done|]. split; [done|]. exact Hl.
Qed.

Lemma idle_rounds_end_witness :
  waits AtSelect (run_idle (Pr:=debug_profile) by_elements demo_to_vec demo_from_slice
    (replicate 3 (Tick (mkReadings 0 0 0))) AtTop (job_start ∅)).1.
Proof.
  pose proof (idle_rounds_end (H1:=debug_profile) by_elements demo_to_vec demo_from_slice 2 job_graph ∅ (mkClock 0 I64_MIN) ∅
    (job_start ∅) ∅ (replicate 3 (Tick (mkReadings 0 0 0))) by_elements_perm demo_serde job_ids) as Hend.
  assert (E : (run_idle (Pr:=debug_profile) by_elements demo_to_vec demo_from_slice
    (replicate 3 (Tick (mkReadings 0 0 0))) AtTop (job_start ∅)).2 = Ok AtSelect) by (vm_compute; reflexivity).
  destruct (run_idle _ _ _ _ _ _) as [d' r]. cbn [fst snd] in *. subst r. apply Hend.
  - constructor.
  - reflexivity.
  - intros k. rewrite lookup_empty. reflexivity.
  - vm_compute. lia.
Defined.

(** C34: due timers reach their stage once: a promotion takes exactly the event-time timers
    that the input watermark of their stage has reached out of the store, a firing exactly
    the processing-time timers that the clock has reached; what leaves the store is
    appended, each timer once, to the pending timers of the stage that owns it, firings
    in the order of their times. *)
Theorem due_timers_delivered {Store : Type} `{KvLaws Store} `{Profile} iteration_order to_vec from_slice
    (d : Dispatcher (Store:=Store)) T :
  (∀ X, iteration_order X ≡ₚ elements X) → (∀ e bs, to_vec e = Ok bs → from_slice bs = Ok e) →
  stores to_vec (d_timers d) T →
  (∀ d' n, promote_due_event_time_timers iteration_order to_vec from_slice d = (d', Ok n) →
     stores to_vec (d_timers d') (filter (λ p, ¬ (te_domain p.2 = EventTime ∧ is_Some (event_route d p.2))) T)
     ∧ ∀ st, ∃ l, l ≡ₚ routed (event_route d) st (event_timers T)
         ∧ default [] (d_pending_timers d' !! st) = default [] (d_pending_timers d !! st) ++ l)
  ∧ (∀ elapsed d' n, fire_due_processing_time iteration_order to_vec from_slice elapsed d = (d', Ok n) →
     ∃ time, now elapsed (d_clock d) = Ok time ∧ stores to_vec (d_timers d') (not_due time T)
     ∧ ∀ st, ∃ l, l ≡ₚ routed (route_timer (d_scheduler d)) st (List.filter (is_due_at_clock time) (timers_of T))
         ∧ StronglySorted (λ a b, fire_timestamp a ≤ fire_timestamp b)%Z l
         ∧ default [] (d_pending_timers d' !! st) = default [] (d_pending_timers d !! st) ++ l).
Proof.
  intros Ho Hserde Hs. split.
  - intros d' n E. destruct (promote_effect iteration_order Ho to_vec from_slice Hserde d d' n T Hs E) as (es & Hes & Hs' & Hp & _).
    split; [done|]. intros st. exists (routed (event_route d) st es). split; [|apply Hp]. unfold routed. by rewrite Hes.
  - intros elapsed d' n E. destruct (fire_effect iteration_order Ho to_vec from_slice Hserde elapsed d d' n T Hs E)
      as (time & due & s & gs & Ht & Hdue & Hsort & _ & Hs' & Hp & _).
    exists time. split; [done|]. split; [done|]. intros st. exists (routed (route_timer (d_scheduler d)) st due).
    split; [|split; [|apply Hp]]; unfold routed; [by rewrite Hdue|].
    clear -Hsort. induction Hsort as [|e l _ IH Hle]; [constructor|]. rewrite filter_cons. case_decide; [|done].
    constructor; [done|]. rewrite Forall_forall in Hle |- *. intros x Hx. apply Hle. by apply list_elem_of_filter in Hx as [_ ?].
Qed.

(** A job of one worker stage, whose transform owns the timers. *)
Definition timer_start : JobState :=
  initial_state 1 (mkGraph [Worker (mkWorker "map" ["t"] [] ["q"] false)] [] (mkComponents ∅ ∅)) demo_timers (mkClock 0 I64_MIN) ∅.

Lemma due_timers_delivered_witness :
  ∃ d', fire_due_processing_time (P:=debug_profile) by_elements demo_to_vec demo_from_slice 7 timer_start = (d', Ok 1)
  ∧ d_pending_timers d' = {[ "map" := [timer_at_5] ]} ∧ stores demo_to_vec (d_timers d') (not_due 7 demo_timer_map).
Proof.
  run_call (fire_due_processing_time (P:=debug_profile) by_elements demo_to_vec demo_from_slice 7 timer_start) (@Ok string nat 1) d' E.
  exists d'. split; [reflexivity|].
  destruct (due_timers_delivered (H1:=debug_profile) by_elements demo_to_vec demo_from_slice timer_start demo_timer_map
    by_elements_perm demo_serde demo_stores) as [_ Hf].
  destruct (Hf 7%Z d' 1 E) as (time & Ht & Hs & _). split.
  - replace d' with (fire_due_processing_time (P:=debug_profile) by_elements demo_to_vec demo_from_slice 7 timer_start).1
      by (rewrite E; reflexivity). vm_compute. reflexivity.
  - assert (En : now (P:=debug_profile) 7 (d_clock timer_start) = Ok 7%Z) by (vm_compute; reflexivity).
    rewrite En in Ht. injection Ht as <-. exact Hs.
Defined.

(** C35: a splittable bundle that ended is joined without losing work: its residuals, then
    the residuals that were sent while bundles ran, are queued in order behind what their
    stages had waiting, the channel is empty, and the task is gone. *)
Theorem residuals_queued {Store : Type} `{KvStore Store} `{Profile} iteration_order to_vec from_slice
    concurrency g timers clock mins (d : Dispatcher (Store:=Store)) k t o :
  NoDup (node_id <$> g_nodes g) →
  reaches iteration_order to_vec from_slice (Running AtTop (initial_state concurrency g timers clock mins)) (Running AtSelect d) →
  d_in_flight d !! k = Some t → t_end t = Some (SdfEnd (Ok o)) →
  ∃ d' m, next_phase iteration_order to_vec from_slice (Join k) AtSelect d = (d', Ok (Completing (t_index t) m None))
  ∧ (∀ id, waiting d' id = waiting d id ++ (if decide (id = t_stage t) then items o else []) ++ sent_for id (d_immediate_sdf d))
  ∧ d_immediate_sdf d' = [] ∧ d_in_flight d' = delete k (d_in_flight d).
Proof.
  intros Hids R Ek Ee. apply (join_sdf iteration_order to_vec from_slice concurrency g); [|done..]. by eapply reaches_invariant.
Qed.

(** The first bundle of the splittable stage sent a residual and ended with another. *)
Definition to_ended : list Event :=
  to_select ++ [EndPlain 0] ++ joined_back 0 ++ to_select ++ [SendItem 0 (mkWorkItem [Byte.x01] [5%Z]); EndSdf 0 true].

Lemma residuals_queued_witness :
  ∃ d', (job_step (Join 0) AtSelect (job_config to_ended).2).1 = d' ∧ d_immediate_sdf d' = []
    ∧ waiting d' "sdf" = [job_residual; mkWorkItem [Byte.x01] [5%Z]].
Proof.
  assert (E : (job_config to_ended).1 = AtSelect) by (vm_compute; reflexivity).
  destruct (d_in_flight (job_config to_ended).2 !! 0) as [t|] eqn:Ek.
  2: { exfalso. assert (Hs : bool_decide (is_Some (d_in_flight (job_config to_ended).2 !! 0)) = true) by (vm_compute; reflexivity).
       apply bool_decide_eq_true in Hs. rewrite Ek in Hs. by destruct Hs. }
  assert (Ht : (fun t => (t_end t, t_stage t)) <$> d_in_flight (job_config to_ended).2 !! 0
    = Some (Some (SdfEnd (Ok (mkOutcome true true [] [job_residual] 100000000))), "sdf")) by (vm_compute; reflexivity).
  rewrite Ek in Ht. injection Ht as Ee Est.
  destruct (residuals_queued (H0:=debug_profile) by_elements demo_to_vec demo_from_slice 2 job_graph ∅ (mkClock 0 I64_MIN) ∅
    (job_config to_ended).2 0 t (mkOutcome true true [] [job_residual] 100000000) job_ids) as (d' & m & E' & Hw & Hi & _).
  - rewrite <- E. apply job_config_reaches. vm_compute. reflexivity.
  - exact Ek.
  - exact Ee.
  - exists d'. split; [unfold job_step; rewrite E'; reflexivity|]. split; [exact Hi|]. rewrite Hw, Est. vm_compute. reflexivity.
Defined.
