(* ===== verification/ElementStore.v ===== *)
(** The element store (store/element_store.rs): PCollections as append-only Paimon tables,
    their schemas, the minimum event time of what was committed, the durable cursors of
    their readers, whole and incremental scans, the streaming read, and the writer that
    commits the output of a bundle at once.  The Paimon catalog is a class of operations
    with laws over the log of a table; the cursors are kept by the key/value store.  The
    locks that serialise the writers of a table make each commit one step. *)
From stdpp Require Import pretty.
From Stdlib Require Import Ascii String.
From S2P Require Import Prelude Bytes Varint Windows Coders Watermark Arrow RecordTables WindowColumns Kv.
From S2P Require Dispatcher.
Local Open Scope string_scope.
Local Open Scope list_scope.

(** * Names and configuration *)

(** [sanitize_pcollection_id]: each of a slash, a dot, a space and the parentheses becomes
    an underscore. *)
Definition sanitize_char (c : ascii) : ascii :=
  if decide (c ∈ ["/"; "."; " "; "("; ")"]%char) then "_"%char else c.
Fixpoint sanitize_pcollection_id (id : string) : string :=
  match id with
  | EmptyString => EmptyString
  | String c id => String (sanitize_char c) (sanitize_pcollection_id id)
  end.

(** [Identifier::new] of the database and the table name. *)
Record Identifier : Type := mkIdentifier { database : string; object : string }.

#[export] Instance Identifier_eq_dec : EqDecision Identifier.
Proof. solve_decision. Defined.
#[export] Program Instance Identifier_countable : Countable Identifier :=
  inj_countable' (λ i, (database i, object i)) (λ p, mkIdentifier p.1 p.2) _.
Next Obligation. by intros []. Qed.

Definition DEFAULT_PCOLLECTION_BUCKET_COUNT : Z := 32.

Definition parse_pcollection_bucket_count (value : option string) : outcome string Z :=
  match value with
  | None => Ok DEFAULT_PCOLLECTION_BUCKET_COUNT
  | Some value =>
      count ← of_option (parse_i32 value) "must be an integer";
      if (count =? 1)%Z || ((2 <=? count)%Z && (count <=? 1024)%Z) then Ok count
      else Err "must be 1 (disabled) or between 2 and 1024"
  end.

(** * Cursor values *)

Definition encode_snapshot (snapshot_id : Z) : bytes := be_bytes 8 (to_unsigned 64 snapshot_id).
Definition decode_snapshot (bs : bytes) : outcome string Z :=
  if decide (length bs = 8) then Ok (to_signed 64 (be_value bs)) else Err "invalid cursor value length".

Definition cursor_separator : string := String (ascii_of_nat 1) EmptyString.
Definition cursor_key (reader_id pcollection_id : string) : string := reader_id +:+ cursor_separator +:+ pcollection_id.

(** * The catalog *)

Inductive CatalogError : Type := TableNotExist | CatalogFailure (message : string).

(** The predicates of a scan. *)
Inductive Predicate : Type :=
| GreaterThan (column : string) (bound : Z)
| IsNull (column : string)
| Or (predicates : list Predicate).

(** A read builder: a projection and a filter. *)
Record ReadBuilder : Type := mkReadBuilder { projection : option (list string); filter : option Predicate }.

Definition read_all : ReadBuilder := mkReadBuilder None None.

(** The Paimon operations the store calls.  A stream of batches is the list of what it
    yields. *)
Class Warehouse (W PaimonSchema : Type) : Type := {
  Table : Type;
  TableWrite : Type;
  Messages : Type;
  Plan : Type;
  Split : Type;
  paimon : Paimon PaimonSchema;
  get_catalog_table : W → Identifier → outcome CatalogError Table;
  create_table : W → Identifier → PaimonSchema → W * outcome CatalogError ();
  table_option : Table → string → option string;
  bucket_keys : Table → list string;
  new_write : Table → outcome string TableWrite;
  write_arrow_batch : TableWrite → RecordBatch → outcome string TableWrite;
  prepare_commit : TableWrite → outcome string Messages;
  commit : W → Table → Messages → W * outcome string ();
  get_latest_snapshot_id : W → Table → outcome string (option Z);
  earliest_snapshot_id : W → Table → outcome string (option Z);
  check_projection : Table → list string → outcome string ();
  greater_than : Table → string → Z → outcome string Predicate;
  is_null_column : Table → string → outcome string Predicate;
  plan_scan : W → Table → ReadBuilder → outcome string Plan;
  plan_incremental : W → Table → ReadBuilder → Z → Z → outcome string Plan;
  read_plan : W → Plan → outcome string (list (outcome string RecordBatch));
  plan_splits : Plan → list Split;
  bucket_of : Split → Z;
  read_splits : W → list Split → outcome string (list (outcome string RecordBatch));
}.

Section store.
Context {W PaimonSchema D : Type} `{Arrow} `{P : Profile} `{Warehouse W PaimonSchema} `{KvStore D}.
#[local] Existing Instance paimon.

(** [FlareElementStore], with the world its catalog and its cursor store are in.  The locks
    are not part of the model. *)
Record FlareElementStore : Type := mkStore {
  registry : gmap string RecordTableSchema;
  catalog : W;
  db_name : string;
  cursors : gmap string Z;
  cursor_store : D;
  commit_min_ts : gmap string Z;
  pcollection_bucket_count : Z;
}.

Definition set_registry (f : gmap string RecordTableSchema → gmap string RecordTableSchema) (s : FlareElementStore) :=
  mkStore (f (registry s)) (catalog s) (db_name s) (cursors s) (cursor_store s) (commit_min_ts s) (pcollection_bucket_count s).
Definition set_catalog (c : W) (s : FlareElementStore) :=
  mkStore (registry s) c (db_name s) (cursors s) (cursor_store s) (commit_min_ts s) (pcollection_bucket_count s).
Definition set_cursors (c : gmap string Z) (s : FlareElementStore) :=
  mkStore (registry s) (catalog s) (db_name s) c (cursor_store s) (commit_min_ts s) (pcollection_bucket_count s).
Definition set_cursor_store (d : D) (s : FlareElementStore) :=
  mkStore (registry s) (catalog s) (db_name s) (cursors s) d (commit_min_ts s) (pcollection_bucket_count s).
Definition set_commit_min_ts (m : gmap string Z) (s : FlareElementStore) :=
  mkStore (registry s) (catalog s) (db_name s) (cursors s) (cursor_store s) m (pcollection_bucket_count s).

Abbreviation store := (st FlareElementStore).

Definition modify (f : FlareElementStore → FlareElementStore) : store () := λ s, (f s, Ok ()).
Definition on_catalog {E A} (message : E → string) (f : W → W * outcome E A) : store A := λ s,
  let '(c, r) := f (catalog s) in (set_catalog c s, map_err message r).
Definition failure (e : CatalogError) : string := match e with TableNotExist => "table does not exist" | CatalogFailure m => m end.

(** [FlareElementStore::new] over a catalog and a cursor store. *)
Definition new_store (c : W) (db : string) (d : D) (bucket_count : option string) : outcome string FlareElementStore :=
  count ← parse_pcollection_bucket_count bucket_count;
  Ok (mkStore ∅ c db ∅ d ∅ count).

(** * The schema registry *)

Definition register_if_absent (pcollection_id : string) (schema : RecordTableSchema) : store () :=
  modify (set_registry (λ m, match m !! pcollection_id with Some _ => m | None => <[pcollection_id := schema]> m end)).
Definition register (pcollection_id : string) (schema : RecordTableSchema) : store () :=
  modify (set_registry (λ m, <[pcollection_id := schema]> m)).
Definition clear_registry : store () := modify (set_registry (λ _, ∅)).

(** * Tables *)

Definition table_identifier (db pcollection_id : string) : Identifier := mkIdentifier db (sanitize_pcollection_id pcollection_id).

Definition resolve_existing_table (identifier : Identifier) : store (option Table) :=
  st_read (λ s, match get_catalog_table (catalog s) identifier with
    | Ok table => Ok (Some table)
    | Err TableNotExist => Ok None
    | Err e => Err (failure e)
    | Panic w => Panic w
    end).

Definition catalog_table (identifier : Identifier) : store Table :=
  st_read (λ s, map_err failure (get_catalog_table (catalog s) identifier)).

Definition get_existing_table (pcollection_id : string) : store (option Table) :=
  db ← st_read (λ s, Ok (db_name s)); resolve_existing_table (table_identifier db pcollection_id).

Definition is_keyed (t : TableType) : bool := match t with TKv | TGbk => true | _ => false end.

Definition arrow_schema_to_paimon (schema : Schema) : outcome string PaimonSchema :=
  fields ← arrow_fields_to_paimon schema; build_schema (schema_columns fields) [].

Definition pcollection_schema_to_paimon (table_schema : RecordTableSchema) (bucket_count : Z) : outcome string PaimonSchema :=
  fields ← arrow_fields_to_paimon (arrow_schema table_schema);
  build_schema (schema_columns fields)
    (if (1 <? bucket_count)%Z && is_keyed (table_type table_schema)
     then [("bucket", pretty bucket_count); ("bucket-key", KEY_COLUMN); ("bucket-function.type", "default")] else []).

Definition validate_pcollection_table_layout (bucket_count : Z) (table : Table) (table_schema : RecordTableSchema) : outcome string () :=
  if negb (is_keyed (table_type table_schema)) then Ok ()
  else
    let actual_buckets := default (-1)%Z (table_option table "bucket" ≫= parse_i32) in
    let actual_function := default "default" (table_option table "bucket-function.type") in
    let layout_matches :=
      if (bucket_count <=? 1)%Z then (actual_buckets <=? 1)%Z && bool_decide (table_option table "bucket-key" = None)
      else (actual_buckets =? bucket_count)%Z && bool_decide (bucket_keys table = [KEY_COLUMN]) &&
           bool_decide (actual_function = "default") in
    if layout_matches then Ok () else Err "PCollection table has immutable bucket layout".

Definition get_table (pcollection_id : string) (table_schema : RecordTableSchema) : store Table :=
  db ← st_read (λ s, Ok (db_name s));
  buckets ← st_read (λ s, Ok (pcollection_bucket_count s));
  let identifier := table_identifier db pcollection_id in
  existing ← resolve_existing_table identifier;
  match existing with
  | Some table => st_lift (validate_pcollection_table_layout buckets table table_schema);; mret table
  | None =>
      paimon_schema ← st_lift (pcollection_schema_to_paimon table_schema buckets);
      on_catalog failure (λ c, create_table c identifier paimon_schema);;
      table ← catalog_table identifier;
      st_lift (validate_pcollection_table_layout buckets table table_schema);; mret table
  end.

Definition get_or_create_table (table_name : string) (schema : PaimonSchema) : store Table :=
  db ← st_read (λ s, Ok (db_name s));
  let identifier := mkIdentifier db table_name in
  existing ← resolve_existing_table identifier;
  match existing with
  | Some table => mret table
  | None => on_catalog failure (λ c, create_table c identifier schema);; catalog_table identifier
  end.

(** * Commits *)

Definition commit_writer (table : Table) (writer : TableWrite) : store () :=
  messages ← st_lift (prepare_commit writer);
  on_catalog id (λ c, commit c table messages).

Definition write_table_batch (table : Table) (batch : RecordBatch) : store () :=
  writer ← st_lift (new_write table);
  writer ← st_lift (write_arrow_batch writer batch);
  commit_writer table writer.

Definition ingest_batch (pcollection_id : string) (table_schema : RecordTableSchema) (batch : RecordBatch) : store () :=
  table ← get_table pcollection_id table_schema;
  batch ← st_lift (materialize_void_columns batch);
  write_table_batch table batch.

Definition record_commit_min_ts (pcollection_id : string) (timestamp : Z) : store () :=
  modify (λ s, set_commit_min_ts (Dispatcher.record_commit_min_ts (commit_min_ts s) pcollection_id timestamp) s).

(** The minimum of [iter().min()]. *)
Definition min_event_time (timestamps : list Z) : option Z :=
  match timestamps with [] => None | t :: ts => Some (foldl Z.min t ts) end.

Definition record_min (pcollection_id : string) (timestamps : list Z) : store () :=
  match min_event_time timestamps with Some t => record_commit_min_ts pcollection_id t | None => mret () end.

Definition write_beamrecord_batch (pcollection_id : string) (elements : list BeamRecord) : store () :=
  logical_schema ← st_lift (derive_table_schema elements);
  batch ← st_lift (beamrecords_to_record_batch elements logical_schema);
  batch ← st_lift (materialize_void_columns batch);
  let table_schema := mkTableSchema (table_type logical_schema) (rb_schema batch) false in
  register_if_absent pcollection_id table_schema;;
  ingest_batch pcollection_id table_schema batch;;
  record_commit_min_ts pcollection_id MIN_TIMESTAMP.

Definition build_windowed_batch (pcollection_id : string) (values : list WindowedValue) : store (RecordBatch * RecordTableSchema) :=
  let records := wv_value <$> values in
  base_schema ← st_lift (derive_table_schema records);
  base_batch ← st_lift (beamrecords_to_record_batch records base_schema);
  batch ← st_lift (append_window_metadata base_batch (metadata_of <$> values));
  batch ← st_lift (materialize_void_columns batch);
  let schema := mkTableSchema (table_type base_schema) (rb_schema batch) true in
  register_if_absent pcollection_id schema;;
  mret (batch, schema).

Definition write_windowed_value_batch (pcollection_id : string) (values : list WindowedValue) : store () :=
  match values with
  | [] => mret ()
  | _ =>
      '(batch, schema) ← build_windowed_batch pcollection_id values;
      ingest_batch pcollection_id schema batch;;
      record_min pcollection_id (wv_timestamp_millis <$> values)
  end.

Definition write_record_batch_with_windowed_metadata (pcollection_id : string) (batch : RecordBatch)
    (table_schema : RecordTableSchema) (metadata : list WindowedValue) : store () :=
  if negb (bool_decide (num_rows batch = length metadata)) then
    st_lift (Err "WindowedValue metadata count does not match output row count")
  else
    let metadata := metadata_of <$> metadata in
    batch ← st_lift (if has_typed_window_metadata (rb_schema batch) then Ok batch else append_window_metadata batch metadata);
    batch ← st_lift (materialize_void_columns batch);
    let schema := mkTableSchema (table_type table_schema) (rb_schema batch) true in
    register_if_absent pcollection_id schema;;
    ingest_batch pcollection_id schema batch;;
    record_min pcollection_id (timestamp_millis <$> metadata).

Definition write_record_batch (pcollection_id : string) (batch : RecordBatch) (table_schema : RecordTableSchema) : store () :=
  register_if_absent pcollection_id table_schema;;
  ingest_batch pcollection_id table_schema batch.

Definition write_row_batch (pcollection_id : string) (batch : RecordBatch) : store () :=
  write_record_batch pcollection_id batch (row_table_schema (rb_schema batch)).

Definition take_commit_min_timestamp (pcollection_id : string) : store (option Z) := λ s,
  let '(m, t) := Dispatcher.take_commit_min_timestamp (commit_min_ts s) pcollection_id in (set_commit_min_ts m s, Ok t).
End store.

Local Open Scope string_scope.
Local Open Scope list_scope.

Section reads.
Context {W PaimonSchema D : Type} `{Arrow} `{P : Profile} `{Warehouse W PaimonSchema} `{KvStore D}.
#[local] Existing Instance paimon.
Abbreviation FlareElementStore := (@FlareElementStore W D).
Abbreviation store := (st FlareElementStore).

(** * Cursors *)

Definition cursor (reader_id pcollection_id : string) : store (option Z) :=
  let key := cursor_key reader_id pcollection_id in
  cached ← st_read (λ s, Ok (cursors s !! key));
  match cached with
  | Some snapshot_id => mret (Some snapshot_id)
  | None =>
      value ← st_read (λ s, kv_get (cursor_store s) (as_bytes key));
      match value with
      | Some bs =>
          snapshot_id ← st_lift (decode_snapshot bs);
          modify (λ s, set_cursors (<[key := snapshot_id]> (cursors s)) s);;
          mret (Some snapshot_id)
      | None => mret None
      end
  end.

Definition set_cursor (reader_id pcollection_id : string) (snapshot_id : Z) : store () :=
  let key := cursor_key reader_id pcollection_id in
  (λ s, let '(d, r) := kv_apply (cursor_store s) [(as_bytes key, Some (encode_snapshot snapshot_id))] in (set_cursor_store d s, r));;
  modify (λ s, set_cursors (<[key := snapshot_id]> (cursors s)) s).

Definition latest_snapshot_id (pcollection_id : string) : store (option Z) :=
  table ← get_existing_table pcollection_id;
  match table with
  | Some table => st_read (λ s, get_latest_snapshot_id (catalog s) table)
  | None => mret None
  end.

(** * Incremental reads *)

(** The snapshots of a read: after the cursor, or after the last one that is no longer
    kept, up to the latest. *)
Definition range_start (cursor : option Z) (earliest : Z) : Z :=
  let floor := (earliest - 1)%Z in match cursor with Some c => Z.max c floor | None => floor end.

Inductive Range : Type :=
| NoTable                            (** the cursor stays *)
| UpToDate (latest : Z)              (** nothing to read *)
| Snapshots (table : Table) (start latest : Z).

Definition snapshot_range (pcollection_id : string) (cursor : option Z) : store Range :=
  table ← get_existing_table pcollection_id;
  match table with
  | None => mret NoTable
  | Some table =>
      latest ← st_read (λ s, get_latest_snapshot_id (catalog s) table);
      match latest with
      | None => mret NoTable
      | Some latest =>
          earliest ← st_read (λ s, earliest_snapshot_id (catalog s) table);
          let start := range_start cursor (default latest earliest) in
          mret (if (latest <=? start)%Z then UpToDate latest else Snapshots table start latest)
      end
  end.

(** The read builder with the projection and the pruning of finite windows. *)
Definition read_builder (table : Table) (columns : option (list string)) (window_prune_before : option Z) : outcome string ReadBuilder :=
  _ ← (match columns with Some columns => check_projection table columns | None => Ok () end);
  match window_prune_before with
  | Some cutoff =>
      finite_after ← greater_than table WINDOW_MAX_END_COLUMN cutoff;
      unknown_end ← is_null_column table WINDOW_MAX_END_COLUMN;
      Ok (mkReadBuilder columns (Some (Or [finite_after; unknown_end])))
  | None => Ok (mkReadBuilder columns None)
  end.

Definition open_incremental_arrow_planned (pcollection_id : string) (cursor : option Z) (columns : option (list string))
    (window_prune_before : option Z) : store (option (list (outcome string RecordBatch)) * option Z) :=
  range ← snapshot_range pcollection_id cursor;
  match range with
  | NoTable => mret (None, cursor)
  | UpToDate latest => mret (None, Some latest)
  | Snapshots table start latest =>
      builder ← st_lift (read_builder table columns window_prune_before);
      plan ← st_read (λ s, plan_incremental (catalog s) table builder start latest);
      stream ← st_read (λ s, read_plan (catalog s) plan);
      mret (Some stream, Some latest)
  end.
Definition open_incremental_arrow (pcollection_id : string) (cursor : option Z) :=
  open_incremental_arrow_planned pcollection_id cursor None None.

Definition collect_stream (stream : option (list (outcome string RecordBatch))) : outcome string (list RecordBatch) :=
  match stream with Some stream => traverse id stream | None => Ok [] end.

Definition read_incremental_batches_projected (pcollection_id : string) (cursor : option Z) (columns : option (list string)) :
    store (list RecordBatch * option Z) :=
  '(stream, latest) ← open_incremental_arrow_planned pcollection_id cursor columns None;
  batches ← st_lift (collect_stream stream);
  mret (batches, latest).
Definition read_incremental_batches (pcollection_id : string) (cursor : option Z) :=
  read_incremental_batches_projected pcollection_id cursor None.

(** The rows of one batch that pruning would drop. *)
Definition pruned_rows (window_prune_before : Z) (batch : RecordBatch) : outcome string nat :=
  column ← of_option (column_by_name WINDOW_MAX_END_COLUMN batch) "pruning metadata column is missing";
  match column with
  | IntArray Int64 ends =>
      Ok (length (base.filter (λ end_millis, (end_millis ≤ window_prune_before)%Z) (omap id ends)))
  | _ => Err "pruning metadata column is not Int64"
  end.
Definition count_incremental_arrow_pruned_before (pcollection_id : string) (cursor : option Z) (window_prune_before : Z) : store nat :=
  '(batches, _) ← read_incremental_batches_projected pcollection_id cursor (Some [WINDOW_MAX_END_COLUMN]);
  counts ← st_lift (traverse (pruned_rows window_prune_before) batches);
  mret (sum_list counts).

(** The splits of a plan by bucket, in the order of the buckets. *)
Definition splits_by_bucket (splits : list Split) : list (Z * list Split) :=
  (λ bucket, (bucket, base.filter (λ split, bucket_of split = bucket) splits)) <$>
    merge_sort Z.le (remove_dups (bucket_of <$> splits)).

Definition open_incremental_arrow_by_bucket (pcollection_id : string) (cursor : option Z) (columns : option (list string))
    (window_prune_before : option Z) : store (list (Z * list (outcome string RecordBatch)) * option Z) :=
  range ← snapshot_range pcollection_id cursor;
  match range with
  | NoTable => mret ([], cursor)
  | UpToDate latest => mret ([], Some latest)
  | Snapshots table start latest =>
      builder ← st_lift (read_builder table columns window_prune_before);
      plan ← st_read (λ s, plan_incremental (catalog s) table builder start latest);
      streams ← st_read (λ s, traverse (λ '(bucket, splits),
        stream ← read_splits (catalog s) splits; Ok (bucket, stream)) (splits_by_bucket (plan_splits plan)));
      mret (streams, Some latest)
  end.

(** * Scans *)

(** The rows appended since a reader's last read; the cursor moves once they are decoded. *)
Definition scan_since {A} (decode : RecordBatch → RecordTableSchema → outcome string (list A)) (reader_id pcollection_id : string) :
    store (list A) :=
  schema ← st_read (λ s, Ok (registry s !! pcollection_id));
  match schema with
  | None => mret []
  | Some table_schema =>
      position ← cursor reader_id pcollection_id;
      '(batches, latest) ← read_incremental_batches pcollection_id position;
      values ← st_lift (traverse (λ batch, decode batch table_schema) batches);
      (match latest with Some latest => set_cursor reader_id pcollection_id latest | None => mret () end);;
      mret (concat values)
  end.
Definition scan_windowed_values_since : string → string → store (list WindowedValue) := scan_since windowed_values_from_batch.
Definition scan_collection_since : string → string → store (list BeamRecord) := scan_since record_batch_to_beamrecords.

Definition open_table (table : Table) : store (list (outcome string RecordBatch)) :=
  plan ← st_read (λ s, plan_scan (catalog s) table read_all);
  st_read (λ s, read_plan (catalog s) plan).

Definition read_table_batches (table_name : string) : store (list RecordBatch) :=
  db ← st_read (λ s, Ok (db_name s));
  table ← resolve_existing_table (mkIdentifier db table_name);
  match table with
  | Some table => stream ← open_table table; st_lift (traverse id stream)
  | None => mret []
  end.

(** The rows of the whole table; each batch is decoded as it comes. *)
Definition scan_all {A} (decode : RecordBatch → RecordTableSchema → outcome string (list A)) (pcollection_id : string) : store (list A) :=
  schema ← st_read (λ s, Ok (registry s !! pcollection_id));
  match schema with
  | None => mret []
  | Some table_schema =>
      table ← get_existing_table pcollection_id;
      match table with
      | None => mret []
      | Some table =>
          stream ← open_table table;
          values ← st_lift (traverse (λ next, batch ← next; decode batch table_schema) stream);
          mret (concat values)
      end
  end.
Definition scan_windowed_values : string → store (list WindowedValue) := scan_all windowed_values_from_batch.
Definition scan_collection : string → store (list BeamRecord) := scan_all record_batch_to_beamrecords.

(** * The streaming read *)

(** A stream whose read failed is not used again, and neither is a writer whose write
    failed: their users pass the error on and drop them. *)

Record WindowedValueStream : Type := mkStream {
  stream_reader_id : string;
  stream_pcollection_id : string;
  stream_schema : option RecordTableSchema;
  inner : option (list (outcome string RecordBatch));
  latest : option Z;
  advanced : bool;
}.

Definition stream_windowed_values_since (reader_id pcollection_id : string) : store WindowedValueStream :=
  schema ← st_read (λ s, Ok (registry s !! pcollection_id));
  match schema with
  | None => mret (mkStream reader_id pcollection_id None None None false)
  | Some table_schema =>
      position ← cursor reader_id pcollection_id;
      '(inner, latest) ← open_incremental_arrow pcollection_id position;
      mret (mkStream reader_id pcollection_id (Some table_schema) inner latest false)
  end.

Definition with_inner (inner : option (list (outcome string RecordBatch))) (v : WindowedValueStream) : WindowedValueStream :=
  mkStream (stream_reader_id v) (stream_pcollection_id v) (stream_schema v) inner (latest v) (advanced v).
Definition with_advanced (v : WindowedValueStream) : WindowedValueStream :=
  mkStream (stream_reader_id v) (stream_pcollection_id v) (stream_schema v) (inner v) (latest v) true.

(** The end of [next_batch]: the cursor moves once. *)
Definition finish_stream (v : WindowedValueStream) : store (WindowedValueStream * option (list WindowedValue)) :=
  if advanced v then mret (v, None)
  else
    (match latest v with Some latest => set_cursor (stream_reader_id v) (stream_pcollection_id v) latest | None => mret () end);;
    mret (with_advanced v, None).

Definition next_batch (v : WindowedValueStream) : store (WindowedValueStream * option (list WindowedValue)) :=
  match inner v with
  | Some (Ok batch :: rest) =>
      match stream_schema v with
      | Some schema => values ← st_lift (windowed_values_from_batch batch schema); mret (with_inner (Some rest) v, Some values)
      | None => st_lift (Panic "schema is present whenever the stream has data")
      end
  | Some (Err e :: _) => st_lift (Err e)
  | Some (Panic w :: _) => st_lift (Panic w)
  | Some [] => finish_stream (with_inner None v)
  | None => finish_stream v
  end.

(** * The writer of a bundle *)

Record PCollectionWriter : Type := mkWriter {
  writer_pcollection_id : string;
  writer : option (Table * TableWrite);
  min_ts : option Z;
}.

(** [PCollectionWriter::new]. *)
Definition new_writer (pcollection_id : string) : PCollectionWriter := mkWriter pcollection_id None None.

Definition fold_min (current : option Z) (timestamps : list Z) : option Z :=
  match min_event_time timestamps with
  | Some t => Some (match current with Some current => Z.min current t | None => t end)
  | None => current
  end.

(** [PCollectionWriter::write]: the table is opened by the first batch that is not empty. *)
Definition writer_write (w : PCollectionWriter) (values : list WindowedValue) : store PCollectionWriter :=
  match values with
  | [] => mret w
  | _ =>
      '(batch, schema) ← build_windowed_batch (writer_pcollection_id w) values;
      '(table, writer) ← (match writer w with
        | Some opened => mret opened
        | None =>
            table ← get_table (writer_pcollection_id w) schema;
            writer ← st_lift (new_write table);
            mret (table, writer)
        end);
      batch ← st_lift (materialize_void_columns batch);
      writer ← st_lift (write_arrow_batch writer batch);
      mret (mkWriter (writer_pcollection_id w) (Some (table, writer)) (fold_min (min_ts w) (wv_timestamp_millis <$> values)))
  end.

(** [PCollectionWriter::commit]. *)
Definition writer_commit (w : PCollectionWriter) : store () :=
  (match writer w with Some (table, writer) => commit_writer table writer | None => mret () end);;
  match min_ts w with Some t => record_commit_min_ts (writer_pcollection_id w) t | None => mret () end.

(** A bundle: its batches are written, then committed. *)
Fixpoint write_batches (w : PCollectionWriter) (batches : list (list WindowedValue)) : store PCollectionWriter :=
  match batches with
  | [] => mret w
  | values :: batches => w ← writer_write w values; write_batches w batches
  end.
Definition write_bundle (pcollection_id : string) (batches : list (list WindowedValue)) : store () :=
  w ← write_batches (new_writer pcollection_id) batches; writer_commit w.
End reads.
