(* ===== verification/ElementStoreSpec.v ===== *)
(** What the operations of the element store do: the batch that is built for windowed
    values; the catalog as the log of each table, with the laws of its operations and what
    resolving a table does to it; what a write, one-shot or in a bundle, appends; what a
    reader is handed and where its cursor then is. *)
From S2P Require Import Prelude Bytes Varint Windows Coders Watermark Arrow RecordTables ArrowSpec.
From S2P Require Import RecordTableSpec WindowColumns WindowColumnsSpec Kv ElementStore.
From S2P Require Dispatcher.
Local Open Scope string_scope.
Local Open Scope list_scope.

(** * Rewriting twice *)

Lemma materialized_not_null t : is_null_type (materialize_void_type t) = false.
Proof. by destruct t. Qed.

Lemma materialize_twice : ∀ t, materialize_void_type (materialize_void_type t) = materialize_void_type t.
Proof.
  fix IH 1. intros t. destruct t as [| | | | | | | | | | | | | | |u z|u|u|p s|[n t o m]|[n t o m]|[n t o m] k|fs|[n t o m] k|k];
    try reflexivity; cbn [materialize_void_type rewrite_field].
  1,2,3,5: by rewrite IH, materialized_not_null, orb_false_r.
  f_equal. induction fs as [|[n t o m] fs IHfs]; [done|]. cbn. rewrite IH, materialized_not_null, orb_false_r. by f_equal.
Qed.

Lemma schema_twice schema : materialize_void_schema (materialize_void_schema schema) = materialize_void_schema schema.
Proof. pose proof (materialize_twice (StructType schema)) as H. by injection H. Qed.

Lemma materialized_batch_kept `{Arrow} batch : materialize_void_schema (rb_schema batch) = rb_schema batch → materialize_void_columns batch = Ok batch.
Proof. intros Hs. unfold materialize_void_columns. rewrite Hs. unfold same_schema. by rewrite (proj2 (same_type_eq _ _) eq_refl). Qed.

(** * Decoding *)

(** Only the kind of the table and whether it has metadata matter to its decoding. *)
Lemma decode_schema b ts ts' : table_type ts = table_type ts' → has_windowed_metadata ts = has_windowed_metadata ts' →
  windowed_values_from_batch b ts = windowed_values_from_batch b ts'.
Proof. destruct ts, ts'. cbn. by intros -> ->. Qed.

Definition decode_rows (ts : RecordTableSchema) (batches : list RecordBatch) : outcome string (list WindowedValue) :=
  rows ← traverse (λ batch, windowed_values_from_batch batch ts) batches; Ok (concat rows).

Lemma traverse_concat {A B} (f : A → outcome string B) l k ys zs :
  traverse f l = Ok ys → traverse f k = Ok zs → traverse f (l ++ k) = Ok (ys ++ zs).
Proof.
  intros Hl Hk. revert ys Hl. induction l as [|x l IH]; intros ys Hl; cbn in Hl |- *; [by simplify_eq|].
  destruct (f x) as [y|?|?]; try done. cbn in Hl |- *. destruct (traverse f l) as [ys'|?|?]; try done.
  cbn in Hl. simplify_eq. by rewrite (IH ys').
Qed.

Lemma decode_rows_app ts bs bs' vs vs' : decode_rows ts bs = Ok vs → decode_rows ts bs' = Ok vs' → decode_rows ts (bs ++ bs') = Ok (vs ++ vs').
Proof.
  unfold decode_rows. intros H H'. destruct (traverse _ bs) as [r|?|?] eqn:E; try done. destruct (traverse _ bs') as [r'|?|?] eqn:E'; try done.
  rewrite (traverse_concat _ _ _ _ _ E E'). cbn in *. simplify_eq. by rewrite concat_app.
Qed.

(** The batches read have the rows of the batches committed. *)
Definition same_rows (committed read : list RecordBatch) : Prop :=
  ∀ ts vs, decode_rows ts committed = Ok vs → ∃ vs', decode_rows ts read = Ok vs' ∧ vs' ≡ₚ vs.

(** * Windowed values in a batch *)

Section values.
Context `{ArrowLaws} `{P : Profile}.

(** Values that a table of kind [t] can store in one batch. *)
Definition storable_values (t : TableType) (values : list WindowedValue) : Prop :=
  ∃ ts, derive_table_schema (wv_value <$> values) = Ok ts ∧ table_type ts = t ∧
    Forall uniform (wv_value <$> values) ∧ sizes (arrow_schema ts) (cells t (wv_value <$> values)) ∧
    Forall writable (metadata_of <$> values) ∧
    (Z.of_nat (length (concat (extra_keys (metadata_of <$> values)))) ≤ I32_MAX)%Z.

Definition decodes_to (t : TableType) (b : RecordBatch) (values : list WindowedValue) : Prop :=
  ∀ ts, table_type ts = t → has_windowed_metadata ts = true → windowed_values_from_batch b ts = Ok values.

(** The steps of [build_windowed_batch] that do not touch the store. *)
Definition windowed_batch (values : list WindowedValue) : outcome string (RecordBatch * TableType) :=
  base_schema ← derive_table_schema (wv_value <$> values);
  base_batch ← beamrecords_to_record_batch (wv_value <$> values) base_schema;
  batch ← append_window_metadata base_batch (metadata_of <$> values);
  batch ← materialize_void_columns batch;
  Ok (batch, table_type base_schema).

Lemma rows_decode fields columns ts values offsets : table_type ts ≠ TRow →
  name_of <$> fields = column_names (table_type ts) → length fields = length columns →
  Forall (λ r, table_type_of r = table_type ts) (wv_value <$> values) →
  holds fields (cells (table_type ts) (wv_value <$> values)) columns →
  build_offsets (length <$> extra_keys (metadata_of <$> values)) = Ok offsets →
  Forall (λ v, Forall wf_window (wv_windows v)) values → has_windowed_metadata ts = true →
  windowed_values_from_batch (mkBatch (fields ++ metadata_fields)
    (columns ++ columns_of_metadata (metadata_of <$> values) offsets) (length values)) ts = Ok values.
Proof.
  intros Hrow Hn Hl Ht Hh Ho Hw Hts. unfold windowed_values_from_batch.
  pose proof (batch_read ts fields columns metadata_fields (columns_of_metadata (metadata_of <$> values) offsets) _ Hrow Hn Ht Hh) as Hr.
  rewrite length_fmap in Hr. rewrite Hr. cbn [mbind outcome_bind]. rewrite Hts. cbn [negb].
  rewrite (metadata_columns_read _ _ _ _ _ _ Hn Hl). cbn [mbind outcome_bind].
  apply traverse_imap; [by rewrite length_fmap|]. intros i x v Hx Hv. rewrite list_lookup_fmap, Hv in Hx. injection Hx as <-.
  apply row_read; [done|by rewrite list_lookup_fmap, Hv|]. by apply (Forall_lookup_1 _ _ _ _ Hw Hv).
Qed.

Lemma holds_length fields rss columns : holds fields rss columns → length fields = length columns.
Proof. induction 1; [done|]. cbn. by f_equal. Qed.

(** Values that can be stored are built into a batch that decodes to them, with no [Null]
    column left. *)
Lemma windowed_batch_decodes t values : storable_values t values →
  ∃ b, windowed_batch values = Ok (b, t) ∧ materialize_void_columns b = Ok b ∧ decodes_to t b values.
Proof.
  intros (ts & Hd & <- & Hu & Hz & Hw & Hsize).
  destruct (derived_schema_stores _ _ Hu Hd) as (Hne & Hrow & Hn & Ht & Hs).
  destruct (batch_built ts (wv_value <$> values)) as (columns & Hb & Hc); [done..|]. rewrite length_fmap in Hb.
  set (ms := metadata_of <$> values) in *. assert (length ms = length values) as Hms by (unfold ms; by rewrite length_fmap).
  destruct (offsets_built (length <$> extra_keys ms) 0) as (os & Hos); [done|by rewrite sum_lengths|].
  assert (build_offsets (length <$> extra_keys ms) = Ok (0%Z :: os)) as Ho by (unfold build_offsets; by rewrite Hos).
  pose proof (cells_length (table_type ts) (wv_value <$> values)) as Hcells. rewrite length_fmap in Hcells.
  pose proof (built_fits _ _ _ _ Hc Hcells) as Hfit. rewrite <-Hms in Hfit, Hb, Hcells.
  pose proof (metadata_appended _ _ ms (0%Z :: os) Hw Hfit Ho) as Ha.
  destruct (columns_materialized _ _ _ _ Hc Hcells) as (columns' & Hr & Hh').
  pose proof (Forall3_app _ _ _ _ _ _ _ Hr (metadata_columns_kept ms (0%Z :: os) Ho)) as Hall.
  destruct (batch_rewritten _ (arrow_schema ts ++ metadata_fields) _ _ ltac:(by destruct (arrow_schema ts)) Hall) as (final & Hm & Hfinal).
  exists (mkBatch (materialize_void_schema (arrow_schema ts ++ metadata_fields)) final (length ms)). split_and!.
  - unfold windowed_batch. rewrite Hd. cbn [mbind outcome_bind]. rewrite Hb. cbn [mbind outcome_bind]. fold ms. rewrite Ha.
    cbn [mbind outcome_bind]. by rewrite Hm.
  - apply materialized_batch_kept. cbn [rb_schema]. apply schema_twice.
  - intros ts' Ht' Hm'. unfold materialize_void_schema in Hfinal |- *. rewrite fmap_app in Hfinal |- *.
    fold (materialize_void_schema (arrow_schema ts)) in Hfinal |- *.
    change (materialize_void_field <$> metadata_fields) with metadata_fields in Hfinal |- *.
    rewrite (decode_schema _ ts' (mkTableSchema (table_type ts) (arrow_schema ts) true)) by done. rewrite Hms.
    assert (Forall (λ v, Forall wf_window (wv_windows v)) values) as Hwf.
    { apply (Forall_fmap metadata_of) in Hw. eapply Forall_impl; [exact Hw|]. by intros v (_ & ? & _). }
    destruct Hfinal as [->|[-> Hsame]].
    + apply rows_decode; try done; [by rewrite materialized_names|by eapply holds_length].
    + apply app_inv_tail in Hsame. rewrite Hsame. apply built_holds in Hc. apply rows_decode; try done. by eapply holds_length.
Qed.
End values.

Local Open Scope string_scope.
Local Open Scope list_scope.

(** * The laws of the catalog *)

(** The commits of a table, from the first, and how many of their snapshots are no longer
    kept.  The snapshot of the [i]-th commit, from one, has id [i]. *)
Record TableLog : Type := mkLog { commits : list (list RecordBatch); expired : nat }.

Definition empty_log : TableLog := mkLog [] 0.
Definition append_log (l : TableLog) (new : list (list RecordBatch)) : TableLog := mkLog (commits l ++ new) (expired l).

(** What the table format documents: a table is created once and stays, a commit appends
    what was staged or fails and leaves the table, snapshots are numbered from one, an
    incremental plan has the rows of the commits of its range and a plain one all rows. *)
Class WarehouseLaws (W PaimonSchema : Type) `{Arrow} `{P : Profile} `{Warehouse W PaimonSchema} : Type := {
  table_log : W → Identifier → option TableLog;
  table_id : Table → Identifier;
  staged : TableWrite → list RecordBatch;
  messages_of : Messages → list RecordBatch;
  get_table_ok c id t : get_catalog_table c id = Ok t → table_id t = id ∧ is_Some (table_log c id);
  get_table_absent c id : get_catalog_table c id = Err TableNotExist → table_log c id = None;
  create_keeps c id sch c' r id' : create_table c id sch = (c', r) →
    table_log c' id' = table_log c id' ∨ (id' = id ∧ table_log c id = None ∧ table_log c' id = Some empty_log);
  new_write_empty t w : new_write t = Ok w → staged w = [];
  write_stages w b w' : write_arrow_batch w b = Ok w' → staged w' = staged w ++ [b];
  prepare_messages w m : prepare_commit w = Ok m → messages_of m = staged w;
  commit_appends c t m c' r l : commit c t m = (c', r) → table_log c (table_id t) = Some l →
    table_log c' (table_id t) = Some (append_log l (if is_ok r then [messages_of m] else []));
  commit_keeps c t m c' r id : commit c t m = (c', r) → id ≠ table_id t → table_log c' id = table_log c id;
  latest_snapshot c t o l : get_latest_snapshot_id c t = Ok o → table_log c (table_id t) = Some l →
    o = match commits l with [] => None | _ => Some (Z.of_nat (length (commits l))) end;
  latest_is_i64 c t n : get_latest_snapshot_id c t = Ok (Some n) → is_i 64 n;
  earliest_snapshot c t o l : earliest_snapshot_id c t = Ok o → table_log c (table_id t) = Some l → commits l ≠ [] →
    o = Some (Z.of_nat (S (expired l))) ∧ (expired l < length (commits l))%nat;
  incremental_rows c t start fin l plan stream bs : table_log c (table_id t) = Some l →
    (expired l ≤ start ≤ fin)%nat → (fin ≤ length (commits l))%nat →
    plan_incremental c t read_all (Z.of_nat start) (Z.of_nat fin) = Ok plan → read_plan c plan = Ok stream →
    traverse id stream = Ok bs → same_rows (concat (drop start (take fin (commits l)))) bs;
  scan_rows c t l plan stream bs : table_log c (table_id t) = Some l →
    plan_scan c t read_all = Ok plan → read_plan c plan = Ok stream → traverse id stream = Ok bs →
    same_rows (concat (commits l)) bs;
}.

Section ledger.
Context {W PaimonSchema D : Type} `{ArrowLaws} `{P : Profile} `{Hware : Warehouse W PaimonSchema} `{KvStore D}.
Context `{!WarehouseLaws W PaimonSchema}.
#[local] Existing Instance paimon.
Abbreviation FlareElementStore := (@FlareElementStore W D).
Abbreviation store := (st FlareElementStore).

(** * What an operation does to a table *)

(** The log of one table grows by some commits; it is created if it was absent, and may be
    if there are none. *)
Definition log_after (id : Identifier) (c c' : W) (new : list (list RecordBatch)) : Prop :=
  (∀ id', id' ≠ id → table_log c' id' = table_log c id') ∧
  (table_log c' id = Some (append_log (default empty_log (table_log c id)) new) ∨ new = [] ∧ table_log c' id = table_log c id).

Lemma log_after_refl id c : log_after id c c [].
Proof. split; [done|by right]. Qed.

Lemma append_log_nil l : append_log l [] = l.
Proof. destruct l. unfold append_log. cbn. by rewrite app_nil_r. Qed.

Lemma log_after_trans id c c1 c2 n1 n2 : log_after id c c1 n1 → log_after id c1 c2 n2 → log_after id c c2 (n1 ++ n2).
Proof.
  intros [Ho G1] [Ho' G2]. split; [intros id' Hne; by rewrite Ho', Ho|].
  destruct G1 as [G1|[-> G1]], G2 as [G2|[-> G2]].
  - left. rewrite G2, G1. unfold append_log. cbn. by rewrite app_assoc.
  - left. rewrite G2, G1. by rewrite app_nil_r.
  - left. by rewrite G2, G1.
  - right. split; [done|congruence].
Qed.

(** A store that differs in its catalog only. *)
Definition catalog_only (s s' : FlareElementStore) : Prop := s' = set_catalog (catalog s') s.

Lemma catalog_only_refl s : catalog_only s s.
Proof. by destruct s. Qed.
Lemma catalog_only_trans s s1 s2 : catalog_only s s1 → catalog_only s1 s2 → catalog_only s s2.
Proof. unfold catalog_only. intros G1 G2. rewrite G2, G1. done. Qed.

Lemma resolve_outcome id (s s' : FlareElementStore) r : resolve_existing_table id s = (s', r) →
  s' = s ∧ match r with
    | Ok (Some t) => table_id t = id ∧ is_Some (table_log (catalog s) id)
    | Ok None => table_log (catalog s) id = None
    | _ => True
    end.
Proof.
  unfold resolve_existing_table, st_read. intros [= <- <-]. split; [done|].
  destruct (get_catalog_table _ _) as [t|[|m]|w] eqn:E; [by apply get_table_ok|by apply get_table_absent|done..].
Qed.

Lemma create_outcome id sch (s s' : FlareElementStore) r : on_catalog failure (λ c, create_table c id sch) s = (s', r) →
  catalog_only s s' ∧ log_after id (catalog s) (catalog s') [].
Proof.
  unfold on_catalog. destruct (create_table _ _ _) as [c q] eqn:E. intros [= <- <-]. split; [done|]. cbn.
  pose proof (λ id', create_keeps _ _ _ _ _ id' E) as Hk. split.
  - intros id' Hne. destruct (Hk id') as [|(-> & _)]; done.
  - destruct (Hk id) as [Hs|(_ & Hn & Hs)]; [by right|]. left. rewrite Hs, Hn. done.
Qed.

(** Resolving the table of a PCollection, or creating it. *)
Lemma get_table_outcome p ts (s s' : FlareElementStore) r : get_table p ts s = (s', r) →
  let id := table_identifier (db_name s) p in
  catalog_only s s' ∧ log_after id (catalog s) (catalog s') [] ∧
  (∀ t, r = Ok t → table_id t = id ∧ is_Some (table_log (catalog s') id)).
Proof.
  unfold get_table. unfold st_read at 1 2, mbind at 1 2, st_bind at 1 2. cbn. set (id := table_identifier (db_name s) p).
  unfold mbind, st_bind. destruct (resolve_existing_table id s) as [s1 r1] eqn:E1.
  destruct (resolve_outcome _ _ _ _ E1) as [-> Hr]. destruct r1 as [[t|]|e|w].
  - unfold st_lift. destruct (validate_pcollection_table_layout _ _ _) as [[]|?|?]; intros [= <- <-];
      (split_and!; [apply catalog_only_refl|apply log_after_refl|]); intros t' Ht'; simplify_eq; done.
  - unfold st_lift at 1. destruct (pcollection_schema_to_paimon _ _) as [sch|?|?].
    2,3: intros [= <- <-]; split_and!; [apply catalog_only_refl|apply log_after_refl|done].
    destruct (on_catalog _ _ s) as [s2 r2] eqn:E2. destruct (create_outcome _ _ _ _ _ E2) as [Hc Hl].
    destruct r2; [|intros [= <- <-]; by split_and!..]. unfold catalog_table, st_read, st_lift.
    destruct (get_catalog_table (catalog s2) id) as [t|?|?] eqn:E3; cbn; [|intros [= <- <-]; by split_and!..].
    apply get_table_ok in E3. destruct (validate_pcollection_table_layout _ _ _) as [[]|?|?]; intros [= <- <-];
      (split_and!; [done|done|]); intros t' Ht'; by simplify_eq.
  - intros [= <- <-]. split_and!; [apply catalog_only_refl|apply log_after_refl|done].
  - intros [= <- <-]. split_and!; [apply catalog_only_refl|apply log_after_refl|done].
Qed.

(** Committing a writer appends what it staged, or nothing. *)
Lemma commit_outcome t w (s s' : FlareElementStore) r : commit_writer t w s = (s', r) → is_Some (table_log (catalog s) (table_id t)) →
  catalog_only s s' ∧ log_after (table_id t) (catalog s) (catalog s') (if is_ok r then [staged w] else []).
Proof.
  intros Hcw [l Hl]. unfold commit_writer, mbind, st_bind, st_lift in Hcw. destruct (prepare_commit w) as [m|?|?] eqn:Em.
  2,3: injection Hcw as <- <-; split; [apply catalog_only_refl|apply log_after_refl].
  unfold on_catalog in Hcw. destruct (commit _ _ _) as [c q] eqn:Ec. injection Hcw as <- <-. split; [done|]. cbn.
  apply prepare_messages in Em. split; [intros id' Hne; by eapply commit_keeps|]. left.
  rewrite (commit_appends _ _ _ _ _ _ Ec Hl), Hl, Em. by destruct q.
Qed.

Lemma write_table_batch_outcome t b (s s' : FlareElementStore) r : write_table_batch t b s = (s', r) → is_Some (table_log (catalog s) (table_id t)) →
  catalog_only s s' ∧ log_after (table_id t) (catalog s) (catalog s') (if is_ok r then [[b]] else []).
Proof.
  intros Hw Hl. unfold write_table_batch, mbind, st_bind, st_lift in Hw. destruct (new_write t) as [w|?|?] eqn:E1.
  2,3: injection Hw as <- <-; split; [apply catalog_only_refl|apply log_after_refl].
  destruct (write_arrow_batch w b) as [w'|?|?] eqn:E2.
  2,3: injection Hw as <- <-; split; [apply catalog_only_refl|apply log_after_refl].
  apply new_write_empty in E1. apply write_stages in E2. rewrite E1 in E2. cbn in E2. rewrite <-E2. by apply commit_outcome.
Qed.

(** A batch is ingested whole or not at all. *)
Lemma ingest_outcome p ts b (s s' : FlareElementStore) r : materialize_void_columns b = Ok b → ingest_batch p ts b s = (s', r) →
  catalog_only s s' ∧ log_after (table_identifier (db_name s) p) (catalog s) (catalog s') (if is_ok r then [[b]] else []).
Proof.
  intros Hb Hi. unfold ingest_batch, mbind, st_bind in Hi. destruct (get_table p ts s) as [s1 r1] eqn:E1.
  destruct (get_table_outcome _ _ _ _ _ E1) as (Hc & Hl & Ht). destruct r1 as [t|?|?].
  2,3: injection Hi as <- <-; by split.
  destruct (Ht t eq_refl) as [Hid Hsome]. unfold st_lift in Hi. rewrite Hb in Hi. rewrite <-Hid in Hsome.
  destruct (write_table_batch_outcome _ _ _ _ _ Hi Hsome) as [Hc' Hl']. split; [by eapply catalog_only_trans|].
  rewrite Hid in Hl'. by apply (log_after_trans _ _ _ _ _ _ Hl Hl').
Qed.
End ledger.

Local Open Scope string_scope.
Local Open Scope list_scope.

(** Batches of a table of kind [t] that decode to the values. *)
Definition decode_to `{Arrow} `{P : Profile} (t : TableType) (bs : list RecordBatch) (values : list WindowedValue) : Prop :=
  ∀ ts, table_type ts = t → has_windowed_metadata ts = true → decode_rows ts bs = Ok values.

Section writes.
Context {W PaimonSchema D : Type} `{ArrowLaws} `{P : Profile} `{Hware : Warehouse W PaimonSchema} `{KvStore D}.
Context `{!WarehouseLaws W PaimonSchema}.
#[local] Existing Instance paimon.
Abbreviation FlareElementStore := (@FlareElementStore W D).
Abbreviation store := (st FlareElementStore).

(** * The effect of a write *)

(** A schema of windowed values of kind [t]. *)
Definition windowed_schema (t : TableType) (ts : RecordTableSchema) : Prop := table_type ts = t ∧ has_windowed_metadata ts = true.

(** What a write may change: the log of its table, the registered schema, the minimum
    timestamp of its PCollection. *)
Record wrote (p : string) (t : TableType) (s s' : FlareElementStore) (new : list (list RecordBatch)) : Prop := {
  wrote_cursors : cursors s' = cursors s;
  wrote_cursor_store : cursor_store s' = cursor_store s;
  wrote_db : db_name s' = db_name s;
  wrote_registry ts : registry s' !! p = Some ts → registry s !! p = Some ts ∨ windowed_schema t ts;
  wrote_log : log_after (table_identifier (db_name s) p) (catalog s) (catalog s') new;
}.

Lemma wrote_refl p t s : wrote p t s s [].
Proof. split; [done..|by left|apply log_after_refl]. Qed.

Lemma wrote_trans p t s s1 s2 n1 n2 : wrote p t s s1 n1 → wrote p t s1 s2 n2 → wrote p t s s2 (n1 ++ n2).
Proof.
  intros [C1 K1 D1 R1 L1] [C2 K2 D2 R2 L2]. split; [congruence..| |].
  - intros ts Hts. destruct (R2 ts Hts) as [Hr|]; [by apply R1|by right].
  - rewrite D1 in L2. by eapply log_after_trans.
Qed.

Lemma catalog_wrote p t s s' new : catalog_only s s' → log_after (table_identifier (db_name s) p) (catalog s) (catalog s') new → wrote p t s s' new.
Proof. unfold catalog_only. intros E Hl. split; [by rewrite E..| |done]. intros ts. rewrite E. by left. Qed.

Lemma register_wrote p t ts s : windowed_schema t ts → wrote p t s (register_if_absent p ts s).1 [].
Proof.
  intros Hts. split; [done..| |apply log_after_refl]. cbn. intros ts' Hts'. destruct (registry s !! p) as [old|] eqn:E.
  - rewrite E in Hts'. left. congruence.
  - rewrite lookup_insert_eq in Hts'. right. by simplify_eq.
Qed.

Lemma min_wrote p t q v s : wrote p t s (record_commit_min_ts q v s).1 [].
Proof. split; [done..|by left|apply log_after_refl]. Qed.

Lemma record_min_ok p ts (s : FlareElementStore) : record_min p ts s = ((record_min p ts s).1, Ok ()).
Proof. unfold record_min. by destruct (min_event_time ts). Qed.

Lemma record_min_wrote p t q ts s : wrote p t s (record_min q ts s).1 [].
Proof. unfold record_min. destruct (min_event_time ts); [apply min_wrote|apply wrote_refl]. Qed.

(** * Batches *)

(** The store and the schema of the batch that [build_windowed_batch] returns. *)
Lemma build_outcome p t values b (s : FlareElementStore) : windowed_batch values = Ok (b, t) →
  build_windowed_batch p values s
  = ((register_if_absent p (mkTableSchema t (rb_schema b) true) s).1, Ok (b, mkTableSchema t (rb_schema b) true)).
Proof.
  unfold windowed_batch. intros Hb. destruct (derive_table_schema _) as [ts|?|?] eqn:E1; try done. cbn in Hb.
  destruct (beamrecords_to_record_batch _ _) as [b0|?|?] eqn:E2; try done. cbn in Hb.
  destruct (append_window_metadata _ _) as [b1|?|?] eqn:E3; try done. cbn in Hb.
  destruct (materialize_void_columns b1) as [b2|?|?] eqn:E4; try done. cbn in Hb. simplify_eq.
  unfold build_windowed_batch, mbind, st_bind, st_lift. by rewrite E1, E2, E3, E4.
Qed.

Lemma decodes_one t b values : decodes_to t b values → decode_to t [b] values.
Proof. intros Hd ts Ht Hm. unfold decode_rows. cbn. rewrite Hd by done. cbn. by rewrite app_nil_r. Qed.

(** A batch of values is committed alone, or the write fails and nothing is. *)
Lemma write_values_outcome p t values (s s' : FlareElementStore) r : storable_values t values →
  write_windowed_value_batch p values s = (s', r) →
  ∃ new, wrote p t s s' new ∧ (if is_ok r then ∃ bs, new = [bs] ∧ decode_to t bs values else new = []).
Proof.
  intros Hs Hw. destruct (windowed_batch_decodes t values Hs) as (b & Hb & Hm & Hd).
  destruct values as [|v values]; [by destruct Hs as (ts & ? & _)|]. unfold write_windowed_value_batch in Hw.
  unfold mbind at 1, st_bind at 1 in Hw. rewrite (build_outcome p t (v :: values) b s Hb) in Hw.
  set (ts := mkTableSchema t (rb_schema b) true) in *. set (s1 := (register_if_absent p ts s).1) in *.
  pose proof (register_wrote p t ts s ltac:(done)) as R1. fold s1 in R1.
  unfold mbind, st_bind in Hw. destruct (ingest_batch p ts b s1) as [s2 r2] eqn:E2.
  destruct (ingest_outcome _ _ _ _ _ _ Hm E2) as [Hc Hl]. pose proof (catalog_wrote p t _ _ _ Hc Hl) as R2.
  pose proof (wrote_trans _ _ _ _ _ _ _ R1 R2) as R. cbn [app] in R. destruct r2 as [[]|?|?].
  2,3: injection Hw as <- <-; exists []; by split.
  rewrite record_min_ok in Hw. injection Hw as <- <-.
  exists [[b]]. split; [|exists [b]; split; [done|by apply decodes_one]].
  change [[b]] with ([[b]] ++ []). eapply wrote_trans; [exact R|]. exact (record_min_wrote p t p (wv_timestamp_millis <$> v :: values) s2).
Qed.

(** * Bundles *)

Definition staged_by (w : PCollectionWriter) : list RecordBatch := match writer w with Some (_, tw) => staged tw | None => [] end.

(** A writer whose table, once opened, is the table of its PCollection. *)
Definition writer_ok (p : string) (s : FlareElementStore) (w : PCollectionWriter) : Prop :=
  writer_pcollection_id w = p ∧
  match writer w with
  | Some (table, _) => table_id table = table_identifier (db_name s) p ∧ is_Some (table_log (catalog s) (table_id table))
  | None => True
  end.

Lemma log_kept id c c' new : log_after id c c' new → is_Some (table_log c id) → is_Some (table_log c' id).
Proof. intros [_ [Hl|[_ Hl]]] Hs; rewrite Hl; [by eexists|done]. Qed.

(** Writing one batch stages it. *)
Lemma writer_write_outcome p t values w (s s' : FlareElementStore) r : storable_values t values → writer_ok p s w →
  writer_write w values s = (s', r) →
  wrote p t s s' [] ∧
  ∀ w', r = Ok w' → writer_ok p s' w' ∧ is_Some (writer w') ∧ min_ts w' = fold_min (min_ts w) (wv_timestamp_millis <$> values) ∧
    ∃ b, staged_by w' = staged_by w ++ [b] ∧ decodes_to t b values.
Proof.
  intros Hs [Hp Hok] Hw. destruct (windowed_batch_decodes t values Hs) as (b & Hb & Hm & Hd).
  destruct values as [|v values]; [by destruct Hs as (ts & ? & _)|]. unfold writer_write in Hw.
  unfold mbind at 1, st_bind at 1 in Hw. rewrite Hp in Hw. rewrite (build_outcome p t (v :: values) b s Hb) in Hw.
  set (ts := mkTableSchema t (rb_schema b) true) in *. set (s1 := (register_if_absent p ts s).1) in *.
  pose proof (register_wrote p t ts s ltac:(done)) as R1. fold s1 in R1.
  unfold mbind at 1, st_bind at 1 in Hw.
  set (opening := match writer w with Some opened => _ | None => _ end) in Hw.
  destruct (opening s1) as [s2 r2] eqn:E2.
  assert (wrote p t s1 s2 [] ∧ ∀ tb tw, r2 = Ok (tb, tw) → staged tw = staged_by w ∧
    table_id tb = table_identifier (db_name s2) p ∧ is_Some (table_log (catalog s2) (table_id tb))) as [R2 Hopen].
  { subst opening. unfold staged_by. destruct (writer w) as [[tb tw]|].
    - injection E2 as <- <-. split; [apply wrote_refl|]. intros tb' tw' Heq. simplify_eq. split; [done|]. exact Hok.
    - unfold mbind, st_bind in E2. destruct (get_table p ts s1) as [s3 r3] eqn:E3.
      destruct (get_table_outcome _ _ _ _ _ E3) as (Hc & Hl & Ht). pose proof (catalog_wrote p t _ _ _ Hc Hl) as R3.
      destruct r3 as [tb|?|?]; [|by injection E2 as <- <-..]. destruct (Ht tb eq_refl) as [Hid Hsome].
      unfold st_lift in E2. destruct (new_write tb) as [tw|?|?] eqn:En; injection E2 as <- <-; (split; [done|]); [|done..].
      intros tb' tw' Heq. simplify_eq. apply new_write_empty in En. rewrite Hid, (wrote_db _ _ _ _ _ R3). done. }
  pose proof (wrote_trans _ _ _ _ _ _ _ R1 R2) as R. cbn [app] in R. destruct r2 as [[tb tw]|?|?].
  2,3: injection Hw as <- <-; by split.
  destruct (Hopen tb tw eq_refl) as (Hst & Hid & Hsome). unfold mbind, st_bind, st_lift in Hw. rewrite Hm in Hw.
  destruct (write_arrow_batch tw b) as [tw'|?|?] eqn:Ew; injection Hw as <- <-; (split; [done|]); [|done..].
  intros w' Heq. simplify_eq. split_and!; [by split|by eexists|done|]. exists b. split; [|done].
  cbn [staged_by writer]. apply write_stages in Ew. by rewrite Ew, Hst.
Qed.

(** Folding minima in batches is folding them at once. *)
Definition min_option (a : option Z) (x : Z) : option Z := Some (match a with Some y => Z.min y x | None => x end).

Lemma foldl_min x l : foldl min_option (Some x) l = Some (foldl Z.min x l).
Proof. revert x. induction l as [|y l IH]; intros x; [done|]. apply IH. Qed.

Lemma foldl_min_min a b l : foldl Z.min (Z.min a b) l = Z.min a (foldl Z.min b l).
Proof. revert b. induction l as [|y l IH]; intros b; [done|]. cbn. by rewrite <-Z.min_assoc, IH. Qed.

Lemma fold_min_eq cur l : fold_min cur l = foldl min_option cur l.
Proof.
  unfold fold_min, min_event_time. destruct l as [|x l]; [done|]. destruct cur as [c|].
  - transitivity (Some (foldl Z.min (Z.min c x) l)); [by rewrite foldl_min_min|by rewrite <-foldl_min].
  - by rewrite <-foldl_min.
Qed.

Lemma fold_min_app cur l k : fold_min (fold_min cur l) k = fold_min cur (l ++ k).
Proof. by rewrite !fold_min_eq, foldl_app. Qed.

Lemma decode_to_app t bs bs' vs vs' : decode_to t bs vs → decode_to t bs' vs' → decode_to t (bs ++ bs') (vs ++ vs').
Proof. intros H1' H2' ts Ht Hm. apply decode_rows_app; [by apply H1'|by apply H2']. Qed.

(** Writing the batches of a bundle stages them in order and commits nothing. *)
Lemma write_batches_outcome p t batches : ∀ w (s s' : FlareElementStore) r,
  Forall (λ vs, vs = [] ∨ storable_values t vs) batches → writer_ok p s w → write_batches w batches s = (s', r) →
  wrote p t s s' [] ∧
  ∀ w', r = Ok w' → writer_ok p s' w' ∧ min_ts w' = fold_min (min_ts w) (wv_timestamp_millis <$> concat batches) ∧
    (writer w' = None → writer w = None ∧ concat batches = []) ∧
    (is_Some (writer w') → is_Some (writer w) ∨ concat batches ≠ []) ∧
    ∃ bs, staged_by w' = staged_by w ++ bs ∧ decode_to t bs (concat batches).
Proof.
  induction batches as [|vs batches IH]; intros w s s' r Hall Hok Hw; cbn [write_batches] in Hw.
  { injection Hw as <- <-. split; [apply wrote_refl|]. intros w' [= <-]. split_and!; [done|done|done|by left|].
    exists []. split; [by rewrite app_nil_r|]. by intros ts _ _. }
  apply Forall_cons in Hall as [Hvs Hall]. unfold mbind, st_bind in Hw. destruct (writer_write w vs s) as [s1 r1] eqn:E1.
  destruct Hvs as [->|Hvs].
  { injection E1 as <- <-. by apply (IH w). }
  destruct (writer_write_outcome p t vs w s s1 r1 Hvs Hok E1) as [R1 Hr1]. destruct r1 as [w1|?|?].
  2,3: injection Hw as <- <-; by split.
  destruct (Hr1 w1 eq_refl) as (Hok1 & Hsome & Hmin1 & b & Hst1 & Hd1).
  destruct (IH w1 s1 s' r Hall Hok1 Hw) as [R2 Hr2]. split; [apply (wrote_trans _ _ _ _ _ _ _ R1 R2)|].
  intros w' ->. destruct (Hr2 w' eq_refl) as (Hok' & Hmin & Hnone & _ & bs & Hst & Hd). split_and!; [done| | | |].
  - rewrite Hmin, Hmin1, fold_min_app, <-fmap_app. done.
  - intros Hn. destruct (Hnone Hn) as [Hn1 _]. destruct Hsome as [? ?]. congruence.
  - intros _. right. cbn. destruct vs; [|done]. by destruct Hvs as (ts & ? & _).
  - exists (b :: bs). split; [by rewrite Hst, Hst1, <-app_assoc|]. cbn [concat].
    apply (decode_to_app _ [b] bs); [by apply decodes_one|done].
Qed.

(** ** The minimum of a bundle *)

Definition keeps_mins {A} (f : store A) : Prop := ∀ s, commit_min_ts (f s).1 = commit_min_ts s.

Lemma keeps_mins_bind {A B} (f : store A) (k : A → store B) : keeps_mins f → (∀ a, keeps_mins (k a)) → keeps_mins (f ≫= k).
Proof. intros Hf Hk s. unfold mbind, st_bind. specialize (Hf s). destruct (f s) as [s1 [a|?|?]]; [by rewrite Hk|done..]. Qed.

Lemma keeps_mins_lift {A} (m : outcome string A) : keeps_mins (st_lift m).
Proof. done. Qed.

Lemma keeps_mins_get_table p ts : keeps_mins (get_table p ts).
Proof. intros s. destruct (get_table p ts s) as [s' r] eqn:E. apply get_table_outcome in E as [Hc _]. cbn. by rewrite Hc. Qed.

Lemma keeps_mins_write w values : keeps_mins (writer_write w values).
Proof.
  destruct values as [|v values]; [done|]. unfold writer_write. apply keeps_mins_bind.
  { unfold build_windowed_batch. do 4 (apply keeps_mins_bind; [apply keeps_mins_lift|intros ?]). by apply keeps_mins_bind. }
  intros [b ts]. apply keeps_mins_bind.
  { destruct (writer w); [done|]. apply keeps_mins_bind; [apply keeps_mins_get_table|]. intros tb. by apply keeps_mins_bind. }
  intros [tb tw]. do 2 (apply keeps_mins_bind; [apply keeps_mins_lift|intros ?]). done.
Qed.

Lemma keeps_mins_batches batches : ∀ w, keeps_mins (write_batches w batches).
Proof. induction batches as [|vs batches IH]; intros w; [done|]. apply keeps_mins_bind; [apply keeps_mins_write|apply IH]. Qed.

(** The minimum that a bundle records, if it has values. *)
Definition mins_after (p : string) (mins : gmap string Z) (values : list WindowedValue) : gmap string Z :=
  match min_event_time (wv_timestamp_millis <$> values) with
  | Some t => Dispatcher.record_commit_min_ts mins p t
  | None => mins
  end.

Lemma bundle_mins p t batches (s s' : FlareElementStore) r : Forall (λ vs, vs = [] ∨ storable_values t vs) batches →
  write_bundle p batches s = (s', r) →
  commit_min_ts s' = if is_ok r then mins_after p (commit_min_ts s) (concat batches) else commit_min_ts s.
Proof.
  intros Hall Hw. unfold write_bundle, mbind at 1, st_bind at 1 in Hw. pose proof (keeps_mins_batches batches (new_writer p) s) as Hk.
  destruct (write_batches _ _ s) as [s1 r1] eqn:E1. cbn in Hk.
  destruct (write_batches_outcome p t batches (new_writer p) s s1 r1 Hall) as [_ Hr1]; [done|done|].
  destruct r1 as [w|?|?]. 2,3: injection Hw as <- <-; done.
  destruct (Hr1 w eq_refl) as ([Hp Hok] & Hmin & _). unfold writer_commit, mbind, st_bind in Hw.
  set (committing := match writer w with Some _ => _ | None => _ end) in Hw.
  assert (commit_min_ts (committing s1).1 = commit_min_ts s1) as Hc.
  { subst committing. destruct (writer w) as [[tb tw]|]; [|done]. destruct Hok as [_ Hlog].
    destruct (commit_writer tb tw s1) as [s2 r2] eqn:Ec. apply commit_outcome in Ec as [Hc _]; [|done]. cbn. by rewrite Hc. }
  destruct (committing s1) as [s2 [[]|?|?]]; cbn in Hc. 2,3: injection Hw as <- <-; cbn; congruence.
  unfold mins_after. unfold fold_min in Hmin. cbn in Hmin. rewrite Hp in Hw.
  destruct (min_event_time _) as [m|]; rewrite Hmin in Hw; injection Hw as <- <-; cbn; congruence.
Qed.

(** A bundle appends one commit with all its values, or nothing; an empty one nothing. *)
Lemma bundle_outcome p t batches (s s' : FlareElementStore) r : Forall (λ vs, vs = [] ∨ storable_values t vs) batches →
  write_bundle p batches s = (s', r) →
  ∃ new, wrote p t s s' new ∧
    (if is_ok r then (concat batches = [] ∧ new = []) ∨ (concat batches ≠ [] ∧ ∃ bs, new = [bs] ∧ decode_to t bs (concat batches)) else new = []).
Proof.
  intros Hall Hw. unfold write_bundle, mbind at 1, st_bind at 1 in Hw. destruct (write_batches _ _ s) as [s1 r1] eqn:E1.
  destruct (write_batches_outcome p t batches (new_writer p) s s1 r1 Hall) as [R1 Hr1]; [done|done|].
  destruct r1 as [w|?|?]. 2,3: injection Hw as <- <-; exists []; by split.
  destruct (Hr1 w eq_refl) as ([Hp Hok] & _ & Hnone & Hsome & bs & Hst & Hd). cbn in Hst.
  unfold writer_commit, mbind, st_bind in Hw.
  assert (∀ s2 : FlareElementStore, match min_ts w with Some v => record_commit_min_ts (writer_pcollection_id w) v | None => mret () end s2
    = ((match min_ts w with Some v => record_commit_min_ts (writer_pcollection_id w) v | None => mret () end s2).1, Ok ()) ∧
    wrote p t s2 (match min_ts w with Some v => record_commit_min_ts (writer_pcollection_id w) v | None => mret () end s2).1 []) as Hmin.
  { intros s2. destruct (min_ts w); split; [done|apply min_wrote|done|apply wrote_refl]. }
  destruct (writer w) as [[tb tw]|] eqn:Ew.
  - destruct Hok as [Hid Hlog]. destruct (commit_writer tb tw s1) as [s2 r2] eqn:Ec.
    destruct (commit_outcome _ _ _ _ _ Ec Hlog) as [Hc Hl]. rewrite Hid in Hl. pose proof (catalog_wrote p t _ _ _ Hc Hl) as R2.
    pose proof (wrote_trans _ _ _ _ _ _ _ R1 R2) as R. destruct r2 as [[]|?|?].
    2,3: injection Hw as <- <-; exists []; by split.
    destruct (Hmin s2) as [Heq R3]. rewrite Heq in Hw. injection Hw as <- <-. eexists.
    split; [exact (wrote_trans _ _ _ _ _ _ _ R R3)|]. right.
    unfold staged_by in Hst. rewrite Ew in Hst. split.
    + destruct Hsome as [[? ?]|]; [by eexists|done|done].
    + exists bs. cbn in Hst |- *. by rewrite Hst.
  - destruct (Hnone eq_refl) as [_ Hn]. destruct (Hmin s1) as [Heq R3]. cbn in Hw. rewrite Heq in Hw. injection Hw as <- <-.
    exists []. split; [exact (wrote_trans _ _ _ _ _ _ _ R1 R3)|]. by left.
Qed.
End writes.

Local Open Scope string_scope.
Local Open Scope list_scope.

(** * Cursor values *)

Lemma snapshot_round_trip n : is_i 64 n → decode_snapshot (encode_snapshot n) = Ok n.
Proof.
  intros Hn. unfold decode_snapshot, encode_snapshot. rewrite decide_True by apply be_bytes_length.
  rewrite be_value_be_bytes, Z.mod_small by (apply to_unsigned_range; lia). by rewrite signed_unsigned.
Qed.

Lemma app_inj_r (a b c : string) : a +:+ c = b +:+ c → a = b.
Proof.
  intros Hab. apply (f_equal String.list_ascii_of_string) in Hab.
  assert (∀ x y, String.list_ascii_of_string (x +:+ y) = String.list_ascii_of_string x ++ String.list_ascii_of_string y) as Happ.
  { intros x y. induction x as [|ch x IH]; [done|]. change (ch :: String.list_ascii_of_string (x +:+ y) = ch :: (String.list_ascii_of_string x ++ String.list_ascii_of_string y)). by rewrite IH. }
  rewrite !Happ in Hab. apply app_inv_tail in Hab.
  rewrite <-(String.string_of_list_ascii_of_string a), <-(String.string_of_list_ascii_of_string b). by f_equal.
Qed.

(** The cursors of different readers of a PCollection have different keys. *)
Lemma cursor_key_inj r r' p : as_bytes (cursor_key r p) = as_bytes (cursor_key r' p) → r = r'.
Proof. intros Hk. apply as_bytes_inj in Hk. by apply app_inj_r in Hk. Qed.

Section readers.
Context {W PaimonSchema D : Type} `{ArrowLaws} `{P : Profile} `{Hware : Warehouse W PaimonSchema} `{Hkv : KvStore D}.
Context `{!WarehouseLaws W PaimonSchema} `{!KvLaws D}.
#[local] Existing Instance paimon.
Abbreviation FlareElementStore := (@FlareElementStore W D).
Abbreviation store := (st FlareElementStore).

(** * Positions *)

Definition ok_option {A} (m : outcome string A) : option A := match m with Ok a => Some a | _ => None end.

(** The durable position of a reader. *)
Definition position (s : FlareElementStore) (r p : string) : option Z :=
  kv_view (cursor_store s) !! as_bytes (cursor_key r p) ≫= (λ bs, ok_option (decode_snapshot bs)).

Lemma position_i64 s r p n : position s r p = Some n → is_i 64 n.
Proof.
  unfold position. destruct (kv_view _ !! _) as [bs|]; [|done]. cbn. unfold decode_snapshot. case_decide; [|done].
  cbn. intros [= <-]. apply to_signed_range. lia.
Qed.

(** The position from which a reader goes on: its cached cursor, or else the durable one. *)
Definition effective (s : FlareElementStore) (r p : string) : option Z :=
  match cursors s !! cursor_key r p with Some n => Some n | None => position s r p end.

(** A store that differs in its cached cursors only. *)
Definition cursors_only (s s' : FlareElementStore) : Prop := s' = set_cursors (cursors s') s.

Lemma cursor_read r p (s s' : FlareElementStore) res : cursor r p s = (s', res) →
  cursors_only s s' ∧ (∀ r', effective s' r' p = effective s r' p) ∧ ∀ o, res = Ok o → o = effective s r p ∧ cursors s' !! cursor_key r p = o.
Proof.
  unfold cursor, effective. intros Hr. unfold mbind at 1, st_bind at 1, st_read at 1 in Hr.
  destruct (cursors s !! cursor_key r p) as [n|] eqn:E.
  { injection Hr as <- <-. split_and!; [by destruct s|done|]. by intros o [= <-]. }
  unfold mbind at 1, st_bind at 1, st_read at 1 in Hr. unfold position.
  destruct (kv_get _ _) as [v|?|?] eqn:Ev; [|injection Hr as <- <-; split_and!; [by destruct s|done|done]..].
  apply kv_get_view in Ev. destruct v as [bs|].
  2:{ injection Hr as <- <-. split_and!; [by destruct s|done|]. intros o [= <-]. by rewrite <-Ev. }
  unfold mbind, st_bind, st_lift in Hr. destruct (decode_snapshot bs) as [n|?|?] eqn:Ed;
    [|injection Hr as <- <-; split_and!; [by destruct s|done|done]..].
  injection Hr as <- <-. split_and!; [done| |].
  - intros r'. cbn. destruct (decide (r' = r)) as [->|Hne].
    + rewrite lookup_insert_eq, E, <-Ev. cbn. by rewrite Ed.
    + rewrite lookup_insert_ne; [done|]. intros Hk. apply Hne. apply (cursor_key_inj _ _ p). by rewrite Hk.
  - intros o [= <-]. rewrite <-Ev. cbn. rewrite Ed, lookup_insert_eq. done.
Qed.

(** A store that differs in its cursors only, kept or cached. *)
Definition positions_only (s s' : FlareElementStore) : Prop := s' = set_cursors (cursors s') (set_cursor_store (cursor_store s') s).

(** The cursor of a reader moves when its write succeeds.  When it fails the cached one does
    not, and the durable one may. *)
Lemma cursor_set `{!KvSingleWrite D} r p n (s s' : FlareElementStore) res : is_i 64 n → set_cursor r p n s = (s', res) →
  positions_only s s' ∧ (∀ r', r' ≠ r → position s' r' p = position s r' p ∧ effective s' r' p = effective s r' p) ∧
  (position s' r p = Some n ∧ cursors s' !! cursor_key r p = (if is_ok res then Some n else cursors s !! cursor_key r p) ∨
   is_ok res = false ∧ position s' r p = position s r p ∧ cursors s' = cursors s).
Proof.
  intros Hn Hs. unfold set_cursor, mbind, st_bind in Hs. destruct (kv_apply _ _) as [d q] eqn:Ek.
  pose proof (kv_apply_one _ _ _ _ Ek) as Hone.
  assert (∀ r', r' ≠ r → kv_view d !! as_bytes (cursor_key r' p) = kv_view (cursor_store s) !! as_bytes (cursor_key r' p)) as Hother.
  { intros r' Hne. apply (kv_apply_frame _ _ _ _ _ Ek). cbn. rewrite list_elem_of_singleton. by intros ?%cursor_key_inj. }
  assert (∀ r' (c : gmap string Z) m, r' ≠ r → <[cursor_key r p := m]> c !! cursor_key r' p = c !! cursor_key r' p) as Hcache.
  { intros r' c m Hne. apply lookup_insert_ne. intros Hk. apply Hne. apply (cursor_key_inj _ _ p). by rewrite Hk. }
  assert (s' = set_cursors (if is_ok q then <[cursor_key r p := n]> (cursors s) else cursors s) (set_cursor_store d s) ∧
    is_ok res = is_ok q) as [-> ->] by (destruct q as [[]|?|?]; injection Hs as <- <-; by destruct s).
  split; [by destruct s, q|]. split.
  - intros r' Hne. unfold effective, position. cbn. rewrite Hother by done. split; [done|]. destruct q; cbn; [by rewrite Hcache|done..].
  - unfold position. cbn. destruct Hone as [Hv|[Hq Hv]].
    + left. rewrite Hv. unfold apply_write. cbn. rewrite lookup_insert_eq. cbn. rewrite snapshot_round_trip by done.
      split; [done|]. destruct q; cbn; [by rewrite lookup_insert_eq|done..].
    + right. rewrite Hv. destruct q as [[]|?|?]; [done|done..].
Qed.

(** * The range of a read *)

Lemma existing_outcome p (s s' : FlareElementStore) r : get_existing_table p s = (s', r) →
  s' = s ∧ match r with
    | Ok (Some t) => table_id t = table_identifier (db_name s) p ∧ is_Some (table_log (catalog s) (table_identifier (db_name s) p))
    | Ok None => table_log (catalog s) (table_identifier (db_name s) p) = None
    | _ => True
    end.
Proof. unfold get_existing_table, mbind, st_bind, st_read. cbn. apply resolve_outcome. Qed.

Lemma incremental_reads_only p c : read_only (read_incremental_batches p c : store _).
Proof.
  apply read_only_bind; [|intros []; auto with read_only]. apply read_only_bind.
  - apply read_only_bind; [intros s s' r Hr; by apply existing_outcome in Hr as [-> _]|].
    intros [t|]; [|auto with read_only]. apply read_only_bind; [auto with read_only|]. intros [n|]; [|auto with read_only].
    apply read_only_bind; [auto with read_only|]. intros e. auto with read_only.
  - intros [|n|t start n]; auto 10 with read_only.
Qed.

(** The commits a reader has not read: those after its position that are still kept. *)
Definition unread (l : TableLog) (position : option Z) : nat := Z.to_nat (Z.max (default 0%Z position) (Z.of_nat (expired l))).

Lemma range_outcome p c (s s' : FlareElementStore) range : match c with Some z => (0 ≤ z)%Z | None => True end →
  snapshot_range p c s = (s', Ok range) →
  s' = s ∧ match range with
    | NoTable => match table_log (catalog s) (table_identifier (db_name s) p) with None => True | Some l => commits l = [] end
    | UpToDate n => ∃ l, table_log (catalog s) (table_identifier (db_name s) p) = Some l ∧ n = Z.of_nat (length (commits l)) ∧
        is_i 64 n ∧ commits l ≠ [] ∧ (length (commits l) ≤ unread l c)%nat
    | Snapshots t start n => ∃ l, table_log (catalog s) (table_id t) = Some l ∧ table_id t = table_identifier (db_name s) p ∧
        n = Z.of_nat (length (commits l)) ∧ is_i 64 n ∧ commits l ≠ [] ∧ start = Z.of_nat (unread l c) ∧
        (expired l ≤ unread l c ≤ length (commits l))%nat
    end.
Proof.
  intros Hz Hr. unfold snapshot_range, mbind at 1, st_bind at 1 in Hr. destruct (get_existing_table p s) as [s1 r1] eqn:E1.
  destruct (existing_outcome _ _ _ _ E1) as [-> Hx]. destruct r1 as [[t|]|?|?]; try done.
  2:{ injection Hr as <- <-. split; [done|]. by rewrite Hx. }
  destruct Hx as [Hid [l Hl]]. unfold mbind at 1, st_bind at 1, st_read at 1 in Hr.
  destruct (get_latest_snapshot_id (catalog s) t) as [o|?|?] eqn:E2; try done. pose proof Hl as Hl'. rewrite <-Hid in Hl'.
  pose proof (latest_snapshot _ _ _ _ E2 Hl') as Ho. destruct (commits l) as [|b bs] eqn:Ec.
  { subst o. injection Hr as <- <-. split; [done|]. by rewrite Hl. }
  subst o. pose proof (latest_is_i64 _ _ _ E2) as Hi. unfold mbind at 1, st_bind at 1, st_read at 1 in Hr.
  destruct (earliest_snapshot_id (catalog s) t) as [e|?|?] eqn:E3; try done.
  destruct (earliest_snapshot _ _ _ _ E3 Hl') as [-> Hexp]; [by rewrite Ec|]. rewrite Ec in Hexp.
  injection Hr as <- <-. split; [done|]. cbn [default]. unfold unread.
  assert (range_start c (Z.of_nat (S (expired l))) = Z.max (default 0%Z c) (Z.of_nat (expired l))) as Hstart.
  { unfold range_start. destruct c; cbn; lia. }
  change (default (Z.of_nat (length (b :: bs))) (Some (Z.of_nat (S (expired l))))) with (Z.of_nat (S (expired l))).
  rewrite Hstart. set (k := Z.max (default 0%Z c) (Z.of_nat (expired l))).
  assert (0 ≤ k ∧ Z.of_nat (expired l) ≤ k)%Z as [Hk0 Hk] by lia.
  change (S (length bs)) with (length (b :: bs)). destruct (Z.leb_spec (Z.of_nat (length (b :: bs))) k) as [Hle|Hgt].
  - exists l. rewrite Ec. split_and!; [by rewrite Hl|done|done|done|lia].
  - exists l. rewrite Ec. split_and!; [done|done|done|done|done|lia|lia|lia].
Qed.

(** * A read *)

Lemma decode_commits t ts (cs : list (list RecordBatch)) ws : windowed_schema t ts → Forall2 (decode_to t) cs ws →
  decode_rows ts (concat cs) = Ok (concat ws).
Proof.
  intros [Ht Hm]. induction 1 as [|c w cs ws Hc _ IH]; [done|]. cbn [concat]. apply decode_rows_app; [by apply Hc|done].
Qed.

(** The batches of an incremental read, and the position after it. *)
Lemma batches_outcome t ts p c (s s' : FlareElementStore) bs fin ws : windowed_schema t ts →
  match c with Some z => (0 ≤ z)%Z | None => True end →
  (∀ l, table_log (catalog s) (table_identifier (db_name s) p) = Some l → Forall2 (decode_to t) (commits l) ws) →
  read_incremental_batches p c s = (s', Ok (bs, fin)) →
  s' = s ∧ match table_log (catalog s) (table_identifier (db_name s) p) with
    | Some l =>
        if decide (commits l = []) then bs = [] ∧ fin = c
        else fin = Some (Z.of_nat (length (commits l))) ∧ is_i 64 (Z.of_nat (length (commits l))) ∧
          ∃ vs, decode_rows ts bs = Ok vs ∧ vs ≡ₚ concat (drop (unread l c) ws)
    | None => bs = [] ∧ fin = c
    end.
Proof.
  intros Hts Hpos Hlog Hr. set (id := table_identifier (db_name s) p) in *.
  apply st_bind_ok in Hr as (s2 & [stream fin'] & Hopen & Hr). apply st_bind_ok in Hr as (s3 & bs' & Hcol & Hr).
  apply st_lift_ok in Hcol as [-> Hcol]. injection Hr as <- <- <-.
  apply st_bind_ok in Hopen as (s1 & range & E1 & Hr). destruct (range_outcome _ _ _ _ _ Hpos E1) as [-> Hx].
  fold id in Hx. destruct range as [|n|tb start n].
  - injection Hr as <- <- <-. injection Hcol as <-. split; [done|]. destruct (table_log (catalog s) id) as [l|]; [|done]. by rewrite decide_True.
  - injection Hr as <- <- <-. injection Hcol as <-. split; [done|]. destruct Hx as (l & Hl & -> & Hi & Hn & Hu). rewrite Hl.
    pose proof (Forall2_length _ _ _ (Hlog l Hl)) as Hlen. rewrite decide_False by done.
    split; [done|]. split; [done|]. exists []. split; [done|]. by rewrite drop_ge by lia.
  - destruct Hx as (l & Hl & Hid & -> & Hi & Hn & -> & Hexp & Hu).
    apply st_bind_ok in Hr as (s4 & builder & Eb & Hr). apply st_lift_ok in Eb as [-> Eb]. injection Eb as <-.
    apply st_bind_ok in Hr as (s5 & plan & Ep & Hr). apply st_read_ok in Ep as [-> Ep].
    apply st_bind_ok in Hr as (s6 & bs & Es & Hr). apply st_read_ok in Es as [-> Es].
    injection Hr as <- <- <-. cbn in Hcol.
    assert (table_log (catalog s) id = Some l) as Hl' by (by rewrite <-Hid). rewrite Hl', decide_False by done. split; [done|].
    pose proof (Hlog l Hl') as Hd. split; [done|]. split; [done|].
    pose proof (incremental_rows _ _ _ _ _ _ _ _ Hl (conj Hexp Hu) (Nat.le_refl _) Ep Es Hcol) as Hrows.
    rewrite firstn_all in Hrows. apply (Hrows ts). eapply decode_commits; [done|]. by apply Forall2_drop.
Qed.

(** The cursor moves from [effective s r p], read into [s1], to [last]. *)
Lemma move_outcome `{!KvSingleWrite D} r p last (s s1 s4 : FlareElementStore) (q : outcome string ()) :
  positions_only s s1 → (∀ r', position s1 r' p = position s r' p) → (∀ r', effective s1 r' p = effective s r' p) →
  cursors s1 !! cursor_key r p = effective s r p → match last with Some n => is_i 64 n | None => effective s r p = None end →
  (match last with Some n => set_cursor r p n | None => mret () end : store ()) s1 = (s4, q) →
  positions_only s s4 ∧ (∀ r', r' ≠ r → position s4 r' p = position s r' p ∧ effective s4 r' p = effective s r' p) ∧
  (effective s4 r p = last ∧ position s4 r p = last ∨ is_ok q = false ∧
    (position s4 r p = position s r p ∧ effective s4 r p = effective s r p ∨
     position s4 r p = last ∧ (effective s4 r p = effective s r p ∨ effective s4 r p = last))).
Proof.
  intros Hpo Hps Heff Hcached Hfin E4. destruct last as [n|].
  - destruct (cursor_set r p n s1 s4 q Hfin E4) as (Hpo4 & Hothers & Hcase). split.
    { unfold positions_only in *. rewrite Hpo4, Hpo. by destruct s. }
    split; [intros r' Hne; destruct (Hothers r' Hne) as [-> ->]; by rewrite Hps, Heff|].
    destruct Hcase as [[Hp4 Hc4]|(Hq & Hp4 & Hc4)].
    + destruct q; cbn in Hc4; [left; unfold effective at 1; by rewrite Hc4|right; split; [done|]; right; split; [done|]..].
      all: unfold effective at 1 3; rewrite Hc4, Hcached; destruct (effective s r p) eqn:Ee; [by left|by right].
    + right. split; [done|]. left. rewrite Hp4, Hps. split; [done|]. rewrite <-Heff. unfold effective. by rewrite Hc4, Hp4.
  - injection E4 as <- <-. split; [done|]. split; [done|]. left. rewrite Heff, Hps, Hfin. split; [done|].
    unfold effective in Hfin. by destruct (cursors s !! _).
Qed.

(** A read that succeeds returns the rows of the unread commits, as often as they were
    committed, and moves its reader to the last commit.  One that fails leaves the reader where
    it was, except that its durable position may have moved already. *)
Lemma scan_outcome `{!KvSingleWrite D} p t r ts (s s' : FlareElementStore) res ws :
  registry s !! p = Some ts → windowed_schema t ts →
  match effective s r p with Some z => is_i 64 z ∧ (0 ≤ z)%Z | None => True end →
  (∀ l, table_log (catalog s) (table_identifier (db_name s) p) = Some l → Forall2 (decode_to t) (commits l) ws) →
  scan_windowed_values_since r p s = (s', res) →
  let last := match table_log (catalog s) (table_identifier (db_name s) p) with
    | Some l => if decide (commits l = []) then effective s r p else Some (Z.of_nat (length (commits l)))
    | None => effective s r p
    end in
  positions_only s s' ∧ (∀ r', r' ≠ r → position s' r' p = position s r' p ∧ effective s' r' p = effective s r' p) ∧
  match res with
  | Ok vs => effective s' r p = last ∧ position s' r p = last ∧
      vs ≡ₚ match table_log (catalog s) (table_identifier (db_name s) p) with
        | Some l => if decide (commits l = []) then [] else concat (drop (unread l (effective s r p)) ws)
        | None => []
        end
  | _ => position s' r p = position s r p ∧ effective s' r p = effective s r p ∨
      position s' r p = last ∧ (effective s' r p = effective s r p ∨ effective s' r p = last)
  end.
Proof.
  intros Hreg Hts Hpos Hlog Hs last.
  assert (∀ x, cursors_only s x → positions_only s x ∧ ∀ r', position x r' p = position s r' p) as Honly.
  { intros x Hx. rewrite Hx. split; [by destruct s|done]. }
  apply st_bind_inv in Hs as [(e & E & He & _)|(s0 & o & E0 & Hs)]; [by injection E as <- <-|]. apply st_read_ok in E0 as [-> E0].
  rewrite Hreg in E0. injection E0 as <-.
  apply st_bind_inv in Hs as [(e & E & He & Hr)|(s1 & c & E1 & Hs)].
  { destruct (cursor_read _ _ _ _ _ E) as (Hco & Heff & _). destruct (Honly _ Hco) as [Hpo Hps]. split; [done|].
    split; [done|]. destruct res; [done|by left..]. }
  destruct (cursor_read _ _ _ _ _ E1) as (Hco & Heff & Hok). destruct (Hok c eq_refl) as [-> Hcached]. clear Hok.
  destruct (Honly _ Hco) as [Hpo Hps].
  assert (catalog s1 = catalog s ∧ db_name s1 = db_name s) as [Hcat Hdb] by (by rewrite Hco).
  assert (∀ e : outcome string (list WindowedValue), is_ok e = false → s' = s1 → res = e →
    positions_only s s' ∧ (∀ r', r' ≠ r → position s' r' p = position s r' p ∧ effective s' r' p = effective s r' p) ∧
    position s' r p = position s r p ∧ effective s' r p = effective s r p ∧ is_ok res = false) as Hfail by (intros e He -> ->; by split_and!).
  apply st_bind_inv in Hs as [(e & E & He & Hr)|(s2 & [bs fin] & E2 & Hs)].
  { apply incremental_reads_only in E as ->. destruct (Hfail _ Hr eq_refl eq_refl) as (? & ? & ? & ? & _). destruct res; [done|by split_and!; [..|left]..]. }
  destruct (batches_outcome t ts p (effective s r p) s1 s2 bs fin ws Hts) as [-> Hb]; [by destruct (effective s r p); [destruct Hpos|]|by rewrite Hcat, Hdb|done|].
  rewrite Hcat, Hdb in Hb. set (id := table_identifier (db_name s) p) in *.
  apply st_bind_inv in Hs as [(e & E & He & Hr)|(s3 & rows & E3 & Hs)].
  { injection E as <- _. destruct (Hfail _ Hr eq_refl eq_refl) as (? & ? & ? & ? & _). destruct res; [done|by split_and!; [..|left]..]. }
  apply st_lift_ok in E3 as [-> E3]. assert (decode_rows ts bs = Ok (concat rows)) as Hrows by (unfold decode_rows; by rewrite E3).
  assert (fin = last ∧ match fin with Some n => is_i 64 n | None => effective s r p = None end) as [-> Hfin].
  { subst last. destruct (table_log (catalog s) id) as [l|]; [|destruct Hb as [_ ->]; split; [done|]; by destruct (effective s r p); [destruct Hpos|]].
    destruct (decide _); [destruct Hb as [_ ->]; split; [done|]; by destruct (effective s r p); [destruct Hpos|]|]. by destruct Hb as (-> & Hi & _). }
  assert (concat rows ≡ₚ match table_log (catalog s) id with
        | Some l => if decide (commits l = []) then [] else concat (drop (unread l (effective s r p)) ws) | None => [] end) as Hvs.
  { destruct (table_log (catalog s) id) as [l|]; [destruct (decide (commits l = []))|].
    - destruct Hb as [-> _]. by injection E3 as <-.
    - destruct Hb as (_ & _ & vs & Hvs & Hperm). rewrite Hrows in Hvs. by simplify_eq.
    - destruct Hb as [-> _]. by injection E3 as <-. }
  pose proof (λ s4 q, move_outcome r p last s s1 s4 q Hpo Hps Heff Hcached Hfin) as Hset.
  apply st_bind_inv in Hs as [(e & E & He & Hr)|(s4 & [] & E4 & Hs)].
  - apply Hset in E as (H1 & H2 & Hc). rewrite He in Hc. split; [done|]. split; [done|].
    destruct res; [done|destruct Hc as [[? ?]|[_ Hc]]; [right; auto|done]..].
  - apply Hset in E4 as (H1 & H2 & Hc). injection Hs as <- <-. split; [done|]. split; [done|].
    destruct Hc as [[? ?]|[Hq _]]; [done|done].
Qed.

(** With a store whose failed writes change nothing, a failed read moves no durable position. *)
Lemma failed_scan_keeps r p (s s' : FlareElementStore) res :
  (∀ (d : D) ws d' e, kv_apply d ws = (d', e) → is_ok e = false → kv_view d' = kv_view d) →
  scan_windowed_values_since r p s = (s', res) → is_ok res = false → ∀ r', position s' r' p = position s r' p.
Proof.
  intros Hclean Hs Hres. assert (kv_view (cursor_store s') = kv_view (cursor_store s)) as Hv; [|intros r'; unfold position; by rewrite Hv].
  apply st_bind_inv in Hs as [(e & E & He & _)|(s0 & o & E0 & Hs)]; [by injection E as <- <-|]. apply st_read_ok in E0 as [-> _].
  destruct o as [ts|]; [|by injection Hs as <- <-].
  apply st_bind_inv in Hs as [(e & E & _)|(s1 & c & E1 & Hs)]; [by destruct (cursor_read _ _ _ _ _ E) as [-> _]|].
  assert (cursor_store s1 = cursor_store s) as <- by (by destruct (cursor_read _ _ _ _ _ E1) as [-> _]).
  apply st_bind_inv in Hs as [(e & E & _)|(s2 & [bs fin] & E2 & Hs)]; [by apply incremental_reads_only in E as ->|].
  apply incremental_reads_only in E2 as ->. apply st_bind_inv in Hs as [(e & E & _)|(s3 & rows & E3 & Hs)]; [by injection E as <- _|].
  apply st_lift_ok in E3 as [-> _]. apply st_bind_inv in Hs as [(e & E & He & _)|(s4 & u & E4 & Hs)]; [|by injection Hs as <- <-].
  destruct fin as [n|]; [|by injection E as <- _]. unfold set_cursor, mbind, st_bind in E.
  destruct (kv_apply _ _) as [d [[]|?|?]] eqn:Ek; injection E as <- <-; [done|by apply (Hclean _ _ _ _ Ek)..].
Qed.
End readers.
