(* ===== verification/ElementProperties.v ===== *)
(** Properties of the element store (store/element_store.rs), and an in-memory catalog that
    keeps the laws. *)
From S2P Require Import Prelude Bytes Varint Windows Coders Arrow RecordTables WindowColumns Kv Watermark.
From S2P Require Import ArrowSpec RecordTableSpec WindowColumnsSpec ElementStore ElementStoreSpec RecordProperties.
From S2P Require Dispatcher.
Local Open Scope string_scope.
Local Open Scope list_scope.

(** * A run of the store *)

Section deliveries.
Context {W PaimonSchema D : Type} `{ArrowLaws} `{P : Profile} `{Hware : Warehouse W PaimonSchema} `{Hkv : KvStore D}.
Context `{!WarehouseLaws W PaimonSchema} `{!KvLaws D}.
#[local] Existing Instance paimon.
Abbreviation FlareElementStore := (@FlareElementStore W D).

(** The process ends; what is kept on disk stays. *)
Definition restarted (s : FlareElementStore) : FlareElementStore :=
  mkStore ∅ (catalog s) (db_name s) ∅ (cursor_store s) ∅ (pcollection_bucket_count s).

(** The store, the values of the commits of a PCollection in order, the values that were
    returned to each of its readers, and the readers with a read that failed although its
    cursor was written. *)
Record Deliveries : Type := mkDeliveries {
  state : FlareElementStore;
  written : list (list WindowedValue);
  delivered : gmap string (list WindowedValue);
  overrun : gset string;
}.

Definition delivered_to (d : Deliveries) (r : string) : list WindowedValue := default [] (delivered d !! r).

(** The operations on a PCollection [p] of kind [t], one after the other; each can fail. *)
Inductive store_step (p : string) (t : TableType) : Deliveries → Deliveries → Prop :=
| batch_written s s' w d o values : storable_values t values → write_windowed_value_batch p values s = (s', Ok ()) →
    store_step p t (mkDeliveries s w d o) (mkDeliveries s' (w ++ [values]) d o)
| batch_failed s s' w d o values res : storable_values t values → write_windowed_value_batch p values s = (s', res) → is_ok res = false →
    store_step p t (mkDeliveries s w d o) (mkDeliveries s' w d o)
| bundle_written s s' w d o batches : Forall (λ vs, vs = [] ∨ storable_values t vs) batches → concat batches ≠ [] →
    write_bundle p batches s = (s', Ok ()) → store_step p t (mkDeliveries s w d o) (mkDeliveries s' (w ++ [concat batches]) d o)
| bundle_failed s s' w d o batches res : Forall (λ vs, vs = [] ∨ storable_values t vs) batches →
    write_bundle p batches s = (s', res) → is_ok res = false → store_step p t (mkDeliveries s w d o) (mkDeliveries s' w d o)
| values_read s s' w d o r values : scan_windowed_values_since r p s = (s', Ok values) →
    store_step p t (mkDeliveries s w d o) (mkDeliveries s' w (<[r := delivered_to (mkDeliveries s w d o) r ++ values]> d) o)
| read_failed s s' w d o r res : scan_windowed_values_since r p s = (s', res) → is_ok res = false →
    store_step p t (mkDeliveries s w d o)
      (mkDeliveries s' w d (if decide (position s' r p = position s r p) then o else {[ r ]} ∪ o))
| process_restarted s w d o : store_step p t (mkDeliveries s w d o) (mkDeliveries (restarted s) w d o).

(** A store in which the PCollection was never written nor read. *)
Definition untouched (p : string) (s : FlareElementStore) : Prop :=
  registry s !! p = None ∧ table_log (catalog s) (table_identifier (db_name s) p) = None ∧ ∀ r, effective s r p = None.

(** * The invariant *)

Definition log_holds (p : string) (t : TableType) (s : FlareElementStore) (w : list (list WindowedValue)) : Prop :=
  match table_log (catalog s) (table_identifier (db_name s) p) with
  | Some l => expired l = 0 ∧ Forall2 (decode_to t) (commits l) w
  | None => w = []
  end.

(** What a reader that goes on from position [o] has got of the commits [w], up to [R]. *)
Definition up_to_position (R : relation (list WindowedValue)) (o : option Z) (w : list (list WindowedValue)) (values : list WindowedValue) : Prop :=
  match o with
  | Some z => ∃ k, z = Z.of_nat k ∧ (k ≤ length w)%nat ∧ R values (concat (take k w))
  | None => values = []
  end.

(** The durable position is not behind the effective one, nor beyond the commits. *)
Definition ahead (o durable : option Z) (w : list (list WindowedValue)) : Prop :=
  ∀ z, o = Some z → ∃ z', durable = Some z' ∧ (z ≤ z' ≤ Z.of_nat (length w))%Z.

Record kept (p : string) (t : TableType) (d : Deliveries) : Prop := {
  kept_schema ts : registry (state d) !! p = Some ts → windowed_schema t ts;
  kept_log : log_holds p t (state d) (written d);
  kept_ahead r : ahead (effective (state d) r p) (position (state d) r p) (written d);
  kept_readers r : up_to_position submseteq (effective (state d) r p) (written d) (delivered_to d r);
  kept_exact r : r ∉ overrun d → position (state d) r p = effective (state d) r p ∧
    up_to_position (≡ₚ) (effective (state d) r p) (written d) (delivered_to d r);
}.

Lemma up_to_position_app R o w w' values : up_to_position R o w values → up_to_position R o (w ++ w') values.
Proof.
  destruct o as [z|]; [|done]. intros (k & -> & Hk & Hv). exists k. rewrite length_app. split_and!; [done|lia|].
  by rewrite take_app_le.
Qed.

Lemma take_concat_submseteq {A} (l : list (list A)) (k k' : nat) : (k ≤ k')%nat → concat (take k l) ⊆+ concat (take k' l).
Proof. intros Hle. rewrite <-(take_drop k (take k' l)), take_take, Nat.min_l by lia. rewrite concat_app. apply submseteq_inserts_r. done. Qed.

(** A reader that is moved on has got no more than it should. *)
Lemma up_to_position_ahead o durable w values : ahead o durable w → (o = None → durable = None) →
  up_to_position submseteq o w values → up_to_position submseteq durable w values.
Proof.
  intros Ha Hn. destruct o as [z|]; [|by rewrite Hn]. destruct (Ha z eq_refl) as (z' & -> & Hz). intros (k & -> & Hk & Hv).
  exists (Z.to_nat z'). split_and!; [lia|lia|]. etrans; [done|]. apply take_concat_submseteq. lia.
Qed.

Lemma log_written p t s s' w new values : log_holds p t s w → db_name s' = db_name s →
  log_after (table_identifier (db_name s) p) (catalog s) (catalog s') new → Forall2 (decode_to t) new values →
  log_holds p t s' (w ++ values).
Proof.
  unfold log_holds. intros Hl -> [_ Ha] Hn. destruct Ha as [->|[-> ->]].
  - destruct (table_log (catalog s) _) as [l|]; cbn.
    + destruct Hl as [He Hf]. split; [done|]. by apply Forall2_app.
    + subst w. split; [done|]. done.
  - apply Forall2_nil_inv_l in Hn as ->. by rewrite app_nil_r.
Qed.

(** A write keeps the invariant for what it appended. *)
Lemma wrote_kept p t s s' w d o new values : kept p t (mkDeliveries s w d o) → wrote p t s s' new →
  Forall2 (decode_to t) new values → kept p t (mkDeliveries s' (w ++ values) d o).
Proof.
  intros [Hr Hl Ha Hp He] [Wc Wk Wd Wr Wl] Hn. cbn in *.
  assert (∀ r, position s' r p = position s r p ∧ effective s' r p = effective s r p) as Hsame.
  { intros r. unfold effective, position. by rewrite Wc, Wk. }
  split; cbn.
  - intros ts Hts. destruct (Wr ts Hts) as [|]; [by apply Hr|done].
  - by eapply log_written.
  - intros r z. destruct (Hsame r) as [-> ->]. intros Hz. destruct (Ha r z Hz) as (z' & ? & ?). exists z'. rewrite length_app. split; [done|lia].
  - intros r. destruct (Hsame r) as [_ ->]. by apply up_to_position_app, Hp.
  - intros r Hr'. destruct (Hsame r) as [-> ->]. destruct (He r Hr') as [? ?]. split; [done|]. by apply up_to_position_app.
Qed.

(** The commits that are left of a log that holds [w]. *)
Definition rest (o : option Z) (w : list (list WindowedValue)) : list WindowedValue := concat (drop (Z.to_nat (default 0%Z o)) w).

Lemma rest_completes R `{!PreOrder R} o w values : (∀ l, Proper (R ==> R) (λ x : list WindowedValue, x ++ l)) →
  up_to_position R o w values → R (values ++ rest o w) (concat w).
Proof.
  intros Happ. unfold rest. destruct o as [z|]; cbn [default Datatypes.id up_to_position].
  - intros (k & -> & Hk & Hv). rewrite Nat2Z.id. etrans; [by apply Happ|]. by rewrite <-concat_app, take_drop.
  - by intros ->.
Qed.

Lemma up_to_all (R : relation (list WindowedValue)) w values : R values (concat w) → up_to_position R (Some (Z.of_nat (length w))) w values.
Proof. intros HR. exists (length w). by rewrite firstn_all. Qed.

(** The values that a read hands out. *)
Definition handed_out (res : outcome string (list WindowedValue)) : list WindowedValue := match res with Ok values => values | _ => [] end.

(** What a read does to the readers of a log that holds [w]: its own stays where it is, is
    moved to the end with the values it is handed, or has its durable position moved there by
    a read that failed. *)
Lemma read_outcome `{!KvSingleWrite D} p t s s' w d o r res : kept p t (mkDeliveries s w d o) → scan_windowed_values_since r p s = (s', res) →
  positions_only s s' ∧ (∀ r', r' ≠ r → position s' r' p = position s r' p ∧ effective s' r' p = effective s r' p) ∧
  (is_ok res = true → registry s !! p ≠ None → handed_out res ≡ₚ rest (effective s r p) w) ∧
  (handed_out res = [] ∧ effective s' r p = effective s r p ∧ (position s' r p = position s r p ∨ position s' r p = effective s r p) ∨
   position s' r p = Some (Z.of_nat (length w)) ∧
     (effective s' r p = Some (Z.of_nat (length w)) ∧ handed_out res ≡ₚ rest (effective s r p) w ∨
      is_ok res = false ∧ (effective s' r p = effective s r p ∨ effective s' r p = Some (Z.of_nat (length w))))).
Proof.
  intros [Hr Hl Ha Hp He] Hs. cbn in *. destruct (registry s !! p) as [ts|] eqn:Ereg.
  2:{ apply st_bind_inv in Hs as [(e & E & He' & _)|(s0 & x & E0 & Hs)]; [by injection E as <- <-|].
      apply st_read_ok in E0 as [-> E0]. rewrite Ereg in E0. injection E0 as <-. injection Hs as <- <-. split; [by destruct s|].
      split; [done|]. split; [done|]. left. split_and!; [done|done|by left]. }
  destruct (scan_outcome p t r ts s s' res w Ereg (Hr ts eq_refl)) as (Hpo & Hother & Hres); [| |done|].
  { destruct (effective s r p) as [z|] eqn:Ez; [|done]. destruct (Ha r z Ez) as (z' & Hz' & Hle). apply position_i64 in Hz'.
    specialize (Hp r). rewrite Ez in Hp. destruct Hp as (k & -> & _). unfold is_i in *. lia. }
  { intros l El. unfold log_holds in Hl. rewrite El in Hl. by destruct Hl. }
  split; [done|]. split; [done|]. unfold log_holds in Hl.
  destruct (decide (w = [])) as [->|Hw].
  - assert (rest (effective s r p) [] = []) as -> by (unfold rest; by rewrite drop_nil).
    assert (match res with
      | Ok vs => effective s' r p = effective s r p ∧ position s' r p = effective s r p ∧ vs ≡ₚ []
      | _ => position s' r p = position s r p ∧ effective s' r p = effective s r p ∨
             position s' r p = effective s r p ∧ effective s' r p = effective s r p end) as Hres'.
    { destruct (table_log _ _) as [l|]; [destruct Hl as [_ Hf]; inversion Hf as [Hn|]; rewrite <-Hn in Hres; cbn in Hres|]; destruct res; naive_solver. }
    clear Hres. destruct res as [vs|?|?]; [destruct Hres' as (? & ? & ->%Permutation_nil_r)|..]; (split; [done|]); left; naive_solver.
  - destruct (table_log _ _) as [l|]; [|done]. destruct Hl as [Hexp Hf]. pose proof (Forall2_length _ _ _ Hf) as Hlen.
    assert (commits l ≠ []) as Hn by (intros Hn; rewrite Hn in Hlen; by destruct w). rewrite !(decide_False _ _ Hn) in Hres. rewrite <-Hlen.
    destruct res as [vs|?|?]; [|(split; [done|]); naive_solver..].
    destruct Hres as (? & ? & Hvs). assert (vs ≡ₚ rest (effective s r p) w) as Hrest; [|split; [done|]; naive_solver].
    rewrite Hvs. unfold rest, unread. rewrite Hexp.
    destruct (effective s r p) as [z|] eqn:Ez; [|done]. cbn. specialize (Hp r). rewrite Ez in Hp. destruct Hp as (k & -> & _).
    by rewrite Z.max_l by lia.
Qed.

Lemma submseteq_app_proper (l : list WindowedValue) : Proper (submseteq ==> submseteq) (λ x, x ++ l).
Proof. intros x y Hxy. by apply submseteq_app. Qed.

Lemma permutation_app_proper (l : list WindowedValue) : Proper ((≡ₚ) ==> (≡ₚ)) (λ x, x ++ l).
Proof. by intros x y ->. Qed.

Lemma read_kept `{!KvSingleWrite D} p t s s' w d d' o o' r res : kept p t (mkDeliveries s w d o) → scan_windowed_values_since r p s = (s', res) →
  (∀ r', delivered_to (mkDeliveries s' w d' o') r' = if decide (r' = r) then delivered_to (mkDeliveries s w d o) r ++ handed_out res
    else delivered_to (mkDeliveries s w d o) r') →
  o ⊆ o' → (is_ok res = false → r ∉ o' → position s' r p = position s r p) → kept p t (mkDeliveries s' w d' o').
Proof.
  intros Hk Hs Hd Ho Hover. destruct (read_outcome p t s s' w d o r res Hk Hs) as (Hpo & Hother & _ & Hmove).
  destruct Hk as [Hr Hl Ha Hp He]. cbn in *. unfold positions_only in Hpo. split; cbn.
  - rewrite Hpo. apply Hr.
  - unfold log_holds in *. by rewrite Hpo.
  - intros r'. destruct (decide (r' = r)) as [->|Hne]; [|destruct (Hother r' Hne) as [-> ->]; apply Ha].
    destruct Hmove as [(_ & -> & Hpos)|(-> & Hm)].
    + intros z Hz. destruct (Ha r z Hz) as (z' & Hz' & Hle). destruct Hpos as [->| ->]; [by exists z'|]. exists z. split; [done|lia].
    + assert (∀ z, effective s' r p = Some z → (z ≤ Z.of_nat (length w))%Z) as Hle.
      { intros z. destruct Hm as [[-> _]|[_ [->| ->]]]; [intros [= <-]; lia| |intros [= <-]; lia].
        intros Hz. destruct (Ha r z Hz) as (z' & _ & ?). lia. }
      intros z Hz. exists (Z.of_nat (length w)). split; [done|]. specialize (Hle z Hz). lia.
  - intros r'. rewrite Hd. destruct (decide (r' = r)) as [->|Hne]; [|destruct (Hother r' Hne) as [_ ->]; apply Hp].
    specialize (Hp r). destruct Hmove as [(-> & -> & _)|(_ & [[-> Hv]|[Hf Hm]])]; [by rewrite app_nil_r| |].
    + apply up_to_all. rewrite Hv. by apply (rest_completes submseteq); [apply submseteq_app_proper|].
    + replace (handed_out res) with (@nil WindowedValue) by (by destruct res). rewrite app_nil_r.
      destruct Hm as [->| ->]; [done|]. apply up_to_all. etrans; [by apply submseteq_inserts_r|].
      by apply (rest_completes submseteq); [apply submseteq_app_proper|].
  - intros r' Hr'. rewrite Hd. destruct (decide (r' = r)) as [->|Hne]; [|destruct (Hother r' Hne) as [-> ->]; apply He; set_solver].
    destruct (He r) as [Hpe Hx]; [set_solver|]. destruct Hmove as [(-> & -> & Hpos)|(Hpos & [[-> Hv]|[Hf Hm]])].
    + rewrite app_nil_r. split; [|done]. destruct Hpos as [->| ->]; done.
    + split; [done|]. apply up_to_all. rewrite Hv. by apply (rest_completes (≡ₚ)); [apply permutation_app_proper|].
    + replace (handed_out res) with (@nil WindowedValue) by (by destruct res). rewrite app_nil_r.
      rewrite (Hover Hf Hr') in Hpos |- *. replace (effective s' r p) with (effective s r p) by (destruct Hm as [->| ->]; congruence). done.
Qed.

Lemma restart_kept p t s w d o : kept p t (mkDeliveries s w d o) → kept p t (mkDeliveries (restarted s) w d o).
Proof.
  intros [Hr Hl Ha Hp He]. cbn in *.
  assert (∀ r, effective (restarted s) r p = position s r p) as Heff by (intros r; unfold effective, restarted; cbn; by rewrite lookup_empty).
  assert (∀ r, up_to_position submseteq (position s r p) w (delivered_to (mkDeliveries s w d o) r)) as Hreach.
  { intros r. apply (up_to_position_ahead (effective s r p)); [apply Ha| |apply Hp]. unfold effective. by destruct (cursors s !! _). }
  split; cbn; [done|done| | |]; intros r; rewrite Heff; change (position (restarted s) r p) with (position s r p).
  - intros z Hz. exists z. split; [done|]. specialize (Hreach r). rewrite Hz in Hreach. destruct Hreach as (k & -> & ? & _). lia.
  - apply Hreach.
  - intros Hr'. split; [done|]. destruct (He r Hr') as [-> ?]. done.
Qed.

Lemma step_kept `{!KvSingleWrite D} p t d d' : store_step p t d d' → kept p t d → kept p t d'.
Proof.
  intros Hstep Hk. destruct Hstep as [s s' w d o values Hv Hw|s s' w d o values r Hv Hw Hr|s s' w d o batches Hb Hne Hw
    |s s' w d o batches r Hb Hw Hr|s s' w d o r values Hs|s s' w d o r res Hs Hres|s w d o].
  - destruct (write_values_outcome p t values s s' _ Hv Hw) as (new & Hwr & bs & -> & Hd).
    eapply wrote_kept; [exact Hk|exact Hwr|by repeat constructor].
  - destruct (write_values_outcome p t values s s' _ Hv Hw) as (new & Hwr & Hn). rewrite Hr in Hn. subst new.
    rewrite <-(app_nil_r w). eapply wrote_kept; [exact Hk|exact Hwr|constructor].
  - destruct (bundle_outcome p t batches s s' _ Hb Hw) as (new & Hwr & Hn). cbn in Hn. destruct Hn as [[? _]|(_ & bs & -> & Hd)]; [done|].
    eapply wrote_kept; [exact Hk|exact Hwr|by repeat constructor].
  - destruct (bundle_outcome p t batches s s' _ Hb Hw) as (new & Hwr & Hn). rewrite Hr in Hn. subst new.
    rewrite <-(app_nil_r w). eapply wrote_kept; [exact Hk|exact Hwr|constructor].
  - eapply read_kept; [exact Hk|exact Hs| |reflexivity|discriminate]. intros r'. unfold delivered_to at 1. cbn [delivered].
    case_decide as E; [subst; by rewrite lookup_insert_eq|by rewrite lookup_insert_ne].
  - eapply read_kept; [exact Hk|exact Hs| |case_decide; set_solver|intros _; case_decide; set_solver].
    intros r'. destruct (decide (r' = r)) as [->|]; [|done]. replace (handed_out res) with (@nil WindowedValue) by (by destruct res). by rewrite app_nil_r.
  - by apply restart_kept.
Qed.

Lemma steps_kept `{!KvSingleWrite D} p t d d' : rtc (store_step p t) d d' → kept p t d → kept p t d'.
Proof. induction 1 as [|d d1 d' Hs _ IH]; [done|]. intros Hk. apply IH. by eapply step_kept. Qed.

(** With a store whose failed writes change nothing, no reader is overrun. *)
Lemma never_overrun p t d d' :
  (∀ (c : D) ws c' e, kv_apply c ws = (c', e) → is_ok e = false → kv_view c' = kv_view c) →
  rtc (store_step p t) d d' → overrun d' = overrun d.
Proof.
  intros Hclean. induction 1 as [|d d1 d' Hs _ ->]; [done|]. destruct Hs as [| | | | |s s' w d o r res Hs Hres|]; try done.
  cbn. by rewrite decide_True by (by eapply failed_scan_keeps).
Qed.

(** C9: the output of a bundle is committed once, or not at all.  However its values are
    split into batches, a bundle that succeeds appends one commit to the log of its
    PCollection, which decodes to all its values in order, and folds their minimum timestamp
    into the recorded one; a bundle with no values, and one that fails at any point, leaves
    the commits and the recorded minimum as they are. *)
Theorem bundle_commits_once p t batches (s s' : FlareElementStore) r :
  Forall (λ vs, vs = [] ∨ storable_values t vs) batches → write_bundle p batches s = (s', r) →
  let log s := default [] (commits <$> table_log (catalog s) (table_identifier (db_name s) p)) in
  (if is_ok r && negb (bool_decide (concat batches = [])) then ∃ bs, log s' = log s ++ [bs] ∧ decode_to t bs (concat batches) else log s' = log s) ∧
  commit_min_ts s' = (if is_ok r then mins_after p (commit_min_ts s) (concat batches) else commit_min_ts s).
Proof.
  intros Hall Hw log. split; [|by eapply bundle_mins]. destruct (bundle_outcome p t batches s s' r Hall Hw) as (new & Hwr & Hn).
  assert (log s' = log s ++ new) as Hlog.
  { subst log. cbn. rewrite (wrote_db _ _ _ _ _ Hwr). destruct (wrote_log _ _ _ _ _ Hwr) as [_ [->|[-> ->]]]; [|by rewrite app_nil_r].
    cbn. by destruct (table_log _ _). }
  rewrite Hlog. destruct r as [u|?|?]; cbn in Hn |- *; [|by rewrite Hn, app_nil_r..].
  destruct Hn as [[Hc ->]|(Hc & bs & -> & Hd)]; [rewrite Hc, app_nil_r; by rewrite bool_decide_true by done|].
  rewrite bool_decide_false by done. by exists bs.
Qed.

(** C8: every value is delivered to every reader once.  However batches, bundles, reads,
    failures of each of them and restarts follow each other, no reader gets a value twice.  One
    that had no read whose cursor was written although the read failed has got the values of
    the first commits of the PCollection, each once, and its next successful read of a
    registered PCollection gives it the rest; with a key/value store whose failed writes leave
    it as it was every reader is such a one. *)
Theorem readers_see_each_value_once `{!KvSingleWrite D} p t s d : untouched p s → rtc (store_step p t) (mkDeliveries s [] ∅ ∅) d →
  (∀ r, delivered_to d r ⊆+ concat (written d) ∧
    ∀ s' values, scan_windowed_values_since r p (state d) = (s', Ok values) → delivered_to d r ++ values ⊆+ concat (written d)) ∧
  (∀ r, r ∉ overrun d → (∃ k, delivered_to d r ≡ₚ concat (take k (written d))) ∧
    ∀ s' values, registry (state d) !! p ≠ None → scan_windowed_values_since r p (state d) = (s', Ok values) →
      delivered_to d r ++ values ≡ₚ concat (written d)) ∧
  ((∀ (c : D) ws c' e, kv_apply c ws = (c', e) → is_ok e = false → kv_view c' = kv_view c) → overrun d = ∅).
Proof.
  intros (Hreg & Hlog & Hpos) Hsteps. assert (kept p t (mkDeliveries s [] ∅ ∅)) as Hk.
  { split; cbn; [by rewrite Hreg|unfold log_holds; by rewrite Hlog|intros r z; by rewrite Hpos|intros r; by rewrite Hpos|].
    intros r _. pose proof (Hpos r) as Hr. rewrite Hr. split; [|done]. unfold effective in Hr. by destruct (cursors s !! _). }
  apply (steps_kept _ _ _ _ Hsteps) in Hk. split_and!; [intros r|intros r Hr|by intros Hclean; rewrite (never_overrun _ _ _ _ Hclean Hsteps)].
  - assert (∀ d', kept p t d' → delivered_to d' r ⊆+ concat (written d')) as Honce.
    { intros d' Hk'. pose proof (kept_readers _ _ _ Hk' r) as Hr. destruct (effective (state d') r p) as [z|]; [|rewrite Hr; apply submseteq_nil_l].
      destruct Hr as (k & _ & Hle & Hv). etrans; [done|]. rewrite <-(firstn_all (written d')) at 2. by apply take_concat_submseteq. }
    split; [by apply Honce|]. intros s' values Hs. destruct d as [sd w dd o]. cbn in Hs.
    specialize (Honce _ (step_kept _ _ _ _ (values_read p t sd s' w dd o r values Hs) Hk)). unfold delivered_to in Honce at 1.
    cbn in Honce. by rewrite lookup_insert_eq in Honce.
  - destruct (kept_exact _ _ _ Hk r Hr) as [_ Hx]. split.
    + destruct (effective (state d) r p) as [z|]; [destruct Hx as (k & _ & _ & Hv); by exists k|]. exists 0. by rewrite Hx.
    + intros s' values Hne Hs. destruct d as [sd w dd o]. destruct (read_outcome p t sd s' w dd o r _ Hk Hs) as (_ & _ & Hv & _).
      cbn in *. rewrite Hv by done. by apply (rest_completes (≡ₚ)); [apply permutation_app_proper|].
Qed.
End deliveries.

(** * A catalog in memory *)

Abbreviation MemSchema := (list (string * PaimonDataType) * list (string * string))%type.
Abbreviation MemCatalog := (gmap Identifier (MemSchema * TableLog)).

Definition option_of (options : list (string * string)) (key : string) : option string :=
  snd <$> head (base.filter (λ o, o.1 = key) options).

(** Every operation succeeds; filters are ignored. *)
Definition mem_warehouse : Warehouse MemCatalog MemSchema := {|
  Table := Identifier * MemSchema;
  TableWrite := list RecordBatch;
  Messages := list RecordBatch;
  Plan := list RecordBatch;
  Split := RecordBatch;
  paimon := accept_paimon;
  get_catalog_table c id := match c !! id with Some (sch, _) => Ok (id, sch) | None => Err TableNotExist end;
  create_table c id sch := (match c !! id with Some _ => c | None => <[id := (sch, empty_log)]> c end, Ok ());
  table_option t key := option_of t.2.2 key;
  bucket_keys t := match option_of t.2.2 "bucket-key" with Some key => [key] | None => [] end;
  new_write _ := Ok [];
  write_arrow_batch w b := Ok (w ++ [b]);
  prepare_commit w := Ok w;
  commit c t m := match c !! t.1 with
    | Some (sch, l) => (<[t.1 := (sch, append_log l [m])]> c, Ok ()) | None => (c, Err "no table") end;
  get_latest_snapshot_id c t := match c !! t.1 with
    | Some (_, l) => let n := Z.of_nat (length (commits l)) in
        match commits l with [] => Ok None | _ => if in_i 64 n then Ok (Some n) else Err "overflow" end
    | None => Ok None end;
  earliest_snapshot_id c t := match c !! t.1 with
    | Some (_, l) => if decide (expired l < length (commits l))%nat then Ok (Some (Z.of_nat (S (expired l)))) else Err "nothing kept"
    | None => Err "no table" end;
  check_projection _ _ := Ok ();
  greater_than _ column bound := Ok (GreaterThan column bound);
  is_null_column _ column := Ok (IsNull column);
  plan_scan c t _ := Ok (match c !! t.1 with Some (_, l) => concat (commits l) | None => [] end);
  plan_incremental c t _ start fin :=
    Ok (match c !! t.1 with Some (_, l) => concat (drop (Z.to_nat start) (take (Z.to_nat fin) (commits l))) | None => [] end);
  read_plan _ plan := Ok (Ok <$> plan);
  plan_splits plan := plan;
  bucket_of _ := 0%Z;
  read_splits _ splits := Ok (Ok <$> splits);
|}.

Lemma traverse_id_ok {A} (l : list A) bs : traverse (E:=string) id (Ok <$> l) = Ok bs → bs = l.
Proof. rewrite traverse_fmap, (traverse_ok _ id), list_fmap_id by done. by intros [= <-]. Qed.

Lemma same_rows_refl bs : same_rows bs bs.
Proof. intros ts vs Hv. by exists vs. Qed.

#[local] Program Instance mem_laws : @WarehouseLaws MemCatalog MemSchema accept_arrow release_profile mem_warehouse := {|
  table_log (c : MemCatalog) id := snd <$> c !! id;
  table_id t := t.1;
  staged w := w;
  messages_of m := m;
|}.
Next Obligation. cbn. intros c id t Ht. destruct (c !! id) as [[sch l]|]; simplify_eq. split; [done|by eexists]. Qed.
Next Obligation. cbn. intros c id Ht. by destruct (c !! id) as [[sch l]|]. Qed.
Next Obligation.
  cbn. intros c id sch c' r id' [= <- _]. destruct (c !! id) as [x|] eqn:E; [by left|].
  destruct (decide (id' = id)) as [->|Hne]; [right; by rewrite lookup_insert_eq|left; by rewrite lookup_insert_ne].
Qed.
Next Obligation. cbn. by intros t w [= <-]. Qed.
Next Obligation. cbn. by intros w b w' [= <-]. Qed.
Next Obligation. cbn. by intros w m [= <-]. Qed.
Next Obligation.
  cbn. intros c t m c' r l Hc Hl. destruct (c !! t.1) as [[sch l']|]; simplify_eq/=. by rewrite lookup_insert_eq.
Qed.
Next Obligation.
  cbn. intros c t m c' r id Hc Hne. destruct (c !! t.1) as [[sch l']|]; simplify_eq/=; [by rewrite lookup_insert_ne|done].
Qed.
Next Obligation.
  cbn. intros c t o l Ho Hl. destruct (c !! t.1) as [[sch l']|]; simplify_eq/=. destruct (commits l); [by simplify_eq|].
  destruct (in_i 64 _); by simplify_eq.
Qed.
Next Obligation.
  cbn. intros c t n Ho. destruct (c !! t.1) as [[sch l']|]; simplify_eq/=. destruct (commits l'); simplify_eq.
  destruct (in_i 64 _) eqn:Hi; simplify_eq. by apply in_i_spec.
Qed.
Next Obligation.
  cbn. intros c t o l Ho Hl _. destruct (c !! t.1) as [[sch l']|]; simplify_eq/=. case_decide; by simplify_eq.
Qed.
Next Obligation.
  cbn. intros c t start fin l plan stream bs Hl _ _ [= <-] [= <-] Hb. apply traverse_id_ok in Hb as ->.
  destruct (c !! t.1) as [[sch l']|]; simplify_eq/=. rewrite !Nat2Z.id. apply same_rows_refl.
Qed.
Next Obligation.
  cbn. intros c t l plan stream bs Hl [= <-] [= <-] Hb. apply traverse_id_ok in Hb as ->.
  destruct (c !! t.1) as [[sch l']|]; simplify_eq/=. apply same_rows_refl.
Qed.

(** ** A run *)

Section demo.
#[local] Existing Instances accept_arrow accept_arrow_laws mem_warehouse release_profile.
Abbreviation MemStore := (@FlareElementStore MemCatalog (gmap bytes bytes)).

Definition demo_value (key : string) (n at_millis : Z) : WindowedValue :=
  mkWindowedValue (KV (PString key) (PRIMITIVE (PInt64 n))) at_millis [IntervalWindow 0 10; GlobalWindow] on_time_firing.
Definition demo_batch : list WindowedValue := [demo_value "a" 1 5; demo_value "b" 2 7].
Definition demo_bundle : list (list WindowedValue) := [[demo_value "a" 3 2]; []; [demo_value "c" 4 9]].

Definition store0 : MemStore := mkStore ∅ ∅ "db" ∅ ∅ ∅ 32.
Definition store1 : MemStore := (write_windowed_value_batch "a/b" demo_batch store0).1.
Definition store2 : MemStore := (scan_windowed_values_since "r1" "a/b" store1).1.
Definition store3 : MemStore := (write_bundle "a/b" demo_bundle (restarted store2)).1.

Lemma run_ok {B A} (f : st B A) s a : (f s).2 = Ok a → f s = ((f s).1, Ok a).
Proof. destruct (f s). cbn. by intros ->. Qed.

Lemma demo_storable values : values ∈ demo_batch :: demo_bundle → values = [] ∨ storable_values TKv values.
Proof.
  intros Hin. repeat (apply elem_of_cons in Hin as [->|Hin]); [right..|by left|right|by apply elem_of_nil in Hin];
    eexists; (split_and!; [vm_compute; reflexivity|reflexivity|repeat constructor|repeat constructor| |by vm_compute]);
    repeat constructor; by vm_compute.
Qed.

(** A run over a key/value store whose second flush fails. *)
Abbreviation FlakyStore := (@FlareElementStore MemCatalog flaky_db).
Definition flaky0 : FlakyStore := mkStore ∅ ∅ "db" ∅ (mkFlaky [true; false] ∅) ∅ 32.
Definition flaky1 : FlakyStore := (write_windowed_value_batch "a/b" demo_batch flaky0).1.
Definition flaky2 : FlakyStore := (scan_windowed_values_since "r1" "a/b" flaky1).1.
Definition flaky3 : FlakyStore := (write_bundle "a/b" demo_bundle (restarted flaky2)).1.
Definition flaky4 : FlakyStore := (scan_windowed_values_since "r2" "a/b" flaky3).1.
Definition flaky5 : FlakyStore := (scan_windowed_values_since "r1" "a/b" flaky4).1.
Definition demo_deliveries : Deliveries :=
  mkDeliveries flaky5 [demo_batch; concat demo_bundle] {[ "r1" := demo_batch ++ concat demo_bundle ]} {[ "r2" ]}.

Lemma read_step (p : string) (t : TableType) (s s' : FlakyStore) w d d' o r values : scan_windowed_values_since r p s = (s', Ok values) →
  d' = <[r := delivered_to (mkDeliveries s w d o) r ++ values]> d → store_step p t (mkDeliveries s w d o) (mkDeliveries s' w d' o).
Proof. intros Hs ->. by apply values_read. Qed.

Lemma failed_step (p : string) (t : TableType) (s : FlakyStore) w d o o' r : is_ok (scan_windowed_values_since r p s).2 = false →
  (if decide (position (scan_windowed_values_since r p s).1 r p = position s r p) then o else {[ r ]} ∪ o) = o' →
  store_step p t (mkDeliveries s w d o) (mkDeliveries (scan_windowed_values_since r p s).1 w d o').
Proof. intros Hf <-. apply (read_failed p t s _ w d o r (scan_windowed_values_since r p s).2); [apply surjective_pairing|done]. Qed.

Lemma demo_run : rtc (store_step "a/b" TKv) (mkDeliveries flaky0 [] ∅ ∅) demo_deliveries.
Proof.
  apply rtc_l with (mkDeliveries flaky1 [demo_batch] ∅ ∅).
  { apply (batch_written "a/b" TKv flaky0 flaky1 [] ∅ ∅ demo_batch); [|apply run_ok; by vm_compute].
    destruct (demo_storable demo_batch) as [|]; [by left|done|done]. }
  apply rtc_l with (mkDeliveries flaky2 [demo_batch] {[ "r1" := demo_batch ]} ∅).
  { apply (read_step "a/b" TKv flaky1 flaky2 [demo_batch] ∅ _ ∅ "r1" demo_batch); [apply run_ok|]; by vm_compute. }
  apply rtc_l with (mkDeliveries (restarted flaky2) [demo_batch] {[ "r1" := demo_batch ]} ∅); [apply process_restarted|].
  apply rtc_l with (mkDeliveries flaky3 [demo_batch; concat demo_bundle] {[ "r1" := demo_batch ]} ∅).
  { apply (bundle_written "a/b" TKv (restarted flaky2) flaky3 [demo_batch] _ ∅ demo_bundle); [|done|apply run_ok; by vm_compute].
    apply Forall_forall. intros values Hin. apply demo_storable. by right. }
  apply rtc_l with (mkDeliveries flaky4 [demo_batch; concat demo_bundle] {[ "r1" := demo_batch ]} {[ "r2" ]}).
  { apply (failed_step "a/b" TKv flaky3); by vm_compute. }
  apply rtc_once.
  apply (read_step "a/b" TKv flaky4 flaky5 [demo_batch; concat demo_bundle] {[ "r1" := demo_batch ]} _ {[ "r2" ]} "r1" (concat demo_bundle)); [apply run_ok|]; by vm_compute.
Qed.

Lemma demo_untouched : untouched "a/b" flaky0.
Proof. split_and!; [done|done|done]. Qed.

(** The reader whose read failed behind its cursor write never gets its values. *)
Lemma failed_read_skips : (scan_windowed_values_since "r2" "a/b" flaky3).2 = Err "object store unavailable" ∧
  (scan_windowed_values_since "r2" "a/b" flaky4).2 = Ok [].
Proof. split; by vm_compute. Qed.

Lemma readers_see_each_value_once_witness :
  (∃ k, delivered_to demo_deliveries "r1" ≡ₚ concat (take k (written demo_deliveries))) ∧
  delivered_to demo_deliveries "r2" ⊆+ concat (written demo_deliveries) ∧
  ∃ values, (scan_windowed_values_since "r3" "a/b" flaky5).2 = Ok values ∧ delivered_to demo_deliveries "r3" ++ values ≡ₚ concat (written demo_deliveries).
Proof.
  destruct (readers_see_each_value_once "a/b" TKv flaky0 _ demo_untouched demo_run) as (Honce & Hexact & _).
  assert ("r1" ∉ overrun demo_deliveries ∧ "r3" ∉ overrun demo_deliveries) as [H1 H3] by (split; by apply not_elem_of_singleton).
  split; [apply (Hexact _ H1)|]. split; [apply (Honce "r2")|]. exists (demo_batch ++ concat demo_bundle).
  assert ((scan_windowed_values_since "r3" "a/b" flaky5).2 = Ok (demo_batch ++ concat demo_bundle)) as Hs by (by vm_compute).
  split; [exact Hs|]. apply run_ok in Hs. apply (proj2 (Hexact _ H3) _ _ ltac:(by vm_compute) Hs).
Defined.

Lemma bundle_commits_once_witness : let log (s : MemStore) := default [] (commits <$> table_log (catalog s) (table_identifier (db_name s) "a/b")) in
  (∃ bs, log store3 = log (restarted store2) ++ [bs] ∧ decode_to TKv bs (concat demo_bundle)) ∧ commit_min_ts store3 !! "a/b" = Some 2%Z.
Proof.
  assert (Forall (λ vs, vs = [] ∨ storable_values TKv vs) demo_bundle) as Hall
    by (apply Forall_forall; intros values Hin; apply demo_storable; by right).
  assert ((write_bundle "a/b" demo_bundle (restarted store2)).2 = Ok ()) as Hw by (by vm_compute). apply run_ok in Hw.
  destruct (bundle_commits_once "a/b" TKv demo_bundle (restarted store2) store3 (Ok ()) Hall Hw) as [Hl Hm].
  split; [exact Hl|]. rewrite Hm. by vm_compute.
Defined.

(** C10: the values of a PCollection survive their table.  A batch built for windowed values
    that a table can hold, which has their timestamps, windows and panes in columns of its
    own, decodes to the values, whatever schema of its kind it is read with. *)
Theorem windowed_values_read_back `{Ha : ArrowLaws} `{Q : Profile} t values : storable_values t values →
  ∃ b, windowed_batch values = Ok (b, t) ∧
    ∀ ts, table_type ts = t → has_windowed_metadata ts = true → windowed_values_from_batch b ts = Ok values.
Proof. intros Hv. destruct (windowed_batch_decodes t values Hv) as (b & Hb & _ & Hd). by exists b. Qed.

Lemma windowed_values_read_back_witness : ∃ b, windowed_batch demo_batch = Ok (b, TKv) ∧
  ∀ ts, table_type ts = TKv → has_windowed_metadata ts = true → windowed_values_from_batch b ts = Ok demo_batch.
Proof. apply (windowed_values_read_back TKv demo_batch). destruct (demo_storable demo_batch) as [Hn|Hs]; [by left|discriminate Hn|exact Hs]. Defined.
End demo.
