(* ===== verification/WatermarkProperties.v ===== *)
(** The properties of the watermark manager and of the scheduler, each with a
    witness on a small pipeline. *)
From S2P Require Import Prelude Bytes Varint Windows Kv UserState Timers.
From S2P Require Import Watermark WatermarkRefresh WatermarkBundles WatermarkInvariant.
From S2P Require Import Scheduler SchedulerSpec.

(** * A pipeline for the witnesses: an impulse feeding a worker stage *)

Definition demo_graph : ExecutableGraph :=
  mkGraph
    [Runner (mkRunner "src" ["beam:transform:impulse:v1"] ["p"] true);
     Worker (mkWorker "map" ["t"] [] ["q"] false)]
    [mkEdge 0 1 "p"]
    (mkComponents ∅ ∅).

Definition demo : WatermarkManager := from_executable_graph demo_graph.
Definition demo_scheduler : NodeScheduler := scheduler_new 1 demo_graph.

(** The impulse has run: its bundle was started and completed. *)
Definition demo_started : WatermarkManager := or_unchanged demo (start_bundle demo "src").
Definition demo_done : WatermarkManager :=
  match complete_bundle demo_started "src" with Ok (m, _) => m | _ => demo_started end.

Definition demo_rank (id : StageId) : nat := if decide (id = "src") then 0 else 1.

Lemma demo_reachable : reachable demo.
Proof. apply from_graph_reachable. Qed.

Lemma demo_wf : wf_graph demo_graph.
Proof.
  split.
  - apply (bool_decide_eq_true_1 _). vm_compute. reflexivity.
  - intros e He. apply list_elem_of_singleton in He as ->. simpl. lia.
  - intros node p Hn Hp. exfalso. cbn [g_nodes demo_graph] in Hn. rewrite !elem_of_cons in Hn.
    destruct Hn as [->|[->|Hn]]; [| |by apply elem_of_nil in Hn]; by apply elem_of_nil in Hp.
Qed.

Lemma demo_acyclic : acyclic demo_graph demo_rank.
Proof.
  intros [|[|i]] [|[|j]] ni nj p Ei Ej Hi Hj; try done; injection Ei as <-; injection Ej as <-;
    change (main_inputs_of demo_graph 0) with (@nil PCollectionId) in Hi;
    change (main_inputs_of demo_graph 1) with ["p"] in Hi;
    rewrite elem_of_app in Hi; destruct Hi as [Hi|Hi];
    try (by apply elem_of_nil in Hi).
  - vm_compute. lia.
  - apply list_elem_of_singleton in Hi as ->.
    assert (Ho : "p" ∉ outputs_of demo_graph 1 (Worker (mkWorker "map" ["t"] [] ["q"] false)))
      by (apply (bool_decide_eq_true_1 _); vm_compute; reflexivity).
    by destruct Ho.
Qed.

(** * Propagation *)

(** C1: in every state the manager can reach, [refresh] returns the least state
    above the current one that satisfies the propagation equations (input and
    output watermarks at least what producers, pending input and holds allow),
    reports exactly the stages whose watermark moved, and a second refresh moves
    nothing. *)
Theorem refresh_least_fixpoint m :
  reachable m →
  let m' := (refresh m).1 in
  m ⊑ m' ∧ closed m' ∧ (∀ M, m ⊑ M → closed M → m' ⊑ M)
  ∧ (∀ id, id ∈ (refresh m).2 ↔ grew m m' id) ∧ refresh m' = (m', []).
Proof.
  intros Hm m'. pose proof (manager_ok_bounded m (reachable_ok m Hm)) as Hb.
  destruct (refresh_progress m Hb) as (adv & Hp & Ha & Hc). fold m' in Hp, Hc.
  split_and!; [by eapply prog_le|done|by eapply prog_least| |].
  - intros id. rewrite Ha, elem_of_sort_ids, elem_of_elements, (prog_advanced _ _ _ _ Hp). set_solver.
  - apply refresh_closed_id; [by eapply prog_bounded|done].
Qed.

Lemma refresh_least_fixpoint_witness : closed (refresh demo).1 ∧ refresh (refresh demo).1 = ((refresh demo).1, []).
Proof. destruct (refresh_least_fixpoint demo demo_reachable) as (_ & Hc & _ & _ & Hr). by split. Defined.

(** The [while changed] loop of [refresh] ends: within the bound the last pass
    changes no watermark, whatever sequence of operations led to the state. *)
Theorem refresh_loop_ends m :
  reachable m →
  ∃ m' advanced, refresh_loop (refresh_bound m) (stage_ids m) m ∅ = (m', advanced, false) ∧ closed m'.
Proof.
  intros Hm. destruct (refresh_terminates m (manager_ok_bounded m (reachable_ok m Hm))) as (m' & adv & E & _ & Hc).
  by exists m', adv.
Qed.

Lemma refresh_loop_ends_witness :
  ∃ m' advanced, refresh_loop (refresh_bound demo) (stage_ids demo) demo ∅ = (m', advanced, false) ∧ closed m'.
Proof. exact (refresh_loop_ends demo demo_reachable). Defined.

(** C2: a refresh never carries an output watermark past what holds it back: the
    earliest hold, the watermark of the first bundle while that bundle is
    outstanding, the earliest unconsumed input, and the output watermark of every
    producer of a main input.  An unresolved empty input keeps it where it was. *)
Theorem refresh_respects_holds m id s s' :
  reachable m → stages m !! id = Some s → stages (refresh m).1 !! id = Some s' →
  (∀ h, stage_min_hold s = Some h → output s' ≤ Z.max (output s) h)%Z
  ∧ (pending_empty s ≠ ∅ → output s' = output s)
  ∧ (completed s = false → 0 < in_flight s ∨ 0 < queued s →
       (output s' ≤ Z.max (output s) (watermark_at_last_run s))%Z)
  ∧ (source s = None →
       (output s' ≤ Z.max (output s) (pending_min s))%Z
       ∧ ∀ p, p ∈ main_inputs s → (output s' ≤ Z.max (output s) (upstream (refresh m).1 p))%Z).
Proof.
  intros Hm E E'. destruct (refresh_justified m id s s' (reachable_ok m Hm) E E') as [R Hj].
  destruct (refresh_progress m (manager_ok_bounded m (reachable_ok m Hm))) as (adv & Hp & _ & _).
  destruct (manager_le_lookup _ _ _ _ (prog_le _ _ _ _ Hp) E) as (s1 & E1 & _ & _ & Ho).
  assert (s1 = s') as -> by congruence.
  destruct (manager_ok_bounded m (reachable_ok m Hm) id s E) as [_ [Hmin _]].
  apply same_rest_fields in R as (Rm & _ & Rs & Rp & Rc & Ri & Rq & Rw & Re & Rh & Rr).
  assert (Hh : stage_min_hold s' = stage_min_hold s) by (unfold stage_min_hold; by rewrite Rh, Rr).
  destruct (compute_output_upper (refresh m).1 s') as (U1 & U2 & U3 & U4). split_and!.
  - intros h Hs. specialize (U1 h). rewrite Hh in U1. specialize (U1 Hs). lia.
  - intros Hpe. rewrite <- Re in U2. specialize (U2 Hpe). lia.
  - intros Hc Hw. rewrite <- Rc, <- Ri, <- Rq, <- Rw in U3. specialize (U3 Hc Hw). lia.
  - intros Hs. rewrite <- Rs, <- Rp, <- Rm in U4. destruct (U4 Hs) as [Ua Ub]. split; [lia|].
    intros p Hin. specialize (Ub p Hin). lia.
Qed.

(** The demo with a hold at 7 on the impulse, which reported the end of its input. *)
Definition demo_held : WatermarkManager :=
  or_unchanged (or_unchanged demo (report_source_finished demo "src"))
    (add_hold (or_unchanged demo (report_source_finished demo "src")) "src" 7).

Lemma demo_held_reachable : reachable demo_held.
Proof.
  apply (or_unchanged_reachable _ (AddHold "src" 7)), (or_unchanged_reachable _ (SourceFinished "src")).
  apply demo_reachable.
Qed.

Lemma refresh_respects_holds_witness :
  ∃ s', stages (refresh demo_held).1 !! "src" = Some s' ∧ (output s' ≤ 7)%Z.
Proof.
  destruct (stages demo_held !! "src") as [s|] eqn:E; [|vm_compute in E; discriminate E].
  destruct (stages (refresh demo_held).1 !! "src") as [s'|] eqn:E'; [|vm_compute in E'; discriminate E'].
  exists s'. split; [done|].
  destruct (refresh_respects_holds demo_held "src" s s' demo_held_reachable E E') as [H _].
  vm_compute in E. injection E as <-. specialize (H 7%Z eq_refl). vm_compute in H. vm_compute. exact H.
Defined.

(** C3: watermarks never go back: over any sequence of operations on a registered
    pipeline (bundles, reports, holds, timers, refreshes, releases) the input and
    output watermark of every stage only grow. *)
Theorem watermarks_never_regress m m' id s :
  reachable m → runs m m' → stages m !! id = Some s →
  ∃ s', stages m' !! id = Some s' ∧ (input s ≤ input s')%Z ∧ (output s ≤ output s')%Z.
Proof.
  intros Hm Hr Es. pose proof (reachable_ok m Hm) as Hok.
  induction Hr as [|m1 o m2 Hr (s1 & E1 & HI & HO) Ho H]; [exists s; split; [done|lia]|].
  destruct (runs_ok m m1 Hok Hr) as [Hok1 _].
  destruct (apply_op_monotone m1 o m2 id s1 Hok1 Ho H E1) as (s2 & E2 & HI2 & HO2).
  exists s2. split; [done|lia].
Qed.

Lemma watermarks_never_regress_witness :
  ∃ s', stages (refresh demo).1 !! "map" = Some s' ∧ (MIN_TIMESTAMP ≤ output s')%Z.
Proof.
  destruct (stages demo !! "map") as [s|] eqn:E; [|vm_compute in E; discriminate E].
  destruct (watermarks_never_regress demo (refresh demo).1 "map" s demo_reachable
    (runs_op demo demo Refresh _ (runs_start demo) eq_refl eq_refl) E) as (s' & E' & _ & H).
  exists s'. split; [exact E'|]. vm_compute in E. injection E as <-. exact H.
Defined.

(** C4: the invariant of the manager: in every reachable state each stage's
    watermarks lie between the sentinels, exactly the stages without main inputs
    are sources, a stage that started has all main inputs produced, no pending
    input means no pending minimum, the last run is not ahead of the input, and
    every stage is listed under each of its inputs. *)
Theorem reachable_invariant m : reachable m → manager_ok m.
Proof. apply reachable_ok. Qed.

Lemma reachable_invariant_witness : manager_ok demo_held.
Proof. exact (reachable_invariant demo_held demo_held_reachable). Defined.

(** * Bundles *)

(** A stage that is reported ready can start: [start_bundle] succeeds, takes one
    slot without exceeding [max_in_flight], and all its main and side inputs have
    been produced. *)
Theorem ready_stage_starts m id :
  id ∈ ready_stages m →
  ∃ s s', stages m !! id = Some s ∧ start_bundle m id = Ok (with_stages m (<[id := s']>))
    ∧ in_flight s' = in_flight s + 1 ∧ in_flight s' ≤ max_in_flight s'
    ∧ unproduced s = ∅ ∧ unproduced_side_inputs s = ∅.
Proof.
  rewrite elem_of_ready_stages. intros Hr.
  destruct (ready_start m id Hr) as (s & E & Hs). exists s, (started s).
  apply stage_is_ready_can_run in Hr as (s0 & E0 & [Hslot Hu Hsd _ _ _] & _).
  assert (s0 = s) as -> by congruence. destruct (started_fields s) as (-> & -> & _). by split_and!; try lia.
Qed.

Lemma ready_stage_starts_witness :
  ∃ s s', stages demo !! "src" = Some s ∧ start_bundle demo "src" = Ok (with_stages demo (<["src" := s']>))
    ∧ in_flight s' = in_flight s + 1.
Proof.
  destruct (ready_stage_starts demo "src") as (s & s' & E & Hs & Hi & _).
  - apply (bool_decide_eq_true_1 _). vm_compute. reflexivity.
  - exists s, s'. split; [exact E|]. split; [exact Hs|exact Hi].
Defined.

(** C5: the completion barrier of gated stages is exact: on an acyclic wiring, a
    stage gated on the watermark is ready if and only if it can run by itself and
    every stage upstream of it, over any number of main- or side-input edges, is
    quiescent (no bundle in flight or queued, no pending or empty input, no re-run
    and no hold). *)
Theorem gated_barrier_exact m rank id s :
  producers_ranked m rank → rank id ≤ size (stages m) →
  stages m !! id = Some s → kind s ≠ Ordinary →
  stage_is_ready m id = true ↔ can_run s ∧ ∀ a, ancestor m s a → quiescent a = true.
Proof.
  intros Hr Hrank E Hk. rewrite stage_is_ready_can_run. split.
  - intros (s0 & E0 & Hc & Hq). assert (s0 = s) as -> by congruence. split; [done|]. intros a.
    apply (chain_quiescent_ancestors (S (size (stages m))) m s a). by apply Hq.
  - intros [Hc Hq]. exists s. split_and!; [done..|]. intros _.
    apply (chain_quiescent_complete m rank _ id s); [done..|lia|done].
Qed.

(** The demo in which the worker stage waits for the end of its input. *)
Definition demo_gated : WatermarkManager := or_unchanged demo (set_stage_kind demo "map" WatermarkGated).

Lemma gated_barrier_exact_witness :
  ∃ s, stages demo_gated !! "map" = Some s ∧ ¬ (can_run s ∧ ∀ a, ancestor demo_gated s a → quiescent a = true).
Proof.
  destruct (stages demo_gated !! "map") as [s|] eqn:E; [|vm_compute in E; discriminate E].
  exists s. split; [done|].
  rewrite <- (gated_barrier_exact demo_gated demo_rank "map" s).
  - intros H. vm_compute in H. discriminate H.
  - intros id t p pid Et Hp Hpid. apply elem_of_dom_2 in Et as Hd.
    assert (Hdom : id ∈ ["src"; "map"]).
    { apply elem_of_elements in Hd. vm_compute in Hd. exact Hd. }
    rewrite !elem_of_cons in Hdom. destruct Hdom as [->|[->|Hn]]; [| |by apply elem_of_nil in Hn].
    + vm_compute in Et. injection Et as <-. by apply elem_of_nil in Hp.
    + vm_compute in Et. injection Et as <-. apply list_elem_of_singleton in Hp as ->.
      vm_compute in Hpid. injection Hpid as <-. vm_compute. lia.
  - vm_compute. lia.
  - exact E.
  - vm_compute in E. injection E as <-. discriminate.
Defined.

(** Completing a bundle reaches every consumer of every output: a main input
    stops being awaited and becomes pending (unless the consumer's time-sorted
    input is closed), a side input stops being awaited or is marked empty; the
    stage is completed with one bundle less; and among ordinary consumers the
    returned list is exactly those that are now ready. *)
Theorem completion_wakes_consumers m id min_ts cnt m' nr :
  complete_bundle_with_min_and_input m id min_ts cnt = Ok (m', nr) →
  ∃ s, stages m !! id = Some s ∧ 0 < in_flight s
    ∧ (∀ p c t, p ∈ outputs s → stages m' !! c = Some t →
         (c ∈ default [] (consumers m !! p) →
            (p ∉ unproduced t) ∧ (time_sorted_input_closed t = false → p ∈ pending t))
         ∧ (c ∈ default [] (side_input_consumers m !! p) →
            if propagates_empty s min_ts cnt then p ∈ pending_empty t else p ∉ unproduced_side_inputs t))
    ∧ (∀ t, stages m' !! id = Some t → completed t = true ∧ in_flight t = in_flight s - 1)
    ∧ (∀ c t, stages m !! c = Some t → kind t = Ordinary →
         c ∈ nr ↔ c ∈ concat (all_consumers m <$> outputs s) ∧ stage_is_ready m' c = true).
Proof.
  intros H. apply complete_bundle_spec in H as (s & nr0 & Es & Hi & V & HM & Hnr).
  exists s. do 2 (split; [done|]). split_and!.
  - intros p c t Hp Et. rewrite Forall_forall in HM. by apply (HM p Hp).
  - intros t Et. pose proof (vs_stages _ _ _ _ _ _ _ V id) as Hv. simpl in Hv.
    rewrite Et, lookup_insert_eq in Hv. destruct Hv as [W _].
    pose proof (wake_frame_fields _ _ (wk_frame _ _ _ _ W)) as [_ (Fi & _ & _ & Fc & _)]. by simpl in *.
  - intros c t Et Hk. rewrite Hnr.
    assert (Ho : ordinary (with_stages m (<[id := bundle_done s]>)) c).
    { intros t' Et'. simpl in Et'. destruct (decide (c = id)) as [->|Hne].
      - rewrite lookup_insert_eq in Et'. injection Et' as <-. simpl. congruence.
      - rewrite lookup_insert_ne in Et' by done. congruence. }
    split.
    + intros Hin. destruct (vs_sound _ _ _ _ _ _ _ V c Hin) as [Hn|[Hc Hr]]; [by apply elem_of_nil in Hn|].
      split; [done|]. by apply Hr.
    + intros [Hc Hr]. by apply (vs_complete _ _ _ _ _ _ _ V).
Qed.

Lemma completion_wakes_consumers_witness :
  ∃ s, stages demo_started !! "src" = Some s
    ∧ ∀ p c t, p ∈ outputs s → stages demo_done !! c = Some t →
        c ∈ default [] (consumers demo_started !! p) → p ∉ unproduced t.
Proof.
  destruct (completion_wakes_consumers demo_started "src" None None demo_done ["map"]) as (s & E & _ & H & _).
  - vm_compute. reflexivity.
  - exists s. split; [exact E|]. intros p c t Hp Et Hc. by apply (H p c t Hp Et).
Defined.

(** A manager that reports the job complete has nothing left to run: no stage is
    ready and every [start_bundle] is refused. *)
Theorem complete_is_final m :
  is_complete m = true → ready_stages m = [] ∧ ∀ id, is_ok (start_bundle m id) = false.
Proof.
  intros Hc. split.
  - enough (∀ id, id ∉ ready_stages m) as Hn
      by (destruct (ready_stages m) as [|x l]; [done|]; destruct (Hn x); by left).
    intros id. rewrite elem_of_ready_stages, complete_not_ready by done. done.
  - intros id. destruct (start_bundle m id) as [m1| |] eqn:Es; try done. exfalso.
    apply start_bundle_spec in Es as (s & E & _ & _ & Hw & _).
    rewrite is_complete_spec in Hc. destruct (Hc id s E) as (Hcm & _ & Hp & Hr & Hq & _ & Hk).
    destruct (Hw Hcm) as [?|[?|[?|?]]]; [congruence|lia|done|done].
Qed.

(** The demo run to its end. *)
Definition demo_finished : WatermarkManager :=
  match start_bundle demo_done "map" with
  | Ok m => match complete_bundle m "map" with Ok (m, _) => m | _ => m end
  | _ => demo_done
  end.

Lemma complete_is_final_witness : ready_stages demo_finished = [].
Proof. apply (complete_is_final demo_finished). vm_compute. reflexivity. Defined.

(** * The scheduler *)

(** The manager built from an executable graph is the graph: every node is a
    registered stage with exactly the node's inputs and outputs, nothing is
    registered besides, a stage is a source exactly when its node has no incoming
    edge, nothing has run, and every input is an output of a stage. *)
Theorem graph_becomes_pipeline g :
  wf_graph g →
  (∀ i node, g_nodes g !! i = Some node →
     ∃ s, stages (from_executable_graph g) !! node_id node = Some s ∧ stage_of g i node s
       ∧ (is_Some (source s) ↔ incoming g i = []))
  ∧ (∀ id s, stages (from_executable_graph g) !! id = Some s → ∃ node, node ∈ g_nodes g ∧ node_id node = id)
  ∧ built (from_executable_graph g).
Proof.
  intros Hg. split_and!.
  - intros i node Ei. destruct (from_graph_node g i node (wg_ids g Hg) Ei) as (s & Es & Hs).
    exists s. split; [done|]. split; [done|].
    destruct (reachable_ok _ (from_graph_reachable g)) as [Hok _]. rewrite (so_source s (Hok _ s Es)).
    destruct Hs as (Hmi & _). rewrite Hmi. unfold main_inputs_of. split.
    + intros Hn. destruct (incoming g i) as [|e es] eqn:Ei'; [done|].
      assert (Hin : produced_pcol_id e ∈ dedup (sort_ids (produced_pcol_id <$> e :: es)))
        by (rewrite elem_of_dedup, elem_of_sort_ids, fmap_cons; by left).
      rewrite Hn in Hin. by apply elem_of_nil in Hin.
    + by intros ->.
  - intros id s Es. destruct (from_graph_lookup g id s Es) as (i & node & Ei & Hid & _).
    exists node. split; [by eapply list_elem_of_lookup_2|done].
  - by apply from_graph_built.
Qed.

Lemma graph_becomes_pipeline_witness : built (from_executable_graph demo_graph).
Proof. apply (graph_becomes_pipeline demo_graph demo_wf). Defined.

(** C6: [next_nodes] starts what is ready and nothing else: every bundle it returns
    belongs to a stage that is ready once the watermarks are propagated, every
    ready stage of the graph gets at least one, each stage's in-flight count grows
    by exactly the bundles returned for it and stays within its ceiling, and more
    than one bundle is started only for declared work items.  The inner [while]
    loop ends by itself: a larger bound on it changes nothing. *)
Theorem next_nodes_starts_ready sc :
  let m := (refresh (watermarks sc)).1 in
  let m' := watermarks (next_nodes sc).1 in
  let next := (next_nodes sc).2 in
  (∀ i id, (i, id) ∈ next → id ∈ ready_stages m ∧ index_of sc !! id = Some i)
  ∧ (∀ id i, id ∈ ready_stages m → index_of sc !! id = Some i → 0 < bundles_of id next)
  ∧ (∀ id s, stages m !! id = Some s →
       ∃ s', stages m' !! id = Some s' ∧ in_flight s' = in_flight s + bundles_of id next
         ∧ (bundles_of id next = 0 ∨ in_flight s' ≤ max_in_flight s)
         ∧ bundles_of id next ≤ Nat.max 1 (queued s))
  ∧ (∀ m id n, slots m id ≤ n → start_loop n m id = start_loop (slots m id) m id).
Proof.
  intros m m' next. destruct (next_nodes_pass sc) as [_ X S P]. fold m m' next in X, S, P. split_and!.
  - intros i id Hin. by destruct (X (i, id) Hin).
  - intros id i Hr Hi. apply (P id i Hr Hi). apply elem_of_ready_stages, ready_start in Hr as (s & _ & Hs).
    by rewrite Hs.
  - intros id s E. destruct (S id s E) as (s' & E' & [T1 T2 T3 T4] & _). exists s'.
    rewrite <- T2. by split_and!.
  - intros m0 id n Hn. by apply start_loop_fuel.
Qed.

(** C7: the scheduler does not stall: for an acyclic graph, in any state the
    dispatcher can bring the scheduler to (polls, completions, timers, holds), if
    nothing is executing, no stage is gated on time and no empty branch is held,
    then either the job is complete or the next poll starts a bundle. *)
Theorem scheduler_does_not_stall n g rank s :
  wf_graph g → acyclic g rank → schedule (scheduler_new n g) s → idle (watermarks s) →
  is_complete (refresh (watermarks s)).1 = true ∨ (next_nodes s).2 ≠ [].
Proof. apply schedule_progress. Qed.

Lemma scheduler_does_not_stall_witness :
  is_complete (refresh (watermarks demo_scheduler)).1 = true ∨ (next_nodes demo_scheduler).2 ≠ [].
Proof.
  apply (scheduler_does_not_stall 1 demo_graph demo_rank); [apply demo_wf|apply demo_acyclic|constructor|].
  intros id s E. assert (Hd : id ∈ ["src"; "map"]).
  { apply elem_of_dom_2, elem_of_elements in E. vm_compute in E. exact E. }
  rewrite !elem_of_cons in Hd. destruct Hd as [->|[->|Hn]]; [| |by apply elem_of_nil in Hn];
    vm_compute in E; injection E as <-; done.
Defined.

(** Event-time timers fire exactly when they may: promotion returns, per owning
    stage and in order, precisely the event-time timers whose timestamp the owner's
    input watermark, clamped by unconsumed input, has reached; those owners and no
    other stage are re-armed, and nothing else of the manager's stages changes. *)
Theorem event_timers_promoted s timers :
  let s' := (promote_due_event_time_timers s timers).1 in
  let out := (promote_due_event_time_timers s timers).2 in
  let due st e :=
    te_domain e = EventTime ∧ transform_to_stage s !! tk_transform_id (te_key e) = Some st
    ∧ (fire_timestamp e ≤ default MIN_TIMESTAMP (effective_input_watermark (watermarks s) st))%Z in
  (∀ st l, (st, l) ∈ out →
     l ≠ [] ∧ sublist l timers ∧ ∀ e, e ∈ l ↔ e ∈ timers ∧ due st e)
  ∧ (∀ st e, e ∈ timers → due st e → ∃ l, (st, l) ∈ out ∧ e ∈ l)
  ∧ ∀ id, stages (watermarks s') !! id =
      (λ t, if bool_decide (id ∈ out.*1) then set_rerun_pending true t else t) <$> stages (watermarks s) !! id.
Proof.
  intros s' out due. destruct (promote_due_event_time_timers_spec s timers) as [Hout Hst]. fold s' out in Hout, Hst.
  assert (Hdue : ∀ st e, route_event_timer s (watermarks s) e = Some st ↔ due st e).
  { intros st e. unfold route_event_timer, due, is_due_at_watermark.
    destruct (transform_to_stage s !! _) as [st'|]; simpl; [|split; [done|naive_solver]].
    destruct (decide (te_domain e = EventTime)) as [Hd|Hd].
    - rewrite bool_decide_true by done. simpl. destruct (Z.leb_spec (fire_timestamp e)
        (default MIN_TIMESTAMP (effective_input_watermark (watermarks s) st'))).
      + split; [intros [= ->]; done|intros (_ & [= ->] & _); done].
      + split; [done|]. intros (_ & [= ->] & ?). lia.
    - rewrite bool_decide_false by done. split; [done|tauto]. }
  assert (Hmem : ∀ st e, e ∈ routed (route_event_timer s (watermarks s)) st timers ↔ e ∈ timers ∧ due st e).
  { intros st e. unfold routed. rewrite list_elem_of_filter, Hdue. tauto. }
  split_and!.
  - intros st l Hin. apply Hout in Hin as [Hne ->]. split_and!; [done| |apply Hmem].
    unfold routed. apply sublist_filter.
  - intros st e He Hd. exists (routed (route_event_timer s (watermarks s)) st timers).
    assert (Hin : e ∈ routed (route_event_timer s (watermarks s)) st timers) by (by apply Hmem).
    split; [|done]. apply Hout. split; [|done]. intros Hn. rewrite Hn in Hin. by apply elem_of_nil in Hin.
  - intros id. rewrite Hst. destruct (stages (watermarks s) !! id) as [t|]; [|done]. simpl. f_equal.
    case_decide as Hn; case_bool_decide as Hb; try done.
    + apply list_elem_of_fmap in Hb as ([st l] & -> & Hin). apply Hout in Hin as [Hne ->]. done.
    + destruct Hb. apply list_elem_of_fmap. eexists (id, _). split; [done|]. apply Hout. by split.
Qed.
