(* ===== verification/Pipeline.v ===== *)
(** The pipeline proto and the queries on it (fusion/pipeline.rs, fusion/refs.rs):
    [QueryablePipeline] turns the components of a pipeline into a graph of transforms
    and PCollections, and answers who produces and who consumes what. *)
From S2P Require Import Prelude Bytes CoderGraph.
From stdpp Require Import pretty.
Local Open Scope string_scope.
Local Open Scope list_scope.

(** * The messages *)

Record FunctionSpec : Type := mkFunctionSpec { fs_urn : string; fs_payload : bytes }.

Record PTransform : Type := mkPTransform {
  pt_unique_name : string;
  pt_spec : option FunctionSpec;
  pt_subtransforms : list string;
  pt_inputs : gmap string string;
  pt_outputs : gmap string string;
  pt_environment_id : string;
}.

Record PCollection : Type := mkPCollection {
  pc_unique_name : string;
  pc_coder_id : string;
  pc_is_bounded : Z;
  pc_windowing_strategy_id : string;
}.

Record Environment : Type := mkEnvironment { env_urn : string; env_payload : bytes }.

(** What the runner reads of a [WindowingStrategy] to resolve its window coder. *)
Record WindowingStrategy : Type := mkWindowingStrategy {
  ws_window_fn : option FunctionSpec;
  ws_window_coder_id : string;
}.

(** What fusion reads and rewrites of [Components], and what its result is read for. *)
Record Components : Type := mkComponents {
  transforms : gmap string PTransform;
  pcollections : gmap string PCollection;
  coders : coders_map;
  environments : gmap string Environment;
  windowing_strategies : gmap string WindowingStrategy;
}.

(** The [oneof] of a [StateSpec], with the coders of the two map kinds. *)
Inductive StateSpec : Type :=
| ReadModifyWriteSpec
| BagSpec
| CombiningSpec
| MapSpec (key_coder_id value_coder_id : string)
| SetSpec
| OrderedListSpec
| MultimapSpec (key_coder_id value_coder_id : string).

(** What is read of a [ParDoPayload]: its side inputs with their access patterns, its
    state specs, the names of its timer families and the restriction coder. *)
Record ParDoPayload : Type := mkParDoPayload {
  side_inputs : gmap string (option FunctionSpec);
  state_specs : gmap string (option StateSpec);
  timer_family_specs : gset string;
  restriction_coder_id : string;
}.

#[export] Instance FunctionSpec_eq_dec : EqDecision FunctionSpec.
Proof. solve_decision. Defined.
#[export] Instance StateSpec_eq_dec : EqDecision StateSpec.
Proof. solve_decision. Defined.
#[export] Instance PTransform_eq_dec : EqDecision PTransform.
Proof. solve_decision. Defined.
#[export] Instance PCollection_eq_dec : EqDecision PCollection.
Proof. solve_decision. Defined.
#[export] Instance Environment_eq_dec : EqDecision Environment.
Proof. solve_decision. Defined.

Inductive BeamTranslationError : Type :=
| InvalidArgument (why : string)
| InvalidState (why : string)
| MissingEnvironment (why : string)
| StageFusionError (why : string)
| PipelineGraphError (why : string)
| NotFound (why : string).

(** The result of fallible translation steps. *)
Abbreviation translated := (outcome BeamTranslationError).

(** ** Hashed collections

    The order in which a [HashSet] or [HashMap] iterates is not determined: it is a
    parameter, of which nothing is known but that it visits every entry once. *)
Class HashIter : Type := {
  set_iter : gset string → list string;
  map_iter : ∀ {K} `{Countable K} {A}, gmap K A → list (K * A);
}.
Class HashIterLaws `{HashIter} : Prop := {
  set_iter_perm X : set_iter X ≡ₚ elements X;
  map_iter_perm `{Countable K} {A} (m : gmap K A) : map_iter m ≡ₚ map_to_list m;
}.

(** [ParDoPayload::decode]. *)
Class PayloadDecoder : Type := decode_payload : bytes → option ParDoPayload.

(** ** Nodes

    [PTransformNode] and [PCollectionNode] compare and hash by their id, so a set of
    them is a map from ids; inserting a node whose id is present changes nothing. *)
Record PTransformNode : Type := mkPTransformNode { ptn_id : string; ptn_transform : PTransform }.
Record PCollectionNode : Type := mkPCollectionNode { pcn_id : string; pcn_collection : PCollection }.

(** [HashSet<PTransformNode>]. *)
Abbreviation node_set := (gmap string PTransform).

Definition nodes `{HashIter} (s : node_set) : list PTransformNode :=
  (λ p, mkPTransformNode p.1 p.2) <$> map_iter s.

(** [HashSet<PCollectionNode>]. *)
Abbreviation pcol_set := (gmap string PCollection).

Definition pcol_nodes `{HashIter} (s : pcol_set) : list PCollectionNode :=
  (λ p, mkPCollectionNode p.1 p.2) <$> map_iter s.

(** * URNs *)

Definition CREATE_TRANSFORM := "beam:transform:create:v1".
Definition PAR_DO_TRANSFORM := "beam:transform:pardo:v1".
Definition FLATTEN_TRANSFORM := "beam:transform:flatten:v1".
Definition GROUP_BY_KEY_TRANSFORM := "beam:transform:group_by_key:v1".
Definition GROUP_BY_KEY_WRAPPER_TRANSFORM := "beam:transform:group_by_key_wrapper:v1".
Definition IMPULSE_TRANSFORM := "beam:transform:impulse:v1".
Definition ASSIGN_WINDOWS_TRANSFORM := "beam:transform:window_into:v1".
Definition TEST_STREAM_TRANSFORM := "beam:transform:teststream:v1".
Definition MAP_WINDOWS_TRANSFORM := "beam:transform:map_windows:v1".
Definition MERGE_WINDOWS_TRANSFORM := "beam:transform:merge_windows:v1".
Definition TO_STRING_TRANSFORM := "beam:transform:to_string:v1".
Definition MANAGED_TRANSFORM := "beam:transform:managed:v1".
Definition CREATE_VIEW_TRANSFORM := "beam:transform:create_view:v1".
Definition COMBINE_PER_KEY_PRECOMBINE_TRANSFORM_URN := "beam:transform:combine_per_key_precombine:v1".
Definition COMBINE_PER_KEY_MERGE_ACCUMULATORS_TRANSFORM_URN := "beam:transform:combine_per_key_merge_accumulators:v1".
Definition COMBINE_PER_KEY_EXTRACT_OUTPUTS_TRANSFORM_URN := "beam:transform:combine_per_key_extract_outputs:v1".
Definition SPLITTABLE_PAIR_WITH_RESTRICTION_URN := "beam:transform:sdf_pair_with_restriction:v1".
Definition SPLITTABLE_TRUNCATE_SIZED_RESTRICTION_URN := "beam:transform:sdf_truncate_sized_restrictions:v1".
Definition SPLITTABLE_SPLIT_AND_SIZE_RESTRICTIONS_URN := "beam:transform:sdf_split_and_size_restrictions:v1".
Definition SPLITTABLE_PROCESS_ELEMENTS_URN := "beam:transform:sdf_process_elements:v1".
Definition SPLITTABLE_PROCESS_SIZED_ELEMENTS_AND_RESTRICTIONS_URN :=
  "beam:transform:sdf_process_sized_element_and_restrictions:v1".
Definition SPLITTABLE_PROCESS_KEYED_URN := "beam:transform:sdf_process_keyed_elements:v1".

Definition PRIMITIVES : list string :=
  [CREATE_TRANSFORM; PAR_DO_TRANSFORM; FLATTEN_TRANSFORM; GROUP_BY_KEY_TRANSFORM; GROUP_BY_KEY_WRAPPER_TRANSFORM;
   IMPULSE_TRANSFORM; ASSIGN_WINDOWS_TRANSFORM; TEST_STREAM_TRANSFORM; MAP_WINDOWS_TRANSFORM; MERGE_WINDOWS_TRANSFORM;
   TO_STRING_TRANSFORM; MANAGED_TRANSFORM; COMBINE_PER_KEY_PRECOMBINE_TRANSFORM_URN;
   COMBINE_PER_KEY_MERGE_ACCUMULATORS_TRANSFORM_URN; COMBINE_PER_KEY_EXTRACT_OUTPUTS_TRANSFORM_URN;
   SPLITTABLE_PAIR_WITH_RESTRICTION_URN; SPLITTABLE_SPLIT_AND_SIZE_RESTRICTIONS_URN;
   SPLITTABLE_TRUNCATE_SIZED_RESTRICTION_URN; SPLITTABLE_PROCESS_SIZED_ELEMENTS_AND_RESTRICTIONS_URN].

(** The transforms the runner executes itself. *)
Definition FLARE : list string :=
  [GROUP_BY_KEY_TRANSFORM; IMPULSE_TRANSFORM; FLATTEN_TRANSFORM; TEST_STREAM_TRANSFORM].

Definition SPLITTABLE_PARDO_COMPONENTS : list string :=
  [SPLITTABLE_PAIR_WITH_RESTRICTION_URN; SPLITTABLE_TRUNCATE_SIZED_RESTRICTION_URN;
   SPLITTABLE_SPLIT_AND_SIZE_RESTRICTIONS_URN; SPLITTABLE_PROCESS_SIZED_ELEMENTS_AND_RESTRICTIONS_URN].

Definition VALID_MAIN_INPUT_URNS : list string :=
  [PAR_DO_TRANSFORM; SPLITTABLE_PAIR_WITH_RESTRICTION_URN; SPLITTABLE_SPLIT_AND_SIZE_RESTRICTIONS_URN;
   SPLITTABLE_TRUNCATE_SIZED_RESTRICTION_URN; SPLITTABLE_PROCESS_ELEMENTS_URN;
   SPLITTABLE_PROCESS_SIZED_ELEMENTS_AND_RESTRICTIONS_URN].

Definition VALID_SIDE_INPUT_URNS : list string :=
  [PAR_DO_TRANSFORM; SPLITTABLE_PAIR_WITH_RESTRICTION_URN; SPLITTABLE_SPLIT_AND_SIZE_RESTRICTIONS_URN;
   SPLITTABLE_PROCESS_SIZED_ELEMENTS_AND_RESTRICTIONS_URN].

(** [urns.contains(&urn)]. *)
Definition one_of (urns : list string) (urn : string) : bool := bool_decide (urn ∈ urns).

(** * Primitive transforms *)

Definition is_primitive (t : PTransform) : bool :=
  match pt_spec t with Some spec => one_of PRIMITIVES (fs_urn spec) | None => false end.

(** The deque of [get_primitives] is a stack: the leaves below [id], the last
    subtransform first.  The code goes on for ever on a hierarchy with a cycle; a
    transform without one is reached within [depth] levels. *)
Fixpoint leaves (depth : nat) (ts : gmap string PTransform) (id : string) : translated (list string) :=
  match ts !! id with
  | None => Ok []
  | Some t =>
      match pt_subtransforms t, depth with
      | [], _ => Ok [id]
      | _ :: _, O => Panic "subtransforms form a cycle"
      | subs, S depth => ids ← traverse (leaves depth ts) (reverse subs); Ok (concat ids)
      end
  end.

Definition get_primitives `{HashIter} (ts : gmap string PTransform) : translated (gset string) :=
  ids ← traverse (λ p : string * PTransform,
          if is_primitive p.2 then leaves (size ts) ts p.1 else Ok []) (map_iter ts);
  Ok (list_to_set (concat ids)).

(** * Names in payloads *)

Definition payload_of `{PayloadDecoder} (spec : FunctionSpec) : translated ParDoPayload :=
  match decode_payload (fs_payload spec) with
  | Some payload => Ok payload
  | None => Err (InvalidArgument "Failed to decode ParDoPayload")
  end.

Definition local_names `{PayloadDecoder} (urns : list string) (names : ParDoPayload → gset string) (t : PTransform)
    : translated (gset string) :=
  match pt_spec t with
  | None => Ok ∅
  | Some spec =>
      if one_of urns (fs_urn spec) then payload ← payload_of spec; Ok (names payload) else Ok ∅
  end.

Definition get_local_side_input_names `{PayloadDecoder} : PTransform → translated (gset string) :=
  local_names VALID_SIDE_INPUT_URNS (λ payload, dom (side_inputs payload)).
Definition get_local_user_state_names `{PayloadDecoder} : PTransform → translated (gset string) :=
  local_names [PAR_DO_TRANSFORM] (λ payload, dom (state_specs payload)).
Definition get_local_timer_names `{PayloadDecoder} : PTransform → translated (gset string) :=
  local_names [PAR_DO_TRANSFORM] timer_family_specs.

(** * The graph *)

(** [PipelineEdge::Timer] is never constructed. *)
Inductive PipelineEdge : Type := PerElement | Singleton.
#[export] Instance PipelineEdge_eq_dec : EqDecision PipelineEdge.
Proof. solve_decision. Defined.

(** The graph has a node per primitive transform and one per PCollection they name; a
    node is found by its id.  Edges lead from a transform to the PCollections it
    produces and from a PCollection to the transforms that consume it. *)
Record QueryablePipeline : Type := mkQueryable {
  transform_ids : gmap string PTransform;
  pcollection_ids : gmap string PCollection;
  produces : list (string * string);
  consumes : list (string * string * PipelineEdge);
  qp_components : Components;
  primitives : gset string;
}.

Section build.
Context `{HashIter, PayloadDecoder}.

(** The edges of one transform, as [build_graph] adds them. *)
Definition output_edges (comps : Components) (id : string) (t : PTransform) : list (string * string) :=
  omap (λ o : string * string, match pcollections comps !! o.2 with Some _ => Some (id, o.2) | None => None end)
    (map_iter (pt_outputs t)).

Definition input_edges (comps : Components) (id : string) (t : PTransform) : list (string * string * PipelineEdge) :=
  match get_local_side_input_names t with
  | Ok side => omap (λ i : string * string,
      match pcollections comps !! i.2 with
      | Some _ => Some (i.2, id, if decide (i.1 ∈ side) then Singleton else PerElement)
      | None => None
      end) (map_iter (pt_inputs t))
  | _ => []
  end.

(** The PCollections a transform names and the components know. *)
Definition named_pcols (comps : Components) (t : PTransform) : gmap string PCollection :=
  list_to_map (omap (λ p : string * string, pair p.2 <$> pcollections comps !! p.2)
    (map_iter (pt_outputs t) ++ map_iter (pt_inputs t))).

Definition add_transform (q : QueryablePipeline) (id : string) : QueryablePipeline :=
  match transforms (qp_components q) !! id with
  | None => q
  | Some t =>
      mkQueryable (<[id := t]> (transform_ids q)) (pcollection_ids q ∪ named_pcols (qp_components q) t)
        (produces q ++ output_edges (qp_components q) id t) (consumes q ++ input_edges (qp_components q) id t)
        (qp_components q) (primitives q)
  end.

Definition build_graph (q : QueryablePipeline) : QueryablePipeline :=
  foldl add_transform (mkQueryable ∅ ∅ [] [] (qp_components q) (primitives q)) (set_iter (primitives q)).

(** [QueryablePipeline::new]. *)
Definition queryable_new (comps : Components) : translated QueryablePipeline :=
  prims ← get_primitives (transforms comps);
  Ok (build_graph (mkQueryable ∅ ∅ [] [] comps prims)).
End build.

(** ** Queries *)

Definition get_root_transforms (q : QueryablePipeline) : node_set :=
  filter (λ p, Forall (λ e : string * string * PipelineEdge, e.1.2 ≠ p.1) (consumes q)) (transform_ids q).

(** The transforms an edge of a kind leads to from a PCollection. *)
Definition consumers_by (kind : PipelineEdge) (q : QueryablePipeline) (c : string) : node_set :=
  match pcollection_ids q !! c with
  | None => ∅
  | Some _ => filter (λ p, (c, p.1, kind) ∈ consumes q) (transform_ids q)
  end.
Definition get_per_element_consumers : QueryablePipeline → string → node_set := consumers_by PerElement.
Definition get_singleton_consumers : QueryablePipeline → string → node_set := consumers_by Singleton.

Definition get_output_pcol (q : QueryablePipeline) (t : string) : pcol_set :=
  match transform_ids q !! t with
  | None => ∅
  | Some _ => filter (λ p, (t, p.1) ∈ produces q) (pcollection_ids q)
  end.

Section queries.
Context `{HashIter, PayloadDecoder}.

Definition flatten_has_different_input_and_output_coders (q : QueryablePipeline) (t : PTransform) : bool :=
  match map_iter (pt_outputs t) with
  | [] => false
  | (_, output_id) :: _ =>
      match pcollections (qp_components q) !! output_id with
      | None => false
      | Some out =>
          existsb (λ i : string * string,
            match pcollections (qp_components q) !! i.2 with
            | Some c => bool_decide (pc_coder_id c ≠ pc_coder_id out)
            | None => false
            end) (map_iter (pt_inputs t))
      end
  end.

Definition get_environment (q : QueryablePipeline) (t : PTransform) : option Environment :=
  let by_id := environments (qp_components q) !! pt_environment_id t in
  match pt_spec t with
  | None => by_id
  | Some spec =>
      let transcoding := bool_decide (fs_urn spec = FLATTEN_TRANSFORM)
                         && flatten_has_different_input_and_output_coders q t in
      if one_of FLARE (fs_urn spec) && negb transcoding then None else by_id
  end.

(** * References *)

(** [SideInputRef], [UserStateRef] and [TimerRef] compare the ids of their nodes and
    the local name. *)
Record SideInputRef : Type := mkSideInputRef { sir_pcol : PCollectionNode; sir_pt : PTransformNode; sir_name : string }.
Record TimerRef : Type := mkTimerRef { tr_pt : PTransformNode; tr_name : string }.
Record UserStateRef : Type := mkUserStateRef { usr_pt : PTransformNode; usr_name : string; usr_pcol : PCollectionNode }.

(** [ok_or_else(|| NotFound(..))?]. *)
Definition or_not_found {A} (what : string) (m : option A) : translated A :=
  match m with Some a => Ok a | None => Err (NotFound what) end.

Definition side_input_from_id (comps : Components) (transform_id local_name : string) : translated SideInputRef :=
  t ← or_not_found ("Transform '" +:+ transform_id +:+ "'") (transforms comps !! transform_id);
  c ← or_not_found ("Input '" +:+ local_name +:+ "' on transform '" +:+ transform_id +:+ "'") (pt_inputs t !! local_name);
  pcol ← or_not_found ("PCollection '" +:+ c +:+ "'") (pcollections comps !! c);
  Ok (mkSideInputRef (mkPCollectionNode c pcol) (mkPTransformNode transform_id t) local_name).

Definition timer_from_id (comps : Components) (transform_id local_name : string) : translated TimerRef :=
  t ← or_not_found ("Transform '" +:+ transform_id +:+ "'") (transforms comps !! transform_id);
  Ok (mkTimerRef (mkPTransformNode transform_id t) local_name).

Definition get_main_input_name_from_payload (t : PTransform) (payload : ParDoPayload) : translated string :=
  match filter (λ name, name ∉ dom (side_inputs payload) ∪ timer_family_specs payload) (map_iter (pt_inputs t)).*1 with
  | [name] => Ok name
  | names => Err (InvalidArgument ("Expected exactly one main input, found " +:+ pretty (length names)))
  end.

Definition get_main_input_name (t : PTransform) : translated string :=
  match pt_spec t with
  | None => Err (InvalidArgument "Transform is missing spec")
  | Some spec =>
      if one_of VALID_MAIN_INPUT_URNS (fs_urn spec)
      then payload ← payload_of spec; get_main_input_name_from_payload t payload
      else Err (InvalidArgument ("Unexpected payload type '" +:+ fs_urn spec +:+ "'"))
  end.

Definition user_state_from_id (comps : Components) (transform_id local_name : string) : translated UserStateRef :=
  t ← or_not_found ("Transform '" +:+ transform_id +:+ "'") (transforms comps !! transform_id);
  main ← get_main_input_name t;
  c ← or_not_found ("Main input '" +:+ main +:+ "' on transform '" +:+ transform_id +:+ "'") (pt_inputs t !! main);
  pcol ← or_not_found ("PCollection '" +:+ c +:+ "'") (pcollections comps !! c);
  Ok (mkUserStateRef (mkPTransformNode transform_id t) local_name (mkPCollectionNode c pcol)).

Definition get_side_inputs (q : QueryablePipeline) (t : PTransformNode) : translated (list SideInputRef) :=
  names ← get_local_side_input_names (ptn_transform t);
  traverse (side_input_from_id (qp_components q) (ptn_id t)) (set_iter names).

Definition get_user_states (q : QueryablePipeline) (t : PTransformNode) : translated (list UserStateRef) :=
  names ← get_local_user_state_names (ptn_transform t);
  traverse (user_state_from_id (qp_components q) (ptn_id t)) (set_iter names).

Definition get_timers (q : QueryablePipeline) (t : PTransformNode) : translated (list TimerRef) :=
  names ← get_local_timer_names (ptn_transform t);
  traverse (timer_from_id (qp_components q) (ptn_id t)) (set_iter names).
End queries.
