(* ===== verification/StageFuser.v ===== *)
(** Growing one stage (fusion/stage.rs, [GreedyStageFuser] and [GreedyCollectionFuser]
    of fusion/fuser.rs): starting from root transforms, a stage takes in the consumers
    of a PCollection when all of them can run in it, and materialises the PCollection
    otherwise. *)
From S2P Require Import Prelude Bytes CoderGraph Pipeline.
Local Open Scope string_scope.
Local Open Scope list_scope.

(** * Stages *)

(** An [IndexSet] keeps the order of insertion; [key] is what its elements compare. *)
Section index_set.
Context {A K : Type} `{EqDecision K} (key : A → K).

Definition index_insert (l : list A) (x : A) : list A := if decide (key x ∈ key <$> l) then l else l ++ [x].
Definition index_extend (l xs : list A) : list A := foldl index_insert l xs.
End index_set.

Definition side_input_key (r : SideInputRef) : string * string * string :=
  (pcn_id (sir_pcol r), ptn_id (sir_pt r), sir_name r).
Definition user_state_key (r : UserStateRef) : string * string * string :=
  (ptn_id (usr_pt r), usr_name r, pcn_id (usr_pcol r)).
Definition timer_key (r : TimerRef) : string * string := (ptn_id (tr_pt r), tr_name r).

(** [ExecutableStage]; stages compare and hash by their id.  The wire coder settings,
    which the fuser leaves empty, are left out. *)
Record ExecutableStage : Type := mkStage {
  stage_id : string;
  stage_components : Components;
  stage_environment : Environment;
  stage_input_pcol : PCollectionNode;
  stage_side_inputs : list SideInputRef;
  stage_user_states : list UserStateRef;
  stage_timers : list TimerRef;
  stage_output_pcols : list PCollectionNode;
  stage_transforms : list PTransformNode;
}.

(** Computations that mint stage ids: the counter says how many have been minted. *)
Definition minting (A : Type) : Type := nat → translated (A * nat).
#[export] Instance minting_ret : MRet minting := λ A a n, Ok (a, n).
#[export] Instance minting_bind : MBind minting := λ A B f m n, '(a, n) ← m n; f a n.
Definition lift_minting {A} (m : translated A) : minting A := λ n, a ← m; Ok (a, n).

Section stage.
(** [Uuid::new_v4]. *)
Context `{HashIter, PayloadDecoder} (new_v4 : nat → string).

(** [ExecutableStage::from]. *)
Definition stage_from (comps : Components) (env : Environment) (input : PCollectionNode)
    (side : list SideInputRef) (states : list UserStateRef) (timers : list TimerRef)
    (outputs : list PCollectionNode) (ts : list PTransformNode) : minting ExecutableStage := λ n,
  Ok (mkStage (new_v4 n) comps env input side states timers outputs ts, S n).

Definition has_urn (urns : list string) (t : PTransform) : bool :=
  match pt_spec t with Some spec => one_of urns (fs_urn spec) | None => false end.

(** [ExecutableStage::is_splittable]. *)
Definition is_splittable (s : ExecutableStage) : bool :=
  existsb (λ t, has_urn SPLITTABLE_PARDO_COMPONENTS (ptn_transform t)) (stage_transforms s).

(** * Who can run together *)

(** [get_urn]. *)
Definition get_urn (t : PTransformNode) : string :=
  match pt_spec (ptn_transform t) with Some spec => fs_urn spec | None => "" end.

Definition same_environment (a b : Environment) : bool := bool_decide (env_urn a = env_urn b).

(** [map_or(false, |env| same_environment(&env, environment))]. *)
Definition in_environment (q : QueryablePipeline) (t : PTransformNode) (env : Environment) : bool :=
  match get_environment q (ptn_transform t) with Some e => same_environment e env | None => false end.

Definition transform_has_splittable_process_urn (t : PTransformNode) : bool :=
  has_urn [SPLITTABLE_PROCESS_ELEMENTS_URN; SPLITTABLE_PROCESS_KEYED_URN;
           SPLITTABLE_PROCESS_SIZED_ELEMENTS_AND_RESTRICTIONS_URN] (ptn_transform t).

Definition COMBINE_FUSIBLE : list string :=
  [COMBINE_PER_KEY_PRECOMBINE_TRANSFORM_URN; COMBINE_PER_KEY_MERGE_ACCUMULATORS_TRANSFORM_URN;
   COMBINE_PER_KEY_EXTRACT_OUTPUTS_TRANSFORM_URN].

Definition has_side_inputs_in_payload (q : QueryablePipeline) (t : PTransformNode) : bool :=
  match get_side_inputs q t with Ok s => bool_decide (s ≠ []) | _ => true end.

Definition has_state_or_timers (t : PTransformNode) : bool :=
  match pt_spec (ptn_transform t) with
  | Some spec =>
      if decide (fs_payload spec = []) then false
      else match decode_payload (fs_payload spec) with
           | Some payload => bool_decide (state_specs payload ≠ ∅) || bool_decide (timer_family_specs payload ≠ ∅)
           | None => true
           end
  | None => false
  end.

Definition compatible_environments (q : QueryablePipeline) (left right : PTransformNode) : bool :=
  bool_decide (get_environment q (ptn_transform left) = get_environment q (ptn_transform right)).

Definition par_do_compatibility (q : QueryablePipeline) (par_do other : PTransformNode) : bool :=
  bool_decide (ptn_id par_do = ptn_id other)
  || (negb (has_side_inputs_in_payload q par_do) && negb (has_state_or_timers par_do)
      && compatible_environments q par_do other).

Definition is_compatible_one_way (q : QueryablePipeline) (node other : PTransformNode) : bool :=
  let urn := get_urn node in
  if one_of SPLITTABLE_PARDO_COMPONENTS urn then false
  else if decide (urn = PAR_DO_TRANSFORM) then par_do_compatibility q node other
  else if one_of COMBINE_FUSIBLE urn || bool_decide (urn = ASSIGN_WINDOWS_TRANSFORM)
  then compatible_environments q node other
  else false.

Definition is_compatible (q : QueryablePipeline) (node other : PTransformNode) : bool :=
  is_compatible_one_way q node other && is_compatible_one_way q other node.

(** ** Fusing a consumer into a stage *)

Definition can_fuse_pardo (q : QueryablePipeline) (pardo : PTransformNode) (env : Environment)
    (candidate : PCollectionNode) : bool :=
  if negb (in_environment q pardo env) then false
  else
    match pt_spec (ptn_transform pardo) with
    | None => false
    | Some spec =>
        if decide (fs_payload spec = []) then false
        else
          match decode_payload (fs_payload spec) with
          | None => false
          | Some payload =>
              if existsb (λ i : string * string, bool_decide (i.1 ∈ timer_family_specs payload)
                                               && bool_decide (i.2 = pcn_id candidate))
                   (map_iter (pt_inputs (ptn_transform pardo)))
              then true
              else if bool_decide (state_specs payload ≠ ∅) || bool_decide (timer_family_specs payload ≠ ∅)
              then false
              else negb (has_side_inputs_in_payload q pardo)
          end
    end.

(** [GreedyCollectionFuser::can_fuse]. *)
Definition consumer_can_fuse (q : QueryablePipeline) (node : PTransformNode) (env : Environment)
    (candidate : PCollectionNode) : bool :=
  let urn := get_urn node in
  if one_of [PAR_DO_TRANSFORM; SPLITTABLE_PAIR_WITH_RESTRICTION_URN; SPLITTABLE_SPLIT_AND_SIZE_RESTRICTIONS_URN] urn
  then can_fuse_pardo q node env candidate
  else if one_of [SPLITTABLE_PROCESS_KEYED_URN; SPLITTABLE_PROCESS_ELEMENTS_URN;
                  SPLITTABLE_PROCESS_SIZED_ELEMENTS_AND_RESTRICTIONS_URN; GROUP_BY_KEY_TRANSFORM;
                  CREATE_VIEW_TRANSFORM] urn
  then false
  else if one_of COMBINE_FUSIBLE urn || bool_decide (urn = ASSIGN_WINDOWS_TRANSFORM)
  then in_environment q node env
  else bool_decide (urn = FLATTEN_TRANSFORM).

Definition any_sideinputs (q : QueryablePipeline) (consumer : PTransformNode) : bool :=
  existsb (λ i : string * string,
    match pcollections (qp_components q) !! i.2 with
    | Some _ => bool_decide (get_singleton_consumers q i.2 ≠ ∅)
    | None => false
    end) (map_iter (pt_inputs (ptn_transform consumer))).

Inductive PCollectionFusibility : Type := FUSE | MATERIALIZE.

Definition can_fuse (q : QueryablePipeline) (candidate : PCollectionNode) (env : Environment) : PCollectionFusibility :=
  if existsb (λ consumer, any_sideinputs q consumer || negb (consumer_can_fuse q consumer env candidate))
       (nodes (get_per_element_consumers q (pcn_id candidate)))
  then MATERIALIZE
  else if bool_decide (get_singleton_consumers q (pcn_id candidate) ≠ ∅) then MATERIALIZE
  else FUSE.

(** [get_stage_environment]. *)
Fixpoint same_stage_environment (q : QueryablePipeline) (env : Environment) (ts : list PTransformNode)
    : translated unit :=
  match ts with
  | [] => Ok ()
  | t :: ts =>
      match get_environment q (ptn_transform t) with
      | None => Err (InvalidArgument "Environment must be populated on all PTransformNodes in GreedyStageFuser")
      | Some e =>
          if same_environment env e then same_stage_environment q env ts
          else Err (InvalidArgument "All PTransformNodes in an ExecutableStage must be the same.")
      end
  end.

Definition get_stage_environment (q : QueryablePipeline) (initial : list PTransformNode) : translated Environment :=
  match initial with
  | [] => Panic "initial_nodes must not be empty"
  | t :: _ =>
      match get_environment q (ptn_transform t) with
      | None => Err (InvalidArgument "Environment must be populated on all PTransformNodes in GreedyStageFuser")
      | Some env => _ ← same_stage_environment q env initial; Ok env
      end
  end.

(** * The greedy loop *)

Record FusionState : Type := mkFusionState {
  fused_transforms : list PTransformNode;
  fs_side_inputs : list SideInputRef;
  fused_pcols : list PCollectionNode;
  materialized_pcols : list PCollectionNode;
}.

Definition fuse_transforms (s : FusionState) (ts : list PTransformNode) (side : list SideInputRef)
    (candidate : PCollectionNode) : FusionState :=
  mkFusionState (index_extend ptn_id (fused_transforms s) ts) (index_extend side_input_key (fs_side_inputs s) side)
    (index_insert pcn_id (fused_pcols s) candidate) (materialized_pcols s).

Definition materialize (s : FusionState) (candidate : PCollectionNode) : FusionState :=
  mkFusionState (fused_transforms s) (fs_side_inputs s) (fused_pcols s)
    (index_insert pcn_id (materialized_pcols s) candidate).

Definition visited (s : FusionState) (candidate : PCollectionNode) : bool :=
  bool_decide (pcn_id candidate ∈ pcn_id <$> fused_pcols s)
  || bool_decide (pcn_id candidate ∈ pcn_id <$> materialized_pcols s).

(** One candidate: the new state and the candidates it brings. *)
Definition visit_candidate (q : QueryablePipeline) (env : Environment) (splittable_process : bool)
    (candidate : PCollectionNode) (s : FusionState) : translated (FusionState * list PCollectionNode) :=
  match can_fuse q candidate env with
  | MATERIALIZE => Ok (materialize s candidate, [])
  | FUSE =>
      let consumers := nodes (get_per_element_consumers q (pcn_id candidate)) in
      if splittable_process && existsb (λ t, has_urn SPLITTABLE_PARDO_COMPONENTS (ptn_transform t)) consumers
      then Ok (materialize s candidate, [])
      else
        side ← traverse (get_side_inputs q) consumers;
        Ok (fuse_transforms s consumers (concat side) candidate,
            concat ((λ t, pcol_nodes (get_output_pcol q (ptn_id t))) <$> consumers))
  end.

(** The loop over the candidates.  [fuel] bounds the candidates that are visited, of
    which there are at most as many as PCollections. *)
Fixpoint stage_loop (fuel : nat) (q : QueryablePipeline) (env : Environment) (splittable_process : bool) :
    list PCollectionNode → FusionState → translated FusionState :=
  fix skip queue s :=
    match queue with
    | [] => Ok s
    | candidate :: queue =>
        if visited s candidate then skip queue s
        else
          match fuel with
          | O => Panic "fusion loop bound"
          | S fuel =>
              '(s, more) ← visit_candidate q env splittable_process candidate s;
              stage_loop fuel q env splittable_process (queue ++ more) s
          end
    end.

(** ** Dangling inputs *)

Definition possible_inputs (s : ExecutableStage) : gset string :=
  {[pcn_id (stage_input_pcol s)]}
  ∪ list_to_set (pcn_id <$> stage_output_pcols s)
  ∪ list_to_set ((λ r, pcn_id (sir_pcol r)) <$> stage_side_inputs s)
  ∪ list_to_set (omap (λ r, pt_inputs (ptn_transform (tr_pt r)) !! tr_name r) (stage_timers s))
  ∪ list_to_set (concat ((λ t, (map_to_list (pt_outputs (ptn_transform t))).*2) <$> stage_transforms s)).

Definition dangling_inputs (s : ExecutableStage) : gset string :=
  list_to_set (concat ((λ t, (map_to_list (pt_inputs (ptn_transform t))).*2) <$> stage_transforms s))
  ∖ possible_inputs s.

Definition with_inputs (t : PTransform) (inputs : gmap string string) : PTransform :=
  mkPTransform (pt_unique_name t) (pt_spec t) (pt_subtransforms t) inputs (pt_outputs t) (pt_environment_id t).

Definition sanitize_transform (dangling : gset string) (t : PTransformNode) : PTransformNode :=
  mkPTransformNode (ptn_id t)
    (with_inputs (ptn_transform t) (filter (λ i, i.2 ∉ dangling) (pt_inputs (ptn_transform t)))).

Definition transforms_of (ts : list PTransformNode) : gmap string PTransform :=
  foldl (λ m t, <[ptn_id t := ptn_transform t]> m) ∅ ts.

Definition with_transforms (comps : Components) (ts : gmap string PTransform) (pcols : gmap string PCollection)
    : Components :=
  mkComponents ts pcols (coders comps) (environments comps) (windowing_strategies comps).

Definition sanitize_dangling_ptransform_inputs (s : ExecutableStage) : minting ExecutableStage :=
  let dangling := dangling_inputs s in
  if decide (dangling = ∅) then mret s
  else
    let ts := index_extend ptn_id [] (sanitize_transform dangling <$> stage_transforms s) in
    let comps := stage_components s in
    stage_from (with_transforms comps (transforms_of ts) (filter (λ p, p.1 ∉ dangling) (pcollections comps)))
      (stage_environment s) (stage_input_pcol s) (stage_side_inputs s) (stage_user_states s) (stage_timers s)
      (stage_output_pcols s) ts.

(** ** [GreedyStageFuser::fuse] *)

Definition node_refs (q : QueryablePipeline) (t : PTransformNode)
    : translated (list SideInputRef * list UserStateRef * list TimerRef) :=
  side ← get_side_inputs q t;
  states ← get_user_states q t;
  timers ← get_timers q t;
  Ok (side, states, timers).

Definition stage_fuse (q : QueryablePipeline) (input_pcol : PCollectionNode) (initial_nodes : node_set)
    : minting ExecutableStage :=
  let initial := nodes initial_nodes in
  if decide (initial_nodes = ∅)
  then lift_minting (Err (InvalidArgument "must contain atleast one element GreedyStageFuser"))
  else
    env ← lift_minting (get_stage_environment q initial);
    refs ← lift_minting (traverse (node_refs q) initial);
    let side := refs.*1.*1 in
    let states := refs.*1.*2 in
    let timers := refs.*2 in
    let candidates := concat ((λ t, pcol_nodes (get_output_pcol q (ptn_id t))) <$> initial) in
    s ← lift_minting (stage_loop (size (pcollection_ids q)) q env
          (existsb transform_has_splittable_process_urn initial) candidates
          (mkFusionState initial (index_extend side_input_key [] (concat side)) [] []));
    stage ← stage_from (qp_components q) env input_pcol (fs_side_inputs s)
              (index_extend user_state_key [] (concat states)) (index_extend timer_key [] (concat timers))
              (materialized_pcols s) (fused_transforms s);
    sanitize_dangling_ptransform_inputs stage.
End stage.
