(* ===== verification/StageFuserSpec.v ===== *)
(** What the graph of a pipeline holds of its components and answers about them, and what a
    stage holds once it has grown: as much as can run together, and nothing it reads that
    it does not get. *)
From S2P Require Import Prelude Bytes CoderGraph Pipeline StageFuser.
(** * Leaves *)

Set Warnings "-clear-no-such-hyp".

Section leaves.
Context (ts : gmap string PTransform).

(** [leaf_below id leaf]: a transform without subtransforms under [id]. *)
Inductive leaf_below : string → string → Prop :=
| leaf_self id t : ts !! id = Some t → pt_subtransforms t = [] → leaf_below id id
| leaf_sub id t sub leaf :
    ts !! id = Some t → sub ∈ pt_subtransforms t → leaf_below sub leaf → leaf_below id leaf.

(** The subtransforms form a hierarchy: no transform is below itself. *)
Definition hierarchy (rank : string → nat) : Prop :=
  ∀ id t sub, ts !! id = Some t → sub ∈ pt_subtransforms t → is_Some (ts !! sub) → rank sub < rank id.

Lemma leaf_below_known id leaf : leaf_below id leaf → is_Some (ts !! leaf).
Proof. induction 1; [by eexists|done]. Qed.

Lemma leaves_ok rank depth id :
  hierarchy rank → (is_Some (ts !! id) → room rank (dom ts) id < depth) →
  ∃ l, leaves depth ts id = Ok l ∧ ∀ x, x ∈ l ↔ leaf_below id x.
Proof.
  intros Hr. revert id. induction depth as [|depth IH]; intros id Hd.
  { assert (ts !! id = None) as E. { destruct (ts !! id) eqn:E; [|done]. pose proof (Hd ltac:(done)). lia. }
    exists []. unfold leaves. rewrite E. split; [done|]. intros x. split; [by intros ?%elem_of_nil|].
    intros Hl. destruct Hl; congruence. }
  destruct (ts !! id) as [t|] eqn:E; cbn [leaves]; rewrite E.
  2: { exists []. split; [done|]. intros x. split; [by intros ?%elem_of_nil|]. intros Hl. destruct Hl; congruence. }
  destruct (pt_subtransforms t) as [|s ss] eqn:Es.
  { exists [id]. split; [done|]. intros x. rewrite list_elem_of_singleton. split; [intros ->; by econstructor|].
    intros Hl. inversion Hl as [|? t' sub ? Et Hs]; simplify_eq; [done|]. rewrite Es in Hs. by apply elem_of_nil in Hs. }
  rewrite <- Es. specialize (Hd ltac:(done)).
  assert (Hsub : ∀ sub, sub ∈ pt_subtransforms t →
            ∃ l, leaves depth ts sub = Ok l ∧ ∀ x, x ∈ l ↔ leaf_below sub x).
  { intros sub Hs. apply IH. intros Hk. pose proof (Hr id t sub E Hs Hk) as Hlt.
    pose proof (room_lt rank (dom ts) sub id ltac:(by apply elem_of_dom) Hlt). lia. }
  destruct (traverse_total (leaves depth ts) (reverse (pt_subtransforms t))) as [ids Ei].
  { apply Forall_forall. intros sub Hs. rewrite elem_of_reverse in Hs. destruct (Hsub sub Hs) as (l & El & _). by exists l. }
  exists (concat ids). rewrite Ei. split; [done|]. intros x. rewrite elem_of_concat. split.
  - intros (l & Hl & Hx). apply (traverse_elem _ _ _ Ei) in Hl as (sub & Hs & El).
    rewrite elem_of_reverse in Hs. destruct (Hsub sub Hs) as (l' & El' & Hiff). rewrite El in El'. injection El' as <-.
    eapply leaf_sub; [done|done|]. by apply Hiff.
  - intros Hl. inversion Hl as [|? t' sub ? Et Hs Hb]; simplify_eq; [congruence|].
    destruct (Hsub sub Hs) as (l & El & Hiff). exists l. split; [|by apply Hiff].
    apply (traverse_elem _ _ _ Ei). exists sub. by rewrite elem_of_reverse.
Qed.

Lemma get_primitives_ok `{HashIterLaws} rank :
  hierarchy rank →
  ∃ prims, get_primitives ts = Ok prims
    ∧ ∀ x, x ∈ prims ↔ ∃ id t, ts !! id = Some t ∧ is_primitive t = true ∧ leaf_below id x.
Proof.
  intros Hr.
  assert (Hl : ∀ id, ∃ l, leaves (size ts) ts id = Ok l ∧ ∀ x, x ∈ l ↔ leaf_below id x).
  { intros id. apply (leaves_ok rank); [done|]. intros Hk. rewrite <- size_dom. by apply room_size, elem_of_dom. }
  unfold get_primitives.
  destruct (traverse_total (λ p : string * PTransform, if is_primitive p.2 then leaves (size ts) ts p.1 else Ok [])
              (map_iter ts)) as [ids Ei].
  { apply Forall_forall. intros [id t] _. simpl. destruct (is_primitive t); [|by eexists].
    destruct (Hl id) as (l & E & _). by exists l. }
  rewrite Ei. eexists. split; [done|]. intros x. rewrite elem_of_list_to_set, elem_of_concat. split.
  - intros (l & Hin & Hx). apply (traverse_elem _ _ _ Ei) in Hin as ([id t] & Hin & E). simpl in E.
    rewrite map_iter_perm in Hin. apply elem_of_map_to_list in Hin.
    destruct (is_primitive t) eqn:Ep; [|injection E as <-; by apply elem_of_nil in Hx].
    destruct (Hl id) as (l' & E' & Hiff). rewrite E in E'. injection E' as <-. exists id, t. split_and!; [done|done|by apply Hiff].
  - intros (id & t & Et & Ep & Hb). destruct (Hl id) as (l & E & Hiff). exists l. split; [|by apply Hiff].
    apply (traverse_elem _ _ _ Ei). exists (id, t). simpl. rewrite Ep. split; [|done].
    rewrite map_iter_perm. by apply elem_of_map_to_list.
Qed.
End leaves.

(** * The graph *)

Section graph.
Context `{HashIterLaws, PayloadDecoder}.

(** A transform reads a PCollection, as a main or as a side input. *)
Definition reads_as (kind : PipelineEdge) (t : PTransform) (c : string) : Prop :=
  ∃ side name, get_local_side_input_names t = Ok side ∧ pt_inputs t !! name = Some c
    ∧ kind = if decide (name ∈ side) then Singleton else PerElement.

Definition writes (t : PTransform) (c : string) : Prop := ∃ name, pt_outputs t !! name = Some c.
Definition names (t : PTransform) (c : string) : Prop := writes t c ∨ ∃ name, pt_inputs t !! name = Some c.

(** What the graph holds of the components, over the transforms [P]. *)
Record graph_of (comps : Components) (P : string → Prop) (q : QueryablePipeline) : Prop := {
  go_comps : qp_components q = comps;
  go_transform id t : transform_ids q !! id = Some t ↔ P id ∧ transforms comps !! id = Some t;
  go_pcol c p : pcollection_ids q !! c = Some p
    ↔ pcollections comps !! c = Some p ∧ ∃ id t, P id ∧ transforms comps !! id = Some t ∧ names t c;
  go_produces id c : (id, c) ∈ produces q
    ↔ is_Some (pcollections comps !! c) ∧ ∃ t, P id ∧ transforms comps !! id = Some t ∧ writes t c;
  go_consumes c id kind : (c, id, kind) ∈ consumes q
    ↔ is_Some (pcollections comps !! c) ∧ ∃ t, P id ∧ transforms comps !! id = Some t ∧ reads_as kind t c;
}.

Lemma elem_of_output_edges comps id t i c :
  (i, c) ∈ output_edges comps id t ↔ i = id ∧ is_Some (pcollections comps !! c) ∧ writes t c.
Proof.
  unfold output_edges. rewrite list_elem_of_omap. split.
  - intros ([name o] & Hin & E). rewrite map_iter_perm in Hin. apply elem_of_map_to_list in Hin. simpl in E.
    destruct (pcollections comps !! o) eqn:Eo; simplify_eq. split_and!; [done|by eexists|by exists name].
  - intros (-> & [p Ep] & [name En]). exists (name, c). rewrite map_iter_perm, elem_of_map_to_list. simpl.
    by rewrite Ep.
Qed.

Lemma elem_of_input_edges comps id t c i kind :
  (c, i, kind) ∈ input_edges comps id t ↔ i = id ∧ is_Some (pcollections comps !! c) ∧ reads_as kind t c.
Proof.
  unfold input_edges, reads_as. destruct (get_local_side_input_names t) as [side|e|w].
  2,3: split; [by intros ?%elem_of_nil|]; by intros (_ & _ & ? & ? & [=] & _).
  rewrite list_elem_of_omap. split.
  - intros ([name o] & Hin & E). rewrite map_iter_perm in Hin. apply elem_of_map_to_list in Hin. simpl in E.
    destruct (pcollections comps !! o) eqn:Eo; simplify_eq. split_and!; [done|by eexists|by exists side, name].
  - intros (-> & [p Ep] & side' & name & [= <-] & En & ->). exists (name, c).
    rewrite map_iter_perm, elem_of_map_to_list. simpl. by rewrite Ep.
Qed.

Lemma named_pcols_lookup comps t c p :
  named_pcols comps t !! c = Some p ↔ pcollections comps !! c = Some p ∧ names t c.
Proof.
  unfold named_pcols, names, writes.
  assert (Hl : ∀ l : list (string * string),
    (list_to_map (omap (λ p : string * string, pair p.2 <$> pcollections comps !! p.2) l) : gmap string PCollection) !! c = Some p
    ↔ pcollections comps !! c = Some p ∧ c ∈ l.*2).
  { induction l as [|[n o] l IH]; [split; [done|]; intros [_ ?%elem_of_nil]; done|]. csimpl.
    destruct (pcollections comps !! o) as [p'|] eqn:Eo; csimpl.
    - rewrite elem_of_cons. destruct (decide (o = c)) as [->|Hne].
      + rewrite lookup_insert_eq. split; [intros [= ->]; by split; [|left]|]. intros [E _]. congruence.
      + rewrite lookup_insert_ne, IH by done. split; intros [? Hin]; (split; [done|]); [by right|]. by destruct Hin.
    - rewrite IH, elem_of_cons. split; intros [? Hin]; (split; [done|]); [by right|]. destruct Hin as [->|]; [congruence|done]. }
  rewrite Hl, fmap_app, elem_of_app. f_equiv.
  assert (Hm : ∀ m : gmap string string, c ∈ (map_iter m).*2 ↔ ∃ name, m !! name = Some c).
  { intros m. rewrite list_elem_of_fmap. split.
    - intros ([n o] & -> & Hin). rewrite map_iter_perm in Hin. exists n. by apply elem_of_map_to_list.
    - intros [n Hn]. exists (n, c). by rewrite map_iter_perm, elem_of_map_to_list. }
  by rewrite !Hm.
Qed.

Lemma add_transform_of comps P q id :
  graph_of comps P q → is_Some (transforms comps !! id) → graph_of comps (λ x, P x ∨ x = id) (add_transform q id).
Proof.
  intros [Hc Ht Hp Ho Hi] [t Et]. unfold add_transform. rewrite Hc, Et. constructor; simpl; [done| | | |].
  - intros i t'. destruct (decide (i = id)) as [->|Hne].
    + rewrite lookup_insert_eq. naive_solver.
    + rewrite lookup_insert_ne, Ht by done. naive_solver.
  - intros c p. rewrite lookup_union_Some_raw, named_pcols_lookup, Hp. split.
    + intros [[E (i & t' & ? & ? & ?)]|[_ [E Hn]]]; (split; [done|]); [exists i, t'|exists id, t]; naive_solver.
    + intros [E (i & t' & [Hi'| ->] & Et' & Hn)]; [left; split; [done|]; by exists i, t'|].
      destruct (pcollection_ids q !! c) as [p'|] eqn:E'; [|right; by simplify_eq].
      apply Hp in E' as [E' Hex]. left. by split.
  - intros i c. rewrite elem_of_app, Ho, elem_of_output_edges. naive_solver.
  - intros c i k. rewrite elem_of_app, Hi, elem_of_input_edges. naive_solver.
Qed.

Lemma build_graph_of q :
  (∀ id, id ∈ primitives q → is_Some (transforms (qp_components q) !! id)) →
  graph_of (qp_components q) (.∈ primitives q) (build_graph q).
Proof.
  intros Hk. unfold build_graph. set (q0 := mkQueryable _ _ _ _ _ _).
  assert (Hl : ∀ l, (∀ id, id ∈ l → id ∈ primitives q) →
            graph_of (qp_components q) (.∈ l) (foldl add_transform q0 l)).
  { induction l as [|id l IH] using rev_ind; intros Hsub.
    - constructor; simpl; [done|..]; intros; rewrite ?lookup_empty; set_solver.
    - rewrite foldl_snoc. assert (G : graph_of (qp_components q) (λ x, x ∈ l ∨ x = id) (add_transform (foldl add_transform q0 l) id)).
      { apply add_transform_of; [apply IH|apply Hk, Hsub]; set_solver. }
      destruct G as [G1 G2 G3 G4 G5].
      constructor; [done|..]; intros; [rewrite G2|rewrite G3|rewrite G4|rewrite G5]; set_solver. }
  destruct (Hl (set_iter (primitives q))) as [G1 G2 G3 G4 G5].
  { intros id. by rewrite set_iter_perm, elem_of_elements. }
  assert (Hs : ∀ id, id ∈ set_iter (primitives q) ↔ id ∈ primitives q) by (intros; by rewrite set_iter_perm, elem_of_elements).
  constructor; [done|..]; intros; [rewrite G2|rewrite G3|rewrite G4|rewrite G5]; setoid_rewrite Hs; done.
Qed.
(** ** Queries *)

Lemma elem_of_nodes (s : node_set) n : n ∈ nodes s ↔ s !! ptn_id n = Some (ptn_transform n).
Proof.
  unfold nodes. rewrite list_elem_of_fmap. setoid_rewrite map_iter_perm. split.
  - intros ([id t] & -> & Hin). by apply elem_of_map_to_list.
  - intros E. exists (ptn_id n, ptn_transform n). rewrite elem_of_map_to_list. by destruct n.
Qed.

Lemma elem_of_pcol_nodes (s : pcol_set) n : n ∈ pcol_nodes s ↔ s !! pcn_id n = Some (pcn_collection n).
Proof.
  unfold pcol_nodes. rewrite list_elem_of_fmap. setoid_rewrite map_iter_perm. split.
  - intros ([id t] & -> & Hin). by apply elem_of_map_to_list.
  - intros E. exists (pcn_id n, pcn_collection n). rewrite elem_of_map_to_list. by destruct n.
Qed.

Lemma NoDup_nodes (s : node_set) : NoDup (ptn_id <$> nodes s).
Proof.
  unfold nodes. rewrite <- list_fmap_compose. rewrite (map_iter_perm s).
  apply (NoDup_fst_map_to_list s).
Qed.

Section queries.
Context comps P q (G : graph_of comps P q).

Lemma consumers_by_lookup kind c id t :
  consumers_by kind q c !! id = Some t
  ↔ is_Some (pcollections comps !! c) ∧ P id ∧ transforms comps !! id = Some t ∧ reads_as kind t c.
Proof.
  unfold consumers_by. split.
  - destruct (pcollection_ids q !! c) as [p|] eqn:Ep; [|done]. rewrite map_lookup_filter_Some. simpl.
    intros [Et (Hc & t' & HP & Et' & Hr)%(go_consumes _ _ _ G)]. apply (go_transform _ _ _ G) in Et as [_ Et]. by simplify_eq.
  - intros ([p Ep] & HP & Et & Hr).
    assert (E : pcollection_ids q !! c = Some p).
    { apply (go_pcol _ _ _ G). split; [done|]. exists id, t. split_and!; [done|done|]. destruct Hr as (? & name & _ & ? & _).
      right. by exists name. }
    rewrite E, map_lookup_filter_Some. simpl. split; [by apply (go_transform _ _ _ G)|].
    apply (go_consumes _ _ _ G). split; [by exists p|by exists t].
Qed.

Lemma get_output_pcol_lookup id c p :
  get_output_pcol q id !! c = Some p
  ↔ pcollections comps !! c = Some p ∧ ∃ t, P id ∧ transforms comps !! id = Some t ∧ writes t c.
Proof.
  unfold get_output_pcol. split.
  - destruct (transform_ids q !! id) as [t|] eqn:Et; [|done]. rewrite map_lookup_filter_Some. simpl.
    intros [Ep (_ & Hex)%(go_produces _ _ _ G)]. apply (go_pcol _ _ _ G) in Ep as [Ep _]. done.
  - intros (Ep & t & HP & Et & Hw).
    rewrite (proj2 (go_transform _ _ _ G id t)) by done. apply map_lookup_filter_Some. simpl. split.
    + apply (go_pcol _ _ _ G). split; [done|]. exists id, t. split_and!; [done|done|by left].
    + apply (go_produces _ _ _ G). split; [by exists p|by exists t].
Qed.

Lemma get_root_transforms_lookup id t :
  get_root_transforms q !! id = Some t
  ↔ P id ∧ transforms comps !! id = Some t ∧ ∀ kind c, reads_as kind t c → pcollections comps !! c = None.
Proof.
  unfold get_root_transforms. rewrite map_lookup_filter_Some, (go_transform _ _ _ G). simpl. rewrite Forall_forall. split.
  - intros [[HP Et] Hno]. split_and!; [done|done|]. intros kind c Hr. apply eq_None_not_Some. intros Hc.
    apply (Hno (c, id, kind)); [|done]. apply (go_consumes _ _ _ G). split; [done|by exists t].
  - intros (HP & Et & Hno). split; [done|]. intros [[c i] kind] Hin. simpl. intros ->.
    apply (go_consumes _ _ _ G) in Hin as (Hc & t' & _ & Et' & Hr). simplify_eq.
    apply (eq_None_not_Some (pcollections comps !! c)) in Hc; [done|]. by apply (Hno kind).
Qed.
End queries.
End graph.

(** * Index sets *)

Section index_set.
Context {A K : Type} `{EqDecision K} (key : A → K).

Lemma index_insert_keys l x k : k ∈ key <$> index_insert key l x ↔ k ∈ key <$> l ∨ k = key x.
Proof.
  unfold index_insert. case_decide as Hin; [|rewrite fmap_app, elem_of_app; csimpl; by rewrite list_elem_of_singleton].
  split; [by left|]. by intros [?| ->].
Qed.

Lemma index_extend_keys l xs k : k ∈ key <$> index_extend key l xs ↔ k ∈ key <$> l ∨ k ∈ key <$> xs.
Proof.
  unfold index_extend. revert l. induction xs as [|x xs IH]; intros l; simpl; [rewrite elem_of_nil; tauto|].
  rewrite IH, index_insert_keys, elem_of_cons. tauto.
Qed.

Lemma index_insert_NoDup l x : NoDup (key <$> l) → NoDup (key <$> index_insert key l x).
Proof.
  intros Hl. unfold index_insert. case_decide as Hin; [done|]. rewrite fmap_app. apply NoDup_app.
  split_and!; [done| |by apply NoDup_singleton]. csimpl. by intros y Hy ->%list_elem_of_singleton.
Qed.

Lemma index_extend_NoDup l xs : NoDup (key <$> l) → NoDup (key <$> index_extend key l xs).
Proof.
  unfold index_extend. revert l. induction xs as [|x xs IH]; intros l Hl; simpl; [done|]. by apply IH, index_insert_NoDup.
Qed.

Lemma index_extend_append l xs : NoDup (key <$> l ++ xs) → index_extend key l xs = l ++ xs.
Proof.
  unfold index_extend. revert l. induction xs as [|x xs IH]; intros l Hl; simpl; [by rewrite app_nil_r|].
  unfold index_insert at 2. rewrite decide_False.
  - rewrite IH; by rewrite <- app_assoc.
  - rewrite fmap_app in Hl. apply NoDup_app in Hl as (_ & Hd & _). intros Hin. apply (Hd _ Hin). by left.
Qed.

Lemma index_extend_fresh xs : NoDup (key <$> xs) → index_extend key [] xs = xs.
Proof. apply (index_extend_append []). Qed.

(** Where keys determine the elements, an index set is the set of what was inserted. *)
Context (S : A → Prop) (Hkey : ∀ a b, S a → S b → key a = key b → a = b).

Lemma elem_of_index_insert l x y : Forall S l → S x → y ∈ index_insert key l x ↔ y ∈ l ∨ y = x.
Proof.
  intros Hl Hx. unfold index_insert. case_decide as Hin; [|by rewrite elem_of_app, list_elem_of_singleton].
  split; [by left|]. intros [?| ->]; [done|]. apply list_elem_of_fmap in Hin as (z & E & Hz).
  by rewrite (Hkey x z Hx (proj1 (Forall_forall _ _) Hl z Hz) E).
Qed.

Lemma elem_of_index_extend l xs y : Forall S l → Forall S xs → y ∈ index_extend key l xs ↔ y ∈ l ∨ y ∈ xs.
Proof.
  unfold index_extend. intros Hl Hxs. revert l Hl. induction Hxs as [|x xs Hx _ IH]; intros l Hl; simpl.
  { rewrite elem_of_nil. tauto. }
  rewrite IH.
  - rewrite elem_of_index_insert, elem_of_cons by done. tauto.
  - unfold index_insert. case_decide; [done|]. apply Forall_app. by split; [|constructor].
Qed.
End index_set.

(** * The loop *)

Section loop.
Context `{HashIterLaws, PayloadDecoder} (q : QueryablePipeline).

Definition known_transform (n : PTransformNode) : Prop := transform_ids q !! ptn_id n = Some (ptn_transform n).
Definition known_pcol (c : PCollectionNode) : Prop := pcollection_ids q !! pcn_id c = Some (pcn_collection c).

Lemma known_transform_inj a b : known_transform a → known_transform b → ptn_id a = ptn_id b → a = b.
Proof. unfold known_transform. destruct a, b; simpl. naive_solver. Qed.
Lemma known_pcol_inj a b : known_pcol a → known_pcol b → pcn_id a = pcn_id b → a = b.
Proof. unfold known_pcol. destruct a, b; simpl. naive_solver. Qed.

Definition consumers (c : PCollectionNode) : list PTransformNode := nodes (get_per_element_consumers q (pcn_id c)).
Definition outputs (n : PTransformNode) : list PCollectionNode := pcol_nodes (get_output_pcol q (ptn_id n)).

Lemma consumers_known c : Forall known_transform (consumers c).
Proof.
  apply Forall_forall. intros n Hn%elem_of_nodes. unfold get_per_element_consumers, consumers_by in Hn.
  destruct (pcollection_ids q !! pcn_id c); [|done]. by apply map_lookup_filter_Some in Hn as [? _].
Qed.

Lemma outputs_known n : Forall known_pcol (outputs n).
Proof.
  apply Forall_forall. intros c Hc%elem_of_pcol_nodes. unfold get_output_pcol in Hc.
  destruct (transform_ids q !! ptn_id n); [|done]. by apply map_lookup_filter_Some in Hc as [? _].
Qed.

(** The payloads of the primitive transforms can be read and name inputs they have. *)
Definition payloads_ok : Prop := ∀ n, known_transform n →
  is_ok (get_side_inputs q n) = true ∧ is_ok (get_user_states q n) = true ∧ is_ok (get_timers q n) = true.

Context (env : Environment) (splittable_process : bool).

(** The stage takes in the consumers of a PCollection. *)
Definition fuses (c : PCollectionNode) : bool :=
  match can_fuse q c env with
  | FUSE => negb (splittable_process && existsb (λ t, has_urn SPLITTABLE_PARDO_COMPONENTS (ptn_transform t)) (consumers c))
  | MATERIALIZE => false
  end.

Definition side_inputs_of (n : PTransformNode) (r : SideInputRef) : Prop :=
  ∃ refs, get_side_inputs q n = Ok refs ∧ r ∈ refs.

(** The state of the loop with [queue] still to visit, from the transforms [roots]. *)
Record grown (roots : list PTransformNode) (queue : list PCollectionNode) (s : FusionState) : Prop := {
  gr_known : Forall known_transform (fused_transforms s);
  gr_pcols : Forall known_pcol (fused_pcols s ++ materialized_pcols s ++ queue);
  gr_transforms n : n ∈ fused_transforms s ↔ n ∈ roots ∨ ∃ c, c ∈ fused_pcols s ∧ n ∈ consumers c;
  gr_nodup : NoDup (ptn_id <$> fused_transforms s);
  gr_outputs c : (c ∈ fused_pcols s ∨ c ∈ materialized_pcols s ∨ c ∈ queue)
                 ↔ ∃ n, n ∈ fused_transforms s ∧ c ∈ outputs n;
  gr_visited : NoDup (pcn_id <$> fused_pcols s ++ materialized_pcols s);
  gr_fused c : c ∈ fused_pcols s → fuses c = true;
  gr_materialized c : c ∈ materialized_pcols s → fuses c = false;
  gr_side k : k ∈ side_input_key <$> fs_side_inputs s
              ↔ ∃ n r, n ∈ fused_transforms s ∧ side_inputs_of n r ∧ k = side_input_key r;
}.

Lemma visited_spec s c : visited s c = true ↔ pcn_id c ∈ pcn_id <$> fused_pcols s ++ materialized_pcols s.
Proof.
  unfold visited. rewrite orb_true_iff, !bool_decide_eq_true, fmap_app, elem_of_app. done.
Qed.

(** A visit materialises the candidate or takes its consumers in. *)
Lemma visit_spec s c :
  payloads_ok →
  if fuses c
  then ∃ side, traverse (get_side_inputs q) (consumers c) = Ok side
         ∧ visit_candidate q env splittable_process c s
           = Ok (fuse_transforms s (consumers c) (concat side) c, concat (outputs <$> consumers c))
  else visit_candidate q env splittable_process c s = Ok (materialize s c, []).
Proof.
  intros Hp. unfold fuses, visit_candidate. fold (consumers c). destruct (can_fuse q c env); [|done].
  destruct (_ && _); simpl; [done|].
  destruct (traverse_total (get_side_inputs q) (consumers c)) as [side E].
  { eapply Forall_impl; [apply consumers_known|]. intros n Hn. destruct (Hp n Hn) as (Hs & _).
    destruct (get_side_inputs q n); [by eexists|done..]. }
  rewrite E. by exists side.
Qed.

Lemma grown_skip roots c queue s :
  grown roots (c :: queue) s → visited s c = true → grown roots queue s.
Proof.
  intros [G1 G2 G3 G4 G5 G6 G7 G8 G9] Hv. apply visited_spec in Hv. constructor; try done.
  - rewrite !Forall_app in *. naive_solver eauto using Forall_inv_tail.
  - intros c'. rewrite <- G5, elem_of_cons. split; [tauto|]. intros [?|[?|[->|?]]]; [tauto|tauto| |tauto].
    apply list_elem_of_fmap in Hv as (d & E & Hd). rewrite !Forall_app, Forall_cons in G2.
    destruct G2 as (Gf & Gm & Gc & _).
    assert (c = d) as ->; [|apply elem_of_app in Hd; tauto].
    apply known_pcol_inj; [done| |done]. apply elem_of_app in Hd as [Hd|Hd]; by eapply Forall_forall in Hd.
Qed.

Lemma index_insert_fresh {A} (key : A → string) l x : key x ∉ (key <$> l) → index_insert key l x = l ++ [x].
Proof. intros Hn. unfold index_insert. by rewrite decide_False. Qed.

Lemma not_visited s c :
  visited s c = false → pcn_id c ∉ (pcn_id <$> fused_pcols s) ∧ pcn_id c ∉ (pcn_id <$> materialized_pcols s).
Proof.
  intros Hv. rewrite <- not_true_iff_false, visited_spec, fmap_app, elem_of_app in Hv. tauto.
Qed.

Lemma grown_materialize roots c queue s :
  grown roots (c :: queue) s → visited s c = false → fuses c = false → grown roots queue (materialize s c).
Proof.
  intros [G1 G2 G3 G4 G5 G6 G7 G8 G9] Hv Hf. destruct (not_visited s c Hv) as [Hv1 Hv2].
  unfold materialize. rewrite (index_insert_fresh pcn_id) by done.
  constructor; simpl; try done.
  - by rewrite <- app_assoc.
  - intros c'. rewrite <- G5, elem_of_app, !elem_of_cons, elem_of_nil. tauto.
  - rewrite app_assoc, fmap_app. apply NoDup_app. split_and!; [done| |apply NoDup_singleton].
    rewrite fmap_app. intros k Hk. csimpl. intros ->%list_elem_of_singleton. apply elem_of_app in Hk as [?|?]; done.
  - intros c' [Hc| ->%list_elem_of_singleton]%elem_of_app; [by apply G8|done].
Qed.

Lemma side_keys ns side :
  traverse (get_side_inputs q) ns = Ok side → ∀ k,
  k ∈ side_input_key <$> concat side ↔ ∃ n r, n ∈ ns ∧ side_inputs_of n r ∧ k = side_input_key r.
Proof.
  intros Hs k. rewrite list_elem_of_fmap. split.
  - intros (r & -> & (refs & Hrefs & Hr)%elem_of_concat). apply (traverse_elem _ _ _ Hs) in Hrefs as (n & Hn & E).
    exists n, r. split_and!; [done|by exists refs|done].
  - intros (n & r & Hn & (refs & E & Hr) & ->). exists r. split; [done|]. apply elem_of_concat. exists refs.
    split; [|done]. apply (traverse_elem _ _ _ Hs). by exists n.
Qed.

Lemma grown_fuse roots c queue s side :
  grown roots (c :: queue) s → visited s c = false → fuses c = true →
  traverse (get_side_inputs q) (consumers c) = Ok side →
  grown roots (queue ++ concat (outputs <$> consumers c)) (fuse_transforms s (consumers c) (concat side) c).
Proof.
  intros [G1 G2 G3 G4 G5 G6 G7 G8 G9] Hv Hf Hside. destruct (not_visited s c Hv) as [Hv1 Hv2].
  pose proof (consumers_known c) as Hkc.
  assert (Ht : ∀ n, n ∈ index_extend ptn_id (fused_transforms s) (consumers c) ↔ n ∈ fused_transforms s ∨ n ∈ consumers c).
  { intros n. apply (elem_of_index_extend ptn_id known_transform); auto using known_transform_inj. }
  unfold fuse_transforms. rewrite (index_insert_fresh pcn_id) by done.
  constructor; cbn [fused_transforms fs_side_inputs fused_pcols materialized_pcols].
  - apply Forall_forall. intros n Hn. apply Ht in Hn as [Hn|Hn]; by eapply Forall_forall in Hn.
  - rewrite !Forall_app, !Forall_cons in *. destruct G2 as (? & ? & ? & ?). split_and!; [done|done|constructor|done|done|].
    apply Forall_forall. intros d (n & _ & Hd)%elem_of_concat_fmap.
    eapply Forall_forall in Hd; [done|]. apply outputs_known.
  - intros n. rewrite Ht, G3. split.
    + intros [[?|(d & ? & ?)]|?]; [by left|right; exists d; by rewrite elem_of_app; auto|right].
      exists c. rewrite elem_of_app, list_elem_of_singleton. auto.
    + intros [?|(d & [Hd| ->%list_elem_of_singleton]%elem_of_app & ?)]; [auto|left; right; by exists d|auto].
  - by apply index_extend_NoDup.
  - intros c'. transitivity ((∃ n, n ∈ fused_transforms s ∧ c' ∈ outputs n) ∨ ∃ n, n ∈ consumers c ∧ c' ∈ outputs n).
    + rewrite <- G5, !elem_of_app, !elem_of_cons, elem_of_nil, elem_of_concat_fmap. tauto.
    + setoid_rewrite Ht. split.
      * intros [(n & ? & ?)|(n & ? & ?)]; exists n; tauto.
      * intros (n & [?|?] & ?); [left|right]; by exists n.
  - rewrite <- app_assoc. rewrite (Permutation_app_comm [c]), app_assoc. rewrite fmap_app. apply NoDup_app.
    split_and!; [done| |apply NoDup_singleton].
    rewrite fmap_app. intros k Hk. csimpl. intros ->%list_elem_of_singleton. apply elem_of_app in Hk as [?|?]; done.
  - intros c' [Hc| ->%list_elem_of_singleton]%elem_of_app; [by apply G7|done].
  - done.
  - intros k. rewrite index_extend_keys, G9. setoid_rewrite Ht.
    assert (Hc : k ∈ side_input_key <$> concat side ↔ ∃ n r, n ∈ consumers c ∧ side_inputs_of n r ∧ k = side_input_key r).
    { by apply side_keys. }
    rewrite Hc. split.
    + intros [(n & r & ? & ? & ?)|(n & r & ? & ? & ?)]; exists n, r; auto.
    + intros (n & r & [?|?] & ? & ?); [left|right]; by exists n, r.
Qed.

(** The loop ends: every visit adds a PCollection of the graph. *)
Lemma stage_loop_ok roots fuel queue s :
  payloads_ok → grown roots queue s →
  size (pcollection_ids q) ≤ fuel + length (fused_pcols s ++ materialized_pcols s) →
  ∃ s', stage_loop fuel q env splittable_process queue s = Ok s' ∧ grown roots [] s'.
Proof.
  intros Hp. revert queue s. induction fuel as [|fuel IH]; intros queue; induction queue as [|c queue IHq]; intros s G Hf.
  1,3: by exists s.
  all: simpl; destruct (visited s c) eqn:Hv; [apply IHq; [by eapply grown_skip|done]|].
  - exfalso. pose proof (gr_visited _ _ _ G) as Hnd. pose proof (gr_pcols _ _ _ G) as Hk. rewrite app_assoc in Hk.
    assert (Hsub : list_to_set (pcn_id <$> c :: fused_pcols s ++ materialized_pcols s) ⊆@{gset string} (dom (pcollection_ids q))).
    { intros k. rewrite elem_of_list_to_set, list_elem_of_fmap. intros (d & -> & Hd). apply elem_of_dom.
      exists (pcn_collection d). rewrite Forall_app, Forall_cons in Hk. destruct Hk as (Hk & Hkc & _).
      apply elem_of_cons in Hd as [->|Hd]; [exact Hkc|exact (proj1 (Forall_forall _ _) Hk d Hd)]. }
    apply subseteq_size in Hsub. rewrite size_list_to_set, size_dom, length_fmap in Hsub; [simpl in Hsub; lia|].
    csimpl. constructor; [|done]. rewrite <- visited_spec. by rewrite Hv.
  - pose proof (visit_spec s c Hp) as Hvis. destruct (not_visited s c Hv) as [Hv1 Hv2]. destruct (fuses c) eqn:Hfu.
    + destruct Hvis as (side & Es & ->). simpl. apply IH; [by apply grown_fuse|].
      unfold fuse_transforms. simpl. rewrite (index_insert_fresh pcn_id) by done. rewrite !length_app in *. simpl. lia.
    + rewrite Hvis. simpl. rewrite app_nil_r. apply IH; [by apply grown_materialize|].
      unfold materialize. simpl. rewrite (index_insert_fresh pcn_id) by done. rewrite !length_app in *. simpl. lia.
Qed.

Lemma grown_start roots side :
  Forall known_transform roots → NoDup (ptn_id <$> roots) → traverse (get_side_inputs q) roots = Ok side →
  grown roots (concat (outputs <$> roots))
    (mkFusionState roots (index_extend side_input_key [] (concat side)) [] []).
Proof.
  intros Hk Hnd Hs. constructor; simpl; try done.
  - apply Forall_forall. intros d (n & _ & Hd)%elem_of_concat_fmap.
    eapply Forall_forall in Hd; [done|]. apply outputs_known.
  - intros n. split; [by left|]. intros [?|(c & ?%elem_of_nil & _)]; done.
  - intros c. rewrite !elem_of_nil, elem_of_concat_fmap. tauto.
  - constructor.
  - by intros c ?%elem_of_nil.
  - by intros c ?%elem_of_nil.
  - intros k. rewrite index_extend_keys. csimpl. rewrite elem_of_nil, (side_keys _ _ Hs). tauto.
Qed.
End loop.

(** * A stage *)

Lemma lift_minting_bind {A B} (m : translated A) (f : A → minting B) a n : m = Ok a → (lift_minting m ≫= f) n = f a n.
Proof. by intros ->. Qed.
Lemma minting_bind_ok {A B} (m : minting A) (f : A → minting B) a n n' : m n = Ok (a, n') → (m ≫= f) n = f a n'.
Proof. intros E. unfold mbind, minting_bind. by rewrite E. Qed.

Section stage.
Context `{HashIterLaws, PayloadDecoder} (new_v4 : nat → string) (q : QueryablePipeline).

(** Sanitising keeps all of a stage but the inputs nothing in it provides. *)
Record sanitized (s s' : ExecutableStage) : Prop := {
  sn_input : stage_input_pcol s' = stage_input_pcol s;
  sn_env : stage_environment s' = stage_environment s;
  sn_side : stage_side_inputs s' = stage_side_inputs s;
  sn_timers : stage_timers s' = stage_timers s;
  sn_outputs : stage_output_pcols s' = stage_output_pcols s;
  sn_transforms : ∃ D, D ## possible_inputs s ∧ stage_transforms s' = sanitize_transform D <$> stage_transforms s;
  sn_dangling : dangling_inputs s' = ∅;
}.

Lemma sanitize_transform_none n : sanitize_transform ∅ n = n.
Proof.
  unfold sanitize_transform, with_inputs. destruct n as [id []]; simpl. f_equal. f_equal.
  apply map_filter_id. intros i x _. set_solver.
Qed.

Lemma sanitize_ok s n :
  NoDup (ptn_id <$> stage_transforms s) →
  ∃ s' n', sanitize_dangling_ptransform_inputs new_v4 s n = Ok (s', n') ∧ sanitized s s'
    ∧ (n' = n ∧ stage_id s' = stage_id s ∨ n' = S n ∧ stage_id s' = new_v4 n).
Proof.
  intros Hnd. unfold sanitize_dangling_ptransform_inputs. case_decide as Hd.
  { exists s, n. split; [done|]. split; [|by left]. constructor; try done. exists ∅. split; [set_solver|].
    symmetry. rewrite <- (list_fmap_id (stage_transforms s)) at 2. apply list_fmap_ext. intros i x _.
    apply sanitize_transform_none. }
  set (D := dangling_inputs s) in *. set (ts := sanitize_transform D <$> stage_transforms s).
  assert (Hts : index_extend ptn_id [] ts = ts).
  { apply index_extend_fresh. unfold ts. by rewrite <- list_fmap_compose. }
  rewrite Hts. eexists _, _. split; [done|]. split; [|by right].
  constructor; try done.
  - exists D. split; [unfold D, dangling_inputs; set_solver|done].
  - set (s' := mkStage _ _ _ _ _ _ _ _ _).
    assert (Hp : possible_inputs s' = possible_inputs s).
    { unfold possible_inputs, s', ts. simpl. by rewrite <- list_fmap_compose. }
    unfold dangling_inputs. rewrite Hp. unfold s', ts. simpl. rewrite <- list_fmap_compose.
    apply set_eq. intros c. rewrite elem_of_difference, elem_of_list_to_set, elem_of_concat_fmap. split; [|set_solver].
    intros [(t & Ht & Hc) Hn]. exfalso. simpl in Hc. apply list_elem_of_fmap in Hc as ([i c'] & -> & Hc). simpl in *.
    apply elem_of_map_to_list, map_lookup_filter_Some in Hc as [Hc HD]. simpl in HD. apply HD.
    unfold D, dangling_inputs. rewrite elem_of_difference, elem_of_list_to_set, elem_of_concat_fmap. split; [|done].
    exists t. split; [done|]. apply list_elem_of_fmap. exists (i, c'). split; [done|]. by apply elem_of_map_to_list.
Qed.

(** The stage rooted at [roots] on [input]. *)
Record stage_of (input : PCollectionNode) (roots : list PTransformNode) (s : ExecutableStage) : Prop := {
  so_input : stage_input_pcol s = input;
  so_env : ∃ n, n ∈ roots ∧ get_environment q (ptn_transform n) = Some (stage_environment s);
  so_same : ∀ n, n ∈ roots → in_environment q n (stage_environment s) = true;
  so_grown : ∃ st D,
    grown q (stage_environment s) (existsb transform_has_splittable_process_urn roots) roots [] st
    ∧ stage_output_pcols s = materialized_pcols st ∧ stage_side_inputs s = fs_side_inputs st
    ∧ stage_transforms s = sanitize_transform D <$> fused_transforms st ∧ D ## possible_inputs s;
  so_dangling : dangling_inputs s = ∅;
}.

Lemma get_stage_environment_ok roots env :
  roots ≠ [] → (∀ n, n ∈ roots → in_environment q n env = true) →
  ∃ e n, get_stage_environment q roots = Ok e ∧ n ∈ roots ∧ get_environment q (ptn_transform n) = Some e
       ∧ env_urn e = env_urn env.
Proof.
  intros Hne Hsame. destruct roots as [|n roots]; [done|]. simpl.
  assert (Hn : ∀ n', n' ∈ n :: roots → ∃ e, get_environment q (ptn_transform n') = Some e ∧ env_urn e = env_urn env).
  { intros n' Hn'. specialize (Hsame n' Hn'). unfold in_environment, same_environment in Hsame.
    destruct (get_environment q (ptn_transform n')) as [e|]; [|done]. exists e. by apply bool_decide_eq_true in Hsame. }
  destruct (Hn n ltac:(by left)) as (e & Ee & Hu). rewrite Ee.
  assert (Hall : ∀ l, (∀ n', n' ∈ l → n' ∈ n :: roots) → same_stage_environment q e l = Ok ()).
  { induction l as [|n' l IH]; intros Hl; [done|]. simpl. destruct (Hn n' ltac:(apply Hl; by left)) as (e' & -> & Hu').
    unfold same_environment. rewrite bool_decide_eq_true_2 by congruence. apply IH. intros; apply Hl; by right. }
  exists e, n. pose proof (Hall (n :: roots) ltac:(done)) as Ha. simpl in Ha. rewrite Ee in Ha. rewrite Ha.
  split_and!; [done|by left|done|done].
Qed.

Lemma traverse_is_ok {A B} (f : A → translated B) l : (∀ x, x ∈ l → is_ok (f x) = true) → ∃ ys, traverse f l = Ok ys.
Proof.
  intros Hf. apply traverse_total, Forall_forall. intros x Hx. specialize (Hf x Hx). destruct (f x); [by eexists|done..].
Qed.

Lemma node_refs_ok l :
  (∀ x, x ∈ l → is_ok (get_side_inputs q x) = true ∧ is_ok (get_user_states q x) = true ∧ is_ok (get_timers q x) = true) →
  ∃ refs, traverse (node_refs q) l = Ok refs ∧ traverse (get_side_inputs q) l = Ok refs.*1.*1.
Proof.
  induction l as [|x l IH]; intros Hl; [by exists []|]. destruct IH as (refs & E & Es); [intros; apply Hl; by right|].
  destruct (Hl x ltac:(by left)) as (H1' & H2' & H3'). simpl.
  assert (Ex : ∃ side states timers, node_refs q x = Ok (side, states, timers) ∧ get_side_inputs q x = Ok side).
  { unfold node_refs. destruct (get_side_inputs q x) as [side| |]; [|done..]. destruct (get_user_states q x) as [states| |]; [|done..].
    destruct (get_timers q x) as [timers| |]; [|done..]. by exists side, states, timers. }
  destruct Ex as (side & states & timers & -> & ->). simpl. rewrite E, Es. by eexists.
Qed.

Lemma possible_inputs_ext s s' :
  stage_input_pcol s' = stage_input_pcol s → stage_output_pcols s' = stage_output_pcols s →
  stage_side_inputs s' = stage_side_inputs s → stage_timers s' = stage_timers s →
  (∃ D, stage_transforms s' = sanitize_transform D <$> stage_transforms s) → possible_inputs s' = possible_inputs s.
Proof.
  intros H1' H2' H3' H4' (D & Ht). unfold possible_inputs. rewrite H1', H2', H3', H4', Ht. by rewrite <- list_fmap_compose.
Qed.

Lemma stage_fuse_ok input (initial : node_set) env n :
  payloads_ok q → initial ≠ ∅ → (∀ id t, initial !! id = Some t → transform_ids q !! id = Some t) →
  (∀ m, m ∈ nodes initial → in_environment q m env = true) →
  ∃ s n' k, stage_fuse new_v4 q input initial n = Ok (s, n') ∧ n ≤ k < n' ∧ stage_id s = new_v4 k
    ∧ env_urn (stage_environment s) = env_urn env ∧ stage_of input (nodes initial) s.
Proof.
  intros Hp Hne Hk Henv. set (roots := nodes initial) in *.
  assert (Hknown : Forall (known_transform q) roots).
  { apply Forall_forall. intros m Hm%elem_of_nodes. by apply Hk. }
  assert (Hroots : roots ≠ []).
  { intros Hr. apply Hne, map_empty. intros id. apply eq_None_not_Some. intros [t Ht].
    assert (mkPTransformNode id t ∈ roots) as Hin by (by apply elem_of_nodes). rewrite Hr in Hin. by apply elem_of_nil in Hin. }
  destruct (get_stage_environment_ok roots env Hroots Henv) as (e & m & Ee & Hm & Em & Hu).
  assert (Hok : ∀ x, x ∈ roots → is_ok (get_side_inputs q x) = true ∧ is_ok (get_user_states q x) = true ∧ is_ok (get_timers q x) = true).
  { intros x Hx. apply Hp. by eapply Forall_forall in Hknown. }
  destruct (node_refs_ok roots Hok) as (refs & Erefs & Eside). set (side := refs.*1.*1) in *.
  pose proof (grown_start q e (existsb transform_has_splittable_process_urn roots) roots side Hknown (NoDup_nodes initial) Eside) as G0.
  destruct (stage_loop_ok q e _ roots (size (pcollection_ids q)) _ _ Hp G0 ltac:(simpl; lia)) as (st & Est & G).
  unfold stage_fuse. rewrite decide_False by done. fold roots.
  rewrite (lift_minting_bind _ _ _ _ Ee), (lift_minting_bind _ _ _ _ Erefs). cbv zeta. fold side.
  rewrite (lift_minting_bind _ _ _ _ Est), (minting_bind_ok _ _ _ _ _ eq_refl).
  set (s0 := mkStage _ _ _ _ _ _ _ _ _).
  destruct (sanitize_ok s0 (S n) (gr_nodup _ _ _ _ _ _ G)) as (s' & n' & Es & San & Hid). rewrite Es.
  exists s', n'. destruct San as [S1 S2 S3 S4 S5 (D & HD & S6) S7].
  exists (if decide (n' = S n) then n else S n). split; [done|].
  assert (Hids : n ≤ (if decide (n' = S n) then n else S n) < n' ∧ stage_id s' = new_v4 (if decide (n' = S n) then n else S n)).
  { destruct Hid as [[-> ->]|[-> ->]].
    - rewrite decide_True by done. split; [lia|done].
    - rewrite decide_False by lia. split; [lia|done]. }
  destruct Hids as [? ?]. split_and!; [lia|lia|done|by rewrite S2|].
  constructor.
  - by rewrite S1.
  - exists m. by rewrite S2.
  - intros x Hx. rewrite S2. specialize (Henv x Hx). unfold in_environment, same_environment in *. simpl.
    destruct (get_environment q (ptn_transform x)); [|done]. apply bool_decide_eq_true in Henv. apply bool_decide_eq_true. congruence.
  - exists st, D. rewrite S2, S3, S5. split_and!; [done..|].
    rewrite (possible_inputs_ext s0 s'); [done..|]. by exists D.
  - done.
Qed.
End stage.
