(* ===== verification/PipelineFuser.v ===== *)
(** Cutting a pipeline into stages ([GreedyPipelineFuser] of fusion/fuser.rs and
    [fuse_pipeline] of jobservice/job.rs): consumers of a materialised PCollection are
    grouped into compatible siblings, every group roots a stage, and what a stage
    materialises brings further consumers. *)
From S2P Require Import Prelude Bytes CoderGraph Pipeline StageFuser.
Local Open Scope string_scope.
Local Open Scope list_scope.

(** * Consumers *)

(** [CollectionConsumers] is ordered, and a [BTreeSet] of them keyed, by the ids of the
    PCollection and of the transform. *)
Record CollectionConsumers : Type := mkConsumers { cc_collection : PCollectionNode; cc_transform : PTransformNode }.

Definition consumer_key (c : CollectionConsumers) : string * string :=
  (pcn_id (cc_collection c), ptn_id (cc_transform c)).

(** [BTreeSet<CollectionConsumers>]. *)
Abbreviation consumer_set := (gmap (string * string) CollectionConsumers).

(** [BTreeSet::insert] keeps the element that is there. *)
Definition consumer_insert (c : CollectionConsumers) (s : consumer_set) : consumer_set :=
  match s !! consumer_key c with Some _ => s | None => <[consumer_key c := c]> s end.

(** A [BTreeSet] iterates in order. *)
Definition consumers_in_order (s : consumer_set) : list CollectionConsumers :=
  sort_by (λ a b, compare_le pair_compare (consumer_key a) (consumer_key b)) (map_to_list s).*2.

(** [Ord] on [BTreeSet<CollectionConsumers>]. *)
Definition group_compare (a b : consumer_set) : comparison :=
  list_compare pair_compare (consumer_key <$> consumers_in_order a) (consumer_key <$> consumers_in_order b).

(** Inserting into a [BTreeSet<BTreeSet<CollectionConsumers>>]. *)
Fixpoint group_insert (g : consumer_set) (l : list consumer_set) : list consumer_set :=
  match l with
  | [] => [g]
  | h :: l' =>
      match group_compare g h with
      | Lt => g :: l
      | Eq => l
      | Gt => h :: group_insert g l'
      end
  end.

Record DescendantConsumers : Type := mkDescendants { unfusible : node_set; fusible : consumer_set }.

Definition extend_descendants (a b : DescendantConsumers) : DescendantConsumers :=
  mkDescendants (unfusible a ∪ unfusible b) (fusible a ∪ fusible b).

(** [SiblingKey]. *)
Abbreviation SiblingKey := (string * option Environment)%type.

Section fuser.
Context `{HashIter, PayloadDecoder} (new_v4 : nat → string) (q : QueryablePipeline).

(** A consumer in an SDK's environment is fusible; one that the runner executes is not,
    and what it outputs is followed.  The code does not return on a cycle of runner
    transforms; [depth] levels are enough without one. *)
Fixpoint get_descendant_consumers (depth : nat) (pcol : PCollectionNode) : translated DescendantConsumers :=
  foldl (λ (acc : translated DescendantConsumers) (consumer : PTransformNode),
      d ← acc;
      match get_environment q (ptn_transform consumer) with
      | Some _ => Ok (mkDescendants (unfusible d) (consumer_insert (mkConsumers pcol consumer) (fusible d)))
      | None =>
          let d := mkDescendants (unfusible d ∪ {[ptn_id consumer := ptn_transform consumer]}) (fusible d) in
          match depth with
          | O => Panic "runner transforms form a cycle"
          | S depth =>
              foldl (λ (acc : translated DescendantConsumers) output,
                  d ← acc; d' ← get_descendant_consumers depth output; Ok (extend_descendants d d'))
                (Ok d) (pcol_nodes (get_output_pcol q (ptn_id consumer)))
          end
      end)
    (Ok (mkDescendants ∅ ∅)) (nodes (get_per_element_consumers q (pcn_id pcol))).

Definition descendant_consumers : PCollectionNode → translated DescendantConsumers :=
  get_descendant_consumers (size (pcollection_ids q)).

Definition get_root_consumers (root : PTransformNode) : translated DescendantConsumers :=
  foldl (λ (acc : translated DescendantConsumers) output,
      d ← acc; d' ← descendant_consumers output; Ok (extend_descendants d d'))
    (Ok (mkDescendants ∅ ∅)) (pcol_nodes (get_output_pcol q (ptn_id root))).

(** ** Siblings *)

(** A consumer joins the first group all of whose members it is compatible with. *)
Fixpoint join_group (c : CollectionConsumers) (groups : list consumer_set) : list consumer_set :=
  match groups with
  | [] => [consumer_insert c ∅]
  | g :: groups =>
      if forallb (λ m, is_compatible q (cc_transform m) (cc_transform c)) (consumers_in_order g)
      then consumer_insert c g :: groups
      else g :: join_group c groups
  end.

(** The groups of each key, in the order in which the keys appear. *)
Fixpoint join_key (key : SiblingKey) (c : CollectionConsumers) (sets : list (SiblingKey * list consumer_set))
    : list (SiblingKey * list consumer_set) :=
  match sets with
  | [] => [(key, join_group c [])]
  | (k, groups) :: sets =>
      if decide (k = key) then (k, join_group c groups) :: sets else (k, groups) :: join_key key c sets
  end.

Definition sibling_key (c : CollectionConsumers) : SiblingKey :=
  (pcn_id (cc_collection c), get_environment q (ptn_transform (cc_transform c))).

Definition group_siblings (consumers : consumer_set) : list consumer_set :=
  let compactable := foldl (λ sets c, join_key (sibling_key c) c sets) [] (consumers_in_order consumers) in
  foldl (λ ordered g, group_insert g ordered) [] (concat compactable.*2).

Definition fuse_siblings (siblings : consumer_set) : minting ExecutableStage :=
  match consumers_in_order siblings with
  | [] => lift_minting (Panic "sibling_set cannot be empty after early-continue")
  | (root :: _) as members =>
      stage_fuse new_v4 q (cc_collection root)
        (list_to_map ((λ c, (ptn_id (cc_transform c), ptn_transform (cc_transform c))) <$> members))
  end.

(** * The loop over the pending groups *)

Record FuserState : Type := mkFuserState {
  consumed_pairs : gset (string * string);
  fuser_stages : list ExecutableStage;
  unfused_pt : list PTransformNode;
}.

(** What a new stage brings: the consumers of its outputs. *)
Definition follow_output (acc : translated (list PTransformNode * list consumer_set)) (output : PCollectionNode)
    : translated (list PTransformNode * list consumer_set) :=
  '(unfused, pending) ← acc;
  d ← descendant_consumers output;
  Ok (index_extend ptn_id unfused (nodes (unfusible d)), pending ++ group_siblings (fusible d)).

Definition fuse_group (siblings : consumer_set) (s : FuserState) : minting (FuserState * list consumer_set) :=
  stage ← fuse_siblings siblings;
  '(unfused, pending) ← lift_minting (foldl follow_output (Ok (unfused_pt s, [])) (stage_output_pcols stage));
  mret (mkFuserState (consumed_pairs s ∪ dom siblings) (index_insert stage_id (fuser_stages s) stage) unfused, pending).

(** [fuel] bounds the groups that are fused: each consumes a pair of a PCollection and
    a transform. *)
Fixpoint fuse_loop (fuel : nat) : list consumer_set → FuserState → minting FuserState :=
  fix next pending s :=
    match pending with
    | [] => mret s
    | candidate :: pending =>
        let siblings := filter (λ p, p.1 ∉ consumed_pairs s) candidate in
        if decide (siblings = ∅) then next pending s
        else if decide (dom siblings ≠ dom candidate)
        then lift_minting (Err (InvalidState "Inconsistent collection of siblings reported"))
        else
          match fuel with
          | O => lift_minting (Panic "fuser loop bound")
          | S fuel =>
              '(s, more) ← fuse_group siblings s;
              fuse_loop fuel (pending ++ more) s
          end
    end.

(** [check_argument!(sibling_set.eq(&candidate_siblings) || sibling_set.is_empty())]
    comes before the test for emptiness in the code; an empty candidate passes both. *)
Definition fuse_stages (initial_unfused : node_set) (initial_consumers : consumer_set) : minting FuserState :=
  fuse_loop (size (pcollection_ids q) * size (transform_ids q)) (group_siblings initial_consumers)
    (mkFuserState ∅ [] (index_extend ptn_id [] (nodes initial_unfused))).

(** [fuse_pipeline] of job.rs, up to the call of the fuser: the runner's roots, and the
    consumers of every root. *)
Definition follow_root (acc : translated DescendantConsumers) (root : PTransformNode) : translated DescendantConsumers :=
  d ← acc;
  let d := match get_environment q (ptn_transform root) with
           | None => mkDescendants (unfusible d ∪ {[ptn_id root := ptn_transform root]}) (fusible d)
           | Some _ => d
           end in
  d' ← get_root_consumers root;
  Ok (extend_descendants d d').

Definition initial_consumers : translated DescendantConsumers :=
  foldl follow_root (Ok (mkDescendants ∅ ∅)) (nodes (get_root_transforms q)).
End fuser.
