(* ===== verification/PipelineFuserSpec.v ===== *)
(** What cutting a pipeline into stages yields: it ends, siblings are always reported
    consistently, every consumer of a PCollection that leaves a stage is given to exactly
    one group of siblings or to the runner. *)
From S2P Require Import Prelude Bytes CoderGraph Pipeline StageFuserSpec StageFuser PipelineFuser.
Set Warnings "-clear-no-such-hyp".

Section descendants.
Context `{HashIterLaws, PayloadDecoder} (q : QueryablePipeline).

Definition is_runner (n : PTransformNode) : Prop := get_environment q (ptn_transform n) = None.

(** [descends c c']: [c'] is [c] or is produced from it by runner transforms alone. *)
Inductive descends : PCollectionNode → PCollectionNode → Prop :=
| descends_here c : descends c c
| descends_runner c n o c' :
    n ∈ consumers q c → is_runner n → o ∈ outputs q n → descends o c' → descends c c'.

(** No runner transform consumes what it produces, directly or through others. *)
Definition runners_acyclic (rank : string → nat) : Prop := ∀ c n o,
  n ∈ consumers q c → is_runner n → o ∈ outputs q n → rank (pcn_id o) < rank (pcn_id c).

(** The nodes in a set of descendants are nodes of the graph under their own ids. *)
Record descendants_ok (d : DescendantConsumers) : Prop := {
  do_unfusible id t : unfusible d !! id = Some t → transform_ids q !! id = Some t;
  do_fusible k c : fusible d !! k = Some c →
    consumer_key c = k ∧ known_pcol q (cc_collection c) ∧ known_transform q (cc_transform c)
    ∧ cc_transform c ∈ consumers q (cc_collection c) ∧ ¬ is_runner (cc_transform c);
}.

(** [d] holds exactly the pairs [S] of a PCollection and a consumer. *)
Definition holds_pairs (S : PCollectionNode → PTransformNode → Prop) (d : DescendantConsumers) : Prop :=
  (∀ n, n ∈ nodes (unfusible d) ↔ ∃ c, S c n ∧ is_runner n)
  ∧ ∀ k, k ∈ dom (fusible d) ↔ ∃ c n, S c n ∧ ¬ is_runner n ∧ k = (pcn_id c, ptn_id n).

(** The pairs below a PCollection. *)
Definition pairs_below (c c' : PCollectionNode) (n : PTransformNode) : Prop := descends c c' ∧ n ∈ consumers q c'.

Lemma holds_pairs_ext S S' d : (∀ c n, S c n ↔ S' c n) → holds_pairs S d → holds_pairs S' d.
Proof. intros HS [H1' H2']. split; [setoid_rewrite <- HS; apply H1'|setoid_rewrite <- HS; apply H2']. Qed.

Lemma no_descendants : descendants_ok (mkDescendants ∅ ∅).
Proof. constructor; simpl; intros; by rewrite lookup_empty in *. Qed.

Lemma elem_of_nodes_union (a b : node_set) n :
  (∀ id t, a !! id = Some t → transform_ids q !! id = Some t) → (∀ id t, b !! id = Some t → transform_ids q !! id = Some t) →
  n ∈ nodes (a ∪ b) ↔ n ∈ nodes a ∨ n ∈ nodes b.
Proof.
  intros Ha Hb. rewrite !elem_of_nodes, lookup_union_Some_raw. split; [naive_solver|].
  intros [E|E]; [by left|]. destruct (a !! ptn_id n) as [t|] eqn:Ea; [|by right]. left.
  apply Ha in Ea. apply Hb in E. congruence.
Qed.

Lemma extend_ok a b : descendants_ok a → descendants_ok b → descendants_ok (extend_descendants a b).
Proof.
  intros [A1 A2] [B1 B2]. constructor; simpl; intros ? ? [E|[_ E]]%lookup_union_Some_raw; eauto.
Qed.

Lemma extend_pairs S S' a b :
  descendants_ok a → descendants_ok b → holds_pairs S a → holds_pairs S' b →
  holds_pairs (λ c n, S c n ∨ S' c n) (extend_descendants a b).
Proof.
  intros [A1 _] [B1 _] [HA1 HA2] [HB1 HB2]. split; simpl.
  - intros n. rewrite elem_of_nodes_union, HA1, HB1 by done. split.
    + intros [(c & ? & ?)|(c & ? & ?)]; exists c; auto.
    + intros (c & [?|?] & ?); [left|right]; by exists c.
  - intros k. rewrite dom_union, elem_of_union, HA2, HB2. split.
    + intros [(c & n & ? & ? & ?)|(c & n & ? & ? & ?)]; exists c, n; auto.
    + intros (c & n & [?|?] & ? & ?); [left|right]; by exists c, n.
Qed.

(** A fold that adds what each element of a list brings. *)
Lemma fold_pairs {A} (step : translated DescendantConsumers → A → translated DescendantConsumers)
    (D : A → PCollectionNode → PTransformNode → Prop) l S d :
  (∀ x S d, x ∈ l → descendants_ok d → holds_pairs S d →
     ∃ d', step (Ok d) x = Ok d' ∧ descendants_ok d' ∧ holds_pairs (λ c n, S c n ∨ D x c n) d') →
  descendants_ok d → holds_pairs S d →
  ∃ d', foldl step (Ok d) l = Ok d' ∧ descendants_ok d'
    ∧ holds_pairs (λ c n, S c n ∨ ∃ x, x ∈ l ∧ D x c n) d'.
Proof.
  revert S d. induction l as [|x l IH]; intros S d Hl Hd HS; simpl.
  { exists d. split_and!; [done|done|]. eapply holds_pairs_ext; [|exact HS]. intros c n. split; [by left|].
    intros [?|(y & ?%elem_of_nil & _)]; done. }
  destruct (Hl x S d ltac:(by left) Hd HS) as (d1 & E1 & Hd1 & HS1). rewrite E1.
  destruct (IH _ d1 ltac:(intros; apply Hl; [by right|done..]) Hd1 HS1) as (d' & E & Hd' & HS').
  exists d'. split_and!; [done|done|]. eapply holds_pairs_ext; [|exact HS']. intros c n. setoid_rewrite elem_of_cons. split.
  - intros [[?|?]|(y & ? & ?)]; [by left|right; exists x; auto|right; exists y; auto].
  - intros [?|(y & [->|?] & ?)]; [auto|auto|right; by exists y].
Qed.

Lemma no_pairs : holds_pairs (λ _ _, False) (mkDescendants ∅ ∅).
Proof.
  split.
  - intros n. rewrite elem_of_nodes. simpl. rewrite lookup_empty. split; [done|]. by intros (c & [] & _).
  - intros k. simpl. rewrite dom_empty. split; [set_solver|]. by intros (c & n & [] & _).
Qed.

(** Following PCollections in turn. *)
Lemma follow_pairs (f : PCollectionNode → translated DescendantConsumers) l S d :
  (∀ o, o ∈ l → ∃ d', f o = Ok d' ∧ descendants_ok d' ∧ holds_pairs (pairs_below o) d') →
  descendants_ok d → holds_pairs S d →
  ∃ d', foldl (λ (acc : translated DescendantConsumers) output, d ← acc; d' ← f output; Ok (extend_descendants d d')) (Ok d) l = Ok d'
    ∧ descendants_ok d' ∧ holds_pairs (λ c n, S c n ∨ ∃ o, o ∈ l ∧ pairs_below o c n) d'.
Proof.
  intros Hf. apply fold_pairs. intros o S' d' Ho Hd' HS'. destruct (Hf o Ho) as (d1 & E1 & Hd1 & HS1). rewrite E1.
  eexists. split; [done|]. split; [by apply extend_ok|by apply extend_pairs].
Qed.

Lemma consumer_insert_lookup (c : CollectionConsumers) (s : consumer_set) (k : string * string) :
  consumer_insert c s !! k = match s !! k with
                             | Some c' => Some c'
                             | None => if decide (k = consumer_key c) then Some c else None
                             end.
Proof.
  unfold consumer_insert. destruct (s !! consumer_key c) eqn:E.
  - case_match; [done|]. rewrite decide_False; [done|]. intros ->. congruence.
  - destruct (decide (k = consumer_key c)) as [->|Hne]; [by rewrite lookup_insert_eq, E|].
    rewrite lookup_insert_ne by done. by destruct (s !! k).
Qed.

Lemma consumer_insert_dom (c : CollectionConsumers) (s : consumer_set) : dom (consumer_insert c s) = {[consumer_key c]} ∪ dom s.
Proof.
  apply set_eq. intros k. rewrite elem_of_union, elem_of_singleton, !elem_of_dom, consumer_insert_lookup.
  destruct (s !! k); [split; eauto|]. case_decide; [split; eauto|]. split; [by intros []|]. intros [?|[]]; done.
Qed.

(** A consumer that an SDK executes. *)
Lemma add_fusible c n S d :
  known_pcol q c → n ∈ consumers q c → ¬ is_runner n → descendants_ok d → holds_pairs S d →
  let d' := mkDescendants (unfusible d) (consumer_insert (mkConsumers c n) (fusible d)) in
  descendants_ok d' ∧ holds_pairs (λ c' m, S c' m ∨ c' = c ∧ m = n) d'.
Proof.
  intros Hk Hn Hr [D1 D2] [S1 S2] d'. split; [constructor; [done|]|split; simpl].
  - intros k x. simpl. rewrite consumer_insert_lookup. destruct (fusible d !! k) eqn:E; [intros [= <-]; by apply D2|].
    case_decide; [|done]. intros [= <-]. simpl. split_and!; [done|done| |done|done].
    by eapply Forall_forall in Hn; [|apply consumers_known].
  - intros m. rewrite S1. split; [intros (c' & ? & ?); exists c'; auto|]. intros (c' & [?|[-> ->]] & ?); [by exists c'|done].
  - intros k. rewrite consumer_insert_dom, elem_of_union, elem_of_singleton, S2. split.
    + intros [->|(c' & m & ? & ? & ?)]; [exists c, n|exists c', m]; auto.
    + intros (c' & m & [?|[-> ->]] & ? & ->); [right; by exists c', m|by left].
Qed.

(** A consumer that the runner executes. *)
Lemma add_unfusible c n S d :
  n ∈ consumers q c → is_runner n → descendants_ok d → holds_pairs S d →
  let d' := mkDescendants (unfusible d ∪ {[ptn_id n := ptn_transform n]}) (fusible d) in
  descendants_ok d' ∧ holds_pairs (λ c' m, S c' m ∨ c' = c ∧ m = n) d'.
Proof.
  intros Hn Hr [D1 D2] [S1 S2] d'.
  assert (Hkn : known_transform q n) by (by eapply Forall_forall in Hn; [|apply consumers_known]).
  assert (Hs : ∀ id t, ({[ptn_id n := ptn_transform n]} : node_set) !! id = Some t → transform_ids q !! id = Some t).
  { intros id t [<- <-]%lookup_singleton_Some. done. }
  split; [constructor; [|done]|split; simpl].
  - simpl. intros id t [E|[_ E]]%lookup_union_Some_raw; eauto.
  - intros m. rewrite elem_of_nodes_union, S1 by done. rewrite elem_of_nodes, lookup_singleton_Some. split.
    + intros [(c' & ? & ?)|[E1 E2]]; [exists c'; auto|]. exists c. destruct m, n. simpl in *. subst. auto.
    + intros (c' & [?|[-> ->]] & ?); [left; by exists c'|by right].
  - intros k. rewrite S2. split; [intros (c' & m & ? & ? & ?); exists c', m; auto|].
    intros (c' & m & [?|[-> ->]] & ? & ?); [by exists c', m|done].
Qed.

Lemma get_descendant_consumers_ok rank depth c :
  runners_acyclic rank → known_pcol q c → room rank (dom (pcollection_ids q)) (pcn_id c) < depth →
  ∃ d, get_descendant_consumers q depth c = Ok d ∧ descendants_ok d ∧ holds_pairs (pairs_below c) d.
Proof.
  intros Hr. revert c. induction depth as [|depth IH]; intros c Hk Hd; [lia|].
  cbn [get_descendant_consumers]. fold (consumers q c).
  destruct (fold_pairs
    (λ (acc : translated DescendantConsumers) (consumer : PTransformNode),
      d ← acc;
      match get_environment q (ptn_transform consumer) with
      | Some _ => Ok (mkDescendants (unfusible d) (consumer_insert (mkConsumers c consumer) (fusible d)))
      | None =>
          let d := mkDescendants (unfusible d ∪ {[ptn_id consumer := ptn_transform consumer]}) (fusible d) in
          foldl (λ (acc : translated DescendantConsumers) output,
              d ← acc; d' ← get_descendant_consumers q depth output; Ok (extend_descendants d d'))
            (Ok d) (pcol_nodes (get_output_pcol q (ptn_id consumer)))
      end)
    (λ n c' m, c' = c ∧ m = n ∨ is_runner n ∧ ∃ o, o ∈ outputs q n ∧ pairs_below o c' m)
    (consumers q c) (λ _ _, False) (mkDescendants ∅ ∅)) as (d & E & Hd' & HS); [|apply no_descendants|apply no_pairs|].
  - intros n S d Hn Hdo HS. cbn [mbind outcome_bind]. destruct (get_environment q (ptn_transform n)) eqn:Ee.
    + eexists. split; [done|]. destruct (add_fusible c n S d Hk Hn ltac:(unfold is_runner; congruence) Hdo HS) as [? Hp].
      split; [done|]. eapply holds_pairs_ext; [|exact Hp]. intros c' m. unfold is_runner. rewrite Ee. naive_solver.
    + destruct (add_unfusible c n S d Hn Ee Hdo HS) as [Hdo' HS'].
      assert (Hl : ∀ o, o ∈ outputs q n →
        ∃ d', get_descendant_consumers q depth o = Ok d' ∧ descendants_ok d' ∧ holds_pairs (pairs_below o) d').
      { intros o Ho. pose proof (proj1 (Forall_forall _ _) (outputs_known q n) o Ho) as Hko. apply IH; [done|].
        pose proof (room_lt rank (dom (pcollection_ids q)) (pcn_id o) (pcn_id c)
          ltac:(apply elem_of_dom; by eexists) (Hr c n o Hn Ee Ho)). lia. }
      destruct (follow_pairs _ _ _ _ Hl Hdo' HS') as (d' & E' & Hd'' & HS'').
      exists d'. split; [done|]. split; [done|]. eapply holds_pairs_ext; [|exact HS'']. intros c' m.
      unfold is_runner. rewrite Ee. naive_solver.
  - exists d. split; [done|]. split; [done|]. eapply holds_pairs_ext; [|exact HS]. intros c' m. unfold pairs_below. split.
    + intros [[]|(n & Hn & [[-> ->]|(Hrn & o & Ho & Hb & Hm)])]; [split; [constructor|done]|].
      split; [by eapply descends_runner|done].
    + intros [Hb Hm]. right. inversion Hb as [|? n o ? Hn Hrn Ho Hb']; subst.
      * exists m. split; [done|by left].
      * exists n. split; [done|]. right. split; [done|]. by exists o.
Qed.

Lemma descendant_consumers_ok rank c :
  runners_acyclic rank → known_pcol q c →
  ∃ d, descendant_consumers q c = Ok d ∧ descendants_ok d ∧ holds_pairs (pairs_below c) d.
Proof.
  intros Hr Hk. apply (get_descendant_consumers_ok rank); [done|done|]. rewrite <- size_dom. apply room_size, elem_of_dom. by eexists.
Qed.
End descendants.

(** * Siblings *)

Section siblings.
Context `{HashIterLaws, PayloadDecoder} (q : QueryablePipeline).

(** Every consumer sits under its own key. *)
Definition well_keyed (s : consumer_set) : Prop := ∀ k c, s !! k = Some c → consumer_key c = k.

Lemma elem_of_in_order s c : well_keyed s → c ∈ consumers_in_order s ↔ s !! consumer_key c = Some c.
Proof.
  intros Hs. unfold consumers_in_order. rewrite sort_by_perm, list_elem_of_fmap. split.
  - intros ([k c'] & -> & Hin%elem_of_map_to_list). simpl. by rewrite (Hs k c').
  - intros E. exists (consumer_key c, c). split; [done|]. by apply elem_of_map_to_list.
Qed.

Lemma keys_in_order s : well_keyed s → consumer_key <$> (map_to_list s).*2 = (map_to_list s).*1.
Proof.
  intros Hs. rewrite <- list_fmap_compose. apply list_fmap_ext. intros i [k c] E. apply list_elem_of_lookup_2, elem_of_map_to_list in E.
  by apply Hs.
Qed.

Lemma in_order_NoDup s : well_keyed s → NoDup (consumer_key <$> consumers_in_order s).
Proof.
  intros Hs. unfold consumers_in_order. rewrite sort_by_perm, keys_in_order by done. apply NoDup_fst_map_to_list.
Qed.

Lemma in_order_sorted s :
  StronglySorted (λ a b, compare_le pair_compare (consumer_key a) (consumer_key b) = true) (consumers_in_order s).
Proof.
  apply sort_by_ordered; [intros; apply compare_le_total, _|intros ???; apply compare_le_trans, _].
Qed.

Lemma StronglySorted_filter {A} (R : A → A → Prop) (P : A → Prop) `{∀ x, Decision (P x)} l :
  StronglySorted R l → StronglySorted R (filter P l).
Proof.
  induction 1 as [|x l Hs IH Hx]; [constructor|]. rewrite filter_cons. case_decide; [|done]. constructor; [done|].
  apply Forall_forall. intros y [_ Hy]%list_elem_of_filter. by eapply Forall_forall in Hx.
Qed.

(** The order of a set determines a part of it: two sets that agree where [P] holds list
    that part alike. *)
Lemma in_order_part s s' (P : CollectionConsumers → Prop) `{∀ c, Decision (P c)} :
  well_keyed s → well_keyed s' → (∀ c, P c → s !! consumer_key c = Some c ↔ s' !! consumer_key c = Some c) →
  filter P (consumers_in_order s) = filter P (consumers_in_order s').
Proof.
  intros Hs Hs' Heq.
  assert (Hel : ∀ c, c ∈ filter P (consumers_in_order s) ↔ c ∈ filter P (consumers_in_order s')).
  { intros c. rewrite !list_elem_of_filter, !elem_of_in_order by done. naive_solver. }
  assert (Hnd : ∀ s, well_keyed s → NoDup (filter P (consumers_in_order s))).
  { intros s0 Hs0. apply NoDup_filter. eapply NoDup_fmap_1, in_order_NoDup, Hs0. }
  eapply StronglySorted_unique_strong; [|apply StronglySorted_filter, in_order_sorted..|by apply NoDup_Permutation; auto].
  intros a b Ha Hb Hab Hba. pose proof (compare_le_antisymm _ _ _ Hab Hba) as Hk.
  apply Hel in Ha. apply list_elem_of_filter in Ha as [_ Ha]. apply list_elem_of_filter in Hb as [_ Hb].
  rewrite elem_of_in_order in Ha by done. rewrite elem_of_in_order in Hb by done. congruence.
Qed.

(** ** Groups *)

Definition groups_over (l : list CollectionConsumers) : list consumer_set := foldl (λ gs c, join_group q c gs) [] l.

(** The groups hold every consumer of the list once, under its key. *)
Record groups_of (l : list CollectionConsumers) (gs : list consumer_set) : Prop := {
  gf_members : concat (map_to_list <$> gs) ≡ₚ (λ c, (consumer_key c, c)) <$> l;
  gf_nonempty g : g ∈ gs → g ≠ ∅;
}.

Lemma groups_lookup l gs k c :
  groups_of l gs → (∃ g, g ∈ gs ∧ g !! k = Some c) ↔ c ∈ l ∧ k = consumer_key c.
Proof.
  intros [Hm _]. transitivity ((k, c) ∈ concat (map_to_list <$> gs)).
  - rewrite elem_of_concat_fmap. by setoid_rewrite elem_of_map_to_list.
  - rewrite Hm, list_elem_of_fmap. split; [intros (c' & [= -> ->] & ?); done|]. intros [? ->]. by exists c.
Qed.

Lemma groups_disjoint l gs a b k :
  groups_of l gs → NoDup (consumer_key <$> l) → a ∈ gs → b ∈ gs → k ∈ dom a → k ∈ dom b → a = b.
Proof.
  intros [Hm _] Hnd Ha Hb [ca Ea]%elem_of_dom [cb Eb]%elem_of_dom.
  assert (Hkeys : NoDup (concat (map_to_list <$> gs)).*1).
  { rewrite Hm, <- list_fmap_compose. exact Hnd. }
  apply list_elem_of_split in Ha as (gs1 & gs2 & ->). rewrite fmap_app in Hkeys. simpl in Hkeys.
  rewrite concat_app in Hkeys. simpl in Hkeys. rewrite (Permutation_app_comm (concat _)), <- app_assoc, fmap_app in Hkeys.
  apply NoDup_app in Hkeys as (_ & Hd & _). apply elem_of_app in Hb as [Hb|[->|Hb]%elem_of_cons]; [|done|];
    exfalso; apply (Hd k); try (apply list_elem_of_fmap; exists (k, ca); by rewrite elem_of_map_to_list);
    apply list_elem_of_fmap; exists (k, cb); (split; [done|]); rewrite elem_of_app, !elem_of_concat_fmap;
    [right|left]; exists b; by rewrite elem_of_map_to_list.
Qed.

Lemma join_group_cases c gs :
  (∃ g gs1 gs2, gs = gs1 ++ g :: gs2 ∧ join_group q c gs = gs1 ++ consumer_insert c g :: gs2)
  ∨ join_group q c gs = gs ++ [consumer_insert c ∅].
Proof.
  induction gs as [|g gs IH]; simpl; [by right|]. destruct (forallb _ _); [left; by exists g, [], gs|].
  destruct IH as [(h & gs1 & gs2 & -> & ->)| ->]; [left; by exists h, (g :: gs1), gs2|by right].
Qed.

Lemma join_group_of l gs c :
  groups_of l gs → consumer_key c ∉ (consumer_key <$> l) → groups_of (l ++ [c]) (join_group q c gs).
Proof.
  intros G Hc.
  assert (Hins : ∀ g, g ∈ gs ∨ g = ∅ → consumer_insert c g = <[consumer_key c := c]> g ∧ g !! consumer_key c = None).
  { intros g Hg. assert (Hn : g !! consumer_key c = None); [|unfold consumer_insert; by rewrite Hn].
    destruct Hg as [Hg| ->]; [|done]. apply eq_None_not_Some. intros [c' E].
    destruct (proj1 (groups_lookup l gs (consumer_key c) c' G)) as [Hin Ek]; [by exists g|].
    apply Hc. rewrite Ek. by apply list_elem_of_fmap_2. }
  destruct G as [Hm Hne]. destruct (join_group_cases c gs) as [(g & gs1 & gs2 & -> & ->)| ->].
  - destruct (Hins g) as [-> Hn]; [left; set_solver|]. constructor.
    + rewrite !fmap_app, !concat_app in *. simpl in *. rewrite map_to_list_insert by done. rewrite <- Hm. simpl.
      rewrite <- !Permutation_middle. by rewrite app_nil_r.
    + intros h [Hh|[->|Hh]%elem_of_cons]%elem_of_app; [apply Hne; set_solver|apply insert_non_empty|apply Hne; set_solver].
  - destruct (Hins ∅) as [-> Hn]; [by right|]. constructor.
    + rewrite !fmap_app, concat_app, Hm. simpl. by rewrite map_to_list_insert, map_to_list_empty.
    + intros h [Hh|[->|Hh%elem_of_nil]%elem_of_cons]%elem_of_app; [by apply Hne|apply insert_non_empty|done].
Qed.

Lemma groups_over_ok l : NoDup (consumer_key <$> l) → groups_of l (groups_over l).
Proof.
  unfold groups_over. induction l as [|c l IH] using rev_ind; intros Hnd.
  { constructor; [done|]. by intros g ?%elem_of_nil. }
  rewrite fmap_app in Hnd. apply NoDup_app in Hnd as (Hl & Hd & _). rewrite foldl_app. simpl. apply join_group_of; [by apply IH|].
  intros Hc. apply (Hd _ Hc). by left.
Qed.

(** ** The groups of each key *)

Definition with_key (key : SiblingKey) (l : list CollectionConsumers) : list CollectionConsumers :=
  filter (λ c, sibling_key q c = key) l.

Lemma join_key_spec key c sets k gs :
  NoDup sets.*1 →
  (k, gs) ∈ join_key q key c sets
  ↔ if decide (k = key) then ∃ gs0, gs = join_group q c gs0 ∧ ((k, gs0) ∈ sets ∨ gs0 = [] ∧ k ∉ sets.*1)
    else (k, gs) ∈ sets.
Proof.
  induction sets as [|[k' gs'] sets IH]; intros Hnd; simpl.
  { rewrite list_elem_of_singleton. case_decide as Hk; split.
    - intros [= -> ->]. exists []. split; [done|]. right. split; [done|]. by intros ?%elem_of_nil.
    - intros (gs0 & -> & [?%elem_of_nil|[-> _]]); [done|]. by subst.
    - by intros [= ->].
    - by intros ?%elem_of_nil. }
  apply NoDup_cons in Hnd as [Hn Hnd]. specialize (IH Hnd). destruct (decide (k' = key)) as [->|Hne]; rewrite elem_of_cons.
  - case_decide as Hk; split.
    + subst k. intros [[= ->]|Hin]; [exists gs'; split; [done|]; left; by left|]. exfalso. apply Hn.
      apply list_elem_of_fmap. by exists (key, gs).
    + subst k. intros (gs0 & -> & [[[= ->]|Hin]%elem_of_cons|[_ Hnin]]); [by left| |exfalso; apply Hnin; by left].
      exfalso. apply Hn. apply list_elem_of_fmap. by exists (key, gs0).
    + intros [[= -> _]|Hin]; [done|by right].
    + intros [[= -> _]|Hin]%elem_of_cons; [done|by right].
  - rewrite IH. case_decide as Hk; [subst k|].
    + setoid_rewrite elem_of_cons. split.
      * intros [[= -> _]|(gs0 & -> & [?|[-> Hn']])]; [done|exists gs0; auto|]. exists []. split; [done|]. right. split; [done|].
        by intros [->|?].
      * intros (gs0 & -> & [[[= -> _]|?]|[-> Hn']]); [done| |]; right; [exists gs0; auto|]. exists []. split; [done|]. right. tauto.
    + by rewrite elem_of_cons.
Qed.

Lemma join_key_keys key c sets k : k ∈ (join_key q key c sets).*1 ↔ k ∈ sets.*1 ∨ k = key.
Proof.
  induction sets as [|[k' gs'] sets IH]; simpl; [rewrite list_elem_of_singleton, elem_of_nil; tauto|].
  case_decide as Hk; csimpl; rewrite !elem_of_cons, ?IH; [subst; tauto|tauto].
Qed.

Lemma join_key_NoDup key c sets : NoDup sets.*1 → NoDup (join_key q key c sets).*1.
Proof.
  induction sets as [|[k' gs'] sets IH]; simpl; [intros; apply NoDup_singleton|].
  intros [Hn Hnd]%NoDup_cons. case_decide as Hk; csimpl; apply NoDup_cons; [done|]. split; [|by apply IH].
  rewrite join_key_keys. naive_solver.
Qed.

Lemma with_key_NoDup key l : NoDup (consumer_key <$> l) → NoDup (consumer_key <$> with_key key l).
Proof. intros Hl. eapply sublist_NoDup; [exact Hl|]. apply fmap_sublist, sublist_filter. Qed.

Definition compactable (l : list CollectionConsumers) : list (SiblingKey * list consumer_set) :=
  foldl (λ sets c, join_key q (sibling_key q c) c sets) [] l.

Lemma with_key_snoc key l c :
  with_key key (l ++ [c]) = with_key key l ++ (if decide (sibling_key q c = key) then [c] else []).
Proof. unfold with_key. rewrite filter_app. by case_decide; rewrite filter_cons; case_decide. Qed.

Lemma compactable_spec l :
  NoDup (compactable l).*1
  ∧ ∀ k gs, (k, gs) ∈ compactable l ↔ with_key k l ≠ [] ∧ gs = groups_over (with_key k l).
Proof.
  unfold compactable. induction l as [|c l [Hnd IH]] using rev_ind.
  { split; [constructor|]. intros k gs. rewrite elem_of_nil. split; [done|]. by intros [? _]. }
  rewrite foldl_app. simpl. split; [by apply join_key_NoDup|]. intros k gs. rewrite join_key_spec by done. rewrite with_key_snoc.
  destruct (decide (k = sibling_key q c)) as [->|Hne]; [rewrite decide_True by done|rewrite decide_False, app_nil_r by done; apply IH].
  unfold groups_over. rewrite foldl_app. simpl. split.
  - intros (gs0 & -> & Hgs0). split; [by intros [_ ?]%app_nil|]. f_equal.
    destruct Hgs0 as [Hin|[-> Hn]]; [by apply IH in Hin as [_ ->]|].
    destruct (decide (with_key (sibling_key q c) l = [])) as [->|Hw]; [done|]. exfalso. apply Hn, list_elem_of_fmap.
    eexists (sibling_key q c, _). split; [done|]. apply IH. by split.
  - intros [_ ->]. eexists. split; [done|]. destruct (decide (with_key (sibling_key q c) l = [])) as [Hw|Hw].
    + right. rewrite Hw. split; [done|]. intros ([k' gs'] & E & [Hw' _]%IH)%list_elem_of_fmap. simpl in E. by subst.
    + left. by apply IH.
Qed.

(** ** The order of the groups *)

Lemma groups_sub C key g : well_keyed C → g ∈ groups_over (with_key key (consumers_in_order C)) → g ⊆ C.
Proof.
  intros HC Hg. apply map_subseteq_spec. intros k c E.
  assert (Hnd : NoDup (consumer_key <$> with_key key (consumers_in_order C))).
  { by apply with_key_NoDup, in_order_NoDup. }
  destruct (proj1 (groups_lookup _ _ k c (groups_over_ok _ Hnd))) as [Hc ->]; [by exists g|].
  apply list_elem_of_filter in Hc as [_ Hc]. by apply elem_of_in_order.
Qed.

Lemma group_compare_eq C a b : well_keyed C → a ⊆ C → b ⊆ C → group_compare a b = Eq → a = b.
Proof.
  intros HC Ha Hb E. apply list_compare_eq in E; [|apply _].
  assert (Hw : ∀ g, g ⊆ C → well_keyed g) by (intros g Hg k c Ek; apply HC; by eapply map_subseteq_spec in Hg).
  assert (Hd : ∀ g k, g ⊆ C → k ∈ consumer_key <$> consumers_in_order g ↔ is_Some (g !! k)).
  { intros g k Hg. rewrite list_elem_of_fmap. split.
    - intros (c & -> & Hc%elem_of_in_order); [by eexists|auto].
    - intros [c Ec]. exists c. pose proof (Hw g Hg k c Ec) as <-. split; [done|]. by apply elem_of_in_order; [apply Hw|]. }
  apply map_eq. intros k. apply option_eq. intros c.
  assert (Hx : ∀ x y : consumer_set, x ⊆ C → y ⊆ C →
            consumer_key <$> consumers_in_order x = consumer_key <$> consumers_in_order y → x !! k = Some c → y !! k = Some c).
  { intros x y Hxs Hys Exy Ex. assert (is_Some (y !! k)) as [c' Ec'] by (apply Hd; [done|]; rewrite <- Exy; apply Hd; [done|by eexists]).
    eapply map_subseteq_spec in Ex; [|done]. pose proof Ec' as Ec''. eapply map_subseteq_spec in Ec''; [|done]. congruence. }
  split; apply Hx; (done || by symmetry).
Qed.

Lemma elem_of_group_insert C g l x :
  well_keyed C → g ⊆ C → (∀ h, h ∈ l → h ⊆ C) → x ∈ group_insert g l ↔ x = g ∨ x ∈ l.
Proof.
  intros HC Hg. induction l as [|h l IH]; intros Hl; simpl; [by rewrite list_elem_of_singleton, elem_of_nil; tauto|].
  destruct (group_compare g h) eqn:E; rewrite !elem_of_cons.
  - apply (group_compare_eq C) in E as ->; [tauto|done|done|apply Hl; by left].
  - tauto.
  - rewrite IH; [tauto|]. intros; apply Hl; by right.
Qed.

Lemma elem_of_group_siblings C g :
  well_keyed C → g ∈ group_siblings q C ↔ ∃ key, g ∈ groups_over (with_key key (consumers_in_order C)).
Proof.
  intros HC. unfold group_siblings. fold (compactable (consumers_in_order C)).
  set (l := concat _).
  assert (Hl : ∀ h, h ∈ l ↔ ∃ key, h ∈ groups_over (with_key key (consumers_in_order C))).
  { intros h. unfold l. rewrite elem_of_concat. split.
    - intros (gs & ([k gs'] & -> & [_ Hin]%compactable_spec)%list_elem_of_fmap & Hh). exists k. by rewrite <- Hin.
    - intros (key & Hh). exists (groups_over (with_key key (consumers_in_order C))). split; [|done].
      apply list_elem_of_fmap. eexists (key, _). split; [done|]. apply compactable_spec. split; [|done].
      intros Hw. rewrite Hw in Hh. by apply elem_of_nil in Hh. }
  assert (Hs : ∀ h, h ∈ l → h ⊆ C) by (intros h [key Hh]%Hl; by eapply groups_sub).
  rewrite <- Hl. clearbody l. clear Hl.
  assert (Hgen : ∀ k, (∀ h, h ∈ k → h ⊆ C) → ∀ acc, (∀ h, h ∈ acc → h ⊆ C) →
            g ∈ foldl (λ ordered g, group_insert g ordered) acc k ↔ g ∈ acc ∨ g ∈ k).
  { induction k as [|h k IH]; intros Hk acc Hacc; simpl; [rewrite elem_of_nil; tauto|].
    assert (Hin : ∀ x, x ∈ group_insert h acc ↔ x = h ∨ x ∈ acc).
    { intros x. apply (elem_of_group_insert C); [done|apply Hk; by left|done]. }
    rewrite IH, Hin, elem_of_cons; [tauto|intros; apply Hk; by right|].
    intros x [->|?]%Hin; [apply Hk; by left|by apply Hacc]. }
  rewrite Hgen by (done || by intros ? ?%elem_of_nil). rewrite elem_of_nil. tauto.
Qed.
End siblings.
