(* ===== verification/FusionLoopSpec.v ===== *)
(** The loop that fuses groups of siblings: groups of complete sets of consumers never
    overlap in part, so the loop never finds them inconsistent, it ends, and it leaves no
    consumer of a PCollection between stages without a stage or the runner. *)
From S2P Require Import Prelude Bytes CoderGraph Pipeline StageFuserSpec StageFuser PipelineFuser PipelineFuserSpec.
Set Warnings "-clear-no-such-hyp".

(** Structural equality of nodes; the code compares ids. *)
#[local] Instance PTransformNode_eq_dec : EqDecision PTransformNode.
Proof. solve_decision. Defined.
#[local] Instance PCollectionNode_eq_dec : EqDecision PCollectionNode.
Proof. solve_decision. Defined.
#[local] Instance CollectionConsumers_eq_dec : EqDecision CollectionConsumers.
Proof. solve_decision. Defined.

Section groups.
Context `{HashIterLaws, PayloadDecoder} (q : QueryablePipeline).

(** An SDK's consumer [n] of the PCollection [c]. *)
Definition sdk_consumer (c : PCollectionNode) (n : PTransformNode) : Prop :=
  known_pcol q c ∧ n ∈ consumers q c ∧ ¬ is_runner q n.

(** A set of consumers that, of a PCollection, holds all of the SDK's consumers or none. *)
Record complete (C : consumer_set) : Prop := {
  cm_entry k m : C !! k = Some m → consumer_key m = k ∧ sdk_consumer (cc_collection m) (cc_transform m);
  cm_whole k m n : C !! k = Some m → sdk_consumer (cc_collection m) n → (pcn_id (cc_collection m), ptn_id n) ∈ dom C;
}.

Lemma sdk_consumer_known c n : sdk_consumer c n → known_transform q n.
Proof. intros (_ & Hn & _). by eapply Forall_forall in Hn; [|apply consumers_known]. Qed.

Lemma consumer_key_inj m m' :
  sdk_consumer (cc_collection m) (cc_transform m) → sdk_consumer (cc_collection m') (cc_transform m') →
  consumer_key m = consumer_key m' → m = m'.
Proof.
  intros S S' [= Ec En]. pose proof (sdk_consumer_known _ _ S). pose proof (sdk_consumer_known _ _ S').
  destruct S as (? & _), S' as (? & _), m, m'; simpl in *. f_equal; [by apply (known_pcol_inj q)|by apply (known_transform_inj q)].
Qed.

Lemma complete_keyed C : complete C → well_keyed C.
Proof. intros HC k m E. by apply (cm_entry _ HC) in E as [? _]. Qed.

(** Two complete sets with a PCollection in common list its consumers alike. *)
Lemma complete_agree C C' key k m m' :
  complete C → complete C' → C !! k = Some m → C' !! k = Some m' → k.1 = key.1 →
  with_key q key (consumers_in_order C) = with_key q key (consumers_in_order C').
Proof.
  intros HC HC' E E' Hk.
  assert (Hone : ∀ D D' j j' d c, complete D → complete D' → D' !! k = Some d → k.1 = key.1 → sibling_key q c = key →
            D !! j = Some j' → D !! consumer_key c = Some c → D' !! consumer_key c = Some c).
  { intros D D' j j' d c HD HD' Ed Ek Hc _ Ec. destruct (cm_entry _ HD _ _ Ec) as [_ S]. destruct (cm_entry _ HD' _ _ Ed) as [Ekd Sd].
    assert (Hcol : cc_collection d = cc_collection c).
    { apply (known_pcol_inj q); [apply Sd|apply S|]. rewrite <- Ekd in Ek. rewrite <- Hc in Ek. exact Ek. }
    assert (consumer_key c ∈ dom D') as [c' Ec']%elem_of_dom.
    { pose proof (cm_whole _ HD' _ _ (cc_transform c) Ed) as Hw. rewrite Hcol in Hw. by apply Hw. }
    destruct (cm_entry _ HD' _ _ Ec') as [Ekc' S']. rewrite Ec'. f_equal. by apply consumer_key_inj. }
  apply in_order_part; [by apply complete_keyed..|]. intros c Hc. split; eapply Hone; eauto.
Qed.

(** A group of siblings of a complete set. *)
Definition is_group (g : consumer_set) : Prop := ∃ C, complete C ∧ g ∈ group_siblings q C.

Lemma is_group_inv g :
  is_group g → ∃ C key, complete C ∧ g ∈ groups_over q (with_key q key (consumers_in_order C))
    ∧ groups_of (with_key q key (consumers_in_order C)) (groups_over q (with_key q key (consumers_in_order C))).
Proof.
  intros (C & HC & Hg). pose proof (complete_keyed C HC) as Hk. apply elem_of_group_siblings in Hg as [key Hg]; [|done].
  exists C, key. split_and!; [done|done|]. by apply groups_over_ok, with_key_NoDup, in_order_NoDup.
Qed.

Lemma group_entry g k m :
  is_group g → g !! k = Some m → consumer_key m = k ∧ sdk_consumer (cc_collection m) (cc_transform m).
Proof.
  intros (C & key & HC & Hg & _)%is_group_inv E. apply (cm_entry _ HC). eapply map_subseteq_spec; [|exact E].
  eapply groups_sub; [by apply complete_keyed|done].
Qed.

Lemma group_nonempty g : is_group g → g ≠ ∅.
Proof. intros (C & key & HC & Hg & G)%is_group_inv. by eapply gf_nonempty. Qed.

Lemma group_key C key g k m :
  complete C → g ∈ groups_over q (with_key q key (consumers_in_order C)) → g !! k = Some m →
  sibling_key q m = key ∧ C !! k = Some m ∧ consumer_key m = k.
Proof.
  intros HC Hg E. pose proof (complete_keyed C HC) as Hk.
  assert (G := groups_over_ok q (with_key q key (consumers_in_order C)) ltac:(by apply with_key_NoDup, in_order_NoDup)).
  destruct (proj1 (groups_lookup _ _ k m G)) as [Hm ->]; [by exists g|].
  apply list_elem_of_filter in Hm as [Hs Hm]. split_and!; [done| |done]. by apply elem_of_in_order.
Qed.

(** Members of a group share their PCollection and their environment. *)
Lemma group_uniform g k k' m m' : is_group g → g !! k = Some m → g !! k' = Some m' → sibling_key q m = sibling_key q m'.
Proof.
  intros (C & key & HC & Hg & _)%is_group_inv E E'.
  destruct (group_key C key g k m HC Hg E) as [-> _]. by destruct (group_key C key g k' m' HC Hg E') as [-> _].
Qed.

(** Groups with a member in common are the same. *)
Lemma groups_same g g' k : is_group g → is_group g' → k ∈ dom g → k ∈ dom g' → g = g'.
Proof.
  intros (C & key & HC & Hg & G)%is_group_inv (C' & key' & HC' & Hg' & G')%is_group_inv Hk Hk'.
  pose proof Hk as [m E]%elem_of_dom. pose proof Hk' as [m' E']%elem_of_dom.
  destruct (group_key C key g k m HC Hg E) as (Hs & EC & Ek). destruct (group_key C' key' g' k m' HC' Hg' E') as (Hs' & EC' & Ek').
  assert (m = m') as <-.
  { apply consumer_key_inj; [apply (cm_entry _ HC _ _ EC)|apply (cm_entry _ HC' _ _ EC')|congruence]. }
  assert (key' = key) as -> by congruence.
  rewrite <- (complete_agree C C' key k m m HC HC' EC EC') in Hg'.
  - eapply groups_disjoint; [exact G|by apply with_key_NoDup, in_order_NoDup, complete_keyed|done..].
  - by rewrite <- Ek, <- Hs.
Qed.

(** The groups of a complete set hold all of it. *)
Lemma group_of_member C k m : complete C → C !! k = Some m → ∃ g, g ∈ group_siblings q C ∧ is_group g ∧ k ∈ dom g.
Proof.
  intros HC E. pose proof (complete_keyed C HC) as Hk. pose proof (Hk k m E) as Ek.
  assert (G := groups_over_ok q (with_key q (sibling_key q m) (consumers_in_order C)) ltac:(by apply with_key_NoDup, in_order_NoDup)).
  destruct (proj2 (groups_lookup _ _ k m G)) as (g & Hg & Egk).
  { split; [|done]. apply list_elem_of_filter. split; [done|]. apply elem_of_in_order; [done|]. by rewrite Ek. }
  assert (Hin : g ∈ group_siblings q C) by (apply elem_of_group_siblings; [done|by eexists]).
  exists g. split_and!; [done|by exists C|]. apply elem_of_dom. by eexists.
Qed.

(** A set that holds the pairs of PCollections with all their consumers is complete. *)
Lemma holds_pairs_complete S d :
  descendants_ok q d → holds_pairs q S d →
  (∀ c n, S c n → known_pcol q c ∧ ∀ n', n' ∈ consumers q c → S c n') → complete (fusible d).
Proof.
  intros [_ Hd] [_ HS] Hcl. constructor.
  - intros k m E. destruct (Hd k m E) as (? & ? & _ & ? & ?). done.
  - intros k m n E (Hk & Hn & Hr). destruct (Hd k m E) as (Ek & _).
    destruct (proj1 (HS k)) as (c & n0 & HSc & _ & Ek'); [apply elem_of_dom; by eexists|].
    destruct (Hcl c n0 HSc) as [Hkc Hall]. rewrite <- Ek in Ek'. injection Ek' as Ec _.
    assert (cc_collection m = c) as Em by (by apply (known_pcol_inj q)). rewrite Em in *.
    apply HS. exists c, n. split_and!; [by apply Hall|done|done].
Qed.

Lemma descends_known c c' : descends q c c' → known_pcol q c → known_pcol q c'.
Proof.
  induction 1 as [|c n o c' _ _ Ho _ IH]; [done|]. intros _. apply IH. by eapply Forall_forall in Ho; [|apply outputs_known].
Qed.

Lemma pairs_below_closed c c' n :
  known_pcol q c → pairs_below q c c' n → known_pcol q c' ∧ ∀ n', n' ∈ consumers q c' → pairs_below q c c' n'.
Proof. intros Hk [Hd _]. split; [by eapply descends_known|]. intros n' Hn'. by split. Qed.

(** ** A group becomes a stage *)

Definition group_nodes (g : consumer_set) : node_set :=
  list_to_map ((λ c, (ptn_id (cc_transform c), ptn_transform (cc_transform c))) <$> consumers_in_order g).

(** The transforms of a group. *)
Definition group_members (g : consumer_set) (n : PTransformNode) : Prop := ∃ k m, g !! k = Some m ∧ n = cc_transform m.

Lemma elem_of_group_nodes g n : is_group g → n ∈ nodes (group_nodes g) ↔ group_members g n.
Proof.
  intros Hg. assert (Hk : well_keyed g) by (intros k m E; by eapply group_entry).
  rewrite elem_of_nodes. unfold group_nodes, group_members. split.
  - intros (m & E & Hm)%elem_of_list_to_map_2%list_elem_of_fmap. apply elem_of_in_order in Hm; [|done].
    exists (consumer_key m), m. split; [done|]. destruct n, (cc_transform m). simpl in *. congruence.
  - intros (k & m & E & ->). apply elem_of_list_to_map_1'.
    + intros t (m' & Et & Hm')%list_elem_of_fmap. apply elem_of_in_order in Hm'; [|done].
      pose proof (sdk_consumer_known _ _ (proj2 (group_entry _ _ _ Hg E))) as K.
      pose proof (sdk_consumer_known _ _ (proj2 (group_entry _ _ _ Hg Hm'))) as K'.
      unfold known_transform in *. injection Et as E1 ->. rewrite <- E1 in K'. congruence.
    + apply list_elem_of_fmap. exists m. split; [done|]. apply elem_of_in_order; [done|]. by rewrite (Hk k m E).
Qed.

(** The stage that a group roots. *)
Definition stage_for (g : consumer_set) (s : ExecutableStage) : Prop :=
  (∀ k m, g !! k = Some m → cc_collection m = stage_input_pcol s)
  ∧ stage_of q (stage_input_pcol s) (nodes (group_nodes g)) s.

Context (new_v4 : nat → string).

Lemma fuse_siblings_ok g n :
  payloads_ok q → is_group g →
  ∃ s n' k, fuse_siblings new_v4 q g n = Ok (s, n') ∧ n ≤ k < n' ∧ stage_id s = new_v4 k ∧ stage_for g s.
Proof.
  intros Hp Hg. assert (Hk : well_keyed g) by (intros k m E; by eapply group_entry).
  unfold fuse_siblings. fold (group_nodes g). destruct (consumers_in_order g) as [|root rest] eqn:El.
  { exfalso. apply (group_nonempty g Hg), map_empty. intros k. apply eq_None_not_Some. intros [m E].
    assert (m ∈ consumers_in_order g) as Hin by (apply elem_of_in_order; [done|]; by rewrite (Hk k m E)).
    rewrite El in Hin. by apply elem_of_nil in Hin. }
  assert (Hr : g !! consumer_key root = Some root) by (apply elem_of_in_order; [done|]; rewrite El; by left).
  assert (Hroot : cc_transform root ∈ nodes (group_nodes g)) by (apply elem_of_group_nodes; [done|]; by exists (consumer_key root), root).
  destruct (group_entry _ _ _ Hg Hr) as (_ & _ & _ & Hrun).
  destruct (get_environment q (ptn_transform (cc_transform root))) as [env|] eqn:Ee; [|done].
  assert (Hfold : list_to_map ((λ c, (ptn_id (cc_transform c), ptn_transform (cc_transform c))) <$> root :: rest) = group_nodes g).
  { unfold group_nodes. by rewrite El. }
  destruct (stage_fuse_ok new_v4 q (cc_collection root) (group_nodes g) env n Hp) as (s & n' & k & Es & Hn & Hid & _ & Hs).
  - intros E0. apply elem_of_nodes in Hroot. by rewrite E0, lookup_empty in Hroot.
  - intros id t E. assert (mkPTransformNode id t ∈ nodes (group_nodes g)) as Hin by (by apply elem_of_nodes).
    apply elem_of_group_nodes in Hin as (k & m & Em & Emt); [|done].
    pose proof (sdk_consumer_known _ _ (proj2 (group_entry _ _ _ Hg Em))) as K. rewrite <- Emt in K. done.
  - intros x (k & m & Em & ->)%elem_of_group_nodes; [|done]. pose proof (group_uniform _ _ _ _ _ Hg Em Hr) as Ek.
    unfold sibling_key in Ek. injection Ek as _ Ek. rewrite Ee in Ek. unfold in_environment. rewrite Ek. by apply bool_decide_eq_true.
  - exists s, n', k. rewrite Hfold. split_and!; [done|lia|lia|done|]. pose proof (so_input _ _ _ _ Hs) as Ei.
    split; [|by rewrite Ei]. intros k' m Em. pose proof (group_uniform _ _ _ _ _ Hg Em Hr) as Ek.
    unfold sibling_key in Ek. injection Ek as Ec _. rewrite Ei.
    apply (known_pcol_inj q); [by apply (proj2 (group_entry _ _ _ Hg Em))|by apply (proj2 (group_entry _ _ _ Hg Hr))|done].
Qed.
End groups.

(** * The loop *)

Lemma size_pairs (X Y : gset string) (Z : gset (string * string)) :
  (∀ k, k ∈ Z → k.1 ∈ X ∧ k.2 ∈ Y) → size Z ≤ size X * size Y.
Proof.
  intros HZ. unfold size, set_size. simpl. rewrite <- length_prod. apply submseteq_length, NoDup_submseteq; [apply NoDup_elements|].
  intros [a b] Hin%elem_of_elements%HZ. simpl in Hin. apply list_elem_of_In, in_prod_iff.
  rewrite <- !list_elem_of_In, !elem_of_elements. done.
Qed.

Section loop.
Context `{HashIterLaws, PayloadDecoder} (new_v4 : nat → string) `{!Inj (=) (=) new_v4} (q : QueryablePipeline).
Context (Hp : payloads_ok q) (rank : string → nat) (Hr : runners_acyclic q rank).

(** Following PCollections: what the runner executes below them, and the groups of what
    an SDK does. *)
Lemma follow_outputs_ok l unfused pending :
  Forall (known_pcol q) l → Forall (known_transform q) unfused →
  ∃ unfused' more,
    foldl (follow_output q) (Ok (unfused, pending)) l = Ok (unfused', pending ++ more)
    ∧ (Forall (known_transform q) unfused' ∧ (NoDup (ptn_id <$> unfused) → NoDup (ptn_id <$> unfused')))
    ∧ Forall (is_group q) more
    ∧ (∀ n, n ∈ unfused' ↔ n ∈ unfused ∨ ∃ o c, o ∈ l ∧ pairs_below q o c n ∧ is_runner q n)
    ∧ ∀ k, (∃ g, g ∈ more ∧ k ∈ dom g)
           ↔ ∃ o c n, o ∈ l ∧ pairs_below q o c n ∧ ¬ is_runner q n ∧ k = (pcn_id c, ptn_id n).
Proof.
  revert unfused pending. induction l as [|o l IH]; intros unfused pending Hl Hu.
  { exists unfused, []. simpl. rewrite app_nil_r. split_and!; [done|done|done|constructor| |].
    - intros n. split; [by left|]. by intros [?|(? & ? & ?%elem_of_nil & _)].
    - intros k. split; [by intros (? & ?%elem_of_nil & _)|]. by intros (? & ? & ? & ?%elem_of_nil & _). }
  apply Forall_cons in Hl as [Ho Hl].
  destruct (descendant_consumers_ok q rank o Hr Ho) as (d & Ed & Hd & Hpairs).
  assert (Hc : complete q (fusible d)).
  { eapply holds_pairs_complete; [done|exact Hpairs|]. intros c n. by apply pairs_below_closed. }
  assert (Hkn : Forall (known_transform q) (nodes (unfusible d))).
  { apply Forall_forall. intros n Hn%elem_of_nodes. by apply (do_unfusible _ _ Hd). }
  assert (Hu' : Forall (known_transform q) (index_extend ptn_id unfused (nodes (unfusible d)))).
  { apply Forall_forall. intros n Hn. apply (elem_of_index_extend ptn_id (known_transform q)) in Hn;
      [|apply known_transform_inj|done..]. destruct Hn as [Hn|Hn]; by eapply Forall_forall in Hn. }
  cbn [foldl]. unfold follow_output at 2. rewrite Ed. cbn [mbind outcome_bind].
  destruct (IH (index_extend ptn_id unfused (nodes (unfusible d))) (pending ++ group_siblings q (fusible d)) Hl Hu')
    as (unfused' & more & E & [Hu'' Hnd] & Hm & Hun & Hk).
  exists unfused', (group_siblings q (fusible d) ++ more). rewrite app_assoc. split_and!; [exact E|done| | | |].
  - intros Hn. by apply Hnd, index_extend_NoDup.
  - apply Forall_app. split; [|done]. apply Forall_forall. intros g Hg. by exists (fusible d).
  - intros n. rewrite Hun, (elem_of_index_extend ptn_id (known_transform q)) by (apply known_transform_inj || done).
    rewrite (proj1 Hpairs n). setoid_rewrite elem_of_cons. split.
    + intros [[?|(c & ? & ?)]|(o' & c & ? & ? & ?)]; [by left|right; exists o, c; auto|right; exists o', c; auto].
    + intros [?|(o' & c & [->|?] & ? & ?)]; [auto|left; right; by exists c|right; by exists o', c].
  - intros k. setoid_rewrite elem_of_app. setoid_rewrite elem_of_cons.
    assert (Hg : (∃ g, g ∈ group_siblings q (fusible d) ∧ k ∈ dom g) ↔ k ∈ dom (fusible d)).
    { split.
      - intros (g & Hg & [m Em]%elem_of_dom). apply elem_of_group_siblings in Hg as [key Hg]; [|by eapply complete_keyed].
        apply elem_of_dom. exists m. by eapply group_key.
      - intros [m Em]%elem_of_dom. destruct (group_of_member q _ _ _ Hc Em) as (g & ? & _ & ?). by exists g. }
    rewrite (proj2 Hpairs k) in Hg. split.
    + intros (g & [Hin|Hin] & Hkg).
      * destruct (proj1 Hg) as (c & n & ? & ? & ?); [by exists g|]. exists o, c, n. auto.
      * destruct (proj1 (Hk k)) as (o' & c & n & ? & ? & ?); [by exists g|]. exists o', c, n. auto.
    + intros (o' & c & n & [->|Hin] & Hb & Hnr & Ek).
      * destruct (proj2 Hg) as (g & ? & ?); [by exists c, n|]. exists g. auto.
      * destruct (proj2 (Hk k)) as (g & ? & ?); [by exists o', c, n|]. exists g. auto.
Qed.

(** The pairs of a PCollection and a consumer that the pipeline's roots ([S0]) and the
    outputs of the stages bring. *)
Definition brought (S0 : PCollectionNode → PTransformNode → Prop) (stages : list ExecutableStage)
    (c : PCollectionNode) (n : PTransformNode) : Prop :=
  S0 c n ∨ ∃ s o, s ∈ stages ∧ o ∈ stage_output_pcols s ∧ pairs_below q o c n.

(** The state of the loop: [gs] are the groups that have become stages. *)
Record fused_so_far (U0 : PTransformNode → Prop) (S0 : PCollectionNode → PTransformNode → Prop) (minted : nat)
    (pending gs : list consumer_set) (s : FuserState) : Prop := {
  ff_stages : Forall2 (stage_for q) gs (fuser_stages s);
  ff_groups : Forall (is_group q) (gs ++ pending);
  ff_once : NoDup gs;
  ff_consumed k : k ∈ consumed_pairs s ↔ ∃ g, g ∈ gs ∧ k ∈ dom g;
  ff_ids : NoDup (stage_id <$> fuser_stages s);
  ff_minted : Forall (λ st, ∃ k, k < minted ∧ stage_id st = new_v4 k) (fuser_stages s);
  ff_known : Forall (known_transform q) (unfused_pt s);
  ff_unfused_once : NoDup (ptn_id <$> unfused_pt s);
  ff_runner n : n ∈ unfused_pt s ↔ U0 n ∨ ∃ c, brought S0 (fuser_stages s) c n ∧ is_runner q n;
  ff_sdk k : (∃ g, g ∈ gs ++ pending ∧ k ∈ dom g)
             ↔ ∃ c n, brought S0 (fuser_stages s) c n ∧ ¬ is_runner q n ∧ k = (pcn_id c, ptn_id n);
}.

Lemma ff_permutation U0 S0 minted pending pending' gs s :
  fused_so_far U0 S0 minted pending gs s → (∀ g, g ∈ gs ++ pending' ↔ g ∈ gs ++ pending) → fused_so_far U0 S0 minted pending' gs s.
Proof.
  intros [F1 F2 F3 F4 F5 F6 F7 Fu F8 F9] He. constructor; try done.
  - apply Forall_forall. intros g Hg%He. by eapply Forall_forall in Hg.
  - intros k. setoid_rewrite He. apply F9.
Qed.

Lemma brought_snoc S0 stages s c n :
  brought S0 (stages ++ [s]) c n ↔ brought S0 stages c n ∨ ∃ o, o ∈ stage_output_pcols s ∧ pairs_below q o c n.
Proof.
  unfold brought. setoid_rewrite elem_of_app. setoid_rewrite list_elem_of_singleton. split.
  - intros [?|(s' & o & [?| ->] & ? & ?)]; [auto|left; right; by exists s', o|right; by exists o].
  - intros [[?|(s' & o & ? & ? & ?)]|(o & ? & ?)]; [auto|right; exists s', o; auto|right; exists s, o; auto].
Qed.

Lemma stage_outputs_known input roots s : stage_of q input roots s → Forall (known_pcol q) (stage_output_pcols s).
Proof.
  intros [_ _ _ (st & D & G & -> & _) _]. pose proof (gr_pcols _ _ _ _ _ _ G) as Hk. rewrite !Forall_app in Hk. tauto.
Qed.

Lemma fuse_group_ok U0 S0 minted g pending gs s :
  fused_so_far U0 S0 minted (g :: pending) gs s → g ∉ gs →
  ∃ s' more minted', fuse_group new_v4 q g s minted = Ok ((s', more), minted')
    ∧ consumed_pairs s' = consumed_pairs s ∪ dom g
    ∧ fused_so_far U0 S0 minted' (pending ++ more) (gs ++ [g]) s'.
Proof.
  intros [F1 F2 F3 F4 F5 F6 F7 Fu F8 F9] Hg. pose proof F2 as [_ [Hgg _]%Forall_cons]%Forall_app.
  destruct (fuse_siblings_ok q new_v4 g minted Hp Hgg) as (st & minted' & k & Es & Hk & Hid & Hst).
  pose proof (stage_outputs_known _ _ _ (proj2 Hst)) as Hko.
  destruct (follow_outputs_ok (stage_output_pcols st) (unfused_pt s) [] Hko F7) as (unfused' & more & E & [Hu Hu'] & Hm & Hun & Hkm).
  assert (Hnew : stage_id st ∉ (stage_id <$> fuser_stages s)).
  { rewrite Hid. intros (s1 & E1 & Hs1)%list_elem_of_fmap. destruct (proj1 (Forall_forall _ _) F6 s1 Hs1) as (k1 & Hk1 & E2).
    rewrite E2 in E1. apply (inj new_v4) in E1. lia. }
  exists (mkFuserState (consumed_pairs s ∪ dom g) (fuser_stages s ++ [st]) unfused'), more, minted'.
  split; [|split; [done|]].
  { unfold fuse_group. rewrite (minting_bind_ok _ _ _ _ _ Es), (lift_minting_bind _ _ _ _ E). unfold index_insert.
    by rewrite decide_False. }
  constructor; cbn [consumed_pairs fuser_stages unfused_pt].
  - apply Forall2_app; [done|]. by constructor.
  - rewrite !Forall_app, Forall_singleton in *. rewrite Forall_cons in F2. tauto.
  - apply NoDup_app. split_and!; [done| |apply NoDup_singleton]. intros x Hx ->%list_elem_of_singleton. done.
  - intros k'. rewrite elem_of_union, F4. setoid_rewrite elem_of_app. setoid_rewrite list_elem_of_singleton. split.
    + intros [(g' & ? & ?)|?]; [exists g'; auto|exists g; auto].
    + intros (g' & [?| ->] & ?); [left; by exists g'|by right].
  - rewrite fmap_app. apply NoDup_app. split_and!; [done| |apply NoDup_singleton]. csimpl. by intros x Hx ->%list_elem_of_singleton.
  - apply Forall_app. split.
    + eapply Forall_impl; [exact F6|]. intros s1 (k1 & ? & ?). exists k1. split; [lia|done].
    + constructor; [|constructor]. exists k. split; [lia|done].
  - done.
  - by apply Hu'.
  - intros n. rewrite Hun, F8. setoid_rewrite brought_snoc. split.
    + intros [[?|(c & ? & ?)]|(o & c & ? & ? & ?)]; [auto|right; exists c; auto|right; exists c; split; [right; by exists o|done]].
    + intros [?|(c & [?|(o & ? & ?)] & ?)]; [auto|left; right; by exists c|right; by exists o, c].
  - intros k'. setoid_rewrite brought_snoc.
    assert (Hsplit : (∃ g', g' ∈ (gs ++ [g]) ++ pending ++ more ∧ k' ∈ dom g')
      ↔ (∃ g', g' ∈ gs ++ g :: pending ∧ k' ∈ dom g') ∨ ∃ g', g' ∈ more ∧ k' ∈ dom g').
    { split; [intros (g' & Hg' & ?)|intros [(g' & Hg' & ?)|(g' & Hg' & ?)]; exists g'; (split; [set_solver|done])].
      assert (g' ∈ gs ++ g :: pending ∨ g' ∈ more) as [?|?] by set_solver; [left|right]; by exists g'. }
    rewrite Hsplit, F9, Hkm. split.
    + intros [(c & n & ? & ? & ?)|(o & c & n & ? & ? & ? & ?)]; exists c, n; eauto 10.
    + intros (c & n & [?|(o & ? & ?)] & ? & ?); [left; by exists c, n|right; by exists o, c, n].
Qed.

(** Of a pending group, all has been consumed or nothing. *)
Lemma pending_group U0 S0 minted g pending gs s :
  fused_so_far U0 S0 minted (g :: pending) gs s →
  (g ∈ gs ∧ filter (λ p, p.1 ∉ consumed_pairs s) g = ∅)
  ∨ (g ∉ gs ∧ filter (λ p, p.1 ∉ consumed_pairs s) g = g ∧ g ≠ ∅ ∧ consumed_pairs s ## dom g).
Proof.
  intros F. pose proof (ff_groups _ _ _ _ _ _ F) as [Hgs [Hg _]%Forall_cons]%Forall_app.
  destruct (decide (g ∈ gs)) as [Hin|Hin]; [left|right]; (split; [done|]).
  - apply map_empty. intros k. apply map_lookup_filter_None. right. simpl. intros m Em Hn. apply Hn.
    apply (ff_consumed _ _ _ _ _ _ F). exists g. split; [done|]. apply elem_of_dom. by eexists.
  - assert (Hall : ∀ k, k ∈ dom g → k ∉ consumed_pairs s).
    { intros k Hk (g' & Hg' & Hk')%(ff_consumed _ _ _ _ _ _ F). apply Hin.
      rewrite (groups_same q g g' k); [done|done|exact (proj1 (Forall_forall _ _) Hgs g' Hg')|done|done]. }
    split_and!; [|by apply (group_nonempty q)|set_solver].
    apply map_filter_id. intros k m Em. apply Hall, elem_of_dom. by eexists.
Qed.

Lemma consumed_bound U0 S0 minted pending gs s :
  fused_so_far U0 S0 minted pending gs s →
  size (consumed_pairs s) ≤ size (pcollection_ids q) * size (transform_ids q).
Proof.
  intros F. rewrite <- !size_dom. apply size_pairs. intros k (g & Hg & [m Em]%elem_of_dom)%(ff_consumed _ _ _ _ _ _ F).
  pose proof (ff_groups _ _ _ _ _ _ F) as [Hgs _]%Forall_app. pose proof (proj1 (Forall_forall _ _) Hgs g Hg) as Hgg.
  destruct (group_entry q _ _ _ Hgg Em) as [<- S]. pose proof (sdk_consumer_known q _ _ S) as K. destruct S as (K' & _).
  split; apply elem_of_dom; by eexists.
Qed.

(** The loop never reports inconsistent siblings, and it ends. *)
Lemma fuse_loop_ok U0 S0 fuel minted pending gs s :
  fused_so_far U0 S0 minted pending gs s →
  size (pcollection_ids q) * size (transform_ids q) ≤ fuel + size (consumed_pairs s) →
  ∃ s' minted' gs', fuse_loop new_v4 q fuel pending s minted = Ok (s', minted')
    ∧ fused_so_far U0 S0 minted' [] gs' s'.
Proof.
  revert minted pending gs s.
  induction fuel as [|fuel IH]; intros minted pending; induction pending as [|g pending IHp]; intros gs s F Hf;
    [by exists s, minted, gs| |by exists s, minted, gs|].
  all: destruct (pending_group _ _ _ _ _ _ _ F) as [[Hin E0]|(Hin & Eg & Hne & Hd)]; simpl.
  1,3: rewrite E0, decide_True by done; apply (IHp gs); [|done]; eapply ff_permutation; [exact F|]; set_solver.
  all: rewrite Eg, decide_False, decide_False by (done || naive_solver).
  all: destruct (fuse_group_ok U0 S0 minted g pending gs s F Hin) as (s' & more & minted' & E & Ec & F').
  all: pose proof (consumed_bound _ _ _ _ _ _ F') as Hb; rewrite Ec, size_union in Hb by done.
  all: assert (size (dom g) ≠ 0) by (rewrite size_dom; by intros ?%map_size_empty_iff).
  - lia.
  - rewrite (minting_bind_ok _ _ _ _ _ E). eapply IH; [exact F'|]. rewrite Ec, size_union by done. lia.
Qed.

(** ** From the roots of the pipeline *)

Definition is_root (n : PTransformNode) : Prop := n ∈ nodes (get_root_transforms q).

(** What the roots bring. *)
Definition from_roots (c : PCollectionNode) (n : PTransformNode) : Prop :=
  ∃ r o, is_root r ∧ o ∈ outputs q r ∧ pairs_below q o c n.

Lemma root_known n : is_root n → known_transform q n.
Proof. intros Hn%elem_of_nodes. by apply map_lookup_filter_Some in Hn as [? _]. Qed.

Lemma get_root_consumers_ok r :
  ∃ d, get_root_consumers q r = Ok d ∧ descendants_ok q d
    ∧ holds_pairs q (λ c n, ∃ o, o ∈ outputs q r ∧ pairs_below q o c n) d.
Proof.
  destruct (follow_pairs q (descendant_consumers q) (outputs q r) (λ _ _, False) (mkDescendants ∅ ∅)) as (d & E & Hd & HS).
  - intros o Ho. apply (descendant_consumers_ok q rank); [done|]. by eapply Forall_forall in Ho; [|apply outputs_known].
  - apply no_descendants.
  - apply no_pairs.
  - exists d. split_and!; [exact E|done|]. eapply holds_pairs_ext; [|exact HS]. intros c n. tauto.
Qed.

(** What has been gathered, of runner transforms [U] and of the pairs [S]. *)
Definition gathered (U : PTransformNode → Prop) (S : PCollectionNode → PTransformNode → Prop) (d : DescendantConsumers) : Prop :=
  descendants_ok q d
  ∧ (∀ n, n ∈ nodes (unfusible d) ↔ U n ∨ ∃ c, S c n ∧ is_runner q n)
  ∧ ∀ k, k ∈ dom (fusible d) ↔ ∃ c n, S c n ∧ ¬ is_runner q n ∧ k = (pcn_id c, ptn_id n).

Lemma gathered_ext U U' S S' d : (∀ n, U n ↔ U' n) → (∀ c n, S c n ↔ S' c n) → gathered U S d → gathered U' S' d.
Proof.
  intros HU HS (? & G1 & G2). split; [done|]. split; setoid_rewrite <- HS; [setoid_rewrite <- HU; done|done].
Qed.

Lemma gather_runner U S d r :
  known_transform q r → gathered U S d →
  gathered (λ n, U n ∨ n = r ∧ is_runner q r) S
    match get_environment q (ptn_transform r) with
    | None => mkDescendants (unfusible d ∪ {[ptn_id r := ptn_transform r]}) (fusible d)
    | Some _ => d
    end.
Proof.
  intros Hk G. destruct (get_environment q (ptn_transform r)) eqn:Er.
  { eapply gathered_ext; [|done|exact G]. unfold is_runner. rewrite Er. naive_solver. }
  destruct G as ([D1 D2] & G1 & G2).
  assert (Hs : ∀ id t, ({[ptn_id r := ptn_transform r]} : node_set) !! id = Some t → transform_ids q !! id = Some t).
  { by intros id t [<- <-]%lookup_singleton_Some. }
  split_and!; [|simpl|done].
  - constructor; [|done]. simpl. intros id t [E|[_ E]]%lookup_union_Some_raw; eauto.
  - intros n. rewrite (elem_of_nodes_union q) by done. rewrite G1, elem_of_nodes, lookup_singleton_Some.
    destruct n as [id t], r as [id' t']. unfold is_runner. simpl in *. naive_solver.
Qed.

Lemma follow_root_ok U S d r :
  known_transform q r → gathered U S d →
  ∃ d', follow_root q (Ok d) r = Ok d'
    ∧ gathered (λ n, U n ∨ n = r ∧ is_runner q r) (λ c n, S c n ∨ ∃ o, o ∈ outputs q r ∧ pairs_below q o c n) d'.
Proof.
  intros Hk G. destruct (get_root_consumers_ok r) as (d1 & E1 & Hd1 & P1 & P2).
  destruct (gather_runner U S d r Hk G) as (Hd0 & G1 & G2). unfold follow_root. cbn [mbind outcome_bind]. rewrite E1.
  eexists. split; [done|]. split_and!; simpl.
  - by apply extend_ok.
  - intros n. rewrite (elem_of_nodes_union q) by (apply (do_unfusible q); done). rewrite G1, P1. naive_solver.
  - intros k. rewrite dom_union, elem_of_union, G2, P2. naive_solver.
Qed.

Lemma follow_roots_ok l U S d :
  Forall (known_transform q) l → gathered U S d →
  ∃ d', foldl (follow_root q) (Ok d) l = Ok d'
    ∧ gathered (λ n, U n ∨ n ∈ l ∧ is_runner q n)
        (λ c n, S c n ∨ ∃ r o, r ∈ l ∧ o ∈ outputs q r ∧ pairs_below q o c n) d'.
Proof.
  revert U S d. induction l as [|r l IH]; intros U S d Hl G; cbn [foldl].
  { exists d. split; [done|]. eapply gathered_ext; [| |exact G]; setoid_rewrite elem_of_nil; naive_solver. }
  apply Forall_cons in Hl as [Hk Hl]. destruct (follow_root_ok U S d r Hk G) as (d1 & E1 & G1). rewrite E1.
  destruct (IH _ _ d1 Hl G1) as (d' & E & G'). exists d'. split; [done|].
  eapply gathered_ext; [| |exact G']; setoid_rewrite elem_of_cons.
  - intros n. split; [intros [[?|[-> ?]]|[? ?]]; auto|]. intros [?|[[->|?] ?]]; auto.
  - intros c n. split.
    + intros [[?|(o & ? & ?)]|(r' & o & ? & ? & ?)]; [by left|right; exists r, o; auto|right; exists r', o; auto].
    + intros [?|(r' & o & [->|?] & ? & ?)]; [auto|left; right; by exists o|right; by exists r', o].
Qed.

Lemma initial_consumers_ok :
  ∃ d, initial_consumers q = Ok d ∧ gathered (λ n, is_root n ∧ is_runner q n) from_roots d ∧ complete q (fusible d).
Proof.
  destruct (follow_roots_ok (nodes (get_root_transforms q)) (λ _, False) (λ _ _, False) (mkDescendants ∅ ∅)) as (d & E & G).
  - apply Forall_forall. apply root_known.
  - split; [apply no_descendants|]. split; [|apply (no_pairs q)]. intros n. rewrite (proj1 (no_pairs q)). naive_solver.
  - apply (gathered_ext _ (λ n, is_root n ∧ is_runner q n) _ from_roots) in G;
      [|intros n; unfold is_root; tauto|intros c n; unfold from_roots, is_root; naive_solver].
    exists d. split_and!; [exact E|done|]. destruct G as (Hd & _ & HF). constructor.
    + intros k m Em. destruct (do_fusible _ _ Hd k m Em) as (? & ? & _ & ? & ?). done.
    + intros k m n Em (Hk & Hn & Hnr). destruct (do_fusible _ _ Hd k m Em) as (Ek & _).
      destruct (proj1 (HF k)) as (c & n0 & (r & o & Hroot & Ho & Hb) & _ & Ek'); [apply elem_of_dom; by eexists|].
      rewrite <- Ek in Ek'. injection Ek' as Ec _.
      assert (Hko : known_pcol q o) by (by eapply Forall_forall in Ho; [|apply outputs_known]).
      destruct (pairs_below_closed q o c n0 Hko Hb) as [Hkc Hall].
      assert (cc_collection m = c) as Em' by (by apply (known_pcol_inj q)). rewrite Em' in *.
      apply HF. exists c, n. split_and!; [exists r, o; auto|done|done].
Qed.

Lemma fuse_stages_ok minted :
  ∃ d s minted' gs, initial_consumers q = Ok d
    ∧ fuse_stages new_v4 q (unfusible d) (fusible d) minted = Ok (s, minted')
    ∧ fused_so_far (λ n, is_root n ∧ is_runner q n) from_roots minted' [] gs s.
Proof.
  destruct initial_consumers_ok as (d & E & (Hd & HU & HF) & Hc). exists d.
  assert (Hkn : Forall (known_transform q) (nodes (unfusible d))).
  { apply Forall_forall. intros n Hn%elem_of_nodes. by apply (do_unfusible _ _ Hd). }
  assert (Hu : ∀ n, n ∈ index_extend ptn_id [] (nodes (unfusible d)) ↔ n ∈ nodes (unfusible d)).
  { intros n. rewrite (elem_of_index_extend ptn_id (known_transform q)) by (apply known_transform_inj || done || constructor).
    rewrite elem_of_nil. tauto. }
  assert (F : fused_so_far (λ n, is_root n ∧ is_runner q n) from_roots minted (group_siblings q (fusible d)) []
                (mkFuserState ∅ [] (index_extend ptn_id [] (nodes (unfusible d))))).
  { constructor; simpl; try constructor.
    - apply Forall_forall. intros g Hg. by exists (fusible d).
    - set_solver.
    - intros (? & ?%elem_of_nil & _). done.
    - apply Forall_forall. intros n Hn%Hu. by eapply Forall_forall in Hn.
    - apply index_extend_NoDup. constructor.
    - intros Hn%Hu%HU. destruct Hn as [?|(c & ? & ?)]; [by left|right; exists c; split; [by left|done]].
    - intros Hn. apply Hu, HU. destruct Hn as [?|(c & [?|(s & o & ?%elem_of_nil & _)] & ?)]; [by left|right; by exists c|done].
    - intros (g & Hg & [m Em]%elem_of_dom). apply elem_of_group_siblings in Hg as [key Hg]; [|by eapply complete_keyed].
      destruct (proj1 (HF k)) as (c & n & ? & ? & ?); [|exists c, n; split_and!; [by left|done|done]].
      apply elem_of_dom. exists m. by eapply group_key.
    - intros (c & n & [?|(s & o & ?%elem_of_nil & _)] & ? & ->); [|done].
      assert ((pcn_id c, ptn_id n) ∈ dom (fusible d)) as [m Em]%elem_of_dom by (apply HF; by exists c, n).
      destruct (group_of_member q _ _ _ Hc Em) as (g & ? & _ & ?). by exists g. }
  destruct (fuse_loop_ok _ _ (size (pcollection_ids q) * size (transform_ids q)) _ _ _ _ F ltac:(lia)) as (s & minted' & gs & Es & F').
  exists s, minted', gs. split_and!; [done|exact Es|done].
Qed.
End loop.
