(* ===== verification/Dedup.v ===== *)
(** One producer per PCollection ([ensure_single_producer] of fusion/fuser.rs): when
    several stages or runner transforms produce a PCollection, each is made to produce a
    partial one of its own, and a new Flatten merges the partials. *)
From S2P Require Import Prelude Bytes CoderGraph Pipeline StageFuser PipelineFuser.
From stdpp Require Import pretty.
Local Open Scope string_scope.
Local Open Scope list_scope.

(** * Unique ids *)

(** The [n]-th candidate of [unique_id]: the prefix, then the prefix with a counter. *)
Definition candidate_id (prefix : string) (n : nat) : string :=
  match n with O => prefix | S n => prefix +:+ "-" +:+ pretty n end.

(** [taken] is the finite set [exists] tests for, so a candidate per element of it and
    one more are enough. *)
Fixpoint unique_id_from (fuel n : nat) (prefix : string) (taken : gset string) : translated string :=
  if decide (candidate_id prefix n ∈ taken) then
    match fuel with
    | O => Panic "unique id bound"
    | S fuel => unique_id_from fuel (S n) prefix taken
    end
  else Ok (candidate_id prefix n).

Definition unique_id (prefix : string) (taken : gset string) : translated string :=
  unique_id_from (size taken) 0 prefix taken.

(** * Producers *)

Inductive StageOrTransform : Type :=
| StageProducer (s : ExecutableStage)
| TransformProducer (t : PTransformNode).

(** Producers compare by the id of their stage or transform. *)
Definition producer_key (p : StageOrTransform) : string + string :=
  match p with StageProducer s => inl (stage_id s) | TransformProducer t => inr (ptn_id t) end.

(** [entry(key).or_default().push(value)]. *)
Definition push_entry `{Countable K} {A B} (key : K) (node : A) (x : B) (m : gmap K (A * list B)) : gmap K (A * list B) :=
  match m !! key with
  | Some (node, xs) => <[key := (node, xs ++ [x])]> m
  | None => <[key := (node, [x])]> m
  end.

Abbreviation producers_map := (gmap string (PCollectionNode * list StageOrTransform)).

(** The partials of a producer: original id to the partial node. *)
Abbreviation partials := (gmap string PCollectionNode).

Section dedup.
Context `{HashIter, PayloadDecoder} (new_v4 : nat → string).

Definition add_producer (p : StageOrTransform) (m : producers_map) (output : PCollectionNode) : producers_map :=
  push_entry (pcn_id output) output p m.

Definition collect_producers (q : QueryablePipeline) (stages : list ExecutableStage) (unfused : list PTransformNode)
    : producers_map :=
  let m := foldl (λ m s, foldl (add_producer (StageProducer s)) m (stage_output_pcols s)) ∅ stages in
  foldl (λ m t, foldl (add_producer (TransformProducer t)) m (pcol_nodes (get_output_pcol q (ptn_id t)))) m unfused.

(** Which producers must be rewritten, and for which PCollections. *)
Definition require_outputs (producers : producers_map) : gmap (string + string) (StageOrTransform * list PCollectionNode) :=
  foldl (λ m (e : string * (PCollectionNode * list StageOrTransform)),
      let '(pcol, prods) := e.2 in
      if decide (1 < length prods)%nat
      then foldl (λ m p, push_entry (producer_key p) p pcol m) m prods
      else m)
    ∅ (map_iter producers).

(** * Rewriting a producer *)

Definition rename_pcol (c : PCollection) (name : string) : PCollection :=
  mkPCollection name (pc_coder_id c) (pc_is_bounded c) (pc_windowing_strategy_id c).

Fixpoint create_partials_loop (duplicates : list PCollectionNode) (comps : Components) (result : partials)
    : translated partials :=
  match duplicates with
  | [] => Ok result
  | dup :: duplicates =>
      partial_id ← unique_id (pcn_id dup)
        (dom (pcollections comps) ∪ list_to_set (pcn_id <$> (map_to_list result).*2));
      if decide (is_Some (result !! pcn_id dup))
      then Err (InvalidArgument ("duplicate pcollection appeared more than once in a single stage: " +:+ pcn_id dup))
      else create_partials_loop duplicates comps
             (<[pcn_id dup := mkPCollectionNode partial_id (rename_pcol (pcn_collection dup) partial_id)]> result)
  end.

Definition create_partial_pcollections (duplicates : list PCollectionNode) (comps : Components) : translated partials :=
  create_partials_loop duplicates comps ∅.

Definition update_outputs (t : PTransform) (p : partials) : PTransform :=
  mkPTransform (pt_unique_name t) (pt_spec t) (pt_subtransforms t) (pt_inputs t)
    ((λ c, match p !! c with Some partial => pcn_id partial | None => c end) <$> pt_outputs t)
    (pt_environment_id t).

Definition update_node (p : partials) (t : PTransformNode) : PTransformNode :=
  mkPTransformNode (ptn_id t) (update_outputs (ptn_transform t) p).

(** The partial PCollections join the components. *)
Definition add_pcollections (p : partials) (pcols : gmap string PCollection) : gmap string PCollection :=
  foldl (λ m e, <[pcn_id e.2 := pcn_collection e.2]> m) pcols (map_iter p).

Definition deduplicate_stage (s : ExecutableStage) (duplicates : list PCollectionNode) (comps : Components)
    : minting (ExecutableStage * partials) :=
  p ← lift_minting (create_partial_pcollections duplicates comps);
  let ts := update_node p <$> stage_transforms s in
  let outputs := (λ c, default c (p !! pcn_id c)) <$> stage_output_pcols s in
  let scomps := stage_components s in
  s' ← stage_from new_v4 (with_transforms scomps (transforms_of ts) (add_pcollections p (pcollections scomps)))
         (stage_environment s) (stage_input_pcol s) (stage_side_inputs s) (stage_user_states s) (stage_timers s)
         (index_extend pcn_id [] outputs) (index_extend ptn_id [] ts);
  mret (s', p).

Definition deduplicate_transform (t : PTransformNode) (duplicates : list PCollectionNode) (comps : Components)
    : translated (PTransformNode * partials) :=
  p ← create_partial_pcollections duplicates comps;
  Ok (update_node p t, p).

(** * [ensure_single_producer] *)

Record DeduplicationResult : Type := mkDedup {
  dedup_components : Components;
  introduced_transforms : list PTransformNode;
  deduplicated_stages : gmap string ExecutableStage;
  deduplicated_transforms : gmap string PTransformNode;
}.

(** The state of the loop over the producers: the components, the rewritten stages and
    transforms, and the partials of every PCollection. *)
Record DedupState : Type := mkDedupState {
  ds_components : Components;
  ds_stages : gmap string ExecutableStage;
  ds_transforms : gmap string PTransformNode;
  ds_partials : gmap string (list PCollectionNode);
}.

Definition register_partials (p : partials) (s : DedupState) : DedupState :=
  mkDedupState
    (with_transforms (ds_components s) (transforms (ds_components s)) (add_pcollections p (pcollections (ds_components s))))
    (ds_stages s) (ds_transforms s)
    (foldl (λ m e, <[e.1 := default [] (m !! e.1) ++ [e.2]]> m) (ds_partials s) (map_iter p)).

Definition rewrite_producer (s : DedupState) (producer : StageOrTransform) (duplicates : list PCollectionNode)
    : minting DedupState :=
  match producer with
  | StageProducer stage =>
      '(updated, p) ← deduplicate_stage stage duplicates (ds_components s);
      let s := register_partials p s in
      mret (mkDedupState (ds_components s) (<[stage_id stage := updated]> (ds_stages s)) (ds_transforms s) (ds_partials s))
  | TransformProducer t =>
      '(updated, p) ← lift_minting (deduplicate_transform t duplicates (ds_components s));
      let s := register_partials p s in
      mret (mkDedupState (ds_components s) (ds_stages s) (<[ptn_id t := updated]> (ds_transforms s)) (ds_partials s))
  end.

Fixpoint rewrite_producers (l : list (StageOrTransform * list PCollectionNode)) (s : DedupState) : minting DedupState :=
  match l with
  | [] => mret s
  | (producer, duplicates) :: l => s ← rewrite_producer s producer duplicates; rewrite_producers l s
  end.

Definition create_flatten_of_partials (transform_id output_pcol_id : string) (inputs : list PCollectionNode) : PTransform :=
  mkPTransform transform_id (Some (mkFunctionSpec FLATTEN_TRANSFORM [])) []
    (list_to_map (imap (λ i node, ("input_" +:+ pretty i, pcn_id node)) inputs))
    {["output" := output_pcol_id]} "".

Fixpoint introduce_flattens (l : list (string * list PCollectionNode)) (comps : Components) (introduced : list PTransformNode)
    : translated (Components * list PTransformNode) :=
  match l with
  | [] => Ok (comps, introduced)
  | (original_id, parts) :: l =>
      flatten_id ← unique_id "unzipped_flatten" (dom (transforms comps));
      let flatten := create_flatten_of_partials flatten_id original_id parts in
      introduce_flattens l
        (with_transforms comps (<[flatten_id := flatten]> (transforms comps)) (pcollections comps))
        (index_insert ptn_id introduced (mkPTransformNode flatten_id flatten))
  end.

Definition ensure_single_producer (q : QueryablePipeline) (stages : list ExecutableStage) (unfused : list PTransformNode)
    : minting DeduplicationResult :=
  let requires_new_output := require_outputs (collect_producers q stages unfused) in
  s ← rewrite_producers (map_iter requires_new_output).*2 (mkDedupState (qp_components q) ∅ ∅ ∅);
  '(comps, introduced) ← lift_minting (introduce_flattens (map_iter (ds_partials s)) (ds_components s) []);
  mret (mkDedup comps introduced (ds_stages s) (ds_transforms s)).

(** * The fused pipeline *)

Record FusedPipeline : Type := mkFusedPipeline {
  fp_components : Components;
  sdk_stages : list ExecutableStage;
  runner_stages : list PTransformNode;
}.

Fixpoint sanitize_stages (l : list ExecutableStage) : minting (list ExecutableStage) :=
  match l with
  | [] => mret []
  | s :: l => s' ← sanitize_dangling_ptransform_inputs new_v4 s; l' ← sanitize_stages l; mret (s' :: l')
  end.

Definition get_sdk_stages (d : DeduplicationResult) (stages : list ExecutableStage) : minting (list ExecutableStage) :=
  l ← sanitize_stages ((λ s, default s (deduplicated_stages d !! stage_id s)) <$> stages);
  mret (index_extend stage_id [] l).

Definition get_runner_stages (d : DeduplicationResult) (unfused : list PTransformNode) : list PTransformNode :=
  index_extend ptn_id (index_extend ptn_id [] ((λ t, default t (deduplicated_transforms d !! ptn_id t)) <$> unfused))
    (introduced_transforms d).

(** [GreedyPipelineFuser::fuse_pipeline]. *)
Definition fuser_fuse_pipeline (q : QueryablePipeline) (initial_unfused : node_set) (consumers : consumer_set)
    : minting FusedPipeline :=
  s ← fuse_stages new_v4 q initial_unfused consumers;
  d ← ensure_single_producer q (fuser_stages s) (unfused_pt s);
  stages ← get_sdk_stages d (fuser_stages s);
  mret (mkFusedPipeline (dedup_components d) stages (get_runner_stages d (unfused_pt s))).

(** [fuse_pipeline] of job.rs. *)
Definition fuse_pipeline (comps : Components) : minting FusedPipeline :=
  q ← lift_minting (queryable_new comps);
  d ← lift_minting (initial_consumers q);
  fuser_fuse_pipeline q (unfusible d) (fusible d).
End dedup.
