(* ===== verification/DedupLoopSpec.v ===== *)
(** The deduplication of outputs: unique ids, the producers of a PCollection and how they are
    collected; what the rewriting of one and of all shared PCollections does to the stages
    and transforms. *)
From stdpp Require Import pretty.
From S2P Require Import Prelude Bytes CoderGraph Pipeline StageFuserSpec StageFuser PipelineFuser Dedup.
Set Warnings "-clear-no-such-hyp".
Local Open Scope string_scope.
Local Open Scope list_scope.

(** * Unique ids *)

Lemma candidate_id_inj prefix a b : candidate_id prefix a = candidate_id prefix b → a = b.
Proof.
  assert (Hne : ∀ n, candidate_id prefix (S n) ≠ prefix).
  { intros n E. assert (Hl : ∀ s t, String.length (s +:+ t) = String.length s + String.length t).
    { intros s t. induction s as [|a' s IH]; simpl; [done|]. unfold String.append in *. lia. }
    apply (f_equal String.length) in E. simpl in E. rewrite !Hl in E. simpl in E. lia. }
  destruct a as [|a], b as [|b]; [done| | |]; intros E; [by destruct (Hne b)|by destruct (Hne a)|].
  simpl in E. apply (inj (String.append prefix)) in E. apply (inj (String.append "-")) in E.
  apply (inj (@pretty nat _)) in E. by rewrite E.
Qed.

Lemma unique_id_from_ok (fuel n : nat) prefix (taken : gset string) :
  (∀ j, j < n → candidate_id prefix j ∈ taken)%nat → (size taken ≤ fuel + n)%nat →
  ∃ j, unique_id_from fuel n prefix taken = Ok (candidate_id prefix j) ∧ candidate_id prefix j ∉ taken.
Proof.
  revert n. induction fuel as [|fuel IH]; intros n Hn Hs; simpl; (case_decide as Hin; [|by exists n]).
  - exfalso. pose proof (candidates_bound (candidate_id prefix) taken (S n) (candidate_id_inj prefix)) as Hb.
    assert (Hall : ∀ j, (j < S n)%nat → candidate_id prefix j ∈ taken); [|specialize (Hb Hall); lia].
    intros j Hj. destruct (decide (j = n)) as [->|]; [done|]. apply Hn. lia.
  - apply IH; [|lia]. intros j Hj. destruct (decide (j = n)) as [->|]; [done|]. apply Hn. lia.
Qed.

Lemma unique_id_ok prefix (taken : gset string) : ∃ id, unique_id prefix taken = Ok id ∧ id ∉ taken.
Proof.
  destruct (unique_id_from_ok (size taken) 0 prefix taken) as (j & E & Hj); [lia|lia|]. by exists (candidate_id prefix j).
Qed.

(** * Entries *)

Section entries.
Context `{Countable K} {A B X : Type} (key : X → K) (node : X → A) (val : X → B).

(** A fold of pushes groups a list by its keys. *)
Lemma push_entries_lookup l k :
  foldl (λ m x, push_entry (key x) (node x) (val x) m) ∅ l !! k
  = match filter (λ x, key x = k) l with
    | [] => None
    | (x :: _) as xs => Some (node x, val <$> xs)
    end.
Proof.
  induction l as [|x l IH] using rev_ind; [simpl; by rewrite lookup_empty|].
  rewrite foldl_app, filter_app, filter_cons, filter_nil. simpl. set (m := foldl _ _ _) in *. unfold push_entry.
  destruct (decide (key x = k)) as [<-|Hne].
  - rewrite IH. 
    destruct (filter _ l) as [|y ys]; rewrite lookup_insert_eq; [done|]. simpl. by rewrite fmap_app.
  - transitivity (m !! k); [|by rewrite IH, app_nil_r].
    destruct (m !! key x) as [[? ?]|]; by rewrite lookup_insert_ne.
Qed.
End entries.

(** A nested loop is one loop over the pairs. *)
Lemma foldl_nested {A B X C} (step : X → C → C) (f : A → B → X) (g : A → list B) l m :
  foldl (λ m a, foldl (λ m b, step (f a b) m) m (g a)) m l
  = foldl (λ m x, step x m) m (concat ((λ a, f a <$> g a) <$> l)).
Proof.
  revert m. induction l as [|a l IH]; intros m; simpl; [done|]. rewrite foldl_app, IH. f_equal. clear IH.
  revert m. induction (g a) as [|b k IH]; intros m; simpl; [done|]. apply IH.
Qed.

(** Blocks of distinct elements under distinct keys. *)
Lemma NoDup_concat_keyed {A B K I} (k : A → K) (g : A → list B) (key : B → K) (h : B → I) l :
  NoDup (k <$> l) → (∀ a b, a ∈ l → b ∈ g a → key b = k a) → (∀ a, a ∈ l → NoDup (h <$> g a)) →
  NoDup ((λ b, (key b, h b)) <$> concat (g <$> l)).
Proof.
  induction l as [|a l IH]; csimpl; intros Hk Hkey Hg; [constructor|]. apply NoDup_cons in Hk as [Ha Hk].
  rewrite fmap_app. apply NoDup_app. split_and!.
  - apply (NoDup_fmap_1 snd). rewrite <- list_fmap_compose. apply Hg. by left.
  - intros [j i] (b & [= -> ->] & Hb)%list_elem_of_fmap (b' & [= Ek _] & (a' & Ha' & Hb')%elem_of_concat_fmap)%list_elem_of_fmap.
    apply Ha. rewrite (Hkey a b) in Ek by (done || by left). rewrite (Hkey a' b') in Ek by (done || by right).
    rewrite Ek. by apply list_elem_of_fmap_2.
  - apply IH; [done|intros; apply Hkey; [by right|done]|intros; apply Hg; by right].
Qed.

Lemma NoDup_swap {X A B} (f : X → A) (g : X → B) l : NoDup ((λ x, (f x, g x)) <$> l) → NoDup ((λ x, (g x, f x)) <$> l).
Proof.
  intros Hl. apply (NoDup_fmap_1 (λ k : B * A, (k.2, k.1))). by rewrite <- list_fmap_compose.
Qed.

Lemma NoDup_under_key {X K I} `{EqDecision K} (key : X → K) (f : X → I) l k :
  NoDup ((λ x, (key x, f x)) <$> l) → NoDup (f <$> filter (λ x, key x = k) l).
Proof.
  induction l as [|x l IH]; csimpl; intros Hnd; [constructor|]. apply NoDup_cons in Hnd as [Hx Hnd].
  rewrite filter_cons. case_decide as Hk; [|by apply IH]. csimpl. apply NoDup_cons. split; [|by apply IH].
  intros (y & E & [Hy Hin]%list_elem_of_filter)%list_elem_of_fmap. apply Hx, list_elem_of_fmap. exists y. split; [|done].
  congruence.
Qed.

(** * Producers *)

Section producers.
Context `{HashIterLaws, PayloadDecoder} (q : QueryablePipeline) (stages : list ExecutableStage) (unfused : list PTransformNode).

(** The producers and what they produce. *)
Definition producer_outputs : list (StageOrTransform * list PCollectionNode) :=
  ((λ s, (StageProducer s, stage_output_pcols s)) <$> stages)
  ++ ((λ t, (TransformProducer t, outputs q t)) <$> unfused).

(** [p] produces [c]. *)
Definition produces_node (p : StageOrTransform) (c : PCollectionNode) : Prop := ∃ cs, (p, cs) ∈ producer_outputs ∧ c ∈ cs.

(** More than one producer. *)
Definition contested (c : string) : Prop :=
  ∃ p p' n n', produces_node p n ∧ produces_node p' n' ∧ producer_key p ≠ producer_key p' ∧ pcn_id n = c ∧ pcn_id n' = c.

Record producers_ok : Prop := {
  po_keys : NoDup (producer_key ∘ fst <$> producer_outputs);
  po_known p cs : (p, cs) ∈ producer_outputs → Forall (known_pcol q) cs;
  po_once p cs : (p, cs) ∈ producer_outputs → NoDup (pcn_id <$> cs);
}.

Definition production_pairs : list (StageOrTransform * PCollectionNode) :=
  concat ((λ e : StageOrTransform * list PCollectionNode, pair e.1 <$> e.2) <$> producer_outputs).

Lemma elem_of_production_pairs p c : (p, c) ∈ production_pairs ↔ produces_node p c.
Proof.
  unfold production_pairs, produces_node. rewrite elem_of_concat_fmap. split.
  - intros ([p' cs] & Hin & (c' & [= -> ->] & Hc)%list_elem_of_fmap). by exists cs.
  - intros (cs & Hin & Hc). exists (p, cs). split; [done|]. apply list_elem_of_fmap. by exists c.
Qed.

Lemma collect_producers_eq :
  collect_producers q stages unfused = foldl (λ m x, push_entry (pcn_id x.2) x.2 x.1 m) ∅ production_pairs.
Proof.
  unfold collect_producers, production_pairs, producer_outputs, add_producer.
  rewrite fmap_app, concat_app, foldl_app, <- !list_fmap_compose.
  set (step := λ (x : StageOrTransform * PCollectionNode) (m : producers_map), push_entry (pcn_id x.2) x.2 x.1 m).
  pose proof (foldl_nested step (λ s, pair (StageProducer s)) stage_output_pcols stages ∅) as E1.
  pose proof (foldl_nested step (λ t, pair (TransformProducer t)) (outputs q) unfused) as E2.
  unfold step in *. simpl in E1, E2. unfold outputs in E2 at 1. rewrite E1. apply E2.
Qed.

Context (Hok : producers_ok).

Lemma production_pairs_NoDup : NoDup ((λ x, (producer_key x.1, pcn_id x.2)) <$> production_pairs).
Proof.
  unfold production_pairs. apply (NoDup_concat_keyed (producer_key ∘ fst)); [exact (po_keys Hok)| |].
  - intros [p cs] x _ (c & -> & _)%list_elem_of_fmap. done.
  - intros [p cs] Hin. rewrite <- list_fmap_compose. by apply (po_once Hok p).
Qed.

Lemma produces_known p c : produces_node p c → known_pcol q c.
Proof. intros (cs & Hin & Hc). pose proof (po_known Hok p cs Hin) as Hk. by eapply Forall_forall in Hc. Qed.

Lemma producer_outputs_unique p p' cs cs' :
  (p, cs) ∈ producer_outputs → (p', cs') ∈ producer_outputs → producer_key p = producer_key p' → p = p' ∧ cs = cs'.
Proof.
  intros Hin Hin' E. apply list_elem_of_lookup in Hin as [i Hi]. apply list_elem_of_lookup in Hin' as [j Hj].
  assert (i = j) as ->; [|by simplify_eq].
  eapply (NoDup_lookup _ _ _ (producer_key p)); [exact (po_keys Hok)| |]; rewrite list_lookup_fmap; [by rewrite Hi|].
  rewrite Hj. simpl. by rewrite E.
Qed.

Lemma producer_unique p p' c c' : produces_node p c → produces_node p' c' → producer_key p = producer_key p' → p = p'.
Proof. intros (cs & Hin & _) (cs' & Hin' & _) E. by destruct (producer_outputs_unique _ _ _ _ Hin Hin' E). Qed.

(** Every PCollection has its producers listed, once each. *)
Lemma collect_producers_lookup i n prods :
  collect_producers q stages unfused !! i = Some (n, prods) →
  pcn_id n = i ∧ known_pcol q n ∧ NoDup (producer_key <$> prods) ∧ (∀ p, p ∈ prods ↔ produces_node p n)
  ∧ ((1 < length prods)%nat ↔ contested i).
Proof.
  rewrite collect_producers_eq, push_entries_lookup. set (l := filter _ _).
  destruct l as [|x xs] eqn:El; [done|]. intros [= <- <-].
  assert (Hl : ∀ p c, (p, c) ∈ x :: xs ↔ produces_node p c ∧ pcn_id c = i).
  { intros p c. rewrite <- El. unfold l. rewrite list_elem_of_filter, elem_of_production_pairs. simpl. tauto. }
  pose proof (NoDup_under_key (pcn_id ∘ snd) (producer_key ∘ fst) production_pairs i) as Hnd.
  assert (Hx : produces_node x.1 x.2 ∧ pcn_id x.2 = i) by (apply Hl; destruct x; by left). destruct Hx as [Hx Hi].
  assert (Hkeys : NoDup (producer_key <$> (x :: xs).*1)).
  { rewrite <- list_fmap_compose, <- El. apply Hnd.
    apply (NoDup_swap (producer_key ∘ fst) (pcn_id ∘ snd)). exact production_pairs_NoDup. }
  assert (Hp : ∀ p, p ∈ (x :: xs).*1 ↔ produces_node p x.2).
  { intros p. rewrite list_elem_of_fmap. split.
    - intros ([p' c] & -> & [Hpc Hc]%Hl). simpl in *.
      assert (c = x.2) as -> by (apply (known_pcol_inj q); [by eapply produces_known|by eapply produces_known|congruence]). done.
    - intros Hpx. exists (p, x.2). split; [done|]. by apply Hl. }
  split_and!; [done|by eapply produces_known|done|done|]. split.
  - intros Hlen. destruct xs as [|y ys]; [simpl in Hlen; lia|].
    assert (Hy : produces_node y.1 y.2 ∧ pcn_id y.2 = i) by (apply Hl; destruct y; right; by left).
    exists x.1, y.1, x.2, y.2. split_and!; [done|apply Hy| |done|apply Hy].
    csimpl in Hkeys. apply NoDup_cons in Hkeys as [Hk _]. intros E. apply Hk. rewrite E. by left.
  - intros (p & p' & m & m' & Hpm & Hpm' & Hne & Em & Em').
    assert (Hin : (p, m) ∈ x :: xs) by (by apply Hl). assert (Hin' : (p', m') ∈ x :: xs) by (by apply Hl).
    destruct xs as [|y ys]; [|simpl; lia]. apply list_elem_of_singleton in Hin, Hin'. congruence.
Qed.

Lemma collect_producers_total p c :
  produces_node p c → ∃ prods, collect_producers q stages unfused !! pcn_id c = Some (c, prods).
Proof.
  intros Hpc. assert (Hin : (p, c) ∈ filter (λ x, pcn_id x.2 = pcn_id c) production_pairs).
  { apply list_elem_of_filter. by rewrite elem_of_production_pairs. }
  destruct (collect_producers q stages unfused !! pcn_id c) as [[n prods]|] eqn:E.
  - destruct (collect_producers_lookup _ _ _ E) as (En & Hk & _). exists prods. repeat f_equal.
    apply (known_pcol_inj q); [done|by eapply produces_known|done].
  - rewrite collect_producers_eq, push_entries_lookup in E. destruct (filter _ _); [by apply elem_of_nil in Hin|done].
Qed.

Lemma contested_dec c : contested c ∨ ¬ contested c.
Proof.
  destruct (collect_producers q stages unfused !! c) as [[n prods]|] eqn:E.
  - destruct (collect_producers_lookup _ _ _ E) as (_ & _ & _ & _ & Hlen). rewrite <- Hlen. lia.
  - right. intros (p & _ & n & _ & Hp & _ & _ & <- & _). destruct (collect_producers_total p n Hp) as [prods E']. congruence.
Qed.

(** ** What must be rewritten *)

Definition required : list (StageOrTransform * list PCollectionNode) :=
  (map_iter (require_outputs (collect_producers q stages unfused))).*2.

Definition required_pairs : list (StageOrTransform * PCollectionNode) :=
  concat ((λ e : string * (PCollectionNode * list StageOrTransform),
             (λ p, (p, e.2.1)) <$> (if decide (1 < length e.2.2)%nat then e.2.2 else []))
          <$> map_iter (collect_producers q stages unfused)).

Lemma require_outputs_eq :
  require_outputs (collect_producers q stages unfused)
  = foldl (λ m x, push_entry (producer_key x.1) x.1 x.2 m) ∅ required_pairs.
Proof.
  unfold required_pairs, require_outputs.
  rewrite <- (foldl_nested (λ (x : StageOrTransform * PCollectionNode) m, push_entry (producer_key x.1) x.1 x.2 m)
    (λ (e : string * (PCollectionNode * list StageOrTransform)) p, (p, e.2.1))). simpl.
  generalize (map_iter (collect_producers q stages unfused)). generalize (∅ : gmap (string + string) (StageOrTransform * list PCollectionNode)).
  intros m l. revert m. induction l as [|[i [n prods]] l IH]; intros m; simpl; [done|]. rewrite IH. f_equal. by case_decide.
Qed.

Lemma elem_of_required_pairs p c : (p, c) ∈ required_pairs ↔ produces_node p c ∧ contested (pcn_id c).
Proof.
  unfold required_pairs. rewrite elem_of_concat_fmap. setoid_rewrite map_iter_perm. split.
  - intros ([i [n prods]] & Hin%elem_of_map_to_list & (p' & [= <- ->] & Hp)%list_elem_of_fmap). simpl in *.
    destruct (collect_producers_lookup _ _ _ Hin) as (<- & _ & _ & Hprods & Hc).
    case_decide as Hlen; [|by apply elem_of_nil in Hp]. split; [by apply Hprods|by apply Hc].
  - intros [Hpc Hc]. destruct (collect_producers_total p c Hpc) as [prods E].
    destruct (collect_producers_lookup _ _ _ E) as (_ & _ & _ & Hprods & Hlen).
    exists (pcn_id c, (c, prods)). split; [by apply elem_of_map_to_list|]. apply list_elem_of_fmap. exists p. split; [done|].
    simpl. rewrite decide_True by (by apply Hlen). by apply Hprods.
Qed.

Lemma required_pairs_NoDup : NoDup ((λ x, (producer_key x.1, pcn_id x.2)) <$> required_pairs).
Proof.
  assert (Hel : ∀ i e, (i, e) ∈ map_iter (collect_producers q stages unfused) → collect_producers q stages unfused !! i = Some e).
  { intros i e Hin. rewrite map_iter_perm in Hin. by apply elem_of_map_to_list in Hin. }
  apply (NoDup_swap (pcn_id ∘ snd) (producer_key ∘ fst)). unfold required_pairs.
  apply (NoDup_concat_keyed fst).
  - rewrite map_iter_perm. apply NoDup_fst_map_to_list.
  - intros [i [n prods]] x Hin%Hel (p & -> & _)%list_elem_of_fmap. by destruct (collect_producers_lookup _ _ _ Hin) as (? & _).
  - intros [i [n prods]] Hin%Hel. destruct (collect_producers_lookup _ _ _ Hin) as (_ & _ & ? & _). simpl.
    rewrite <- list_fmap_compose. case_decide; [done|constructor].
Qed.

Lemma require_outputs_lookup k p dups :
  require_outputs (collect_producers q stages unfused) !! k = Some (p, dups) →
  producer_key p = k ∧ NoDup (pcn_id <$> dups) ∧ dups ≠ []
  ∧ ∀ c, c ∈ dups ↔ produces_node p c ∧ contested (pcn_id c).
Proof.
  rewrite require_outputs_eq, push_entries_lookup. destruct (filter _ _) as [|x xs] eqn:El; [done|]. intros [= <- <-].
  assert (Hl : ∀ p c, (p, c) ∈ x :: xs ↔ (produces_node p c ∧ contested (pcn_id c)) ∧ producer_key p = k).
  { intros p c. rewrite <- El, list_elem_of_filter, elem_of_required_pairs. simpl. tauto. }
  assert (Hx : (produces_node x.1 x.2 ∧ contested (pcn_id x.2)) ∧ producer_key x.1 = k) by (apply Hl; destruct x; by left).
  split_and!; [apply Hx| |done|].
  - change (NoDup (pcn_id <$> (x :: xs).*2)). rewrite <- list_fmap_compose, <- El.
    apply (NoDup_under_key (producer_key ∘ fst)). exact required_pairs_NoDup.
  - intros c. change (c ∈ (x :: xs).*2 ↔ produces_node x.1 c ∧ contested (pcn_id c)). rewrite list_elem_of_fmap. split.
    + intros ([p c'] & -> & [[Hpc Hc] Ek]%Hl). simpl.
      rewrite <- (producer_unique p x.1 c' x.2) by (done || apply Hx || (rewrite Ek; symmetry; apply Hx)). done.
    + intros [? ?]. exists (x.1, c). split; [done|]. apply Hl. split; [done|apply Hx].
Qed.

Lemma require_outputs_total p c :
  produces_node p c → contested (pcn_id c) →
  ∃ dups, require_outputs (collect_producers q stages unfused) !! producer_key p = Some (p, dups).
Proof.
  intros Hpc Hc. assert (Hin : (p, c) ∈ filter (λ x, producer_key x.1 = producer_key p) required_pairs).
  { apply list_elem_of_filter. by rewrite elem_of_required_pairs. }
  destruct (require_outputs (collect_producers q stages unfused) !! producer_key p) as [[p' dups]|] eqn:E.
  - destruct (require_outputs_lookup _ _ _ E) as (Ek & _ & Hne & Hd). exists dups. repeat f_equal.
    destruct dups as [|d ds]; [done|]. destruct (proj1 (Hd d) ltac:(by left)) as [Hd' _]. by eapply producer_unique.
  - rewrite require_outputs_eq, push_entries_lookup in E. destruct (filter _ _); [by apply elem_of_nil in Hin|done].
Qed.

Lemma elem_of_required p dups :
  (p, dups) ∈ required ↔ require_outputs (collect_producers q stages unfused) !! producer_key p = Some (p, dups).
Proof.
  unfold required. rewrite list_elem_of_fmap. setoid_rewrite map_iter_perm. split.
  - intros ([k [p' dups']] & [= -> ->] & E%elem_of_map_to_list). by destruct (require_outputs_lookup _ _ _ E) as (-> & _).
  - intros E. exists (producer_key p, (p, dups)). split; [done|]. by apply elem_of_map_to_list.
Qed.

Lemma required_keys : NoDup (producer_key <$> required.*1).
Proof.
  unfold required. rewrite <- !list_fmap_compose.
  assert (Heq : producer_key ∘ fst ∘ snd <$> map_iter (require_outputs (collect_producers q stages unfused))
                = (map_iter (require_outputs (collect_producers q stages unfused))).*1).
  { apply list_fmap_ext. intros i [k [p dups]] Hi%list_elem_of_lookup_2. rewrite map_iter_perm in Hi.
    apply elem_of_map_to_list, require_outputs_lookup in Hi as (<- & _). done. }
  rewrite Heq, map_iter_perm. apply NoDup_fst_map_to_list.
Qed.

Lemma required_spec p dups :
  (p, dups) ∈ required → NoDup (pcn_id <$> dups) ∧ (∃ c, produces_node p c)
  ∧ ∀ c, c ∈ dups ↔ produces_node p c ∧ contested (pcn_id c).
Proof.
  intros (_ & Hnd & Hne & Hd)%elem_of_required%require_outputs_lookup. split_and!; [done| |done].
  destruct dups as [|d dups]; [done|]. exists d. by apply Hd; left.
Qed.

Lemma elem_of_stage_outputs st cs : (StageProducer st, cs) ∈ producer_outputs ↔ st ∈ stages ∧ cs = stage_output_pcols st.
Proof.
  unfold producer_outputs. rewrite elem_of_app, !list_elem_of_fmap. split.
  - intros [(s & [= -> ->] & ?)|(t & [=] & _)]. done.
  - intros [? ->]. left. by exists st.
Qed.

Lemma elem_of_transform_outputs t cs : (TransformProducer t, cs) ∈ producer_outputs ↔ t ∈ unfused ∧ cs = outputs q t.
Proof.
  unfold producer_outputs. rewrite elem_of_app, !list_elem_of_fmap. split.
  - intros [(s & [=] & _)|(t' & [= -> ->] & ?)]. done.
  - intros [? ->]. right. by exists t.
Qed.
End producers.

Local Open Scope nat_scope.
Local Open Scope list_scope.

Section rewriting.
Context `{HashIterLaws, PayloadDecoder} (new_v4 : nat → string) `{!Inj (=) (=) new_v4} (comps0 : Components).

(** * The partials of one producer *)

(** Partials with ids of their own, that [comps] does not have. *)
Record fresh_partials (p : partials) (comps : Components) : Prop := {
  fp_new c x : p !! c = Some x → pcn_id x ∉ dom (pcollections comps);
  fp_inj c c' x x' : p !! c = Some x → p !! c' = Some x' → pcn_id x = pcn_id x' → c = c';
}.

Lemma elem_of_partial_ids (p : partials) i :
  i ∈ (list_to_set (pcn_id <$> (map_to_list p).*2) : gset string) ↔ ∃ c x, p !! c = Some x ∧ pcn_id x = i.
Proof.
  rewrite elem_of_list_to_set, list_elem_of_fmap. split.
  - intros (x & -> & ([c x'] & -> & Hin%elem_of_map_to_list)%list_elem_of_fmap). by exists c, x'.
  - intros (c & x & E & <-). exists x. split; [done|]. apply list_elem_of_fmap. exists (c, x). split; [done|].
    by apply elem_of_map_to_list.
Qed.

Lemma create_partials_loop_ok dups comps p :
  NoDup (pcn_id <$> dups) → (∀ c, c ∈ pcn_id <$> dups → c ∉ dom p) → fresh_partials p comps →
  ∃ p', create_partials_loop dups comps p = Ok p' ∧ dom p' = dom p ∪ list_to_set (pcn_id <$> dups) ∧ fresh_partials p' comps.
Proof.
  revert p. induction dups as [|d dups IH]; intros p Hnd Hdis Hf; simpl; [exists p; split_and!; [done|set_solver|done]|].
  csimpl in *. apply NoDup_cons in Hnd as [Hd Hnd].
  destruct (unique_id_ok (pcn_id d) (dom (pcollections comps) ∪ list_to_set (pcn_id <$> (map_to_list p).*2))) as (i & -> & Hi).
  apply not_elem_of_union in Hi as [Hi1 Hi2]. rewrite elem_of_partial_ids in Hi2. cbn [mbind outcome_bind].
  rewrite decide_False by (rewrite <- elem_of_dom; apply Hdis; by left).
  edestruct IH as (p' & E & Hdom & Hf'); [exact Hnd| | |exists p'; split_and!; [exact E| |done]].
  - intros c Hc. rewrite dom_insert, not_elem_of_union, not_elem_of_singleton. split; [congruence|apply Hdis; by right].
  - destruct Hf as [F1 F2]. constructor.
    + intros c x [[<- <-]|[_ E]]%lookup_insert_Some; [done|by eapply F1].
    + intros c c' x x' [[<- <-]|[_ E]]%lookup_insert_Some [[<- <-]|[_ E']]%lookup_insert_Some Ei; [done| | |by eapply F2].
      * exfalso. apply Hi2. by exists c', x'.
      * exfalso. apply Hi2. by exists c, x.
  - rewrite Hdom, dom_insert_L. set_solver.
Qed.

Lemma create_partials_ok dups comps :
  NoDup (pcn_id <$> dups) →
  ∃ p, create_partial_pcollections dups comps = Ok p ∧ dom p = list_to_set (pcn_id <$> dups) ∧ fresh_partials p comps.
Proof.
  intros Hnd. destruct (create_partials_loop_ok dups comps ∅ Hnd) as (p & E & Hdom & Hf); [set_solver| |].
  - constructor; intros *; by rewrite lookup_empty.
  - exists p. split_and!; [done|set_solver|done].
Qed.

Lemma add_pcollections_dom p m i : i ∈ dom (add_pcollections p m) ↔ i ∈ dom m ∨ ∃ c x, p !! c = Some x ∧ pcn_id x = i.
Proof.
  unfold add_pcollections.
  assert (Hl : ∀ l (m : gmap string PCollection),
    i ∈ dom (foldl (λ m (e : string * PCollectionNode), <[pcn_id e.2 := pcn_collection e.2]> m) m l)
    ↔ i ∈ dom m ∨ ∃ e, e ∈ l ∧ pcn_id e.2 = i).
  { induction l as [|e l IH]; intros m0; simpl; [setoid_rewrite elem_of_nil; naive_solver|].
    rewrite IH, dom_insert, elem_of_union, elem_of_singleton. setoid_rewrite elem_of_cons. naive_solver. }
  rewrite Hl. setoid_rewrite map_iter_perm. f_equiv. split.
  - intros ([c x] & Hin%elem_of_map_to_list & <-). by exists c, x.
  - intros (c & x & E & <-). exists (c, x). by rewrite elem_of_map_to_list.
Qed.

(** Partials are appended to those of their original. *)
Lemma push_partials_lookup p (m : gmap string (list PCollectionNode)) c :
  foldl (λ m (e : string * PCollectionNode), <[e.1 := default [] (m !! e.1) ++ [e.2]]> m) m (map_iter p) !! c
  = match p !! c with Some x => Some (default [] (m !! c) ++ [x]) | None => m !! c end.
Proof.
  assert (Hl : ∀ l (m : gmap string (list PCollectionNode)), NoDup l.*1 →
    let r := foldl (λ m (e : string * PCollectionNode), <[e.1 := default [] (m !! e.1) ++ [e.2]]> m) m l !! c in
    (∀ x, (c, x) ∈ l → r = Some (default [] (m !! c) ++ [x])) ∧ (c ∉ l.*1 → r = m !! c)).
  { induction l as [|[c' x'] l IH]; intros m0 Hnd r; [split; [by intros x ?%elem_of_nil|done]|]. csimpl in *.
    apply NoDup_cons in Hnd as [Hn Hnd]. destruct (IH (<[c' := default [] (m0 !! c') ++ [x']]> m0) Hnd) as [IH1 IH2]. split.
    - intros x [[= <- <-]|Hin]%elem_of_cons; [unfold r; simpl; by rewrite IH2, lookup_insert_eq|].
      unfold r; simpl. rewrite (IH1 x Hin), lookup_insert_ne; [done|]. intros ->. apply Hn, list_elem_of_fmap. by exists (c, x).
    - intros [Hne Hc]%not_elem_of_cons. unfold r; simpl. by rewrite IH2, lookup_insert_ne. }
  destruct (Hl (map_iter p) m) as [H1' H2']; [rewrite map_iter_perm; apply NoDup_fst_map_to_list|].
  destruct (p !! c) as [x|] eqn:E.
  - apply H1'. rewrite map_iter_perm. by apply elem_of_map_to_list.
  - apply H2'. rewrite map_iter_perm. intros ([c' x'] & -> & Hin%elem_of_map_to_list)%list_elem_of_fmap. simpl in *. congruence.
Qed.

(** * All partials so far *)

(** The partials of each producer that has been rewritten, by its key. *)
Abbreviation partials_log := (gmap (string + string) partials).

Record registered (log : partials_log) (s : DedupState) : Prop := {
  rg_transforms : transforms (ds_components s) = transforms comps0;
  rg_pcols i : i ∈ dom (pcollections (ds_components s))
    ↔ i ∈ dom (pcollections comps0) ∨ ∃ k p c x, log !! k = Some p ∧ p !! c = Some x ∧ pcn_id x = i;
  rg_fresh k p c x : log !! k = Some p → p !! c = Some x → pcn_id x ∉ dom (pcollections comps0);
  rg_inj k k' p p' c c' x x' : log !! k = Some p → log !! k' = Some p' → p !! c = Some x → p' !! c' = Some x' →
    pcn_id x = pcn_id x' → k = k' ∧ c = c';
  rg_partials c x : (∃ l, ds_partials s !! c = Some l ∧ x ∈ l) ↔ ∃ k p, log !! k = Some p ∧ p !! c = Some x;
  rg_some c l : ds_partials s !! c = Some l → l ≠ [];
}.

Lemma registered_step log s k p :
  registered log s → log !! k = None → fresh_partials p (ds_components s) →
  registered (<[k := p]> log) (register_partials p s).
Proof.
  intros [R1 R2 R3 R4 R5 R6] Hk [F1 F2].
  assert (Hold : ∀ k' p' c x, log !! k' = Some p' → p' !! c = Some x → pcn_id x ∈ dom (pcollections (ds_components s))).
  { intros k' p' c x ? ?. apply R2. right. by exists k', p', c, x. }
  constructor; simpl.
  - done.
  - intros i. rewrite add_pcollections_dom, R2. split.
    + intros [[?|(k' & p' & c & x & E & ? & ?)]|(c & x & ? & ?)]; [by left|right; exists k', p', c, x|right; exists k, p, c, x].
      * rewrite lookup_insert_ne by congruence. done.
      * by rewrite lookup_insert_eq.
    + intros [?|(k' & p' & c & x & [[<- <-]|[_ E]]%lookup_insert_Some & ? & ?)];
        [left; by left|right; by exists c, x|left; right; by exists k', p', c, x].
  - intros k' p' c x [[<- <-]|[_ E]]%lookup_insert_Some Ex; [|by eapply R3].
    intros Hin. eapply F1, R2; [exact Ex|by left].
  - intros k1 k2 p1 p2 c1 c2 x1 x2 [[<- <-]|[? E1]]%lookup_insert_Some [[<- <-]|[? E2]]%lookup_insert_Some Ex1 Ex2 Ei.
    + split; [done|by eapply F2].
    + exfalso. eapply F1; [exact Ex1|]. rewrite Ei. by eapply Hold.
    + exfalso. eapply F1; [exact Ex2|]. rewrite <- Ei. by eapply Hold.
    + by eapply R4.
  - intros c x. rewrite push_partials_lookup. split.
    + intros (l & E & Hx). destruct (p !! c) as [y|] eqn:Ey.
      * injection E as <-. apply elem_of_app in Hx as [Hx|Hx%list_elem_of_singleton].
        -- destruct (proj1 (R5 c x)) as (k' & p' & E' & ?).
           { destruct (ds_partials s !! c) as [l|]; [by exists l|by apply elem_of_nil in Hx]. }
           exists k', p'. by rewrite lookup_insert_ne by congruence.
        -- exists k, p. rewrite lookup_insert_eq. by subst.
      * destruct (proj1 (R5 c x)) as (k' & p' & E' & ?); [by exists l|].
        exists k', p'. by rewrite lookup_insert_ne by congruence.
    + intros (k' & p' & [[<- <-]|[_ E]]%lookup_insert_Some & Ex).
      * rewrite Ex. eexists. split; [done|]. rewrite elem_of_app, list_elem_of_singleton. by right.
      * destruct (proj2 (R5 c x)) as (l & El & Hx); [by exists k', p'|].
        destruct (p !! c) as [y|]; [|by exists l]. rewrite El. eexists. split; [done|]. apply elem_of_app. by left.
  - intros c l. rewrite push_partials_lookup. destruct (p !! c); [intros [= <-]; by intros [_ ?]%app_nil|apply R6].
Qed.

Lemma registered_ext log s s' :
  ds_components s' = ds_components s → ds_partials s' = ds_partials s → registered log s → registered log s'.
Proof. intros Ec Ep []. constructor; rewrite ?Ec, ?Ep; done. Qed.

(** * Rewriting every producer *)

(** A stage whose outputs have been replaced by their partials. *)
Record renamed_stage (p : partials) (st st' : ExecutableStage) : Prop := {
  rs_outputs : stage_output_pcols st' = (λ c, default c (p !! pcn_id c)) <$> stage_output_pcols st;
  rs_transforms : stage_transforms st' = update_node p <$> stage_transforms st;
  rs_input : stage_input_pcol st' = stage_input_pcol st;
  rs_environment : stage_environment st' = stage_environment st;
  rs_output_ids : NoDup (pcn_id <$> stage_output_pcols st');
}.

(** Stages the rewriting expects: outputs and transforms once each, outputs known. *)
Record stage_ok (st : ExecutableStage) : Prop := {
  sk_outputs : NoDup (pcn_id <$> stage_output_pcols st);
  sk_known c : c ∈ pcn_id <$> stage_output_pcols st → c ∈ dom (pcollections comps0);
  sk_transforms : NoDup (ptn_id <$> stage_transforms st);
}.

Lemma renamed_NoDup p (cs : list PCollectionNode) comps :
  fresh_partials p comps → NoDup (pcn_id <$> cs) → (∀ c, c ∈ pcn_id <$> cs → c ∈ dom (pcollections comps)) →
  NoDup (pcn_id <$> ((λ c, default c (p !! pcn_id c)) <$> cs)).
Proof.
  intros [F1 F2] Hnd Hk. induction cs as [|c cs IH]; csimpl in *; [constructor|]. apply NoDup_cons in Hnd as [Hc Hnd].
  apply NoDup_cons. split; [|apply IH; [done|]; intros; apply Hk; by right].
  intros (c1 & E & (c2 & -> & Hc2)%list_elem_of_fmap)%list_elem_of_fmap. apply Hc.
  assert (pcn_id c2 = pcn_id c) as <-; [|by apply list_elem_of_fmap_2].
  assert (Hk1 : pcn_id c ∈ dom (pcollections comps)) by (apply Hk; by left).
  assert (Hk2 : pcn_id c2 ∈ dom (pcollections comps)) by (apply Hk; right; by apply list_elem_of_fmap_2).
  destruct (p !! pcn_id c) as [x|] eqn:E1, (p !! pcn_id c2) as [y|] eqn:E2; simpl in E.
  - by eapply F2.
  - exfalso. eapply F1; [exact E1|]. by rewrite E.
  - exfalso. eapply F1; [exact E2|]. by rewrite <- E.
  - done.
Qed.

Lemma deduplicate_stage_ok st dups comps minted :
  stage_ok st → NoDup (pcn_id <$> dups) → dom (pcollections comps0) ⊆ dom (pcollections comps) →
  ∃ st' p, deduplicate_stage new_v4 st dups comps minted = Ok ((st', p), S minted)
    ∧ dom p = list_to_set (pcn_id <$> dups) ∧ fresh_partials p comps ∧ renamed_stage p st st' ∧ stage_id st' = new_v4 minted.
Proof.
  intros [S1 S2 S3] Hnd Hsub. destruct (create_partials_ok dups comps Hnd) as (p & E & Hdom & Hf).
  assert (Hout : NoDup (pcn_id <$> ((λ c, default c (p !! pcn_id c)) <$> stage_output_pcols st))).
  { eapply renamed_NoDup; [exact Hf|done|]. intros c Hc. by apply Hsub, S2. }
  assert (Hts : NoDup (ptn_id <$> (update_node p <$> stage_transforms st))).
  { rewrite <- list_fmap_compose. exact S3. }
  unfold deduplicate_stage. rewrite (lift_minting_bind _ _ _ _ E). rewrite !index_extend_fresh by done.
  eexists _, p. split; [done|]. split_and!; [done|done| |done]. by constructor.
Qed.

(** ** The loop after the producers [done] *)

Abbreviation producer_list := (list (StageOrTransform * list PCollectionNode)).

Record logged (done : producer_list) (log : partials_log) : Prop := {
  lg_log k p : log !! k = Some p →
    ∃ prod dups, (prod, dups) ∈ done ∧ producer_key prod = k ∧ dom p = list_to_set (pcn_id <$> dups);
  lg_done prod dups : (prod, dups) ∈ done → is_Some (log !! producer_key prod);
}.

Record stages_rewritten (done : producer_list) (log : partials_log) (minted0 minted : nat)
    (m : gmap string ExecutableStage) : Prop := {
  sr_stage id st' : m !! id = Some st' →
    ∃ st dups p k, (StageProducer st, dups) ∈ done ∧ stage_id st = id ∧ log !! inl id = Some p ∧ renamed_stage p st st'
      ∧ minted0 ≤ k < minted ∧ stage_id st' = new_v4 k;
  sr_done st dups : (StageProducer st, dups) ∈ done → is_Some (m !! stage_id st);
  sr_ids a b sa sb : m !! a = Some sa → m !! b = Some sb → stage_id sa = stage_id sb → a = b;
}.

Record transforms_rewritten (done : producer_list) (log : partials_log) (m : gmap string PTransformNode) : Prop := {
  tr_transform id t' : m !! id = Some t' →
    ∃ t dups p, (TransformProducer t, dups) ∈ done ∧ ptn_id t = id ∧ log !! inr id = Some p ∧ t' = update_node p t;
  tr_done t dups : (TransformProducer t, dups) ∈ done → is_Some (m !! ptn_id t);
}.

Record rewritten (done : producer_list) (log : partials_log) (minted0 minted : nat) (s : DedupState) : Prop := {
  rw_registered : registered log s;
  rw_logged : logged done log;
  rw_stages : stages_rewritten done log minted0 minted (ds_stages s);
  rw_transforms : transforms_rewritten done log (ds_transforms s);
}.

Lemma elem_of_snoc {A} (l : list A) x y : x ∈ l ++ [y] ↔ x ∈ l ∨ x = y.
Proof. by rewrite elem_of_app, list_elem_of_singleton. Qed.

Lemma log_mono (log : partials_log) k p k' p' : log !! k = None → log !! k' = Some p' → <[k := p]> log !! k' = Some p'.
Proof. intros Hn E. by rewrite lookup_insert_ne by congruence. Qed.

Lemma logged_step done log prod dups p :
  logged done log → dom p = list_to_set (pcn_id <$> dups) →
  logged (done ++ [(prod, dups)]) (<[producer_key prod := p]> log).
Proof.
  intros [L1 L2] Hdom. constructor.
  - intros k p' [[<- <-]|[_ E]]%lookup_insert_Some.
    + exists prod, dups. rewrite elem_of_snoc. auto.
    + destruct (L1 k p' E) as (prod' & dups' & ? & ? & ?). exists prod', dups'. rewrite elem_of_snoc. auto.
  - intros prod' dups' [Hin|[= -> ->]]%elem_of_snoc; apply lookup_insert_is_Some'; [right; by eapply L2|by left].
Qed.

Lemma stages_rewritten_mono done done' log log' minted0 minted m :
  stages_rewritten done log minted0 minted m → (∀ k p, log !! k = Some p → log' !! k = Some p) →
  (∀ st dups, (StageProducer st, dups) ∈ done ↔ (StageProducer st, dups) ∈ done') →
  stages_rewritten done' log' minted0 minted m.
Proof.
  intros [S1 S2 S3] Hlog Hd. constructor; [|by intros st dups ?%Hd; eapply S2|done].
  intros id st' E. destruct (S1 id st' E) as (st & dups & p & k & Hin%Hd & ? & Hp%Hlog & ? & ? & ?). by exists st, dups, p, k.
Qed.

Lemma transforms_rewritten_mono done done' log log' m :
  transforms_rewritten done log m → (∀ k p, log !! k = Some p → log' !! k = Some p) →
  (∀ t dups, (TransformProducer t, dups) ∈ done ↔ (TransformProducer t, dups) ∈ done') →
  transforms_rewritten done' log' m.
Proof.
  intros [S1 S2] Hlog Hd. constructor; [|by intros st dups ?%Hd; eapply S2].
  intros id st' E. destruct (S1 id st' E) as (st & dups & p & Hin%Hd & ? & Hp%Hlog & ?). by exists st, dups, p.
Qed.

Lemma stages_rewritten_step done log minted0 minted m st dups p st' :
  stages_rewritten done log minted0 minted m → minted0 ≤ minted → log !! inl (stage_id st) = None →
  renamed_stage p st st' → stage_id st' = new_v4 minted →
  stages_rewritten (done ++ [(StageProducer st, dups)]) (<[inl (stage_id st) := p]> log) minted0 (S minted)
    (<[stage_id st := st']> m).
Proof.
  intros [S1 S2 S3] Hm Hk Hren Hid.
  assert (Hnew : ∀ a sa, m !! a = Some sa → stage_id sa ≠ stage_id st').
  { intros a sa Ea. destruct (S1 a sa Ea) as (? & ? & ? & k & _ & _ & _ & _ & ? & ->). rewrite Hid. intros E%(inj new_v4). lia. }
  constructor.
  - intros id st1 [[<- <-]|[_ E1]]%lookup_insert_Some.
    + exists st, dups, p, minted. rewrite elem_of_snoc, lookup_insert_eq. split_and!; auto.
    + destruct (S1 id st1 E1) as (st0 & dups0 & p0 & k0 & ? & ? & ? & ? & [? ?] & ?). exists st0, dups0, p0, k0.
      rewrite elem_of_snoc. split_and!; auto using log_mono.
  - intros st1 dups1 [Hin|[= -> ->]]%elem_of_snoc; apply lookup_insert_is_Some'; [right; by eapply S2|by left].
  - intros a b sa sb [[<- <-]|[? Ea]]%lookup_insert_Some [[<- <-]|[? Eb]]%lookup_insert_Some Eids; [done| | |by eapply S3].
    + by destruct (Hnew b sb Eb).
    + by destruct (Hnew a sa Ea).
Qed.

Lemma transforms_rewritten_step done log m t dups p :
  transforms_rewritten done log m → log !! inr (ptn_id t) = None →
  transforms_rewritten (done ++ [(TransformProducer t, dups)]) (<[inr (ptn_id t) := p]> log) (<[ptn_id t := update_node p t]> m).
Proof.
  intros [S1 S2] Hk. constructor.
  - intros id t' [[<- <-]|[_ E1]]%lookup_insert_Some.
    + exists t, dups, p. rewrite elem_of_snoc, lookup_insert_eq. auto.
    + destruct (S1 id t' E1) as (t0 & dups0 & p0 & ? & ? & ? & ?). exists t0, dups0, p0.
      rewrite elem_of_snoc. split_and!; auto using log_mono.
  - intros t1 dups1 [Hin|[= -> ->]]%elem_of_snoc; apply lookup_insert_is_Some'; [right; by eapply S2|by left].
Qed.

Lemma rewrite_producer_ok done log minted0 minted s prod dups :
  rewritten done log minted0 minted s → minted0 ≤ minted → log !! producer_key prod = None → NoDup (pcn_id <$> dups) →
  match prod with StageProducer st => stage_ok st | TransformProducer _ => True end →
  ∃ s' p minted', rewrite_producer new_v4 s prod dups minted = Ok (s', minted') ∧ minted0 ≤ minted'
    ∧ rewritten (done ++ [(prod, dups)]) (<[producer_key prod := p]> log) minted0 minted' s'.
Proof.
  intros [R1 R2 R3 R4] Hm Hk Hnd Hst.
  assert (Hsub : dom (pcollections comps0) ⊆ dom (pcollections (ds_components s))).
  { intros i Hi. apply (rg_pcols _ _ R1). by left. }
  destruct prod as [st|t].
  - destruct (deduplicate_stage_ok st dups (ds_components s) minted Hst Hnd Hsub) as (st' & p & E & Hdom & Hf & Hren & Hid).
    eexists _, p, (S minted). unfold rewrite_producer. rewrite (minting_bind_ok _ _ _ _ _ E).
    split; [done|]. split; [lia|]. constructor; cbn [ds_stages ds_transforms register_partials].
    + eapply registered_ext; [| |by apply (registered_step _ _ _ _ R1 Hk Hf)]; done.
    + by apply logged_step.
    + by apply stages_rewritten_step.
    + eapply transforms_rewritten_mono; [exact R4|intros; by apply log_mono|]. intros. rewrite elem_of_snoc. naive_solver.
  - destruct (create_partials_ok dups (ds_components s) Hnd) as (p & E & Hdom & Hf).
    assert (Ed : deduplicate_transform t dups (ds_components s) = Ok (update_node p t, p)).
    { unfold deduplicate_transform. by rewrite E. }
    eexists _, p, minted. unfold rewrite_producer. rewrite (lift_minting_bind _ _ _ _ Ed).
    split; [done|]. split; [lia|]. constructor; cbn [ds_stages ds_transforms register_partials].
    + eapply registered_ext; [| |by apply (registered_step _ _ _ _ R1 Hk Hf)]; done.
    + by apply logged_step.
    + eapply stages_rewritten_mono; [exact R3|intros; by apply log_mono|]. intros. rewrite elem_of_snoc. naive_solver.
    + by apply transforms_rewritten_step.
Qed.

Lemma rewrite_producers_ok l done log minted0 minted s :
  rewritten done log minted0 minted s → minted0 ≤ minted → NoDup (producer_key <$> l.*1) →
  (∀ k, k ∈ producer_key <$> l.*1 → log !! k = None) →
  (∀ prod dups, (prod, dups) ∈ l → NoDup (pcn_id <$> dups)
     ∧ match prod with StageProducer st => stage_ok st | TransformProducer _ => True end) →
  ∃ s' log' minted', rewrite_producers new_v4 l s minted = Ok (s', minted') ∧ minted0 ≤ minted'
    ∧ rewritten (done ++ l) log' minted0 minted' s'.
Proof.
  revert done log minted s. induction l as [|[prod dups] l IH]; intros dn log minted s R Hm Hnd Hlog Hl; simpl.
  { exists s, log, minted. rewrite app_nil_r. done. }
  csimpl in *. apply NoDup_cons in Hnd as [Hn Hnd]. destruct (Hl prod dups ltac:(by left)) as [Hd Hst].
  destruct (rewrite_producer_ok dn log minted0 minted s prod dups R Hm ltac:(apply Hlog; by left) Hd Hst)
    as (s1 & p & minted1 & E & Hm1 & R1).
  rewrite (minting_bind_ok _ _ _ _ _ E).
  destruct (IH (dn ++ [(prod, dups)]) (<[producer_key prod := p]> log) minted1 s1 R1 Hm1 Hnd) as (s' & log' & minted' & E' & Hm' & R').
  - intros k Hin. rewrite lookup_insert_ne by (intros <-; done). apply Hlog. by right.
  - intros; apply Hl. by right.
  - exists s', log', minted'. by rewrite <- app_assoc in R'.
Qed.
End rewriting.
