(* ===== verification/FusionOutcome.v ===== *)
(** What a fused pipeline holds: one producer per PCollection after the deduplication, and
    the stages and transforms of the pipeline that fusion makes. *)
From stdpp Require Import pretty.
From S2P Require Import Prelude Bytes CoderGraph Pipeline StageFuserSpec StageFuser PipelineFuser PipelineFuserSpec.
From S2P Require Import FusionLoopSpec Dedup DedupLoopSpec.
Set Warnings "-clear-no-such-hyp".
Local Open Scope string_scope.
Local Open Scope list_scope.

(** * Flattens *)

Lemma flatten_inputs id c parts x :
  (∃ name, pt_inputs (create_flatten_of_partials id c parts) !! name = Some x) ↔ x ∈ pcn_id <$> parts.
Proof.
  simpl. set (l := imap _ parts).
  assert (Hl : ∀ i, l !! i = (λ n, ("input_" +:+ pretty i, pcn_id n)) <$> parts !! i) by (intros; apply list_lookup_imap).
  assert (Hnd : NoDup l.*1).
  { apply NoDup_alt. intros i j k Hi Hj. rewrite list_lookup_fmap, Hl in Hi. rewrite list_lookup_fmap, Hl in Hj.
    destruct (parts !! i), (parts !! j); simpl in *; try done. rewrite <- Hi in Hj. injection Hj as Hj.
    symmetry. by apply (inj (@pretty nat _)). }
  split.
  - intros [name E%elem_of_list_to_map_2]. apply list_elem_of_lookup in E as [i Hi]. rewrite Hl in Hi.
    destruct (parts !! i) as [n|] eqn:En; [|done]. injection Hi as <- <-. apply list_elem_of_fmap_2. by eapply list_elem_of_lookup_2.
  - intros (n & -> & [i Hi]%list_elem_of_lookup)%list_elem_of_fmap. exists ("input_" +:+ pretty i).
    apply elem_of_list_to_map_1; [done|]. apply list_elem_of_lookup. exists i. by rewrite Hl, Hi.
Qed.

Lemma introduce_flattens_ok l comps introduced :
  NoDup (ptn_id <$> introduced) → (∀ i, i ∈ ptn_id <$> introduced → i ∈ dom (transforms comps)) →
  ∃ comps' new, introduce_flattens l comps introduced = Ok (comps', introduced ++ new)
    ∧ pcollections comps' = pcollections comps ∧ transforms comps ⊆ transforms comps'
    ∧ Forall2 (λ e t, ptn_transform t = create_flatten_of_partials (ptn_id t) e.1 e.2) l new
    ∧ NoDup (ptn_id <$> introduced ++ new) ∧ (∀ i, i ∈ ptn_id <$> new → i ∉ dom (transforms comps)).
Proof.
  revert comps introduced. induction l as [|[c parts] l IH]; intros comps introduced Hnd Hin; simpl.
  { exists comps, []. rewrite app_nil_r. split_and!; [done|done|done|constructor|done|by intros i ?%elem_of_nil]. }
  destruct (unique_id_ok "unzipped_flatten" (dom (transforms comps))) as (id & -> & Hid). cbn [mbind outcome_bind].
  set (t := mkPTransformNode id (create_flatten_of_partials id c parts)).
  rewrite (index_insert_fresh ptn_id) by (intros Hi; by apply Hid, Hin).
  edestruct (IH (with_transforms comps (<[id := ptn_transform t]> (transforms comps)) (pcollections comps)) (introduced ++ [t]))
    as (comps' & new & E & Hp & Hsub & Hf & Hnd' & Hnew).
  - rewrite fmap_app. apply NoDup_app. split_and!; [done| |apply NoDup_singleton]. csimpl. intros x Hx ->%list_elem_of_singleton.
    by apply Hid, Hin.
  - intros i Hi. simpl. rewrite dom_insert. rewrite fmap_app in Hi.
    apply elem_of_app in Hi as [Hi|Hi%list_elem_of_singleton]; [|set_solver]. apply elem_of_union. right. by apply Hin.
  - simpl in *. exists comps', (t :: new). rewrite <- app_assoc in E, Hnd'. split_and!; [exact E|done| |by constructor|done|].
    + etransitivity; [|exact Hsub]. apply insert_subseteq, not_elem_of_dom, Hid.
    + csimpl. intros i [->|Hi]%elem_of_cons; [done|]. specialize (Hnew i Hi). rewrite dom_insert in Hnew. set_solver.
Qed.

Section outcome.
Context `{HashIterLaws, PayloadDecoder} (new_v4 : nat → string) `{!Inj (=) (=) new_v4} (q : QueryablePipeline)
  (stages : list ExecutableStage) (unfused : list PTransformNode).

(** The PCollection [c] under the name the producer [k] gives it. *)
Definition part (log : gmap (string + string) partials) (k : string + string) (c : string) : string :=
  default c (pcn_id <$> (log !! k ≫= (.!! c))).

Definition final_stage (d : DeduplicationResult) (st : ExecutableStage) : ExecutableStage :=
  default st (deduplicated_stages d !! stage_id st).
Definition final_transform (d : DeduplicationResult) (t : PTransformNode) : PTransformNode :=
  default t (deduplicated_transforms d !! ptn_id t).

(** A transform whose outputs are renamed by [f], its inputs aside. *)
Definition redirected (f : string → string) (t t' : PTransformNode) : Prop :=
  ptn_id t' = ptn_id t ∧ pt_spec (ptn_transform t') = pt_spec (ptn_transform t)
  ∧ pt_outputs (ptn_transform t') = f <$> pt_outputs (ptn_transform t).

(** [name k c]: the id under which [k] produces what was [c]. *)
Record deduplicated (name : string + string → string → string) (minted : nat) (d : DeduplicationResult) : Prop := {
  dd_keep k c : ¬ contested q stages unfused c → name k c = c;
  dd_fresh p n : produces_node q stages unfused p n → contested q stages unfused (pcn_id n) →
    name (producer_key p) (pcn_id n) ∉ dom (pcollections (qp_components q));
  dd_known p n : produces_node q stages unfused p n → contested q stages unfused (pcn_id n) →
    name (producer_key p) (pcn_id n) ∈ dom (pcollections (dedup_components d));
  dd_inj p p' n n' : produces_node q stages unfused p n → produces_node q stages unfused p' n' →
    contested q stages unfused (pcn_id n) → contested q stages unfused (pcn_id n') →
    name (producer_key p) (pcn_id n) = name (producer_key p') (pcn_id n') → producer_key p = producer_key p' ∧ pcn_id n = pcn_id n';
  dd_stage st : st ∈ stages →
    pcn_id <$> stage_output_pcols (final_stage d st) = name (inl (stage_id st)) <$> (pcn_id <$> stage_output_pcols st)
    ∧ NoDup (ptn_id <$> stage_transforms (final_stage d st))
    ∧ stage_input_pcol (final_stage d st) = stage_input_pcol st
    ∧ Forall2 (redirected (name (inl (stage_id st)))) (stage_transforms st) (stage_transforms (final_stage d st))
    ∧ ∃ k, (k < minted)%nat ∧ stage_id (final_stage d st) = new_v4 k;
  dd_stage_ids st st' : st ∈ stages → st' ∈ stages → stage_id (final_stage d st) = stage_id (final_stage d st') → st = st';
  dd_transform t : t ∈ unfused →
    ptn_id (final_transform d t) = ptn_id t
    ∧ pt_inputs (ptn_transform (final_transform d t)) = pt_inputs (ptn_transform t)
    ∧ pt_spec (ptn_transform (final_transform d t)) = pt_spec (ptn_transform t)
    ∧ pt_outputs (ptn_transform (final_transform d t)) = name (inr (ptn_id t)) <$> pt_outputs (ptn_transform t);
  dd_flatten t : t ∈ introduced_transforms d → ∃ c, contested q stages unfused c
    ∧ get_urn t = FLATTEN_TRANSFORM ∧ pt_outputs (ptn_transform t) = {["output" := c]}
    ∧ ∀ x, (∃ i, pt_inputs (ptn_transform t) !! i = Some x)
           ↔ ∃ p n, produces_node q stages unfused p n ∧ pcn_id n = c ∧ x = name (producer_key p) c;
  dd_contested c : contested q stages unfused c →
    ∃ t, t ∈ introduced_transforms d ∧ pt_outputs (ptn_transform t) = {["output" := c]};
  dd_one t t' : t ∈ introduced_transforms d → t' ∈ introduced_transforms d →
    pt_outputs (ptn_transform t) = pt_outputs (ptn_transform t') → t = t';
  dd_ids : NoDup (ptn_id <$> introduced_transforms d)
    ∧ ∀ i, i ∈ ptn_id <$> introduced_transforms d → i ∉ dom (transforms (qp_components q));
}.

Definition minted_below (n : nat) (st : ExecutableStage) : Prop := ∃ k, (k < n)%nat ∧ stage_id st = new_v4 k.

Record cut_ok (minted : nat) : Prop := {
  ct_producers : producers_ok q stages unfused;
  ct_stages st : st ∈ stages → stage_ok (qp_components q) st ∧ minted_below minted st;
}.

Section log.
Context minted0 minted s log (Hcut : cut_ok minted0)
  (R : rewritten new_v4 (qp_components q) (required q stages unfused) log minted0 minted s).

Let Hok := ct_producers _ Hcut.

(** A partial belongs to a producer of a contested PCollection, and to no other. *)
Lemma log_entry k p c x :
  log !! k = Some p → p !! c = Some x →
  ∃ prod n, producer_key prod = k ∧ produces_node q stages unfused prod n ∧ pcn_id n = c ∧ contested q stages unfused c.
Proof.
  intros Ek Ex. destruct (lg_log _ _ (rw_logged _ _ _ _ _ _ _ R) k p Ek) as (prod & dups & Hin & Hkey & Hdom).
  destruct (required_spec q stages unfused Hok prod dups Hin) as (_ & _ & Hd).
  assert (c ∈ dom p) as Hc by (apply elem_of_dom; by eexists). rewrite Hdom, elem_of_list_to_set in Hc.
  apply list_elem_of_fmap in Hc as (n & -> & Hn). apply Hd in Hn as [? ?]. by exists prod, n.
Qed.

Lemma log_contested prod n :
  produces_node q stages unfused prod n → contested q stages unfused (pcn_id n) →
  ∃ p x, log !! producer_key prod = Some p ∧ p !! pcn_id n = Some x ∧ part log (producer_key prod) (pcn_id n) = pcn_id x.
Proof.
  intros Hp Hc. destruct (require_outputs_total q stages unfused Hok prod n Hp Hc) as [dups E].
  pose proof (proj2 (elem_of_required q stages unfused Hok prod dups) E) as Hin.
  destruct (lg_done _ _ (rw_logged _ _ _ _ _ _ _ R) prod dups Hin) as [p Ep].
  destruct (lg_log _ _ (rw_logged _ _ _ _ _ _ _ R) _ p Ep) as (prod' & dups' & Hin' & Hkey & Hdom).
  apply (elem_of_required q stages unfused Hok) in Hin'. rewrite Hkey, E in Hin'. injection Hin' as <- <-.
  assert (pcn_id n ∈ dom p) as [x Ex]%elem_of_dom.
  { rewrite Hdom. apply elem_of_list_to_set, list_elem_of_fmap_2.
    destruct (required_spec q stages unfused Hok prod dups Hin) as (_ & _ & Hd). by apply Hd. }
  exists p, x. split_and!; [done|done|]. unfold part. rewrite Ep. simpl. by rewrite Ex.
Qed.

Lemma part_keep k c : ¬ contested q stages unfused c → part log k c = c.
Proof.
  intros Hc. unfold part. destruct (log !! k) as [p|] eqn:Ek; simpl; [|done]. destruct (p !! c) as [x|] eqn:Ex; simpl; [|done].
  destruct (log_entry k p c x Ek Ex) as (? & ? & _ & _ & _ & ?). done.
Qed.

(** ** Stages and transforms *)

Lemma rewritten_stage st : st ∈ stages →
  match ds_stages s !! stage_id st with
  | Some st' => ∃ p k, log !! inl (stage_id st) = Some p ∧ renamed_stage p st st' ∧ (minted0 ≤ k < minted)%nat ∧ stage_id st' = new_v4 k
  | None => log !! inl (stage_id st) = None
  end.
Proof.
  intros Hst. destruct (ds_stages s !! stage_id st) as [st'|] eqn:E.
  - destruct (sr_stage _ _ _ _ _ _ (rw_stages _ _ _ _ _ _ _ R) _ _ E) as (st0 & dups & p & k & Hin & Eid & Ep & Hren & Hk & Ek).
    exists p, k. split_and!; [done| |lia|lia|done].
    destruct (required_spec q stages unfused Hok _ _ Hin) as (_ & (c & cs & Hcs & _) & _).
    destruct (producer_outputs_unique q stages unfused Hok (StageProducer st0) (StageProducer st) cs (stage_output_pcols st))
      as [[= ->] _]; [done|by apply elem_of_stage_outputs|simpl; by rewrite Eid|done].
  - apply eq_None_not_Some. intros [p Ep].
    destruct (lg_log _ _ (rw_logged _ _ _ _ _ _ _ R) _ p Ep) as (prod & dups & Hin & Hkey & _).
    destruct prod as [st0|t]; [|done]. injection Hkey as Hkey.
    destruct (sr_done _ _ _ _ _ _ (rw_stages _ _ _ _ _ _ _ R) _ _ Hin) as [st' E']. rewrite Hkey in E'. congruence.
Qed.

Lemma rewritten_transform t : t ∈ unfused →
  match ds_transforms s !! ptn_id t with
  | Some t' => ∃ p, log !! inr (ptn_id t) = Some p ∧ t' = update_node p t
  | None => log !! inr (ptn_id t) = None
  end.
Proof.
  intros Ht. destruct (ds_transforms s !! ptn_id t) as [t'|] eqn:E.
  - destruct (tr_transform _ _ _ (rw_transforms _ _ _ _ _ _ _ R) _ _ E) as (t0 & dups & p & Hin & Eid & Ep & ->).
    exists p. split; [done|].
    destruct (required_spec q stages unfused Hok _ _ Hin) as (_ & (c & cs & Hcs & _) & _).
    destruct (producer_outputs_unique q stages unfused Hok (TransformProducer t0) (TransformProducer t) cs (outputs q t))
      as [[= ->] _]; [done|by apply elem_of_transform_outputs|simpl; by rewrite Eid|done].
  - apply eq_None_not_Some. intros [p Ep].
    destruct (lg_log _ _ (rw_logged _ _ _ _ _ _ _ R) _ p Ep) as (prod & dups & Hin & Hkey & _).
    destruct prod as [st0|t0]; [done|]. injection Hkey as Hkey.
    destruct (tr_done _ _ _ (rw_transforms _ _ _ _ _ _ _ R) _ _ Hin) as [t' E']. rewrite Hkey in E'. congruence.
Qed.

Lemma stage_outcome st st' p :
  log !! inl (stage_id st) = Some p → renamed_stage p st st' →
  pcn_id <$> stage_output_pcols st' = part log (inl (stage_id st)) <$> (pcn_id <$> stage_output_pcols st).
Proof.
  intros Ep [-> _ _ _ _]. rewrite <- !list_fmap_compose. apply list_fmap_ext. intros i c _. simpl. unfold part. rewrite Ep. simpl.
  by destruct (p !! pcn_id c).
Qed.

Lemma part_none k : log !! k = None → ∀ c, part log k c = c.
Proof. intros E c. unfold part. by rewrite E. Qed.

(** The outputs of a transform under the names the producer [k] gives them. *)
Lemma redirected_part k p t : log !! k = Some p → redirected (part log k) t (update_node p t).
Proof.
  intros Ep. split_and!; [done|done|]. simpl. apply map_fmap_ext. intros i c _. unfold part. rewrite Ep. simpl. by destruct (p !! c).
Qed.

Lemma redirected_none k t : log !! k = None → redirected (part log k) t t.
Proof.
  intros Ek. split_and!; [done|done|]. rewrite <- (map_fmap_id (pt_outputs _)) at 1. apply map_fmap_ext. intros i c _. by rewrite part_none.
Qed.

(** ** Flattens *)

Context comps' new (Hpc : pcollections comps' = pcollections (ds_components s))
  (Hnew : Forall2 (λ e t, ptn_transform t = create_flatten_of_partials (ptn_id t) e.1 e.2) (map_iter (ds_partials s)) new).

Lemma partials_contested c l : ds_partials s !! c = Some l → contested q stages unfused c.
Proof.
  intros E. pose proof (rg_some _ _ _ (rw_registered _ _ _ _ _ _ _ R) c l E) as Hne. destruct l as [|x l]; [done|].
  destruct (proj1 (rg_partials _ _ _ (rw_registered _ _ _ _ _ _ _ R) c x)) as (k & p & Ek & Ex).
  { exists (x :: l). split; [done|by left]. }
  by destruct (log_entry k p c x Ek Ex) as (? & ? & _ & _ & _ & ?).
Qed.

Lemma flatten_outcome t :
  t ∈ new → ∃ c, contested q stages unfused c ∧ get_urn t = FLATTEN_TRANSFORM
    ∧ pt_outputs (ptn_transform t) = {["output" := c]}
    ∧ ∀ x, (∃ i, pt_inputs (ptn_transform t) !! i = Some x)
           ↔ ∃ p n, produces_node q stages unfused p n ∧ pcn_id n = c ∧ x = part log (producer_key p) c.
Proof.
  intros Ht. apply list_elem_of_lookup in Ht as [i Hi]. destruct (Forall2_lookup_r _ _ _ _ _ Hnew Hi) as ([c l] & He & Et).
  simpl in Et. apply list_elem_of_lookup_2 in He. rewrite map_iter_perm in He. apply elem_of_map_to_list in He.
  pose proof (partials_contested c l He) as Hc. exists c. unfold get_urn. rewrite Et.
  split_and!; [done|done|done|]. intros x. rewrite flatten_inputs, list_elem_of_fmap.
  assert (Hl : ∀ y, y ∈ l ↔ ∃ k p, log !! k = Some p ∧ p !! c = Some y).
  { intros y. rewrite <- (rg_partials _ _ _ (rw_registered _ _ _ _ _ _ _ R)). split; [by exists l|].
    intros (l' & E & ?). by simplify_eq. }
  split.
  - intros (y & -> & (k & p & Ek & Ey)%Hl). destruct (log_entry k p c y Ek Ey) as (prod & n & <- & Hpn & En & _).
    exists prod, n. split_and!; [done|done|]. unfold part. rewrite Ek. simpl. by rewrite Ey.
  - intros (prod & n & Hpn & <- & ->). destruct (log_contested prod n Hpn Hc) as (p & y & Ek & Ey & ->).
    exists y. split; [done|]. apply Hl. by exists (producer_key prod), p.
Qed.

Lemma flatten_for c : contested q stages unfused c → ∃ t, t ∈ new ∧ pt_outputs (ptn_transform t) = {["output" := c]}.
Proof.
  intros Hc. pose proof Hc as (prod & _ & n & _ & Hpn & _ & _ & <- & _).
  destruct (log_contested prod n Hpn Hc) as (p & y & Ek & Ey & _).
  destruct (proj2 (rg_partials _ _ _ (rw_registered _ _ _ _ _ _ _ R) (pcn_id n) y)) as (l & El & _); [by exists (producer_key prod), p|].
  assert ((pcn_id n, l) ∈ map_iter (ds_partials s)) as [i Hi]%list_elem_of_lookup.
  { rewrite map_iter_perm. by apply elem_of_map_to_list. }
  destruct (Forall2_lookup_l _ _ _ _ _ Hnew Hi) as (t & Ht & Et). exists t. split; [by eapply list_elem_of_lookup_2|]. by rewrite Et.
Qed.

Lemma flatten_once t t' : t ∈ new → t' ∈ new → pt_outputs (ptn_transform t) = pt_outputs (ptn_transform t') → t = t'.
Proof.
  intros [i Hi]%list_elem_of_lookup [j Hj]%list_elem_of_lookup E.
  destruct (Forall2_lookup_r _ _ _ _ _ Hnew Hi) as ([c l] & He & Et). destruct (Forall2_lookup_r _ _ _ _ _ Hnew Hj) as ([c' l'] & He' & Et').
  rewrite Et, Et' in E. simpl in E. apply (f_equal (.!! "output")) in E. rewrite !lookup_singleton_eq in E. injection E as <-.
  assert (i = j) as <-; [|congruence].
  eapply (NoDup_lookup (map_iter (ds_partials s)).*1).
  - rewrite map_iter_perm. apply NoDup_fst_map_to_list.
  - rewrite list_lookup_fmap, He. done.
  - rewrite list_lookup_fmap, He'. done.
Qed.
End log.

Lemma initial_rewritten minted : rewritten new_v4 (qp_components q) [] ∅ minted minted (mkDedupState (qp_components q) ∅ ∅ ∅).
Proof.
  assert (He : ∀ c x, ¬ ∃ (k : string + string) (p : partials),
    (∅ : gmap (string + string) partials) !! k = Some p ∧ p !! c = Some x).
  { intros c x (k & p & E & _). by rewrite lookup_empty in E. }
  constructor.
  - constructor; simpl; try done.
    + intros i. split; [by left|]. intros [?|(k & p & c & x & E & _)]; [done|]. by rewrite lookup_empty in E.
    + intros c x. split; [|by intros ?%He]. intros (l & E & _). by rewrite lookup_empty in E.
  - constructor; [done|]. by intros ? ? ?%elem_of_nil.
  - constructor; simpl; [done|by intros ? ? ?%elem_of_nil|done].
  - constructor; simpl; [done|by intros ? ? ?%elem_of_nil].
Qed.

Lemma ensure_single_producer_ok minted0 :
  cut_ok minted0 →
  ∃ (name : string + string → string → string) (minted : nat) (d : DeduplicationResult),
    ensure_single_producer new_v4 q stages unfused minted0 = Ok (d, minted)
    ∧ (minted0 ≤ minted)%nat ∧ deduplicated name minted d.
Proof.
  intros Hcut. pose proof (ct_producers _ Hcut) as Hok.
  destruct (rewrite_producers_ok new_v4 (qp_components q) (required q stages unfused) [] ∅ minted0 minted0 _ (initial_rewritten minted0))
    as (s & log & minted & E & Hm & R); [done|by apply required_keys|done| |].
  { intros prod dups Hin. destruct (required_spec q stages unfused Hok prod dups Hin) as (? & (c & cs & Hcs & _) & _).
    split; [done|]. destruct prod as [st|]; [|done]. apply elem_of_stage_outputs in Hcs as [Hst _]. by apply (ct_stages _ Hcut). }
  simpl in R. destruct (introduce_flattens_ok (map_iter (ds_partials s)) (ds_components s) []) as (comps' & new & Ef & Hpc & _ & Hnew & Hnd & Hids);
    [constructor|by intros i ?%elem_of_nil|].
  exists (part log), minted, (mkDedup comps' ([] ++ new) (ds_stages s) (ds_transforms s)). split; [|split; [done|]].
  { unfold ensure_single_producer. fold (required q stages unfused).
    rewrite (minting_bind_ok _ _ _ _ _ E), (lift_minting_bind _ _ _ _ Ef). done. }
  simpl in *. assert (Rg := rw_registered _ _ _ _ _ _ _ R).
  constructor; simpl.
  - intros k c. by eapply part_keep.
  - intros prod n Hp Hc. destruct (log_contested _ _ _ _ Hcut R prod n Hp Hc) as (p & x & Ek & Ex & ->). by eapply rg_fresh.
  - intros prod n Hp Hc. destruct (log_contested _ _ _ _ Hcut R prod n Hp Hc) as (p & x & Ek & Ex & ->). rewrite Hpc.
    apply (rg_pcols _ _ _ Rg). right. by exists (producer_key prod), p, (pcn_id n), x.
  - intros prod prod' n n' Hp Hp' Hc Hc'. destruct (log_contested _ _ _ _ Hcut R prod n Hp Hc) as (p & x & Ek & Ex & ->).
    destruct (log_contested _ _ _ _ Hcut R prod' n' Hp' Hc') as (p' & x' & Ek' & Ex' & ->). by eapply (rg_inj _ _ _ Rg).
  - intros st Hst. unfold final_stage. simpl. destruct (ct_stages _ Hcut st Hst) as [[_ _ Hts] (k0 & Hk0 & Ek0)].
    pose proof (rewritten_stage _ _ _ _ Hcut R st Hst) as Hs. destruct (ds_stages s !! stage_id st) as [st'|]; simpl.
    + destruct Hs as (p & k & Ep & Hren & Hk & Eid). split_and!; [by eapply stage_outcome| |by apply Hren| |exists k; split; [lia|done]].
      * destruct Hren as [_ -> _ _ _]. by rewrite <- list_fmap_compose.
      * destruct Hren as [_ -> _ _ _]. apply Forall2_fmap_r, Forall_Forall2_diag, Forall_forall. intros t _. by apply redirected_part.
    + split_and!; [|done|done|apply Forall_Forall2_diag, Forall_forall; intros t _; by apply redirected_none|exists k0; split; [lia|done]].
      rewrite <- (list_fmap_id (pcn_id <$> _)) at 1. apply list_fmap_ext. intros i c _. by rewrite (part_none log _ Hs).
  - intros st st1 Hst Hst1. unfold final_stage. simpl.
    pose proof (rewritten_stage _ _ _ _ Hcut R st Hst) as Hs. pose proof (rewritten_stage _ _ _ _ Hcut R st1 Hst1) as Hs1.
    destruct (ct_stages _ Hcut st Hst) as [_ (k0 & Hk0 & Ek0)]. destruct (ct_stages _ Hcut st1 Hst1) as [_ (k1 & Hk1 & Ek1)].
    assert (Hsame : stage_id st = stage_id st1 → st = st1).
    { intros Eid. destruct (producer_outputs_unique q stages unfused Hok (StageProducer st) (StageProducer st1)
        (stage_output_pcols st) (stage_output_pcols st1)) as [[= ->] _]; [by apply elem_of_stage_outputs..|simpl; by rewrite Eid|done]. }
    intros Eids. apply Hsame.
    destruct (ds_stages s !! stage_id st) as [st'|] eqn:E1, (ds_stages s !! stage_id st1) as [st1'|] eqn:E2; simpl in Eids; [| | |done].
    + by eapply (sr_ids _ _ _ _ _ _ (rw_stages _ _ _ _ _ _ _ R)).
    + destruct Hs as (p & k & _ & _ & Hk & Eid). rewrite Eid, Ek1 in Eids. apply (inj new_v4) in Eids. lia.
    + destruct Hs1 as (p & k & _ & _ & Hk & Eid). rewrite Eid, Ek0 in Eids. apply (inj new_v4) in Eids. lia.
  - intros t Ht. unfold final_transform. simpl. pose proof (rewritten_transform _ _ _ _ Hcut R t Ht) as Hs.
    destruct (ds_transforms s !! ptn_id t) as [t'|]; simpl.
    + destruct Hs as (p & Ep & ->). destruct (redirected_part log _ p t Ep) as (? & ? & ?). by split_and!.
    + destruct (redirected_none log _ t Hs) as (? & ? & ?). by split_and!.
  - intros t. by eapply flatten_outcome.
  - intros c. by eapply flatten_for.
  - intros t t'. by eapply flatten_once.
  - split; [done|]. by rewrite (rg_transforms _ _ _ Rg) in Hids.
Qed.
End outcome.

Local Open Scope nat_scope.
Local Open Scope list_scope.

Section outcome.
Context `{HashIterLaws, PayloadDecoder} (new_v4 : nat → string) `{!Inj (=) (=) new_v4}.

(** * Sanitising all stages *)

Definition same_or_minted (lo hi : nat) (s s' : ExecutableStage) : Prop :=
  stage_id s' = stage_id s ∨ ∃ k, lo ≤ k < hi ∧ stage_id s' = new_v4 k.

Lemma sanitize_stages_ok l n :
  NoDup (stage_id <$> l) → Forall (minted_below new_v4 n) l → Forall (λ s, NoDup (ptn_id <$> stage_transforms s)) l →
  ∃ l' n', sanitize_stages new_v4 l n = Ok (l', n') ∧ n ≤ n'
    ∧ Forall2 (λ s s', sanitized s s' ∧ same_or_minted n n' s s') l l' ∧ NoDup (stage_id <$> l').
Proof.
  revert n. induction l as [|s l IH]; intros n Hnd Hm Ht; simpl; [exists [], n; split_and!; [done|done|constructor..]|].
  csimpl in *. apply NoDup_cons in Hnd as [Hs Hnd]. apply Forall_cons in Hm as [(k & Hk & Ek) Hm]. apply Forall_cons in Ht as [Hts Ht].
  destruct (sanitize_ok new_v4 s n Hts) as (s' & n1 & E1 & Hsan & Hid). rewrite (minting_bind_ok _ _ _ _ _ E1).
  assert (Hn1 : n ≤ n1) by (destruct Hid as [[-> _]|[-> _]]; lia).
  assert (Hm1 : Forall (minted_below new_v4 n1) l).
  { eapply Forall_impl; [exact Hm|]. intros x (j & ? & ?). exists j. split; [lia|done]. }
  destruct (IH n1 Hnd Hm1 Ht) as (l' & n' & E & Hn' & Hf & Hnd'). rewrite (minting_bind_ok _ _ _ _ _ E).
  exists (s' :: l'), n'. split_and!; [done|lia| |].
  - constructor.
    + split; [done|]. unfold same_or_minted. destruct Hid as [[_ ->]|[-> ->]]; [by left|right; exists n; split; [lia|done]].
    + eapply Forall2_impl; [exact Hf|]. intros x y [? [?|(j & ? & ?)]]; (split; [done|]); [by left|right; exists j; split; [lia|done]].
  - csimpl. apply NoDup_cons. split; [|done]. intros (y & Ey & Hy)%list_elem_of_fmap.
    apply list_elem_of_lookup in Hy as [i Hi]. destruct (Forall2_lookup_r _ _ _ _ _ Hf Hi) as (x & Hx & _ & Hxy).
    apply list_elem_of_lookup_2 in Hx. pose proof (proj1 (Forall_forall _ _) Hm x Hx) as (jx & Hjx & Ex).
    destruct Hid as [[-> Eid]|[-> Eid]], Hxy as [Exy|(j & Hj & Exy)].
    + apply Hs. rewrite <- Eid, Ey, Exy. by apply list_elem_of_fmap_2.
    + rewrite Eid, Ek, Exy in Ey. apply (inj new_v4) in Ey. lia.
    + rewrite Eid, Exy, Ex in Ey. apply (inj new_v4) in Ey. lia.
    + rewrite Eid, Exy in Ey. apply (inj new_v4) in Ey. lia.
Qed.

Lemma same_or_minted_below n n' l l' :
  n ≤ n' → Forall (minted_below new_v4 n) l → Forall2 (λ s s', sanitized s s' ∧ same_or_minted n n' s s') l l' →
  Forall (minted_below new_v4 n') l'.
Proof.
  intros Hn Hl Hf. apply Forall_forall. intros s' [i Hi]%list_elem_of_lookup. destruct (Forall2_lookup_r _ _ _ _ _ Hf Hi) as (s & Hs & _ & Hid).
  apply (Forall_lookup_1 _ _ _ _ Hl) in Hs as (k & ? & ?). destruct Hid as [E|(j & ? & E)]; [exists k|exists j]; (split; [lia|congruence]).
Qed.

(** * From the loop to the deduplication *)

Section cut.
Context (comps : Components) (P : string → Prop) (q : QueryablePipeline) (G : graph_of comps P q).

(** Every PCollection a transform outputs is declared. *)
Definition outputs_declared : Prop := ∀ id t c, transforms comps !! id = Some t → writes t c → is_Some (pcollections comps !! c).

Lemma known_in_components c : known_pcol q c → pcn_id c ∈ dom (pcollections (qp_components q)).
Proof. intros Hk. apply (go_pcol _ _ _ G) in Hk as [Hk _]. rewrite (go_comps _ _ _ G). apply elem_of_dom. by eexists. Qed.

Lemma NoDup_pcol_nodes (s : pcol_set) : NoDup (pcn_id <$> pcol_nodes s).
Proof.
  unfold pcol_nodes. rewrite <- list_fmap_compose. rewrite (map_iter_perm s). apply (NoDup_fst_map_to_list s).
Qed.

Lemma stage_of_ok input roots st : stage_of q input roots st → stage_ok (qp_components q) st.
Proof.
  intros Hs. pose proof (stage_outputs_known q _ _ _ Hs) as Hk. destruct Hs as [_ _ _ (fs & D & Hg & Eo & _ & Et & _) _]. constructor.
  - rewrite Eo. pose proof (gr_visited _ _ _ _ _ _ Hg) as Hnd. rewrite fmap_app in Hnd. by apply NoDup_app in Hnd as (_ & _ & ?).
  - intros c (n & -> & Hn)%list_elem_of_fmap. apply known_in_components. by eapply Forall_forall in Hn.
  - rewrite Et, <- list_fmap_compose. exact (gr_nodup _ _ _ _ _ _ Hg).
Qed.

Lemma fused_cut_ok U0 S0 minted gs s :
  fused_so_far new_v4 q U0 S0 minted [] gs s → cut_ok new_v4 q (fuser_stages s) (unfused_pt s) minted.
Proof.
  intros F. pose proof (ff_stages _ _ _ _ _ _ _ _ F) as Hst.
  assert (Hso : ∀ st, st ∈ fuser_stages s → ∃ input roots, stage_of q input roots st).
  { intros st [i Hi]%list_elem_of_lookup. destruct (Forall2_lookup_r _ _ _ _ _ Hst Hi) as (g & _ & _ & Hs). by eexists _, _. }
  constructor.
  - constructor.
    + unfold producer_outputs. rewrite fmap_app, <- !list_fmap_compose. apply NoDup_app. split_and!.
      * rewrite (list_fmap_ext _ (inl ∘ stage_id)) by done. rewrite list_fmap_compose.
        apply NoDup_fmap_2; [by intros ?? [=]|]. exact (ff_ids _ _ _ _ _ _ _ _ F).
      * by intros k (st & -> & _)%list_elem_of_fmap (t & [=] & _)%list_elem_of_fmap.
      * rewrite (list_fmap_ext _ (inr ∘ ptn_id)) by done. rewrite list_fmap_compose.
        apply NoDup_fmap_2; [by intros ?? [=]|]. exact (ff_unfused_once _ _ _ _ _ _ _ _ F).
    + intros p cs Hin. destruct p as [st|t].
      * apply elem_of_stage_outputs in Hin as [Hin ->]. destruct (Hso st Hin) as (i & r & Hs). by eapply stage_outputs_known.
      * apply elem_of_transform_outputs in Hin as [_ ->]. apply outputs_known.
    + intros p cs Hin. destruct p as [st|t].
      * apply elem_of_stage_outputs in Hin as [Hin ->]. destruct (Hso st Hin) as (i & r & Hs). by apply (stage_of_ok _ _ _ Hs).
      * apply elem_of_transform_outputs in Hin as [_ ->]. apply NoDup_pcol_nodes.
  - intros st Hin. destruct (Hso st Hin) as (i & r & Hs). split; [by eapply stage_of_ok|].
    exact (proj1 (Forall_forall _ _) (ff_minted _ _ _ _ _ _ _ _ F) st Hin).
Qed.

(** ** The final stages and transforms *)

Context (Hdecl : outputs_declared) (stages : list ExecutableStage) (unfused : list PTransformNode).

Lemma transform_produces t i c :
  t ∈ unfused → known_transform q t → pt_outputs (ptn_transform t) !! i = Some c →
  ∃ n, produces_node q stages unfused (TransformProducer t) n ∧ pcn_id n = c.
Proof.
  intros Ht Hk Ei. pose proof (proj1 (go_transform _ _ _ G _ _) Hk) as [HP Et].
  destruct (Hdecl _ _ c Et) as [p Ep]; [by exists i|]. exists (mkPCollectionNode c p). split; [|done].
  exists (outputs q t). split; [by apply elem_of_transform_outputs|].
  apply elem_of_pcol_nodes. simpl. apply (get_output_pcol_lookup _ _ _ G). split; [done|]. exists (ptn_transform t).
  split_and!; [done|done|by exists i].
Qed.

Section dedup.
Context minted0 minted name d (Hcut : cut_ok new_v4 q stages unfused minted0)
  (D : deduplicated new_v4 q stages unfused name minted d).

(** A PCollection under the name a producer gives it tells the producer. *)
Lemma name_inj p p' n n' :
  produces_node q stages unfused p n → produces_node q stages unfused p' n' →
  name (producer_key p) (pcn_id n) = name (producer_key p') (pcn_id n') → producer_key p = producer_key p' ∧ pcn_id n = pcn_id n'.
Proof.
  intros Hp Hp' E. pose proof (ct_producers _ _ _ _ _ Hcut) as Hok.
  assert (Hin : ∀ p n, produces_node q stages unfused p n → pcn_id n ∈ dom (pcollections (qp_components q))).
  { intros ? ? Hx. apply known_in_components. by eapply produces_known. }
  destruct (contested_dec q stages unfused Hok (pcn_id n)) as [Hc|Hc],
    (contested_dec q stages unfused Hok (pcn_id n')) as [Hc'|Hc'].
  - by eapply dd_inj.
  - exfalso. eapply (dd_fresh _ _ _ _ _ _ _ D p n); [done|done|]. rewrite E, (dd_keep _ _ _ _ _ _ _ D) by done. by eapply Hin.
  - exfalso. eapply (dd_fresh _ _ _ _ _ _ _ D p' n'); [done|done|]. rewrite <- E, (dd_keep _ _ _ _ _ _ _ D) by done. by eapply Hin.
  - rewrite !(dd_keep _ _ _ _ _ _ _ D) in E by done. split; [|done].
    destruct (decide (producer_key p = producer_key p')) as [|Hne]; [done|]. exfalso. apply Hc.
    exists p, p', n, n'. split_and!; done.
Qed.

(** What is renamed is not the original of what is shared. *)
Lemma name_not_contested p n c :
  produces_node q stages unfused p n → contested q stages unfused c → name (producer_key p) (pcn_id n) ≠ c.
Proof.
  intros Hp Hc E. pose proof (ct_producers _ _ _ _ _ Hcut) as Hok.
  destruct (contested_dec q stages unfused Hok (pcn_id n)) as [Hn|Hn].
  - eapply (dd_fresh _ _ _ _ _ _ _ D p n); [done|done|]. rewrite E. destruct Hc as (p1 & _ & n1 & _ & Hp1 & _ & _ & <- & _).
    apply known_in_components. eapply produces_known; [exact (ct_producers _ _ _ _ _ Hcut)|done].
  - rewrite (dd_keep _ _ _ _ _ _ _ D) in E by done. by subst.
Qed.
End dedup.
End cut.

(** * The fused pipeline *)

(** Who produces a PCollection in the fused pipeline. *)
Definition fused_produces (fp : FusedPipeline) (p : StageOrTransform) (c : string) : Prop :=
  match p with
  | StageProducer s => s ∈ sdk_stages fp ∧ c ∈ pcn_id <$> stage_output_pcols s
  | TransformProducer t => t ∈ runner_stages fp ∧ ∃ i, pt_outputs (ptn_transform t) !! i = Some c
  end.

Section fused.
Context (comps : Components) (P : string → Prop) (q : QueryablePipeline) (G : graph_of comps P q) (Hdecl : outputs_declared comps).
Context (stages : list ExecutableStage) (unfused : list PTransformNode) (Hknown : Forall (known_transform q) unfused).
Context minted0 minted name d (Hcut : cut_ok new_v4 q stages unfused minted0)
  (D : deduplicated new_v4 q stages unfused name minted d).

Lemma final_stage_ids : NoDup (stage_id <$> (final_stage d <$> stages)).
Proof.
  assert (Hnd : NoDup stages).
  { pose proof (po_keys _ _ _ (ct_producers _ _ _ _ _ Hcut)) as Hk. unfold producer_outputs in Hk.
    rewrite fmap_app, <- !list_fmap_compose in Hk. apply NoDup_app in Hk as (Hk & _). by eapply NoDup_fmap_1. }
  rewrite <- list_fmap_compose. apply NoDup_fmap_2_strong; [|done]. intros a b Ha Hb. by eapply dd_stage_ids.
Qed.

Lemma final_stages_ok :
  ∃ l n', get_sdk_stages new_v4 d stages minted = Ok (l, n')
    ∧ Forall2 (λ st s', sanitized (final_stage d st) s') stages l ∧ NoDup (stage_id <$> l) ∧ Forall (minted_below new_v4 n') l.
Proof.
  assert (Hm : Forall (minted_below new_v4 minted) (final_stage d <$> stages)).
  { apply Forall_fmap, Forall_forall. intros st Hst. by apply (dd_stage _ _ _ _ _ _ _ D). }
  destruct (sanitize_stages_ok (final_stage d <$> stages) minted final_stage_ids Hm) as (l & n' & E & Hn & Hf & Hnd).
  - apply Forall_fmap, Forall_forall. intros st Hst. by apply (dd_stage _ _ _ _ _ _ _ D).
  - exists l, n'. split_and!; [|apply Forall2_fmap_l in Hf; eapply Forall2_impl; [exact Hf|]; by intros ?? [? _]|done|by eapply same_or_minted_below].
    unfold get_sdk_stages. fold (final_stage d). unfold final_stage in E. rewrite (minting_bind_ok _ _ _ _ _ E).
    by rewrite index_extend_fresh.
Qed.

Lemma runner_stages_eq : get_runner_stages d unfused = (final_transform d <$> unfused) ++ introduced_transforms d.
Proof.
  assert (Hids : ptn_id <$> (final_transform d <$> unfused) = ptn_id <$> unfused).
  { rewrite <- list_fmap_compose. apply list_fmap_ext. intros i t Hi%list_elem_of_lookup_2. simpl. by apply (dd_transform _ _ _ _ _ _ _ D). }
  assert (Hnd : NoDup (ptn_id <$> unfused)).
  { pose proof (po_keys _ _ _ (ct_producers _ _ _ _ _ Hcut)) as Hk. unfold producer_outputs in Hk.
    rewrite fmap_app, <- !list_fmap_compose in Hk. apply NoDup_app in Hk as (_ & _ & Hk).
    rewrite (list_fmap_ext _ (inr ∘ ptn_id)) in Hk by done. rewrite list_fmap_compose in Hk. by eapply NoDup_fmap_1. }
  destruct (dd_ids _ _ _ _ _ _ _ D) as [Hnd' Hnew].
  unfold get_runner_stages. fold (final_transform d). rewrite (index_extend_fresh ptn_id) by (unfold final_transform in *; by rewrite Hids).
  apply index_extend_append. rewrite fmap_app, Hids. apply NoDup_app. split_and!; [done| |done].
  intros i (t & -> & Ht)%list_elem_of_fmap Hi. apply (Hnew _ Hi). eapply Forall_forall in Ht; [|exact Hknown].
  apply (go_transform _ _ _ G) in Ht as [_ Ht]. rewrite (go_comps _ _ _ G). apply elem_of_dom. by eexists.
Qed.

(** ** One producer each *)

Context l (Hl : Forall2 (λ st s', sanitized (final_stage d st) s') stages l) (Hlnd : NoDup (stage_id <$> l)).

Let fp := mkFusedPipeline (dedup_components d) l (get_runner_stages d unfused).

(** What produces a PCollection in the end: a producer of before, or an introduced
    Flatten. *)
Lemma fused_produces_inv p c :
  fused_produces fp p c →
  (∃ p0 n, produces_node q stages unfused p0 n ∧ c = name (producer_key p0) (pcn_id n)
     ∧ match p0, p with
       | StageProducer st, StageProducer s => ∃ i, stages !! i = Some st ∧ l !! i = Some s
       | TransformProducer t, TransformProducer t' => t ∈ unfused ∧ t' = final_transform d t
       | _, _ => False
       end)
  ∨ ∃ t, p = TransformProducer t ∧ t ∈ introduced_transforms d ∧ contested q stages unfused c
         ∧ pt_outputs (ptn_transform t) = {["output" := c]}.
Proof.
  destruct p as [s|t]; simpl.
  - intros [Hs Hc]. left. apply list_elem_of_lookup in Hs as [i Hi]. destruct (Forall2_lookup_r _ _ _ _ _ Hl Hi) as (st & Hst & San).
    rewrite (sn_outputs _ _ San) in Hc. pose proof (list_elem_of_lookup_2 _ _ _ Hst) as Hin.
    destruct (dd_stage _ _ _ _ _ _ _ D st Hin) as [E _]. rewrite E in Hc. apply list_elem_of_fmap in Hc as (c0 & -> & (n & -> & Hn)%list_elem_of_fmap).
    exists (StageProducer st), n. split_and!; [|done|by exists i]. exists (stage_output_pcols st). split; [by apply elem_of_stage_outputs|done].
  - rewrite runner_stages_eq. intros [[(t0 & -> & Ht0)%list_elem_of_fmap|Ht]%elem_of_app (i & Ei)].
    + left. destruct (dd_transform _ _ _ _ _ _ _ D t0 Ht0) as (_ & _ & _ & E). rewrite E in Ei.
      apply lookup_fmap_Some in Ei as (c0 & <- & Ei).
      destruct (transform_produces comps P q G Hdecl stages unfused t0 i c0) as (n & Hn & <-);
        [done|exact (proj1 (Forall_forall _ _) Hknown t0 Ht0)|done|]. exists (TransformProducer t0), n. done.
    + right. destruct (dd_flatten _ _ _ _ _ _ _ D t Ht) as (c0 & Hc & _ & Eo & _). rewrite Eo in Ei.
      apply lookup_singleton_Some in Ei as [_ <-]. by exists t.
Qed.

Lemma single_producer p p' c : fused_produces fp p c → fused_produces fp p' c → p = p'.
Proof.
  intros [(p0 & n & Hp & -> & Hm)|(t & -> & Ht & Hc & Eo)]%fused_produces_inv
    [(p1 & n1 & Hp1 & E & Hm1)|(t1 & -> & Ht1 & Hc1 & Eo1)]%fused_produces_inv.
  - destruct (name_inj comps P q G stages unfused _ _ _ _ Hcut D p0 p1 n n1 Hp Hp1 E) as [Ek _].
    pose proof (producer_unique q stages unfused (ct_producers _ _ _ _ _ Hcut) _ _ _ _ Hp Hp1 Ek) as <-.
    destruct p0 as [st|t0], p as [s|t], p' as [s'|t']; try done.
    + destruct Hm as (i & Hi & Hs), Hm1 as (j & Hj & Hs').
      assert (i = j) as <-; [|congruence]. pose proof final_stage_ids as Hnd. rewrite <- list_fmap_compose in Hnd.
      eapply NoDup_lookup; [exact Hnd|by rewrite list_lookup_fmap, Hi|by rewrite list_lookup_fmap, Hj].
    + by destruct Hm as [_ ->], Hm1 as [_ ->].
  - exfalso. by eapply (name_not_contested comps P q G stages unfused _ _ _ _ Hcut D).
  - exfalso. symmetry in E. by eapply (name_not_contested comps P q G stages unfused _ _ _ _ Hcut D).
  - f_equal. apply (dd_one _ _ _ _ _ _ _ D); [done|done|congruence].
Qed.

(** What becomes of a producer when its outputs are renamed by [f]. *)
Definition becomes (f : string → string) (p p' : StageOrTransform) : Prop :=
  match p, p' with
  | StageProducer st, StageProducer st' =>
      stage_input_pcol st' = stage_input_pcol st
      ∧ pcn_id <$> stage_output_pcols st' = f <$> (pcn_id <$> stage_output_pcols st)
      ∧ Forall2 (redirected f) (stage_transforms st) (stage_transforms st')
  | TransformProducer t, TransformProducer t' => redirected f t t' ∧ pt_inputs (ptn_transform t') = pt_inputs (ptn_transform t)
  | _, _ => False
  end.

Definition becomes_as (name : string + string → string → string) (p p' : StageOrTransform) : Prop := becomes (name (producer_key p)) p p'.

Lemma stages_become : Forall2 (becomes_as name) (StageProducer <$> stages) (StageProducer <$> l).
Proof.
  apply Forall2_fmap, Forall2_same_length_lookup. split; [by eapply Forall2_length|]. intros i st s Hi Hs.
  pose proof (Forall2_lookup_lr _ _ _ _ _ _ Hl Hi Hs) as San.
  destruct (dd_stage _ _ _ _ _ _ _ D st (list_elem_of_lookup_2 _ _ _ Hi)) as (Eo & _ & Ei & Ht & _).
  split_and!; [by rewrite (sn_input _ _ San)|by rewrite (sn_outputs _ _ San)|]. destruct (sn_transforms _ _ San) as (X & _ & ->).
  apply Forall2_fmap_r. eapply Forall2_impl; [exact Ht|]. by intros t t' (? & ? & ?).
Qed.

Lemma transforms_become :
  ∃ ts, get_runner_stages d unfused = ts ++ introduced_transforms d
    ∧ Forall2 (becomes_as name) (TransformProducer <$> unfused) (TransformProducer <$> ts).
Proof.
  exists (final_transform d <$> unfused). split; [apply runner_stages_eq|]. rewrite <- list_fmap_compose. apply Forall2_fmap, Forall_Forall2_diag, Forall_forall.
  intros t Ht. destruct (dd_transform _ _ _ _ _ _ _ D t Ht) as (Eid & Ei & Es & Eo). by split_and!.
Qed.

(** What a producer becomes produces what it produced, under the new name. *)
Lemma renamed_by p n : produces_node q stages unfused p n →
  ∃ p', becomes_as name p p' ∧ fused_produces fp p' (name (producer_key p) (pcn_id n)).
Proof.
  intros (cs & Hin & Hn). destruct p as [st|t].
  - apply elem_of_stage_outputs in Hin as [Hst ->]. apply list_elem_of_lookup in Hst as [i Hi].
    destruct (Forall2_lookup_l _ _ _ i (StageProducer st) stages_become) as (p' & Hp' & Hb); [by rewrite list_lookup_fmap, Hi|].
    exists p'. split; [done|]. apply list_lookup_fmap_Some in Hp' as (s & -> & Hs). split; [by eapply list_elem_of_lookup_2|].
    destruct Hb as (_ & -> & _). by apply list_elem_of_fmap_2, list_elem_of_fmap_2.
  - apply elem_of_transform_outputs in Hin as [Ht ->].
    exists (TransformProducer (final_transform d t)). split.
    + destruct (dd_transform _ _ _ _ _ _ _ D t Ht) as (Eid & Ei & Es & Eo). by split_and!.
    + simpl. rewrite runner_stages_eq, elem_of_app. split; [left; by apply list_elem_of_fmap_2|].
      apply elem_of_pcol_nodes, (get_output_pcol_lookup _ _ _ G) in Hn as (_ & t0 & _ & Et0 & i & Ei).
      pose proof (proj1 (Forall_forall _ _) Hknown t Ht) as Hk. apply (go_transform _ _ _ G) in Hk as [_ Hk].
      rewrite Hk in Et0. injection Et0 as <-. exists i. destruct (dd_transform _ _ _ _ _ _ _ D t Ht) as (_ & _ & _ & ->).
      by rewrite lookup_fmap, Ei.
Qed.

(** What was produced still is. *)
Lemma still_produced p n : produces_node q stages unfused p n → ∃ p', fused_produces fp p' (pcn_id n).
Proof.
  intros Hp. destruct (contested_dec q stages unfused (ct_producers _ _ _ _ _ Hcut) (pcn_id n)) as [Hc|Hc].
  - destruct (dd_contested _ _ _ _ _ _ _ D _ Hc) as (t & Ht & Eo). exists (TransformProducer t). simpl.
    rewrite runner_stages_eq, elem_of_app. split; [by right|]. exists "output"%string. by rewrite Eo, lookup_singleton_eq.
  - destruct (renamed_by p n Hp) as (p' & _ & Hp'). exists p'. by rewrite (dd_keep _ _ _ _ _ _ _ D) in Hp'.
Qed.
End fused.
End outcome.
