(* ===== verification/FusionProperties.v ===== *)
(** The claims about pipeline fusion. *)
From S2P Require Import Prelude Bytes CoderGraph Pipeline StageFuserSpec StageFuser PipelineFuser.
From S2P Require Import PipelineFuserSpec FusionLoopSpec Dedup DedupLoopSpec FusionOutcome.
From stdpp Require Import pretty.
Set Warnings "-clear-no-such-hyp".
Local Open Scope string_scope.
Local Open Scope list_scope.

(** * Well-formed pipelines *)

(** Every transform goes from PCollections of higher rank to PCollections of lower. *)
Definition ranked (q : QueryablePipeline) (rank : string → nat) : Prop :=
  Forall (λ e : string * string * PipelineEdge,
    Forall (λ p : string * string, e.1.2 = p.1 → (rank p.2 < rank e.1.1)%nat) (produces q)) (consumes q).
#[export] Instance ranked_dec q rank : Decision (ranked q rank).
Proof. apply _. Defined.

Definition payloads_readable `{HashIter, PayloadDecoder} (q : QueryablePipeline) : bool :=
  forallb (λ n, is_ok (get_side_inputs q n) && is_ok (get_user_states q n) && is_ok (get_timers q n)) (nodes (transform_ids q)).

Section well_formed.
Context `{HashIterLaws, PayloadDecoder}.

Lemma ranked_acyclic q rank : ranked q rank → runners_acyclic q rank.
Proof.
  intros Hq c n o Hn%elem_of_nodes _ Ho%elem_of_pcol_nodes.
  unfold get_per_element_consumers, consumers_by in Hn. destruct (pcollection_ids q !! pcn_id c); [|done].
  apply map_lookup_filter_Some in Hn as [_ Hn]. unfold get_output_pcol in Ho. destruct (transform_ids q !! ptn_id n); [|done].
  apply map_lookup_filter_Some in Ho as [_ Ho]. simpl in *.
  pose proof (proj1 (Forall_forall _ _) Hq _ Hn) as Hf. by apply (proj1 (Forall_forall _ _) Hf _ Ho).
Qed.

Lemma payloads_readable_ok q : payloads_readable q = true → payloads_ok q.
Proof.
  intros Hq n Hn. unfold payloads_readable in Hq. rewrite forallb_forall in Hq.
  specialize (Hq n). rewrite <- list_elem_of_In, elem_of_nodes in Hq. specialize (Hq Hn).
  apply andb_true_iff in Hq as [[? ?]%andb_true_iff ?]. done.
Qed.

(** The transforms of the graph. *)
Definition primitive_leaf (comps : Components) (id : string) : Prop :=
  ∃ i t, transforms comps !! i = Some t ∧ is_primitive t = true ∧ leaf_below (transforms comps) i id.

Lemma queryable_new_ok comps rank :
  hierarchy (transforms comps) rank → ∃ q, queryable_new comps = Ok q ∧ graph_of comps (primitive_leaf comps) q.
Proof.
  intros Hr. destruct (get_primitives_ok (transforms comps) rank Hr) as (prims & E & Hp). unfold queryable_new. rewrite E.
  eexists. split; [done|]. set (q0 := mkQueryable _ _ _ _ _ _).
  destruct (build_graph_of q0) as [G1 G2 G3 G4 G5].
  { intros id (i & t & _ & _ & Hl)%Hp. by eapply leaf_below_known. }
  constructor; [done|..]; intros; [rewrite G2|rewrite G3|rewrite G4|rewrite G5]; simpl; setoid_rewrite Hp; done.
Qed.
End well_formed.

(** * The parts of a fusion *)

Section fusion.
Context `{HashIterLaws, PayloadDecoder} (new_v4 : nat → string) `{!Inj (=) (=) new_v4}.

Lemma fuse_pipeline_ok comps srank rank n :
  hierarchy (transforms comps) srank →
  (∀ q, queryable_new comps = Ok q → payloads_ok q ∧ runners_acyclic q rank) →
  ∃ q d0 s n1 gs name n2 d l n3, queryable_new comps = Ok q ∧ graph_of comps (primitive_leaf comps) q
    ∧ initial_consumers q = Ok d0 ∧ fuse_stages new_v4 q (unfusible d0) (fusible d0) n = Ok (s, n1)
    ∧ fused_so_far new_v4 q (λ m, is_root q m ∧ is_runner q m) (from_roots q) n1 [] gs s
    ∧ cut_ok new_v4 q (fuser_stages s) (unfused_pt s) n1
    ∧ deduplicated new_v4 q (fuser_stages s) (unfused_pt s) name n2 d
    ∧ Forall2 (λ st s', sanitized (final_stage d st) s') (fuser_stages s) l
    ∧ NoDup (stage_id <$> l) ∧ Forall (minted_below new_v4 n3) l
    ∧ fuse_pipeline new_v4 comps n = Ok (mkFusedPipeline (dedup_components d) l (get_runner_stages d (unfused_pt s)), n3).
Proof.
  intros Hh Hq. destruct (queryable_new_ok comps srank Hh) as (q & Eq & G). destruct (Hq q Eq) as [Hp Hr].
  destruct (fuse_stages_ok new_v4 q Hp rank Hr n) as (d0 & s & n1 & gs & Ed0 & Es & F).
  pose proof (fused_cut_ok new_v4 comps _ q G _ _ _ _ _ F) as Hcut.
  destruct (ensure_single_producer_ok new_v4 q (fuser_stages s) (unfused_pt s) n1 Hcut) as (name & n2 & d & Ed & _ & D).
  destruct (final_stages_ok new_v4 q (fuser_stages s) (unfused_pt s) n1 n2 name d Hcut D) as (l & n3 & El & Hl & Hnd & Hm).
  exists q, d0, s, n1, gs, name, n2, d, l, n3. split_and!; [done..|].
  unfold fuse_pipeline. rewrite (lift_minting_bind _ _ _ _ Eq), (lift_minting_bind _ _ _ _ Ed0). unfold fuser_fuse_pipeline.
  by rewrite (minting_bind_ok _ _ _ _ _ Es), (minting_bind_ok _ _ _ _ _ Ed), (minting_bind_ok _ _ _ _ _ El).
Qed.
End fusion.

(** * A pipeline to try things on

    An impulse feeds a transform [P] with two outputs; a Flatten [F] merges them for [Q],
    and group-by-keys read the second one too and what [Q] outputs. *)
Module demo.
#[export] Instance hash_iter : HashIter := {| set_iter := elements; map_iter := λ K _ _ A m, map_to_list m |}.
#[export] Instance hash_iter_laws : HashIterLaws.
Proof. constructor; done. Qed.
#[export] Instance decoder : PayloadDecoder := λ _, Some (mkParDoPayload ∅ ∅ ∅ "").

Definition transform (urn : string) (ins outs : list (string * string)) (env : string) : PTransform :=
  mkPTransform "" (Some (mkFunctionSpec urn [Byte.x00])) [] (list_to_map ins) (list_to_map outs) env.

Definition pipeline : Components := mkComponents
  (list_to_map
    [("imp", transform IMPULSE_TRANSFORM [] [("o", "I")] "");
     ("P", transform PAR_DO_TRANSFORM [("i", "I")] [("a", "A"); ("b", "B")] "e");
     ("F", transform FLATTEN_TRANSFORM [("0", "A"); ("1", "B")] [("o", "Out")] "");
     ("Q", transform PAR_DO_TRANSFORM [("i", "Out")] [("o", "R")] "e");
     ("G", transform GROUP_BY_KEY_TRANSFORM [("i", "B")] [("o", "GO")] "");
     ("H", transform GROUP_BY_KEY_TRANSFORM [("i", "R")] [("o", "HO")] "")])
  (list_to_map ((λ x, (x, mkPCollection "" "c" 0 "w")) <$> ["I"; "A"; "B"; "Out"; "R"; "GO"; "HO"]))
  ∅ {["e" := mkEnvironment "env" []]} ∅.

Definition rank (c : string) : nat :=
  default O ((list_to_map [("I", 4); ("A", 3); ("B", 3); ("Out", 2); ("R", 1)] : gmap string nat) !! c).

Definition graph : QueryablePipeline :=
  match queryable_new pipeline with Ok q => q | _ => mkQueryable ∅ ∅ [] [] pipeline ∅ end.

Lemma graph_eq : queryable_new pipeline = Ok graph.
Proof. by vm_compute. Qed.

Lemma pipeline_hierarchy : hierarchy (transforms pipeline) (λ _, O).
Proof.
  assert (Hs : map_Forall (λ _ t, pt_subtransforms t = []) (transforms pipeline)) by (apply (bool_decide_unpack _); by vm_compute).
  intros id t sub E Hsub. rewrite (Hs id t E) in Hsub. by apply elem_of_nil in Hsub.
Qed.

Lemma graph_acyclic : runners_acyclic graph rank.
Proof. apply ranked_acyclic. apply (bool_decide_unpack _). by vm_compute. Qed.

Lemma graph_payloads : payloads_ok graph.
Proof. apply payloads_readable_ok. by vm_compute. Qed.

Lemma pipeline_declared : outputs_declared pipeline.
Proof.
  assert (Hd : map_Forall (λ _ t, map_Forall (λ _ c, is_Some (pcollections pipeline !! c)) (pt_outputs t)) (transforms pipeline)).
  { apply (bool_decide_unpack _). by vm_compute. }
  intros id t c E [i Ei]. by apply (Hd id t E i c).
Qed.
Lemma graph_well_formed q : queryable_new pipeline = Ok q → payloads_ok q ∧ runners_acyclic q rank.
Proof.
  intros E. assert (E' : Ok graph = Ok q) by (rewrite <- graph_eq; exact E).
  assert (q = graph) as -> by (generalize dependent graph; congruence). exact (conj graph_payloads graph_acyclic).
Qed.
End demo.

(** * The claims *)

Section claims.
Context `{HashIterLaws, PayloadDecoder} (new_v4 : nat → string) `{!Inj (=) (=) new_v4}.

(** The graph of a pipeline can be built when its subtransforms form a hierarchy, and
    its queries are readings of the components: its transforms are the leaves below
    transforms with a primitive URN; the consumers of a PCollection by element, or as a
    side input, are the primitive transforms that read it so; the outputs of a transform
    are the declared PCollections it writes; the roots are the transforms that read no
    declared PCollection. *)
Theorem pipeline_queries comps rank :
  hierarchy (transforms comps) rank →
  ∃ q, queryable_new comps = Ok q
    ∧ (∀ id t, transform_ids q !! id = Some t ↔ primitive_leaf comps id ∧ transforms comps !! id = Some t)
    ∧ (∀ kind c id t, consumers_by kind q c !! id = Some t
        ↔ is_Some (pcollections comps !! c) ∧ primitive_leaf comps id ∧ transforms comps !! id = Some t ∧ reads_as kind t c)
    ∧ (∀ id c p, get_output_pcol q id !! c = Some p
        ↔ pcollections comps !! c = Some p ∧ ∃ t, primitive_leaf comps id ∧ transforms comps !! id = Some t ∧ writes t c)
    ∧ (∀ id t, get_root_transforms q !! id = Some t
        ↔ primitive_leaf comps id ∧ transforms comps !! id = Some t
          ∧ ∀ kind c, reads_as kind t c → pcollections comps !! c = None).
Proof.
  intros Hr. destruct (queryable_new_ok comps rank Hr) as (q & E & G). exists q. split_and!; [done| | | |].
  - apply (go_transform _ _ _ G).
  - intros. by apply consumers_by_lookup.
  - intros. by apply get_output_pcol_lookup.
  - intros. by apply get_root_transforms_lookup.
Qed.

(** A stage grows from its roots as far as it can and no further: it can always be built;
    what it contains is its roots and the consumers of the PCollections it fuses, and it
    takes in all consumers of such a PCollection or none; every output of its transforms
    is either fused, and then its consumers could all run in the stage, or an output of
    the stage, and then one of them could not; and no transform is left with an input
    that nothing in the stage provides. *)
Theorem stage_grows_greedily q input (initial : node_set) env n :
  payloads_ok q → initial ≠ ∅ → initial ⊆ transform_ids q →
  (∀ m, m ∈ nodes initial → in_environment q m env = true) →
  ∃ s n' st D, stage_fuse new_v4 q input initial n = Ok (s, n')
    ∧ stage_input_pcol s = input
    ∧ stage_transforms s = sanitize_transform D <$> fused_transforms st
    ∧ stage_output_pcols s = materialized_pcols st
    ∧ (∀ m, m ∈ fused_transforms st ↔ m ∈ nodes initial ∨ ∃ c, c ∈ fused_pcols st ∧ m ∈ consumers q c)
    ∧ (∀ c, c ∈ fused_pcols st ∨ c ∈ materialized_pcols st ↔ ∃ m, m ∈ fused_transforms st ∧ c ∈ outputs q m)
    ∧ (∀ c, c ∈ fused_pcols st →
         fuses q (stage_environment s) (existsb transform_has_splittable_process_urn (nodes initial)) c = true)
    ∧ (∀ c, c ∈ materialized_pcols st →
         fuses q (stage_environment s) (existsb transform_has_splittable_process_urn (nodes initial)) c = false)
    ∧ NoDup (ptn_id <$> stage_transforms s) ∧ NoDup (pcn_id <$> fused_pcols st ++ materialized_pcols st)
    ∧ D ## possible_inputs s ∧ dangling_inputs s = ∅.
Proof.
  intros Hp Hne Hsub Henv.
  destruct (stage_fuse_ok new_v4 q input initial env n Hp Hne) as (s & n' & k & E & _ & _ & _ & Hs).
  - intros id t Et. by eapply map_subseteq_spec in Hsub.
  - done.
  - destruct Hs as [Hi _ _ (st & D & G & Eo & _ & Et & HD) Hdang]. exists s, n', st, D.
    split_and!; [done|done|done|done|..].
    + apply (gr_transforms _ _ _ _ _ _ G).
    + intros c. rewrite <- (gr_outputs _ _ _ _ _ _ G), elem_of_nil. tauto.
    + apply (gr_fused _ _ _ _ _ _ G).
    + apply (gr_materialized _ _ _ _ _ _ G).
    + rewrite Et, <- list_fmap_compose. exact (gr_nodup _ _ _ _ _ _ G).
    + exact (gr_visited _ _ _ _ _ _ G).
    + done.
    + done.
Qed.

(** C30: Cutting a pipeline into stages ends, and covers it: the groups of siblings are never
    reported inconsistent; every consumer of a PCollection that a root, a runner
    transform below one, or a stage hands on is either run by the runner or a root of
    exactly one stage, on that PCollection; and the runner runs nothing else but the
    pipeline's own roots. *)
Theorem fusion_covers_pipeline q rank n :
  payloads_ok q → runners_acyclic q rank →
  ∃ d s n' groups, initial_consumers q = Ok d
    ∧ fuse_stages new_v4 q (unfusible d) (fusible d) n = Ok (s, n')
    ∧ Forall2 (stage_for q) groups (fuser_stages s)
    ∧ NoDup (stage_id <$> fuser_stages s)
    ∧ (∀ c m, brought q (from_roots q) (fuser_stages s) c m →
         (is_runner q m ∧ m ∈ unfused_pt s)
         ∨ (¬ is_runner q m ∧ ∃ i g, groups !! i = Some g ∧ (pcn_id c, ptn_id m) ∈ dom g
                            ∧ ∀ j h, groups !! j = Some h → (pcn_id c, ptn_id m) ∈ dom h → i = j))
    ∧ (∀ m, m ∈ unfused_pt s → is_runner q m ∧ (is_root q m ∨ ∃ c, brought q (from_roots q) (fuser_stages s) c m)).
Proof.
  intros Hp Hr. destruct (fuse_stages_ok new_v4 q Hp rank Hr n) as (d & s & n' & gs & Ed & E & F).
  exists d, s, n', gs. split_and!; [done|done|by eapply ff_stages|by eapply ff_ids| |].
  - intros c m Hb. destruct (decide (is_runner q m)) as [Hm|Hm]; [left|right]; (split; [done|]).
    + apply (ff_runner _ _ _ _ _ _ _ _ F). right. by exists c.
    + destruct (proj2 (ff_sdk _ _ _ _ _ _ _ _ F (pcn_id c, ptn_id m))) as (g & Hg & Hk); [by exists c, m|].
      rewrite app_nil_r in Hg. pose proof Hg as [i Hi]%list_elem_of_lookup. exists i, g. split_and!; [done|done|].
      intros j h Hj Hh. pose proof (ff_groups _ _ _ _ _ _ _ _ F) as Hgs. rewrite app_nil_r in Hgs.
      assert (g = h) as <-.
      { apply (groups_same q g h (pcn_id c, ptn_id m)); [|by eapply Forall_lookup_1|done|done]. by eapply Forall_lookup_1. }
      eapply NoDup_lookup; [exact (ff_once _ _ _ _ _ _ _ _ F)|done|done].
  - intros m [[? ?]|(c & ? & ?)]%(ff_runner _ _ _ _ _ _ _ _ F); split; [done|by left|done|right; by exists c].
Qed.

(** C29: The fused pipeline has one producer per PCollection: fusion succeeds on a pipeline
    whose outputs are declared; in what it returns no PCollection is an output of two of
    the stages, the runner's transforms and the introduced Flattens.  Each stage and runner
    transform of before is there, in order, with its outputs renamed, in a stage those of
    its transforms too: a PCollection that several produced gets a name of its own for each
    of them, which the pipeline did not have, and no other is renamed.  Whatever was produced
    still is; and where several did, a Flatten reads exactly the names that its producers
    give it. *)
Theorem fused_single_producer comps srank rank n :
  hierarchy (transforms comps) srank → outputs_declared comps →
  (∀ q, queryable_new comps = Ok q → payloads_ok q ∧ runners_acyclic q rank) →
  ∃ q d s n1 fp n' (name : string + string → string → string),
    let produced := produces_node q (fuser_stages s) (unfused_pt s) in
    let shared := contested q (fuser_stages s) (unfused_pt s) in
    queryable_new comps = Ok q ∧ initial_consumers q = Ok d
    ∧ fuse_stages new_v4 q (unfusible d) (fusible d) n = Ok (s, n1)
    ∧ fuse_pipeline new_v4 comps n = Ok (fp, n')
    ∧ (∀ p p' c, fused_produces fp p c → fused_produces fp p' c → p = p')
    ∧ Forall2 (becomes_as name) (StageProducer <$> fuser_stages s) (StageProducer <$> sdk_stages fp)
    ∧ (∃ ts flattens, runner_stages fp = ts ++ flattens
         ∧ Forall2 (becomes_as name) (TransformProducer <$> unfused_pt s) (TransformProducer <$> ts)
         ∧ ∀ t, t ∈ flattens → get_urn t = FLATTEN_TRANSFORM ∧ ∃ c, shared c ∧ pt_outputs (ptn_transform t) = {["output" := c]})
    ∧ (∀ k c, ¬ shared c → name k c = c)
    ∧ (∀ p m p' m', produced p m → produced p' m' → shared (pcn_id m) → shared (pcn_id m') →
         name (producer_key p) (pcn_id m) = name (producer_key p') (pcn_id m') → producer_key p = producer_key p' ∧ pcn_id m = pcn_id m')
    ∧ (∀ p c, produced p c → ∃ p', fused_produces fp p' (pcn_id c))
    ∧ (∀ c, shared c → ∃ t, t ∈ runner_stages fp
         ∧ get_urn t = FLATTEN_TRANSFORM ∧ fused_produces fp (TransformProducer t) c
         ∧ ∀ x, (∃ i, pt_inputs (ptn_transform t) !! i = Some x)
             ↔ ∃ p m, produced p m ∧ pcn_id m = c ∧ x = name (producer_key p) c)
    ∧ (∀ p m, produced p m → shared (pcn_id m) →
         pcollections comps !! name (producer_key p) (pcn_id m) = None
         ∧ is_Some (pcollections (fp_components fp) !! name (producer_key p) (pcn_id m))
         ∧ ∃ p', becomes_as name p p' ∧ fused_produces fp p' (name (producer_key p) (pcn_id m))).
Proof.
  intros Hh Hdecl Hq. destruct (fuse_pipeline_ok new_v4 comps srank rank n Hh Hq)
    as (q & d0 & s & n1 & gs & name & n2 & d & l & n3 & Eq & G & Ed0 & Es & F & Hcut & D & Hl & _ & _ & E).
  pose proof (ff_known _ _ _ _ _ _ _ _ F) as Hkn.
  exists q, d0, s, n1, (mkFusedPipeline (dedup_components d) l (get_runner_stages d (unfused_pt s))), n3, name.
  intros produced shared. split_and!; [done..| | | | | | | |].
  - intros p p' c. by eapply single_producer.
  - by eapply stages_become.
  - destruct (transforms_become new_v4 comps _ q G (fuser_stages s) (unfused_pt s) Hkn _ _ name d Hcut D) as (ts & Ets & Hts).
    exists ts, (introduced_transforms d). split_and!; [done..|]. intros t Ht.
    destruct (dd_flatten _ _ _ _ _ _ _ D t Ht) as (c & Hc & Hurn & Eo & _). split; [done|]. by exists c.
  - apply (dd_keep _ _ _ _ _ _ _ D).
  - intros p m p' m'. by apply (dd_inj _ _ _ _ _ _ _ D).
  - intros p c. by eapply still_produced.
  - intros c Hc. destruct (dd_contested _ _ _ _ _ _ _ D c Hc) as (t & Ht & Eo).
    destruct (dd_flatten _ _ _ _ _ _ _ D t Ht) as (c' & Hc' & Hurn & Eo' & Hin). exists t.
    assert (c' = c) as ->.
    { rewrite Eo in Eo'. apply (f_equal (.!! "output")) in Eo'. rewrite !lookup_singleton_eq in Eo'. congruence. }
    assert (Hin' : t ∈ get_runner_stages d (unfused_pt s)).
    { erewrite runner_stages_eq by done. apply elem_of_app. by right. }
    split_and!; [done|done|split; [done|]; exists "output"; by rewrite Eo, lookup_singleton_eq|done].
  - intros p m Hpm Hc. split_and!.
    + apply not_elem_of_dom. rewrite <- (go_comps _ _ _ G). by eapply (dd_fresh _ _ _ _ _ _ _ D).
    + apply elem_of_dom. by eapply (dd_known _ _ _ _ _ _ _ D).
    + by eapply renamed_by.
Qed.
End claims.

(** ** On the pipeline above *)

Section witnesses.
Import demo.

Lemma pipeline_queries_witness :
  ∃ q, queryable_new pipeline = Ok q
    ∧ (∀ id t, transform_ids q !! id = Some t ↔ primitive_leaf pipeline id ∧ transforms pipeline !! id = Some t)
    ∧ (∀ kind c id t, consumers_by kind q c !! id = Some t
        ↔ is_Some (pcollections pipeline !! c) ∧ primitive_leaf pipeline id ∧ transforms pipeline !! id = Some t ∧ reads_as kind t c)
    ∧ (∀ id c p, get_output_pcol q id !! c = Some p
        ↔ pcollections pipeline !! c = Some p ∧ ∃ t, primitive_leaf pipeline id ∧ transforms pipeline !! id = Some t ∧ writes t c)
    ∧ (∀ id t, get_root_transforms q !! id = Some t
        ↔ primitive_leaf pipeline id ∧ transforms pipeline !! id = Some t
          ∧ ∀ kind c, reads_as kind t c → pcollections pipeline !! c = None).
Proof. exact (pipeline_queries pipeline (λ _, O) pipeline_hierarchy). Defined.

Definition initial : node_set := filter (λ p, p.1 = "P") (transform_ids graph).

Lemma stage_grows_greedily_witness :
  initial ≠ ∅ ∧ ∃ s n' st D, stage_fuse pretty graph (mkPCollectionNode "I" (mkPCollection "" "c" 0 "w")) initial 0 = Ok (s, n')
    ∧ stage_input_pcol s = mkPCollectionNode "I" (mkPCollection "" "c" 0 "w")
    ∧ stage_transforms s = sanitize_transform D <$> fused_transforms st
    ∧ stage_output_pcols s = materialized_pcols st
    ∧ (∀ m, m ∈ fused_transforms st ↔ m ∈ nodes initial ∨ ∃ c, c ∈ fused_pcols st ∧ m ∈ consumers graph c)
    ∧ (∀ c, c ∈ fused_pcols st ∨ c ∈ materialized_pcols st ↔ ∃ m, m ∈ fused_transforms st ∧ c ∈ outputs graph m)
    ∧ (∀ c, c ∈ fused_pcols st →
         fuses graph (stage_environment s) (existsb transform_has_splittable_process_urn (nodes initial)) c = true)
    ∧ (∀ c, c ∈ materialized_pcols st →
         fuses graph (stage_environment s) (existsb transform_has_splittable_process_urn (nodes initial)) c = false)
    ∧ NoDup (ptn_id <$> stage_transforms s) ∧ NoDup (pcn_id <$> fused_pcols st ++ materialized_pcols st)
    ∧ D ## possible_inputs s ∧ dangling_inputs s = ∅.
Proof.
  assert (Hne : initial ≠ ∅) by (by vm_compute). split; [exact Hne|].
  apply (stage_grows_greedily pretty graph _ initial (mkEnvironment "env" []) 0 graph_payloads Hne).
  - apply map_filter_subseteq.
  - apply Forall_forall, (bool_decide_unpack _). by vm_compute.
Defined.

Lemma fusion_covers_pipeline_witness :
  ∃ d s n' groups, initial_consumers graph = Ok d
    ∧ fuse_stages pretty graph (unfusible d) (fusible d) 0 = Ok (s, n')
    ∧ Forall2 (stage_for graph) groups (fuser_stages s)
    ∧ NoDup (stage_id <$> fuser_stages s)
    ∧ (∀ c m, brought graph (from_roots graph) (fuser_stages s) c m →
         (is_runner graph m ∧ m ∈ unfused_pt s)
         ∨ (¬ is_runner graph m ∧ ∃ i g, groups !! i = Some g ∧ (pcn_id c, ptn_id m) ∈ dom g
                            ∧ ∀ j h, groups !! j = Some h → (pcn_id c, ptn_id m) ∈ dom h → i = j))
    ∧ (∀ m, m ∈ unfused_pt s → is_runner graph m ∧ (is_root graph m ∨ ∃ c, brought graph (from_roots graph) (fuser_stages s) c m)).
Proof. exact (fusion_covers_pipeline pretty graph rank 0 graph_payloads graph_acyclic). Defined.

Lemma fused_single_producer_witness :
  ∃ q s fp n' (name : string + string → string → string),
    queryable_new pipeline = Ok q ∧ fuse_pipeline pretty pipeline 0 = Ok (fp, n')
    ∧ (∀ p p' c, fused_produces fp p c → fused_produces fp p' c → p = p')
    ∧ Forall2 (becomes_as name) (StageProducer <$> fuser_stages s) (StageProducer <$> sdk_stages fp)
    ∧ (∀ k c, ¬ contested q (fuser_stages s) (unfused_pt s) c → name k c = c)
    ∧ (∀ c, contested q (fuser_stages s) (unfused_pt s) c → ∃ t, t ∈ runner_stages fp
         ∧ get_urn t = FLATTEN_TRANSFORM ∧ fused_produces fp (TransformProducer t) c
         ∧ ∀ x, (∃ i, pt_inputs (ptn_transform t) !! i = Some x)
             ↔ ∃ p m, produces_node q (fuser_stages s) (unfused_pt s) p m ∧ pcn_id m = c ∧ x = name (producer_key p) c).
Proof.
  destruct (fused_single_producer pretty pipeline (λ _, O) rank 0 pipeline_hierarchy pipeline_declared graph_well_formed)
    as (q & d & s & n1 & fp & n' & name & Eq & _ & _ & Ef & Hone & Hst & _ & Hkeep & _ & _ & Hfl & _).
  exists q, s, fp, n', name. split_and!; [exact Eq|exact Ef|exact Hone|exact Hst|exact Hkeep|exact Hfl].
Defined.

(** What fusing the pipeline gives: per stage its input, its transforms and its outputs;
    per runner transform its inputs and outputs. *)
Definition summary (r : translated (FusedPipeline * nat)) :
    option (list (string * list string * list string) * list (string * list string * list string)) :=
  match r with
  | Ok (f, _) => Some
      ((λ s, (pcn_id (stage_input_pcol s), ptn_id <$> stage_transforms s, pcn_id <$> stage_output_pcols s)) <$> sdk_stages f,
       (λ t, (ptn_id t, (map_to_list (pt_inputs (ptn_transform t))).*2, (map_to_list (pt_outputs (ptn_transform t))).*2)) <$> runner_stages f)
  | _ => None
  end.

(** A Flatten is always taken into a stage, and left to the runner too when another of
    its inputs cannot be: here [F] runs in the stage of [P] on [A] and [B], and, as [B]
    is also an output of that stage, in the runner on [B] again; [Q] runs in both
    stages, and so sees the elements of [B] twice. *)
Lemma flatten_is_run_twice :
  summary (fuse_pipeline pretty pipeline 0)
  = Some ([("I", ["P"; "F"; "Q"], ["B"; "R-1"]); ("Out", ["Q"], ["R-0"])],
          [("imp", [], ["I"]); ("G", ["B"], ["GO"]); ("F", ["B"; "A"], ["Out"]); ("H", ["R"], ["HO"]);
           ("unzipped_flatten", ["R-1"; "R-0"], ["R"])]).
Proof. by vm_compute. Qed.
End witnesses.
