(* ===== verification/Expander.v ===== *)
(** The expansion of splittable ParDos (fusion/expander.rs): each becomes a composite whose
    subtransforms pair elements with restrictions, split and size these, and process
    them, with new PCollections and coders in between. *)
From S2P Require Import Prelude Bytes CoderGraph Pipeline.
From stdpp Require Import pretty.
Local Open Scope string_scope.
Local Open Scope list_scope.

(** * Messages *)

(** [message_with_components::Root], of which only the transforms are read. *)
Inductive Root : Type := PtransformRoot (pt : PTransform) | OtherRoot.

Record MessageWithComponents : Type := mkMessage {
  mwc_components : option Components;
  mwc_root : option Root;
}.

(** [TransformReplacement]. *)
Abbreviation replacement := (string → Components → translated (option MessageWithComponents)).

(** * Unique ids *)

(** [taken] holds finitely many ids, so a candidate per id and one more are enough; the
    counter of the code is 32 bits wide. *)
Fixpoint generate_unique_id_from (fuel i : nat) (prefix : string) (taken : gset string) : translated string :=
  if decide (prefix +:+ pretty i ∈ taken) then
    match fuel with
    | O => Panic "attempt to add with overflow"
    | S fuel => generate_unique_id_from fuel (S i) prefix taken
    end
  else Ok (prefix +:+ pretty i).

Definition generate_unique_id (prefix : string) (taken : gset string) : translated string :=
  generate_unique_id_from (size taken) 0 prefix taken.

Definition unique_names (comps : Components) : gset string := list_to_set (pc_unique_name <$> (map_to_list (pcollections comps)).*2).
Definition generate_unique_pcollection_name (prefix : string) (comps : Components) : translated string :=
  generate_unique_id prefix (unique_names comps).

(** * The parts of an expansion *)

Definition make_kv_coder (key_coder_id value_coder_id : string) : Coder := mkCoder (Some KV_CODER) [key_coder_id; value_coder_id].

Definition make_pcollection (coder_id : string) (template : PCollection) (unique_name_prefix : string) (existing : Components)
    : translated PCollection :=
  unique_name ← generate_unique_pcollection_name unique_name_prefix existing;
  Ok (mkPCollection unique_name coder_id (pc_is_bounded template) (pc_windowing_strategy_id template)).

Definition make_sdf_sub_transform (urn : string) (payload : bytes) (inputs outputs : gmap string string)
    (unique_name_prefix environment_id : string) (existing : Components) : translated PTransform :=
  unique_name ← generate_unique_pcollection_name unique_name_prefix existing;
  Ok (mkPTransform unique_name (Some (mkFunctionSpec urn payload)) [] inputs outputs environment_id).

Definition empty_components : Components := mkComponents ∅ ∅ ∅ ∅ ∅.
Definition insert_coder (id : string) (c : Coder) (comps : Components) : Components :=
  mkComponents (transforms comps) (pcollections comps) (<[id := c]> (coders comps)) (environments comps) (windowing_strategies comps).
Definition insert_pcollection (id : string) (p : PCollection) (comps : Components) : Components :=
  mkComponents (transforms comps) (<[id := p]> (pcollections comps)) (coders comps) (environments comps) (windowing_strategies comps).
Definition insert_transform (id : string) (t : PTransform) (comps : Components) : Components :=
  mkComponents (<[id := t]> (transforms comps)) (pcollections comps) (coders comps) (environments comps) (windowing_strategies comps).

(** [HashMap::extend]. *)
Definition extend {A} (m extra : gmap string A) : gmap string A := extra ∪ m.
Definition extend_components (comps extra : Components) : Components :=
  mkComponents (extend (transforms comps) (transforms extra)) (extend (pcollections comps) (pcollections extra))
    (extend (coders comps) (coders extra)) (extend (environments comps) (environments extra))
    (extend (windowing_strategies comps) (windowing_strategies extra)).

Section expander.
Context `{HashIter, PayloadDecoder}.

Definition get_or_add_double_coder (existing out : Components) : translated (string * Components) :=
  match find (λ c : string * Coder, bool_decide (spec_urn c.2 = Some DOUBLE_CODER)) (map_iter (coders existing)) with
  | Some (id, _) => Ok (id, out)
  | None =>
      double_coder_id ← generate_unique_id "DoubleCoder" (dom (coders existing));
      Ok (double_coder_id, insert_coder double_coder_id (mkCoder (Some DOUBLE_CODER) []) out)
  end.

(** The first input that is no side input, or else the first, or else the empty name. *)
Definition get_main_input_name_from_payload (t : PTransform) (payload : ParDoPayload) : string :=
  let names := (map_iter (pt_inputs t)).*1 in
  default (default "" (head names)) (find (λ name, bool_decide (name ∉ dom (side_inputs payload))) names).

(** ** [SizedReplacement::get_replacement] *)

(** Steps 1 and 2: the ParDo, its spec and payload, and its main input; [None] unless it
    is splittable. *)
Record SplittableParDo : Type := mkSplittable {
  par_do : PTransform;
  par_do_spec : FunctionSpec;
  par_do_payload : ParDoPayload;
  main_input_name : string;
  main_input_pcol_id : string;
  main_input_pcol : PCollection;
}.

Definition splittable_par_do (transform_id : string) (existing : Components) : option SplittableParDo :=
  t ← transforms existing !! transform_id;
  spec ← pt_spec t;
  payload ← decode_payload (fs_payload spec);
  if bool_decide (restriction_coder_id payload = "") then None
  else
    let main_input_name := get_main_input_name_from_payload t payload in
    main_input_pcol_id ← pt_inputs t !! main_input_name;
    main_input_pcol ← pcollections existing !! main_input_pcol_id;
    Some (mkSplittable t spec payload main_input_name main_input_pcol_id main_input_pcol).

(** The inputs of a step: its main input and the side inputs of the ParDo. *)
Definition step_inputs (s : SplittableParDo) (input : string) : gmap string string :=
  extend {[main_input_name s := input]} (filter (λ i, i.1 ∈ dom (side_inputs (par_do_payload s))) (pt_inputs (par_do s))).

(** A PCollection between two steps, with its coder: pairs coded with [key] and [value]. *)
Definition add_between (s : SplittableParDo) (step coder_id : string) (existing rval : Components)
    : translated (string * Components) :=
  id ← generate_unique_id (main_input_pcol_id s +:+ "/" +:+ step) (dom (pcollections existing));
  pcol ← make_pcollection coder_id (main_input_pcol s) (pc_unique_name (main_input_pcol s) +:+ "/" +:+ step) existing;
  Ok (id, insert_pcollection id pcol rval).

Definition coder_id_for (s : SplittableParDo) (step : string) (existing : Components) : translated string :=
  generate_unique_id (pc_coder_id (main_input_pcol s) +:+ "/" +:+ step) (dom (coders existing)).

Definition step_id (transform_id step : string) (existing : Components) : translated string :=
  generate_unique_id (transform_id +:+ "/" +:+ step) (dom (transforms existing)).

Definition make_step (s : SplittableParDo) (urn step : string) (inputs outputs : gmap string string) (existing : Components)
    : translated PTransform :=
  make_sdf_sub_transform urn (fs_payload (par_do_spec s)) inputs outputs (pt_unique_name (par_do s) +:+ "/" +:+ step)
    (pt_environment_id (par_do s)) existing.

(** The composite: the ParDo without its spec, over the steps. *)
Definition composite (t : PTransform) (subtransforms : list string) : PTransform :=
  mkPTransform (pt_unique_name t) None subtransforms (pt_inputs t) (pt_outputs t) (pt_environment_id t).

(** The drain step, between splitting and processing. *)
Definition add_truncate (s : SplittableParDo) (transform_id split_coder_id split_out_id : string) (existing rval : Components)
    : translated (list string * string * Components) :=
  coder_id ← coder_id_for s "TruncateAndSize" existing;
  '(double_id, rval) ← get_or_add_double_coder existing rval;
  let rval := insert_coder coder_id (make_kv_coder split_coder_id double_id) rval in
  '(out_id, rval) ← add_between s "TruncateAndSize" coder_id existing rval;
  id ← step_id transform_id "TruncateAndSize" existing;
  pt ← make_step s SPLITTABLE_TRUNCATE_SIZED_RESTRICTION_URN "TruncateAndSize" (step_inputs s split_out_id) {["out" := out_id]} existing;
  Ok ([id], out_id, insert_transform id pt rval).

Definition sized_replacement (is_drain : bool) : replacement := λ transform_id existing,
  match splittable_par_do transform_id existing with
  | None => Ok None
  | Some s =>
      pair_coder_id ← coder_id_for s "PairWithRestriction" existing;
      let rval := insert_coder pair_coder_id
        (make_kv_coder (pc_coder_id (main_input_pcol s)) (restriction_coder_id (par_do_payload s))) empty_components in
      '(pair_out_id, rval) ← add_between s "PairWithRestriction" pair_coder_id existing rval;
      split_coder_id ← coder_id_for s "SplitAndSize" existing;
      '(double_coder_id, rval) ← get_or_add_double_coder existing rval;
      let rval := insert_coder split_coder_id (make_kv_coder pair_coder_id double_coder_id) rval in
      '(split_out_id, rval) ← add_between s "SplitAndSize" split_coder_id existing rval;
      pair_id ← step_id transform_id "PairWithRestriction" existing;
      pair ← make_step s SPLITTABLE_PAIR_WITH_RESTRICTION_URN "PairWithRestriction" (pt_inputs (par_do s)) {["out" := pair_out_id]} existing;
      let rval := insert_transform pair_id pair rval in
      split_id ← step_id transform_id "SplitAndSize" existing;
      split ← make_step s SPLITTABLE_SPLIT_AND_SIZE_RESTRICTIONS_URN "SplitAndSize" (step_inputs s pair_out_id) {["out" := split_out_id]} existing;
      let rval := insert_transform split_id split rval in
      process_id ← step_id transform_id "ProcessSizedElementsAndRestrictions" existing;
      '(truncate, process_input, rval) ←
        (if is_drain then add_truncate s transform_id split_coder_id split_out_id existing rval else Ok ([], split_out_id, rval));
      process ← make_step s SPLITTABLE_PROCESS_SIZED_ELEMENTS_AND_RESTRICTIONS_URN "ProcessSizedElementsAndRestrictions"
        (step_inputs s process_input) (pt_outputs (par_do s)) existing;
      Ok (Some (mkMessage (Some (insert_transform process_id process rval))
        (Some (PtransformRoot (composite (par_do s) ([pair_id; split_id] ++ truncate ++ [process_id]))))))
  end.

(** * Replacing transforms *)

(** The code recurses for ever on a hierarchy with a cycle; a transform without one is
    reached within [depth] levels. *)
Fixpoint remove_subtransforms (depth : nat) (pt : PTransform) (ts : gmap string PTransform) : translated (gmap string PTransform) :=
  try_fold (λ ts sub_id,
    match ts !! sub_id, depth with
    | None, _ => Ok ts
    | Some _, O => Panic "subtransforms form a cycle"
    | Some sub, S depth => ts ← remove_subtransforms depth sub ts; Ok (delete sub_id ts)
    end) ts (pt_subtransforms pt).

Definition replace_transforms (comps : Components) (ts : gmap string PTransform) : Components :=
  mkComponents ts (pcollections comps) (coders comps) (environments comps) (windowing_strategies comps).

(** One round of the loop over the ids of the transforms that there were. *)
Definition update_one (urn : string) (get_replacement : replacement) (comps : Components) (transform_id : string) : translated Components :=
  match transforms comps !! transform_id with
  | None => Ok comps
  | Some t =>
      if bool_decide (fs_urn <$> pt_spec t = Some urn) then
        updated ← get_replacement transform_id comps;
        match updated with
        | Some updated =>
            match mwc_root updated with
            | Some (PtransformRoot updated_pt) =>
                if decide (pt_outputs updated_pt = pt_outputs t) then
                  ts ← remove_subtransforms (size (transforms comps)) t (transforms comps);
                  let comps := replace_transforms comps ts in
                  let comps := match mwc_components updated with Some extra => extend_components comps extra | None => comps end in
                  Ok (insert_transform transform_id updated_pt comps)
                else Panic "TransformReplacement must produce all outputs of the original PTransform"
            | _ => Ok comps
            end
        | None => Ok comps
        end
      else Ok comps
  end.

Definition update_transform (urn : string) (comps : Components) (get_replacement : replacement) : translated Components :=
  try_fold (update_one urn get_replacement) comps (map_iter (transforms comps)).*1.
End expander.
