(* ===== verification/ExpanderSpec.v ===== *)
(** What the expansion of splittable ParDos does: each becomes a composite over a chain of
    steps, wired through new PCollections, and everything else stays. *)
From S2P Require Import Prelude Bytes CoderGraph Pipeline StageFuserSpec Expander.
From Stdlib Require Import Ascii.
From stdpp Require Import pretty.
Set Warnings "-clear-no-such-hyp".
Local Open Scope string_scope.
Local Open Scope list_scope.

(** * Unique ids *)

Lemma generate_unique_id_from_ok (fuel i : nat) prefix (taken : gset string) :
  (∀ j, j < i → prefix +:+ pretty j ∈ taken)%nat → (size taken ≤ fuel + i)%nat →
  ∃ j : nat, generate_unique_id_from fuel i prefix taken = Ok (prefix +:+ pretty j) ∧ prefix +:+ pretty j ∉ taken.
Proof.
  revert i. induction fuel as [|fuel IH]; intros i Hi Hs; simpl; (case_decide as Hin; [|by exists i]).
  all: assert (Hall : ∀ j, (j < S i)%nat → prefix +:+ pretty j ∈ taken)
    by (intros j Hj; destruct (decide (j = i)) as [->|]; [done|apply Hi; lia]).
  - pose proof (candidates_bound (λ j : nat, prefix +:+ pretty j) taken (S i)) as Hb. exfalso.
    assert (Hinj : Inj (=) (=) (λ j : nat, prefix +:+ pretty j)); [|specialize (Hb Hinj Hall); lia].
    intros a b E. apply (inj (String.append prefix)) in E. by apply (inj (@pretty nat _)) in E.
  - apply IH; [done|lia].
Qed.

Lemma generate_unique_id_ok prefix (taken : gset string) :
  ∃ j : nat, generate_unique_id prefix taken = Ok (prefix +:+ pretty j) ∧ prefix +:+ pretty j ∉ taken.
Proof. apply generate_unique_id_from_ok; lia. Qed.

(** ** Slashes

    The ids made for a ParDo have a slash in them, that of the double coder has none. *)

Fixpoint has_slash (s : string) : bool :=
  match s with EmptyString => false | String c s => bool_decide (c = "/"%char) || has_slash s end.

Lemma has_slash_app s t : has_slash (s +:+ t) = has_slash s || has_slash t.
Proof. induction s as [|c s IH]; [done|]. change (String c s +:+ t) with (String c (s +:+ t)). cbn. by rewrite IH, orb_assoc. Qed.

Lemma pretty_has_slash (n : nat) : has_slash (pretty n) = false.
Proof.
  assert (Hgo : ∀ x s, has_slash s = false → has_slash (pretty_N_go x s) = false).
  { intros x. induction (N.lt_wf_0 x) as [x _ IH]. intros s Hs. destruct (decide (0 < x)%N) as [Hx|Hx].
    - rewrite pretty_N_go_step by done. apply IH; [apply N.div_lt; lia|]. cbn. rewrite Hs. unfold pretty_N_char.
      by repeat case_match.
    - assert (x = 0%N) as -> by lia. by rewrite pretty_N_go_0. }
  unfold pretty, pretty_nat, pretty, pretty_N. case_decide; [done|]. by apply Hgo.
Qed.

Lemma slash_apart a b (i j : nat) : has_slash a = false → a +:+ pretty i ≠ b +:+ "/" +:+ pretty j.
Proof.
  intros Ha E. apply (f_equal has_slash) in E. rewrite !has_slash_app, Ha, !pretty_has_slash in E. cbn in E. by rewrite orb_true_r in E.
Qed.

(** * One expansion *)

Lemma string_app_assoc (a b c : string) : (a +:+ b) +:+ c = a +:+ (b +:+ c).
Proof. induction a as [|x a IH]; [done|]. change (String x ((a +:+ b) +:+ c) = String x (a +:+ (b +:+ c))). by f_equal. Qed.

(** The id made for a step on [base]. *)
Definition made_id (base step : string) (j : nat) : string := base +:+ "/" +:+ step +:+ pretty j.

Lemma made_id_ok base step (taken : gset string) :
  ∃ j : nat, generate_unique_id (base +:+ "/" +:+ step) taken = Ok (made_id base step j) ∧ made_id base step j ∉ taken.
Proof.
  destruct (generate_unique_id_ok (base +:+ "/" +:+ step) taken) as (j & E & Hj). rewrite !string_app_assoc in E, Hj.
  by exists j.
Qed.

(** Ids of steps whose names part early are apart. *)
Ltac ids_apart := unfold made_id; let E := fresh "E" in intros E; apply (inj (String.append _)) in E; discriminate E.

Definition is_step (comps : Components) (s : SplittableParDo) (id urn : string) (reads : gmap string string → Prop) (outputs : gmap string string) : Prop :=
  ∃ name inputs, transforms comps !! id
      = Some (mkPTransform name (Some (mkFunctionSpec urn (fs_payload (par_do_spec s)))) [] inputs outputs (pt_environment_id (par_do s)))
    ∧ reads inputs.

(** The side inputs of the ParDo, and [input] under the name of its main input. *)
Definition step_reads (s : SplittableParDo) (input : string) (inputs : gmap string string) : Prop :=
  ∀ name c, inputs !! name = Some c ↔
    if decide (name ∈ dom (side_inputs (par_do_payload s))) then pt_inputs (par_do s) !! name = Some c else name = main_input_name s ∧ c = input.

(** A PCollection between steps, of pairs: as bounded and as windowed as the input. *)
Definition between_steps (comps : Components) (s : SplittableParDo) (c coder key value : string) : Prop :=
  ∃ name, pcollections comps !! c
      = Some (mkPCollection name coder (pc_is_bounded (main_input_pcol s)) (pc_windowing_strategy_id (main_input_pcol s)))
    ∧ coders comps !! coder = Some (make_kv_coder key value).

Definition is_double (comps : Components) (d : string) : Prop := ∃ c, coders comps !! d = Some c ∧ spec_urn c = Some DOUBLE_CODER.

Section expansion.
Context `{HashIterLaws, PayloadDecoder}.

(** The chain of a ParDo: elements are paired with restrictions, the restrictions split
    and sized, truncated when draining, and processed into the outputs of the ParDo. *)
Definition expansion (drain : bool) (s : SplittableParDo) (comps : Components) (ids : list string) : Prop :=
  ∃ pair split process pair_out split_out pair_coder split_coder double,
    is_step comps s pair SPLITTABLE_PAIR_WITH_RESTRICTION_URN (eq (pt_inputs (par_do s))) {["out" := pair_out]}
    ∧ between_steps comps s pair_out pair_coder (pc_coder_id (main_input_pcol s)) (restriction_coder_id (par_do_payload s))
    ∧ is_step comps s split SPLITTABLE_SPLIT_AND_SIZE_RESTRICTIONS_URN (step_reads s pair_out) {["out" := split_out]}
    ∧ between_steps comps s split_out split_coder pair_coder double ∧ is_double comps double
    ∧ if drain then
        ∃ truncate out coder, ids = [pair; split; truncate; process]
          ∧ is_step comps s truncate SPLITTABLE_TRUNCATE_SIZED_RESTRICTION_URN (step_reads s split_out) {["out" := out]}
          ∧ between_steps comps s out coder split_coder double
          ∧ is_step comps s process SPLITTABLE_PROCESS_SIZED_ELEMENTS_AND_RESTRICTIONS_URN (step_reads s out) (pt_outputs (par_do s))
      else
        ids = [pair; split; process]
        ∧ is_step comps s process SPLITTABLE_PROCESS_SIZED_ELEMENTS_AND_RESTRICTIONS_URN (step_reads s split_out) (pt_outputs (par_do s)).

(** The chain depends on the components only for what it is made of. *)
Lemma expansion_mono drain s comps comps' ids :
  (∀ id, id ∈ ids → transforms comps' !! id = transforms comps !! id) → pcollections comps ⊆ pcollections comps' → coders comps ⊆ coders comps' →
  expansion drain s comps ids → expansion drain s comps' ids.
Proof.
  intros Ht Hp Hc (pair & split & process & pair_out & split_out & pair_coder & split_coder & double & X1 & X2 & X3 & X4 & X5 & X6).
  assert (Hstep : ∀ id urn i o, id ∈ ids → is_step comps s id urn i o → is_step comps' s id urn i o).
  { intros id urn i o Hid (name & inputs & E & Hi). exists name, inputs. by rewrite Ht. }
  assert (Hbet : ∀ c coder k v, between_steps comps s c coder k v → between_steps comps' s c coder k v).
  { intros c coder k v (name & Ep & Ec). exists name. split; [by eapply lookup_weaken|by eapply lookup_weaken]. }
  assert (Hd : is_double comps' double) by (destruct X5 as (c & Ec & Eu); exists c; split; [by eapply lookup_weaken|done]).
  exists pair, split, process, pair_out, split_out, pair_coder, split_coder, double. destruct drain.
  - destruct X6 as (truncate & out & coder & -> & X7 & X8 & X9).
    split_and!; [apply Hstep; [set_solver|done]|by apply Hbet|apply Hstep; [set_solver|done]|by apply Hbet|done|].
    exists truncate, out, coder. split_and!; [done|apply Hstep; [set_solver|done]|by apply Hbet|apply Hstep; [set_solver|done]].
  - destruct X6 as (-> & X7).
    split_and!; [apply Hstep; [set_solver|done]|by apply Hbet|apply Hstep; [set_solver|done]|by apply Hbet|done|done|apply Hstep; [set_solver|done]].
Qed.

(** The double coder is found, or added under an id without a slash. *)
Lemma double_coder_ok existing :
  ∃ d f, (∀ out, get_or_add_double_coder existing out = Ok (d, f out))
    ∧ ((is_double existing d ∧ f = id)
       ∨ (d ∉ dom (coders existing) ∧ has_slash d = false ∧ f = insert_coder d (mkCoder (Some DOUBLE_CODER) []))).
Proof.
  unfold get_or_add_double_coder. destruct (find _ _) as [[d c]|] eqn:Ef.
  - exists d, id. split; [done|]. left. split; [|done]. apply find_some in Ef as [Hin Ec]. apply bool_decide_eq_true in Ec.
    rewrite <- list_elem_of_In, (map_iter_perm _), elem_of_map_to_list in Hin. by exists c.
  - destruct (generate_unique_id_ok "DoubleCoder" (dom (coders existing))) as (j & E & Hj).
    exists ("DoubleCoder" +:+ pretty j), (insert_coder ("DoubleCoder" +:+ pretty j) (mkCoder (Some DOUBLE_CODER) [])).
    split; [intros out; by rewrite E|]. right. split_and!; [done| |done]. by rewrite has_slash_app, pretty_has_slash.
Qed.

(** What an expansion adds. *)
Record added (drain : bool) (s : SplittableParDo) (comps rval : Components) (ids : list string) : Prop := {
  ad_ids : NoDup ids ∧ ∀ id, is_Some (transforms rval !! id) ↔ id ∈ ids;
  ad_transforms : transforms rval ##ₘ transforms comps;
  ad_pcollections : pcollections rval ##ₘ pcollections comps;
  ad_coders : coders rval ##ₘ coders comps;
  ad_rest : environments rval = ∅ ∧ windowing_strategies rval = ∅;
  ad_expansion : expansion drain s (extend_components comps rval) ids;
}.

Lemma make_sdf_sub_transform_ok urn payload inputs outputs prefix env existing :
  ∃ name, make_sdf_sub_transform urn payload inputs outputs prefix env existing
    = Ok (mkPTransform name (Some (mkFunctionSpec urn payload)) [] inputs outputs env).
Proof.
  unfold make_sdf_sub_transform, generate_unique_pcollection_name. destruct (generate_unique_id_ok prefix (unique_names existing)) as (j & -> & _).
  by eexists.
Qed.

Lemma add_between_ok s step coder existing :
  ∃ (j : nat) name, (∀ rval, add_between s step coder existing rval
      = Ok (made_id (main_input_pcol_id s) step j, insert_pcollection (made_id (main_input_pcol_id s) step j)
          (mkPCollection name coder (pc_is_bounded (main_input_pcol s)) (pc_windowing_strategy_id (main_input_pcol s))) rval))
    ∧ made_id (main_input_pcol_id s) step j ∉ dom (pcollections existing).
Proof.
  destruct (made_id_ok (main_input_pcol_id s) step (dom (pcollections existing))) as (j & E & Hj).
  unfold add_between, make_pcollection, generate_unique_pcollection_name.
  destruct (generate_unique_id_ok (pc_unique_name (main_input_pcol s) +:+ "/" +:+ step) (unique_names existing)) as (k & Ek & _).
  exists j. eexists. split; [|done]. intros rval. by rewrite E, Ek.
Qed.

Lemma disjoint_insert_fresh {A} (m k : gmap string A) i x : i ∉ dom k → m ##ₘ k → <[i := x]> m ##ₘ k.
Proof. intros Hi Hm. apply map_disjoint_insert_l. split; [by apply not_elem_of_dom|done]. Qed.

Lemma splittable_par_do_parts id comps s : splittable_par_do id comps = Some s →
  transforms comps !! id = Some (par_do s) ∧ pt_spec (par_do s) = Some (par_do_spec s)
  ∧ is_Some (pt_inputs (par_do s) !! main_input_name s).
Proof.
  unfold splittable_par_do. intros E. destruct (transforms comps !! id) as [t|]; [|done]. cbn in E.
  destruct (pt_spec t) as [spec|] eqn:Es; [|done]. cbn in E. destruct (decode_payload (fs_payload spec)) as [p|]; [|done]. cbn in E.
  destruct (bool_decide _); [done|]. destruct (pt_inputs t !! _) as [c|] eqn:Ec; [|done]. cbn in E. destruct (pcollections comps !! c); [|done].
  injection E as <-. split_and!; [done|done|by eexists].
Qed.

Lemma step_reads_ok id comps s input : splittable_par_do id comps = Some s → step_reads s input (step_inputs s input).
Proof.
  intros (_ & _ & [m Em])%splittable_par_do_parts name c. unfold step_inputs, extend. rewrite lookup_union_Some_raw, map_lookup_filter_Some, map_lookup_filter_None.
  rewrite lookup_singleton_Some. cbn [fst]. case_decide as Hside.
  - split; [|by left]. intros [[? _]|([Hn|Hn] & <- & <-)]; [done|congruence|]. by destruct (Hn m Em).
  - split; [by intros [[_ ?]|(_ & <- & <-)]|]. intros [-> ->]. right. split; [|done]. by right.
Qed.

Ltac nodup_ids :=
  repeat (apply NoDup_cons; split; [let Hx := fresh in intros Hx; repeat (apply elem_of_cons in Hx as [Hx|Hx]; [congruence|]); by apply elem_of_nil in Hx|]);
  apply NoDup_nil_2.
Ltac known_ids := clear; intros ?; rewrite <- elem_of_dom; cbn; rewrite ?dom_insert_L, ?dom_empty_L; set_solver.
Ltac disjoint_ids := cbn; repeat (apply disjoint_insert_fresh; [assumption|]); apply map_disjoint_empty_l.
Ltac look_in :=
  repeat first [rewrite lookup_insert_eq; reflexivity | rewrite lookup_insert_ne by first [assumption | apply not_eq_sym; assumption]].
Ltac look_extra := apply lookup_union_Some_l; cbn; look_in.
Ltac in_extra := first [look_extra | eexists; split; look_extra | eexists _, _; split; [look_extra|first [reflexivity | by eapply step_reads_ok]]].
Ltac in_old := cbn; unfold extend; rewrite lookup_union_r; [assumption|look_in; apply lookup_empty].

Lemma sized_replacement_ok drain tid comps s :
  splittable_par_do tid comps = Some s →
  ∃ rval ids, sized_replacement drain tid comps = Ok (Some (mkMessage (Some rval) (Some (PtransformRoot (composite (par_do s) ids)))))
    ∧ added drain s comps rval ids.
Proof.
  intros Es. unfold sized_replacement. rewrite Es.
  destruct (made_id_ok (pc_coder_id (main_input_pcol s)) "PairWithRestriction" (dom (coders comps))) as (jpc & Epc & Hpc).
  destruct (made_id_ok (pc_coder_id (main_input_pcol s)) "SplitAndSize" (dom (coders comps))) as (jsc & Esc & Hsc).
  destruct (made_id_ok (pc_coder_id (main_input_pcol s)) "TruncateAndSize" (dom (coders comps))) as (jtc & Etc & Htc).
  destruct (made_id_ok tid "PairWithRestriction" (dom (transforms comps))) as (jp & Ep & Hp).
  destruct (made_id_ok tid "SplitAndSize" (dom (transforms comps))) as (js & Esp & Hs).
  destruct (made_id_ok tid "TruncateAndSize" (dom (transforms comps))) as (jt & Et & Ht).
  destruct (made_id_ok tid "ProcessSizedElementsAndRestrictions" (dom (transforms comps))) as (jr & Er & Hr).
  destruct (double_coder_ok comps) as (d & f & Ed & Hd).
  unfold add_truncate, coder_id_for, step_id, make_step. rewrite Epc, Esc, Etc, Ep, Esp, Et, Er.
  set (cp := made_id (pc_coder_id (main_input_pcol s)) "PairWithRestriction" jpc) in *.
  set (cs := made_id (pc_coder_id (main_input_pcol s)) "SplitAndSize" jsc) in *.
  set (ct := made_id (pc_coder_id (main_input_pcol s)) "TruncateAndSize" jtc) in *.
  set (tp := made_id tid "PairWithRestriction" jp) in *. set (ts := made_id tid "SplitAndSize" js) in *.
  set (tt := made_id tid "TruncateAndSize" jt) in *. set (tr := made_id tid "ProcessSizedElementsAndRestrictions" jr) in *.
  destruct (add_between_ok s "PairWithRestriction" cp comps) as (jpo & npo & Epo & Hpo).
  destruct (add_between_ok s "SplitAndSize" cs comps) as (jso & nso & Eso & Hso).
  destruct (add_between_ok s "TruncateAndSize" ct comps) as (jto & nto & Eto & Hto).
  set (op := made_id (main_input_pcol_id s) "PairWithRestriction" jpo) in *. set (os := made_id (main_input_pcol_id s) "SplitAndSize" jso) in *.
  set (ot := made_id (main_input_pcol_id s) "TruncateAndSize" jto) in *.
  cbn [mbind outcome_bind]. rewrite Epo. cbn [mbind outcome_bind]. rewrite Ed. cbn [mbind outcome_bind]. rewrite Eso. cbn [mbind outcome_bind].
  destruct (make_sdf_sub_transform_ok SPLITTABLE_PAIR_WITH_RESTRICTION_URN (fs_payload (par_do_spec s)) (pt_inputs (par_do s))
    {["out" := op]} (pt_unique_name (par_do s) +:+ "/" +:+ "PairWithRestriction") (pt_environment_id (par_do s)) comps) as (n1 & ->).
  destruct (make_sdf_sub_transform_ok SPLITTABLE_SPLIT_AND_SIZE_RESTRICTIONS_URN (fs_payload (par_do_spec s)) (step_inputs s op)
    {["out" := os]} (pt_unique_name (par_do s) +:+ "/" +:+ "SplitAndSize") (pt_environment_id (par_do s)) comps) as (n2 & ->).
  destruct (make_sdf_sub_transform_ok SPLITTABLE_TRUNCATE_SIZED_RESTRICTION_URN (fs_payload (par_do_spec s)) (step_inputs s os)
    {["out" := ot]} (pt_unique_name (par_do s) +:+ "/" +:+ "TruncateAndSize") (pt_environment_id (par_do s)) comps) as (n3 & En3).
  destruct (make_sdf_sub_transform_ok SPLITTABLE_PROCESS_SIZED_ELEMENTS_AND_RESTRICTIONS_URN (fs_payload (par_do_spec s))
    (step_inputs s (if drain then ot else os)) (pt_outputs (par_do s))
    (pt_unique_name (par_do s) +:+ "/" +:+ "ProcessSizedElementsAndRestrictions") (pt_environment_id (par_do s)) comps) as (n4 & En4).
  assert (Ho : op ≠ os ∧ op ≠ ot ∧ os ≠ ot) by (split_and!; ids_apart).
  assert (Hc : cp ≠ cs ∧ cp ≠ ct ∧ cs ≠ ct) by (split_and!; ids_apart).
  assert (Hts : tp ≠ ts ∧ tp ≠ tt ∧ tp ≠ tr ∧ ts ≠ tt ∧ ts ≠ tr ∧ tt ≠ tr) by (split_and!; ids_apart).
  assert (Hdc : d ≠ cp ∧ d ≠ cs ∧ d ≠ ct).
  { destruct Hd as [[(c & Hin & _) _]|(_ & Hno & _)].
    - apply elem_of_dom_2 in Hin. split_and!; congruence.
    - assert (Hsl : ∀ step j, d ≠ made_id (pc_coder_id (main_input_pcol s)) step j); [|split_and!; apply Hsl].
      intros step j E. apply (f_equal has_slash) in E. unfold made_id in E. rewrite Hno, !has_slash_app in E. cbn in E. by rewrite orb_true_r in E. }
  destruct Ho as (? & ? & ?), Hc as (? & ? & ?), Hts as (? & ? & ? & ? & ? & ?), Hdc as (? & ? & ?).
  clear Epc Esc Etc Ep Esp Et Er Epo Eso. clearbody op os ot cp cs ct tp ts tt tr. destruct drain; cbn [mbind outcome_bind].
  - rewrite Ed. cbn [mbind outcome_bind]. rewrite Eto. cbn [mbind outcome_bind]. rewrite En3. cbn [mbind outcome_bind app]. rewrite En4.
    eexists _, [tp; ts; tt; tr]. split; [reflexivity|].
    destruct Hd as [[(c & Hin & Hu) ->]|(Hnd & _ & ->)].
    + split; [split; [nodup_ids|known_ids]|disjoint_ids..|done|].
      exists tp, ts, tr, op, os, cp, cs, d. split_and!; [in_extra..|exists c; split; [in_old|done]|].
      exists tt, ot, ct. split_and!; [done|in_extra..].
    + split; [split; [nodup_ids|known_ids]|disjoint_ids..|done|].
      exists tp, ts, tr, op, os, cp, cs, d. split_and!; [in_extra..|eexists; split; [in_extra|done]|].
      exists tt, ot, ct. split_and!; [done|in_extra..].
  - rewrite En4. eexists _, [tp; ts; tr]. split; [reflexivity|].
    destruct Hd as [[(c & Hin & Hu) ->]|(Hnd & _ & ->)].
    + split; [split; [nodup_ids|known_ids]|disjoint_ids..|done|].
      exists tp, ts, tr, op, os, cp, cs, d. split_and!; [in_extra..|exists c; split; [in_old|done]|done|in_extra].
    + split; [split; [nodup_ids|known_ids]|disjoint_ids..|done|].
      exists tp, ts, tr, op, os, cp, cs, d. split_and!; [in_extra..|eexists; split; [in_extra|done]|done|in_extra].
Qed.

(** * The loop *)

(** A splittable ParDo of the pipeline. *)
Definition is_sdf (comps : Components) (id : string) (s : SplittableParDo) : Prop :=
  splittable_par_do id comps = Some s ∧ fs_urn (par_do_spec s) = PAR_DO_TRANSFORM.

(** Every PCollection a transform reads is declared. *)
Definition inputs_declared (comps : Components) : Prop :=
  ∀ id t i c, transforms comps !! id = Some t → pt_inputs t !! i = Some c → is_Some (pcollections comps !! c).

Lemma splittable_par_do_transform id comps s : splittable_par_do id comps = Some s →
  transforms comps !! id = Some (par_do s) ∧ pt_spec (par_do s) = Some (par_do_spec s).
Proof. intros (? & ? & _)%splittable_par_do_parts. done. Qed.

(** Whether a transform is one depends on itself and its declared inputs. *)
Lemma splittable_par_do_same id comps comps' t :
  inputs_declared comps → pcollections comps ⊆ pcollections comps' →
  transforms comps !! id = Some t → transforms comps' !! id = Some t → splittable_par_do id comps' = splittable_par_do id comps.
Proof.
  intros Hin Hp E E'. unfold splittable_par_do. rewrite E, E'. cbn. destruct (pt_spec t) as [spec|]; [|done]. cbn.
  destruct (decode_payload (fs_payload spec)) as [p|]; [|done]. cbn. destruct (bool_decide _); [done|].
  destruct (pt_inputs t !! _) as [c|] eqn:Ec; [|done]. cbn. destruct (Hin id t _ c E Ec) as [x Ex].
  by rewrite Ex, (lookup_weaken _ _ _ _ Ex Hp).
Qed.

(** A transform that is none is left alone. *)
Lemma update_one_other drain comps id :
  (∀ s, ¬ is_sdf comps id s) → update_one PAR_DO_TRANSFORM (sized_replacement drain) comps id = Ok comps.
Proof.
  intros Hno. unfold update_one. destruct (transforms comps !! id) as [t|] eqn:Et; [|done]. case_bool_decide as Hu; [|done].
  unfold sized_replacement. destruct (splittable_par_do id comps) as [s|] eqn:Es; [|done]. exfalso. apply (Hno s). split; [done|].
  destruct (splittable_par_do_transform _ _ _ Es) as [Et' Esp]. assert (t = par_do s) as -> by congruence. rewrite Esp in Hu. by injection Hu.
Qed.

(** One that has no subtransforms is replaced by its composite. *)
Lemma update_one_sdf drain comps id s :
  is_sdf comps id s → pt_subtransforms (par_do s) = [] →
  ∃ rval ids, added drain s comps rval ids
    ∧ update_one PAR_DO_TRANSFORM (sized_replacement drain) comps id
      = Ok (insert_transform id (composite (par_do s) ids) (extend_components comps rval)).
Proof.
  intros [Es Hu] Hsub. destruct (sized_replacement_ok drain id comps s Es) as (rval & ids & E & Ha). exists rval, ids. split; [done|].
  destruct (splittable_par_do_transform _ _ _ Es) as [Et Esp]. unfold update_one. rewrite Et, Esp. cbn [fmap option_fmap option_map].
  rewrite bool_decide_true by (by rewrite Hu). rewrite E. cbn [mbind outcome_bind mwc_root mwc_components composite pt_outputs].
  rewrite decide_True by done. destruct (size (transforms comps)); cbn; rewrite Hsub; cbn; by destruct comps.
Qed.

Section loop.
Context (drain : bool) (comps0 : Components) (Hin : inputs_declared comps0)
  (Hleaf : ∀ id s, is_sdf comps0 id s → pt_subtransforms (par_do s) = []).

(** After the transforms [done]: theirs are expanded, under ids the pipeline did not have
    and that no two of them share, and the rest is as it was. *)
Record expanded (done : list string) (comps : Components) : Prop := {
  ex_pcollections : pcollections comps0 ⊆ pcollections comps;
  ex_coders : coders comps0 ⊆ coders comps;
  ex_rest : environments comps = environments comps0 ∧ windowing_strategies comps = windowing_strategies comps0;
  ex_kept : ∀ id t, transforms comps0 !! id = Some t → (∀ s, id ∈ done → ¬ is_sdf comps0 id s) → transforms comps !! id = Some t;
  ex_expanded : ∀ id s, id ∈ done → is_sdf comps0 id s → ∃ ids, transforms comps !! id = Some (composite (par_do s) ids)
    ∧ NoDup ids ∧ (∀ x, x ∈ ids → transforms comps0 !! x = None) ∧ expansion drain s comps ids;
  ex_new : ∀ x t, transforms comps !! x = Some t → transforms comps0 !! x = None → ∃ id s ids, id ∈ done ∧ is_sdf comps0 id s
    ∧ transforms comps !! id = Some (composite (par_do s) ids) ∧ x ∈ ids;
  ex_apart : ∀ id id' s s' ids ids' x, id ∈ done → id' ∈ done → is_sdf comps0 id s → is_sdf comps0 id' s' →
    transforms comps !! id = Some (composite (par_do s) ids) → transforms comps !! id' = Some (composite (par_do s') ids') →
    x ∈ ids → x ∈ ids' → id = id';
}.

Lemma expansion_known s comps ids x : expansion drain s comps ids → x ∈ ids → is_Some (transforms comps !! x).
Proof.
  intros (pair & split & process & po & so & pc & sc & d & (? & ? & E1 & _) & _ & (? & ? & E2 & _) & _ & _ & Hrest) Hx. destruct drain.
  - destruct Hrest as (tr & o & c & -> & (? & ? & E3 & _) & _ & (? & ? & E4 & _)). rewrite !elem_of_cons, elem_of_nil in Hx.
    destruct Hx as [->|[->|[->|[->|[]]]]]; by eexists.
  - destruct Hrest as (-> & (? & ? & E3 & _)). rewrite !elem_of_cons, elem_of_nil in Hx. destruct Hx as [->|[->|[->|[]]]]; by eexists.
Qed.

Lemma expanded_known done comps id : expanded done comps → is_Some (transforms comps0 !! id) → is_Some (transforms comps !! id).
Proof.
  intros E [t Et]. destruct (decide (id ∈ done)) as [Hd|Hd].
  - destruct (splittable_par_do id comps0) as [s|] eqn:Es; [destruct (decide (fs_urn (par_do_spec s) = PAR_DO_TRANSFORM)) as [Hu|Hu]|].
    + destruct (ex_expanded _ _ E id s Hd) as (ids & Ei & _); [done|]. by eexists.
    + exists t. apply (ex_kept _ _ E); [done|]. intros s' _ [? ?]. congruence.
    + exists t. apply (ex_kept _ _ E); [done|]. intros s' _ [? ?]. congruence.
  - exists t. by apply (ex_kept _ _ E).
Qed.

Lemma expand_skip done comps x :
  expanded done comps → (∀ s, ¬ is_sdf comps0 x s) → expanded (done ++ [x]) comps.
Proof.
  intros [E1 E2 E3 E4 E5 E6 E7] Hx. split; [done|done|done|..].
  - intros id t Et Hn. apply E4; [done|]. intros s Hd. apply Hn, elem_of_app. by left.
  - intros id s [Hd| ->%list_elem_of_singleton]%elem_of_app Hs; [by apply E5|by destruct (Hx s)].
  - intros y t Et En. destruct (E6 y t Et En) as (id & s & ids & Hd & ?). exists id, s, ids. split; [apply elem_of_app; by left|done].
  - intros id id' s s' ids ids' y [Hd| ->%list_elem_of_singleton]%elem_of_app [Hd'| ->%list_elem_of_singleton]%elem_of_app Hs Hs';
      [by eapply E7|by destruct (Hx s')|by destruct (Hx s)..].
Qed.

Lemma expand_one done comps x s rval ids :
  expanded done comps → x ∉ done → is_sdf comps0 x s → is_Some (transforms comps !! x) → added drain s comps rval ids →
  expanded (done ++ [x]) (insert_transform x (composite (par_do s) ids) (extend_components comps rval)).
Proof.
  intros E Hx Hs Hxs [[A1 A2] A3 A4 A5 [A6 A7] A8]. pose proof (expanded_known _ _ x E) as Hkn. pose proof E as [E1 E2 E3 E4 E5 E6 E7].
  set (comps' := insert_transform x (composite (par_do s) ids) (extend_components comps rval)).
  assert (Hx0 : is_Some (transforms comps0 !! x)).
  { destruct Hs as [Hs _]. destruct (splittable_par_do_transform _ _ _ Hs) as [Et _]. by eexists. }
  assert (Hfresh : ∀ y, y ∈ ids → transforms comps !! y = None).
  { intros y [t Hy]%A2. by eapply map_disjoint_Some_l. }
  assert (Hold : ∀ y t, y ≠ x → transforms comps !! y = Some t → transforms comps' !! y = Some t).
  { intros y t Hne Ey. cbn. rewrite lookup_insert_ne by done. by apply lookup_union_Some_r. }
  assert (Hnew : ∀ y t, y ≠ x → transforms comps' !! y = Some t → y ∈ ids ∨ transforms comps !! y = Some t).
  { intros y t Hne Ey. cbn in Ey. rewrite lookup_insert_ne in Ey by done. apply lookup_union_Some_raw in Ey as [Ey|[_ Ey]]; [left|by right].
    apply A2. by eexists. }
  assert (Hnone : ∀ y, transforms comps !! y = None → transforms comps0 !! y = None).
  { intros y Hy. destruct (transforms comps0 !! y) eqn:Ey; [|done]. destruct (expanded_known _ _ y E) as [? ?]; [by eexists|congruence]. }
  assert (Hdone : ∀ y, y ∈ done → y ≠ x) by (intros y Hy ->; done).
  assert (Hself : transforms comps' !! x = Some (composite (par_do s) ids)) by (cbn; by rewrite lookup_insert_eq).
  split; cbn [comps' insert_transform extend_components pcollections coders environments windowing_strategies].
  - etrans; [exact E1|]. by apply map_union_subseteq_r.
  - etrans; [exact E2|]. by apply map_union_subseteq_r.
  - unfold extend. rewrite A6, A7, !(left_id_L ∅ (∪)). done.
  - intros id t Et Hn. apply Hold; [|apply E4; [done|]; intros s' Hd; apply Hn, elem_of_app; by left].
    intros ->. apply (Hn s); [apply elem_of_app; right; by left|done].
  - intros id s' [Hd| ->%list_elem_of_singleton]%elem_of_app Hs'.
    + destruct (E5 id s' Hd Hs') as (ids' & Ei & Hnd & Hf & Hex). exists ids'. split_and!; [by apply Hold; [apply Hdone|]|done|done|].
      eapply expansion_mono; [| | |exact Hex]; cbn [comps' insert_transform extend_components pcollections coders];
        [|by apply map_union_subseteq_r..].
      intros y Hy. destruct (expansion_known _ _ _ _ Hex Hy) as [t Et]. rewrite Et. apply Hold; [|done].
      intros ->. rewrite (Hf _ Hy) in Hx0. by destruct Hx0.
    + assert (s' = s) as -> by (destruct Hs, Hs'; congruence). exists ids. split_and!; [done|done|by intros y Hy%Hfresh%Hnone|].
      eapply expansion_mono; [| | |exact A8]; [|done..]. intros y Hy. cbn. apply lookup_insert_ne. intros ->.
      rewrite (Hfresh _ Hy) in Hxs. by destruct Hxs.
  - intros y t Ey Hy0. assert (Hyx : y ≠ x) by (intros ->; rewrite Hy0 in Hx0; by destruct Hx0).
    destruct (Hnew y t Hyx Ey) as [Hin'|Ey'].
    + exists x, s, ids. split_and!; [apply elem_of_app; right; by left|done|done|done].
    + destruct (E6 y t Ey' Hy0) as (id & s' & ids' & Hd & Hs' & Ei & Hi). exists id, s', ids'.
      split_and!; [apply elem_of_app; by left|done|apply Hold; [by apply Hdone|done]|done].
  - assert (Hback : ∀ y s0 l, y ∈ done → is_sdf comps0 y s0 → transforms comps' !! y = Some (composite (par_do s0) l) →
      transforms comps !! y = Some (composite (par_do s0) l) ∧ ∀ z, z ∈ l → transforms comps !! z ≠ None).
    { intros y s0 l Hy Hs0 Ey. destruct (E5 y s0 Hy Hs0) as (l' & El & _ & _ & Hex). pose proof (Hold _ _ (Hdone _ Hy) El) as Ey'.
      rewrite Ey in Ey'. injection Ey' as ->. split; [done|]. intros z Hz En. destruct (expansion_known _ _ _ _ Hex Hz). congruence. }
    intros id id' s1 s2 l1 l2 y [Hd| ->%list_elem_of_singleton]%elem_of_app [Hd'| ->%list_elem_of_singleton]%elem_of_app Hs1 Hs2 El1 El2 Hy1 Hy2.
    + destruct (Hback _ _ _ Hd Hs1 El1), (Hback _ _ _ Hd' Hs2 El2). by eapply (E7 id id' s1 s2 l1 l2 y).
    + exfalso. destruct (Hback _ _ _ Hd Hs1 El1) as [_ Hk]. rewrite Hself in El2. injection El2 as _ El _ _ _. apply (Hk y Hy1), Hfresh. by rewrite El.
    + exfalso. destruct (Hback _ _ _ Hd' Hs2 El2) as [_ Hk]. rewrite Hself in El1. injection El1 as _ El _ _ _. apply (Hk y Hy2), Hfresh. by rewrite El.
    + done.
Qed.

Lemma update_transform_ok :
  ∃ comps, update_transform PAR_DO_TRANSFORM comps0 (sized_replacement drain) = Ok comps ∧ expanded (map_iter (transforms comps0)).*1 comps.
Proof.
  unfold update_transform. apply try_fold_ok.
  - intros done x rest comps El E.
    assert (Hnd : NoDup (map_iter (transforms comps0)).*1) by (rewrite (map_iter_perm _); apply NoDup_fst_map_to_list).
    assert (Hx : x ∉ done).
    { rewrite El in Hnd. apply NoDup_app in Hnd as (_ & Hd & _). intros Hin'. apply (Hd x Hin'). by left. }
    assert (Ht : is_Some (transforms comps0 !! x)).
    { assert (Hm : x ∈ (map_iter (transforms comps0)).*1) by (rewrite El; apply elem_of_app; right; by left).
      rewrite (map_iter_perm _) in Hm. apply list_elem_of_fmap in Hm as ([k t] & -> & Hm%elem_of_map_to_list). by eexists. }
    destruct Ht as [t Et]. assert (Et' : transforms comps !! x = Some t) by (by apply (ex_kept _ _ E)).
    pose proof (splittable_par_do_same x comps0 comps t Hin (ex_pcollections _ _ E) Et Et') as Esame.
    assert (Hno : (∀ s, ¬ is_sdf comps0 x s) → ∃ comps', update_one PAR_DO_TRANSFORM (sized_replacement drain) comps x = Ok comps' ∧ expanded (done ++ [x]) comps').
    { intros Hno. exists comps. split; [|by apply expand_skip]. apply update_one_other. intros s [Es Hu]. apply (Hno s). split; [by rewrite <- Esame|done]. }
    destruct (splittable_par_do x comps0) as [s|] eqn:Es; [|apply Hno; intros s [? ?]; congruence].
    destruct (decide (fs_urn (par_do_spec s) = PAR_DO_TRANSFORM)) as [Hu|Hu]; [|apply Hno; intros s' [? ?]; congruence].
    destruct (update_one_sdf drain comps x s) as (rval & ids & Ha & Eu); [by split|by apply (Hleaf x)|].
    eexists. split; [exact Eu|]. eapply expand_one; [done|done|done|by eexists|done].
  - split; try done; [by intros id s ?%elem_of_nil|intros x t ? ?; congruence|by intros ? ? ? ? ? ? ? ?%elem_of_nil].
Qed.
End loop.
End expansion.
