(* ===== verification/ExecGraph.v ===== *)
(** The executable graph of a fused pipeline (fusion/pipeline.rs, [ExecutableGraph]): a
    walk from the root transforms along the consumers of every PCollection, in which each
    run of splittable stages becomes one node. *)
From S2P Require Import Prelude Bytes CoderGraph Pipeline StageFuser.
Local Open Scope string_scope.
Local Open Scope list_scope.

(** * Nodes *)

(** [ConsumerMetaData]. *)
Record ConsumerMetaData : Type := mkMetaData {
  producer_transform_id : string;
  produced_pcol_id : string;
  cm_coder_id : string;
  cm_component_coder : option (list string);
  consumer_transfrom_id : string;
}.

(** [FlareRunnerTransform]: the transform made of a URN, with the payload that only
    [TestStream] reads. *)
Record RunnerTransform : Type := mkRunner {
  rt_id : string;
  rt_urn : string;
  rt_name : string;
  rt_inputs : gmap string string;
  rt_outputs : gmap string string;
  rt_payload : bytes;
}.

Inductive SplittableProcessKind : Type := ProcessElements | ProcessKeyedElements | ProcessSizedElementsAndRestrictions.

Record SplittableExecutionPlan : Type := mkPlan {
  initialization_stages : list ExecutableStage;
  process_stage : ExecutableStage;
  process_kind : SplittableProcessKind;
}.

(** An edge between the indices of two nodes. *)
Record GraphEdge : Type := mkGraphEdge { ge_source : nat; ge_target : nat; ge_weight : ConsumerMetaData }.

(** The fields of [SplittableStage] are those of the constructor. *)
Inductive ExecutableNode : Type :=
| Worker (stage : ExecutableStage)
| Runner (transform : RunnerTransform)
| Splittable (id : string) (nested : list ExecutableNode) (edges : list GraphEdge) (output_pcols : gset string)
    (plan : SplittableExecutionPlan).

Definition node_id (node : ExecutableNode) : string :=
  match node with Worker s => stage_id s | Runner r => rt_id r | Splittable id _ _ _ _ => id end.

Definition get_output_pcol_ids (s : ExecutableStage) : gset string := list_to_set (pcn_id <$> stage_output_pcols s).
Definition output_pcol_ids (r : RunnerTransform) : gset string := list_to_set (map_to_list (rt_outputs r)).*2.

Definition node_output_pcols (node : ExecutableNode) : gset string :=
  match node with
  | Worker s => get_output_pcol_ids s
  | Runner r => output_pcol_ids r
  | Splittable _ _ _ outputs _ => outputs
  end.

Fixpoint worker_stages (node : ExecutableNode) : list ExecutableStage :=
  match node with
  | Worker s => [s]
  | Splittable _ nested _ _ _ => concat (map worker_stages nested)
  | Runner _ => []
  end.

Record ExecutableGraph : Type := mkExecutableGraph {
  eg_nodes : list ExecutableNode;
  eg_edges : list GraphEdge;
  eg_components : Components;
  eg_root_metadata : option ConsumerMetaData;
}.

(** ** Splittable stages *)

Definition kind_of_urn (urn : string) : option SplittableProcessKind :=
  if decide (urn = SPLITTABLE_PROCESS_ELEMENTS_URN) then Some ProcessElements
  else if decide (urn = SPLITTABLE_PROCESS_KEYED_URN) then Some ProcessKeyedElements
  else if decide (urn = SPLITTABLE_PROCESS_SIZED_ELEMENTS_AND_RESTRICTIONS_URN) then Some ProcessSizedElementsAndRestrictions
  else None.

(** [find_map] over the transforms. *)
Definition splittable_process_kind (s : ExecutableStage) : option SplittableProcessKind :=
  head (omap (λ t, spec ← pt_spec (ptn_transform t); kind_of_urn (fs_urn spec)) (stage_transforms s)).

(** * Consumers *)

Record ConsumerLink : Type := mkLink { cl_node : ExecutableNode; cl_transform_id : string }.

Abbreviation consumer_map := (gmap string (list ConsumerLink)).

Definition push_link (m : consumer_map) (l : string * ConsumerLink) : consumer_map :=
  <[l.1 := default [] (m !! l.1) ++ [l.2]]> m.

Section build.
Context `{HashIter} (new_v4 : nat → string).

(** [petgraph::algo::toposort] on the indices of a graph. *)
Context (toposort : nat → list (nat * nat) → option (list nat)).

(** [from_urn_with_payload]. *)
Definition from_urn_with_payload (urn name : string) (inputs outputs : gmap string string) (payload : bytes)
    : minting RunnerTransform := λ n,
  if one_of FLARE urn then Ok (mkRunner (new_v4 n) urn name inputs outputs payload, S n)
  else Panic ("Unknown URN " +:+ urn).

(** The transforms of a stage that read its input. *)
Definition stage_links (s : ExecutableStage) : list (string * ConsumerLink) :=
  let input := pcn_id (stage_input_pcol s) in
  (λ t, (input, mkLink (Worker s) (pt_unique_name (ptn_transform t)))) <$>
    List.filter (λ t, existsb (λ i : string * string, bool_decide (i.2 = input)) (map_iter (pt_inputs (ptn_transform t))))
      (stage_transforms s).

Fixpoint runner_links (runners : list PTransformNode) : minting (list (string * ConsumerLink)) :=
  match runners with
  | [] => mret []
  | t :: runners =>
      match pt_spec (ptn_transform t) with
      | None => runner_links runners
      | Some spec =>
          r ← from_urn_with_payload (fs_urn spec) (pt_unique_name (ptn_transform t)) (pt_inputs (ptn_transform t))
                (pt_outputs (ptn_transform t)) (fs_payload spec);
          links ← runner_links runners;
          mret (((λ i : string * string, (i.2, mkLink (Runner r) (pt_unique_name (ptn_transform t))))
                 <$> map_iter (pt_inputs (ptn_transform t))) ++ links)
      end
  end.

Definition consumer_links (sdk : list ExecutableStage) (runners : list PTransformNode) : minting consumer_map :=
  links ← runner_links runners;
  mret (foldl push_link ∅ ((sdk ≫= stage_links) ++ links)).

Definition side_input_pcollections (sdk : list ExecutableStage) : gset string :=
  list_to_set (sdk ≫= λ s, (λ r, pcn_id (sir_pcol r)) <$> stage_side_inputs s).

Section walk.
Context (comps : Components) (sdk : list ExecutableStage) (runners : list PTransformNode)
  (consumers : consumer_map) (sides : gset string).

(** ** Edges *)

Definition has_output (output : string) (t : PTransformNode) : bool :=
  existsb (λ o : string * string, bool_decide (o.2 = output)) (map_iter (pt_outputs (ptn_transform t))).

Definition get_producer_transform (output : string) : translated string :=
  match find (has_output output) (sdk ≫= stage_transforms) with
  | Some t => Ok (pt_unique_name (ptn_transform t))
  | None =>
      match find (has_output output) runners with
      | Some t => Ok (pt_unique_name (ptn_transform t))
      | None => Panic "Producer transform not found"
      end
  end.

Definition build_consumer_metadata (output consumer_transform_id : string) : translated ConsumerMetaData :=
  producer ← get_producer_transform output;
  match pcollections comps !! output with
  | None => Panic "Output PCollection not found"
  | Some pcollection =>
      Ok (mkMetaData producer output (pc_coder_id pcollection)
            (component_coder_ids <$> coders comps !! pc_coder_id pcollection) consumer_transform_id)
  end.

(** ** A run of splittable stages *)

Record Run : Type := mkRun {
  run_nodes : list ExecutableStage;
  run_indices : gmap string nat;
  run_edges : list GraphEdge;
  run_boundary : gset string;
  run_pending : list ExecutableStage;
  run_visited : gset string;
  run_members : list string;
}.

(** [nested_indices.entry(id).or_insert_with(add_node)]. *)
Definition run_index (s : ExecutableStage) (r : Run) : nat * Run :=
  match run_indices r !! stage_id s with
  | Some i => (i, r)
  | None =>
      (length (run_nodes r),
       mkRun (run_nodes r ++ [s]) (<[stage_id s := length (run_nodes r)]> (run_indices r)) (run_edges r) (run_boundary r)
         (run_pending r) (run_visited r) (run_members r))
  end.

(** One consumer of an output: a splittable stage joins the run while the run is not
    complete; any other is outside. *)
Definition run_consumer (completes : bool) (index : nat) (output : string) (acc : Run * bool) (link : ConsumerLink)
    : translated (Run * bool) :=
  let '(r, external) := acc in
  match cl_node link with
  | Worker next =>
      if is_splittable next && negb completes then
        let '(next_index, r) := run_index next r in
        edge ← build_consumer_metadata output (cl_transform_id link);
        Ok (mkRun (run_nodes r) (run_indices r) (run_edges r ++ [mkGraphEdge index next_index edge]) (run_boundary r)
              (run_pending r ++ [next]) (run_visited r) (run_members r), external)
      else Ok (r, true)
  | _ => Ok (r, true)
  end.

Definition run_output (completes : bool) (index : nat) (r : Run) (output : string) : translated Run :=
  '(r, external) ← try_fold (run_consumer completes index output) (r, bool_decide (output ∈ sides))
                     (default [] (consumers !! output));
  Ok (if external : bool
      then mkRun (run_nodes r) (run_indices r) (run_edges r) ({[output]} ∪ run_boundary r) (run_pending r) (run_visited r) (run_members r)
      else r).

(** A stage that has not been visited. *)
Definition run_stage (s : ExecutableStage) (r : Run) : translated Run :=
  let completes := bool_decide (is_Some (splittable_process_kind s)) in
  let '(index, r) := run_index s r in
  let r := mkRun (run_nodes r) (run_indices r) (run_edges r) (run_boundary r) (run_pending r)
             ({[stage_id s]} ∪ run_visited r) (run_members r ++ [stage_id s]) in
  try_fold (run_output completes index) r (set_iter (get_output_pcol_ids s)).

(** The loop over the pending stages.  Every round visits a stage or drops one that was
    visited; [fuel] bounds the visits, of which there is one per stage. *)
Definition run_popped (r : Run) (pending : list ExecutableStage) : Run :=
  mkRun (run_nodes r) (run_indices r) (run_edges r) (run_boundary r) pending (run_visited r) (run_members r).

Fixpoint run_loop (fuel : nat) : list ExecutableStage → Run → translated Run :=
  fix skip pending r :=
    match pending with
    | [] => Ok (run_popped r [])
    | s :: pending =>
        if decide (stage_id s ∈ run_visited r) then skip pending r
        else
          match fuel with
          | O => Panic "splittable run bound"
          | S fuel => r ← run_stage s (run_popped r pending); run_loop fuel (run_pending r) r
          end
    end.

Definition build_splittable_execution_plan (stage_id : string) (nodes : list ExecutableStage) (edges : list GraphEdge)
    : translated SplittableExecutionPlan :=
  match toposort (length nodes) ((λ e, (ge_source e, ge_target e)) <$> edges) with
  | None => Panic ("splittable stage " +:+ stage_id +:+ " has a cycle in its nested graph")
  | Some sorted =>
      let stages := omap (λ i, nodes !! i) sorted in
      let initialization := List.filter (λ s, bool_decide (splittable_process_kind s = None)) stages in
      let process := omap (λ s, pair s <$> splittable_process_kind s) stages in
      match initialization, last process with
      | [], _ => Panic ("SDF splittable stage " +:+ stage_id +:+ " missing initialization stage")
      | _, None => Panic ("SDF splittable stage " +:+ stage_id +:+ " missing process stage")
      | _, Some (process_stage, kind) => Ok (mkPlan initialization process_stage kind)
      end
  end.

(** [member_ids.sort()] and [join(",")]. *)
Definition sort_ids (ids : list string) : list string := sort_by (compare_le string_compare) ids.
Fixpoint join (ids : list string) : string :=
  match ids with [] => "" | [x] => x | x :: ids => x +:+ "," +:+ join ids end.

Definition build_splittable_node (start : ExecutableStage) : translated (ExecutableNode * list string) :=
  r ← run_loop (length sdk) [start] (mkRun [] ∅ [] ∅ [] ∅ []);
  let member_ids := sort_ids (run_members r) in
  let id := "splittable:" +:+ join member_ids in
  plan ← build_splittable_execution_plan id (run_nodes r) (run_edges r);
  Ok (Splittable id (Worker <$> run_nodes r) (run_edges r) (run_boundary r) plan, member_ids).

Abbreviation splittable_cache := (gmap string ExecutableNode).

Definition resolve_consumer (node : ExecutableNode) (cache : splittable_cache)
    : translated (ExecutableNode * splittable_cache) :=
  match node with
  | Worker stage =>
      if is_splittable stage then
        match cache !! stage_id stage with
        | Some existing => Ok (existing, cache)
        | None =>
            '(splittable, member_ids) ← build_splittable_node stage;
            Ok (splittable, foldl (λ cache id, <[id := splittable]> cache) cache member_ids)
        end
      else Ok (node, cache)
  | _ => Ok (node, cache)
  end.

(** ** The walk *)

Record Builder : Type := mkBuilder {
  b_nodes : list ExecutableNode;
  b_edges : list GraphEdge;
  node_indices : gmap string nat;
  b_root_metadata : option ConsumerMetaData;
  b_cache : splittable_cache;
  work_queue : list ExecutableNode;
  queued : gset string;
}.

Definition ensure_node_exists (node : ExecutableNode) (b : Builder) : nat * Builder :=
  match node_indices b !! node_id node with
  | Some index => (index, b)
  | None =>
      let index := length (b_nodes b) in
      (index, mkBuilder (b_nodes b ++ [node]) (b_edges b) (<[node_id node := index]> (node_indices b))
                (b_root_metadata b) (b_cache b) (work_queue b) (queued b))
  end.

Definition with_cache (cache : splittable_cache) (b : Builder) : Builder :=
  mkBuilder (b_nodes b) (b_edges b) (node_indices b) (b_root_metadata b) cache (work_queue b) (queued b).

(** [add_edge], [root_metadata.get_or_insert_with] when the source is a root, and
    [if queued.insert(..) { work_queue.push_back(..) }]. *)
Definition add_consumer (root : bool) (edge : GraphEdge) (consumer : ExecutableNode) (b : Builder) : Builder :=
  let fresh := bool_decide (node_id consumer ∉ queued b) in
  mkBuilder (b_nodes b) (b_edges b ++ [edge]) (node_indices b)
    (match b_root_metadata b with
     | Some m => Some m
     | None => if root then Some (ge_weight edge) else None
     end)
    (b_cache b) (if fresh then work_queue b ++ [consumer] else work_queue b) ({[node_id consumer]} ∪ queued b).

(** The body of the loop over the consumers of an output.  Only the second loop skips
    links into the producer itself. *)
Definition link_consumer (root : bool) (producer : ExecutableNode) (producer_index : nat) (output : string)
    (b : Builder) (link : ConsumerLink) : translated Builder :=
  '(consumer, cache) ← resolve_consumer (cl_node link) (b_cache b);
  let b := with_cache cache b in
  if negb root && bool_decide (node_id consumer = node_id producer) then Ok b
  else
    let '(consumer_index, b) := ensure_node_exists consumer b in
    metadata ← build_consumer_metadata output (cl_transform_id link);
    Ok (add_consumer root (mkGraphEdge producer_index consumer_index metadata) consumer b).

Definition expand (root : bool) (producer : ExecutableNode) (producer_index : nat) (outputs : list string) (b : Builder)
    : translated Builder :=
  try_fold (λ b output, try_fold (link_consumer root producer producer_index output) b (default [] (consumers !! output)))
    b outputs.

Definition popped (queue : list ExecutableNode) (b : Builder) : Builder :=
  mkBuilder (b_nodes b) (b_edges b) (node_indices b) (b_root_metadata b) (b_cache b) queue (queued b).

(** Every node is queued once, so the loop takes as many rounds as there are nodes. *)
Fixpoint expand_loop (fuel : nat) (b : Builder) : translated Builder :=
  match work_queue b with
  | [] => Ok b
  | producer :: queue =>
      match fuel with
      | O => Panic "executable graph bound"
      | S fuel =>
          let '(producer_index, b) := ensure_node_exists producer (popped queue b) in
          b ← expand false producer producer_index (set_iter (node_output_pcols producer)) b;
          expand_loop fuel b
      end
  end.

Definition insert_queued (id : string) (b : Builder) : Builder :=
  mkBuilder (b_nodes b) (b_edges b) (node_indices b) (b_root_metadata b) (b_cache b) (work_queue b) ({[id]} ∪ queued b).

(** [get_roots]. *)
Definition get_roots : list PTransformNode :=
  List.filter (λ t, bool_decide (pt_inputs (ptn_transform t) = ∅)) runners.

(** One root: a transform without a spec is passed over. *)
Definition expand_root (b : Builder) (root : PTransformNode) : minting Builder :=
  match pt_spec (ptn_transform root) with
  | None => mret b
  | Some spec =>
      r ← from_urn_with_payload (fs_urn spec) (pt_unique_name (ptn_transform root)) (pt_inputs (ptn_transform root))
            (pt_outputs (ptn_transform root)) (fs_payload spec);
      let '(index, b) := ensure_node_exists (Runner r) b in
      lift_minting (expand true (Runner r) index (map_iter (pt_outputs (ptn_transform root))).*2 (insert_queued (rt_id r) b))
  end.

Fixpoint expand_roots (b : Builder) (roots : list PTransformNode) : minting Builder :=
  match roots with
  | [] => mret b
  | root :: roots => b ← expand_root b root; expand_roots b roots
  end.

(** At most a node per stage, per runner transform and per run. *)
Definition graph_bound : nat := 2 * length sdk + 2 * length runners.

Definition walk : minting Builder :=
  b ← expand_roots (mkBuilder [] [] ∅ None ∅ [] ∅) get_roots;
  lift_minting (expand_loop graph_bound b).
End walk.

(** [ExecutableGraph::from]. *)
Definition executable_graph_from (sdk : list ExecutableStage) (runners : list PTransformNode) (comps : Components)
    : minting ExecutableGraph :=
  consumers ← consumer_links sdk runners;
  b ← walk comps sdk runners consumers (side_input_pcollections sdk);
  mret (mkExecutableGraph (b_nodes b) (b_edges b) comps (b_root_metadata b)).
End build.

(** [get_root_metadata]. *)
Definition get_root_metadata (g : ExecutableGraph) : outcome string ConsumerMetaData :=
  match eg_root_metadata g with Some m => Ok m | None => Panic "Root metadata not initialized" end.

(** [side_input_output_metadata]: the first side input that reads the PCollection. *)
Definition side_input_output_metadata (g : ExecutableGraph) (pcollection_id : string) : option ConsumerMetaData :=
  let reads_it r := bool_decide (pcn_id (sir_pcol r) = pcollection_id) in
  let found := eg_nodes g ≫= λ node, omap (λ s, pair node <$> find reads_it (stage_side_inputs s)) (worker_stages node) in
  '(node, side) ← head found;
  pcollection ← pcollections (eg_components g) !! pcollection_id;
  Some (mkMetaData (node_id node) pcollection_id (pc_coder_id pcollection)
          (component_coder_ids <$> coders (eg_components g) !! pc_coder_id pcollection)
          (pt_unique_name (ptn_transform (sir_pt side)))).
