(* ===== verification/SplittableRun.v ===== *)
(** The runs of splittable stages of the executable graph: which stages a run takes in,
    what leaves it, and the plan it is executed by. *)
From S2P Require Import Prelude Bytes CoderGraph Pipeline StageFuserSpec StageFuser ExecGraph.
Set Warnings "-clear-no-such-hyp".
Local Open Scope string_scope.
Local Open Scope list_scope.

Section run.
Context `{HashIterLaws}.
Context (toposort : nat → list (nat * nat) → option (list nat)).
Context (comps : Components) (sdk : list ExecutableStage) (runners : list PTransformNode)
  (consumers : consumer_map) (sides : gset string).

Definition links_of (c : string) : list ConsumerLink := default [] (consumers !! c).

(** A stage completes its run when it has the transform that processes elements. *)
Definition completes (s : ExecutableStage) : bool := bool_decide (is_Some (splittable_process_kind s)).

Definition next_stage (completes : bool) (link : ConsumerLink) : option ExecutableStage :=
  match cl_node link with
  | Worker next => if is_splittable next && negb completes then Some next else None
  | _ => None
  end.

(** The stages that the consumers of [c] bring into the run, and whether one of the
    consumers is outside. *)
Definition joining (completes : bool) (c : string) : list ExecutableStage := omap (next_stage completes) (links_of c).
Definition leaves_run (completes : bool) (c : string) : bool :=
  bool_decide (c ∈ sides) || existsb (λ link, bool_decide (next_stage completes link = None)) (links_of c).

(** The stage that starts the run and the stages it takes in are stages of the
    pipeline, which have ids of their own. *)
Context (Hids : NoDup (stage_id <$> sdk))
  (Hlinks : ∀ c link s, link ∈ links_of c → cl_node link = Worker s → s ∈ sdk).

Lemma same_stage s s' : s ∈ sdk → s' ∈ sdk → stage_id s = stage_id s' → s = s'.
Proof.
  intros [i Hi]%list_elem_of_lookup [j Hj]%list_elem_of_lookup E.
  assert (i = j) as <- by (eapply (NoDup_lookup (stage_id <$> sdk)); [done|by rewrite list_lookup_fmap, Hi|by rewrite list_lookup_fmap, Hj, E]).
  congruence.
Qed.

Lemma next_stage_sdk b c link next : link ∈ links_of c → next_stage b link = Some next → next ∈ sdk.
Proof.
  unfold next_stage. intros Hl E. destruct (cl_node link) as [s| |] eqn:En; [|done..]. destruct (_ && _); [|done]. injection E as <-.
  by eapply Hlinks.
Qed.

(** ** The index *)

(** The index finds the nodes by their ids. *)
Definition indexed (r : Run) : Prop :=
  (∀ id i, run_indices r !! id = Some i ↔ ∃ s, run_nodes r !! i = Some s ∧ stage_id s = id)
  ∧ ∀ s, s ∈ run_nodes r → s ∈ sdk.

Definition node_of (r : Run) (i : nat) (s : ExecutableStage) : Prop := run_nodes r !! i = Some s.

(** [r'] has the nodes and edges of [r] and more. *)
Record run_grows (r r' : Run) : Prop := {
  rg_nodes : run_nodes r `prefix_of` run_nodes r';
  rg_edges : run_edges r `prefix_of` run_edges r';
  rg_indexed : indexed r';
}.

Lemma node_of_grows r r' i s : run_grows r r' → node_of r i s → node_of r' i s.
Proof. intros [Hp _ _] Hn. eapply prefix_lookup_Some; [exact Hn|exact Hp]. Qed.

Lemma run_grows_trans r1 r2 r3 : run_grows r1 r2 → run_grows r2 r3 → run_grows r1 r3.
Proof. intros [? ? _] [? ? ?]. split; [by etrans|by etrans|done]. Qed.

Lemma run_index_spec s r i r' :
  indexed r → s ∈ sdk → run_index s r = (i, r') →
  run_grows r r' ∧ node_of r' i s ∧ (∀ x, x ∈ run_nodes r' → x ∈ run_nodes r ∨ x = s)
  ∧ (s ∉ run_nodes r → i = length (run_nodes r))
  ∧ run_edges r' = run_edges r ∧ run_boundary r' = run_boundary r ∧ run_pending r' = run_pending r
  ∧ run_visited r' = run_visited r ∧ run_members r' = run_members r.
Proof.
  intros [Hi Hs] Hsdk E. unfold run_index in E. destruct (run_indices r !! stage_id s) as [j|] eqn:Ej; injection E as <- <-.
  - apply Hi in Ej as (s' & Hn & Eid).
    assert (s' = s) as -> by (apply same_stage; [apply Hs; by eapply list_elem_of_lookup_2|done|done]).
    split_and!; [by split|done|by left| |done..]. intros Hnin. exfalso. apply Hnin. by eapply list_elem_of_lookup_2.
  - split_and!; [|unfold node_of; simpl; rewrite lookup_app_r by lia; by rewrite Nat.sub_diag| |done..].
    2: { simpl. intros x Hx. rewrite elem_of_app, list_elem_of_singleton in Hx. tauto. }
    split; simpl; [by apply prefix_app_r|done|]. split; simpl.
    + intros id i. destruct (decide (id = stage_id s)) as [->|Hne].
      * rewrite lookup_insert_eq. split.
        -- intros [= <-]. exists s. rewrite lookup_app_r by lia. by rewrite Nat.sub_diag.
        -- intros (x & Hx & Ex). apply lookup_app_Some in Hx as [Hx|[Hl Hx]].
           ++ exfalso. assert (Hc : run_indices r !! stage_id s = Some i) by (apply Hi; by exists x). congruence.
           ++ apply list_lookup_singleton_Some in Hx as [Hz _]. f_equal. lia.
      * rewrite lookup_insert_ne by done. rewrite Hi. split.
        -- intros (x & Hx & Ex). exists x. split; [|done]. by apply lookup_app_l_Some.
        -- intros (x & Hx & Ex). apply lookup_app_Some in Hx as [Hx|[_ Hx]]; [by exists x|].
           apply list_lookup_singleton_Some in Hx as [_ <-]. done.
    + intros x. rewrite elem_of_app, list_elem_of_singleton. intros [Hx| ->]; [by apply Hs|done].
Qed.

(** ** The consumers of one output *)

(** The edges from node [index] for the links [ls] of output [c]. *)
Definition run_edge_for (r : Run) (index : nat) (c : string) (link : ConsumerLink) (next : ExecutableStage) (e : GraphEdge) : Prop :=
  ge_source e = index ∧ node_of r (ge_target e) next
  ∧ build_consumer_metadata comps sdk runners c (cl_transform_id link) = Ok (ge_weight e).

Record after_links (b : bool) (index : nat) (c : string) (r : Run) (ext : bool) (ls : list ConsumerLink) (acc : Run * bool) : Prop := {
  al_grows : run_grows r acc.1;
  al_ext : acc.2 = ext || existsb (λ link, bool_decide (next_stage b link = None)) ls;
  al_nodes : ∀ x, x ∈ run_nodes acc.1 → x ∈ run_nodes r ∨ ∃ e, e ∈ run_edges acc.1 ∧ ge_source e = index ∧ node_of acc.1 (ge_target e) x
               ∧ x ∈ omap (next_stage b) ls;
  al_edges : ∀ e, e ∈ run_edges acc.1 → e ∈ run_edges r ∨ ∃ link next, link ∈ ls ∧ next_stage b link = Some next ∧ run_edge_for acc.1 index c link next e;
  al_complete : ∀ link next, link ∈ ls → next_stage b link = Some next → ∃ e, e ∈ run_edges acc.1 ∧ run_edge_for acc.1 index c link next e;
  al_pending : run_pending acc.1 = run_pending r ++ omap (next_stage b) ls;
  al_boundary : run_boundary acc.1 = run_boundary r;
  al_visited : run_visited acc.1 = run_visited r;
  al_members : run_members acc.1 = run_members r;
}.

Lemma run_edge_for_grows r r' index c link next e :
  run_grows r r' → run_edge_for r index c link next e → run_edge_for r' index c link next e.
Proof. intros Hg (? & ? & ?). split_and!; [done|by eapply node_of_grows|done]. Qed.

Lemma run_consumer_step b index c r ext ls acc link acc' :
  link ∈ links_of c → after_links b index c r ext ls acc →
  run_consumer comps sdk runners b index c acc link = Ok acc' → after_links b index c r ext (ls ++ [link]) acc'.
Proof.
  intros Hlink A E. destruct acc as [r1 x1]. unfold run_consumer in E.
  assert (Hout : next_stage b link = None → acc' = (r1, true) → after_links b index c r ext (ls ++ [link]) acc').
  { intros Hn ->. destruct A as [A1 A2 A3 A4 A5 A6 A7 A8 A9]. simpl in *. split; simpl; try done.
    - rewrite existsb_app. simpl. rewrite bool_decide_true by done. by rewrite !orb_true_r.
    - intros x Hx. destruct (A3 x Hx) as [?|(e & ? & ? & ? & ?)]; [by left|right]. exists e. rewrite omap_app, elem_of_app. tauto.
    - intros e He. destruct (A4 e He) as [?|(l & n & ? & ? & ?)]; [by left|right]. exists l, n. rewrite elem_of_app. tauto.
    - intros l n. rewrite elem_of_app, list_elem_of_singleton. intros [Hl| ->] En; [by eapply A5|congruence].
    - rewrite A6, omap_app. simpl. rewrite Hn. by rewrite app_nil_r. }
  unfold next_stage in Hout. destruct (cl_node link) as [next| |] eqn:En; [|injection E as <-; by apply Hout..].
  destruct (is_splittable next && negb b) eqn:Ej; [|injection E as <-; by apply Hout]. clear Hout.
  assert (Hnext : next_stage b link = Some next) by (unfold next_stage; by rewrite En, Ej).
  destruct (run_index next r1) as [j r2] eqn:Ei. inv_bind E. injection E as <-.
  destruct A as [A1 A2 A3 A4 A5 A6 A7 A8 A9]. cbn [fst snd] in *.
  assert (Hsdk : next ∈ sdk) by (by eapply next_stage_sdk).
  destruct (run_index_spec next r1 j r2 (rg_indexed _ _ A1) Hsdk Ei) as (Hg2 & Hj & Hn2 & _ & Ee & Eb & Ep & Ev & Em).
  rewrite <- Ee in A3, A4, A5. set (e := mkGraphEdge index j a).
  assert (Hg3 : run_grows r2 (mkRun (run_nodes r2) (run_indices r2) (run_edges r2 ++ [e]) (run_boundary r2) (run_pending r2 ++ [next])
    (run_visited r2) (run_members r2))) by (split; [done|by apply prefix_app_r|exact (rg_indexed _ _ Hg2)]).
  pose proof (run_grows_trans _ _ _ Hg2 Hg3) as Hg. split; cbn [fst snd run_nodes run_edges run_boundary run_pending run_visited run_members].
  - by eapply run_grows_trans.
  - rewrite A2, existsb_app. simpl. rewrite Hnext. simpl. by rewrite orb_false_r.
  - intros x Hx. rewrite omap_app. destruct (Hn2 x Hx) as [Hx1| ->].
    + destruct (A3 x Hx1) as [?|(e' & He' & Hs' & Ht' & Hin)]; [by left|right]. exists e'. rewrite !elem_of_app. split_and!; [by left|done| |by left].
      exact (node_of_grows _ _ _ _ Hg2 Ht').
    + right. exists e. rewrite !elem_of_app. split_and!; [by right; apply list_elem_of_singleton|done|exact Hj|right]. simpl. rewrite Hnext. by left.
  - intros e' He'. rewrite elem_of_app, list_elem_of_singleton in He'. destruct He' as [He'| ->].
    + destruct (A4 e' He') as [?|(l & n & ? & ? & ?)]; [by left|right]. exists l, n. rewrite elem_of_app. split_and!; [by left|done|].
      eapply (run_edge_for_grows r1); [exact Hg|done].
    + right. exists link, next. rewrite elem_of_app, list_elem_of_singleton. split_and!; [by right|done|split_and!; [done|exact Hj|done]].
  - intros l n. rewrite elem_of_app, list_elem_of_singleton. intros [Hl| ->] El.
    + destruct (A5 l n Hl El) as (e' & ? & ?). exists e'. rewrite elem_of_app. split; [by left|]. eapply (run_edge_for_grows r1); [exact Hg|done].
    + assert (n = next) as -> by congruence. exists e. rewrite elem_of_app, list_elem_of_singleton. split; [by right|split_and!; [done|exact Hj|done]].
  - rewrite omap_app, Ep, A6. simpl. rewrite Hnext. by rewrite <- (assoc_L (++)).
  - by rewrite Eb.
  - by rewrite Ev.
  - by rewrite Em.
Qed.

(** ** A stage *)

Record after_outputs (b : bool) (index : nat) (r : Run) (outs : list string) (r' : Run) : Prop := {
  ao_grows : run_grows r r';
  ao_nodes : ∀ x, x ∈ run_nodes r' → x ∈ run_nodes r ∨ ∃ c e, c ∈ outs ∧ x ∈ joining b c ∧ e ∈ run_edges r'
               ∧ ge_source e = index ∧ node_of r' (ge_target e) x;
  ao_edges : ∀ e, e ∈ run_edges r' → e ∈ run_edges r ∨ ∃ c link next, c ∈ outs ∧ link ∈ links_of c
               ∧ next_stage b link = Some next ∧ run_edge_for r' index c link next e;
  ao_complete : ∀ c link next, c ∈ outs → link ∈ links_of c → next_stage b link = Some next →
               ∃ e, e ∈ run_edges r' ∧ run_edge_for r' index c link next e;
  ao_pending : run_pending r' = run_pending r ++ (outs ≫= joining b);
  ao_boundary : ∀ c, c ∈ run_boundary r' ↔ c ∈ run_boundary r ∨ c ∈ outs ∧ leaves_run b c = true;
  ao_visited : run_visited r' = run_visited r;
  ao_members : run_members r' = run_members r;
}.

(** Widening the boundary changes nothing else. *)
Definition with_boundary (boundary : gset string) (r : Run) : Run :=
  mkRun (run_nodes r) (run_indices r) (run_edges r) boundary (run_pending r) (run_visited r) (run_members r).

Lemma run_output_step b index r outs r1 c r2 :
  indexed r → after_outputs b index r outs r1 → run_output comps sdk runners consumers sides b index r1 c = Ok r2 →
  after_outputs b index r (outs ++ [c]) r2.
Proof.
  intros Hi A E. unfold run_output in E. inv_bind E. destruct a as [r3 ext]. injection E as <-.
  assert (Hal : after_links b index c r1 (bool_decide (c ∈ sides)) (links_of c) (r3, ext)).
  { refine (try_fold_inv _ (λ ls acc, after_links b index c r1 (bool_decide (c ∈ sides)) ls acc) _ _ _ _ _ E0).
    - intros ls link acc acc' Hl Hacc Estep. by eapply run_consumer_step.
    - destruct A as [A1 _ _ _ _ _ _ _]. split; cbn; try done.
      + split; [done|done|exact (rg_indexed _ _ A1)].
      + by rewrite orb_false_r.
      + intros x Hx. by left.
      + intros e He. by left.
      + intros l n Hl. by apply elem_of_nil in Hl.
      + by rewrite app_nil_r. }
  destruct A as [A1 A2 A3 A4 A5 A6 A7 A8], Hal as [L1 L2 L3 L4 L5 L6 L7 L8 L9]. cbn [fst snd] in *.
  change (bool_decide (c ∈ sides) || existsb (λ link, bool_decide (next_stage b link = None)) (links_of c)) with (leaves_run b c) in L2.
  assert (Hgen : ∀ boundary, (∀ x, x ∈ boundary ↔ x ∈ run_boundary r1 ∨ x = c ∧ leaves_run b c = true) →
    after_outputs b index r (outs ++ [c]) (with_boundary boundary r3)).
  { intros boundary Hb. assert (Hg : run_grows r1 (with_boundary boundary r3)).
    { destruct L1 as [? ? Hi3]. split; [done|done|exact Hi3]. }
    split; cbn [run_nodes run_edges run_boundary run_pending run_visited run_members with_boundary].
    - by eapply run_grows_trans.
    - intros x Hx. destruct (L3 x Hx) as [Hx1|(e & He & Hs & Ht & Hj)].
      + destruct (A2 x Hx1) as [?|(c' & e & Hc & Hj & He & Hs & Ht)]; [by left|right]. exists c', e.
        rewrite elem_of_app. split_and!; [by left|done| |done|by eapply node_of_grows].
        destruct L1 as [_ Hp _]. destruct Hp as [k ->]. apply elem_of_app. by left.
      + right. exists c, e. rewrite elem_of_app, list_elem_of_singleton. split_and!; [by right|done|done|done|exact Ht].
    - intros e He. destruct (L4 e He) as [He1|(link & next & Hl & Hn & Hf)].
      + destruct (A3 e He1) as [?|(c' & link & next & Hc & Hl & Hn & Hf)]; [by left|right]. exists c', link, next.
        rewrite elem_of_app. split_and!; [by left|done|done|by eapply run_edge_for_grows].
      + right. exists c, link, next. rewrite elem_of_app, list_elem_of_singleton. split_and!; [by right|done|done|exact Hf].
    - intros c' link next. rewrite elem_of_app, list_elem_of_singleton. intros [Hc| ->] Hl Hn.
      + destruct (A4 c' link next Hc Hl Hn) as (e & He & Hf). exists e. split; [|by eapply run_edge_for_grows].
        destruct L1 as [_ Hp _]. destruct Hp as [k ->]. apply elem_of_app. by left.
      + destruct (L5 link next Hl Hn) as (e & He & Hf). by exists e.
    - rewrite L6, A5, bind_app. cbn [mbind list_bind]. rewrite app_nil_r. by rewrite <- (assoc_L (++)).
    - intros x. rewrite Hb, A6, elem_of_app, list_elem_of_singleton. naive_solver.
    - by rewrite L8.
    - by rewrite L9. }
  destruct ext.
  - apply Hgen. intros x. rewrite L7, elem_of_union, elem_of_singleton, <- L2. tauto.
  - assert (r3 = with_boundary (run_boundary r3) r3) as -> by (by destruct r3).
    apply Hgen. intros x. rewrite L7, <- L2. naive_solver.
Qed.

Definition outputs_of (s : ExecutableStage) : gset string := get_output_pcol_ids s.

Lemma elem_of_set_iter (X : gset string) c : c ∈ set_iter X ↔ c ∈ X.
Proof. rewrite (set_iter_perm X). apply elem_of_elements. Qed.

Lemma run_stage_spec s r r' :
  indexed r → s ∈ sdk → run_stage comps sdk runners consumers sides s r = Ok r' →
  ∃ index r1, after_outputs (completes s) index r1 (set_iter (outputs_of s)) r' ∧ run_grows r r1 ∧ node_of r1 index s
    ∧ (∀ x, x ∈ run_nodes r1 → x ∈ run_nodes r ∨ x = s) ∧ run_edges r1 = run_edges r
    ∧ run_boundary r1 = run_boundary r ∧ run_pending r1 = run_pending r
    ∧ run_visited r1 = {[stage_id s]} ∪ run_visited r ∧ run_members r1 = run_members r ++ [stage_id s].
Proof.
  intros Hi Hs E. unfold run_stage in E. destruct (run_index s r) as [index r0] eqn:Ei.
  destruct (run_index_spec s r index r0 Hi Hs Ei) as (Hg & Hn & Hnodes & _ & Ee & Eb & Ep & Ev & Em).
  set (r1 := mkRun _ _ _ _ _ _ _) in E. exists index, r1.
  assert (Hg1 : run_grows r r1) by (destruct Hg as [? ? Hi0]; split; [done|done|exact Hi0]).
  split_and!; try done; [|unfold r1; cbn; by rewrite Ev|unfold r1; cbn; by rewrite Em].
  refine (try_fold_inv _ (λ outs acc, after_outputs (completes s) index r1 outs acc) _ _ _ _ _ E).
  - intros outs c b b' _ Hb Estep. eapply run_output_step; [exact (rg_indexed _ _ Hg1)|exact Hb|exact Estep].
  - split; try done.
    + split; [done|done|exact (rg_indexed _ _ Hg1)].
    + intros x Hx. by left.
    + intros e He. by left.
    + intros c link next Hc. by apply elem_of_nil in Hc.
    + by rewrite app_nil_r.
    + intros c. split; [by left|]. intros [?|[Hc _]]; [done|by apply elem_of_nil in Hc].
Qed.

(** * The run *)

(** [x] is brought into a run by [y]. *)
Definition feeds (y x : ExecutableStage) : Prop := ∃ c, c ∈ outputs_of y ∧ x ∈ joining (completes y) c.

Record run_inv (start : ExecutableStage) (r : Run) : Prop := {
  rv_indexed : indexed r;
  rv_members : ∀ id, id ∈ run_visited r ↔ id ∈ run_members r;
  rv_once : NoDup (run_members r);
  rv_visited : ∀ id, id ∈ run_visited r → ∃ s, s ∈ run_nodes r ∧ stage_id s = id;
  rv_nodes : ∀ s, s ∈ run_nodes r → stage_id s ∈ run_visited r ∨ s ∈ run_pending r;
  rv_pending : ∀ s, s ∈ run_pending r → s ∈ sdk;
  rv_start : start ∈ run_nodes r ∨ start ∈ run_pending r;
  rv_reached : ∀ x, x ∈ run_nodes r ∨ x ∈ run_pending r → rtc feeds start x;
  rv_closed : ∀ y x, y ∈ run_nodes r → stage_id y ∈ run_visited r → feeds y x → x ∈ run_nodes r;
  rv_edges : ∀ e, e ∈ run_edges r → ∃ y c link x, node_of r (ge_source e) y ∧ stage_id y ∈ run_visited r
    ∧ c ∈ outputs_of y ∧ link ∈ links_of c ∧ next_stage (completes y) link = Some x ∧ run_edge_for r (ge_source e) c link x e;
  rv_complete : ∀ y c link x, y ∈ run_nodes r → stage_id y ∈ run_visited r → c ∈ outputs_of y → link ∈ links_of c →
    next_stage (completes y) link = Some x →
    ∃ e, e ∈ run_edges r ∧ node_of r (ge_source e) y ∧ run_edge_for r (ge_source e) c link x e;
  rv_boundary : ∀ c, c ∈ run_boundary r ↔ ∃ y, y ∈ run_nodes r ∧ stage_id y ∈ run_visited r ∧ c ∈ outputs_of y
    ∧ leaves_run (completes y) c = true;
}.

Lemma node_of_elem r i s : node_of r i s → s ∈ run_nodes r.
Proof. apply list_elem_of_lookup_2. Qed.

Lemma indexed_same r x y : indexed r → x ∈ run_nodes r → y ∈ run_nodes r → stage_id x = stage_id y → x = y.
Proof. intros [_ Hs] Hx Hy. apply same_stage; by apply Hs. Qed.

Lemma elem_of_joining b c x : x ∈ joining b c ↔ ∃ link, link ∈ links_of c ∧ next_stage b link = Some x.
Proof. unfold joining. apply list_elem_of_omap. Qed.

Lemma run_inv_start start : start ∈ sdk → run_inv start (mkRun [] ∅ [] ∅ [start] ∅ []).
Proof.
  intros Hs. assert (Hnil : ∀ {A} (x : A), x ∈ [] → False) by (intros A x Hx; by apply elem_of_nil in Hx).
  assert (Hno : ∀ id : string, id ∈ (∅ : gset string) → False) by (intros id Hid; by apply not_elem_of_empty in Hid).
  split; simpl.
  - split; simpl; [|by intros s ?%Hnil]. intros id i. rewrite lookup_empty. split; [done|by intros (s & ? & _)].
  - intros id. split; [by intros ?%Hno|by intros ?%Hnil].
  - constructor.
  - by intros id ?%Hno.
  - by intros s ?%Hnil.
  - intros s Hn%list_elem_of_singleton. by subst.
  - right. by left.
  - intros x [?%Hnil|Hx%list_elem_of_singleton]; [done|by subst].
  - by intros y x ?%Hnil.
  - by intros e ?%Hnil.
  - by intros y c link x ?%Hnil.
  - intros c. split; [by intros ?%Hno|by intros (y & ?%Hnil & _)].
Qed.

(** Dropping a stage that was visited. *)
Lemma run_inv_skip start r s pending :
  run_inv start r → run_pending r = s :: pending → stage_id s ∈ run_visited r → run_inv start (run_popped r pending).
Proof.
  intros [H1 H2 H3 H4 H5 H6 H7 H8 H9 H10 H11 H12] Ep Hv.
  assert (Hs : s ∈ run_nodes r).
  { destruct (H4 _ Hv) as (s' & Hn & Eid). assert (s' = s) as <-; [|done].
    apply same_stage; [by apply H1|apply H6; rewrite Ep; by left|done]. }
  rewrite Ep in *. split; try done; cbn [run_popped run_nodes run_visited run_pending].
  - intros x Hx. destruct (H5 x Hx) as [?|Hp]; [by left|]. apply elem_of_cons in Hp as [->|Hp]; [by left|by right].
  - intros x Hx. apply H6. by right.
  - destruct H7 as [?|Hp]; [by left|]. apply elem_of_cons in Hp as [->|Hp]; [by left|by right].
  - intros x [Hx|Hx]; apply H8; [by left|right; by right].
Qed.

(** Visiting the first pending stage. *)
Lemma run_inv_visit start r s pending r' :
  run_inv start r → run_pending r = s :: pending → stage_id s ∉ run_visited r →
  run_stage comps sdk runners consumers sides s (run_popped r pending) = Ok r' →
  run_inv start r' ∧ run_visited r' = {[stage_id s]} ∪ run_visited r.
Proof.
  intros [H1 H2 H3 H4 H5 H6 H7 H8 H9 H10 H11 H12] Ep Hv E.
  assert (Hsdk : s ∈ sdk) by (apply H6; rewrite Ep; by left).
  destruct (run_stage_spec s (run_popped r pending) r' H1 Hsdk E) as (i & r1 & A & G1 & Hi1 & Hn1 & Ee & Eb & Epd & Ev & Em).
  cbn [run_popped run_nodes run_edges run_boundary run_pending run_visited run_members] in Hn1, Ee, Eb, Epd, Ev, Em.
  assert (G0 : run_nodes r `prefix_of` run_nodes r1) by exact (rg_nodes _ _ G1).
  destruct A as [A1 A2 A3 A4 A5 A6 A7 A8]. pose proof (rg_indexed _ _ A1) as Hi'.
  assert (Hmono : ∀ x, x ∈ run_nodes r → x ∈ run_nodes r').
  { intros x Hx. destruct A1 as [Hp _ _]. destruct (G0) as [k1 E1], Hp as [k2 E2]. rewrite E2, E1. set_solver. }
  assert (Hns : node_of r' i s) by (eapply node_of_grows; done).
  assert (Hvis : run_visited r' = {[stage_id s]} ∪ run_visited r) by (by rewrite A7, Ev).
  assert (Hnode : ∀ j x, node_of r j x → node_of r' j x).
  { intros j x Hj. eapply node_of_grows; [exact A1|]. exact (prefix_lookup_Some _ _ _ _ Hj G0). }
  assert (Hout : ∀ c, c ∈ set_iter (outputs_of s) ↔ c ∈ outputs_of s) by (intros c; apply elem_of_set_iter).
  assert (Hstart_s : rtc feeds start s) by (apply H8; right; rewrite Ep; by left).
  assert (Hfeed : ∀ c x, c ∈ set_iter (outputs_of s) → x ∈ joining (completes s) c → feeds s x).
  { intros c x Hc Hx. exists c. by rewrite <- Hout. }
  (** The nodes of the new run. *)
  assert (Hnew : ∀ x, x ∈ run_nodes r' → x ∈ run_nodes r ∨ x = s ∨ ∃ c, c ∈ set_iter (outputs_of s) ∧ x ∈ joining (completes s) c).
  { intros x Hx. destruct (A2 x Hx) as [Hx1|(c & e & Hc & Hj & _)]; [|right; right; by exists c].
    destruct (Hn1 x Hx1) as [?| ->]; [by left|by right; left]. }
  assert (Hback : ∀ y, y ∈ run_nodes r' → stage_id y ∈ run_visited r' → y = s ∨ y ∈ run_nodes r ∧ stage_id y ∈ run_visited r).
  { intros y Hy Hvy. rewrite Hvis, elem_of_union, elem_of_singleton in Hvy. destruct Hvy as [Eid|Hvy].
    - left. eapply indexed_same; [exact Hi'|done|by eapply node_of_elem|done].
    - right. split; [|done]. destruct (H4 _ Hvy) as (y' & Hy' & Eid). assert (y = y') as ->; [|done].
      eapply indexed_same; [exact Hi'|done|by apply Hmono|done]. }
  split; [|done]. split.
  - done.
  - intros id. rewrite Hvis, A8, Em, elem_of_union, elem_of_singleton, elem_of_app, list_elem_of_singleton, H2. tauto.
  - rewrite A8, Em. apply NoDup_app. split_and!; [done| |apply NoDup_singleton].
    intros x Hx Hxs%list_elem_of_singleton. subst. apply Hv. by apply H2.
  - intros id. rewrite Hvis, elem_of_union, elem_of_singleton. intros [->|Hid].
    + exists s. split; [by eapply node_of_elem|done].
    + destruct (H4 _ Hid) as (x & ? & ?). exists x. split; [by apply Hmono|done].
  - intros x Hx. rewrite Hvis, A5, Epd, elem_of_union, elem_of_singleton, elem_of_app, list_elem_of_bind.
    destruct (Hnew x Hx) as [Hx1|[->|(c & Hc & Hj)]]; [|by left; left|right; right; by exists c].
    destruct (H5 x Hx1) as [?|Hp]; [by left; right|]. rewrite Ep in Hp. apply elem_of_cons in Hp as [->|Hp]; [by left; left|by right; left].
  - intros x. rewrite A5, Epd, elem_of_app, list_elem_of_bind. intros [Hx|(c & Hx & Hc)].
    + apply H6. rewrite Ep. by right.
    + apply elem_of_joining in Hx as (link & Hl & Hn). by eapply next_stage_sdk.
  - rewrite A5, Epd, elem_of_app. destruct H7 as [?|Hp]; [left; by apply Hmono|]. rewrite Ep in Hp.
    apply elem_of_cons in Hp as [->|Hp]; [left; by eapply node_of_elem|right; by left].
  - intros x. rewrite A5, Epd, elem_of_app, list_elem_of_bind. intros [Hx|[Hx|(c & Hx & Hc)]].
    + destruct (Hnew x Hx) as [Hx1|[->|(c & Hc & Hj)]]; [apply H8; by left|done|]. eapply rtc_r; [exact Hstart_s|by eapply Hfeed].
    + apply H8. right. rewrite Ep. by right.
    + eapply rtc_r; [exact Hstart_s|by eapply Hfeed].
  - intros y x Hy Hvy Hf. destruct (Hback y Hy Hvy) as [->|[Hy1 Hvy1]]; [|apply Hmono; by eapply H9].
    destruct Hf as (c & Hc & (link & Hl & Hn)%elem_of_joining). destruct (A4 c link x) as (e & _ & _ & Ht & _); [by apply Hout|done|done|].
    by eapply node_of_elem.
  - intros e He. destruct (A3 e He) as [He1|(c & link & next & Hc & Hl & Hn & Hf)].
    + rewrite Ee in He1. destruct (H10 e He1) as (y & c & link & x & Hy & Hvy & Hc & Hl & Hn & Hs' & Ht & Hm).
      exists y, c, link, x. split_and!; [by apply Hnode|rewrite Hvis; set_solver|done..|]. split_and!; [done|by apply Hnode|done].
    + exists s, c, link, next. pose proof Hf as (Hsrc & _). rewrite Hsrc. split_and!; [done|rewrite Hvis; set_solver|by apply Hout|done|done|done].
  - intros y c link x Hy Hvy Hc Hl Hn. destruct (Hback y Hy Hvy) as [->|[Hy1 Hvy1]].
    + destruct (A4 c link x) as (e & He & Hf); [by apply Hout|done|done|]. exists e. pose proof Hf as (Hsrc & _). rewrite Hsrc. by split_and!.
    + destruct (H11 y c link x Hy1 Hvy1 Hc Hl Hn) as (e & He & Hsrc & Hf1 & Hf2 & Hf3). exists e. split_and!; [|by apply Hnode|].
      * destruct A1 as [_ Hp _]. destruct Hp as [k ->]. rewrite Ee. apply elem_of_app. by left.
      * split_and!; [done|by apply Hnode|done].
  - intros c. rewrite A6, Eb, H12, Hout. split.
    + intros [(y & Hy & Hvy & Hc & Hb)|[Hc Hb]]; [exists y|exists s]; (split_and!; [|rewrite Hvis; set_solver|done..]); [by apply Hmono|by eapply node_of_elem].
    + intros (y & Hy & Hvy & Hc & Hb). destruct (Hback y Hy Hvy) as [->|[Hy1 Hvy1]]; [by right|left; by exists y].
Qed.

(** ** The loop *)

Lemma run_loop_unfold fuel pending r :
  run_loop comps sdk runners consumers sides fuel pending r =
    match pending with
    | [] => Ok (run_popped r [])
    | s :: pending =>
        if decide (stage_id s ∈ run_visited r) then run_loop comps sdk runners consumers sides fuel pending r
        else
          match fuel with
          | O => Panic "splittable run bound"
          | S fuel =>
              r ← run_stage comps sdk runners consumers sides s (run_popped r pending);
              run_loop comps sdk runners consumers sides fuel (run_pending r) r
          end
    end.
Proof. by destruct fuel, pending. Qed.

Lemma run_popped_pending r : run_popped r (run_pending r) = r.
Proof. by destruct r. Qed.

Lemma run_loop_inv start fuel pending r r' :
  run_inv start (run_popped r pending) → run_loop comps sdk runners consumers sides fuel pending r = Ok r' →
  run_inv start r' ∧ run_pending r' = [].
Proof.
  revert pending r. induction fuel as [|fuel IH]; intros pending; induction pending as [|s pending IHp]; intros r Hinv E;
    rewrite run_loop_unfold in E.
  1, 3: by injection E as <-.
  - case_decide as Hv; [|done]. apply (IHp r); [|done]. by apply (run_inv_skip start (run_popped r (s :: pending)) s pending).
  - case_decide as Hv; [apply (IHp r); [|done]; by apply (run_inv_skip start (run_popped r (s :: pending)) s pending)|].
    inv_bind E. apply (IH (run_pending a) a); [|done]. rewrite run_popped_pending.
    by apply (run_inv_visit start (run_popped r (s :: pending)) s pending).
Qed.

(** ** It ends *)

Lemma metadata_panic output id w :
  build_consumer_metadata comps sdk runners output id = Panic w → w = "Producer transform not found" ∨ w = "Output PCollection not found".
Proof.
  unfold build_consumer_metadata, get_producer_transform. destruct (find _ _); [|destruct (find _ _)]; cbn [mbind outcome_bind];
    try destruct (pcollections comps !! output); intros [= <-]; auto.
Qed.

Lemma run_stage_panic s r w :
  run_stage comps sdk runners consumers sides s r = Panic w → w = "Producer transform not found" ∨ w = "Output PCollection not found".
Proof.
  unfold run_stage. destruct (run_index s r) as [i r0]. intros E. apply try_fold_panic in E as (r1 & c & E).
  unfold run_output in E. destruct (try_fold _ _ _) as [[r2 x]|e|w1] eqn:Ef; try done. injection E as ->.
  apply try_fold_panic in Ef as ([r3 y] & link & Ef). unfold run_consumer in Ef. destruct (cl_node link) as [next| |]; try done.
  destruct (_ && _); [|done]. destruct (run_index next r3) as [j r4].
  destruct (build_consumer_metadata comps sdk runners c (cl_transform_id link)) as [m|e|w1] eqn:Em; try done. injection Ef as ->.
  by eapply metadata_panic.
Qed.

(** The stages still to be visited. *)
Definition unvisited (v : gset string) : nat := length (filter (λ s, stage_id s ∉ v) sdk).

Lemma unvisited_visit v s : s ∈ sdk → stage_id s ∉ v → (unvisited ({[stage_id s]} ∪ v) < unvisited v)%nat.
Proof.
  intros Hs Hv. unfold unvisited.
  assert (Hle : ∀ l, (length (filter (λ x, stage_id x ∉ {[stage_id s]} ∪ v) l) ≤ length (filter (λ x, stage_id x ∉ v) l))%nat).
  { induction l as [|x l IH]; [done|]. rewrite !filter_cons. destruct (decide (stage_id x ∉ {[stage_id s]} ∪ v)) as [H1|H1].
    - rewrite decide_True by set_solver. simpl. lia.
    - destruct (decide (stage_id x ∉ v)); simpl; lia. }
  clear Hids Hlinks. induction Hs as [x l|x y l Hs IH].
  - rewrite filter_cons_False by set_solver. rewrite filter_cons_True by done. simpl. specialize (Hle l). lia.
  - specialize (IH Hv Hle). rewrite !filter_cons. destruct (decide (stage_id y ∉ {[stage_id x]} ∪ v)) as [H1|H1].
    + rewrite decide_True by set_solver. simpl. lia.
    + destruct (decide (stage_id y ∉ v)); simpl; lia.
Qed.

Lemma run_loop_ends start fuel pending r :
  run_inv start (run_popped r pending) → (unvisited (run_visited r) ≤ fuel)%nat →
  run_loop comps sdk runners consumers sides fuel pending r ≠ Panic "splittable run bound".
Proof.
  revert pending r. induction fuel as [|fuel IH]; intros pending; induction pending as [|s pending IHp]; intros r Hinv Hf;
    rewrite run_loop_unfold; try done.
  all: case_decide as Hv; [apply (IHp r); [|done]; by apply (run_inv_skip start (run_popped r (s :: pending)) s pending)|].
  all: assert (Hs : s ∈ sdk) by (apply (rv_pending _ _ Hinv); by left).
  all: pose proof (unvisited_visit _ _ Hs Hv).
  1: lia.
  destruct (run_stage comps sdk runners consumers sides s (run_popped r pending)) as [r1|e|w] eqn:Er; cbn [mbind outcome_bind]; [|done|].
  - destruct (run_inv_visit start (run_popped r (s :: pending)) s pending r1 Hinv eq_refl Hv Er) as [Hinv1 Hv1].
    apply IH; [by rewrite run_popped_pending|]. rewrite Hv1. cbn [run_popped run_visited]. lia.
  - intros [= ->]. apply run_stage_panic in Er as [?|?]; done.
Qed.

(** * The node of a run *)

Record toposort_law : Prop := {
  tl_perm : ∀ n es order, toposort n es = Some order → order ≡ₚ seq 0 n;
  tl_order : ∀ n es order i j u v, toposort n es = Some order → (u, v) ∈ es → order !! i = Some u → order !! j = Some v → i < j;
}.

(** The plan runs every stage of the run: the one that processes elements last, those
    before it in an order in which no stage feeds an earlier one. *)
Record plan_ok (nested : list ExecutableStage) (edges : list GraphEdge) (plan : SplittableExecutionPlan) : Prop := {
  po_process : process_stage plan ∈ nested ∧ splittable_process_kind (process_stage plan) = Some (process_kind plan);
  po_initialization : initialization_stages plan ≠ [] ∧ ∀ s, s ∈ initialization_stages plan ↔ s ∈ nested ∧ splittable_process_kind s = None;
  po_order : ∃ order, order ≡ₚ nested ∧ initialization_stages plan = List.filter (λ s, bool_decide (splittable_process_kind s = None)) order
    ∧ ∀ e i j x y, e ∈ edges → nested !! ge_source e = Some x → nested !! ge_target e = Some y →
        order !! i = Some x → order !! j = Some y → i < j;
}.

(** What a run is made of, from the stage that starts it. *)
Record run_of (start : ExecutableStage) (nested : list ExecutableStage) (edges : list GraphEdge) (boundary : gset string) : Prop := {
  ro_stages : ∀ s, s ∈ nested ↔ rtc feeds start s;
  ro_once : NoDup (stage_id <$> nested);
  ro_boundary : ∀ c, c ∈ boundary ↔ ∃ s, s ∈ nested ∧ c ∈ outputs_of s ∧ leaves_run (completes s) c = true;
  ro_edges : ∀ e, e ∈ edges → ∃ y c link x, nested !! ge_source e = Some y ∧ nested !! ge_target e = Some x
    ∧ c ∈ outputs_of y ∧ link ∈ links_of c ∧ next_stage (completes y) link = Some x
    ∧ build_consumer_metadata comps sdk runners c (cl_transform_id link) = Ok (ge_weight e);
  ro_complete : ∀ y c link x, y ∈ nested → c ∈ outputs_of y → link ∈ links_of c → next_stage (completes y) link = Some x →
    ∃ e, e ∈ edges ∧ nested !! ge_source e = Some y ∧ nested !! ge_target e = Some x
      ∧ build_consumer_metadata comps sdk runners c (cl_transform_id link) = Ok (ge_weight e);
}.

Lemma run_inv_run_of start r :
  run_inv start r → run_pending r = [] → run_of start (run_nodes r) (run_edges r) (run_boundary r)
  ∧ run_members r ≡ₚ stage_id <$> run_nodes r.
Proof.
  intros [H1 H2 H3 H4 H5 H6 H7 H8 H9 H10 H11 H12] Ep.
  assert (Hall : ∀ s, s ∈ run_nodes r → stage_id s ∈ run_visited r).
  { intros s Hs. destruct (H5 s Hs) as [?|Hp]; [done|]. rewrite Ep in Hp. by apply elem_of_nil in Hp. }
  assert (Honce : NoDup (stage_id <$> run_nodes r)).
  { apply NoDup_alt. intros i j id Hi Hj. apply list_lookup_fmap_Some in Hi as (x & -> & Hx), Hj as (y & Eid & Hy).
    destruct H1 as [H1 _]. assert (Ei : run_indices r !! stage_id x = Some i) by (apply H1; by exists x).
    assert (Ej : run_indices r !! stage_id x = Some j) by (apply H1; by exists y). congruence. }
  split; [split|].
  - intros s. split; [intros Hs; apply H8; by left|]. intros Hr.
    refine (rtc_ind_r (λ z, z ∈ run_nodes r) start _ _ s Hr); [|intros y z _ Hyz Hy; by apply (H9 y z Hy (Hall y Hy))].
    destruct H7 as [?|Hp]; [done|]. rewrite Ep in Hp. by apply elem_of_nil in Hp.
  - done.
  - intros c. rewrite H12. split; [intros (y & ? & _ & ? & ?)|intros (y & ? & ? & ?)]; exists y; split_and!; try done. by apply Hall.
  - intros e He. destruct (H10 e He) as (y & c & link & x & Hy & _ & Hc & Hl & Hn & _ & Ht & Hm). by exists y, c, link, x.
  - intros y c link x Hy Hc Hl Hn. destruct (H11 y c link x Hy (Hall y Hy) Hc Hl Hn) as (e & He & Hs & _ & Ht & Hm). by exists e.
  - apply NoDup_Permutation; [done|done|]. intros id. rewrite <- H2. split.
    + intros Hid. destruct (H4 _ Hid) as (s & ? & <-). by apply list_elem_of_fmap_2.
    + intros (s & -> & Hs)%list_elem_of_fmap. by apply Hall.
Qed.

Lemma omap_lookups_seq {A} (pre l : list A) : omap (λ i, (pre ++ l) !! i) (seq (length pre) (length l)) = l.
Proof.
  revert pre. induction l as [|x l IH]; intros pre; [done|]. cbn [length seq omap list_omap].
  rewrite lookup_app_r, Nat.sub_diag by lia. cbn [lookup list_lookup]. f_equal.
  specialize (IH (pre ++ [x])). rewrite length_app, Nat.add_1_r, <- (assoc_L (++)) in IH. exact IH.
Qed.

Lemma omap_lookups {A} (l : list A) (order : list nat) : order ≡ₚ seq 0 (length l) → omap (λ i, l !! i) order ≡ₚ l.
Proof. intros ->. pose proof (omap_lookups_seq [] l) as E. cbn [app length] in E. by rewrite E. Qed.

Lemma last_elem {A} (l : list A) x : last l = Some x → x ∈ l.
Proof. intros E. apply last_Some in E as [k ->]. apply elem_of_app. right. by left. Qed.

Lemma plan_spec (L : toposort_law) id nested edges plan :
  NoDup (stage_id <$> nested) →
  build_splittable_execution_plan toposort id nested edges = Ok plan → plan_ok nested edges plan.
Proof.
  intros Hnd E. unfold build_splittable_execution_plan in E. destruct (toposort _ _) as [sorted|] eqn:Et; [|done].
  set (order := omap (λ i, nested !! i) sorted) in *. pose proof (tl_perm L _ _ _ Et) as Hperm.
  assert (Ho : order ≡ₚ nested) by (by apply omap_lookups).
  destruct (List.filter _ order) as [|x0 init] eqn:Ei; [done|]. destruct (last _) as [[p k]|] eqn:El; [|done]. injection E as <-.
  apply last_elem, list_elem_of_omap in El as (p' & Hp' & Ek). destruct (splittable_process_kind p') as [k'|] eqn:Ekind; [|done].
  injection Ek as -> ->. split; cbn [process_stage process_kind initialization_stages].
  - split; [by rewrite <- Ho|done].
  - split; [done|]. intros s. rewrite <- Ei, <- Ho. unfold not. rewrite !list_elem_of_In, List.filter_In, bool_decide_eq_true. done.
  - exists order. split_and!; [done|by rewrite Ei|]. intros e i j x y He Hx Hy Hi Hj.
    assert (Hpos : ∀ i s, order !! i = Some s → ∃ n, sorted !! i = Some n ∧ nested !! n = Some s).
    { assert (Hall : ∀ n, n ∈ sorted → is_Some (nested !! n)).
      { intros n Hn. apply lookup_lt_is_Some. rewrite Hperm, elem_of_seq in Hn. lia. }
      clear -Hall. unfold order. induction sorted as [|n sorted IH]; intros i s Hi; [done|]. cbn [omap list_omap] in Hi.
      destruct (Hall n) as [s' Es']; [by left|]. rewrite Es' in Hi. destruct i as [|i]; [injection Hi as <-; by exists n|].
      apply IH in Hi as (m & ? & ?); [by exists m|]. intros m Hm. apply Hall. by right. }
    destruct (Hpos i x Hi) as (u & Hu & Hux), (Hpos j y Hj) as (v & Hv & Hvy).
    assert (Huniq : ∀ a b s, nested !! a = Some s → nested !! b = Some s → a = b).
    { intros a b s Ha Hb. eapply (NoDup_lookup (stage_id <$> nested)); [done|by rewrite list_lookup_fmap, Ha|by rewrite list_lookup_fmap, Hb]. }
    assert (u = ge_source e) as -> by (by eapply Huniq). assert (v = ge_target e) as -> by (by eapply Huniq).
    eapply (tl_order L); [exact Et| |exact Hu|exact Hv].
    apply list_elem_of_fmap. by exists e.
Qed.

Lemma sort_ids_perm ids : sort_ids ids ≡ₚ ids.
Proof. apply sort_by_perm. Qed.

Lemma build_splittable_node_spec (L : toposort_law) start node members :
  start ∈ sdk → build_splittable_node toposort comps sdk runners consumers sides start = Ok (node, members) →
  ∃ nested edges boundary plan,
    node = Splittable ("splittable:" +:+ join members) (Worker <$> nested) edges boundary plan
    ∧ run_of start nested edges boundary ∧ plan_ok nested edges plan ∧ members ≡ₚ stage_id <$> nested.
Proof.
  intros Hs E. unfold build_splittable_node in E. inv_bind E. inv_bind E. injection E as <- <-.
  apply (run_loop_inv start) in E0 as [Hinv Hp]; [|by apply run_inv_start].
  apply run_inv_run_of in Hinv as [Hrun Hm]; [|done].
  exists (run_nodes a), (run_edges a), (run_boundary a), a0. split_and!; [done|done| |by rewrite sort_ids_perm].
  eapply plan_spec; [done|exact (ro_once _ _ _ _ Hrun)|done].
Qed.

(** Looking for a run ends. *)
Lemma build_splittable_node_ends start :
  start ∈ sdk → build_splittable_node toposort comps sdk runners consumers sides start ≠ Panic "splittable run bound".
Proof.
  intros Hs E. unfold build_splittable_node in E.
  destruct (run_loop comps sdk runners consumers sides (length sdk) [start] _) as [r|e|w] eqn:Er; cbn [mbind outcome_bind] in E.
  - unfold build_splittable_execution_plan in E. destruct (toposort _ _); [|done]. destruct (List.filter _ _); [done|].
    by destruct (last _) as [[]|].
  - done.
  - injection E as ->. revert Er. apply (run_loop_ends start); [by apply run_inv_start|].
    unfold unvisited. apply length_filter.
Qed.
End run.
