(* ===== verification/ExecGraphSpec.v ===== *)
(** The walk that builds the executable graph: every node is expanded once, its outgoing
    edges are its consumer links, one each, and the walk ends. *)
From Stdlib Require Import Ascii.
From S2P Require Import Prelude Bytes CoderGraph Pipeline StageFuserSpec StageFuser ExecGraph SplittableRun.
Set Warnings "-clear-no-such-hyp".
Local Open Scope string_scope.
Local Open Scope list_scope.

(** * Ids *)

(** Neither the separator of a run's members nor the colon after [splittable] is in the
    text of a UUID. *)
Definition uuid_text (id : string) : Prop := Forall (λ c : ascii, c ≠ ","%char ∧ c ≠ ":"%char) (String.list_ascii_of_string id).

Lemma uuid_text_not_run suffix : ¬ uuid_text ("splittable:" +:+ suffix).
Proof.
  intros Ht. unfold uuid_text in Ht. rewrite Forall_forall in Ht. destruct (Ht ":"%char) as [_ Hc]; [|done].
  unfold String.append. cbn. do 10 right. by left.
Qed.

Lemma append_cons c a x : String.String c a +:+ x = String.String c (a +:+ x).
Proof. done. Qed.

Lemma join_cut a b x y : uuid_text a → uuid_text b → a +:+ "," +:+ x = b +:+ "," +:+ y → a = b ∧ x = y.
Proof.
  unfold uuid_text. revert b. induction a as [|c a IH]; intros [|c' b]; cbn; rewrite ?Forall_cons, ?append_cons; intros Ha Hb E; injection E as E.
  - by subst.
  - destruct Hb as [[Hb _] _]. by destruct Hb.
  - destruct Ha as [[Ha _] _]. by destruct Ha.
  - destruct (IH b) as [-> ->]; [tauto|tauto|done|]. by subst c'.
Qed.

Lemma join_one a b x : uuid_text a → a ≠ b +:+ "," +:+ x.
Proof.
  unfold uuid_text. revert b. induction a as [|c a IH]; intros [|c' b]; cbn; rewrite ?Forall_cons, ?append_cons; intros Ha E; [done|done| |];
    injection E as E1 E2; [subst c; destruct Ha as [[Ha _] _]; by destruct Ha|]. apply (IH b); [tauto|done].
Qed.

(** The members of a run can be read off its id. *)
Lemma join_inj l l' : Forall uuid_text l → Forall uuid_text l' → l ≠ [] → l' ≠ [] → join l = join l' → l = l'.
Proof.
  revert l'. induction l as [|a l IH]; intros [|b l'] Hl Hl' Hn Hn' E; [done..|]. apply Forall_cons in Hl as [Ha Hl], Hl' as [Hb Hl'].
  destruct l as [|a2 l], l' as [|b2 l'].
  - cbn [join] in E. by subst.
  - exfalso. exact (join_one a b (join (b2 :: l')) Ha E).
  - exfalso. exact (join_one b a (join (a2 :: l)) Hb (eq_sym E)).
  - change (a +:+ "," +:+ join (a2 :: l) = b +:+ "," +:+ join (b2 :: l')) in E. apply join_cut in E as [-> E]; [|done|done].
    f_equal. by apply IH.
Qed.

Section walk.
Context `{HashIterLaws}.
Context (toposort : nat → list (nat * nat) → option (list nat)) (L : toposort_law toposort).
Context (comps : Components) (sdk : list ExecutableStage) (runners : list PTransformNode)
  (consumers : consumer_map) (sides : gset string).

Abbreviation links_of := (links_of consumers).
Abbreviation metadata := (build_consumer_metadata comps sdk runners).

(** What is known of the consumer links: they are stages of the pipeline, and the runner
    transforms [rs]; all of them have ids of their own. *)
Context (rs : list RunnerTransform).

Definition link_nodes : list ExecutableNode := (Worker <$> sdk) ++ (Runner <$> rs).

Context (Hids : NoDup (stage_id <$> sdk))
  (Huuid : ∀ n, n ∈ link_nodes → uuid_text (node_id n))
  (Hworker : ∀ c link s, link ∈ links_of c → cl_node link = Worker s → s ∈ sdk)
  (Hrunner : ∀ c link r, link ∈ links_of c → cl_node link = Runner r → r ∈ rs)
  (Hplain : ∀ c link i n e o p, link ∈ links_of c → cl_node link ≠ Splittable i n e o p).

Lemma stage_link_node s : s ∈ sdk → Worker s ∈ link_nodes.
Proof. intros Hs. apply elem_of_app. left. by apply list_elem_of_fmap_2. Qed.

(** * What stands for a consumer *)

(** A node that is a run, made from a stage of the pipeline. *)
Definition is_run (node : ExecutableNode) (nested : list ExecutableStage) : Prop :=
  ∃ start edges boundary plan members, start ∈ sdk
    ∧ node = Splittable ("splittable:" +:+ join members) (Worker <$> nested) edges boundary plan ∧ members ≡ₚ stage_id <$> nested
    ∧ run_of comps sdk runners consumers sides start nested edges boundary ∧ plan_ok nested edges plan.

(** A splittable stage is represented by the run it is in, everything else by itself. *)
Definition stands_for (node consumer : ExecutableNode) : Prop :=
  match consumer with
  | Worker s => if is_splittable s then ∃ nested, is_run node nested ∧ s ∈ nested else node = consumer
  | _ => node = consumer
  end.

Lemma run_stages_sdk start s : start ∈ sdk → rtc (feeds consumers) start s → s ∈ sdk.
Proof.
  intros Hs Hr. refine (rtc_ind_r (λ z, z ∈ sdk) start _ _ s Hr); [done|]. intros y z _ (c & _ & Hj) _.
  unfold joining in Hj. apply list_elem_of_omap in Hj as (link & Hl & Hn). unfold next_stage in Hn.
  destruct (cl_node link) as [x| |] eqn:En; [|done..]. destruct (_ && _); [|done]. injection Hn as <-. by eapply Hworker.
Qed.

(** ** The cache of runs *)

(** The runs that were made, no two with one id; each was made for a stage that none of
    the others has. *)
Record cache_inv (made : list ExecutableNode) (cache : gmap string ExecutableNode) : Prop := {
  ci_runs : ∀ id node, cache !! id = Some node → node ∈ made ∧ ∃ nested, is_run node nested ∧ id ∈ stage_id <$> nested;
  ci_made : ∀ node, node ∈ made → ∃ nested, is_run node nested ∧ ∀ s, s ∈ nested → is_Some (cache !! stage_id s);
  ci_once : NoDup (node_id <$> made);
  ci_size : (length made ≤ size cache)%nat;
  ci_dom : ∀ id, is_Some (cache !! id) → id ∈ stage_id <$> sdk;
}.

Lemma run_sdk node nested s : is_run node nested → s ∈ nested → s ∈ sdk.
Proof.
  intros (start & ed & bo & pl & su & Hst & _ & _ & Hro & _) Hs. eapply run_stages_sdk; [exact Hst|].
  by apply (ro_stages _ _ _ _ _ _ _ _ _ Hro).
Qed.

Lemma run_id node nested : is_run node nested → ∃ suffix, node_id node = "splittable:" +:+ suffix.
Proof. intros (start & ed & bo & pl & su & _ & -> & _). by eexists. Qed.

(** Two runs with one id have the same stages. *)
Lemma run_same_id node node' nested nested' s :
  is_run node nested → is_run node' nested' → node_id node = node_id node' → s ∈ nested → s ∈ nested'.
Proof.
  intros Hr Hr' E Hs.
  assert (Htext : ∀ node nested members, is_run node nested → members ≡ₚ stage_id <$> nested → Forall uuid_text members).
  { intros m ne members Hm Ep. apply Forall_forall. intros id Hid. rewrite Ep in Hid. apply list_elem_of_fmap in Hid as (x & -> & Hx).
    apply (Huuid (Worker x)), stage_link_node. by eapply run_sdk. }
  assert (Hne : ∀ node nested members, is_run node nested → members ≡ₚ stage_id <$> nested → members ≠ []).
  { intros m ne members (start & ed & bo & pl & su & _ & _ & _ & Hro & _) Ep ->.
    assert (Hst : start ∈ ne) by (by apply (ro_stages _ _ _ _ _ _ _ _ _ Hro)).
    apply (list_elem_of_fmap_2 stage_id) in Hst. rewrite <- Ep in Hst. by apply elem_of_nil in Hst. }
  pose proof Hr as (st & ed & bo & pl & ms & _ & -> & Em & _ & _). pose proof Hr' as (st' & ed' & bo' & pl' & ms' & _ & -> & Em' & _ & _).
  cbn [node_id] in E. apply (inj (String.append "splittable:")) in E.
  apply join_inj in E as ->; [|exact (Htext _ _ _ Hr Em)|exact (Htext _ _ _ Hr' Em')|exact (Hne _ _ _ Hr Em)|exact (Hne _ _ _ Hr' Em')].
  assert (Hid : stage_id s ∈ stage_id <$> nested') by (rewrite <- Em', Em; by apply list_elem_of_fmap_2).
  apply list_elem_of_fmap in Hid as (s' & Eid & Hs'). assert (s = s') as ->; [|done].
  eapply same_stage; [exact Hids|exact (run_sdk _ _ _ Hr Hs)|exact (run_sdk _ _ _ Hr' Hs')|done].
Qed.

Lemma insert_members_lookup (node : ExecutableNode) ids (cache : gmap string ExecutableNode) id :
  foldl (λ cache id, <[id := node]> cache) cache ids !! id = if decide (id ∈ ids) then Some node else cache !! id.
Proof.
  revert cache. induction ids as [|x ids IH]; intros cache; [done|]. cbn [foldl]. rewrite IH.
  destruct (decide (id ∈ ids)) as [Hin|Hin]; [by rewrite decide_True by (by right)|].
  destruct (decide (id = x)) as [->|Hne].
  - rewrite lookup_insert_eq. by rewrite decide_True by left.
  - rewrite lookup_insert_ne by done. rewrite decide_False; [done|]. rewrite elem_of_cons. tauto.
Qed.

Lemma resolve_consumer_spec made c link cache node cache' :
  link ∈ links_of c → cache_inv made cache →
  resolve_consumer toposort comps sdk runners consumers sides (cl_node link) cache = Ok (node, cache') →
  ∃ made', made `suffix_of` made' ∧ cache_inv made' cache' ∧ stands_for node (cl_node link)
    ∧ node ∈ link_nodes ++ made'.
Proof.
  intros Hl Hc E. unfold resolve_consumer in E. destruct (cl_node link) as [s|r|i n e o p] eqn:En.
  - pose proof (Hworker _ _ _ Hl En) as Hs. cbn [stands_for]. destruct (is_splittable s).
    2: { injection E as <- <-. exists made. split_and!; [done|done|done|]. apply elem_of_app. left. by apply stage_link_node. }
    destruct (cache !! stage_id s) as [existing|] eqn:Ec.
    { injection E as <- <-. destruct (ci_runs _ _ Hc _ _ Ec) as (Hmade & nested & Hrun & Hin). exists made.
      split_and!; [done|done| |apply elem_of_app; by right]. exists nested. split; [done|].
      apply list_elem_of_fmap in Hin as (s' & Eid & Hs'). assert (s = s') as ->; [|done].
      eapply same_stage; [exact Hids|done|exact (run_sdk _ _ _ Hrun Hs')|done]. }
    inv_bind E. destruct a as [node0 members]. injection E as <- <-.
    destruct (build_splittable_node_spec toposort comps sdk runners consumers sides Hids Hworker L s node0 members Hs E0)
      as (nested & edges & boundary & plan & En0 & Hro & Hpl & Hm).
    assert (Hrun : is_run node0 nested) by (by exists s, edges, boundary, plan, members).
    assert (Hin : s ∈ nested) by (by apply (ro_stages _ _ _ _ _ _ _ _ _ Hro)).
    exists (node0 :: made). split_and!; [by exists [node0]| |by exists nested|apply elem_of_app; right; by left].
    assert (Hlook : ∀ x, x ∈ nested → stage_id x ∈ members) by (intros x Hx; rewrite Hm; by apply list_elem_of_fmap_2). split.
    + intros id node. rewrite insert_members_lookup. case_decide as Hid.
      * intros [= <-]. split; [by left|]. exists nested. split; [done|]. by rewrite <- Hm.
      * intros E1. destruct (ci_runs _ _ Hc _ _ E1) as (? & ?). split; [by right|done].
    + intros node [->|Hn]%elem_of_cons.
      * exists nested. split; [done|]. intros x Hx. rewrite insert_members_lookup, decide_True by auto. by eexists.
      * destruct (ci_made _ _ Hc _ Hn) as (ne & Hne & Hall). exists ne. split; [done|]. intros x Hx.
        rewrite insert_members_lookup. case_decide; [by eexists|by apply Hall].
    + cbn [fmap list_fmap]. apply NoDup_cons. split; [|exact (ci_once _ _ Hc)].
      intros (m & Em & Hmade)%list_elem_of_fmap. destruct (ci_made _ _ Hc _ Hmade) as (ne & Hne & Hall).
      destruct (Hall s) as [? Hx]; [exact (run_same_id _ _ _ _ _ Hrun Hne Em Hin)|congruence].
    + pose proof (ci_size _ _ Hc) as Hsize. cbn [length].
      assert (Hsub : {[stage_id s]} ∪ dom cache ⊆ dom (foldl (λ cache id, <[id := node0]> cache) cache members)).
      { intros id. rewrite elem_of_union, elem_of_singleton, !elem_of_dom, insert_members_lookup. intros [->|Hid].
        - rewrite decide_True by auto. by eexists.
        - case_decide; [by eexists|done]. }
      apply subseteq_size in Hsub. rewrite size_union, size_singleton, !size_dom in Hsub; [lia|].
      apply not_elem_of_dom in Ec. set_solver.
    + intros id. rewrite insert_members_lookup. case_decide as Hid; [|by apply (ci_dom _ _ Hc)]. intros _.
      rewrite Hm in Hid. apply list_elem_of_fmap in Hid as (x & -> & Hx). apply list_elem_of_fmap_2. by eapply run_sdk.
  - injection E as <- <-. exists made. split_and!; [done|done|done|]. apply elem_of_app. left. apply elem_of_app. right.
    apply list_elem_of_fmap_2. by eapply Hrunner.
  - by destruct (Hplain _ _ _ _ _ _ _ Hl En).
Qed.

(** * The walk *)

(** The runner transform that stands for a transform, under an id. *)
Definition runner_of (id : string) (t : PTransformNode) : option RunnerTransform :=
  spec ← pt_spec (ptn_transform t);
  Some (mkRunner id (fs_urn spec) (pt_unique_name (ptn_transform t)) (pt_inputs (ptn_transform t)) (pt_outputs (ptn_transform t))
          (fs_payload spec)).

(** A link of an output that was walked: it became an edge to the node that stands for the
    consumer, another one, or that node is the one the output is of. *)
Definition outcome_of (nodes : list ExecutableNode) (i : nat) (producer : ExecutableNode) (l : string * ConsumerLink)
    (o : option GraphEdge) : Prop :=
  match o with
  | Some e => ge_source e = i ∧ ge_target e ≠ i ∧ (∃ target, nodes !! ge_target e = Some target ∧ stands_for target (cl_node l.2))
              ∧ metadata l.1 (cl_transform_id l.2) = Ok (ge_weight e)
  | None => stands_for producer (cl_node l.2)
  end.

Definition edges_from (i : nat) (edges : list GraphEdge) : list GraphEdge := List.filter (λ e, (ge_source e =? i)%nat) edges.

(** The outgoing edges of a node are those of the links [ls], one each and in order. *)
Definition out_edges (nodes : list ExecutableNode) (edges : list GraphEdge) (i : nat) (producer : ExecutableNode)
    (ls : list (string * ConsumerLink)) : Prop :=
  ∃ outcomes, Forall2 (outcome_of nodes i producer) ls outcomes ∧ edges_from i edges = omap id outcomes.

(** The nodes that have been expanded, with the links that have been walked. *)
Abbreviation expansion := (list (nat * list (string * ConsumerLink))).

(** The nodes there can be. *)
Definition all_nodes (roots : list RunnerTransform) (made : list ExecutableNode) : list ExecutableNode :=
  link_nodes ++ (Runner <$> roots) ++ made.

Record walk_inv (roots : list RunnerTransform) (made : list ExecutableNode) (expanded : expansion) (b : Builder) : Prop := {
  wi_index : ∀ id i, node_indices b !! id = Some i ↔ ∃ n, b_nodes b !! i = Some n ∧ node_id n = id;
  wi_queued : ∀ id, id ∈ queued b ↔ is_Some (node_indices b !! id);
  wi_queue : ∀ n, n ∈ work_queue b → ∃ i, b_nodes b !! i = Some n ∧ i ∉ expanded.*1;
  wi_queue_once : NoDup (node_id <$> work_queue b);
  wi_nodes : ∀ i n, b_nodes b !! i = Some n → i ∈ expanded.*1 ∨ n ∈ work_queue b;
  wi_once : NoDup expanded.*1;
  wi_out : ∀ i ls, (i, ls) ∈ expanded → ∃ n, b_nodes b !! i = Some n ∧ out_edges (b_nodes b) (b_edges b) i n ls;
  wi_sources : ∀ e, e ∈ b_edges b → ge_source e ∈ expanded.*1;
  wi_reached : ∀ i n, b_nodes b !! i = Some n →
    (∃ r, r ∈ roots ∧ n = Runner r) ∨ ∃ e, e ∈ b_edges b ∧ ge_target e = i ∧ ge_source e < i;
  wi_cache : cache_inv made (b_cache b);
  wi_all : ∀ i n, b_nodes b !! i = Some n → n ∈ all_nodes roots made;
  wi_plain : ∀ r, r ∈ roots → uuid_text (rt_id r);
  wi_distinct : NoDup (node_id <$> link_nodes ++ (Runner <$> roots));
}.

Lemma same_id_in (l : list ExecutableNode) n m : NoDup (node_id <$> l) → n ∈ l → m ∈ l → node_id n = node_id m → n = m.
Proof.
  intros Hnd [i Hi]%list_elem_of_lookup [j Hj]%list_elem_of_lookup E.
  assert (i = j) as ->; [|congruence]. rewrite NoDup_alt in Hnd. apply (Hnd i j (node_id n)); rewrite list_lookup_fmap.
  - by rewrite Hi.
  - by rewrite Hj, E.
Qed.

(** The nodes there can be have ids of their own. *)
Lemma same_id roots made expanded b n m :
  walk_inv roots made expanded b → n ∈ all_nodes roots made → m ∈ all_nodes roots made → node_id n = node_id m → n = m.
Proof.
  intros W Hn Hm E. pose proof (wi_cache _ _ _ _ W) as Hc.
  assert (Hrun : ∀ x, x ∈ made → ∃ suffix, node_id x = "splittable:" +:+ suffix).
  { intros x Hx. destruct (ci_made _ _ Hc x Hx) as (ne & Hne & _). by eapply run_id. }
  assert (Htext : ∀ x, x ∈ link_nodes ++ (Runner <$> roots) → uuid_text (node_id x)).
  { intros x [Hx|(r & -> & Hr)%list_elem_of_fmap]%elem_of_app; [by apply Huuid|]. by apply (wi_plain _ _ _ _ W). }
  unfold all_nodes in Hn, Hm. rewrite (assoc_L (++)), elem_of_app in Hn, Hm. destruct Hn as [Hn|Hn], Hm as [Hm|Hm].
  - by eapply same_id_in; [exact (wi_distinct _ _ _ _ W)|..].
  - exfalso. destruct (Hrun m Hm) as [suffix Es]. apply (uuid_text_not_run suffix). rewrite <- Es, <- E. by apply Htext.
  - exfalso. destruct (Hrun n Hn) as [suffix Es]. apply (uuid_text_not_run suffix). rewrite <- Es, E. by apply Htext.
  - by eapply same_id_in; [exact (ci_once _ _ Hc)|..].
Qed.

Lemma outcome_of_grows nodes nodes' i n l o :
  nodes `prefix_of` nodes' → outcome_of nodes i n l o → outcome_of nodes' i n l o.
Proof.
  intros Hp Ho. destruct o as [e|]; [|done].
  destruct Ho as (? & ? & (t & Ht & ?) & ?). cbn. split_and!; [done|done| |done]. exists t. split; [|done]. by eapply prefix_lookup_Some.
Qed.

Lemma out_edges_grows nodes nodes' edges i n ls :
  nodes `prefix_of` nodes' → out_edges nodes edges i n ls → out_edges nodes' edges i n ls.
Proof.
  intros Hp (outcomes & Hf & E). exists outcomes. split; [|done]. eapply Forall2_impl; [exact Hf|].
  intros l o. by apply outcome_of_grows.
Qed.

Lemma edges_from_snoc i edges e :
  edges_from i (edges ++ [e]) = edges_from i edges ++ (if decide (ge_source e = i) then [e] else []).
Proof.
  unfold edges_from. rewrite List.filter_app. f_equal. simpl.
  destruct (Nat.eqb_spec (ge_source e) i); [by rewrite decide_True|by rewrite decide_False].
Qed.

Lemma node_index_unique roots made expanded b i j n m :
  walk_inv roots made expanded b → b_nodes b !! i = Some n → b_nodes b !! j = Some m → node_id n = node_id m → i = j.
Proof.
  intros W Hi Hj E. assert (E1 : node_indices b !! node_id n = Some i) by (apply (wi_index _ _ _ _ W); by exists n).
  assert (E2 : node_indices b !! node_id n = Some j) by (apply (wi_index _ _ _ _ W); by exists m). congruence.
Qed.

(** ** One link *)

(** Looking a node up or adding it. *)
Record ensured (node : ExecutableNode) (b : Builder) (k : nat) (b1 : Builder) : Prop := {
  en_edges : b_edges b1 = b_edges b;
  en_cache : b_cache b1 = b_cache b;
  en_queue : work_queue b1 = work_queue b;
  en_queued : queued b1 = queued b;
  en_prefix : b_nodes b `prefix_of` b_nodes b1;
  en_index : ∀ id i, node_indices b1 !! id = Some i ↔ ∃ n, b_nodes b1 !! i = Some n ∧ node_id n = id;
  en_known : ∀ id, is_Some (node_indices b1 !! id) ↔ id = node_id node ∨ is_Some (node_indices b !! id);
  en_target : ∃ t, b_nodes b1 !! k = Some t ∧ node_id t = node_id node;
  en_old : is_Some (node_indices b !! node_id node) → b_nodes b1 = b_nodes b;
  en_new : ¬ is_Some (node_indices b !! node_id node) → k = length (b_nodes b) ∧ b_nodes b1 = b_nodes b ++ [node];
}.

Lemma ensure_node_spec node b k b1 :
  (∀ id i, node_indices b !! id = Some i ↔ ∃ n, b_nodes b !! i = Some n ∧ node_id n = id) →
  ensure_node_exists node b = (k, b1) → ensured node b k b1.
Proof.
  intros W1 E. unfold ensure_node_exists in E. destruct (node_indices b !! node_id node) as [k'|] eqn:Ek; injection E as <- <-.
  - split; try done.
    + intros id. split; [by right|]. intros [->|?]; [by rewrite Ek|done].
    + by apply W1 in Ek.
    + intros Hn. exfalso. apply Hn. by rewrite Ek.
  - split; try done; cbn [node_indices b_nodes].
    + by apply prefix_app_r.
    + intros x j. destruct (decide (x = node_id node)) as [->|Hne].
      * rewrite lookup_insert_eq. split.
        -- intros [= <-]. exists node. by rewrite lookup_app_r, Nat.sub_diag by lia.
        -- intros (n & Hn & En). apply lookup_app_Some in Hn as [Hn|[Hge Hn]].
           ++ exfalso. assert (Hx : node_indices b !! node_id node = Some j) by (apply W1; by exists n). congruence.
           ++ apply list_lookup_singleton_Some in Hn as [Hz _]. f_equal. lia.
      * rewrite lookup_insert_ne by done. rewrite W1. split.
        -- intros (n & Hn & En). exists n. split; [by apply lookup_app_l_Some|done].
        -- intros (n & Hn & En). apply lookup_app_Some in Hn as [Hn|[_ Hn]]; [by exists n|].
           apply list_lookup_singleton_Some in Hn as [_ <-]. done.
    + intros id. destruct (decide (id = node_id node)) as [->|Hne].
      * rewrite lookup_insert_eq. split; [by left|by eexists].
      * rewrite lookup_insert_ne by done. split; [by right|]. by intros [?|?].
    + exists node. by rewrite lookup_app_r, Nat.sub_diag by lia.
    + rewrite Ek. by intros [? ?].
Qed.

Lemma wi_expanded_lt roots made expanded b i : walk_inv roots made expanded b → i ∈ expanded.*1 → i < length (b_nodes b).
Proof.
  intros W ((j & ls) & -> & Hin)%list_elem_of_fmap. destruct (wi_out _ _ _ _ W j ls Hin) as (n & Hn & _). by eapply lookup_lt_Some.
Qed.

Lemma wi_cache_change roots made made' expanded b cache :
  walk_inv roots made expanded b → made `suffix_of` made' → cache_inv made' cache → walk_inv roots made' expanded (with_cache cache b).
Proof.
  intros [W1 W2 W3 W4 W5 W6 W7 W8 W9 W10 W11 W12 W13] [pre ->] Hc. split; try done.
  intros j n Hn. apply W11 in Hn. unfold all_nodes in *. rewrite !elem_of_app in *. tauto.
Qed.

(** A link into the producer itself. *)
Lemma wi_self_link roots made expanded i ls producer c link b :
  walk_inv roots made ((i, ls) :: expanded) b → b_nodes b !! i = Some producer → stands_for producer (cl_node link) →
  walk_inv roots made ((i, ls ++ [(c, link)]) :: expanded) b.
Proof.
  intros [W1 W2 W3 W4 W5 W6 W7 W8 W9 W10 W11 W12 W13] Hi Hst. split; try done.
  intros j ks Hin. apply elem_of_cons in Hin as [[= -> ->]|Hin].
  - destruct (W7 i ls) as (n & Hn & outcomes & Hf & Eo); [by left|]. assert (n = producer) as -> by congruence.
    exists producer. split; [done|]. exists (outcomes ++ [None]). split.
    + apply Forall2_app; [done|]. constructor; [done|constructor].
    + rewrite Eo, omap_app. simpl. by rewrite app_nil_r.
  - apply W7. by right.
Qed.

(** A link that becomes an edge. *)
Lemma wi_edge_link roots made expanded i ls producer root c link consumer k m b b1 :
  walk_inv roots made ((i, ls) :: expanded) b → b_nodes b !! i = Some producer → ensured consumer b k b1 →
  stands_for consumer (cl_node link) → metadata c (cl_transform_id link) = Ok m →
  consumer ∈ all_nodes roots made → consumer ≠ producer →
  walk_inv roots made ((i, ls ++ [(c, link)]) :: expanded) (add_consumer root (mkGraphEdge i k m) consumer b1).
Proof.
  intros W Hi En Hst Hm Hid Hother. pose proof W as [W1 W2 W3 W4 W5 W6 W7 W8 W9 W10 W11 W12 W13].
  destruct En as [Eed Eca Ewq Equ Hpfx Hidx Hknown Htgt Hold Hnew].
  assert (Hlt : i < length (b_nodes b)) by (by eapply lookup_lt_Some).
  assert (Hcases : (node_id consumer ∈ queued b ∧ b_nodes b1 = b_nodes b)
    ∨ (node_id consumer ∉ queued b ∧ k = length (b_nodes b) ∧ b_nodes b1 = (b_nodes b ++ [consumer]))).
  { destruct (decide (node_id consumer ∈ queued b)) as [Hq|Hq]; [left|right]; (split; [done|]); [apply Hold|apply Hnew]; by rewrite <- W2. }
  split; cbn [add_consumer b_nodes b_edges node_indices b_cache work_queue queued fmap list_fmap fst].
  - done.
  - intros id. rewrite Equ, elem_of_union, elem_of_singleton, Hknown, W2. done.
  - rewrite Ewq, Equ. intros n Hn.
    assert (Hn' : n ∈ work_queue b ∨ n = consumer ∧ node_id consumer ∉ queued b).
    { case_bool_decide as Hf; [|by left]. rewrite elem_of_app, list_elem_of_singleton in Hn. tauto. }
    destruct Hn' as [Hn'|[-> Hq]].
    + destruct (W3 n Hn') as (j & Hj & Hnin). exists j. split; [by eapply prefix_lookup_Some|done].
    + destruct Hcases as [[? _]|(_ & -> & ->)]; [done|]. exists (length (b_nodes b)). split; [by rewrite lookup_app_r, Nat.sub_diag by lia|].
      intros Hin. apply (wi_expanded_lt _ _ _ _ _ W) in Hin. lia.
  - rewrite Ewq, Equ. case_bool_decide as Hf; [|done]. rewrite fmap_app. apply NoDup_app. split_and!; [done| |apply NoDup_singleton].
    intros x (n & -> & Hn)%list_elem_of_fmap Hx%list_elem_of_singleton. apply Hf, W2. destruct (W3 n Hn) as (j & Hj & _).
    exists j. apply W1. by exists n.
  - rewrite Ewq, Equ. intros j n Hj. destruct Hcases as [[Hq E1]|(Hq & -> & E1)]; rewrite E1 in Hj.
    + rewrite bool_decide_false by tauto. by apply W5 in Hj.
    + rewrite bool_decide_true by done. rewrite elem_of_app, list_elem_of_singleton.
      apply lookup_app_Some in Hj as [Hj|[_ Hj]]; [apply W5 in Hj; tauto|]. apply list_lookup_singleton_Some in Hj as [_ <-]. by right; right.
  - done.
  - rewrite Eed. intros j ks Hin. apply elem_of_cons in Hin as [[= -> ->]|Hin].
    + destruct (W7 i ls) as (n & Hn & outcomes & Hf & Eo); [by left|]. assert (n = producer) as -> by congruence.
      exists producer. split; [by eapply prefix_lookup_Some|]. exists (outcomes ++ [Some (mkGraphEdge i k m)]). split.
      * apply Forall2_app; [eapply Forall2_impl; [exact Hf|]; intros l o; by apply outcome_of_grows|].
        constructor; [|constructor].
        assert (Hk : b_nodes b1 !! k = Some consumer).
        { destruct Htgt as (t & Ht & Et). rewrite Ht. f_equal. destruct Hcases as [[_ E1]|(_ & -> & E1)]; rewrite E1 in Ht.
          - eapply same_id; [exact W|by eapply W11|done|done].
          - rewrite lookup_app_r, Nat.sub_diag in Ht by lia. cbn in Ht. congruence. }
        split_and!; [done| |by exists consumer|done]. cbn. intros ->.
        pose proof (prefix_lookup_Some _ _ _ _ Hi Hpfx). congruence.
      * rewrite edges_from_snoc, omap_app, Eo. simpl. by rewrite decide_True.
    + destruct (W7 j ks) as (n & Hn & Ho); [by right|]. exists n. split; [by eapply prefix_lookup_Some|].
      apply (out_edges_grows _ _ _ _ _ _ Hpfx) in Ho as (outcomes & Hf & Eo). exists outcomes. split; [done|].
      rewrite edges_from_snoc. rewrite decide_False; [by rewrite app_nil_r|]. cbn [ge_source]. intros <-.
      apply NoDup_cons in W6 as [W6 _]. apply W6. apply list_elem_of_fmap. by exists (i, ks).
  - rewrite Eed. intros e. rewrite elem_of_app, list_elem_of_singleton. intros [He| ->]; [by apply W8|by left].
  - rewrite Eed. intros j n Hj. destruct Hcases as [[Hq E1]|(Hq & -> & E1)]; rewrite E1 in Hj.
    + destruct (W9 j n Hj) as [?|(e & ? & ?)]; [by left|right]. exists e. rewrite elem_of_app. tauto.
    + apply lookup_app_Some in Hj as [Hj|[Hge Hj]].
      * destruct (W9 j n Hj) as [?|(e & ? & ?)]; [by left|right]. exists e. rewrite elem_of_app. tauto.
      * apply list_lookup_singleton_Some in Hj as [Hz _]. right. exists (mkGraphEdge i (length (b_nodes b)) m).
        rewrite elem_of_app, list_elem_of_singleton. split; [by right|]. cbn. lia.
  - by rewrite Eca.
  - intros j n Hj. destruct Hcases as [[Hq E1]|(Hq & -> & E1)]; rewrite E1 in Hj; [by eapply W11|].
    apply lookup_app_Some in Hj as [Hj|[_ Hj]]; [by eapply W11|]. by apply list_lookup_singleton_Some in Hj as [_ <-].
  - done.
  - done.
Qed.

(** A root is nobody's consumer. *)
Lemma root_not_consumer roots made expanded b r :
  walk_inv roots made expanded b → r ∈ roots → Runner r ∉ link_nodes ++ made.
Proof.
  intros W Hr [Hin|Hin]%elem_of_app.
  - pose proof (wi_distinct _ _ _ _ W) as Hnd. rewrite fmap_app in Hnd. apply NoDup_app in Hnd as (_ & Hnd & _).
    apply (Hnd (rt_id r)); [by apply (list_elem_of_fmap_2 node_id) in Hin|].
    apply (list_elem_of_fmap_2 node_id (Runner <$> roots) (Runner r)). by apply list_elem_of_fmap_2.
  - destruct (ci_made _ _ (wi_cache _ _ _ _ W) _ Hin) as (ne & Hrun & _). by destruct Hrun as (? & ? & ? & ? & ? & _ & ? & _).
Qed.

Lemma link_consumer_spec roots made expanded i ls producer root c link b b' :
  (root = true → ∃ r, r ∈ roots ∧ producer = Runner r) → walk_inv roots made ((i, ls) :: expanded) b → b_nodes b !! i = Some producer → link ∈ links_of c →
  link_consumer toposort comps sdk runners consumers sides root producer i c b link = Ok b' →
  ∃ made', walk_inv roots made' ((i, ls ++ [(c, link)]) :: expanded) b' ∧ b_nodes b `prefix_of` b_nodes b'.
Proof.
  intros Hroot W Hi Hl E. unfold link_consumer in E. inv_bind E. destruct a as [consumer cache].
  destruct (resolve_consumer_spec made c link (b_cache b) consumer cache Hl (wi_cache _ _ _ _ W) E0) as (made' & Hmade & Hc' & Hst & Hid).
  pose proof (wi_cache_change _ _ _ _ _ _ W Hmade Hc') as W'. exists made'.
  destruct (negb root && bool_decide (node_id consumer = node_id producer)) eqn:Eself.
  - injection E as <-. apply andb_true_iff in Eself as [_ Eself]. apply bool_decide_eq_true in Eself.
    split; [|done]. cbn [with_cache b_nodes].
    assert (consumer = producer) as ->; [|by eapply wi_self_link].
    eapply same_id; [exact W'| |by eapply (wi_all _ _ _ _ W')|done]. unfold all_nodes. rewrite !elem_of_app in *. tauto.
  - destruct (ensure_node_exists consumer (with_cache cache b)) as [k b1] eqn:Ee. inv_bind E. injection E as <-.
    pose proof (ensure_node_spec _ _ _ _ (wi_index _ _ _ _ W') Ee) as En. split.
    + eapply wi_edge_link; [exact W'|done..| |].
      * unfold all_nodes. rewrite !elem_of_app in *. tauto.
      * intros ->. destruct root; [|by rewrite bool_decide_true in Eself].
        destruct Hroot as (r & Hr & ->); [done|]. by eapply root_not_consumer.
    + exact (en_prefix _ _ _ _ En).
Qed.

(** ** One node *)

Definition links_from (outs : list string) : list (string * ConsumerLink) := outs ≫= λ c, pair c <$> links_of c.

Lemma expand_spec roots made expanded i producer root outs b b' :
  (root = true → ∃ r, r ∈ roots ∧ producer = Runner r) → walk_inv roots made ((i, []) :: expanded) b → b_nodes b !! i = Some producer →
  expand toposort comps sdk runners consumers sides root producer i outs b = Ok b' →
  ∃ made', walk_inv roots made' ((i, links_from outs) :: expanded) b' ∧ b_nodes b `prefix_of` b_nodes b'.
Proof.
  intros Hroot W Hi E. unfold expand in E.
  refine (try_fold_inv _ (λ outs b', ∃ made', walk_inv roots made' ((i, links_from outs) :: expanded) b'
    ∧ b_nodes b `prefix_of` b_nodes b') _ _ _ _ _ E); [|by exists made].
  intros done c b1 b2 _ (made1 & W1 & Hp1) E1.
  assert (Hin : ∃ made2, walk_inv roots made2 ((i, links_from done ++ (pair c <$> links_of c)) :: expanded) b2
    ∧ b_nodes b `prefix_of` b_nodes b2).
  { refine (try_fold_inv _ (λ ls b2, ∃ made2, walk_inv roots made2 ((i, links_from done ++ (pair c <$> ls)) :: expanded) b2
      ∧ b_nodes b `prefix_of` b_nodes b2) _ _ _ _ _ E1).
    2: { exists made1. by rewrite app_nil_r. }
    intros ls link b3 b4 Hl (made3 & W3 & Hp3) E3.
    destruct (link_consumer_spec _ _ _ _ _ _ _ _ _ _ _ Hroot W3 (prefix_lookup_Some _ _ _ _ Hi Hp3) Hl E3) as (made4 & W4 & Hp4).
    exists made4. split; [|by etrans]. rewrite fmap_app, (assoc_L (++)). exact W4. }
  destruct Hin as (made2 & W2 & Hp2). exists made2. split; [|done].
  unfold links_from. rewrite bind_app. cbn [mbind list_bind]. rewrite app_nil_r. exact W2.
Qed.

(** ** The loop over the queue *)

(** The outputs that are walked from a node: those of a root as its transform has them, of
    any other the set of them. *)
Definition outputs_walked (roots : list RunnerTransform) (n : ExecutableNode) (outs : list string) : Prop :=
  (∃ r, r ∈ roots ∧ n = Runner r ∧ outs = (map_iter (rt_outputs r)).*2) ∨ outs = set_iter (node_output_pcols n).

(** What was walked from a node: the links of its outputs. *)
Definition walked (roots : list RunnerTransform) (nodes : list ExecutableNode) (x : nat * list (string * ConsumerLink)) : Prop :=
  ∃ n outs, nodes !! x.1 = Some n ∧ x.2 = links_from outs ∧ outputs_walked roots n outs.

Lemma walked_grows roots nodes nodes' x : nodes `prefix_of` nodes' → walked roots nodes x → walked roots nodes' x.
Proof. intros Hp (n & outs & Hn & ?). exists n, outs. split; [by eapply prefix_lookup_Some|done]. Qed.

(** Starting on the first node of the queue. *)
Lemma wi_pop roots made expanded b producer queue :
  walk_inv roots made expanded b → work_queue b = producer :: queue →
  ∃ i, ensure_node_exists producer (popped queue b) = (i, popped queue b) ∧ b_nodes b !! i = Some producer
    ∧ walk_inv roots made ((i, []) :: expanded) (popped queue b).
Proof.
  intros W Eq. pose proof W as [W1 W2 W3 W4 W5 W6 W7 W8 W9 W10 W11 W12 W13].
  destruct (W3 producer) as (i & Hi & Hnin); [rewrite Eq; by left|].
  assert (Ei : node_indices b !! node_id producer = Some i) by (apply W1; by exists producer).
  exists i. split_and!; [unfold ensure_node_exists; cbn [popped node_indices]; by rewrite Ei|done|].
  rewrite Eq in W4. apply NoDup_cons in W4 as [Hq W4].
  split; try done; cbn [popped b_nodes b_edges node_indices b_cache work_queue queued fmap list_fmap fst].
  - intros n Hn. destruct (W3 n) as (j & Hj & Hjn); [rewrite Eq; by right|]. exists j. split; [done|].
    rewrite elem_of_cons. intros [->|?]; [|done]. apply Hq. apply list_elem_of_fmap. exists n. split; [|done]. congruence.
  - intros j n Hj. destruct (W5 j n Hj) as [?|Hn]; [left; by right|]. rewrite Eq in Hn. apply elem_of_cons in Hn as [->|Hn]; [|by right].
    left. rewrite (node_index_unique _ _ _ _ _ _ _ _ W Hj Hi eq_refl). by left.
  - by apply NoDup_cons.
  - intros j ls Hin. apply elem_of_cons in Hin as [[= -> ->]|Hin]; [|by apply W7].
    exists producer. split; [done|]. exists []. split; [constructor|]. unfold edges_from.
    destruct (List.filter _ _) as [|e es] eqn:Ef; [done|]. exfalso. apply Hnin.
    assert (He : In e (List.filter (λ e, (ge_source e =? i)%nat) (b_edges b))) by (rewrite Ef; by left).
    apply List.filter_In in He as [He Hs%Nat.eqb_eq]. rewrite <- Hs. apply W8. by apply list_elem_of_In.
  - intros e He. right. by apply W8.
Qed.

Lemma expand_loop_spec roots made expanded fuel b b' :
  walk_inv roots made expanded b → Forall (walked roots (b_nodes b)) expanded →
  expand_loop toposort comps sdk runners consumers sides fuel b = Ok b' →
  ∃ made' expanded', walk_inv roots made' expanded' b' ∧ Forall (walked roots (b_nodes b')) expanded' ∧ work_queue b' = []
    ∧ b_nodes b `prefix_of` b_nodes b'.
Proof.
  revert made expanded b. induction fuel as [|fuel IH]; intros made expanded b W Hw E; cbn [expand_loop] in E;
    destruct (work_queue b) as [|producer queue] eqn:Eq; try done.
  1, 2: injection E as <-; by exists made, expanded.
  destruct (wi_pop _ _ _ _ _ _ W Eq) as (i & Ee & Hi & W1). rewrite Ee in E. inv_bind E.
  destruct (expand_spec _ _ _ _ _ _ _ _ _ (λ E, False_ind _ (Bool.diff_false_true E)) W1 Hi E0) as (made2 & W2 & Hp).
  destruct (IH _ _ _ W2) as (made3 & expanded3 & W3 & Hw3 & Hq3 & Hp3); [|done|].
  - constructor; [|eapply Forall_impl; [exact Hw|]; intros x; by apply walked_grows].
    exists producer, (set_iter (node_output_pcols producer)). split_and!; [by eapply prefix_lookup_Some|done|by right].
  - exists made3, expanded3. split_and!; [done..|]. by etrans.
Qed.

(** ** The walk ends *)

Definition is_bound (w : string) : Prop := w = "executable graph bound" ∨ w = "splittable run bound".

Lemma resolve_ends c link cache w :
  link ∈ links_of c → resolve_consumer toposort comps sdk runners consumers sides (cl_node link) cache = Panic w → ¬ is_bound w.
Proof.
  intros Hl E. unfold resolve_consumer in E. destruct (cl_node link) as [s|r|i n e o p] eqn:En; try done.
  destruct (is_splittable s); [|done]. destruct (cache !! stage_id s); [done|].
  destruct (build_splittable_node toposort comps sdk runners consumers sides s) as [[node members]|e|w1] eqn:Eb; try done.
  injection E as ->. assert (Hs : s ∈ sdk) by (by eapply Hworker).
  pose proof (build_splittable_node_ends toposort comps sdk runners consumers sides Hids Hworker s Hs) as Hends.
  intros [->| ->]; [|done]. clear Hends. unfold build_splittable_node in Eb.
  destruct (run_loop comps sdk runners consumers sides (length sdk) [s] _) as [r|e|w] eqn:Er; cbn [mbind outcome_bind] in Eb.
  - unfold build_splittable_execution_plan in Eb. destruct (toposort _ _); [|done]. destruct (List.filter _ _); [done|].
    by destruct (last _) as [[]|].
  - done.
  - injection Eb as ->. revert Er. generalize (mkRun [] ∅ [] ∅ [] ∅ []) as r. generalize [s] as pending. generalize (length sdk) as fuel.
    induction fuel as [|fuel IH]; intros pending; induction pending as [|x pending IHp]; intros r Er; rewrite run_loop_unfold in Er; try done.
    1, 2: case_decide; [by eapply IHp|]; try done.
    destruct (run_stage comps sdk runners consumers sides x (run_popped r pending)) as [r1|e1|w1] eqn:Es; [by eapply IH|done|].
    injection Er as ->. apply run_stage_panic in Es as [?|?]; done.
Qed.

Lemma expand_ends root producer i outs b w :
  expand toposort comps sdk runners consumers sides root producer i outs b = Panic w → ¬ is_bound w.
Proof.
  intros E. unfold expand in E. apply try_fold_panic in E as (b1 & c & E).
  assert (Hl : ∃ b2 link, link ∈ links_of c ∧ link_consumer toposort comps sdk runners consumers sides root producer i c b2 link = Panic w).
  { revert E. fold (links_of c). generalize (links_of c) as ls. intros ls. revert b1. induction ls as [|x ls IH]; intros b1 E; cbn [try_fold] in E; [done|].
    destruct (link_consumer toposort comps sdk runners consumers sides root producer i c b1 x) as [b2|e|w2] eqn:Ex; cbn [mbind outcome_bind] in E.
    - destruct (IH _ E) as (b3 & y & Hy & Ey). exists b3, y. split; [by right|done].
    - done.
    - injection E as ->. exists b1, x. split; [by left|done]. }
  destruct Hl as (b2 & link & Hl & El). unfold link_consumer in El.
  destruct (resolve_consumer toposort comps sdk runners consumers sides (cl_node link) (b_cache b2)) as [[consumer cache]|e|w1] eqn:Er; [|done|].
  - cbn [mbind outcome_bind] in El. destruct (_ && _); [done|]. destruct (ensure_node_exists consumer _) as [k b3].
    destruct (metadata c (cl_transform_id link)) as [m|e|w1] eqn:Em; try done. injection El as ->.
    apply metadata_panic in Em as [->| ->]; intros [?|?]; done.
  - injection El as ->. by eapply resolve_ends.
Qed.

Lemma wi_node_count roots made expanded b :
  walk_inv roots made expanded b → (length (b_nodes b) ≤ 2 * length sdk + length rs + length roots)%nat.
Proof.
  intros W. assert (Hnd : NoDup (b_nodes b)).
  { apply NoDup_alt. intros i j n Hi Hj. by eapply node_index_unique. }
  pose proof (NoDup_incl_length (l:=b_nodes b) (l':=all_nodes roots made)) as Hlen.
  unfold all_nodes, link_nodes in Hlen. rewrite !length_app, !length_fmap in Hlen.
  assert (Hm : (length made ≤ length sdk)%nat).
  { pose proof (ci_size _ _ (wi_cache _ _ _ _ W)) as Hs. pose proof (ci_dom _ _ (wi_cache _ _ _ _ W)) as Hd.
    assert (Hsub2 : dom (b_cache b) ⊆ list_to_set (stage_id <$> sdk)).
    { intros id Hid. apply elem_of_list_to_set, Hd. by apply elem_of_dom. }
    apply subseteq_size in Hsub2. rewrite size_dom, size_list_to_set, length_fmap in Hsub2 by done. lia. }
  apply NoDup_ListNoDup in Hnd. assert (Hincl : incl (b_nodes b) (all_nodes roots made)).
  { intros n Hn. apply list_elem_of_In. apply list_elem_of_In, list_elem_of_lookup in Hn as [i Hi]. by eapply wi_all. }
  specialize (Hlen Hnd Hincl). lia.
Qed.

Lemma wi_expanded_count roots made expanded b : walk_inv roots made expanded b → (length expanded ≤ length (b_nodes b))%nat.
Proof.
  intros W. rewrite <- (length_fmap fst expanded), <- (length_seq (length (b_nodes b)) 0).
  apply NoDup_incl_length; [apply NoDup_ListNoDup, (wi_once _ _ _ _ W)|]. intros i Hi%list_elem_of_In.
  apply List.in_seq. pose proof (wi_expanded_lt _ _ _ _ _ W Hi). lia.
Qed.

Lemma expand_loop_ends roots made expanded fuel b w :
  walk_inv roots made expanded b → (2 * length sdk + length rs + length roots ≤ fuel + length expanded)%nat →
  expand_loop toposort comps sdk runners consumers sides fuel b = Panic w → ¬ is_bound w.
Proof.
  revert made expanded b. induction fuel as [|fuel IH]; intros made expanded b W Hf E; cbn [expand_loop] in E;
    destruct (work_queue b) as [|producer queue] eqn:Eq; try done.
  all: destruct (wi_pop _ _ _ _ _ _ W Eq) as (i & Ee & Hi & W1).
  - pose proof (wi_expanded_count _ _ _ _ W1) as H1. pose proof (wi_node_count _ _ _ _ W1) as H2. cbn [length] in H1. lia.
  - rewrite Ee in E. destruct (expand toposort comps sdk runners consumers sides false producer i _ (popped queue b)) as [b2|e|w2] eqn:Ex;
      cbn [mbind outcome_bind] in E; [|done|].
    + destruct (expand_spec _ _ _ _ _ _ _ _ _ (λ E, False_ind _ (Bool.diff_false_true E)) W1 Hi Ex) as (made2 & W2 & _). eapply IH; [exact W2| |exact E]. cbn [length]. lia.
    + injection E as ->. by eapply expand_ends.
Qed.
End walk.
