(* ===== verification/ExecGraphOutcome.v ===== *)
(** What the executable graph is made of: the consumer links of a fused pipeline, the
    walk from its roots, and the graph that results. *)
From S2P Require Import Prelude Bytes CoderGraph Pipeline StageFuserSpec StageFuser ExecGraph SplittableRun ExecGraphSpec.
Set Warnings "-clear-no-such-hyp".
Local Open Scope string_scope.
Local Open Scope list_scope.

Section outcome.
Context `{HashIterLaws} (new_v4 : nat → string) `{!Inj (=) (=) new_v4}.

(** * Consumer links *)

Definition runner_reads (tr : PTransformNode * RunnerTransform) : list (string * ConsumerLink) :=
  (λ i : string * string, (i.2, mkLink (Runner tr.2) (pt_unique_name (ptn_transform tr.1)))) <$> map_iter (pt_inputs (ptn_transform tr.1)).

(** The runner transforms made from those with a spec, under consecutive fresh ids. *)
Record runners_made (n : nat) (runners : list PTransformNode) (rs : list (PTransformNode * RunnerTransform)) (n' : nat) : Prop := {
  rm_spec : ∀ t, t ∈ rs.*1 ↔ t ∈ runners ∧ is_Some (pt_spec (ptn_transform t));
  rm_ids : rt_id <$> rs.*2 = new_v4 <$> seq n (length rs);
  rm_made : ∀ t r, (t, r) ∈ rs → runner_of (rt_id r) t = Some r;
  rm_count : n' = (n + length rs)%nat;
  rm_length : (length rs ≤ length runners)%nat;
}.

Lemma runner_links_spec runners n links n' :
  runner_links new_v4 runners n = Ok (links, n') → ∃ rs, runners_made n runners rs n' ∧ links = rs ≫= runner_reads.
Proof.
  revert n links n'. induction runners as [|t runners IH]; intros n links n' E; cbn [runner_links] in E.
  - injection E as <- <-. exists []. split; [|done]. split; [|done| |cbn; lia|cbn; lia].
    + intros t. split; [intros []%elem_of_nil|intros [[]%elem_of_nil _]].
    + intros t r Hin. by apply elem_of_nil in Hin.
  - destruct (pt_spec (ptn_transform t)) as [spec|] eqn:Es.
    + unfold mbind, minting_bind in E. inv_bind E. destruct a as [r n1]. unfold from_urn_with_payload in E0.
      destruct (one_of FLARE (fs_urn spec)); [|done]. injection E0 as <- <-. inv_bind E. destruct a as [links1 n2]. injection E as <- <-.
      destruct (IH _ _ _ E0) as (rs & [R1 R2 R3 R4 R5] & ->).
      set (r := mkRunner _ _ _ _ _ _). exists ((t, r) :: rs). split; [|done]. split.
      * intros x. cbn [fmap list_fmap fst]. rewrite !elem_of_cons, R1. split; [|tauto].
        intros [->|[? ?]]; [split; [by left|by eexists]|by split; [right|]].
      * cbn [fmap list_fmap snd length seq]. f_equal. exact R2.
      * intros x y [[= -> ->]|Hin]%elem_of_cons; [|by apply R3]. unfold runner_of. by rewrite Es.
      * cbn [length]. lia.
      * cbn [length]. lia.
    + destruct (IH _ _ _ E) as (rs & [R1 R2 R3 R4 R5] & ->). exists rs. split; [|done]. split; [|done|done|done|cbn [length]; lia].
      intros x. rewrite R1, elem_of_cons. split; [tauto|]. intros [[->|?] [? Hx]]; [congruence|]. split; [done|by eexists].
Qed.

Lemma push_links_lookup (ls : list (string * ConsumerLink)) (m : gmap string (list ConsumerLink)) c :
  default [] (foldl push_link m ls !! c) = default [] (m !! c) ++ (filter (λ l, l.1 = c) ls).*2.
Proof.
  revert m. induction ls as [|[d l] ls IH]; intros m; [by rewrite app_nil_r|]. cbn [foldl]. rewrite IH. unfold push_link. cbn [fst snd].
  destruct (decide (d = c)) as [->|Hne].
  - rewrite lookup_insert_eq, filter_cons_True by done. cbn [default id fmap list_fmap snd].
    by rewrite <- app_assoc.
  - by rewrite lookup_insert_ne, filter_cons_False by done.
Qed.

(** Who consumes [c]: the transforms of a stage that read it, when it is the input of the
    stage, and the runner's transforms that read it. *)
Definition consumes_pcol (sdk : list ExecutableStage) (rs : list (PTransformNode * RunnerTransform)) (c : string) (link : ConsumerLink) : Prop :=
  (∃ s t i, s ∈ sdk ∧ pcn_id (stage_input_pcol s) = c ∧ t ∈ stage_transforms s ∧ pt_inputs (ptn_transform t) !! i = Some c
     ∧ link = mkLink (Worker s) (pt_unique_name (ptn_transform t)))
  ∨ (∃ t r i, (t, r) ∈ rs ∧ pt_inputs (ptn_transform t) !! i = Some c ∧ link = mkLink (Runner r) (pt_unique_name (ptn_transform t))).

Lemma elem_of_map_iter `{Countable K} {A} (m : gmap K A) k x : (k, x) ∈ map_iter m ↔ m !! k = Some x.
Proof. by rewrite (map_iter_perm m), elem_of_map_to_list. Qed.

Lemma elem_of_stage_links s c link :
  (c, link) ∈ stage_links s ↔ pcn_id (stage_input_pcol s) = c ∧ ∃ t i, t ∈ stage_transforms s
    ∧ pt_inputs (ptn_transform t) !! i = Some c ∧ link = mkLink (Worker s) (pt_unique_name (ptn_transform t)).
Proof.
  unfold stage_links. rewrite list_elem_of_fmap. split.
  - intros (t & [= -> ->] & Ht). rewrite list_elem_of_In, List.filter_In, existsb_exists, <- list_elem_of_In in Ht.
    destruct Ht as (Ht & [i x] & Hi & Ex). apply bool_decide_eq_true in Ex. cbn in Ex. subst x.
    rewrite <- list_elem_of_In in Hi. split; [done|]. exists t, i. split_and!; [done|by apply elem_of_map_iter|done].
  - intros (<- & t & i & Ht & Hi & ->). exists t. split; [done|]. rewrite list_elem_of_In, List.filter_In, existsb_exists, <- list_elem_of_In.
    split; [done|]. exists (i, pcn_id (stage_input_pcol s)). rewrite <- list_elem_of_In, elem_of_map_iter. split; [done|]. by apply bool_decide_eq_true.
Qed.

Lemma consumer_links_spec sdk runners n consumers n' :
  consumer_links new_v4 sdk runners n = Ok (consumers, n') →
  ∃ rs, runners_made n runners rs n' ∧ ∀ c link, link ∈ links_of consumers c ↔ consumes_pcol sdk rs c link.
Proof.
  intros E. unfold consumer_links, mbind, minting_bind in E. inv_bind E. destruct a as [links n1]. injection E as <- <-.
  destruct (runner_links_spec _ _ _ _ E0) as (rs & Hrs & ->). exists rs. split; [done|]. intros c link.
  unfold links_of. rewrite push_links_lookup, lookup_empty. cbn [default app]. rewrite list_elem_of_fmap.
  setoid_rewrite list_elem_of_filter. setoid_rewrite elem_of_app. setoid_rewrite list_elem_of_bind. unfold consumes_pcol. split.
  - intros ([d l] & -> & <- & [(s & Hl & Hs)|([t r] & Hl & Hs)]); cbn [fst snd] in *.
    + apply elem_of_stage_links in Hl as (<- & t & i & Ht & Hi & ->). left. by exists s, t, i.
    + unfold runner_reads in Hl. apply list_elem_of_fmap in Hl as ([i x] & [= -> ->] & Hi%elem_of_map_iter). right. by exists t, r, i.
  - intros [(s & t & i & Hs & <- & Ht & Hi & ->)|(t & r & i & Hs & Hi & ->)].
    + eexists (_, _). cbn [fst snd]. split; [done|]. split; [done|]. left. exists s. split; [|done]. apply elem_of_stage_links. split; [done|]. by exists t, i.
    + eexists (_, _). cbn [fst snd]. split; [done|]. split; [done|]. right. exists (t, r). split; [|done]. unfold runner_reads.
      apply list_elem_of_fmap. exists (i, c). split; [done|]. by apply elem_of_map_iter.
Qed.

(** Making the links never stands for a loop that goes on. *)
Lemma consumer_links_ends sdk runners n w : consumer_links new_v4 sdk runners n = Panic w → ¬ is_bound w.
Proof.
  intros E. unfold consumer_links, mbind, minting_bind in E.
  assert (Hgo : ∀ n w, runner_links new_v4 runners n = Panic w → ¬ is_bound w).
  { clear E. induction runners as [|t ts IH]; intros k v E; cbn [runner_links] in E; [done|].
    destruct (pt_spec (ptn_transform t)) as [spec|]; [|by eapply IH]. unfold mbind, minting_bind in E.
    unfold from_urn_with_payload in E. destruct (one_of FLARE (fs_urn spec)); cbn [mbind outcome_bind] in E.
    - destruct (runner_links new_v4 ts (S k)) as [[links k1]|e|v1] eqn:Er; [done|done|]. injection E as ->. by eapply IH.
    - injection E as <-. by intros [?|?]. }
  destruct (runner_links new_v4 runners n) as [[links k]|e|v] eqn:Er; [done|done|]. injection E as ->. by eapply Hgo.
Qed.

(** * The roots *)

Section roots.
Context (toposort : nat → list (nat * nat) → option (list nat)) (L : toposort_law toposort).
Context (comps : Components) (sdk : list ExecutableStage) (runners : list PTransformNode)
  (consumers : gmap string (list ConsumerLink)) (sides : gset string).

(** The stages have fresh ids of their own, and the ids are the text of UUIDs. *)
Context (n0 n1 : nat) (rs : list (PTransformNode * RunnerTransform))
  (Hids : NoDup (stage_id <$> sdk))
  (Hsdk : ∀ s, s ∈ sdk → ∃ k, (k < n0)%nat ∧ stage_id s = new_v4 k)
  (Htext : ∀ k, uuid_text (new_v4 k))
  (Hrs : runners_made n0 runners rs n1)
  (Hlinks : ∀ c link, link ∈ links_of consumers c ↔ consumes_pcol sdk rs c link).

Abbreviation inv := (walk_inv comps sdk runners consumers sides rs.*2).
Abbreviation link_nodes := (link_nodes sdk rs.*2).

Lemma links_worker c link s : link ∈ links_of consumers c → cl_node link = Worker s → s ∈ sdk.
Proof. by intros [(s' & t & i & Hs & _ & _ & _ & ->)|(t & r & i & _ & _ & ->)]%Hlinks [= <-]. Qed.

Lemma links_runner c link r : link ∈ links_of consumers c → cl_node link = Runner r → r ∈ rs.*2.
Proof.
  intros [(s' & t & i & Hs & _ & _ & _ & ->)|(t & r' & i & Hin & _ & ->)]%Hlinks [= <-].
  apply list_elem_of_fmap. by exists (t, r').
Qed.

(** A stage and a runner transform that reads have an id of before the roots. *)
Lemma link_node_id x : x ∈ link_nodes → ∃ k, (k < n1)%nat ∧ node_id x = new_v4 k.
Proof.
  pose proof (rm_count _ _ _ _ Hrs) as Hc. intros [(s & -> & Hs)%list_elem_of_fmap|(r & -> & Hr)%list_elem_of_fmap]%elem_of_app.
  - destruct (Hsdk s Hs) as (k & Hk & Ek). exists k. split; [lia|done].
  - apply (list_elem_of_fmap_2 rt_id) in Hr. rewrite (rm_ids _ _ _ _ Hrs) in Hr. apply list_elem_of_fmap in Hr as (k & Ek & Hk%elem_of_seq).
    exists k. split; [lia|done].
Qed.

Lemma link_node_text x : x ∈ link_nodes → uuid_text (node_id x).
Proof. intros Hx. destruct (link_node_id x Hx) as (k & _ & ->). apply Htext. Qed.

Lemma runner_ids (l : list RunnerTransform) : node_id <$> (Runner <$> l) = rt_id <$> l.
Proof. by rewrite <- list_fmap_compose. Qed.

Lemma link_nodes_distinct : NoDup (node_id <$> link_nodes).
Proof.
  unfold ExecGraphSpec.link_nodes. rewrite fmap_app, runner_ids, (rm_ids _ _ _ _ Hrs), <- list_fmap_compose. apply NoDup_app.
  split_and!; [exact Hids| |apply NoDup_fmap_2; [done|apply NoDup_seq]].
  - intros id (s & -> & Hs)%list_elem_of_fmap Hr. destruct (Hsdk s Hs) as (k & Hk & Ek).
    apply list_elem_of_fmap in Hr as (k' & Ek' & Hk'%elem_of_seq).
    cbn in Ek'. rewrite Ek in Ek'. apply (inj new_v4) in Ek'. lia.
Qed.

Lemma links_plain c link i n e o p : link ∈ links_of consumers c → cl_node link ≠ Splittable i n e o p.
Proof. by intros [(s' & t & j & _ & _ & _ & _ & ->)|(t & r & j & _ & _ & ->)]%Hlinks. Qed.

Abbreviation has_spec := (λ t, is_Some (pt_spec (ptn_transform t))).

(** What the walk from the roots [done] has built. *)
Record started (done : list PTransformNode) (n : nat) (roots : list RunnerTransform) (b : Builder) : Prop := {
  st_inv : ∃ made expanded, inv roots made expanded b ∧ Forall (walked consumers roots (b_nodes b)) expanded;
  st_counter : (n1 ≤ n)%nat;
  st_ids : ∀ r, r ∈ roots → ∃ k, (k < n)%nat ∧ rt_id r = new_v4 k;
  st_made : Forall2 (λ t r, runner_of (rt_id r) t = Some r) (filter has_spec done) roots;
  st_roots : ∀ r, r ∈ roots → Runner r ∈ b_nodes b;
}.

(** An id that is not in use: no stage, runner transform, earlier root or run has it. *)
Lemma fresh_root roots made expanded b n x :
  inv roots made expanded b → (n1 ≤ n)%nat → (∀ r, r ∈ roots → ∃ k, (k < n)%nat ∧ rt_id r = new_v4 k) →
  x ∈ all_nodes sdk rs.*2 roots made → node_id x ≠ new_v4 n.
Proof.
  intros W Hn Hroots Hx E.
  assert (Hold : ∀ k, (k < n)%nat → new_v4 k ≠ new_v4 n) by (intros k Hk Ek%(inj new_v4); lia).
  unfold all_nodes in Hx. rewrite !elem_of_app in Hx. destruct Hx as [Hx|[(r & -> & Hr)%list_elem_of_fmap|Hx]].
  - destruct (link_node_id x Hx) as (k & Hk & Ek). apply (Hold k); [lia|congruence].
  - destruct (Hroots r Hr) as (k & Hk & Ek). apply (Hold k); [done|cbn in E; congruence].
  - destruct (ci_made _ _ _ _ _ _ _ (wi_cache _ _ _ _ _ _ _ _ _ _ W) x Hx) as (ne & Hne & _).
    apply run_id in Hne as [suffix Es]. apply (uuid_text_not_run suffix). rewrite <- Es, E. apply Htext.
Qed.

(** Adding the node of a root. *)
Lemma wi_add_root roots made expanded b r :
  inv roots made expanded b → uuid_text (rt_id r) → (∀ x, x ∈ all_nodes sdk rs.*2 roots made → node_id x ≠ rt_id r) →
  ∃ b1, ensure_node_exists (Runner r) b = (length (b_nodes b), b1)
    ∧ inv (roots ++ [r]) made ((length (b_nodes b), []) :: expanded) (insert_queued (rt_id r) b1)
    ∧ b_nodes b1 = b_nodes b ++ [Runner r] ∧ b_edges b1 = b_edges b ∧ b_root_metadata b1 = b_root_metadata b ∧ work_queue b1 = work_queue b.
Proof.
  intros W Hr Hfresh. pose proof W as [W1 W2 W3 W4 W5 W6 W7 W8 W9 W10 W11 W12 W13].
  destruct (ensure_node_exists (Runner r) b) as [k b1] eqn:Ee. pose proof (ensure_node_spec _ _ _ _ W1 Ee) as [E1 E2 E3 E4 E5 E6 E7 E8 E9 E10].
  assert (Hnone : ¬ is_Some (node_indices b !! node_id (Runner r))).
  { intros (i & (m & Hm & Em)%W1). by apply (Hfresh m); [eapply W11|]. }
  destruct (E10 Hnone) as [-> En]. exists b1. split; [done|]. split; [|].
  2: { split_and!; [done|done| |done]. unfold ensure_node_exists in Ee. destruct (node_indices b !! _) eqn:Ei; [by destruct Hnone|].
       by injection Ee as <-. }
  assert (Hnew : ∀ j m, b_nodes b1 !! j = Some m → b_nodes b !! j = Some m ∨ (j = length (b_nodes b) ∧ m = Runner r)).
  { intros j m Hm. rewrite En in Hm. apply lookup_app_Some in Hm as [?|[Hge Hm]]; [by left|]. apply list_lookup_singleton_Some in Hm as [? <-].
    right. split; [lia|done]. }
  assert (Hold : ∀ j m, b_nodes b !! j = Some m → b_nodes b1 !! j = Some m) by (intros j m Hm; rewrite En; by apply lookup_app_l_Some).
  assert (Hlast : b_nodes b1 !! length (b_nodes b) = Some (Runner r)) by (rewrite En, lookup_app_r, Nat.sub_diag by lia; done).
  split; cbn [insert_queued b_nodes b_edges node_indices b_cache work_queue queued fmap list_fmap fst].
  - done.
  - intros id. rewrite E7, E4, elem_of_union, elem_of_singleton, W2. done.
  - rewrite E3. intros m Hm. destruct (W3 m Hm) as (i & Hi & Hni). exists i. split; [by apply Hold|].
    rewrite elem_of_cons. intros [->|?]; [|done]. apply lookup_lt_Some in Hi. lia.
  - by rewrite E3.
  - rewrite E3. intros i m [Hm|[-> ->]]%Hnew; [|left; by left]. destruct (W5 i m Hm); [left; by right|by right].
  - apply NoDup_cons. split; [|done]. intros Hin. apply (wi_expanded_lt _ _ _ _ _ _ _ _ _ _ _ W) in Hin. lia.
  - rewrite E1. intros i ls [[= -> ->]|Hin]%elem_of_cons.
    + exists (Runner r). split; [done|]. exists []. split; [constructor|]. unfold edges_from.
      destruct (List.filter _ _) as [|e es] eqn:Ef; [done|]. exfalso.
      assert (He : In e (List.filter (λ e, (ge_source e =? length (b_nodes b))%nat) (b_edges b))) by (rewrite Ef; by left).
      apply List.filter_In in He as [He Hs%Nat.eqb_eq]. apply list_elem_of_In, W8 in He. rewrite Hs in He.
      apply (wi_expanded_lt _ _ _ _ _ _ _ _ _ _ _ W) in He. lia.
    + destruct (W7 i ls Hin) as (m & Hm & Ho). exists m. split; [by apply Hold|]. by eapply out_edges_grows.
  - rewrite E1. intros e He. right. by apply W8.
  - rewrite E1. intros i m [Hm|[-> ->]]%Hnew; [|left; exists r; split; [apply elem_of_app; right; by left|done]].
    destruct (W9 i m Hm) as [(r' & ? & ?)|?]; [left|by right]. exists r'. split; [apply elem_of_app; by left|done].
  - by rewrite E2.
  - unfold all_nodes. intros i m [Hm|[-> ->]]%Hnew; [apply W11 in Hm; unfold all_nodes in Hm|]; rewrite fmap_app, !elem_of_app in *; [tauto|].
    right; left; right. by left.
  - intros r' [?| ->%list_elem_of_singleton]%elem_of_app; [by apply W12|done].
  - rewrite (fmap_app Runner), (assoc_L (++)), fmap_app. apply NoDup_app. split_and!; [done| |apply NoDup_singleton].
    intros id (x & -> & Hx)%list_elem_of_fmap Eid%list_elem_of_singleton. apply (Hfresh x); [|exact Eid].
    unfold all_nodes. rewrite !elem_of_app in *. tauto.
Qed.

Lemma expand_root_step done n roots b t b' n' :
  started done n roots b → expand_root new_v4 toposort comps sdk runners consumers sides b t n = Ok (b', n') →
  ∃ roots', started (done ++ [t]) n' roots' b'.
Proof.
  intros [(made & expanded & W & Hw) Hn Hroots Hmade Hall] E. unfold expand_root in E.
  destruct (pt_spec (ptn_transform t)) as [spec|] eqn:Es.
  2: { injection E as <- <-. exists roots. split; [by exists made, expanded|done|done| |done].
       rewrite filter_app, filter_cons_False, app_nil_r; [done|]. rewrite Es. by intros [? ?]. }
  unfold mbind, minting_bind in E. inv_bind E. destruct a as [r n2]. unfold from_urn_with_payload in E0.
  destruct (one_of FLARE (fs_urn spec)); [|done]. injection E0 as <- <-.
  set (r := mkRunner (new_v4 n) _ _ _ _ _) in *.
  destruct (wi_add_root roots made expanded b r W) as (b1 & Ee & W1 & En & _);
    [apply Htext|intros x Hx; by eapply fresh_root|]. rewrite Ee in E.
  unfold lift_minting in E. inv_bind E. injection E as <- <-.
  assert (Hi : b_nodes (insert_queued (rt_id r) b1) !! length (b_nodes b) = Some (Runner r)).
  { cbn [insert_queued b_nodes]. by rewrite En, lookup_app_r, Nat.sub_diag by lia. }
  assert (Hr : r ∈ roots ++ [r]) by (apply elem_of_app; right; by left).
  destruct (expand_spec toposort L comps sdk runners consumers sides rs.*2 Hids link_node_text links_worker links_runner links_plain
    _ _ _ _ _ _ _ _ _ (λ _, ex_intro _ r (conj Hr eq_refl)) W1 Hi E0) as (made2 & W2 & Hp).
  cbn [insert_queued b_nodes] in Hp. rewrite En in Hp. exists (roots ++ [r]). split.
  - exists made2, ((length (b_nodes b), links_from consumers (map_iter (pt_outputs (ptn_transform t))).*2) :: expanded).
    split; [done|]. constructor.
    + exists (Runner r), (map_iter (pt_outputs (ptn_transform t))).*2. cbn [fst snd]. split_and!; [|done|left; by exists r].
      eapply prefix_lookup_Some; [|exact Hp]. by rewrite lookup_app_r, Nat.sub_diag by lia.
    + eapply Forall_impl; [exact Hw|]. intros x (m & outs & Hm & Eo & Ho). exists m, outs. split_and!; [|done|].
      * eapply prefix_lookup_Some; [|exact Hp]. by apply lookup_app_l_Some.
      * destruct Ho as [(r' & ? & ?)|?]; [left|by right]. exists r'. split; [apply elem_of_app; by left|done].
  - lia.
  - intros r' [Hr'| ->%list_elem_of_singleton]%elem_of_app; [destruct (Hroots _ Hr') as (k & ? & ?); exists k; split; [lia|done]|].
    exists n. split; [lia|done].
  - rewrite filter_app, filter_cons_True by (rewrite Es; by eexists). apply Forall2_app; [done|]. constructor; [|constructor].
    unfold runner_of. by rewrite Es.
  - destruct Hp as [k Ek]. intros r' [Hr'| ->%list_elem_of_singleton]%elem_of_app; rewrite Ek, !elem_of_app; [left; left; by apply Hall|].
    left; right. by left.
Qed.

Lemma expand_roots_spec done n roots b ts b' n' :
  started done n roots b → expand_roots new_v4 toposort comps sdk runners consumers sides b ts n = Ok (b', n') →
  ∃ roots', started (done ++ ts) n' roots' b'.
Proof.
  revert done n roots b. induction ts as [|t ts IH]; intros done n roots b Hs E; cbn [expand_roots] in E.
  - injection E as <- <-. exists roots. by rewrite app_nil_r.
  - unfold mbind, minting_bind in E. inv_bind E. destruct a as [b1 n2].
    destruct (expand_root_step _ _ _ _ _ _ _ Hs E0) as [roots1 Hs1].
    change (t :: ts) with ([t] ++ ts). rewrite (assoc_L (++)). by eapply IH.
Qed.

Lemma initial_started : started [] n1 [] (mkBuilder [] [] ∅ None ∅ [] ∅).
Proof.
  split; [|done|by intros r ?%elem_of_nil|constructor|by intros r ?%elem_of_nil]. exists [], []. split; [|done].
  split; cbn.
  - intros id i. rewrite lookup_empty. split; [done|]. by intros (n & Hn & _).
  - intros id. rewrite lookup_empty. split; [set_solver|by intros [? ?]].
  - by intros n ?%elem_of_nil.
  - constructor.
  - by intros i n Hn.
  - constructor.
  - by intros i ls ?%elem_of_nil.
  - by intros e ?%elem_of_nil.
  - by intros i n Hn.
  - split; [by intros id n Hn|by intros n ?%elem_of_nil|constructor|done|]. intros id. rewrite lookup_empty. by intros [? ?].
  - by intros i n Hn.
  - by intros r ?%elem_of_nil.
  - rewrite app_nil_r. exact link_nodes_distinct.
Qed.

Lemma elem_of_get_roots t : t ∈ get_roots runners ↔ t ∈ runners ∧ pt_inputs (ptn_transform t) = ∅.
Proof. unfold get_roots. by rewrite !list_elem_of_In, List.filter_In, bool_decide_eq_true. Qed.

Lemma filter_length {A} (f : A → bool) l : (length (List.filter f l) ≤ length l)%nat.
Proof. induction l as [|x l IH]; [done|]. simpl. destruct (f x); simpl; lia. Qed.

(** * The graph *)

(** There is one root for each transform of the runner that has a spec and no inputs, and
    it stands for it.  The nodes have ids of their own; the outgoing edges of a node are
    one per consumer of each of its outputs, and lead to the node that stands for the
    consumer, those into the node itself apart; and every node is a root or is entered by
    an edge from an earlier one. *)
Record graph_exact (roots : list RunnerTransform) (nodes : list ExecutableNode) (edges : list GraphEdge) : Prop := {
  ge_roots : Forall2 (λ t r, runner_of (rt_id r) t = Some r) (filter has_spec (get_roots runners)) roots;
  ge_rooted : ∀ r, r ∈ roots → Runner r ∈ nodes;
  ge_root_once : NoDup (rt_id <$> roots);
  ge_once : NoDup (node_id <$> nodes);
  ge_out : ∀ i n, nodes !! i = Some n → ∃ outs, outputs_walked roots n outs
    ∧ out_edges comps sdk runners consumers sides nodes edges i n (links_from consumers outs);
  ge_range : ∀ e, e ∈ edges → is_Some (nodes !! ge_source e);
  ge_reached : ∀ i n, nodes !! i = Some n →
    (∃ r, r ∈ roots ∧ n = Runner r) ∨ ∃ e, e ∈ edges ∧ ge_target e = i ∧ (ge_source e < i)%nat;
}.

Lemma walk_exact b n' :
  walk new_v4 toposort comps sdk runners consumers sides n1 = Ok (b, n') → ∃ roots, graph_exact roots (b_nodes b) (b_edges b).
Proof.
  intros E. unfold walk, mbind, minting_bind in E. inv_bind E. destruct a as [b0 n2]. unfold lift_minting in E. inv_bind E. injection E as -> <-.
  destruct (expand_roots_spec _ _ _ _ _ _ _ initial_started E0) as (roots & [(made & expanded & W & Hw) _ _ Hmade Hroots]).
  destruct (expand_loop_spec toposort L comps sdk runners consumers sides rs.*2 Hids link_node_text links_worker links_runner links_plain
    _ _ _ _ _ _ W Hw E1) as (made' & expanded' & [W1 W2 W3 W4 W5 W6 W7 W8 W9 W10 W11 W12 W13] & Hw' & Hq & Hp).
  rewrite Forall_forall in Hw'. rewrite Hq in W5.
  assert (Hexp : ∀ i n, b_nodes b !! i = Some n → ∃ ls, (i, ls) ∈ expanded').
  { intros i n Hi. destruct (W5 i n Hi) as [((j & ls) & -> & Hin)%list_elem_of_fmap|[]%elem_of_nil]. by exists ls. }
  exists roots. split.
  - exact Hmade.
  - intros r Hr. destruct Hp as [l ->]. apply elem_of_app. left. by apply Hroots.
  - rewrite fmap_app in W13. apply NoDup_app in W13 as (_ & _ & W13). by rewrite runner_ids in W13.
  - apply NoDup_alt. intros i j id Hi Hj. apply list_lookup_fmap_Some in Hi as (x & -> & Hx), Hj as (y & Eid & Hy).
    assert (Ei : node_indices b !! node_id x = Some i) by (apply W1; by exists x).
    assert (Ej : node_indices b !! node_id x = Some j) by (apply W1; by exists y). congruence.
  - intros i n Hi. destruct (Hexp i n Hi) as [ls Hin]. destruct (W7 i ls Hin) as (m & Hm & Ho).
    destruct (Hw' _ Hin) as (m' & outs & Hm' & Els & Hc). cbn [fst snd] in *. subst ls.
    assert (m = n) as -> by congruence. assert (m' = n) as -> by congruence. by exists outs.
  - intros e He. apply W8 in He. apply list_elem_of_fmap in He as ((i & ls) & -> & Hin). destruct (W7 i ls Hin) as (n & Hn & _). by exists n.
  - exact W9.
Qed.

Lemma expand_roots_ends b ts n w :
  expand_roots new_v4 toposort comps sdk runners consumers sides b ts n = Panic w → ¬ is_bound w.
Proof.
  revert b n. induction ts as [|t ts IH]; intros b n E; cbn [expand_roots] in E; [done|].
  unfold mbind, minting_bind in E. destruct (expand_root _ _ _ _ _ _ _ b t n) as [[b1 n2]|e|w1] eqn:Er; cbn [mbind outcome_bind] in E;
    [by eapply IH|done|]. injection E as ->.
  unfold expand_root in Er. destruct (pt_spec (ptn_transform t)) as [spec|]; [|done]. unfold mbind, minting_bind in Er.
  unfold from_urn_with_payload in Er. destruct (one_of FLARE (fs_urn spec)); cbn [mbind outcome_bind] in Er.
  2: { injection Er as <-. by intros [?|?]. }
  destruct (ensure_node_exists _ b) as [i b2]. unfold lift_minting in Er.
  destruct (expand _ _ _ _ _ _ _ _ _ _ _) as [b3|e|w1] eqn:Ex; cbn [mbind outcome_bind] in Er; [done|done|].
  injection Er as ->. eapply expand_ends; [exact Hids|exact links_worker|exact Ex].
Qed.

Lemma walk_ends w : walk new_v4 toposort comps sdk runners consumers sides n1 = Panic w → ¬ is_bound w.
Proof.
  intros E. unfold walk, mbind, minting_bind in E.
  destruct (expand_roots _ _ _ _ _ _ _ _ (get_roots runners) n1) as [[b0 n2]|e|w1] eqn:E0; cbn [mbind outcome_bind] in E;
    [|done|injection E as ->; by eapply expand_roots_ends].
  destruct (expand_roots_spec _ _ _ _ _ _ _ initial_started E0) as (roots & [(made & expanded & W & Hw) _ _ Hmade _]).
  unfold lift_minting in E. destruct (expand_loop _ _ _ _ _ _ _ b0) as [b1|e|w1] eqn:E1; [done|done|]. injection E as ->.
  eapply (expand_loop_ends toposort L comps sdk runners consumers sides rs.*2 Hids link_node_text links_worker links_runner links_plain);
    [exact W| |exact E1].
  unfold graph_bound. rewrite length_fmap. pose proof (rm_length _ _ _ _ Hrs). apply Forall2_length in Hmade. cbn [app] in Hmade.
  pose proof (length_filter has_spec (get_roots runners)).
  pose proof (filter_length (λ t, bool_decide (pt_inputs (ptn_transform t) = ∅)) runners). unfold get_roots in *. lia.
Qed.

(** ** The metadata of the root *)

(** It is that of the first edge.  Past the roots there is an edge whenever there is a
    node left to expand. *)
Definition root_known (root : bool) (b : Builder) : Prop :=
  b_root_metadata b = ge_weight <$> head (b_edges b) ∧ if root then b_edges b = [] → work_queue b = [] else b_edges b ≠ [].

Lemma root_known_weaken root b : root_known root b → root_known true b.
Proof. destruct root; [done|]. intros [? Hne]. by split. Qed.

Lemma ensure_node_root_known root node b : root_known root (ensure_node_exists node b).2 ↔ root_known root b.
Proof. unfold ensure_node_exists. by destruct (node_indices b !! node_id node). Qed.

Lemma link_consumer_root_known root producer i c b link b' :
  root_known root b → link_consumer toposort comps sdk runners consumers sides root producer i c b link = Ok b' → root_known root b'.
Proof.
  intros Hb E. unfold link_consumer in E. inv_bind E. destruct a as [consumer cache].
  change (root_known root (with_cache cache b)) in Hb. destruct (_ && _); [by injection E as <-|].
  rewrite <- (ensure_node_root_known root consumer) in Hb. destruct (ensure_node_exists consumer _) as [k b1]. cbn [snd] in Hb.
  inv_bind E. injection E as <-. destruct Hb as [Hm Hne]. unfold root_known, add_consumer. cbn. rewrite Hm.
  destruct (b_edges b1) as [|e es]; [|by destruct root]. by destruct root.
Qed.

Lemma expand_root_known root producer i outs b b' :
  root_known root b → expand toposort comps sdk runners consumers sides root producer i outs b = Ok b' → root_known root b'.
Proof.
  intros Hb E. refine (try_fold_inv _ (λ _, root_known root) _ _ _ _ Hb E). intros _ c b1 b2 _ Hb1 E1.
  refine (try_fold_inv _ (λ _, root_known root) _ _ _ _ Hb1 E1). intros _ link b3 b4 _ Hb3 E3. by eapply link_consumer_root_known.
Qed.

Lemma expand_roots_known b ts n b' n' :
  root_known true b → expand_roots new_v4 toposort comps sdk runners consumers sides b ts n = Ok (b', n') → root_known true b'.
Proof.
  revert b n. induction ts as [|t ts IH]; intros b n Hb E; cbn [expand_roots] in E; [by injection E as <- <-|].
  unfold mbind, minting_bind in E. inv_bind E. destruct a as [b1 n2]. refine (IH _ _ _ E). clear IH E.
  unfold expand_root in E0. destruct (pt_spec (ptn_transform t)) as [spec|]; [|by injection E0 as <- <-].
  unfold mbind, minting_bind in E0. inv_bind E0. destruct a as [r n3].
  rewrite <- (ensure_node_root_known true (Runner r)) in Hb. destruct (ensure_node_exists (Runner r) b) as [k b2].
  unfold lift_minting in E0. inv_bind E0. injection E0 as <- <-. eapply expand_root_known; [|exact E1]. exact Hb.
Qed.

Lemma expand_loop_known fuel b b' :
  root_known true b → expand_loop toposort comps sdk runners consumers sides fuel b = Ok b' → root_known true b'.
Proof.
  revert b. induction fuel as [|fuel IH]; intros b Hb E; cbn [expand_loop] in E; destruct (work_queue b) as [|producer queue] eqn:Eq; try done.
  1, 2: by injection E as <-.
  assert (Hb1 : root_known false (popped queue b)).
  { destruct Hb as [Hm Hne]. split; [done|]. intros Ee. specialize (Hne Ee). congruence. }
  rewrite <- (ensure_node_root_known false producer) in Hb1. destruct (ensure_node_exists producer _) as [k b1]. inv_bind E.
  apply (IH a); [|done]. eapply root_known_weaken, expand_root_known; done.
Qed.

Lemma walk_root_metadata b n' n :
  walk new_v4 toposort comps sdk runners consumers sides n = Ok (b, n') → b_root_metadata b = ge_weight <$> head (b_edges b).
Proof.
  intros E. unfold walk, mbind, minting_bind in E. inv_bind E. destruct a as [b0 n2]. unfold lift_minting in E. inv_bind E. injection E as -> <-.
  assert (Hk0 : root_known true b0) by (by eapply expand_roots_known; [|exact E0]).
  by destruct (expand_loop_known _ _ _ Hk0 E1).
Qed.
End roots.
End outcome.
