(* ===== verification/Job.v ===== *)
(** Jobs (jobservice/job.rs): a pipeline is expanded, fused and turned into the executable
    graph of the job, and jobs are kept by id. *)
From S2P Require Import Prelude Bytes CoderGraph Pipeline StageFuser PipelineFuser Dedup Expander ExecGraph.
Local Open Scope string_scope.
Local Open Scope list_scope.

(** [Result::unwrap]. *)
Definition unwrap {A} (m : minting A) : minting A := λ n,
  match m n with
  | Err _ => Panic "called Result::unwrap() on an Err value"
  | r => r
  end.

Record Job : Type := mkJob { job_id : string; job_graph : ExecutableGraph }.

Section create.
Context `{HashIter, PayloadDecoder} (new_v4 : nat → string) (toposort : nat → list (nat * nat) → option (list nat)).

(** [Job::create_job], but for the debug files it writes. *)
Definition create_job (pipeline : Components) : minting ExecutableGraph :=
  expanded ← lift_minting (update_transform PAR_DO_TRANSFORM pipeline (sized_replacement false));
  fused ← unwrap (fuse_pipeline new_v4 expanded);
  executable_graph_from new_v4 toposort (sdk_stages fused) (runner_stages fused) (fp_components fused).

(** [Job::new]. *)
Definition job_new (pipeline : Components) : minting Job := λ n,
  '(graph, n) ← create_job pipeline (S n);
  Ok (mkJob ("jobid" +:+ new_v4 n) graph, n).
End create.

(** ** [JobStore] *)

Record PreparedJob : Type := mkPreparedJob { prepared_graph : ExecutableGraph; pipeline_options : string }.

Abbreviation JobStore := (gmap string PreparedJob).

Definition add_job (id : string) (graph : ExecutableGraph) (options : string) (store : JobStore) : JobStore :=
  <[id := mkPreparedJob graph options]> store.

Definition get_job (id : string) (store : JobStore) : option PreparedJob := store !! id.

Definition first_job_id `{HashIter} (store : JobStore) : option string := fst <$> head (map_iter store).
