(* ===== verification/JobProperties.v ===== *)
(** The claims about making the executable graph of a job: the expansion of splittable
    ParDos, and the graph of the fused pipeline. *)
From S2P Require Import Prelude Bytes CoderGraph Pipeline StageFuserSpec StageFuser PipelineFuser PipelineFuserSpec FusionLoopSpec.
From S2P Require Import Dedup DedupLoopSpec FusionOutcome FusionProperties.
From S2P Require Import Expander ExpanderSpec ExecGraph SplittableRun ExecGraphSpec ExecGraphOutcome Job.
From Stdlib Require Import Ascii.
Set Warnings "-clear-no-such-hyp".
Local Open Scope string_scope.
Local Open Scope list_scope.

Section expanded_pipeline.
Context `{HashIterLaws, PayloadDecoder} (drain : bool) (comps comps' : Components) (Hin : inputs_declared comps).
Context (E : expanded drain comps (map_iter (transforms comps)).*1 comps').

Lemma visited id t : transforms comps !! id = Some t → id ∈ (map_iter (transforms comps)).*1.
Proof. intros Et. rewrite (map_iter_perm _). apply list_elem_of_fmap. exists (id, t). by rewrite elem_of_map_to_list. Qed.

(** What a transform of the expanded pipeline is. *)
Lemma expanded_cases id t :
  transforms comps' !! id = Some t →
  (transforms comps !! id = Some t ∧ ∀ s, ¬ is_sdf comps id s)
  ∨ (∃ s ids, is_sdf comps id s ∧ t = composite (par_do s) ids ∧ ∀ x, x ∈ ids → transforms comps !! x = None)
  ∨ (transforms comps !! id = None ∧ ∃ s pid ids, is_sdf comps pid s ∧ id ∈ ids ∧ expansion drain s comps' ids).
Proof.
  intros Et. destruct (transforms comps !! id) as [t0|] eqn:Et0.
  - destruct (splittable_par_do id comps) as [s|] eqn:Es; [destruct (decide (fs_urn (par_do_spec s) = PAR_DO_TRANSFORM)) as [Hu|Hu]|].
    + right; left. destruct (ex_expanded _ _ _ _ E id s) as (ids & Ei & _ & Hf & _); [by eapply visited|done|].
      exists s, ids. split_and!; [done|congruence|done].
    + left. assert (Hno : ∀ s', ¬ is_sdf comps id s') by (intros s' [? ?]; congruence). split; [|done].
      pose proof (ex_kept _ _ _ _ E id t0 Et0 (λ s' _, Hno s')). congruence.
    + left. assert (Hno : ∀ s', ¬ is_sdf comps id s') by (intros s' [? ?]; congruence). split; [|done].
      pose proof (ex_kept _ _ _ _ E id t0 Et0 (λ s' _, Hno s')). congruence.
  - right; right. split; [done|]. destruct (ex_new _ _ _ _ E id t Et Et0) as (pid & s & ids & Hd & Hs & Ei & Hid).
    destruct (ex_expanded _ _ _ _ E pid s Hd Hs) as (ids' & Ei' & _ & _ & Hex). exists s, pid, ids'. split_and!; [done| |done].
    rewrite Ei in Ei'. injection Ei' as ->. done.
Qed.

(** A step of a chain: no subtransforms, not a ParDo, and it writes what is declared. *)
Lemma chain_step s pid ids x t :
  is_sdf comps pid s → expansion drain s comps' ids → x ∈ ids → transforms comps' !! x = Some t →
  pt_subtransforms t = [] ∧ (∀ spec, pt_spec t = Some spec → fs_urn spec ≠ PAR_DO_TRANSFORM)
  ∧ ∀ i c, pt_outputs t !! i = Some c → is_Some (pcollections comps' !! c) ∨ pt_outputs (par_do s) !! i = Some c.
Proof.
  intros Hs Hex Hx Et.
  assert (Hstep : ∀ id urn i c cd k v, is_step comps' s id urn i {["out" := c]} → between_steps comps' s c cd k v → urn ≠ PAR_DO_TRANSFORM → x = id →
    pt_subtransforms t = [] ∧ (∀ spec, pt_spec t = Some spec → fs_urn spec ≠ PAR_DO_TRANSFORM)
    ∧ ∀ i c, pt_outputs t !! i = Some c → is_Some (pcollections comps' !! c) ∨ pt_outputs (par_do s) !! i = Some c).
  { intros id urn i c cd k v (name & ins & E1 & _) (name' & E2 & _) Hu ->. rewrite Et in E1. injection E1 as ->. split_and!; [done|intros spec [= <-]; exact Hu|].
    intros j d. cbn. intros [<- <-]%lookup_singleton_Some. left. by eexists. }
  assert (Hlast : ∀ id urn i, is_step comps' s id urn i (pt_outputs (par_do s)) → urn ≠ PAR_DO_TRANSFORM → x = id →
    pt_subtransforms t = [] ∧ (∀ spec, pt_spec t = Some spec → fs_urn spec ≠ PAR_DO_TRANSFORM)
    ∧ ∀ i c, pt_outputs t !! i = Some c → is_Some (pcollections comps' !! c) ∨ pt_outputs (par_do s) !! i = Some c).
  { intros id urn i (name & ins & E1 & _) Hu ->. rewrite Et in E1. injection E1 as ->. split_and!; [done|intros spec [= <-]; exact Hu|]. intros j d ?. by right. }
  destruct Hex as (pair & split & process & po & so & pc & sc & d & X1 & X2 & X3 & X4 & _ & X6). destruct drain.
  - destruct X6 as (tr & o & c & -> & X7 & X8 & X9). rewrite !elem_of_cons, elem_of_nil in Hx.
    destruct Hx as [?|[?|[?|[?|[]]]]]; [by eapply (Hstep _ _ _ _ _ _ _ X1 X2)|by eapply (Hstep _ _ _ _ _ _ _ X3 X4)|by eapply (Hstep _ _ _ _ _ _ _ X7 X8)|by eapply (Hlast _ _ _ X9)].
  - destruct X6 as (-> & X7). rewrite !elem_of_cons, elem_of_nil in Hx. destruct Hx as [?|[?|[?|[]]]]; [by eapply (Hstep _ _ _ _ _ _ _ X1 X2)|by eapply (Hstep _ _ _ _ _ _ _ X3 X4)|by eapply (Hlast _ _ _ X7)].
Qed.

Lemma expanded_hierarchy rank :
  hierarchy (transforms comps) rank →
  hierarchy (transforms comps') (λ id, if decide (is_Some (transforms comps !! id)) then S (rank id) else O).
Proof.
  intros Hr id t sub Et Hsub Hk. destruct (expanded_cases id t Et) as [[Et0 _]|[(s & ids & [Hs _] & -> & Hf)|(_ & s & pid & ids & Hs & Hid & Hex)]].
  - rewrite (decide_True (P := is_Some (transforms comps !! id))) by (by eexists). case_decide as Hsk; [|lia].
    pose proof (Hr id t sub Et0 Hsub Hsk). lia.
  - destruct (splittable_par_do_transform _ _ _ Hs) as [Et0 _].
    rewrite (decide_True (P := is_Some (transforms comps !! id))) by (by eexists). cbn in Hsub. rewrite (Hf _ Hsub).
    rewrite decide_False by (by intros [? ?]). lia.
  - destruct (chain_step _ _ _ _ _ Hs Hex Hid Et) as [En _]. rewrite En in Hsub. by apply elem_of_nil in Hsub.
Qed.

Lemma expanded_outputs_declared : outputs_declared comps → outputs_declared comps'.
Proof.
  intros Hd id t c Et [i Ei]. assert (Hold : ∀ id t i, transforms comps !! id = Some t → pt_outputs t !! i = Some c → is_Some (pcollections comps' !! c)).
  { intros id0 t0 i0 Et0 Ei0. destruct (Hd id0 t0 c Et0) as [p Ep]; [by eexists|]. exists p. eapply lookup_weaken; [done|exact (ex_pcollections _ _ _ _ E)]. }
  destruct (expanded_cases id t Et) as [[Et0 _]|[(s & ids & [Hs _] & -> & _)|(_ & s & pid & ids & Hs & Hid & Hex)]]; [by eapply Hold| |].
  - destruct (splittable_par_do_transform _ _ _ Hs) as [Et0 _]. by eapply (Hold id).
  - destruct (chain_step _ _ _ _ _ Hs Hex Hid Et) as (_ & _ & Ho). destruct (Ho i c Ei) as [?|Ho']; [done|].
    destruct Hs as [Hs _]. destruct (splittable_par_do_transform _ _ _ Hs) as [Et0 _]. by eapply (Hold pid).
Qed.

(** Nothing is left to expand. *)
Lemma expanded_none id s : ¬ is_sdf comps' id s.
Proof.
  intros [Hs Hu]. destruct (splittable_par_do_transform _ _ _ Hs) as [Et Esp].
  destruct (expanded_cases id _ Et) as [[Et0 Hno]|[(s0 & ids & _ & Ec & _)|(_ & s0 & pid & ids & Hs0 & Hid & Hex)]].
  - apply (Hno s). split; [|done]. by rewrite <- (splittable_par_do_same id comps comps' _ Hin (ex_pcollections _ _ _ _ E) Et0 Et).
  - rewrite Ec in Esp. done.
  - destruct (chain_step _ _ _ _ _ Hs0 Hex Hid Et) as (_ & Hn & _). by apply (Hn _ Esp).
Qed.

Lemma expanded_again drain' : update_transform PAR_DO_TRANSFORM comps' (sized_replacement drain') = Ok comps'.
Proof.
  unfold update_transform. destruct (try_fold_ok (update_one PAR_DO_TRANSFORM (sized_replacement drain')) (λ _ c, c = comps')
    (map_iter (transforms comps')).*1 comps') as (c & Ec & ->); [|done|done].
  intros done x rest b _ ->. exists comps'. split; [|done]. apply update_one_other, expanded_none.
Qed.
End expanded_pipeline.

(** * The claims *)

Section claims.
Context `{HashIterLaws, PayloadDecoder}.

(** C37: Expanding the splittable ParDos of a pipeline succeeds, expands exactly these, and
    is done once: the rest of the pipeline stays; each becomes a composite that keeps its
    inputs and outputs, over steps with new ids, which no other composite has, and which
    are chained through new PCollections of element and restriction pairs from its inputs
    to its outputs, with a truncating step when draining; there are no other new
    transforms; and expanding again changes nothing. *)
Theorem splittable_pardos_expanded drain drain' comps :
  inputs_declared comps → (∀ id s, is_sdf comps id s → pt_subtransforms (par_do s) = []) →
  ∃ comps', update_transform PAR_DO_TRANSFORM comps (sized_replacement drain) = Ok comps'
    ∧ (∀ id t, transforms comps !! id = Some t → (∀ s, ¬ is_sdf comps id s) → transforms comps' !! id = Some t)
    ∧ (∀ id s, is_sdf comps id s → ∃ ids, transforms comps' !! id = Some (composite (par_do s) ids)
         ∧ NoDup ids ∧ (∀ x, x ∈ ids → transforms comps !! x = None) ∧ expansion drain s comps' ids)
    ∧ (∀ x t, transforms comps' !! x = Some t → transforms comps !! x = None →
         exists! id, ∃ s ids, is_sdf comps id s ∧ transforms comps' !! id = Some (composite (par_do s) ids) ∧ x ∈ ids)
    ∧ pcollections comps ⊆ pcollections comps' ∧ coders comps ⊆ coders comps'
    ∧ environments comps' = environments comps ∧ windowing_strategies comps' = windowing_strategies comps
    ∧ update_transform PAR_DO_TRANSFORM comps' (sized_replacement drain') = Ok comps'.
Proof.
  intros Hin Hleaf. destruct (update_transform_ok drain comps Hin Hleaf) as (comps' & Eu & E). pose proof E as [E1 E2 [E3 E3'] E4 E5 E6 E7].
  assert (Hv : ∀ id s, is_sdf comps id s → id ∈ (map_iter (transforms comps)).*1).
  { intros id s [Hs _]. destruct (splittable_par_do_transform _ _ _ Hs) as [Et _]. by eapply visited. }
  exists comps'. split_and!; [done| | | |done|done|done|done|by eapply expanded_again].
  - intros id t Et Hno. by apply E4.
  - intros id s Hs. by apply E5; [eapply Hv|].
  - intros x t Et En. destruct (E6 x t Et En) as (id & s & ids & Hd & Hs & Ei & Hx). exists id. split; [by exists s, ids|].
    intros id' (s' & ids' & Hs' & Ei' & Hx'). by eapply (E7 id id' s s' ids ids' x); [done|eapply Hv|..].
Qed.

Context (new_v4 : nat → string) `{!Inj (=) (=) new_v4}.
Context (toposort : nat → list (nat * nat) → option (list nat)).

(** The pipeline can be fused once it is expanded. *)
Definition fusible_when_expanded (comps : Components) (rank : string → nat) : Prop :=
  ∀ comps' q, update_transform PAR_DO_TRANSFORM comps (sized_replacement false) = Ok comps' → queryable_new comps' = Ok q →
    payloads_ok q ∧ runners_acyclic q rank.

(** C36: The executable graph of a job is that of its pipeline expanded and fused, in which
    every PCollection has one producer, and is exact: each of the runner's transforms
    with a spec and no inputs has one root node, which stands for it; the nodes have ids
    of their own; from each node lead, one per consumer of each of its outputs and in their
    order, edges to the node that stands for the consumer, which is the stage or the
    runner's transform itself or, for a splittable stage, a run of splittable stages that
    it is in, with the edges between them, the PCollections that leave the run and the
    plan to execute it; edges into the node itself are left out; every node is a root or is
    entered from an earlier node; the root metadata is that of the first edge; and neither
    the walk nor the search for a run goes on for ever. *)
Theorem job_graph_exact comps srank rank n :
  toposort_law toposort → (∀ k, uuid_text (new_v4 k)) →
  inputs_declared comps → (∀ id s, is_sdf comps id s → pt_subtransforms (par_do s) = []) →
  hierarchy (transforms comps) srank → outputs_declared comps → fusible_when_expanded comps rank →
  ∃ comps' fp m, update_transform PAR_DO_TRANSFORM comps (sized_replacement false) = Ok comps'
    ∧ fuse_pipeline new_v4 comps' n = Ok (fp, m)
    ∧ (∀ p p' c, fused_produces fp p c → fused_produces fp p' c → p = p')
    ∧ (∀ g m', create_job new_v4 toposort comps n = Ok (g, m') →
         ∃ consumers rs m0 roots, runners_made new_v4 m (runner_stages fp) rs m0
           ∧ (∀ c link, link ∈ links_of consumers c ↔ consumes_pcol (sdk_stages fp) rs c link)
           ∧ graph_exact (fp_components fp) (sdk_stages fp) (runner_stages fp) consumers
               (side_input_pcollections (sdk_stages fp)) roots (eg_nodes g) (eg_edges g)
           ∧ eg_components g = fp_components fp
           ∧ eg_root_metadata g = ge_weight <$> head (eg_edges g))
    ∧ (∀ w, create_job new_v4 toposort comps n = Panic w → ¬ is_bound w).
Proof.
  intros L Htext Hin Hleaf Hh Hdecl Hfus. destruct (update_transform_ok false comps Hin Hleaf) as (comps' & Eu & E).
  pose proof (expanded_hierarchy false comps comps' E srank Hh) as Hh'.
  destruct (fuse_pipeline_ok new_v4 comps' _ rank n Hh' (λ q, Hfus comps' q Eu))
    as (q & d0 & s & n1 & gs & name & n2 & d & l & m & _ & G & _ & _ & F & Hcut & D & Hsan & Hnd & Hm & Ef).
  pose proof (expanded_outputs_declared false comps comps' E Hdecl) as Hd'. pose proof (ff_known _ _ _ _ _ _ _ _ F) as Hkn.
  set (fp := mkFusedPipeline _ l _) in *. exists comps', fp, m. split_and!; [done|done|intros p p' c; by eapply single_producer| |].
  all: assert (Ej : create_job new_v4 toposort comps n
    = executable_graph_from new_v4 toposort (sdk_stages fp) (runner_stages fp) (fp_components fp) m)
    by (unfold create_job; rewrite (lift_minting_bind _ _ _ _ Eu); unfold mbind, minting_bind, unwrap; by rewrite Ef).
  all: rewrite Ej; unfold executable_graph_from.
  - intros g m' Eg. unfold mbind, minting_bind in Eg. inv_bind Eg. destruct a as [consumers m0].
    inv_bind Eg. destruct a as [b m1]. injection Eg as <- <-.
    destruct (consumer_links_spec new_v4 _ _ _ _ _ E0) as (rs & Hrs & Hl).
    destruct (walk_exact new_v4 toposort L (fp_components fp) (sdk_stages fp) (runner_stages fp) consumers
      (side_input_pcollections (sdk_stages fp)) m m0 rs) with (b := b) (n' := m1) as [roots Hg]; [done| |done|done|done|exact E1|].
    { intros st Hst. by apply (proj1 (Forall_forall _ _) Hm). }
    exists consumers, rs, m0, roots. split_and!; [done|done|exact Hg|done|by eapply walk_root_metadata].
  - intros w Eg. unfold mbind, minting_bind in Eg. destruct (consumer_links _ _ _ m) as [[consumers m0]|e|w1] eqn:E0; cbn [mbind outcome_bind] in Eg;
      [|done|injection Eg as ->; by eapply consumer_links_ends].
    destruct (consumer_links_spec new_v4 _ _ _ _ _ E0) as (rs & Hrs & Hl).
    destruct (walk _ _ _ _ _ _ _ m0) as [[b m1]|e|w1] eqn:E1; [done|done|]. injection Eg as ->.
    eapply (walk_ends new_v4 toposort L _ _ _ _ _ m m0 rs); [done| |done|done|done|exact E1].
    intros st Hst. by apply (proj1 (Forall_forall _ _) Hm).
Qed.
End claims.

(** * A job to try things on

    An impulse feeds a splittable ParDo, and a group-by-key reads its output. *)
Module job_demo.
#[export] Instance hash_iter : HashIter := {| set_iter := elements; map_iter := λ K _ _ A m, map_to_list m |}.
#[export] Instance hash_iter_laws : HashIterLaws.
Proof. constructor; done. Qed.
#[export] Instance decoder : PayloadDecoder := λ payload,
  Some (mkParDoPayload ∅ ∅ ∅ (if decide (payload = [Byte.x01]) then "restriction" else "")).

(** An order that goes up is the order of the indices. *)
Definition toposort (n : nat) (es : list (nat * nat)) : option (list nat) :=
  if forallb (λ e : nat * nat, (e.1 <? e.2)%nat) es then Some (seq 0 n) else None.

Lemma toposort_ok : toposort_law toposort.
Proof.
  split; intros n es order; unfold toposort; destruct (forallb _ es) eqn:Ef; try done; [by intros [= <-]|].
  intros i j u v [= <-] Hin Hi Hj. rewrite forallb_forall in Ef. apply list_elem_of_In, Ef, Nat.ltb_lt in Hin.
  apply lookup_seq in Hi as [-> _], Hj as [-> _]. cbn in Hin. lia.
Qed.

Fixpoint new_v4 (k : nat) : string := match k with O => "" | S k => String.String "u"%char (new_v4 k) end.
#[export] Instance new_v4_inj : Inj (=) (=) new_v4.
Proof. intros a. induction a as [|a IH]; intros [|b] E; [done..|]. injection E as E. f_equal. by apply IH. Qed.

Lemma new_v4_text k : uuid_text (new_v4 k).
Proof. induction k as [|k IH]; [constructor|]. by constructor. Qed.

Definition transform (urn : string) (payload : bytes) (ins outs : list (string * string)) (env : string) : PTransform :=
  mkPTransform urn (Some (mkFunctionSpec urn payload)) [] (list_to_map ins) (list_to_map outs) env.

Definition pipeline : Components := mkComponents
  (list_to_map
    [("imp", transform IMPULSE_TRANSFORM [] [] [("o", "I")] "");
     ("sdf", transform PAR_DO_TRANSFORM [Byte.x01] [("i", "I")] [("o", "O")] "e");
     ("G", transform GROUP_BY_KEY_TRANSFORM [] [("i", "O")] [("o", "GO")] "")])
  (list_to_map ((λ x, (x, mkPCollection x "c" 0 "w")) <$> ["I"; "O"; "GO"]))
  ∅ {["e" := mkEnvironment "env" []]} ∅.

Definition rank (c : string) : nat := default O ((list_to_map [("I", 4); ("I/PairWithRestriction0", 3); ("I/SplitAndSize0", 2); ("O", 1)] : gmap string nat) !! c).

Lemma pipeline_leaves : map_Forall (λ _ t, pt_subtransforms t = []) (transforms pipeline).
Proof. apply (bool_decide_unpack _). by vm_compute. Qed.

Lemma pipeline_inputs : inputs_declared pipeline.
Proof.
  assert (Hd : map_Forall (λ _ t, map_Forall (λ _ c, is_Some (pcollections pipeline !! c)) (pt_inputs t)) (transforms pipeline)).
  { apply (bool_decide_unpack _). by vm_compute. }
  intros id t i c E Ei. by apply (Hd id t E i c).
Qed.

Lemma pipeline_outputs : outputs_declared pipeline.
Proof.
  assert (Hd : map_Forall (λ _ t, map_Forall (λ _ c, is_Some (pcollections pipeline !! c)) (pt_outputs t)) (transforms pipeline)).
  { apply (bool_decide_unpack _). by vm_compute. }
  intros id t c E [i Ei]. by apply (Hd id t E i c).
Qed.

Lemma sdf_leaves id s : is_sdf pipeline id s → pt_subtransforms (par_do s) = [].
Proof. intros [Hs _]. destruct (splittable_par_do_transform _ _ _ Hs) as [Et _]. exact (pipeline_leaves id _ Et). Qed.

Lemma sdf_pipeline_hierarchy : hierarchy (transforms pipeline) (λ _, O).
Proof. intros id t sub E Hsub. rewrite (pipeline_leaves id t E) in Hsub. by apply elem_of_nil in Hsub. Qed.

Definition expanded_pipeline : Components :=
  match update_transform PAR_DO_TRANSFORM pipeline (sized_replacement false) with Ok c => c | _ => pipeline end.
Definition graph : QueryablePipeline :=
  match queryable_new expanded_pipeline with Ok q => q | _ => mkQueryable ∅ ∅ [] [] pipeline ∅ end.

Lemma pipeline_fusible : fusible_when_expanded pipeline rank.
Proof.
  intros comps q E E'. assert (comps = expanded_pipeline) as -> by (unfold expanded_pipeline; by rewrite E).
  assert (q = graph) as -> by (unfold graph; by rewrite E'). split.
  - apply payloads_readable_ok. by vm_compute.
  - apply ranked_acyclic. apply (bool_decide_unpack _). by vm_compute.
Qed.
End job_demo.

(** ** On the job above *)

Section witnesses.
Import job_demo.

Lemma splittable_pardos_expanded_witness :
  (∃ s, is_sdf pipeline "sdf" s) ∧
  ∃ comps', update_transform PAR_DO_TRANSFORM pipeline (sized_replacement true) = Ok comps'
    ∧ (∀ id t, transforms pipeline !! id = Some t → (∀ s, ¬ is_sdf pipeline id s) → transforms comps' !! id = Some t)
    ∧ (∀ id s, is_sdf pipeline id s → ∃ ids, transforms comps' !! id = Some (composite (par_do s) ids)
         ∧ NoDup ids ∧ (∀ x, x ∈ ids → transforms pipeline !! x = None) ∧ expansion true s comps' ids)
    ∧ (∀ x t, transforms comps' !! x = Some t → transforms pipeline !! x = None →
         exists! id, ∃ s ids, is_sdf pipeline id s ∧ transforms comps' !! id = Some (composite (par_do s) ids) ∧ x ∈ ids)
    ∧ pcollections pipeline ⊆ pcollections comps' ∧ coders pipeline ⊆ coders comps'
    ∧ environments comps' = environments pipeline ∧ windowing_strategies comps' = windowing_strategies pipeline
    ∧ update_transform PAR_DO_TRANSFORM comps' (sized_replacement false) = Ok comps'.
Proof.
  split; [eexists; split; [reflexivity|reflexivity]|].
  exact (splittable_pardos_expanded true false pipeline pipeline_inputs sdf_leaves).
Defined.

Lemma job_graph_exact_witness :
  ∃ comps' fp m, update_transform PAR_DO_TRANSFORM pipeline (sized_replacement false) = Ok comps'
    ∧ fuse_pipeline new_v4 comps' 0 = Ok (fp, m)
    ∧ (∀ p p' c, fused_produces fp p c → fused_produces fp p' c → p = p')
    ∧ (∀ g m', create_job new_v4 toposort pipeline 0 = Ok (g, m') →
         ∃ consumers rs m0 roots, runners_made new_v4 m (runner_stages fp) rs m0
           ∧ (∀ c link, link ∈ links_of consumers c ↔ consumes_pcol (sdk_stages fp) rs c link)
           ∧ graph_exact (fp_components fp) (sdk_stages fp) (runner_stages fp) consumers
               (side_input_pcollections (sdk_stages fp)) roots (eg_nodes g) (eg_edges g)
           ∧ eg_components g = fp_components fp
           ∧ eg_root_metadata g = ge_weight <$> head (eg_edges g))
    ∧ (∀ w, create_job new_v4 toposort pipeline 0 = Panic w → ¬ is_bound w).
Proof.
  apply (job_graph_exact new_v4 toposort pipeline (λ _, O) rank 0 toposort_ok).
  - exact new_v4_text.
  - exact pipeline_inputs.
  - exact sdf_leaves.
  - exact sdf_pipeline_hierarchy.
  - exact pipeline_outputs.
  - exact pipeline_fusible.
Defined.

(** The graph of the job: per node the inputs of its stages, or the URN of the runner's
    transform, and its outputs; per edge its ends and PCollection. *)
Definition summary (r : translated (ExecutableGraph * nat)) : option (list (list string * list string) * list (nat * nat * string)) :=
  match r with
  | Ok (g, _) => Some
      ((λ n, (match n with Runner r => [rt_urn r] | _ => (λ s, pcn_id (stage_input_pcol s)) <$> worker_stages n end, elements (node_output_pcols n)))
         <$> eg_nodes g,
       (λ e, (ge_source e, ge_target e, produced_pcol_id (ge_weight e))) <$> eg_edges g)
  | _ => None
  end.

(** The stages that pair and split, and that process, are one node between the impulse
    and the group-by-key. *)
Lemma splittable_job_graph :
  summary (create_job new_v4 toposort pipeline 0)
  = Some ([([IMPULSE_TRANSFORM], ["I"]); (["I"; "I/SplitAndSize0"], ["O"]); ([GROUP_BY_KEY_TRANSFORM], ["GO"])], [(0, 1, "I"); (1, 2, "O")]).
Proof. vm_compute. reflexivity. Qed.
End witnesses.
