(* ===== verification/SideInputs.v ===== *)
(** Side inputs (engine/harness/state.rs, [SideInputRegistry] and [SideInputResolver]):
    which PCollection stands behind a side input, its elements encoded per window, and
    the reads an SDK worker makes of them. *)
From S2P Require Import Prelude Bytes Varint Windows Coders CoderGraph WindowMerge Pipeline StageFuser ExecGraph.
From stdpp Require Import pretty.
Local Open Scope string_scope.
Local Open Scope list_scope.

(** * Data *)

Record SideInputKey : Type := mkSideInputKey { sik_transform_id : string; sik_side_input_id : string }.

#[export] Instance SideInputKey_eq_dec : EqDecision SideInputKey.
Proof. solve_decision. Defined.
#[export] Program Instance SideInputKey_countable : Countable SideInputKey :=
  inj_countable' (λ k, (sik_transform_id k, sik_side_input_id k)) (λ p, mkSideInputKey p.1 p.2) _.
Next Obligation. by intros []. Qed.

Inductive SideInputMaterialization : Type :=
| IterableSide (element_coder : StandardBeamCoders)
| MultimapSide (key_coder value_coder : StandardBeamCoders).

Record SideInputSpec : Type := mkSideInputSpec {
  sis_pcollection_id : string;
  sis_materialization : SideInputMaterialization;
  sis_window_coder : WindowCoder;
}.

(** [SideInputRegistry]. *)
Abbreviation side_input_registry := (gmap SideInputKey SideInputSpec).

Record IterableSideInputAddress : Type := mkIterableAddress { isa_key : SideInputKey; isa_window : bytes }.

Inductive MultimapReadKind : Type := ReadKeys | ReadValues (key : bytes) | ReadKeysValues.

Record MultimapSideInputAddress : Type := mkMultimapAddress {
  msa_key : SideInputKey;
  msa_window : bytes;
  msa_kind : MultimapReadKind;
}.

Inductive EncodedSideInputWindow : Type :=
| EncodedIterable (data : bytes)
| EncodedMultimap (keys : bytes) (values : gmap bytes bytes).

Abbreviation EncodedSideInputWindows := (gmap BeamWindow EncodedSideInputWindow).
Abbreviation SideInputCache := (gmap SideInputKey EncodedSideInputWindows).

(** "transform_id='..' side_input_id='..'" in the error messages. *)
Definition describe (k : SideInputKey) : string :=
  "transform_id='" +:+ sik_transform_id k +:+ "' side_input_id='" +:+ sik_side_input_id k +:+ "'".

(** * The registry *)
Section registry.
Context `{HashIter, PayloadDecoder} (display : CodersError → string).

(** [runtime::resolve_window_coder]. *)
Definition resolve_window_coder (comps : Components) (pipeline_coders : coders_map) (pcollection_id : string)
    : outcome string WindowCoder :=
  match pcollections comps !! pcollection_id with
  | None => Err ("PCollection not found: " +:+ pcollection_id)
  | Some pcol =>
      let strategy := windowing_strategies comps !! pc_windowing_strategy_id pcol in
      let named := id ← ws_window_coder_id <$> strategy; if decide (id = "") then None else Some id in
      let fixed :=
        window_fn ← strategy ≫= ws_window_fn;
        if decide (fs_urn window_fn = "beam:window_fn:fixed_windows:v1")
        then fst <$> find (λ c, bool_decide (spec_urn c.2 = Some INTERVAL_WINDOW_CODER)) (map_iter pipeline_coders)
        else None in
      try_from_coder (default GLOBAL_WINDOW_CODER (match named with Some id => Some id | None => fixed end))
        pipeline_coders
  end.

Definition ITERABLE_SIDE_INPUT_ACCESS : string := "beam:side_input:iterable:v1".
Definition MULTIMAP_SIDE_INPUT_ACCESS : string := "beam:side_input:multimap:v1".

Definition side_input_access_pattern (side : SideInputRef) : outcome string string :=
  let t := sir_pt side in
  match pt_spec (ptn_transform t) with
  | None => Err ("side-input consumer transform '" +:+ ptn_id t +:+ "' has no function spec")
  | Some spec =>
      match decode_payload (fs_payload spec) with
      | None => Err ("failed to decode side-input consumer payload for transform '" +:+ ptn_id t +:+ "'")
      | Some payload =>
          match mjoin (side_inputs payload !! sir_name side) with
          | Some access_pattern => Ok (fs_urn access_pattern)
          | None => Err ("side input '" +:+ sir_name side +:+ "' on transform '" +:+ ptn_id t
                         +:+ "' has no access pattern")
          end
      end
  end.

Definition multimap_coder_components (coder_id : string) (pipeline_coders : coders_map)
    : outcome string (string * string) :=
  match pipeline_coders !! coder_id with
  | None => Err ("multimap side-input coder '" +:+ coder_id +:+ "' was not found")
  | Some coder =>
      let urn := default coder_id (spec_urn coder) in
      if decide (urn = KV_CODER) then
        match component_coder_ids coder with
        | [key; value] => Ok (key, value)
        | components => Err ("multimap side-input KV coder '" +:+ coder_id +:+ "' has "
                             +:+ pretty (length components) +:+ " component coder(s), expected 2")
        end
      else Err ("multimap side input requires a KV coder, found '" +:+ urn +:+ "' for coder '" +:+ coder_id +:+ "'")
  end.

(** [StandardBeamCoders::from_urn(id, None, Some(pipeline_coders))]; on an acyclic map
    the depth is at most the number of coders. *)
Definition resolve_coder (pipeline_coders : coders_map) (id : string) : outcome string StandardBeamCoders :=
  map_err display (from_urn (2 + size pipeline_coders) id None (Some pipeline_coders)).

Definition side_input_materialization (side : SideInputRef) (pipeline_coders : coders_map)
    : outcome string SideInputMaterialization :=
  let coder_id := pc_coder_id (pcn_collection (sir_pcol side)) in
  access_pattern ← side_input_access_pattern side;
  if decide (access_pattern = ITERABLE_SIDE_INPUT_ACCESS) then
    element_coder ← resolve_coder pipeline_coders coder_id; Ok (IterableSide element_coder)
  else if decide (access_pattern = MULTIMAP_SIDE_INPUT_ACCESS) then
    '(key_coder_id, value_coder_id) ← multimap_coder_components coder_id pipeline_coders;
    key_coder ← resolve_coder pipeline_coders key_coder_id;
    value_coder ← resolve_coder pipeline_coders value_coder_id;
    Ok (MultimapSide key_coder value_coder)
  else Err ("unsupported side-input access pattern '" +:+ access_pattern +:+ "' on transform '"
            +:+ ptn_id (sir_pt side) +:+ "' side input '" +:+ sir_name side +:+ "'").

(** One round of the loop of [from_executable_graph]. *)
Definition register_side_input (comps : Components) (pipeline_coders : coders_map) (produced : gset string)
    (specs : side_input_registry) (side : SideInputRef) : outcome string side_input_registry :=
  let pcollection_id := pcn_id (sir_pcol side) in
  if decide (pcollection_id ∈ produced) then
    materialization ← side_input_materialization side pipeline_coders;
    window_coder ← resolve_window_coder comps pipeline_coders pcollection_id;
    let key := mkSideInputKey (ptn_id (sir_pt side)) (sir_name side) in
    match specs !! key with
    | Some existing =>
        Err ("duplicate side input reference for transform '" +:+ sik_transform_id key +:+ "' and side input '"
             +:+ sik_side_input_id key +:+ "' (PCollections '" +:+ sis_pcollection_id existing
             +:+ "' and '" +:+ pcollection_id +:+ "')")
    | None => Ok (<[key := mkSideInputSpec pcollection_id materialization window_coder]> specs)
    end
  else Err ("side input '" +:+ sir_name side +:+ "' on transform '" +:+ ptn_id (sir_pt side)
            +:+ "' references PCollection '" +:+ pcollection_id +:+ "' with no executable producer").

Fixpoint register_side_inputs (comps : Components) (pipeline_coders : coders_map) (produced : gset string)
    (specs : side_input_registry) (sides : list SideInputRef) : outcome string side_input_registry :=
  match sides with
  | [] => Ok specs
  | side :: sides =>
      specs ← register_side_input comps pipeline_coders produced specs side;
      register_side_inputs comps pipeline_coders produced specs sides
  end.

(** [SideInputRegistry::from_executable_graph]: the side inputs of all worker stages, on
    what the nodes of the graph produce. *)
Definition produced_pcollections (graph : ExecutableGraph) : gset string := ⋃ (node_output_pcols <$> eg_nodes graph).

Definition side_inputs_from_executable_graph (graph : ExecutableGraph) (pipeline_coders : coders_map) : outcome string side_input_registry :=
  register_side_inputs (eg_components graph) pipeline_coders (produced_pcollections graph) ∅
    ((eg_nodes graph ≫= worker_stages) ≫= stage_side_inputs).
End registry.

(** * Encoding a PCollection per window *)
Section encoding.
Context `{P : Profile} (display : CodersError → string).

(** What the elements of a stream look like: a coder that writes nothing still takes a
    byte. *)
Definition framed (coder : StandardBeamCoders) (value : BeamRecord) : outcome string bytes :=
  bs ← map_err display (encode coder value);
  Ok (if decide (bs = []) then [Byte.x00] else bs).

Definition append_encoded_element (coder : StandardBeamCoders) (value : BeamRecord) (encoded : bytes)
    : outcome string bytes := bs ← framed coder value; Ok (encoded ++ bs).

(** The loop over the windows of one value: the first time a window is seen, its entry
    is updated, and made if it is not there. *)
Fixpoint each_window (fresh : EncodedSideInputWindow)
    (update : EncodedSideInputWindow → outcome string EncodedSideInputWindow)
    (windows : list BeamWindow) (seen_windows : gset BeamWindow) (grouped : EncodedSideInputWindows)
    : outcome string EncodedSideInputWindows :=
  match windows with
  | [] => Ok grouped
  | window :: windows =>
      if decide (window ∈ seen_windows) then each_window fresh update windows seen_windows grouped
      else
        entry ← update (default fresh (grouped !! window));
        each_window fresh update windows ({[window]} ∪ seen_windows) (<[window := entry]> grouped)
  end.

Definition mixed : string := "side-input PCollection mixed iterable and multimap values".

Definition append_iterable (element_coder : StandardBeamCoders) (value : BeamRecord) (entry : EncodedSideInputWindow)
    : outcome string EncodedSideInputWindow :=
  match entry with
  | EncodedIterable encoded =>
      encoded ← append_encoded_element element_coder value encoded; Ok (EncodedIterable encoded)
  | EncodedMultimap _ _ => Err mixed
  end.

Fixpoint encode_iterable_from (grouped : EncodedSideInputWindows) (element_coder : StandardBeamCoders)
    (values : list WindowedValue) : outcome string EncodedSideInputWindows :=
  match values with
  | [] => Ok grouped
  | value :: values =>
      grouped ← each_window (EncodedIterable []) (append_iterable element_coder (wv_value value))
                  (wv_windows value) ∅ grouped;
      encode_iterable_from grouped element_coder values
  end.

Definition encode_iterable_windows (values : list WindowedValue) (element_coder : StandardBeamCoders) :=
  encode_iterable_from ∅ element_coder values.

Definition append_pair (key_coder value_coder : StandardBeamCoders) (key : PrimitiveValue) (value : BeamRecord)
    (entry : EncodedSideInputWindow) : outcome string EncodedSideInputWindow :=
  match entry with
  | EncodedMultimap keys values =>
      encoded_key ← append_encoded_element key_coder (PRIMITIVE key) [];
      let keys := if decide (values !! encoded_key = None) then keys ++ encoded_key else keys in
      encoded_values ← append_encoded_element value_coder value (default [] (values !! encoded_key));
      Ok (EncodedMultimap keys (<[encoded_key := encoded_values]> values))
  | EncodedIterable _ => Err mixed
  end.

Fixpoint encode_multimap_from (grouped : EncodedSideInputWindows) (key_coder value_coder : StandardBeamCoders)
    (values : list WindowedValue) : outcome string EncodedSideInputWindows :=
  match values with
  | [] => Ok grouped
  | value :: values =>
      match wv_value value with
      | KV key v =>
          grouped ← each_window (EncodedMultimap [] ∅) (append_pair key_coder value_coder key v)
                      (wv_windows value) ∅ grouped;
          encode_multimap_from grouped key_coder value_coder values
      | _ => Err "multimap side input requires KV values, found a different BeamRecord"
      end
  end.

Definition encode_multimap_windows (values : list WindowedValue) (key_coder value_coder : StandardBeamCoders) :=
  encode_multimap_from ∅ key_coder value_coder values.

(** ** Keys with their values

    Both loops run while bytes remain.  A round that consumes at least a byte leaves
    fewer, so a round per byte is enough; with a coder that consumes none the loop never
    ends. *)
Definition NEVER_RETURNS : string := "the loop consumes no bytes and never returns".

Fixpoint decode_values (fuel : nat) (value_coder : StandardBeamCoders) (data : bytes)
    : outcome string (list BeamRecord) :=
  match data, fuel with
  | [], _ => Ok []
  | _ :: _, O => Panic NEVER_RETURNS
  | _ :: _, S fuel =>
      '(value, rest) ← map_err (λ e, "failed to decode cached multimap value: " +:+ display e) (decode value_coder data);
      values ← decode_values fuel value_coder rest;
      Ok (value :: values)
  end.

Fixpoint key_values_loop (fuel : nat) (keys : bytes) (values_by_key : gmap bytes bytes)
    (key_coder value_coder : StandardBeamCoders) (encoded : bytes) : outcome string bytes :=
  match keys, fuel with
  | [], _ => Ok encoded
  | _ :: _, O => Panic NEVER_RETURNS
  | _ :: _, S fuel =>
      '(key, rest) ← map_err (λ e, "failed to decode cached multimap key: " +:+ display e) (decode key_coder keys);
      encoded_key ← append_encoded_element key_coder key [];
      match values_by_key !! encoded_key with
      | None => Err "cached multimap key has no corresponding encoded value list"
      | Some encoded_values =>
          values ← decode_values (length encoded_values) value_coder encoded_values;
          encoded ← append_encoded_element key_coder key encoded;
          encoded ← append_encoded_element (IterableCoder value_coder) (ITERABLE values) encoded;
          key_values_loop fuel rest values_by_key key_coder value_coder encoded
      end
  end.

Definition encode_multimap_key_values (encoded_keys : bytes) (values_by_key : gmap bytes bytes)
    (key_coder value_coder : StandardBeamCoders) : outcome string bytes :=
  key_values_loop (length encoded_keys) encoded_keys values_by_key key_coder value_coder [].

(** * The resolver *)

(** [FlareElementStore::scan_windowed_values]: the elements of a PCollection, as the
    store holds them when it is asked. *)
Context (scan_windowed_values : string → outcome string (list WindowedValue)).

Definition materialize_windows (spec : SideInputSpec) : outcome string EncodedSideInputWindows :=
  values ← scan_windowed_values (sis_pcollection_id spec);
  match sis_materialization spec with
  | IterableSide element_coder => encode_iterable_windows values element_coder
  | MultimapSide key_coder value_coder => encode_multimap_windows values key_coder value_coder
  end.

Definition cached_windows (key : SideInputKey) (spec : SideInputSpec) : st SideInputCache EncodedSideInputWindows := λ cache,
  match cache !! key with
  | Some windows => (cache, Ok windows)
  | None =>
      match materialize_windows spec with
      | Ok windows => (<[key := windows]> cache, Ok windows)
      | r => (cache, r)
      end
  end.

Definition decode_side_input_window (spec : SideInputSpec) (window : bytes) : outcome string BeamWindow :=
  map_err (λ e, "invalid side-input window: " +:+ display e) (decode_window (sis_window_coder spec) window).

Definition read_iterable (registry : side_input_registry) (address : IterableSideInputAddress) : st SideInputCache bytes :=
  let key := isa_key address in
  let not_iterable := "side input " +:+ describe key +:+ " is not iterable" in
  match registry !! key with
  | None => st_lift (Err ("unknown iterable side input " +:+ describe key))
  | Some spec =>
      match sis_materialization spec with
      | MultimapSide _ _ => st_lift (Err not_iterable)
      | IterableSide _ =>
          window ← st_lift (decode_side_input_window spec (isa_window address));
          windows ← cached_windows key spec;
          st_lift (match windows !! window with
                   | Some (EncodedIterable data) => Ok data
                   | Some (EncodedMultimap _ _) => Err not_iterable
                   | None => Ok []
                   end)
      end
  end.

Definition read_multimap (registry : side_input_registry) (address : MultimapSideInputAddress) : st SideInputCache bytes :=
  let key := msa_key address in
  match registry !! key with
  | None => st_lift (Err ("unknown multimap side input " +:+ describe key))
  | Some spec =>
      match sis_materialization spec with
      | IterableSide _ => st_lift (Err ("side input " +:+ describe key +:+ " is not a multimap"))
      | MultimapSide key_coder value_coder =>
          window ← st_lift (decode_side_input_window spec (msa_window address));
          windows ← cached_windows key spec;
          st_lift (match windows !! window with
                   | Some (EncodedMultimap keys values) =>
                       match msa_kind address with
                       | ReadKeys => Ok keys
                       | ReadValues key => Ok (default [] (values !! key))
                       | ReadKeysValues => encode_multimap_key_values keys values key_coder value_coder
                       end
                   | _ => Ok []
                   end)
      end
  end.
End encoding.
