(* ===== verification/SideInputSpec.v ===== *)
(** What a side-input read returns: the elements of the PCollection that are in the
    window, in the order of the store; for a multimap, by key in the order in which the
    keys first appear. *)
From S2P Require Import Prelude Bytes Varint Windows Coders CoderGraph WindowMerge Pipeline StageFuser StageFuserSpec SideInputs.
Set Warnings "-clear-no-such-hyp".
Local Open Scope string_scope.
Local Open Scope list_scope.

Section spec.
Context `{P : Profile} (display : CodersError → string).

(** The elements a window holds, in the order of the store. *)
Definition in_window (window : BeamWindow) (values : list WindowedValue) : list WindowedValue :=
  filter (λ v, window ∈ wv_windows v) values.

Lemma in_window_snoc w values v :
  in_window w (values ++ [v]) = in_window w values ++ (if decide (w ∈ wv_windows v) then [v] else []).
Proof.
  unfold in_window. by rewrite filter_app.
Qed.

Lemma in_window_Forall (Q : WindowedValue → Prop) w values : Forall Q values → Forall Q (in_window w values).
Proof. rewrite !Forall_forall. intros H v Hv. by apply H; apply list_elem_of_filter in Hv as [_ ?]. Qed.

Lemma traverse_snoc {E A B} (f : A → outcome E B) l x ys :
  traverse f l = Ok ys → traverse f (l ++ [x]) = y ← f x; Ok (ys ++ [y]).
Proof.
  revert ys. induction l as [|a l IH]; intros ys E1; cbn [traverse app] in *.
  - injection E1 as <-. by destruct (f x).
  - destruct (f a) as [b| |]; cbn [mbind outcome_bind] in *; try done. destruct (traverse f l) as [bs| |]; try done.
    injection E1 as <-. rewrite (IH bs eq_refl). by destruct (f x).
Qed.

(** ** One value *)

Lemma each_window_spec fresh update ws seen g g' :
  each_window fresh update ws seen g = Ok g' → ∀ w,
  if decide (w ∈ ws ∧ w ∉ seen)
  then ∃ e, update (default fresh (g !! w)) = Ok e ∧ g' !! w = Some e
  else g' !! w = g !! w.
Proof.
  revert seen g. induction ws as [|x ws IH]; intros seen g E w; cbn [each_window] in E.
  { injection E as <-. by rewrite decide_False by set_solver. }
  destruct (decide (x ∈ seen)) as [Hx|Hx].
  { specialize (IH _ _ E w). destruct (decide (w ∈ x :: ws ∧ w ∉ seen)) as [Hw|Hw].
    - rewrite decide_True in IH by (set_solver). done.
    - rewrite decide_False in IH by (set_solver). done. }
  inv_bind E. specialize (IH _ _ E w). destruct (decide (w = x)) as [->|Hne].
  - rewrite decide_False in IH by set_solver. rewrite decide_True by (split; [by left|done]).
    exists a. by rewrite IH, lookup_insert_eq.
  - rewrite lookup_insert_ne in IH by done.
    destruct (decide (w ∈ x :: ws ∧ w ∉ seen)) as [Hw|Hw].
    + rewrite decide_True in IH by set_solver. done.
    + rewrite decide_False in IH by set_solver. done.
Qed.

Lemma each_window_total fresh update ws seen g :
  (∀ w, w ∈ ws → w ∉ seen → ∃ e, update (default fresh (g !! w)) = Ok e) →
  ∃ g', each_window fresh update ws seen g = Ok g'.
Proof.
  revert seen g. induction ws as [|x ws IH]; intros seen g Hu; cbn [each_window]; [by eexists|].
  case_decide as Hx; [apply IH; intros w Hw; apply Hu; by right|].
  destruct (Hu x) as [e E]; [by left|done|]. rewrite E. cbn [mbind outcome_bind].
  apply IH. intros w Hw Hs. rewrite lookup_insert_ne by set_solver. apply Hu; [by right|set_solver].
Qed.

(** ** Iterables *)

(** What stands for the elements [values] of a window. *)
Definition iterable_holds (element_coder : StandardBeamCoders) (g : EncodedSideInputWindows) (values : list WindowedValue) : Prop :=
  ∀ w, ∃ encs, traverse (λ v, framed display element_coder (wv_value v)) (in_window w values) = Ok encs
               ∧ default (EncodedIterable []) (g !! w) = EncodedIterable (concat encs).

Lemma iterable_holds_step c g values v g' :
  iterable_holds c g values →
  each_window (EncodedIterable []) (append_iterable display c (wv_value v)) (wv_windows v) ∅ g = Ok g' →
  iterable_holds c g' (values ++ [v]).
Proof.
  intros Hg E w. pose proof (each_window_spec _ _ _ _ _ _ E w) as Hw. destruct (Hg w) as (encs & Et & Ed).
  rewrite in_window_snoc. destruct (decide (w ∈ wv_windows v)) as [Hin|Hin].
  - rewrite decide_True in Hw by set_solver. destruct Hw as (e & Ee & ->). rewrite Ed in Ee.
    cbn [append_iterable] in Ee. unfold append_encoded_element in Ee.
    rewrite (traverse_snoc _ _ _ _ Et). destruct (framed display c (wv_value v)) as [bs| |]; [|done..].
    injection Ee as <-. exists (encs ++ [bs]). split; [done|]. rewrite concat_app. simpl. by rewrite app_nil_r.
  - rewrite decide_False in Hw by set_solver. rewrite Hw, app_nil_r. by exists encs.
Qed.

Lemma encode_iterable_from_holds c g done values g' :
  iterable_holds c g done → encode_iterable_from display g c values = Ok g' → iterable_holds c g' (done ++ values).
Proof.
  revert g done. induction values as [|v values IH]; intros g done Hg E; cbn [encode_iterable_from] in E.
  { injection E as <-. by rewrite app_nil_r. }
  inv_bind E. change (v :: values) with ([v] ++ values). rewrite (assoc_L (++)). by eapply IH; [eapply iterable_holds_step|].
Qed.

Lemma encode_iterable_windows_holds c values g :
  encode_iterable_windows display values c = Ok g → iterable_holds c g values.
Proof.
  intros E. apply (encode_iterable_from_holds _ ∅ [] _ _) in E; [done|].
  intros w. exists []. by rewrite lookup_empty.
Qed.

(** Elements that can be encoded make a window of it. *)
Lemma encode_iterable_windows_total c values :
  Forall (λ v, is_ok (framed display c (wv_value v)) = true) values →
  ∃ g, encode_iterable_windows display values c = Ok g.
Proof.
  intros Hf. unfold encode_iterable_windows.
  assert (Hg : ∀ g done, iterable_holds c g done → ∃ g', encode_iterable_from display g c values = Ok g').
  { induction Hf as [|v values Hv _ IH]; intros g done Hg; cbn [encode_iterable_from]; [by eexists|].
    destruct (each_window_total (EncodedIterable []) (append_iterable display c (wv_value v)) (wv_windows v) ∅ g)
      as [g1 E1].
    { intros w _ _. destruct (Hg w) as (encs & _ & ->). cbn [append_iterable]. unfold append_encoded_element.
      destruct (framed display c (wv_value v)); [by eexists|done..]. }
    rewrite E1. cbn [mbind outcome_bind]. apply (IH g1 (done ++ [v])). by eapply iterable_holds_step. }
  apply (Hg ∅ []). intros w. exists []. by rewrite lookup_empty.
Qed.

(** ** Multimaps *)

Definition encode_pair_of (key_coder value_coder : StandardBeamCoders) (v : WindowedValue) : outcome string (bytes * bytes) :=
  match wv_value v with
  | KV key value =>
      k ← framed display key_coder (PRIMITIVE key); x ← framed display value_coder value; Ok (k, x)
  | _ => Err "not a pair"
  end.

(** The keys of encoded pairs, each where it first appears, and the values of a key. *)
Definition first_seen (pairs : list (bytes * bytes)) : list bytes := index_extend id [] pairs.*1.
Definition values_for (key : bytes) (pairs : list (bytes * bytes)) : list bytes := (filter (λ p, p.1 = key) pairs).*2.

Definition multimap_entry (keys : bytes) (vals : gmap bytes bytes) (pairs : list (bytes * bytes)) : Prop :=
  keys = concat (first_seen pairs)
  ∧ ∀ k, vals !! k = if decide (k ∈ pairs.*1) then Some (concat (values_for k pairs)) else None.

Definition multimap_holds (key_coder value_coder : StandardBeamCoders) (g : EncodedSideInputWindows)
    (values : list WindowedValue) : Prop :=
  ∀ w, ∃ pairs keys vals, traverse (encode_pair_of key_coder value_coder) (in_window w values) = Ok pairs
    ∧ default (EncodedMultimap [] ∅) (g !! w) = EncodedMultimap keys vals ∧ multimap_entry keys vals pairs.

Lemma first_seen_snoc pairs p :
  first_seen (pairs ++ [p]) = first_seen pairs ++ (if decide (p.1 ∈ pairs.*1) then [] else [p.1]).
Proof.
  unfold first_seen, index_extend. rewrite fmap_app, foldl_app. cbn [fmap list_fmap foldl].
  fold (index_extend (id : bytes → bytes) [] pairs.*1). unfold index_insert.
  assert (H : id p.1 ∈ id <$> index_extend (id : bytes → bytes) [] pairs.*1 ↔ p.1 ∈ pairs.*1).
  { rewrite index_extend_keys, list_fmap_id. unfold id. set_solver. }
  destruct (decide (p.1 ∈ pairs.*1)) as [Hp|Hp].
  - rewrite decide_True by (by apply H). by rewrite app_nil_r.
  - by rewrite decide_False by (by rewrite H).
Qed.

Lemma values_for_snoc k pairs p :
  values_for k (pairs ++ [p]) = values_for k pairs ++ (if decide (p.1 = k) then [p.2] else []).
Proof.
  unfold values_for. rewrite filter_app, fmap_app. f_equal. case_decide; [by rewrite filter_cons_True|by rewrite filter_cons_False].
Qed.

Lemma values_for_absent k pairs : k ∉ pairs.*1 → values_for k pairs = [].
Proof.
  intros Hk. unfold values_for. induction pairs as [|p pairs IH]; [done|]. rewrite fmap_cons, not_elem_of_cons in Hk.
  rewrite filter_cons_False by (intros <-; tauto). apply IH. tauto.
Qed.

Lemma append_pair_entry kc vc v key value keys vals pairs e :
  wv_value v = KV key value → multimap_entry keys vals pairs →
  append_pair display kc vc key value (EncodedMultimap keys vals) = Ok e →
  ∃ p keys' vals', encode_pair_of kc vc v = Ok p ∧ e = EncodedMultimap keys' vals' ∧ multimap_entry keys' vals' (pairs ++ [p]).
Proof.
  intros Ev [-> Hv] E. cbn [append_pair] in E. unfold append_encoded_element in E. unfold encode_pair_of. rewrite Ev.
  destruct (framed display kc (PRIMITIVE key)) as [k| |]; [|done..].
  destruct (framed display vc value) as [x| |]; [|done..]. cbn [mbind outcome_bind app] in E |- *. injection E as <-.
  exists (k, x). eexists _, _. split; [done|]. split; [done|]. split.
  - rewrite first_seen_snoc. cbn [fst]. rewrite concat_app. rewrite Hv. destruct (decide (k ∈ pairs.*1)) as [Hk|Hk].
    + rewrite decide_False by done. simpl. by rewrite app_nil_r.
    + rewrite decide_True by done. simpl. by rewrite app_nil_r.
  - intros k'. rewrite fmap_app, values_for_snoc. cbn [fst snd fmap list_fmap]. destruct (decide (k' = k)) as [->|Hne].
    + rewrite lookup_insert_eq, (decide_True (P := k = k)) by done. rewrite decide_True by set_solver.
      rewrite concat_app. simpl. rewrite app_nil_r. do 2 f_equal. rewrite Hv. case_decide as Hk; [done|].
      by rewrite values_for_absent.
    + rewrite lookup_insert_ne, Hv by done. rewrite (decide_False (P := k = k')), app_nil_r by done.
      destruct (decide (k' ∈ pairs.*1)) as [Hk|Hk]; [by rewrite decide_True by set_solver|].
      rewrite decide_False; [done|]. set_solver.
Qed.

Lemma multimap_holds_step kc vc g values v key value g' :
  wv_value v = KV key value → multimap_holds kc vc g values →
  each_window (EncodedMultimap [] ∅) (append_pair display kc vc key value) (wv_windows v) ∅ g = Ok g' →
  multimap_holds kc vc g' (values ++ [v]).
Proof.
  intros Ev Hg E w. pose proof (each_window_spec _ _ _ _ _ _ E w) as Hw. destruct (Hg w) as (pairs & keys & vals & Et & Ed & Hm).
  rewrite in_window_snoc. destruct (decide (w ∈ wv_windows v)) as [Hin|Hin].
  - rewrite decide_True in Hw by set_solver. destruct Hw as (e & Ee & ->). rewrite Ed in Ee.
    destruct (append_pair_entry _ _ v _ _ _ _ _ _ Ev Hm Ee) as (p & keys' & vals' & Ep & -> & Hm').
    exists (pairs ++ [p]), keys', vals'. rewrite (traverse_snoc _ _ _ _ Et), Ep. done.
  - rewrite decide_False in Hw by set_solver. rewrite Hw, app_nil_r. by exists pairs, keys, vals.
Qed.

Lemma multimap_holds_empty kc vc : multimap_holds kc vc ∅ [].
Proof. intros w. exists [], [], ∅. rewrite lookup_empty. split_and!; [done..|]. split; [done|]. intros k. by rewrite lookup_empty. Qed.

Lemma encode_multimap_from_holds kc vc g done values g' :
  multimap_holds kc vc g done → encode_multimap_from display g kc vc values = Ok g' → multimap_holds kc vc g' (done ++ values).
Proof.
  revert g done. induction values as [|v values IH]; intros g done Hg E; cbn [encode_multimap_from] in E.
  { injection E as <-. by rewrite app_nil_r. }
  destruct (wv_value v) as [| |key value| |] eqn:Ev; try done. inv_bind E. change (v :: values) with ([v] ++ values). rewrite (assoc_L (++)).
  by eapply IH; [eapply multimap_holds_step|].
Qed.

Lemma encode_multimap_windows_holds kc vc values g :
  encode_multimap_windows display values kc vc = Ok g → multimap_holds kc vc g values.
Proof. intros E. by apply (encode_multimap_from_holds _ _ ∅ [] _ _ (multimap_holds_empty kc vc)) in E. Qed.

Lemma encode_multimap_windows_total kc vc values :
  Forall (λ v, is_ok (encode_pair_of kc vc v) = true) values →
  ∃ g, encode_multimap_windows display values kc vc = Ok g.
Proof.
  intros Hf. unfold encode_multimap_windows.
  assert (Hg : ∀ g done, multimap_holds kc vc g done → ∃ g', encode_multimap_from display g kc vc values = Ok g').
  { induction Hf as [|v values Hv _ IH]; intros g done Hg; cbn [encode_multimap_from]; [by eexists|].
    unfold encode_pair_of in Hv. destruct (wv_value v) as [| |key value| |] eqn:Ev; try done.
    destruct (each_window_total (EncodedMultimap [] ∅) (append_pair display kc vc key value) (wv_windows v) ∅ g)
      as [g1 E1].
    { intros w _ _. destruct (Hg w) as (pairs & keys & vals & _ & -> & _). cbn [append_pair]. unfold append_encoded_element.
      destruct (framed display kc (PRIMITIVE key)) as [k| |]; [|done..].
      destruct (framed display vc value) as [x| |]; [|done..]. by eexists. }
    rewrite E1. cbn [mbind outcome_bind]. apply (IH g1 (done ++ [v])). by eapply multimap_holds_step. }
  apply (Hg ∅ []). apply multimap_holds_empty.
Qed.

(** ** Reading the encodings back *)

(** An element the wire can tell apart from the next: of the coder's type and at least
    a byte long. *)
Definition shows (coder : StandardBeamCoders) (value : BeamRecord) (enc : bytes) : Prop :=
  typed coder value ∧ encode coder value = Ok enc ∧ enc ≠ [].

Lemma shows_framed coder value enc : shows coder value enc → framed display coder value = Ok enc.
Proof. intros (_ & E & Hne). unfold framed. rewrite E. cbn [map_err mbind outcome_bind]. by rewrite decide_False. Qed.

Lemma shows_reads coder value enc : shows coder value enc → reads (decode_nested coder) enc value.
Proof.
  intros (Ht & E & _). apply typed_carries in Ht as (bs & E' & Hr). rewrite E in E'. by injection E' as <-.
Qed.

Lemma shows_stream coder values encs :
  Forall2 (shows coder) values encs → reads (read_n (length encs) (decode_nested coder)) (concat encs) values.
Proof.
  intros H. rewrite <- (Forall2_length _ _ _ H). apply reads_n.
  induction H as [|r enc rs encs Hr _ IH]; constructor; [by apply shows_reads|done].
Qed.

Lemma decode_values_shows fuel coder values encs :
  Forall2 (shows coder) values encs → (length (concat encs) ≤ fuel)%nat →
  decode_values display fuel coder (concat encs) = Ok values.
Proof.
  intros H. revert fuel. induction H as [|r enc rs encs Hr H IH]; intros fuel Hf; [by destruct fuel|].
  pose proof (shows_reads _ _ _ Hr (concat encs)) as Hd. destruct Hr as (_ & _ & Hne).
  cbn [concat] in *. rewrite length_app in Hf. destruct enc as [|b enc]; [done|]. cbn [length] in Hf.
  destruct fuel as [|fuel]; [lia|]. cbn [decode_values app]. unfold decode. cbn [app] in Hd. rewrite Hd.
  cbn [map_err mbind outcome_bind]. by rewrite IH by lia.
Qed.

(** What the values of a key look like beside it. *)
Definition entry_bytes (entry : bytes * list bytes) : bytes :=
  entry.1 ++ put_i32 (Z.of_nat (length entry.2)) ++ concat entry.2.

Definition entry_shows (kc vc : StandardBeamCoders) (vals : gmap bytes bytes) (entry : bytes * list bytes) : Prop :=
  (∃ key, shows kc key entry.1) ∧ (∃ values, Forall2 (shows vc) values entry.2)
  ∧ (Z.of_nat (length entry.2) < 2 ^ 31)%Z ∧ vals !! entry.1 = Some (concat entry.2).

Lemma shows_iterable vc values encs :
  Forall2 (shows vc) values encs → (Z.of_nat (length encs) < 2 ^ 31)%Z →
  framed display (IterableCoder vc) (ITERABLE values) = Ok (put_i32 (Z.of_nat (length encs)) ++ concat encs).
Proof.
  intros H Hl. unfold framed. cbn [encode]. unfold encode_iterable. rewrite (Forall2_length _ _ _ H).
  destruct (Z.ltb_spec (Z.of_nat (length encs)) (2 ^ 31)); [|lia].
  assert (Ht : traverse (encode vc) values = Ok encs).
  { clear -H. induction H as [|r enc rs encs Hr _ IH]; [done|]. cbn [traverse]. destruct Hr as (_ & -> & _).
    cbn [mbind outcome_bind]. by rewrite IH. }
  rewrite Ht. cbn [map_err mbind outcome_bind]. by rewrite decide_False.
Qed.

Lemma key_values_loop_shows fuel kc vc vals entries acc :
  Forall (entry_shows kc vc vals) entries → (length (concat entries.*1) ≤ fuel)%nat →
  key_values_loop display fuel (concat entries.*1) vals kc vc acc = Ok (acc ++ concat (entry_bytes <$> entries)).
Proof.
  intros H. revert fuel acc. induction H as [|[k encs] entries Hentry _ IH]; intros fuel acc Hf.
  { destruct fuel; cbn; by rewrite app_nil_r. }
  destruct Hentry as ([key Hk] & [rs Hrs] & Hl & Hv). cbn [fst snd] in *.
  pose proof (shows_reads _ _ _ Hk (concat entries.*1)) as Hd. pose proof (shows_framed _ _ _ Hk) as Hfr.
  destruct Hk as (_ & _ & Hne). rewrite fmap_cons in *. cbn [concat fst] in *. rewrite length_app in Hf.
  destruct k as [|b k]; [done|]. cbn [length] in Hf. destruct fuel as [|fuel]; [lia|].
  cbn [key_values_loop app]. unfold decode. cbn [app] in Hd. rewrite Hd. cbn [map_err mbind outcome_bind].
  unfold append_encoded_element. rewrite Hfr. cbn [mbind outcome_bind app]. rewrite Hv.
  rewrite (decode_values_shows _ _ _ _ Hrs) by lia. cbn [mbind outcome_bind].
  rewrite (shows_iterable _ _ _ Hrs Hl). cbn [mbind outcome_bind]. rewrite IH by lia. f_equal.
  cbn [concat fmap list_fmap]. unfold entry_bytes at 2. cbn [fst snd]. by rewrite <- !(assoc_L (++)).
Qed.

(** Void values never come to an end: each takes a byte in the stream and none of the
    decoder, so the loop that reads them consumes nothing. *)
Lemma void_values_never_decoded fuel data : data ≠ [] → decode_values display fuel VoidCoder data = Panic NEVER_RETURNS.
Proof.
  intros Hd. induction fuel as [|fuel IH]; destruct data as [|b data]; try done.
  cbn [decode_values]. change (decode VoidCoder (b :: data)) with (@Ok CodersError _ (PRIMITIVE PVoid, b :: data)).
  cbn [map_err mbind outcome_bind]. by rewrite IH.
Qed.

(** ** The pairs of a window *)

Definition pair_shows (kc vc : StandardBeamCoders) (v : WindowedValue) (p : bytes * bytes) : Prop :=
  ∃ key value, wv_value v = KV key value ∧ shows kc (PRIMITIVE key) p.1 ∧ shows vc value p.2.

Lemma pair_shows_encode kc vc v p : pair_shows kc vc v p → encode_pair_of kc vc v = Ok p.
Proof.
  intros (key & value & E & Hk & Hv). unfold encode_pair_of. rewrite E, (shows_framed _ _ _ Hk), (shows_framed _ _ _ Hv).
  by destruct p.
Qed.

Lemma pair_shows_traverse kc vc vs pairs :
  Forall2 (pair_shows kc vc) vs pairs → traverse (encode_pair_of kc vc) vs = Ok pairs.
Proof.
  induction 1 as [|v p vs pairs Hp _ IH]; [done|]. cbn [traverse]. by rewrite (pair_shows_encode _ _ _ _ Hp), IH.
Qed.

Lemma elem_of_first_seen k pairs : k ∈ first_seen pairs ↔ k ∈ pairs.*1.
Proof.
  pose proof (index_extend_keys (id : bytes → bytes) [] pairs.*1 k) as H. rewrite !list_fmap_id in H.
  unfold first_seen. rewrite H. set_solver.
Qed.

Lemma NoDup_first_seen pairs : NoDup (first_seen pairs).
Proof.
  pose proof (index_extend_NoDup (id : bytes → bytes) [] pairs.*1) as H. rewrite !list_fmap_id in H. apply H, NoDup_nil_2.
Qed.

Definition entries_of (pairs : list (bytes * bytes)) : list (bytes * list bytes) :=
  (λ k, (k, values_for k pairs)) <$> first_seen pairs.

(** What the three kinds of read return for the pairs of a window. *)
Definition multimap_answer (kind : MultimapReadKind) (pairs : list (bytes * bytes)) : bytes :=
  match kind with
  | ReadKeys => concat (first_seen pairs)
  | ReadValues key => concat (values_for key pairs)
  | ReadKeysValues => concat (entry_bytes <$> entries_of pairs)
  end.

Lemma values_for_shows kc vc vs pairs k :
  Forall2 (pair_shows kc vc) vs pairs → ∃ values, Forall2 (shows vc) values (values_for k pairs).
Proof.
  unfold values_for. induction 1 as [|v p vs pairs Hp _ [values IH]]; [by exists []|].
  destruct (decide (p.1 = k)) as [E|E].
  - rewrite filter_cons_True by done. destruct Hp as (? & value & _ & _ & Hv). exists (value :: values). by constructor.
  - rewrite filter_cons_False by done. by exists values.
Qed.

Lemma key_values_answer kc vc vs pairs keys vals :
  Forall2 (pair_shows kc vc) vs pairs → (Z.of_nat (length pairs) < 2 ^ 31)%Z → multimap_entry keys vals pairs →
  encode_multimap_key_values display keys vals kc vc = Ok (multimap_answer ReadKeysValues pairs).
Proof.
  intros Hp Hl [-> Hv]. unfold encode_multimap_key_values. cbn [multimap_answer].
  assert (Ek : first_seen pairs = (entries_of pairs).*1).
  { unfold entries_of. rewrite <- list_fmap_compose. symmetry. apply list_fmap_id. }
  rewrite Ek. rewrite key_values_loop_shows; [done| |done].
  apply Forall_forall. intros e He. unfold entries_of in He. apply list_elem_of_fmap in He as (k & -> & Hk).
  apply elem_of_first_seen in Hk. unfold entry_shows. cbn [fst snd]. split_and!.
  - apply list_elem_of_fmap in Hk as (p & -> & Hin). apply list_elem_of_lookup_1 in Hin as [i Hi].
    destruct (Forall2_lookup_r _ _ _ _ _ Hp Hi) as (v & _ & key & _ & _ & Hs & _). by exists (PRIMITIVE key).
  - by eapply values_for_shows.
  - unfold values_for. rewrite length_fmap. pose proof (length_filter (λ p : bytes * bytes, p.1 = k) pairs). lia.
  - rewrite Hv. by rewrite decide_True.
Qed.

(** * The resolver

    A cache that holds what the store says now. *)
Section resolver.
Context (scan : string → outcome string (list WindowedValue)) (registry : side_input_registry).

Definition snapshot (cache : SideInputCache) : Prop :=
  ∀ key spec g, registry !! key = Some spec → cache !! key = Some g → materialize_windows display scan spec = Ok g.

Lemma snapshot_empty : snapshot ∅.
Proof. intros key spec g _ E. by rewrite lookup_empty in E. Qed.

Lemma cached_windows_spec cache key spec :
  snapshot cache → registry !! key = Some spec →
  ∃ cache', cached_windows display scan key spec cache = (cache', materialize_windows display scan spec) ∧ snapshot cache'.
Proof.
  intros Hs Hr. unfold cached_windows. destruct (cache !! key) as [g|] eqn:Ec.
  { exists cache. by rewrite (Hs _ _ _ Hr Ec). }
  destruct (materialize_windows display scan spec) as [g|e|w] eqn:Em; [|by exists cache..].
  exists (<[key := g]> cache). split; [done|]. intros key' spec' g' Hr' Ec'.
  destruct (decide (key' = key)) as [->|Hne].
  - rewrite lookup_insert_eq in Ec'. simplify_eq. done.
  - rewrite lookup_insert_ne in Ec' by done. by eapply Hs.
Qed.

(** An iterable side input yields the elements in the window, in the order of the
    store, and a reader of the stream gets those elements back. *)
Lemma read_iterable_spec cache key window_bytes pcol coder wc w values :
  snapshot cache → registry !! key = Some (mkSideInputSpec pcol (IterableSide coder) wc) →
  scan pcol = Ok values → decode_window wc window_bytes = Ok w →
  Forall (λ v, ∃ enc, shows coder (wv_value v) enc) values →
  ∃ cache' encs, read_iterable display scan registry (mkIterableAddress key window_bytes) cache = (cache', Ok (concat encs))
    ∧ snapshot cache' ∧ Forall2 (shows coder) (wv_value <$> in_window w values) encs.
Proof.
  intros Hs Hr Hscan Hw Hv. unfold read_iterable. cbn [isa_key isa_window]. rewrite Hr. cbn [sis_materialization].
  unfold mbind at 1, st_bind at 1, st_lift at 1, decode_side_input_window. cbn [sis_window_coder]. rewrite Hw. cbn [map_err].
  destruct (cached_windows_spec cache key _ Hs Hr) as (cache' & Ec & Hs').
  destruct (encode_iterable_windows_total coder values) as [g Eg].
  { eapply Forall_impl; [exact Hv|]. intros v [enc Henc]. cbn beta. by rewrite (shows_framed _ _ _ Henc). }
  assert (Em : materialize_windows display scan (mkSideInputSpec pcol (IterableSide coder) wc) = Ok g).
  { unfold materialize_windows. cbn [sis_pcollection_id sis_materialization]. by rewrite Hscan. }
  unfold mbind, st_bind. rewrite Ec, Em.
  destruct (encode_iterable_windows_holds _ _ _ Eg w) as (encs & Et & Ed). exists cache', encs. split_and!; [|done|].
  - unfold st_lift. destruct (g !! w) as [[data|]|]; simpl in Ed; [|done|]; injection Ed as Ed; by rewrite <- Ed.
  - clear Ed. assert (Hv' : Forall (λ v, ∃ enc, shows coder (wv_value v) enc) (in_window w values)) by (by apply in_window_Forall).
    clear -Et Hv'. revert encs Et. induction Hv' as [|v vs [enc Henc] _ IH]; intros encs Et; cbn [traverse] in Et.
    { by injection Et as <-. }
    rewrite (shows_framed _ _ _ Henc) in Et. cbn [mbind outcome_bind] in Et. inv_bind Et. injection Et as <-.
    rewrite fmap_cons. constructor; [done|by apply IH].
Qed.

(** A multimap side input yields what its pairs in the window say. *)
Lemma read_multimap_spec cache key window_bytes kind pcol kc vc wc w values :
  snapshot cache → registry !! key = Some (mkSideInputSpec pcol (MultimapSide kc vc) wc) →
  scan pcol = Ok values → decode_window wc window_bytes = Ok w →
  Forall (λ v, ∃ p, pair_shows kc vc v p) values → (Z.of_nat (length values) < 2 ^ 31)%Z →
  ∃ cache' pairs, read_multimap display scan registry (mkMultimapAddress key window_bytes kind) cache
                  = (cache', Ok (multimap_answer kind pairs))
    ∧ snapshot cache' ∧ Forall2 (pair_shows kc vc) (in_window w values) pairs.
Proof.
  intros Hs Hr Hscan Hw Hv Hl. unfold read_multimap. cbn [msa_key msa_window msa_kind]. rewrite Hr. cbn [sis_materialization].
  unfold mbind at 1, st_bind at 1, st_lift at 1, decode_side_input_window. cbn [sis_window_coder]. rewrite Hw. cbn [map_err].
  destruct (cached_windows_spec cache key _ Hs Hr) as (cache' & Ec & Hs').
  destruct (encode_multimap_windows_total kc vc values) as [g Eg].
  { eapply Forall_impl; [exact Hv|]. intros v [p Hp]. cbn beta. by rewrite (pair_shows_encode _ _ _ _ Hp). }
  assert (Em : materialize_windows display scan (mkSideInputSpec pcol (MultimapSide kc vc) wc) = Ok g).
  { unfold materialize_windows. cbn [sis_pcollection_id sis_materialization]. by rewrite Hscan. }
  unfold mbind, st_bind. rewrite Ec, Em.
  destruct (encode_multimap_windows_holds _ _ _ _ Eg w) as (pairs & keys & vals & Et & Ed & Hm).
  assert (Hp : Forall2 (pair_shows kc vc) (in_window w values) pairs).
  { assert (Hv' : Forall (λ v, ∃ p, pair_shows kc vc v p) (in_window w values)) by (by apply in_window_Forall).
    clear -Et Hv'. revert pairs Et. induction Hv' as [|v vs [p Hp] _ IH]; intros pairs Et; cbn [traverse] in Et.
    { by injection Et as <-. }
    rewrite (pair_shows_encode _ _ _ _ Hp) in Et. cbn [mbind outcome_bind] in Et. inv_bind Et. injection Et as <-.
    constructor; [done|by apply IH]. }
  exists cache', pairs. split_and!; [|done..]. unfold st_lift. pose proof (Forall2_length _ _ _ Hp) as Hlen.
  assert (Hlp : (Z.of_nat (length pairs) < 2 ^ 31)%Z).
  { pose proof (length_filter (λ v, w ∈ wv_windows v) values). unfold in_window in Hlen. lia. }
  pose proof (key_values_answer _ _ _ _ _ _ Hp Hlp Hm) as Hkv. destruct Hm as [Hk Hvals].
  assert (Hread : ∀ k, default [] (vals !! k) = concat (values_for k pairs)).
  { intros k. rewrite Hvals. case_decide as Hin; [done|]. by rewrite values_for_absent. }
  destruct (g !! w) as [[data|keys' vals']|]; simpl in Ed; [done| |]; injection Ed as <- <-.
  - destruct kind as [|k|]; cbn [multimap_answer]; [by rewrite Hk|by rewrite Hread|by rewrite Hkv].
  - destruct kind as [|k|]; cbn [multimap_answer]; [by rewrite <- Hk|by rewrite <- Hread, lookup_empty|f_equal; exact Hkv].
Qed.
End resolver.
End spec.
