(* ===== verification/StateService.v ===== *)
(** The Fn State service of a job (engine/harness/state.rs): requests of the SDK worker
    for user state and for side inputs, their dispatch, and the driver that answers them
    one after the other. *)
From S2P Require Import Prelude Bytes Varint Windows Coders CoderGraph Kv UserState Multimap.
From S2P Require Import Pipeline StageFuser SideInputs.
Local Open Scope string_scope.
Local Open Scope list_scope.

(** * Messages *)

(** [state_key::Type]. *)
Inductive StateKeyType : Type :=
| KeyRunner (key : bytes)
| KeyMultimapSideInput (transform_id side_input_id : string) (window key : bytes)
| KeyBagUserState (transform_id user_state_id : string) (window key : bytes)
| KeyIterableSideInput (transform_id side_input_id : string) (window : bytes)
| KeyMultimapKeysSideInput (transform_id side_input_id : string) (window : bytes)
| KeyMultimapKeysValuesSideInput (transform_id side_input_id : string) (window : bytes)
| KeyMultimapKeysUserState (transform_id user_state_id : string) (window key : bytes)
| KeyMultimapEntriesUserState (transform_id user_state_id : string) (window key : bytes)
| KeyMultimapUserState (transform_id user_state_id : string) (window key map_key : bytes)
| KeyOrderedListUserState (transform_id user_state_id : string) (window key : bytes).

Inductive StateRequestBody : Type :=
| Get (continuation_token : bytes)
| Append (data : bytes)
| Clear.

Record StateRequest : Type := mkStateRequest {
  sr_id : string;
  sr_instruction_id : string;
  sr_state_key : option (option StateKeyType);
  sr_request : option StateRequestBody;
}.

Inductive StateResponseBody : Type :=
| GetResponse (continuation_token data : bytes)
| AppendResponse
| ClearResponse.

Record StateResponse : Type := mkStateResponse {
  resp_id : string;
  resp_error : string;
  resp_response : option StateResponseBody;
}.

(** * User states with map coders *)

Record UserStateKey : Type := mkUserStateKey { usk_transform_id : string; usk_user_state_id : string }.

#[export] Instance UserStateKey_eq_dec : EqDecision UserStateKey.
Proof. solve_decision. Defined.
#[export] Program Instance UserStateKey_countable : Countable UserStateKey :=
  inj_countable' (λ k, (usk_transform_id k, usk_user_state_id k)) (λ p, mkUserStateKey p.1 p.2) _.
Next Obligation. by intros []. Qed.

Record UserStateCoders : Type := mkUserStateCoders { usc_key : StandardBeamCoders; usc_value : StandardBeamCoders }.

(** [UserStateRegistry]. *)
Abbreviation user_state_registry := (gmap UserStateKey UserStateCoders).

Section user_states.
Context `{HashIter, PayloadDecoder} (display : CodersError → string) (pipeline_coders : coders_map).

Definition map_spec_coders (spec : option StateSpec) : option (string * string) :=
  match spec with
  | Some (MapSpec key_coder_id value_coder_id) | Some (MultimapSpec key_coder_id value_coder_id) =>
      Some (key_coder_id, value_coder_id)
  | _ => None
  end.

Fixpoint register_states (transform_id : string) (map_coders : user_state_registry)
    (state_specs : list (string * option StateSpec)) : outcome string user_state_registry :=
  match state_specs with
  | [] => Ok map_coders
  | (user_state_id, spec) :: state_specs =>
      match map_spec_coders spec with
      | Some (key_coder_id, value_coder_id) =>
          key ← resolve_coder display pipeline_coders key_coder_id;
          value ← resolve_coder display pipeline_coders value_coder_id;
          register_states transform_id
            (<[mkUserStateKey transform_id user_state_id := mkUserStateCoders key value]> map_coders) state_specs
      | None => register_states transform_id map_coders state_specs
      end
  end.

Fixpoint register_transforms (map_coders : user_state_registry) (ts : list (string * PTransform))
    : outcome string user_state_registry :=
  match ts with
  | [] => Ok map_coders
  | (transform_id, t) :: ts =>
      match pt_spec t with
      | None => register_transforms map_coders ts
      | Some spec =>
          if decide (fs_urn spec = PAR_DO_TRANSFORM) then
            match decode_payload (fs_payload spec) with
            | None => Err ("failed to decode ParDoPayload for transform '" +:+ transform_id +:+ "'")
            | Some payload =>
                map_coders ← register_states transform_id map_coders (map_iter (state_specs payload));
                register_transforms map_coders ts
            end
          else register_transforms map_coders ts
      end
  end.

(** [UserStateRegistry::from_components]. *)
Definition user_states_from_components (comps : Components) : outcome string user_state_registry :=
  register_transforms ∅ (map_iter (transforms comps)).
End user_states.

(** * Dispatch *)

Inductive StateTarget : Type :=
| TargetUserState (address : UserStateAddress)
| TargetIterableSideInput (address : IterableSideInputAddress)
| TargetMultimapSideInput (address : MultimapSideInputAddress).

(** [state_key_kind]. *)
Definition state_key_kind (key : StateKeyType) : string :=
  match key with
  | KeyRunner _ => "runner"
  | KeyMultimapSideInput _ _ _ _ => "multimap_side_input"
  | KeyBagUserState _ _ _ _ => "bag_user_state"
  | KeyIterableSideInput _ _ _ => "iterable_side_input"
  | KeyMultimapKeysSideInput _ _ _ => "multimap_keys_side_input"
  | KeyMultimapKeysValuesSideInput _ _ _ => "multimap_keys_values_side_input"
  | KeyMultimapKeysUserState _ _ _ _ => "multimap_keys_user_state"
  | KeyMultimapEntriesUserState _ _ _ _ => "multimap_entries_user_state"
  | KeyMultimapUserState _ _ _ _ _ => "multimap_user_state"
  | KeyOrderedListUserState _ _ _ _ => "ordered_list_user_state"
  end.

Definition state_target (key : StateKeyType) : outcome string StateTarget :=
  let side t s := mkSideInputKey t s in
  match key with
  | KeyBagUserState t s w k => Ok (TargetUserState (mkAddress Bag t s w k []))
  | KeyMultimapKeysUserState t s w k => Ok (TargetUserState (mkAddress MultimapKeys t s w k []))
  | KeyMultimapEntriesUserState t s w k => Ok (TargetUserState (mkAddress MultimapEntries t s w k []))
  | KeyMultimapUserState t s w k map_key => Ok (TargetUserState (mkAddress MultimapValues t s w k map_key))
  | KeyIterableSideInput t s w => Ok (TargetIterableSideInput (mkIterableAddress (side t s) w))
  | KeyMultimapKeysSideInput t s w => Ok (TargetMultimapSideInput (mkMultimapAddress (side t s) w ReadKeys))
  | KeyMultimapSideInput t s w k => Ok (TargetMultimapSideInput (mkMultimapAddress (side t s) w (ReadValues k)))
  | KeyMultimapKeysValuesSideInput t s w => Ok (TargetMultimapSideInput (mkMultimapAddress (side t s) w ReadKeysValues))
  | other =>
      Err ("unsupported state key type '" +:+ state_key_kind other +:+ "' (supported types: 'bag_user_state', 'multimap_keys_user_state', 'multimap_entries_user_state', 'multimap_user_state', 'iterable_side_input', 'multimap_keys_side_input', 'multimap_side_input', and 'multimap_keys_values_side_input')")
  end.

(** A handler's result: a response, or the request id and an error message. *)
Abbreviation handled := (outcome (string * string) StateResponse).

Definition success (id : string) (body : StateResponseBody) : StateResponse := mkStateResponse id "" (Some body).
Definition got (id : string) (data : bytes) : StateResponse := success id (GetResponse [] data).

(** [match call { Ok(a) => Ok(response), Err(e) => Err((id, format!("{what}: {e}"))) }]. *)
Definition respond {B A} (id what : string) (response : A → StateResponse) (r : B * outcome string A) : B * handled :=
  let '(b, r) := r in
  (b, match r with
      | Ok a => Ok (response a)
      | Err e => Err (id, what +:+ ": " +:+ e)
      | Panic w => Panic w
      end).

Section service.
Context {S : Type} `{KvStore S, P : Profile} (iteration_order : gset bytes → list bytes) (display : CodersError → string).
Context (user_states : option user_state_registry) (side_inputs : option side_input_registry).
Context (scan_windowed_values : string → outcome string (list WindowedValue)).

Definition map_coders (a : UserStateAddress) : option UserStateCoders :=
  registry ← user_states; registry !! mkUserStateKey (addr_transform_id a) (addr_user_state_id a).

(** [split_encoded_values(..).unwrap_or_else(..)]: data that does not split is one value. *)
Definition split_or_whole (coder : StandardBeamCoders) (data : bytes) : outcome string (list bytes) :=
  match split_encoded_values display coder data with
  | Ok vs => Ok vs
  | Err _ => Ok [data]
  | Panic w => Panic w
  end.

Definition no_body : string := "state request has no request body".
Definition no_continuation : string := "continuation tokens are not supported".

(** An append to map state: the coders of the state, the split, the call. *)
Definition append_split (id missing : string) (coder_of : UserStateCoders → StandardBeamCoders) (a : UserStateAddress)
    (data : bytes) (append : list bytes → st (StateBackend S) unit) (b : StateBackend S) : StateBackend S * handled :=
  match map_coders a with
  | None => (b, Err (id, missing))
  | Some coders =>
      respond id "append state failed" (λ _, success id AppendResponse)
        ((vs ← st_lift (split_or_whole (coder_of coders) data); append vs) b)
  end.

Definition handle_user_state_request (id : string) (a : UserStateAddress) (body : option StateRequestBody)
    (b : StateBackend S) : StateBackend S * handled :=
  match body with
  | Some (Get continuation_token) =>
      if decide (continuation_token = [])
      then respond id "get state failed" (got id) (user_state_get iteration_order a b)
      else (b, Err (id, no_continuation))
  | Some (Append data) =>
      match addr_kind a with
      | Bag => respond id "append state failed" (λ _, success id AppendResponse) (user_state_append iteration_order a data b)
      | MultimapKeys =>
          append_split id "multimap state key coder is not registered" usc_key a data
            (append_multimap_keys iteration_order a) b
      | MultimapValues =>
          append_split id "multimap state value coder is not registered" usc_value a data
            (append_multimap_values iteration_order a) b
      | MultimapEntries => (b, Err (id, "append state failed: append is not supported for multimap entries state"))
      end
  | Some Clear => respond id "clear state failed" (λ _, success id ClearResponse) (user_state_clear iteration_order a b)
  | None => (b, Err (id, no_body))
  end.

(** The handlers of the two kinds of side input, which differ in the read and in the
    name that goes into the messages. *)
Definition handle_side_input_request (kind : string) (read : side_input_registry → st SideInputCache bytes)
    (id : string) (body : option StateRequestBody) (cache : SideInputCache) : SideInputCache * handled :=
  match body with
  | Some (Get continuation_token) =>
      if decide (continuation_token = []) then
        match side_inputs with
        | None => (cache, Err (id, kind +:+ " side-input resolver is not initialized"))
        | Some registry => respond id ("get " +:+ kind +:+ " side input failed") (got id) (read registry cache)
        end
      else (cache, Err (id, no_continuation))
  | Some (Append _) => (cache, Err (id, "append is not supported for " +:+ kind +:+ " side inputs"))
  | Some Clear => (cache, Err (id, "clear is not supported for " +:+ kind +:+ " side inputs"))
  | None => (cache, Err (id, no_body))
  end.

Definition handle_iterable_side_input_request (id : string) (a : IterableSideInputAddress) :=
  handle_side_input_request "iterable" (λ registry, read_iterable display scan_windowed_values registry a) id.
Definition handle_multimap_side_input_request (id : string) (a : MultimapSideInputAddress) :=
  handle_side_input_request "multimap" (λ registry, read_multimap display scan_windowed_values registry a) id.

(** The state of the service: the state backend and the cache of the side-input
    resolver. *)
Record ServiceState : Type := mkService { sv_backend : StateBackend S; sv_cache : SideInputCache }.

Definition on_backend {A} (f : StateBackend S → StateBackend S * A) (s : ServiceState) : ServiceState * A :=
  let '(b, r) := f (sv_backend s) in (mkService b (sv_cache s), r).
Definition on_cache {A} (f : SideInputCache → SideInputCache * A) (s : ServiceState) : ServiceState * A :=
  let '(c, r) := f (sv_cache s) in (mkService (sv_backend s) c, r).

Definition handle_state_request_with_registries (request : StateRequest) (s : ServiceState) : ServiceState * handled :=
  let id := sr_id request in
  match mjoin (sr_state_key request) with
  | None => (s, Err (id, "state request has no state key"))
  | Some key =>
      match state_target key with
      | Err message => (s, Err (id, message))
      | Panic w => (s, Panic w)
      | Ok (TargetUserState a) => on_backend (handle_user_state_request id a (sr_request request)) s
      | Ok (TargetIterableSideInput a) => on_cache (handle_iterable_side_input_request id a (sr_request request)) s
      | Ok (TargetMultimapSideInput a) => on_cache (handle_multimap_side_input_request id a (sr_request request)) s
      end
  end.

(** * The driver *)

(** What is sent for a result; a panic ends the task. *)
Definition response_of (r : handled) : option StateResponse :=
  match r with
  | Ok response => Some response
  | Err (id, error) => Some (mkStateResponse id error None)
  | Panic _ => None
  end.

Definition flush_state_on_exit (s : ServiceState) : ServiceState :=
  mkService (flush iteration_order (sv_backend s)).1 (sv_cache s).

Inductive DriverEnd : Type := StreamEnded | WorkerGone | TaskPanicked.

(** [drive_state_requests]: the requests that arrive before the stream ends, each with
    whether its response could be sent.  The responses that were sent, and how the
    driver came to its end. *)
Fixpoint drive_state_requests (requests : list (StateRequest * bool)) (s : ServiceState)
    : ServiceState * list StateResponse * DriverEnd :=
  match requests with
  | [] => (flush_state_on_exit s, [], StreamEnded)
  | (request, delivered) :: requests =>
      let '(s, r) := handle_state_request_with_registries request s in
      match response_of r with
      | None => (s, [], TaskPanicked)
      | Some response =>
          if delivered : bool then
            let '(s, responses, e) := drive_state_requests requests s in (s, response :: responses, e)
          else (flush_state_on_exit s, [], WorkerGone)
      end
  end.
End service.
Arguments mkService {S} _ _.
Arguments sv_backend {S} _.
Arguments sv_cache {S} _.
