(* ===== verification/StateServiceSpec.v ===== *)
(** The state service refines a service over a finite map without caches: every answer
    is the answer of that service, every effect happens entirely or not at all, and the
    responses are those of the requests, in order. *)
From S2P Require Import Prelude Bytes Varint Windows Coders CoderGraph Kv UserState Multimap.
From S2P Require Import Pipeline StageFuser SideInputs SideInputSpec StateService.
Set Warnings "-clear-no-such-hyp".
Local Open Scope string_scope.
Local Open Scope list_scope.

(** * The service over a map *)

Definition cell_entries (m : gmap bytes bytes) (k : bytes) : outcome string (list Entry) :=
  match m !! k with Some data => decode_entries data | None => Ok [] end.

Definition entries_get (a : UserStateAddress) (entries : list Entry) : outcome string bytes :=
  match addr_kind a with
  | MultimapKeys => Ok (concat (entry_key <$> entries))
  | MultimapValues => Ok (concat (values_of entries (addr_map_key a)))
  | _ => views ← traverse entry_view entries; Ok (concat views)
  end.

Definition map_get (a : UserStateAddress) (m : gmap bytes bytes) : outcome string bytes :=
  match addr_kind a with
  | Bag => Ok (default [] (m !! address_key a))
  | _ => entries ← cell_entries m (address_key a); entries_get a entries
  end.

(** A change of the entries of the cell. *)
Definition map_update (a : UserStateAddress) (f : list Entry → list Entry) (m : gmap bytes bytes)
    : outcome string (gmap bytes bytes) :=
  entries ← cell_entries m (address_key a);
  Ok (<[address_key a := encode_entries (f entries)]> m).

Definition map_clear (a : UserStateAddress) (m : gmap bytes bytes) : outcome string (gmap bytes bytes) :=
  match addr_kind a with
  | MultimapValues => map_update a (λ es, remove_key es (addr_map_key a)) m
  | _ => Ok (delete (address_key a) m)
  end.

(** An operation of the backend that reads, and one that writes. *)
Section refines.
Context {S : Type} `{KvLaws S} (iteration_order : gset bytes → list bytes)
  (Horder : ∀ X, iteration_order X ≡ₚ elements X).

(** A failure that is one of the store. *)
Definition store_failure {A} (r : outcome string A) : Prop :=
  (∃ (s : S) k, same_failure (kv_get s k) r) ∨ ∃ (s : S) ws, same_failure (kv_apply s ws).2 r.

Definition refines_read {A} (op : st (StateBackend S) A) (f : gmap bytes bytes → outcome string A) : Prop :=
  ∀ b m b' r, represents b m → op b = (b', r) → represents b' m ∧ (f m = r ∨ store_failure r).

Definition refines_write (op : st (StateBackend S) unit) (f : gmap bytes bytes → outcome string (gmap bytes bytes)) : Prop :=
  ∀ b m b' r, represents b m → op b = (b', r) →
  match r with
  | Ok _ => ∃ m', f m = Ok m' ∧ represents b' m'
  | _ => same_failure (f m) r ∧ represents b' m
         ∨ store_failure r ∧ (represents b' m ∨ ∃ m', f m = Ok m' ∧ represents b' m')
  end.

Lemma store_failure_as {A B} (r : outcome string A) (r' : outcome string B) : store_failure r → same_failure r r' → store_failure r'.
Proof. intros [(s & k & Hf)|(s & ws & Hf)] Hs; [left|right]; do 2 eexists; by eapply same_failure_trans. Qed.

Lemma store_failure_fails {A} (r : outcome string A) : store_failure r → is_ok r = false.
Proof. by intros [(s & k & Hf)|(s & ws & Hf)]; apply same_failure_fails in Hf. Qed.

(** A backend fails only where its store does. *)
Lemma backend_get_failure k b b' r : backend_get iteration_order k b = (b', r) → is_ok r = false → store_failure r.
Proof.
  unfold backend_get. destruct (values (cache b) !! k); [by intros [= <- <-]|].
  destruct (kv_get (store b) k) eqn:E; intros [= <- <-] Hf; [done|left; exists (store b), k; by rewrite E..].
Qed.

Lemma flush_failure b b' r : flush iteration_order b = (b', r) → is_ok r = false →
  ∃ ws, kv_apply (store b) ws = (store b', r).
Proof.
  unfold flush. case_decide; [by intros [= <- <-]|]. set (ws := (λ key, (key, _)) <$> _).
  destruct (kv_apply (store b) ws) as [s' [[]|e|w]] eqn:E; intros [= <- <-] Hf; [done|by exists ws..].
Qed.

Lemma store_cell_failure k v b b' r : store_cell iteration_order k v b = (b', r) → is_ok r = false → store_failure r.
Proof.
  unfold store_cell, maybe_flush. destruct (_ <=? _)%Z; [|by intros [= <- <-]]. intros E Hf.
  destruct (flush_failure _ _ _ E Hf) as [ws Ea]. right. do 2 eexists. rewrite Ea. by apply same_failure_refl.
Qed.

Lemma refines_read_lift {A B} (op : st (StateBackend S) A) f (g : A → outcome string B) :
  refines_read op f → refines_read (a ← op; st_lift (g a)) (λ m, a ← f m; g a).
Proof.
  intros Hop b m b' r Hr E. unfold mbind, st_bind, st_lift in E. destruct (op b) as [b1 r1] eqn:E1.
  destruct (Hop _ _ _ _ Hr E1) as [Hr1 Hf]. destruct r1 as [a|e|w]; injection E as <- <-; (split; [done|]).
  - destruct Hf as [->|Hf%store_failure_fails]; [by left|done].
  - destruct Hf as [->|Hf]; [by left|right; by eapply store_failure_as].
  - destruct Hf as [->|Hf]; [by left|right; by eapply store_failure_as].
Qed.

Lemma refines_read_write {A} (op : st (StateBackend S) A) f (upd : A → st (StateBackend S) unit) g :
  refines_read op f → (∀ a, refines_write (upd a) (g a)) → refines_write (a ← op; upd a) (λ m, a ← f m; g a m).
Proof.
  intros Hop Hupd b m b' r Hr E. unfold mbind, st_bind in E. destruct (op b) as [b1 r1] eqn:E1.
  destruct (Hop _ _ _ _ Hr E1) as [Hr1 Hf]. destruct r1 as [a|e|w].
  - destruct Hf as [Hf|Hf%store_failure_fails]; [|done]. rewrite Hf. exact (Hupd a _ _ _ _ Hr1 E).
  - injection E as <- <-. destruct Hf as [->|Hf]; [by left|right; split; [by eapply store_failure_as|by left]].
  - injection E as <- <-. destruct Hf as [->|Hf]; [by left|right; split; [by eapply store_failure_as|by left]].
Qed.

Lemma refines_lift_write {A} (c : outcome string A) (upd : A → st (StateBackend S) unit) g :
  (∀ a, c = Ok a → refines_write (upd a) (g a)) → refines_write (a ← st_lift c; upd a) (λ m, a ← c; g a m).
Proof.
  intros Hupd b m b' r Hr E. unfold mbind, st_bind, st_lift in E. destruct c as [a|e|w].
  - by apply (Hupd a eq_refl b m b' r).
  - injection E as <- <-. by left.
  - injection E as <- <-. by left.
Qed.

Lemma refines_backend_get k : refines_read (backend_get iteration_order k) (λ m, Ok (m !! k)).
Proof.
  intros b m b' r Hr E. destruct (backend_get_refines iteration_order Horder _ _ _ _ _ Hr E) as [Hr' Hv].
  split; [done|]. destruct r as [v|e|w]; [left; by rewrite (Hv v eq_refl)|right; by eapply backend_get_failure..].
Qed.

Lemma refines_store_cell k v : refines_write (store_cell iteration_order k v) (λ m, Ok (set_cell m k v)).
Proof.
  intros b m b' r Hr E. pose proof (store_cell_refines iteration_order Horder _ _ _ _ _ _ Hr E) as Hr'.
  destruct r as [[]|e|w]; [by eexists|right; split; [by eapply store_cell_failure|right; by eexists]..].
Qed.

Lemma refines_read_entries k : refines_read (read iteration_order k) (λ m, cell_entries m k).
Proof.
  intros b m b' r Hr E.
  assert (Heq : read iteration_order k b
    = (cell ← backend_get iteration_order k; st_lift (match cell with Some data => decode_entries data | None => Ok [] end)) b).
  { unfold read, mbind, st_bind. by destruct (backend_get iteration_order k b) as [? [[]| |]]. }
  rewrite Heq in E.
  by apply (refines_read_lift _ _ (λ cell, match cell with Some data => decode_entries data | None => Ok [] end)
    (refines_backend_get k) b m b' r).
Qed.

(** ** User state *)

Lemma refines_user_get a : refines_read (user_state_get iteration_order a) (map_get a).
Proof.
  unfold user_state_get, map_get, entries_get. destruct (addr_kind a).
  - intros b m b' r Hr E. unfold bag_get in E.
    by apply (refines_read_lift _ _ (λ v : option bytes, Ok (default [] v)) (refines_backend_get (address_key a)) b m b' r).
  - intros b m b' r Hr E.
    by apply (refines_read_lift _ _ (λ es, Ok (concat (entry_key <$> es))) (refines_read_entries (address_key a)) b m b' r).
  - intros b m b' r Hr E. unfold multimap_entries in E.
    refine (refines_read_lift _ _ (λ es, views ← traverse entry_view es; Ok (concat views))
      (refines_read_entries (address_key a)) b m b' r Hr _).
    rewrite <- E. unfold mbind at 1 3, st_bind at 1 2. destruct (read iteration_order (address_key a) b) as [b1 [es|e|w]]; [|done..].
    unfold mbind, st_bind, st_lift, mret, st_ret. by destruct (traverse entry_view es).
  - intros b m b' r Hr E. unfold multimap_values in E.
    refine (refines_read_lift _ _ (λ es, Ok (concat (values_of es (addr_map_key a))))
      (refines_read_entries (address_key a)) b m b' r Hr _).
    rewrite <- E. unfold mbind, st_bind, st_lift. destruct (read iteration_order (address_key a) b) as [b1 [es|e|w]]; [|done..].
    unfold values_of, mret, st_ret. by destruct (find_entry es (addr_map_key a)).
Qed.

Lemma refines_update a f :
  refines_write (es ← read iteration_order (address_key a); write iteration_order (address_key a) (f es)) (map_update a f).
Proof.
  unfold map_update. apply (refines_read_write _ (λ m, cell_entries m (address_key a)) _
    (λ es m, Ok (<[address_key a := encode_entries (f es)]> m))); [apply refines_read_entries|].
  intros es. apply (refines_store_cell (address_key a) (Some (encode_entries (f es)))).
Qed.

Lemma refines_user_clear a : refines_write (user_state_clear iteration_order a) (map_clear a).
Proof.
  unfold user_state_clear, map_clear. destruct (addr_kind a).
  1-3: apply (refines_store_cell (address_key a) None).
  apply (refines_update a (λ es, remove_key es (addr_map_key a))).
Qed.

Lemma refines_bag_append k data :
  refines_write (bag_append iteration_order k data) (λ m, Ok (<[k := default [] (m !! k) ++ data]> m)).
Proof.
  unfold bag_append, read_modify_write.
  apply (refines_read_write _ (λ m, Ok (m !! k)) (λ current, store_cell iteration_order k (Some (default [] current ++ data)))
    (λ v m, Ok (<[k := default [] v ++ data]> m)) (refines_backend_get k)).
  intros v. apply (refines_store_cell k (Some (default [] v ++ data))).
Qed.
End refines.

(** * Requests *)

(** [map_err(|e| (id, format!("{what}: {e}")))]. *)
Definition reply {A} (id what : string) (r : outcome string A) : outcome (string * string) A :=
  map_err (λ e, (id, what +:+ ": " +:+ e)) r.

Section reference.
Context `{P : Profile} (display : CodersError → string).
Context (user_states : option user_state_registry) (side_inputs : option side_input_registry).
Context (scan : string → outcome string (list WindowedValue)).
(** The error answers that are the store's doing. *)
Context (store_error : string → Prop).

Definition map_append (id : string) (a : UserStateAddress) (data : bytes) (m : gmap bytes bytes)
    : outcome (string * string) (gmap bytes bytes) :=
  let split missing coder_of add :=
    match map_coders user_states a with
    | None => Err (id, missing)
    | Some coders =>
        reply id "append state failed" (vs ← split_or_whole display (coder_of coders) data; map_update a (λ es, add es vs) m)
    end in
  match addr_kind a with
  | Bag => Ok (<[address_key a := default [] (m !! address_key a) ++ data]> m)
  | MultimapKeys => split "multimap state key coder is not registered" usc_key add_keys
  | MultimapValues =>
      split "multimap state value coder is not registered" usc_value (λ es vs, add_values es (addr_map_key a) vs)
  | MultimapEntries => Err (id, "append state failed: append is not supported for multimap entries state")
  end.

Definition map_user_state (id : string) (a : UserStateAddress) (body : option StateRequestBody) (m : gmap bytes bytes)
    : outcome (string * string) (gmap bytes bytes * StateResponse) :=
  match body with
  | Some (Get continuation_token) =>
      if decide (continuation_token = [])
      then data ← reply id "get state failed" (map_get a m); Ok (m, got id data)
      else Err (id, no_continuation)
  | Some (Append data) => m ← map_append id a data m; Ok (m, success id AppendResponse)
  | Some Clear => m ← reply id "clear state failed" (map_clear a m); Ok (m, success id ClearResponse)
  | None => Err (id, no_body)
  end.

(** The answer to a request on a map of cells, side inputs being read afresh. *)
Definition map_request (request : StateRequest) (m : gmap bytes bytes)
    : outcome (string * string) (gmap bytes bytes * StateResponse) :=
  let id := sr_id request in
  let side (r : SideInputCache * handled) := response ← r.2; Ok (m, response) in
  match mjoin (sr_state_key request) with
  | None => Err (id, "state request has no state key")
  | Some key =>
      match state_target key with
      | Err message => Err (id, message)
      | Panic w => Panic w
      | Ok (TargetUserState a) => map_user_state id a (sr_request request) m
      | Ok (TargetIterableSideInput a) =>
          side (handle_iterable_side_input_request display side_inputs scan id a (sr_request request) ∅)
      | Ok (TargetMultimapSideInput a) =>
          side (handle_multimap_side_input_request display side_inputs scan id a (sr_request request) ∅)
      end
  end.

(** What a list of requests is answered from the map [m]: a request is answered as on the
    map, with the same response or the same error; or it failed in the store, and then it has
    had its effect or none. *)
Inductive served : gmap bytes bytes → list StateRequest → list StateResponse → gmap bytes bytes → Prop :=
| served_nil m : served m [] [] m
| served_ok m m1 m' request requests response responses :
    map_request request m = Ok (m1, response) →
    served m1 requests responses m' → served m (request :: requests) (response :: responses) m'
| served_error m m' request requests error responses :
    map_request request m = Err (sr_id request, error) →
    served m requests responses m' →
    served m (request :: requests) (mkStateResponse (sr_id request) error None :: responses) m'
| served_failed m m1 m' request requests error responses :
    store_error error →
    m1 = m ∨ (∃ response, map_request request m = Ok (m1, response)) →
    served m1 requests responses m' →
    served m (request :: requests) (mkStateResponse (sr_id request) error None :: responses) m'.

Lemma map_user_state_id id a body m m' response : map_user_state id a body m = Ok (m', response) → resp_id response = id.
Proof.
  unfold map_user_state. destruct body as [[t|data|]|]; [case_decide|..]; try done; intros E; inv_bind E; by injection E as <- <-.
Qed.

Lemma side_input_id kind read id body cache cache' response :
  handle_side_input_request side_inputs kind read id body cache = (cache', Ok response) → resp_id response = id.
Proof.
  unfold handle_side_input_request, respond. destruct body as [[t|data|]|]; [case_decide; [|done]|done..].
  destruct side_inputs as [registry|]; [|done]. destruct (read registry cache) as [c [x|e|w]]; intros [= <- <-]; done.
Qed.

Lemma map_request_id request m m' response : map_request request m = Ok (m', response) → resp_id response = sr_id request.
Proof.
  unfold map_request. destruct (mjoin (sr_state_key request)) as [key|]; [|done].
  destruct (state_target key) as [[a|a|a]| |]; try done; [apply map_user_state_id|..].
  all: match goal with |- context [?f display side_inputs scan ?i ?a ?b ∅] =>
    destruct (f display side_inputs scan i a b ∅) as [c r] eqn:E end.
  all: destruct r as [x| |]; intros [= <- <-]; by eapply side_input_id.
Qed.

(** The responses carry the ids of the requests, in order. *)
Lemma served_ids m requests responses m' :
  served m requests responses m' → resp_id <$> responses = sr_id <$> requests.
Proof.
  induction 1 as [|m m1 m' rq rqs rp rps E _ IH|m m' rq rqs e rps _ _ IH|m m1 m' rq rqs e rps _ _ _ IH]; [done|..]; rewrite !fmap_cons, IH; [|done..].
  by rewrite (map_request_id _ _ _ _ E).
Qed.
End reference.

(** * The handlers refine the reference *)
Section handlers.
Context {S : Type} `{KvLaws S, P : Profile} (iteration_order : gset bytes → list bytes)
  (Horder : ∀ X, iteration_order X ≡ₚ elements X) (display : CodersError → string).
Context (user_states : option user_state_registry) (side_inputs : option side_input_registry).
Context (scan : string → outcome string (list WindowedValue)).

(** The error message of a user-state request that failed in the store. *)
Definition store_error (error : string) : Prop :=
  ∃ what e, what ∈ ["get state failed"; "append state failed"; "clear state failed"]
    ∧ error = what +:+ ": " +:+ e ∧ store_failure (S:=S) (A:=()) (Err e).

(** The backend has had the effect of the request, or none. *)
Definition effect_or_none (m : gmap bytes bytes) (reference : outcome (string * string) (gmap bytes bytes * StateResponse))
    (b' : StateBackend S) : Prop :=
  represents b' m ∨ ∃ m' response, reference = Ok (m', response) ∧ represents b' m'.

(** [r] and [b'] are what the reference makes of the request, or a failure of the store
    before or after its effect. *)
Definition refines_result (id : string) (m : gmap bytes bytes) (reference : outcome (string * string) (gmap bytes bytes * StateResponse))
    (b' : StateBackend S) (r : handled) : Prop :=
  match r with
  | Ok response => ∃ m', reference = Ok (m', response) ∧ represents b' m'
  | Err (id', error) => id' = id ∧ (reference = Err (id, error) ∧ represents b' m ∨ store_error error ∧ effect_or_none m reference b')
  | Panic w => reference = Panic w ∧ represents b' m ∨ store_failure (S:=S) (A:=()) (Panic w) ∧ effect_or_none m reference b'
  end.

Lemma respond_read {A} id what response (op : st (StateBackend S) A) f b m b' r :
  what ∈ ["get state failed"; "append state failed"; "clear state failed"] →
  refines_read op f → represents b m → respond id what response (op b) = (b', r) →
  refines_result id m (a ← reply id what (f m); Ok (m, response a)) b' r.
Proof.
  intros Hw Hop Hr E. unfold respond in E. destruct (op b) as [b1 r1] eqn:E1. destruct (Hop _ _ _ _ Hr E1) as [Hr1 Hf].
  destruct r1 as [a|e|w]; injection E as <- <-; cbn [refines_result].
  - destruct Hf as [->|Hf%store_failure_fails]; [by exists m|done].
  - split; [done|]. destruct Hf as [->|Hf]; [by left|right]. split; [|by left]. exists what, e. split_and!; [done..|]. by eapply store_failure_as.
  - destruct Hf as [->|Hf]; [by left|right]. split; [|by left]. by eapply store_failure_as.
Qed.

Lemma respond_write id what response (op : st (StateBackend S) unit) f b m b' r :
  what ∈ ["get state failed"; "append state failed"; "clear state failed"] →
  refines_write op f → represents b m → respond id what (λ _, response) (op b) = (b', r) →
  refines_result id m (m' ← reply id what (f m); Ok (m', response)) b' r.
Proof.
  intros Hw Hop Hr E. unfold respond in E. destruct (op b) as [b1 r1] eqn:E1.
  assert (Heff : ∀ b2, represents b2 m ∨ (∃ m', f m = Ok m' ∧ represents b2 m') →
    effect_or_none m (m' ← reply id what (f m); Ok (m', response)) b2).
  { intros b2 [?|(m' & Hf & ?)]; [by left|right]. exists m', response. by rewrite Hf. }
  specialize (Hop _ _ _ _ Hr E1). destruct r1 as [[]|e|w]; injection E as <- <-; cbn [refines_result].
  - destruct Hop as (m' & Hf & Hr1). exists m'. by rewrite Hf.
  - split; [done|]. destruct Hop as [[Hf Hr1]|[Hf Hr1]]; [left|right].
    + split; [|done]. destruct (f m); [done| |done]. cbn in Hf |- *. by subst.
    + split; [|by apply Heff]. exists what, e. by split_and!.
  - destruct Hop as [[Hf Hr1]|[Hf Hr1]]; [left|right; split; [done|by apply Heff]].
    split; [|done]. destruct (f m); [done|done|]. cbn in Hf |- *. by subst.
Qed.

Lemma append_split_refines id missing coder_of add a data append b m b' r :
  (∀ vs, refines_write (append vs) (map_update a (λ es, add es vs))) → represents b m →
  append_split display user_states id missing coder_of a data append b = (b', r) →
  refines_result id m
    (m' ← match map_coders user_states a with
          | None => Err (id, missing)
          | Some coders =>
              reply id "append state failed" (vs ← split_or_whole display (coder_of coders) data; map_update a (λ es, add es vs) m)
          end; Ok (m', success id AppendResponse)) b' r.
Proof.
  intros Ha Hr E. unfold append_split in E. destruct (map_coders user_states a) as [coders|].
  - refine (respond_write _ _ _ _ (λ m, vs ← split_or_whole display (coder_of coders) data; map_update a (λ es, add es vs) m)
      _ _ _ _ _ _ Hr E); [by right; left|].
    apply (refines_lift_write _ append (λ vs, map_update a (λ es, add es vs))). intros vs _. apply Ha.
  - injection E as <- <-. by split; [|left].
Qed.

Lemma user_state_refines id a body b m b' r :
  represents b m → handle_user_state_request iteration_order display user_states id a body b = (b', r) →
  refines_result id m (map_user_state display user_states id a body m) b' r.
Proof.
  intros Hr E. unfold handle_user_state_request, map_user_state in *. destruct body as [[token|data|]|].
  - case_decide; [|injection E as <- <-; by split; [|left]].
    by apply (respond_read _ _ _ _ _ _ _ _ _ ltac:(by left) (refines_user_get iteration_order Horder a) Hr).
  - unfold map_append. destruct (addr_kind a) eqn:Ek.
    + unfold user_state_append in E. rewrite Ek in E.
      exact (respond_write _ _ _ _ _ _ _ _ _ ltac:(by right; left) (refines_bag_append iteration_order Horder (address_key a) data) Hr E).
    + apply (append_split_refines _ _ _ add_keys _ _ _ _ _ _ _ (λ vs, refines_update iteration_order Horder a _) Hr E).
    + injection E as <- <-. by split; [|left].
    + apply (append_split_refines _ _ _ (λ es vs, add_values es (addr_map_key a) vs) _ _ _ _ _ _ _
        (λ vs, refines_update iteration_order Horder a _) Hr E).
  - by apply (respond_write _ _ _ _ _ _ _ _ _ ltac:(by right; right; left) (refines_user_clear iteration_order Horder a) Hr).
  - injection E as <- <-. by split; [|left].
Qed.

(** ** Side inputs: the cache changes no answer *)

Definition cache_ok (cache : SideInputCache) : Prop :=
  match side_inputs with Some registry => snapshot display scan registry cache | None => True end.

Lemma cache_ok_empty : cache_ok ∅.
Proof. unfold cache_ok. destruct side_inputs; [apply snapshot_empty|done]. Qed.

Definition uncached (read : side_input_registry → st SideInputCache bytes) : Prop :=
  ∀ registry cache, snapshot display scan registry cache →
  ∃ cache', read registry cache = (cache', (read registry ∅).2) ∧ snapshot display scan registry cache'.

Lemma windows_uncached registry key spec window (k : EncodedSideInputWindows → BeamWindow → outcome string bytes) cache :
  registry !! key = Some spec → snapshot display scan registry cache →
  ∃ cache', (w ← st_lift window; windows ← cached_windows display scan key spec; st_lift (k windows w)) cache
    = (cache', ((w ← st_lift window; windows ← cached_windows display scan key spec; st_lift (k windows w)) ∅).2)
  ∧ snapshot display scan registry cache'.
Proof.
  intros Hr Hs. unfold mbind, st_bind, st_lift. destruct window as [w|e|w]; [|by exists cache..].
  destruct (cached_windows_spec display scan registry cache key spec Hs Hr) as (c1 & -> & Hs1).
  destruct (cached_windows_spec display scan registry ∅ key spec (snapshot_empty display scan registry) Hr) as (c2 & -> & _).
  exists c1. by destruct (materialize_windows display scan spec).
Qed.

Lemma read_iterable_uncached a : uncached (λ registry, read_iterable display scan registry a).
Proof.
  intros registry cache Hs. unfold read_iterable. destruct (registry !! isa_key a) as [spec|] eqn:Er; [|by exists cache].
  destruct (sis_materialization spec); [|by exists cache]. by eapply windows_uncached.
Qed.

Lemma read_multimap_uncached a : uncached (λ registry, read_multimap display scan registry a).
Proof.
  intros registry cache Hs. unfold read_multimap. destruct (registry !! msa_key a) as [spec|] eqn:Er; [|by exists cache].
  destruct (sis_materialization spec); [by exists cache|]. by eapply windows_uncached.
Qed.

Lemma side_input_uncached kind read id body cache :
  uncached read → cache_ok cache →
  ∃ cache', handle_side_input_request side_inputs kind read id body cache
    = (cache', (handle_side_input_request side_inputs kind read id body ∅).2) ∧ cache_ok cache'.
Proof.
  unfold cache_ok, handle_side_input_request. intros Hread Hc.
  destruct body as [[token|data|]|]; [case_decide; [|by exists cache]|by exists cache..].
  destruct side_inputs as [registry|]; [|by exists cache]. destruct (Hread registry cache Hc) as (cache' & E & Hc').
  exists cache'. split; [|done]. unfold respond. rewrite E. by destruct (read registry ∅).
Qed.

Lemma side_input_err_id kind read id body cache cache' i e :
  handle_side_input_request side_inputs kind read id body cache = (cache', Err (i, e)) → i = id.
Proof.
  unfold handle_side_input_request, respond. destruct body as [[t|data|]|]; [case_decide|..]; try congruence.
  destruct side_inputs as [registry|]; [|congruence]. destruct (read registry cache) as [c [x|e'|w]]; congruence.
Qed.

(** ** Any request *)

Definition service_represents (s : ServiceState (S:=S)) (m : gmap bytes bytes) : Prop :=
  represents (sv_backend s) m ∧ cache_ok (sv_cache s).

Lemma side_input_refines kind read request s m s' r :
  uncached read → service_represents s m →
  on_cache (handle_side_input_request side_inputs kind read (sr_id request) (sr_request request)) s = (s', r) →
  refines_result (sr_id request) m
    (response ← (handle_side_input_request side_inputs kind read (sr_id request) (sr_request request) ∅).2; Ok (m, response))
    (sv_backend s') r ∧ cache_ok (sv_cache s').
Proof.
  intros Hread [Hr Hc] E. unfold on_cache in E.
  destruct (side_input_uncached kind read (sr_id request) (sr_request request) (sv_cache s) Hread Hc) as (c' & E1 & Hc').
  pose proof (side_input_err_id kind read (sr_id request) (sr_request request) (sv_cache s) c') as Hid.
  rewrite E1 in E, Hid. injection E as <- <-. split; [|done]. cbn [sv_backend].
  destruct (handle_side_input_request side_inputs kind read (sr_id request) (sr_request request) ∅).2 as [resp|[i e]|w]; cbn [refines_result].
  - by exists m.
  - specialize (Hid i e eq_refl) as ->. split; [done|by left].
  - by left.
Qed.

Lemma request_refines request s m s' r :
  service_represents s m →
  handle_state_request_with_registries iteration_order display user_states side_inputs scan request s = (s', r) →
  refines_result (sr_id request) m (map_request display user_states side_inputs scan request m) (sv_backend s') r
  ∧ cache_ok (sv_cache s').
Proof.
  intros Hs E. pose proof Hs as [Hr Hc]. unfold handle_state_request_with_registries, map_request in *.
  destruct (mjoin (sr_state_key request)) as [key|]; [|injection E as <- <-; cbn [refines_result]; split; [split; [done|by left]|done]].
  destruct (state_target key) as [[a|a|a]|e|w].
  - unfold on_backend in E. destruct (handle_user_state_request _ _ _ _ _ _ _) as [b1 r1] eqn:E1. injection E as <- <-.
    split; [|done]. by apply (user_state_refines _ _ _ _ _ _ _ Hr E1).
  - by apply (side_input_refines _ _ _ _ _ _ _ (read_iterable_uncached a) Hs E).
  - by apply (side_input_refines _ _ _ _ _ _ _ (read_multimap_uncached a) Hs E).
  - injection E as <- <-. cbn [refines_result]. split; [split; [done|by left]|done].
  - injection E as <- <-. split; [by left|done].
Qed.

(** ** The driver *)

(** The map is what the store holds and no cell waits to be written, unless the last write to
    the store failed. *)
Definition durable (b : StateBackend S) (m : gmap bytes bytes) : Prop :=
  dirty (cache b) = ∅ ∧ kv_view (store b) = m
  ∨ ∃ s ws r, kv_apply s ws = (store b, r) ∧ is_ok r = false.

Lemma flush_on_exit_represents s m :
  service_represents s m →
  service_represents (flush_state_on_exit iteration_order s) m ∧ durable (sv_backend (flush_state_on_exit iteration_order s)) m.
Proof.
  intros [Hr Hc]. unfold flush_state_on_exit. cbn [sv_backend].
  destruct (flush iteration_order (sv_backend s)) as [b r] eqn:E. destruct (flush_refines iteration_order Horder _ _ _ _ Hr E) as [Hr' Hok].
  split; [by split|]. destruct r as [[]|e|w]; [left; by destruct (Hok eq_refl)|right..].
  all: destruct (flush_failure iteration_order _ _ _ E eq_refl) as [ws Ea]; do 3 eexists; by split; [exact Ea|].
Qed.

Abbreviation map_request := (map_request display user_states side_inputs scan).
Abbreviation served := (served display user_states side_inputs scan store_error).

(** How the driver came to its end: every request was answered, the response to a request
    could not be sent, or the handler of a request panicked, as the reference does or
    because the store does. *)
Definition ended (requests : list (StateRequest * bool)) (answered : nat) (m : gmap bytes bytes) (e : DriverEnd) : Prop :=
  match e with
  | StreamEnded => answered = length requests
  | WorkerGone => ∃ request, requests !! answered = Some (request, false)
  | TaskPanicked => ∃ request delivered w, requests !! answered = Some (request, delivered)
      ∧ (map_request request m = Panic w ∨ store_failure (S:=S) (A:=()) (Panic w))
  end.

(** The request at which the driver stopped may have had its effect. *)
Definition stopped_at (requests : list (StateRequest * bool)) (answered : nat) (m m' : gmap bytes bytes) : Prop :=
  m' = m ∨ ∃ request response, requests.*1 !! answered = Some request ∧ map_request request m = Ok (m', response).

(** One request: the map it leads to, and what is served when its response is sent. *)
Lemma handled_served request s m s1 r : service_represents s m →
  handle_state_request_with_registries iteration_order display user_states side_inputs scan request s = (s1, r) →
  ∃ m1, service_represents s1 m1 ∧ (m1 = m ∨ ∃ response, map_request request m = Ok (m1, response))
    ∧ match response_of r with
      | Some response => ∀ requests responses m', served m1 requests responses m' → served m (request :: requests) (response :: responses) m'
      | None => ∃ w, map_request request m = Panic w ∨ store_failure (S:=S) (A:=()) (Panic w)
      end.
Proof.
  intros Hs E1. destruct (request_refines _ _ _ _ _ Hs E1) as [Hres Hc].
  assert (Heff : effect_or_none m (map_request request m) (sv_backend s1) →
    ∃ m1, service_represents s1 m1 ∧ (m1 = m ∨ ∃ response, map_request request m = Ok (m1, response))).
  { intros [Hr1|(m1 & resp & Em & Hr1)]; [exists m|exists m1]; (split; [by split|]); [by left|right; by exists resp]. }
  destruct r as [resp|[i err]|w]; cbn [refines_result response_of] in *.
  - destruct Hres as (m1 & Em & Hr1). exists m1. split_and!; [by split|right; by exists resp|]. intros. by eapply served_ok.
  - destruct Hres as [-> [[Em Hr1]|[Hf Hr1]]].
    + exists m. split_and!; [by split|by left|]. intros. by eapply served_error.
    + destruct (Heff Hr1) as (m1 & Hs1 & Hm1). exists m1. split_and!; [done..|]. intros. by eapply served_failed.
  - destruct Hres as [[Em Hr1]|[Hf Hr1]].
    + exists m. split_and!; [by split|by left|]. exists w. by left.
    + destruct (Heff Hr1) as (m1 & Hs1 & Hm1). exists m1. split_and!; [done..|]. exists w. by right.
Qed.

(** The responses sent are those of a prefix of the requests, all of them when the stream
    ended; the request whose response could not be sent, or whose handler panicked, is the last
    and may have had its effect.  Unless it panicked, the driver flushes. *)
Lemma drive_refines requests s m s' responses e :
  service_represents s m →
  drive_state_requests iteration_order display user_states side_inputs scan requests s = (s', responses, e) →
  ∃ m1 m2, served m (take (length responses) requests.*1) responses m1
    ∧ service_represents s' m2 ∧ stopped_at requests (length responses) m1 m2 ∧ (e = StreamEnded → m2 = m1)
    ∧ ended requests (length responses) m1 e
    ∧ (e ≠ TaskPanicked → durable (sv_backend s') m2).
Proof.
  revert s m responses. induction requests as [|[request delivered] requests IH]; intros s m responses Hs E; cbn [drive_state_requests] in E.
  { injection E as <- <- <-. destruct (flush_on_exit_represents s m Hs). exists m, m. split_and!; [constructor|done|by left|done..]. }
  destruct (handle_state_request_with_registries _ _ _ _ _ request s) as [s1 r] eqn:E1.
  destruct (handled_served _ _ _ _ _ Hs E1) as (m1 & Hs1 & Hm1 & Hserved).
  assert (Hstop : stopped_at ((request, delivered) :: requests) 0 m m1) by (destruct Hm1 as [->|[resp ?]]; [by left|right; by exists request, resp]).
  destruct (response_of r) as [response|] eqn:Eresp.
  2: { injection E as <- <- <-. destruct Hserved as [w Hw]. exists m, m1. split_and!; [constructor|done..| |done]. by exists request, delivered, w. }
  destruct delivered.
  2: { injection E as <- <- <-. destruct (flush_on_exit_represents _ _ Hs1). exists m, m1. split_and!; [constructor|done..|by exists request|done]. }
  destruct (drive_state_requests iteration_order display user_states side_inputs scan requests s1) as [[s2 rs] e2] eqn:E2.
  injection E as <- <- <-. destruct (IH _ _ _ Hs1 E2) as (n1 & n2 & Hsv & Hs2 & Hn & He & Hend & Hd).
  exists n1, n2. split_and!; [by apply Hserved|done|done|done| |done]. by destruct e2; cbn [ended length] in *; [f_equal| |].
Qed.

(** A store that never fails. *)
Definition reliable : Prop := (∀ (s : S) k, is_ok (kv_get s k) = true) ∧ ∀ (s : S) ws, is_ok (kv_apply s ws).2 = true.

Lemma reliable_no_failure {A} (r : outcome string A) : reliable → ¬ store_failure (S:=S) r.
Proof.
  intros [Hg Ha] [(s & k & Hf)|(s & ws & Hf)].
  - specialize (Hg s k). by destruct (kv_get s k).
  - specialize (Ha s ws). by destruct (kv_apply s ws).2.
Qed.

Lemma reliable_durable b m : reliable → durable b m → kv_view (store b) = m.
Proof. intros [_ Ha] [[_ ?]|(s & ws & r & E & Hf)]; [done|]. specialize (Ha s ws). rewrite E in Ha. cbn in Ha. by rewrite Hf in Ha. Qed.
End handlers.
