(* ===== verification/HarnessProperties.v ===== *)
(** The properties of the state service of the SDK harness: side inputs and the answers
    to state requests. *)
From S2P Require Import Prelude Bytes Varint Windows Coders CoderGraph Kv UserState Multimap StateProperties.
From S2P Require Import Pipeline StageFuser ExecGraph SideInputs SideInputSpec StateService StateServiceSpec.
Set Warnings "-clear-no-such-hyp".
Local Open Scope string_scope.
Local Open Scope list_scope.

(** * Side inputs *)

(** A side input that made it into the registry is served from its own PCollection,
    which some node of the graph produces; and every side input of every worker stage
    made it. *)
Theorem side_inputs_registered `{HashIter, PayloadDecoder} display graph pipeline_coders registry :
  side_inputs_from_executable_graph display graph pipeline_coders = Ok registry →
  (∀ node stage side, node ∈ eg_nodes graph → stage ∈ worker_stages node → side ∈ stage_side_inputs stage →
     (∃ producer, producer ∈ eg_nodes graph ∧ pcn_id (sir_pcol side) ∈ node_output_pcols producer)
     ∧ ∃ spec, registry !! mkSideInputKey (ptn_id (sir_pt side)) (sir_name side) = Some spec
        ∧ sis_pcollection_id spec = pcn_id (sir_pcol side)
        ∧ side_input_materialization display side pipeline_coders = Ok (sis_materialization spec)
        ∧ resolve_window_coder (eg_components graph) pipeline_coders (pcn_id (sir_pcol side)) = Ok (sis_window_coder spec)).
Proof.
  intros E. unfold side_inputs_from_executable_graph in E. intros node stage side Hnode Hstage Hside.
  assert (Hprod : ∀ c, c ∈ produced_pcollections graph → ∃ producer, producer ∈ eg_nodes graph ∧ c ∈ node_output_pcols producer).
  { intros c (X & (producer & -> & Hin)%list_elem_of_fmap & Hc)%elem_of_union_list. by exists producer. }
  set (produced := produced_pcollections graph) in *. set (comps := eg_components graph) in *.
  assert (Hin : side ∈ (eg_nodes graph ≫= worker_stages) ≫= stage_side_inputs).
  { apply list_elem_of_bind. exists stage. split; [done|]. apply list_elem_of_bind. by exists node. }
  clear Hstage Hside Hnode. revert E Hin. generalize ((eg_nodes graph ≫= worker_stages) ≫= stage_side_inputs) as sides. generalize (∅ : side_input_registry) as specs.
  assert (Hkeep : ∀ sides specs registry key spec, specs !! key = Some spec →
    register_side_inputs display comps pipeline_coders produced specs sides = Ok registry → registry !! key = Some spec).
  { clear. induction sides as [|x sides IH]; intros specs registry key spec Hk E; cbn [register_side_inputs] in E.
    { by injection E as <-. }
    inv_bind E. eapply IH; [|exact E]. unfold register_side_input in E0. case_decide; [|done]. inv_bind E0. inv_bind E0.
    destruct (specs !! mkSideInputKey (ptn_id (sir_pt x)) (sir_name x)) eqn:Es; [done|]. injection E0 as <-. rewrite lookup_insert_ne; [done|]. intros <-. congruence. }
  intros specs sides. revert specs. induction sides as [|x sides IH]; intros specs E Hin; [by apply elem_of_nil in Hin|].
  cbn [register_side_inputs] in E. inv_bind E. apply elem_of_cons in Hin as [->|Hin]; [|by eapply IH].
  unfold register_side_input in E0. case_decide as Hp; [|done]. inv_bind E0. inv_bind E0. destruct (specs !! mkSideInputKey (ptn_id (sir_pt x)) (sir_name x)) eqn:Es; [done|].
  injection E0 as <-. split; [by apply Hprod|]. eexists. split_and!; [eapply Hkeep; [apply lookup_insert_eq|exact E]|done..].
Qed.

(** C39: a side-input read returns exactly the elements of the PCollection that are in
    the window asked for, each once and in the order of the store, whether or not they
    are cached: of an iterable, a stream from which the element coder reads those
    elements back; of a multimap, the distinct keys in the order of their first
    appearance, the values of a key, or every key with the number of its values and the
    values.  Elements are assumed to have an encoding of at least a byte. *)
Theorem side_input_reads_exact {P : Profile} display scan registry cache key window_bytes pcol wc w values :
  snapshot display scan registry cache → scan pcol = Ok values → decode_window wc window_bytes = Ok w →
  (Z.of_nat (length values) < 2 ^ 31)%Z →
  (∀ coder, registry !! key = Some (mkSideInputSpec pcol (IterableSide coder) wc) →
     Forall (λ v, ∃ enc, shows coder (wv_value v) enc) values →
     ∃ cache' encs,
       read_iterable display scan registry (mkIterableAddress key window_bytes) cache = (cache', Ok (concat encs))
       ∧ snapshot display scan registry cache' ∧ Forall2 (shows coder) (wv_value <$> in_window w values) encs
       ∧ reads (read_n (length encs) (decode_nested coder)) (concat encs) (wv_value <$> in_window w values))
  ∧ (∀ kc vc kind, registry !! key = Some (mkSideInputSpec pcol (MultimapSide kc vc) wc) →
     Forall (λ v, ∃ p, pair_shows kc vc v p) values →
     ∃ cache' pairs,
       read_multimap display scan registry (mkMultimapAddress key window_bytes kind) cache
         = (cache', Ok (multimap_answer kind pairs))
       ∧ snapshot display scan registry cache' ∧ Forall2 (pair_shows kc vc) (in_window w values) pairs
       ∧ NoDup (first_seen pairs) ∧ ∀ k, k ∈ first_seen pairs ↔ k ∈ pairs.*1).
Proof.
  intros Hs Hscan Hw Hl. split.
  - intros coder Hr Hv. destruct (read_iterable_spec display scan registry cache key window_bytes pcol coder wc w values
      Hs Hr Hscan Hw Hv) as (cache' & encs & E & Hs' & Hf).
    exists cache', encs. split_and!; [done..|]. by apply shows_stream.
  - intros kc vc kind Hr Hv. destruct (read_multimap_spec display scan registry cache key window_bytes kind pcol kc vc wc w values
      Hs Hr Hscan Hw Hv Hl) as (cache' & pairs & E & Hs' & Hf).
    exists cache', pairs. split_and!; [done..|apply NoDup_first_seen|]. intros k. apply elem_of_first_seen.
Qed.

(** Pairs of integers in two overlapping windows, read as a multimap. *)
Module side_demo.
#[local] Existing Instance release_profile.

Definition pair (k v : Z) (windows : list BeamWindow) : WindowedValue :=
  mkWindowedValue (KV (PInt64 k) (PRIMITIVE (PInt64 v))) 0 windows no_firing.
Definition early : BeamWindow := IntervalWindow 0 10.
Definition late : BeamWindow := IntervalWindow 5 15.
Definition values : list WindowedValue :=
  [pair 7 1 [early]; pair 3 2 [early; late; early]; pair 7 4 [late]; pair 3 5 [early]].
Definition scan (pcol : string) : outcome string (list WindowedValue) :=
  if decide (pcol = "main") then Ok values else Err "no such PCollection".
Definition key : SideInputKey := mkSideInputKey "ParDo" "side".
Definition registry : side_input_registry :=
  {[key := mkSideInputSpec "main" (MultimapSide VarIntCoder VarIntCoder) IntervalCoder]}.
Definition early_bytes : bytes := match encode_window (E:=CodersError) IntervalCoder early with Ok bs => bs | _ => [] end.
Definition display (e : CodersError) : string := "error".

(** The pairs of the early window. *)
Definition early_pairs : list (bytes * bytes) :=
  (λ p, (encode_signed_varint p.1, encode_signed_varint p.2)) <$> [(7, 1); (3, 2); (3, 5)]%Z.

Lemma early_window :
  traverse (encode_pair_of display VarIntCoder VarIntCoder) (in_window early values) = Ok early_pairs.
Proof. by vm_compute. Qed.

Lemma values_show : Forall (λ v, ∃ p, pair_shows VarIntCoder VarIntCoder v p) values.
Proof.
  assert (Hs : ∀ z, is_i 64 z → encode_signed_varint z ≠ [] → shows VarIntCoder (PRIMITIVE (PInt64 z)) (encode_signed_varint z)) by done.
  repeat constructor; eexists (_, _), _, _; (split_and!; [reflexivity|..]); apply Hs; vm_compute; first [done|split; congruence|congruence].
Qed.

Lemma early_decodes : decode_window IntervalCoder early_bytes = Ok early.
Proof. by vm_compute. Qed.
End side_demo.

Lemma side_input_reads_exact_witness :
  ∃ cache', read_multimap (P:=release_profile) side_demo.display side_demo.scan side_demo.registry
      (mkMultimapAddress side_demo.key side_demo.early_bytes ReadKeysValues) ∅
    = (cache', Ok (multimap_answer ReadKeysValues side_demo.early_pairs)).
Proof.
  destruct (side_input_reads_exact (P:=release_profile) side_demo.display side_demo.scan side_demo.registry ∅ side_demo.key
    side_demo.early_bytes "main" IntervalCoder side_demo.early side_demo.values (snapshot_empty _ _ _) eq_refl
    side_demo.early_decodes eq_refl) as [_ H].
  destruct (H VarIntCoder VarIntCoder ReadKeysValues eq_refl side_demo.values_show) as (cache' & pairs & E & _ & Hp & _ & _).
  apply (pair_shows_traverse (P:=release_profile) side_demo.display) in Hp. rewrite side_demo.early_window in Hp. injection Hp as <-.
  exists cache'. exact E.
Defined.

(** * The state service *)

(** C38: the state service answers like a service over a finite map that keeps no cache:
    from an empty backend and cache, over any store that keeps its contract, the
    responses sent are those of a prefix of the requests in order, one each and under
    the id of its request.  A response is the answer on the map as the requests before left
    it, an error answer included, or it carries an error of the store, and then its request has
    had its effect entirely or not at all, as has the one at which the driver stopped.  The
    driver stops when every request has been answered, at a response that could not be sent, or
    at a panic of the reference or the store; unless it panicked the map is in the store,
    except when its last write failed.  So with a store that does not fail every response is
    the reference's and the store is left with the map. *)
Theorem state_service_serves {S} `{KvLaws S} {P : Profile} iteration_order display user_states side_inputs scan (s : S)
    requests s' responses e :
  (∀ X, iteration_order X ≡ₚ elements X) →
  drive_state_requests iteration_order display user_states side_inputs scan requests (mkService (with_store s) ∅)
    = (s', responses, e) →
  let answered := take (length responses) requests.*1 in
  resp_id <$> responses = sr_id <$> answered
  ∧ ∃ m1 m2, served display user_states side_inputs scan (store_error (S:=S)) (kv_view s) answered responses m1
    ∧ represents (sv_backend s') m2
    ∧ stopped_at display user_states side_inputs scan requests (length responses) m1 m2
    ∧ (e = StreamEnded → m2 = m1)
    ∧ ended (S:=S) display user_states side_inputs scan requests (length responses) m1 e
    ∧ (e ≠ TaskPanicked → durable (sv_backend s') m2)
    ∧ (reliable (S:=S) → (∀ error, ¬ store_error (S:=S) error) ∧ (e ≠ TaskPanicked → kv_view (store (sv_backend s')) = m2)).
Proof.
  intros Ho E answered.
  assert (Hs : service_represents display side_inputs scan (mkService (with_store s) ∅) (kv_view s)).
  { split; [apply with_store_represents|apply cache_ok_empty]. }
  destruct (drive_refines iteration_order Ho display user_states side_inputs scan _ _ _ _ _ _ Hs E)
    as (m1 & m2 & Hsv & [Hr _] & Hm & He & Hend & Hd).
  split; [by eapply served_ids|]. exists m1, m2. split_and!; [done..|]. intros Hrel. split.
  - intros error (what & err & _ & _ & Hf). by eapply reliable_no_failure.
  - intros Hne. by apply reliable_durable, Hd.
Qed.

Module service_demo.
#[local] Existing Instance release_profile.

Definition bag (k : bytes) : StateKeyType := KeyBagUserState "T" "bag" [] k.
Definition request (id : string) (key : StateKeyType) (body : StateRequestBody) : StateRequest * bool :=
  (mkStateRequest id "bundle" (Some (Some key)) (Some body), true).

Definition requests : list (StateRequest * bool) :=
  [request "1" (bag key_a) (Append key_a);
   request "2" (KeyRunner []) (Get []);
   request "3" (bag key_a) (Append key_b);
   request "4" (KeyMultimapKeysSideInput "ParDo" "side" side_demo.early_bytes) (Get []);
   request "5" (bag key_a) (Get []);
   request "6" (KeyMultimapKeysSideInput "ParDo" "side" side_demo.early_bytes) Clear].

Definition driven :=
  drive_state_requests by_elements side_demo.display (Some ∅) (Some side_demo.registry) side_demo.scan requests
    (mkService (with_store (∅ : gmap bytes bytes)) ∅).

Lemma driven_end : driven.2 = StreamEnded.
Proof. by vm_compute. Qed.

Lemma driven_answer : (driven.1.2 !! 4%nat) = Some (got "5" (key_a ++ key_b)).
Proof. by vm_compute. Qed.
End service_demo.

(** The cell of the bag. *)
Definition demo_cell : bytes := address_key (mkAddress Bag "T" "bag" [] key_a []).

Lemma mem_db_reliable : reliable (S:=gmap bytes bytes).
Proof.
  split; [done|]. intros m ws. cbn. revert m. induction ws as [|[k [v|]] ws IH]; intros m; [done|..]; apply IH.
Qed.

Lemma demo_durable : store (sv_backend service_demo.driven.1.1) !! demo_cell = Some (key_a ++ key_b).
Proof. by vm_compute. Qed.

Lemma state_service_serves_witness :
  ∃ responses m,
    service_demo.driven.1.2 = responses
    ∧ responses !! 4%nat = Some (got "5" (key_a ++ key_b))
    ∧ resp_id <$> responses = ["1"; "2"; "3"; "4"; "5"; "6"]
    ∧ represents (sv_backend service_demo.driven.1.1) m
    ∧ m !! demo_cell = Some (key_a ++ key_b).
Proof.
  pose proof demo_durable as Hcell.
  destruct service_demo.driven as [[s' responses] e] eqn:E.
  pose proof service_demo.driven_end as He. pose proof service_demo.driven_answer as Ha. rewrite E in He, Ha. cbn [fst snd] in *.
  destruct (state_service_serves (P:=release_profile) by_elements side_demo.display (Some ∅) (Some side_demo.registry) side_demo.scan
    (∅ : gmap bytes bytes) service_demo.requests s' responses e by_elements_perm E) as [Hid (m1 & m2 & _ & Hr & _ & _ & Hend & _ & Hrel)].
  subst e. cbn [ended] in Hend. exists responses, m2. split_and!; [reflexivity|exact Ha| |exact Hr|].
  - rewrite Hid, Hend. reflexivity.
  - destruct (Hrel mem_db_reliable) as [_ Hv]. rewrite <-(Hv ltac:(discriminate)). exact Hcell.
Defined.
