(* ===== verification/BundleIo.v ===== *)
(** The data plane of a bundle (engine/runtime.rs, engine/harness/data.rs): the element
    streams of the SDK harness and their multiplexer, the bundle that a stage registers, the
    input of a stage encoded and sent, its output decoded and written, its timers received
    and fired.  The channels of the gRPC service are the list of what was sent on them and
    the list of what [recv] returns until they are closed; the batch sizes that the
    estimator proposes from measured times are an argument. *)
From S2P Require Import Prelude Bytes Varint Windows Coders CoderGraph Kv WindowMerge UserState Timers.
From S2P Require Import Pipeline StageFuser ExecGraph SideInputs Arrow RecordTables WindowColumns ElementStore.
Local Open Scope string_scope.
Local Open Scope list_scope.

(** * Messages *)

(** [elements::Data] and [elements::Timers]. *)
Record Data : Type := mkData {
  data_instruction_id : string;
  data_transform_id : string;
  data_bytes : bytes;
  data_is_last : bool;
}.
Record TimerData : Type := mkTimerData {
  timers_instruction_id : string;
  timers_transform_id : string;
  timers_family_id : string;
  timers_bytes : bytes;
  timers_is_last : bool;
}.
Record Elements : Type := mkElements { el_data : list Data; el_timers : list TimerData }.

(** [ElementKey] over [DataKey] and [TimersKey]. *)
Inductive ElementKey : Type :=
| DataKey (instruction_id transform_id : string)
| TimersKey (instruction_id transform_id timer_family_id : string).

#[export] Instance ElementKey_eq_dec : EqDecision ElementKey.
Proof. solve_decision. Defined.
#[export] Program Instance ElementKey_countable : Countable ElementKey :=
  inj_countable (λ k, match k with DataKey i t => inl (i, t) | TimersKey i t f => inr (i, t, f) end)
    (λ k, Some (match k with inl (i, t) => DataKey i t | inr (i, t, f) => TimersKey i t f end)) _.
Next Obligation. by intros []. Qed.

(** A chunk carries the key it is routed by and the message. *)
Inductive ElementStreamPayload : Type :=
| DataChunk (key : ElementKey) (data : Data)
| TimerChunk (key : ElementKey) (timers : TimerData).

Definition payload_key (p : ElementStreamPayload) : ElementKey :=
  match p with DataChunk key _ | TimerChunk key _ => key end.

(** * The multiplexer

    A channel is a queue, named by a number; the two maps lead to its ends. *)
Record ElementStreamMultiplexer : Type := mkMultiplexer {
  senders : gmap ElementKey nat;
  receivers : gmap ElementKey nat;
  channels : list (list ElementStreamPayload);
}.

Definition new_multiplexer : ElementStreamMultiplexer := mkMultiplexer ∅ ∅ [].

Definition insert_sender (key : ElementKey) (tx : nat) (m : ElementStreamMultiplexer) : ElementStreamMultiplexer :=
  mkMultiplexer (<[key := tx]> (senders m)) (receivers m) (channels m).
Definition insert_receiver (key : ElementKey) (rx : nat) (m : ElementStreamMultiplexer) : ElementStreamMultiplexer :=
  mkMultiplexer (senders m) (<[key := rx]> (receivers m)) (channels m).
Definition open_channel (m : ElementStreamMultiplexer) : ElementStreamMultiplexer :=
  mkMultiplexer (senders m) (receivers m) (channels m ++ [[]]).

(** [get_or_create_stream] is not one step: other tasks may run between its accesses to the
    two concurrent maps. *)
Inductive StreamLookup : Type :=
| LookupSender
| LookupReceiver (tx : nat)
| CreateChannel
| InsertReceiver (channel : nat)
| Found (tx rx : nat)
| LookupPanicked (why : string).

Definition lookup_step (key : ElementKey) (m : ElementStreamMultiplexer) (l : StreamLookup) : ElementStreamMultiplexer * StreamLookup :=
  match l with
  | LookupSender => (m, match senders m !! key with Some tx => LookupReceiver tx | None => CreateChannel end)
  | LookupReceiver tx =>
      (m, match receivers m !! key with Some rx => Found tx rx | None => LookupPanicked "sender exists without matching receiver" end)
  | CreateChannel => let channel := length (channels m) in (insert_sender key channel (open_channel m), InsertReceiver channel)
  | InsertReceiver channel => (insert_receiver key channel m, Found channel channel)
  | Found _ _ | LookupPanicked _ => (m, l)
  end.

(** Undisturbed, it takes at most three steps. *)
Definition get_or_create_stream (key : ElementKey) : st ElementStreamMultiplexer (nat * nat) := λ m,
  let '(m1, l1) := lookup_step key m LookupSender in
  let '(m2, l2) := lookup_step key m1 l1 in
  let '(m3, l3) := lookup_step key m2 l2 in
  (m3, match l3 with Found tx rx => Ok (tx, rx) | LookupPanicked why => Panic why | _ => Panic "unreachable" end).

Definition get_sender (key : ElementKey) : st ElementStreamMultiplexer nat := '(tx, _) ← get_or_create_stream key; mret tx.
(** [get_receiver] and [get_timer_receiver]. *)
Definition get_receiver (key : ElementKey) : st ElementStreamMultiplexer nat := '(_, rx) ← get_or_create_stream key; mret rx.

Definition send_payload (tx : nat) (p : ElementStreamPayload) : st ElementStreamMultiplexer () := λ m,
  (mkMultiplexer (senders m) (receivers m) (alter (λ queue, queue ++ [p]) tx (channels m)), Ok ()).

Definition route_payload (p : ElementStreamPayload) : st ElementStreamMultiplexer () :=
  tx ← get_sender (payload_key p); send_payload tx p.

Definition data_chunk (data : Data) : ElementStreamPayload := DataChunk (DataKey (data_instruction_id data) (data_transform_id data)) data.
Definition timer_chunk (timers : TimerData) : ElementStreamPayload :=
  TimerChunk (TimersKey (timers_instruction_id timers) (timers_transform_id timers) (timers_family_id timers)) timers.

Fixpoint route_payloads (ps : list ElementStreamPayload) : st ElementStreamMultiplexer () :=
  match ps with [] => mret () | p :: ps => route_payload p;; route_payloads ps end.

(** [route_elements]: the data of a message, then its timers. *)
Definition route_elements (elements : Elements) : st ElementStreamMultiplexer () :=
  route_payloads (data_chunk <$> el_data elements);;
  route_payloads (timer_chunk <$> el_timers elements).

(** * The data channel *)

(** The sending half of the stream to the worker: what was sent on it, and whether the
    worker dropped its end. *)
Record Outgoing : Type := mkOutgoing { out_sent : list Elements; out_dropped : bool }.

Record DataChannel : Type := mkDataChannel {
  outgoing : option Outgoing;
  runner_stream : ElementStreamMultiplexer;
}.

Definition send_elements (elements : Elements) : st DataChannel () := λ c,
  match outgoing c with
  | None => (c, Err "data outgoing channel not initialized")
  | Some out =>
      if out_dropped out then (c, Err "failed to send data-plane elements to worker")
      else (mkDataChannel (Some (mkOutgoing (out_sent out ++ [elements]) false)) (runner_stream c), Ok ())
  end.

(** [DataChannel::reset]: a new stream for the next worker, and no queues. *)
Definition reset (c : DataChannel) : DataChannel :=
  mkDataChannel (Some (mkOutgoing [] false))
    (mkMultiplexer ∅ ∅ (channels (runner_stream c))).

(** * Boundary ids and coders *)

Definition stage_source_transform_id (stage : ExecutableStage) : string := stage_id stage +:+ "/source".
Definition stage_sink_transform_id (stage : ExecutableStage) (pcollection_id : string) : string :=
  stage_id stage +:+ "/sink/" +:+ pcollection_id.
Definition global_window_coder_id (stage : ExecutableStage) : string := stage_id stage +:+ "/global_window".
Definition windowed_value_coder_id (stage : ExecutableStage) (pcollection_id : string) : string :=
  stage_id stage +:+ "/windowed_value/" +:+ pcollection_id.

Definition WINDOWED_VALUE_CODER : string := "beam:coder:windowed_value:v1".
Definition TIMER_CODER : string := "beam:coder:timer:v1".
Definition BEAM_SOURCE : string := "beam:runner:source:v1".
Definition BEAM_SINK : string := "beam:runner:sink:v1".
Definition DEFAULT_API_SERVICE_URL : string := "127.0.0.1:8099".

(** [str::ends_with]. *)
Definition ends_with (s suffix : string) : bool :=
  bool_decide (String.list_ascii_of_string suffix `suffix_of` String.list_ascii_of_string s).

Definition insert_windowed_value_coder (coders : coders_map) (windowed_value_coder_id element_coder_id window_coder_id : string) : coders_map :=
  let coders :=
    if ends_with window_coder_id "/global_window" then
      match coders !! window_coder_id with
      | Some _ => coders
      | None => <[window_coder_id := mkCoder (Some GLOBAL_WINDOW_CODER) []]> coders
      end
    else coders in
  <[windowed_value_coder_id := mkCoder (Some WINDOWED_VALUE_CODER) [element_coder_id; window_coder_id]]> coders.

Section boundary.
Context `{HashIter}.

Definition stage_window_coder_id (stage : ExecutableStage) (pcollection_id : string) (comps : Components) : outcome string string :=
  match pcollections comps !! pcollection_id with
  | None => Panic ("PCollection not found: " +:+ pcollection_id)
  | Some pcollection =>
      let strategy := windowing_strategies comps !! pc_windowing_strategy_id pcollection in
      let named := id ← ws_window_coder_id <$> strategy; if decide (id = "") then None else Some id in
      let fixed :=
        window_fn ← strategy ≫= ws_window_fn;
        if decide (fs_urn window_fn = "beam:window_fn:fixed_windows:v1")
        then fst <$> find (λ c, bool_decide (spec_urn c.2 = Some INTERVAL_WINDOW_CODER)) (map_iter (Pipeline.coders comps))
        else None in
      Ok (default (global_window_coder_id stage) (match named with Some id => Some id | None => fixed end))
  end.

Definition add_boundary_coder (stage : ExecutableStage) (comps : Components) (pcol : PCollectionNode) (coders : coders_map) :
    outcome string coders_map :=
  window_coder_id ← stage_window_coder_id stage (pcn_id pcol) comps;
  Ok (insert_windowed_value_coder coders (windowed_value_coder_id stage (pcn_id pcol))
        (resolve_length_prefixed_coder_id (pc_coder_id (pcn_collection pcol)) coders) window_coder_id).

Fixpoint add_boundary_coders (stage : ExecutableStage) (comps : Components) (pcols : list PCollectionNode) (coders : coders_map) :
    outcome string coders_map :=
  match pcols with
  | [] => Ok coders
  | pcol :: pcols => coders ← add_boundary_coder stage comps pcol coders; add_boundary_coders stage comps pcols coders
  end.

(** The input's coder first, then those of the outputs. *)
Definition add_stage_data_boundary_coders (stage : ExecutableStage) (coders : coders_map) (comps : Components) : outcome string coders_map :=
  add_boundary_coders stage comps (stage_input_pcol stage :: stage_output_pcols stage) coders.
End boundary.

(** ** The bundle that is registered *)

Section descriptor.
(** [RemoteGrpcPort::encode_to_vec]: the url of the endpoint and the coder. *)
Context `{HashIter} (remote_grpc_port : string → string → bytes).

Definition ptmap (stage : ExecutableStage) : gmap string PTransform :=
  foldl (λ m t, <[ptn_id t := ptn_transform t]> m) ∅ (stage_transforms stage).

Definition boundary_transform (unique_name urn : string) (endpoint coder_id : string) (inputs outputs : gmap string string) : PTransform :=
  mkPTransform unique_name (Some (mkFunctionSpec urn (remote_grpc_port endpoint coder_id))) [] inputs outputs "".

Definition source_transform (stage : ExecutableStage) (endpoint : string) : PTransform :=
  let pcol := pcn_id (stage_input_pcol stage) in
  boundary_transform (stage_source_transform_id stage) BEAM_SOURCE endpoint (windowed_value_coder_id stage pcol) ∅ {["local_output" := pcol]}.
Definition sink_transform (stage : ExecutableStage) (endpoint : string) (pcol : string) : PTransform :=
  boundary_transform (stage_sink_transform_id stage pcol) BEAM_SINK endpoint (windowed_value_coder_id stage pcol) {["local_input" := pcol]} ∅.

Definition stage_transforms_with_data_boundaries (stage : ExecutableStage) (endpoint : string) : gmap string PTransform :=
  foldl (λ m pcol, <[stage_sink_transform_id stage (pcn_id pcol) := sink_transform stage endpoint (pcn_id pcol)]> m)
    (<[stage_source_transform_id stage := source_transform stage endpoint]> (ptmap stage)) (stage_output_pcols stage).

Record ProcessBundleDescriptor : Type := mkDescriptor {
  descriptor_id : string;
  descriptor_transforms : gmap string PTransform;
  descriptor_pcollections : gmap string PCollection;
  descriptor_windowing_strategies : gmap string WindowingStrategy;
  descriptor_coders : coders_map;
  descriptor_environments : gmap string Environment;
  state_api_service_url : string;
  timer_api_service_url : string;
}.

(** The descriptor of [register_bundle]. *)
Definition bundle_descriptor (stage : ExecutableStage) (pipeline_components : Components) : outcome string ProcessBundleDescriptor :=
  let endpoint := DEFAULT_API_SERVICE_URL in
  let ts := stage_transforms_with_data_boundaries stage endpoint in
  let comps := stage_components stage in
  coders ← add_stage_data_boundary_coders stage (length_prefix_pickled_leaves (Pipeline.coders comps)) pipeline_components;
  Ok (mkDescriptor (stage_id stage) ts (pcollections comps) (windowing_strategies comps) coders (environments comps) endpoint endpoint).
End descriptor.

(** ** The timers of a stage *)

(** What is read of a [TimerFamilySpec] and, of a [ParDoPayload], of its timers and order. *)
Record TimerFamilySpec : Type := mkFamilySpec { time_domain : Z; timer_family_coder_id : string }.
Record TimerPayload : Type := mkTimerPayload {
  timer_families : gmap string TimerFamilySpec;
  on_window_expiration_timer_family_spec : string;
  payload_requires_time_sorted_input : bool;
}.
Class TimerPayloadDecoder : Type := decode_timer_payload : bytes → option TimerPayload.

(** A transform and one of its timer families. *)
Abbreviation endpoint := (string * string)%type.

Definition stage_timer_endpoints (stage : ExecutableStage) : list endpoint :=
  (λ timer, (ptn_id (tr_pt timer), tr_name timer)) <$> stage_timers stage.

Definition stage_window_expiration_timers `{TimerPayloadDecoder} (stage : ExecutableStage) : list endpoint :=
  omap (λ t,
    spec ← pt_spec (ptn_transform t);
    payload ← decode_timer_payload (fs_payload spec);
    let family := on_window_expiration_timer_family_spec payload in
    if decide (family = "") then None else Some (ptn_id t, family)) (stage_transforms stage).

Definition pardo_requires_time_sorted_input `{TimerPayloadDecoder} (t : PTransform) : bool :=
  match pt_spec t with
  | None => false
  | Some spec =>
      if decide (fs_urn spec = PAR_DO_TRANSFORM)
      then default false (payload_requires_time_sorted_input <$> decode_timer_payload (fs_payload spec)) else false
  end.
(** [ExecutableStage::requires_time_sorted_input]. *)
Definition requires_time_sorted_input `{TimerPayloadDecoder} (stage : ExecutableStage) : bool :=
  existsb (λ t, pardo_requires_time_sorted_input (ptn_transform t)) (stage_transforms stage).

Section runtime.
Context {W PaimonSchema D T : Type} `{Arrow} `{P : Profile} `{Warehouse W PaimonSchema} `{KvStore D} `{HT : KvStore T}.
Context `{HashIter, TimerPayloadDecoder} (display : CodersError → string).
(** The environment of the timer service: the order in which its pending writes are
    visited, and the JSON of a timer. *)
Context (iteration_order : gset bytes → list bytes) (to_vec : TimerEntry → outcome string bytes).
#[local] Existing Instance paimon.
Abbreviation FlareElementStore := (@FlareElementStore W D).
Abbreviation store := (st FlareElementStore).

(** * Elements at the boundary *)

Definition resolve_element_coder (pipeline_coders : coders_map) (id : string) (component_ids : option (list string)) :
    outcome string StandardBeamCoders :=
  map_err display (from_urn (2 + size pipeline_coders) id component_ids (Some pipeline_coders)).

Definition boundary_element_coder (coder_id : string) (component_ids : option (list string)) (pipeline_coders : coders_map) :
    outcome string (string * StandardBeamCoders) :=
  let wire_coder_id := resolve_length_prefixed_coder_id coder_id pipeline_coders in
  coder ← resolve_element_coder pipeline_coders wire_coder_id component_ids;
  Ok (wire_coder_id, coder).

Definition with_value (value : BeamRecord) (v : WindowedValue) : WindowedValue :=
  mkWindowedValue value (wv_timestamp_millis v) (wv_windows v) (wv_pane v).

Definition decode_structured_boundary_value (logical_coder : StandardBeamCoders) (v : WindowedValue) : outcome string WindowedValue :=
  match wv_value v with
  | PRIMITIVE (PBytes payload) =>
      '(decoded, rest) ← map_err (λ e, "logical boundary coder failed: " +:+ display e) (decode logical_coder payload);
      match rest with
      | [] => Ok (with_value decoded v)
      | _ => Err "logical boundary coder did not consume its complete payload"
      end
  | _ => Err "length-prefixed boundary coder did not produce opaque bytes"
  end.

Definition encode_structured_boundary_value (logical_coder : StandardBeamCoders) (v : WindowedValue) : outcome string WindowedValue :=
  payload ← map_err display (encode logical_coder (wv_value v));
  Ok (with_value (PRIMITIVE (PBytes payload)) v).

(** [window_coder_for_pcollection]. *)
Definition window_coder_for_pcollection (comps : Components) (pipeline_coders : coders_map) (pcollection_id : string) : outcome string WindowCoder :=
  match resolve_window_coder comps pipeline_coders pcollection_id with Err e => Panic e | r => r end.

(** The coders of one side of a boundary: the coder of the framed value, the logical coder,
    whether values are re-coded between the two, and whether values are kept as the bytes
    of their frame. *)
Record BoundaryCoders : Type := mkBoundary {
  windowed_value_coder : WindowedValueCoder;
  logical_element_coder : StandardBeamCoders;
  structured_payload : bool;
  opaque_void : bool;
}.

Definition boundary_coders (comps : Components) (pipeline_coders : coders_map) (coder_id : string) (component_ids : option (list string))
    (pcollection_id : string) (void_of : StandardBeamCoders → StandardBeamCoders → StandardBeamCoders) : outcome string BoundaryCoders :=
  '(wire_coder_id, element_coder) ← boundary_element_coder coder_id component_ids pipeline_coders;
  logical ← resolve_element_coder pipeline_coders coder_id component_ids;
  window_coder ← window_coder_for_pcollection comps pipeline_coders pcollection_id;
  Ok (mkBoundary (mkWindowedValueCoder element_coder window_coder) logical
        (negb (bool_decide (wire_coder_id = coder_id)) && is_structured logical) (is_void (void_of element_coder logical))).

(** The output side asks the wire coder whether elements are void, the input side the
    logical one. *)
Definition output_coders (comps : Components) (pipeline_coders : coders_map) (edge_metadata : ConsumerMetaData) : outcome string BoundaryCoders :=
  boundary_coders comps pipeline_coders (cm_coder_id edge_metadata) (cm_component_coder edge_metadata) (produced_pcol_id edge_metadata)
    (λ wire _, wire).
Definition input_coders (comps : Components) (pipeline_coders : coders_map) (coder_id : string) (component_ids : option (list string))
    (pcollection_id : string) : outcome string BoundaryCoders :=
  boundary_coders comps pipeline_coders coder_id component_ids pcollection_id (λ _ logical, logical).
(** * The output of a stage *)

Section output.
(** The [n]-th batch size that the estimator proposes. *)
Context (batch_size : nat → nat).

(** The local variables of [process_output_elements]; [sized] counts the batches whose time
    the estimator was told. *)
Record OutputState : Type := mkOutput {
  stream_buffer : bytes;
  batch : list WindowedValue;
  output_writer : PCollectionWriter;
  sized : nat;
}.

Definition push_value (buffer : bytes) (value : WindowedValue) (o : OutputState) : store OutputState :=
  let batch := batch o ++ [value] in
  if (batch_size (sized o) <=? length batch)%nat then
    writer ← writer_write (output_writer o) batch;
    mret (mkOutput buffer [] writer (S (sized o)))
  else mret (mkOutput buffer batch (output_writer o) (sized o)).

(** An element that was decoded, with what is left of the buffer. *)
Definition take_element (coders : BoundaryCoders) (o : OutputState) (value : WindowedValue) (rest : bytes) : store OutputState :=
  let consumed := (length (stream_buffer o) - length rest)%nat in
  let opaque_element := if opaque_void coders then Some (take consumed (stream_buffer o)) else None in
  value ← st_lift (if structured_payload coders then decode_structured_boundary_value (logical_element_coder coders) value else Ok value);
  let record := match opaque_element with Some raw => PRIMITIVE (PBytes raw) | None => wv_value value end in
  push_value (drop consumed (stream_buffer o)) (with_value record value) o.

(** As many elements as the buffer holds; [fuel] is its length, and an element takes at
    least its timestamp. *)
Fixpoint decode_elements (fuel : nat) (coders : BoundaryCoders) (stream_ended : bool) (o : OutputState) : store OutputState :=
  match stream_buffer o, fuel with
  | [], _ => mret o
  | _, O => st_lift (Panic "an element takes no bytes")
  | buffer, S fuel =>
      match decode_windowed_value (windowed_value_coder coders) buffer with
      | Ok (value, rest) => o ← take_element coders o value rest; decode_elements fuel coders stream_ended o
      | Err coder_err => st_lift (Err ("Coder decode error: " +:+ display coder_err))
      | Panic _ => if stream_ended then st_lift (Err "decode panic with leftover bytes after end of stream") else mret o
      end
  end.

(** What [recv] returns until the stream ends or the channel is closed. *)
Fixpoint receive_output (coders : BoundaryCoders) (payloads : list ElementStreamPayload) (o : OutputState) : store OutputState :=
  match payloads with
  | [] => mret o
  | DataChunk _ data :: payloads =>
      let buffer := stream_buffer o ++ data_bytes data in
      o ← decode_elements (length buffer) coders (data_is_last data) (mkOutput buffer (batch o) (output_writer o) (sized o));
      if data_is_last data then mret o else receive_output coders payloads o
  | TimerChunk _ _ :: payloads => receive_output coders payloads o
  end.

Definition finish_output (o : OutputState) : store () :=
  match stream_buffer o with
  | _ :: _ => st_lift (Err "leftover bytes remain after end of stream")
  | [] =>
      writer ← (match batch o with [] => mret (output_writer o) | values => writer_write (output_writer o) values end);
      writer_commit writer
  end.

Definition process_output (coders : BoundaryCoders) (pcollection_id : string) (payloads : list ElementStreamPayload) : store () :=
  o ← receive_output coders payloads (mkOutput [] [] (new_writer pcollection_id) 0);
  finish_output o.

Definition process_output_elements (comps : Components) (pipeline_coders : coders_map) (payloads : list ElementStreamPayload)
    (edge_metadata : ConsumerMetaData) : store () :=
  coders ← st_lift (output_coders comps pipeline_coders edge_metadata);
  process_output coders (produced_pcol_id edge_metadata) payloads.
End output.

(** * The input of a stage *)

(** What the input side acts on: the element store, the data channel and the timers. *)
Record World : Type := mkWorld { w_store : FlareElementStore; w_data : DataChannel; w_timers : T }.
Definition on_store {A} (m : store A) : st World A := λ w, let '(s, r) := m (w_store w) in (mkWorld s (w_data w) (w_timers w), r).
Definition on_data {A} (m : st DataChannel A) : st World A := λ w, let '(c, r) := m (w_data w) in (mkWorld (w_store w) c (w_timers w), r).
Definition on_timers {A} (m : st T A) : st World A := λ w, let '(t, r) := m (w_timers w) in (mkWorld (w_store w) (w_data w) t, r).

Definition expiration_entry (user_key : bytes) (window : BeamWindow) (fire_timestamp : Z) (timer : endpoint) : TimerEntry :=
  mkTimerEntry (mkTimerKey timer.1 timer.2 "" (canonical_key window) user_key) EventTime fire_timestamp fire_timestamp.

Definition window_expiration_timer_entries (element : WindowedValue) (element_coder : StandardBeamCoders) (timers : list endpoint) :
    outcome string (list TimerEntry) :=
  match timers with
  | [] => Ok []
  | _ =>
      match wv_value element with
      | KV key _ =>
          user_key ← map_err display (encode_key (key_coder element_coder) key);
          entries ← traverse (λ window,
            fire_timestamp ← max_timestamp_millis window;
            Ok (expiration_entry user_key window fire_timestamp <$> timers)) (wv_windows element);
          Ok (concat entries)
      | _ => Err "OnWindowExpiration requires keyed input"
      end
  end.

Definition insert_entries (entries : list TimerEntry) (pending : gmap bytes (option TimerEntry)) : gmap bytes (option TimerEntry) :=
  foldl (λ m entry, <[storage_key (te_key entry) := Some entry]> m) pending entries.

(** [sort_windowed_values_by_timestamp]. *)
Definition sort_windowed_values_by_timestamp : list WindowedValue → list WindowedValue := sort_by_key wv_timestamp_millis.

(** The bytes that an input element adds to the stream. *)
Definition encode_input_element (coders : BoundaryCoders) (element : WindowedValue) : outcome string bytes :=
  if opaque_void coders then
    match wv_value element with
    | PRIMITIVE (PBytes raw) => Ok raw
    | _ => Err "expected opaque bytes for VoidCoder pcollection"
    end
  else
    element ← (if structured_payload coders then encode_structured_boundary_value (logical_element_coder coders) element else Ok element);
    map_err display (encode_windowed_value (windowed_value_coder coders) element).

Section input.
Context (batch_size : nat → nat).
Context (instruction_id transform_id : string).

(** The elements that were encoded and not sent, their number, how many batches were sized,
    and how many elements there were. *)
Record InputState : Type := mkInput { encoded : bytes; batch_len : nat; input_sized : nat; total_sent : nat }.

Definition send_data (data : bytes) (is_last : bool) (timers : list TimerData) : st World () :=
  on_data (send_elements (mkElements [mkData instruction_id transform_id data is_last] timers)).

Definition send_element (coders : BoundaryCoders) (element : WindowedValue) (i : InputState) : st World InputState :=
  bs ← st_lift (encode_input_element coders element);
  let encoded := encoded i ++ bs in
  let batch_len := S (batch_len i) in
  if (batch_size (input_sized i) <=? batch_len)%nat then
    send_data encoded false [];;
    mret (mkInput [] 0 (S (input_sized i)) (S (total_sent i)))
  else mret (mkInput encoded batch_len (input_sized i) (S (total_sent i))).

(** The elements of a batch, then the timers for the ends of their windows. *)
Fixpoint send_batch (coders : BoundaryCoders) (expiration_timers : list endpoint) (values : list WindowedValue)
    (pending : gmap bytes (option TimerEntry)) (i : InputState) : st World InputState :=
  match values with
  | [] => on_timers (timer_apply iteration_order to_vec pending);; mret i
  | element :: values =>
      entries ← st_lift (window_expiration_timer_entries element (logical_element_coder coders) expiration_timers);
      i ← send_element coders element i;
      send_batch coders expiration_timers values (insert_entries entries pending) i
  end.

(** Where the values come from: sorted and all at once, or as the table yields them. *)
Inductive InputSource : Type := Ordered (values : list WindowedValue) | Streaming (v : WindowedValueStream) | Drained.

Definition open_input (pcollection_id : string) (time_sorted : bool) : store InputSource :=
  if time_sorted then values ← scan_windowed_values_since transform_id pcollection_id; mret (Ordered (sort_windowed_values_by_timestamp values))
  else v ← stream_windowed_values_since transform_id pcollection_id; mret (Streaming v).

Definition next_input (source : InputSource) : store (InputSource * option (list WindowedValue)) :=
  match source with
  | Ordered values => mret (Drained, Some values)
  | Streaming v => '(v, values) ← next_batch v; mret (Streaming v, values)
  | Drained => mret (Drained, None)
  end.

(** The batches that a source can still yield. *)
Definition source_length (source : InputSource) : nat :=
  match source with Ordered _ => 1 | Streaming v => length (default [] (inner v)) | Drained => 0 end.

Fixpoint send_input (fuel : nat) (coders : BoundaryCoders) (expiration_timers : list endpoint) (source : InputSource) (i : InputState) :
    st World InputState :=
  '(source, values) ← on_store (next_input source);
  match values, fuel with
  | None, _ => mret i
  | Some _, O => st_lift (Panic "the source yields more batches than it has")
  | Some values, S fuel => i ← send_batch coders expiration_timers values ∅ i; send_input fuel coders expiration_timers source i
  end.

Definition terminate_endpoint (timer : endpoint) : TimerData := mkTimerData instruction_id timer.1 timer.2 [] true.

Definition process_input (coders : BoundaryCoders) (pcollection_id : string) (timer_endpoints expiration_timers : list endpoint)
    (time_sorted : bool) : st World nat :=
  source ← on_store (open_input pcollection_id time_sorted);
  i ← send_input (source_length source) coders expiration_timers source (mkInput [] 0 0 0);
  (if decide (0 < batch_len i)%nat then send_data (encoded i) false [] else mret ());;
  send_data [] true (terminate_endpoint <$> timer_endpoints);;
  mret (total_sent i).

Definition process_input_elements (comps : Components) (pipeline_coders : coders_map) (pcollection_id coder_id : string)
    (component_ids : option (list string)) (timer_endpoints expiration_timers : list endpoint) (time_sorted : bool) : st World nat :=
  coders ← st_lift (input_coders comps pipeline_coders coder_id component_ids pcollection_id);
  process_input coders pcollection_id timer_endpoints expiration_timers time_sorted.

(** [terminate_bundle_input]. *)
Definition terminate_bundle_input (timer_endpoints : list endpoint) : st World () :=
  send_data [] true (terminate_endpoint <$> timer_endpoints).
End input.

(** * Timers *)

(** [resolve_timer_family]: nothing when the transform, the family, its coder or its domain
    is unknown. *)
Definition resolve_timer_family (comps : Components) (pipeline_coders : coders_map) (transform_id timer_family_id : string) :
    outcome string (option (TimerCoder * TimeDomain)) :=
  let known :=
    transform ← transforms comps !! transform_id;
    spec ← pt_spec transform;
    payload ← decode_timer_payload (fs_payload spec);
    family ← timer_families payload !! timer_family_id;
    domain ← (if decide (time_domain family = 1)%Z then Some EventTime else if decide (time_domain family = 2)%Z then Some ProcessingTime else None);
    coder ← pipeline_coders !! timer_family_coder_id family;
    urn ← spec_urn coder;
    Some (timer_family_coder_id family, domain, coder, urn) in
  match known with
  | None => Ok None
  | Some (id, domain, coder, urn) =>
      if decide (urn = TIMER_CODER) then
        match component_coder_ids coder with
        | key_id :: window_id :: _ =>
            key_coder ← resolve_element_coder pipeline_coders key_id None;
            match try_from_coder window_id pipeline_coders with
            | Ok window_coder => Ok (Some (mkTimerCoder key_coder window_coder, domain))
            | Err _ => Ok None
            | Panic w => Panic w
            end
        | _ => Ok None
        end
      else
        key_coder ← resolve_element_coder pipeline_coders id (Some (component_coder_ids coder));
        Ok (Some (mkTimerCoder key_coder GlobalCoder, domain))
  end.

(** ** Received timers *)

Definition timer_entry (transform_id timer_family_id : string) (timer : Timer) (domain : TimeDomain) : TimerEntry :=
  let window := match timer_windows timer with w :: _ => canonical_key w | [] => "global" end in
  mkTimerEntry (mkTimerKey transform_id timer_family_id (tag timer) window (user_key timer)) domain
    (Coders.fire_timestamp timer) (Coders.hold_timestamp timer).

(** A set replaces the timer of its key, a clear deletes it. *)
Definition record_timer (transform_id timer_family_id : string) (domain : TimeDomain) (pending : gmap bytes (option TimerEntry)) (timer : Timer) :
    gmap bytes (option TimerEntry) :=
  let entry := timer_entry transform_id timer_family_id timer domain in
  <[storage_key (te_key entry) := if clear timer then None else Some entry]> pending.

(** The timers of a chunk: one that cannot be decoded ends the chunk; a timer takes at
    least the length of its tag. *)
Fixpoint decode_timers (fuel : nat) (coder : TimerCoder) (transform_id timer_family_id : string) (domain : TimeDomain) (buf : bytes)
    (pending : gmap bytes (option TimerEntry)) (total : nat) : outcome string (gmap bytes (option TimerEntry) * nat) :=
  match buf, fuel with
  | [], _ => Ok (pending, total)
  | _, O => Panic "a timer takes no bytes"
  | _, S fuel =>
      match decode_timer coder buf with
      | Ok (timer, rest) =>
          decode_timers fuel coder transform_id timer_family_id domain rest (record_timer transform_id timer_family_id domain pending timer) (S total)
      | Err _ => Ok (pending, total)
      | Panic w => Panic w
      end
  end.

(** [flush_timers]: a failure is logged, and the writes are gone either way. *)
Definition flush_timers (pending : gmap bytes (option TimerEntry)) : st T () := λ t,
  let '(t, r) := timer_apply iteration_order to_vec pending t in
  (t, match r with Panic w => Panic w | _ => Ok () end).

Definition FLUSH_EVERY : nat := 512.

Fixpoint drain_timer_elements (coder : TimerCoder) (domain : TimeDomain) (transform_id timer_family_id : string)
    (payloads : list ElementStreamPayload) (pending : gmap bytes (option TimerEntry)) (total : nat) : st T nat :=
  match payloads with
  | [] => flush_timers pending;; mret total
  | DataChunk _ _ :: payloads => drain_timer_elements coder domain transform_id timer_family_id payloads pending total
  | TimerChunk _ timers :: payloads =>
      '(pending, total) ← st_lift (decode_timers (length (timers_bytes timers)) coder transform_id timer_family_id domain (timers_bytes timers) pending total);
      pending ← (if timers_is_last timers || (FLUSH_EVERY <=? size pending)%nat then flush_timers pending;; mret ∅ else mret pending);
      if timers_is_last timers then mret total
      else drain_timer_elements coder domain transform_id timer_family_id payloads pending total
  end.

Definition process_timer_elements (comps : Components) (pipeline_coders : coders_map) (transform_id timer_family_id : string)
    (payloads : list ElementStreamPayload) : st T () :=
  family ← st_lift (resolve_timer_family comps pipeline_coders transform_id timer_family_id);
  match family with
  | None => mret ()
  | Some (coder, domain) => drain_timer_elements coder domain transform_id timer_family_id payloads ∅ 0;; mret ()
  end.

(** ** Fired timers *)

Definition timer_to_wire (entry : TimerEntry) : option Timer :=
  window ← from_canonical_key (tk_window (te_key entry));
  Some (mkTimer (tk_user_key (te_key entry)) (tk_tag (te_key entry)) [window] false (fire_timestamp entry) (hold_timestamp entry) no_firing).

Definition timer_endpoint (entry : TimerEntry) : endpoint := (tk_transform_id (te_key entry), tk_timer_family_id (te_key entry)).

(** The groups of a [BTreeMap] by endpoint, each in the order of the timers. *)
Definition endpoint_le (a b : endpoint) : Prop := pair_compare a b ≠ Gt.
#[local] Instance endpoint_le_dec a b : Decision (endpoint_le a b).
Proof. unfold endpoint_le. apply _. Defined.
Definition timer_groups (timers : list TimerEntry) : list (endpoint * list TimerEntry) :=
  (λ k, (k, base.filter (λ entry, timer_endpoint entry = k) timers)) <$> merge_sort endpoint_le (remove_dups (timer_endpoint <$> timers)).

Definition encode_entries (coder : TimerCoder) (entries : list TimerEntry) : outcome string bytes :=
  encoded ← traverse (λ entry,
    match timer_to_wire entry with Some wire => map_err display (encode_timer coder wire) | None => Ok [] end) entries;
  Ok (concat encoded).

Definition group_message (comps : Components) (pipeline_coders : coders_map) (instruction_id : string) (group : endpoint * list TimerEntry) :
    outcome string (option TimerData) :=
  family ← resolve_timer_family comps pipeline_coders group.1.1 group.1.2;
  match family with
  | None => Ok None
  | Some (coder, _) => bs ← encode_entries coder group.2; Ok (Some (mkTimerData instruction_id group.1.1 group.1.2 bs false))
  end.

Definition send_fired_timers (comps : Components) (pipeline_coders : coders_map) (instruction_id : string) (timers : list TimerEntry) : st DataChannel () :=
  match timers with
  | [] => mret ()
  | _ =>
      messages ← st_lift (traverse (group_message comps pipeline_coders instruction_id) (timer_groups timers));
      match omap id messages with [] => mret () | messages => send_elements (mkElements [] messages) end
  end.
End runtime.
