(* ===== verification/BundleIoSpec.v ===== *)
(** What the data plane of a bundle does: decoders that no longer buffer confuses, the
    output of a stage under any cut of its stream into messages, its input as messages of
    whole elements, timers over the wire, and the queues of the multiplexer. *)
From S2P Require Import Prelude Bytes Varint Windows Coders CoderTypes CoderGraph Kv WindowMerge UserState Timers.
From S2P Require Import Pipeline StageFuser ExecGraph SideInputs Arrow RecordTables WindowColumns ElementStore BundleIo.
Local Open Scope string_scope.
Local Open Scope list_scope.
Set Warnings "-clear-no-such-hyp".

(** * Decoders on buffers that grow

    [grows r]: once [r] has returned, more bytes behind the buffer change nothing but what
    is left.  A decoder with this property never mistakes the front of an element for an
    element. *)
Definition grows {E A} (r : reader E A) : Prop :=
  ∀ buf a rest t, r buf = Ok (a, rest) → r (buf ++ t) = Ok (a, rest ++ t).

Section grows.
Context {E : Type}.

Lemma grows_ret {A} (a : A) : grows (E:=E) (mret a).
Proof. by intros buf ? ? t [= <- <-]. Qed.
Lemma grows_fail {A} e : grows (E:=E) (A:=A) (fail e).
Proof. by intros buf ? ? ?. Qed.
Lemma grows_panic {A} w : grows (E:=E) (A:=A) (panic w).
Proof. by intros buf ? ? ?. Qed.
Lemma grows_bind {A B} (r : reader E A) (k : A → reader E B) : grows r → (∀ a, grows (k a)) → grows (r ≫= k).
Proof.
  intros Hr Hk buf b rest t Hb. rewrite run_bind in *. destruct (r buf) as [[a rest1]| |] eqn:Er; [|done..].
  rewrite (Hr _ _ _ t Er). by apply Hk.
Qed.
Lemma grows_if {A} (b : bool) (r1 r2 : reader E A) : grows r1 → grows r2 → grows (if b then r1 else r2).
Proof. by destruct b. Qed.
Lemma grows_lift {A} (m : outcome E A) : grows (lift m).
Proof. intros buf a rest t Hb. unfold lift in *. destruct m; by simplify_eq. Qed.
Lemma grows_map_err {F A} (f : E → F) (r : reader E A) : grows r → grows (read_map_err f r).
Proof.
  intros Hr buf a rest t Hb. unfold read_map_err, map_err in *. destruct (r buf) as [[a' rest']| |] eqn:Er; simplify_eq.
  by rewrite (Hr _ _ _ t Er).
Qed.
Lemma grows_u8 : grows (E:=E) get_u8.
Proof. intros [|b buf] a rest t Hb; [done|]. by injection Hb as <- <-. Qed.

Lemma take_drop_grow {A} (n : nat) (l t : list A) : (n ≤ length l)%nat → take n (l ++ t) = take n l ∧ drop n (l ++ t) = drop n l ++ t.
Proof. intros Hn. by rewrite take_app_le, drop_app_le. Qed.

Lemma grows_slice len : grows (E:=E) (copy_to_slice len).
Proof.
  intros buf a rest t Hb. unfold copy_to_slice in *. destruct (Z.leb_spec len (Z.of_nat (length buf))) as [Hl|]; [|done]. injection Hb as <- <-.
  destruct (Z.leb_spec len (Z.of_nat (length (buf ++ t)))) as [|Hl']; [|rewrite length_app in Hl'; lia].
  destruct (take_drop_grow (Z.to_nat len) buf t) as [-> ->]; [lia|done].
Qed.
Lemma grows_be n : grows (E:=E) (get_be n).
Proof.
  intros buf a rest t Hb. unfold get_be in *. case_decide as Hn; [|done]. injection Hb as <- <-.
  rewrite decide_True by (rewrite length_app; lia). by destruct (take_drop_grow n buf t) as [-> ->].
Qed.
(** A reader that asks how much is left to refuse a short buffer. *)
Lemma grows_guarded {A} (need : Z) e (r : reader E A) : grows r → grows (n ← remaining; if (n <? need)%Z then fail e else r).
Proof.
  intros Hr buf a rest t Hb. rewrite run_bind in *. unfold remaining in *. destruct (Z.ltb_spec (Z.of_nat (length buf)) need) as [|Hl]; [done|].
  destruct (Z.ltb_spec (Z.of_nat (length (buf ++ t))) need) as [Hl'|]; [rewrite length_app in Hl'; lia|]. by apply Hr.
Qed.

Lemma grows_read_n {A} n (r : reader E A) : grows r → grows (read_n n r).
Proof. intros Hr. induction n as [|n IH]; simpl; [apply grows_ret|]. apply grows_bind; [done|]. intros x. apply grows_bind; [done|]. intros xs. apply grows_ret. Qed.
Lemma grows_read_all {A B} (f : A → reader E B) (l : list A) : Forall (λ c, grows (f c)) l → grows (Varint.read_all f l).
Proof. induction 1 as [|c l Hc _ IH]; simpl; [apply grows_ret|]. apply grows_bind; [done|]. intros x. apply grows_bind; [done|]. intros xs. apply grows_ret. Qed.
End grows.

#[export] Hint Resolve grows_ret grows_fail grows_panic grows_bind grows_if grows_lift grows_map_err grows_u8 grows_slice grows_be
  grows_guarded grows_read_n grows_read_all : flare.

Section decoders.
Context `{P : Profile}.

Lemma grows_varint {E} : grows (E:=E) decode_varint.
Proof.
  intros buf a rest t. with_strategy transparent [decode_varint] unfold decode_varint. generalize 0%Z at 1 3 as result. generalize 0%Z as shift.
  induction buf as [|b buf IH]; intros shift result Hb; cbn [app decode_varint_loop] in *; [done|].
  destruct (shl_u64 _ _) as [group| |]; try done. cbn [mbind outcome_bind] in *. case_match; [by simplify_eq|]. by apply IH.
Qed.

Lemma grows_chunks_loop {E A} (r : reader E A) fuel : grows r → ∀ fuel' buf a rest t, (fuel ≤ fuel')%nat →
  read_chunks_loop fuel r buf = Ok (a, rest) → read_chunks_loop fuel' r (buf ++ t) = Ok (a, rest ++ t).
Proof.
  intros Hr. induction fuel as [|fuel IH]; intros [|fuel'] buf a rest t Hf Hb; try done; [lia|].
  cbn [read_chunks_loop] in *. rewrite run_bind in *. destruct (decode_varint buf) as [[n b1]| |] eqn:En; try done.
  rewrite (grows_varint _ _ _ t En). destruct (n =? 0)%Z; [by apply grows_ret|]. rewrite run_bind in *.
  destruct (read_n _ r b1) as [[xs b2]| |] eqn:Ex; try done. rewrite (grows_read_n _ _ Hr _ _ _ t Ex). rewrite run_bind in *.
  destruct (read_chunks_loop fuel r b2) as [[ys b3]| |] eqn:Ey; try done. rewrite (IH fuel' _ _ _ t ltac:(lia) Ey). by apply grows_ret.
Qed.

Lemma grows_chunks {E A} (r : reader E A) : grows r → grows (read_chunks r).
Proof. intros Hr buf a rest t Hb. unfold read_chunks in *. eapply grows_chunks_loop; [done| |done]. rewrite length_app. lia. Qed.

Lemma grows_length_delimited name : grows (decode_length_delimited name).
Proof. apply grows_bind; [apply grows_varint|]. intros len. apply grows_guarded. apply grows_slice. Qed.
End decoders.

#[export] Hint Resolve grows_varint grows_chunks grows_length_delimited : flare.

(** Go through the binds and tests of a decoder. *)
Ltac grow :=
  repeat first
    [ solve [auto with flare]
    | apply grows_guarded
    | apply grows_bind; [|intros ?]
    | apply grows_if
    | match goal with |- grows (match ?x with _ => _ end) => destruct x end ].

Section elements.
Context `{P : Profile}.

Lemma grows_signed_varint {E} : grows (E:=E) decode_signed_varint.
Proof. unfold decode_signed_varint. grow. Qed.
Lemma grows_timestamp {E} : grows (E:=E) decode_timestamp_millis.
Proof. unfold decode_timestamp_millis, get_u64. grow. Qed.
#[local] Hint Resolve grows_signed_varint grows_timestamp : flare.

Lemma grows_window {E} c : grows (E:=E) (decode_one_window c).
Proof. destruct c; cbn [decode_one_window]; grow. Qed.
#[local] Hint Resolve grows_window : flare.

Lemma grows_windows {E} c : grows (E:=E) (decode_windows c).
Proof. unfold decode_windows, get_i32. grow. Qed.
Lemma grows_pane {E} : grows (E:=E) decode_pane_info.
Proof. unfold decode_pane_info. cbv zeta. grow. Qed.
#[local] Hint Resolve grows_windows grows_pane : flare.
Lemma grows_header {E} c : grows (E:=E) (decode_windowed_value_header c).
Proof. unfold decode_windowed_value_header. grow. Qed.

(** The coders whose encodings say where they end: all but the opaque Java coder. *)
Fixpoint self_delimiting (c : StandardBeamCoders) : bool :=
  match c with
  | JavaOpaqueCoder => false
  | NullableCoder v => self_delimiting v
  | IterableCoder e => self_delimiting e
  | TupleCoder cs => forallb self_delimiting cs
  | KvCoder k v => self_delimiting k && self_delimiting v
  | GbkCoder k e => self_delimiting k && self_delimiting e
  | _ => true
  end.

Lemma grows_iterable d : grows d → grows (decode_iterable d).
Proof. intros Hd. unfold decode_iterable, get_i32. grow. Qed.
Lemma grows_primitive d : grows d → grows (decode_primitive_with d).
Proof. intros Hd. unfold decode_primitive_with. grow. Qed.
Lemma grows_key k d : grows d → grows (decode_key_with k d).
Proof. intros Hd. unfold decode_key_with, decode_primitive_with. grow. Qed.

Lemma grows_nested c : self_delimiting c = true → grows (decode_nested c).
Proof.
  induction c as [c Hl|e IH|v IH|cs IH|k v IHk IHv|k e IHk IHe] using coder_ind; intros Hs; cbn [decode_nested self_delimiting] in *.
  - destruct c; try discriminate; cbn [decode_nested]; unfold decode_string, decode_varint32, decode_double, get_u64; grow.
  - apply grows_bind; [by apply grows_iterable, IH|]. intros. apply grows_ret.
  - apply grows_bind; [apply grows_u8|]. intros b. apply grows_if; [apply grows_ret|]. apply grows_if; [by apply IH|apply grows_fail].
  - apply grows_bind; [|intros; apply grows_ret]. apply grows_read_all.
    rewrite forallb_forall in Hs. apply Forall_forall. intros c Hc. apply grows_primitive. rewrite Forall_forall in IH.
    apply IH; [done|]. apply Hs. by apply list_elem_of_In.
  - apply andb_true_iff in Hs as [Hk Hv]. apply grows_bind; [by apply grows_key, IHk|]. intros. apply grows_bind; [by apply IHv|].
    intros. apply grows_ret.
  - apply andb_true_iff in Hs as [Hk He]. apply grows_bind; [by apply grows_key, IHk|]. intros. apply grows_bind; [by apply grows_iterable, IHe|].
    intros. apply grows_ret.
Qed.

Lemma grows_windowed_value c : self_delimiting (wvc_element_coder c) = true → grows (decode_windowed_value c).
Proof.
  intros Hs. apply grows_bind; [apply grows_header|]. intros [[ts ws] pane]. apply grows_bind; [by apply grows_nested|].
  intros. apply grows_ret.
Qed.
End elements.

(** The run of a sequence. *)
Lemma st_run {B A C} (f : st B A) (k : A → st B C) b :
  mbind (M:=st B) k f b = match f b with (b', Ok a) => k a b' | (b', Err e) => (b', Err e) | (b', Panic w) => (b', Panic w) end.
Proof. done. Qed.

(** * Batches *)

(** How a sequence is cut into batches, when the [n]-th of them has [batch_size n] elements
    and [acc] were put aside before; and what the last one lacks. *)
Fixpoint cut_batches {A} (batch_size : nat → nat) (n : nat) (acc xs : list A) : list (list A) * list A :=
  match xs with
  | [] => ([], acc)
  | x :: xs =>
      if (batch_size n <=? length (acc ++ [x]))%nat
      then let '(full, last) := cut_batches batch_size (S n) [] xs in ((acc ++ [x]) :: full, last)
      else cut_batches batch_size n (acc ++ [x]) xs
  end.

Lemma cut_concat {A} sizes (xs : list A) : ∀ n acc, concat (cut_batches sizes n acc xs).1 ++ (cut_batches sizes n acc xs).2 = acc ++ xs.
Proof.
  induction xs as [|x xs IH]; intros n acc; cbn [cut_batches]; [by rewrite app_nil_r|]. case_match.
  - specialize (IH (S n) []). destruct (cut_batches sizes (S n) [] xs) as [full last]. cbn in *. rewrite <-!app_assoc, IH. done.
  - rewrite IH, <-app_assoc. done.
Qed.

Lemma cut_fmap {A B} (f : A → B) sizes (xs : list A) : ∀ n (acc : list A),
  cut_batches sizes n (map f acc) (map f xs) = (map (map f) (cut_batches sizes n acc xs).1, map f (cut_batches sizes n acc xs).2).
Proof.
  induction xs as [|x xs IH]; intros n acc; cbn [cut_batches map]; [done|].
  change [f x] with (map f [x]). rewrite <-map_app, length_map. case_match.
  - specialize (IH (S n) []). cbn in IH. rewrite IH. by destruct (cut_batches sizes (S n) [] xs).
  - apply IH.
Qed.

(** All batches of a sequence, the last one short. *)
Definition batches_of {A} (sizes : nat → nat) (xs : list A) : list (list A) :=
  let '(full, last) := cut_batches sizes 0 [] xs in match last with [] => full | _ => full ++ [last] end.

Lemma batches_of_concat {A} sizes (xs : list A) : concat (batches_of sizes xs) = xs.
Proof.
  unfold batches_of. pose proof (cut_concat sizes xs 0 []) as Hc. destruct (cut_batches sizes 0 [] xs) as [full last]. cbn in Hc.
  destruct last; [by rewrite app_nil_r in Hc|]. rewrite concat_app. cbn. by rewrite app_nil_r.
Qed.

(** Where a prefix of concatenated pieces ends: between two of them or within one. *)
Lemma split_prefix {A} (bss : list (list A)) : Forall (λ bs, bs ≠ []) bss → ∀ b t, b ++ t = concat bss →
  ∃ bss1 bss2 b2, bss = bss1 ++ bss2 ∧ b = concat bss1 ++ b2 ∧ b2 ++ t = concat bss2 ∧
    (b2 = [] ∨ ∃ h bss3 t', bss2 = h :: bss3 ∧ h = b2 ++ t' ∧ t' ≠ []).
Proof.
  induction 1 as [|h bss Hh _ IH]; intros b t Hb.
  { exists [], [], []. cbn in Hb. apply app_nil in Hb as [-> ->]. split_and!; auto. }
  cbn in Hb. destruct (decide (length h ≤ length b)%nat) as [Hl|Hl].
  - assert (∃ b', b = h ++ b') as [b' ->].
    { exists (drop (length h) b). rewrite <-(take_drop (length h) b) at 1. f_equal. apply (f_equal (take (length h))) in Hb.
      rewrite take_app_le in Hb by done. by rewrite take_app_exact in Hb. }
    rewrite <-app_assoc in Hb. apply app_inv_head in Hb. destruct (IH b' t Hb) as (bss1 & bss2 & b2 & -> & -> & Ht & Hcase).
    exists (h :: bss1), bss2, b2. split_and!; [done|cbn; by rewrite app_assoc|done|done].
  - exists [], (h :: bss), b. split_and!; [done|done|done|]. right. exists h, bss, (drop (length b) h). split_and!; [done| |].
    + rewrite <-(take_drop (length b) h) at 1. f_equal. apply (f_equal (take (length b))) in Hb.
      rewrite take_app_exact in Hb by done. by rewrite take_app_le in Hb by lia.
    + intros Hn. apply (f_equal length) in Hn. rewrite length_drop in Hn. cbn in Hn. lia.
Qed.

(** * The output of a stage *)

Section output.
Context {W PaimonSchema D : Type} `{Arrow} `{P : Profile} `{Warehouse W PaimonSchema} `{KvStore D}.
Context (display : CodersError → string) (batch_size : nat → nat).
#[local] Existing Instance paimon.
Abbreviation FlareElementStore := (@FlareElementStore W D).
Abbreviation store := (st FlareElementStore).

(** The bytes of one element on the stream, and the value that is written for it. *)
Definition on_wire (coders : BoundaryCoders) (bs : bytes) (v : WindowedValue) : Prop :=
  ∃ w u, reads (decode_windowed_value (windowed_value_coder coders)) bs w ∧
    (if structured_payload coders then decode_structured_boundary_value display (logical_element_coder coders) w else Ok w) = Ok u ∧
    v = with_value (if opaque_void coders then PRIMITIVE (PBytes bs) else wv_value u) u.

Lemma on_wire_nonempty coders bs v : on_wire coders bs v → bs ≠ [].
Proof. intros (w & u & Hr & _) ->. specialize (Hr []). discriminate Hr. Qed.

Lemma on_wire_all_nonempty coders bss vs : Forall2 (on_wire coders) bss vs → Forall (λ bs, bs ≠ []) bss.
Proof. induction 1; constructor; eauto using on_wire_nonempty. Qed.

(** ** Pushing values *)

Definition with_buffer (buffer : bytes) (o : OutputState) : OutputState := mkOutput buffer (batch o) (output_writer o) (sized o).

Fixpoint push_values (vs : list WindowedValue) (o : OutputState) : store OutputState :=
  match vs with [] => mret o | v :: vs => o ← push_value batch_size (stream_buffer o) v o; push_values vs o end.

Lemma push_value_buffer b b' v o (s : FlareElementStore) : push_value batch_size b' v o s = (o' ← push_value batch_size b v o; mret (with_buffer b' o')) s.
Proof.
  unfold push_value. case_match; [|done]. rewrite !st_run. by destruct (writer_write _ _ s) as [s1 [w|e|e]].
Qed.

Lemma push_value_keeps_buffer b v o (s s' : FlareElementStore) o' : push_value batch_size b v o s = (s', Ok o') → stream_buffer o' = b.
Proof. unfold push_value. case_match; intros Hp; inv_st Hp; [|done]. injection Hp as <- <-. done. Qed.

Lemma push_values_keeps_buffer vs : ∀ o (s s' : FlareElementStore) o', push_values vs o s = (s', Ok o') → stream_buffer o' = stream_buffer o.
Proof.
  induction vs as [|v vs IH]; intros o s s' o' Hp; cbn in Hp; [by injection Hp as <- <-|].
  apply st_bind_ok in Hp as (s1 & o1 & E & Hp). apply IH in Hp as ->. by eapply push_value_keeps_buffer.
Qed.

Lemma push_values_app vs vs' o (s : FlareElementStore) : push_values (vs ++ vs') o s = (o' ← push_values vs o; push_values vs' o') s.
Proof.
  revert o s. induction vs as [|v vs IH]; intros o s; [done|]. cbn. unfold mbind, st_bind.
  destruct (push_value _ _ v o s) as [s1 [o1|e|e]]; [|done..]. apply IH.
Qed.

(** Pushed values are written in batches of the sizes. *)
Lemma push_values_batches vs : ∀ o (s : FlareElementStore), push_values vs o s =
  (w ← write_batches (output_writer o) (cut_batches batch_size (sized o) (batch o) vs).1;
   mret (mkOutput (stream_buffer o) (cut_batches batch_size (sized o) (batch o) vs).2 w
     (sized o + length (cut_batches batch_size (sized o) (batch o) vs).1))) s.
Proof.
  induction vs as [|v vs IH]; intros o s; cbn [push_values cut_batches].
  - cbn. rewrite Nat.add_0_r. by destruct o.
  - unfold push_value at 1. destruct (batch_size (sized o) <=? _)%nat.
    + destruct (cut_batches batch_size (S (sized o)) [] vs) as [full last] eqn:Ec. cbn [fst snd write_batches]. rewrite !st_run.
      destruct (writer_write (output_writer o) (batch o ++ [v]) s) as [s1 [w|e|e]]; [|done..].
      unfold mret at 1, st_ret at 1. rewrite IH. cbn [sized batch output_writer stream_buffer]. rewrite Ec. cbn. by rewrite Nat.add_succ_r.
    + apply IH.
Qed.

(** ** Decoding the buffer *)

Lemma decode_one fuel coders ended bs v rest o (s : FlareElementStore) : on_wire coders bs v → stream_buffer o = bs ++ rest →
  decode_elements display batch_size (S fuel) coders ended o s =
  (o ← push_value batch_size rest v o; decode_elements display batch_size fuel coders ended o) s.
Proof.
  intros Hv Ho. pose proof (on_wire_nonempty _ _ _ Hv) as Hne. destruct Hv as (w & u & Hr & Hu & ->). cbn [decode_elements].
  rewrite Ho. destruct (bs ++ rest) as [|b0 buf] eqn:Eb; [by destruct bs|]. rewrite <-Eb. rewrite (Hr rest).
  rewrite !st_run. unfold take_element. rewrite Ho, <-Eb, length_app, Nat.add_sub, take_app_length, drop_app_length, Hu, st_run. unfold st_lift.
  by destruct (opaque_void coders).
Qed.

Lemma decode_done fuel coders ended o (s : FlareElementStore) : stream_buffer o = [] → decode_elements display batch_size fuel coders ended o s = (s, Ok o).
Proof. intros Ho. destruct fuel; cbn [decode_elements]; by rewrite Ho. Qed.

Lemma pieces_length (bss : list bytes) : Forall (λ bs, bs ≠ []) bss → (length bss ≤ length (concat bss))%nat.
Proof.
  induction 1 as [|bs bss Hb _ IH]; [done|]. cbn. rewrite length_app. destruct bs; [done|]. cbn. lia.
Qed.

Lemma decode_pushes coders ended rest bss vs : Forall2 (on_wire coders) bss vs → ∀ fuel o, stream_buffer o = concat bss ++ rest →
  (length bss ≤ fuel)%nat → ∀ (s : FlareElementStore), decode_elements display batch_size fuel coders ended o s =
    (o ← push_values vs (with_buffer rest o); decode_elements display batch_size (fuel - length bss) coders ended o) s.
Proof.
  induction 1 as [|bs v bss vs Hv _ IH]; intros fuel o Ho Hf s.
  { cbn in *. rewrite Nat.sub_0_r. unfold mbind, st_bind, mret, st_ret. rewrite <-Ho. by destruct o. }
  cbn [concat] in Ho. rewrite <-app_assoc in Ho. destruct fuel as [|fuel]; [cbn in Hf; lia|].
  rewrite (decode_one _ _ _ _ _ _ _ _ Hv Ho). cbn [push_values length Nat.sub with_buffer stream_buffer].
  rewrite !st_run, (push_value_buffer (concat bss ++ rest) rest v (with_buffer rest o)), st_run.
  change (push_value batch_size (concat bss ++ rest) v (with_buffer rest o) s) with (push_value batch_size (concat bss ++ rest) v o s).
  destruct (push_value _ _ v o s) as [s1 [o1|e|e]] eqn:E; [|done..]. cbn. apply push_value_keeps_buffer in E.
  rewrite (IH fuel o1 E) by (cbn in Hf; lia). done.
Qed.

(** The front of an element is never taken for an element. *)
Lemma front_not_decoded coders b t w : grows (decode_windowed_value (windowed_value_coder coders)) → t ≠ [] →
  reads (decode_windowed_value (windowed_value_coder coders)) (b ++ t) w → is_ok (decode_windowed_value (windowed_value_coder coders) b) = false.
Proof.
  intros Hg Ht Hr. destruct (decode_windowed_value _ b) as [[v rest]|e|e] eqn:E; [|done..]. apply (Hg _ _ _ t) in E.
  specialize (Hr []). rewrite app_nil_r, E in Hr. injection Hr as _ Hn. by apply app_nil in Hn as [_ ->].
Qed.

(** What becomes of a buffer that holds the front of an element. *)
Lemma decode_front coders b : b ≠ [] → is_ok (decode_windowed_value (windowed_value_coder coders) b) = false →
  (∃ e, ∀ fuel ended o (s : FlareElementStore), stream_buffer o = b → (length b ≤ fuel)%nat → decode_elements display batch_size fuel coders ended o s = (s, Err e)) ∨
  ((∀ fuel o (s : FlareElementStore), stream_buffer o = b → (length b ≤ fuel)%nat → decode_elements display batch_size fuel coders false o s = (s, Ok o)) ∧
   ∃ e, ∀ fuel o (s : FlareElementStore), stream_buffer o = b → (length b ≤ fuel)%nat → decode_elements display batch_size fuel coders true o s = (s, Err e)).
Proof.
  intros Hb Hn. destruct b as [|b0 b]; [done|].
  destruct (decode_windowed_value (windowed_value_coder coders) (b0 :: b)) as [[v rest]|e|e] eqn:E; [done|left|right].
  - eexists. intros [|fuel] ended o s Ho Hf; [cbn in Hf; lia|]. cbn [decode_elements]. rewrite Ho, E. done.
  - split.
    + intros [|fuel] o s Ho Hf; [cbn in Hf; lia|]. cbn [decode_elements]. rewrite Ho, E. done.
    + eexists. intros [|fuel] o s Ho Hf; [cbn in Hf; lia|]. cbn [decode_elements]. rewrite Ho, E. done.
Qed.

(** ** Receiving *)

(** The bytes of a stream: the data of its chunks, up to the last one. *)
Fixpoint stream_chunks (payloads : list ElementStreamPayload) : list bytes :=
  match payloads with
  | [] => []
  | DataChunk _ data :: payloads => data_bytes data :: (if data_is_last data then [] else stream_chunks payloads)
  | TimerChunk _ _ :: payloads => stream_chunks payloads
  end.

Definition output_run (coders : BoundaryCoders) (payloads : list ElementStreamPayload) (o : OutputState) : store () :=
  o ← receive_output display batch_size coders payloads o; finish_output o.

(** The whole stream was decoded; or a part of it, and then an error ended the run. *)
Definition all_pushed (coders : BoundaryCoders) (payloads : list ElementStreamPayload) (b : bytes) (vs : list WindowedValue) : Prop :=
  ∀ o (s : FlareElementStore), stream_buffer o = b → output_run coders payloads o s = (o ← push_values vs (with_buffer [] o); finish_output o) s.
Definition some_pushed (coders : BoundaryCoders) (payloads : list ElementStreamPayload) (b : bytes) (vs : list WindowedValue) : Prop :=
  ∃ e, ∀ o (s : FlareElementStore), stream_buffer o = b → output_run coders payloads o s = (o ← push_values vs (with_buffer [] o); st_lift (Err e)) s.

Lemma push_values_buffer b vs : ∀ o (s : FlareElementStore), push_values vs (with_buffer b o) s = (o' ← push_values vs o; mret (with_buffer b o')) s.
Proof.
  induction vs as [|v vs IH]; intros o s; [done|]. cbn [push_values with_buffer stream_buffer]. rewrite !st_run.
  rewrite (push_value_buffer (stream_buffer o) b v (with_buffer b o)), st_run.
  change (push_value batch_size (stream_buffer o) v (with_buffer b o) s) with (push_value batch_size (stream_buffer o) v o s).
  destruct (push_value _ _ v o s) as [s1 [o1|e|e]]; [|done..]. apply IH.
Qed.

Lemma push_values_compose {A} b vs1 vs2 (k : OutputState → store A) o (s : FlareElementStore) :
  (o1 ← push_values vs1 (with_buffer b o); o2 ← push_values vs2 (with_buffer [] o1); k o2) s = (o2 ← push_values (vs1 ++ vs2) (with_buffer [] o); k o2) s.
Proof.
  rewrite !st_run, push_values_app, st_run, (push_values_buffer b vs1), (push_values_buffer [] vs1), !st_run.
  by destruct (push_values vs1 o s) as [s1 [o1|e|e]].
Qed.

(** The step of the loop for a chunk of data. *)
Lemma output_run_chunk coders key data payloads o (s : FlareElementStore) : output_run coders (DataChunk key data :: payloads) o s =
  (o ← decode_elements display batch_size (length (stream_buffer o ++ data_bytes data)) coders (data_is_last data) (with_buffer (stream_buffer o ++ data_bytes data) o);
   if data_is_last data then finish_output o else output_run coders payloads o) s.
Proof.
  unfold output_run. cbn [receive_output]. rewrite !st_run. unfold with_buffer. destruct (decode_elements _ _ _ _ _ _ s) as [s1 [o1|e|e]]; [|done..].
  by destruct (data_is_last data).
Qed.

Lemma receive_whole coders payloads : ∀ bsss vs, stream_chunks payloads = map (@concat byte) bsss → Forall2 (on_wire coders) (concat bsss) vs →
  all_pushed coders payloads [] vs.
Proof.
  induction payloads as [|[key data|key timers] payloads IH]; intros bsss vs Hc Hv.
  - destruct bsss; [|done]. inversion Hv; subst. intros o s Ho. unfold output_run. cbn. rewrite !st_run. cbn. destruct o. cbn in *. by subst.
  - destruct bsss as [|bss bsss]; [done|]. cbn in Hc. injection Hc as Hd Hc. cbn in Hv. apply Forall2_app_inv_l in Hv as (vs1 & vs2 & Hv1 & Hv2 & ->).
    intros o s Ho. rewrite output_run_chunk, Ho, Hd. cbn [app]. rewrite st_run.
    rewrite (decode_pushes coders _ [] bss vs1 Hv1); [|by rewrite app_nil_r|apply pieces_length; by eapply on_wire_all_nonempty].
    rewrite !st_run, push_values_app, !st_run. change (with_buffer [] (with_buffer (concat bss) o)) with (with_buffer [] o).
    destruct (push_values vs1 (with_buffer [] o) s) as [s1 [o1|e|e]] eqn:E; [|done..]. apply push_values_keeps_buffer in E. cbn in E.
    rewrite decode_done by done. destruct (data_is_last data).
    + destruct bsss; [|done]. inversion Hv2; subst. done.
    + rewrite (IH bsss vs2 Hc Hv2 o1 s1 E). rewrite st_run. f_equal. rewrite <-E. by destruct o1.
  - intros o s Ho. unfold output_run. cbn [receive_output]. by apply (IH bsss vs).
Qed.

(** A buffer that holds no whole element ends the run, or is kept for the next chunk. *)
Lemma decode_tail coders ended b t bss vs : grows (decode_windowed_value (windowed_value_coder coders)) → Forall2 (on_wire coders) bss vs →
  b ++ t = concat bss → (b = [] ∨ ∃ h bss' t', bss = h :: bss' ∧ h = b ++ t' ∧ t' ≠ []) →
  (∀ fuel o (s : FlareElementStore), stream_buffer o = b → (length b ≤ fuel)%nat → decode_elements display batch_size fuel coders ended o s = (s, Ok o)) ∧
    (ended = true → t = [] → vs = [] ∧ b = []) ∨
  ∃ e, ∀ fuel o (s : FlareElementStore), stream_buffer o = b → (length b ≤ fuel)%nat → decode_elements display batch_size fuel coders ended o s = (s, Err e).
Proof.
  intros Hg Hv Hb Hcase. destruct (decide (b = [])) as [->|Hne].
  { left. split; [intros; by apply decode_done|]. intros _ ->. split; [|done]. destruct Hv as [|bs v bss vs Hv _]; [done|].
    apply on_wire_nonempty in Hv. cbn in Hb. by destruct bs. }
  destruct Hcase as [|(h & bss' & t' & -> & -> & Ht')]; [done|]. inversion Hv as [|? v ? vs' (w & u & Hr & _) _]; subst.
  destruct (decode_front coders b Hne (front_not_decoded _ _ _ _ Hg Ht' Hr)) as [[e He]|[Hwait [e He]]]; [right; by exists e; intros; apply He|].
  destruct ended; [right; by exists e|]. by left.
Qed.

Lemma receive_outcome coders payloads : grows (decode_windowed_value (windowed_value_coder coders)) → ∀ bss vs b,
  Forall2 (on_wire coders) bss vs → b ++ concat (stream_chunks payloads) = concat bss →
  all_pushed coders payloads b vs ∨ ∃ vs1 vs2, vs = vs1 ++ vs2 ∧ some_pushed coders payloads b vs1.
Proof.
  intros Hg. induction payloads as [|[key data|key timers] payloads IH]; intros bss vs b Hv Hb.
  - cbn in Hb. rewrite app_nil_r in Hb. subst b. destruct Hv as [|bs v bss vs Hv _].
    + left. intros o s Ho. unfold output_run. cbn. rewrite !st_run. cbn. destruct o. cbn in *. by subst.
    + right. exists [], (v :: vs). split; [done|]. eexists. intros o s Ho. unfold output_run. cbn [receive_output push_values]. rewrite !st_run. cbn [mret st_ret].
      unfold finish_output. rewrite Ho. apply on_wire_nonempty in Hv. cbn. destruct (bs ++ concat bss) eqn:Eb; [by destruct bs|done].
  - cbn in Hb. rewrite app_assoc in Hb. destruct (split_prefix bss (on_wire_all_nonempty _ _ _ Hv) _ _ Hb) as (bss1 & bss2 & b2 & -> & Hb1 & Hb2 & Hcase).
    apply Forall2_app_inv_l in Hv as (vs1 & vs2 & Hv1 & Hv2 & ->).
    assert (∀ o (s : FlareElementStore), stream_buffer o = b → ∃ fuel, (length b2 ≤ fuel)%nat ∧ output_run coders (DataChunk key data :: payloads) o s =
      (o ← push_values vs1 (with_buffer b2 o); o ← decode_elements display batch_size fuel coders (data_is_last data) o;
       if data_is_last data then finish_output o else output_run coders payloads o) s) as Hrun.
    { intros o s Ho. exists (length (b ++ data_bytes data) - length bss1)%nat. pose proof (pieces_length bss1 (on_wire_all_nonempty _ _ _ Hv1)) as Hl.
      split; [rewrite Hb1, length_app; lia|]. rewrite output_run_chunk, Ho, st_run. rewrite (decode_pushes coders _ b2 bss1 vs1 Hv1).
      - rewrite !st_run. change (with_buffer b2 (with_buffer _ o)) with (with_buffer b2 o). by destruct (push_values vs1 _ s) as [s1 [o1|e|e]].
      - done.
      - rewrite Hb1, length_app. lia. }
    destruct (decode_tail coders (data_is_last data) b2 _ bss2 vs2 Hg Hv2 Hb2 Hcase) as [[Hwait Hlast]|[e Herr]].
    + destruct (data_is_last data).
      * destruct (Hlast eq_refl eq_refl) as [-> ->]. left. intros o s Ho. destruct (Hrun o s Ho) as (fuel & Hf & ->). rewrite app_nil_r, !st_run.
        destruct (push_values vs1 _ s) as [s1 [o1|e|e]] eqn:E; [|done..]. apply push_values_keeps_buffer in E. by rewrite st_run, Hwait.
      * destruct (IH bss2 vs2 b2 Hv2 Hb2) as [Hall|(vs2a & vs2b & -> & e & Hs)]; [left|right; exists (vs1 ++ vs2a), vs2b; split; [by rewrite app_assoc|]; exists e];
          intros o s Ho; destruct (Hrun o s Ho) as (fuel & Hf & ->); rewrite <-(push_values_compose b2), !st_run;
          (destruct (push_values vs1 _ s) as [s1 [o1|e1|e1]] eqn:E; [|done..]); apply push_values_keeps_buffer in E; rewrite st_run, Hwait by done;
          [by apply Hall|by apply Hs].
    + right. exists vs1, vs2. split; [done|]. exists e. intros o s Ho. destruct (Hrun o s Ho) as (fuel & Hf & ->).
      rewrite !st_run, (push_values_buffer b2), (push_values_buffer []), !st_run. destruct (push_values vs1 o s) as [s1 [o1|e1|e1]]; [|done..].
      cbn. by rewrite st_run, Herr.
  - destruct (IH bss vs b Hv Hb) as [Hall|(vs1 & vs2 & -> & e & Hs)]; [left|right; exists vs1, vs2; split; [done|]; exists e];
      intros o s Ho; unfold output_run; cbn [receive_output]; [by apply Hall|by apply Hs].
Qed.

(** ** The bundle that is written *)

Lemma write_batches_app bs bs' : ∀ w (s : FlareElementStore), write_batches w (bs ++ bs') s = (w' ← write_batches w bs; write_batches w' bs') s.
Proof.
  induction bs as [|b bs IH]; intros w s; [done|]. cbn [app write_batches]. rewrite !st_run.
  destruct (writer_write w b s) as [s1 [w1|e|e]]; [|done..]. by rewrite IH.
Qed.

Definition output_start (pcollection_id : string) : OutputState := mkOutput [] [] (new_writer pcollection_id) 0.

Lemma all_pushed_bundle p vs (s : FlareElementStore) :
  (o ← push_values vs (output_start p); finish_output o) s = write_bundle p (batches_of batch_size vs) s.
Proof.
  rewrite st_run, push_values_batches. unfold write_bundle, batches_of, output_start. cbn [output_writer sized batch stream_buffer].
  destruct (cut_batches batch_size 0 [] vs) as [full [|v last]]; cbn [fst snd]; rewrite !st_run.
  - destruct (write_batches (new_writer p) full s) as [s1 [w|e|e]]; [|done..]. unfold mret, st_ret. unfold finish_output. cbn. by rewrite st_run.
  - rewrite write_batches_app, st_run. destruct (write_batches (new_writer p) full s) as [s1 [w|e|e]]; [|done..].
    unfold mret, st_ret. unfold finish_output. cbn [stream_buffer batch output_writer write_batches]. rewrite !st_run.
    by destruct (writer_write w (v :: last) s1) as [s2 [w2|e|e]].
Qed.

Lemma some_pushed_batches p vs e (s : FlareElementStore) : (o ← push_values vs (output_start p); st_lift (A:=()) (Err e)) s =
  (w ← write_batches (new_writer p) (cut_batches batch_size 0 [] vs).1; st_lift (Err e)) s.
Proof.
  rewrite !st_run, push_values_batches. cbn [output_start output_writer sized batch]. rewrite st_run.
  by destruct (write_batches (new_writer p) _ s) as [s1 [w|e1|e1]].
Qed.

Lemma output_whole coders p payloads bsss vs (s : FlareElementStore) : stream_chunks payloads = map (@concat byte) bsss →
  Forall2 (on_wire coders) (concat bsss) vs → process_output display batch_size coders p payloads s = write_bundle p (batches_of batch_size vs) s.
Proof.
  intros Hc Hv. pose proof (receive_whole coders payloads bsss vs Hc Hv (output_start p) s eq_refl) as Hr. rewrite <-all_pushed_bundle. exact Hr.
Qed.

Lemma output_cut coders p payloads bss vs : grows (decode_windowed_value (windowed_value_coder coders)) → Forall2 (on_wire coders) bss vs →
  concat (stream_chunks payloads) = concat bss →
  (∀ s : FlareElementStore, process_output display batch_size coders p payloads s = write_bundle p (batches_of batch_size vs) s) ∨
  ∃ batches e, concat batches `prefix_of` vs ∧ ∀ s : FlareElementStore,
    process_output display batch_size coders p payloads s = (w ← write_batches (new_writer p) batches; st_lift (Err e)) s.
Proof.
  intros Hg Hv Hc. destruct (receive_outcome coders payloads Hg bss vs [] Hv Hc) as [Hall|(vs1 & vs2 & -> & e & Hs)].
  - left. intros s. rewrite <-all_pushed_bundle. exact (Hall (output_start p) s eq_refl).
  - right. exists (cut_batches batch_size 0 [] vs1).1, e. split.
    + pose proof (cut_concat batch_size vs1 0 []) as Hcut. cbn in Hcut. rewrite <-Hcut at 2. rewrite <-app_assoc. by apply prefix_app_r.
    + intros s. rewrite <-some_pushed_batches. exact (Hs (output_start p) s eq_refl).
Qed.
End output.

(** * Elements that the runner encodes *)

Section encoding.
Context `{P : Profile} (display : CodersError → string).

(** The values that a side of a boundary carries: those of the coder's type with metadata
    the framing can hold; for elements without a payload, the bytes of their frame. *)
Definition carried (coders : BoundaryCoders) (v : WindowedValue) : Prop :=
  let c := windowed_value_coder coders in
  wf_frame (wv_timestamp_millis v) (wv_windows v) (wv_pane v) ∧
  if opaque_void coders then
    structured_payload coders = false ∧ ∃ raw, wv_value v = PRIMITIVE (PBytes raw) ∧ typed (wvc_element_coder c) (PRIMITIVE PVoid) ∧
      encode_windowed_value c (with_value (PRIMITIVE PVoid) v) = Ok raw
  else if structured_payload coders then
    wvc_element_coder c = LengthPrefixCoder ∧ typed (logical_element_coder coders) (wv_value v) ∧
    ∀ payload, encode (logical_element_coder coders) (wv_value v) = Ok payload → is_u 64 (Z.of_nat (length payload))
  else typed (wvc_element_coder c) (wv_value v).

Lemma encoded_on_wire coders v bs : carried coders v → encode_input_element display coders v = Ok bs → on_wire display coders bs v.
Proof.
  intros [Hf Hv] He. unfold encode_input_element in He. destruct (opaque_void coders) eqn:Eo.
  - destruct Hv as (Es & raw & Hraw & Ht & Hb). rewrite Hraw in He. injection He as <-.
    exists (with_value (PRIMITIVE PVoid) v), (with_value (PRIMITIVE PVoid) v). split; [by apply reads_windowed_value|]. rewrite Es, Eo.
    split; [done|]. unfold with_value. cbn. rewrite <-Hraw. by destruct v.
  - destruct (structured_payload coders) eqn:Es.
    + destruct Hv as (Hc & Ht & Hl). unfold encode_structured_boundary_value in He.
      destruct (typed_carries _ _ Ht) as (payload & Ep & Hr). specialize (Hl _ Ep). rewrite Ep in He. cbn [map_err mbind outcome_bind] in He.
      destruct (encode_windowed_value _ _) as [bs'|e|w] eqn:Ew; try discriminate He. injection He as ->.
      exists (with_value (PRIMITIVE (PBytes payload)) v), v. split; [|split].
      * apply reads_windowed_value; [done| |done]. rewrite Hc. exact Hl.
      * rewrite Es. unfold decode_structured_boundary_value, decode. cbn. specialize (Hr []). rewrite app_nil_r in Hr. rewrite Hr. cbn. by destruct v.
      * rewrite Eo. by destruct v.
    + cbn [mbind outcome_bind] in He. destruct (encode_windowed_value _ _) as [bs'|e|w] eqn:Ew; try discriminate He. injection He as ->.
      exists v, v. split; [by apply reads_windowed_value|]. rewrite Es, Eo. split; [done|]. by destruct v.
Qed.

Lemma encoded_all_on_wire coders vs bss : Forall (carried coders) vs → Forall2 (λ v bs, encode_input_element display coders v = Ok bs) vs bss →
  Forall2 (on_wire display coders) bss vs.
Proof.
  intros Hc He. induction He as [|v bs vs bss Hb _ IH]; [done|]. apply Forall_cons in Hc as [Hv Hc]. constructor; [by apply encoded_on_wire|by apply IH].
Qed.
End encoding.

(** * The input of a stage *)

Lemma cut_app {A} sizes (xs ys : list A) : ∀ n acc, cut_batches sizes n acc (xs ++ ys) =
  ((cut_batches sizes n acc xs).1 ++ (cut_batches sizes (n + length (cut_batches sizes n acc xs).1) (cut_batches sizes n acc xs).2 ys).1,
   (cut_batches sizes (n + length (cut_batches sizes n acc xs).1) (cut_batches sizes n acc xs).2 ys).2).
Proof.
  induction xs as [|x xs IH]; intros n acc; cbn [app cut_batches].
  - cbn. rewrite Nat.add_0_r. by destruct (cut_batches sizes n acc ys).
  - destruct (sizes n <=? _)%nat.
    + specialize (IH (S n) []). destruct (cut_batches sizes (S n) [] xs) as [full last]. cbn in IH |- *. rewrite IH, Nat.add_succ_r. done.
    + apply IH.
Qed.

(** What was sent on the stream to the worker. *)
Definition sends (c c' : DataChannel) (messages : list Elements) : Prop :=
  match outgoing c with
  | Some out => c' = mkDataChannel (Some (mkOutgoing (out_sent out ++ messages) (out_dropped out))) (runner_stream c)
  | None => c' = c ∧ messages = []
  end.

Lemma sends_refl c : sends c c [].
Proof. unfold sends. destruct c as [[[sent dropped]|] stream]; cbn; [by rewrite app_nil_r|done]. Qed.
Lemma sends_trans c c1 c2 m1 m2 : sends c c1 m1 → sends c1 c2 m2 → sends c c2 (m1 ++ m2).
Proof.
  unfold sends. destruct c as [[[sent dropped]|] stream]; cbn; [intros ->; cbn; intros ->; by rewrite app_assoc|].
  intros [-> ->]. done.
Qed.
Lemma send_elements_ok e c c' u : send_elements e c = (c', Ok u) → sends c c' [e].
Proof.
  unfold send_elements, sends. destruct c as [[[sent dropped]|] stream]; cbn; [|done]. destruct dropped; [done|]. by intros [= <- _].
Qed.

Section input.
Context {W PaimonSchema D T : Type} `{Arrow} `{P : Profile} `{Warehouse W PaimonSchema} `{KvStore D} `{HT : KvStore T}.
Context (display : CodersError → string) (iteration_order : gset bytes → list bytes) (to_vec : TimerEntry → outcome string bytes).
Context (batch_size : nat → nat) (instruction_id transform_id : string).
#[local] Existing Instance paimon.
Abbreviation FlareElementStore := (@FlareElementStore W D).
Abbreviation store := (st FlareElementStore).
Abbreviation World := (@World W D T).

Definition data_message (is_last : bool) (timers : list TimerData) (data : bytes) : Elements :=
  mkElements [mkData instruction_id transform_id data is_last] timers.

Lemma send_data_ok data is_last timers (w w' : World) u : send_data instruction_id transform_id data is_last timers w = (w', Ok u) →
  w_store w' = w_store w ∧ w_timers w' = w_timers w ∧ sends (w_data w) (w_data w') [data_message is_last timers data].
Proof.
  unfold send_data, on_data. destruct (send_elements _ (w_data w)) as [c r] eqn:E. intros [= <- ->]. split_and!; [done..|]. by eapply send_elements_ok.
Qed.

(** The encodings that were put aside. *)
Definition aside (i : InputState) (acc : list bytes) : Prop := encoded i = concat acc ∧ batch_len i = length acc.

(** The effects of sending the encodings [bss] from [i]. *)
Record sent_from (i i' : InputState) (acc acc' bss : list bytes) (c c' : DataChannel) : Prop := {
  sf_aside : aside i' acc';
  sf_rest : acc' = (cut_batches batch_size (input_sized i) acc bss).2;
  sf_sized : input_sized i' = (input_sized i + length (cut_batches batch_size (input_sized i) acc bss).1)%nat;
  sf_total : total_sent i' = (total_sent i + length bss)%nat;
  sf_sends : sends c c' (map (data_message false []) (map (@concat byte) (cut_batches batch_size (input_sized i) acc bss).1));
}.

Lemma sent_nothing i acc c : aside i acc → sent_from i i acc acc [] c c.
Proof. intros Ha. split; cbn; try done; [lia..|apply sends_refl]. Qed.

Lemma sent_trans i i1 i2 acc acc1 acc2 bss1 bss2 c c1 c2 : sent_from i i1 acc acc1 bss1 c c1 → sent_from i1 i2 acc1 acc2 bss2 c1 c2 →
  sent_from i i2 acc acc2 (bss1 ++ bss2) c c2.
Proof.
  intros [A1 R1 Z1 T1 M1] [A2 R2 Z2 T2 M2]. rewrite Z1, R1 in R2, Z2, M2. split; [done|..]; rewrite ?cut_app; cbn [fst snd].
  - done.
  - rewrite Z2, length_app. lia.
  - rewrite T2, T1, length_app. lia.
  - rewrite !map_app. by eapply sends_trans.
Qed.

Lemma send_element_ok coders v i i' acc (w w' : World) : aside i acc →
  send_element display batch_size instruction_id transform_id coders v i w = (w', Ok i') →
  ∃ bs acc', encode_input_element display coders v = Ok bs ∧ w_timers w' = w_timers w ∧ w_store w' = w_store w ∧
    sent_from i i' acc acc' [bs] (w_data w) (w_data w').
Proof.
  intros [Ha Hl] Hs. unfold send_element in Hs. apply st_bind_ok in Hs as (w1 & bs & He & Hs). apply st_lift_ok in He as [-> He].
  assert (encoded i ++ bs = concat (acc ++ [bs])) as Hc by (rewrite concat_app, Ha; cbn; by rewrite app_nil_r).
  assert (S (batch_len i) = length (acc ++ [bs])) as Hn by (rewrite length_app, Hl; cbn; lia).
  rewrite Hc, Hn in Hs. exists bs. destruct (batch_size (input_sized i) <=? length (acc ++ [bs]))%nat eqn:Eb.
  - apply st_bind_ok in Hs as (w1 & [] & Ew & Hs). apply st_ret_ok in Hs as [-> ->]. apply send_data_ok in Ew as (Hw1 & Hw2 & Hw3). exists []. split_and!; [done..|].
    split; cbn [cut_batches]; rewrite ?Eb; cbn [fst snd length map]; try done; cbn; lia.
  - apply st_ret_ok in Hs as [-> ->]. exists (acc ++ [bs]). split_and!; [done..|]. split; cbn [cut_batches]; rewrite ?Eb; cbn [fst snd length map]; try done; cbn; try lia. apply sends_refl.
Qed.

(** ** The batches of a source *)

(** The timers of each batch are written at its end. *)
Fixpoint timers_applied (groups : list (list TimerEntry)) (t t' : T) : Prop :=
  match groups with
  | [] => t' = t
  | es :: groups => ∃ t1, timer_apply iteration_order to_vec (insert_entries es ∅) t = (t1, Ok ()) ∧ timers_applied groups t1 t'
  end.

(** Encoding and expiration timers of a list of values. *)
Definition encodes_to (coders : BoundaryCoders) : list WindowedValue → list bytes → Prop :=
  Forall2 (λ v bs, encode_input_element display coders v = Ok bs).
Definition expires_with (coders : BoundaryCoders) (timers : list endpoint) : list WindowedValue → list (list TimerEntry) → Prop :=
  Forall2 (λ v es, window_expiration_timer_entries display v (logical_element_coder coders) timers = Ok es).

Lemma send_batch_ok coders timers values : ∀ pending i i' acc (w w' : World), aside i acc →
  send_batch display iteration_order to_vec batch_size instruction_id transform_id coders timers values pending i w = (w', Ok i') →
  ∃ bss acc' ess, encodes_to coders values bss ∧ expires_with coders timers values ess ∧ w_store w' = w_store w ∧
    timer_apply iteration_order to_vec (insert_entries (concat ess) pending) (w_timers w) = (w_timers w', Ok ()) ∧
    sent_from i i' acc acc' bss (w_data w) (w_data w').
Proof.
  induction values as [|v values IH]; intros pending i i' acc w w' Ha Hs; cbn [send_batch] in Hs.
  - apply st_bind_ok in Hs as (w1 & [] & Ht & Hs). apply st_ret_ok in Hs as [-> ->]. unfold on_timers in Ht.
    destruct (timer_apply _ _ _ (w_timers w)) as [t r] eqn:E. injection Ht as <- ->. exists [], acc, [].
    split_and!; [constructor..|done|exact E|by apply sent_nothing].
  - apply st_bind_ok in Hs as (w1 & es & He & Hs). apply st_lift_ok in He as [-> He].
    apply st_bind_ok in Hs as (w1 & i1 & Hv & Hs). apply (send_element_ok _ _ _ _ acc) in Hv as (bs & acc1 & Hbs & Ht & Hst & Hsf); [|done].
    destruct (IH _ _ _ acc1 _ _ (sf_aside _ _ _ _ _ _ _ Hsf) Hs) as (bss & acc' & ess & H1' & H2' & H3' & H4' & H5').
    exists (bs :: bss), acc', (es :: ess). split_and!; [by constructor|by constructor|by rewrite H3'| |].
    + rewrite <-Ht, <-H4'. f_equal. cbn. unfold insert_entries. by rewrite foldl_app.
    + change (bs :: bss) with ([bs] ++ bss). by eapply sent_trans.
Qed.

Inductive drains : InputSource → FlareElementStore → list (list WindowedValue) → FlareElementStore → Prop :=
| drains_end source source' s s' : next_input source s = (s', Ok (source', None)) → drains source s [] s'
| drains_batch source source' s s1 s' values batches : next_input source s = (s1, Ok (source', Some values)) →
    drains source' s1 batches s' → drains source s (values :: batches) s'.

Lemma send_input_ok fuel coders timers : ∀ source i i' acc (w w' : World), aside i acc →
  send_input display iteration_order to_vec batch_size instruction_id transform_id fuel coders timers source i w = (w', Ok i') →
  ∃ batches bss acc' groups, drains source (w_store w) batches (w_store w') ∧ encodes_to coders (concat batches) bss ∧
    Forall2 (λ values es, ∃ ess, es = concat ess ∧ expires_with coders timers values ess) batches groups ∧
    timers_applied groups (w_timers w) (w_timers w') ∧ sent_from i i' acc acc' bss (w_data w) (w_data w').
Proof.
  induction fuel as [|fuel IH]; intros source i i' acc w w' Ha Hs; cbn [send_input] in Hs;
    apply st_bind_ok in Hs as (w1 & [source1 values] & Hn & Hs); unfold on_store in Hn;
    destruct (next_input source (w_store w)) as [s1 r] eqn:E; injection Hn as <- ->; destruct values as [values|]; try done.
  1, 3: apply st_ret_ok in Hs as [-> ->]; exists [], [], acc, []; split_and!; [by eapply drains_end|constructor..|done|by apply sent_nothing].
  apply st_bind_ok in Hs as (w2 & i1 & Hb & Hs). apply (send_batch_ok _ _ _ _ _ _ acc) in Hb as (bss1 & acc1 & ess & He & Hx & Hst & Ht & Hsf); [|done].
  destruct (IH _ _ _ acc1 _ _ (sf_aside _ _ _ _ _ _ _ Hsf) Hs) as (batches & bss2 & acc' & groups & Hd & He2 & Hg & Ht2 & Hsf2).
  rewrite Hst in Hd. exists (values :: batches), (bss1 ++ bss2), acc', (concat ess :: groups). split_and!.
  - by eapply drains_batch.
  - by apply Forall2_app.
  - constructor; [by exists ess|done].
  - eexists. split; [exact Ht|exact Ht2].
  - by eapply sent_trans.
Qed.

(** ** A source is a scan *)

Definition moves_cursor (v : WindowedValueStream) : store () :=
  match latest v with Some latest => set_cursor (stream_reader_id v) (stream_pcollection_id v) latest | None => mret () end.

Lemma traverse_step {E A B} (f : A → outcome E B) x l : traverse f (x :: l) = y ← f x; ys ← traverse f l; Ok (y :: ys).
Proof. done. Qed.

Lemma next_input_stream v (s s1 : FlareElementStore) source o : next_input (Streaming v) s = (s1, Ok (source, o)) →
  ∃ v', next_batch v s = (s1, Ok (v', o)) ∧ source = Streaming v'.
Proof.
  intros Hn. cbn [next_input] in Hn. apply st_bind_ok in Hn as (s2 & [v' o'] & Hb & Hn). apply st_ret_ok in Hn as [-> Hn].
  injection Hn as -> ->. by exists v'.
Qed.

Lemma finish_outcome v (s s1 : FlareElementStore) v' o : advanced v = false → finish_stream v s = (s1, Ok (v', o)) →
  o = None ∧ moves_cursor v s = (s1, Ok ()).
Proof.
  intros Ha Hf. unfold finish_stream in Hf. rewrite Ha in Hf. apply st_bind_ok in Hf as (s2 & [] & Hm & Hf).
  apply st_ret_ok in Hf as [-> Hf]. injection Hf as -> ->. done.
Qed.

Lemma drains_end_of_stream v (s s' : FlareElementStore) batches : advanced v = false → (inner v = Some [] ∨ inner v = None) →
  drains (Streaming v) s batches s' → batches = [] ∧ moves_cursor v s = (s', Ok ()).
Proof.
  intros Ha Hi Hd. assert (∀ s1 v' o, next_batch v s = (s1, Ok (v', o)) → o = None ∧ moves_cursor v s = (s1, Ok ())) as Hnext.
  { intros s1 v' o Hn. unfold next_batch in Hn. destruct Hi as [Hi|Hi]; rewrite Hi in Hn.
    - by apply finish_outcome in Hn.
    - by apply finish_outcome in Hn. }
  inversion Hd as [? ? ? ? Hn|? ? ? ? ? ? ? Hn _]; subst; apply next_input_stream in Hn as (v' & Hn & ->); apply Hnext in Hn as [Ho Hm]; [done|done].
Qed.

Lemma drains_list ts l : ∀ v (s s' : FlareElementStore) batches, advanced v = false → stream_schema v = Some ts → inner v = Some l →
  drains (Streaming v) s batches s' →
  ∃ bs, traverse id l = Ok bs ∧ traverse (λ batch, windowed_values_from_batch batch ts) bs = Ok batches ∧ moves_cursor v s = (s', Ok ()).
Proof.
  induction l as [|r l IH]; intros v s s' batches Ha Hts Hi Hd.
  { apply drains_end_of_stream in Hd as [-> Hm]; [by exists []|done|by left]. }
  assert (∀ s1 v' o, next_batch v s = (s1, Ok (v', o)) → ∃ b values, r = Ok b ∧ windowed_values_from_batch b ts = Ok values ∧
    s1 = s ∧ o = Some values ∧ v' = with_inner (Some l) v) as Hnext.
  { intros s1 v' o Hn. unfold next_batch in Hn. rewrite Hi, Hts in Hn. destruct r as [b|e|e]; [|discriminate Hn..].
    apply st_bind_ok in Hn as (s2 & values & Hv & Hn). apply st_lift_ok in Hv as [-> Hv]. apply st_ret_ok in Hn as [-> Hn].
    injection Hn as -> ->. by exists b, values. }
  inversion Hd as [? ? ? ? Hn|? ? ? ? ? values batches' Hn Hd']; subst; apply next_input_stream in Hn as (v' & Hn & ->);
    apply Hnext in Hn as (b & vs & -> & Hv & -> & Ho & ->); [done|]. injection Ho as <-.
  apply IH in Hd' as (bs & Hl & Hb & Hm); [|done..]. exists (b :: bs).
  split; [|split; [|done]]; (etrans; [apply traverse_step|]); [by rewrite Hl|]. cbv beta. by rewrite Hv, Hb.
Qed.

Lemma drains_scan r p v (s s1 s' : FlareElementStore) batches : stream_windowed_values_since r p s = (s1, Ok v) → drains (Streaming v) s1 batches s' →
  scan_windowed_values_since r p s = (s', Ok (concat batches)).
Proof.
  intros Ho Hd. unfold stream_windowed_values_since in Ho. unfold scan_windowed_values_since, scan_since.
  apply st_bind_ok in Ho as (s2 & schema & Hs & Ho). apply st_read_ok in Hs as [-> Hs]. injection Hs as Hs. rewrite st_run. unfold st_read at 1. rewrite Hs.
  destruct schema as [ts|].
  2:{ apply st_ret_ok in Ho as [-> ->]. apply drains_end_of_stream in Hd as [-> Hm]; [|done|by right]. by injection Hm as <-. }
  apply st_bind_ok in Ho as (s3 & position & Hc & Ho). rewrite st_run, Hc. apply st_bind_ok in Ho as (s4 & [stream lat] & Hopen & Ho).
  apply st_ret_ok in Ho as [-> ->]. unfold read_incremental_batches, read_incremental_batches_projected. rewrite !st_run.
  unfold open_incremental_arrow in Hopen. rewrite Hopen, st_run. unfold st_lift at 1. destruct stream as [l|]; cbn [collect_stream].
  - apply (drains_list ts l) in Hd as (bs & -> & Hb & Hm); [|done..]. unfold mret at 1, st_ret at 1. rewrite st_run. unfold st_lift. rewrite Hb, st_run.
    unfold moves_cursor in Hm. cbn in Hm. by rewrite Hm.
  - apply drains_end_of_stream in Hd as [-> Hm]; [|done|by right]. unfold mret at 1, st_ret at 1. rewrite st_run. unfold st_lift. cbn [traverse].
    rewrite st_run. unfold moves_cursor in Hm. cbn in Hm. by rewrite Hm.
Qed.

(** Batches that come one by one are the scan; a sorted input is one batch. *)
Lemma open_drains p time_sorted source (s s1 s' : FlareElementStore) batches : open_input transform_id p time_sorted s = (s1, Ok source) →
  drains source s1 batches s' → ∃ read, scan_windowed_values_since transform_id p s = (s', Ok read) ∧
    concat batches = (if time_sorted then sort_windowed_values_by_timestamp read else read).
Proof.
  intros Ho Hd. unfold open_input in Ho. destruct time_sorted; apply st_bind_ok in Ho as (s2 & r & Hr & Ho); apply st_ret_ok in Ho as [-> ->].
  - exists r. inversion Hd as [? ? ? ? Hn|? ? ? ? ? values batches' Hn Hd']; subst; cbn in Hn; [done|]. injection Hn as <- <- <-.
    inversion Hd' as [? ? ? ? Hn|? ? ? ? ? ? ? Hn _]; subst; cbn in Hn; [|done]. injection Hn as <- _. split; [done|]. cbn. by rewrite app_nil_r.
  - exists (concat batches). split; [by eapply drains_scan|done].
Qed.

Lemma process_input_ok coders p timer_endpoints expiration_timers time_sorted (w w' : World) n :
  process_input display iteration_order to_vec batch_size instruction_id transform_id coders p timer_endpoints expiration_timers time_sorted w = (w', Ok n) →
  ∃ read batches bss groups, scan_windowed_values_since transform_id p (w_store w) = (w_store w', Ok read) ∧
    concat batches = (if time_sorted then sort_windowed_values_by_timestamp read else read) ∧ n = length (concat batches) ∧
    encodes_to coders (concat batches) bss ∧
    sends (w_data w) (w_data w') (map (data_message false []) (map (@concat byte) (batches_of batch_size bss)) ++
      [data_message true (terminate_endpoint instruction_id <$> timer_endpoints) []]) ∧
    Forall2 (λ values es, ∃ ess, es = concat ess ∧ expires_with coders expiration_timers values ess) batches groups ∧
    timers_applied groups (w_timers w) (w_timers w').
Proof.
  intros Hp. unfold process_input in Hp. apply st_bind_ok in Hp as (w1 & source & Ho & Hp). unfold on_store in Ho.
  destruct (open_input _ _ _ (w_store w)) as [s1 r] eqn:Eo. injection Ho as <- ->.
  apply st_bind_ok in Hp as (w2 & i & Hi & Hp). apply (send_input_ok _ _ _ _ _ _ []) in Hi as (batches & bss & acc & groups & Hd & He & Hg & Ht & [[Ha Hl] Hr Hz Htot Hsends]); [|done].
  cbn in *. destruct (open_drains _ _ _ _ _ _ _ Eo Hd) as (read & Hread & Hcat).
  apply st_bind_ok in Hp as (w3 & [] & Hlast & Hp). apply st_bind_ok in Hp as (w4 & [] & Hend & Hp). apply st_ret_ok in Hp as [-> ->].
  apply send_data_ok in Hend as (Hs4 & Ht4 & Hsend4).
  assert (w_store w3 = w_store w2 ∧ w_timers w3 = w_timers w2 ∧ sends (w_data w) (w_data w3) (map (data_message false []) (map (@concat byte) (batches_of batch_size bss)))) as (Hs3 & Ht3 & Hsend3).
  { unfold batches_of. destruct (cut_batches batch_size 0 [] bss) as [full last] eqn:Ec. cbn in Hr, Hsends. subst acc. case_decide as Hb.
    - apply send_data_ok in Hlast as (-> & -> & Hsend). split_and!; [done..|]. destruct last as [|b last]; [cbn in Hl; lia|].
      rewrite !map_app. cbn [map]. rewrite <-Ha. by eapply sends_trans.
    - apply st_ret_ok in Hlast as [-> _]. split_and!; [done..|]. destruct last; [done|cbn in Hl; lia]. }
  exists read, batches, bss, groups. split_and!; [by rewrite Hs4, Hs3|done| |done| |done|by rewrite Ht4, Ht3].
  - rewrite Htot. symmetry. by eapply Forall2_length.
  - by eapply sends_trans.
Qed.
End input.

(** * Timers *)

(** The timers after some were set. *)
Definition set_timers (es : list TimerEntry) (timers : gmap bytes TimerEntry) : gmap bytes TimerEntry :=
  foldl (λ m e, <[storage_key (te_key e) := e]> m) timers es.

(** Writes that wait under their own keys. *)
Definition keyed (pending : gmap bytes (option TimerEntry)) : Prop := ∀ k e, pending !! k = Some (Some e) → storage_key (te_key e) = k.

Lemma keyed_empty : keyed ∅.
Proof. intros k e Hk. by rewrite lookup_empty in Hk. Qed.
Lemma keyed_insert e pending : keyed pending → keyed (<[storage_key (te_key e) := Some e]> pending).
Proof.
  intros Hp k e' Hk. destruct (decide (k = storage_key (te_key e))) as [->|Hne]; [rewrite lookup_insert_eq in Hk; by simplify_eq|].
  rewrite lookup_insert_ne in Hk by done. by apply Hp.
Qed.
Lemma keyed_clear key pending : keyed pending → keyed (<[key := None]> pending).
Proof.
  intros Hp k e' Hk. destruct (decide (k = key)) as [->|Hne]; [rewrite lookup_insert_eq in Hk; by simplify_eq|].
  rewrite lookup_insert_ne in Hk by done. by apply Hp.
Qed.
Lemma keyed_entries es : ∀ pending, keyed pending → keyed (insert_entries es pending).
Proof. induction es as [|e es IH]; intros pending Hp; [done|]. apply (IH (<[_:=_]> pending)), keyed_insert, Hp. Qed.

Lemma overlay_set k e pending timers : overlay (<[k := Some e]> pending) timers = <[k := e]> (overlay pending timers).
Proof.
  apply map_eq. intros k'. rewrite lookup_overlay. destruct (decide (k' = k)) as [->|Hne]; [by rewrite !lookup_insert_eq|].
  rewrite !lookup_insert_ne by done. by rewrite lookup_overlay.
Qed.
Lemma overlay_clear k pending timers : overlay (<[k := None]> pending) timers = delete k (overlay pending timers).
Proof.
  apply map_eq. intros k'. rewrite lookup_overlay. destruct (decide (k' = k)) as [->|Hne]; [by rewrite lookup_insert_eq, lookup_delete_eq|].
  rewrite lookup_insert_ne, lookup_delete_ne by done. by rewrite lookup_overlay.
Qed.
Lemma overlay_nothing timers : overlay ∅ timers = timers.
Proof. apply map_eq. intros k. by rewrite lookup_overlay, lookup_empty. Qed.

Lemma overlay_entries es : ∀ pending timers, overlay (insert_entries es pending) timers = set_timers es (overlay pending timers).
Proof.
  induction es as [|e es IH]; intros pending timers; [done|]. cbn [insert_entries set_timers foldl].
  change (overlay (insert_entries es (<[storage_key (te_key e) := Some e]> pending)) timers = set_timers es (<[storage_key (te_key e) := e]> (overlay pending timers))).
  by rewrite IH, overlay_set.
Qed.

Section timers.
Context {T : Type} `{KvLaws T} `{P : Profile} (display : CodersError → string).
Context (iteration_order : gset bytes → list bytes) (Horder : ∀ X, iteration_order X ≡ₚ elements X).
Context (to_vec : TimerEntry → outcome string bytes).
Abbreviation stores := (stores to_vec).

Lemma timers_applied_stores groups : ∀ (t t' : T) timers, timers_applied iteration_order to_vec groups t t' → stores t timers →
  stores t' (set_timers (concat groups) timers).
Proof.
  induction groups as [|es groups IH]; intros t t' timers Ha Hs; [by rewrite Ha|]. destruct Ha as (t1 & Et & Ha).
  apply (timer_apply_refines iteration_order Horder to_vec _ _ _ _ Hs) in Et; [|apply keyed_entries, keyed_empty].
  rewrite overlay_entries, overlay_nothing in Et. specialize (IH _ _ _ Ha Et). cbn [concat]. unfold set_timers in *. by rewrite foldl_app.
Qed.

(** ** Received timers *)

(** What a timer of an endpoint does to the timers: a set replaces, a clear deletes. *)
Definition receive_timer (transform_id family : string) (domain : TimeDomain) (timers : gmap bytes TimerEntry) (timer : Timer) :
    gmap bytes TimerEntry :=
  let entry := timer_entry transform_id family timer domain in
  if clear timer then delete (storage_key (te_key entry)) timers else <[storage_key (te_key entry) := entry]> timers.

Lemma keyed_record transform_id family domain timer pending : keyed pending → keyed (record_timer transform_id family domain pending timer).
Proof. intros Hp. unfold record_timer. destruct (clear timer); [by apply keyed_clear|by apply keyed_insert]. Qed.

Lemma overlay_record transform_id family domain timer pending timers :
  overlay (record_timer transform_id family domain pending timer) timers = receive_timer transform_id family domain (overlay pending timers) timer.
Proof. unfold record_timer, receive_timer. destruct (clear timer); [apply overlay_clear|apply overlay_set]. Qed.

Lemma keyed_records transform_id family domain ts : ∀ pending, keyed pending → keyed (foldl (record_timer transform_id family domain) pending ts).
Proof. induction ts as [|t ts IH]; intros pending Hp; [done|]. apply IH, keyed_record, Hp. Qed.
Lemma overlay_records transform_id family domain ts : ∀ pending timers,
  overlay (foldl (record_timer transform_id family domain) pending ts) timers = foldl (receive_timer transform_id family domain) (overlay pending timers) ts.
Proof. induction ts as [|t ts IH]; intros pending timers; [done|]. cbn [foldl]. by rewrite IH, overlay_record. Qed.

(** No timer is encoded by no bytes. *)
Lemma timer_nonempty coder bs timer : reads (decode_timer coder) bs timer → bs ≠ [].
Proof.
  intros Hr ->. specialize (Hr []). cbn [app] in Hr. unfold decode_timer in Hr. rewrite run_bind in Hr.
  destruct (read_map_err _ _ []) as [[key b]| |] eqn:Ek; try done. unfold read_map_err, map_err in Ek.
  destruct (decode (tc_key_coder coder) []) as [[key' b']| |] eqn:Ed; simplify_eq. apply yields_nested in Ed as [_ [pre Hb]].
  symmetry in Hb. apply app_nil in Hb as [_ ->]. rewrite run_bind in Hr. unfold lift at 1 in Hr. by destruct (encode _ _).
Qed.

Lemma decode_timers_reads coder transform_id family domain bss ts : Forall2 (reads (decode_timer coder)) bss ts → ∀ fuel pending total,
  (length (concat bss) ≤ fuel)%nat → decode_timers fuel coder transform_id family domain (concat bss) pending total =
    Ok (foldl (record_timer transform_id family domain) pending ts, (total + length ts)%nat).
Proof.
  induction 1 as [|bs timer bss ts Hr _ IH]; intros fuel pending total Hf.
  { destruct fuel; cbn; by rewrite Nat.add_0_r. }
  pose proof (timer_nonempty _ _ _ Hr) as Hne. cbn [concat] in *. rewrite length_app in Hf.
  destruct fuel as [|fuel]; [destruct bs; [done|cbn in Hf; lia]|]. cbn [decode_timers]. destruct (bs ++ concat bss) as [|b0 buf] eqn:Eb; [by destruct bs|].
  rewrite <-Eb, (Hr (concat bss)), IH; [|destruct bs; [done|cbn in Hf; lia]]. cbn [foldl length]. by rewrite Nat.add_succ_r.
Qed.

(** The chunks of timers, up to the last. *)
Fixpoint stream_timers (payloads : list ElementStreamPayload) : list bytes :=
  match payloads with
  | [] => []
  | DataChunk _ _ :: payloads => stream_timers payloads
  | TimerChunk _ timers :: payloads => timers_bytes timers :: (if timers_is_last timers then [] else stream_timers payloads)
  end.

(** The store of timers takes every write. *)
Definition writable : Prop := ∀ pending t, ∃ t', timer_apply iteration_order to_vec pending t = (t', Ok ()).

Lemma flush_stores pending t timers : writable → keyed pending → stores t timers →
  ∃ t', flush_timers iteration_order to_vec pending t = (t', Ok ()) ∧ stores t' (overlay pending timers).
Proof.
  intros Hw Hk Hs. destruct (Hw pending t) as [t' Et]. exists t'. unfold flush_timers. rewrite Et. split; [done|].
  by eapply timer_apply_refines.
Qed.

Lemma drain_stores coder domain transform_id family payloads : writable → ∀ bsss ts pending total t timers,
  stream_timers payloads = map (@concat byte) bsss → Forall2 (reads (decode_timer coder)) (concat bsss) ts → keyed pending → stores t timers →
  ∃ t', drain_timer_elements iteration_order to_vec coder domain transform_id family payloads pending total t = (t', Ok (total + length ts)%nat) ∧
    stores t' (foldl (receive_timer transform_id family domain) (overlay pending timers) ts).
Proof.
  intros Hw. induction payloads as [|[key data|key chunk] payloads IH]; intros bsss ts pending total t timers Hc Hts Hk Hs.
  - destruct bsss; [|done]. inversion Hts; subst. destruct (flush_stores pending t timers Hw Hk Hs) as (t' & Et & Hs').
    exists t'. cbn [drain_timer_elements]. rewrite st_run, Et. cbn. by rewrite Nat.add_0_r.
  - by apply (IH bsss).
  - destruct bsss as [|bss bsss]; [done|]. cbn in Hc. injection Hc as Hd Hc. cbn in Hts. apply Forall2_app_inv_l in Hts as (ts1 & ts2 & Ht1 & Ht2 & ->).
    cbn [drain_timer_elements]. rewrite st_run, Hd. unfold st_lift at 1. rewrite (decode_timers_reads _ _ _ _ _ _ Ht1) by done.
    pose proof (keyed_records transform_id family domain ts1 _ Hk) as Hk1. set (pending1 := foldl (record_timer transform_id family domain) pending ts1) in *.
    rewrite foldl_app, length_app, Nat.add_assoc, <-(overlay_records _ _ _ ts1 pending timers). fold pending1.
    destruct (timers_is_last chunk || (FLUSH_EVERY <=? size pending1)%nat) eqn:Ef; rewrite st_run.
    + rewrite st_run. destruct (flush_stores pending1 t timers Hw Hk1 Hs) as (t1 & -> & Hs1). unfold mret at 1, st_ret at 1.
      destruct (timers_is_last chunk).
      * destruct bsss; [|done]. inversion Ht2; subst. exists t1. cbn. by rewrite Nat.add_0_r.
      * rewrite <-(overlay_nothing (overlay pending1 timers)). by apply (IH bsss); [..|apply keyed_empty|].
    + unfold mret at 1, st_ret at 1. apply orb_false_iff in Ef as [El _]. rewrite El in *. by apply (IH bsss).
Qed.

(** ** Fired timers *)

(** A timer of an endpoint whose key, window and timestamps its coder can frame. *)
Definition fireable (coder : TimerCoder) (transform_id family : string) (domain : TimeDomain) (e : TimerEntry) : Prop :=
  timer_endpoint e = (transform_id, family) ∧ te_domain e = domain ∧
  (∃ w, tk_window (te_key e) = canonical_key w ∧ wf_window w) ∧
  (∃ key, typed (tc_key_coder coder) key ∧ encode (tc_key_coder coder) key = Ok (tk_user_key (te_key e))) ∧
  wf_string (tk_tag (te_key e)) ∧ is_u 64 (str_len (tk_tag (te_key e))) ∧ is_i 64 (fire_timestamp e) ∧ is_i 64 (hold_timestamp e).

Lemma fired_timer_reads coder transform_id family domain e bs : fireable coder transform_id family domain e →
  match timer_to_wire e with Some wire => map_err display (encode_timer coder wire) | None => Ok [] end = Ok bs →
  ∃ timer, reads (decode_timer coder) bs timer ∧ timer_entry transform_id family timer domain = e ∧ clear timer = false.
Proof.
  intros (Hep & Hd & (w & Hw & Hwf) & (key & Hkey & Hek) & Htag & Hlen & Hf & Hh) He. unfold timer_to_wire in He.
  rewrite Hw, from_canonical_key_round_trip in He by (by destruct w). cbn [mbind option_bind] in He. set (wire := mkTimer _ _ _ _ _ _ _) in *.
  destruct (encode_timer coder wire) as [bs'|err|why] eqn:Ew; try discriminate He. injection He as ->.
  exists (normalize_timer wire). split; [|split; [|done]].
  - eapply (reads_timer coder wire key); try done. split; [done|]. split; [by constructor|]. split; [cbn; lia|]. split; unfold is_i; cbn; lia.
  - unfold timer_entry. cbn. destruct e as [[t f tg win uk] dom fire hold]. cbn in *. unfold timer_endpoint in Hep. cbn in Hep.
    by simplify_eq.
Qed.

Lemma fired_entries_read coder transform_id family domain es : Forall (fireable coder transform_id family domain) es → ∀ bs,
  encode_entries display coder es = Ok bs → ∃ bss ts, bs = concat bss ∧ Forall2 (reads (decode_timer coder)) bss ts ∧
    ∀ timers, foldl (receive_timer transform_id family domain) timers ts = set_timers es timers.
Proof.
  intros Hes. unfold encode_entries. induction Hes as [|e es He _ IH]; intros bs Hb.
  { injection Hb as <-. exists [], []. split_and!; [done|constructor|done]. }
  destruct (traverse _ (e :: es)) as [encs| |] eqn:Et; try discriminate Hb. injection Hb as <-.
  rewrite traverse_step in Et. destruct (match timer_to_wire e with Some _ => _ | None => _ end) as [b| |] eqn:Eb; try discriminate Et.
  cbn [mbind outcome_bind] in Et. destruct (traverse _ es) as [encs'| |]; try discriminate Et. injection Et as <-.
  destruct (IH _ eq_refl) as (bss & ts & Hc & Hr & Hset). destruct (fired_timer_reads _ _ _ _ _ _ He Eb) as (timer & Hrt & Hentry & Hclear).
  exists (b :: bss), (timer :: ts). split_and!; [cbn; by rewrite Hc|by constructor|]. intros timers. cbn [foldl]. rewrite Hset.
  unfold receive_timer. by rewrite Hclear, Hentry.
Qed.
End timers.

(** * The bounds of the loops *)

Definition consumes {E A} (r : reader E A) : Prop := ∀ buf a rest, r buf = Ok (a, rest) → (length rest < length buf)%nat.

Lemma yields_shrinks {E A} (r : reader E A) Q : yields r Q → shrinks r.
Proof. intros Hy buf a rest Hr. apply Hy in Hr as [_ [pre ->]]. rewrite length_app. lia. Qed.
Lemma consumes_first {E A B} (r : reader E A) (k : A → reader E B) : consumes r → (∀ a, shrinks (k a)) → consumes (r ≫= k).
Proof.
  intros Hr Hk buf b rest Hb. rewrite run_bind in Hb. destruct (r buf) as [[a rest1]| |] eqn:Er; try done.
  apply Hr in Er. apply Hk in Hb. lia.
Qed.
Lemma consumes_then {E A B} (r : reader E A) (k : A → reader E B) : shrinks r → (∀ a, consumes (k a)) → consumes (r ≫= k).
Proof.
  intros Hr Hk buf b rest Hb. rewrite run_bind in Hb. destruct (r buf) as [[a rest1]| |] eqn:Er; try done.
  apply Hr in Er. apply Hk in Hb. lia.
Qed.
Lemma consumes_timestamp {E} : consumes (E:=E) decode_timestamp_millis.
Proof.
  intros buf a rest Hb. unfold decode_timestamp_millis in Hb. rewrite run_bind in Hb. unfold get_u64, get_be in Hb. case_decide as Hn; [|done].
  injection Hb as _ <-. rewrite length_drop. lia.
Qed.

Section bounds.
Context `{P : Profile}.

Lemma consumes_windowed_value c : consumes (decode_windowed_value c).
Proof.
  apply consumes_first; [|intros [[ts ws] pane]; apply shrinks_bind; [by eapply yields_shrinks, yields_nested|intros; apply shrinks_ret]].
  apply consumes_first; [apply consumes_timestamp|]. intros ts. apply shrinks_bind; [by eapply yields_shrinks, yields_windows|]. intros ws.
  apply shrinks_bind; [by eapply yields_shrinks, yields_pane|]. intros. apply shrinks_ret.
Qed.

Lemma consumes_timer c : consumes (decode_timer c).
Proof.
  apply consumes_then. { intros buf a rest Hb. unfold read_map_err, map_err, decode in Hb. destruct (decode_nested _ buf) as [[a' rest']| |] eqn:Ed; simplify_eq.
    by eapply yields_shrinks in Ed; [|apply yields_nested]. }
  intros key. apply consumes_then; [by eapply yields_shrinks, (yields_lift _ (λ _, True))|]. intros uk.
  apply consumes_first; [intros ? ? ?; apply decode_varint_consumes|]. intros n. apply shrinks_bind; [by eapply yields_shrinks, yields_slice|].
  intros tb. destruct (from_utf8 tb); [|done]. apply shrinks_bind; [by eapply yields_shrinks, yields_windows|]. intros ws.
  apply shrinks_bind; [by eapply yields_shrinks, yields_u8|]. intros cb. cbv zeta. destruct (negb _); [apply shrinks_ret|].
  apply shrinks_bind; [by eapply yields_shrinks, yields_timestamp|]. intros fire. apply shrinks_bind; [by eapply yields_shrinks, yields_timestamp|]. intros hold.
  apply shrinks_bind; [by eapply yields_shrinks, yields_pane|]. intros. apply shrinks_ret.
Qed.

(** A round per byte is enough for the timers of a chunk. *)
Lemma decode_timers_fuel coder transform_id family domain fuel : ∀ fuel' buf pending total, (length buf ≤ fuel)%nat → (length buf ≤ fuel')%nat →
  decode_timers fuel coder transform_id family domain buf pending total = decode_timers fuel' coder transform_id family domain buf pending total.
Proof.
  induction fuel as [|fuel IH]; intros [|fuel'] buf pending total Hf Hf'; (destruct buf as [|b buf]; [done|]); [cbn in Hf, Hf'; lia..|].
  cbn [decode_timers]. destruct (decode_timer coder (b :: buf)) as [[timer rest]| |] eqn:Ed; try done. apply consumes_timer in Ed.
  cbn in Hf, Hf', Ed. apply IH; lia.
Qed.
End bounds.

Section output_bound.
Context {W PaimonSchema D : Type} `{Arrow} `{P : Profile} `{Warehouse W PaimonSchema} `{KvStore D}.
Context (display : CodersError → string) (batch_size : nat → nat).
#[local] Existing Instance paimon.
Abbreviation FlareElementStore := (@FlareElementStore W D).

(** And for the elements of a buffer. *)
Lemma decode_elements_fuel coders ended fuel : ∀ fuel' o (s : FlareElementStore), (length (stream_buffer o) ≤ fuel)%nat → (length (stream_buffer o) ≤ fuel')%nat →
  decode_elements display batch_size fuel coders ended o s = decode_elements display batch_size fuel' coders ended o s.
Proof.
  induction fuel as [|fuel IH]; intros [|fuel'] o s Hf Hf'; destruct (stream_buffer o) as [|b buf] eqn:Eb;
    try (by rewrite !decode_done); [cbn in Hf, Hf'; lia..|].
  cbn [decode_elements]. rewrite Eb. destruct (decode_windowed_value _ (b :: buf)) as [[v rest]| |] eqn:Ed; try done.
  apply consumes_windowed_value in Ed. rewrite !st_run. destruct (take_element _ _ coders o v rest s) as [s1 [o1|e|e]] eqn:Et; try done.
  unfold take_element in Et. apply st_bind_ok in Et as (s2 & v2 & _ & Et). apply push_value_keeps_buffer in Et.
  apply (f_equal length) in Et. rewrite Eb, length_drop in Et. cbn in Hf, Hf', Ed, Et. apply IH; lia.
Qed.

(** A source yields no more batches than the loop expects. *)
Lemma next_input_length source source' values (s s' : FlareElementStore) : next_input source s = (s', Ok (source', Some values)) →
  source_length source = S (source_length source').
Proof.
  destruct source as [vs|v|]; cbn [next_input]; intros Hn; [by injection Hn as _ <- _| |done].
  apply st_bind_ok in Hn as (s1 & [v' o] & Hb & Hn). apply st_ret_ok in Hn as [-> Hn]. injection Hn as -> <-. unfold next_batch in Hb. cbn [source_length].
  destruct (inner v) as [[|[b|e|e] l]|] eqn:Ei; cbn [default length]; try done.
  - unfold finish_stream in Hb. destruct (advanced _); [done|].
    apply st_bind_ok in Hb as (s2 & [] & _ & Hb). by apply st_ret_ok in Hb as [_ Hb].
  - destruct (stream_schema v); [|done]. apply st_bind_ok in Hb as (s2 & vs & _ & Hb). apply st_ret_ok in Hb as [-> Hb]. by injection Hb as -> _.
  - unfold finish_stream in Hb. destruct (advanced _); [done|]. apply st_bind_ok in Hb as (s2 & [] & _ & Hb). by apply st_ret_ok in Hb as [_ Hb].
Qed.
End output_bound.

(** * The queues of the multiplexer *)

(** Both ends of every stream are those of a channel of its own. *)
Record paired (m : ElementStreamMultiplexer) : Prop := {
  paired_ends : senders m = receivers m;
  paired_open key tx : senders m !! key = Some tx → (tx < length (channels m))%nat;
  paired_apart key key' tx : senders m !! key = Some tx → senders m !! key' = Some tx → key' = key;
}.

(** What waits for the receiver of a key. *)
Definition queued (m : ElementStreamMultiplexer) (key : ElementKey) : list ElementStreamPayload :=
  default [] (receivers m !! key ≫= λ rx, channels m !! rx).

Lemma paired_new : paired new_multiplexer.
Proof. split; [done|..]; cbn; intros *; by rewrite lookup_empty. Qed.

Lemma get_or_create_ok key m : paired m → ∃ m' tx, get_or_create_stream key m = (m', Ok (tx, tx)) ∧ paired m' ∧
  senders m' !! key = Some tx ∧ ∀ key', queued m' key' = queued m key'.
Proof.
  intros [He Ho Ha]. unfold get_or_create_stream. cbn [lookup_step]. destruct (senders m !! key) as [tx|] eqn:Es; cbn [lookup_step].
  - rewrite <-He, Es. cbn. by exists m, tx.
  - eexists _, _. split; [done|]. cbn. split; [split; cbn|split; [apply lookup_insert_eq|]].
    + by rewrite He.
    + intros k tx Hk. rewrite length_app. cbn. destruct (decide (k = key)) as [->|Hne]; [rewrite lookup_insert_eq in Hk; injection Hk as <-; lia|].
      rewrite lookup_insert_ne in Hk by done. apply Ho in Hk. lia.
    + intros k k' tx Hk Hk'. destruct (decide (k = key)) as [->|Hne], (decide (k' = key)) as [->|Hne']; [done|..];
        rewrite ?lookup_insert_eq, ?lookup_insert_ne in * by done; [|..|by eapply Ha]; simplify_eq.
      * apply Ho in Hk'. lia.
      * apply Ho in Hk. lia.
    + intros k. unfold queued. cbn. destruct (decide (k = key)) as [->|Hne].
      * rewrite lookup_insert_eq. cbn. rewrite lookup_app_r, Nat.sub_diag by done. rewrite <-He, Es. done.
      * rewrite lookup_insert_ne by done. destruct (receivers m !! k) as [rx|] eqn:Ek; [|done]. cbn. rewrite <-He in Ek. apply Ho in Ek.
        by rewrite lookup_app_l.
Qed.

Lemma route_payload_ok p m : paired m → ∃ m', route_payload p m = (m', Ok ()) ∧ paired m' ∧
  ∀ key, queued m' key = queued m key ++ (if decide (payload_key p = key) then [p] else []).
Proof.
  intros Hp. destruct (get_or_create_ok (payload_key p) m Hp) as (m1 & tx & E & [He Ho Ha] & Hs & Hq). unfold route_payload, get_sender.
  rewrite !st_run, E. eexists. split; [done|]. split; [split; cbn; [done| |done]; intros k tx' Hk; rewrite length_alter; by eapply Ho|].
  intros key. rewrite <-Hq. unfold queued. cbn. rewrite <-He. case_decide as Hk.
  - subst key. rewrite Hs. cbn. rewrite list_lookup_alter_eq. destruct (lookup_lt_is_Some_2 (channels m1) tx (Ho _ _ Hs)) as [q Hl]. by rewrite Hl.
  - rewrite app_nil_r. destruct (senders m1 !! key) as [rx|] eqn:Er; [|done]. cbn. rewrite list_lookup_alter_ne; [done|].
    intros ->. apply Hk. symmetry. by eapply Ha.
Qed.

Lemma route_payloads_ok ps : ∀ m, paired m → ∃ m', route_payloads ps m = (m', Ok ()) ∧ paired m' ∧
  ∀ key, queued m' key = queued m key ++ base.filter (λ p, payload_key p = key) ps.
Proof.
  induction ps as [|p ps IH]; intros m Hp; [exists m; split_and!; [done..|]; intros; by rewrite app_nil_r|].
  destruct (route_payload_ok p m Hp) as (m1 & E1 & Hp1 & Hq1). destruct (IH m1 Hp1) as (m2 & E2 & Hp2 & Hq2).
  exists m2. cbn [route_payloads]. rewrite st_run, E1. split_and!; [done..|]. intros key. rewrite Hq2, Hq1, <-app_assoc. f_equal.
  rewrite filter_cons. by destruct (decide _).
Qed.

(** Two tasks that ask for the stream of a key; [true] lets the first of them take a step. *)
Definition race_step (key : ElementKey) (r : ElementStreamMultiplexer * StreamLookup * StreamLookup) (first : bool) :
    ElementStreamMultiplexer * StreamLookup * StreamLookup :=
  let '(m, l1, l2) := r in
  if first then let '(m, l1) := lookup_step key m l1 in (m, l1, l2) else let '(m, l2) := lookup_step key m l2 in (m, l1, l2).
Definition race (key : ElementKey) (schedule : list bool) : ElementStreamMultiplexer * StreamLookup * StreamLookup :=
  foldl (race_step key) (new_multiplexer, LookupSender, LookupSender) schedule.

(** * Messages and their bytes *)

(** The data of messages, sent back under a key. *)
Definition echoed (key : ElementKey) (messages : list Elements) : list ElementStreamPayload :=
  DataChunk key <$> concat (el_data <$> messages).

Lemma echoed_chunks key instruction_id transform_id timers pieces :
  stream_chunks (echoed key (map (data_message instruction_id transform_id false []) (map (@concat byte) pieces) ++
    [data_message instruction_id transform_id true timers []])) = map (@concat byte) (pieces ++ [[]]).
Proof. induction pieces as [|bss pieces IH]; [done|]. cbn in *. f_equal. exact IH. Qed.

(** The expiration timers of batches are those of their values. *)
Lemma groups_expire `{P : Profile} display coders timers batches groups :
  Forall2 (λ values es, ∃ ess, es = concat ess ∧ expires_with display coders timers values ess) batches groups →
  ∃ ess, expires_with display coders timers (concat batches) ess ∧ concat groups = concat ess.
Proof.
  induction 1 as [|values es batches groups (ess1 & -> & H1) _ (ess2 & H2 & E2)]; [by exists []; split; [constructor|]|].
  exists (ess1 ++ ess2). split; [by apply Forall2_app|]. cbn. by rewrite concat_app, E2.
Qed.

(** ** Timers that a harness sends *)

(** A timer whose key, tag, windows and timestamps the coder can frame. *)
Definition carried_timer `{P : Profile} (coder : TimerCoder) (timer : Timer) : Prop :=
  (∃ key, typed (tc_key_coder coder) key ∧ encode (tc_key_coder coder) key = Ok (user_key timer)) ∧
  wf_string (tag timer) ∧ is_u 64 (str_len (tag timer)) ∧
  wf_frame (Coders.fire_timestamp timer) (timer_windows timer) (timer_pane timer) ∧ is_i 64 (Coders.hold_timestamp timer).

Lemma carried_timers_read `{P : Profile} coder ts bss : Forall (carried_timer coder) ts → Forall2 (λ t bs, encode_timer coder t = Ok bs) ts bss →
  Forall2 (reads (decode_timer coder)) bss (map normalize_timer ts).
Proof.
  intros Hc He. induction He as [|t bs ts bss Hb _ IH]; [constructor|]. apply Forall_cons in Hc as [((key & Hk & Hek) & Htag & Hl & Hf & Hh) Hc].
  constructor; [by eapply reads_timer|by apply IH].
Qed.

(** Timestamps and pane of a timer that is cleared make no difference. *)
Lemma receive_normalized transform_id family domain ts : ∀ timers,
  foldl (receive_timer transform_id family domain) timers (map normalize_timer ts) = foldl (receive_timer transform_id family domain) timers ts.
Proof.
  induction ts as [|t ts IH]; intros timers; [done|]. cbn [map foldl]. rewrite IH. f_equal. unfold receive_timer, normalize_timer.
  destruct (clear t) eqn:Ec; cbn [clear]; [|by rewrite Ec]. done.
Qed.
