(* ===== verification/BundleIoProperties.v ===== *)
(** Properties of the data plane of a bundle (engine/runtime.rs, engine/harness/data.rs), with
    a stage that reads a table, sends it, and writes what comes back. *)
From S2P Require Import Prelude Bytes Varint Windows Coders CoderTypes CoderGraph Kv WindowMerge UserState Timers.
From S2P Require Import Pipeline StageFuser ExecGraph SideInputs Arrow RecordTables WindowColumns ElementStore BundleIo BundleIoSpec.
From S2P Require StateProperties RecordProperties ElementProperties.
Local Open Scope string_scope.
Local Open Scope list_scope.

(** * The output of a stage *)

Section output.
Context {W PaimonSchema D : Type} `{Arrow} `{P : Profile} `{Warehouse W PaimonSchema} `{KvStore D}.
Context (display : CodersError → string) (batch_size : nat → nat).
#[local] Existing Instance paimon.
Abbreviation FlareElementStore := (@FlareElementStore W D).

(** C12: the output of a stage is committed whole or not at all.  However the encodings of
    the values of a bundle are cut into messages, processing them is writing one bundle of
    exactly these values, in order; or it fails, and then a part of the values was written
    and nothing was committed.  If every message holds whole elements, it is the bundle. *)
Theorem stage_output_committed coders p payloads vs bss :
  self_delimiting (wvc_element_coder (windowed_value_coder coders)) = true →
  Forall (carried coders) vs → encodes_to display coders vs bss → concat (stream_chunks payloads) = concat bss →
  let is_bundle := ∃ batches, concat batches = vs ∧
    ∀ s : FlareElementStore, process_output display batch_size coders p payloads s = write_bundle p batches s in
  (is_bundle ∨ ∃ batches e, concat batches `prefix_of` vs ∧ ∀ s : FlareElementStore,
     process_output display batch_size coders p payloads s = (w ← write_batches (new_writer p) batches; st_lift (Err e)) s) ∧
  (∀ bsss, concat bsss = bss → stream_chunks payloads = map (@concat byte) bsss → is_bundle).
Proof.
  intros Hd Hc He Hs is_bundle. pose proof (encoded_all_on_wire display _ _ _ Hc He) as Hv. split.
  - destruct (output_cut (W:=W) (D:=D) display batch_size coders p payloads bss vs (grows_windowed_value _ Hd) Hv Hs) as [Hall|Hpart]; [left|by right].
    exists (batches_of batch_size vs). split; [apply batches_of_concat|exact Hall].
  - intros bsss <- Hw. exists (batches_of batch_size vs). split; [apply batches_of_concat|]. intros s. by apply (output_whole _ _ _ _ _ bsss).
Qed.
End output.

(** * The input of a stage *)

Section input.
Context {W PaimonSchema D T : Type} `{Arrow} `{P : Profile} `{Warehouse W PaimonSchema} `{KvStore D} `{KvLaws T}.
Context (display : CodersError → string) (iteration_order : gset bytes → list bytes) (to_vec : TimerEntry → outcome string bytes).
Context (batch_size : nat → nat) (instruction_id transform_id : string).
#[local] Existing Instance paimon.
Abbreviation World := (@World W D T).
Abbreviation process_input := (process_input display iteration_order to_vec batch_size instruction_id transform_id).

(** C13: the input of a stage.  A bundle whose input was sent was handed exactly what the
    reader of the stage had not seen of the PCollection, in the order of the scan or of
    their timestamps; its messages are the encodings of these values, several whole ones
    each, and then one message that ends the data and every timer endpoint; and every
    window that a value was in has its expiration timers set. *)
Theorem stage_input_sent coders p timer_endpoints expiration_timers time_sorted (w w' : World) n :
  (∀ X, iteration_order X ≡ₚ elements X) →
  process_input coders p timer_endpoints expiration_timers time_sorted w = (w', Ok n) →
  ∃ read values bss ess, scan_windowed_values_since transform_id p (w_store w) = (w_store w', Ok read) ∧
    values = (if time_sorted then sort_windowed_values_by_timestamp read else read) ∧ n = length values ∧
    encodes_to display coders values bss ∧
    sends (w_data w) (w_data w') (map (data_message instruction_id transform_id false []) (map (@concat byte) (batches_of batch_size bss)) ++
      [data_message instruction_id transform_id true (terminate_endpoint instruction_id <$> timer_endpoints) []]) ∧
    expires_with display coders expiration_timers values ess ∧
    ∀ timers, stores to_vec (w_timers w) timers → stores to_vec (w_timers w') (set_timers (concat ess) timers).
Proof.
  intros Horder Hp. apply process_input_ok in Hp as (read & batches & bss & groups & Hr & Hc & Hn & He & Hs & Hg & Ht).
  destruct (groups_expire display coders expiration_timers batches groups Hg) as (ess & Hess & Hcat).
  exists read, (concat batches), bss, ess. split_and!; try done. intros timers Hst. rewrite <-Hcat. by eapply timers_applied_stores.
Qed.

(** C14: what a stage sends back unchanged is written unchanged.  When the values that a
    stage was handed are of its coder's type, the bytes of the messages of its input, on the
    stream of an output with the same coders, are a bundle of exactly these values. *)
Theorem stage_boundary_round_trip coders p timer_endpoints expiration_timers time_sorted (w w' : World) n key p' read :
  process_input coders p timer_endpoints expiration_timers time_sorted w = (w', Ok n) →
  (scan_windowed_values_since transform_id p (w_store w)).2 = Ok read → Forall (carried coders) read →
  ∃ messages batches, sends (w_data w) (w_data w') messages ∧
    concat batches = (if time_sorted then sort_windowed_values_by_timestamp read else read) ∧
    ∀ sizes (s : @FlareElementStore W D), process_output display sizes coders p' (echoed key messages) s = write_bundle p' (batches_of sizes (concat batches)) s.
Proof.
  intros Hp Hread Hc. apply process_input_ok in Hp as (read' & batches & bss & groups & Hr & Hcat & _ & He & Hs & _).
  rewrite Hr in Hread. injection Hread as ->. eexists _, batches. split; [exact Hs|]. split; [done|]. intros sizes s.
  apply (output_whole display sizes coders p' _ (batches_of batch_size bss ++ [[]]) (concat batches)).
  - apply echoed_chunks.
  - rewrite concat_app, batches_of_concat, app_nil_r. apply encoded_all_on_wire; [|done]. rewrite Hcat. destruct time_sorted; [|done].
    unfold sort_windowed_values_by_timestamp. by rewrite sort_by_key_perm.
Qed.
End input.

(** * Timers *)

Section timers.
Context {T : Type} `{KvLaws T} `{P : Profile} (display : CodersError → string).
Context (iteration_order : gset bytes → list bytes) (to_vec : TimerEntry → outcome string bytes).

(** C15: the timers of a stage are stored as it sent them.  While the store takes writes,
    sets and clears that arrive in messages of whole timers leave the store with each applied
    in turn, the last for a timer winning; and timers that are encoded to fire, when they are
    sent back, are set as they were. *)
Theorem received_timers_stored coder domain transform_id family : (∀ X, iteration_order X ≡ₚ elements X) →
  (∀ pending t, ∃ t', timer_apply iteration_order to_vec pending t = (t', Ok ())) →
  (∀ payloads bsss ts (t : T) timers, Forall (carried_timer coder) ts → Forall2 (λ timer bs, encode_timer coder timer = Ok bs) ts (concat bsss) →
    stream_timers payloads = map (@concat byte) bsss → stores to_vec t timers →
    ∃ t', drain_timer_elements iteration_order to_vec coder domain transform_id family payloads ∅ 0 t = (t', Ok (length ts)) ∧
      stores to_vec t' (foldl (receive_timer transform_id family domain) timers ts)) ∧
  (∀ es bs key message (t : T) timers, Forall (fireable coder transform_id family domain) es → encode_entries display coder es = Ok bs →
    timers_bytes message = bs → stores to_vec t timers →
    ∃ t' n, drain_timer_elements iteration_order to_vec coder domain transform_id family [TimerChunk key message] ∅ 0 t = (t', Ok n) ∧
      stores to_vec t' (set_timers es timers)).
Proof.
  intros Horder Hw. split.
  - intros payloads bsss ts t timers Hc He Hs Hst.
    destruct (drain_stores iteration_order Horder to_vec coder domain transform_id family payloads Hw bsss (map normalize_timer ts) ∅ 0 t timers)
      as (t' & Hd & Hst'); [done|by apply carried_timers_read|apply keyed_empty|done|].
    exists t'. rewrite length_map in Hd. split; [exact Hd|]. by rewrite overlay_nothing, receive_normalized in Hst'.
  - intros es bs key message t timers Hes He Hm Hst. destruct (fired_entries_read display _ _ _ _ _ Hes _ He) as (bss & ts & Hb & Hr & Hset).
    destruct (drain_stores iteration_order Horder to_vec coder domain transform_id family [TimerChunk key message] Hw [bss] ts ∅ 0 t timers)
      as (t' & Hd & Hst'); [|by cbn; rewrite app_nil_r|apply keyed_empty|done|].
    { cbn. rewrite Hm, Hb. by destruct (timers_is_last message). }
    exists t'. eexists. split; [exact Hd|]. by rewrite overlay_nothing, Hset in Hst'.
Qed.
End timers.

(** * The multiplexer *)

(** Routing one message after the other appends every chunk to the queue of its key, in
    order, the data of a message before its timers. *)
Theorem routing_in_order messages : ∀ m, paired m → ∃ m',
  foldl (λ m e, (route_elements e m).1) m messages = m' ∧ paired m' ∧ ∀ key, queued m' key = queued m key ++
    base.filter (λ p, payload_key p = key) (concat ((λ e, (data_chunk <$> el_data e) ++ (timer_chunk <$> el_timers e)) <$> messages)).
Proof.
  induction messages as [|e messages IH]; intros m Hp; [exists m; split_and!; [done..|]; intros; by rewrite app_nil_r|].
  destruct (route_payloads_ok (data_chunk <$> el_data e) m Hp) as (m1 & E1 & Hp1 & Hq1).
  destruct (route_payloads_ok (timer_chunk <$> el_timers e) m1 Hp1) as (m2 & E2 & Hp2 & Hq2).
  destruct (IH m2 Hp2) as (m' & E & Hp' & Hq). exists m'. cbn [foldl fmap list_fmap concat]. split_and!; [|done|].
  - unfold route_elements. rewrite st_run, E1, E2. exact E.
  - intros key. by rewrite Hq, Hq2, Hq1, !filter_app, !app_assoc.
Qed.

(** Two tasks that create the stream of a key at the same time may end with different
    channels: what the one routes never reaches the receiver of the other.  Or the one finds
    the sender of the other before its receiver is there, and panics. *)
Theorem stream_creation_races key :
  (∃ schedule m tx rx tx' rx', race key schedule = (m, Found tx rx, Found tx' rx') ∧ tx ≠ rx' ∧
    ∀ p, channels (send_payload tx p m).1 !! rx' = Some []) ∧
  (∃ schedule m l why, race key schedule = (m, l, LookupPanicked why)).
Proof.
  split.
  - exists [true; false; true; false; true; false]. eexists _, 0, 0, 1, 1. split; [reflexivity|]. split; [done|]. intros p. reflexivity.
  - exists [true; true; false; false]. exists (insert_sender key 0 (open_channel new_multiplexer)), (InsertReceiver 0). eexists.
    assert (lookup_step key (insert_sender key 0 (open_channel new_multiplexer)) LookupSender =
      (insert_sender key 0 (open_channel new_multiplexer), LookupReceiver 0)) as Hl by (cbn; by rewrite lookup_insert_eq).
    change (race key [true; true; false; false]) with
      (race_step key (race_step key (insert_sender key 0 (open_channel new_multiplexer), InsertReceiver 0, LookupSender) false) false).
    unfold race_step at 2. rewrite Hl. reflexivity.
Qed.

(** * A stage that reads, echoes and writes *)

Section demo.
#[local] Existing Instances RecordProperties.accept_arrow ElementProperties.mem_warehouse release_profile.
Abbreviation MemStore := (@FlareElementStore ElementProperties.MemCatalog (gmap bytes bytes)).
Abbreviation MemWorld := (@World ElementProperties.MemCatalog (gmap bytes bytes) (gmap bytes bytes)).

Definition demo_display (e : CodersError) : string := match e with WhileDecoding m | WhileEncoding m => m end.
Definition pairs (n : nat) : nat := 2.
Definition demo_coders : BoundaryCoders :=
  mkBoundary (mkWindowedValueCoder (KvCoder StringUtf8Coder VarIntCoder) IntervalCoder) (KvCoder StringUtf8Coder VarIntCoder) false false.

Definition demo_value (key : string) (n at_millis : Z) : WindowedValue :=
  mkWindowedValue (KV (PString key) (PRIMITIVE (PInt64 n))) at_millis [IntervalWindow 0 10] on_time_firing.
Definition demo_values : list WindowedValue := [demo_value "ab" 1 5; demo_value "b" 2 3; demo_value "ab" 3 7].
Definition demo_encodings : list bytes :=
  match traverse (encode_input_element demo_display demo_coders) demo_values with Ok bss => bss | _ => [] end.

Lemma demo_carried : Forall (carried demo_coders) demo_values.
Proof. repeat constructor; by vm_compute. Qed.
Lemma demo_encodes : encodes_to demo_display demo_coders demo_values demo_encodings.
Proof. repeat constructor; by vm_compute. Qed.

Definition demo_stream (data : bytes) (is_last : bool) : ElementStreamPayload := DataChunk (DataKey "i" "sink") (mkData "i" "sink" data is_last).
Definition demo_output (payloads : list ElementStreamPayload) : st MemStore () := process_output demo_display pairs demo_coders "out" payloads.

Lemma stage_output_committed_witness : ∃ batches, concat batches = demo_values ∧
  ∀ s : MemStore, demo_output [demo_stream (concat demo_encodings) false; demo_stream [] true] s = write_bundle "out" batches s.
Proof.
  assert (concat (stream_chunks [demo_stream (concat demo_encodings) false; demo_stream [] true]) = concat demo_encodings) as Hc
    by (cbn; by rewrite app_nil_r).
  destruct (stage_output_committed (D:=gmap bytes bytes) demo_display pairs demo_coders "out" [demo_stream (concat demo_encodings) false; demo_stream [] true]
    demo_values demo_encodings eq_refl demo_carried demo_encodes Hc) as [_ Hw].
  apply (Hw [demo_encodings; []]); [cbn; by rewrite app_nil_r|done].
Defined.

(** A message that ends within a key, after its length, fails the bundle; the same bytes in
    one message, or cut within the timestamp, do not. *)
Theorem split_element_fails_bundle :
  let bytes_of := concat demo_encodings in
  (demo_output [demo_stream (take 24 bytes_of) false; demo_stream (drop 24 bytes_of) true] ElementProperties.store0).2
    = Err "Coder decode error: StringUtf8Coder: declared length exceeds remaining bytes" ∧
  (demo_output [demo_stream (take 5 bytes_of) false; demo_stream (drop 5 bytes_of) true] ElementProperties.store0).2 = Ok () ∧
  (demo_output [demo_stream bytes_of true] ElementProperties.store0).2 = Ok ().
Proof. split_and!; vm_compute; reflexivity. Qed.

(** ** Its input *)

Definition demo_to_vec (e : TimerEntry) : outcome string bytes := Ok [].
Definition by_elements (X : gset bytes) : list bytes := elements X.
Definition input_store : MemStore := (write_windowed_value_batch "in" demo_values ElementProperties.store0).1.
Definition world0 : MemWorld := mkWorld input_store (mkDataChannel (Some (mkOutgoing [] false)) new_multiplexer) ∅.
Definition demo_input (time_sorted : bool) : st MemWorld nat :=
  process_input demo_display by_elements demo_to_vec pairs "i" "stage/source" demo_coders "in" [("pardo", "exp")] [("pardo", "exp")] time_sorted.
Definition world1 (time_sorted : bool) : MemWorld := (demo_input time_sorted world0).1.

Lemma demo_input_runs time_sorted : demo_input time_sorted world0 = (world1 time_sorted, Ok 3).
Proof.
  unfold world1. assert ((demo_input time_sorted world0).2 = Ok 3) as Hn by (destruct time_sorted; vm_compute; reflexivity).
  destruct (demo_input time_sorted world0). cbn in *. by rewrite Hn.
Qed.

Lemma bundle_order_perm X : by_elements X ≡ₚ elements X.
Proof. done. Qed.

Lemma stage_input_sent_witness : ∃ values bss ess,
  (∃ read, scan_windowed_values_since "stage/source" "in" input_store = (w_store (world1 true), Ok read) ∧
    values = sort_windowed_values_by_timestamp read) ∧ 3 = length values ∧ encodes_to demo_display demo_coders values bss ∧
  sends (w_data world0) (w_data (world1 true)) (map (data_message "i" "stage/source" false []) (map (@concat byte) (batches_of pairs bss)) ++
    [data_message "i" "stage/source" true [terminate_endpoint "i" ("pardo", "exp")] []]) ∧
  expires_with demo_display demo_coders [("pardo", "exp")] values ess ∧ stores demo_to_vec (w_timers (world1 true)) (set_timers (concat ess) ∅).
Proof.
  destruct (stage_input_sent (T:=gmap bytes bytes) demo_display by_elements demo_to_vec pairs "i" "stage/source" demo_coders "in" [("pardo", "exp")] [("pardo", "exp")] true
    world0 (world1 true) 3 bundle_order_perm (demo_input_runs true)) as (read & values & bss & ess & Hr & Hv & Hn & He & Hs & Hx & Ht).
  exists values, bss, ess. split; [exists read; exact (conj Hr Hv)|].
  split; [exact Hn|]. split; [exact He|]. split; [exact Hs|]. split; [exact Hx|]. apply Ht. intros k. rewrite lookup_empty. exact (lookup_empty (M:=gmap bytes) k).
Defined.

Lemma stage_boundary_round_trip_witness : ∃ messages batches, sends (w_data world0) (w_data (world1 false)) messages ∧
  concat batches = demo_values ∧ demo_output (echoed (DataKey "i" "sink") messages) input_store = write_bundle "out" (batches_of pairs (concat batches)) input_store.
Proof.
  assert ((scan_windowed_values_since "stage/source" "in" (w_store world0)).2 = Ok demo_values) as Hread by (vm_compute; reflexivity).
  destruct (stage_boundary_round_trip (T:=gmap bytes bytes) demo_display by_elements demo_to_vec pairs "i" "stage/source" demo_coders "in" [("pardo", "exp")] [("pardo", "exp")] false
    world0 (world1 false) 3 (DataKey "i" "sink") "out" demo_values (demo_input_runs false) Hread demo_carried) as (messages & batches & Hs & Hb & Ho).
  exists messages, batches. split; [exact Hs|]. split; [exact Hb|]. apply Ho.
Defined.

(** ** Its timers *)

Lemma demo_writable (pending : gmap bytes (option TimerEntry)) (t : gmap bytes bytes) : ∃ t', timer_apply by_elements demo_to_vec pending t = (t', Ok ()).
Proof.
  unfold timer_apply. case_decide; [by exists t|]. rewrite st_run. destruct (traverse_total (E:=string) (λ key,
      match pending !! key with Some (Some entry) => value ← demo_to_vec entry; Ok (key, Some value) | _ => Ok (key, None) end)
    (by_elements (dom pending))) as [ws Hws]; [apply Forall_forall; intros k _; destruct (pending !! k) as [[e|]|]; by eexists|].
  unfold st_lift. rewrite Hws. unfold commit. clear. cbn. revert t. induction ws as [|[k [v|]] ws IH]; intros t; [by exists t|apply IH..].
Qed.

Definition demo_timer_coder : TimerCoder := mkTimerCoder StringUtf8Coder GlobalCoder.
Definition demo_timer (key : bytes) (clear : bool) (at_millis : Z) : Timer :=
  mkTimer (Byte.x01 :: key) "tag" [GlobalWindow] clear at_millis at_millis no_firing.
Definition demo_timers : list Timer := [demo_timer [Byte.x61] false 5; demo_timer [Byte.x62] false 6; demo_timer [Byte.x61] true 0].
Definition demo_timer_bytes : list bytes := match traverse (encode_timer demo_timer_coder) demo_timers with Ok bss => bss | _ => [] end.

Lemma demo_timer_carried name clear at_millis : name ∈ ["a"; "b"] → is_i 64 at_millis →
  carried_timer demo_timer_coder (demo_timer (as_bytes name) clear at_millis).
Proof.
  intros Hname Hat. assert (is_u 64 (str_len name) ∧ wf_string name ∧ encode_length_delimited (as_bytes name) = Byte.x01 :: as_bytes name) as (Hu & Hwf & He).
  { rewrite !elem_of_cons, elem_of_nil in Hname. destruct Hname as [->|[->|[]]]; (split_and!; [split; vm_compute; congruence|reflexivity..]). }
  split; [exists (PRIMITIVE (PString name)); split; [by split|cbn; by rewrite He]|]. split; [reflexivity|]. split; [split; vm_compute; congruence|].
  split; [|exact Hat]. split; [exact Hat|]. split; [by repeat constructor|]. split; [reflexivity|]. split; split; vm_compute; congruence.
Qed.

Definition demo_key (key : bytes) : TimerKey := mkTimerKey "pardo" "family" "tag" "global" (Byte.x01 :: key).
Definition demo_received : gmap bytes TimerEntry := foldl (receive_timer "pardo" "family" EventTime) ∅ demo_timers.

Lemma received_timers_stored_witness : demo_received !! storage_key (demo_key [Byte.x61]) = None ∧
  demo_received !! storage_key (demo_key [Byte.x62]) = Some (mkTimerEntry (demo_key [Byte.x62]) EventTime 6 6) ∧
  ∃ t', drain_timer_elements by_elements demo_to_vec demo_timer_coder EventTime "pardo" "family"
    [TimerChunk (TimersKey "i" "pardo" "family") (mkTimerData "i" "pardo" "family" (concat demo_timer_bytes) true)] ∅ 0 ∅ = (t', Ok 3) ∧
  stores demo_to_vec t' demo_received.
Proof.
  split; [vm_compute; reflexivity|]. split; [vm_compute; reflexivity|].
  destruct (received_timers_stored (T:=gmap bytes bytes) demo_display by_elements demo_to_vec demo_timer_coder EventTime "pardo" "family" bundle_order_perm demo_writable)
    as [Hrec _].
  destruct (Hrec [TimerChunk (TimersKey "i" "pardo" "family") (mkTimerData "i" "pardo" "family" (concat demo_timer_bytes) true)] [demo_timer_bytes] demo_timers ∅ ∅)
    as (t' & Hd & Hs); [| |reflexivity|intros k; rewrite lookup_empty; exact (lookup_empty (M:=gmap bytes) k)|exists t'; split; [exact Hd|exact Hs]].
  - apply Forall_cons. split; [apply (demo_timer_carried "a"); [by left|split; vm_compute; congruence]|].
    apply Forall_cons. split; [apply (demo_timer_carried "b"); [by right; left|split; vm_compute; congruence]|].
    apply Forall_cons. split; [apply (demo_timer_carried "a"); [by left|split; vm_compute; congruence]|by apply Forall_nil].
  - apply Forall2_cons. split; [reflexivity|]. apply Forall2_cons. split; [reflexivity|]. apply Forall2_cons. split; [reflexivity|]. apply Forall2_nil. done.
Defined.
End demo.
